(* ===== verification/_CoqProject ===== *)
-Q . S2P
Prelude.v
MutationQueue.v
Value.v
Utf8.v
CanonicalArgs.v
CanonicalText.v
Sse.v
ClientSse.v
Permission.v
Budget.v
Envelope.v
ToolContent.v
RunModel.v
ToolExec.v
RunLoop.v
RunWalk.v
RunLaws.v
RunEnding.v
RunTermination.v
RunHistory.v
Phase.v
Edits.v
EditLaws.v
EditBlocks.v
Diff.v
Gates.v
Coordinator.v
CoordinatorLaws.v
LeaseSafety.v
ShellWords.v
ShellLaws.v
CommandPolicy.v
PolicyLaws.v
Paths.v
FileTools.v
FileLaws.v
StandingKeys.v
Timestamp.v
Models.v
Store.v
Outbox.v
TaskEvents.v
AgentInputs.v
Conversations.v
Proposals.v
ProviderOrder.v
Tasks.v
Receipts.v
StandingGrants.v
Guarded.v
GuardedLaws.v
Lifecycle.v
SessionOps.v
Ports.v
History.v
Teammates.v
TaskOps.v
TaskSpecs.v
Walk.v
InputLaws.v
OutboxLaws.v
Forest.v
Imports.v
MessageTable.v
Threads.v
OrderLaws.v
Evolution.v
Claims.v
TaskSafety.v
ReceiptLaws.v
ReceiptSafety.v
GuardedRace.v
Fencing.v
SessionLaws.v
Elision.v
Compaction.v
CompactionLaws.v
ChatHistory.v
ChatReplay.v
ProposalLaws.v
