(* ===== verification/Prelude.v ===== *)
(** * AgentKit: a verification development for the Rust backend

    AgentKit runs agents as durable tasks.  Its Rust backend
    ([src/rust/crates]) keeps everything that must survive a crash in one
    SQLite file behind one worker thread: callers send closures to the worker
    ([store/src/actor.rs]), each closure runs in one transaction
    ([transaction.rs]), and commits or rolls back as a whole.  Around the
    store, a run reads the provider's event stream, asks whether each tool
    call is permitted, spends a budget, and edits files; a client follows the
    run through a stream of its own.  The development models
    of the store the tasks and the runs of teammates, conversations, inputs,
    proposals, execution receipts and deliveries; the run loop whole; and of
    the crates around them the parts that decide something: the two stream decoders, the
    client's view, permissions, the execution of a guarded tool, budgets, the
    assembly and compaction of a turn's history, the edit engine, the workspace
    coordinator and the policy on shell commands.

    ** How the store is modelled

    A database is a record of tables, a table a list of rows in [rowid] order
    ([Store.Db]).  An operation of the code is a function in the monad [M]
    ([Db → Res StoreError (A * Db)]): it returns a value and the next database
    or an error without one.  [TaskOps.exec] collects the operations as an
    alphabet, [TaskOps.step] runs one as the worker does (the database of a
    failed job is the one before it), [TaskOps.run] a sequence of them: any
    interleaving of callers is such a sequence, because the worker is one
    thread.  A theorem about reachable stores is about every such sequence
    over the whole alphabet.

    ** How a run is modelled

    A run ([core/src/run.rs]) asks the world questions: the provider's stream,
    the tools, the hooks, the event sink, the clock, the tokens others cancel.
    [RunModel.RunEnv] holds the answers as functions of the number of questions
    asked so far, so a theorem about every [RunEnv] is about every behaviour of
    the world and every interleaving with it; among the answers is what other
    runs consumed or failed of the shared budget in between
    ([RunModel.others_at], [Budget.shared]).  A computation of a run
    ([RunModel.RM]) passes [RunState] along, leaves a trace of what the world
    saw ([RunModel.Obs]), and ends with a value, an error, a panic, or waiting
    for an answer that never comes.

    ** How what happens in between is modelled

    The store's jobs are atomic; what lies between them is not.  Two parts
    are modelled as processes that others may interrupt at every [await].  A
    lease acquisition of the workspace coordinator is a session that moves by
    labelled steps ([Coordinator]), and may be cancelled or dropped at any of
    them.  A call of a guarded tool is a tree of questions ([Guarded.Proc]):
    to the store, the guards, the person, the body; a theorem about all
    answers is about every interleaving with other callers, and [GuardedRace]
    puts any number of such calls against one ledger of receipts.

    ** The files

    Shared:
    - [Prelude]: results, the state-and-error monad, [within] (the relation a
      successful run stays in), machine integers with checked, saturating and
      wrapping arithmetic, stable sorting, list searches.
    - [Value]: JSON values, objects in insertion order, the JavaScript number
      and key conventions of a stored row ([contracts/src/javascript.rs]).
    - [Utf8]: bytes and characters, as [str] has them, and what every escaping
      of JSON strings shares.

    Streams, client, permissions, budgets:
    - [Sse]: [core/src/sse.rs], with a reference reading of a whole text.
    - [ClientSse]: [client/src/sse.rs] and the reading loop of
      [client/src/stream.rs].
    - [Phase]: [client/src/phase.rs] (module [Run]) and
      [client/src/presentation.rs] (modules [Chat] and [Connection]).
    - [Permission]: [core/src/permission.rs], the guards of
      [toolpacks-coding/src/guard.rs] and [napi/src/authority.rs], the chain
      of [host/src/governance].
    - [Budget]: [core/src/budget.rs].

    The run loop:
    - [Envelope]: [core/src/envelope.rs].  [ToolContent]:
      the messages and calls of [core/src/types.rs], the re-keying
      of call ids, the expansion of attachments.
    - [RunModel]: the state, the options and the world of a run.  [ToolExec]:
      [core/src/tool_execution.rs].  [RunLoop]: [core/src/run.rs],
      [run_hooks.rs], [run_cleanup.rs].
    - [RunWalk]: triples for computations of a run, and three interfaces
      ([QuietInv], [ExecInv], [RunInv]) through which an invariant of the
      primitive steps carries to the loop.  Its clients are [RunLaws] (event
      numbers, guards, budget, messages), [RunHistory] (answered calls),
      [RunEnding] (the terminal event) and [RunTermination].

    Edits:
    - [Edits], [EditLaws], [EditBlocks]:
      [toolpacks-coding/src/edit_engine.rs], what its exact edits change, and
      what its normalised ones do.
    - [Diff]: [toolpacks-coding/src/truncate.rs] and [diff.rs], the bounded
      head and tail of an output and the diff reported of an edit.

    Files:
    - [Paths]: [toolpacks-coding/src/paths.rs], the gate of every path
      argument, over a process that asks the file system ([Paths.FsProc]).
    - [FileTools]: [toolpacks-coding/src/fs_util.rs], [version_ledger.rs],
      [args.rs], [errors.rs], and [read_file], [write_file] and [edit_file] of
      [fs_tools.rs], as such processes.  [FileLaws]: a logic of what they may
      ask, and any number of calls against one ledger of versions.
    - [MutationQueue]: [toolpacks-coding/src/mutation_queue.rs], the queues of
      callers that change one file, by labelled steps.

    The workspace:
    - [Gates]: the reader/writer gates of
      [toolpacks-coding/src/coordination.rs].  [Coordinator],
      [CoordinatorLaws]: its acquisitions as sessions, and its quarantine
      check.  [LeaseSafety]: exclusion and progress.
    - [ShellWords], [ShellLaws]: the lexers of
      [toolpacks-coding/src/command_policy.rs].  [CommandPolicy],
      [PolicyLaws]: its verdicts.  [StandingKeys]: the guard that asks again
      for dangerous commands and the key of a standing approval.

    Guarded tools:
    - [CanonicalArgs], [CanonicalText]: the two canonical
      texts of tool arguments ([host/src/governance/durable_execution.rs]).
    - [Receipts]: [store/src/execution_receipts.rs],
      [execution_resolution.rs], [execution_no_start.rs].
      [ReceiptLaws], [ReceiptSafety]: what may happen to the receipts, as an
      abstract machine; that the jobs implement it, and what
      follows.
    - [StandingGrants]: how a chat's metadata remembers approvals and the
      execution mode ([store/src/session_ops.rs]).
    - [Guarded]: one call of a staged tool
      ([host/src/governance/staging.rs], [durable_execution.rs],
      [execution_completion.rs], [execution_recheck.rs]).  [GuardedLaws]: a
      logic for such processes and what holds when the body begins and when
      the call returns.  [GuardedRace]: any number of calls at once.

    The context of a turn:
    - [ChatHistory]: [host/src/chat_history.rs], how stored messages and
      receipts become the history of a request, and how the event sink stores
      a run's messages.  [ChatReplay]: that the two fit together, and where
      they do not.
    - [Elision]: [host/src/tool_result_elision.rs].
    - [Compaction], [CompactionLaws]: [host/src/chat_context.rs],
      [context_window.rs], [compaction.rs], [compaction_request.rs] and
      [compaction_runner.rs].

    The store:
    - [Timestamp]: [store/src/timestamp.rs] and the timestamp reader of
      [agent_inputs.rs].
    - [Models]: the records and enums of [models.rs], [data.rs],
      [conversations.rs], [agent_inputs.rs], [proposals.rs].
    - [Store]: the tables, the row codecs, the primitive row operations of
      [util.rs], and [Host], what the store takes from outside.
    - [Outbox]: [data.rs].  [TaskEvents]: the append path of
      [tasks/events.rs].  [AgentInputs]: [agent_inputs.rs].  [Proposals]:
      [proposals.rs].
    - [Conversations], [ProviderOrder], [History]: [conversations.rs],
      [conversations/order.rs] and [conversations/history.rs].
    - [Tasks]: [tasks.rs], [tasks/lease.rs].  [Lifecycle]:
      [tasks/lifecycle.rs], [retry.rs], [runtime_state.rs].  [Ports]:
      [tasks/ports.rs].
    - [SessionOps]: the operations of [session_ops.rs]: answers and what they
      authorize, parking and interrupting a turn, mid-run projections, and
      the queue of inputs at settlement, flush and admission.
    - [Teammates]: [teammates.rs], the tasks admitted under an agent, the
      waits for children and undecided outcomes that keep its lane, and its
      mailbox.  The agent's row and the verdict on a pinned profile, which
      [agents.rs] and [run_profiles.rs] hold, are arguments of an admission.
    - [TaskOps]: the alphabet, the operations that leave the task,
      attempt and lease tables alone, and a concrete [Host] with small runs for
      the witnesses.  [TaskSpecs]: what a successful task operation wrote.

    Its theorems:
    - [Walk]: an interface ([StoreSteps R]) through which a relation shown of
      the statements that write a table carries to every operation;
      [InputLaws], [OutboxLaws], [MessageTable], [ProposalLaws]
      are its clients.
    - [Evolution]: how one task row may change in one step ([EdgeLaws]), for
      every operation of the alphabet; [Claims], [TaskSafety], [Fencing] are
      about claims, reachable states and lease authority.
    - [SessionLaws]: what the session operations promise; which step of a
      conversion can find its scope busy.
    - [Forest], [Imports], [MessageTable], [Threads]: message trees
      as lists of rows, the traversals over them, and the table that holds
      them.  [OrderLaws]: the provider's message order.

    ** What is shown

    - Authority ([Fencing], [Claims]): a lease a claim returns passes the
      fence until it expires; an authority that is gone is refused for ever;
      an attempt that settled, parked, was retried or interrupted has one
      outcome and writes nothing more.
    - Sessions ([SessionLaws]): a request for a person is answered once; a
      settlement that completes a turn leaves its session with a live task, or
      with no input waiting that its candidates carry, nor any other where the
      session's descriptor was supplied; an admitted input starts a turn or is
      stored behind a live task.
    - Admission ([Claims]): a claim hands out the first task, in priority
      order, that meets every admission condition, and returns nothing only
      when there is none.
    - Task invariants ([TaskSafety]): one active task per scope and per agent,
      as long as no caller writes a status itself; tasks that finished with no
      retry parked stay as they finished; attempt counts are [u32] and never
      drop.  Two theorems show where the code leaves this plan: in every
      reachable store a task completed with its retry parked can be brought
      back, and two parked retries of one scope can block each other for
      ever.
    - Approvals ([ProposalLaws]): every operation moves the proposals and
      receipts by labelled acts of an abstract machine, and only by those it
      may perform, so that nothing is decided twice or withdrawn but by an
      invalidation or a deletion; an apply claim is granted once and
      the first outcome of an operation wins.  One theorem shows a proposal
      that can never leave [applying].
    - Conversations ([Threads], [OrderLaws]): in every reachable store the
      messages of a chat form a forest whose parents come first, the active
      ones are one branch, archived branches are retired whole; the loops of
      activation end; an import stores what it was given; the provider order
      permutes the history within its runs.
    - Inputs, outbox, event log ([InputLaws], [OutboxLaws]): one
      outcome per input and creation order; exclusive delivery windows and
      spent tokens; strictly increasing, deduplicated, mirrored events.
    - Time ([Timestamp]): the calendar is the Gregorian one on every day, and
      the reader inverts the writer on the JavaScript [Date] range.
    - Streams ([Sse], [ClientSse], [Phase]): decoding does not depend on how
      the bytes are cut, buffers stay bounded, late deliveries change nothing.
    - Permissions and budgets ([Permission], [Budget]): a coding call that the
      coding guard lets through is within the role and the mode (the guard of
      JavaScript tools does not read the role); a counter is never granted
      more than its limit.
    - Leases ([LeaseSafety]): conflicting leases are never
      held together, whoever is cancelled or dropped and when; nobody
      overtakes a waiter; no lease is granted over a quarantine published
      under the workspace's lease; acquisitions end and leave no gate behind.
    - Commands ([PolicyLaws], [StandingKeys]): over a syntax of scripts that
      has its own notion of what a script executes ([ShellLaws.Script]),
      whatever the classifier does not hold for high risk executes only
      programs named by spelled-out words that are neither denied nor
      indirect.  The syntax has words (plain, quoted, escaped, with
      substitutions in double quotes), redirections, separators, subshells,
      keywords, assignments and wrappers; examples show that outside of it
      (continued lines, the arms of a case, process substitutions, unquoted
      backticks) a program may hide.  An eligible command is the same single
      command to every reader, and the key of a standing approval determines
      what it was given for.
    - Arguments ([CanonicalArgs], [CanonicalText]): the canonical texts
      depend on the value and determine it, up to the sign of zeroes, which
      the JavaScript text does not show.
    - Receipts ([ReceiptLaws], [ReceiptSafety]): an admission is granted once
      per execution and per approval; a repeat names the open receipt it
      repeats; an outcome is written once; an operator can always close an
      open receipt of a finished run.
    - Guarded calls ([GuardedLaws], [GuardedRace]): a body begins only after
      every guard in turn was asked about its input and passed it, with the
      authority a person gave for these very arguments where one was asked,
      with nothing unsettled in its way and under a receipt just granted; no
      two bodies ever begin under one receipt; a result is handed back only
      once it is recorded.
    - Runs ([RunHistory], [RunLaws], [RunEnding], [RunTermination]): every
      request is a history without unanswered calls; every message added
      travels with one event; nothing starts after a cancellation was seen,
      without validation, or beyond the budget; the end is announced once and
      last; a run in a world that answers returns, and panics only on a given
      history with stand-in results.  The demos of [RunLaws] evaluate the
      corners where the loop does not do what it is documented to.
    - Results ([Envelope], [ToolContent]): the envelope of a tool's result
      fits its budget and says when it was cut; the calls of a turn end up
      with distinct ids.
    - Histories ([ChatHistory], [ChatReplay]): every call of an assembled
      history has one result, stored or made up from the ledger, and a made-up
      one claims no more than the ledger shows; the stored messages of an
      unsteered run of answered calls under distinct ids come back as they
      were, after whatever other runs left in the chat.  Three theorems show
      where messages do not: after a steering message, and when a provider
      uses a call id again.
    - Windows ([Elision], [CompactionLaws]): what is cut is said, counted and
      the oldest; a summary stands for exactly the messages its digest was
      taken of; an admitted request fits its window.
    - Edits ([EditLaws], [EditBlocks]): what an accepted set of edits
      replaces, and that all else stays, byte for byte.  A diff reported
      ([Diff]) is a patch a checking reader applies, and, up to the size at
      which the code gives up its table, a shortest one; the
      head and the tail of an output are whole lines within both limits.
    - Paths ([Paths]): a path that passes leads under the root, through every
      link, and names nothing that the access or the denylist forbids.
    - Files ([FileLaws]): no call replaces a version of a file that its caller
      did not name and its session did not see, however calls interleave and
      whatever others do to the files between two questions; a version counts
      as seen in full only where every line of it was shown or it was written;
      the ledger keeps within its bounds.
    - Mutations ([MutationQueue]): the bodies of one file run one at a time, as
      long as no caller that gives up was the last of its queue; one theorem
      shows two at once where it was.  Nobody is stranded.

    ** Outside the model

    [Host] is a class of what the code relies on and this repository does not
    define: JavaScript number formatting of integers beyond the safe range
    ([js_int], exact within it), the sequence of UUIDs ([uuid], injective),
    the compact text of a JSON value ([json_text]), the text of a binary64 in
    a message, the generated validator of task
    event envelopes, and the verdict on a pinned run profile.
    [TaskOps.example_host] is an instance.  The digests are classes
    ([Receipts.Digests], [Guarded.TextDigest]): nothing is assumed of
    SHA-256, and theorems about digested texts are about the texts.  The
    shortest digits of a float ([CanonicalArgs.LowerExp], with the laws of
    [CanonicalText.LowerExpLaws]), the JSON form of a tool result
    ([Guarded.ResultJson]), lower case beyond ASCII, the fingerprint of a
    command and the canonical paths of the coordinator are parameters ([Paths]
    models how such a path is found; what [canonicalize] answers is assumed to
    be absolute and free of dots); which of
    several live turns a query without an order finds is an argument of
    [SessionOps.queue_or_stage_turn].  The JSON readers and writers of the
    history ([ChatHistory], [Compaction]) and the prompts of the summarizer
    ([Compaction.SummaryPrompts]) are parameters, and what the provider, the
    event sink and the store answer a compaction is its argument
    ([Compaction.CompactionWorld]).  SQLite's own atomicity and
    isolation are what [TaskOps.step] states.  The edit engine takes NFKC
    composition as an argument, the file tools SHA-256, and no theorem assumes
    anything of them; what the file system and the lease coordinator answer a
    file tool is any sequence of answers.

    Fuel.  A loop of the code that is not structural runs on fuel, and answers
    the error [diverges] when the fuel is spent; theorems show that it never
    is.  The two loops of [Conversations.activate] and the one of
    [History.fork_path] take at most one step per message of the chat
    ([Threads.activate_branch], [Threads.fork_path_Ok]); [History.branch_ids]
    one more than the chat has rows ([Forest]); [History.archived_at] as many
    as there are messages, which is the code's own bound;
    [Edits.count_matches] one more than the text has bytes, each step dropping
    one; [ClientSse.trim_boms] as many as the line has bytes;
    [Envelope.fit_loop] halves its budget and has fuel for its logarithm
    ([Envelope.fit_loop_fuel]); [ToolContent.fresh_id] tries one more id
    than are taken ([ToolContent.fresh_id_some]).  [RunLoop.stream_loop] takes one
    step per poll of the stream, and [RunTermination.run_returns] says how many
    are enough.  The substitutions of a shell command and the search for the
    word that names it run on the length of the text ([ShellLaws]);
    [StandingGrants.make_room] on the number of grants, each turn dropping
    one; [Compaction.trim_loop] on the number of messages, each turn dropping
    one or more ([CompactionLaws.trim_loop_spec]); [FileTools.read_loop] on the
    length of the file, each turn filling some of it
    ([FileLaws.read_loop_fails]); [FileTools.evict] on the
    size of the map ([FileLaws.evict_bound]).  [FileTools.climb] has the depth
    the code gives it.  The theorems
    about conversations hold for histories in which the store never holds more
    messages than a [u32] counts ([Threads.peak_messages]).

    Not modelled: the full-text search of conversations (SQLite's FTS5);
    redaction and projections of the event log; the rows of agents and of
    profiles; of the guarded tools the registration of contributed tools
    and the drain of native commands; of the file tools [list_dir], and a call
    whose future is dropped on its way; of the coordinator its durable journals
    and the lock directories; managed content, the import
    of the TypeScript database, schema migration and fault injection; of a run
    the live channel its events also go through and the metadata of tool
    contexts; of a turn its descriptor, provider continuations and hooks; and of
    the crates around it the providers' requests, the host's
    services, processes, lock directories, the protocol adapters, the bindings
    and the TypeScript packages. *)

From Stdlib Require Export Ascii.
From stdpp Require Export base tactics numbers strings list sorting.

#[global] Set Default Goal Selector "!".

(** ** Results *)

(** Rust's [Result<A, E>]. *)
Inductive Res (E A : Type) : Type :=
  | Ok (a : A)
  | Err (e : E).
Arguments Ok {E A} a.
Arguments Err {E A} e.

#[export] Instance res_ret E : MRet (Res E) := λ A a, Ok a.
#[export] Instance res_bind E : MBind (Res E) := λ A B f r,
  match r with Ok a => f a | Err e => Err e end.
#[export] Instance res_fmap E : FMap (Res E) := λ A B f r,
  match r with Ok a => Ok (f a) | Err e => Err e end.

(** [Option::ok_or]. *)
Definition ok_or {E A} (e : E) (o : option A) : Res E A :=
  match o with Some a => Ok a | None => Err e end.

Lemma ok_or_Ok {E A} (e : E) (o : option A) x : ok_or e o = Ok x → o = Some x.
Proof. destruct o; [by intros [= ->]|done]. Qed.

Definition is_ok {E A} (r : Res E A) : bool :=
  match r with Ok _ => true | Err _ => false end.

(** A [?]-sequenced loop over a list that collects the results. *)
Fixpoint res_mapM {E A B} (f : A → Res E B) (l : list A) : Res E (list B) :=
  match l with
  | [] => Ok []
  | a :: l => b ← f a; bs ← res_mapM f l; mret (b :: bs)
  end.

(** ** State with errors *)

(** A fallible computation over a state.  An error carries no state: a job
    that fails is rolled back (see [atomic]). *)
Definition St (S E A : Type) : Type := S → Res E (A * S).

#[export] Instance st_ret S E : MRet (St S E) := λ A a s, Ok (a, s).
#[export] Instance st_bind S E : MBind (St S E) := λ A B f m s,
  match m s with Ok (a, s') => f a s' | Err e => Err e end.

Definition throw {S E A} (e : E) : St S E A := λ _, Err e.
Definition gets {S E A} (f : S → A) : St S E A := λ s, Ok (f s, s).
Definition modify {S E} (f : S → S) : St S E unit := λ s, Ok (tt, f s).
Definition lift {S E A} (r : Res E A) : St S E A := λ s,
  match r with Ok a => Ok (a, s) | Err e => Err e end.
Definition guard_res {E} (b : bool) (e : E) : Res E unit := if b then Ok tt else Err e.
Lemma res_bind_Ok {E A B} (r : Res E A) (f : A → Res E B) b :
  r ≫= f = Ok b → ∃ a, r = Ok a ∧ f a = Ok b.
Proof. destruct r as [a|e]; [eauto|done]. Qed.
Lemma guard_res_Ok {E} b (e : E) u : guard_res b e = Ok u → b = true.
Proof. by destruct b. Qed.
Definition guard_or {S E} (b : bool) (e : E) : St S E unit :=
  if b then mret tt else throw e.

(** A failure seen through [f] ([map_err]); and one transaction within
    another ([SAVEPOINT]): a refusal that is excused leaves the state as it
    was. *)
Definition map_err {S E A} (f : E → E) (m : St S E A) : St S E A := λ s,
  match m s with Ok r => Ok r | Err e => Err (f e) end.
Definition savepoint {S E} (excused : E → bool) (m : St S E unit) : St S E bool := λ s,
  match m s with
  | Ok (_, s') => Ok (true, s')
  | Err e => if excused e then Ok (false, s) else Err e
  end.

(** A [for] loop whose body may fail. *)
Fixpoint for_each {S E A} (f : A → St S E unit) (l : list A) : St S E unit :=
  match l with
  | [] => mret tt
  | a :: l => _ ← f a; for_each f l
  end.

(** A [for] loop that collects one result per element. *)
Fixpoint for_map {S E A B} (f : A → St S E B) (l : list A) : St S E (list B) :=
  match l with
  | [] => mret []
  | a :: l => b ← f a; bs ← for_map f l; mret (b :: bs)
  end.

(** One job on the store worker: commit the state on success, roll back to
    the state before the job on an error. *)
Definition atomic {S E A} (m : St S E A) (s : S) : Res E A * S :=
  match m s with Ok (a, s') => (Ok a, s') | Err e => (Err e, s) end.

Section st_inversion.
Context {S E A B : Type}.
Implicit Types (s : S) (e : E).

Lemma st_bind_Ok (m : St S E A) (f : A → St S E B) s b s' :
  (m ≫= f) s = Ok (b, s') ↔ ∃ a s1, m s = Ok (a, s1) ∧ f a s1 = Ok (b, s').
Proof.
  unfold mbind, st_bind. destruct (m s) as [[a s1]|e]; split.
  - eauto.
  - by intros (a' & s2 & [= -> ->] & ?).
  - done.
  - by intros (a' & s2 & ? & _).
Qed.

Lemma st_bind_step (m : St S E A) (f : A → St S E B) s a s1 :
  m s = Ok (a, s1) → (m ≫= f) s = f a s1.
Proof. unfold mbind, st_bind. by intros ->. Qed.

Lemma st_ret_Ok s (a a' : A) s' :
  (mret a : St S E A) s = Ok (a', s') ↔ a' = a ∧ s' = s.
Proof. split; [by intros [= <- <-]|by intros [-> ->]]. Qed.

Lemma st_gets_Ok (f : S → A) s a s' :
  (gets f : St S E A) s = Ok (a, s') ↔ a = f s ∧ s' = s.
Proof. split; [by intros [= <- <-]|by intros [-> ->]]. Qed.

Lemma st_modify_Ok (f : S → S) s u s' :
  (modify f : St S E unit) s = Ok (u, s') ↔ s' = f s.
Proof. destruct u. split; [by intros [= <-]|by intros ->]. Qed.

Lemma st_lift_Ok (r : Res E A) s a s' :
  lift r s = Ok (a, s') ↔ r = Ok a ∧ s' = s.
Proof.
  unfold lift. destruct r; (split; [|by intros [[=] ->]; subst]); [|done].
  by intros [= <- <-].
Qed.

Lemma st_guard_Ok b e s u s' :
  (guard_or b e : St S E unit) s = Ok (u, s') ↔ b = true ∧ s' = s.
Proof.
  destruct u, b; (split; [|intros [? ->]; done]); [|done]. by intros [= <-].
Qed.
End st_inversion.

Lemma for_map_length {S E A B} (f : A → St S E B) l s bs s' :
  for_map f l s = Ok (bs, s') → length bs = length l.
Proof.
  revert s bs. induction l as [|a l IH]; intros s bs H; simpl in H.
  - apply st_ret_Ok in H as [-> _]. done.
  - apply st_bind_Ok in H as (b & s1 & _ & H). apply st_bind_Ok in H as (bs1 & s2 & H1 & H).
    apply st_ret_Ok in H as [-> ->]. simpl. f_equal. exact (IH _ _ H1).
Qed.

(** [inv_st] takes a successful run apart: every hypothesis [m s = Ok _] is
    split along the binds, guards and branches of [m]. *)
(** Eliminate the later variable of an equation [later = earlier]. *)
Ltac subst_l E := let T := type of E in
  match T with ?x = _ => first [is_var x; subst x | idtac] end.
Ltac subst_r E := let T := type of E in
  match T with _ = ?x => first [is_var x; subst x | idtac] end.
Ltac inv_st_step :=
  match goal with
  | H : (_ ≫= _) _ = Ok (_, _) |- _ =>
      apply st_bind_Ok in H as (? & ? & ? & H)
  | H : mbind _ _ _ = Ok (_, _) |- _ =>
      apply st_bind_Ok in H as (? & ? & ? & H)
  | H : mret _ _ = Ok (_, _) |- _ => let E1 := fresh in let E2 := fresh in
      apply st_ret_Ok in H as [E1 E2]; subst_l E2; subst_l E1
  | H : gets _ _ = Ok (_, _) |- _ => let E1 := fresh in let E2 := fresh in
      apply st_gets_Ok in H as [E1 E2]; subst_l E2; subst_l E1
  | H : modify _ _ = Ok (_, _) |- _ => apply st_modify_Ok in H; subst_l H
  | H : lift _ _ = Ok (_, _) |- _ => let E1 := fresh in let E2 := fresh in
      apply st_lift_Ok in H as [E1 E2]; subst_l E2; subst_l E1
  | H : guard_or _ _ _ = Ok (_, _) |- _ => let E1 := fresh in let E2 := fresh in
      apply st_guard_Ok in H as [E1 E2]; subst_l E2; subst_l E1
  | H : throw _ _ = Ok _ |- _ => discriminate H
  | H : Ok (_, _) = Ok (_, _) |- _ => let E1 := fresh in let E2 := fresh in
      injection H as E1 E2; subst_r E2; subst_r E1
  | H : Ok _ = Ok _ |- _ => let E := fresh in injection H as E; subst_r E
  | H : Err _ = Ok _ |- _ => discriminate H
  | H : Ok _ = Err _ |- _ => discriminate H
  end.
Ltac inv_st := repeat inv_st_step.

(** Split the first [if]/[match] that the run in hypothesis [H] stops at. *)
Ltac case_run H :=
  match type of H with
  | (if ?b then _ else _) _ = _ => destruct b eqn:?
  | (match ?x with _ => _ end) _ = _ => destruct x eqn:?
  | context [if ?b then _ else _] => destruct b eqn:?
  | context [match ?x with _ => _ end] => destruct x eqn:?
  end.

(** ** Steps within a relation

    [within R m]: every successful run of [m] goes from a state to an
    [R]-related one.  For a preorder [R] it composes along the monad, which
    is how the store invariants are carried through the operations. *)
Definition within {S E A} (R : S → S → Prop) (m : St S E A) : Prop :=
  ∀ s a s', m s = Ok (a, s') → R s s'.

(** The relation "the invariant [I] is kept". *)
Definition keeps {S} (I : S → Prop) : S → S → Prop := λ s s', I s → I s'.
#[export] Instance keeps_preorder {S} (I : S → Prop) : PreOrder (keeps I).
Proof. split; unfold keeps; [by intros ? | intros ???; tauto]. Qed.

Create HintDb st discriminated.

Section within.
Context {S E : Type} (R : S → S → Prop) `{!PreOrder R}.

Lemma within_ret {A} (a : A) : within R (mret a : St S E A).
Proof. intros s ? s' ?; inv_st. reflexivity. Qed.

Lemma within_throw {A} (e : E) : within R (throw e : St S E A).
Proof. intros s ? s' ?. inv_st. Qed.

Lemma within_gets {A} (f : S → A) : within R (gets f : St S E A).
Proof. intros s ? s' ?; inv_st. reflexivity. Qed.

Lemma within_lift {A} (r : Res E A) : within R (lift r : St S E A).
Proof. intros s ? s' ?; inv_st. reflexivity. Qed.

Lemma within_guard b (e : E) : within R (guard_or b e : St S E unit).
Proof. intros s ? s' ?; inv_st. reflexivity. Qed.

Lemma within_modify (f : S → S) :
  (∀ s, R s (f s)) → within R (modify f : St S E unit).
Proof. intros Hf s ? s' ?; inv_st. apply Hf. Qed.

Lemma within_bind {A B} (m : St S E A) (f : A → St S E B) :
  within R m → (∀ a, within R (f a)) → within R (m ≫= f).
Proof.
  intros Hm Hf s b s' H. inv_st. etrans; [by eapply Hm | by eapply Hf].
Qed.

Lemma within_for_each {A} (f : A → St S E unit) l :
  (∀ a, a ∈ l → within R (f a)) → within R (for_each f l).
Proof.
  induction l as [|a l IH]; intros Hf; [apply within_ret|].
  apply within_bind; [apply Hf; left|].
  intros _. apply IH. intros ??. apply Hf. by right.
Qed.

Lemma within_for_map {A B} (f : A → St S E B) l :
  (∀ a, a ∈ l → within R (f a)) → within R (for_map f l).
Proof.
  induction l as [|a l IH]; intros Hf; [apply within_ret|].
  apply within_bind; [apply Hf; left|]. intros b.
  apply within_bind; [apply IH; intros ??; apply Hf; by right|].
  intros bs. apply within_ret.
Qed.

Lemma within_map_err {A} f (m : St S E A) : within R m → within R (map_err f m).
Proof. intros H s a s'. unfold map_err. destruct (m s) as [[x s1]|e] eqn:Em; [|done]. intros [= -> ->]. eauto. Qed.
Lemma within_savepoint f (m : St S E unit) : within R m → within R (savepoint f m).
Proof.
  intros H s a s'. unfold savepoint. destruct (m s) as [[x s1]|e] eqn:Em; [intros [= _ <-]; eauto|].
  destruct (f e); [|done]. intros [= _ <-]. reflexivity.
Qed.
End within.

Lemma within_run {S E A} (R : S → S → Prop) (m : St S E A) s a s' : m s = Ok (a, s') → within R m → R s s'.
Proof. intros H Hm. by eapply Hm. Qed.
Lemma map_err_Ok {S E A} f (m : St S E A) s r : map_err f m s = Ok r → m s = Ok r.
Proof. unfold map_err. by destruct (m s). Qed.

#[export] Hint Resolve within_ret within_throw within_gets within_lift
  within_guard within_modify within_for_each within_for_map : st.

(** Walk through a monadic program, leaving the goals about its own
    primitives that the [st] hints do not close. *)
Ltac within_step :=
  match goal with
  | |- within _ (mbind _ _) => apply within_bind; [try typeclasses eauto| |intros ?]
  | |- within _ (if ?b then _ else _) => destruct b eqn:?
  | |- within _ (match ?x with _ => _ end) => destruct x eqn:?
  | |- within _ (for_each _ _) => apply within_for_each; [try typeclasses eauto|intros ? ?]
  | |- within _ (for_map _ _) => apply within_for_map; [try typeclasses eauto|intros ? ?]
  | |- within _ (map_err _ _) => apply within_map_err
  | |- within _ (savepoint _ _) => apply within_savepoint; [try typeclasses eauto|]
  | |- within _ _ => solve [eauto with st typeclass_instances]
  end.
Ltac within_auto := repeat within_step.

(** ** Machine integers

    A w-bit integer is a [Z] in its range; every operation writes out what
    Rust does at the ends of the range. *)
Local Open Scope Z_scope.

Definition i64_min : Z := - 2 ^ 63.
Definition i64_max : Z := 2 ^ 63 - 1.
Definition u32_max : Z := 2 ^ 32 - 1.
Definition u64_max : Z := 2 ^ 64 - 1.
(** [Number.MAX_SAFE_INTEGER], the largest integer the JSON layer keeps. *)
Definition max_safe : Z := 9007199254740991.

Definition in_range (lo hi z : Z) : bool := (lo <=? z) && (z <=? hi).
Definition in_i64 : Z → bool := in_range i64_min i64_max.

Definition checked (lo hi z : Z) : option Z :=
  if in_range lo hi z then Some z else None.
Definition checked_add_i64 (a b : Z) : option Z := checked i64_min i64_max (a + b).
Definition checked_add_u32 (a b : Z) : option Z := checked 0 u32_max (a + b).

(** Rust's saturating arithmetic on [i64]. *)
Definition sat_i64 (z : Z) : Z := Z.max i64_min (Z.min i64_max z).
Definition sat_add (a b : Z) : Z := sat_i64 (a + b).
Definition sat_sub (a b : Z) : Z := sat_i64 (a - b).
Definition sat_mul (a b : Z) : Z := sat_i64 (a * b).

(** Unchecked [+ 1] on [u32] and [u64]: the release profile has no overflow
    checks, so it wraps. *)
Definition wrapping_succ_u32 (n : Z) : Z := (n + 1) mod 2 ^ 32.
Definition wrapping_succ_u64 (n : Z) : Z := (n + 1) mod 2 ^ 64.

Lemma in_range_spec lo hi z : in_range lo hi z = true ↔ lo ≤ z ≤ hi.
Proof. unfold in_range. rewrite andb_true_iff, !Z.leb_le. lia. Qed.

Lemma checked_Some lo hi z r : checked lo hi z = Some r ↔ r = z ∧ lo ≤ z ≤ hi.
Proof.
  unfold checked. destruct (in_range lo hi z) eqn:E.
  - apply in_range_spec in E. split; [by intros [= <-]|by intros [-> _]].
  - split; [done|]. intros [-> Hz]. apply in_range_spec in Hz. congruence.
Qed.

Lemma sat_i64_id z : i64_min ≤ z ≤ i64_max → sat_i64 z = z.
Proof. unfold sat_i64, i64_min, i64_max. lia. Qed.

Lemma sat_i64_bounds z : i64_min ≤ sat_i64 z ≤ i64_max.
Proof. unfold sat_i64, i64_min, i64_max. lia. Qed.

Lemma sat_i64_mono a b : a ≤ b → sat_i64 a ≤ sat_i64 b.
Proof. unfold sat_i64. lia. Qed.

Local Close Scope Z_scope.

(** ** Stable sorting

    [slice::sort_by_key] is stable.  [le] is the boolean order on keys. *)
Section sorting.
Context {A : Type} (le : A → A → bool).

Fixpoint insert_by (x : A) (l : list A) : list A :=
  match l with
  | [] => [x]
  | y :: l' => if le x y then x :: y :: l' else y :: insert_by x l'
  end.

Definition sort_by (l : list A) : list A := foldr insert_by [] l.

Lemma insert_by_perm x l : insert_by x l ≡ₚ x :: l.
Proof.
  induction l as [|y l IH]; simpl; [done|].
  destruct (le x y); [done|]. rewrite IH. apply Permutation_swap.
Qed.

Lemma sort_by_perm l : sort_by l ≡ₚ l.
Proof.
  unfold sort_by. induction l as [|x l IH]; simpl; [done|].
  by rewrite insert_by_perm, IH.
Qed.

Lemma elem_of_sort_by x l : x ∈ sort_by l ↔ x ∈ l.
Proof. by rewrite sort_by_perm. Qed.

Lemma sort_by_length l : length (sort_by l) = length l.
Proof. by rewrite sort_by_perm. Qed.

Hypothesis le_total : ∀ x y, le x y = true ∨ le y x = true.
Hypothesis le_trans : ∀ x y z, le x y = true → le y z = true → le x z = true.

Lemma insert_by_sorted x l :
  StronglySorted (λ a b, le a b = true) l →
  StronglySorted (λ a b, le a b = true) (insert_by x l).
Proof.
  induction 1 as [|y l Hl IH Hy]; simpl; [by repeat constructor|].
  destruct (le x y) eqn:E.
  - constructor; [by constructor|]. constructor; [done|].
    eapply Forall_impl; [done|]. eauto.
  - constructor; [done|]. rewrite insert_by_perm. constructor; [|done].
    destruct (le_total x y); congruence.
Qed.

Lemma sort_by_sorted l : StronglySorted (λ a b, le a b = true) (sort_by l).
Proof. induction l; simpl; [constructor|by apply insert_by_sorted]. Qed.

(** Sorting a sorted list changes nothing. *)
Lemma insert_by_here x l : Forall (λ y, le x y = true) l → insert_by x l = x :: l.
Proof. destruct 1 as [|y l E _]; simpl; [done|]. by rewrite E. Qed.

Lemma sort_by_id l : StronglySorted (λ a b, le a b = true) l → sort_by l = l.
Proof.
  unfold sort_by. induction 1 as [|x l _ IH Hx]; simpl; [done|]. by rewrite IH, insert_by_here.
Qed.

(** Stability: a group of mutually equivalent elements keeps its order. *)
Lemma insert_by_stable (P : A → bool) x l :
  (∀ a b, P a = true → P b = true → le a b = true) →
  base.filter (λ a, P a = true) (insert_by x l) = base.filter (λ a, P a = true) (x :: l).
Proof.
  intros HP. induction l as [|y l IH]; [done|].
  simpl insert_by. destruct (le x y) eqn:E; [done|].
  rewrite (filter_cons _ y), IH, !filter_cons.
  destruct (decide (P x = true)), (decide (P y = true)); try done.
  rewrite HP in E; done.
Qed.

Lemma sort_by_stable (P : A → bool) l :
  (∀ a b, P a = true → P b = true → le a b = true) →
  base.filter (λ a, P a = true) (sort_by l) = base.filter (λ a, P a = true) l.
Proof.
  intros HP. induction l as [|x l IH]; [done|].
  unfold sort_by in *. simpl foldr. rewrite insert_by_stable by done.
  by rewrite !filter_cons, IH.
Qed.
End sorting.

(** Sorting commutes with a map that keeps the keys. *)
Lemma sort_by_map {A B} (le : A → A → bool) (le' : B → B → bool) (f : A → B) l :
  (∀ a b, le' (f a) (f b) = le a b) → sort_by le' (map f l) = map f (sort_by le l).
Proof.
  intros Hf. unfold sort_by. induction l as [|x l IH]; simpl; [done|]. rewrite IH.
  generalize (foldr (insert_by le) [] l) as k. intros k.
  induction k as [|y k IHk]; simpl; [done|]. rewrite Hf. destruct (le x y); simpl; by rewrite ?IHk.
Qed.

(** A sorted list puts the elements it is sorted before in front. *)
Lemma StronglySorted_app_le {A} (R : A → A → Prop) l1 l2 x y :
  StronglySorted R (l1 ++ l2) → x ∈ l1 → y ∈ l2 → R x y.
Proof.
  induction l1 as [|a l1 IH]; simpl; [by intros ? ?%elem_of_nil|].
  intros Hs Hx Hy. apply StronglySorted_inv in Hs as [Hs Ha].
  apply elem_of_cons in Hx as [->|Hx]; [|by eapply IH].
  rewrite Forall_forall in Ha. apply Ha. apply elem_of_app. by right.
Qed.

(** ** Lists *)

(** [Iterator::find]. *)
Fixpoint find_by {A} (p : A → bool) (l : list A) : option A :=
  match l with
  | [] => None
  | a :: l => if p a then Some a else find_by p l
  end.

Definition filter_by {A} (p : A → bool) : list A → list A :=
  base.filter (λ a, p a = true).

Lemma elem_of_filter_by {A} (p : A → bool) l x :
  x ∈ filter_by p l ↔ p x = true ∧ x ∈ l.
Proof. unfold filter_by. by rewrite list_elem_of_filter. Qed.

Lemma filter_by_cons {A} (p : A → bool) a l :
  filter_by p (a :: l) = if p a then a :: filter_by p l else filter_by p l.
Proof. unfold filter_by. rewrite filter_cons. by destruct (p a). Qed.

Lemma filter_by_app {A} (p : A → bool) l l' : filter_by p (l ++ l') = filter_by p l ++ filter_by p l'.
Proof. apply filter_app. Qed.

Lemma filter_by_ext {A} (p q : A → bool) l :
  (∀ x, x ∈ l → p x = q x) → filter_by p l = filter_by q l.
Proof.
  unfold filter_by. induction l as [|a l IH]; intros H; [done|]. rewrite !filter_cons.
  rewrite IH by (intros x Hx; apply H; by right). rewrite (H a) by left. done.
Qed.

Lemma filter_by_none {A} (p : A → bool) l : (∀ x, x ∈ l → p x = false) → filter_by p l = [].
Proof.
  intros H. rewrite (filter_by_ext p (λ _, false)) by done. unfold filter_by. clear H.
  by induction l.
Qed.

Lemma filter_by_id {A} (p : A → bool) l : (∀ x, x ∈ l → p x = true) → filter_by p l = l.
Proof.
  induction l as [|a l IH]; intros H; [done|]. rewrite filter_by_cons, H by left.
  f_equal. apply IH. intros x Hx. apply H. by right.
Qed.

Lemma filter_by_negb {A} (p : A → bool) (l : list A) :
  filter_by p l ++ filter_by (λ a, negb (p a)) l ≡ₚ l.
Proof.
  induction l as [|a l IH]; [done|]. rewrite !filter_by_cons. destruct (p a); simpl.
  - by rewrite IH.
  - by rewrite <-Permutation_middle, IH.
Qed.

Lemma filter_by_filter_by {A} (p q : A → bool) (l : list A) :
  filter_by p (filter_by q l) = filter_by (λ a, q a && p a) l.
Proof.
  induction l as [|a l IH]; [done|]. rewrite !filter_by_cons. destruct (q a); simpl; [|done].
  rewrite filter_by_cons. by destruct (p a); rewrite IH.
Qed.

Lemma omap_filter_by {A B} (f : A → option B) (p : A → bool) (l : list A) :
  (∀ a, a ∈ l → p a = false → f a = None) → omap f l = omap f (filter_by p l).
Proof.
  induction l as [|a l IH]; intros H; [done|]. rewrite filter_by_cons.
  assert (omap f l = omap f (filter_by p l)) as E by (apply IH; intros; apply H; [by right|done]).
  specialize (H a (list_elem_of_here _ _)). destruct (p a); simpl.
  - destruct (f a); [f_equal|]; exact E.
  - rewrite (H eq_refl). exact E.
Qed.

Lemma elem_of_subseteq_take {A} n (l : list A) x : x ∈ take n l → x ∈ l.
Proof. intros (i & ? & _)%elem_of_take. by eapply list_elem_of_lookup_2. Qed.

Lemma NoDup_map_filter {A B} (f : A → B) (P : A → Prop) `{!∀ a, Decision (P a)} l :
  NoDup (map f l) → NoDup (map f (base.filter P l)).
Proof.
  induction l as [|a l IH]; [done|]. simpl. intros [Ha ?]%NoDup_cons.
  rewrite filter_cons. case_decide; [|auto]. simpl. apply NoDup_cons. split; [|auto].
  intros (b & Eq & [_ ?]%list_elem_of_filter)%list_elem_of_fmap. apply Ha. rewrite Eq.
  by apply list_elem_of_fmap_2.
Qed.

Lemma NoDup_map_take {A B} (f : A → B) n (l : list A) : NoDup (map f l) → NoDup (map f (take n l)).
Proof.
  intros Hl. rewrite <-firstn_map. eapply sublist_NoDup; [exact Hl|apply sublist_take].
Qed.

Lemma sorted_weaken {A} (R S : A → A → Prop) l :
  (∀ x y, R x y → S x y) → StronglySorted R l → StronglySorted S l.
Proof. intros H. induction 1; constructor; [done|]. eapply Forall_impl; eauto. Qed.

Lemma sorted_map {A B} (R : B → B → Prop) (f : A → B) l :
  StronglySorted R (map f l) ↔ StronglySorted (λ a b, R (f a) (f b)) l.
Proof.
  induction l as [|a l IH]; simpl; [split; constructor|].
  split; intros [Hl Ha]%StronglySorted_inv; (constructor; [by apply IH|]); by apply Forall_fmap.
Qed.

Lemma sorted_filter {A} (P : A → Prop) `{!∀ a, Decision (P a)} (R : A → A → Prop) l :
  StronglySorted R l → StronglySorted R (base.filter P l).
Proof.
  induction 1 as [|a l _ IH Ha]; [constructor|].
  rewrite filter_cons. case_decide; [|done]. constructor; [done|].
  rewrite Forall_forall in Ha |- *. intros b [_ Hb]%list_elem_of_filter. auto.
Qed.

Lemma sorted_of_lookup {A} (R : A → A → Prop) l :
  (∀ i k a b, l !! i = Some a → l !! k = Some b → (i < k)%nat → R a b) → StronglySorted R l.
Proof.
  induction l as [|x l IH]; intros H; constructor.
  - apply IH. intros i k a b Hi Hk Hik. apply (H (S i) (S k) a b); [done..|lia].
  - apply Forall_forall. intros y [k Hk]%list_elem_of_lookup. apply (H 0%nat (S k) x y); [done..|lia].
Qed.

Lemma sorted_lookup {A} (R : A → A → Prop) l i k a b :
  StronglySorted R l → l !! i = Some a → l !! k = Some b → (i < k)%nat → R a b.
Proof.
  intros Hl. revert i k. induction Hl as [|x l Hl IH Hx]; intros i k Hi Hk Hik; [done|].
  destruct k as [|k]; [lia|]. simpl in Hk. destruct i as [|i]; simpl in Hi.
  - injection Hi as ->. rewrite Forall_forall in Hx. apply Hx. by eapply list_elem_of_lookup_2.
  - apply (IH i k); [done..|lia].
Qed.

Lemma find_by_Some {A} (p : A → bool) l x :
  find_by p l = Some x → x ∈ l ∧ p x = true.
Proof.
  induction l as [|a l IH]; simpl; [done|]. destruct (p a) eqn:E.
  - intros [= ->]. split; [left|done].
  - intros [??]%IH. split; [by right|done].
Qed.

Lemma find_by_None {A} (p : A → bool) l :
  find_by p l = None ↔ ∀ x, x ∈ l → p x = false.
Proof.
  induction l as [|a l IH]; simpl; [split; [by intros _ ? ?%elem_of_nil|done]|].
  destruct (p a) eqn:E.
  - split; [done|]. intros H. specialize (H a). rewrite H in E; [done|left].
  - rewrite IH. split.
    + intros H x [->|?]%elem_of_cons; auto.
    + intros H x ?. apply H. by right.
Qed.

Lemma existsb_true {A} (p : A → bool) l :
  existsb p l = true ↔ ∃ x, x ∈ l ∧ p x = true.
Proof. rewrite existsb_exists. setoid_rewrite list_elem_of_In. done. Qed.

Lemma existsb_false {A} (p : A → bool) l :
  existsb p l = false ↔ ∀ x, x ∈ l → p x = false.
Proof.
  rewrite <-not_true_iff_false, existsb_true. split.
  - intros H x Hx. destruct (p x) eqn:E; [|done]. exfalso. eauto.
  - intros H (x & Hx & E). rewrite H in E; done.
Qed.

(** [Iterator::max_by_key] keeps the last maximum, [min_by_key] the first
    minimum. *)
Fixpoint max_by_key {A} (key : A → Z) (l : list A) : option A :=
  match l with
  | [] => None
  | a :: l => match max_by_key key l with
              | Some b => if (key a <=? key b)%Z then Some b else Some a
              | None => Some a
              end
  end.
Fixpoint min_by_key {A} (key : A → Z) (l : list A) : option A :=
  match l with
  | [] => None
  | a :: l => match min_by_key key l with
              | Some b => if (key a <=? key b)%Z then Some a else Some b
              | None => Some a
              end
  end.

Lemma min_by_key_elem {A} (key : A → Z) l a : min_by_key key l = Some a → a ∈ l.
Proof.
  revert a. induction l as [|x l IH]; [done|]. simpl. intros a.
  destruct (min_by_key key l) as [b|]; [|intros [= ->]; left].
  destruct (key x <=? key b)%Z; intros [= <-]; [left|right; auto].
Qed.
Lemma min_by_key_None {A} (key : A → Z) l : min_by_key key l = None → l = [].
Proof.
  destruct l as [|x l]; [done|]. simpl. destruct (min_by_key key l); [|done]. by destruct (_ <=? _)%Z.
Qed.
Lemma max_by_key_elem {A} (key : A → Z) l a : max_by_key key l = Some a → a ∈ l.
Proof.
  revert a. induction l as [|x l IH]; intros a; simpl; [done|].
  destruct (max_by_key key l) as [b|]; [|intros [= ->]; left].
  destruct (_ <=? _)%Z; intros [= <-]; [right; by apply IH|left].
Qed.

(** [Option::is_some_and], [Option::is_none_or]. *)
Definition is_some_and {A} (o : option A) (p : A → bool) : bool :=
  match o with Some a => p a | None => false end.
Definition is_none_or {A} (o : option A) (p : A → bool) : bool :=
  match o with Some a => p a | None => true end.
Definition is_some {A} (o : option A) : bool :=
  match o with Some _ => true | None => false end.
(** [Option::or]. *)
Definition opt_or {A} (o o' : option A) : option A :=
  match o with Some a => Some a | None => o' end.
(** [Option::filter]. *)
Definition opt_filter {A} (p : A → bool) (o : option A) : option A :=
  match o with Some a => if p a then Some a else None | None => None end.

Lemma opt_filter_Some {A} (f : A → bool) o a : opt_filter f o = Some a → o = Some a ∧ f a = true.
Proof. destruct o as [x|]; simpl; [|done]. destruct (f x) eqn:E; [|done]. by intros [= <-]. Qed.
Lemma opt_filter_None {A} (f : A → bool) o a : opt_filter f o = None → o = Some a → f a = false.
Proof. intros H ->. simpl in H. by destruct (f a). Qed.

(** Equality of optional strings, as [Option<String>]'s [==]. *)
Definition ostr_eqb (a b : option string) : bool := bool_decide (a = b).
Definition mem_str (s : string) (l : list string) : bool := bool_decide (s ∈ l).

(** A quoted string, as [{:?}] prints one without escapes. *)
Definition dquote : string := String (ascii_of_nat 34) EmptyString.
Definition debug_str (s : string) : string := dquote +:+ s +:+ dquote.

Lemma bool_decide_spec P `{Decision P} : bool_decide P = true ↔ P.
Proof. apply bool_decide_eq_true. Qed.

(** Turn the boolean tests of the code into propositions. *)
Ltac reflect_bools :=
  repeat match goal with
  | H : _ && _ = true |- _ => apply andb_true_iff in H as [? ?]
  | H : _ || _ = false |- _ => apply orb_false_iff in H as [? ?]
  | H : negb _ = true |- _ => apply negb_true_iff in H
  | H : negb _ = false |- _ => apply negb_false_iff in H
  | H : bool_decide _ = true |- _ => apply bool_decide_eq_true in H
  | H : bool_decide _ = false |- _ => apply bool_decide_eq_false in H
  | H : (_ <? _)%Z = true |- _ => apply Z.ltb_lt in H
  | H : (_ <? _)%Z = false |- _ => apply Z.ltb_ge in H
  | H : (_ <=? _)%Z = true |- _ => apply Z.leb_le in H
  | H : (_ <=? _)%Z = false |- _ => apply Z.leb_gt in H
  | H : (_ =? _)%Z = true |- _ => apply Z.eqb_eq in H
  | H : (_ =? _)%Z = false |- _ => apply Z.eqb_neq in H
  end.

(** ** Record update

    [r <| f := v |>] is [r] with field [f] replaced, as the code's
    assignment [r.f = v]. *)
Class Upd {R T : Type} (f : R → T) := upd : T → R → R.
Arguments upd {R T} f {_} v r /.
#[warning="-postfix-notation-not-level-1"]
Notation "r <| f := v |>" := (upd f v r)
  (at level 12, f at next level, v at level 200, left associativity,
   format "r  <| f  :=  v |>").
