(* ===== verification/MutationQueue.v ===== *)
(** * The queue of file mutations

    [toolpacks-coding/src/mutation_queue.rs].  A caller joins the queue of its
    file, waits for every earlier link, runs its body, and leaves; a future
    dropped while it waits leaves at once.  The links of all queues are one
    list, a link's number its place in it, so that an earlier link is a smaller
    number.  A step is what a caller does between two awaits; the memory a link
    keeps alive is left out. *)

From stdpp Require Import gmap.
From S2P Require Export Prelude.
Local Open Scope nat_scope.

(** Where a caller is: at the link it awaits, in its body, or gone. *)
Inductive TailStage := Waiting (next : option nat) | Running | Gone.
Record Tail := mkTail { tl_key : string; tl_prev : option nat; tl_stage : TailStage }.
Record Queues := mkQueues { qs_tails : gmap string nat; qs_links : list Tail }.
Definition no_queues : Queues := mkQueues ∅ [].

(** [done] is cancelled when the guard is dropped. *)
Definition is_done (t : Tail) : bool := match t.(tl_stage) with Gone => true | _ => false end.
Definition set_link (w : Queues) (i : nat) (t : Tail) : Queues := mkQueues w.(qs_tails) (<[i := t]> w.(qs_links)).

(** Joining a queue, up to the first await. *)
Definition join_queue (key : string) (w : Queues) : Queues :=
  let prev := w.(qs_tails) !! key in
  mkQueues (<[key := length w.(qs_links)]> w.(qs_tails)) (w.(qs_links) ++ [mkTail key prev (Waiting prev)]).
(** One turn of [wait_for_predecessors]: a link that is done is passed; behind
    the last of them the link forgets its own and the body starts. *)
Definition wait_turn (i : nat) (w : Queues) : option Queues :=
  t ← w.(qs_links) !! i;
  match t.(tl_stage) with
  | Waiting (Some l) =>
      link ← w.(qs_links) !! l;
      if is_done link then Some (set_link w i (mkTail t.(tl_key) t.(tl_prev) (Waiting link.(tl_prev)))) else None
  | Waiting None => Some (set_link w i (mkTail t.(tl_key) None Running))
  | _ => None
  end.
(** [Guard::drop]. *)
Definition drop_guard (i : nat) (t : Tail) (w : Queues) : Queues :=
  mkQueues (if bool_decide (w.(qs_tails) !! t.(tl_key) = Some i) then delete t.(tl_key) w.(qs_tails) else w.(qs_tails))
    (<[i := mkTail t.(tl_key) t.(tl_prev) Gone]> w.(qs_links)).
(** The body ends, or its future is dropped. *)
Definition end_body (i : nat) (w : Queues) : option Queues :=
  t ← w.(qs_links) !! i;
  match t.(tl_stage) with Running => Some (drop_guard i t w) | _ => None end.
(** The future is dropped while it waits. *)
Definition drop_waiter (i : nat) (w : Queues) : option Queues :=
  t ← w.(qs_links) !! i;
  match t.(tl_stage) with Waiting _ => Some (drop_guard i t w) | _ => None end.

Inductive QueueMove := Register (key : string) | Advance (i : nat) | Finish (i : nat) | Abandon (i : nat).
Definition queue_move (m : QueueMove) (w : Queues) : option Queues :=
  match m with
  | Register key => Some (join_queue key w)
  | Advance i => wait_turn i w
  | Finish i => end_body i w
  | Abandon i => drop_waiter i w
  end.
Fixpoint queue_moves (ms : list QueueMove) (w : Queues) : option Queues :=
  match ms with [] => Some w | m :: ms => w ← queue_move m w; queue_moves ms w end.

(** ** Who is in whose way *)

Definition in_queue (w : Queues) (key : string) (i : nat) : Prop :=
  ∃ t, w.(qs_links) !! i = Some t ∧ t.(tl_key) = key ∧ is_done t = false.
Definition in_body (w : Queues) (key : string) (i : nat) : Prop :=
  ∃ t, w.(qs_links) !! i = Some t ∧ t.(tl_key) = key ∧ t.(tl_stage) = Running.
(** The links of a queue met from one on, back through the earlier ones. *)
Inductive behind (w : Queues) (key : string) (j : nat) : option nat → Prop :=
  | behind_here : behind w key j (Some j)
  | behind_next l t : w.(qs_links) !! l = Some t → t.(tl_key) = key → behind w key j t.(tl_prev) → behind w key j (Some l).

(** A caller that leaves while it waits is not the last of its queue while
    another is in it. *)
Definition orderly (m : QueueMove) (w : Queues) : Prop :=
  match m with
  | Abandon i => ∀ key j, w.(qs_tails) !! key = Some i → in_queue w key j → j = i
  | _ => True
  end.
Inductive queue_attained : Queues → Prop :=
  | queue_start : queue_attained no_queues
  | queue_moved m w w' : queue_attained w → orderly m w → queue_move m w = Some w' → queue_attained w'.

(** A link met on the way from [i] is an earlier one of the same queue. *)
Definition earlier (w : Queues) (key : string) (i l : nat) : Prop := l < i ∧ ∃ u, w.(qs_links) !! l = Some u ∧ u.(tl_key) = key.

Record queues_ok (w : Queues) : Prop := {
  qo_back i t l : w.(qs_links) !! i = Some t → t.(tl_prev) = Some l ∨ t.(tl_stage) = Waiting (Some l) → earlier w t.(tl_key) i l;
  qo_prev i t j : w.(qs_links) !! i = Some t → in_queue w t.(tl_key) j → j < i → behind w t.(tl_key) j t.(tl_prev);
  qo_wait i t next j : w.(qs_links) !! i = Some t → t.(tl_stage) = Waiting next → in_queue w t.(tl_key) j → j < i → behind w t.(tl_key) j next;
  qo_run i t j : w.(qs_links) !! i = Some t → t.(tl_stage) = Running → in_queue w t.(tl_key) j → i ≤ j;
  qo_tail key i : w.(qs_tails) !! key = Some i → ∃ t, w.(qs_links) !! i = Some t ∧ t.(tl_key) = key ∧ ∀ j, in_queue w key j → j ≤ i;
  qo_none key j : w.(qs_tails) !! key = None → ¬ in_queue w key j
}.
Lemma no_queues_ok : queues_ok no_queues.
Proof. split; try done. intros key j _ (t & ? & _). done. Qed.

Lemma behind_le w key j l : queues_ok w → behind w key j (Some l) → j ≤ l.
Proof.
  intros Hw H. remember (Some l) as p eqn:E. revert l E. induction H as [|l0 t Hl Hk Hb IH]; intros l [= ->]; [done|].
  destruct (tl_prev t) as [l1|] eqn:Ep; [|inversion Hb]. specialize (IH _ eq_refl). destruct (qo_back _ Hw _ _ _ Hl (or_introl Ep)) as [? _]. lia.
Qed.
(** A path survives where the links keep their key and their predecessor. *)
Lemma behind_kept w w' key j p : (∀ l t, w.(qs_links) !! l = Some t → ∃ t', w'.(qs_links) !! l = Some t' ∧ t'.(tl_key) = t.(tl_key) ∧ t'.(tl_prev) = t.(tl_prev)) →
  behind w key j p → behind w' key j p.
Proof.
  intros Hk. induction 1 as [|l t Hl E Hb IH]; [constructor|]. destruct (Hk _ _ Hl) as (t' & Hl' & Ek & Ep).
  apply (behind_next _ _ _ l t'); [done|congruence|by rewrite Ep].
Qed.
Lemma lookup_set {A} (l : list A) i x y k : l !! i = Some x → <[i := y]> l !! k = if decide (k = i) then Some y else l !! k.
Proof.
  intros H. apply lookup_lt_Some in H. destruct (decide (k = i)) as [->|Hne]; [by apply list_lookup_insert_eq|by apply list_lookup_insert_ne].
Qed.

Lemma join_queue_ok key w : queues_ok w → queues_ok (join_queue key w).
Proof.
  intros Hw. pose proof Hw as [Hb Hp Hwt Hr Ht Hn]. set (w' := join_queue key w). set (n := length (qs_links w)).
  assert (∀ i t, qs_links w' !! i = Some t → qs_links w !! i = Some t ∨ i = n ∧ t = mkTail key (qs_tails w !! key) (Waiting (qs_tails w !! key))) as Hlk.
  { intros i t [H|[Hi H]]%lookup_app_Some; [by left|right]. destruct (i - length (qs_links w)) eqn:E; [|done]. injection H as <-. split; [unfold n; lia|done]. }
  assert (∀ i t, qs_links w !! i = Some t → qs_links w' !! i = Some t ∧ i < n) as Hup.
  { intros i t H. split; [by apply lookup_app_l_Some|by apply lookup_lt_Some in H]. }
  assert (∀ k j, in_queue w' k j → in_queue w k j ∧ j < n ∨ j = n ∧ k = key) as Hlive.
  { intros k j (t & [H|[-> ->]]%Hlk & <- & Hd); [left|by right]. split; [by exists t|by apply Hup in H as [_ ?]]. }
  assert (∀ k j p, behind w k j p → behind w' k j p) as Hbk.
  { intros k j p. apply behind_kept. intros l t H%Hup. exists t. tauto. }
  assert (∀ j, in_queue w key j → behind w' key j (qs_tails w !! key)) as Hnew.
  { intros j Hj. destruct (qs_tails w !! key) as [l|] eqn:E; [|by apply Hn in Hj]. destruct (Ht _ _ E) as (t & Hl & Hk & Hmax).
    destruct (decide (j = l)) as [->|Hne]; [constructor|]. specialize (Hmax j Hj). apply Hbk. apply (behind_next _ _ _ l t); [done|done|].
    rewrite <- Hk. apply (Hp l t); [done|by rewrite Hk|lia]. }
  split.
  - intros i t l [H|[-> ->]]%Hlk.
    + intros (? & u & Hu & ?)%(Hb i t l H). split; [done|]. exists u. by apply Hup in Hu as [? _].
    + simpl. intros E. assert (qs_tails w !! key = Some l) as E' by (destruct E as [E|[= E]]; exact E).
      destruct (Ht _ _ E') as (t & Hl%Hup & Hk & _). destruct Hl. split; [done|]. by exists t.
  - intros i t j [H|[-> ->]]%Hlk [[Hj _]|[-> Hk]]%Hlive Hlt.
    + apply Hbk. by apply Hp with (i := i).
    + apply Hup in H as [_ ?]. lia.
    + by apply Hnew.
    + lia.
  - intros i t next j [H|[-> ->]]%Hlk Hs [[Hj _]|[-> Hk]]%Hlive Hlt.
    + apply Hbk. by apply Hwt with (i := i).
    + apply Hup in H as [_ ?]. lia.
    + injection Hs as <-. by apply Hnew.
    + lia.
  - intros i t j [H|[-> ->]]%Hlk Hs; [|done]. intros [[Hj _]|[-> Hk]]%Hlive; [by apply (Hr i t)|]. apply Hup in H as [_ ?]. lia.
  - intros k i Hki. change (<[key := n]> (qs_tails w) !! k = Some i) in Hki. apply lookup_insert_Some in Hki as [[<- <-]|[Hne E]].
    + exists (mkTail key (qs_tails w !! key) (Waiting (qs_tails w !! key))). split; [|split; [done|]].
      * simpl. by rewrite lookup_app_r, Nat.sub_diag by done.
      * intros j [[_ ?]|[-> _]]%Hlive; [unfold n in *; lia|done].
    + destruct (Ht _ _ E) as (t & Hl%Hup & Hk & Hmax). exists t. split; [by destruct Hl|]. split; [done|].
      intros j [[Hj _]|[-> ->]]%Hlive; [by apply Hmax|done].
  - intros k j Hkj. change (<[key := n]> (qs_tails w) !! k = None) in Hkj. apply lookup_insert_None in Hkj as [Hk Hne]. intros [[Hj _]|[-> ->]]%Hlive; [by eapply Hn|done].
Qed.

(** One link changes: it keeps its key, and its predecessor while anyone is in
    the queue before it; what it then waits for still leads to all of those. *)
Lemma relink_ok w i t t' tails : queues_ok w → w.(qs_links) !! i = Some t → is_done t = false → t'.(tl_key) = t.(tl_key) →
  (t'.(tl_prev) = t.(tl_prev) ∨ t'.(tl_prev) = None ∧ ∀ j, in_queue w t.(tl_key) j → i ≤ j) →
  (∀ l, t'.(tl_stage) = Waiting (Some l) → earlier w t.(tl_key) i l) →
  (∀ next j, t'.(tl_stage) = Waiting next → in_queue w t.(tl_key) j → j < i → behind w t.(tl_key) j next) →
  (∀ j, t'.(tl_stage) = Running → in_queue w t.(tl_key) j → i ≤ j) →
  (∀ key k, tails !! key = Some k → w.(qs_tails) !! key = Some k) →
  (∀ key j, tails !! key = None → ¬ in_queue (mkQueues tails (<[i := t']> w.(qs_links))) key j) →
  queues_ok (mkQueues tails (<[i := t']> w.(qs_links))).
Proof.
  intros Hw Hi Hd Hkey Hprev Hback Hwait Hrun Htails Hnone. pose proof Hw as [Hb Hp Hwt Hr Ht Hn]. set (w' := mkQueues _ _) in *.
  assert (∀ k, qs_links w' !! k = if decide (k = i) then Some t' else qs_links w !! k) as Hlk by (intros k; by eapply lookup_set).
  assert (∀ k j, in_queue w' k j → in_queue w k j) as Hlive.
  { intros k j (u & Hu & <- & Hdu). rewrite Hlk in Hu. destruct (decide (j = i)) as [->|_]; [injection Hu as <-; by exists t|by exists u]. }
  assert (∀ k j p, in_queue w k j → behind w k j p → behind w' k j p) as Hbk.
  { intros k j p Hj. induction 1 as [|l u Hl Hk Hbu IH]; [constructor|]. destruct (decide (l = i)) as [->|Hne].
    - rewrite Hi in Hl. injection Hl as <-. apply (behind_next _ _ _ i t'); [by rewrite Hlk, decide_True|congruence|].
      destruct Hprev as [->|[_ Hmin]]; [done|]. exfalso. destruct (tl_prev t) as [l1|] eqn:E; [|inversion Hbu].
      apply behind_le in Hbu; [|done]. destruct (Hb _ _ _ Hi (or_introl E)) as [? _]. rewrite <- Hk in Hj. specialize (Hmin _ Hj). lia.
    - apply (behind_next _ _ _ l u); [by rewrite Hlk, decide_False|done|done]. }
  split.
  - intros k u l Hu E. assert (earlier w (tl_key u) k l) as (? & v & Hv & Ev).
    { rewrite Hlk in Hu. destruct (decide (k = i)) as [->|_]; [|by apply Hb]. injection Hu as <-. rewrite Hkey.
      destruct E as [E|E]; [|by apply Hback]. destruct Hprev as [Ep|[Ep _]]; rewrite Ep in E; [|done]. apply Hb; [done|by left]. }
    split; [done|]. destruct (decide (l = i)) as [->|Hne]; [exists t'|exists v]; rewrite Hlk; [rewrite decide_True by done|by rewrite decide_False].
    split; [done|congruence].
  - intros k u j. rewrite Hlk. destruct (decide (k = i)) as [->|_]; [|intros Hu Hj%Hlive Hlt; apply Hbk; [done|by eapply Hp]].
    intros [= <-] Hj%Hlive Hlt. rewrite Hkey in *. destruct Hprev as [->|[_ Hmin]]; [apply Hbk; [done|by eapply Hp]|]. specialize (Hmin _ Hj). lia.
  - intros k u next j. rewrite Hlk. destruct (decide (k = i)) as [->|_]; [|intros Hu Hs Hj%Hlive Hlt; apply Hbk; [done|by eapply Hwt]].
    intros [= <-] Hs Hj%Hlive Hlt. rewrite Hkey in *. apply Hbk; [done|by apply Hwait].
  - intros k u j. rewrite Hlk. destruct (decide (k = i)) as [->|_]; [|intros Hu Hs Hj%Hlive; by eapply Hr].
    intros [= <-] Hs Hj%Hlive. rewrite Hkey in *. by apply Hrun.
  - intros key k Hk%Htails. destruct (Ht _ _ Hk) as (u & Hu & Ek & Hmax). destruct (decide (k = i)) as [->|Hne].
    + exists t'. rewrite Hlk, decide_True by done. split; [done|]. split; [congruence|]. intros j Hj%Hlive. by apply Hmax.
    + exists u. rewrite Hlk, decide_False by done. split; [done|]. split; [done|]. intros j Hj%Hlive. by apply Hmax.
  - exact Hnone.
Qed.
Lemma wait_turn_ok i w w' : queues_ok w → wait_turn i w = Some w' → queues_ok w'.
Proof.
  intros Hw H. unfold wait_turn in H. apply bind_Some in H as (t & Hi & H). destruct (tl_stage t) as [[l|]| |] eqn:Es; try done.
  - apply bind_Some in H as (link & Hl & H). destruct (is_done link) eqn:Ed; [|done]. injection H as <-.
    assert (is_done t = false) as Hd by (unfold is_done; by rewrite Es). apply (relink_ok w i t); try done; [by left| | |].
    + intros l' [= E]. destruct (qo_back _ Hw _ _ _ Hi (or_intror Es)) as (? & u & Hu & Ek). rewrite Hl in Hu. injection Hu as <-.
      destruct (qo_back _ Hw _ _ _ Hl (or_introl E)) as (? & Hv). rewrite Ek in Hv. split; [lia|done].
    + intros next j [= <-] Hj Hlt. pose proof (qo_wait _ Hw _ _ _ _ Hi Es Hj Hlt) as Hb. inversion Hb as [E|l0 u Hu Hk Hbu E]; subst.
      * destruct Hj as (u & Hu & _ & Hdu). congruence.
      * congruence.
    + intros key j Hk (u & Hu & Ek & Hdu). eapply (qo_none _ Hw); [exact Hk|]. cbn [qs_links] in Hu. rewrite (lookup_set _ _ _ _ _ Hi) in Hu.
      destruct (decide (j = i)) as [->|_]; [|by exists u]. injection Hu as <-. by exists t.
  - injection H as <-. assert (is_done t = false) as Hd by (unfold is_done; by rewrite Es).
    assert (∀ j, in_queue w (tl_key t) j → i ≤ j) as Hmin.
    { intros j Hj. destruct (decide (i ≤ j)) as [|Hlt]; [done|]. pose proof (qo_wait _ Hw _ _ _ _ Hi Es Hj ltac:(lia)) as Hb. inversion Hb. }
    apply (relink_ok w i t); try done; [by right|by intros j _; apply Hmin|].
    intros key j Hk (u & Hu & Ek & Hdu). eapply (qo_none _ Hw); [exact Hk|]. cbn [qs_links] in Hu. rewrite (lookup_set _ _ _ _ _ Hi) in Hu.
    destruct (decide (j = i)) as [->|_]; [|by exists u]. injection Hu as <-. by exists t.
Qed.
Lemma drop_guard_ok i t w : queues_ok w → w.(qs_links) !! i = Some t → is_done t = false →
  (w.(qs_tails) !! t.(tl_key) = Some i → ∀ j, in_queue w t.(tl_key) j → j = i) → queues_ok (drop_guard i t w).
Proof.
  intros Hw Hi Hd Hlast. apply (relink_ok w i t); try done; [by left| |].
  - intros key k. case_bool_decide; [|done]. by intros [_ ?]%lookup_delete_Some.
  - intros key j Hk (u & Hu & Ek & Hdu). cbn [qs_links] in Hu. rewrite (lookup_set _ _ _ _ _ Hi) in Hu.
    destruct (decide (j = i)) as [->|Hne]; [by injection Hu as <-|]. assert (in_queue w key j) as Hj by (by exists u).
    case_bool_decide as E; [|by eapply (qo_none _ Hw)]. apply lookup_delete_None in Hk as [<-|Hk]; [by apply Hne, Hlast|by eapply (qo_none _ Hw)].
Qed.
Lemma queue_attained_ok w : queue_attained w → queues_ok w.
Proof.
  induction 1 as [|m w w' _ Hw Ho Hm]; [apply no_queues_ok|]. destruct m as [key|i|i|i]; cbn [queue_move] in Hm.
  - injection Hm as <-. by apply join_queue_ok.
  - by eapply wait_turn_ok.
  - apply bind_Some in Hm as (t & Hi & Hm). destruct (tl_stage t) eqn:Es; try done. injection Hm as <-.
    apply drop_guard_ok; [done|done|by unfold is_done; rewrite Es|]. intros Htail j Hj. pose proof (qo_run _ Hw _ _ _ Hi Es Hj).
    destruct (qo_tail _ Hw _ _ Htail) as (_ & _ & _ & Hmax). specialize (Hmax j Hj). lia.
  - apply bind_Some in Hm as (t & Hi & Hm). destruct (tl_stage t) eqn:Es; try done. injection Hm as <-.
    apply drop_guard_ok; [done|done|by unfold is_done; rewrite Es|]. intros Htail j Hj. by eapply Ho.
Qed.

(** ** What the queue promises *)

(** The bodies of one file run one at a time, as long as no caller that gives
    up was the last of its queue while another was in it. *)
Theorem mutations_exclusive w key i j : queue_attained w → in_body w key i → in_body w key j → i = j.
Proof.
  intros Hw%queue_attained_ok (t & Hi & Ek & Es) (u & Hj & Ek' & Es'). subst key.
  assert (in_queue w (tl_key t) i) as Li by (exists t; unfold is_done; by rewrite Es).
  assert (in_queue w (tl_key t) j) as Lj by (exists u; unfold is_done; by rewrite Es').
  pose proof (qo_run _ Hw _ _ _ Hi Es Lj). rewrite <- Ek' in Li. pose proof (qo_run _ Hw _ _ _ Hj Es' Li). lia.
Qed.

Lemma turn_within w key i t : queues_ok w → w.(qs_links) !! i = Some t → (∃ next, t.(tl_stage) = Waiting next) → t.(tl_key) = key →
  (∀ j, in_queue w key j → i ≤ j) → ∃ n w', n ≤ S i ∧ queue_moves (replicate n (Advance i)) w = Some w' ∧ in_body w' key i.
Proof.
  intros Hw Hi [next Hs] Hk Hmin.
  assert (∃ bound, bound ≤ i ∧ ∀ l, next = Some l → l < bound) as (bound & Hbi & Hb).
  { exists i. split; [done|]. intros l ->. by destruct (qo_back _ Hw _ _ _ Hi (or_intror Hs)). }
  cut (∃ n w', n ≤ S bound ∧ queue_moves (replicate n (Advance i)) w = Some w' ∧ in_body w' key i); [intros (n & w' & ? & ?); exists n, w'; split; [lia|done]|].
  clear Hbi. revert w t next Hw Hi Hs Hk Hmin Hb. induction bound as [|bound IH]; intros w t next Hw Hi Hs Hk Hmin Hb.
  - destruct next as [l|]; [specialize (Hb l eq_refl); lia|]. exists 1. eexists. split; [done|]. cbn [replicate queue_moves queue_move]. unfold wait_turn. rewrite Hi. cbn. rewrite Hs.
    split; [done|]. exists (mkTail (tl_key t) None Running). cbn. by rewrite (lookup_set _ _ _ _ _ Hi), decide_True.
  - destruct next as [l|].
    + destruct (qo_back _ Hw _ _ _ Hi (or_intror Hs)) as (Hlt & u & Hu & Eu).
      assert (is_done u = true) as Hd.
      { destruct (is_done u) eqn:E; [done|]. assert (in_queue w key l) as Hl by (exists u; split; [done|split; [congruence|done]]). specialize (Hmin _ Hl). lia. }
      assert (wait_turn i w = Some (set_link w i (mkTail (tl_key t) (tl_prev t) (Waiting (tl_prev u))))) as Ha by (unfold wait_turn; rewrite Hi; cbn; rewrite Hs, Hu; cbn; by rewrite Hd).
      pose proof (wait_turn_ok _ _ _ Hw Ha) as Hw'.
      edestruct (IH _ (mkTail (tl_key t) (tl_prev t) (Waiting (tl_prev u))) (tl_prev u) Hw') as (n & w' & Hn & Hm & Hr).
      * cbn. by rewrite (lookup_set _ _ _ _ _ Hi), decide_True.
      * done.
      * done.
      * intros j (v & Hv & Ev & Hdv). apply Hmin. cbn in Hv. rewrite (lookup_set _ _ _ _ _ Hi) in Hv. destruct (decide (j = i)) as [->|_]; [|by exists v].
        exists t. split; [done|]. split; [done|]. unfold is_done. by rewrite Hs.
      * intros l' E. destruct (qo_back _ Hw _ _ _ Hu (or_introl E)). specialize (Hb l eq_refl). lia.
      * exists (S n), w'. split; [lia|]. cbn [replicate queue_moves queue_move]. rewrite Ha. by split.
    + exists 1. eexists. split; [lia|]. cbn [replicate queue_moves queue_move]. unfold wait_turn. rewrite Hi. cbn. rewrite Hs.
      split; [done|]. exists (mkTail (tl_key t) None Running). cbn. by rewrite (lookup_set _ _ _ _ _ Hi), decide_True.
Qed.

(** Nobody is stranded: a caller before whom nobody is left, whatever became of
    those who were, begins its body after at most one turn per earlier link. *)
Theorem turn_comes w key i t next : queue_attained w → w.(qs_links) !! i = Some t → t.(tl_stage) = Waiting next → t.(tl_key) = key →
  (∀ j, in_queue w key j → i ≤ j) → ∃ n w', n ≤ S i ∧ queue_moves (replicate n (Advance i)) w = Some w' ∧ in_body w' key i.
Proof. intros Hw%queue_attained_ok Hi Hs. apply (turn_within w key i t Hw Hi). by exists next. Qed.

(** The comment in [with_file_mutation_queue] claims exclusion for any caller
    that gives up.  But the guard of a dropped waiter removes the key when its
    link is the last, though an earlier body still runs: the next caller finds
    no queue and runs beside it. *)
Definition dropped_tail : list QueueMove :=
  [Register "/w/f"; Advance 0; Register "/w/f"; Abandon 1; Register "/w/f"; Advance 2].
Theorem dropped_tail_overlaps : ∃ w, queue_moves dropped_tail no_queues = Some w ∧ in_body w "/w/f" 0 ∧ in_body w "/w/f" 2.
Proof. eexists. split; [vm_compute; reflexivity|]. split; eexists; (split; [vm_compute; reflexivity|done]). Qed.
