(* ===== verification/Value.v ===== *)
(** * JSON values

    [serde_json::Value] as the backend uses it, and the JavaScript number
    conventions of [contracts/src/javascript.rs].  A number is the binary64
    value [parse_javascript_json] gives it: an exact rational, the negative
    zero it keeps apart as [-0.0], or an overflowed [1e400] / [-1e400].
    Objects keep insertion order (the
    [preserve_order] feature) and compare up to it. *)

From Stdlib Require Export QArith_base Qcanon.
From S2P Require Export Prelude.
Local Close Scope Qc_scope.

Set Warnings "-register-all".

Inductive JNum :=
  | JFin (q : Qc)
  | JNegZero
  | JInf (negative : bool).

#[export] Instance JNum_eq_dec : EqDecision JNum.
Proof. solve_decision. Defined.

Inductive Value :=
  | VNull
  | VBool (b : bool)
  | VNum (n : JNum)
  | VStr (s : string)
  | VArr (l : list Value)
  | VObj (o : list (string * Value)).

(** ** Access *)

Fixpoint obj_get (key : string) (o : list (string * Value)) : option Value :=
  match o with
  | [] => None
  | (k, v) :: o => if bool_decide (k = key) then Some v else obj_get key o
  end.

(** [Value::get]. *)
Definition vget (v : Value) (key : string) : option Value :=
  match v with VObj o => obj_get key o | _ => None end.

(** [value[key]]: [Null] when the member is missing. *)
Definition vindex (v : Value) (key : string) : Value := default VNull (vget v key).

Definition as_str (v : Value) : option string :=
  match v with VStr s => Some s | _ => None end.
Definition is_null (v : Value) : bool :=
  match v with VNull => true | _ => false end.
Definition is_true (v : Value) : bool :=
  match v with VBool b => b | _ => false end.

(** [serde_json::json!] of an integer. *)
Definition int_value (z : Z) : Value := VNum (JFin (Q2Qc (inject_Z z))).

(** [Map::insert] of an order-preserving map: replace in place or append. *)
Fixpoint obj_insert (key : string) (x : Value) (o : list (string * Value))
    : list (string * Value) :=
  match o with
  | [] => [(key, x)]
  | (k, v) :: o => if bool_decide (k = key) then (k, x) :: o else (k, v) :: obj_insert key x o
  end.

Lemma obj_get_insert_eq key x o : obj_get key (obj_insert key x o) = Some x.
Proof.
  induction o as [|[k v] o IH]; simpl; [by rewrite bool_decide_true|].
  case_bool_decide; simpl; by (rewrite bool_decide_true by done) || (rewrite bool_decide_false by done).
Qed.

Lemma obj_get_insert_ne key key' x o :
  key ≠ key' → obj_get key' (obj_insert key x o) = obj_get key' o.
Proof.
  intros Hne. induction o as [|[k v] o IH]; simpl; [by rewrite bool_decide_false|].
  case_bool_decide; simpl; [subst; by rewrite bool_decide_false|]. by rewrite IH.
Qed.

(** ** Equality *)

(** [impl PartialEq for Value]; object comparison ignores member order. *)
Fixpoint value_eqb (a b : Value) {struct a} : bool :=
  match a, b with
  | VNull, VNull => true
  | VBool x, VBool y => Bool.eqb x y
  | VNum x, VNum y => bool_decide (x = y)
  | VStr x, VStr y => bool_decide (x = y)
  | VArr x, VArr y =>
      (fix go (x y : list Value) := match x, y with
        | [], [] => true
        | v :: x, w :: y => value_eqb v w && go x y
        | _, _ => false
        end) x y
  | VObj x, VObj y =>
      Nat.eqb (length x) (length y) &&
      (fix go (x : list (string * Value)) := match x with
        | [] => true
        | (k, v) :: x => match obj_get k y with
                         | Some w => value_eqb v w
                         | None => false
                         end && go x
        end) x
  | _, _ => false
  end.

Definition ovalue_eqb (a b : option Value) : bool :=
  match a, b with
  | None, None => true
  | Some v, Some w => value_eqb v w
  | _, _ => false
  end.

(** ** JavaScript numbers *)

Definition javascript_number (v : Value) : option JNum :=
  match v with VNum n => Some n | _ => None end.

(** [.filter(|n| n.is_finite())]. *)
Definition finite (n : JNum) : option Qc :=
  match n with JFin q => Some q | JNegZero => Some 0%Qc | JInf _ => None end.

Local Open Scope Z_scope.

(** The decimal value of a string of digits. *)
Definition digit (c : Ascii.ascii) : option Z :=
  let n := Z.of_nat (Ascii.nat_of_ascii c) - 48 in
  if (0 <=? n) && (n <=? 9) then Some n else None.
Fixpoint digits (acc : Z) (s : string) : option Z :=
  match s with
  | EmptyString => Some acc
  | String c s => d ← digit c; digits (acc * 10 + d) s
  end.

(** A canonical array index: [u32] text without leading zeros, not
    [u32::MAX]. *)
Definition array_index (key : string) : option Z :=
  match key with
  | EmptyString => None
  | String "0"%char EmptyString => Some 0
  | String "0"%char _ => None
  | _ => n ← digits 0 key; if n <? u32_max then Some n else None
  end.

(** The key [(index.is_none(), index)] of the entry sort: array indices
    first and ascending, every other key equal. *)
Definition index_le (a b : string * Value) : bool :=
  match array_index a.1, array_index b.1 with
  | Some i, Some j => i <=? j
  | Some _, None => true
  | None, Some _ => false
  | None, None => true
  end.

Local Close Scope Z_scope.

(** [JSON.stringify]'s coercion: nonfinite numbers become [null] and array
    indices are enumerated first, recursively. *)
Fixpoint javascript_json_value (v : Value) : Value :=
  match v with
  | VNum n => match finite n with Some q => VNum (JFin q) | None => VNull end
  | VArr l => VArr (map javascript_json_value l)
  | VObj o => VObj (sort_by index_le
      ((fix go (o : list (string * Value)) := match o with
        | [] => []
        | (k, v) :: o => (k, javascript_json_value v) :: go o
        end) o))
  | _ => v
  end.

Lemma index_le_total a b : index_le a b = true ∨ index_le b a = true.
Proof.
  unfold index_le. destruct (array_index a.1), (array_index b.1); auto.
  rewrite !Z.leb_le. lia.
Qed.

Lemma index_le_trans a b c :
  index_le a b = true → index_le b c = true → index_le a c = true.
Proof.
  unfold index_le.
  destruct (array_index a.1), (array_index b.1), (array_index c.1); try done.
  rewrite !Z.leb_le. lia.
Qed.

(** ** The normal form of a stored document *)

Section value_ind.
Variable P : Value → Prop.
Hypothesis (Hnull : P VNull) (Hbool : ∀ b, P (VBool b)) (Hnum : ∀ n, P (VNum n))
  (Hstr : ∀ s, P (VStr s)) (Harr : ∀ l, Forall P l → P (VArr l))
  (Hobj : ∀ o, Forall (λ e, P e.2) o → P (VObj o)).

Fixpoint value_nested_ind (v : Value) : P v :=
  match v with
  | VNull => Hnull | VBool b => Hbool b | VNum n => Hnum n | VStr s => Hstr s
  | VArr l => Harr l ((fix go (l : list Value) : Forall P l := match l with
      | [] => Forall_nil_2 _ | v :: l => Forall_cons_2 _ _ _ (value_nested_ind v) (go l) end) l)
  | VObj o => Hobj o ((fix go (o : list (string * Value)) : Forall (λ e, P e.2) o := match o with
      | [] => Forall_nil_2 _
      | e :: o => Forall_cons_2 _ _ _ (value_nested_ind e.2) (go o) end) o)
  end.
End value_ind.

Definition normal_entry (e : string * Value) : string * Value := (e.1, javascript_json_value e.2).

Lemma javascript_json_object o :
  javascript_json_value (VObj o) = VObj (map normal_entry (sort_by index_le o)).
Proof.
  simpl. f_equal. rewrite <-(sort_by_map index_le index_le) by done. f_equal.
  induction o as [|[k v] o IH]; simpl; [done|]. by rewrite IH.
Qed.

Lemma javascript_json_idempotent v :
  javascript_json_value (javascript_json_value v) = javascript_json_value v.
Proof.
  induction v as [|b|[q| |b]|s|l IH|o IH] using value_nested_ind; try done.
  - simpl. f_equal. rewrite map_map. apply map_ext_in. rewrite Forall_forall in IH.
    intros v Hv. apply IH. by apply list_elem_of_In.
  - rewrite !javascript_json_object. f_equal.
    rewrite (sort_by_map index_le index_le normal_entry) by done.
    rewrite (sort_by_id _ (sort_by _ _))
      by (apply sort_by_sorted; [apply index_le_total|apply index_le_trans]).
    rewrite map_map. apply map_ext_in. intros [k v] Hv%list_elem_of_In.
    rewrite elem_of_sort_by in Hv. rewrite Forall_forall in IH.
    unfold normal_entry. simpl. f_equal. by apply (IH (k, v)).
Qed.

(** The member found under a key is the first one with that key. *)
Lemma obj_get_filter key o :
  obj_get key o = (head (filter_by (λ e, bool_decide (e.1 = key)) o)) ≫= λ e, Some e.2.
Proof.
  unfold filter_by. induction o as [|[k v] o IH]; [done|]. rewrite filter_cons. simpl.
  destruct (decide (k = key)).
  - by rewrite !bool_decide_true.
  - rewrite !bool_decide_false by done. by rewrite decide_False.
Qed.

Lemma obj_get_sorted key o : obj_get key (sort_by index_le o) = obj_get key o.
Proof.
  rewrite !obj_get_filter. unfold filter_by. rewrite sort_by_stable; [done|].
  intros [k v] [k' v']. simpl. rewrite !bool_decide_eq_true. intros -> ->.
  unfold index_le. simpl. destruct (array_index key); [by apply Z.leb_le|done].
Qed.

Lemma obj_get_normal key o :
  obj_get key (map normal_entry o) = javascript_json_value <$> obj_get key o.
Proof.
  induction o as [|[k v] o IH]; simpl; [done|]. by destruct (bool_decide (k = key)).
Qed.

(** What a row reads back is the normal form of the document that was
    written: storing it again changes nothing, and every member is found
    under its key with its own normal form, however the members were
    ordered. *)
Theorem stored_document v key :
  javascript_json_value (javascript_json_value v) = javascript_json_value v
  ∧ vget (javascript_json_value v) key = javascript_json_value <$> vget v key.
Proof.
  split; [apply javascript_json_idempotent|].
  destruct v as [|b|[q| |b]|s|l|o]; try done.
  rewrite javascript_json_object. simpl. by rewrite obj_get_normal, obj_get_sorted.
Qed.
