(* ===== verification/Utf8.v ===== *)
(** * UTF-8

    Rust's [str] for the components that read bytes: a byte is a [Z] of eight
    bits, a text its bytes, [decode] what [std::str::from_utf8] accepts and
    [str::chars] yields, [encode] the bytes of a [char]. *)

From S2P Require Export Prelude.
Local Open Scope Z_scope.

Abbreviation bytes := (list Z).
Abbreviation char := Z.

Definition is_byte (b : Z) : Prop := 0 ≤ b < 256.
Definition lit (s : string) : bytes :=
  map (λ c, Z.of_nat (nat_of_ascii c)) (String.list_ascii_of_string s).

(** [char]: a Unicode scalar value. *)
Definition is_scalar (c : char) : bool :=
  in_range 0 0xD7FF c || in_range 0xE000 0x10FFFF c.
(** A continuation byte: [b & 0xc0 == 0x80]. *)
Definition continuation (b : Z) : bool := Z.land b 0xC0 =? 0x80.

Definition encode_char (c : char) : bytes :=
  if c <? 0x80 then [c]
  else if c <? 0x800 then [0xC0 + c / 64; 0x80 + c mod 64]
  else if c <? 0x10000 then [0xE0 + c / 4096; 0x80 + c / 64 mod 64; 0x80 + c mod 64]
  else [0xF0 + c / 262144; 0x80 + c / 4096 mod 64; 0x80 + c / 64 mod 64; 0x80 + c mod 64].
Definition encode (cs : list char) : bytes := concat (map encode_char cs).

(** One multi-byte sequence: its value, when it is a continuation run of a
    scalar value that needs this many bytes. *)
Definition joined (least value : Z) (conts : list Z) : option char :=
  let c := foldl (λ v b, v * 64 + (b - 0x80)) value conts in
  if forallb continuation conts && (least <=? c) && is_scalar c then Some c else None.

Fixpoint decode (l : bytes) : option (list char) :=
  match l with
  | [] => Some []
  | b0 :: l1 =>
      if b0 <? 0x80 then cons b0 <$> decode l1
      else if b0 <? 0xC0 then None
      else if b0 <? 0xE0 then
        match l1 with
        | b1 :: l2 => c ← joined 0x80 (b0 - 0xC0) [b1]; cons c <$> decode l2
        | _ => None
        end
      else if b0 <? 0xF0 then
        match l1 with
        | b1 :: b2 :: l3 => c ← joined 0x800 (b0 - 0xE0) [b1; b2]; cons c <$> decode l3
        | _ => None
        end
      else if b0 <? 0xF8 then
        match l1 with
        | b1 :: b2 :: b3 :: l4 => c ← joined 0x10000 (b0 - 0xF0) [b1; b2; b3]; cons c <$> decode l4
        | _ => None
        end
      else None
  end.

Definition valid_utf8 (l : bytes) : bool := is_some (decode l).

Lemma continuation_spec b : is_byte b → continuation b = true ↔ 0x80 ≤ b < 0xC0.
Proof.
  intros Hb. unfold continuation. rewrite Z.eqb_eq.
  assert (∀ b : nat, (b < 256)%nat →
    (Z.land (Z.of_nat b) 192 =? 128) = (128 <=? Z.of_nat b) && (Z.of_nat b <? 192)) as H.
  { intros n Hn. assert (forallb (λ n, Bool.eqb (Z.land (Z.of_nat n) 192 =? 128)
      ((128 <=? Z.of_nat n) && (Z.of_nat n <? 192))) (seq 0 256) = true) as K by (vm_compute; done).
    rewrite forallb_forall in K. apply Bool.eqb_prop, K, in_seq. lia. }
  specialize (H (Z.to_nat b)). rewrite Z2Nat.id in H by (unfold is_byte in Hb; lia).
  rewrite <-Z.eqb_eq, H by (unfold is_byte in Hb; lia).
  rewrite andb_true_iff, Z.leb_le, Z.ltb_lt. done.
Qed.

Lemma is_scalar_spec c : is_scalar c = true ↔ 0 ≤ c ≤ 0xD7FF ∨ 0xE000 ≤ c ≤ 0x10FFFF.
Proof. unfold is_scalar. by rewrite orb_true_iff, !in_range_spec. Qed.

(** A byte below [0xC0] after a mask: the tail of a sequence. *)
Lemma continuation_low r : 0 ≤ r < 64 → continuation (0x80 + r) = true.
Proof. intros Hr. apply continuation_spec; unfold is_byte; lia. Qed.

(** ** The first byte decides *)

Lemma encode_char_lead c :
  is_scalar c = true → ∃ b conts, encode_char c = b :: conts ∧ is_byte b ∧ continuation b = false
    ∧ Forall (λ b, is_byte b ∧ continuation b = true) conts.
Proof.
  intros Hc%is_scalar_spec. unfold encode_char.
  assert (∀ b, is_byte b → ¬ (0x80 ≤ b < 0xC0) → is_byte b ∧ continuation b = false) as Hl.
  { intros b Hb Hn. split; [done|]. apply not_true_iff_false. by rewrite continuation_spec. }
  assert (∀ r, 0 ≤ r < 64 → is_byte (0x80 + r) ∧ continuation (0x80 + r) = true) as Hk.
  { intros r Hr. split; [unfold is_byte; lia|by apply continuation_low]. }
  assert (∀ z, 0 ≤ z mod 64 < 64) as Hm by (intros; apply Z.mod_pos_bound; lia).
  destruct (Z.ltb_spec c 0x80); [|destruct (Z.ltb_spec c 0x800); [|destruct (Z.ltb_spec c 0x10000)] ].
  all: eexists _, _; split; [reflexivity|].
  all: lazymatch goal with |- is_byte ?b ∧ _ ∧ _ => destruct (Hl b) as [??];
    [unfold is_byte; Z.div_mod_to_equations; lia|Z.div_mod_to_equations; lia|split_and!; [done..|] ] end.
  all: repeat (apply Forall_cons; split; [by apply Hk|]); by apply Forall_nil.
Qed.

Lemma decode_char c l :
  is_scalar c = true → decode (encode_char c ++ l) = cons c <$> decode l.
Proof.
  intros Hs. pose proof Hs as Hc%is_scalar_spec. unfold encode_char.
  assert (∀ z, continuation (0x80 + z mod 64) = true) as Hk.
  { intros z. apply continuation_low, Z.mod_pos_bound. lia. }
  assert (∀ least value conts, foldl (λ v b, v * 64 + (b - 0x80)) value conts = c → least ≤ c →
    forallb continuation conts = true → joined least value conts = Some c) as Hj.
  { intros least value conts E Hl Hf. unfold joined. rewrite E, Hf, Hs.
    by apply Z.leb_le in Hl as ->. }
  destruct (Z.ltb_spec c 0x80); [|destruct (Z.ltb_spec c 0x800); [|destruct (Z.ltb_spec c 0x10000)] ].
  all: cbn [app decode].
  1: by destruct (Z.ltb_spec c 128); [|lia].
  all: repeat match goal with |- context [?a <? ?b] =>
    destruct (Z.ltb_spec a b); [try (exfalso; Z.div_mod_to_equations; lia)|
      try (exfalso; Z.div_mod_to_equations; lia)] end.
  all: erewrite Hj; [reflexivity| |lia|simpl; by rewrite !Hk].
  all: cbn [foldl]; Z.div_mod_to_equations; lia.
Qed.

(** ** Round trips *)

Lemma decode_encode cs : Forall (λ c, is_scalar c = true) cs → decode (encode cs) = Some cs.
Proof.
  unfold encode. induction 1 as [|c cs Hc _ IH]; [done|]. cbn [map concat].
  by rewrite decode_char, IH.
Qed.

Lemma joined_Some least value conts c :
  joined least value conts = Some c →
  c = foldl (λ v b, v * 64 + (b - 0x80)) value conts ∧ forallb continuation conts = true
  ∧ least ≤ c ∧ is_scalar c = true.
Proof.
  unfold joined. intros H. case_match eqn:E; [|done]. injection H as <-.
  apply andb_true_iff in E as [ [? ?%Z.leb_le]%andb_true_iff ?]. done.
Qed.

Lemma encode_joined2 b0 b1 c :
  0xC0 ≤ b0 < 0xE0 → is_byte b1 → joined 0x80 (b0 - 0xC0) [b1] = Some c → encode_char c = [b0; b1].
Proof.
  intros H0 Hb (-> & Hk & Hl & _)%joined_Some. simpl in *. rewrite andb_true_r in Hk.
  apply continuation_spec in Hk; [|done]. unfold encode_char.
  repeat match goal with |- context [?a <? ?b] => destruct (Z.ltb_spec a b); [try lia|try lia] end.
  repeat f_equal; Z.div_mod_to_equations; lia.
Qed.

Lemma encode_joined3 b0 b1 b2 c :
  0xE0 ≤ b0 < 0xF0 → is_byte b1 → is_byte b2 →
  joined 0x800 (b0 - 0xE0) [b1; b2] = Some c → encode_char c = [b0; b1; b2].
Proof.
  intros H0 Hb1 Hb2 (-> & Hk & Hl & _)%joined_Some. simpl in *.
  rewrite andb_true_r in Hk. apply andb_true_iff in Hk as [Hk1 Hk2].
  apply continuation_spec in Hk1, Hk2; [|done..]. unfold encode_char.
  repeat match goal with |- context [?a <? ?b] => destruct (Z.ltb_spec a b); [try lia|try lia] end.
  repeat f_equal; Z.div_mod_to_equations; lia.
Qed.

Lemma encode_joined4 b0 b1 b2 b3 c :
  0xF0 ≤ b0 < 0xF8 → is_byte b1 → is_byte b2 → is_byte b3 →
  joined 0x10000 (b0 - 0xF0) [b1; b2; b3] = Some c → encode_char c = [b0; b1; b2; b3].
Proof.
  intros H0 Hb1 Hb2 Hb3 (-> & Hk & Hl & _)%joined_Some. simpl in *.
  rewrite andb_true_r in Hk. apply andb_true_iff in Hk as [Hk1 [Hk2 Hk3]%andb_true_iff].
  apply continuation_spec in Hk1, Hk2, Hk3; [|done..]. unfold encode_char.
  repeat match goal with |- context [?a <? ?b] => destruct (Z.ltb_spec a b); [try lia|try lia] end.
  repeat f_equal; Z.div_mod_to_equations; lia.
Qed.

(** The shape of a text that decodes: its first character and the rest. *)
Lemma decode_first l cs :
  Forall is_byte l → decode l = Some cs → l ≠ [] →
  ∃ c l' cs', l = encode_char c ++ l' ∧ decode l' = Some cs' ∧ cs = c :: cs' ∧ is_scalar c = true.
Proof.
  intros Hb H Hne. destruct l as [|b0 l1]; [done|]. apply Forall_cons in Hb as [Hb0 Hb]. cbn [decode] in H.
  destruct (Z.ltb_spec b0 0x80).
  { destruct (decode l1) as [cs'|] eqn:E; [|done]. injection H as <-. exists b0, l1, cs'.
    unfold encode_char. rewrite (proj2 (Z.ltb_lt b0 0x80)) by done. split_and!; [done..|].
    apply is_scalar_spec. unfold is_byte in Hb0. lia. }
  destruct (Z.ltb_spec b0 0xC0); [done|]. destruct (Z.ltb_spec b0 0xE0).
  { destruct l1 as [|b1 l2]; [done|]. apply Forall_cons in Hb as [Hb1 Hb].
    destruct (joined _ _ _) as [c|] eqn:Ej; [|done]. simpl in H.
    destruct (decode l2) as [cs'|] eqn:E; [|done]. injection H as <-. exists c, l2, cs'.
    rewrite (encode_joined2 b0 b1 c) by done. apply joined_Some in Ej. tauto. }
  destruct (Z.ltb_spec b0 0xF0).
  { destruct l1 as [|b1 [|b2 l2] ]; [done..|].
    apply Forall_cons in Hb as [Hb1 [Hb2 Hb]%Forall_cons].
    destruct (joined _ _ _) as [c|] eqn:Ej; [|done]. simpl in H.
    destruct (decode l2) as [cs'|] eqn:E; [|done]. injection H as <-. exists c, l2, cs'.
    rewrite (encode_joined3 b0 b1 b2 c) by done. apply joined_Some in Ej. tauto. }
  destruct (Z.ltb_spec b0 0xF8); [|done].
  destruct l1 as [|b1 [|b2 [|b3 l2] ] ]; [done..|].
  apply Forall_cons in Hb as [Hb1 [Hb2 [Hb3 Hb]%Forall_cons]%Forall_cons].
  destruct (joined _ _ _) as [c|] eqn:Ej; [|done]. simpl in H.
  destruct (decode l2) as [cs'|] eqn:E; [|done]. injection H as <-. exists c, l2, cs'.
  rewrite (encode_joined4 b0 b1 b2 b3 c) by done. apply joined_Some in Ej. tauto.
Qed.

Lemma encode_decode l cs :
  Forall is_byte l → decode l = Some cs → encode cs = l ∧ Forall (λ c, is_scalar c = true) cs.
Proof.
  remember (length l) as n eqn:En. revert l En cs.
  induction n as [n IH] using lt_wf_ind. intros l -> cs Hb H. destruct (decide (l = [])) as [->|Hne].
  { injection H as <-. by split; [|apply Forall_nil]. }
  destruct (decode_first l cs Hb H Hne) as (c & l' & cs' & -> & H' & -> & Hs).
  destruct (encode_char_lead c Hs) as (b & conts & Ec & _).
  apply Forall_app in Hb as [_ Hb].
  destruct (IH (length l')) with (l := l') (cs := cs') as [E Hcs]; [|done..|].
  - rewrite Ec, length_app. simpl. lia.
  - split; [|by apply Forall_cons]. unfold encode in *. cbn [map concat]. by rewrite E.
Qed.

(** ** Character boundaries *)

Lemma decode_app a b cs : decode a = Some cs → Forall is_byte a → decode (a ++ b) = app cs <$> decode b.
Proof.
  intros H Hb. destruct (encode_decode a cs Hb H) as [<- Hs]. clear H Hb.
  unfold encode. induction Hs as [|c cs Hc _ IH]; simpl; [by destruct (decode b)|].
  rewrite <-app_assoc, decode_char, IH by done. by destruct (decode b).
Qed.

(** [str::is_char_boundary]: a byte that is no continuation, or the end. *)
Definition char_boundary (l : bytes) (i : nat) : bool :=
  match l !! i with Some b => negb (continuation b) | None => Nat.eqb i (length l) end.

Lemma decode_drop l i :
  Forall is_byte l → valid_utf8 l = true → char_boundary l i = true →
  valid_utf8 (take i l) = true ∧ valid_utf8 (drop i l) = true.
Proof.
  unfold valid_utf8. intros Hb Hv Hi. destruct (decode l) as [cs|] eqn:E; [|done]. clear Hv.
  destruct (encode_decode l cs Hb E) as [<- Hs]. clear E Hb. unfold encode in *.
  revert i Hi. induction Hs as [|c cs Hc Hcs IH]; intros i Hi; [simpl; by rewrite take_nil, drop_nil|].
  cbn [map concat] in *. destruct (encode_char_lead c Hc) as (b & conts & Ec & _ & _ & Hk).
  destruct (decide (i = 0%nat)) as [->|Hi0].
  { rewrite take_0, drop_0. split; [done|]. rewrite decode_char by done.
    fold (encode cs). by rewrite (decode_encode cs). }
  destruct (decide (length (encode_char c) ≤ i)%nat) as [Hle|Hgt].
  - rewrite take_app_ge, drop_app_ge by done. rewrite decode_char by done.
    destruct (IH (i - length (encode_char c))%nat) as [IH1 IH2].
    + unfold char_boundary in *. rewrite lookup_app_r, length_app in Hi by done.
      destruct (concat _ !! _); [done|]. apply Nat.eqb_eq in Hi. apply Nat.eqb_eq. lia.
    + split; [|done]. by destruct (decode (take _ _)).
  - exfalso. unfold char_boundary in Hi. rewrite lookup_app_l, Ec in Hi by lia.
    destruct i as [|i]; [done|]. simpl in Hi. destruct (conts !! i) as [k|] eqn:E.
    + apply (Forall_lookup_1 _ _ _ _ Hk) in E as [_ E]. by rewrite E in Hi.
    + apply lookup_ge_None in E. rewrite Ec in Hgt. simpl in Hgt. lia.
Qed.

(** ** Escaped text *)

Definition hex_digit (n : Z) : char := if n <? 10 then 48 + n else 87 + n.
Definition unhex (d : char) : Z := if d <? 0x60 then d - 48 else d - 87.

(** The character an escape stands for, and what follows it. *)
Definition unescape (s : list char) : option (char * list char) :=
  match s with
  | [] => None
  | c :: s =>
      if negb (c =? 92) then Some (c, s)
      else match s with
      | [] => None
      | e :: s =>
          if (e =? 34) || (e =? 92) then Some (e, s)
          else if e =? 0x62 then Some (8, s)
          else if e =? 0x74 then Some (9, s)
          else if e =? 0x6E then Some (10, s)
          else if e =? 0x66 then Some (12, s)
          else if e =? 0x72 then Some (13, s)
          else match s with
          | a :: b :: x :: y :: s => Some (unhex a * 4096 + unhex b * 256 + unhex x * 16 + unhex y, s)
          | _ => None
          end
      end
  end.

Lemma unhex_digit d : 0 ≤ d < 16 → unhex (hex_digit d) = d.
Proof. intros Hd. unfold unhex, hex_digit. repeat case_match; rewrite ?Z.ltb_lt, ?Z.ltb_ge in *; lia. Qed.
Lemma unescape_control c r : 0 ≤ c < 0x20 →
  unescape (lit "\u00" ++ [hex_digit (c / 16); hex_digit (c mod 16)] ++ r) = Some (c, r).
Proof.
  intros Hc. set (d1 := hex_digit (c / 16)). set (d2 := hex_digit (c mod 16)).
  assert (c / 16 * 16 + c mod 16 = c) as E by (pose proof (Z.div_mod c 16); lia).
  assert (unhex d1 = c / 16) as E1. { apply unhex_digit. split; [apply Z.div_pos; lia|apply Z.div_lt_upper_bound; lia]. }
  assert (unhex d2 = c mod 16) as E2. { apply unhex_digit. apply Z.mod_pos_bound. lia. }
  change (Some (unhex 48 * 4096 + unhex 48 * 256 + unhex d1 * 16 + unhex d2, r) = Some (c, r)).
  rewrite E1, E2. do 2 f_equal. change (unhex 48) with 0. lia.
Qed.

Section quoting.
Context (escape : char → list char).
Definition quoted (s : list char) : list char := [34] ++ concat (map escape s) ++ [34].
Context (escape_read : ∀ c r, 0 ≤ c → unescape (escape c ++ r) = Some (c, r))
  (escape_head : ∀ c, ∃ h t, escape c = h :: t ∧ h ≠ 34).

Lemma quoted_apart s s' r r' : Forall (λ c, 0 ≤ c) s → Forall (λ c, 0 ≤ c) s' →
  quoted s ++ r = quoted s' ++ r' → s = s' ∧ r = r'.
Proof.
  unfold quoted. rewrite <-!app_assoc. intros Hs Hs' [= E]. revert s' Hs' E.
  induction Hs as [|c s Hc Hs IH]; intros s' Hs' E; simpl in E.
  - destruct s' as [|c' s']; [simpl in E; by injection E as ->|]. simpl in E.
    destruct (escape_head c') as (h & t & Eh & Hne). rewrite Eh in E. simpl in E. congruence.
  - destruct Hs' as [|c' s' Hc' Hs']; simpl in E.
    { destruct (escape_head c) as (h & t & Eh & Hne). rewrite Eh in E. simpl in E. congruence. }
    rewrite <-!app_assoc in E. apply (f_equal unescape) in E. rewrite !escape_read in E by done. injection E as -> E.
    by destruct (IH s' Hs' E) as [-> ->].
Qed.
End quoting.
