(* ===== verification/CanonicalArgs.v ===== *)
(** * Canonical arguments

    [host/src/governance/durable_execution.rs], its first part: the two
    canonical texts of a call's arguments.  The native one sorts the members
    of every object by their bytes; the other writes what the JavaScript of
    the TypeScript port did, array indices first and the other names in the
    order of their UTF-16 units.  The shortest digits of a number ([{:e}]) and
    the digests are parameters. *)

From stdpp Require Import pretty.
From S2P Require Export Value Utf8.
Local Open Scope Z_scope.

(** ** The native text *)

(** [str]'s order: that of the bytes; and of a list of code units. *)
Fixpoint lex_less (x y : list Z) : bool :=
  match x, y with
  | _, [] => false
  | [], _ :: _ => true
  | a :: x, b :: y => (a <? b) || (a =? b) && lex_less x y
  end.
Definition name_le (a b : string * Value) : bool := negb (lex_less (lit b.1) (lit a.1)).

(** Keys into a [BTreeMap]. *)
Fixpoint sort_into_btree (v : Value) : Value :=
  match v with
  | VObj o => VObj (sort_by name_le
      ((fix go (o : list (string * Value)) := match o with
        | [] => []
        | (k, v) :: o => (k, sort_into_btree v) :: go o
        end) o))
  | VArr l => VArr (map sort_into_btree l)
  | other => other
  end.

(** ** The JavaScript text *)

(** [str::encode_utf16]. *)
Definition utf16_char (c : char) : list Z :=
  if c <? 0x10000 then [c] else [0xD800 + (c - 0x10000) / 0x400; 0xDC00 + (c - 0x10000) mod 0x400].
Definition encode_utf16 (s : string) : list Z := concat (map utf16_char (default [] (decode (lit s)))).
Definition js_less (left right : string) : bool := lex_less (encode_utf16 left) (encode_utf16 right).

(** Integer-index keys first, ascending; then the others in UTF-16 order. *)
Definition js_name_le (a b : string) : bool :=
  match array_index a, array_index b with
  | Some i, Some j => i <=? j
  | Some _, None => true
  | None, Some _ => false
  | None, None => negb (js_less b a)
  end.

(** What is not a control, a quote or a backslash is written as it is, so the
    characters above may be taken byte by byte. *)
Definition ts_escape (b : Z) : bytes :=
  if b =? 34 then [92; 34]
  else if b =? 92 then [92; 92]
  else if b =? 8 then lit "\b"
  else if b =? 12 then lit "\f"
  else if b =? 10 then lit "\n"
  else if b =? 13 then lit "\r"
  else if b =? 9 then lit "\t"
  else if b <? 0x20 then lit "\u00" ++ [hex_digit (b / 16); hex_digit (b mod 16)]
  else [b].
Definition ts_write_string (text : string) : bytes := quoted ts_escape (lit text).

(** [format!("{value:e}")] of a number other than zero: its sign, its shortest
    digits and its decimal exponent. *)
Class LowerExp := lower_exp : Qc → bool * bytes * Z.

Definition zeros (n : Z) : bytes := repeat 48 (Z.to_nat n).
Definition decimal (n : Z) : bytes := lit (pretty n).

Section texts.
Context {lower : LowerExp}.

(** [Number::toString]: [k] digits, the point after the [n]-th. *)
Definition js_digits (digits : bytes) (exponent : Z) : bytes :=
  let k := Z.of_nat (length digits) in
  let n := exponent + 1 in
  if (k <=? n) && (n <=? 21) then digits ++ zeros (n - k)
  else if (0 <? n) && (n <=? 21) then take (Z.to_nat n) digits ++ lit "." ++ drop (Z.to_nat n) digits
  else if (-6 <? n) && (n <=? 0) then lit "0." ++ zeros (- n) ++ digits
  else
    let mantissa := if (1 <? k) then take 1 digits ++ lit "." ++ drop 1 digits else digits in
    mantissa ++ lit "e" ++ (if n - 1 <? 0 then lit "-" else lit "+") ++ decimal (Z.abs (n - 1)).
Definition js_number (number : JNum) : bytes :=
  match finite number with
  | None => lit "null"
  | Some q =>
      if bool_decide (q = 0%Qc) then lit "0"
      else let '(negative, digits, exponent) := lower_exp q in
           let body := js_digits digits exponent in
           if negative then lit "-" ++ body else body
  end.

(** The parts with a comma between them. *)
Fixpoint commas (parts : list bytes) : bytes :=
  match parts with
  | [] => []
  | [part] => part
  | part :: parts => part ++ lit "," ++ commas parts
  end.
Definition member (e : string * bytes) : bytes := ts_write_string e.1 ++ lit ":" ++ e.2.
Definition js_entry_le (a b : string * bytes) : bool := js_name_le a.1 b.1.

Fixpoint ts_write (v : Value) : bytes :=
  match v with
  | VNull => lit "null"
  | VBool true => lit "true"
  | VBool false => lit "false"
  | VNum number => js_number number
  | VStr text => ts_write_string text
  | VArr items => lit "[" ++ commas (map ts_write items) ++ lit "]"
  | VObj o => lit "{" ++ commas (map member (sort_by js_entry_le
      ((fix go (o : list (string * Value)) := match o with
        | [] => []
        | (k, v) :: o => (k, ts_write v) :: go o
        end) o))) ++ lit "}"
  end.
Definition ts_canonical_json : Value → bytes := ts_write.
End texts.

(** ** Order *)

(** ** Orders on names *)

Lemma lex_less_irrefl x : lex_less x x = false.
Proof. induction x as [|a x IH]; simpl; [done|]. by rewrite Z.ltb_irrefl, Z.eqb_refl. Qed.
Lemma lex_less_total x y : lex_less x y = false → lex_less y x = false → x = y.
Proof.
  revert y. induction x as [|a x IH]; intros [|b y]; simpl; try done.
  rewrite !orb_false_iff, !andb_false_iff, !Z.ltb_ge, !Z.eqb_neq. intros [H1 H2] [H3 H4].
  assert (a = b) as -> by lia. f_equal. apply IH; [by destruct H2|by destruct H4].
Qed.
Lemma lex_less_trans x y z : lex_less x y = true → lex_less y z = true → lex_less x z = true.
Proof.
  revert y z. induction x as [|a x IH]; intros [|b y] [|c z]; simpl; try done.
  rewrite !orb_true_iff, !andb_true_iff, !Z.ltb_lt, !Z.eqb_eq.
  intros [?|[-> H1]] [?|[-> H2]]; [left; lia|by left|by left|right; split; [done|by eapply IH]].
Qed.
Lemma lex_less_asymm x y : lex_less x y = true → lex_less y x = false.
Proof.
  intros H. destruct (lex_less y x) eqn:E; [|done]. pose proof (lex_less_trans _ _ _ H E) as C. by rewrite lex_less_irrefl in C.
Qed.
Lemma lex_le_trans x y z : lex_less y x = false → lex_less z y = false → lex_less z x = false.
Proof.
  intros H1 H2. destruct (lex_less z x) eqn:E; [|done]. destruct (lex_less x y) eqn:E1.
  - pose proof (lex_less_trans _ _ _ E E1) as C. by rewrite C in H2.
  - pose proof (lex_less_total _ _ E1 H1) as ->. by rewrite E in H2.
Qed.

(** A list sorted by an order that is total, transitive and antisymmetric on
    its elements depends only on what is in it. *)
Section unique.
Context {A : Type} (le : A → A → bool).
Context (le_total : ∀ x y, le x y = true ∨ le y x = true).
Context (le_trans : ∀ x y z, le x y = true → le y z = true → le x z = true).

Lemma sorted_unique l l' : (∀ x y, x ∈ l → y ∈ l → le x y = true → le y x = true → x = y) →
  StronglySorted (λ a b, le a b = true) l → StronglySorted (λ a b, le a b = true) l' → l ≡ₚ l' → l = l'.
Proof.
  intros Ha Hl. revert l' Ha. induction Hl as [|x l Hl IH Hx]; intros l' Ha Hl' Hp; [by apply Permutation_nil in Hp|].
  destruct Hl' as [|y l' Hl' Hy]; [by apply Permutation_sym, Permutation_nil in Hp|].
  rewrite Forall_forall in Hx, Hy.
  assert (x = y) as ->.
  { assert (x ∈ y :: l') as Hx' by (rewrite <-Hp; left). assert (y ∈ x :: l) as Hy' by (rewrite Hp; left).
    apply elem_of_cons in Hx' as [?|Hx']; [done|]. apply elem_of_cons in Hy' as [?|Hy']; [done|].
    apply Ha; [left|by right|by apply Hx|by apply Hy]. }
  f_equal. apply IH; [|done|by apply Permutation_cons_inv in Hp]. intros a b ? ?. apply Ha; by right.
Qed.
Lemma sort_by_unique l l' : (∀ x y, x ∈ l → y ∈ l → le x y = true → le y x = true → x = y) →
  l ≡ₚ l' → sort_by le l = sort_by le l'.
Proof.
  intros Ha Hp. apply sorted_unique; [|by apply sort_by_sorted..|by rewrite !sort_by_perm].
  intros x y. rewrite !elem_of_sort_by. apply Ha.
Qed.
End unique.

(** ** UTF-16 tells texts apart *)

Lemma utf16_char_inj c c' r r' : is_scalar c = true → is_scalar c' = true →
  utf16_char c ++ r = utf16_char c' ++ r' → c = c' ∧ r = r'.
Proof.
  rewrite !is_scalar_spec. intros Hc Hc'. unfold utf16_char.
  destruct (Z.ltb_spec c 0x10000), (Z.ltb_spec c' 0x10000); simpl.
  - by intros [= -> ->].
  - intros [= E _]. pose proof (Z.div_pos (c' - 65536) 1024). assert ((c' - 65536) / 1024 < 1024) by (apply Z.div_lt_upper_bound; lia). lia.
  - intros [= E _]. pose proof (Z.div_pos (c - 65536) 1024). assert ((c - 65536) / 1024 < 1024) by (apply Z.div_lt_upper_bound; lia). lia.
  - intros [= E1 E2 ->]. split; [|done]. pose proof (Z.div_mod (c - 65536) 1024). pose proof (Z.div_mod (c' - 65536) 1024). lia.
Qed.
Lemma lit_bytes s : Forall is_byte (lit s).
Proof.
  unfold lit, is_byte. apply Forall_forall. intros b Hb. apply list_elem_of_fmap in Hb as (a & -> & _).
  pose proof (Ascii.nat_ascii_bounded a). lia.
Qed.
Lemma lit_inj s s' : lit s = lit s' → s = s'.
Proof.
  unfold lit. intros E. rewrite <-(String.string_of_list_ascii_of_string s), <-(String.string_of_list_ascii_of_string s'). f_equal.
  revert E. generalize (String.list_ascii_of_string s) (String.list_ascii_of_string s'). intros l.
  induction l as [|a l IH]; intros [|b l']; simpl; try done. intros [= E1 E2]. f_equal; [|by apply IH].
  rewrite <-(Ascii.ascii_nat_embedding a), <-(Ascii.ascii_nat_embedding b). f_equal. lia.
Qed.
Lemma encode_utf16_inj s s' : valid_utf8 (lit s) = true → valid_utf8 (lit s') = true → encode_utf16 s = encode_utf16 s' → s = s'.
Proof.
  unfold valid_utf8, encode_utf16. destruct (decode (lit s)) as [cs|] eqn:E; [|done].
  destruct (decode (lit s')) as [cs'|] eqn:E'; [|done]. intros _ _. simpl. intros Hu.
  apply encode_decode in E as [Es Hs]; [|apply lit_bytes]. apply encode_decode in E' as [Es' Hs']; [|apply lit_bytes].
  apply lit_inj. rewrite <-Es, <-Es'. f_equal. clear Es Es'. revert cs' Hs' Hu.
  induction Hs as [|c cs Hc Hs IH]; intros cs' Hs' Hu; destruct Hs' as [|c' cs' Hc' Hs']; [done|..|simpl in Hu].
  - unfold utf16_char in Hu. simpl in Hu. by destruct (c' <? 65536).
  - unfold utf16_char in Hu. simpl in Hu. by destruct (c <? 65536).
  - apply utf16_char_inj in Hu as [-> Hu]; [|done..]. f_equal. by apply IH.
Qed.

(** ** The order on names is total, and antisymmetric on texts *)

Lemma digit_bounds c d : digit c = Some d → 0 ≤ d ≤ 9.
Proof. unfold digit. case_match eqn:E; [|done]. intros [= <-]. apply andb_true_iff in E as [?%Z.leb_le ?%Z.leb_le]. lia. Qed.
Lemma digit_inj c c' d : digit c = Some d → digit c' = Some d → c = c'.
Proof.
  unfold digit. repeat case_match; try done. intros [= E1] [= E2].
  rewrite <-(Ascii.ascii_nat_embedding c), <-(Ascii.ascii_nat_embedding c'). f_equal. lia.
Qed.
Lemma digits_bounds acc s n : 0 ≤ acc → digits acc s = Some n →
  acc * 10 ^ Z.of_nat (String.length s) ≤ n < (acc + 1) * 10 ^ Z.of_nat (String.length s).
Proof.
  revert acc. induction s as [|c s IH]; intros acc Hacc; cbn [digits String.length]; [intros [= <-]; simpl; lia|].
  destruct (digit c) as [d|] eqn:Ed; [|done]. apply digit_bounds in Ed. simpl. intros H. apply IH in H; [|lia].
  rewrite Nat2Z.inj_succ, Z.pow_succ_r by lia. pose proof (Z.pow_pos_nonneg 10 (Z.of_nat (String.length s))). nia.
Qed.
Lemma digits_inj s s' acc acc' n : 0 ≤ acc → 0 ≤ acc' → String.length s = String.length s' →
  digits acc s = Some n → digits acc' s' = Some n → acc = acc' ∧ s = s'.
Proof.
  revert s' acc acc'. induction s as [|c s IH]; intros [|c' s'] acc acc' Ha Ha'; simpl; try done.
  - intros _ [= ->] [= ->]. done.
  - intros [= Hlen]. destruct (digit c) as [d|] eqn:Ed; [|done]. destruct (digit c') as [d'|] eqn:Ed'; [|done]. simpl. intros H H'.
    pose proof (digit_bounds _ _ Ed). pose proof (digit_bounds _ _ Ed').
    destruct (IH s' (acc * 10 + d) (acc' * 10 + d')) as [E ->]; [lia|lia|done..|].
    assert (acc = acc' ∧ d = d') as [-> ->] by lia. split; [done|]. f_equal. by eapply digit_inj.
Qed.

Lemma digits_value c s n : digits 0 (String c s) = Some n → ∃ d, digit c = Some d ∧ digits d s = Some n.
Proof. simpl. destruct (digit c) as [d|]; [|done]. simpl. exists d. by split. Qed.
Lemma array_index_value key i : array_index key = Some i →
  digits 0 key = Some i ∧ 0 < Z.of_nat (String.length key)
  ∧ (i = 0 ∧ key = "0" ∨ 10 ^ (Z.of_nat (String.length key) - 1) ≤ i < 10 ^ Z.of_nat (String.length key)).
Proof.
  intros H. assert (key = "0" ∧ i = 0 ∨ (∃ c s, key = String c s ∧ c ≠ "0"%char ∧ digits 0 key = Some i)) as [[-> ->]|(c & s & -> & Hc & Hd)].
  { unfold array_index in H. destruct key as [|c key]; [done|].
    destruct (decide (c = "0"%char)) as [->|Hc]; [destruct key; [left; by injection H as <-|done]|].
    right. exists c, key. split; [done|]. split; [done|].
    assert ((n ← digits 0 (String c key); if n <? u32_max then Some n else None) = Some i) as H'.
    { destruct c as [[] [] [] [] [] [] [] []]; try exact H; done. }
    destruct (digits 0 (String c key)) as [n|]; [|done]. simpl in H'. by destruct (n <? u32_max). }
  - split; [done|]. split; [simpl; lia|by left].
  - split; [done|]. split; [simpl; lia|]. right. apply digits_value in Hd as (d & Ed & Hd). pose proof (digit_bounds _ _ Ed).
    assert (d ≠ 0) as Hd0. { intros ->. apply Hc. by apply (digit_inj c "0"%char 0). }
    apply digits_bounds in Hd; [|lia]. simpl String.length. rewrite Nat2Z.inj_succ, Z.sub_1_r, Z.pred_succ, Z.pow_succ_r by lia.
    pose proof (Z.pow_pos_nonneg 10 (Z.of_nat (String.length s))). nia.
Qed.
Lemma array_index_inj a b i : array_index a = Some i → array_index b = Some i → a = b.
Proof.
  intros (Ha & Hla & Ca)%array_index_value (Hb & Hlb & Cb)%array_index_value.
  assert (∀ n m, 0 ≤ n → n < m → 10 ^ n < 10 ^ m) as Hpow by (intros; apply Z.pow_lt_mono_r; lia).
  assert (∀ n, 0 ≤ n → 0 < 10 ^ n) as Hpos by (intros; apply Z.pow_pos_nonneg; lia).
  destruct Ca as [[-> ->]|Ca], Cb as [[Ei ->]|Cb]; [done| | |].
  - specialize (Hpos (Z.of_nat (String.length b) - 1)). lia.
  - specialize (Hpos (Z.of_nat (String.length a) - 1)). lia.
  - assert (String.length a = String.length b) as Hlen.
    { destruct (Nat.lt_trichotomy (String.length a) (String.length b)) as [?|[?|?]]; [|done|]; exfalso.
      - pose proof (Z.pow_le_mono_r 10 (Z.of_nat (String.length a)) (Z.of_nat (String.length b) - 1)). lia.
      - pose proof (Z.pow_le_mono_r 10 (Z.of_nat (String.length b)) (Z.of_nat (String.length a) - 1)). lia. }
    by eapply digits_inj.
Qed.

Lemma js_name_le_total a b : js_name_le a b = true ∨ js_name_le b a = true.
Proof.
  unfold js_name_le, js_less. destruct (array_index a), (array_index b); auto; [rewrite !Z.leb_le; lia|].
  destruct (lex_less (encode_utf16 b) (encode_utf16 a)) eqn:E; [|by left]. right. by rewrite (lex_less_asymm _ _ E).
Qed.
Lemma js_name_le_trans a b c : js_name_le a b = true → js_name_le b c = true → js_name_le a c = true.
Proof.
  unfold js_name_le, js_less. destruct (array_index a), (array_index b), (array_index c); try done; [rewrite !Z.leb_le; lia|].
  rewrite !negb_true_iff. apply lex_le_trans.
Qed.
Lemma js_name_le_antisymm a b : valid_utf8 (lit a) = true → valid_utf8 (lit b) = true →
  js_name_le a b = true → js_name_le b a = true → a = b.
Proof.
  unfold js_name_le, js_less. intros Ha Hb. destruct (array_index a) eqn:Ea, (array_index b) eqn:Eb; try done.
  - rewrite !Z.leb_le. intros. eapply array_index_inj; [done|]. rewrite Eb. f_equal. lia.
  - rewrite !negb_true_iff. intros H1 H2. apply encode_utf16_inj; [done..|]. by apply lex_less_total.
Qed.
Lemma name_le_total a b : name_le a b = true ∨ name_le b a = true.
Proof.
  unfold name_le. destruct (lex_less (lit b.1) (lit a.1)) eqn:E; [|by left]. right. by rewrite (lex_less_asymm _ _ E).
Qed.
Lemma name_le_trans a b c : name_le a b = true → name_le b c = true → name_le a c = true.
Proof. unfold name_le. rewrite !negb_true_iff. apply lex_le_trans. Qed.
Lemma name_le_antisymm a b : name_le a b = true → name_le b a = true → a.1 = b.1.
Proof. unfold name_le. rewrite !negb_true_iff. intros. apply lit_inj. by apply lex_less_total. Qed.

(** ** Equal values have one canonical form *)

#[local] Set Warnings "-register-all".

(** A JSON value whose names and texts are Rust strings and whose names are
    distinct, as a [serde_json] map's are. *)
Inductive json_ok : Value → Prop :=
  | ok_null : json_ok VNull
  | ok_bool b : json_ok (VBool b)
  | ok_num n : json_ok (VNum n)
  | ok_str s : json_ok (VStr s)
  | ok_arr l : Forall json_ok l → json_ok (VArr l)
  | ok_obj o : NoDup (map fst o) → Forall (λ e, valid_utf8 (lit e.1) = true ∧ json_ok e.2) o → json_ok (VObj o).

Lemma value_eqb_arr x y : value_eqb (VArr x) (VArr y) = true ↔ Forall2 (λ v w, value_eqb v w = true) x y.
Proof.
  revert y. induction x as [|v x IH]; intros [|w y]; simpl.
  - split; [constructor|done].
  - split; [done|by inversion 1].
  - split; [done|by inversion 1].
  - rewrite andb_true_iff, Forall2_cons. simpl in IH. by rewrite IH.
Qed.
Definition member_eqb (y : list (string * Value)) (e : string * Value) : bool :=
  match obj_get e.1 y with Some w => value_eqb e.2 w | None => false end.
Lemma value_eqb_obj x y : value_eqb (VObj x) (VObj y) = true ↔ length x = length y ∧ Forall (λ e, member_eqb y e = true) x.
Proof.
  simpl. rewrite andb_true_iff, Nat.eqb_eq.
  assert ((fix go (x : list (string * Value)) := match x with
    | [] => true
    | (k, v) :: x => match obj_get k y with Some w => value_eqb v w | None => false end && go x end) x = true
    ↔ Forall (λ e, member_eqb y e = true) x) as ->; [|done].
  induction x as [|[k v] x IH]; [split; [constructor|done]|]. by rewrite andb_true_iff, Forall_cons, IH.
Qed.

Lemma obj_get_elem k v o : obj_get k o = Some v → (k, v) ∈ o.
Proof.
  induction o as [|[k' v'] o IH]; simpl; [done|]. case_bool_decide as Hk; [intros [= ->]; subst; left|]. intros E. right. by apply IH.
Qed.
Lemma obj_get_unique k v o : NoDup (map fst o) → (k, v) ∈ o → obj_get k o = Some v.
Proof.
  induction o as [|[k' v'] o IH]; simpl; [by intros _ ?%elem_of_nil|]. intros [Hk Hn]%NoDup_cons [[= <- <-]|Hin]%elem_of_cons.
  - by rewrite bool_decide_true.
  - rewrite bool_decide_false; [by apply IH|]. intros ->. apply Hk. by apply (list_elem_of_fmap_2 fst _ (k, v)).
Qed.

(** Whatever a function of the members makes of equal values alike, it makes
    of both objects the same pairs, up to their order. *)
Lemma members_perm {B} (f : Value → B) x y : NoDup (map fst x) → NoDup (map fst y) → length x = length y →
  Forall (λ e, member_eqb y e = true) x →
  (∀ e w, e ∈ x → (e.1, w) ∈ y → value_eqb e.2 w = true → f e.2 = f w) →
  map (λ e, (e.1, f e.2)) x ≡ₚ map (λ e, (e.1, f e.2)) y.
Proof.
  intros Hx Hy Hlen Hm Hf. apply submseteq_length_Permutation; [|by rewrite !length_map, Hlen].
  apply NoDup_submseteq.
  - apply (NoDup_fmap_1 fst). change (NoDup (map fst (map (λ e, (e.1, f e.2)) x))). by rewrite map_map.
  - intros p Hp. apply list_elem_of_fmap in Hp as ([k v] & -> & Hin). rewrite Forall_forall in Hm.
    specialize (Hm _ Hin). unfold member_eqb in Hm. simpl in *.
    destruct (obj_get k y) as [w|] eqn:E; [|done]. apply obj_get_elem in E.
    pose proof (Hf _ _ Hin E Hm) as Ef. simpl in Ef. rewrite Ef. by apply (list_elem_of_fmap_2 (λ e, (e.1, f e.2)) _ (k, w)).
Qed.
Lemma same_name {B} (o : list (string * B)) a b : NoDup (map fst o) → a ∈ o → b ∈ o → a.1 = b.1 → a = b.
Proof.
  intros Hn Ha Hb E. induction o as [|c o IH]; [by apply elem_of_nil in Ha|]. simpl in Hn. apply NoDup_cons in Hn as [Hc Hn].
  apply elem_of_cons in Ha as [->|Ha]; apply elem_of_cons in Hb as [->|Hb]; [done|..|by apply IH]; destruct Hc.
  - rewrite E. by apply (list_elem_of_fmap_2 fst).
  - rewrite <-E. by apply (list_elem_of_fmap_2 fst).
Qed.

(** Sorting the pairs by an order on the names gives the same list. *)
Lemma members_sorted {B} (le : string * B → string * B → bool) (f : Value → B) x y :
  (∀ a b, le a b = true ∨ le b a = true) → (∀ a b c, le a b = true → le b c = true → le a c = true) →
  (∀ a b, valid_utf8 (lit a.1) = true → valid_utf8 (lit b.1) = true → le a b = true → le b a = true → a.1 = b.1) →
  json_ok (VObj x) → json_ok (VObj y) → value_eqb (VObj x) (VObj y) = true →
  (∀ e w, e ∈ x → json_ok w → value_eqb e.2 w = true → f e.2 = f w) →
  sort_by le (map (λ e, (e.1, f e.2)) x) = sort_by le (map (λ e, (e.1, f e.2)) y).
Proof.
  intros Ht Htr Ha Hx Hy [Hlen Hm]%value_eqb_obj Hf. inversion Hx as [| | | | |? Hnx Hox]; subst. inversion Hy as [| | | | |? Hny Hoy]; subst.
  rewrite Forall_forall in Hox, Hoy. apply sort_by_unique; [done|done| |].
  - intros a b Hina Hinb H1 H2. apply (same_name (map (λ e, (e.1, f e.2)) x)); [by rewrite map_map|done|done|].
    apply list_elem_of_fmap in Hina as (ea & -> & Hea). apply list_elem_of_fmap in Hinb as (eb & -> & Heb).
    by apply Ha; [apply (Hox _ Hea)|apply (Hox _ Heb)|..].
  - apply members_perm; [done..|]. intros e w He Hw. apply Hf; [done|]. by apply (Hoy _ Hw).
Qed.

Lemma map_pairs {B} (f : Value → B) o :
  (fix go (o : list (string * Value)) := match o with [] => [] | (k, v) :: o => (k, f v) :: go o end) o
  = map (λ e, (e.1, f e.2)) o.
Proof. induction o as [|[k v] o IH]; simpl; [done|]. by rewrite IH. Qed.

Section forms.
Context {lower : LowerExp}.

(** The canonical forms of equal arguments are equal, however their objects
    were built: one call has one digest in each port. *)
Theorem canonical_forms_agree a b : json_ok a → json_ok b → value_eqb a b = true →
  sort_into_btree a = sort_into_btree b ∧ ts_canonical_json a = ts_canonical_json b.
Proof.
  unfold ts_canonical_json. revert b.
  induction a as [|x|n|s|l IH|o IH] using value_nested_ind; intros b Ha Hb E; destruct b; try done.
  - simpl in E. apply Bool.eqb_prop in E. by subst.
  - simpl in E. apply bool_decide_eq_true in E. by subst.
  - simpl in E. apply bool_decide_eq_true in E. by subst.
  - apply value_eqb_arr in E. inversion Ha as [| | | |? Hl|]; subst. inversion Hb as [| | | |? Hl'|]; subst. simpl.
    assert (map sort_into_btree l = map sort_into_btree l0 ∧ map ts_write l = map ts_write l0) as [-> ->]; [|done].
    clear Ha Hb. revert IH Hl Hl'. induction E as [|v w l l' Hvw E IHl]; [done|]. intros [IHv IH]%Forall_cons [Hv Hl]%Forall_cons [Hw Hl']%Forall_cons.
    destruct (IHl IH Hl Hl') as [E1 E2]. destruct (IHv w Hv Hw Hvw) as [E3 E4]. simpl. by rewrite E1, E2, E3, E4.
  - rewrite Forall_forall in IH. inversion Ha as [| | | | |? Hn Hok]; subst. rewrite Forall_forall in Hok.
    assert (∀ e w, e ∈ o → json_ok w → value_eqb e.2 w = true →
      sort_into_btree e.2 = sort_into_btree w ∧ ts_write e.2 = ts_write w) as Hf.
    { intros e w He Hw Hew. apply IH; [done|by apply Hok|done|done]. }
    simpl. rewrite !map_pairs. split.
    + f_equal. apply members_sorted; [apply name_le_total|apply name_le_trans| |done..|by intros; apply Hf].
      intros. by apply name_le_antisymm.
    + do 2 f_equal. do 2 f_equal. apply members_sorted; [intros; apply js_name_le_total|intros ???; apply js_name_le_trans| |done..|by intros; apply Hf].
      intros. by apply js_name_le_antisymm.
Qed.
End forms.
