(* ===== verification/CanonicalText.v ===== *)
(** * Canonical arguments tell calls apart

    The JavaScript text determines the value it was written from: different
    arguments have different texts, so a digest stands for one call. *)

From stdpp Require Import pretty.
From S2P Require Export CanonicalArgs.
Local Open Scope Z_scope.

(** ** Lists *)

Lemma split_first {A} (x : A) p q r s : x ∉ p → x ∉ q → p ++ x :: r = q ++ x :: s → p = q ∧ r = s.
Proof.
  revert q. induction p as [|a p IH]; intros [|b q] Hp Hq; simpl; intros E.
  - by injection E.
  - injection E as -> _. destruct Hq. left.
  - injection E as <- _. destruct Hp. left.
  - injection E as -> E. apply not_elem_of_cons in Hp as [_ Hp]. apply not_elem_of_cons in Hq as [_ Hq].
    by destruct (IH q Hp Hq E) as [-> ->].
Qed.
(** Two runs of one class of bytes, each ended by another. *)
Lemma split_class (P : Z → Prop) p q r s : Forall P p → Forall P q →
  (∀ x, head r = Some x → ¬ P x) → (∀ x, head s = Some x → ¬ P x) → p ++ r = q ++ s → p = q ∧ r = s.
Proof.
  intros Hp. revert q. induction Hp as [|a p Ha Hp IH]; intros q Hq Hr Hs; destruct Hq as [|b q Hb Hq]; simpl; intros E.
  - done.
  - subst r. by destruct (Hr b).
  - subst s. by destruct (Hs a).
  - injection E as -> E. by destruct (IH q Hq Hr Hs E) as [-> ->].
Qed.
Lemma zeros_front a b p q : head p ≠ Some 48 → head q ≠ Some 48 → repeat 48 a ++ p = repeat 48 b ++ q → a = b ∧ p = q.
Proof.
  intros Hp Hq. revert b. induction a as [|a IH]; intros [|b]; simpl; intros E.
  - done.
  - subst p. done.
  - subst q. done.
  - injection E as E. by destruct (IH b E) as [-> ->].
Qed.
Lemma zeros_back a b p q : last p ≠ Some 48 → last q ≠ Some 48 → p ++ repeat 48 a = q ++ repeat 48 b → a = b ∧ p = q.
Proof.
  intros Hp Hq E. apply (f_equal reverse) in E. rewrite !reverse_app in E.
  assert (∀ n, reverse (repeat 48 n) = repeat 48 n) as Hrev.
  { intros n. unfold reverse. rewrite <-rev_alt. induction n as [|n IH]; [done|]. simpl. rewrite IH. clear. by induction n as [|n IH]; simpl; [|rewrite IH]. }
  rewrite !Hrev in E. apply zeros_front in E as [-> E]; [|by rewrite <-last_reverse, reverse_involutive..].
  split; [done|]. by apply (inj reverse).
Qed.

(** ** The digits of a number *)

Record canonical (digits : bytes) : Prop := {
  cd_some : digits ≠ [];
  cd_digits : Forall (λ b, 48 ≤ b ≤ 57) digits;
  cd_first : head digits ≠ Some 48;
  cd_last : last digits ≠ Some 48
}.

(** A finite binary64 number. *)
Definition double (q : Qc) : Prop :=
  ∃ m e : Z, Z.abs m < 2 ^ 53 ∧ -1074 ≤ e ≤ 971 ∧ q = Q2Qc (inject_Z m * Qpower (inject_Z 2) e)%Q.

(** [LowerExp] writes the shortest form: the digits are canonical, and with
    the sign and the exponent they read back as the number. *)
Class LowerExpLaws {lower : LowerExp} := {
  lower_inj q q' : double q → double q' → q ≠ 0%Qc → q' ≠ 0%Qc → lower_exp q = lower_exp q' → q = q';
  lower_canonical q negative digits exponent :
    double q → q ≠ 0%Qc → lower_exp q = (negative, digits, exponent) → canonical digits
}.

Definition is_digit (b : Z) : Prop := 48 ≤ b ≤ 57.
Lemma digits_no x l : Forall is_digit l → ¬ is_digit x → x ∉ l.
Proof. rewrite Forall_forall. intros H Hx Hin. by apply Hx, H. Qed.
Lemma zeros_digits n : Forall is_digit (repeat 48 n).
Proof. induction n; constructor; [unfold is_digit; lia|done]. Qed.

(** Which of the four forms a text has. *)
Definition form (text : bytes) : Z :=
  if bool_decide (101 ∈ text) then 3 else if bool_decide (46 ∈ text) then (if bool_decide (head text = Some 48) then 2 else 1) else 0.
Definition form_of (k n : Z) : Z :=
  if (k <=? n) && (n <=? 21) then 0 else if (0 <? n) && (n <=? 21) then 1 else if (-6 <? n) && (n <=? 0) then 2 else 3.

Lemma canonical_head ds : canonical ds → ∃ d rest, ds = d :: rest ∧ d ≠ 48.
Proof.
  intros [H1 _ H3 _]. destruct ds as [|d rest]; [done|]. exists d, rest. split; [done|]. intros ->. by apply H3.
Qed.
Lemma form_js ds e : canonical ds → form (js_digits ds e) = form_of (Z.of_nat (length ds)) (e + 1).
Proof.
  intros Hc. pose proof (cd_digits _ Hc) as Hd. destruct (canonical_head _ Hc) as (d & rest & Eds & Hd0).
  assert (101 ∉ ds) as H101 by (apply (digits_no _ _ Hd); unfold is_digit; lia).
  assert (46 ∉ ds) as H46 by (apply (digits_no _ _ Hd); unfold is_digit; lia).
  assert (∀ n, 101 ∉ repeat 48 n ∧ 46 ∉ repeat 48 n) as Hz.
  { intros n. split; apply (digits_no _ _ (zeros_digits n)); unfold is_digit; lia. }
  unfold js_digits, form_of, zeros. set (k := Z.of_nat (length ds)). set (n := e + 1).
  destruct ((k <=? n) && (n <=? 21)) eqn:E1; [|destruct ((0 <? n) && (n <=? 21)) eqn:E2; [|destruct ((-6 <? n) && (n <=? 0)) eqn:E3]]; unfold form.
  - rewrite !bool_decide_false; [done|rewrite elem_of_app; intros [?|?]; [done|by destruct (Hz (Z.to_nat (n - k)))]..].
  - rewrite <-(take_drop (Z.to_nat n) ds) in H101, H46. rewrite elem_of_app in H101, H46.
    rewrite bool_decide_false; [|rewrite !elem_of_app; intros [?|[[=]%list_elem_of_singleton|?]]; tauto].
    rewrite bool_decide_true; [|rewrite !elem_of_app; right; left; left].
    rewrite bool_decide_false; [done|]. assert (0 < n) by lia. destruct (Z.to_nat n) as [|m] eqn:Em; [lia|]. rewrite Eds. simpl. congruence.
  - rewrite bool_decide_false; [|simpl; rewrite !elem_of_cons, elem_of_app; intros [?|[?|[?|?]]]; [done|done|by destruct (Hz (Z.to_nat (- n)))|done]].
    rewrite bool_decide_true; [|right; left]. by rewrite bool_decide_true.
  - rewrite bool_decide_true; [done|]. rewrite !elem_of_app. right; left. left.
Qed.

Lemma decimal_inj n m : decimal n = decimal m → n = m.
Proof. intros E%lit_inj. by apply (inj pretty). Qed.
Lemma mantissa_inj ds ds' : canonical ds → canonical ds' →
  (if 1 <? Z.of_nat (length ds) then take 1 ds ++ lit "." ++ drop 1 ds else ds)
  = (if 1 <? Z.of_nat (length ds') then take 1 ds' ++ lit "." ++ drop 1 ds' else ds') → ds = ds'.
Proof.
  intros Hc Hc'. destruct (canonical_head _ Hc) as (d & rest & -> & _), (canonical_head _ Hc') as (d' & rest' & -> & _).
  assert (∀ x y (l : bytes), 1 <? Z.of_nat (length (x :: y :: l)) = true) as Hlong by (intros; apply Z.ltb_lt; simpl; lia).
  destruct rest as [|x rest], rest' as [|x' rest']; rewrite ?Hlong; simpl; [done| |done|]; rewrite ?drop_0; congruence.
Qed.

Lemma mantissa_no_e ds : Forall is_digit ds → 101 ∉ (if 1 <? Z.of_nat (length ds) then take 1 ds ++ lit "." ++ drop 1 ds else ds).
Proof.
  intros Hd. assert (101 ∉ ds) as H by (apply (digits_no _ _ Hd); unfold is_digit; lia).
  destruct (1 <? _); [|done]. rewrite <-(take_drop 1 ds), elem_of_app in H.
  rewrite !elem_of_app. intros [?|[[=]%list_elem_of_singleton|?]]; tauto.
Qed.
Lemma split_sign n m : (if n <? 0 then lit "-" else lit "+") ++ decimal (Z.abs n)
  = (if m <? 0 then lit "-" else lit "+") ++ decimal (Z.abs m) → n = m.
Proof.
  destruct (Z.ltb_spec n 0), (Z.ltb_spec m 0); intros E; try discriminate E; injection E as E%decimal_inj; lia.
Qed.

Lemma js_digits_inj ds e ds' e' : canonical ds → canonical ds' → js_digits ds e = js_digits ds' e' → ds = ds' ∧ e = e'.
Proof.
  intros Hc Hc' E. pose proof (f_equal form E) as Ef. rewrite !form_js in Ef by done. revert E Ef.
  destruct (canonical_head _ Hc) as (d & rest & Eds & Hd0), (canonical_head _ Hc') as (d' & rest' & Eds' & Hd0').
  pose proof (cd_digits _ Hc) as Hd. pose proof (cd_digits _ Hc') as Hd'.
  unfold js_digits, form_of, zeros. set (k := Z.of_nat (length ds)). set (n := e + 1). set (k' := Z.of_nat (length ds')). set (n' := e' + 1).
  assert (ds = ds' → n = n' → ds = ds' ∧ e = e') as Hend by (intros; split; [done|lia]).
  destruct ((k <=? n) && (n <=? 21)) eqn:A1; [|destruct ((0 <? n) && (n <=? 21)) eqn:A2; [|destruct ((-6 <? n) && (n <=? 0)) eqn:A3]];
  (destruct ((k' <=? n') && (n' <=? 21)) eqn:B1; [|destruct ((0 <? n') && (n' <=? 21)) eqn:B2; [|destruct ((-6 <? n') && (n' <=? 0)) eqn:B3]]);
  try done; intros E _.
  - destruct (zeros_back _ _ _ _ (cd_last _ Hc) (cd_last _ Hc') E) as [Ez E0].
    assert (k = k') by (unfold k, k'; by rewrite E0). apply Hend; [done|]. lia.
  - apply split_first in E as [E1 E2].
    + apply Hend; [by rewrite <-(take_drop (Z.to_nat n) ds), <-(take_drop (Z.to_nat n') ds'), E1, E2|].
      apply (f_equal length) in E1. rewrite !length_take in E1. lia.
    + intros Hin. apply (digits_no 46 ds Hd); [unfold is_digit; lia|]. rewrite <-(take_drop (Z.to_nat n) ds). apply elem_of_app. by left.
    + intros Hin. apply (digits_no 46 ds' Hd'); [unfold is_digit; lia|]. rewrite <-(take_drop (Z.to_nat n') ds'). apply elem_of_app. by left.
  - simpl in E. injection E as E. apply zeros_front in E as [Ez ->]; [|apply Hc|apply Hc']. apply Hend; [done|lia].
  - apply split_first in E as [E1 E2].
    + apply Hend; [by apply mantissa_inj|]. apply split_sign in E2. lia.
    + by apply mantissa_no_e.
    + by apply mantissa_no_e.
Qed.

(** ** Numbers *)

(** What a number is written with; what follows it is none of it. *)
Definition num_char (b : Z) : Prop := is_digit b ∨ b ∈ [45; 43; 46; 101].
Lemma digits_num l : Forall is_digit l → Forall num_char l.
Proof. intros H. eapply Forall_impl; [exact H|]. intros b. by left. Qed.
Lemma decimal_digits n : 0 ≤ n → Forall is_digit (decimal n).
Proof.
  intros Hn. assert (∀ s, Forall is_digit (lit s) → ∀ x, Forall is_digit (lit (pretty_N_go x s))) as Hgo.
  { intros s Hs x. revert s Hs. induction (N.lt_wf_0 x) as [x _ IH]; intros s Hs.
    assert (x = 0 ∨ 0 < x)%N as [->|?] by lia; [by rewrite pretty_N_go_0|].
    rewrite pretty_N_go_step by done. apply IH; [by apply N.div_lt|]. constructor; [|done].
    unfold is_digit, pretty_N_char. repeat case_match; split; vm_compute; discriminate. }
  unfold decimal. destruct n as [|p|p]; [|by apply Hgo; constructor|lia].
  constructor; [split; vm_compute; discriminate|constructor].
Qed.

Section numbers.
Context {lower : LowerExp} {laws : LowerExpLaws}.

Lemma js_digits_chars ds e : Forall is_digit ds → Forall num_char (js_digits ds e).
Proof.
  intros Hd%digits_num. pose proof (λ n, digits_num _ (zeros_digits n)) as Hz.
  assert (∀ b, b ∈ [45; 43; 46; 101] → Forall num_char [b]) as H1 by (intros b Hb; apply Forall_singleton; by right).
  assert (Forall num_char (lit ".") ∧ Forall num_char (lit "e") ∧ Forall num_char (lit "-") ∧ Forall num_char (lit "+")) as (Hp & He & Hm & Ha).
  { split_and!; apply H1, (bool_decide_eq_true_1 _); reflexivity. }
  unfold js_digits, zeros. repeat case_match; repeat (apply Forall_app; split); auto using Forall_take, Forall_drop, digits_num, decimal_digits with lia.
  apply (Forall_cons_2 num_char 48 (lit ".")); [left; split; vm_compute; discriminate|done].
Qed.
Lemma js_number_finite q : js_number (JFin q) = if bool_decide (q = 0%Qc) then lit "0"
  else let '(negative, ds, e) := lower_exp q in (if negative then lit "-" else []) ++ js_digits ds e.
Proof. unfold js_number. simpl. case_bool_decide; [done|]. destruct (lower_exp q) as [[[] ds] e]; done. Qed.
Lemma js_digits_head ds e : canonical ds → head (js_digits ds e) ≠ Some 45.
Proof.
  intros Hc. destruct (canonical_head _ Hc) as (d & rest & -> & _). pose proof (cd_digits _ Hc) as Hd.
  apply Forall_cons in Hd as [Hd _]. unfold js_digits. repeat case_match; simpl; try (intros [= ->]; lia); try done.
  destruct (Z.to_nat (e + 1)) eqn:En; simpl; [|intros [= ->]; lia]. rewrite ?andb_true_iff, ?Z.ltb_lt in *. lia.
Qed.
Lemma js_digits_not_zero ds e : canonical ds → js_digits ds e ≠ lit "0".
Proof.
  intros Hc E. pose proof (f_equal form E) as Ef. rewrite form_js in Ef by done. revert E.
  destruct (canonical_head _ Hc) as (d & rest & -> & Hd).
  unfold js_digits, form_of in *. repeat case_match; try discriminate Ef. intros [= -> _]. done.
Qed.
Lemma js_number_inj q q' : double q → double q' → js_number (JFin q) = js_number (JFin q') → q = q'.
Proof.
  intros Hq Hq'. rewrite !js_number_finite. case_bool_decide as H0; case_bool_decide as H0'; [by subst|..].
  - destruct (lower_exp q') as [[negative ds] e] eqn:El. pose proof (lower_canonical _ _ _ _ Hq' H0' El) as Hc.
    intros E. destruct negative; [discriminate E|]. by destruct (js_digits_not_zero ds e Hc).
  - destruct (lower_exp q) as [[negative ds] e] eqn:El. pose proof (lower_canonical _ _ _ _ Hq H0 El) as Hc.
    intros E. destruct negative; [discriminate E|]. by destruct (js_digits_not_zero ds e Hc).
  - destruct (lower_exp q) as [[n ds] e] eqn:El, (lower_exp q') as [[n' ds'] e'] eqn:El'.
    pose proof (lower_canonical _ _ _ _ Hq H0 El) as Hc. pose proof (lower_canonical _ _ _ _ Hq' H0' El') as Hc'.
    intros E. assert (n = n' ∧ js_digits ds e = js_digits ds' e') as [-> Ed].
    { destruct n, n'; simpl in E; [by injection E| | |done].
      - by destruct (js_digits_head ds' e' Hc'); rewrite <-E.
      - by destruct (js_digits_head ds e Hc); rewrite E. }
    apply js_digits_inj in Ed as [-> ->]; [|done..]. apply lower_inj; [done..|]. by rewrite El, El'.
Qed.
Lemma js_number_chars q : double q → Forall num_char (js_number (JFin q)).
Proof.
  intros Hq. rewrite js_number_finite. case_bool_decide as H0; [apply Forall_singleton; left; split; vm_compute; discriminate|].
  destruct (lower_exp q) as [[n ds] e] eqn:El. pose proof (cd_digits _ (lower_canonical _ _ _ _ Hq H0 El)) as Hd.
  apply Forall_app; split; [destruct n; [apply Forall_singleton; right; apply (bool_decide_eq_true_1 _); reflexivity|constructor]|by apply js_digits_chars].
Qed.
Lemma js_number_some q : double q → js_number (JFin q) ≠ [].
Proof.
  intros Hq. rewrite js_number_finite. case_bool_decide as H0; [done|].
  destruct (lower_exp q) as [[n ds] e] eqn:El. pose proof (lower_canonical _ _ _ _ Hq H0 El) as Hc. intros E.
  apply app_eq_nil in E as [_ E]. pose proof (f_equal form E) as Ef. rewrite form_js in Ef by done. revert E.
  destruct (canonical_head _ Hc) as (d & rest & -> & Hd). unfold js_digits, form_of in *. repeat case_match; done.
Qed.
End numbers.

(** ** Values *)

#[local] Set Warnings "-register-all".
(** The values of finite numbers; and those whose zeroes have no sign. *)
Inductive finite_value : Value → Prop :=
  | fv_null : finite_value VNull
  | fv_bool b : finite_value (VBool b)
  | fv_num q : double q → finite_value (VNum (JFin q))
  | fv_zero : finite_value (VNum JNegZero)
  | fv_str s : finite_value (VStr s)
  | fv_arr l : Forall finite_value l → finite_value (VArr l)
  | fv_obj o : Forall (λ e, finite_value e.2) o → finite_value (VObj o).
Inductive finite_json : Value → Prop :=
  | fin_null : finite_json VNull
  | fin_bool b : finite_json (VBool b)
  | fin_num q : double q → finite_json (VNum (JFin q))
  | fin_str s : finite_json (VStr s)
  | fin_arr l : Forall finite_json l → finite_json (VArr l)
  | fin_obj o : Forall (λ e, finite_json e.2) o → finite_json (VObj o).

(** What may follow a value inside a text. *)
Definition stop (r : bytes) : Prop := ∀ x, head r = Some x → x ∈ [44; 93; 125].
Lemma stop_cons x r : x ∈ [44; 93; 125] → stop (x :: r).
Proof. by intros Hx y [= <-]. Qed.
Lemma stop_num r x : stop r → head r = Some x → ¬ num_char x.
Proof.
  intros Hr Hx%Hr Hn. assert (∀ x, x ∈ [44; 93; 125] → x ∈ [45; 43; 46; 101] → False) as Hno.
  { intros y Hy Hy'. rewrite !elem_of_cons, elem_of_nil in *. lia. }
  destruct Hn as [Hn|Hn]; [|by eapply Hno]. unfold is_digit in Hn. rewrite !elem_of_cons, elem_of_nil in Hx. lia.
Qed.

Lemma ts_escape_read b r : 0 ≤ b → unescape (ts_escape b ++ r) = Some (b, r).
Proof.
  intros Hb. unfold ts_escape.
  repeat match goal with |- context [if ?a =? ?b then _ else _] => destruct (Z.eqb_spec a b) as [->|]; [done|] end.
  destruct (Z.ltb_spec b 0x20); [exact (unescape_control b r (conj Hb H))|]. simpl. destruct (Z.eqb_spec b 92); [by subst|done].
Qed.
Lemma ts_escape_head b : ∃ h t, ts_escape b = h :: t ∧ h ≠ 34.
Proof.
  unfold ts_escape. repeat match goal with |- context [if ?a =? ?b then _ else _] => destruct (Z.eqb_spec a b) as [->|]; [by eexists _, _|] end.
  destruct (b <? 0x20); by eexists _, _.
Qed.
Lemma ts_string_apart s s' r r' : ts_write_string s ++ r = ts_write_string s' ++ r' → s = s' ∧ r = r'.
Proof.
  intros E. apply quoted_apart in E as [E ->]; [by apply lit_inj in E|apply ts_escape_read|apply ts_escape_head|..];
    (eapply Forall_impl; [apply lit_bytes|]; intros b Hb; unfold is_byte in Hb; lia).
Qed.

Lemma commas_cons {A} (f : A → bytes) x l : commas (map f (x :: l)) = f x ++ match l with [] => [] | _ => 44 :: commas (map f l) end.
Proof. destruct l; simpl; [by rewrite app_nil_r|done]. Qed.
(** Lists of parts ended by the same bracket. *)
Lemma commas_apart {A} (f : A → bytes) (R : A → A → Prop) close l l' r r' : close ∈ [93; 125] →
  (∀ x y s s', x ∈ l → y ∈ l' → stop s → stop s' → f x ++ s = f y ++ s' → R x y ∧ s = s') →
  (∀ x s, x ∈ l ++ l' → head (f x ++ s) ≠ Some close) →
  commas (map f l) ++ close :: r = commas (map f l') ++ close :: r' → Forall2 R l l' ∧ r = r'.
Proof.
  intros Hclose. assert (close ≠ 44) as H44 by (rewrite !elem_of_cons, elem_of_nil in Hclose; lia).
  revert l'. induction l as [|x l IH]; intros [|y l'] Hf Hh E.
  - split; [constructor|]. by injection E.
  - rewrite commas_cons, <-app_assoc in E. exfalso. apply (Hh y (match l' with [] => [] | _ => 44 :: commas (map f l') end ++ close :: r')); [left|].
    by rewrite <-E.
  - rewrite commas_cons, <-app_assoc in E. exfalso. apply (Hh x (match l with [] => [] | _ => 44 :: commas (map f l) end ++ close :: r)); [left|].
    by rewrite E.
  - rewrite !commas_cons, <-!app_assoc in E.
    assert (∀ k r, stop (match k with [] => [] | _ => 44 :: commas (map f k) end ++ close :: r)) as Hstop.
    { intros [|? ?] s; apply stop_cons; rewrite !elem_of_cons, elem_of_nil in *; lia. }
    apply Hf in E as [HR E]; [|left|left|apply Hstop|apply Hstop].
    assert (Forall2 R l l' ∧ r = r') as [H1 ->]; [|split; [by constructor|done]].
    destruct l as [|z l], l' as [|z' l']; [split; [constructor|by injection E]|simpl in E; congruence|simpl in E; congruence|].
    injection E as E. apply IH; [| |exact E].
    + intros a b s s' Ha Hb. apply Hf; by right.
    + intros a s Ha. apply Hh. rewrite elem_of_app in *. destruct Ha; [left; by right|right; by right].
Qed.

Section texts.
Context {lower : LowerExp} {laws : LowerExpLaws}.

Definition entry_le (a b : string * Value) : bool := js_name_le a.1 b.1.
Lemma ts_write_obj o :
  ts_write (VObj o) = lit "{" ++ commas (map (λ e, ts_write_string e.1 ++ lit ":" ++ ts_write e.2) (sort_by entry_le o)) ++ lit "}".
Proof. simpl. rewrite map_pairs, (sort_by_map entry_le) by done. by rewrite map_map. Qed.

Lemma lead_num q : double q → ∃ c rest, js_number (JFin q) = c :: rest ∧ num_char c.
Proof.
  intros Hq. pose proof (js_number_chars q Hq) as Hc. destruct (js_number (JFin q)) as [|c rest] eqn:E; [by apply js_number_some in E|].
  exists c, rest. split; [done|]. by apply Forall_cons in Hc as [Hc _].
Qed.
Lemma num_lead c : num_char c → c ∉ [34; 91; 93; 102; 110; 116; 123; 125].
Proof. intros [H|H]; [unfold is_digit in H|]; rewrite !elem_of_cons, elem_of_nil in *; lia. Qed.
Lemma sorted_members_eqb x y : NoDup (map fst y) →
  Forall2 (λ e e', e.1 = e'.1 ∧ value_eqb e.2 e'.2 = true) (sort_by entry_le x) (sort_by entry_le y) →
  value_eqb (VObj x) (VObj y) = true.
Proof.
  intros Hn HF. apply value_eqb_obj. split.
  - apply Forall2_length in HF. by rewrite !sort_by_length in HF.
  - apply Forall_forall. intros e He. rewrite <-(elem_of_sort_by entry_le) in He.
    apply list_elem_of_lookup in He as [i Hi]. destruct (Forall2_lookup_l _ _ _ _ _ HF Hi) as (e' & Hi' & E1 & E2).
    apply list_elem_of_lookup_2 in Hi'. rewrite elem_of_sort_by in Hi'. unfold member_eqb. destruct e' as [k' v']. simpl in *. subst k'.
    by rewrite (obj_get_unique _ _ _ Hn Hi').
Qed.

(** Values that start with different bytes. *)
Definition lead (v : Value) : Z :=
  match v with
  | VNull => 110 | VBool true => 116 | VBool false => 102 | VNum n => default 0 (head (js_number n))
  | VStr _ => 34 | VArr _ => 91 | VObj _ => 123
  end.
Lemma ts_write_head v r : finite_json v → head (ts_write v ++ r) = Some (lead v).
Proof.
  intros Hv. destruct Hv as [|[]|q Hq| | |]; try done. destruct (lead_num q Hq) as (c & rest & E & _). cbn [ts_write lead]. by rewrite E.
Qed.
(** A value's text starts with no closing bracket. *)
Lemma ts_write_lead v s x : finite_json v → x ∈ [93; 125] → head (ts_write v ++ s) ≠ Some x.
Proof.
  intros Hv Hx. rewrite ts_write_head by done. intros [= <-]. revert Hx. rewrite !elem_of_cons, elem_of_nil.
  destruct Hv as [|[]|q Hq| | |]; simpl; try lia. destruct (lead_num q Hq) as (c & rest & E & Hc%num_lead). rewrite E. simpl.
  rewrite !elem_of_cons in Hc. naive_solver.
Qed.
Definition same_kind (a b : Value) : Prop :=
  match a, b with
  | VNull, VNull | VNum _, VNum _ | VStr _, VStr _ | VArr _, VArr _ | VObj _, VObj _ => True
  | VBool x, VBool y => x = y
  | _, _ => False
  end.
Lemma lead_kind a b : finite_json a → finite_json b → lead a = lead b → same_kind a b.
Proof.
  assert (∀ q, double q → lead (VNum (JFin q)) ∉ [34; 91; 93; 102; 110; 116; 123; 125]) as Hq.
  { intros q Hq. destruct (lead_num q Hq) as (c & rest & E & Hc%num_lead). cbn [lead]. by rewrite E. }
  assert (∀ q, double q → lead (VNum (JFin q)) ≠ 34 ∧ lead (VNum (JFin q)) ≠ 91 ∧ lead (VNum (JFin q)) ≠ 102
    ∧ lead (VNum (JFin q)) ≠ 110 ∧ lead (VNum (JFin q)) ≠ 116 ∧ lead (VNum (JFin q)) ≠ 123) as Hne.
  { intros q Hdq. specialize (Hq q Hdq). rewrite !elem_of_cons in Hq. naive_solver. }
  intros Ha Hb. destruct Ha as [|x|q Hdq| | |], Hb as [|y|q' Hdq'| | |]; try done; simpl same_kind;
    try (specialize (Hne q Hdq)); try (specialize (Hne q' Hdq')); try destruct x; try destruct y; try done; intros E;
    simpl lead in *; rewrite ?E in *; try naive_solver lia.
Qed.

Lemma ts_same_kind a b r r' : finite_json a → finite_json b → ts_write a ++ r = ts_write b ++ r' → same_kind a b.
Proof.
  intros Ha Hb E. apply lead_kind; [done..|]. apply (f_equal head) in E. rewrite !ts_write_head in E by done. by injection E.
Qed.

Lemma number_apart q q' r r' : double q → double q' → stop r → stop r' → js_number (JFin q) ++ r = js_number (JFin q') ++ r' → q = q' ∧ r = r'.
Proof.
  intros Hq Hq' Hr Hr' E. apply (split_class num_char) in E as [E ->]; [|by apply js_number_chars..|by intros x; apply stop_num|by intros x; apply stop_num].
  split; [by apply js_number_inj|done].
Qed.

Lemma ts_apart a : finite_json a → ∀ b r r', json_ok b → finite_json b → stop r → stop r' →
  ts_write a ++ r = ts_write b ++ r' → value_eqb a b = true ∧ r = r'.
Proof.
  induction a as [|x|n|s|l IH|o IH] using value_nested_ind; intros Hfa b r r' Hb Hfb Hr Hr' E;
    pose proof (ts_same_kind _ _ _ _ Hfa Hfb E) as Hkind; destruct b as [|y|n'|s'|l'|o']; try by destruct Hkind.
  - split; [done|]. by injection E.
  - simpl in Hkind. subst y. split; [simpl; by destruct x|]. by apply app_inv_head in E.
  - inversion Hfa; subst. inversion Hfb; subst. apply number_apart in E as [-> ->]; [|done..]. split; [|done]. simpl. by apply bool_decide_eq_true.
  - cbn [ts_write] in E. apply ts_string_apart in E as [-> ->]. split; [|done]. simpl. by apply bool_decide_eq_true.
  - inversion Hfa as [| | | |? Hl|]; subst. inversion Hfb as [| | | |? Hl'|]; subst. inversion Hb as [| | | |? Hok|]; subst.
    rewrite Forall_forall in IH, Hl, Hl', Hok. cbn [ts_write] in E. rewrite <-!app_assoc in E. injection E as E.
    apply (commas_apart _ (λ v w, value_eqb v w = true)) in E as [HF ->].
    + split; [by apply value_eqb_arr|done].
    + apply (bool_decide_eq_true_1 _). reflexivity.
    + intros v w s s' Hv Hw. apply IH; auto.
    + intros v s Hv. apply ts_write_lead; [|apply (bool_decide_eq_true_1 _); reflexivity]. apply elem_of_app in Hv as [?|?]; auto.
  - inversion Hfa as [| | | | |? Hl]; subst. inversion Hfb as [| | | | |? Hl']; subst. inversion Hb as [| | | | |? Hn Hok]; subst.
    rewrite Forall_forall in IH, Hl, Hl', Hok. rewrite !ts_write_obj, <-!app_assoc in E. apply app_inv_head in E.
    apply (commas_apart _ (λ e e', e.1 = e'.1 ∧ value_eqb e.2 e'.2 = true)) in E as [HF ->].
    + split; [by apply sorted_members_eqb|done].
    + apply (bool_decide_eq_true_1 _). reflexivity.
    + intros e e' s s' He He' Hs Hs' Ee. rewrite elem_of_sort_by in He, He'. rewrite <-!app_assoc in Ee.
      apply ts_string_apart in Ee as [Ek Ee]. injection Ee as Ee. apply IH in Ee as [? ->]; auto. by apply Hok.
    + intros e s _. done.
Qed.

(** *** The sign of zero *)

(** [JSON.stringify] writes both zeroes as [0]. *)
Fixpoint unsigned_zeroes (v : Value) : Value :=
  match v with
  | VNum JNegZero => VNum (JFin 0%Qc)
  | VArr l => VArr (map unsigned_zeroes l)
  | VObj o => VObj ((fix go (o : list (string * Value)) := match o with
      | [] => []
      | (k, v) :: o => (k, unsigned_zeroes v) :: go o
      end) o)
  | v => v
  end.
Definition unsigned_member (e : string * Value) : string * Value := (e.1, unsigned_zeroes e.2).
Lemma unsigned_obj o : unsigned_zeroes (VObj o) = VObj (map unsigned_member o).
Proof. simpl. f_equal. induction o as [|[k v] o IH]; simpl; [done|]. by rewrite IH. Qed.

Lemma double_zero : double 0%Qc.
Proof. exists 0, 0. split_and!; [lia..|by apply Qc_is_canon]. Qed.
Lemma unsigned_finite v : finite_value v → finite_json (unsigned_zeroes v).
Proof.
  induction v as [|b|n|s|l IH|o IH] using value_nested_ind; intros Hv; inversion Hv; subst; try by constructor.
  - constructor. apply double_zero.
  - constructor. apply Forall_map. rewrite Forall_forall in *. intros v Hin. apply IH; auto.
  - rewrite unsigned_obj. constructor. apply Forall_map. rewrite Forall_forall in *. intros e Hin. apply IH; auto.
Qed.
Lemma unsigned_ok v : json_ok v → json_ok (unsigned_zeroes v).
Proof.
  induction v as [|b|n|s|l IH|o IH] using value_nested_ind; intros Hv; inversion Hv; subst; try by constructor.
  - destruct n; constructor.
  - constructor. apply Forall_map. rewrite Forall_forall in *. intros v Hin. apply IH; auto.
  - rewrite unsigned_obj. constructor; [by rewrite map_map|].
    apply Forall_map. rewrite Forall_forall in *. intros e Hin.
    assert (valid_utf8 (lit e.1) = true ∧ json_ok e.2) as [? ?] by auto. split; [done|]. by apply IH.
Qed.
Lemma unsigned_text v : ts_write (unsigned_zeroes v) = ts_write v.
Proof.
  induction v as [|b|[q| |b]|s|l IH|o IH] using value_nested_ind; try done.
  - cbn [unsigned_zeroes ts_write]. do 3 f_equal. rewrite map_map. apply map_ext_in. rewrite Forall_forall in IH.
    intros v Hv. apply IH. by apply list_elem_of_In.
  - rewrite unsigned_obj, !ts_write_obj. rewrite (sort_by_map entry_le) by done. rewrite map_map. do 3 f_equal.
    apply map_ext_in. intros e He%list_elem_of_In. rewrite elem_of_sort_by in He. rewrite Forall_forall in IH.
    simpl. by rewrite IH.
Qed.

(** C21: One text, one call: arguments of finite numbers have the same
    JavaScript canonical text exactly when they are equal up to the sign of
    zero, whatever the order their objects were built in.  So whatever is
    bound to the digest of the text (a receipt, an approval) is bound to the
    arguments themselves, but for a negative zero, which the text, as
    [JSON.stringify]'s, writes as zero. *)
Theorem canonical_text_faithful a b : json_ok a → json_ok b → finite_value a → finite_value b →
  ts_canonical_json a = ts_canonical_json b ↔ value_eqb (unsigned_zeroes a) (unsigned_zeroes b) = true.
Proof.
  intros Ha%unsigned_ok Hb%unsigned_ok Hfa%unsigned_finite Hfb%unsigned_finite.
  unfold ts_canonical_json. rewrite <-(unsigned_text a), <-(unsigned_text b). split; [|by apply canonical_forms_agree]. intros E.
  apply (ts_apart _ Hfa _ [] []); [done..|]. by rewrite !app_nil_r.
Qed.
End texts.

(** ** Witnesses *)

(** Any spelling that can be told apart satisfies the laws: here the digits
    of the numerator between two ones, and the denominator for exponent. *)
#[local] Instance ex_lower : LowerExp := λ q,
  (Qnum (this q) <? 0, 49 :: decimal (Z.abs (Qnum (this q))) ++ [49], Z.pos (Qden (this q))).
#[local] Instance ex_lower_laws : LowerExpLaws.
Proof.
  split.
  - intros q q' _ _ _ _ [= E1 E2 E3]. apply app_inv_tail in E2. apply decimal_inj in E2.
    apply Qc_is_canon. destruct q as [[n d] ?], q' as [[n' d'] ?]. simpl in *. subst d'.
    assert (n = n') as -> by lia. reflexivity.
  - intros q negative ds e _ _ [= <- <- <-]. split; try done.
    + constructor; [lia|]. apply Forall_app; split; [apply decimal_digits; lia|]. repeat constructor; lia.
    + rewrite app_comm_cons, last_snoc. done.
Qed.

Definition ex_args : Value := VObj [("10", VStr "a"); ("2", int_value 7); ("path", VArr [VNum (JFin 0%Qc); VBool true])].
Definition ex_args_again : Value := VObj [("path", VArr [VNum JNegZero; VBool true]); ("2", int_value 7); ("10", VStr "a")].
Lemma double_seven : double (Q2Qc (inject_Z 7)).
Proof. exists 7, 0. split_and!; [lia..|reflexivity]. Qed.
Lemma canonical_text_faithful_witness :
  ts_canonical_json ex_args = ts_canonical_json ex_args_again ∧ value_eqb ex_args ex_args_again = false
  ∧ value_eqb (unsigned_zeroes ex_args) (unsigned_zeroes ex_args_again) = true.
Proof.
  assert (∀ v : Value, v ∈ [ex_args; ex_args_again] → json_ok v ∧ finite_value v) as H.
  { intros v [->|[->|[]%elem_of_nil]%elem_of_cons]%elem_of_cons;
      (split; [|repeat constructor; first [exact double_seven|exact double_zero]]);
      (apply ok_obj; [apply (bool_decide_eq_true_1 _); reflexivity|repeat constructor]). }
  destruct (H ex_args) as [H1 H2]; [left|]. destruct (H ex_args_again) as [H3 H4]; [right; left|].
  assert (value_eqb (unsigned_zeroes ex_args) (unsigned_zeroes ex_args_again) = true) as E by reflexivity. split; [|split; [reflexivity|exact E]].
  apply (canonical_text_faithful ex_args ex_args_again H1 H3 H2 H4). exact E.
Defined.
