(* ===== verification/Sse.v ===== *)
(** * Provider streams: server-sent events

    [core/src/sse.rs]: the decoder that turns the bytes of a provider's
    response, in whatever pieces they arrive, into frames. *)

From S2P Require Export Utf8.
Local Open Scope Z_scope.

(** [core/src/types.rs]. *)
Record CoreError := mkCoreError {
  ce_code : string;
  ce_message : string;
  ce_retryable : bool
}.
Definition core_error (code message : string) : CoreError := mkCoreError code message false.

Record SseFrame := mkFrame {
  fr_event : option bytes;
  fr_data : bytes;
  fr_done : bool
}.

Definition max_sse_bytes : Z := 1024 * 1024.

Record SseDecoder := mkDecoder {
  sd_line : bytes;
  sd_data : list bytes;
  sd_event : option bytes;
  sd_frame_bytes : Z;
  sd_first_line : bool
}.

Definition sse_new : SseDecoder := mkDecoder [] [] None 0 true.

Definition LF : Z := 10.
Definition CR : Z := 13.
Definition bom : bytes := [0xEF; 0xBB; 0xBF].

(** [str::strip_prefix] and [str::strip_suffix] of a character. *)
Fixpoint strip_prefix (p s : bytes) : option bytes :=
  match p, s with
  | [], _ => Some s
  | a :: p, b :: s => if a =? b then strip_prefix p s else None
  | _ :: _, [] => None
  end.
Definition strip_cr (s : bytes) : bytes :=
  match last s with Some b => if b =? CR then removelast s else s | None => s end.
Definition unprefixed (p s : bytes) : bytes := default s (strip_prefix p s).

(** [str::trim]: Unicode white space at both ends. *)
Definition white_space (c : char) : bool :=
  in_range 9 13 c || (c =? 0x20) || (c =? 0x85) || (c =? 0xA0) || (c =? 0x1680)
  || in_range 0x2000 0x200A c || (c =? 0x2028) || (c =? 0x2029) || (c =? 0x202F)
  || (c =? 0x205F) || (c =? 0x3000).
Fixpoint drop_while {A} (p : A → bool) (l : list A) : list A :=
  match l with a :: l' => if p a then drop_while p l' else l | [] => [] end.
Definition trim (s : bytes) : bytes :=
  match decode s with
  | Some cs => encode (reverse (drop_while white_space (reverse (drop_while white_space cs))))
  | None => s
  end.

(** [Vec<String>::join("\n")]. *)
Fixpoint join_lines (l : list bytes) : bytes :=
  match l with
  | [] => []
  | [s] => s
  | s :: l => s ++ LF :: join_lines l
  end.

Definition show_usize : string := "1048576".
Definition sse_error (message : string) : CoreError :=
  core_error "sse_parse" ("sse_parse: " +:+ message +:+ "; maximum " +:+ show_usize +:+ " bytes").
Definition sse_utf8_error : CoreError := core_error "sse_parse" "sse_parse: invalid UTF-8".

(** The frame of a block's [data:] and [event:] lines. *)
Definition frame_of (data : list bytes) (event : option bytes) : option SseFrame :=
  match data with
  | [] => None
  | _ =>
      let text := join_lines data in
      if bool_decide (text = lit "[DONE]") then Some (mkFrame None [] true)
      else Some (mkFrame event text false)
  end.

(** [flush]: the frame and the decoder after it. *)
Definition flush (d : SseDecoder) : option SseFrame * SseDecoder :=
  (frame_of d.(sd_data) d.(sd_event), mkDecoder d.(sd_line) [] None 0 d.(sd_first_line)).

Definition starts_with_colon (s : bytes) : bool :=
  match s with b :: _ => b =? 58 | [] => false end.

(** [frame_bytes] is a [usize]: its sum wraps in a release build. *)
Definition add_usize (a b : Z) : Z := (a + b) mod 2 ^ 64.

(** [consume_line]: the line is taken whatever happens. *)
Definition consume_line (d : SseDecoder) : Res CoreError (option SseFrame) * SseDecoder :=
  let raw := d.(sd_line) in
  let d := mkDecoder [] d.(sd_data) d.(sd_event) d.(sd_frame_bytes) d.(sd_first_line) in
  if negb (valid_utf8 raw) then (Err sse_utf8_error, d)
  else
    let line := strip_cr raw in
    let line := if d.(sd_first_line) then unprefixed bom line else line in
    let d := mkDecoder [] d.(sd_data) d.(sd_event) d.(sd_frame_bytes) false in
    match line with
    | [] => let '(frame, d) := flush d in (Ok frame, d)
    | _ =>
        let size := add_usize d.(sd_frame_bytes) (Z.of_nat (length line)) in
        let d := mkDecoder [] d.(sd_data) d.(sd_event) size false in
        if max_sse_bytes <? size then (Err (sse_error "frame exceeds limit"), d)
        else if starts_with_colon line then (Ok None, d)
        else match strip_prefix (lit "data:") line with
             | Some data =>
                 (Ok None, mkDecoder [] (d.(sd_data) ++ [unprefixed [32] data]) d.(sd_event) size false)
             | None =>
                 match strip_prefix (lit "event:") line with
                 | Some event => (Ok None, mkDecoder [] d.(sd_data) (Some (trim event)) size false)
                 | None => (Ok None, d)
                 end
             end
    end.

(** [push]: a failed call loses the frames it had collected. *)
Fixpoint push (d : SseDecoder) (chunk : bytes) : Res CoreError (list SseFrame) * SseDecoder :=
  match chunk with
  | [] => (Ok [], d)
  | byte :: chunk =>
      if byte =? LF then
        let '(r, d) := consume_line d in
        match r with
        | Err e => (Err e, d)
        | Ok frame =>
            let '(frames, d) := push d chunk in ((λ l, option_list frame ++ l) <$> frames, d)
        end
      else if max_sse_bytes <=? Z.of_nat (length d.(sd_line))
      then (Err (sse_error "no frame boundary"), d)
      else push (mkDecoder (d.(sd_line) ++ [byte]) d.(sd_data) d.(sd_event) d.(sd_frame_bytes)
                   d.(sd_first_line)) chunk
  end.

Definition finish (d : SseDecoder) : Res CoreError (list SseFrame) * SseDecoder :=
  let '(r, d) := match d.(sd_line) with
                 | [] => (Ok None, d)
                 | _ => consume_line d
                 end in
  match r with
  | Err e => (Err e, d)
  | Ok frame => let '(frame', d) := flush d in (Ok (option_list frame ++ option_list frame'), d)
  end.

(** A caller's loop: push every chunk as it arrives, then finish. *)
Fixpoint push_all (d : SseDecoder) (chunks : list bytes) : Res CoreError (list SseFrame) :=
  match chunks with
  | [] => (finish d).1
  | chunk :: chunks =>
      let '(r, d) := push d chunk in
      frames ← r; rest ← push_all d chunks; mret (frames ++ rest)
  end.

(** ** The reference

    What a stream means, stated of its whole text: its lines, cut into
    blocks at the empty ones, each block read by itself. *)

(** The lines, with what follows the last line feed when it is not empty. *)
Fixpoint lines_from (line : bytes) (text : bytes) : list bytes :=
  match text with
  | [] => match line with [] => [] | _ => [line] end
  | byte :: text => if byte =? LF then line :: lines_from [] text else lines_from (line ++ [byte]) text
  end.

Definition line_ok (raw : bytes) : bool :=
  (Z.of_nat (length raw) <=? max_sse_bytes) && valid_utf8 raw.

(** The first line may start with a byte order mark. *)
Definition line_texts (first : bool) (raws : list bytes) : list bytes :=
  match map strip_cr raws with
  | l :: ls => (if first then unprefixed bom l else l) :: ls
  | [] => []
  end.

Fixpoint blocks_from (block : list bytes) (texts : list bytes) : list (list bytes) :=
  match texts with
  | [] => [block]
  | [] :: texts => block :: blocks_from [] texts
  | text :: texts => blocks_from (block ++ [text]) texts
  end.

Definition block_size (block : list bytes) : Z :=
  foldr (λ s n, Z.of_nat (length s) + n) 0 block.
Definition block_ok (block : list bytes) : bool := block_size block <=? max_sse_bytes.

Definition data_line (text : bytes) : option bytes :=
  if starts_with_colon text then None else unprefixed [32] <$> strip_prefix (lit "data:") text.
Definition event_line (text : bytes) : option bytes :=
  if starts_with_colon text then None
  else match strip_prefix (lit "data:") text with
       | Some _ => None
       | None => trim <$> strip_prefix (lit "event:") text
       end.
Definition block_frame (block : list bytes) : option SseFrame :=
  frame_of (omap data_line block) (last (omap event_line block)).

Definition reference_from (line : bytes) (first : bool) (block : list bytes) (text : bytes)
    : option (list SseFrame) :=
  let raws := lines_from line text in
  let blocks := blocks_from block (line_texts first raws) in
  if forallb line_ok raws && forallb block_ok blocks then Some (omap block_frame blocks) else None.
Definition sse_reference (text : bytes) : option (list SseFrame) := reference_from [] true [] text.

Definition res_option {E A} (r : Res E A) : option A :=
  match r with Ok a => Some a | Err _ => None end.

(** ** One line *)

(** The decoder has read the texts [block] of the current block. *)
Record in_block (d : SseDecoder) (block : list bytes) : Prop := {
  ib_data : d.(sd_data) = omap data_line block;
  ib_event : d.(sd_event) = last (omap event_line block);
  ib_bytes : d.(sd_frame_bytes) = block_size block;
  ib_small : block_size block ≤ max_sse_bytes
}.

Lemma block_size_app a b : block_size (a ++ b) = block_size a + block_size b.
Proof. unfold block_size. induction a as [|s a IH]; simpl; [done|]. lia. Qed.
Lemma block_size_nonneg a : 0 ≤ block_size a.
Proof. unfold block_size. induction a as [|s a IH]; simpl; lia. Qed.

Lemma in_block_empty line first : in_block (mkDecoder line [] None 0 first) [].
Proof. by split. Qed.

(** The text of the decoder's line. *)
Definition line_text (d : SseDecoder) : bytes :=
  let line := strip_cr d.(sd_line) in
  if d.(sd_first_line) then unprefixed bom line else line.

Lemma strip_cr_length s : (length (strip_cr s) ≤ length s)%nat.
Proof.
  unfold strip_cr. destruct (last s) as [b|]; [|done]. destruct (b =? CR); [|done].
  rewrite removelast_firstn_len, length_firstn. lia.
Qed.
Lemma strip_prefix_length p s r : strip_prefix p s = Some r → (length r ≤ length s)%nat.
Proof.
  revert s. induction p as [|a p IH]; intros [|b s]; simpl; try by intros [= <-].
  destruct (a =? b); [|done]. intros ?%IH. lia.
Qed.
Lemma line_text_length d : (length (line_text d) ≤ length d.(sd_line))%nat.
Proof.
  unfold line_text, unprefixed. pose proof (strip_cr_length (sd_line d)).
  destruct (sd_first_line d); [|done]. destruct (strip_prefix bom _) as [r|] eqn:E; simpl; [|done].
  apply strip_prefix_length in E. lia.
Qed.

Lemma last_snoc_omap {A B} (f : A → option B) l a b :
  f a = b → last (omap f (l ++ [a])) = match b with Some x => Some x | None => last (omap f l) end.
Proof.
  intros <-. rewrite omap_app. simpl. destruct (f a) as [x|]; simpl; [by rewrite last_snoc|].
  by rewrite app_nil_r.
Qed.

(** [consume_line] against the current block. *)
Lemma consume_line_spec d block :
  in_block d block → Z.of_nat (length d.(sd_line)) ≤ max_sse_bytes →
  match consume_line d with
  | (Ok frame, d') => valid_utf8 d.(sd_line) = true ∧ d'.(sd_line) = [] ∧ d'.(sd_first_line) = false
      ∧ (if decide (line_text d = []) then frame = block_frame block ∧ in_block d' []
         else frame = None ∧ in_block d' (block ++ [line_text d]))
  | (Err _, _) => valid_utf8 d.(sd_line) = false
      ∨ line_text d ≠ [] ∧ max_sse_bytes < block_size (block ++ [line_text d])
  end.
Proof.
  intros [Hd He Hb Hs] Hlen. unfold consume_line. pose proof (line_text_length d) as Hl.
  destruct (valid_utf8 (sd_line d)); [|by left].
  cbn [negb sd_line sd_data sd_event sd_frame_bytes sd_first_line]. cbv zeta. fold (line_text d).
  destruct (line_text d) as [|b text] eqn:Et.
  { cbn. rewrite decide_True by done. split_and!; [done..| |by split].
    unfold block_frame. by rewrite <-Hd, <-He. }
  set (line := b :: text) in *.
  assert (block_size (block ++ [line]) = block_size block + Z.of_nat (length line)) as Esize
    by (rewrite block_size_app; unfold block_size at 2; simpl; lia).
  assert (add_usize (sd_frame_bytes d) (Z.of_nat (length line)) = block_size (block ++ [line])) as Eadd.
  { rewrite Esize, Hb. unfold add_usize. pose proof (block_size_nonneg block).
    unfold max_sse_bytes in *. apply Z.mod_small. lia. }
  cbv beta iota. rewrite Eadd.
  destruct (Z.ltb_spec max_sse_bytes (block_size (block ++ [line]))) as [Hmax|Hmax].
  { right. by split. }
  assert (∀ data event, omap data_line (block ++ [line]) = data →
    last (omap event_line (block ++ [line])) = event → let d' :=
      mkDecoder [] data event (block_size (block ++ [line])) false in
    true = true ∧ d'.(sd_line) = [] ∧ d'.(sd_first_line) = false
    ∧ (if decide (line = []) then None = block_frame block ∧ in_block d' []
       else @None SseFrame = None ∧ in_block d' (block ++ [line]))) as Hin.
  { intros data event <- <-. split_and!; [done..|]. by rewrite decide_False. }
  rewrite omap_app in Hin. cbn [omap list_omap] in Hin.
  destruct (starts_with_colon line) eqn:Ec.
  { apply Hin. - rewrite <-Hd. unfold data_line. by rewrite Ec, app_nil_r.
    - rewrite (last_snoc_omap _ _ _ None), He; [done|]. unfold event_line. by rewrite Ec. }
  destruct (strip_prefix (lit "data:") line) as [data|] eqn:Ed.
  { apply Hin. - rewrite <-Hd. unfold data_line. by rewrite Ec, Ed.
    - rewrite (last_snoc_omap _ _ _ None), He; [done|]. unfold event_line. by rewrite Ec, Ed. }
  assert (data_line line = None) as Edl by (unfold data_line; by rewrite Ec, Ed).
  destruct (strip_prefix (lit "event:") line) as [event|] eqn:Ee.
  - apply Hin; [by rewrite Edl, Hd, app_nil_r|]. rewrite (last_snoc_omap _ _ _ (Some (trim event))); [done|].
    unfold event_line. by rewrite Ec, Ed, Ee.
  - apply Hin; [by rewrite Edl, Hd, app_nil_r|]. rewrite (last_snoc_omap _ _ _ None), He; [done|].
    unfold event_line. by rewrite Ec, Ed, Ee.
Qed.

(** ** The whole stream *)

Lemma lines_from_head line text : line ≠ [] → ∃ more raws, lines_from line text = (line ++ more) :: raws.
Proof.
  revert line. induction text as [|b text IH]; intros line Hne; simpl.
  - exists [], []. rewrite app_nil_r. by destruct line.
  - destruct (b =? LF); [exists [], (lines_from [] text); by rewrite app_nil_r|].
    destruct (IH (line ++ [b])) as (more & raws & ->); [by destruct line|].
    exists (b :: more), raws. by rewrite <-app_assoc.
Qed.

Lemma blocks_from_head block texts : ∃ more blocks, blocks_from block texts = (block ++ more) :: blocks.
Proof.
  revert block. induction texts as [|t texts IH]; intros block; simpl; [exists [], []; by rewrite app_nil_r|].
  destruct t as [|b t]; [exists [], (blocks_from [] texts); by rewrite app_nil_r|].
  destruct (IH (block ++ [b :: t])) as (more & blocks & ->).
  exists ((b :: t) :: more), blocks. by rewrite <-app_assoc.
Qed.

Lemma reference_long_line line first block text :
  max_sse_bytes < Z.of_nat (length line) → reference_from line first block text = None.
Proof.
  intros Hl. unfold reference_from. destruct (lines_from_head line text) as (more & raws & ->).
  { intros ->. unfold max_sse_bytes in Hl. simpl in Hl. lia. }
  cbn [forallb]. replace (line_ok (line ++ more)) with false; [done|]. symmetry.
  unfold line_ok. rewrite length_app. apply andb_false_intro1, Z.leb_gt. lia.
Qed.

Lemma reference_large_block line first block text :
  max_sse_bytes < block_size block → reference_from line first block text = None.
Proof.
  intros Hl. unfold reference_from.
  destruct (blocks_from_head block (line_texts first (lines_from line text))) as (more & blocks & ->).
  cbn [forallb]. replace (block_ok (block ++ more)) with false; [by rewrite andb_false_r|].
  symmetry. unfold block_ok. rewrite block_size_app. pose proof (block_size_nonneg more).
  apply Z.leb_gt. lia.
Qed.

Lemma line_texts_later raws : line_texts false raws = map strip_cr raws.
Proof. unfold line_texts. by destruct (map strip_cr raws). Qed.

(** A line in the reference is a line of the decoder. *)
Lemma reference_line d block rest :
  block_size block ≤ max_sse_bytes → Z.of_nat (length d.(sd_line)) ≤ max_sse_bytes →
  reference_from d.(sd_line) d.(sd_first_line) block (LF :: rest) =
    if valid_utf8 d.(sd_line) then
      if decide (line_text d = []) then
        app (option_list (block_frame block)) <$> reference_from [] false [] rest
      else reference_from [] false (block ++ [line_text d]) rest
    else None.
Proof.
  intros Hb Hl. unfold reference_from at 1. cbn [lines_from]. rewrite Z.eqb_refl. cbn [forallb].
  assert (line_texts (sd_first_line d) (sd_line d :: lines_from [] rest)
    = line_text d :: map strip_cr (lines_from [] rest)) as -> by done.
  assert (line_ok (sd_line d) = valid_utf8 (sd_line d)) as ->.
  { unfold line_ok. by rewrite (proj2 (Z.leb_le _ _) Hl). }
  destruct (valid_utf8 (sd_line d)); [|done]. rewrite andb_true_l.
  unfold reference_from. rewrite line_texts_later.
  destruct (decide (line_text d = [])) as [E|Hne].
  - rewrite E. cbn [blocks_from forallb]. unfold block_ok at 1.
    rewrite (proj2 (Z.leb_le _ _) Hb), andb_true_l. destruct (_ && _); [|done].
    cbn. by destruct (block_frame block).
  - by destruct (line_text d).
Qed.

Lemma push_spec chunk d block :
  in_block d block → Z.of_nat (length d.(sd_line)) ≤ max_sse_bytes →
  match push d chunk with
  | (Ok frames, d') => ∃ block', in_block d' block' ∧ Z.of_nat (length d'.(sd_line)) ≤ max_sse_bytes
      ∧ ∀ rest, reference_from d.(sd_line) d.(sd_first_line) block (chunk ++ rest)
          = app frames <$> reference_from d'.(sd_line) d'.(sd_first_line) block' rest
  | (Err _, _) => ∀ rest, reference_from d.(sd_line) d.(sd_first_line) block (chunk ++ rest) = None
  end.
Proof.
  revert d block. induction chunk as [|b chunk IH]; intros d block Hin Hl.
  { exists block. split_and!; [done..|]. intros rest. by destruct (reference_from _ _ _ _). }
  cbn [push app]. destruct (Z.eqb_spec b LF) as [->|Hb].
  - pose proof (consume_line_spec d block Hin Hl) as Hc.
    destruct (consume_line d) as [ [frame|e] d1].
    + destruct Hc as (Hv & Hline & Hfirst & Hc).
      assert (∀ rest, reference_from d.(sd_line) d.(sd_first_line) block (LF :: rest)
        = app (option_list frame) <$> reference_from [] false
            (if decide (line_text d = []) then [] else block ++ [line_text d]) rest) as Hr.
      { intros rest. rewrite reference_line, Hv by (done || apply Hin).
        destruct (decide (line_text d = [])); destruct Hc as [-> _]; [done|].
        by destruct (reference_from _ _ _ _). }
      specialize (IH d1 (if decide (line_text d = []) then [] else block ++ [line_text d])).
      rewrite Hline, Hfirst in IH. destruct (push d1 chunk) as [ [frames|e] d2]; cbn in IH |- *.
      * destruct IH as (block' & ? & ? & IH); [by destruct (decide _), Hc|unfold max_sse_bytes; lia|].
        exists block'. split_and!; [done..|]. intros rest. rewrite Hr, IH.
        destruct (reference_from _ _ _ _); simpl; [|done]. by rewrite app_assoc.
      * intros rest. rewrite Hr, IH; [done|by destruct (decide _), Hc|unfold max_sse_bytes; lia].
    + intros rest. rewrite reference_line by (done || apply Hin).
      destruct Hc as [-> | [Hne Hmax] ]; [done|]. rewrite decide_False by done.
      destruct (valid_utf8 _); [|done]. by apply reference_large_block.
  - apply Z.eqb_neq in Hb as Hb'. destruct (Z.leb_spec max_sse_bytes (Z.of_nat (length (sd_line d)))).
    + intros rest. unfold reference_from. cbn [lines_from]. rewrite Hb'.
      apply reference_long_line. rewrite length_app. simpl. lia.
    + specialize (IH (mkDecoder (d.(sd_line) ++ [b]) d.(sd_data) d.(sd_event) d.(sd_frame_bytes)
        d.(sd_first_line)) block). cbn [sd_line sd_first_line] in IH.
      assert (∀ rest, reference_from d.(sd_line) d.(sd_first_line) block (b :: chunk ++ rest)
        = reference_from (d.(sd_line) ++ [b]) d.(sd_first_line) block (chunk ++ rest)) as Hr.
      { intros rest. unfold reference_from. cbn [lines_from]. by rewrite Hb'. }
      destruct (push _ chunk) as [ [frames|e] d2].
      * destruct IH as (block' & ? & ? & IH); [by destruct Hin|rewrite length_app; simpl; lia|].
        exists block'. split_and!; [done..|]. intros rest. by rewrite Hr, IH.
      * intros rest. rewrite Hr, IH; [done|by destruct Hin|rewrite length_app; simpl; lia].
Qed.

Lemma finish_spec d block :
  in_block d block → Z.of_nat (length d.(sd_line)) ≤ max_sse_bytes →
  res_option (finish d).1 = reference_from d.(sd_line) d.(sd_first_line) block [].
Proof.
  intros Hin Hl. destruct (sd_line d) as [|b line] eqn:El.
  - unfold finish. rewrite El. destruct Hin as [Hd He Hb Hs]. cbn. unfold reference_from, block_frame.
    cbn. unfold block_ok. rewrite (proj2 (Z.leb_le _ _) Hs). cbn. unfold block_frame.
    rewrite Hd, He. by destruct (frame_of _ _).
  - rewrite <-El in *.
    assert (reference_from d.(sd_line) d.(sd_first_line) block []
      = reference_from d.(sd_line) d.(sd_first_line) block [LF]) as ->.
    { unfold reference_from. cbn [lines_from]. rewrite Z.eqb_refl. by rewrite El. }
    rewrite (reference_line d block []) by (done || apply Hin).
    unfold finish. rewrite El, <-El. pose proof (consume_line_spec d block Hin Hl) as Hc.
    destruct (consume_line d) as [ [frame|e] d1].
    + destruct Hc as (-> & Hline & Hfirst & Hc). unfold flush. cbn [fst snd res_option].
      destruct (decide (line_text d = [])); destruct Hc as [-> [Hd He _ Hs] ]; rewrite Hd, He;
        unfold reference_from; cbn; unfold block_ok; rewrite ?(proj2 (Z.leb_le _ _) Hs); cbn.
      * by rewrite app_nil_r.
      * unfold block_frame. by destruct (frame_of _ _).
    + destruct Hc as [-> | [Hne Hmax] ]; [done|]. rewrite decide_False by done.
      destruct (valid_utf8 _); [|done]. cbn. symmetry. by apply reference_large_block.
Qed.

Lemma push_all_spec chunks d block :
  in_block d block → Z.of_nat (length d.(sd_line)) ≤ max_sse_bytes →
  res_option (push_all d chunks) = reference_from d.(sd_line) d.(sd_first_line) block (concat chunks).
Proof.
  revert d block. induction chunks as [|c chunks IH]; intros d block Hin Hl; [by apply finish_spec|].
  cbn [push_all concat]. pose proof (push_spec c d block Hin Hl) as Hp.
  destruct (push d c) as [ [frames|e] d1]; [|by rewrite Hp].
  destruct Hp as (block' & Hin' & Hl' & Hp). rewrite Hp, <-(IH d1 block' Hin' Hl').
  cbn. by destruct (push_all d1 chunks).
Qed.

(** C37: The decoder is the reference, however the stream arrives.  For every
    way of cutting a byte stream into chunks, pushing them one by one and
    finishing fails exactly when a line or a block of the text is too long or
    a line is not UTF-8, and otherwise returns the frames of the text's
    blocks: the bytes decide, not the chunks. *)
Theorem sse_chunks_reference chunks :
  res_option (push_all sse_new chunks) = sse_reference (concat chunks).
Proof. apply (push_all_spec chunks sse_new []); [by split|unfold max_sse_bytes; simpl; lia]. Qed.

(** ** Memory *)

Lemma unprefixed_length p s : (length (unprefixed p s) ≤ length s)%nat.
Proof.
  unfold unprefixed. destruct (strip_prefix p s) as [r|] eqn:E; simpl; [|done].
  by apply strip_prefix_length in E.
Qed.

Lemma data_line_length t s : data_line t = Some s → (length s ≤ length t)%nat.
Proof.
  unfold data_line. destruct (starts_with_colon t); [done|].
  destruct (strip_prefix _ t) as [r|] eqn:E; [|done]. intros [= <-].
  apply strip_prefix_length in E. pose proof (unprefixed_length [32] r). lia.
Qed.

Lemma data_size block : block_size (omap data_line block) ≤ block_size block.
Proof.
  induction block as [|t block IH]; [done|]. cbn [omap list_omap].
  destruct (data_line t) as [s|] eqn:E; unfold block_size in *; simpl.
  - apply data_line_length in E. lia.
  - lia.
Qed.

(** The decoder after the chunks pushed so far, unless one was refused. *)
Fixpoint pushed (d : SseDecoder) (chunks : list bytes) : option SseDecoder :=
  match chunks with
  | [] => Some d
  | chunk :: chunks => match push d chunk with
                       | (Ok _, d) => pushed d chunks
                       | (Err _, _) => None
                       end
  end.

(** The decoder's state is bounded and well formed.  Whatever the
    provider sends, and in whatever pieces, as long as no push failed the
    unterminated line, the data lines of the open frame and the byte count are
    each at most one mebibyte, and the count is the exact size of the block
    read so far: its machine addition never wrapped. *)
Theorem sse_state_bounded chunks d :
  pushed sse_new chunks = Some d →
  Z.of_nat (length d.(sd_line)) ≤ max_sse_bytes ∧ block_size d.(sd_data) ≤ max_sse_bytes
  ∧ ∃ block, d.(sd_frame_bytes) = block_size block ∧ d.(sd_data) = omap data_line block
      ∧ 0 ≤ d.(sd_frame_bytes) ≤ max_sse_bytes.
Proof.
  assert (∀ chunks d block, in_block d block → Z.of_nat (length d.(sd_line)) ≤ max_sse_bytes →
    ∀ d', pushed d chunks = Some d' →
    Z.of_nat (length d'.(sd_line)) ≤ max_sse_bytes ∧ ∃ block', in_block d' block') as H.
  { clear. intros chunks. induction chunks as [|c chunks IH]; intros d block Hin Hl d' Hd; simpl in Hd.
    - injection Hd as <-. eauto.
    - pose proof (push_spec c d block Hin Hl) as Hp. destruct (push d c) as [ [frames|e] d1]; [|done].
      destruct Hp as (block' & Hin' & Hl' & _). by eapply IH. }
  intros Hd. destruct (H chunks sse_new []) with (3 := Hd) as [Hl [block Hin] ];
    [by split|unfold max_sse_bytes; simpl; lia|].
  pose proof (data_size block) as Hs. destruct Hin as [E1 E2 E3 E4].
  split_and!; [done|rewrite E1; lia|]. exists block. split_and!; [done..| |lia].
  rewrite E3. apply block_size_nonneg.
Qed.

(** ** Witnesses *)

Definition ex_stream : list bytes :=
  [lit "event: tok"; lit "en" ++ [CR]; [LF] ++ lit "data: a" ++ [LF] ++ lit "data: b";
   [CR; LF; CR; LF] ++ lit "data: [DONE]" ++ [LF; LF]].

Example ex_stream_frames :
  res_option (push_all sse_new ex_stream)
  = Some [mkFrame (Some (lit "token")) (lit "a" ++ [LF] ++ lit "b") false; mkFrame None [] true].
Proof. vm_compute. reflexivity. Qed.

Lemma sse_state_bounded_witness :
  ∃ d, pushed sse_new [lit "data: a"; [LF] ++ lit "dat"] = Some d
    ∧ Z.of_nat (length d.(sd_line)) ≤ max_sse_bytes ∧ d.(sd_data) = [lit "a"].
Proof.
  destruct (pushed sse_new [lit "data: a"; [LF] ++ lit "dat"]) as [d|] eqn:E;
    [|vm_compute in E; discriminate E].
  exists d. destruct (sse_state_bounded _ _ E) as (H & _). split_and!; [done|exact H|].
  vm_compute in E. injection E as <-. reflexivity.
Defined.
