(* ===== verification/ClientSse.v ===== *)
(** * The client's event stream

    [client/src/sse.rs]: the decoder of the run stream, which accepts the
    three line endings and commits a frame only at a blank line, and the
    reading loop of [client/src/stream.rs]. *)

From S2P Require Export Sse.
Local Open Scope Z_scope.

Inductive ClientError := Protocol (message : string).

Record ClientFrame := mkClientFrame {
  cf_id : option bytes;
  cf_event : option bytes;
  cf_data : option bytes;
  cf_retry : option Z
}.
Definition empty_frame : ClientFrame := mkClientFrame None None None None.

Record ClientDecoder := mkClientDecoder {
  cd_limit : Z;
  cd_line : bytes;
  cd_frame : ClientFrame;
  cd_data : list bytes;
  cd_bytes : Z;
  cd_skip_lf : bool;
  cd_saw_field : bool;
  cd_first_line : bool
}.
#[export] Instance upd_cd_line : Upd cd_line := λ v d, mkClientDecoder d.(cd_limit) v d.(cd_frame)
  d.(cd_data) d.(cd_bytes) d.(cd_skip_lf) d.(cd_saw_field) d.(cd_first_line).
#[export] Instance upd_cd_frame : Upd cd_frame := λ v d, mkClientDecoder d.(cd_limit) d.(cd_line) v
  d.(cd_data) d.(cd_bytes) d.(cd_skip_lf) d.(cd_saw_field) d.(cd_first_line).
#[export] Instance upd_cd_data : Upd cd_data := λ v d, mkClientDecoder d.(cd_limit) d.(cd_line)
  d.(cd_frame) v d.(cd_bytes) d.(cd_skip_lf) d.(cd_saw_field) d.(cd_first_line).
#[export] Instance upd_cd_bytes : Upd cd_bytes := λ v d, mkClientDecoder d.(cd_limit) d.(cd_line)
  d.(cd_frame) d.(cd_data) v d.(cd_skip_lf) d.(cd_saw_field) d.(cd_first_line).
#[export] Instance upd_cd_skip_lf : Upd cd_skip_lf := λ v d, mkClientDecoder d.(cd_limit) d.(cd_line)
  d.(cd_frame) d.(cd_data) d.(cd_bytes) v d.(cd_saw_field) d.(cd_first_line).
#[export] Instance upd_cd_saw_field : Upd cd_saw_field := λ v d, mkClientDecoder d.(cd_limit)
  d.(cd_line) d.(cd_frame) d.(cd_data) d.(cd_bytes) d.(cd_skip_lf) v d.(cd_first_line).
#[export] Instance upd_cd_first_line : Upd cd_first_line := λ v d, mkClientDecoder d.(cd_limit)
  d.(cd_line) d.(cd_frame) d.(cd_data) d.(cd_bytes) d.(cd_skip_lf) d.(cd_saw_field) v.

Definition client_new (max_frame_bytes : Z) : ClientDecoder :=
  mkClientDecoder max_frame_bytes [] empty_frame [] 0 false false true.

(** [trim_start_matches('\u{feff}')]: every leading mark. *)
Fixpoint trim_boms (fuel : nat) (s : bytes) : bytes :=
  match fuel with
  | O => s
  | S fuel => match strip_prefix bom s with Some s => trim_boms fuel s | None => s end
  end.

(** [split_once(':')], the whole line as the field without a colon. *)
Fixpoint split_colon (s : bytes) : bytes * bytes :=
  match s with
  | [] => ([], [])
  | b :: s => if b =? 58 then ([], s) else let '(f, v) := split_colon s in (b :: f, v)
  end.

(** [str::parse::<u64>] of a run of digits. *)
Definition parse_u64 (s : bytes) : option Z :=
  checked 0 u64_max (foldl (λ n b, n * 10 + (b - 48)) 0 s).

(** One field of the open frame. *)
Definition field_line (field value : bytes) (d : ClientDecoder) : ClientDecoder :=
  let f := d.(cd_frame) in
  if bool_decide (field = lit "id") && negb (existsb (Z.eqb 0) value) then
    d <| cd_frame := mkClientFrame (Some value) f.(cf_event) f.(cf_data) f.(cf_retry) |>
  else if bool_decide (field = lit "event") then
    d <| cd_frame := mkClientFrame f.(cf_id) (Some value) f.(cf_data) f.(cf_retry) |>
  else if bool_decide (field = lit "data") then d <| cd_data := d.(cd_data) ++ [value] |>
  else if bool_decide (field = lit "retry") && negb (bool_decide (value = []))
       && forallb (in_range 48 57) value then
    d <| cd_frame := mkClientFrame f.(cf_id) f.(cf_event) f.(cf_data) (parse_u64 value) |>
  else d.

(** [line]: the bytes of the line are taken whatever happens. *)
Definition client_line (d : ClientDecoder) : Res ClientError (option ClientFrame) * ClientDecoder :=
  let raw := d.(cd_line) in
  let d := d <| cd_line := [] |> in
  if negb (valid_utf8 raw) then (Err (Protocol "SSE contains invalid UTF-8"), d)
  else
    let line := if d.(cd_first_line) then trim_boms (length raw) raw else raw in
    let d := d <| cd_first_line := false |> in
    match line with
    | [] =>
        let frame := match d.(cd_data) with
                     | [] => d.(cd_frame)
                     | _ => mkClientFrame d.(cd_frame).(cf_id) d.(cd_frame).(cf_event)
                              (Some (join_lines d.(cd_data))) d.(cd_frame).(cf_retry)
                     end in
        (Ok (if d.(cd_saw_field) then Some frame else None),
         d <| cd_frame := empty_frame |> <| cd_data := [] |> <| cd_bytes := 0 |>
           <| cd_saw_field := false |>)
    | _ =>
        if starts_with_colon line then (Ok None, d)
        else let '(field, value) := split_colon line in
             (Ok None, field_line field (unprefixed [32] value) (d <| cd_saw_field := true |>))
    end.

(** [feed], byte by byte; the count is a [usize]. *)
Fixpoint feed (d : ClientDecoder) (chunk : bytes) : Res ClientError (list ClientFrame) * ClientDecoder :=
  match chunk with
  | [] => (Ok [], d)
  | byte :: chunk =>
      if d.(cd_skip_lf) && (byte =? LF) then feed (d <| cd_skip_lf := false |>) chunk
      else
        let d := d <| cd_skip_lf := false |> <| cd_bytes := add_usize d.(cd_bytes) 1 |> in
        if d.(cd_limit) <? d.(cd_bytes) then (Err (Protocol "SSE frame exceeds max_frame_bytes"), d)
        else if (byte =? CR) || (byte =? LF) then
          let '(r, d) := client_line (d <| cd_skip_lf := byte =? CR |>) in
          match r with
          | Err e => (Err e, d)
          | Ok frame => let '(frames, d) := feed d chunk in ((λ l, option_list frame ++ l) <$> frames, d)
          end
        else feed (d <| cd_line := d.(cd_line) ++ [byte] |>) chunk
  end.

Definition has_partial_frame (d : ClientDecoder) : bool :=
  negb (bool_decide (d.(cd_line) = [])) || d.(cd_saw_field) || negb (bool_decide (d.(cd_data) = [])).

Definition client_finish (d : ClientDecoder) : ClientDecoder :=
  d <| cd_line := [] |> <| cd_frame := empty_frame |> <| cd_data := [] |>.

(** The loop of [connection]: the frames of a stream that ends well. *)
Fixpoint read_stream (d : ClientDecoder) (chunks : list bytes) : Res ClientError (list ClientFrame) :=
  match chunks with
  | [] => if has_partial_frame d then Err (Protocol "SSE stream ended mid-frame") else Ok []
  | chunk :: chunks =>
      let '(r, d) := feed d chunk in
      frames ← r; rest ← read_stream d chunks; mret (frames ++ rest)
  end.

(** ** Line endings *)

(** A text with every [CRLF] and every [CR] as one [LF]; [skip] after a
    [CR]. *)
Fixpoint normal_lines (skip : bool) (text : bytes) : bytes :=
  match text with
  | [] => []
  | byte :: text =>
      if skip && (byte =? LF) then normal_lines false text
      else if byte =? CR then LF :: normal_lines true text
      else byte :: normal_lines false text
  end.

Definition unskipped (d : ClientDecoder) : ClientDecoder := d <| cd_skip_lf := false |>.

Lemma unskipped_line d :
  client_line (unskipped d) = ((client_line d).1, unskipped (client_line d).2).
Proof.
  destruct d as [limit line frame data count skip saw first]. unfold client_line, unskipped.
  cbn [upd upd_cd_line upd_cd_first_line upd_cd_skip_lf cd_line cd_first_line cd_limit cd_frame cd_data cd_bytes
    cd_skip_lf cd_saw_field].
  destruct (valid_utf8 line); [|done]. cbn [negb]. destruct (if first then _ else _) as [|b text]; [done|].
  destruct (starts_with_colon (b :: text)); [done|]. destruct (split_colon (b :: text)) as [f v].
  unfold field_line. cbn [cd_frame cd_data upd upd_cd_saw_field].
  by repeat match goal with |- context [if ?b then _ else _] => destruct b end.
Qed.

Lemma client_line_skip d : (client_line d).2.(cd_skip_lf) = d.(cd_skip_lf).
Proof.
  unfold client_line. destruct (negb _); [done|]. cbv zeta.
  destruct (if cd_first_line _ then _ else _) as [|b text]; [done|].
  destruct (starts_with_colon _); [done|]. destruct (split_colon _) as [f v]. unfold field_line.
  by repeat match goal with |- context [if ?b then _ else _] => destruct b end.
Qed.

Lemma feed_normal text d :
  feed (unskipped d) (normal_lines d.(cd_skip_lf) text) = ((feed d text).1, unskipped (feed d text).2).
Proof.
  revert d. induction text as [|b text IH]; intros d; [done|]. cbn [normal_lines feed].
  destruct (cd_skip_lf d && (b =? LF)) eqn:Eskip.
  { exact (IH (d <| cd_skip_lf := false |>)). }
  set (d1 := d <| cd_skip_lf := false |> <| cd_bytes := add_usize d.(cd_bytes) 1 |>).
  destruct (Z.eqb_spec b CR) as [->|Hcr].
  - cbn [feed]. rewrite orb_true_l, orb_true_r.
    change (cd_skip_lf (unskipped d)) with false. rewrite andb_false_l.
    change (unskipped d <| cd_skip_lf := false |> <| cd_bytes := add_usize (unskipped d).(cd_bytes) 1 |>)
      with d1. destruct (cd_limit d1 <? cd_bytes d1); [done|].
    change (d1 <| cd_skip_lf := LF =? CR |>) with (unskipped (d1 <| cd_skip_lf := true |>)).
    rewrite unskipped_line. pose proof (client_line_skip (d1 <| cd_skip_lf := true |>)) as Hs.
    destruct (client_line (d1 <| cd_skip_lf := true |>)) as [ [frame|e] d2]; cbn [fst snd] in *; [|done].
    specialize (IH d2). rewrite Hs in IH. cbn [cd_skip_lf upd upd_cd_skip_lf] in IH. rewrite IH.
    by destruct (feed d2 text).
  - apply Z.eqb_neq in Hcr as Ecr. cbn [feed]. rewrite Ecr, orb_false_l.
    change (cd_skip_lf (unskipped d)) with false. rewrite andb_false_l.
    change (unskipped d <| cd_skip_lf := false |> <| cd_bytes := add_usize (unskipped d).(cd_bytes) 1 |>)
      with d1. destruct (cd_limit d1 <? cd_bytes d1); [done|]. destruct (b =? LF).
    + change (d1 <| cd_skip_lf := false |>) with (unskipped d1).
      pose proof (client_line_skip (unskipped d1)) as Hs.
      destruct (client_line (unskipped d1)) as [ [frame|e] d2] eqn:E; cbn [fst snd] in *.
      * specialize (IH d2). rewrite Hs in IH. cbn in IH.
        assert (unskipped d2 = d2) as Ed2.
        { pose proof (unskipped_line (unskipped d1)) as K. rewrite E in K.
          change (unskipped (unskipped d1)) with (unskipped d1) in K. rewrite E in K. by injection K. }
        rewrite Ed2 in IH. rewrite IH. by destruct (feed d2 text).
      * f_equal. pose proof (unskipped_line (unskipped d1)) as K. rewrite E in K.
        change (unskipped (unskipped d1)) with (unskipped d1) in K. rewrite E in K. by injection K.
    + exact (IH (d1 <| cd_line := d1.(cd_line) ++ [b] |>)).
Qed.

Lemma feed_app a b d :
  feed d (a ++ b) = let '(r, d1) := feed d a in
    match r with
    | Err e => (Err e, d1)
    | Ok frames => let '(r', d2) := feed d1 b in (app frames <$> r', d2)
    end.
Proof.
  revert d. induction a as [|x a IH]; intros d; cbn [feed app].
  { destruct (feed d b) as [ [frames|e] d2]; done. }
  destruct (_ && _); [apply IH|]. destruct (_ <? _); [done|].
  destruct (_ || _); [|apply IH]. destruct (client_line _) as [ [frame|e] d1]; [|done]. rewrite IH.
  destruct (feed d1 a) as [ [frames|e] d2]; [|done]. destruct (feed d2 b) as [ [frames'|e] d3]; [|done].
  cbn. by rewrite app_assoc.
Qed.

(** Reading the whole text at once. *)
Lemma read_stream_concat chunks d : read_stream d chunks = read_stream d [concat chunks].
Proof.
  revert d. induction chunks as [|c chunks IH]; intros d; cbn [read_stream concat].
  - cbn. by destruct (has_partial_frame d).
  - rewrite feed_app. destruct (feed d c) as [ [frames|e] d1]; [|done]. cbn. rewrite IH. cbn [read_stream].
    destruct (feed d1 (concat chunks)) as [ [frames'|e] d2]; [|done]. cbn.
    destruct (has_partial_frame d2); [done|]. cbn. by rewrite !app_nil_r.
Qed.

(** The client reads the same frames whatever the chunks and the line
    endings.  A stream in which lines end in [CRLF], [CR] or [LF], cut
    anywhere, also between the two bytes of a [CRLF], is read as its text
    with plain line feeds in one piece: the same frames, or the same refusal,
    and the same account of the frame limit. *)
Theorem client_line_endings limit chunks :
  read_stream (client_new limit) chunks
  = read_stream (client_new limit) [normal_lines false (concat chunks)].
Proof.
  rewrite read_stream_concat. cbn [read_stream].
  pose proof (feed_normal (concat chunks) (client_new limit)) as H.
  change (unskipped (client_new limit)) with (client_new limit) in H. cbn [cd_skip_lf client_new] in H.
  rewrite H. by destruct (feed (client_new limit) (concat chunks)) as [ [frames|e] d].
Qed.

(** A stream with mixed endings, cut inside a [CRLF]. *)
Example ex_client_stream :
  read_stream (client_new 1024)
    [lit "id: 7" ++ [CR]; [LF] ++ lit "data: a" ++ [CR] ++ lit "retry: 99"; [LF; CR; LF]]
  = Ok [mkClientFrame (Some (lit "7")) None (Some (lit "a")) (Some 99)].
Proof. vm_compute. reflexivity. Qed.
