(* ===== verification/Permission.v ===== *)
(** * Permissions

    [core/src/permission.rs]: the decision every tool guard shares; the coding
    guard of [toolpacks-coding/src/guard.rs]; the guard of JavaScript tools of
    [napi/src/authority.rs]; the chain that runs the guards of a call in
    [host/src/governance/staging.rs] and the second check of
    [execution_recheck.rs]; the permission ceiling of
    [host/src/run_profiles.rs]. *)

From S2P Require Export Value.
From S2P Require Import Sse.
Local Open Scope Z_scope.

Inductive ToolClass := Read | Write | Exec.
Inductive CodingMode := ReadOnly | Ask | AutoEdit | FullAuto | Plan.
Inductive CodingRole := Implementer | Reviewer | Supervisor.

#[export] Instance ToolClass_eq_dec : EqDecision ToolClass.
Proof. solve_decision. Defined.
#[export] Instance CodingMode_eq_dec : EqDecision CodingMode.
Proof. solve_decision. Defined.
#[export] Instance CodingRole_eq_dec : EqDecision CodingRole.
Proof. solve_decision. Defined.

Definition class_str (c : ToolClass) : string :=
  match c with Read => "read" | Write => "write" | Exec => "exec" end.
Definition mode_str (m : CodingMode) : string :=
  match m with
  | ReadOnly => "read_only" | Ask => "ask" | AutoEdit => "auto_edit"
  | FullAuto => "full_auto" | Plan => "plan"
  end.
Definition mode_parse (value : string) : option CodingMode :=
  if String.eqb value "read_only" then Some ReadOnly
  else if String.eqb value "ask" then Some Ask
  else if String.eqb value "auto_edit" then Some AutoEdit
  else if String.eqb value "full_auto" then Some FullAuto
  else if String.eqb value "plan" then Some Plan
  else None.
Definition role_str (r : CodingRole) : string :=
  match r with
  | Implementer => "implementer" | Reviewer => "reviewer" | Supervisor => "supervisor"
  end.
Definition role_parse (value : string) : option CodingRole :=
  if String.eqb value "implementer" then Some Implementer
  else if String.eqb value "reviewer" then Some Reviewer
  else if String.eqb value "supervisor" then Some Supervisor
  else None.

Definition classify_capability (capability : string) : option ToolClass :=
  if mem_str capability ["fs.read"; "git.read"] then Some Read
  else if String.eqb capability "fs.write" then Some Write
  else if String.eqb capability "process.exec" then Some Exec
  else if String.eqb capability "plan" then Some Read
  else None.

Definition role_ceiling_allows (role : CodingRole) (tool_class : ToolClass) : bool :=
  match role, tool_class with
  | Supervisor, Read => true
  | Supervisor, _ => false
  | Reviewer, (Read | Exec) => true
  | Reviewer, Write => false
  | Implementer, _ => true
  end.

Inductive BlockedReason := PlanMode (tool_class : ToolClass) | BlockedReadOnly.
Inductive PermissionDecision :=
  | Allowed
  | PlanApprovalRequired
  | BlockedFinal (reason : BlockedReason)
  | ApprovalRequired.

(** The matrix. *)
Definition decide_call (mode : CodingMode) (tool_class : ToolClass) (is_plan_tool : bool)
    : PermissionDecision :=
  match mode with
  | Plan =>
      if is_plan_tool then PlanApprovalRequired
      else match tool_class with Read => Allowed | c => BlockedFinal (PlanMode c) end
  | ReadOnly => match tool_class with Read => Allowed | _ => BlockedFinal BlockedReadOnly end
  | Ask => match tool_class with Read => Allowed | _ => ApprovalRequired end
  | AutoEdit => match tool_class with Read | Write => Allowed | Exec => ApprovalRequired end
  | FullAuto => Allowed
  end.

(** ** Guards *)

Record ApprovalAsk := mkAsk {
  ask_reason : string;
  ask_preview : option string;
  ask_requested_mode : option string;
  ask_uncertainty_generation : option string
}.
#[export] Instance ApprovalAsk_eq_dec : EqDecision ApprovalAsk.
Proof. solve_decision. Defined.

Inductive ToolGuardVerdict :=
  | VerdictAllowed
  | VerdictRefused (reason : string)
  | VerdictAwaitingHuman (ask : ApprovalAsk).

(** What a guard reads of [ToolGuardContext]. *)
Record ToolCall := mkCall {
  tc_namespace : string;
  tc_name : string;
  tc_capability : string;
  tc_effect : string;
  tc_arguments : option Value
}.

(** A session's answers: [role_of] and [mode_of], each of which may fail. *)
Record Authority := mkAuthority {
  au_role : Res string (option CodingRole);
  au_mode : Res string (option CodingMode)
}.

Definition newline : string := String (ascii_of_nat 10) EmptyString.

(** [str::trim().is_empty()]. *)
Definition blank (s : string) : bool :=
  match decode (lit s) with Some cs => forallb white_space cs | None => false end.

Definition plan_requested_mode (args : option Value) : option string :=
  args ≫= λ args, vget args "mode" ≫= as_str.
Definition plan_preview (args : option Value) : option string :=
  args ← args;
  plan ← vget args "plan" ≫= as_str;
  if blank plan then None
  else Some (match vget args "mode" ≫= as_str with
             | Some mode => plan +:+ newline +:+ newline +:+ "(requested mode: " +:+ mode +:+ ")"
             | None => plan
             end).

Definition plan_mode_blocked_hint : string :=
  "plan mode: propose the change with submit_plan and wait for the user to approve it.".

(** The verdict words both guards share. *)
Definition verdict_of (call : ToolCall) (decision : PermissionDecision) : ToolGuardVerdict :=
  let name := call.(tc_name) in
  match decision with
  | Allowed => VerdictAllowed
  | PlanApprovalRequired =>
      VerdictAwaitingHuman (mkAsk ("plan_approval_required: " +:+ name)
        (plan_preview call.(tc_arguments)) (plan_requested_mode call.(tc_arguments)) None)
  | BlockedFinal (PlanMode c) =>
      VerdictRefused (plan_mode_blocked_hint +:+ " (" +:+ name +:+ " is a " +:+ class_str c +:+ " tool)")
  | BlockedFinal BlockedReadOnly => VerdictRefused ("read_only: " +:+ name +:+ " is not allowed")
  | ApprovalRequired =>
      VerdictAwaitingHuman (mkAsk ("approval_required: " +:+ name) None None None)
  end.

Record CodingPermissionGuard := mkCodingGuard {
  cg_default_role : CodingRole;
  cg_configured_mode : CodingMode;
  cg_authority : option Authority;
  cg_plan_tools : list string
}.

(** [CodingPermissionGuard::can_execute]. *)
Definition coding_can_execute (guard : CodingPermissionGuard) (call : ToolCall)
    : Res string ToolGuardVerdict :=
  if negb (String.eqb call.(tc_namespace) "coding") then mret VerdictAllowed
  else match classify_capability call.(tc_capability) with
  | None => mret (VerdictRefused ("unknown_capability: " +:+ call.(tc_name) +:+ " ("
              +:+ call.(tc_capability) +:+ ")"))
  | Some tool_class =>
      role ← match guard.(cg_authority) with
             | Some authority => default guard.(cg_default_role) <$> authority.(au_role)
             | None => mret guard.(cg_default_role)
             end;
      if negb (role_ceiling_allows role tool_class) then
        mret (VerdictRefused ("role_ceiling: " +:+ role_str role +:+ " may not use "
          +:+ class_str tool_class +:+ " tools (" +:+ call.(tc_name) +:+ ")"))
      else
        mode ← match guard.(cg_authority) with
               | Some authority => default guard.(cg_configured_mode) <$> authority.(au_mode)
               | None => mret guard.(cg_configured_mode)
               end;
        mret (verdict_of call (decide_call mode tool_class (mem_str call.(tc_name) guard.(cg_plan_tools))))
  end.

(** [napi/src/authority.rs]: the stricter of capability and effect. *)
Definition class_rank (c : ToolClass) : Z := match c with Read => 0 | Write => 1 | Exec => 2 end.
Definition stricter (left right : ToolClass) : ToolClass :=
  if class_rank right <=? class_rank left then left else right.
Definition effective_class (capability effect : string) : ToolClass :=
  let by_effect := if String.eqb effect "read" then Read else Write in
  match classify_capability capability with
  | Some by_capability => stricter by_capability by_effect
  | None => by_effect
  end.

Record JsToolGuard := mkJsGuard {
  jg_authority : Authority;
  jg_configured_mode : CodingMode;
  jg_plan_tools : list string
}.

(** [JsToolGuard::can_execute]. *)
Definition js_can_execute (guard : JsToolGuard) (call : ToolCall) : Res string ToolGuardVerdict :=
  if negb (String.eqb call.(tc_namespace) "js") then mret VerdictAllowed
  else
    let tool_class := effective_class call.(tc_capability) call.(tc_effect) in
    mode ← default guard.(jg_configured_mode) <$> guard.(jg_authority).(au_mode);
    mret (verdict_of call (decide_call mode tool_class (mem_str call.(tc_name) guard.(jg_plan_tools)))).

(** ** The chain of guards *)

(** What became of one guard's call: its answer, the deadline, or the
    cancellation of the run. *)
Inductive GuardAnswer :=
  | Answered (verdict : Res string ToolGuardVerdict)
  | TimedOut
  | RunCancelled.

Inductive ChainOutcome :=
  | ChainCancelled
  | ChainRefused (reason : string)
  | ChainPassed (approvable : list ApprovalAsk).

(** The loop of [StagedTool::execute] over its guards: a denial wins. *)
Fixpoint guard_chain (answers : list GuardAnswer) (approvable : list ApprovalAsk) : ChainOutcome :=
  match answers with
  | [] => ChainPassed approvable
  | RunCancelled :: _ => ChainCancelled
  | Answered (Ok VerdictAllowed) :: answers => guard_chain answers approvable
  | Answered (Ok (VerdictRefused reason)) :: _ => ChainRefused reason
  | Answered (Ok (VerdictAwaitingHuman ask)) :: answers => guard_chain answers (approvable ++ [ask])
  | Answered (Err _) :: _ | TimedOut :: _ => ChainRefused "guard error"
  end.

(** [ExecutionRecheck::check_permissions]: an approval that was not given
    before is not accepted now. *)
Fixpoint check_permissions (answers : list GuardAnswer) (approvals : list ApprovalAsk)
    : Res string unit :=
  match answers with
  | [] => Ok tt
  | RunCancelled :: _ => Err "command authority cancelled"
  | Answered (Ok VerdictAllowed) :: answers => check_permissions answers approvals
  | Answered (Ok (VerdictRefused reason)) :: _ => Err reason
  | Answered (Ok (VerdictAwaitingHuman ask)) :: answers =>
      if bool_decide (ask ∈ approvals) then check_permissions answers approvals
      else Err "permissions changed; fresh approval required"
  | Answered (Err _) :: _ | TimedOut :: _ => Err "permissions changed; fresh approval required"
  end.

(** ** The permission ceiling of a run *)

Definition mode_rank (mode : CodingMode) : Z :=
  match mode with ReadOnly | Plan => 0 | Ask => 1 | AutoEdit => 2 | FullAuto => 3 end.

(** The first of the least rank, as [min_by_key] picks. *)
Definition lower_mode (a b : CodingMode) : CodingMode :=
  if mode_rank a <=? mode_rank b then a else b.

Definition refused {A} (reason : string) : Res string A := Err ("run_profile_refused:" +:+ reason).

(** The permission step of [resolve], on the texts of the configuration: the
    requested mode may narrow, never climb. *)
Definition effective_mode (default_text agent_text : string) (requested_text : option string)
    : Res string CodingMode :=
  default_mode ← match mode_parse default_text with
                 | Some m => mret m | None => refused "default_permission_mode" end;
  agent_mode ← match mode_parse agent_text with
               | Some m => mret m | None => refused ("agent_permission_mode:" +:+ agent_text) end;
  requested ← match requested_text with
              | None => mret None
              | Some text =>
                  match mode_parse text with
                  | Some m => mret (Some m)
                  | None => Err ("invalid_overrides: unknown permissionMode " +:+ text)
                  end
              end;
  let ceiling_rank := Z.min (mode_rank default_mode) (mode_rank agent_mode) in
  if is_some_and requested (λ mode, ceiling_rank <? mode_rank mode) then
    refused ("permission_expansion_refused:permissionMode " +:+ default "" requested_text)
  else
    let both := lower_mode default_mode agent_mode in
    mret (match requested with Some mode => lower_mode both mode | None => both end).

(** ** Texts *)

Lemma mode_parse_str m : mode_parse (mode_str m) = Some m.
Proof. by destruct m. Qed.
Lemma mode_str_parse s m : mode_parse s = Some m → mode_str m = s.
Proof.
  unfold mode_parse. intros H. repeat case_match; simplify_eq/=;
    match goal with E : String.eqb _ _ = true |- _ => by apply String.eqb_eq in E end.
Qed.
Lemma role_parse_str r : role_parse (role_str r) = Some r.
Proof. by destruct r. Qed.

(** ** The chain *)

Lemma guard_chain_passed answers asks asks' :
  guard_chain answers asks = ChainPassed asks' →
  (∀ a, a ∈ answers → a = Answered (Ok VerdictAllowed)
    ∨ ∃ ask, a = Answered (Ok (VerdictAwaitingHuman ask)) ∧ ask ∈ asks') ∧ ∀ ask, ask ∈ asks → ask ∈ asks'.
Proof.
  revert asks. induction answers as [|a answers IH]; intros asks H; simpl in H.
  - injection H as <-. split; [by intros a ?%elem_of_nil|done].
  - destruct a as [ [ [|reason|ask]|e]| |]; try done; destruct (IH _ H) as [Ha Hs].
    + split; [|done]. intros a [->|?]%elem_of_cons; [by left|by apply Ha].
    + split; [|intros x Hx; apply Hs, elem_of_app; by left].
      intros a [->|?]%elem_of_cons; [|by apply Ha]. right. exists ask. split; [done|].
      apply Hs, elem_of_app. right. left.
Qed.

Lemma check_permissions_chain answers approvals asks :
  (∀ ask, ask ∈ asks → ask ∈ approvals) →
  check_permissions answers approvals = Ok tt
  ↔ ∃ asks', guard_chain answers asks = ChainPassed asks' ∧ ∀ ask, ask ∈ asks' → ask ∈ approvals.
Proof.
  revert asks. induction answers as [|a answers IH]; intros asks Hs; simpl.
  - split; [intros _; by exists asks|done].
  - destruct a as [ [ [|reason|ask]|e]| |]; try (split; [done|by intros (? & ? & _)]).
    + by apply IH.
    + case_bool_decide as Hask.
      * apply IH. intros x [?| ->%list_elem_of_singleton]%elem_of_app; auto.
      * split; [done|]. intros (asks' & [_ Hc]%guard_chain_passed & Hsub).
        destruct Hask. apply Hsub, Hc, elem_of_app. right. left.
Qed.

(** The role and the mode a call of the coding guard is judged under. *)
Definition session_role (guard : CodingPermissionGuard) : Res string CodingRole :=
  match guard.(cg_authority) with
  | Some authority => default guard.(cg_default_role) <$> authority.(au_role)
  | None => mret guard.(cg_default_role)
  end.
Definition session_mode (guard : CodingPermissionGuard) : Res string CodingMode :=
  match guard.(cg_authority) with
  | Some authority => default guard.(cg_configured_mode) <$> authority.(au_mode)
  | None => mret guard.(cg_configured_mode)
  end.

Lemma verdict_kind call decision :
  match decision, verdict_of call decision with
  | Allowed, VerdictAllowed | BlockedFinal _, VerdictRefused _ => True
  | (PlanApprovalRequired | ApprovalRequired), VerdictAwaitingHuman _ => True
  | _, _ => False
  end.
Proof. by destruct decision as [| |[]|]. Qed.

(** C38: A coding tool judged by the coding guard runs only within its role
    and mode.  If a chain of guards the coding guard is one of lets a call of
    the coding namespace pass, the session's role and mode could be read, the
    capability is a known one, the role's ceiling allows its class, and the
    mode does: in read-only mode it is a read, in plan mode a read or a plan
    submission; and with no approval asked of a human it is a read outside plan
    submissions, or an edit in auto-edit, or the mode is full-auto.  The check
    before execution accepts exactly the chains whose approvals were all
    given. *)
Theorem guarded_call_authorized guard call answers asks :
  Answered (coding_can_execute guard call) ∈ answers → call.(tc_namespace) = "coding" →
  guard_chain answers [] = ChainPassed asks →
  ∃ c role mode, classify_capability call.(tc_capability) = Some c
    ∧ session_role guard = Ok role ∧ session_mode guard = Ok mode
    ∧ role_ceiling_allows role c = true
    ∧ (mode = ReadOnly → c = Read)
    ∧ (mode = Plan → c = Read ∨ mem_str call.(tc_name) guard.(cg_plan_tools) = true)
    ∧ (asks = [] → c = Read ∧ (mode = Plan → mem_str call.(tc_name) guard.(cg_plan_tools) = false)
        ∨ c = Write ∧ mode = AutoEdit ∨ mode = FullAuto)
    ∧ ∀ approvals, check_permissions answers approvals = Ok tt ↔ ∀ ask, ask ∈ asks → ask ∈ approvals.
Proof.
  intros Hin Hns Hchain. destruct (guard_chain_passed _ _ _ Hchain) as [Ha _].
  assert (∀ approvals, check_permissions answers approvals = Ok tt
    ↔ ∀ ask, ask ∈ asks → ask ∈ approvals) as Hrecheck.
  { intros approvals. rewrite (check_permissions_chain answers approvals []); [|by intros ? ?%elem_of_nil].
    rewrite Hchain. split; [by intros (? & [= <-] & ?)|by exists asks]. }
  apply Ha in Hin. unfold coding_can_execute in Hin. rewrite Hns in Hin. simpl in Hin.
  fold (session_role guard) (session_mode guard) in Hin.
  destruct (classify_capability _) as [c|]; [|by destruct Hin as [?|(? & ? & _)] ].
  destruct (session_role guard) as [role|]; [|by destruct Hin as [?|(? & ? & _)] ]. simpl in Hin.
  destruct (role_ceiling_allows role c) eqn:Hceil; simpl in Hin; [|by destruct Hin as [?|(? & ? & _)] ].
  destruct (session_mode guard) as [mode|]; [|by destruct Hin as [?|(? & ? & _)] ]. simpl in Hin.
  exists c, role, mode. pose proof (verdict_kind call
    (decide_call mode c (mem_str call.(tc_name) guard.(cg_plan_tools)))) as Hk.
  assert (asks = [] → verdict_of call (decide_call mode c (mem_str call.(tc_name) guard.(cg_plan_tools)))
    = VerdictAllowed) as Hnone.
  { intros ->. destruct Hin as [H|(ask & _ & Hask)]; [by injection H|by apply elem_of_nil in Hask]. }
  assert (∀ reason, verdict_of call (decide_call mode c (mem_str call.(tc_name) guard.(cg_plan_tools)))
    ≠ VerdictRefused reason) as Href.
  { intros reason E. rewrite E in Hin. by destruct Hin as [?|(? & ? & _)]. }
  split_and!; [done..| | | |done];
    destruct mode, c, (mem_str _ _); simpl in *; try tauto; try done; intros;
    try (exfalso; by eapply Href); try (by specialize (Hnone ltac:(done))); by left.
Qed.

(** ** The ladder *)

(** How far a decision lets a call go: refused, on a human's word, alone. *)
Definition permits (d : PermissionDecision) : Z :=
  match d with Allowed => 2 | PlanApprovalRequired | ApprovalRequired => 1 | BlockedFinal _ => 0 end.

Lemma lower_mode_rank a b : mode_rank (lower_mode a b) = Z.min (mode_rank a) (mode_rank b).
Proof. unfold lower_mode. destruct (Z.leb_spec (mode_rank a) (mode_rank b)); lia. Qed.

(** The permission ladder is one, and nothing climbs it.  A mode of higher
    rank lets every call go at least as far and some call further; and the
    mode a run is given has the least rank of the host's default, the agent's
    ceiling and the request, a request above the other two being refused. *)
Theorem permission_ladder default_text agent_text requested_text mode :
  effective_mode default_text agent_text requested_text = Ok mode →
  (∀ m m', mode_rank m < mode_rank m' →
    (∀ c plan, permits (decide_call m c plan) ≤ permits (decide_call m' c plan))
    ∧ ∃ c, permits (decide_call m c false) < permits (decide_call m' c false))
  ∧ ∃ d a, mode_parse default_text = Some d ∧ mode_parse agent_text = Some a
    ∧ match requested_text with
      | None => mode_rank mode = Z.min (mode_rank d) (mode_rank a)
      | Some text => ∃ r, mode_parse text = Some r
          ∧ mode_rank r ≤ Z.min (mode_rank d) (mode_rank a) ∧ mode_rank mode = mode_rank r
      end.
Proof.
  intros H. split.
  - intros m m' Hm. split.
    + intros c plan. by destruct m, m', c, plan; vm_compute in Hm |- *.
    + destruct m, m'; try (by vm_compute in Hm); first [by exists Write|by exists Exec].
  - unfold effective_mode in H. destruct (mode_parse default_text) as [d|]; [|done].
    destruct (mode_parse agent_text) as [a|]; [|done]. exists d, a. split_and!; [done..|].
    destruct requested_text as [text|]; [destruct (mode_parse text) as [r|]; [|done] |]; simpl in H.
    + destruct (Z.ltb_spec (Z.min (mode_rank d) (mode_rank a)) (mode_rank r)); [done|].
      injection H as <-. exists r. rewrite !lower_mode_rank. split_and!; [done|lia..].
    + injection H as <-. by rewrite lower_mode_rank.
Qed.

(** The guard of JavaScript tools never asks for the role: under one
    authority a reviewer's edit is refused to a native tool and granted to a
    JavaScript one. *)
Lemma js_guard_ignores_role :
  let authority := mkAuthority (Ok (Some Reviewer)) (Ok (Some FullAuto)) in
  js_can_execute (mkJsGuard authority ReadOnly []) (mkCall "js" "edit" "fs.write" "write" None)
    = Ok VerdictAllowed
  ∧ ∃ reason, coding_can_execute (mkCodingGuard Implementer ReadOnly (Some authority) [])
      (mkCall "coding" "edit" "fs.write" "write" None) = Ok (VerdictRefused reason)
    ∧ role_ceiling_allows Reviewer Write = false.
Proof. split; [reflexivity|]. eexists. by split. Qed.

(** ** Witnesses *)

Definition ex_guard : CodingPermissionGuard :=
  mkCodingGuard Implementer Ask (Some (mkAuthority (Ok (Some Reviewer)) (Ok (Some FullAuto)))) ["submit_plan"].
Definition ex_call (capability : string) : ToolCall := mkCall "coding" "run" capability "read" None.

Lemma guarded_call_authorized_witness :
  let answers := [Answered (js_can_execute (mkJsGuard (mkAuthority (Ok None) (Ok None)) Ask []) (ex_call "process.exec"));
                  Answered (coding_can_execute ex_guard (ex_call "process.exec"))] in
  guard_chain answers [] = ChainPassed []
  ∧ ∃ c role, classify_capability "process.exec" = Some c ∧ role_ceiling_allows role c = true.
Proof.
  intros answers. split; [vm_compute; reflexivity|].
  destruct (guarded_call_authorized ex_guard (ex_call "process.exec") answers [])
    as (c & role & mode & Hc & _ & _ & Hr & _).
  - right. left.
  - reflexivity.
  - vm_compute. reflexivity.
  - by exists c, role.
Defined.

Lemma permission_ladder_witness :
  effective_mode "full_auto" "auto_edit" (Some "ask") = Ok Ask
  ∧ ∃ r, mode_parse "ask" = Some r ∧ mode_rank Ask = mode_rank r.
Proof.
  split; [vm_compute; reflexivity|].
  destruct (permission_ladder "full_auto" "auto_edit" (Some "ask") Ask) as [_ (d & a & _ & _ & r & Hr & _ & E)].
  - vm_compute. reflexivity.
  - by exists r.
Defined.
