(* ===== verification/Budget.v ===== *)
(** * Execution budgets

    [core/src/budget.rs]: the counters and the clock a run may spend.  The
    consumer lock makes calls of [consume] take turns; a failure reported by
    another task may land between any two of its steps. *)

From S2P Require Export Sse.
Local Open Scope Z_scope.

Inductive Counter := ProviderRequests | ToolCalls | CorrectionPasses | Retries.
#[export] Instance Counter_eq_dec : EqDecision Counter.
Proof. solve_decision. Defined.

Definition counter_parse (name : string) : option Counter :=
  if String.eqb name "providerRequests" then Some ProviderRequests
  else if String.eqb name "toolCalls" then Some ToolCalls
  else if String.eqb name "correctionPasses" then Some CorrectionPasses
  else if String.eqb name "retries" then Some Retries
  else None.

(** The limits this file judges by; [first_byte_ms], [stream_idle_ms] and
    [tool_ms] are read elsewhere. *)
Record BudgetLimits := mkLimits {
  bl_overall_ms : option Z;
  bl_counter : Counter → option Z
}.

Record BudgetSnapshot := mkSnapshot {
  bs_version : Z;
  bs_started_at : Z;
  bs_counter : Counter → Z
}.

(** [ExecutionBudget]: the limits, the snapshot and the set-once failure. *)
Record ExecutionBudget := mkBudget {
  eb_limits : BudgetLimits;
  eb_state : BudgetSnapshot;
  eb_failure : option CoreError
}.
Implicit Types b : ExecutionBudget.

Definition budget_new (limits : BudgetLimits) (state : option BudgetSnapshot) (now : Z)
    : Res CoreError ExecutionBudget :=
  let state := default (mkSnapshot 1 now (λ _, 0)) state in
  if negb (state.(bs_version) =? 1) then
    Err (core_error "invalid_budget" "Invalid execution budget state")
  else Ok (mkBudget limits state None).

Definition saturating_add_u64 (a b : Z) : Z := Z.min u64_max (a + b).
Definition saturating_sub_u64 (a b : Z) : Z := Z.max 0 (a - b).

Definition remaining_ms b (now : Z) : option Z :=
  (λ limit, saturating_sub_u64 (saturating_add_u64 b.(eb_state).(bs_started_at) limit) now)
    <$> b.(eb_limits).(bl_overall_ms).

(** [get_or_insert]: the first failure stays. *)
Definition fail_budget (error : CoreError) b : ExecutionBudget :=
  mkBudget b.(eb_limits) b.(eb_state) (Some (default error b.(eb_failure))).

Definition timeout_error (phase : string) : CoreError :=
  core_error "execution_timeout" ("execution_timeout: " +:+ phase).

Definition check_budget b (now : Z) : Res CoreError unit :=
  match b.(eb_failure) with
  | Some error => Err error
  | None => if bool_decide (remaining_ms b now = Some 0) then Err (timeout_error "overall") else Ok tt
  end.

Definition set_counter (c : Counter) (v : Z) (s : BudgetSnapshot) : BudgetSnapshot :=
  mkSnapshot s.(bs_version) s.(bs_started_at) (λ c', if decide (c' = c) then v else s.(bs_counter) c').

Definition reserve (name : string) b : Res CoreError ExecutionBudget :=
  match counter_parse name with
  | None => Err (core_error "invalid_budget" "Unknown execution counter")
  | Some c =>
      let value := b.(eb_state).(bs_counter) c in
      if is_some_and (b.(eb_limits).(bl_counter) c) (λ limit, limit <=? value) then
        Err (core_error "execution_budget_exhausted" ("execution_budget_exhausted: " +:+ name))
      else match checked 0 u64_max (value + 1) with
           | Some v => if v <=? max_safe then
                         Ok (mkBudget b.(eb_limits) (set_counter c v b.(eb_state)) b.(eb_failure))
                       else Err (core_error "execution_budget_exhausted"
                              "Execution counter exceeds safe integer range")
           | None => Err (core_error "execution_budget_exhausted"
                       "Execution counter exceeds safe integer range")
           end
  end.

(** One call of [consume]: the times its two checks read, the failures other
    tasks report between its steps, and what the checkpoint, if there is one,
    answers. *)
Record ConsumeCall := mkConsume {
  cc_counter : string;
  cc_check_at : Z;
  cc_before_reserve : list CoreError;
  cc_before_checkpoint : list CoreError;
  cc_checkpoint : option (Res CoreError unit);
  cc_before_return : list CoreError;
  cc_return_at : Z
}.

Definition fail_all (errors : list CoreError) b : ExecutionBudget :=
  foldl (λ b e, fail_budget e b) b errors.

Definition consume (call : ConsumeCall) b : Res CoreError unit * ExecutionBudget :=
  match check_budget b call.(cc_check_at) with
  | Err e => (Err e, b)
  | Ok _ =>
      let b := fail_all call.(cc_before_reserve) b in
      match reserve call.(cc_counter) b with
      | Err e => (Err e, fail_budget e b)
      | Ok b =>
          let b := fail_all call.(cc_before_checkpoint) b in
          match call.(cc_checkpoint) with
          | Some (Err e) => let b := fail_budget e b in (Err (default e b.(eb_failure)), b)
          | _ =>
              let b := fail_all call.(cc_before_return) b in
              (check_budget b call.(cc_return_at), b)
          end
      end
  end.

(** The steps of the tasks that share a budget. *)
Inductive BudgetStep := ConsumeStep (call : ConsumeCall) | FailStep (error : CoreError).

Definition budget_step b (s : BudgetStep) : ExecutionBudget :=
  match s with ConsumeStep call => (consume call b).2 | FailStep e => fail_budget e b end.

(** What a sequence of such steps leaves of a budget. *)
Definition shared (steps : list BudgetStep) b : ExecutionBudget := foldl budget_step b steps.

Definition minimum (left right : option Z) : option Z :=
  match left, right with Some a, Some b => Some (Z.min a b) | a, b => opt_or a b end.

(** ** Counters *)

(** Only counters grow, each within its limit and the safe range; a failure
    stays. *)
Record spends (b b' : ExecutionBudget) : Prop := {
  sp_limits : b'.(eb_limits) = b.(eb_limits);
  sp_started : b'.(eb_state).(bs_started_at) = b.(eb_state).(bs_started_at);
  sp_grow c : b.(eb_state).(bs_counter) c ≤ b'.(eb_state).(bs_counter) c;
  sp_within c : b'.(eb_state).(bs_counter) c = b.(eb_state).(bs_counter) c
    ∨ b'.(eb_state).(bs_counter) c ≤ max_safe
      ∧ ∀ limit, b.(eb_limits).(bl_counter) c = Some limit → b'.(eb_state).(bs_counter) c ≤ limit;
  sp_failure e : b.(eb_failure) = Some e → b'.(eb_failure) = Some e
}.

#[export] Instance spends_preorder : PreOrder spends.
Proof.
  split; [intros b; split; auto; done|]. intros b1 b2 b3 [L1 S1 G1 W1 F1] [L2 S2 G2 W2 F2].
  split; try congruence; auto.
  - intros c. specialize (G1 c). specialize (G2 c). lia.
  - intros c. rewrite L1 in W2. destruct (W2 c) as [E|?]; [|by right]. rewrite E. apply W1.
Qed.

Lemma spends_fail e b : spends b (fail_budget e b).
Proof. split; simpl; auto; try done. by intros e' ->. Qed.
Lemma spends_fail_all es b : spends b (fail_all es b).
Proof.
  revert b. induction es as [|e es IH]; intros b; [done|]. etrans; [apply (spends_fail e)|apply IH].
Qed.

Lemma reserve_Ok name b b' : reserve name b = Ok b' →
  ∃ c, counter_parse name = Some c ∧ spends b b'
    ∧ b'.(eb_state) = set_counter c (b.(eb_state).(bs_counter) c + 1) b.(eb_state)
    ∧ b'.(eb_failure) = b.(eb_failure).
Proof.
  unfold reserve. destruct (counter_parse name) as [c|]; [|done].
  destruct (is_some_and _ _) eqn:El; [done|]. destruct (checked _ _ _) as [v|] eqn:Ec; [|done].
  apply checked_Some in Ec as [-> _]. destruct (Z.leb_spec (bs_counter (eb_state b) c + 1) max_safe); [|done].
  intros [= <-]. exists c. split_and!; [done| |done..]. split; try done; intros c'; simpl.
  - destruct (decide (c' = c)) as [->|]; lia.
  - destruct (decide (c' = c)) as [->|]; [right|by left]. split; [done|]. intros limit El'.
    rewrite El' in El. simpl in El. apply Z.leb_gt in El. lia.
Qed.

Lemma consume_spends call b : spends b (consume call b).2.
Proof.
  unfold consume. destruct (check_budget _ _); [|done].
  destruct (reserve _ _) as [b1|e] eqn:Er.
  - apply reserve_Ok in Er as (c & _ & Hs & _). etrans; [apply (spends_fail_all (cc_before_reserve call))|].
    etrans; [exact Hs|]. etrans; [apply (spends_fail_all (cc_before_checkpoint call))|].
    destruct (cc_checkpoint call) as [ [[]|e]|]; simpl; (apply spends_fail || apply spends_fail_all).
  - simpl. etrans; [apply spends_fail_all|apply spends_fail].
Qed.

Lemma step_spends b s : spends b (budget_step b s).
Proof. destruct s; [apply consume_spends|apply spends_fail]. Qed.
Lemma shared_spends steps b : spends b (shared steps b).
Proof. revert b. induction steps as [|s steps IH]; intros b; [done|]. etrans; [apply (step_spends b s)|apply IH]. Qed.

(** The consumptions of a counter a sequence of steps was granted. *)
Fixpoint granted (c : Counter) (steps : list BudgetStep) b : Z :=
  match steps with
  | [] => 0
  | s :: steps =>
      (match s with
       | ConsumeStep call =>
           if bool_decide (counter_parse call.(cc_counter) = Some c) && is_ok (consume call b).1
           then 1 else 0
       | FailStep _ => 0
       end) + granted c steps (budget_step b s)
  end.

Lemma consume_granted call b c :
  counter_parse call.(cc_counter) = Some c → is_ok (consume call b).1 = true →
  (consume call b).2.(eb_state).(bs_counter) c = b.(eb_state).(bs_counter) c + 1.
Proof.
  intros Hc. unfold consume. destruct (check_budget _ _); [|done].
  assert (∀ es b, (fail_all es b).(eb_state) = b.(eb_state)) as Hf.
  { intros es. induction es as [|e es IH]; intros b'; [done|]. simpl. by rewrite IH. }
  destruct (reserve _ _) as [b1|e] eqn:Er; [|done].
  apply reserve_Ok in Er as (c' & Hc' & _ & Es & _). assert (c' = c) as -> by congruence.
  destruct (cc_checkpoint call) as [ [[]|e]|]; simpl; try done; intros _;
    rewrite !Hf, Es, Hf; simpl; by rewrite decide_True.
Qed.

Lemma granted_spent c steps b :
  granted c steps b ≤ (foldl budget_step b steps).(eb_state).(bs_counter) c - b.(eb_state).(bs_counter) c.
Proof.
  revert b. induction steps as [|s steps IH]; intros b; simpl; [lia|].
  specialize (IH (budget_step b s)). pose proof (sp_grow _ _ (step_spends b s) c) as Hg.
  destruct s as [call|e]; cbn [budget_step] in *; [|lia].
  destruct (bool_decide _ && _) eqn:E; [|lia]. apply andb_true_iff in E as [Ec%bool_decide_eq_true Eo].
  rewrite (consume_granted call b c Ec Eo) in *. lia.
Qed.

(** A budget is never overspent.  Whatever the tasks that share a budget
    do, and however their failures interleave with a consumption, a counter
    never falls and never passes its limit or the safe integers beyond where
    it started; no more consumptions are granted than the limit leaves; and
    once a failure is recorded, every later consumption is refused with that
    first failure and changes nothing. *)
Theorem budget_never_overspent b steps c :
  let b' := foldl budget_step b steps in
  b.(eb_state).(bs_counter) c ≤ b'.(eb_state).(bs_counter) c
  ∧ (b'.(eb_state).(bs_counter) c = b.(eb_state).(bs_counter) c
     ∨ b'.(eb_state).(bs_counter) c ≤ max_safe)
  ∧ (∀ limit, b.(eb_limits).(bl_counter) c = Some limit →
      granted c steps b ≤ Z.max 0 (limit - b.(eb_state).(bs_counter) c))
  ∧ ∀ e call, b.(eb_failure) = Some e → consume call b' = (Err e, b').
Proof.
  intros b'. assert (spends b b') as [_ _ Hg Hw Hf].
  { subst b'. clear c. revert b. induction steps as [|s steps IH]; intros b; [done|].
    etrans; [apply (step_spends b s)|apply IH]. }
  split_and!; [done| | |].
  - destruct (Hw c) as [?|[? _] ]; auto.
  - intros limit El. pose proof (granted_spent c steps b) as Hn. fold b' in Hn.
    destruct (Hw c) as [E|[_ Hl] ]; [lia|]. specialize (Hl limit El). lia.
  - intros e call He. apply Hf in He. unfold consume, check_budget. by rewrite He.
Qed.

(** ** Witnesses *)

Definition ex_budget : ExecutionBudget :=
  mkBudget (mkLimits (Some 1000) (λ c, if decide (c = ToolCalls) then Some 1 else None))
    (mkSnapshot 1 0 (λ _, 0)) None.
Definition ex_consume (at_ : Z) : BudgetStep :=
  ConsumeStep (mkConsume "toolCalls" at_ [] [] (Some (Ok tt)) [] at_).

Example ex_second_refused :
  granted ToolCalls [ex_consume 1; ex_consume 2] ex_budget = 1.
Proof. vm_compute. reflexivity. Qed.

Lemma budget_never_overspent_witness :
  let b' := foldl budget_step ex_budget [ex_consume 1; ex_consume 2] in
  granted ToolCalls [ex_consume 1; ex_consume 2] ex_budget ≤ 1.
Proof.
  intros b'. destruct (budget_never_overspent ex_budget [ex_consume 1; ex_consume 2] ToolCalls)
    as (_ & _ & H & _). exact (H 1 eq_refl).
Defined.
