(* ===== verification/Envelope.v ===== *)
(** * Tool results as the model sees them

    [core/src/envelope.rs]: the JSON envelope a tool result is reported in,
    cut down to the byte budget of the run.  Strings are their UTF-8 bytes;
    the JSON text of a value ([stringify_javascript_value]) is a parameter. *)

From S2P Require Export Value Sse.
Local Open Scope Z_scope.

(** [usize::MAX] on the 64-bit targets. *)
Definition usize_max : Z := u64_max.

Definition byte_len (s : string) : Z := Z.of_nat (String.length s).
Definition prefix_of (n : Z) (s : string) : string := String.substring 0 (Z.to_nat n) s.

(** [str::is_char_boundary] below the end: not a continuation byte. *)
Definition char_boundary (s : string) (i : nat) : bool :=
  match String.get i s with
  | Some c => let b := Z.of_nat (Ascii.nat_of_ascii c) in negb ((128 <=? b) && (b <=? 191))
  | None => true
  end.
Fixpoint boundary_at_most (s : string) (i : nat) : nat :=
  match i with
  | O => O
  | S j => if char_boundary s i then i else boundary_at_most s j
  end.

(** [MARKER]: a newline and [[...truncated]]. *)
Definition marker : string := String (Ascii.ascii_of_nat 10) "[...truncated]".

Definition truncate (value : string) (max : Z) : string * bool :=
  if byte_len value <=? max then (value, false)
  else if max <=? byte_len marker then (prefix_of max marker, true)
  else let end_ := boundary_at_most value (Z.to_nat (max - byte_len marker)) in
       (String.substring 0 end_ value +:+ marker, true).

Definition text_budget (max : Z) : Z := Z.max 128 (max / 8).

(** [value[key] = x] on an object. *)
Definition vset (key : string) (x : Value) (v : Value) : Value :=
  match v with VObj o => VObj (obj_insert key x o) | _ => v end.

(** [Map::remove] of an order-preserving map: the last member takes the
    place of the removed one. *)
Definition obj_remove (key : string) (o : list (string * Value)) : list (string * Value) :=
  match list_find (λ e, e.1 = key) o with
  | None => o
  | Some (i, _) =>
      match last o with
      | None => o
      | Some e => let o' := removelast o in if Nat.eqb i (length o') then o' else <[i := e]> o'
      end
  end.
Definition vremove (key : string) (v : Value) : Value :=
  match v with VObj o => VObj (obj_remove key o) | _ => v end.

Definition error_envelope (code message : string) (detail : Value) : Value :=
  let data := [("errorCode", VStr code); ("errorMessage", VStr message)] in
  let data := match detail with
              | VObj o => foldl (λ d e, obj_insert e.1 e.2 d) data o
              | _ => data
              end in
  VObj [("ok", VBool false); ("status", VStr "error"); ("summary", VStr message);
        ("warnings", VArr []); ("truncated", VBool false); ("data", VObj data)].

Record ToolLimits := mkToolLimits {
  tl_profile : string;
  tl_max_bytes : Z;
  tl_max_items : option Z
}.

Record ToolResult := mkToolResult {
  tr_ok : bool;
  tr_data : option Value;
  tr_sources : list Value;
  tr_warnings : list string;
  tr_truncated : bool;
  tr_model_data : option Value;
  tr_summary : option string;
  tr_status : option string;
  tr_model_content : option (list Value)
}.

(** The warnings share one text budget. *)
Fixpoint cut_warnings (budget : Z) (cut : bool) (warnings : list string) : list string * bool :=
  match warnings with
  | [] => ([], cut)
  | w :: ws =>
      if budget =? 0 then cut_warnings budget true ws
      else let '(text, truncated) := truncate w budget in
           let '(rest, cut) := cut_warnings (budget - byte_len text) (cut || truncated) ws in
           (text :: rest, cut)
  end.

Section envelope.
(** [agentkit_contracts::stringify_javascript_value]. *)
Context (stringify : Value → string).

Definition fits (v : Value) (max : Z) : bool := byte_len (stringify v) <=? max.

Definition cut_data (data : Value) (budget : Z) : Value :=
  match data with
  | VStr text => VStr (truncate text budget).1
  | _ => VObj [("truncated", VBool true); ("preview", VStr (truncate (stringify data) budget).1)]
  end.

(** The loop halves the budget down to 256; [inr] is the envelope it leaves
    when nothing fitted. *)
Fixpoint fit_loop (fuel : nat) (envelope data : Value) (budget max : Z) : Value + Value :=
  let envelope := vset "truncated" (VBool true) envelope in
  let envelope := vset "data" (cut_data data budget) envelope in
  if fits envelope max then inl envelope
  else if budget <=? 256 then inr envelope
  else match fuel with
       | O => inr envelope
       | S fuel => fit_loop fuel envelope data (Z.max 256 (budget / 2)) max
       end.

Fixpoint fit_summary (divisors : list Z) (envelope : Value) (max : Z) : Value :=
  match divisors with
  | [] => envelope
  | divisor :: divisors =>
      let envelope := match as_str (vindex envelope "summary") with
                      | Some text => vset "summary" (VStr (truncate text (max / divisor)).1) envelope
                      | None => envelope
                      end in
      if fits envelope max then envelope else fit_summary divisors envelope max
  end.

Definition fit (envelope : Value) (max : Z) : Value :=
  if fits envelope max then envelope
  else
    let data := vindex envelope "data" in
    let shell := vset "data" VNull envelope in
    let budget := Z.max 256 (Z.max 0 (max - byte_len (stringify shell))) in
    match fit_loop (S (Z.to_nat (Z.log2 budget))) envelope data budget max with
    | inl envelope => envelope
    | inr envelope =>
        let envelope := vset "data" (VObj [("truncated", VBool true)]) envelope in
        if fits envelope max then envelope
        else fit_summary [4; 16; usize_max] (vset "warnings" (VArr []) envelope) max
    end.

Definition result_status (r : ToolResult) : string :=
  if bool_decide (r.(tr_status) = Some "partial") then "partial"
  else if r.(tr_ok) then "ok" else "error".

Definition attachments_dropped : string :=
  "Tool attachments exceeded the result byte budget and were omitted.".

Definition build (r : ToolResult) (limits : ToolLimits) : Value :=
  let max := limits.(tl_max_bytes) in
  let '(warnings, cut) := cut_warnings (text_budget max) r.(tr_truncated) r.(tr_warnings) in
  let data := match r.(tr_model_data) with
              | Some v => if is_null v then r.(tr_data) else Some v
              | None => r.(tr_data)
              end in
  let envelope := VObj [("ok", VBool r.(tr_ok)); ("status", VStr (result_status r));
                        ("warnings", VArr (map VStr warnings)); ("truncated", VBool cut)] in
  let envelope := match data with Some v => vset "data" v envelope | None => envelope end in
  let envelope := match r.(tr_summary) with
                  | Some s => let '(summary, truncated) := truncate s (text_budget max) in
                              vset "truncated" (VBool (cut || truncated)) (vset "summary" (VStr summary) envelope)
                  | None => envelope
                  end in
  let envelope :=
    match r.(tr_model_content) with
    | Some (part :: parts) =>
        let attached := vset "modelContent" (VArr (part :: parts)) envelope in
        if fits attached max then attached
        else vset "warnings" (VArr (map VStr warnings ++ [VStr attachments_dropped]))
               (vset "truncated" (VBool true) (vremove "modelContent" attached))
    | _ => envelope
    end in
  fit envelope max.
End envelope.

(** ** What the model is shown *)

(** ** Cutting a text *)

Lemma byte_len_app a b : byte_len (a +:+ b) = byte_len a + byte_len b.
Proof.
  unfold byte_len. induction a as [|c a IH]; [done|].
  change (String c a +:+ b) with (String c (a +:+ b)). simpl. lia.
Qed.

Lemma substring_0_length n s : (n ≤ String.length s)%nat → String.length (String.substring 0 n s) = n.
Proof.
  revert n. induction s as [|c s IH]; intros [|n] Hn; simpl in *; try done; [lia|]. f_equal. apply IH. lia.
Qed.
Lemma substring_0_prefix n s : ∃ rest, s = String.substring 0 n s +:+ rest.
Proof.
  revert n. induction s as [|c s IH]; intros [|n]; simpl; [by exists ""..|by exists (String c s)|].
  destruct (IH n) as [rest Hr]. exists rest. change (String c s = String c (String.substring 0 n s +:+ rest)). by rewrite <-Hr.
Qed.

Lemma boundary_at_most_spec s i :
  (boundary_at_most s i ≤ i)%nat
  ∧ (boundary_at_most s i = 0%nat ∨ char_boundary s (boundary_at_most s i) = true)
  ∧ ∀ j, (boundary_at_most s i < j ≤ i)%nat → char_boundary s j = false.
Proof.
  induction i as [|i (H1 & H2 & H3)]; simpl; [split_and!; [lia|by left|lia]|].
  destruct (char_boundary s (S i)) eqn:E; [split_and!; [lia|by right|lia]|]. split_and!; [lia|done|].
  intros j Hj. destruct (decide (j = S i)) as [->|]; [done|]. apply H3. lia.
Qed.

(** Cutting a text keeps it when it fits; otherwise what is left is within
    the budget and flagged, and where the budget has room for the marker it is
    the longest beginning of the text that ends at a character boundary and
    leaves room for the marker, with the marker after it. *)
Theorem truncate_cuts value max : 0 ≤ max →
  let '(text, cut) := truncate value max in
  byte_len text ≤ max
  ∧ (cut = false ↔ byte_len value ≤ max)
  ∧ (cut = false → text = value)
  ∧ (cut = true → byte_len marker < max →
     ∃ n rest, text = String.substring 0 n value +:+ marker ∧ value = String.substring 0 n value +:+ rest
       ∧ Z.of_nat n ≤ max - byte_len marker ∧ (n = 0%nat ∨ char_boundary value n = true)
       ∧ ∀ j, (n < j)%nat → Z.of_nat j ≤ max - byte_len marker → char_boundary value j = false).
Proof.
  intros Hmax. unfold truncate. destruct (Z.leb_spec (byte_len value) max) as [Hv|Hv].
  { split_and!; [done..|by intros]. }
  destruct (Z.leb_spec max (byte_len marker)) as [Hm|Hm].
  - split_and!; [|by split; [|lia]|done|lia]. unfold prefix_of, byte_len in *. rewrite substring_0_length by lia. lia.
  - destruct (boundary_at_most_spec value (Z.to_nat (max - byte_len marker))) as (H1 & H2 & H3).
    set (n := boundary_at_most _ _) in *.
    assert (String.length (String.substring 0 n value) = n) as Hl.
    { apply substring_0_length. unfold byte_len in *. lia. }
    split_and!; [|by split; [|lia]|done|].
    + rewrite byte_len_app. unfold byte_len at 1. rewrite Hl. lia.
    + intros _ _. destruct (substring_0_prefix n value) as [rest Hr]. exists n, rest. split_and!; try done; [lia|].
      intros j Hj1 Hj2. apply H3. lia.
Qed.

Lemma truncate_flag value max : byte_len value ≤ max → truncate value max = (value, false).
Proof. intros H. unfold truncate. by rewrite (proj2 (Z.leb_le _ _)). Qed.
Lemma truncate_uncut value max text : truncate value max = (text, false) → text = value.
Proof. unfold truncate. by repeat case_match; intros [= <-]. Qed.

(** ** Members of an envelope *)

Definition is_object (v : Value) : Prop := match v with VObj _ => True | _ => False end.
Lemma is_object_vset key x v : is_object (vset key x v) ↔ is_object v.
Proof. by destruct v. Qed.
Lemma vget_vset_eq key x v : is_object v → vget (vset key x v) key = Some x.
Proof. destruct v; try done. intros _. apply obj_get_insert_eq. Qed.
Lemma vget_vset_ne key key' x v : key ≠ key' → vget (vset key x v) key' = vget v key'.
Proof. destruct v; try done. intros H. by apply obj_get_insert_ne. Qed.

(** An attached member that does not fit leaves no trace. *)
Lemma obj_remove_insert key x o : obj_get key o = None → obj_remove key (obj_insert key x o) = o.
Proof.
  intros Hn. assert (obj_insert key x o = o ++ [(key, x)] ∧ list_find (λ e, e.1 = key) o = None) as [-> Hf].
  { induction o as [|[k v] o IH]; [done|]. simpl in *. case_bool_decide as Hk; [done|].
    destruct (IH Hn) as [-> Hf]. split; [done|]. cbn. rewrite decide_False by done. by rewrite Hf. }
  unfold obj_remove. rewrite list_find_app_r by done. cbn. rewrite decide_True by done. cbn.
  rewrite last_snoc, removelast_last. by rewrite ?Nat.add_0_r, Nat.eqb_refl.
Qed.
Lemma vremove_vset key x v : vget v key = None → vremove key (vset key x v) = v.
Proof. destruct v; try done. simpl. intros H. by rewrite obj_remove_insert. Qed.

(** ** Fitting an envelope *)

Section fit.
Context (stringify : Value → string).

Definition minimal_data : Value := VObj [("truncated", VBool true)].

(** What fitting may change. *)
Definition fitted_keys : list string := ["truncated"; "data"; "warnings"; "summary"].
Definition framed (v0 v : Value) : Prop :=
  is_object v ∧ ∀ key, key ∉ fitted_keys → vget v key = vget v0 key.

Lemma framed_vset v0 key x v : key ∈ fitted_keys → framed v0 v → framed v0 (vset key x v).
Proof.
  intros Hk [Ho Hf]. split; [by rewrite is_object_vset|]. intros key' Hk'.
  rewrite vget_vset_ne; [by apply Hf|]. by intros ->.
Qed.

Ltac fitted := apply (bool_decide_eq_true_1 _); reflexivity.

Lemma fit_loop_spec fuel envelope e data budget max : framed envelope e →
  match fit_loop stringify fuel e data budget max with
  | inl v => framed envelope v ∧ vget v "truncated" = Some (VBool true) ∧ fits stringify v max = true
  | inr v => framed envelope v ∧ vget v "truncated" = Some (VBool true)
  end.
Proof.
  assert (∀ e d, framed envelope e →
    let v := vset "data" d (vset "truncated" (VBool true) e) in
    framed envelope v ∧ vget v "truncated" = Some (VBool true)) as Hstep.
  { intros e' d Hf. split.
    - apply framed_vset; [fitted|]. by apply framed_vset; [fitted|].
    - rewrite vget_vset_ne by done. apply vget_vset_eq, Hf. }
  revert e budget. induction fuel as [|fuel IH]; intros e budget Hf; cbn [fit_loop];
    destruct (Hstep e (cut_data stringify data budget) Hf) as (H1 & H2);
    set (v := vset "data" _ _) in *.
  - destruct (fits stringify v max) eqn:E; [done|]. by destruct (_ <=? _).
  - destruct (fits stringify v max) eqn:E; [done|]. destruct (_ <=? _); [done|]. by apply IH.
Qed.

(** The fuel of the halving loop lasts: it ends at the smallest budget. *)
Lemma fit_loop_fuel fuel fuel' envelope data budget max :
  budget ≤ 256 ∨ Z.log2 budget - 7 ≤ Z.of_nat fuel → (fuel ≤ fuel')%nat →
  fit_loop stringify fuel envelope data budget max = fit_loop stringify fuel' envelope data budget max.
Proof.
  revert fuel' envelope budget. induction fuel as [|fuel IH]; intros fuel' envelope budget Hb Hle.
  - assert (budget ≤ 256) as Hb'.
    { destruct Hb as [|Hl]; [done|]. destruct (Z.le_gt_cases budget 256); [done|].
      assert (Z.log2 256 ≤ Z.log2 budget) as Hc by (apply Z.log2_le_mono; lia). change (Z.log2 256) with 8 in Hc. lia. }
    destruct fuel'; cbn [fit_loop]; destruct (fits _ _ _); try done; by rewrite (proj2 (Z.leb_le _ _)).
  - destruct fuel' as [|fuel']; [lia|]. cbn [fit_loop].
    destruct (fits _ _ _); [done|]. destruct (Z.leb_spec budget 256) as [|Hgt]; [done|].
    apply IH; [|lia]. destruct Hb as [|Hl]; [lia|]. destruct (Z.le_gt_cases 512 budget) as [H5|H5].
    + right. rewrite Z.max_r by (apply Z.div_le_lower_bound; lia).
      change 2 with (2 ^ 1). rewrite <-Z.shiftr_div_pow2, Z.log2_shiftr by lia. lia.
    + left. assert (budget / 2 < 256) by (apply Z.div_lt_upper_bound; lia). lia.
Qed.

Lemma fit_summary_spec divisors e0 e max : 0 ≤ max < usize_max → framed e0 e →
  let v := fit_summary stringify (divisors ++ [usize_max]) e max in
  framed e0 v ∧ vget v "truncated" = vget e "truncated"
  ∧ vget v "data" = vget e "data" ∧ vget v "warnings" = vget e "warnings"
  ∧ (fits stringify v max = true ∨ ∀ text, vget v "summary" = Some (VStr text) → text = "").
Proof.
  intros Hmax. revert e.
  set (step := λ e divisor, match as_str (vindex e "summary") with
                            | Some text => vset "summary" (VStr (truncate text (max / divisor)).1) e
                            | None => e
                            end).
  assert (∀ e divisor, framed e0 e → let v := step e divisor in
    framed e0 v ∧ vget v "truncated" = vget e "truncated" ∧ vget v "data" = vget e "data"
    ∧ vget v "warnings" = vget e "warnings"
    ∧ ∀ text, vget v "summary" = Some (VStr text) → ∃ text0, text = (truncate text0 (max / divisor)).1) as Hstep.
  { intros e divisor Hf. unfold step. destruct (as_str (vindex e "summary")) as [text0|] eqn:E; cbn zeta.
    - split_and!; [apply framed_vset; [fitted|done]|by rewrite vget_vset_ne..|].
      intros text. rewrite vget_vset_eq by apply Hf. intros [= <-]. by exists text0.
    - split_and!; try done. intros text Ht. unfold vindex in E. by rewrite Ht in E. }
  induction divisors as [|divisor divisors IH]; intros e Hf; cbn [app fit_summary];
    (match goal with |- context [Z.div max ?d] =>
       destruct (Hstep e d Hf) as (H1 & H2 & H3 & H4 & H5); fold (step e d); set (v := step e d) in * end);
    destruct (fits stringify v max) eqn:Ef.
  - split_and!; try done. by left.
  - split_and!; try done. right. intros text Ht. destruct (H5 text Ht) as [text0 ->].
    rewrite Z.div_small by done. unfold truncate. destruct (Z.leb_spec (byte_len text0) 0) as [Hl|]; [|done].
    unfold byte_len in Hl. by destruct text0.
  - split_and!; try done. by left.
  - destruct (IH v H1) as (K1 & K2 & K3 & K4 & K5). cbn zeta. split_and!; try done; congruence.
Qed.

Lemma fit_spec envelope max : is_object envelope → 0 ≤ max < usize_max →
  let v := fit stringify envelope max in
  framed envelope v
  ∧ (v = envelope ∨ vget v "truncated" = Some (VBool true))
  ∧ (fits stringify v max = true
     ∨ vget v "data" = Some minimal_data ∧ vget v "warnings" = Some (VArr [])
       ∧ ∀ text, vget v "summary" = Some (VStr text) → text = "").
Proof.
  intros Ho Hmax. unfold fit. destruct (fits stringify envelope max) eqn:E.
  { split_and!; [by split|by left|by left]. }
  match goal with |- context [fit_loop _ ?n ?e ?d ?b ?m] =>
    pose proof (fit_loop_spec n envelope e d b m (conj Ho (λ _ _, eq_refl))) as Hl; destruct (fit_loop stringify n e d b m) as [v|v] end.
  { destruct Hl as (H1 & H2 & H3). split_and!; [apply H1..|by right|by left]. }
  destruct Hl as (H1 & H2). fold minimal_data. set (v1 := vset "data" minimal_data v).
  assert (framed envelope v1) as Hv1 by by apply framed_vset; [fitted|].
  assert (vget v1 "truncated" = Some (VBool true)) as Ht by by unfold v1; rewrite vget_vset_ne.
  destruct (fits stringify v1 max) eqn:E1; [split_and!; [apply Hv1..|by right|by left]|].
  set (v2 := vset "warnings" (VArr []) v1).
  assert (framed envelope v2) as Hv2 by by apply framed_vset; [fitted|].
  destruct (fit_summary_spec [4; 16] envelope v2 max Hmax Hv2) as (K1 & K2 & K3 & K4 & K5).
  cbn [app] in *. split_and!; [apply K1..| |].
  - right. rewrite K2. unfold v2. by rewrite vget_vset_ne.
  - destruct K5 as [|K5]; [by left|right]. rewrite K3, K4. unfold v2.
    rewrite vget_vset_ne, vget_vset_eq by (try done; apply Hv1). split; [|done].
    unfold v1. apply vget_vset_eq, H1.
Qed.

(** ** The envelope of a result *)

Lemma cut_warnings_spec budget cut warnings :
  (cut_warnings budget cut warnings).2 = false →
  cut = false ∧ (cut_warnings budget cut warnings).1 = warnings.
Proof.
  revert budget cut. induction warnings as [|w ws IH]; intros budget cut; cbn [cut_warnings]; [done|].
  destruct (budget =? 0); [by intros [? _]%IH|].
  pose proof (truncate_uncut w budget) as Hu. destruct (truncate w budget) as [text truncated].
  specialize (IH (budget - byte_len text) (cut || truncated)).
  destruct (cut_warnings _ _ ws) as [kept cut']. cbn [fst snd] in *. intros Hc.
  destruct (IH Hc) as [Ho ->]. apply orb_false_iff in Ho as [-> ->]. by rewrite (Hu text).
Qed.

(** The data a result reports: the model's own, unless null. *)
Definition reported_data (r : ToolResult) : option Value :=
  match r.(tr_model_data) with Some v => if is_null v then r.(tr_data) else Some v | None => r.(tr_data) end.
Definition reported_content (r : ToolResult) : option Value :=
  match r.(tr_model_content) with Some (part :: parts) => Some (VArr (part :: parts)) | _ => None end.

(** Everything the result has to say is in the envelope. *)
Definition whole (r : ToolResult) (v : Value) : Prop :=
  vget v "data" = reported_data r ∧ vget v "warnings" = Some (VArr (map VStr r.(tr_warnings)))
  ∧ vget v "summary" = VStr <$> r.(tr_summary) ∧ vget v "modelContent" = reported_content r.

(** What [build] assembles before fitting it. *)
Lemma build_shape (r : ToolResult) limits : ∃ envelope,
  build stringify r limits = fit stringify envelope limits.(tl_max_bytes)
  ∧ is_object envelope
  ∧ vget envelope "ok" = Some (VBool r.(tr_ok))
  ∧ vget envelope "status" = Some (VStr (result_status r))
  ∧ ∃ cut, vget envelope "truncated" = Some (VBool cut) ∧ (cut = false → whole r envelope).
Proof.
  unfold build, whole, reported_content. fold (reported_data r).
  pose proof (cut_warnings_spec (text_budget limits.(tl_max_bytes)) r.(tr_truncated) r.(tr_warnings)) as Hw.
  destruct (cut_warnings _ _ _) as [warnings cut]. cbn [fst snd] in Hw.
  pose proof (λ s, truncate_uncut s (text_budget limits.(tl_max_bytes))) as Hs.
  eexists. split; [reflexivity|]. generalize (reported_data r) as data. intros data.
  destruct r.(tr_summary) as [s|]; [specialize (Hs s); destruct (truncate s _) as [summary truncated]|];
    destruct data as [d|]; (destruct r.(tr_model_content) as [[|part parts]|]; [|case_match|]);
    (split; [done|]; split; [reflexivity|]; split; [reflexivity|]); eexists; (split; [reflexivity|]);
    intros Ht; try done.
  all: try (apply orb_false_iff in Ht as [Ht ->]; rewrite (Hs summary eq_refl)).
  all: destruct (Hw Ht) as [_ ->]; split_and!; reflexivity.
Qed.

(** C31: The envelope the model is shown says whether the tool succeeded; it
    fits the byte budget of the run or nothing is left in it that could be
    cut; and unless it is marked truncated it holds everything the result
    has to say: its data, all its warnings, its summary and its
    attachments. *)
Theorem build_honest r limits : 0 ≤ limits.(tl_max_bytes) < usize_max →
  let v := build stringify r limits in
  vget v "ok" = Some (VBool r.(tr_ok))
  ∧ vget v "status" = Some (VStr (result_status r))
  ∧ (byte_len (stringify v) ≤ limits.(tl_max_bytes)
     ∨ vget v "data" = Some minimal_data ∧ vget v "warnings" = Some (VArr [])
       ∧ ∀ text, vget v "summary" = Some (VStr text) → text = "")
  ∧ (vget v "truncated" = Some (VBool true) ∨ whole r v).
Proof.
  intros Hmax. destruct (build_shape r limits) as (envelope & -> & Ho & H1 & H2 & H3).
  destruct (fit_spec envelope _ Ho Hmax) as ([_ Hf] & Ht & Hfits). cbn zeta. split_and!.
  - rewrite <-H1. apply Hf. apply (bool_decide_eq_true_1 _). reflexivity.
  - rewrite <-H2. apply Hf. apply (bool_decide_eq_true_1 _). reflexivity.
  - destruct Hfits as [Hfits|]; [left|by right]. by apply Z.leb_le.
  - destruct Ht as [-> | ->]; [|by left]. destruct H3 as ([] & H3 & Hw); [by left|right; auto].
Qed.
End fit.

Lemma truncate_cuts_witness :
  let '(text, cut) := truncate "a long line of text, cut" 20 in
  cut = true ∧ text = "a lon" +:+ marker ∧ byte_len text ≤ 20.
Proof.
  pose proof (truncate_cuts "a long line of text, cut" 20 ltac:(lia)) as H.
  destruct (truncate "a long line of text, cut" 20) as [text cut] eqn:E. vm_compute in E.
  injection E as <- <-. destruct H as (H & _). split; [reflexivity|]. split; [reflexivity|exact H].
Defined.

Lemma build_honest_witness :
  let r := mkToolResult true (Some (VStr "a datum that does not fit")) [] ["one"] false None (Some "all of it") None None in
  let v := build (λ _, "{}") r (mkToolLimits "small" 16 None) in
  byte_len "{}" ≤ 16 ∧ whole r v.
Proof.
  intros r v. destruct (build_honest (λ _, "{}") r (mkToolLimits "small" 16 None)) as (_ & _ & H3 & H4).
  { vm_compute. split; [discriminate|reflexivity]. }
  split; [destruct H3 as [H3|[H3 _]]; [exact H3|vm_compute in H3; discriminate H3]|].
  destruct H4 as [H4|H4]; [vm_compute in H4; discriminate H4|exact H4].
Defined.
