(* ===== verification/RunModel.v ===== *)
(** * A run and what it meets

    The state of [core/src/run.rs], the options it is given, and the world it
    asks: the provider's stream, the tools, the hooks, the event sink, the
    steering source, the clock, and the tokens others cancel.  A run is
    deterministic given the answers, so the world is a function from the
    number of questions asked so far to the answer ([RunEnv]); a theorem about
    every [RunEnv] is about every behaviour of the world, in every
    interleaving. *)

From S2P Require Export ToolContent Budget.
Local Open Scope Z_scope.

(** ** The data a run exchanges *)

Record HumanRequestSpec := mkHumanRequest {
  hr_request_id : string;
  hr_content : Value;
  hr_content_hash : string;
  hr_expires_at : option string
}.

Record SteeringItem := mkSteering { si_input_id : string; si_message : ChatMessage }.

Inductive ProviderEvent :=
  | Started
  | Delta (delta : string)
  | Completed (content : string) (tool_calls : list ToolCall) (finish_reason : string)
  | ToolRequested (call : ToolCall)
  | Warning (code message : string)
  | Usage (data : Value)
  | Continuation (state : Value)
  | Activity
  | ToolCallProgress (id name : string) (args_bytes : Z)
  | RequestStarted
  | RetryBackoff
  | Event (kind : string) (data : Value).

Record ToolDefinition := mkToolDefinition { td_name : string; td_timeout_ms : option Z }.

(** The event handed to the sink. *)
Record RunEvent := mkRunEvent {
  re_type : string;
  re_run_id : string;
  re_timestamp : string;
  re_event_id : string;
  re_seq : Z;
  re_data : Value;
  re_attempt_id : option string
}.

Inductive HookContext :=
  | OnRunStart (model : string) (tool_names : list string) (message_count : nat)
  | OnStepStart (step : Z) (messages : list ChatMessage)
  | OnModelResponse (step : Z) (content : string) (calls : list ToolCall) (finish : option string)
  | OnToolResult (step : Z) (call : ToolCall) (status : string) (error_code : option Value)
  | BeforeToolCall (step : Z) (call : ToolCall) (args : Value).

Definition hook_name (c : HookContext) : string :=
  match c with
  | OnRunStart _ _ _ => "onRunStart"
  | OnStepStart _ _ => "onStepStart"
  | OnModelResponse _ _ _ _ => "onModelResponse"
  | OnToolResult _ _ _ _ => "onToolResult"
  | BeforeToolCall _ _ _ => "beforeToolCall"
  end.

(** ** The world's answers *)

Inductive NextReply :=
  | NextCancelled
  | NextExpired
  | NextItem (item : Res CoreError ProviderEvent)
  | NextEnd.
Inductive HookReply := HookCancelled | HookExpired | HookFailed | HookValue (v : Value).
Inductive SteerReply := SteerCancelled | SteerExpired | SteerFailed | SteerItems (items : list SteeringItem).
Inductive ToolReply := ToolReturned (r : Res CoreError ToolResult) | ToolExpired | ToolCancelled | ToolClosed.

Class RunEnv := {
  (** The run's token and the interruption token, as others cancel them. *)
  cancel_at : nat → bool;
  interrupt_at : nat → bool;
  (** [Runtime]: [now_ms], [timestamp], [id]; and [Instant::now]. *)
  clock_at : nat → Z;
  timestamp_at : nat → string;
  id_at : nat → string → string;
  instant_at : nat → Z;
  (** The event sink; the stream, by the polls of it; one poll after
      cancellation, the hooks, the steering source, the tools with the request
      they may leave, the dispatch guard, the park authority. *)
  append_at : nat → Res CoreError unit;
  next_at : nat → NextReply;
  flush_at : nat → option (Res CoreError ProviderEvent);
  hook_at : nat → HookReply;
  steer_at : nat → SteerReply;
  tool_at : nat → ToolReply * option HumanRequestSpec;
  guard_at : nat → Res CoreError unit;
  park_at : nat → Res CoreError unit;
  (** The steps of others on the shared budget, up to a question to it; the
      failures they report while this run consumes, when the lock keeps their
      consumptions out; the checkpoint. *)
  others_at : nat → list BudgetStep;
  failures_at : nat → list CoreError;
  checkpoint_at : nat → option (Res CoreError unit);
  (** Code outside the repository: the JSON text of values, the two parsers,
      the validators compiled from schemas, the envelope of run events. *)
  stringify : Value → string;
  parse_json : string → Res string Value;
  from_str : string → option Value;
  validate_input : string → Value → list string;
  valid_event : RunEvent → bool
}.

(** ** Options *)

Record RunOptions := mkRunOptions {
  ro_model : string;
  ro_messages : list ChatMessage;
  ro_continuation : option Value;
  ro_run_id : option string;
  ro_first_seq : Z;
  ro_attempt_id : option string;
  ro_max_tool_iterations : Z;
  ro_max_tool_calls_per_iteration : nat;
  ro_default_tool_timeout_ms : option Z;
  ro_limits : ToolLimits;
  ro_event_sink : bool;
  ro_tool_close : bool;
  ro_hook_timeout_ms : option Z;
  ro_hooks : option (string → list nat);
  ro_batch_suspension : bool;
  ro_dispatch_guard : bool;
  ro_suspender : bool;
  ro_interruption : bool;
  ro_steering : bool;
  ro_resume_calls : list ToolCall;
  (** The deadlines of the budget's limits the loop reads. *)
  ro_first_byte_ms : option Z;
  ro_stream_idle_ms : option Z;
  ro_tool_ms : option Z;
  (** The provider and the registry. *)
  ro_tracks_transport_requests : bool;
  ro_supports_usage_cleanup : bool;
  ro_registry : list ToolDefinition
}.

(** ** State *)

(** What the world saw of the run. *)
Inductive Obs :=
  | OEmit (event : RunEvent) (messages : list ChatMessage)
  | ORefused (event : RunEvent) (error : CoreError)
  | ORequest (messages : list ChatMessage) (continuation : option Value)
  | OExecute (call : ToolCall) (args : Value)
  | OHook (context : HookContext) (index : nat)
  | OPark (spec : HumanRequestSpec) (call_id : string)
  (** The run learns that a token of its own is cancelled. *)
  | OCancelled
  | OInterrupted.

Record RunState := mkRunState {
  rs_run_id : string;
  rs_seq : Z;
  rs_messages : list ChatMessage;
  rs_pending : list ChatMessage;
  rs_suspended : bool;
  rs_iteration : Z;
  rs_continuation : option Value;
  rs_applied_steers : list string;
  rs_last_emit_ms : Z;
  (** The shared objects: the two tokens, the budget; the questions asked, the
      polls of the stream; the trace. *)
  rs_cancelled : bool;
  rs_interrupted : bool;
  rs_budget : option ExecutionBudget;
  rs_step : nat;
  rs_polls : nat;
  rs_trace : list Obs
}.
#[export] Instance upd_rs_run_id : Upd rs_run_id := λ v s,
  mkRunState v s.(rs_seq) s.(rs_messages) s.(rs_pending) s.(rs_suspended) s.(rs_iteration)
    s.(rs_continuation) s.(rs_applied_steers) s.(rs_last_emit_ms) s.(rs_cancelled)
    s.(rs_interrupted) s.(rs_budget) s.(rs_step) s.(rs_polls) s.(rs_trace).
#[export] Instance upd_rs_seq : Upd rs_seq := λ v s,
  mkRunState s.(rs_run_id) v s.(rs_messages) s.(rs_pending) s.(rs_suspended) s.(rs_iteration)
    s.(rs_continuation) s.(rs_applied_steers) s.(rs_last_emit_ms) s.(rs_cancelled)
    s.(rs_interrupted) s.(rs_budget) s.(rs_step) s.(rs_polls) s.(rs_trace).
#[export] Instance upd_rs_messages : Upd rs_messages := λ v s,
  mkRunState s.(rs_run_id) s.(rs_seq) v s.(rs_pending) s.(rs_suspended) s.(rs_iteration)
    s.(rs_continuation) s.(rs_applied_steers) s.(rs_last_emit_ms) s.(rs_cancelled)
    s.(rs_interrupted) s.(rs_budget) s.(rs_step) s.(rs_polls) s.(rs_trace).
#[export] Instance upd_rs_pending : Upd rs_pending := λ v s,
  mkRunState s.(rs_run_id) s.(rs_seq) s.(rs_messages) v s.(rs_suspended) s.(rs_iteration)
    s.(rs_continuation) s.(rs_applied_steers) s.(rs_last_emit_ms) s.(rs_cancelled)
    s.(rs_interrupted) s.(rs_budget) s.(rs_step) s.(rs_polls) s.(rs_trace).
#[export] Instance upd_rs_suspended : Upd rs_suspended := λ v s,
  mkRunState s.(rs_run_id) s.(rs_seq) s.(rs_messages) s.(rs_pending) v s.(rs_iteration)
    s.(rs_continuation) s.(rs_applied_steers) s.(rs_last_emit_ms) s.(rs_cancelled)
    s.(rs_interrupted) s.(rs_budget) s.(rs_step) s.(rs_polls) s.(rs_trace).
#[export] Instance upd_rs_iteration : Upd rs_iteration := λ v s,
  mkRunState s.(rs_run_id) s.(rs_seq) s.(rs_messages) s.(rs_pending) s.(rs_suspended) v
    s.(rs_continuation) s.(rs_applied_steers) s.(rs_last_emit_ms) s.(rs_cancelled)
    s.(rs_interrupted) s.(rs_budget) s.(rs_step) s.(rs_polls) s.(rs_trace).
#[export] Instance upd_rs_continuation : Upd rs_continuation := λ v s,
  mkRunState s.(rs_run_id) s.(rs_seq) s.(rs_messages) s.(rs_pending) s.(rs_suspended)
    s.(rs_iteration) v s.(rs_applied_steers) s.(rs_last_emit_ms) s.(rs_cancelled)
    s.(rs_interrupted) s.(rs_budget) s.(rs_step) s.(rs_polls) s.(rs_trace).
#[export] Instance upd_rs_applied_steers : Upd rs_applied_steers := λ v s,
  mkRunState s.(rs_run_id) s.(rs_seq) s.(rs_messages) s.(rs_pending) s.(rs_suspended)
    s.(rs_iteration) s.(rs_continuation) v s.(rs_last_emit_ms) s.(rs_cancelled)
    s.(rs_interrupted) s.(rs_budget) s.(rs_step) s.(rs_polls) s.(rs_trace).
#[export] Instance upd_rs_last_emit_ms : Upd rs_last_emit_ms := λ v s,
  mkRunState s.(rs_run_id) s.(rs_seq) s.(rs_messages) s.(rs_pending) s.(rs_suspended)
    s.(rs_iteration) s.(rs_continuation) s.(rs_applied_steers) v s.(rs_cancelled)
    s.(rs_interrupted) s.(rs_budget) s.(rs_step) s.(rs_polls) s.(rs_trace).
#[export] Instance upd_rs_cancelled : Upd rs_cancelled := λ v s,
  mkRunState s.(rs_run_id) s.(rs_seq) s.(rs_messages) s.(rs_pending) s.(rs_suspended)
    s.(rs_iteration) s.(rs_continuation) s.(rs_applied_steers) s.(rs_last_emit_ms) v
    s.(rs_interrupted) s.(rs_budget) s.(rs_step) s.(rs_polls) s.(rs_trace).
#[export] Instance upd_rs_interrupted : Upd rs_interrupted := λ v s,
  mkRunState s.(rs_run_id) s.(rs_seq) s.(rs_messages) s.(rs_pending) s.(rs_suspended)
    s.(rs_iteration) s.(rs_continuation) s.(rs_applied_steers) s.(rs_last_emit_ms)
    s.(rs_cancelled) v s.(rs_budget) s.(rs_step) s.(rs_polls) s.(rs_trace).
#[export] Instance upd_rs_budget : Upd rs_budget := λ v s,
  mkRunState s.(rs_run_id) s.(rs_seq) s.(rs_messages) s.(rs_pending) s.(rs_suspended)
    s.(rs_iteration) s.(rs_continuation) s.(rs_applied_steers) s.(rs_last_emit_ms)
    s.(rs_cancelled) s.(rs_interrupted) v s.(rs_step) s.(rs_polls) s.(rs_trace).
#[export] Instance upd_rs_step : Upd rs_step := λ v s,
  mkRunState s.(rs_run_id) s.(rs_seq) s.(rs_messages) s.(rs_pending) s.(rs_suspended)
    s.(rs_iteration) s.(rs_continuation) s.(rs_applied_steers) s.(rs_last_emit_ms)
    s.(rs_cancelled) s.(rs_interrupted) s.(rs_budget) v s.(rs_polls) s.(rs_trace).
#[export] Instance upd_rs_polls : Upd rs_polls := λ v s,
  mkRunState s.(rs_run_id) s.(rs_seq) s.(rs_messages) s.(rs_pending) s.(rs_suspended)
    s.(rs_iteration) s.(rs_continuation) s.(rs_applied_steers) s.(rs_last_emit_ms)
    s.(rs_cancelled) s.(rs_interrupted) s.(rs_budget) s.(rs_step) v s.(rs_trace).
#[export] Instance upd_rs_trace : Upd rs_trace := λ v s,
  mkRunState s.(rs_run_id) s.(rs_seq) s.(rs_messages) s.(rs_pending) s.(rs_suspended)
    s.(rs_iteration) s.(rs_continuation) s.(rs_applied_steers) s.(rs_last_emit_ms)
    s.(rs_cancelled) s.(rs_interrupted) s.(rs_budget) s.(rs_step) s.(rs_polls) v.

(** ** Computations of a run

    A computation ends with a value or an error, may still be waiting when its
    fuel is spent or the answer it waits for never comes, and can panic. *)
Inductive Outcome (A : Type) := Done (r : Res CoreError A) | Waiting | Panicked.
Arguments Done {A} r.
Arguments Waiting {A}.
Arguments Panicked {A}.

Definition RM (A : Type) : Type := RunState → Outcome A * RunState.

#[export] Instance rm_ret : MRet RM := λ A a s, (Done (Ok a), s).
#[export] Instance rm_bind : MBind RM := λ A B f m s,
  match m s with
  | (Done (Ok a), s) => f a s
  | (Done (Err e), s) => (Done (Err e), s)
  | (Waiting, s) => (Waiting, s)
  | (Panicked, s) => (Panicked, s)
  end.

Definition rget {A} (f : RunState → A) : RM A := λ s, (Done (Ok (f s)), s).
Definition rmodify (f : RunState → RunState) : RM unit := λ s, (Done (Ok tt), f s).
Definition rlift {A} (r : Res CoreError A) : RM A := λ s, (Done r, s).
Definition rthrow {A} (e : CoreError) : RM A := rlift (Err e).
Definition waiting {A} : RM A := λ s, (Waiting, s).
Definition panic {A} : RM A := λ s, (Panicked, s).
(** The result of a computation, errors included. *)
Definition attempt {A} (m : RM A) : RM (Res CoreError A) := λ s,
  match m s with
  | (Done r, s) => (Done (Ok r), s)
  | (Waiting, s) => (Waiting, s)
  | (Panicked, s) => (Panicked, s)
  end.
(** One question to the world. *)
Definition ask {A} (f : nat → A) : RM A := λ s, (Done (Ok (f s.(rs_step))), s <| rs_step := S s.(rs_step) |>).
Definition poll {A} (f : nat → A) : RM A := λ s, (Done (Ok (f s.(rs_polls))), s <| rs_polls := S s.(rs_polls) |>).
Definition record (o : Obs) : RM unit := rmodify (λ s, s <| rs_trace := s.(rs_trace) ++ [o] |>).

Definition when_ (b : bool) (m : RM unit) : RM unit := if b then m else mret tt.
Fixpoint each {A} (f : A → RM unit) (l : list A) : RM unit :=
  match l with [] => mret tt | a :: l => _ ← f a; each f l end.
