(* ===== verification/ToolExec.v ===== *)
(** * Running one tool call

    [core/src/tool_execution.rs]: what stands between the model's call and
    the tool's body (registration, arguments, schema, budget, dispatch guard,
    cancellation), the deadlines the body runs under, and the outcome reported
    of it; with the tokens and the budget every part of a run asks. *)

From stdpp Require Import pretty.
From S2P Require Export RunModel.
Local Open Scope Z_scope.

Section exec.
Context {env : RunEnv} (o : RunOptions).

(** ** Tokens and clock *)

(** A token stays cancelled. *)
Definition mark_cancelled (s : RunState) : RunState :=
  if s.(rs_cancelled) then s
  else s <| rs_cancelled := true |> <| rs_trace := s.(rs_trace) ++ [OCancelled] |>.
Definition mark_interrupted (s : RunState) : RunState :=
  if s.(rs_interrupted) then s
  else s <| rs_interrupted := true |> <| rs_trace := s.(rs_trace) ++ [OInterrupted] |>.

Definition cancel : RM unit := rmodify mark_cancelled.
Definition is_cancelled : RM bool :=
  c ← ask cancel_at; _ ← when_ c cancel; rget rs_cancelled.
Definition interrupted : RM bool :=
  i ← (if o.(ro_interruption) then ask interrupt_at else mret false);
  _ ← when_ i (rmodify mark_interrupted); rget rs_interrupted.
Definition now_ms : RM Z := ask clock_at.

Definition cancelled_error : CoreError := core_error "cancelled" "aborted".
Definition no_result_error : CoreError :=
  core_error "cancelled" "Run cancelled before this tool produced a result.".

(** ** The shared budget *)

Definition others_act : RM unit :=
  steps ← ask others_at;
  rmodify (λ s, s <| rs_budget := shared steps <$> s.(rs_budget) |>).
Definition budget_check : RM unit :=
  _ ← others_act; now ← now_ms; b ← rget rs_budget;
  match b with Some b => rlift (check_budget b now) | None => mret tt end.
Definition budget_consume (counter : string) : RM unit :=
  _ ← others_act; b ← rget rs_budget;
  match b with
  | None => mret tt
  | Some b =>
      check_at ← now_ms; before_reserve ← ask failures_at; before_checkpoint ← ask failures_at;
      checkpoint ← ask checkpoint_at; before_return ← ask failures_at; return_at ← now_ms;
      let '(r, b) := consume (mkConsume counter check_at before_reserve before_checkpoint checkpoint
                                before_return return_at) b in
      _ ← rmodify (λ s, s <| rs_budget := Some b |>); rlift r
  end.
Definition budget_remaining : RM (option Z) :=
  now ← now_ms; b ← rget rs_budget; mret (b ≫= λ b, remaining_ms b now).
Definition budget_fail (e : CoreError) : RM unit :=
  rmodify (λ s, s <| rs_budget := fail_budget e <$> s.(rs_budget) |>).

(** ** Outcomes *)

(** The two kinds an outcome is reported as. *)
Inductive OutcomeKind := ToolSucceeded | ToolFailed.
Definition kind_text (k : OutcomeKind) : string :=
  match k with ToolSucceeded => "run.tool.succeeded" | ToolFailed => "run.tool.failed" end.

Record ToolOutcome := mkOutcome { to_kind : OutcomeKind; to_data : Value; to_model_json : string }.

Definition failed (call : ToolCall) (error : CoreError) (max : Z) (detail : Value) : ToolOutcome :=
  let message := (truncate error.(ce_message) (text_budget max)).1 in
  mkOutcome ToolFailed
    (VObj [("toolCallId", VStr call.(tc_id)); ("toolName", VStr call.(tc_name));
           ("errorMessage", VStr message); ("errorCode", VStr error.(ce_code))])
    (stringify (error_envelope error.(ce_code) message detail)).

Definition guard_detail : Value := VObj [("phase", VStr "guard"); ("retryable", VBool false)].
Definition validation_detail : Value := VObj [("phase", VStr "validation"); ("retryable", VBool false)].
Definition execution_detail (retryable : bool) : Value :=
  VObj [("phase", VStr "execution"); ("retryable", VBool retryable)].

Definition kept_code (code : string) : bool :=
  mem_str code ["cancelled"; "result_unserializable"; "execution_timeout"; "execution_budget_exhausted"].

Definition join_with (sep : string) (l : list string) : string := String.concat sep l.

Definition outcome (call : ToolCall) (result : Res CoreError ToolResult) : ToolOutcome :=
  let max := o.(ro_limits).(tl_max_bytes) in
  match result with
  | Err error =>
      let code := if kept_code error.(ce_code) then error.(ce_code) else "exec_failed" in
      failed call (mkCoreError code error.(ce_message) error.(ce_retryable)) max
        (execution_detail error.(ce_retryable))
  | Ok result =>
      let model := build stringify result o.(ro_limits) in
      let model_json := stringify model in
      let data := VObj [("toolCallId", VStr call.(tc_id)); ("toolName", VStr call.(tc_name));
                        ("modelResultJson", VStr model_json); ("status", vindex model "status")] in
      let data :=
        if result.(tr_ok) then
          let data := vset "resultJson" (VStr (stringify (default VNull result.(tr_data)))) data in
          let data := vset "sources" (VArr result.(tr_sources)) data in
          let data := vset "truncated" (vindex model "truncated") data in
          let data := vset "warnings" (VArr (map VStr result.(tr_warnings))) data in
          match result.(tr_summary) with Some s => vset "summary" (VStr s) data | None => data end
        else
          let message := match result.(tr_summary) with
                         | Some s => s
                         | None => match result.(tr_warnings) with
                                   | [] => "Tool " +:+ call.(tc_name) +:+ " reported failure"
                                   | ws => join_with "; " ws
                                   end
                         end in
          vset "errorCode" (VStr "tool_failed")
            (vset "errorMessage" (VStr (truncate message (text_budget max)).1) data) in
      mkOutcome (if result.(tr_ok) then ToolSucceeded else ToolFailed) data model_json
  end.

(** ** Execution *)

Definition get_tool (name : string) : option ToolDefinition :=
  find_by (λ t, bool_decide (t.(td_name) = name)) o.(ro_registry).

Definition exec_timed_out (name : string) (ms : Z) : CoreError :=
  core_error "exec_failed" ("Tool " +:+ name +:+ " timed out after " +:+ pretty ms +:+ "ms").

(** The body and its deadlines.  Without a budget a host that can close its
    tools waits for the body past cancellation. *)
Definition run_tool (tool : ToolDefinition) (call : ToolCall) (args : Value)
    : RM (ToolOutcome * option HumanRequestSpec) :=
  let declared := opt_or (opt_filter (λ ms, 0 <? ms) tool.(td_timeout_ms)) o.(ro_default_tool_timeout_ms) in
  b ← rget rs_budget;
  let budget_limit := match b with
                      | Some _ => remaining ← budget_remaining; mret (minimum o.(ro_tool_ms) remaining)
                      | None => mret None
                      end in
  budget_deadline ← budget_limit;
  within_budget ← budget_limit;
  let deadline := minimum declared within_budget in
  let unbudgeted := negb (is_some b) && o.(ro_tool_close) in
  _ ← record (OExecute call args);
  '(reply, slot) ← ask tool_at;
  result ← match reply with
    | ToolReturned r => mret r
    | ToolExpired =>
        match deadline with
        | None => waiting
        | Some ms =>
            if negb unbudgeted && is_some_and budget_deadline (λ limit, limit <=? ms) then
              remaining ← budget_remaining;
              let error := timeout_error (if bool_decide (remaining = Some 0) then "overall" else "tool") in
              _ ← budget_fail error; mret (Err error)
            else mret (Err (exec_timed_out call.(tc_name) ms))
        end
    | ToolCancelled => if unbudgeted then waiting else _ ← cancel; mret (Err no_result_error)
    | ToolClosed => if o.(ro_tool_close) then mret (Err no_result_error) else waiting
    end;
  mret (outcome call result, slot).

Definition schema_message (name : string) (errors : list string) : string :=
  "Invalid arguments for " +:+ name +:+ ": " +:+ join_with "; " errors
    +:+ ". Fix the arguments and call again.".

Definition execute (call : ToolCall) : RM (ToolOutcome * option HumanRequestSpec) :=
  let max := o.(ro_limits).(tl_max_bytes) in
  let fail (e : CoreError) := mret (failed call e max (VObj []), None) in
  match get_tool call.(tc_name) with
  | None => fail (core_error "tool_missing" ("Tool not registered: " +:+ call.(tc_name)))
  | Some tool =>
      match parse_json call.(tc_arguments_json) with
      | Err text => fail (core_error "bad_args" ("Invalid arguments JSON: " +:+ text))
      | Ok args =>
          match validate_input call.(tc_name) args with
          | (_ :: _) as errors =>
              mret (failed call (core_error "schema_invalid" (schema_message call.(tc_name) errors)) max
                      validation_detail, None)
          | [] =>
              consumed ← attempt (budget_consume "toolCalls");
              match consumed with
              | Err e => fail e
              | Ok _ =>
                  guarded ← (if o.(ro_dispatch_guard) then ask guard_at else mret (Ok tt));
                  match guarded with
                  | Err e => _ ← cancel; fail e
                  | Ok _ =>
                      checked ← attempt budget_check;
                      match checked with
                      | Err e => fail e
                      | Ok _ =>
                          c ← is_cancelled;
                          if c : bool then fail no_result_error else run_tool tool call args
                      end
                  end
              end
          end
      end
  end.
End exec.
