(* ===== verification/RunLoop.v ===== *)
(** * The run loop

    [core/src/run.rs] with [run_hooks.rs] and [run_cleanup.rs]: a run asks the
    provider, runs the tools its answer calls, and asks again with their
    results, until an answer calls none.  Everything it does is announced as a
    numbered event, and the messages it adds travel with the events. *)

From stdpp Require Import pretty.
From S2P Require Export ToolExec.
Local Open Scope Z_scope.

(** What one response of the provider has said so far. *)
Record Turn := mkTurn {
  tu_delta : string;
  tu_completed : bool;
  tu_content : option string;
  tu_calls : list ToolCall;
  tu_requested : list ToolCall;
  tu_announced : list string;
  tu_finish : string;
  tu_saw_no_tool_warning : bool;
  tu_preparing : list (string * (Z * Z));
  tu_phase : option string;
  tu_reported_phase : option string
}.
#[export] Instance upd_tu_delta : Upd tu_delta := λ v t,
  mkTurn v t.(tu_completed) t.(tu_content) t.(tu_calls) t.(tu_requested) t.(tu_announced)
    t.(tu_finish) t.(tu_saw_no_tool_warning) t.(tu_preparing) t.(tu_phase) t.(tu_reported_phase).
#[export] Instance upd_tu_completed : Upd tu_completed := λ v t,
  mkTurn t.(tu_delta) v t.(tu_content) t.(tu_calls) t.(tu_requested) t.(tu_announced)
    t.(tu_finish) t.(tu_saw_no_tool_warning) t.(tu_preparing) t.(tu_phase) t.(tu_reported_phase).
#[export] Instance upd_tu_content : Upd tu_content := λ v t,
  mkTurn t.(tu_delta) t.(tu_completed) v t.(tu_calls) t.(tu_requested) t.(tu_announced)
    t.(tu_finish) t.(tu_saw_no_tool_warning) t.(tu_preparing) t.(tu_phase) t.(tu_reported_phase).
#[export] Instance upd_tu_calls : Upd tu_calls := λ v t,
  mkTurn t.(tu_delta) t.(tu_completed) t.(tu_content) v t.(tu_requested) t.(tu_announced)
    t.(tu_finish) t.(tu_saw_no_tool_warning) t.(tu_preparing) t.(tu_phase) t.(tu_reported_phase).
#[export] Instance upd_tu_requested : Upd tu_requested := λ v t,
  mkTurn t.(tu_delta) t.(tu_completed) t.(tu_content) t.(tu_calls) v t.(tu_announced)
    t.(tu_finish) t.(tu_saw_no_tool_warning) t.(tu_preparing) t.(tu_phase) t.(tu_reported_phase).
#[export] Instance upd_tu_announced : Upd tu_announced := λ v t,
  mkTurn t.(tu_delta) t.(tu_completed) t.(tu_content) t.(tu_calls) t.(tu_requested) v
    t.(tu_finish) t.(tu_saw_no_tool_warning) t.(tu_preparing) t.(tu_phase) t.(tu_reported_phase).
#[export] Instance upd_tu_finish : Upd tu_finish := λ v t,
  mkTurn t.(tu_delta) t.(tu_completed) t.(tu_content) t.(tu_calls) t.(tu_requested)
    t.(tu_announced) v t.(tu_saw_no_tool_warning) t.(tu_preparing) t.(tu_phase)
    t.(tu_reported_phase).
#[export] Instance upd_tu_saw_no_tool_warning : Upd tu_saw_no_tool_warning := λ v t,
  mkTurn t.(tu_delta) t.(tu_completed) t.(tu_content) t.(tu_calls) t.(tu_requested)
    t.(tu_announced) t.(tu_finish) v t.(tu_preparing) t.(tu_phase) t.(tu_reported_phase).
#[export] Instance upd_tu_preparing : Upd tu_preparing := λ v t,
  mkTurn t.(tu_delta) t.(tu_completed) t.(tu_content) t.(tu_calls) t.(tu_requested)
    t.(tu_announced) t.(tu_finish) t.(tu_saw_no_tool_warning) v t.(tu_phase)
    t.(tu_reported_phase).
#[export] Instance upd_tu_phase : Upd tu_phase := λ v t,
  mkTurn t.(tu_delta) t.(tu_completed) t.(tu_content) t.(tu_calls) t.(tu_requested)
    t.(tu_announced) t.(tu_finish) t.(tu_saw_no_tool_warning) t.(tu_preparing) v
    t.(tu_reported_phase).
#[export] Instance upd_tu_reported_phase : Upd tu_reported_phase := λ v t,
  mkTurn t.(tu_delta) t.(tu_completed) t.(tu_content) t.(tu_calls) t.(tu_requested)
    t.(tu_announced) t.(tu_finish) t.(tu_saw_no_tool_warning) t.(tu_preparing) t.(tu_phase) v.

Definition new_turn : Turn := mkTurn "" false None [] [] [] "" false [] None None.

Inductive Terminal := RunCompleted | RunFailed | RunCancelled.

Record RunResult := mkRunResult {
  rr_run_id : string;
  rr_terminal : Terminal;
  rr_appended_messages : list ChatMessage;
  rr_iterations : Z;
  rr_continuation : option Value;
  rr_suspended : bool
}.

Definition preparing_interval_ms : Z := 2000.
Definition progress_interval_ms : Z := 5000.

(** [json!] of the strings, options and calls an event carries. *)
Definition ostr_value (s : option string) : Value := match s with Some s => VStr s | None => VNull end.
Definition call_value (c : ToolCall) : Value :=
  VObj [("id", VStr c.(tc_id)); ("name", VStr c.(tc_name)); ("argumentsJson", VStr c.(tc_arguments_json))].

(** [serde_json::from_value] of the calls of an external event: objects or
    triples; anything else is no calls. *)
Definition parse_call (v : Value) : option ToolCall :=
  match v with
  | VObj _ => id ← vget v "id" ≫= as_str; name ← vget v "name" ≫= as_str;
              args ← vget v "argumentsJson" ≫= as_str; Some (mkToolCall id name args)
  | VArr [VStr id; VStr name; VStr args] => Some (mkToolCall id name args)
  | _ => None
  end.
Definition parse_calls (v : Value) : list ToolCall :=
  match v with VArr l => default [] (mapM parse_call l) | _ => [] end.

Section loop.
Context {env : RunEnv} (o : RunOptions).

(** ** Events *)

(** The sink takes the event with the messages not yet handed over; a refused
    event costs the run its token. *)
Definition emit (kind : string) (data : Value) : RM unit :=
  run_id ← rget rs_run_id; timestamp ← ask timestamp_at; id ← ask id_at; seq ← rget rs_seq;
  let event := mkRunEvent kind run_id timestamp (id "evt_") seq data o.(ro_attempt_id) in
  if negb (valid_event event) then rthrow (core_error "provider_error" "Invalid provider event")
  else
    pending ← rget rs_pending;
    accepted ← (if o.(ro_event_sink) then ask append_at else mret (Ok tt));
    match accepted with
    | Err e => _ ← record (ORefused event e); _ ← cancel; rthrow e
    | Ok _ =>
        _ ← record (OEmit event pending);
        _ ← rmodify (λ s, s <| rs_seq := seq + 1 |> <| rs_pending := [] |>);
        now ← now_ms; rmodify (λ s, s <| rs_last_emit_ms := now |>)
    end.

Definition warning (code message : string) : RM unit :=
  emit "run.warning" (VObj [("code", VStr code); ("message", VStr message)]).

Definition push_message (m : ChatMessage) : RM unit :=
  rmodify (λ s, s <| rs_messages := s.(rs_messages) ++ [m] |>).
(** A message the next event hands to the sink. *)
Definition push_pending (m : ChatMessage) : RM unit :=
  _ ← rmodify (λ s, s <| rs_pending := s.(rs_pending) ++ [m] |>); push_message m.

Definition check : RM unit :=
  _ ← budget_check; c ← is_cancelled; if c : bool then rthrow cancelled_error else mret tt.

(** ** Steering *)

Definition apply_steer (step : Z) (item : SteeringItem) : RM unit :=
  applied ← rget rs_applied_steers;
  if mem_str item.(si_input_id) applied then mret tt
  else if negb (bool_decide (item.(si_message).(cm_role) = "user")) then
    warning "steering_rejected" ("Steering input " +:+ item.(si_input_id) +:+ " rejected: only role "
      +:+ debug_str "user" +:+ " may steer.")
  else
    _ ← rmodify (λ s, s <| rs_applied_steers := item.(si_input_id) :: s.(rs_applied_steers) |>);
    _ ← emit "run.input.applied" (VObj [("inputId", VStr item.(si_input_id)); ("kind", VStr "steer");
                                       ("step", int_value step)]);
    push_message item.(si_message).

Definition apply_steering (step : Z) : RM unit :=
  if negb o.(ro_steering) then mret tt
  else
    reply ← ask steer_at;
    match reply with
    | SteerCancelled => cancel
    | SteerExpired =>
        if default 5000 o.(ro_hook_timeout_ms) =? 0 then waiting
        else warning "hook_timeout" "Steering source timed out; no steering applied this step."
    | SteerFailed => warning "hook_failed" "Steering source threw; no steering applied this step."
    | SteerItems items => each (apply_steer step) items
    end.

(** ** Hooks *)

Inductive HookOutcome := HoValue (v : Value) | HoFailed | HoTimedOut | HoAborted.

Definition invoke_hook (index : nat) (context : HookContext) : RM HookOutcome :=
  let per_hook := default 5000 o.(ro_hook_timeout_ms) in
  overall ← budget_remaining;
  let wait := if per_hook =? 0 then overall else minimum (Some per_hook) overall in
  _ ← record (OHook context index);
  reply ← ask hook_at;
  match reply with
  | HookCancelled => _ ← cancel; mret HoAborted
  | HookFailed => mret HoFailed
  | HookValue v => mret (HoValue v)
  | HookExpired =>
      match wait with
      | None => waiting
      | Some _ =>
          remaining ← budget_remaining;
          if bool_decide (remaining = Some 0) then
            _ ← budget_fail (timeout_error "overall"); _ ← cancel; mret HoAborted
          else mret HoTimedOut
      end
  end.

Definition hook_indexes (name : string) : list nat :=
  match o.(ro_hooks) with Some indexes => indexes name | None => [] end.

Definition observe (context : HookContext) : RM unit :=
  let name := hook_name context in
  each (λ index,
    outcome ← invoke_hook index context;
    let report code detail :=
      warning code ("Loop hook " +:+ name +:+ "[" +:+ pretty (N.of_nat index) +:+ "] " +:+ detail
                      +:+ "; the run continued without it.") in
    match outcome with
    | HoFailed => report "hook_failed" "threw"
    | HoTimedOut => report "hook_timeout" "timed out"
    | _ => mret tt
    end) (hook_indexes name).

Definition gate_sentence : string := "A loop hook could not authorize this tool call.".

(** The verdict of one gate: pass, or the refusal. *)
Definition gate_verdict (envelope : Value) : option string :=
  match vget envelope "defined" with
  | Some (VBool false) => None
  | Some (VBool true) =>
      let decision := vindex envelope "value" in
      if str_is (vindex decision "action") "allow" then None
      else if str_is (vindex decision "action") "deny" then
        Some (default gate_sentence (as_str (vindex decision "reason")))
      else Some gate_sentence
  | _ => Some gate_sentence
  end.

Fixpoint run_gates (context : HookContext) (indexes : list nat) : RM (option string) :=
  match indexes with
  | [] => mret None
  | index :: indexes =>
      outcome ← invoke_hook index context;
      match outcome with
      | HoAborted => mret None
      | HoValue envelope =>
          match gate_verdict envelope with
          | None => run_gates context indexes
          | Some refusal => mret (Some refusal)
          end
      | _ => mret (Some gate_sentence)
      end
  end.

Definition tool_gate (call : ToolCall) : RM (option string) :=
  match get_tool o call.(tc_name), parse_json call.(tc_arguments_json) with
  | Some _, Ok args =>
      match validate_input call.(tc_name) args with
      | [] => iteration ← rget rs_iteration;
              run_gates (BeforeToolCall iteration call args) (hook_indexes "beforeToolCall")
      | _ => mret None
      end
  | _, _ => mret None
  end.

(** ** Suspension *)

Definition carried_keys : list string :=
  ["kind"; "argsSha256"; "approvalGeneration"; "contextSha256"; "requestedMode"; "standing"].

Definition park_suspension (spec : HumanRequestSpec) (call : ToolCall) : RM unit :=
  iteration ← rget rs_iteration;
  let data := VObj [("requestId", VStr spec.(hr_request_id)); ("toolCallId", VStr call.(tc_id));
                    ("toolName", VStr call.(tc_name)); ("step", int_value iteration);
                    ("prompt", VStr (default "" (vget spec.(hr_content) "prompt" ≫= as_str)))] in
  let data := foldl (λ d key, match vget spec.(hr_content) key with Some v => vset key v d | None => d end)
                data carried_keys in
  let data := match spec.(hr_expires_at) with Some e => vset "expiresAt" (VStr e) data | None => data end in
  _ ← emit "run.waiting" data;
  if negb o.(ro_suspender) then
    rthrow (core_error "suspension_unavailable"
      "This host cannot park runs for human input; the request was refused.")
  else
    _ ← record (OPark spec call.(tc_id));
    parked ← ask park_at;
    _ ← rlift parked;
    rmodify (λ s, s <| rs_suspended := true |>).

Definition no_result (call : ToolCall) : ToolOutcome :=
  failed call no_result_error o.(ro_limits).(tl_max_bytes) (VObj []).

Definition cancel_suspended (call : ToolCall) : RM unit :=
  let outcome := no_result call in
  _ ← push_pending (tool_message call outcome.(to_model_json));
  emit (kind_text outcome.(to_kind)) outcome.(to_data).

(** ** A batch of tool calls *)

Record Batch := mkBatch {
  ba_cancelled : bool;
  ba_budget_error : option CoreError;
  ba_held : option (HumanRequestSpec * ToolCall)
}.

(** Go on with the next call, or leave the batch at once. *)
Inductive Flow := Next (b : Batch) | Stop.

(** The outcome of a call, whether its body ran, and the batch after it. *)
Inductive CallEnd := Answered (outcome : ToolOutcome) (executed : bool) (b : Batch) | Held (b : Batch) | Left.

Definition blank (s : string) : bool := bool_decide (trim (lit s) = []).

(** A call that is announced: gated, run, and perhaps held for a human. *)
Definition start_call (call : ToolCall) (b : Batch) : RM CallEnd :=
  let max := o.(ro_limits).(tl_max_bytes) in
  _ ← emit "run.tool.running" (VObj [("toolCallId", VStr call.(tc_id)); ("toolName", VStr call.(tc_name))]);
  gate ← (if is_some o.(ro_hooks) then tool_gate call else mret None);
  c ← is_cancelled;
  let b := mkBatch (b.(ba_cancelled) || c) b.(ba_budget_error) b.(ba_held) in
  '(outcome, slot, executed) ←
    (if b.(ba_cancelled) then mret (no_result call, None, false)
     else match gate with
          | Some message =>
              mret (failed call (core_error "tool_hook_denied" message) max guard_detail, None, false)
          | None => '(outcome, slot) ← execute o call; mret (outcome, slot, true)
          end);
  match slot with
  | None => mret (Answered outcome executed b)
  | Some spec =>
      if o.(ro_batch_suspension) then
        if blank (default "" (as_str (vindex spec.(hr_content) "prompt"))) then
          mret (Answered (failed call (core_error "suspend_invalid"
            "suspend() needs a non-empty prompt for the human.") max (execution_detail false)) executed b)
        else match b.(ba_held) with
             | Some _ =>
                 mret (Answered (failed call (core_error "suspend_conflict"
                   "Another tool call in this step is already waiting for human input.") max
                   (execution_detail false)) executed b)
             | None => mret (Held (mkBatch b.(ba_cancelled) b.(ba_budget_error) (Some (spec, call))))
             end
      else _ ← park_suspension spec call; mret Left
  end.

Definition decide_outcome (cap index : nat) (call : ToolCall) (b : Batch) : RM CallEnd :=
  let max := o.(ro_limits).(tl_max_bytes) in
  c ← is_cancelled;
  if c || b.(ba_cancelled) then
    mret (Answered (no_result call) false (mkBatch true b.(ba_budget_error) b.(ba_held)))
  else match b.(ba_budget_error) with
       | Some e => mret (Answered (failed call e max (VObj [])) false b)
       | None =>
           if Nat.leb cap index then
             mret (Answered (failed call (core_error "tool_call_cap"
               ("Skipped: exceeded maxToolCallsPerIteration=" +:+ pretty (N.of_nat cap) +:+ ".")) max
               (VObj [])) false b)
           else start_call call b
       end.

(** The budget error an outcome carries. *)
Definition outcome_budget_error (outcome : ToolOutcome) : option CoreError :=
  match as_str (vindex outcome.(to_data) "errorCode") with
  | Some code =>
      if mem_str code ["execution_budget_exhausted"; "execution_timeout"] then
        Some (core_error code (default "Execution failed" (as_str (vindex outcome.(to_data) "errorMessage"))))
      else None
  | None => None
  end.

(** The reconciled stand-in for the result that has arrived. *)
Definition superseded (call : ToolCall) (m : ChatMessage) : bool :=
  bool_decide (m.(cm_role) = "tool") && bool_decide (m.(cm_tool_call_id) = Some call.(tc_id))
    && is_synthetic_missing from_str m.

Definition answer_call (call : ToolCall) (outcome : ToolOutcome) : RM unit :=
  _ ← rmodify (λ s, s <| rs_messages := filter_by (λ m, negb (superseded call m)) s.(rs_messages) |>);
  _ ← push_pending (tool_message call outcome.(to_model_json));
  emit (kind_text outcome.(to_kind)) outcome.(to_data).

(** A run cancelled while a call is held answers that call. *)
Definition release_held (b : Batch) : RM Batch :=
  c ← (if o.(ro_batch_suspension) then is_cancelled else mret false);
  match b.(ba_held) with
  | Some (_, held) =>
      if c : bool then _ ← cancel_suspended held; mret (mkBatch b.(ba_cancelled) b.(ba_budget_error) None)
      else mret b
  | None => mret b
  end.

Definition conclude_call (call : ToolCall) (outcome : ToolOutcome) (executed : bool) (b : Batch) : RM Flow :=
  stop ← (if executed then mret false else interrupted o);
  if stop : bool then mret Stop
  else
    checked ← attempt budget_check;
    let error := match checked with
                 | Err e => Some e
                 | Ok _ => opt_or (outcome_budget_error outcome) b.(ba_budget_error)
                 end in
    let b := mkBatch b.(ba_cancelled) error b.(ba_held) in
    _ ← answer_call call outcome;
    iteration ← rget rs_iteration;
    _ ← when_ (negb b.(ba_cancelled) && is_some o.(ro_hooks))
          (observe (OnToolResult iteration call
             match outcome.(to_kind) with ToolSucceeded => "succeeded" | ToolFailed => "failed" end
             (vget outcome.(to_data) "errorCode")));
    stop ← (if executed then interrupted o else mret false);
    if stop : bool then mret Stop else mret (Next b).

Definition run_call (cap index : nat) (call : ToolCall) (b : Batch) : RM Flow :=
  b ← release_held b;
  ended ← decide_outcome cap index call b;
  match ended with
  | Left => mret Stop
  | Held b => mret (Next b)
  | Answered outcome executed b => conclude_call call outcome executed b
  end.

Fixpoint run_calls (cap index : nat) (calls : list ToolCall) (b : Batch) : RM Flow :=
  match calls with
  | [] => mret (Next b)
  | call :: calls =>
      flow ← run_call cap index call b;
      match flow with
      | Next b => run_calls cap (S index) calls b
      | Stop => mret Stop
      end
  end.

Definition announce (announced : list string) (call : ToolCall) : RM unit :=
  if mem_str call.(tc_id) announced then mret tt
  else emit "run.tool.requested"
         (VObj [("toolCallId", VStr call.(tc_id)); ("toolName", VStr call.(tc_name));
                ("argumentsJson", VStr call.(tc_arguments_json))]).

Definition close_batch (b : Batch) : RM unit :=
  let rest := match b.(ba_budget_error) with Some e => rthrow e | None => check end in
  match b.(ba_held) with
  | None => rest
  | Some (spec, call) =>
      c ← is_cancelled;
      if c : bool then _ ← cancel_suspended call; rest else park_suspension spec call
  end.

Definition tools (announced : list string) (content : string) (calls : list ToolCall) (cap : nat)
    (push_assistant : bool) : RM unit :=
  _ ← when_ push_assistant (each (announce announced) calls);
  _ ← when_ (Nat.ltb cap (length calls))
        (warning "tool_call_cap" ("Truncated " +:+ pretty (N.of_nat (length calls)) +:+ " tool calls to "
           +:+ pretty (N.of_nat cap) +:+ " per iteration."));
  _ ← when_ push_assistant (push_pending (assistant_message content calls));
  flow ← run_calls cap 0 calls (mkBatch false None None);
  match flow with Stop => mret tt | Next b => close_batch b end.

(** ** The provider's stream *)

Definition lookup_preparing (id : string) (l : list (string * (Z * Z))) : option (Z * Z) :=
  snd <$> find_by (λ e, bool_decide (e.1 = id)) l.

Definition tool_preparing (turn : Turn) (id name : string) (args_bytes : Z) : RM Turn :=
  let turn := turn <| tu_phase := Some "tool_args" |> in
  if bool_decide (id = "") || bool_decide (name = "") || mem_str id turn.(tu_announced) then mret turn
  else
    now ← now_ms;
    if is_some_and (lookup_preparing id turn.(tu_preparing))
         (λ p, (args_bytes <=? p.2) || (saturating_sub_u64 now p.1 <? preparing_interval_ms)) then mret turn
    else
      let turn := turn <| tu_preparing := (id, (now, args_bytes)) :: turn.(tu_preparing) |> in
      iteration ← rget rs_iteration;
      _ ← emit "run.tool.preparing" (VObj [("toolCallId", VStr id); ("toolName", VStr name);
                                          ("argsBytes", int_value args_bytes); ("step", int_value iteration)]);
      mret turn.

Definition progress (turn : Turn) : RM Turn :=
  match turn.(tu_phase) with
  | None => mret turn
  | Some phase =>
      now ← now_ms; last ← rget rs_last_emit_ms;
      let quiet := progress_interval_ms <=? saturating_sub_u64 now last in
      if bool_decide (turn.(tu_reported_phase) = Some phase) && negb quiet then mret turn
      else
        iteration ← rget rs_iteration;
        _ ← emit "run.progress" (VObj [("phase", VStr phase); ("step", int_value iteration)]);
        mret (turn <| tu_reported_phase := Some phase |>)
  end.

(** [data["step"] = iteration]: only an object or null can be indexed so. *)
Definition emit_usage (data : Value) : RM unit :=
  iteration ← rget rs_iteration;
  match data with
  | VObj d => emit "run.usage" (VObj (obj_insert "step" (int_value iteration) d))
  | VNull => emit "run.usage" (VObj [("step", int_value iteration)])
  | _ => panic
  end.

Definition provider_event (turn : Turn) (event : ProviderEvent) : RM Turn :=
  iteration ← rget rs_iteration;
  match event with
  | Started =>
      _ ← when_ (iteration =? 1)
            (emit "run.started" (VObj [("model", VStr o.(ro_model));
                                       ("toolCount", int_value (Z.of_nat (length o.(ro_registry))))]));
      mret turn
  | Delta delta =>
      _ ← emit "run.message.delta" (VObj [("delta", VStr delta)]);
      mret (turn <| tu_phase := Some "generating" |> <| tu_delta := turn.(tu_delta) +:+ delta |>)
  | Completed content calls finish =>
      _ ← emit "run.message.completed"
            (VObj [("content", VStr content); ("toolCallCount", int_value (Z.of_nat (length calls)));
                   ("toolCalls", VArr (map call_value calls)); ("finishReason", VStr finish)]);
      mret (turn <| tu_completed := true |> <| tu_content := Some content |> <| tu_calls := calls |>
              <| tu_finish := finish |>)
  | ToolRequested call =>
      _ ← emit "run.tool.requested"
            (VObj [("toolCallId", VStr call.(tc_id)); ("toolName", VStr call.(tc_name));
                   ("argumentsJson", VStr call.(tc_arguments_json))]);
      mret (turn <| tu_announced := call.(tc_id) :: turn.(tu_announced) |>
              <| tu_requested := turn.(tu_requested) ++ [call] |>)
  | Warning code message =>
      let turn := if bool_decide (code = "tool_call_unparseable")
                  then turn <| tu_saw_no_tool_warning := true |> else turn in
      _ ← when_ (negb (mem_str code ["multimodal_flattened"; "tool_schema_unsupported"]) || (iteration =? 1))
            (warning code message);
      mret turn
  | Usage data => _ ← emit_usage data; mret turn
  | Continuation state => _ ← rmodify (λ s, s <| rs_continuation := Some state |>); mret turn
  | Activity => progress turn
  | ToolCallProgress id name args_bytes => tool_preparing turn id name args_bytes
  | RequestStarted | RetryBackoff => mret turn
  | Event kind data =>
      let turn := if bool_decide (kind = "run.message.reasoning-delta")
                  then turn <| tu_phase := Some "reasoning" |> else turn in
      let turn := if bool_decide (kind = "run.message.completed")
                  then turn <| tu_completed := true |> <| tu_content := as_str (vindex data "content") |>
                         <| tu_finish := default "" (as_str (vindex data "finishReason")) |>
                         <| tu_calls := parse_calls (vindex data "toolCalls") |>
                  else turn in
      _ ← emit kind data; mret turn
  end.

(** Billing already observed, taken without waiting. *)
Fixpoint flush_usage (polls : nat) : RM unit :=
  match polls with
  | O => mret tt
  | S polls =>
      polled ← ask flush_at;
      match polled with
      | Some (Ok (Usage data)) => _ ← emit_usage data; flush_usage polls
      | Some (Ok _) => flush_usage polls
      | _ => mret tt
      end
  end.
Definition abandon_stream {A} (e : CoreError) : RM A :=
  _ ← when_ o.(ro_supports_usage_cleanup) (flush_usage 64); rthrow e.

(** The idle watch: whether the first byte is awaited, whether a retry is
    backing off, and when the provider last moved. *)
Record Watch := mkWatch { wa_first : bool; wa_backoff : bool; wa_last : Z }.

Definition is_activity (event : ProviderEvent) : bool :=
  match event with
  | Delta _ | Completed _ _ _ | ToolRequested _ | Usage _ | Activity | ToolCallProgress _ _ _ => true
  | Event kind _ => mem_str kind ["run.message.completed"; "run.message.reasoning-delta"; "run.message.delta"]
  | _ => false
  end.

Definition watch_event (event : ProviderEvent) (w : Watch) : RM Watch :=
  w ← match event with
      | RequestStarted => now ← ask instant_at; mret (mkWatch true false now)
      | RetryBackoff => mret (mkWatch w.(wa_first) true w.(wa_last))
      | _ => mret w
      end;
  if is_activity event then now ← ask instant_at; mret (mkWatch false w.(wa_backoff) now) else mret w.

(** How long the next item may take, and the phase a timeout is blamed on. *)
Definition deadline (w : Watch) : RM (option Z * string) :=
  let phase := if w.(wa_first) then "first_byte" else "stream_idle" in
  now ← ask instant_at;
  b ← rget rs_budget;
  let limit := if w.(wa_first) then o.(ro_first_byte_ms) else o.(ro_stream_idle_ms) in
  let activity := if w.(wa_backoff) then None
                  else match b with
                       | Some _ => (λ l, saturating_sub_u64 l (saturating_sub_u64 now w.(wa_last))) <$> limit
                       | None => None
                       end in
  overall ← budget_remaining;
  mret (minimum activity overall,
        if is_some_and overall (λ l, is_none_or activity (λ a, l <? a)) then "overall" else phase).

Definition incomplete_stream : CoreError :=
  core_error "incomplete_stream" "Provider stream ended without a completed response".

Fixpoint stream_loop (fuel : nat) (turn : Turn) (w : Watch) : RM Turn :=
  match fuel with
  | O => waiting
  | S fuel =>
      checked ← attempt check;
      match checked with
      | Err e => abandon_stream e
      | Ok _ =>
          '(duration, phase) ← deadline w;
          reply ← poll next_at;
          match reply with
          | NextCancelled =>
              _ ← cancel; checked ← attempt check;
              abandon_stream (match checked with Err e => e | Ok _ => cancelled_error end)
          | NextExpired =>
              match duration with None => waiting | Some _ => abandon_stream (timeout_error phase) end
          | NextEnd => if turn.(tu_completed) then mret turn else rthrow incomplete_stream
          | NextItem item =>
              checked ← attempt check;
              match checked with
              | Err e => abandon_stream e
              | Ok _ =>
                  event ← rlift item;
                  w ← watch_event event w;
                  turn ← provider_event turn event;
                  stream_loop fuel turn w
              end
          end
      end
  end.

Definition provider_turn (fuel : nat) : RM Turn :=
  messages ← rget rs_messages; continuation ← rget rs_continuation;
  _ ← when_ (negb o.(ro_tracks_transport_requests)) (budget_consume "providerRequests");
  _ ← record (ORequest (expand_tool_result_content stringify (λ t, match parse_json t with
                          Ok v => Some v | Err _ => None end) messages) continuation);
  now ← ask instant_at;
  stream_loop fuel new_turn (mkWatch true false now).

(** ** The loop *)

Definition hooked (context : HookContext) : RM unit := when_ (is_some o.(ro_hooks)) (observe context).

(** An answer without calls ends the run. *)
Definition final_answer (turn : Turn) (content : string) : RM Terminal :=
  _ ← check;
  _ ← when_ (bool_decide (turn.(tu_finish) = "tool_calls") && negb turn.(tu_saw_no_tool_warning))
        (warning "tool_call_unparseable"
           "Provider reported finish_reason=tool_calls but emitted no usable tool call.");
  _ ← check;
  _ ← push_pending (text_message "assistant" content);
  iteration ← rget rs_iteration;
  _ ← emit "run.completed" (VObj [("iterations", int_value iteration);
        ("finishReason", VStr (if bool_decide (turn.(tu_finish) = "") then "stop" else turn.(tu_finish)))]);
  mret RunCompleted.

Definition max_iterations : Z := Z.max 1 o.(ro_max_tool_iterations).

Definition out_of_iterations : RM Terminal :=
  _ ← warning "max_iterations"
        ("Reached maxToolIterations=" +:+ pretty max_iterations +:+ " without final answer.");
  iteration ← rget rs_iteration;
  _ ← emit "run.completed" (VObj [("iterations", int_value iteration); ("finishReason", VStr "max_iterations")]);
  mret RunCompleted.

(** The calls of a turn: its own, or those it announced one by one. *)
Definition turn_calls (turn : Turn) : list ToolCall :=
  match turn.(tu_calls) with [] => turn.(tu_requested) | calls => calls end.

Definition duplicate_warning (duplicates : list string) : RM unit :=
  when_ (negb (bool_decide (duplicates = [])))
    (warning "duplicate_tool_call_id" ("Provider reused tool call id(s) " +:+ join_with ", " duplicates
       +:+ " in one turn; the later call(s) were re-keyed so each stays answerable.")).

Fixpoint iterations (fuel rest : nat) (iteration : Z) : RM Terminal :=
  match rest with
  | O => out_of_iterations
  | S rest =>
      _ ← rmodify (λ s, s <| rs_iteration := iteration |>);
      _ ← check;
      stop ← interrupted o;
      if stop : bool then mret RunCompleted
      else
        messages ← rget rs_messages;
        _ ← hooked (OnStepStart iteration messages);
        _ ← check;
        turn ← provider_turn fuel;
        let content := default turn.(tu_delta) turn.(tu_content) in
        let '(calls, duplicates) := dedupe (turn_calls turn) in
        _ ← hooked (OnModelResponse iteration content calls
                      (if bool_decide (turn.(tu_finish) = "") then None else Some turn.(tu_finish)));
        _ ← when_ (bool_decide (turn.(tu_finish) = "length"))
              (warning "truncated" "Response truncated (finish_reason=length); increase max output tokens.");
        match calls with
        | [] => final_answer turn content
        | _ =>
            _ ← duplicate_warning duplicates;
            _ ← tools turn.(tu_announced) content calls o.(ro_max_tool_calls_per_iteration) true;
            suspended ← rget rs_suspended;
            if suspended : bool then mret RunCompleted
            else
              _ ← when_ (iteration <? o.(ro_max_tool_iterations)) (apply_steering (iteration + 1));
              iterations fuel rest (iteration + 1)
        end
  end.

(** Approved calls that never ran go first. *)
Definition resume : RM unit :=
  match o.(ro_resume_calls) with
  | [] => mret tt
  | calls =>
      _ ← rmodify (λ s, s <| rs_iteration := 1 |>);
      _ ← tools [] "" calls (length calls) false;
      suspended ← rget rs_suspended;
      if suspended : bool then mret tt else apply_steering 1
  end.

Definition run_body (fuel : nat) : RM Terminal :=
  messages ← rget rs_messages;
  _ ← hooked (OnRunStart o.(ro_model) (map td_name o.(ro_registry)) (length messages));
  _ ← resume;
  suspended ← rget rs_suspended;
  if suspended : bool then mret RunCompleted
  else iterations fuel (Z.to_nat max_iterations) 1.

Definition end_error (e : CoreError) : RM Terminal :=
  if bool_decide (e.(ce_code) = "cancelled") then
    _ ← attempt (emit "run.cancelled" (VObj [("reason", VStr "aborted")])); mret RunCancelled
  else
    _ ← attempt (emit "run.failed" (VObj [("errorCode", VStr e.(ce_code)); ("errorMessage", VStr e.(ce_message))]));
    mret RunFailed.

(** [State::new]. *)
Definition new_run : RM unit :=
  id ← ask id_at;
  _ ← rmodify (λ s, s <| rs_run_id := default (id "run_") o.(ro_run_id) |>);
  now ← now_ms; rmodify (λ s, s <| rs_last_emit_ms := now |>).

(** The messages after the ones the run was given: the slice panics when
    fewer are left. *)
Definition run_result (terminal : Terminal) : RM RunResult :=
  n ← rget (λ s, length s.(rs_messages));
  if Nat.ltb n (length o.(ro_messages)) then panic
  else rget (λ s, mkRunResult s.(rs_run_id) terminal (drop (length o.(ro_messages)) s.(rs_messages))
                    s.(rs_iteration) s.(rs_continuation) s.(rs_suspended)).

Definition run_chat (fuel : nat) : RM RunResult :=
  _ ← new_run;
  ended ← attempt (run_body fuel);
  terminal ← match ended with Ok t => mret t | Err e => end_error e end;
  run_result terminal.

(** The state a run starts in, given its budget. *)
Definition initial (budget : option ExecutionBudget) : RunState :=
  mkRunState "" o.(ro_first_seq) o.(ro_messages) [] false 0 o.(ro_continuation) [] 0 false false budget 0 0 [].
End loop.
