(* ===== verification/RunWalk.v ===== *)
(** * Walking through a run

    An invariant of a run is shown of its primitive steps and carried to the
    whole loop.  The steps come in three layers, each a class: the quiet ones
    (questions, events, budget, tokens), the start of a tool's body, and the
    rest (messages, requests, suspension). *)

From S2P Require Export RunLoop.
Local Open Scope Z_scope.

(** ** Triples *)

(** Every run of [m] from [P] ends well in [Q], or stops, fails or panics in
    [E]. *)
Definition hoare {A} (P : RunState → Prop) (m : RM A) (Q : A → RunState → Prop) (E : RunState → Prop) : Prop :=
  ∀ s, P s → match m s with (Done (Ok a), s') => Q a s' | (_, s') => E s' end.

(** [I] survives [m], however it ends. *)
Definition keeps_run {A} (I : RunState → Prop) (m : RM A) : Prop := ∀ s, I s → I (m s).2.

Section triples.
Context {A B : Type}.
Implicit Types (P E I : RunState → Prop) (m : RM A).

Lemma hoare_bind P m (f : A → RM B) Q R E :
  hoare P m Q E → (∀ a, hoare (Q a) (f a) R E) → hoare P (m ≫= f) R E.
Proof.
  intros Hm Hf s Hs. specialize (Hm s Hs). unfold mbind, rm_bind.
  destruct (m s) as [[[a|e]| |] s']; try done. by apply Hf.
Qed.
Lemma hoare_conseq P P' m (Q Q' : A → RunState → Prop) E E' :
  hoare P' m Q' E' → (∀ s, P s → P' s) → (∀ a s, Q' a s → Q a s) → (∀ s, E' s → E s) → hoare P m Q E.
Proof.
  intros Hm HP HQ HE s Hs. specialize (Hm s (HP s Hs)). destruct (m s) as [[[a|e]| |] s']; auto.
Qed.
Lemma hoare_ret P (a : A) E : hoare P (mret a) (λ a' s, a' = a ∧ P s) E.
Proof. by intros s. Qed.
Lemma hoare_get P (f : RunState → A) E : hoare P (rget f) (λ a s, a = f s ∧ P s) E.
Proof. by intros s. Qed.
Lemma hoare_modify P f E : hoare P (rmodify f) (λ _ s', ∃ s, P s ∧ s' = f s) E.
Proof. intros s Hs. by exists s. Qed.
Lemma hoare_attempt P m Q E :
  hoare P m Q E →
  hoare P (attempt m) (λ r s, match r with Ok a => Q a s | Err _ => E s end) E.
Proof.
  intros Hm s Hs. specialize (Hm s Hs). unfold attempt. by destruct (m s) as [[[a|e]| |] s'].
Qed.
Lemma hoare_keeps I m : keeps_run I m → hoare I m (λ _, I) I.
Proof. intros H s Hs. specialize (H s Hs). by destruct (m s) as [[[a|e]| |] s']. Qed.
Lemma hoare_within P m E : keeps_run P m → (∀ s, P s → E s) → hoare P m (λ _, P) E.
Proof. intros H HE s Hs. specialize (H s Hs). destruct (m s) as [[[a|e]| |] s']; auto. Qed.
Lemma keeps_hoare I m : hoare I m (λ _, I) I → keeps_run I m.
Proof. intros H s Hs. specialize (H s Hs). by destruct (m s) as [[[a|e]| |] s']. Qed.

Lemma keeps_from I m : (∀ s0, I s0 → hoare (λ s, s = s0) m (λ _, I) I) → keeps_run I m.
Proof. intros H. apply keeps_hoare. intros s Hs. by apply (H s Hs). Qed.

Lemma keeps_bind I m (f : A → RM B) :
  keeps_run I m → (∀ a, keeps_run I (f a)) → keeps_run I (m ≫= f).
Proof.
  intros Hm Hf s Hs. specialize (Hm s Hs). unfold mbind, rm_bind.
  destruct (m s) as [[[a|e]| |] s']; try done. by apply Hf.
Qed.
Lemma keeps_ret I (a : A) : keeps_run I (mret a).
Proof. by intros s. Qed.
Lemma keeps_get I (f : RunState → A) : keeps_run I (rget f).
Proof. by intros s. Qed.
Lemma keeps_lift I (r : Res CoreError A) : keeps_run I (rlift r).
Proof. by intros s. Qed.
Lemma keeps_throw I e : keeps_run I (rthrow (A := A) e).
Proof. by intros s. Qed.
Lemma keeps_waiting I : keeps_run I (waiting (A := A)).
Proof. by intros s. Qed.
Lemma keeps_panic I : keeps_run I (panic (A := A)).
Proof. by intros s. Qed.
Lemma keeps_attempt I m : keeps_run I m → keeps_run I (attempt m).
Proof. intros Hm s Hs. specialize (Hm s Hs). unfold attempt. by destruct (m s) as [[[a|e]| |] s']. Qed.
End triples.

Lemma keeps_lift_bind {A B} I (r : Res CoreError A) (g : A → RM B) :
  (∀ a, r = Ok a → keeps_run I (g a)) → keeps_run I (rlift r ≫= g).
Proof. intros H s Hs. destruct r as [a|e]; [|done]. by apply (H a eq_refl). Qed.

Lemma keeps_when I b m : (b = true → keeps_run I m) → keeps_run I (when_ b m).
Proof. destruct b; simpl; [auto|]. intros _. apply keeps_ret. Qed.
Lemma keeps_each {A} I (f : A → RM unit) l : (∀ a, a ∈ l → keeps_run I (f a)) → keeps_run I (each f l).
Proof.
  induction l as [|a l IH]; intros H; [apply keeps_ret|]. simpl.
  apply keeps_bind; [apply H; left|]. intros _. apply IH. intros b Hb. apply H. by right.
Qed.

Create HintDb run_keeps.
#[export] Hint Resolve keeps_ret keeps_get keeps_lift keeps_throw keeps_waiting keeps_panic : run_keeps.

(** One step of a walk: a known computation, a bind, or a branch. *)
Ltac keeps_step :=
  match goal with
  | |- keeps_run _ (mbind _ _) => apply keeps_bind; [|intros ?]
  | |- keeps_run _ (_ ≫= _) => apply keeps_bind; [|intros ?]
  | |- keeps_run _ (attempt _) => apply keeps_attempt
  | |- keeps_run _ (when_ _ _) => apply keeps_when; intros ?
  | |- keeps_run _ (each _ _) => apply keeps_each; intros ? ?
  | |- keeps_run _ (match ?x with _ => _ end) => destruct x
  end.
Ltac keeps_tac := intros; repeat first [solve [eauto with run_keeps] | keeps_step].

(** ** The quiet steps *)

(** The kinds of event the loop itself emits before its last, and the
    terminal ones. *)
Definition loop_kinds : list string :=
  ["run.started"; "run.warning"; "run.input.applied"; "run.waiting"; "run.progress"; "run.usage";
   "run.message.delta"; "run.message.completed"; "run.tool.requested"; "run.tool.preparing";
   "run.tool.running"; "run.tool.succeeded"; "run.tool.failed"].
Definition terminal_kinds : list string := ["run.completed"; "run.failed"; "run.cancelled"].

(** The kinds [K] an invariant allows hold those, and the ones the provider
    sends of its own. *)
Class LoopKinds {env : RunEnv} (K : string → Prop) : Prop := {
  lk_loop kind : kind ∈ loop_kinds → K kind;
  lk_provider n kind data : next_at n = NextItem (Ok (Event kind data)) → K kind
}.

Ltac loop_kind := apply lk_loop, (bool_decide_eq_true_1 _); reflexivity.

Section walk.
Context {env : RunEnv} (o : RunOptions) (K : string → Prop).
Implicit Types (s : RunState) (I : RunState → Prop).

Definition log (ob : Obs) s : RunState := s <| rs_trace := s.(rs_trace) ++ [ob] |>.
Definition emitted (e : RunEvent) s : RunState :=
  log (OEmit e s.(rs_pending)) s <| rs_seq := s.(rs_seq) + 1 |> <| rs_pending := [] |>.

(** Questions and the budget only. *)
Class SilentInv I : Prop := {
  si_ask s : I s → I (s <| rs_step := S s.(rs_step) |>);
  si_poll s : I s → I (s <| rs_polls := S s.(rs_polls) |>);
  si_share s steps : I s → I (s <| rs_budget := shared steps <$> s.(rs_budget) |>);
  si_spend s b call : I s → s.(rs_budget) = Some b → I (s <| rs_budget := Some (consume call b).2 |>)
}.

(** Also events, hooks and the token. *)
Class QuietInv I : Prop := {
  qi_silent :: SilentInv I;
  qi_cancel s : I s → I (mark_cancelled s);
  qi_emit s e : I s → e.(re_seq) = s.(rs_seq) → e.(re_run_id) = s.(rs_run_id) → valid_event e = true →
    K e.(re_type) → I (emitted e s);
  qi_refused s e error : I s → I (log (ORefused e error) s);
  qi_clock s now : I s → I (s <| rs_last_emit_ms := now |>);
  qi_hook s context index : I s → I (log (OHook context index) s);
  qi_continuation s c : I s → I (s <| rs_continuation := Some c |>)
}.

Section silent.
Context (I : RunState → Prop) {Q : SilentInv I}.

Lemma si_asks n s : I s → I (s <| rs_step := n + s.(rs_step) |>)%nat.
Proof. intros Hs. induction n as [|n IH]; [by destruct s|]. by apply si_ask in IH. Qed.

Lemma keeps_ask {A} (f : nat → A) : keeps_run I (ask f).
Proof. intros s. apply si_ask. Qed.
Lemma keeps_poll {A} (f : nat → A) : keeps_run I (poll f).
Proof. intros s. apply si_poll. Qed.
Lemma keeps_poll_bind {A B} (f : nat → A) (g : A → RM B) :
  (∀ n, keeps_run I (g (f n))) → keeps_run I (poll f ≫= g).
Proof. intros H s Hs. unfold poll, mbind, rm_bind. apply H. by apply si_poll. Qed.
Lemma keeps_now : keeps_run I now_ms.
Proof. apply keeps_ask. Qed.
#[local] Hint Resolve keeps_ask keeps_poll keeps_now : run_keeps.

Lemma keeps_others_act : keeps_run I others_act.
Proof. unfold others_act. keeps_tac. intros s. apply si_share. Qed.
Lemma keeps_budget_fail e : keeps_run I (budget_fail e).
Proof. intros s Hs. apply (si_share s [FailStep e] Hs). Qed.
#[local] Hint Resolve keeps_others_act keeps_budget_fail : run_keeps.
Lemma keeps_budget_check : keeps_run I budget_check.
Proof. unfold budget_check. keeps_tac. Qed.
Lemma keeps_budget_remaining : keeps_run I budget_remaining.
Proof. unfold budget_remaining. keeps_tac. Qed.
#[local] Hint Resolve keeps_budget_check keeps_budget_remaining : run_keeps.
Lemma keeps_watch_event event w : keeps_run I (watch_event event w).
Proof. unfold watch_event. keeps_tac. Qed.
Lemma keeps_deadline w : keeps_run I (deadline o w).
Proof. unfold deadline. keeps_tac. Qed.

Lemma keeps_budget_consume counter : keeps_run I (budget_consume counter).
Proof.
  unfold budget_consume. apply keeps_bind; [apply keeps_others_act|intros _].
  intros s Hs. change (I ((match rs_budget s with
    | None => mret tt
    | Some b => check_at ← now_ms; before_reserve ← ask failures_at; before_checkpoint ← ask failures_at;
      checkpoint ← ask checkpoint_at; before_return ← ask failures_at; return_at ← now_ms;
      let '(r, b) := consume (mkConsume counter check_at before_reserve before_checkpoint checkpoint
                                before_return return_at) b in
      _ ← rmodify (λ s, s <| rs_budget := Some b |>); rlift r
    end) s).2). destruct (rs_budget s) as [b|] eqn:Hb; [|exact Hs].
  pose proof (λ call, si_spend (I := I) _ b call (si_asks 6 s Hs) Hb) as H7.
  unfold now_ms, ask, mbind, rm_bind. cbn -[consume].
  specialize (H7 (mkConsume counter (clock_at s.(rs_step)) (failures_at (1 + s.(rs_step)))
    (failures_at (2 + s.(rs_step))) (checkpoint_at (3 + s.(rs_step))) (failures_at (4 + s.(rs_step)))
    (clock_at (5 + s.(rs_step)))))%nat.
  cbn -[consume] in H7. destruct (consume _ b) as [r b']. exact H7.
Qed.
End silent.
#[local] Hint Resolve keeps_ask keeps_poll keeps_now keeps_others_act keeps_budget_fail keeps_budget_check
  keeps_budget_remaining keeps_watch_event keeps_deadline keeps_budget_consume qi_silent : run_keeps.

Section quiet.
Context (I : RunState → Prop) {Q : QuietInv I} {L : LoopKinds K}.

Lemma keeps_cancel : keeps_run I cancel.
Proof. intros s. apply qi_cancel. Qed.
#[local] Hint Resolve keeps_cancel : run_keeps.
Lemma keeps_is_cancelled : keeps_run I is_cancelled.
Proof. unfold is_cancelled. keeps_tac. Qed.
#[local] Hint Resolve keeps_is_cancelled : run_keeps.

Lemma keeps_emit kind data : K kind → keeps_run I (emit o kind data).
Proof.
  intros HK s Hs. pose proof (si_ask _ (si_ask _ Hs)) as H2. unfold emit.
  set (s2 := _ <| rs_step := _ |>) in H2.
  set (e := mkRunEvent kind (rs_run_id s) (timestamp_at (rs_step s)) (id_at (S (rs_step s)) "evt_")
              (rs_seq s) data (ro_attempt_id o)).
  change (I ((if negb (valid_event e) then rthrow (core_error "provider_error" "Invalid provider event") else
    pending ← rget rs_pending;
    accepted ← (if o.(ro_event_sink) then ask append_at else mret (Ok tt));
    match accepted with
    | Err err => _ ← record (ORefused e err); _ ← cancel; rthrow err
    | Ok _ => _ ← record (OEmit e pending);
        _ ← rmodify (λ s', s' <| rs_seq := rs_seq s + 1 |> <| rs_pending := [] |>);
        now ← now_ms; rmodify (λ s', s' <| rs_last_emit_ms := now |>)
    end) s2).2).
  destruct (valid_event e) eqn:Hv; cbn [negb]; [|exact H2].
  assert (∀ s3, I s3 → rs_seq s3 = rs_seq s → rs_run_id s3 = rs_run_id s →
    I (emitted e s3 <| rs_step := S s3.(rs_step) |> <| rs_last_emit_ms := clock_at s3.(rs_step) |>)) as Kok.
  { intros s3 H3 Hseq Hid. pose proof (qi_emit s3 e H3 (eq_sym Hseq) (eq_sym Hid) Hv HK) as H4.
    apply si_ask in H4. by apply (qi_clock _ (clock_at s3.(rs_step))) in H4. }
  unfold mbind, rm_bind, rget, ask, record, rmodify, now_ms. destruct (ro_event_sink o).
  - pose proof (si_ask _ H2) as H3. set (s3 := s2 <| rs_step := _ |>) in H3.
    destruct (append_at (rs_step s2)) as [u|err]; [exact (Kok s3 H3 eq_refl eq_refl)|].
    exact (qi_cancel _ (qi_refused s3 e err H3)).
  - exact (Kok s2 H2 eq_refl eq_refl).
Qed.
#[local] Hint Resolve keeps_emit : run_keeps.
#[local] Hint Extern 1 (K _) => loop_kind : run_keeps.

Lemma keeps_warning code message : keeps_run I (warning o code message).
Proof. apply keeps_emit. loop_kind. Qed.
#[local] Hint Resolve keeps_warning : run_keeps.


Lemma keeps_check : keeps_run I check.
Proof. unfold check. keeps_tac. Qed.
#[local] Hint Resolve keeps_check : run_keeps.

Lemma keeps_invoke_hook index context : keeps_run I (invoke_hook o index context).
Proof.
  unfold invoke_hook. keeps_tac. intros s. apply qi_hook.
Qed.
#[local] Hint Resolve keeps_invoke_hook : run_keeps.
Lemma keeps_observe context : keeps_run I (observe o context).
Proof. unfold observe. keeps_tac. Qed.
Lemma keeps_run_gates context indexes : keeps_run I (run_gates o context indexes).
Proof. induction indexes as [|i indexes IH]; simpl; keeps_tac. Qed.
#[local] Hint Resolve keeps_observe keeps_run_gates : run_keeps.
Lemma keeps_tool_gate call : keeps_run I (tool_gate o call).
Proof. unfold tool_gate. keeps_tac. Qed.

Lemma keeps_tool_preparing turn id name n : keeps_run I (tool_preparing o turn id name n).
Proof. unfold tool_preparing. keeps_tac. Qed.
Lemma keeps_progress turn : keeps_run I (progress o turn).
Proof. unfold progress. keeps_tac. Qed.
Lemma keeps_emit_usage data : keeps_run I (emit_usage o data).
Proof. unfold emit_usage. keeps_tac. Qed.
#[local] Hint Resolve keeps_tool_preparing keeps_progress keeps_emit_usage : run_keeps.
Lemma keeps_provider_event turn event : (∀ kind data, event = Event kind data → K kind) →
  keeps_run I (provider_event o turn event).
Proof.
  intros HK. unfold provider_event.
  keeps_tac; first [eapply keeps_emit, HK; reflexivity|intros s; apply qi_continuation].
Qed.
Lemma keeps_flush_usage n : keeps_run I (flush_usage o n).
Proof. induction n as [|n IH]; simpl; keeps_tac. Qed.
#[local] Hint Resolve keeps_provider_event keeps_flush_usage : run_keeps.
Lemma keeps_abandon {A} e : keeps_run I (abandon_stream (A := A) o e).
Proof. unfold abandon_stream. keeps_tac. Qed.
#[local] Hint Resolve keeps_abandon : run_keeps.
Lemma keeps_stream_loop fuel turn w : keeps_run I (stream_loop o fuel turn w).
Proof.
  revert turn w. induction fuel as [|fuel IH]; intros; cbn [stream_loop]; [keeps_tac|].
  apply keeps_bind; [keeps_tac|intros [?|?]]; [|keeps_tac].
  apply keeps_bind; [keeps_tac|intros [? ?]].
  apply keeps_poll_bind; [apply _|]. intros n. destruct (next_at n) as [| |item|] eqn:En; [| | |by keeps_tac].
  - keeps_tac.
  - keeps_tac.
  - apply keeps_bind; [keeps_tac|intros [?|?]]; [|keeps_tac].
    apply keeps_lift_bind. intros event ->. apply keeps_bind; [keeps_tac|intros w'].
    apply keeps_bind; [|keeps_tac]. apply keeps_provider_event. intros kind data ->. by eapply lk_provider.
Qed.
End quiet.
#[local] Hint Extern 1 (K _) => loop_kind : run_keeps.
#[local] Hint Resolve keeps_cancel keeps_is_cancelled keeps_emit keeps_warning keeps_check keeps_invoke_hook
  keeps_observe keeps_run_gates keeps_tool_gate keeps_tool_preparing keeps_progress keeps_emit_usage
  keeps_provider_event keeps_flush_usage keeps_abandon keeps_stream_loop : run_keeps.

(** ** What quiet steps leave alone *)

Definition quiet_obs (ob : Obs) : Prop :=
  match ob with OEmit _ _ | ORefused _ _ | OHook _ _ | OCancelled => True | _ => False end.

Definition spends_opt (b b' : option ExecutionBudget) : Prop :=
  match b, b' with Some b, Some b' => spends b b' | None, None => True | _, _ => False end.

#[export] Instance spends_opt_preorder : PreOrder spends_opt.
Proof.
  split; [by intros [b|]; simpl|]. intros [b1|] [b2|] [b3|]; simpl; try done. by intros ->.
Qed.

(** The messages an observation handed to the sink, and all that were handed
    over or wait to be. *)
Definition handed_obs (ob : Obs) : list ChatMessage := match ob with OEmit _ ms => ms | _ => [] end.
Definition handed s : list ChatMessage := concat (map handed_obs s.(rs_trace)) ++ s.(rs_pending).

Record quietly s s' : Prop := {
  qu_run_id : s'.(rs_run_id) = s.(rs_run_id);
  qu_messages : s'.(rs_messages) = s.(rs_messages);
  qu_suspended : s'.(rs_suspended) = s.(rs_suspended);
  qu_iteration : s'.(rs_iteration) = s.(rs_iteration);
  qu_applied : s'.(rs_applied_steers) = s.(rs_applied_steers);
  qu_interrupted : s'.(rs_interrupted) = s.(rs_interrupted);
  qu_cancelled : s.(rs_cancelled) = true → s'.(rs_cancelled) = true;
  qu_budget : spends_opt s.(rs_budget) s'.(rs_budget);
  qu_handed : handed s' = handed s;
  qu_trace : ∃ new, s'.(rs_trace) = s.(rs_trace) ++ new ∧ Forall quiet_obs new
}.

#[export] Instance quietly_preorder : PreOrder quietly.
Proof.
  split.
  - intros s. split; auto; [done|]. exists []. by rewrite app_nil_r.
  - intros s1 s2 s3 [] [].
    split; try (etrans; eassumption); auto; try congruence.
    destruct qu_trace0 as (n1 & E1 & F1), qu_trace1 as (n2 & E2 & F2). exists (n1 ++ n2).
    rewrite E2, E1, app_assoc. split; [done|]. by apply Forall_app.
Qed.

(** A change that appends a quiet observation, if any, and touches none of
    the fields above. *)
Lemma quietly_log ob s s' :
  quiet_obs ob → handed_obs ob = [] → quietly (log ob s) s' → quietly s s'.
Proof.
  intros Ho Hh H. etrans; [|exact H]. split; try done.
  - unfold handed. simpl. rewrite map_app, concat_app. simpl. by rewrite Hh, !app_nil_r.
  - exists [ob]. simpl. auto.
Qed.

#[export] Instance quietly_inv s0 : QuietInv (quietly s0).
Proof.
  assert (∀ s s', quietly s s' → quietly s0 s → quietly s0 s') as Kq by (intros s s' H1 H2; by etrans).
  split; [split|..]; intros s.
  - apply Kq. split; try done. exists []. by rewrite app_nil_r.
  - apply Kq. split; try done. exists []. by rewrite app_nil_r.
  - intros es. apply Kq. split; try done; [|exists []; by rewrite app_nil_r].
    simpl. destruct (rs_budget s); [apply shared_spends|done].
  - intros b call Hs Hb. revert Hs. apply Kq. split; try done; [|exists []; by rewrite app_nil_r].
    rewrite Hb. apply consume_spends.
  - apply Kq. unfold mark_cancelled. destruct (rs_cancelled s) eqn:E; [done|].
    apply (quietly_log OCancelled); [done..|]. split; try done. exists []. by rewrite app_nil_r.
  - intros e Hs _ _ _ _. revert Hs. apply Kq. split; try done; [|exists [OEmit e (rs_pending s)]; by repeat constructor].
    unfold handed. simpl. rewrite map_app, concat_app, <-!app_assoc. simpl. by rewrite !app_nil_r.
  - intros e error. apply Kq. by apply (quietly_log (ORefused e error)).
  - intros now. apply Kq. split; try done. exists []. by rewrite app_nil_r.
  - intros context index. apply Kq. by apply (quietly_log (OHook context index)).
  - intros c. apply Kq. split; try done. exists []. by rewrite app_nil_r.
Qed.

(** An invariant of quiet change is one of every quiet step. *)
Lemma quiet_from I : (∀ s s', quietly s s' → I s → I s') → QuietInv I.
Proof.
  intros H. pose proof quietly_inv as Q.
  split; [split|..]; intros s.
  - apply H. by apply (si_ask (I := quietly s)).
  - apply H. by apply (si_poll (I := quietly s)).
  - intros steps. apply H. by apply (si_share (I := quietly s)).
  - intros b call Hs Hb. revert Hs. apply H. by apply (si_spend (I := quietly s)).
  - apply H. by apply (qi_cancel (I := quietly s)).
  - intros e Hs ????. revert Hs. apply H. by apply (qi_emit (I := quietly s)).
  - intros e error. apply H. by apply (qi_refused (I := quietly s)).
  - intros now. apply H. by apply (qi_clock (I := quietly s)).
  - intros context index. apply H. by apply (qi_hook (I := quietly s)).
  - intros c. apply H. by apply (qi_continuation (I := quietly s)).
Qed.

(** ** The start of a tool's body *)

(** Since [s0] the run did quiet steps and paid one unit of the counter. *)
Definition paid (c : Counter) s0 s : Prop :=
  quietly s0 s ∧ ∀ b0, s0.(rs_budget) = Some b0 →
    ∃ b, s.(rs_budget) = Some b ∧ b0.(eb_state).(bs_counter) c + 1 ≤ b.(eb_state).(bs_counter) c.

Lemma paid_quietly c s0 s s' : paid c s0 s → quietly s s' → paid c s0 s'.
Proof.
  intros [H1 H2] H3. split; [by etrans|]. intros b0 Hb0. destruct (H2 b0 Hb0) as (b & Hb & Hle).
  pose proof (qu_budget _ _ H3) as Hs. rewrite Hb in Hs. simpl in Hs.
  destruct (rs_budget s') as [b'|]; [|done]. exists b'. split; [done|]. etrans; [done|]. apply sp_grow, Hs.
Qed.

Lemma budget_consume_pays c counter s0 : counter_parse counter = Some c →
  hoare (λ s, s = s0) (budget_consume counter) (λ _, paid c s0) (quietly s0).
Proof.
  intros Hc s ->. pose proof (keeps_budget_consume (quietly s0) counter s0 (reflexivity s0)) as Hq.
  destruct (budget_consume counter s0) as [[[u|e]| |] s'] eqn:E; [|exact Hq..]. split; [exact Hq|].
  intros b0 Hb0. unfold budget_consume, others_act, ask, rmodify, rget, mbind, rm_bind in E. cbn in E.
  rewrite Hb0 in E. cbn -[consume shared] in E.
  set (call := mkConsume _ _ _ _ _ _ _) in E. set (b1 := shared _ b0) in E.
  destruct (consume call b1) as [r b'] eqn:Ec. cbn in E. injection E as Er <-. exists b'. split; [done|].
  pose proof (consume_granted call b1 c Hc) as Hg. rewrite Ec in Hg. simpl in Hg.
  rewrite Hg by (by destruct r). pose proof (sp_grow _ _ (shared_spends (others_at (rs_step s0)) b0) c).
  fold b1 in H. lia.
Qed.

Class ExecInv I : Prop := {
  ei_quiet :: QuietInv I;
  ei_execute s0 s call args tool : I s0 → I s → paid ToolCalls s0 s → s.(rs_cancelled) = false →
    get_tool o call.(tc_name) = Some tool → parse_json call.(tc_arguments_json) = Ok args →
    validate_input call.(tc_name) args = [] → I (log (OExecute call args) s)
}.

#[export] Instance silent_and I I' : SilentInv I → SilentInv I' → SilentInv (λ s, I s ∧ I' s).
Proof.
  intros [A1 A2 A3 A4] [B1 B2 B3 B4].
  split; intros s; [intros []|intros []|intros es []|intros b call [] ?]; split; auto.
Qed.
#[export] Instance quiet_and I I' : QuietInv I → QuietInv I' → QuietInv (λ s, I s ∧ I' s).
Proof.
  intros [A1 A2 A3 A4 A5 A6 A7] [B1 B2 B3 B4 B5 B6 B7].
  split; [by apply silent_and|..]; intros s; intros; destruct_and!; split; auto.
Qed.
#[export] Instance silent_field {A} (f : RunState → A) (v : A) :
  (∀ s n, f (s <| rs_step := n |>) = f s) → (∀ s n, f (s <| rs_polls := n |>) = f s) →
  (∀ s b, f (s <| rs_budget := b |>) = f s) → SilentInv (λ s, f s = v).
Proof. intros H1 H2 H3. split; intros s; intros; by rewrite ?H1, ?H2, ?H3. Qed.
#[export] Instance paid_quiet c s0 : QuietInv (paid c s0).
Proof.
  pose proof (λ s, quietly_inv s) as Kq.
  split; [split|..]; intros s; intros; (eapply paid_quietly; [eassumption|]);
    by (apply (Kq s).(qi_silent (I := _)) || apply (Kq s)).
Qed.

Section exec.
Context (I : RunState → Prop) {X : ExecInv I}.

Lemma keeps_run_tool s0 tool call args : I s0 →
  get_tool o call.(tc_name) = Some tool → parse_json call.(tc_arguments_json) = Ok args →
  validate_input call.(tc_name) args = [] →
  hoare (λ s, (I s ∧ paid ToolCalls s0 s) ∧ s.(rs_cancelled) = false) (run_tool o tool call args)
    (λ _, I) I.
Proof.
  intros H0 Ht Hp Hv. unfold run_tool.
  set (P := λ s, (I s ∧ paid ToolCalls s0 s) ∧ s.(rs_cancelled) = false).
  assert (SilentInv P) as HP.
  { apply silent_and; [apply silent_and; [apply _|apply paid_quiet]|]. by apply silent_field. }
  assert (∀ s, P s → I s) as HI by by intros s [[]].
  apply (hoare_bind P _ _ (λ _, P)); [apply hoare_within; [apply keeps_get|done]|intros b].
  assert (keeps_run P (match b with
    | Some _ => remaining ← budget_remaining; mret (minimum o.(ro_tool_ms) remaining)
    | None => mret None end)) as Hl by (destruct b; keeps_tac).
  do 2 (apply (hoare_bind P _ _ (λ _, P)); [by apply hoare_within|intros ?]).
  apply (hoare_bind P _ _ (λ _, I)).
  - intros s [[Hs Hpaid] Hc]. exact (ei_execute (I := I) s0 s call args tool H0 Hs Hpaid Hc Ht Hp Hv).
  - intros _. apply hoare_keeps. pose proof ei_quiet. keeps_tac.
Qed.

Lemma hoare_is_cancelled P E : QuietInv P → (∀ s, P s → E s) →
  hoare P is_cancelled (λ c s, P s ∧ s.(rs_cancelled) = c) E.
Proof.
  intros HP HE s Hs. pose proof (keeps_is_cancelled P s Hs) as Hk. unfold is_cancelled, ask, mbind, rm_bind in *.
  cbn in *. destruct (cancel_at (rs_step s)); cbn in *; [|done]. by destruct (rs_cancelled s).
Qed.

Lemma consume_paid c counter s0 : counter_parse counter = Some c → I s0 →
  hoare (λ s, s = s0) (budget_consume counter) (λ _ s, I s ∧ paid c s0 s) I.
Proof.
  intros Hc H0 s ->. pose proof (budget_consume_pays c counter s0 Hc s0 eq_refl) as H1.
  pose proof (keeps_budget_consume I counter s0 H0) as H2.
  by destruct (budget_consume counter s0) as [[[u|e]| |] s'].
Qed.

Lemma keeps_execute call : keeps_run I (execute o call).
Proof.
  unfold execute. pose proof ei_quiet.
  destruct (get_tool o (tc_name call)) as [tool|] eqn:Ht; [|keeps_tac].
  destruct (parse_json (tc_arguments_json call)) as [args|] eqn:Hp; [|keeps_tac].
  destruct (validate_input (tc_name call) args) eqn:Hv; [|keeps_tac].
  apply keeps_from. intros s0 H0. set (P := λ s, I s ∧ paid ToolCalls s0 s).
  assert (∀ s, P s → I s) as HI by by intros s [].
  assert (QuietInv P) as HP by apply _.
  apply (hoare_bind _ _ _ (λ r s, match r with Ok _ => P s | Err _ => I s end)).
  { apply (hoare_attempt _ _ (λ _, P)).
    by apply consume_paid. }
  intros [u|e]; [|apply hoare_keeps; keeps_tac].
  apply (hoare_bind _ _ _ (λ _, P)).
  { destruct (ro_dispatch_guard o); (apply hoare_within; [|done]); keeps_tac. }
  intros [u'|e]; [|eapply hoare_conseq; [apply (hoare_keeps I); keeps_tac|done..]].
  apply (hoare_bind _ _ _ (λ _, P)); [apply hoare_within; [keeps_tac|done]|].
  intros [u2|e]; [|eapply hoare_conseq; [apply (hoare_keeps I); keeps_tac|done..]].
  eapply hoare_bind; [by apply hoare_is_cancelled|]. intros [|].
  - eapply hoare_conseq; [apply (hoare_keeps I); keeps_tac|by intros s [[] ?]|done..].
  - by apply keeps_run_tool.
Qed.
End exec.
#[local] Hint Resolve keeps_execute ei_quiet : run_keeps.

(** ** Messages, requests, suspension *)

Definition pushed (m : ChatMessage) s : RunState :=
  s <| rs_pending := s.(rs_pending) ++ [m] |> <| rs_messages := s.(rs_messages) ++ [m] |>.
Definition steered (m : ChatMessage) s : RunState := s <| rs_messages := s.(rs_messages) ++ [m] |>.
Definition without_superseded (call : ToolCall) s : RunState :=
  s <| rs_messages := filter_by (λ m, negb (superseded call m)) s.(rs_messages) |>.
Definition json_option (t : string) : option Value := match parse_json t with Ok v => Some v | Err _ => None end.
Definition requested (continuation : option Value) s : RunState :=
  log (ORequest (expand_tool_result_content stringify json_option s.(rs_messages)) continuation) s.

(** A message of the run itself: an answer of the model or of a tool. *)
Definition own_message (m : ChatMessage) : Prop := m.(cm_role) = "assistant" ∨ m.(cm_role) = "tool".

Class RunInv I : Prop := {
  ri_exec :: ExecInv I;
  ri_interrupt s : I s → I (mark_interrupted s);
  ri_push s m : I s → own_message m → I (pushed m s);
  ri_steer s m : I s → m.(cm_role) = "user" → I (steered m s);
  ri_apply s id : I s → id ∉ s.(rs_applied_steers) →
    I (s <| rs_applied_steers := id :: s.(rs_applied_steers) |>);
  ri_supersede s call : I s → I (without_superseded call s);
  ri_request s0 s c : I s0 → I s → quietly s0 s →
    (o.(ro_tracks_transport_requests) = false → paid ProviderRequests s0 s) →
    s.(rs_cancelled) = false → I (requested c s);
  ri_park s spec id : I s → I (log (OPark spec id) s);
  ri_suspend s : I s → I (s <| rs_suspended := true |>);
  ri_iteration s i : I s → I (s <| rs_iteration := i |>)
}.

Section run.
Context (I : RunState → Prop) {X : RunInv I} {L : LoopKinds K}.
Let Q : QuietInv I := _.
#[local] Existing Instance Q.
#[local] Hint Resolve ri_exec : run_keeps.

Lemma keeps_interrupted : keeps_run I (interrupted o).
Proof. unfold interrupted. keeps_tac. intros s. apply ri_interrupt. Qed.
#[local] Hint Resolve keeps_interrupted : run_keeps.

Lemma keeps_push_pending m : own_message m → keeps_run I (push_pending m).
Proof. intros Hm s Hs. exact (ri_push s m Hs Hm). Qed.
Lemma own_tool call content : own_message (tool_message call content).
Proof. by right. Qed.
Lemma own_assistant content calls : own_message (assistant_message content calls).
Proof. by left. Qed.
Lemma own_text content : own_message (text_message "assistant" content).
Proof. by left. Qed.
#[local] Hint Resolve keeps_push_pending own_tool own_assistant own_text : run_keeps.

Lemma keeps_apply_steer step item : keeps_run I (apply_steer o step item).
Proof.
  intros s Hs. unfold apply_steer. unfold rget at 1, mbind at 1, rm_bind at 1. cbn.
  destruct (mem_str _ _) eqn:Em; [done|]. apply bool_decide_eq_false in Em.
  case_bool_decide as Hr; cbn [negb]; [|by apply keeps_warning].
  pose proof (ri_apply s _ Hs Em) as H1.
  apply (keeps_emit I "run.input.applied" (VObj [("inputId", VStr item.(si_input_id)); ("kind", VStr "steer");
                                       ("step", int_value step)])) in H1; [|loop_kind].
  unfold rmodify at 1, mbind, rm_bind. destruct (emit _ _ _ _) as [[[u|e]| |] s']; try done.
  by apply ri_steer.
Qed.
#[local] Hint Resolve keeps_apply_steer : run_keeps.
Lemma keeps_apply_steering step : keeps_run I (apply_steering o step).
Proof. unfold apply_steering. keeps_tac. Qed.
#[local] Hint Resolve keeps_apply_steering : run_keeps.

Lemma keeps_park_suspension spec call : keeps_run I (park_suspension o spec call).
Proof.
  unfold park_suspension. keeps_tac; intros s; [apply ri_park|apply ri_suspend].
Qed.
Lemma keeps_cancel_suspended call : keeps_run I (cancel_suspended o call).
Proof. unfold cancel_suspended. keeps_tac. Qed.
#[local] Hint Resolve keeps_park_suspension keeps_cancel_suspended : run_keeps.
Lemma keeps_start_call call b : keeps_run I (start_call o call b).
Proof. unfold start_call. keeps_tac. Qed.
#[local] Hint Resolve keeps_start_call : run_keeps.
Lemma keeps_decide_outcome cap index call b : keeps_run I (decide_outcome o cap index call b).
Proof. unfold decide_outcome. keeps_tac. Qed.
Lemma keeps_answer_call call outcome : keeps_run I (answer_call o call outcome).
Proof.
  unfold answer_call. keeps_tac; [intros s; apply ri_supersede|].
  apply (keeps_emit I). destruct (to_kind outcome); loop_kind.
Qed.
#[local] Hint Resolve keeps_decide_outcome keeps_answer_call : run_keeps.
Lemma keeps_run_call cap index call b : keeps_run I (run_call o cap index call b).
Proof. unfold run_call, release_held, conclude_call. keeps_tac. Qed.
#[local] Hint Resolve keeps_run_call : run_keeps.
Lemma keeps_run_calls cap index calls b : keeps_run I (run_calls o cap index calls b).
Proof. revert index b. induction calls as [|call calls IH]; intros; simpl; keeps_tac. Qed.
Lemma keeps_close_batch b : keeps_run I (close_batch o b).
Proof. unfold close_batch. keeps_tac. Qed.
#[local] Hint Resolve keeps_run_calls keeps_close_batch : run_keeps.
Lemma keeps_tools announced content calls cap push : keeps_run I (tools o announced content calls cap push).
Proof. unfold tools, announce. keeps_tac. Qed.
#[local] Hint Resolve keeps_tools : run_keeps.

Lemma hoare_check P E : QuietInv P → (∀ s, P s → E s) →
  hoare P check (λ _ s, P s ∧ s.(rs_cancelled) = false) E.
Proof.
  intros HP HE. unfold check. apply (hoare_bind _ _ _ (λ _, P)).
  { apply hoare_within; [|done]. apply keeps_budget_check, _. }
  intros _. eapply hoare_bind; [by apply hoare_is_cancelled|]. intros [|] s [Hs Hc]; simpl; auto.
Qed.

Lemma keeps_provider_turn fuel :
  hoare (λ s, I s ∧ s.(rs_cancelled) = false) (provider_turn o fuel) (λ _, I) I.
Proof.
  intros s0 [H0 Hc]. unfold provider_turn. unfold rget, mbind at 1 2, rm_bind at 1 2. cbn.
  set (P := λ s, ((I s ∧ quietly s0 s) ∧ (o.(ro_tracks_transport_requests) = false → paid ProviderRequests s0 s))
                 ∧ s.(rs_cancelled) = false).
  match goal with |- match ?m s0 with _ => _ end => enough (hoare (λ s, s = s0) m (λ _, I) I) as Hk end.
  { exact (Hk s0 eq_refl). }
  apply (hoare_bind _ _ _ (λ _, P)).
  - destruct (o.(ro_tracks_transport_requests)); cbn [negb when_].
    + intros s ->. by split_and!.
    + pose proof (consume_paid I ProviderRequests "providerRequests" s0 eq_refl H0) as H1.
      assert (SilentInv (λ s, s.(rs_cancelled) = false)) as Hsil by by apply silent_field.
      pose proof (keeps_budget_consume _ "providerRequests" s0 Hc) as H2. cbn in H2.
      intros s ->. specialize (H1 s0 eq_refl).
      destruct (budget_consume "providerRequests" s0) as [[[u|e]| |] s']; try done.
      destruct H1 as [H1 Hp]. split_and!; [done|apply Hp|done|done].
  - intros _. apply (hoare_bind _ _ _ (λ _, I)).
    + intros s [[[Hs Hq] Hp] Hcs]. cbn.
      pose proof (ri_request s0 s s0.(rs_continuation) H0 Hs Hq Hp Hcs) as Hr.
      unfold requested in Hr. by rewrite (qu_messages _ _ Hq) in Hr.
    + intros _. apply hoare_keeps. keeps_tac.
Qed.

Lemma keeps_hooked context : keeps_run I (hooked o context).
Proof. unfold hooked. keeps_tac. Qed.
#[local] Hint Resolve keeps_hooked : run_keeps.

(** What follows may end the run. *)
Hypothesis terminal_allowed : ∀ kind, kind ∈ terminal_kinds → K kind.
#[local] Hint Extern 1 (K _) => apply terminal_allowed, (bool_decide_eq_true_1 _); reflexivity : run_keeps.

Lemma keeps_final_answer turn content : keeps_run I (final_answer o turn content).
Proof. unfold final_answer. keeps_tac. Qed.
Lemma keeps_out_of_iterations : keeps_run I (out_of_iterations o).
Proof. unfold out_of_iterations. keeps_tac. Qed.
#[local] Hint Resolve keeps_hooked keeps_final_answer keeps_out_of_iterations : run_keeps.

Lemma keeps_iterations fuel rest iteration : keeps_run I (iterations o fuel rest iteration).
Proof.
  revert iteration. induction rest as [|rest IH]; intros iteration; simpl; [keeps_tac|].
  apply keeps_bind; [intros s; apply ri_iteration|intros _].
  apply keeps_bind; [keeps_tac|intros _]. apply keeps_bind; [keeps_tac|intros [|]]; [keeps_tac|].
  apply keeps_bind; [keeps_tac|intros messages]. apply keeps_bind; [keeps_tac|intros _].
  apply keeps_hoare. eapply hoare_bind; [by apply hoare_check|intros u].
  eapply hoare_bind; [apply keeps_provider_turn|intros turn]. apply hoare_keeps. unfold duplicate_warning.
  keeps_tac.
Qed.
#[local] Hint Resolve keeps_iterations : run_keeps.

Lemma keeps_resume : keeps_run I (resume o).
Proof.
  unfold resume. keeps_tac. intros s. apply ri_iteration.
Qed.
#[local] Hint Resolve keeps_resume : run_keeps.
Lemma keeps_run_body fuel : keeps_run I (run_body o fuel).
Proof. unfold run_body. keeps_tac. Qed.
Lemma keeps_end_error e : keeps_run I (end_error o e).
Proof. unfold end_error. keeps_tac. Qed.
#[local] Hint Resolve keeps_run_body keeps_end_error : run_keeps.

Lemma keeps_run_result terminal : keeps_run I (run_result o terminal).
Proof. unfold run_result. keeps_tac. Qed.
#[local] Hint Resolve keeps_run_result : run_keeps.

(** The state [State::new] leaves. *)
Definition started (budget : option ExecutionBudget) : RunState := (new_run o (initial o budget)).2.

Lemma run_keeps_inv fuel budget : I (started budget) → I (run_chat o fuel (initial o budget)).2.
Proof.
  intros H. assert (keeps_run I (ended ← attempt (run_body o fuel);
    terminal ← match ended with Ok t => mret t | Err e => end_error o e end;
    run_result o terminal)) as Hk by keeps_tac.
  exact (Hk (started budget) H).
Qed.
End run.
End walk.
