(* ===== verification/RunLaws.v ===== *)
(** * What holds at every moment of a run

    Invariants of [core/src/run.rs] in every world: events are numbered
    without gaps, every message of the run travels with one event, tools start
    only as they may, budgets and cancellation are respected. *)

From S2P Require Export RunWalk.
Local Open Scope Z_scope.

(** ** A concrete world *)

Definition demo_call (id : string) : ToolCall := mkToolCall id "echo" "{}".
Definition demo_result : ToolResult := mkToolResult true (Some (VStr "r")) [] [] false None None None None.

(** The provider answers from the script, the tool always, and nobody cancels
    or interrupts unless told to. *)
Definition demo_world (script : list NextReply) (cancelled interrupted : nat → bool)
    (steers : list SteeringItem) (missing : bool) : RunEnv := {|
  cancel_at := cancelled; interrupt_at := interrupted;
  clock_at _ := 0; timestamp_at _ := "now"; id_at n prefix := prefix; instant_at _ := 0;
  append_at _ := Ok tt;
  next_at n := default NextEnd (script !! n); flush_at _ := None;
  hook_at _ := HookFailed; steer_at _ := SteerItems steers;
  tool_at _ := (ToolReturned (Ok demo_result), None);
  guard_at _ := Ok tt; park_at _ := Ok tt; others_at _ := []; failures_at _ := []; checkpoint_at _ := None;
  stringify _ := "json"; parse_json _ := Ok (VObj []);
  from_str text := if missing && bool_decide (text = "missing")
                   then Some (VObj [("data", VObj [("errorCode", VStr "tool_result_missing")])])
                   else None;
  validate_input _ _ := []; valid_event _ := true |}.

Definition demo_options (messages : list ChatMessage) (resume : list ToolCall) (iterations : Z)
    (steering interruption : bool) : RunOptions := {|
  ro_model := "m"; ro_messages := messages; ro_continuation := None; ro_run_id := Some "run_1";
  ro_first_seq := 7; ro_attempt_id := None; ro_max_tool_iterations := iterations;
  ro_max_tool_calls_per_iteration := 8; ro_default_tool_timeout_ms := None;
  ro_limits := mkToolLimits "small" 16384 None; ro_event_sink := true; ro_tool_close := false;
  ro_hook_timeout_ms := None; ro_hooks := None; ro_batch_suspension := false; ro_dispatch_guard := false;
  ro_suspender := false; ro_interruption := interruption; ro_steering := steering; ro_resume_calls := resume;
  ro_first_byte_ms := None; ro_stream_idle_ms := None; ro_tool_ms := None;
  ro_tracks_transport_requests := false; ro_supports_usage_cleanup := false;
  ro_registry := [mkToolDefinition "echo" None] |}.

Definition never (n : nat) : bool := false.
Definition always (n : nat) : bool := true.

(** One turn with two calls under the same id, then an answer. *)
Definition demo_script : list NextReply :=
  [NextItem (Ok Started);
   NextItem (Ok (Completed "working" [demo_call "c1"; demo_call "c1"] "tool_calls"));
   NextEnd;
   NextItem (Ok (Completed "done" [] "stop")); NextEnd].
#[export] Instance demo : RunEnv := demo_world demo_script never never [] false.
Definition demo_opts : RunOptions := demo_options [text_message "user" "go"] [] 4 false false.
Definition demo_budget : ExecutionBudget :=
  mkBudget (mkLimits None (λ _, Some 5)) (mkSnapshot 1 0 (λ _, 0)) None.

Definition obs_kind (ob : Obs) : string :=
  match ob with
  | OEmit e _ => e.(re_type) | ORefused e _ => "refused" | ORequest _ _ => "request"
  | OExecute c _ => "execute " +:+ c.(tc_id) | OHook _ _ => "hook" | OPark _ _ => "park"
  | OCancelled => "cancelled" | OInterrupted => "interrupted"
  end.

Example demo_trace :
  map obs_kind (run_chat demo_opts 10 (initial demo_opts None)).2.(rs_trace) =
  ["request"; "run.started"; "run.message.completed"; "run.warning"; "run.tool.requested"; "run.tool.requested";
   "run.tool.running"; "execute c1"; "run.tool.succeeded"; "run.tool.running"; "execute c1#2";
   "run.tool.succeeded"; "request"; "run.message.completed"; "run.completed"].
Proof. vm_compute. reflexivity. Qed.

(** ** Three corners *)

(** The stand-in of a missing result was in the history the run was given:
    when the result arrives, the first message the run adds is missing from
    the ones it reports. *)
Definition missing_message : ChatMessage :=
  mkChatMessage "tool" (VStr "missing") (Some "echo") (Some "c1") [] None.
Example superseding_hides_a_message :
  let o := demo_options [assistant_message "" [demo_call "c1"]; missing_message] [demo_call "c1"] 4 false false in
  let '(outcome, s) := @run_chat (demo_world (drop 3 demo_script) never never [] true) o 10 (initial o None) in
  map cm_role s.(rs_messages) = ["assistant"; "tool"; "assistant"]
  ∧ match outcome with
    | Done (Ok r) => map cm_role r.(rr_appended_messages) = ["assistant"]
    | _ => False
    end.
Proof. vm_compute. by split. Qed.

(** With two stand-ins for one call the history ends up shorter than it was:
    the run announces its completion and then panics. *)
Example superseding_twice_panics :
  let o := demo_options [assistant_message "" [demo_call "c1"]; missing_message; missing_message;
                         text_message "user" "so?"] [demo_call "c1"] 4 false true in
  let '(outcome, s) := @run_chat (demo_world [] never always [] true) o 10 (initial o None) in
  outcome = Panicked.
Proof. vm_compute. reflexivity. Qed.

(** Interrupted during its last iteration, the run does not stop for the park
    but completes, its limit reached. *)
Definition after_steps (k n : nat) : bool := (k <=? n)%nat.
Example interrupted_in_the_last_iteration :
  let o := demo_options [text_message "user" "go"] [] 1 false true in
  let '(outcome, s) := @run_chat (demo_world demo_script never (after_steps 25) [] false) o 10 (initial o None) in
  s.(rs_interrupted) = true
  ∧ last (map obs_kind s.(rs_trace)) = Some "run.completed"
  ∧ length (filter_by (λ m, bool_decide (m.(cm_role) = "tool")) s.(rs_messages)) = 1%nat.
Proof. vm_compute. by split_and!. Qed.

(** Interrupted after a batch, the run still takes a steer and announces it
    applied, although no request follows. *)
Definition demo_steer : SteeringItem := mkSteering "s1" (text_message "user" "stop that").
Example steer_applied_unseen :
  let o := demo_options [text_message "user" "go"] [] 4 true true in
  let '(outcome, s) :=
    @run_chat (demo_world demo_script never (after_steps 25) [demo_steer] false) o 10 (initial o None) in
  drop 8 (map obs_kind s.(rs_trace)) = ["run.tool.succeeded"; "interrupted"; "run.input.applied"].
Proof. vm_compute. reflexivity. Qed.

Definition any_kind (kind : string) : Prop := True.
#[export] Instance any_kind_ok {env : RunEnv} : LoopKinds any_kind.
Proof. by split. Qed.

Section laws.
Context {env : RunEnv} (o : RunOptions).
Implicit Types (s : RunState).

(** ** Observations *)

Definition event_of (ob : Obs) : option RunEvent := match ob with OEmit e _ => Some e | _ => None end.
Definition events (t : list Obs) : list RunEvent := omap event_of t.
Definition is_request (ob : Obs) : bool := match ob with ORequest _ _ => true | _ => false end.
Definition is_execute (ob : Obs) : bool := match ob with OExecute _ _ => true | _ => false end.
Definition count_obs (p : Obs → bool) (t : list Obs) : Z := Z.of_nat (length (filter_by p t)).

Lemma events_app t t' : events (t ++ t') = events t ++ events t'.
Proof. apply omap_app. Qed.
Lemma count_app p t t' : count_obs p (t ++ t') = count_obs p t + count_obs p t'.
Proof. unfold count_obs, filter_by. rewrite filter_app, length_app. lia. Qed.
Lemma count_quiet p t : (∀ ob, quiet_obs ob → p ob = false) → Forall quiet_obs t → count_obs p t = 0.
Proof.
  intros Hp. induction 1 as [|ob t Ho _ IH]; [done|]. change (ob :: t) with ([ob] ++ t).
  rewrite count_app, IH. unfold count_obs, filter_by. rewrite filter_cons, Hp by done. done.
Qed.

(** ** Numbering *)

Definition numbered s : Prop :=
  map re_seq (events s.(rs_trace)) = seqZ o.(ro_first_seq) (Z.of_nat (length (events s.(rs_trace))))
  ∧ s.(rs_seq) = o.(ro_first_seq) + Z.of_nat (length (events s.(rs_trace)))
  ∧ Forall (λ e, e.(re_run_id) = s.(rs_run_id) ∧ valid_event e = true) (events s.(rs_trace)).

Lemma numbered_log ob s : event_of ob = None → numbered s → numbered (log ob s).
Proof.
  intros Ho. unfold numbered. simpl. rewrite events_app. unfold events at 2 4 6 8.
  simpl. rewrite Ho. by rewrite app_nil_r.
Qed.

#[export] Instance numbered_inv : RunInv o any_kind numbered.
Proof.
  split; [split; [split; [split|..]|]|..]; intros s; try done.
  - intros H. unfold mark_cancelled. destruct (rs_cancelled s); [done|].
    by apply (numbered_log OCancelled) in H.
  - intros e (H1 & H2 & H3) Hs Hr Hv _. unfold numbered. simpl. rewrite events_app, map_app, length_app.
    simpl. rewrite H1, H2, Hs, H2. split_and!.
    + by rewrite Nat2Z.inj_add, seqZ_app by lia.
    + lia.
    + apply Forall_app. split; [done|]. by repeat constructor.
  - intros e error. by apply numbered_log.
  - intros context index. by apply numbered_log.
  - intros s1 call args tool _ H _ _ _ _ _. by apply numbered_log.
  - intros H. unfold mark_interrupted. destruct (rs_interrupted s); [done|].
    by apply (numbered_log OInterrupted) in H.
  - intros s1 c _ H _ _ _. by apply numbered_log.
  - intros spec id. by apply numbered_log.
Qed.

(** The events a run hands over are numbered without gap or repetition
    from the first number it was given, all under its run id and valid, and
    the next one has the next number; an event the sink refuses uses up no
    number. *)
Theorem run_events_numbered fuel budget :
  numbered (run_chat o fuel (initial o budget)).2.
Proof.
  apply (run_keeps_inv o any_kind numbered); [by intros|]. split_and!; [done|change (ro_first_seq o = ro_first_seq o + 0); lia|by constructor].
Qed.

(** ** Tools start as they may *)

(** A tool's body, or a request to the provider, starts only while the run
    has not seen its token cancelled. *)
Definition starts (ob : Obs) : Prop := is_request ob = true ∨ is_execute ob = true.
Definition checked_call (ob : Obs) : Prop :=
  ∀ call args, ob = OExecute call args →
    is_some (get_tool o call.(tc_name)) = true ∧ parse_json call.(tc_arguments_json) = Ok args
    ∧ validate_input call.(tc_name) args = [].

Definition guarded s : Prop :=
  (OCancelled ∈ s.(rs_trace) → s.(rs_cancelled) = true)
  ∧ (∀ t ob t', s.(rs_trace) = t ++ ob :: t' → starts ob → OCancelled ∉ t)
  ∧ Forall checked_call s.(rs_trace).

Lemma guarded_log ob s : guarded s → checked_call ob →
  (starts ob → s.(rs_cancelled) = false) → (ob = OCancelled → s.(rs_cancelled) = true) → guarded (log ob s).
Proof.
  intros (H1 & H2 & H3) Hc Hs Ho. split_and!; simpl.
  - intros [H|H%list_elem_of_singleton]%elem_of_app; auto.
  - intros t ob' t' E Hob'. destruct t' as [|x t' _] using rev_ind.
    + apply app_inj_tail in E as [<- <-]. intros Hin%H1. rewrite Hs in Hin; done.
    + rewrite app_comm_cons, app_assoc in E. apply app_inj_tail in E as [E _]. by eapply H2.
  - apply Forall_app_2; [done|by constructor].
Qed.

Lemma not_checked ob : is_execute ob = false → checked_call ob.
Proof. by intros H call args ->. Qed.

#[export] Instance guarded_inv : RunInv o any_kind guarded.
Proof.
  assert (∀ ob s, is_execute ob = false → is_request ob = false → ob ≠ OCancelled →
    guarded s → guarded (log ob s)) as Hlog.
  { intros ob s He Hr Hc H. apply guarded_log; [done|by apply not_checked|by intros [|]; congruence|done]. }
  split; [split; [split; [split|..]|]|..]; intros s; try done.
  - intros H. unfold mark_cancelled. destruct (rs_cancelled s); [done|].
    change (guarded (log OCancelled (s <| rs_cancelled := true |>))). apply guarded_log; [|by apply not_checked|by intros [|]|done].
    destruct H as (H1 & H2 & H3). by split_and!.
  - intros e H _ _ _ _. by apply (Hlog (OEmit e (rs_pending s))) in H.
  - intros e error. by apply Hlog.
  - intros context index. by apply Hlog.
  - intros s1 call args tool _ H _ Hc Ht Hp Hv. apply guarded_log; [done| |done|done].
    intros call' args' [= <- <-]. by rewrite Ht.
  - intros H. unfold mark_interrupted. destruct (rs_interrupted s); [done|]. by apply (Hlog OInterrupted) in H.
  - intros s1 c _ H _ _ Hc. apply guarded_log; [done|by apply not_checked|done|done].
  - intros spec id. by apply Hlog.
Qed.

(** C15: Once a run has seen its token cancelled it asks the provider nothing
    more and starts no tool; and a tool's body only ever runs for a
    registered tool, on arguments that parse and meet its schema. *)
Theorem run_starts_guarded fuel budget :
  let trace := (run_chat o fuel (initial o budget)).2.(rs_trace) in
  (∀ t ob t', trace = t ++ ob :: t' → starts ob → OCancelled ∉ t)
  ∧ ∀ call args, OExecute call args ∈ trace →
      is_some (get_tool o call.(tc_name)) = true ∧ parse_json call.(tc_arguments_json) = Ok args
      ∧ validate_input call.(tc_name) args = [].
Proof.
  intros trace.
  assert (guarded (run_chat o fuel (initial o budget)).2) as (_ & H2 & H3).
  { apply (run_keeps_inv o any_kind guarded); [by intros|]. split_and!; [by intros ?%elem_of_nil| |constructor].
    by intros [] ob t' [=]. }
  split; [exact H2|]. intros call args Hin. rewrite Forall_forall in H3. by eapply H3.
Qed.

(** ** What a run may spend *)

(** Since [b0], the run paid for each tool it started and, when it counts
    them itself, for each request. *)
Definition paid_for (b0 : ExecutionBudget) s : Prop :=
  ∃ b, s.(rs_budget) = Some b ∧ spends b0 b
    ∧ count_obs is_execute s.(rs_trace) ≤ b.(eb_state).(bs_counter) ToolCalls - b0.(eb_state).(bs_counter) ToolCalls
    ∧ (o.(ro_tracks_transport_requests) = false →
       count_obs is_request s.(rs_trace)
         ≤ b.(eb_state).(bs_counter) ProviderRequests - b0.(eb_state).(bs_counter) ProviderRequests).

Lemma paid_for_quiet b0 s s' : quietly s s' → paid_for b0 s → paid_for b0 s'.
Proof.
  intros H (b & Hb & Hs & He & Hr). pose proof (qu_budget _ _ H) as Hb'. rewrite Hb in Hb'. simpl in Hb'.
  destruct (rs_budget s') as [b'|] eqn:Eb; [|done]. exists b'.
  destruct (qu_trace _ _ H) as (new & -> & Hq). rewrite !count_app.
  rewrite !(count_quiet _ new) by (try done; by intros []).
  pose proof (sp_grow _ _ Hb' ToolCalls). pose proof (sp_grow _ _ Hb' ProviderRequests).
  split_and!; [done|by etrans|lia|]. intros Ht. specialize (Hr Ht). lia.
Qed.

Lemma paid_for_same b0 s s' :
  s'.(rs_budget) = s.(rs_budget) → count_obs is_execute s'.(rs_trace) = count_obs is_execute s.(rs_trace) →
  count_obs is_request s'.(rs_trace) = count_obs is_request s.(rs_trace) → paid_for b0 s → paid_for b0 s'.
Proof. unfold paid_for. by intros -> -> ->. Qed.

Lemma count_log p ob s : count_obs p (log ob s).(rs_trace) = count_obs p s.(rs_trace) + (if p ob then 1 else 0).
Proof.
  simpl. rewrite count_app. f_equal. unfold count_obs, filter_by. rewrite filter_cons. by destruct (p ob).
Qed.

(** What [b0] has paid at [s0] covers one more start of the counted kind. *)
Lemma paid_for_start b0 s0 s c (p : Obs → bool) :
  paid_for b0 s0 → paid c s0 s → (∀ ob, quiet_obs ob → p ob = false) →
  ∀ b1, s0.(rs_budget) = Some b1 →
    count_obs p s0.(rs_trace) ≤ b1.(eb_state).(bs_counter) c - b0.(eb_state).(bs_counter) c →
  ∃ b, s.(rs_budget) = Some b
    ∧ count_obs p s.(rs_trace) + 1 ≤ b.(eb_state).(bs_counter) c - b0.(eb_state).(bs_counter) c.
Proof.
  intros H0 [Hq Hp] Hpq b1 Hb1 Hle. destruct (Hp b1 Hb1) as (b & Hb & Hc). exists b. split; [done|].
  destruct (qu_trace _ _ Hq) as (new & -> & Hn). rewrite count_app, (count_quiet p new) by done. lia.
Qed.

#[export] Instance paid_for_inv b0 : RunInv o any_kind (paid_for b0).
Proof.
  assert (∀ s s', quietly s s' → paid_for b0 s → paid_for b0 s') as Hq by apply paid_for_quiet.
  assert (∀ s ob, is_execute ob = false → is_request ob = false → paid_for b0 s → paid_for b0 (log ob s)) as Hlog.
  { intros s ob He Hr. apply paid_for_same; [done|by rewrite count_log, He, Z.add_0_r..|by rewrite count_log, Hr, Z.add_0_r]. }
  split; [split; [by apply quiet_from|]|..]; intros s.
  - intros s1 call args tool H0 H Hp _ _ _ _. destruct H as (b & Hb & Hs & He & Hr). exists b.
    destruct H0 as (b1 & Hb1 & Hs1 & He1 & Hr1).
    destruct (paid_for_start b0 s s1 ToolCalls is_execute) with b1 as (b' & Hb' & Hle); try done.
    { exists b1. by split_and!. } { by intros []. }
    rewrite Hb in Hb'. injection Hb' as <-. rewrite !count_log. simpl. rewrite Z.add_0_r. by split_and!.
  - intros H. unfold mark_interrupted. destruct (rs_interrupted s); [done|]. by apply (Hlog s OInterrupted) in H.
  - intros m H _. revert H. by apply paid_for_same.
  - intros m H _. revert H. by apply paid_for_same.
  - intros id H _. revert H. by apply paid_for_same.
  - intros call. by apply paid_for_same.
  - intros s1 c H0 H Hqs Hp _. destruct H as (b & Hb & Hs & He & Hr). exists b.
    unfold requested. rewrite !count_log. simpl. rewrite Z.add_0_r. split_and!; [done..|]. intros Ht. specialize (Hp Ht).
    destruct H0 as (b1 & Hb1 & Hs1 & He1 & Hr1).
    destruct (paid_for_start b0 s s1 ProviderRequests is_request) with b1 as (b' & Hb' & Hle); try done; auto.
    { exists b1. by split_and!. } { by intros []. }
    rewrite Hb in Hb'. by injection Hb' as <-.
  - intros spec id. by apply Hlog.
  - by apply paid_for_same.
  - intros i. by apply paid_for_same.
Qed.

Lemma spends_room b0 b c limit n : spends b0 b →
  b0.(eb_limits).(bl_counter) c = Some limit → b0.(eb_state).(bs_counter) c ≤ limit →
  n ≤ b.(eb_state).(bs_counter) c - b0.(eb_state).(bs_counter) c →
  n ≤ limit - b0.(eb_state).(bs_counter) c.
Proof. intros Hs Hl H0 Hn. destruct (sp_within _ _ Hs c) as [|[_ Hw]]; [lia|]. specialize (Hw _ Hl). lia. Qed.

(** C14: A run never starts more tools than its budget has tool calls left,
    nor, when it counts the requests itself, asks the provider more often
    than it has requests left, whatever others take of the same budget and
    however its checkpoint and clock behave. *)
Theorem run_within_budget fuel b0 :
  let trace := (run_chat o fuel (initial o (Some b0))).2.(rs_trace) in
  (∀ limit, b0.(eb_limits).(bl_counter) ToolCalls = Some limit →
     b0.(eb_state).(bs_counter) ToolCalls ≤ limit →
     count_obs is_execute trace ≤ limit - b0.(eb_state).(bs_counter) ToolCalls)
  ∧ (o.(ro_tracks_transport_requests) = false →
     ∀ limit, b0.(eb_limits).(bl_counter) ProviderRequests = Some limit →
       b0.(eb_state).(bs_counter) ProviderRequests ≤ limit →
       count_obs is_request trace ≤ limit - b0.(eb_state).(bs_counter) ProviderRequests).
Proof.
  intros trace. assert (paid_for b0 (run_chat o fuel (initial o (Some b0))).2) as (b & _ & Hs & He & Hr).
  { apply (run_keeps_inv o any_kind (paid_for b0)); [by intros|]. exists b0.
    split_and!; [done..|by rewrite Z.sub_diag|by rewrite Z.sub_diag]. }
  split.
  - intros limit Hl H0. by eapply spends_room.
  - intros Ht limit Hl H0. eapply spends_room; eauto.
Qed.

(** ** Messages and events *)

(** The messages of a run and those handed to the sink or waiting for it:
    the run's own messages join both, steers the history alone, and the
    stand-in of a missing result leaves it. *)
Inductive history : list ChatMessage → list ChatMessage → Prop :=
  | hi_start : history o.(ro_messages) []
  | hi_own ms h m : history ms h → own_message m → history (ms ++ [m]) (h ++ [m])
  | hi_steer ms h m : history ms h → m.(cm_role) = "user" → history (ms ++ [m]) h
  | hi_supersede ms h call : history ms h → history (filter_by (λ m, negb (superseded call m)) ms) h.

Definition on_record s : Prop := history s.(rs_messages) (handed s).

Lemma on_record_same s s' :
  s'.(rs_messages) = s.(rs_messages) → handed s' = handed s → on_record s → on_record s'.
Proof. unfold on_record. by intros -> ->. Qed.
Lemma handed_log ob s : handed_obs ob = [] → handed (log ob s) = handed s.
Proof. intros H. unfold handed. simpl. rewrite map_app, concat_app. simpl. by rewrite H, !app_nil_r. Qed.

#[export] Instance on_record_inv : RunInv o any_kind on_record.
Proof.
  assert (∀ s s', quietly s s' → on_record s → on_record s') as Hq.
  { intros s s' H. apply on_record_same; apply H. }
  assert (∀ s ob, handed_obs ob = [] → on_record s → on_record (log ob s)) as Hlog.
  { intros s ob H. apply on_record_same; [done|by apply handed_log]. }
  split; [split; [by apply quiet_from|]|..]; intros s; try done.
  - intros s1 call args tool _ H _ _ _ _ _. by apply Hlog.
  - intros H. unfold mark_interrupted. destruct (rs_interrupted s); [done|]. by apply (Hlog s OInterrupted) in H.
  - intros m H Hm. unfold on_record, handed. simpl. rewrite app_assoc. by apply hi_own.
  - intros m H Hm. by apply hi_steer.
  - intros call H. by apply hi_supersede.
  - intros s1 c _ H _ _ _. by apply Hlog.
  - intros spec id. by apply Hlog.
Qed.

(** Histories without stand-ins: what came first stays, and what was added is
    the handed messages with the steers among them. *)
Definition is_own (m : ChatMessage) : bool :=
  bool_decide (m.(cm_role) = "assistant") || bool_decide (m.(cm_role) = "tool").

Lemma history_shape ms h : history ms h →
  Forall (λ m, is_synthetic_missing from_str m = false) (o.(ro_messages) ++ h) →
  ∃ added, ms = o.(ro_messages) ++ added ∧ filter_by is_own added = h
    ∧ Forall (λ m, is_own m = true ∨ m.(cm_role) = "user") added.
Proof.
  induction 1 as [|ms h m _ IH Hm|ms h m _ IH Hm|ms h call _ IH]; intros Hs.
  - exists []. by rewrite app_nil_r.
  - rewrite app_assoc in Hs. apply Forall_app in Hs as [Hs _].
    destruct (IH Hs) as (added & -> & Hf & Hr). exists (added ++ [m]).
    assert (is_own m = true) as Hown. { unfold is_own. destruct Hm as [-> | ->]; done. }
    split_and!; [by rewrite app_assoc| |apply Forall_app_2; [done|by auto]].
    unfold filter_by in *. rewrite filter_app, Hf. f_equal. rewrite filter_cons. by rewrite Hown.
  - destruct (IH Hs) as (added & -> & Hf & Hr). exists (added ++ [m]).
    assert (is_own m = false) as Hown. { unfold is_own. by rewrite Hm. }
    split_and!; [by rewrite app_assoc| |apply Forall_app_2; [done|by auto]].
    unfold filter_by in *. rewrite filter_app, Hf, filter_cons, Hown. by rewrite app_nil_r.
  - destruct (IH Hs) as (added & -> & Hf & Hr). exists added. split_and!; [|done..].
    apply filter_by_id. intros m Hm. apply elem_of_app in Hm as Hm'.
    unfold superseded. apply negb_true_iff, andb_false_iff.
    rewrite Forall_app, !Forall_forall in Hs. destruct Hs as [Hi Hh]. destruct Hm' as [Hm'|Hm'].
    { right. by apply Hi. }
    rewrite Forall_forall in Hr. destruct (Hr m Hm') as [Hown|Hu].
    + right. apply Hh. rewrite <-Hf. unfold filter_by. apply list_elem_of_filter. by rewrite Hown.
    + left. apply andb_false_iff. left. by rewrite Hu.
Qed.

Lemma run_result_messages fuel budget r s : run_chat o fuel (initial o budget) = (Done (Ok r), s) →
  r.(rr_appended_messages) = drop (length o.(ro_messages)) s.(rs_messages).
Proof.
  assert (∀ t s0, run_result o t s0 = (Done (Ok r), s) →
    r.(rr_appended_messages) = drop (length o.(ro_messages)) s.(rs_messages)) as Hend.
  { intros t s0. unfold run_result, rget, mbind, rm_bind. case_match; [discriminate|]. by intros [= <- <-]. }
  unfold run_chat, mbind, rm_bind. destruct (new_run o _) as [[[u|e]| |] s1]; try discriminate.
  destruct (attempt _ s1) as [[[[t|e]|e]| |] s2]; try discriminate; cbn [fst snd].
  - apply Hend.
  - destruct (end_error o e s2) as [[[t|e']| |] s3]; try discriminate. apply Hend.
Qed.

(** Every message a run adds reaches the sink: as long as no stand-in for
    a missing result is about, its history is the one it was given, unchanged,
    followed by what it added; of that, the model's and the tools' messages
    are, in order and each once, those that travelled with its events or wait
    for the next one, and the rest are the user's steers; and these are the
    messages the result reports. *)
Theorem run_history_handed fuel budget :
  let '(outcome, s) := run_chat o fuel (initial o budget) in
  Forall (λ m, is_synthetic_missing from_str m = false)
    (o.(ro_messages) ++ concat (map handed_obs s.(rs_trace)) ++ s.(rs_pending)) →
  ∃ added, s.(rs_messages) = o.(ro_messages) ++ added
    ∧ filter_by is_own added = concat (map handed_obs s.(rs_trace)) ++ s.(rs_pending)
    ∧ Forall (λ m, is_own m = true ∨ m.(cm_role) = "user") added
    ∧ ∀ r, outcome = Done (Ok r) → r.(rr_appended_messages) = added.
Proof.
  assert (on_record (run_chat o fuel (initial o budget)).2) as H.
  { apply (run_keeps_inv o any_kind on_record); [by intros|]. apply hi_start. }
  pose proof (run_result_messages fuel budget) as Hr.
  destruct (run_chat o fuel (initial o budget)) as [outcome s]. simpl in H. intros Hs.
  destruct (history_shape _ _ H Hs) as (added & Hm & Hf & Ha). exists added. split_and!; try done.
  intros r ->. specialize (Hr r s eq_refl). rewrite Hr. simpl. by rewrite Hm, drop_app_length.
Qed.
End laws.

(** ** On the demo world *)

#[local] Notation "'demo_run'" := (run_chat demo_opts 10 (initial demo_opts (Some demo_budget))).

Lemma run_starts_guarded_witness :
  ∃ t t', demo_run.2.(rs_trace) = t ++ OExecute (demo_call "c1") (VObj []) :: t'
    ∧ OCancelled ∉ t ∧ validate_input "echo" (VObj []) = [].
Proof.
  destruct (run_starts_guarded demo_opts 10 (Some demo_budget)) as [H1 H2].
  exists (take 7 demo_run.2.(rs_trace)), (drop 8 demo_run.2.(rs_trace)).
  assert (demo_run.2.(rs_trace) = take 7 demo_run.2.(rs_trace)
    ++ OExecute (demo_call "c1") (VObj []) :: drop 8 demo_run.2.(rs_trace)) as E by (vm_compute; reflexivity).
  split; [exact E|]. split; [exact (H1 _ _ _ E (or_intror eq_refl))|].
  apply (H2 (demo_call "c1") (VObj [])). rewrite E. apply elem_of_app. right. left.
Defined.

Lemma run_within_budget_witness :
  count_obs is_execute demo_run.2.(rs_trace) = 2 ∧ count_obs is_execute demo_run.2.(rs_trace) ≤ 5 - 0
  ∧ count_obs is_request demo_run.2.(rs_trace) ≤ 5 - 0.
Proof.
  destruct (run_within_budget demo_opts 10 demo_budget) as [H1 H2].
  split; [vm_compute; reflexivity|]. split; [exact (H1 5 eq_refl ltac:(vm_compute; discriminate))|].
  exact (H2 eq_refl 5 eq_refl ltac:(vm_compute; discriminate)).
Defined.

Lemma run_history_handed_witness :
  let '(outcome, s) := demo_run in
  ∃ added, s.(rs_messages) = [text_message "user" "go"] ++ added ∧ length added = 4%nat
    ∧ ∀ r, outcome = Done (Ok r) → r.(rr_appended_messages) = added.
Proof.
  pose proof (run_history_handed demo_opts 10 (Some demo_budget)) as H.
  destruct demo_run as [outcome s] eqn:E. destruct H as (added & H1 & H2 & _ & H4).
  - change s with (outcome, s).2. rewrite <-E. vm_compute. repeat constructor.
  - exists added. split; [exact H1|]. split; [|exact H4].
    apply (f_equal length) in H1. change s with (outcome, s).2 in H1. rewrite <-E, length_app in H1.
    assert (length (rs_messages demo_run.2) = 5%nat) as E5 by (vm_compute; reflexivity).
    rewrite E5 in H1. simpl in H1. lia.
Defined.
