(* ===== verification/RunEnding.v ===== *)
(** * How a run ends

    The last event of [run_chat] of [core/src/run.rs] tells how the run ended,
    and nothing follows it; and a run whose world answers does end. *)

From S2P Require Export RunLaws.
Local Open Scope Z_scope.

Definition midway (kind : string) : Prop := kind ∉ terminal_kinds.
Definition terminal_text (t : Terminal) : string :=
  match t with
  | RunCompleted => "run.completed" | RunFailed => "run.failed" | RunCancelled => "run.cancelled"
  end.
Lemma terminal_kind t : terminal_text t ∈ terminal_kinds.
Proof. destruct t; apply (bool_decide_eq_true_1 _); reflexivity. Qed.

Section ending.
Context {env : RunEnv} (o : RunOptions).
Implicit Types (s : RunState).

(** Providers leave the end of the run to the run. *)
Hypothesis provider_midway : ∀ n kind data, next_at n = NextItem (Ok (Event kind data)) → midway kind.

#[local] Instance midway_kinds : LoopKinds midway.
Proof.
  split; [|exact provider_midway]. intros kind Hk Ht.
  assert (Forall (λ kind, kind ∉ terminal_kinds) loop_kinds) as H.
  { unfold loop_kinds. repeat constructor; apply (bool_decide_eq_true_1 _); reflexivity. }
  rewrite Forall_forall in H. by apply (H kind).
Qed.

(** No terminal event yet; or one, the last. *)
Definition open_run s : Prop := Forall (λ e, midway e.(re_type)) (events s.(rs_trace)).
Definition sealed (t : Terminal) s : Prop :=
  ∃ before e, events s.(rs_trace) = before ++ [e] ∧ Forall (λ e, midway e.(re_type)) before
    ∧ e.(re_type) = terminal_text t.

(** The terminal event was formed and found invalid, or refused. *)
Definition unsent (t : Terminal) s : Prop :=
  ∃ e, e.(re_type) = terminal_text t ∧ (valid_event e = false ∨ ∃ error, ORefused e error ∈ s.(rs_trace)).

Lemma open_log ob s : event_of ob = None → open_run s → open_run (log ob s).
Proof.
  intros Ho. unfold open_run. simpl. rewrite events_app. unfold events at 3. simpl. by rewrite Ho, app_nil_r.
Qed.

#[local] Instance open_inv : RunInv o midway open_run.
Proof.
  split; [split; [split; [split|..]|]|..]; intros s; try done.
  - intros H. unfold mark_cancelled. destruct (rs_cancelled s); [done|]. by apply (open_log OCancelled) in H.
  - intros e H _ _ _ Hk. unfold open_run. simpl. rewrite events_app. apply Forall_app_2; [done|by constructor].
  - intros e error. by apply open_log.
  - intros context index. by apply open_log.
  - intros s1 call args tool _ H _ _ _ _ _. by apply open_log.
  - intros H. unfold mark_interrupted. destruct (rs_interrupted s); [done|]. by apply (open_log OInterrupted) in H.
  - intros s1 c _ H _ _ _. by apply open_log.
  - intros spec id. by apply open_log.
Qed.

Lemma emit_terminal t data :
  hoare open_run (emit o (terminal_text t) data) (λ _, sealed t) (λ s, open_run s ∧ unsent t s).
Proof.
  intros s Hs. unfold emit, ask, rget, mbind, rm_bind. cbn [fst snd].
  set (e := mkRunEvent _ _ _ _ _ _ _). destruct (valid_event e) eqn:Hv; cbn [negb].
  2:{ split; [done|]. exists e. auto. }
  assert (∀ tr, tr = s.(rs_trace) → ∃ before e', events (tr ++ [OEmit e s.(rs_pending)]) = before ++ [e']
    ∧ Forall (λ e, midway e.(re_type)) before ∧ e'.(re_type) = terminal_text t) as Hsent.
  { intros tr ->. exists (events s.(rs_trace)), e. by rewrite events_app. }
  destruct (ro_event_sink o); [|by apply Hsent].
  destruct (append_at _) as [u|err]; [by apply Hsent|]. cbn.
  unfold mark_cancelled. cbn. split.
  - unfold open_run. destruct (rs_cancelled s); cbn; rewrite ?events_app; unfold events at 2; simpl; rewrite ?app_nil_r; try done.
  - exists e. split; [done|right]. exists err. destruct (rs_cancelled s); cbn; rewrite !elem_of_app, ?list_elem_of_singleton; auto.
Qed.

(** ** The loop *)

(** The end of the loop proper: announced, or parked. *)
Definition closed (t : Terminal) s : Prop :=
  t = RunCompleted ∧
  (sealed t s ∨ open_run s ∧ (s.(rs_suspended) = true ∨ s.(rs_interrupted) = true)).

Lemma emit_completed data :
  hoare open_run (_ ← emit o "run.completed" data; mret RunCompleted) closed open_run.
Proof.
  eapply hoare_bind; [eapply hoare_conseq; [apply (emit_terminal RunCompleted)|done|intros a s Hs; exact Hs|by intros s []]|].
  intros u s Hs. split; [done|by left].
Qed.

Lemma open_keeps {A} (m : RM A) : keeps_run open_run m → hoare open_run m (λ _, open_run) open_run.
Proof. apply hoare_keeps. Qed.

Lemma final_answer_closes turn content : hoare open_run (final_answer o turn content) closed open_run.
Proof.
  pose proof (qi_silent midway (I := open_run)) as HQ.
  unfold final_answer. eapply hoare_bind; [apply hoare_keeps, (keeps_check midway open_run)|intros u].
  eapply hoare_bind.
  { apply hoare_keeps, keeps_when. intros _. apply (keeps_warning o midway open_run). }
  intros u1. eapply hoare_bind; [apply hoare_keeps, (keeps_check midway open_run)|intros u2].
  eapply hoare_bind; [by apply hoare_keeps, (keeps_push_pending o midway open_run); left|intros u3].
  apply (hoare_bind _ _ _ (λ _, open_run)); [apply hoare_keeps, keeps_get|intros i]. apply emit_completed.
Qed.

Lemma out_of_iterations_closes : hoare open_run (out_of_iterations o) closed open_run.
Proof.
  unfold out_of_iterations. eapply hoare_bind; [apply hoare_keeps, (keeps_warning o midway open_run)|intros u].
  apply (hoare_bind _ _ _ (λ _, open_run)); [apply hoare_keeps, keeps_get|intros i]. apply emit_completed.
Qed.

Lemma interrupted_open :
  hoare open_run (interrupted o) (λ i s, open_run s ∧ i = s.(rs_interrupted)) open_run.
Proof.
  intros s Hs. pose proof (keeps_interrupted o midway open_run s Hs) as Hk. revert Hk.
  unfold interrupted, mbind, rm_bind.
  match goal with |- context [match ?m s with _ => _ end] => destruct (m s) as [[[i|e]| |] s1] end; try done.
  by destruct i.
Qed.

Lemma iterations_close fuel rest iteration :
  hoare open_run (iterations o fuel rest iteration) closed open_run.
Proof.
  revert iteration. induction rest as [|rest IH]; intros iteration; cbn [iterations].
  { apply out_of_iterations_closes. }
  eapply hoare_bind; [by apply hoare_keeps; intros s|intros u].
  eapply hoare_bind; [apply hoare_keeps, (keeps_check midway open_run)|intros u1].
  eapply hoare_bind; [apply interrupted_open|intros [|]].
  { intros s [Hs Hi]. split; [done|]. right. auto. }
  eapply hoare_conseq; [|intros s [Hs _]; exact Hs|intros t s H; exact H|done].
  eapply hoare_bind; [apply hoare_keeps, keeps_get|intros messages].
  eapply hoare_bind; [apply hoare_keeps, (keeps_hooked o midway open_run)|intros u2].
  eapply hoare_bind; [apply (hoare_check midway open_run open_run); [apply open_inv|done]|intros u3].
  eapply hoare_bind; [apply (keeps_provider_turn o midway open_run)|intros turn].
  cbn zeta. destruct (dedupe _) as [calls duplicates].
  eapply hoare_bind; [apply hoare_keeps, (keeps_hooked o midway open_run)|intros u4].
  eapply hoare_bind.
  { apply hoare_keeps, keeps_when. intros _. apply (keeps_warning o midway open_run). }
  intros u5. destruct calls as [|call calls]; [apply final_answer_closes|].
  eapply hoare_bind.
  { apply hoare_keeps, keeps_when. intros _. apply (keeps_warning o midway open_run). }
  intros u6. eapply hoare_bind; [apply hoare_keeps, (keeps_tools o midway open_run)|intros u7].
  eapply hoare_bind; [apply hoare_get|intros [|]]; cbn beta.
  { intros s [Hb Hs]. split; [done|]. right. auto. }
  eapply hoare_conseq; [|intros s [_ Hs]; exact Hs|intros t s H; exact H|done].
  eapply hoare_bind; [|intros u8; apply IH].
  apply hoare_keeps, keeps_when. intros _. apply (keeps_apply_steering o midway open_run).
Qed.

Lemma run_body_closes fuel : hoare open_run (run_body o fuel) closed open_run.
Proof.
  unfold run_body. eapply hoare_bind; [apply hoare_keeps, keeps_get|intros messages].
  eapply hoare_bind; [apply hoare_keeps, (keeps_hooked o midway open_run)|intros u].
  eapply hoare_bind; [apply hoare_keeps, (keeps_resume o midway open_run)|intros u1].
  eapply hoare_bind; [apply hoare_get|intros [|]]; cbn beta.
  { intros s [Hb Hs]. split; [done|]. right. auto. }
  eapply hoare_conseq; [apply iterations_close|by intros s []|done..].
Qed.

(** ** The end *)

Definition ended (t : Terminal) s : Prop :=
  sealed t s
  ∨ open_run s ∧ (t = RunCompleted ∧ (s.(rs_suspended) = true ∨ s.(rs_interrupted) = true)
                  ∨ t ≠ RunCompleted ∧ unsent t s).

Lemma end_error_ends e : hoare open_run (end_error o e) ended open_run.
Proof.
  assert (∀ t data, t ≠ RunCompleted →
    hoare open_run (_ ← attempt (emit o (terminal_text t) data); mret t) ended open_run) as H.
  { intros t data Ht. eapply hoare_bind.
    - eapply hoare_conseq; [apply hoare_attempt, emit_terminal|done|intros r s Hs; exact Hs|by intros s []].
    - intros [u|e'] s Hs; [by left|]. right. destruct Hs. auto. }
  unfold end_error. destruct (bool_decide _); [by apply (H RunCancelled)|by apply (H RunFailed)].
Qed.

(** Reading the result panics when the history has become shorter than the
    one the run was given, the end announced or not. *)
Definition shortened s : Prop := (length s.(rs_messages) < length o.(ro_messages))%nat.
Definition broken s : Prop := open_run s ∨ (∃ t, sealed t s) ∧ shortened s.

Lemma run_result_ends t :
  hoare (ended t) (run_result o t) (λ r s, ended r.(rr_terminal) s ∧ r.(rr_suspended) = s.(rs_suspended)) broken.
Proof.
  intros s Hs. unfold run_result, rget, mbind, rm_bind.
  destruct (Nat.ltb_spec (length s.(rs_messages)) (length o.(ro_messages))) as [Hl|]; [|done].
  destruct Hs as [Hs|[Hs _]]; [right|by left]. split; [by exists t|done].
Qed.

Lemma run_ends fuel :
  hoare open_run
    (ended ← attempt (run_body o fuel);
     terminal ← match ended with Ok t => mret t | Err e => end_error o e end;
     run_result o terminal)
    (λ r s, ended r.(rr_terminal) s ∧ r.(rr_suspended) = s.(rs_suspended)) broken.
Proof.
  assert (∀ s, open_run s → broken s) as Hb by by left.
  eapply hoare_bind.
  { eapply hoare_conseq; [apply hoare_attempt, run_body_closes|done|intros r s Hs; exact Hs|done]. }
  intros [t|e].
  - apply (hoare_bind _ _ _ (λ t, ended t)); [|apply run_result_ends].
    intros s [-> [Hs|[Hs Hp]]]; [by left|]. right. auto.
  - eapply hoare_bind; [|apply run_result_ends].
    eapply hoare_conseq; [apply end_error_ends|done|intros t s Hs; exact Hs|done].
Qed.

(** C13: A run announces its end once and last: the events before the last one
    never announce an end; the last one, if it does, announces the end the
    result reports, and a run that ends without one was parked, was
    interrupted, or had its failure or cancellation refused by the event sink
    (or its own envelope check).  A run that waits for an answer, or panics,
    has announced no end, unless it panics because its history is shorter
    than the one it was given. *)
Theorem run_announces_end_once fuel budget :
  let '(outcome, s) := run_chat o fuel (initial o budget) in
  ∃ before last, events s.(rs_trace) = before ++ last
    ∧ Forall (λ e, e.(re_type) ∉ terminal_kinds) before
    ∧ match outcome with
      | Done (Ok r) =>
          match last with
          | [] => r.(rr_terminal) = RunCompleted ∧ (r.(rr_suspended) = true ∨ s.(rs_interrupted) = true)
                  ∨ r.(rr_terminal) ≠ RunCompleted ∧ unsent r.(rr_terminal) s
          | [e] => e.(re_type) = terminal_text r.(rr_terminal)
          | _ => False
          end
      | _ => last = [] ∨ length last = 1%nat ∧ (length s.(rs_messages) < length o.(ro_messages))%nat
      end.
Proof.
  assert (open_run (started o budget)) as Hs0 by by constructor.
  pose proof (run_ends fuel (started o budget) Hs0) as H.
  change (run_chat o fuel (initial o budget)) with ((ended ← attempt (run_body o fuel);
     terminal ← match ended with Ok t => mret t | Err e => end_error o e end;
     run_result o terminal) (started o budget)).
  match type of H with match ?m with _ => _ end => destruct m as [[[r|e]| |] s] end.
  2-4: destruct H as [H|[(t & before & e' & He & Hb & _) Hl]];
    [exists (events (rs_trace s)), []; rewrite app_nil_r; auto|exists before, [e']; auto].
  destruct H as [[(before & e & He & Hb & Hk)|[Ho He]] Hr].
  - by exists before, [e].
  - exists (events (rs_trace s)), []. rewrite app_nil_r, Hr. done.
Qed.
End ending.

Lemma run_announces_end_once_witness :
  let '(outcome, s) := run_chat demo_opts 10 (initial demo_opts None) in
  ∃ before e, events s.(rs_trace) = before ++ [e] ∧ Forall (λ e, e.(re_type) ∉ terminal_kinds) before
    ∧ e.(re_type) = "run.completed".
Proof.
  assert (∀ n kind data, next_at n = NextItem (Ok (Event kind data)) → midway kind) as Hp.
  { intros n kind data. do 6 (destruct n as [|n]; [discriminate|]). discriminate. }
  pose proof (run_announces_end_once demo_opts Hp 10 None) as H.
  destruct (run_chat demo_opts 10 (initial demo_opts None)) as [outcome s] eqn:E.
  assert (outcome = (run_chat demo_opts 10 (initial demo_opts None)).1) as Eo by by rewrite E.
  assert (length (rs_trace s) = 15%nat) as Es.
  { change s with (outcome, s).2. rewrite <-E. vm_compute. reflexivity. }
  destruct H as (before & last & H1 & H2 & H3). vm_compute in Eo. subst outcome.
  destruct last as [|e [|e' last]]; [|exists before, e; auto|destruct H3].
  exfalso. change s with (outcome, s).2 in H1.
  destruct H3 as [[_ [H3|H3]]|[H3 _]]; [discriminate H3| |by apply H3].
  assert (rs_interrupted (run_chat demo_opts 10 (initial demo_opts None)).2 = false) as Hi by (vm_compute; reflexivity).
  rewrite E in Hi. cbn [snd] in Hi. congruence.
Defined.
