(* ===== verification/RunTermination.v ===== *)
(** * A run ends

    The loop of [core/src/run.rs] is bounded by its iterations, and each of
    its waits by a deadline or an answer; so a run whose streams end and whose
    unbounded waits are answered returns a result. *)

From S2P Require Export RunEnding.
Local Open Scope Z_scope.

(** The end of a stream: its own, or the run's leaving it; a wait under an
    overall limit expires. *)
Definition stream_end (overall : bool) (r : NextReply) : bool :=
  match r with
  | NextEnd | NextCancelled | NextItem (Err _) => true
  | NextExpired => overall
  | NextItem (Ok _) => false
  end.
Definition usage_ok (event : ProviderEvent) : bool :=
  match event with Usage (VObj _) | Usage VNull => true | Usage _ => false | _ => true end.
Definition opt_usage_ok (polled : option (Res CoreError ProviderEvent)) : bool :=
  match polled with Some (Ok event) => usage_ok event | _ => true end.

(** A world that answers: each stream ends within [k] polls, what has no
    deadline is answered, and usage is reported as objects. *)
Class Responsive {env : RunEnv} (o : RunOptions) (overall : bool) (k : nat) : Prop := {
  re_stream n : ∃ i, (i < k)%nat ∧ stream_end overall (next_at (n + i)) = true;
  re_next n : overall = false → next_at n ≠ NextExpired;
  re_hook n : overall = false → o.(ro_hook_timeout_ms) = Some 0 → hook_at n ≠ HookExpired;
  re_steer n : o.(ro_hook_timeout_ms) = Some 0 → steer_at n ≠ SteerExpired;
  re_tool n : overall = false → o.(ro_default_tool_timeout_ms) = None → (tool_at n).1 ≠ ToolExpired;
  re_body n : overall = false → o.(ro_tool_close) = true → (tool_at n).1 ≠ ToolCancelled;
  re_close n : o.(ro_tool_close) = false → (tool_at n).1 ≠ ToolClosed;
  re_usage n : match next_at n with NextItem (Ok event) => usage_ok event = true | _ => True end;
  re_flush n : opt_usage_ok (flush_at n) = true
}.

Section termination.
Context {env : RunEnv} (o : RunOptions) (overall : bool) (k : nat) `{!Responsive o overall k}.
Implicit Types (s : RunState).

(** The overall limit, when there is one, stays. *)
Definition timely s : Prop :=
  overall = true → ∃ b, s.(rs_budget) = Some b ∧ is_some b.(eb_limits).(bl_overall_ms) = true.

(** What holds of the clock, the budget and the place in the stream. *)
Class Calm (I : RunState → Prop) : Prop := {
  calm_timely s : I s → timely s;
  calm_step s s' : spends_opt s.(rs_budget) s'.(rs_budget) → s'.(rs_polls) = s.(rs_polls) → I s → I s'
}.

#[export] Instance timely_calm : Calm timely.
Proof.
  split; [done|]. intros s s' Hs _ Ht E. destruct (Ht E) as (b & Hb & Hl). rewrite Hb in Hs. simpl in Hs.
  destruct (rs_budget s') as [b'|]; [|done]. exists b'. split; [done|]. by rewrite (sp_limits _ _ Hs).
Qed.
Definition from_poll (p : nat) s : Prop := timely s ∧ s.(rs_polls) = p.
#[export] Instance from_poll_calm p : Calm (from_poll p).
Proof.
  split; [by intros s []|]. intros s s' Hs Hp [Ht E]. split; [|congruence]. by eapply (calm_step s).
Qed.

Definition halts (I : RunState → Prop) {A} (m : RM A) : Prop :=
  ∀ s, I s → ∃ r s', m s = (Done r, s') ∧ I s'.

Section calm.
Context (I : RunState → Prop) `{!Calm I}.

Lemma calm_same s s' : s'.(rs_budget) = s.(rs_budget) → s'.(rs_polls) = s.(rs_polls) → I s → I s'.
Proof. intros Hb. apply calm_step. by rewrite Hb. Qed.

Lemma halts_bind {A B} (m : RM A) (f : A → RM B) : halts I m → (∀ a, halts I (f a)) → halts I (m ≫= f).
Proof.
  intros Hm Hf s Hs. destruct (Hm s Hs) as (r & s' & E & Hs'). unfold mbind, rm_bind. rewrite E.
  destruct r as [a|e]; [by apply Hf|]. eauto.
Qed.
Lemma halts_ret {A} (a : A) : halts I (mret a).
Proof. intros s Hs. eexists _, _. by split. Qed.
Lemma halts_get {A} (f : RunState → A) : halts I (rget f).
Proof. intros s Hs. eexists _, _. by split. Qed.
Lemma halts_lift {A} (r : Res CoreError A) : halts I (rlift r).
Proof. intros s Hs. eexists _, _. by split. Qed.
Lemma halts_throw {A} e : halts I (rthrow (A := A) e).
Proof. apply halts_lift. Qed.
Lemma halts_modify f :
  (∀ s, spends_opt s.(rs_budget) (f s).(rs_budget) ∧ (f s).(rs_polls) = s.(rs_polls)) → halts I (rmodify f).
Proof. intros Hf s Hs. eexists _, _. split; [done|]. by apply (calm_step s); [apply Hf..|]. Qed.
Lemma halts_ask_bind {A B} (f : nat → A) (g : A → RM B) :
  (∀ n, halts I (g (f n))) → halts I (ask f ≫= g).
Proof. intros Hg s Hs. unfold ask, mbind, rm_bind. apply Hg. by apply (calm_same s). Qed.
Lemma halts_ask {A} (f : nat → A) : halts I (ask f).
Proof. intros s Hs. eexists _, _. split; [done|]. by apply (calm_same s). Qed.
Lemma halts_attempt {A} (m : RM A) : halts I m → halts I (attempt m).
Proof. intros Hm s Hs. destruct (Hm s Hs) as (r & s' & E & Hs'). unfold attempt. rewrite E. eauto. Qed.
Lemma halts_when b m : (b = true → halts I m) → halts I (when_ b m).
Proof. destruct b; simpl; [auto|]. intros _. apply halts_ret. Qed.
Lemma halts_each {A} (f : A → RM unit) l : (∀ a, halts I (f a)) → halts I (each f l).
Proof. intros Hf. induction l as [|a l IH]; [apply halts_ret|]. by apply halts_bind. Qed.
End calm.

Create HintDb halts.
#[local] Hint Resolve halts_ret halts_get halts_lift halts_throw halts_ask : halts.
#[local] Hint Extern 1 (halts _ (rmodify _)) => apply halts_modify; [apply _|by intros] : halts.
#[local] Hint Extern 1 (halts _ (record _)) => apply halts_modify; [apply _|by intros] : halts.

Ltac halts_step :=
  match goal with
  | |- halts _ (mbind _ _) => apply halts_bind; [|intros ?]
  | |- halts _ (_ ≫= _) => apply halts_bind; [|intros ?]
  | |- halts _ (attempt _) => apply halts_attempt
  | |- halts _ (when_ _ _) => apply halts_when; intros ?
  | |- halts _ (each _ _) => apply halts_each; intros ?
  | |- halts _ (match ?x with _ => _ end) => destruct x
  end.
Ltac halts_tac := intros; repeat first [solve [eauto with halts] | halts_step].

Section steps.
Context (I : RunState → Prop) `{!Calm I}.

(** ** Tokens and budget *)

Lemma halts_cancel : halts I cancel.
Proof. apply halts_modify; [done|]. intros s. unfold mark_cancelled. by destruct (rs_cancelled s). Qed.
#[local] Hint Resolve halts_cancel : halts.
Lemma halts_is_cancelled : halts I is_cancelled.
Proof. unfold is_cancelled. halts_tac. Qed.
Lemma halts_interrupted : halts I (interrupted o).
Proof.
  unfold interrupted. halts_tac. apply halts_modify; [done|]. intros s. unfold mark_interrupted.
  by destruct (rs_interrupted s).
Qed.
Lemma halts_now : halts I now_ms.
Proof. by apply halts_ask. Qed.
Lemma halts_budget_fail e : halts I (budget_fail e).
Proof.
  apply halts_modify; [done|]. intros s. split; [|done]. simpl. destruct (rs_budget s); [|done].
  apply (spends_fail_all [e]).
Qed.
Lemma halts_others_act : halts I others_act.
Proof.
  unfold others_act. apply halts_ask_bind; [done|]. intros n. apply halts_modify; [done|].
  intros s. split; [|done]. simpl. destruct (rs_budget s); [apply shared_spends|done].
Qed.
#[local] Hint Resolve halts_is_cancelled halts_interrupted halts_now halts_budget_fail halts_others_act : halts.
Lemma halts_budget_check : halts I budget_check.
Proof. unfold budget_check. halts_tac. Qed.
Lemma halts_budget_remaining : halts I budget_remaining.
Proof. unfold budget_remaining. halts_tac. Qed.
Lemma halts_budget_consume counter : halts I (budget_consume counter).
Proof.
  unfold budget_consume. apply halts_bind; [apply halts_others_act|intros u].
  intros s Hs. unfold now_ms, ask, rmodify, rget, rlift, mbind, rm_bind. cbn -[consume].
  destruct (rs_budget s) as [b|] eqn:Hb; [|by eexists _, _]. cbn -[consume].
  match goal with |- context [consume ?c b] => pose proof (consume_spends c b) as Hc; destruct (consume c b) as [r b'] end.
  eexists _, _. split; [done|]. apply (calm_step s); [|done..]. simpl. by rewrite Hb.
Qed.
#[local] Hint Resolve halts_budget_check halts_budget_remaining halts_budget_consume : halts.
Lemma halts_check : halts I check.
Proof. unfold check. halts_tac. Qed.
#[local] Hint Resolve halts_check : halts.

(** What the budget has left is known when the run has an overall limit. *)
Lemma halts_remaining_bind {A} (f : option Z → RM A) :
  (∀ r, (overall = true → r ≠ None) → halts I (f r)) → halts I (budget_remaining ≫= f).
Proof.
  intros Hf s Hs. unfold budget_remaining, now_ms, ask, rget, mbind, rm_bind. cbn.
  apply Hf; [|by apply (calm_same I s)]. intros E. destruct (calm_timely s Hs E) as (b & -> & Hl). simpl.
  unfold remaining_ms. by destruct (bl_overall_ms _).
Qed.

(** ** Events, hooks, steering *)

Lemma halts_emit kind data : halts I (emit o kind data).
Proof. unfold emit. halts_tac. Qed.
#[local] Hint Resolve halts_emit : halts.
Lemma halts_warning code message : halts I (warning o code message).
Proof. apply halts_emit. Qed.
#[local] Hint Resolve halts_warning : halts.

Lemma halts_push_pending m : halts I (push_pending m).
Proof. unfold push_pending, push_message. halts_tac. Qed.
#[local] Hint Resolve halts_push_pending : halts.

Lemma halts_apply_steering step : halts I (apply_steering o step).
Proof.
  unfold apply_steering. destruct (negb _); [by apply halts_ret|]. apply halts_ask_bind; [done|]. intros n.
  pose proof (re_steer (o := o) n) as Hn. destruct (steer_at n); [halts_tac| |halts_tac|].
  - case_match eqn:E; [|halts_tac]. destruct (ro_hook_timeout_ms o) as [ms|]; simpl in E; [|lia].
    assert (ms = 0) as -> by lia. by destruct Hn.
  - unfold apply_steer, push_message. halts_tac.
Qed.
#[local] Hint Resolve halts_apply_steering : halts.

Lemma halts_invoke_hook index context : halts I (invoke_hook o index context).
Proof.
  unfold invoke_hook. apply halts_remaining_bind. intros left_ms Hleft.
  apply halts_bind; [halts_tac|intros u]. apply halts_ask_bind; [done|]. intros n.
  pose proof (re_hook (o := o) n) as Hn. destruct (hook_at n); [halts_tac| |halts_tac..].
  case_match eqn:E; [halts_tac|]. exfalso. destruct left_ms as [l|].
  - revert E. by destruct (_ =? 0).
  - destruct overall; [by destruct Hleft|]. destruct (ro_hook_timeout_ms o) as [ms|]; simpl in E.
    + destruct (ms =? 0) eqn:Ez; [|done]. assert (ms = 0) as -> by lia. by destruct Hn.
    + done.
Qed.
#[local] Hint Resolve halts_invoke_hook : halts.
Lemma halts_observe context : halts I (observe o context).
Proof. unfold observe. halts_tac. Qed.
#[local] Hint Resolve halts_observe : halts.
Lemma halts_run_gates context indexes : halts I (run_gates o context indexes).
Proof. induction indexes as [|i indexes IH]; simpl; halts_tac. Qed.
#[local] Hint Resolve halts_run_gates : halts.
Lemma halts_tool_gate call : halts I (tool_gate o call).
Proof. unfold tool_gate. halts_tac. Qed.
Lemma halts_park spec call : halts I (park_suspension o spec call).
Proof. unfold park_suspension. halts_tac. Qed.
Lemma halts_cancel_suspended call : halts I (cancel_suspended o call).
Proof. unfold cancel_suspended. halts_tac. Qed.
#[local] Hint Resolve halts_tool_gate halts_park halts_cancel_suspended : halts.

(** ** Tools *)

(** Also what a computation answers with. *)
Definition answers {A} (m : RM A) (Q : A → Prop) : Prop :=
  ∀ s, I s → ∃ r s', m s = (Done r, s') ∧ I s' ∧ ∀ a, r = Ok a → Q a.
Lemma answers_bind {A B} (m : RM A) (f : A → RM B) Q :
  answers m Q → (∀ a, Q a → halts I (f a)) → halts I (m ≫= f).
Proof.
  intros Hm Hf s Hs. destruct (Hm s Hs) as (r & s' & E & Hs' & Hq). unfold mbind, rm_bind. rewrite E.
  destruct r as [a|e]; [by apply Hf; [apply Hq|]|]. eauto.
Qed.
Lemma answers_budget : answers (rget rs_budget) (λ b, overall = true → b ≠ None).
Proof.
  intros s Hs. eexists _, _. split; [done|]. split; [done|]. intros b [= <-] E.
  by destruct (calm_timely s Hs E) as (b & -> & _).
Qed.
Lemma answers_remaining : answers budget_remaining (λ r, overall = true → r ≠ None).
Proof.
  intros s Hs. eexists _, _. split; [done|]. split; [by apply (calm_same I s)|]. intros r [= <-] E. cbn.
  destruct (calm_timely s Hs E) as (b & -> & Hl). simpl. unfold remaining_ms. by destruct (bl_overall_ms _).
Qed.

Lemma halts_run_tool tool call args : halts I (run_tool o tool call args).
Proof.
  unfold run_tool. eapply answers_bind; [apply answers_budget|]. intros b Hb. cbv zeta.
  set (limit := match b with Some _ => _ | None => _ end).
  assert (answers limit (λ l, overall = true → l ≠ None)) as Hlimit.
  { unfold limit. destruct b as [b|]; [|intros s Hs; eexists _, _; split; [done|]; split; [done|]; naive_solver].
    intros s Hs. destruct (answers_remaining s Hs) as (r & s' & E & Hs' & Hr). unfold mbind, rm_bind. rewrite E.
    destruct r as [r|e]; [|naive_solver]. eexists _, _. split; [done|]. split; [done|]. intros l [= <-] Eo.
    specialize (Hr r eq_refl Eo). by destruct r, (ro_tool_ms o). }
  clearbody limit. eapply answers_bind; [done|]. intros budget_deadline _.
  eapply answers_bind; [done|]. intros within Hw. apply halts_bind; [halts_tac|intros u].
  apply halts_ask_bind; [done|]. intros n. pose proof (re_tool (o := o) n) as Hexp.
  pose proof (re_body (o := o) n) as Hbody. pose proof (re_close (o := o) n) as Hclose.
  destruct (tool_at n) as [reply slot]. simpl in *. apply halts_bind; [|halts_tac].
  destruct reply as [r| | |]; [halts_tac|..].
  - case_match eqn:E; [halts_tac|]. exfalso. destruct within as [w|].
    { revert E. by destruct (opt_or _ _). }
    destruct overall; [by destruct Hw|]. destruct (ro_default_tool_timeout_ms o); [|by destruct Hexp].
    revert E. by destruct (opt_filter _ _).
  - destruct (is_some b) eqn:Eb; cbn [negb andb]; [halts_tac|]. destruct (ro_tool_close o); [|halts_tac].
    exfalso. destruct b; [done|]. destruct overall; [by destruct Hb|by destruct Hbody].
  - destruct (ro_tool_close o); [halts_tac|by destruct Hclose].
Qed.
#[local] Hint Resolve halts_run_tool : halts.

Lemma halts_execute call : halts I (execute o call).
Proof. unfold execute. halts_tac. Qed.
#[local] Hint Resolve halts_execute : halts.
Lemma halts_start_call call b : halts I (start_call o call b).
Proof. unfold start_call. halts_tac. Qed.
#[local] Hint Resolve halts_start_call : halts.
Lemma halts_run_call cap index call b : halts I (run_call o cap index call b).
Proof. unfold run_call, release_held, decide_outcome, conclude_call, answer_call. halts_tac. Qed.
#[local] Hint Resolve halts_run_call : halts.
Lemma halts_run_calls cap index calls b : halts I (run_calls o cap index calls b).
Proof. revert index b. induction calls as [|call calls IH]; intros; simpl; halts_tac. Qed.
#[local] Hint Resolve halts_run_calls : halts.
Lemma halts_tools announced content calls cap push : halts I (tools o announced content calls cap push).
Proof. unfold tools, announce, close_batch. halts_tac. Qed.

(** ** The stream *)

Lemma halts_emit_usage data : usage_ok (Usage data) = true → halts I (emit_usage o data).
Proof. unfold emit_usage. destruct data; try done; halts_tac. Qed.
Lemma halts_flush_usage polls : halts I (flush_usage o polls).
Proof.
  induction polls as [|polls IH]; simpl; [halts_tac|]. apply halts_ask_bind; [done|]. intros n.
  pose proof (re_flush (o := o) n) as Hn. destruct (flush_at n) as [[event|e]|]; [|halts_tac..].
  destruct event; try done. apply halts_bind; [by apply halts_emit_usage|done].
Qed.
#[local] Hint Resolve halts_flush_usage : halts.
Lemma halts_abandon {A} e : halts I (abandon_stream (A := A) o e).
Proof. unfold abandon_stream. halts_tac. Qed.
Lemma halts_provider_event turn event : usage_ok event = true → halts I (provider_event o turn event).
Proof.
  intros Hu. unfold provider_event, progress, tool_preparing.
  destruct event; try by halts_tac.
  apply halts_bind; [halts_tac|intros i]. apply halts_bind; [by apply halts_emit_usage|halts_tac].
Qed.
Lemma halts_watch_event event w : halts I (watch_event event w).
Proof. unfold watch_event. halts_tac. Qed.
Lemma answers_deadline w : answers (deadline o w) (λ d, overall = true → d.1 ≠ None).
Proof.
  unfold deadline. intros s Hs. eexists _, _. split; [done|]. split; [by apply (calm_same I s)|].
  intros d [= <-] E. cbn. destruct (calm_timely s Hs E) as (b & -> & Hl). cbn. unfold remaining_ms.
  by destruct (bl_overall_ms _), (if wa_backoff w then _ else _).
Qed.
End steps.
#[local] Hint Resolve halts_cancel halts_check halts_abandon halts_warning halts_emit halts_push_pending
  halts_observe halts_interrupted halts_tools halts_apply_steering halts_now : halts.

#[local] Hint Extern 0 (Calm _) => apply _ : core halts.

(** A stream is read to its end, [fuel] polls away at most. *)
Definition ends {A} (p : nat) (m : RM A) : Prop := ∀ s, from_poll p s → ∃ r s', m s = (Done r, s') ∧ timely s'.

Lemma ends_halts {A} p (m : RM A) : halts (from_poll p) m → ends p m.
Proof. intros Hm s Hs. destruct (Hm s Hs) as (r & s' & E & [Ht _]). eauto. Qed.
Lemma ends_bind {A B} p (m : RM A) (f : A → RM B) Q :
  answers (from_poll p) m Q → (∀ a, Q a → ends p (f a)) → ends p (m ≫= f).
Proof.
  intros Hm Hf s Hs. destruct (Hm s Hs) as (r & s' & E & Hs' & Hq). unfold mbind, rm_bind. rewrite E.
  destruct r as [a|e]; [by apply Hf; [apply Hq|]|]. destruct Hs'. eauto.
Qed.
Lemma ends_step {A B} p (m : RM A) (f : A → RM B) :
  halts (from_poll p) m → (∀ a, ends p (f a)) → ends p (m ≫= f).
Proof.
  intros Hm Hf. apply (ends_bind _ _ _ (λ _, True)); [|auto]. intros s Hs.
  destruct (Hm s Hs) as (r & s' & E & Hs'). eauto.
Qed.
Lemma ends_lift {A B} p (r : Res CoreError A) (f : A → RM B) :
  (∀ a, r = Ok a → ends p (f a)) → ends p (rlift r ≫= f).
Proof.
  intros Hf s Hs. destruct r as [a|e]; [by apply (Hf a)|]. destruct Hs. eexists _, _. by split.
Qed.
Lemma ends_poll {A} p (f : NextReply → RM A) : ends (S p) (f (next_at p)) → ends p (poll next_at ≫= f).
Proof.
  intros Hf s [Ht Hp]. unfold poll, mbind, rm_bind. rewrite Hp. apply Hf. split; [|done].
  intros E. by apply Ht.
Qed.

Lemma stream_loop_ends fuel turn w p :
  (∃ i, (i < fuel)%nat ∧ stream_end overall (next_at (p + i)) = true) → ends p (stream_loop o fuel turn w).
Proof.
  revert turn w p. induction fuel as [|fuel IH]; intros turn w p (i & Hi & Hend); [lia|]. cbn [stream_loop].
  apply ends_step; [by apply halts_attempt, halts_check|]. intros [u|e]; [|by apply ends_halts, halts_abandon].
  eapply ends_bind; [by apply answers_deadline|]. intros [duration phase] Hd. cbn in Hd.
  apply ends_poll. pose proof (re_next (o := o) p) as Hnext. pose proof (re_usage (o := o) p) as Husage.
  destruct (next_at p) as [| |item|] eqn:En.
  - apply ends_halts. halts_tac.
  - apply ends_halts. destruct duration; [halts_tac|]. exfalso. destruct overall; [by apply Hd|by apply Hnext].
  - apply ends_step; [by apply halts_attempt, halts_check|].
    intros [u'|e]; [|by apply ends_halts, halts_abandon].
    apply ends_lift. intros event ->. apply ends_step; [by apply halts_watch_event|]. intros w'.
    apply ends_step; [by apply halts_provider_event|]. intros turn'. apply IH.
    destruct i as [|i]; [rewrite Nat.add_0_r, En in Hend; done|]. exists i. split; [lia|].
    by replace (S p + i)%nat with (p + S i)%nat by lia.
  - apply ends_halts. halts_tac.
Qed.

Lemma halts_provider_turn fuel : (k ≤ fuel)%nat → halts timely (provider_turn o fuel).
Proof.
  intros Hk. unfold provider_turn.
  apply halts_bind; [halts_tac|intros messages]. apply halts_bind; [halts_tac|intros continuation].
  apply halts_bind; [apply halts_when; intros _; by apply halts_budget_consume|intros u].
  apply halts_bind; [halts_tac|intros u1]. apply halts_bind; [halts_tac|intros now].
  intros s Hs. apply (stream_loop_ends fuel _ _ s.(rs_polls)); [|done].
  destruct (re_stream (k := k) (o := o) (overall := overall) s.(rs_polls)) as (i & Hi & He). exists i. split; [lia|done].
Qed.
#[local] Hint Resolve halts_provider_turn : halts.

(** ** The run *)

Lemma halts_iterations fuel rest iteration : (k ≤ fuel)%nat → halts timely (iterations o fuel rest iteration).
Proof.
  intros Hk. revert iteration.
  induction rest as [|rest IH]; intros; simpl; unfold out_of_iterations, final_answer, hooked, duplicate_warning; halts_tac.
Qed.

Lemma halts_run_end fuel : (k ≤ fuel)%nat →
  halts timely (_ ← new_run o; ended ← attempt (run_body o fuel);
                match ended with Ok t => mret t | Err e => end_error o e end).
Proof.
  intros Hk. pose proof (halts_iterations fuel) as Hi.
  unfold new_run, run_body, resume, end_error, hooked. halts_tac.
Qed.
End termination.

Lemma end_error_done {env : RunEnv} o e s t s' : end_error o e s = (Done (Err t), s') → False.
Proof.
  unfold end_error, attempt, mbind, rm_bind. destruct (bool_decide _); destruct (emit o _ _ s) as [[[?|?]| |] ?];
    intros E; discriminate E.
Qed.

(** A given history without stand-ins stays in front of what the run adds. *)
Definition has_stand_ins {env : RunEnv} (ms : list ChatMessage) : bool := existsb (is_synthetic_missing from_str) ms.
Lemma history_keeps_given {env : RunEnv} o ms h : history o ms h → has_stand_ins o.(ro_messages) = false →
  ∃ added, ms = o.(ro_messages) ++ added.
Proof.
  intros H Hs. induction H as [|ms h m _ IH _|ms h m _ IH _|ms h call _ IH].
  - exists []. by rewrite app_nil_r.
  - destruct IH as (added & ->). exists (added ++ [m]). by rewrite app_assoc.
  - destruct IH as (added & ->). exists (added ++ [m]). by rewrite app_assoc.
  - destruct IH as (added & ->). unfold filter_by. rewrite filter_app. eexists. f_equal.
    apply filter_by_id. intros m Hm. unfold superseded. apply negb_true_iff, andb_false_iff. right.
    apply not_true_iff_false. intros Hst. apply not_true_iff_false in Hs. apply Hs.
    apply existsb_exists. exists m. split; [by apply list_elem_of_In|done].
Qed.
Lemma run_keeps_given {env : RunEnv} o budget fuel : has_stand_ins o.(ro_messages) = false →
  (length o.(ro_messages) ≤ length (run_chat o fuel (initial o budget)).2.(rs_messages))%nat.
Proof.
  intros Hs. assert (on_record o (run_chat o fuel (initial o budget)).2) as H.
  { apply (run_keeps_inv o any_kind (on_record o)); [by intros|]. apply hi_start. }
  destruct (history_keeps_given _ _ _ H Hs) as (added & ->). rewrite length_app. lia.
Qed.

(** C9: A run ends and says how: in a world where each stream ends within [k]
    polls, what the run waits for without a deadline is answered, and usage is
    reported as objects, a loop allowed [k] polls of each stream returns a
    result, however many tools, hooks, steers and retries come between; it
    panics only when the history it was given holds stand-ins for missing
    results and those it superseded leave it fewer messages than it was
    given. *)
Theorem run_returns {env : RunEnv} o budget k fuel :
  Responsive o (is_some_and budget (λ b, is_some b.(eb_limits).(bl_overall_ms))) k → (k ≤ fuel)%nat →
  ∃ outcome s, run_chat o fuel (initial o budget) = (outcome, s)
    ∧ match outcome with
      | Done (Ok r) => r.(rr_appended_messages) = drop (length o.(ro_messages)) s.(rs_messages)
      | Panicked => has_stand_ins o.(ro_messages) = true ∧ (length s.(rs_messages) < length o.(ro_messages))%nat
      | _ => False
      end.
Proof.
  intros Hr Hk. destruct (halts_run_end o _ k fuel Hk (initial o budget)) as (r & s & E & _).
  { intros E. destruct budget as [b|]; [|done]. by exists b. }
  exists (run_chat o fuel (initial o budget)).1, (run_chat o fuel (initial o budget)).2.
  split; [by destruct (run_chat _ _ _)|].
  assert (∀ n, (n < length o.(ro_messages))%nat → n = length (run_chat o fuel (initial o budget)).2.(rs_messages) →
    has_stand_ins o.(ro_messages) = true ∧ (n < length o.(ro_messages))%nat) as Hshort.
  { intros n Hn En. split; [|done]. destruct (has_stand_ins _) eqn:Hs; [done|].
    apply (run_keeps_given o budget fuel) in Hs. lia. }
  revert E Hshort. unfold run_chat, mbind, rm_bind.
  destruct (new_run o _) as [[[u|e']| |] s1] eqn:En; [|by cbn in En..].
  assert (∀ t s0, let '(outcome, s) := run_result o t s0 in
    (∀ n, (n < length o.(ro_messages))%nat → n = length s.(rs_messages) →
      has_stand_ins o.(ro_messages) = true ∧ (n < length o.(ro_messages))%nat) →
    match outcome with
    | Done (Ok r) => r.(rr_appended_messages) = drop (length o.(ro_messages)) s.(rs_messages)
    | Panicked => has_stand_ins o.(ro_messages) = true ∧ (length s.(rs_messages) < length o.(ro_messages))%nat
    | _ => False
    end) as Hend.
  { intros t s0. unfold run_result, rget, mbind, rm_bind.
    destruct (Nat.ltb_spec (length s0.(rs_messages)) (length o.(ro_messages))); [|done]. intros Hn. by apply Hn. }
  destruct (attempt (run_body o fuel) s1) as [[[[t|e]|e]| |] s2] eqn:Ea; try done.
  - intros _. specialize (Hend t s2). unfold mret, rm_ret. destruct (run_result o t s2). exact Hend.
  - destruct (end_error o e s2) as [[[t|e']| |] s3] eqn:Ee; try done.
    + intros _. specialize (Hend t s3). destruct (run_result o t s3). exact Hend.
    + by apply end_error_done in Ee.
  - exfalso. revert Ea. unfold attempt. by destruct (run_body o fuel s1) as [[[?|?]| |] ?].
Qed.

#[export] Instance demo_responsive : Responsive demo_opts false 6.
Proof.
  split; intros n; try discriminate; try done.
  - exists (5 - n)%nat. split; [lia|]. do 6 (destruct n as [|n]; [reflexivity|]).
    replace (S _ + _)%nat with (S (S (S (S (S (S n)))))) by lia. reflexivity.
  - intros _. do 6 (destruct n as [|n]; [discriminate|]). discriminate.
  - do 6 (destruct n as [|n]; [reflexivity|]). exact I.
Qed.

Lemma run_returns_witness :
  ∃ r s, run_chat demo_opts 6 (initial demo_opts None) = (Done (Ok r), s) ∧ length r.(rr_appended_messages) = 4%nat.
Proof.
  destruct (run_returns demo_opts None 6 6 demo_responsive (le_n 6)) as (outcome & s & E & H).
  assert (length (rs_messages (run_chat demo_opts 6 (initial demo_opts None)).2) = 5%nat) as El by (vm_compute; reflexivity).
  rewrite E in El. cbn [snd] in El.
  destruct outcome as [[r|e]| |]; [|destruct H|destruct H|exfalso; destruct H as [H _]; vm_compute in H; discriminate H].
  exists r, s. split; [exact E|]. rewrite H, length_drop, El. reflexivity.
Defined.
