(* ===== verification/RunHistory.v ===== *)
(** * Every call is answered before the provider is asked again

    A provider refuses a history in which a tool call has no result, or a
    result no call.  The batch loop of [core/src/run.rs] has many ways out
    (cancellation, budgets, the cap, hooks, suspension, interruption); each
    either answers every call, in order, or ends the run without another
    request. *)

From S2P Require Export RunLaws.
Local Open Scope Z_scope.

(** The calls still owed a result after [ms], when [open] were owed before;
    [None] when a message comes out of place. *)
Fixpoint owed (open : list string) (ms : list ChatMessage) : option (list string) :=
  match ms with
  | [] => Some open
  | m :: ms =>
      match open with
      | id :: rest =>
          if bool_decide (m.(cm_role) = "tool") && bool_decide (m.(cm_tool_call_id) = Some id)
          then owed rest ms else None
      | [] =>
          if bool_decide (m.(cm_role) = "tool") then None
          else if bool_decide (m.(cm_role) = "assistant") then owed (map tc_id m.(cm_tool_calls)) ms
          else owed [] ms
      end
  end.

Lemma owed_app open a b : owed open (a ++ b) = owed open a ≫= λ open', owed open' b.
Proof.
  revert open. induction a as [|m a IH]; intros open; [done|]. simpl.
  destruct open as [|id rest]; repeat case_match; try done; apply IH.
Qed.

Lemma owed_user open atts : owed [] (flush_attachments atts ++ open) = owed [] open.
Proof. by destruct atts. Qed.

(** Attachments are shown only where nothing is owed. *)
Lemma owed_expand str parse open atts ms :
  owed open ms = Some [] → owed open (expand_from str parse atts ms) = Some [].
Proof.
  revert open atts. induction ms as [|m ms IH]; intros open atts; simpl.
  { intros [= ->]. by destruct atts. }
  assert ((lift_parts str parse m).1.(cm_role) = m.(cm_role)
    ∧ (lift_parts str parse m).1.(cm_tool_call_id) = m.(cm_tool_call_id)) as [Hr Hi].
  { unfold lift_parts. by repeat case_match. }
  destruct open as [|id rest].
  - destruct (bool_decide (cm_role m = "tool")) eqn:Et; [done|]. cbn [negb]. intros H.
    rewrite owed_user. simpl. rewrite Et. destruct (bool_decide (cm_role m = "assistant")); by apply IH.
  - destruct (bool_decide (cm_role m = "tool")) eqn:Et; [|done]. cbn [negb].
    destruct (bool_decide (cm_tool_call_id m = Some id)) eqn:Ei; [|done]. cbn [andb]. intros H.
    destruct (lift_parts str parse m) as [m' more]. simpl in *. rewrite Hr, Hi, Et, Ei. by apply IH.
Qed.

Lemma owed_tool id rest call content : id = call.(tc_id) →
  owed (id :: rest) [tool_message call content] = Some rest.
Proof. intros ->. simpl. by rewrite bool_decide_true. Qed.

Section history.
Context {env : RunEnv} (o : RunOptions).
Implicit Types (s : RunState) (A : RunState → Prop).

Definition plain (m : ChatMessage) : Prop := is_synthetic_missing from_str m = false.
Definition clean s : Prop := Forall plain (o.(ro_messages) ++ handed s).
Definition answered (t : list Obs) : Prop := ∀ ms c, ORequest ms c ∈ t → owed [] ms = Some [].

(** A moment of the run, as long as no stand-in was about. *)
Definition moment A s : Prop := on_record o s ∧ (clean s → answered s.(rs_trace) ∧ A s).

(** What the predicates below read of the state. *)
Record alike s s' : Prop := {
  al_messages : s'.(rs_messages) = s.(rs_messages);
  al_suspended : s'.(rs_suspended) = s.(rs_suspended);
  al_interrupted : s'.(rs_interrupted) = s.(rs_interrupted);
  al_cancelled : s.(rs_cancelled) = true → s'.(rs_cancelled) = true
}.
Class Stable A : Prop := stable s s' : alike s s' → A s → A s'.

Definition owes (l : list string) s : Prop := owed [] s.(rs_messages) = Some l.
#[export] Instance owes_stable l : Stable (owes l).
Proof. intros s s' [H _ _ _]. unfold owes. by rewrite H. Qed.
#[export] Instance true_stable : Stable (λ _, True).
Proof. by intros s s'. Qed.
#[export] Instance cancelled_stable : Stable (λ s, s.(rs_cancelled) = true).
Proof. intros s s' []. auto. Qed.
#[export] Instance suspended_stable b : Stable (λ s, s.(rs_suspended) = b).
Proof. intros s s' [_ H _ _]. by rewrite H. Qed.
#[export] Instance interrupted_stable b : Stable (λ s, s.(rs_interrupted) = b).
Proof. intros s s' [_ _ H _]. by rewrite H. Qed.
#[export] Instance or_stable A A' : Stable A → Stable A' → Stable (λ s, A s ∨ A' s).
Proof. intros H H' s s' Hs [|]; [left|right]; eauto. Qed.
#[export] Instance and_stable A A' : Stable A → Stable A' → Stable (λ s, A s ∧ A' s).
Proof. intros H H' s s' Hs []; split; eauto. Qed.

Lemma quietly_alike s s' : quietly s s' → alike s s'.
Proof. intros []. by split. Qed.

Lemma answered_app t t' : answered (t ++ t') ↔ answered t ∧ answered t'.
Proof.
  unfold answered. split.
  - intros H. split; intros ms c Hin; eapply H, elem_of_app; eauto.
  - intros [H H'] ms c [|]%elem_of_app; eauto.
Qed.
Lemma answered_quiet new : Forall (λ ob, is_request ob = false) new → answered new.
Proof. intros H ms c Hin. rewrite Forall_forall in H. by specialize (H _ Hin). Qed.

Lemma moment_log A ob s : Stable A → is_request ob = false → handed_obs ob = [] →
  moment A s → moment A (log ob s).
Proof.
  intros HA Hr Hh [H1 H2]. split; [eapply on_record_same; [..|exact H1]; [done|by apply handed_log]|].
  unfold clean. rewrite handed_log by done. intros Hc. destruct (H2 Hc) as [Hq Ha]. split.
  - simpl. apply answered_app. split; [done|]. apply answered_quiet. by constructor.
  - eapply stable; [|done]. by split.
Qed.

#[export] Instance moment_exec A : Stable A → ExecInv o any_kind (moment A).
Proof.
  intros HA. split.
  - apply quiet_from. intros s s' Hq [H1 H2].
    split; [eapply on_record_same; [..|exact H1]; apply Hq|].
    unfold clean. rewrite (qu_handed _ _ Hq). intros Hc. destruct (H2 Hc) as [Hr Ha]. split.
    + destruct (qu_trace _ _ Hq) as (new & -> & Hn). apply answered_app. split; [done|].
      apply answered_quiet. eapply Forall_impl; [done|]. by intros [].
    + eapply stable; [by apply quietly_alike|done].
  - intros s0 s call args tool _ H _ _ _ _ _. by apply moment_log.
Qed.

Lemma moment_mono A A' s : (A s → A' s) → moment A s → moment A' s.
Proof. intros H [H1 H2]. split; [done|]. intros Hc. destruct (H2 Hc). auto. Qed.

(** The failing ends of a computation. *)
Definition over : RunState → Prop := moment (λ _, True).
Lemma moment_over A s : moment A s → over s.
Proof. by apply moment_mono. Qed.

Lemma quiet_moment {B} A (m : RM B) : Stable A →
  (∀ I, ExecInv o any_kind I → keeps_run I m) → hoare (moment A) m (λ _, moment A) over.
Proof. intros HA Hm. apply hoare_within; [by apply Hm, _|]. intros s. apply moment_over. Qed.

(** ** Messages *)

Lemma push_moment A A' m : own_message m →
  (∀ s, A s → A' (pushed m s)) → hoare (moment A) (push_pending m) (λ _, moment A') over.
Proof.
  intros Hm HA s [H1 H2]. split; [by apply (ri_push o any_kind (I := on_record o) s m H1 Hm)|].
  intros Hc. assert (clean s) as Hc'.
  { unfold clean, handed in *. simpl in Hc. rewrite !app_assoc in Hc. apply Forall_app in Hc as [Hc _].
    by rewrite <-!app_assoc in Hc. }
  destruct (H2 Hc') as [Hr Ha]. split; [done|]. exact (HA s Ha).
Qed.

(** Without stand-ins nothing is superseded. *)
Lemma supersede_moment A call : Stable A →
  hoare (moment A) (rmodify (without_superseded call)) (λ _, moment A) over.
Proof.
  intros HA s [H1 H2]. split; [by apply hi_supersede|]. intros Hc. change (clean s) in Hc. destruct (H2 Hc) as [Hr Ha]. split; [done|].
  eapply stable; [|done]. split; try done. simpl. apply filter_by_id. intros m Hm.
  unfold superseded. apply negb_true_iff, andb_false_iff.
  destruct (history_shape o _ _ H1 Hc) as (added & Em & Hf & Hadd).
  unfold clean in Hc. rewrite Forall_app, !Forall_forall in Hc. destruct Hc as [Hi Hh]. rewrite Em in Hm.
  apply elem_of_app in Hm as [Hm|Hm]; [right; by apply Hi|]. rewrite Forall_forall in Hadd.
  destruct (Hadd m Hm) as [Hown|Hu].
  - right. apply Hh. rewrite <-Hf. unfold filter_by. apply list_elem_of_filter. by rewrite Hown.
  - left. apply andb_false_iff. left. by rewrite Hu.
Qed.

Lemma emit_moment A kind data : Stable A → hoare (moment A) (emit o kind data) (λ _, moment A) over.
Proof. intros HA. apply quiet_moment; [done|]. intros I ?. by apply (keeps_emit o any_kind I). Qed.

Lemma cancelled_moment A : Stable A →
  hoare (moment A) is_cancelled (λ c s, moment A s ∧ s.(rs_cancelled) = c) over.
Proof. intros HA. apply (hoare_is_cancelled any_kind); [apply _|]. intros s. apply moment_over. Qed.

Lemma interrupted_moment A : Stable A → (∀ s, A s → A (mark_interrupted s)) →
  hoare (moment A) (interrupted o) (λ i s, moment A s ∧ s.(rs_interrupted) = i) over.
Proof.
  intros Hst HA. unfold interrupted. apply (hoare_bind _ _ _ (λ _, moment A)).
  { assert (SilentInv (moment A)) by apply (qi_silent any_kind).
    apply hoare_within; [|intros s; apply moment_over]. destruct (ro_interruption o); [apply keeps_ask, _|apply keeps_ret]. }
  intros i. apply (hoare_bind _ _ _ (λ _, moment A)); [|by intros s Hs].
  destruct i; simpl; [|apply hoare_within; [apply keeps_ret|intros s; apply moment_over]].
  intros s [H1 H2]. cbn.
  assert (handed (mark_interrupted s) = handed s) as Hh.
  { unfold mark_interrupted. destruct (rs_interrupted s); [done|]. exact (handed_log OInterrupted s eq_refl). }
  split.
  - eapply on_record_same; [..|exact H1]; [|done]. unfold mark_interrupted. by destruct (rs_interrupted s).
  - unfold clean. rewrite Hh. intros Hc. destruct (H2 Hc) as [Hr Ha]. split; [|auto].
    unfold mark_interrupted. destruct (rs_interrupted s); [done|]. simpl. apply answered_app. split; [done|].
    apply answered_quiet. by constructor.
Qed.

(** ** Suspension *)

Lemma park_moment A spec call : Stable A →
  hoare (moment A) (park_suspension o spec call) (λ _, moment (λ s, s.(rs_suspended) = true)) over.
Proof.
  intros HA. unfold park_suspension. eapply hoare_bind; [apply quiet_moment; [done|intros; apply keeps_get]|].
  intros iteration. cbn zeta. eapply hoare_bind; [by apply emit_moment|]. intros u.
  destruct (negb _); [intros s; apply moment_over|].
  apply (hoare_bind _ _ _ (λ _, moment A)).
  { intros s. cbn. apply moment_log; done. }
  intros u1. apply (hoare_bind _ _ _ (λ _, moment A)).
  { apply quiet_moment; [done|]. intros I ?. by apply keeps_ask, (qi_silent any_kind). }
  intros parked. apply (hoare_bind _ _ _ (λ _, moment A)).
  { apply quiet_moment; [done|]. intros I ?. apply keeps_lift. }
  intros u2 s [H1 H2]. split; [done|]. intros Hc. by destruct (H2 Hc).
Qed.

Lemma cancel_suspended_moment call :
  hoare (moment (λ s, s.(rs_cancelled) = true)) (cancel_suspended o call)
    (λ _, moment (λ s, s.(rs_cancelled) = true)) over.
Proof.
  unfold cancel_suspended. apply (hoare_bind _ _ _ (λ _, moment (λ s, s.(rs_cancelled) = true))).
  - by apply push_moment; [apply own_tool|].
  - intros u. apply emit_moment, _.
Qed.

(** ** One call *)

(** What a batch needs of the history before [calls]: nothing once a call is
    held or the run cancelled, for then no request follows. *)
Definition expects (b : Batch) (calls : list ToolCall) s : Prop :=
  match b.(ba_held) with
  | None => owes (map tc_id calls) s ∨ s.(rs_cancelled) = true
  | Some _ => True
  end.
#[export] Instance expects_stable b calls : Stable (expects b calls).
Proof. unfold expects. destruct (ba_held b); apply _. Qed.

Definition after_call (call : ToolCall) (calls : list ToolCall) (e : CallEnd) s : Prop :=
  match e with
  | Answered _ _ b => expects b (call :: calls) s
  | Held b => expects b calls s
  | Left => s.(rs_suspended) = true
  end.

Lemma start_call_moment call calls b :
  hoare (moment (expects b (call :: calls))) (start_call o call b)
    (λ e, moment (after_call call calls e)) over.
Proof.
  unfold start_call. set (A := expects b (call :: calls)).
  eapply hoare_bind; [apply emit_moment, _|]. intros u.
  apply (hoare_bind _ _ _ (λ _, moment A)).
  { apply quiet_moment; [apply _|]. intros I ?. destruct (is_some _); [|apply keeps_ret].
    by apply (keeps_tool_gate o any_kind I). }
  intros gate. apply (hoare_bind _ _ _ (λ _, moment A)).
  { apply quiet_moment; [apply _|]. intros I ?. by apply (keeps_is_cancelled any_kind I). }
  intros c. cbn zeta. cbn [ba_cancelled ba_budget_error ba_held].
  apply (hoare_bind _ _ _ (λ _, moment A)).
  { apply quiet_moment; [apply _|]. intros I ?. repeat case_match; try apply keeps_ret.
    apply keeps_bind; [by apply (keeps_execute o any_kind I)|]. intros [? ?]. apply keeps_ret. }
  intros [[outcome slot] executed]. destruct slot as [spec|].
  - destruct (ro_batch_suspension o); [|eapply hoare_bind; [apply park_moment, _|by intros u' s Hs]].
    destruct (blank _); [by intros s Hs|]. destruct (ba_held b) eqn:Hb; intros s Hs; cbn.
    + eapply moment_mono; [|exact Hs]. intros _. unfold after_call, expects. done.
    + by eapply moment_mono; [|exact Hs].
  - intros s Hs. exact Hs.
Qed.

Lemma decide_outcome_moment cap index call calls b :
  hoare (moment (expects b (call :: calls))) (decide_outcome o cap index call b)
    (λ e, moment (after_call call calls e)) over.
Proof.
  unfold decide_outcome. eapply hoare_bind.
  { apply quiet_moment; [apply _|]. intros I ?. by apply (keeps_is_cancelled any_kind I). }
  intros c. destruct (c || _); [by intros s Hs|]. destruct (ba_budget_error b); [by intros s Hs|].
  destruct (Nat.leb cap index); [by intros s Hs|]. apply start_call_moment.
Qed.

Lemma answer_moment call calls b outcome :
  hoare (moment (expects b (call :: calls))) (answer_call o call outcome)
    (λ _, moment (expects b calls)) over.
Proof.
  unfold answer_call. eapply hoare_bind; [apply supersede_moment, _|]. intros u.
  apply (hoare_bind _ _ _ (λ _, moment (expects b calls))); [|intros u'; apply emit_moment, _].
  apply push_moment; [apply own_tool|]. intros s. unfold expects. destruct (ba_held b); [done|].
  intros [Ho|Hc]; [left|by right]. unfold owes in *. simpl. rewrite owed_app, Ho. simpl.
  by rewrite bool_decide_true.
Qed.

(** ** A batch *)

(** A batch left early ends the run: it is parked or interrupted. *)
Definition after_step (calls : list ToolCall) (f : Flow) s : Prop :=
  match f with
  | Next b => expects b calls s
  | Stop => s.(rs_suspended) = true ∨ s.(rs_interrupted) = true
  end.

Lemma expects_interrupt b calls s : expects b calls s → expects b calls (mark_interrupted s).
Proof. unfold expects, owes, mark_interrupted. by destruct (ba_held b), (rs_interrupted s). Qed.

Lemma release_held_moment call calls b :
  hoare (moment (expects b (call :: calls))) (release_held o b)
    (λ b', moment (expects b' (call :: calls))) over.
Proof.
  unfold release_held. set (A := expects b (call :: calls)).
  apply (hoare_bind _ _ _ (λ c s, moment A s ∧ (c = true → s.(rs_cancelled) = true))).
  { destruct (ro_batch_suspension o); [|by intros s Hs].
    eapply hoare_conseq; [apply cancelled_moment, _|done| |done]. by intros c s [Hs <-]. }
  intros c. destruct (ba_held b) as [[spec held]|] eqn:Hb; [|by intros s [Hs _]].
  destruct c; [|by intros s [Hs _]].
  eapply hoare_bind.
  - eapply hoare_conseq; [apply cancel_suspended_moment| |intros a s Hs; exact Hs|done].
    intros s [[H1 H2] Hc]. split; [done|]. intros Hcl. destruct (H2 Hcl). auto.
  - intros u s Hs. eapply moment_mono; [|exact Hs]. intros Hc. by right.
Qed.

Lemma stop_moment (m : RM bool) A : m = mret false ∨ m = interrupted o →
  Stable A → (∀ s, A s → A (mark_interrupted s)) →
  hoare (moment A) m (λ i s, moment A s ∧ (i = true → s.(rs_interrupted) = true)) over.
Proof.
  intros [-> | ->] Hst HA; [by intros s Hs|].
  eapply hoare_conseq; [by apply interrupted_moment|done| |done]. by intros i s [Hs <-].
Qed.

Lemma conclude_moment call calls outcome executed b :
  hoare (moment (expects b (call :: calls))) (conclude_call o call outcome executed b)
    (λ f, moment (after_step calls f)) over.
Proof.
  unfold conclude_call. set (A := expects b (call :: calls)).
  assert (∀ A s, moment A s ∧ s.(rs_interrupted) = true → moment (after_step calls Stop) s) as Hstop.
  { intros A' s [[H1 H2] Hi]. split; [done|]. intros Hc. destruct (H2 Hc). split; [done|by right]. }
  eapply hoare_bind; [apply stop_moment; [destruct executed; auto|apply _|apply expects_interrupt]|].
  intros [|]; [intros s [Hs Hi]; apply (Hstop A); auto|].
  apply (hoare_bind _ _ _ (λ _, moment A)).
  { eapply hoare_conseq; [apply (quiet_moment A); [apply _|]|by intros s []|done..].
    intros I ?. apply keeps_attempt, keeps_budget_check, (qi_silent any_kind). }
  intros checked. cbn zeta. set (b' := mkBatch _ _ _).
  apply (hoare_bind _ _ _ (λ _, moment (expects b' calls))); [exact (answer_moment call calls b outcome)|].
  intros u. eapply hoare_bind; [apply quiet_moment; [apply _|intros; apply keeps_get]|]. intros iteration.
  apply (hoare_bind _ _ _ (λ _, moment (expects b' calls))).
  { apply quiet_moment; [apply _|]. intros I ?. apply keeps_when. intros _. by apply (keeps_observe o any_kind I). }
  intros u2. eapply hoare_bind; [apply stop_moment; [destruct executed; auto|apply _|apply expects_interrupt]|].
  intros [|] s [Hs Hi]; [apply (Hstop (expects b' calls)); auto|exact Hs].
Qed.

Lemma run_call_moment cap index call calls b :
  hoare (moment (expects b (call :: calls))) (run_call o cap index call b)
    (λ f, moment (after_step calls f)) over.
Proof.
  unfold run_call. eapply hoare_bind; [apply release_held_moment|]. intros b1.
  eapply hoare_bind; [apply decide_outcome_moment|]. intros [outcome executed b2|b2|].
  - apply conclude_moment.
  - intros s Hs. exact Hs.
  - intros s Hs. eapply moment_mono; [|exact Hs]. by left.
Qed.

Lemma run_calls_moment cap index calls b :
  hoare (moment (expects b calls)) (run_calls o cap index calls b) (λ f, moment (after_step [] f)) over.
Proof.
  revert index b. induction calls as [|call calls IH]; intros index b; cbn [run_calls]; [intros s Hs; exact Hs|].
  eapply hoare_bind; [apply run_call_moment|]. intros [b'|]; [apply IH|intros s Hs; exact Hs].
Qed.

(** After a batch every call is answered, or no request follows. *)
Definition settled s : Prop := owes [] s ∨ s.(rs_cancelled) = true ∨ s.(rs_interrupted) = true.
Definition after_batch s : Prop := settled s ∨ s.(rs_suspended) = true.

Lemma check_moment A : Stable A →
  hoare (moment A) check (λ _ s, moment A s ∧ s.(rs_cancelled) = false) over.
Proof. intros HA. apply (hoare_check any_kind); [apply _|]. intros s. apply moment_over. Qed.

Lemma close_batch_moment b :
  hoare (moment (expects b [])) (close_batch o b) (λ _, moment after_batch) over.
Proof.
  assert (∀ A, Stable A → (∀ s, A s → after_batch s) →
    hoare (moment A) (match ba_budget_error b with Some e => rthrow e | None => check end)
      (λ _, moment after_batch) over) as Hrest.
  { intros A HA Hab. destruct (ba_budget_error b); [intros s; apply moment_over|].
    eapply hoare_conseq; [by apply check_moment|done| |done]. intros u s [Hs _]. exact (moment_mono _ _ _ (Hab s) Hs). }
  unfold close_batch, expects. destruct (ba_held b) as [[spec call]|].
  - eapply hoare_bind; [apply cancelled_moment, _|]. intros [|].
    + eapply hoare_bind.
      * eapply hoare_conseq; [apply (cancel_suspended_moment call)| |intros a s Hs; exact Hs|done].
        intros s [[H1 H2] Hc]. split; [done|]. intros Hcl. by destruct (H2 Hcl).
      * intros u. apply Hrest; [apply _|]. intros s Hc. left. right. by left.
    + eapply hoare_conseq; [apply (park_moment (λ _, True)), _|by intros s []| |done].
      intros u s Hs. eapply moment_mono; [|exact Hs]. by right.
  - apply Hrest; [apply _|]. intros s [Ho|Hc]; left; [by left|right; by left].
Qed.

Lemma tools_moment announced content calls cap (push : bool) :
  hoare (moment (owes (if push then [] else map tc_id calls)))
    (tools o announced content calls cap push) (λ _, moment after_batch) over.
Proof.
  unfold tools. eapply hoare_bind.
  { apply quiet_moment; [apply _|]. intros I ?. apply keeps_when. intros _. apply keeps_each. intros call _.
    unfold announce. destruct (mem_str _ _); [apply keeps_ret|]. by apply (keeps_emit o any_kind I). }
  intros u. eapply hoare_bind.
  { apply quiet_moment; [apply _|]. intros I ?. apply keeps_when. intros _. by apply (keeps_emit o any_kind I). }
  intros u1. apply (hoare_bind _ _ _ (λ _, moment (owes (map tc_id calls)))).
  { destruct push; [|intros s Hs; exact Hs]. apply push_moment; [apply own_assistant|].
    intros s Hs. unfold owes in *. simpl. by rewrite owed_app, Hs. }
  intros u2. eapply hoare_bind.
  { eapply hoare_conseq; [apply (run_calls_moment cap 0 calls (mkBatch false None None))| |intros f s Hs; exact Hs|done].
    intros s. apply moment_mono. by left. }
  intros [b|]; [apply close_batch_moment|]. intros s Hs. eapply moment_mono; [|exact Hs].
  intros [Hp|Hi]; [by right|left; right; by right].
Qed.

(** ** The loop *)

#[export] Instance settled_stable : Stable settled.
Proof. apply _. Qed.

Lemma moment_update A A' f :
  (∀ s, (f s).(rs_trace) = s.(rs_trace) ∧ handed (f s) = handed s ∧ (f s).(rs_messages) = s.(rs_messages)) →
  (∀ s, A s → A' (f s)) → hoare (moment A) (rmodify f) (λ _, moment A') over.
Proof.
  intros Hf HA s [H1 H2]. destruct (Hf s) as (Ht & Hh & Hm). split; [by eapply on_record_same|].
  unfold clean. rewrite Hh, Ht. intros Hc. destruct (H2 Hc) as [Hr Ha]. split; [done|]. exact (HA s Ha).
Qed.

Lemma steer_moment m : m.(cm_role) = "user" →
  hoare (moment settled) (push_message m) (λ _, moment settled) over.
Proof.
  intros Hu s [H1 H2]. split; [by apply hi_steer|]. intros Hc. destruct (H2 Hc) as [Hr [Ho|Ha]]; split; try done.
  - left. unfold owes in *. simpl. rewrite owed_app, Ho. simpl. by rewrite Hu.
  - by right.
Qed.

Lemma apply_steering_moment step :
  hoare (moment settled) (apply_steering o step) (λ _, moment settled) over.
Proof.
  unfold apply_steering. destruct (negb _); [intros s Hs; exact Hs|].
  eapply hoare_bind.
  { apply quiet_moment; [apply _|]. intros I ?. apply keeps_ask, (qi_silent any_kind). }
  intros reply. destruct reply as [| | |items].
  - apply quiet_moment; [apply _|]. intros I ?. apply (keeps_cancel any_kind I).
  - apply quiet_moment; [apply _|]. intros I ?. destruct (_ =? _); [apply keeps_waiting|].
    apply (keeps_warning o any_kind I).
  - apply quiet_moment; [apply _|]. intros I ?. apply (keeps_warning o any_kind I).
  - induction items as [|item items IH]; [intros s Hs; exact Hs|]. cbn [each].
    eapply hoare_bind; [|intros u; exact IH]. unfold apply_steer.
    eapply hoare_bind; [apply quiet_moment; [apply _|intros; apply keeps_get]|]. intros applied.
    destruct (mem_str _ _); [intros s Hs; exact Hs|].
    case_bool_decide as Hu; cbn [negb]; [|apply quiet_moment; [apply _|intros; by apply (keeps_warning o any_kind I)]].
    eapply hoare_bind; [by apply (moment_update settled settled)|]. intros u.
    eapply hoare_bind; [apply emit_moment, _|]. intros u1. by apply steer_moment.
Qed.

Lemma provider_turn_moment fuel :
  hoare (moment (owes [])) (provider_turn o fuel) (λ _, moment (owes [])) over.
Proof.
  unfold provider_turn.
  apply (hoare_bind _ _ _ (λ ms, moment (λ s, owes [] s ∧ s.(rs_messages) = ms))).
  { intros s Hs. eapply moment_mono; [|exact Hs]. by split. }
  intros ms. set (A := λ s, owes [] s ∧ s.(rs_messages) = ms).
  assert (Stable A) as HA. { intros s s' [Hm _ _ _] [H1 H2]. unfold A, owes in *. by rewrite Hm. }
  eapply hoare_bind; [apply (quiet_moment A); [done|intros; apply keeps_get]|]. intros c.
  eapply hoare_bind.
  { apply (quiet_moment A); [done|]. intros I ?. apply keeps_when. intros _.
    apply keeps_budget_consume, (qi_silent any_kind). }
  intros u. apply (hoare_bind _ _ _ (λ _, moment (owes []))).
  - intros s [H1 H2]. set (ob := ORequest _ c). change (moment (owes []) (log ob s)). split; [eapply on_record_same; [..|exact H1]; [done|by apply handed_log]|].
    unfold clean. rewrite (handed_log ob) by done. intros Hc. destruct (H2 Hc) as [Hr [Ho Hm]]. split; [|exact Ho].
    simpl. apply answered_app. split; [done|]. intros ms' c' [= -> _]%list_elem_of_singleton.
    apply owed_expand. by rewrite <-Hm.
  - intros u1. apply quiet_moment; [apply _|]. intros I ?.
    apply keeps_bind; [apply keeps_ask, (qi_silent any_kind)|intros now]. apply (keeps_stream_loop o any_kind I).
Qed.

Lemma final_moment turn content :
  hoare over (final_answer o turn content) (λ _, over) over.
Proof.
  assert (∀ B (m : RM B), (∀ I, ExecInv o any_kind I → keeps_run I m) → hoare over m (λ _, over) over) as Hq.
  { intros B m Hm. by apply quiet_moment; [apply _|]. }
  unfold final_answer. eapply hoare_bind; [apply Hq; intros I ?; apply (keeps_check any_kind I)|]. intros u.
  eapply hoare_bind; [apply Hq; intros I ?; apply keeps_when; intros _; apply (keeps_warning o any_kind I)|].
  intros u1. eapply hoare_bind; [apply Hq; intros I ?; apply (keeps_check any_kind I)|]. intros u2.
  apply (hoare_bind _ _ _ (λ _, over)); [by apply push_moment; [left|]|]. intros u3. apply Hq. intros I ?.
  apply keeps_bind; [apply keeps_get|intros i]. apply keeps_bind; [by apply (keeps_emit o any_kind I)|intros u4].
  apply keeps_ret.
Qed.

Lemma over_quiet {B} (m : RM B) : (∀ I, ExecInv o any_kind I → keeps_run I m) →
  hoare over m (λ _, over) over.
Proof. intros Hm. by apply quiet_moment; [apply _|]. Qed.

Lemma out_of_iterations_moment : hoare over (out_of_iterations o) (λ _, over) over.
Proof.
  apply over_quiet. intros I ?. unfold out_of_iterations.
  apply keeps_bind; [apply (keeps_warning o any_kind I)|intros u]. apply keeps_bind; [apply keeps_get|intros i].
  apply keeps_bind; [by apply (keeps_emit o any_kind I)|intros u1]. apply keeps_ret.
Qed.

Lemma ret_over {B} A (b : B) : hoare (moment A) (mret b) (λ _, over) over.
Proof. intros s. apply moment_over. Qed.

(** An iteration that gets as far as its request finds every call answered. *)
Lemma ready_moment :
  hoare (moment settled)
    (_ ← check; interrupted o)
    (λ i, moment (λ s, i = false → owes [] s)) over.
Proof.
  eapply hoare_bind; [apply check_moment, _|]. intros u.
  set (A := λ s, owes [] s ∨ s.(rs_interrupted) = true).
  eapply hoare_conseq; [apply (interrupted_moment A)| | |done].
  - apply _.
  - intros s. unfold A, owes, mark_interrupted. destruct (rs_interrupted s) eqn:E; [by right|].
    intros [H|H]; [by left|done].
  - intros s [Hs Hc]. eapply moment_mono; [|exact Hs]. intros [Ho|[Hc'|Hi]]; [by left|congruence|by right].
  - intros i s [Hs <-]. eapply moment_mono; [|exact Hs]. intros [Ho|Hi] Hf; [done|congruence].
Qed.

Lemma hoare_assoc {B C D} P (m : RM B) (f : B → RM C) (g : C → RM D) Q E :
  hoare P ((m ≫= f) ≫= g) Q E → hoare P (m ≫= λ b, f b ≫= g) Q E.
Proof.
  intros H s Hs. specialize (H s Hs). unfold mbind, rm_bind in *. by destruct (m s) as [[[b|e]| |] s'].
Qed.

Lemma hooked_quiet context I : ExecInv o any_kind I → keeps_run I (hooked o context).
Proof. intros ?. apply keeps_when. intros _. apply (keeps_observe o any_kind I). Qed.

Lemma when_moment A b m :
  hoare (moment A) m (λ _, moment A) over → hoare (moment A) (when_ b m) (λ _, moment A) over.
Proof. intros Hm. destruct b; [exact Hm|]. intros s Hs. exact Hs. Qed.

Lemma iterations_moment fuel rest iteration :
  hoare (moment settled) (iterations o fuel rest iteration) (λ _, over) over.
Proof.
  revert iteration. induction rest as [|rest IH]; intros iteration; cbn [iterations].
  { eapply hoare_conseq; [apply out_of_iterations_moment|intros s; apply moment_over|done..]. }
  eapply hoare_bind; [by apply (moment_update settled settled)|]. intros u.
  apply hoare_assoc. eapply hoare_bind; [apply ready_moment|]. intros [|]; [apply ret_over|].
  eapply hoare_bind.
  { eapply hoare_conseq; [apply (quiet_moment (owes [])); [apply _|intros; apply keeps_get]| |
      intros a s Hs; exact Hs|done]. intros s. apply moment_mono. auto. }
  intros messages. eapply hoare_bind; [apply quiet_moment; [apply _|by apply hooked_quiet]|]. intros u1.
  eapply hoare_bind; [apply quiet_moment; [apply _|intros I ?; apply (keeps_check any_kind I)]|]. intros u2.
  eapply hoare_bind; [apply provider_turn_moment|]. intros turn. cbn zeta.
  destruct (dedupe _) as [calls duplicates].
  eapply hoare_bind; [apply quiet_moment; [apply _|by apply hooked_quiet]|]. intros u3.
  eapply hoare_bind.
  { apply quiet_moment; [apply _|]. intros I ?. apply keeps_when. intros _. apply (keeps_warning o any_kind I). }
  intros u4. destruct calls as [|call calls].
  { eapply hoare_conseq; [apply final_moment|intros s; apply moment_over|done..]. }
  eapply hoare_bind.
  { apply quiet_moment; [apply _|]. intros I ?. apply keeps_when. intros _. apply (keeps_warning o any_kind I). }
  intros u5. eapply hoare_bind; [apply (tools_moment _ _ _ _ true)|]. intros u6.
  eapply hoare_bind; [apply hoare_get|]. intros suspended. cbn beta.
  destruct suspended; [intros s [_ Hs]; by eapply moment_over|].
  apply (hoare_bind _ _ _ (λ _, moment settled)); [|intros u7; apply IH].
  eapply hoare_conseq; [apply (when_moment settled)| |intros a s Hs; exact Hs|done].
  - apply apply_steering_moment.
  - intros s [Hf Hs]. eapply moment_mono; [|exact Hs]. intros [|Hsus]; [done|congruence].
Qed.

Lemma resume_moment :
  hoare (moment (owes (map tc_id o.(ro_resume_calls)))) (resume o)
    (λ _, moment (λ s, s.(rs_suspended) = false → settled s)) over.
Proof.
  unfold resume. destruct (ro_resume_calls o) as [|call calls].
  { intros s Hs. eapply moment_mono; [|exact Hs]. intros H _. by left. }
  set (l := call :: calls).
  eapply hoare_bind; [by apply (moment_update (owes (map tc_id l)) (owes (map tc_id l)))|]. intros u.
  eapply hoare_bind; [apply (tools_moment _ _ _ _ false)|]. intros u1.
  eapply hoare_bind; [apply hoare_get|]. intros suspended. cbn beta. destruct suspended.
  - intros s [Hf Hs]. destruct Hs as [H1 H2]. split; [done|]. intros Hc. destruct (H2 Hc) as [Hr _].
    split; [done|]. congruence.
  - eapply hoare_conseq; [apply (apply_steering_moment 1)| | |done].
    + intros s [Hf Hs]. eapply moment_mono; [|exact Hs]. intros [|Hsus]; [done|congruence].
    + intros a s Hs. eapply moment_mono; [|exact Hs]. auto.
Qed.

Lemma run_body_moment fuel :
  hoare (moment (owes (map tc_id o.(ro_resume_calls)))) (run_body o fuel) (λ _, over) over.
Proof.
  unfold run_body. set (A := owes _).
  eapply hoare_bind; [apply (quiet_moment A); [apply _|intros; apply keeps_get]|]. intros messages.
  eapply hoare_bind; [apply (quiet_moment A); [apply _|by apply hooked_quiet]|]. intros u.
  eapply hoare_bind; [apply resume_moment|]. intros u1.
  eapply hoare_bind; [apply hoare_get|]. intros suspended. cbn beta.
  destruct suspended; [intros s [_ Hs]; by eapply moment_over|].
  eapply hoare_conseq; [apply iterations_moment| |done..].
  intros s [Hf Hs]. eapply moment_mono; [|exact Hs]. auto.
Qed.

Lemma end_error_moment e : hoare over (end_error o e) (λ _, over) over.
Proof.
  apply over_quiet. intros I ?. unfold end_error. destruct (bool_decide _);
    (apply keeps_bind; [by apply keeps_attempt, (keeps_emit o any_kind I)|intros u; apply keeps_ret]).
Qed.

Lemma run_end_moment fuel :
  hoare (moment (owes (map tc_id o.(ro_resume_calls))))
    (ended ← attempt (run_body o fuel);
     terminal ← match ended with Ok t => mret t | Err e => end_error o e end;
     run_result o terminal) (λ _, over) over.
Proof.
  eapply hoare_bind; [apply hoare_attempt, run_body_moment|]. intros ended.
  apply (hoare_bind _ _ _ (λ _, over)).
  - destruct ended as [t|e]; [intros s Hs; exact Hs|apply end_error_moment].
  - intros t. apply over_quiet. intros I ?. unfold run_result. keeps_tac.
Qed.

(** C8: Every request a run sends is a history a provider accepts: each
    tool result follows the assistant message that called it, in the order of
    its calls, and none of the calls is left without one, however the batches
    before it went (budgets, caps, hooks, failed tools, held suspensions,
    steering), as long as the messages it starts from leave open exactly
    the approved calls it is to resume with and no stand-in for a missing
    result is about. *)
Theorem run_requests_answered fuel budget :
  let s := (run_chat o fuel (initial o budget)).2 in
  owed [] o.(ro_messages) = Some (map tc_id o.(ro_resume_calls)) →
  Forall (λ m, is_synthetic_missing from_str m = false)
    (o.(ro_messages) ++ concat (map handed_obs s.(rs_trace)) ++ s.(rs_pending)) →
  ∀ messages continuation, ORequest messages continuation ∈ s.(rs_trace) → owed [] messages = Some [].
Proof.
  intros s Ho Hc messages continuation.
  assert (over s) as [_ H]; [|by apply (H Hc)].
  assert (moment (owes (map tc_id o.(ro_resume_calls))) (started o budget)) as Hs0.
  { split; [apply hi_start|]. intros _. split; [by intros ms c ?%elem_of_nil|exact Ho]. }
  pose proof (run_end_moment fuel (started o budget) Hs0) as H.
  change s with ((ended ← attempt (run_body o fuel);
     terminal ← match ended with Ok t => mret t | Err e => end_error o e end;
     run_result o terminal) (started o budget)).2.
  match type of H with match ?m with _ => _ end => destruct m as [[[r|e]| |] s'] end; exact H.
Qed.
End history.

Lemma run_requests_answered_witness :
  let s := (run_chat demo_opts 10 (initial demo_opts (Some demo_budget))).2 in
  ∃ messages, length messages = 4%nat ∧ ORequest messages None ∈ s.(rs_trace) ∧ owed [] messages = Some [].
Proof.
  set (s := (run_chat demo_opts 10 (initial demo_opts (Some demo_budget))).2).
  set (ms := match s.(rs_trace) !! 12%nat with Some (ORequest ms _) => ms | _ => [] end).
  assert (s.(rs_trace) !! 12%nat = Some (ORequest ms None)) as E by (vm_compute; reflexivity).
  exists ms. split; [vm_compute; reflexivity|]. split; [exact (list_elem_of_lookup_2 _ _ _ E)|].
  apply (run_requests_answered demo_opts 10 (Some demo_budget)) with (continuation := None).
  - vm_compute. reflexivity.
  - vm_compute. repeat constructor.
  - exact (list_elem_of_lookup_2 _ _ _ E).
Defined.
