(* ===== verification/Phase.v ===== *)
(** * The client's view of a run

    [client/src/phase.rs]: what the client shows of a run, folded from its
    event stream; [client/src/presentation.rs]: the chat a user interface
    shows, guarded by load tickets, and the connection it has selected. *)

From S2P Require Export Value ClientSse.
From stdpp Require Import gmap strings.
From Stdlib Require Import QArith Qcanon.
Local Close Scope Qc_scope.
Local Close Scope Q_scope.
Local Open Scope Z_scope.

Inductive RunPhase :=
  | Queued | Running | Streaming | Settling | Interrupted | Incomplete | WaitingApproval
  | Completed | Failed | Cancelled.
#[export] Instance RunPhase_eq_dec : EqDecision RunPhase.
Proof. solve_decision. Defined.

Definition protocol (message : string) : ClientError := Protocol message.

(** [Value == &str]. *)
Definition is_str (v : Value) (s : string) : bool := bool_decide (as_str v = Some s).

Module Run.

Record RunState := mkRunState {
  text : string;
  last_seq : option Qc;
  last_event_id : option string;
  status : option string;
  started_new_pass : bool;
  streaming : bool;
  seen : bool;
  outcome : option RunPhase
}.
(** [Default]. *)
Definition run_default : RunState := mkRunState "" None None None false false false None.

(** The fields [observe] reads before it changes anything. *)
Definition event_fields (event : Value) : Res ClientError (Qc * string * string) :=
  match n ← javascript_number (vindex event "seq"); finite n with
  | None => Err (protocol "Event seq must be a finite number")
  | Some seq =>
      match as_str (vindex event "eventId") with
      | None => Err (protocol "Event eventId is required")
      | Some id =>
          match as_str (vindex event "type") with
          | None => Err (protocol "Event type is required")
          | Some kind => Ok (seq, id, kind)
          end
      end
  end.

Definition event_outcome (kind : string) (data : Value) (now : option RunPhase) : option RunPhase :=
  if String.eqb kind "run.completed" then
    if is_str (vindex data "finishReason") "incomplete" then Some Incomplete else Some Completed
  else if String.eqb kind "run.failed" then Some Failed
  else if String.eqb kind "run.cancelled" then Some Cancelled
  else now.

(** The cursor: a sequence number at or below the last one is a replay. *)
Definition replayed (r : RunState) (seq : Qc) : bool :=
  match r.(last_seq) with Some previous => Qle_bool seq previous | None => false end.

(** The part of [observe] that changes the state. *)
Definition apply_event (r : RunState) (seq : Qc) (id kind : string) (data : Value) : RunState :=
  let new_pass :=
    (String.eqb kind "run.warning" && is_str (vindex data "code") "retry_pass")
    || (String.eqb kind "run.started" && (r.(streaming) || is_some r.(outcome))) in
  let text := if new_pass then ""%string else r.(text) in
  let outcome := if new_pass then None else r.(outcome) in
  let streaming :=
    r.(streaming) || String.eqb kind "run.started" || String.eqb kind "run.message.delta" in
  let text :=
    if String.eqb kind "run.message.delta" then
      match as_str (vindex data "delta") with
      | Some delta => (text +:+ delta)%string
      | None => text
      end
    else text in
  mkRunState text (Some seq) (Some id) r.(status) new_pass streaming true
    (event_outcome kind data outcome).

Definition run_observe (event : Value) (r : RunState) : Res ClientError bool * RunState :=
  match event_fields event with
  | Err e => (Err e, r)
  | Ok (seq, id, kind) =>
      if replayed r seq then (Ok false, r)
      else (Ok true, apply_event r seq id kind (vindex event "data"))
  end.

Definition phase (r : RunState) : RunPhase :=
  let later :=
    if is_some r.(outcome) then Settling
    else if r.(streaming) then Streaming
    else if bool_decide (r.(status) = Some "running"%string) || r.(seen) then Running
    else Queued in
  match r.(status) with
  | Some status =>
      if String.eqb status "interrupted" then Interrupted
      else if String.eqb status "waiting_approval" then WaitingApproval
      else if String.eqb status "failed" then Failed
      else if String.eqb status "cancelled" then Cancelled
      else if String.eqb status "completed" then
        if bool_decide (r.(outcome) = Some Incomplete) then Incomplete else Completed
      else later
  | None => later
  end.

Definition set_status (status : string) (r : RunState) : RunState :=
  mkRunState r.(text) r.(last_seq) r.(last_event_id) (Some status) r.(started_new_pass)
    r.(streaming) r.(seen) r.(outcome).

Lemma Qle_bool_spec (a b : Qc) : Qle_bool a b = true ↔ (a <= b)%Qc.
Proof. apply Qle_bool_iff. Qed.

(** The cursor of a run only advances. *)
Definition passed (seq : Qc) (r : RunState) : Prop :=
  ∃ last, r.(last_seq) = Some last ∧ (seq <= last)%Qc.

Lemma observe_passes event r b r' :
  run_observe event r = (Ok b, r') →
  ∃ seq id kind, event_fields event = Ok (seq, id, kind) ∧ passed seq r'.
Proof.
  unfold run_observe, passed. destruct (event_fields event) as [[[seq id] kind]|] eqn:E; [|done].
  unfold replayed. destruct (last_seq r) as [last|] eqn:El.
  - destruct (Qle_bool seq last) eqn:Eq; intros [= <- <-]; exists seq, id, kind; (split; [done|]).
    + exists last. split; [done|]. by apply Qle_bool_spec.
    + exists seq. split; [done|]. apply Qcle_refl.
  - intros [= <- <-]. exists seq, id, kind. split; [done|]. exists seq. split; [done|].
    apply Qcle_refl.
Qed.

Lemma observe_keeps_passed event r seq : passed seq r → passed seq (run_observe event r).2.
Proof.
  intros (last & El & Hle). unfold run_observe. destruct (event_fields event) as [[[s id] kind]|];
    [|by exists last]. unfold replayed. rewrite El.
  destruct (Qle_bool s last) eqn:Eq; [by exists last|]. exists s. split; [done|].
  apply Qcle_trans with last; [done|]. apply Qclt_le_weak, Qcnot_le_lt. intros H.
  apply Qle_bool_spec in H. congruence.
Qed.

Lemma passed_ignored event r seq id kind :
  event_fields event = Ok (seq, id, kind) → passed seq r → run_observe event r = (Ok false, r).
Proof.
  intros E (last & El & Hle). unfold run_observe, replayed. rewrite E, El.
  apply Qle_bool_spec in Hle. by rewrite Hle.
Qed.

End Run.

Module Chat.
Import Run.

(** The generated [MessageDto] and [ProposalDto]: only [chat_id] is read. *)
Section Chat.
Context {MessageDto ProposalDto : Type}.
Context (message_chat_id : MessageDto → string) (proposal_chat_id : ProposalDto → string).

Record ChatLoad := mkLoad { cl_chat_id : string; cl_revision : Z }.

Record ChatState := mkChatState {
  cs_chat_id : option string;
  cs_revision : Z;
  cs_messages : list MessageDto;
  cs_proposals : list ProposalDto;
  cs_runs : gmap string RunState
}.
Definition chat_default : ChatState := mkChatState None 0 [] [] ∅.

(** [None] is the panic of an exhausted revision. *)
Definition chat_select (chat_id : string) (st : ChatState) : option (ChatLoad * ChatState) :=
  revision ← checked 0 u64_max (st.(cs_revision) + 1);
  Some (mkLoad chat_id revision, mkChatState (Some chat_id) revision [] [] ∅).

Definition current (st : ChatState) (load : ChatLoad) : bool :=
  bool_decide (st.(cs_chat_id) = Some load.(cl_chat_id))
    && (st.(cs_revision) =? load.(cl_revision)).

Definition chat_replace (load : ChatLoad) (messages : list MessageDto)
    (proposals : list ProposalDto) (st : ChatState) : Res ClientError bool * ChatState :=
  if negb (current st load) then (Ok false, st)
  else if existsb (λ m, negb (String.eqb (message_chat_id m) load.(cl_chat_id))) messages
       || existsb (λ p, negb (String.eqb (proposal_chat_id p) load.(cl_chat_id))) proposals
  then (Err (protocol "Snapshot contains another chat"), st)
  else (Ok true, mkChatState st.(cs_chat_id) st.(cs_revision) messages proposals st.(cs_runs)).

(** [entry(run).or_default()]: the entry stays even when what follows fails. *)
Definition run_entry (st : ChatState) (run : string) : RunState :=
  default run_default (st.(cs_runs) !! run).
Definition put_run (st : ChatState) (run : string) (r : RunState) : ChatState :=
  mkChatState st.(cs_chat_id) st.(cs_revision) st.(cs_messages) st.(cs_proposals)
    (<[run := r]> st.(cs_runs)).

Definition event_run (event : Value) : option string :=
  run ← as_str (vindex event "runId"); if String.eqb run "" then None else Some run.

Definition chat_observe (load : ChatLoad) (event : Value) (st : ChatState)
    : Res ClientError bool * ChatState :=
  if negb (current st load) then (Ok false, st)
  else
    match event_run event with
    | None => (Err (protocol "Event runId is required"), st)
    | Some run =>
        let '(answer, r) := run_observe event (run_entry st run) in (answer, put_run st run r)
    end.

Definition chat_settle (load : ChatLoad) (run status : string) (st : ChatState) : bool * ChatState :=
  if negb (current st load) then (false, st)
  else (true, put_run st run (set_status status (run_entry st run))).

Inductive UiStep :=
  | SelectStep (chat_id : string)
  | ReplaceStep (load : ChatLoad) (messages : list MessageDto) (proposals : list ProposalDto)
  | ObserveStep (load : ChatLoad) (event : Value)
  | SettleStep (load : ChatLoad) (run status : string).

Definition ui_step (st : ChatState) (s : UiStep) : option ChatState :=
  match s with
  | SelectStep chat_id => snd <$> chat_select chat_id st
  | ReplaceStep load messages proposals => Some (chat_replace load messages proposals st).2
  | ObserveStep load event => Some (chat_observe load event st).2
  | SettleStep load run status => Some (chat_settle load run status st).2
  end.
Fixpoint ui_steps (st : ChatState) (steps : list UiStep) : option ChatState :=
  match steps with
  | [] => Some st
  | s :: steps => st ← ui_step st s; ui_steps st steps
  end.

(** The ticket a step comes with. *)
Definition ticket (s : UiStep) : option ChatLoad :=
  match s with
  | SelectStep _ => None
  | ReplaceStep load _ _ | ObserveStep load _ | SettleStep load _ _ => Some load
  end.

(** A step keeps the chat and the revision, or moves to a later revision. *)
Lemma ui_step_selection st s st' :
  ui_step st s = Some st' →
  (st'.(cs_chat_id) = st.(cs_chat_id) ∧ st'.(cs_revision) = st.(cs_revision))
  ∨ st.(cs_revision) < st'.(cs_revision).
Proof.
  destruct s as [chat|load ms ps|load e|load run status]; simpl.
  - unfold chat_select. intros H. apply fmap_Some in H as ([l st1] & H & ->).
    destruct (checked _ _ _) as [r|] eqn:E; [|done]. injection H as <- <-.
    apply checked_Some in E as [-> _]. right. simpl. lia.
  - intros [= <-]. unfold chat_replace. left. by repeat case_match.
  - intros [= <-]. unfold chat_observe. left. by repeat case_match.
  - intros [= <-]. unfold chat_settle. left. by case_match.
Qed.

Lemma not_current_step st s load :
  ticket s = Some load → current st load = false → ui_step st s = Some st.
Proof.
  destruct s; intros [= ->] H; simpl; unfold chat_replace, chat_observe, chat_settle;
    by rewrite H.
Qed.

Lemma current_revision st load : current st load = true → st.(cs_revision) = load.(cl_revision).
Proof. unfold current. rewrite andb_true_iff, Z.eqb_eq. tauto. Qed.

(** Under the ticket, the run of the event is past [seq]; a ticket that is
    not current stays so. *)
Definition past (load : ChatLoad) (run : string) (seq : Qc) (st : ChatState) : Prop :=
  load.(cl_revision) ≤ st.(cs_revision)
  ∧ (current st load = true → ∃ r, st.(cs_runs) !! run = Some r ∧ passed seq r).

Lemma run_step_past st run run' seq f :
  (∀ r, passed seq r → passed seq (f r)) →
  (∃ r, st.(cs_runs) !! run = Some r ∧ passed seq r) →
  ∃ r, (put_run st run' (f (run_entry st run'))).(cs_runs) !! run = Some r ∧ passed seq r.
Proof.
  intros Hf (r & E & H). unfold put_run, run_entry. simpl. destruct (decide (run' = run)) as [->|Hne].
  - rewrite lookup_insert_eq, E. simpl. eauto.
  - rewrite lookup_insert_ne by done. eauto.
Qed.

Lemma ui_step_past st s st' load run seq :
  ui_step st s = Some st' → past load run seq st → past load run seq st'.
Proof.
  intros H [Hrev Hpast]. destruct (ui_step_selection _ _ _ H) as [[Ec Er]|Hlt].
  2: { split; [lia|]. intros Hc%current_revision. lia. }
  split; [lia|]. intros Hc.
  assert (Hc0 : current st load = true) by (unfold current in *; by rewrite <-Ec, <-Er).
  specialize (Hpast Hc0). destruct s as [chat|l ms ps|l e|l run' status]; simpl in H.
  - unfold chat_select in H. apply fmap_Some in H as ([l st1] & H & ->).
    destruct (checked _ _ _) as [r|] eqn:E; [|done]. injection H as <- <-.
    apply checked_Some in E as [-> _]. simpl in Er. lia.
  - injection H as <-. unfold chat_replace. repeat case_match; done.
  - injection H as <-. unfold chat_observe. case_match; [done|]. destruct (event_run e) as [run'|]; [|done].
    pose proof (run_step_past st run run' seq (λ r, (run_observe e r).2)) as K. simpl in K, Hc0.
    destruct (run_observe e (run_entry st run')). apply K; [|done]. intros r1 Hr.
    by apply observe_keeps_passed.
  - injection H as <-. unfold chat_settle. case_match; [done|]. simpl.
    apply (run_step_past st run run' seq (set_status status)); [|done]. done.
Qed.

Lemma ui_steps_past steps st st' load run seq :
  ui_steps st steps = Some st' → past load run seq st → past load run seq st'.
Proof.
  revert st. induction steps as [|s steps IH]; simpl; intros st; [by intros [= ->]|].
  intros (st1 & H & H')%bind_Some Hp. eapply IH; [done|]. by eapply ui_step_past.
Qed.

Lemma ui_steps_revision steps st st' :
  ui_steps st steps = Some st' → st.(cs_revision) ≤ st'.(cs_revision).
Proof.
  revert st. induction steps as [|s steps IH]; simpl; intros st; [by intros [= ->]|].
  intros (st1 & H & H'%IH)%bind_Some. destruct (ui_step_selection _ _ _ H) as [[_ ?]|?]; lia.
Qed.

(** A ticket of a revision already reached that is not current never is. *)
Lemma ui_steps_stale steps st st' load :
  load.(cl_revision) ≤ st.(cs_revision) → current st load = false →
  ui_steps st steps = Some st' → current st' load = false.
Proof.
  revert st. induction steps as [|s steps IH]; simpl; intros st Hrev Hc; [by intros [= <-]|].
  intros (st1 & H & H')%bind_Some. destruct (ui_step_selection _ _ _ H) as [[E1 E2]|Hlt].
  - apply (IH st1); [lia| |done]. revert Hc. unfold current. by rewrite E1, E2.
  - apply (IH st1); [lia| |done]. apply not_true_is_false. intros K%current_revision. lia.
Qed.

(** An event the user interface has taken in once is a no-op ever
    after: delivered again under the same ticket, whatever happened in
    between, it changes nothing and reports a replay.  And once another chat
    is selected, nothing that carries an earlier ticket (a late snapshot,
    event or settlement) changes the state any more. *)
Theorem late_deliveries_ignored st load event b st1 steps st2 :
  load.(cl_revision) ≤ st.(cs_revision) →
  chat_observe load event st = (Ok b, st1) →
  ui_steps st1 steps = Some st2 →
  chat_observe load event st2 = (Ok false, st2)
  ∧ ∀ chat new st3 more st4 s,
      chat_select chat st2 = Some (new, st3) → ui_steps st3 more = Some st4 →
      current st3 new = true ∧ (ticket s = Some load → ui_step st4 s = Some st4).
Proof.
  intros Hrev H Hsteps. split.
  - destruct (current st load) eqn:Hc.
    + unfold chat_observe in *. rewrite Hc in H. simpl in H.
      destruct (event_run event) as [run|]; [|done].
      destruct (run_observe event (run_entry st run)) as [a r] eqn:Er. injection H as -> <-.
      apply observe_passes in Er as (seq & id & kind & Ef & Hp).
      destruct (ui_steps_past _ _ _ load run seq Hsteps) as [_ Hpast].
      { split; [done|]. intros _. exists r. split; [apply lookup_insert_eq|done]. }
      destruct (current st2 load) eqn:Hc2; [|done]. simpl.
      destruct Hpast as (r2 & E2 & Hp2); [done|].
      unfold run_entry. rewrite E2. simpl.
      rewrite (passed_ignored _ _ _ _ _ Ef Hp2). unfold put_run. rewrite insert_id by done.
      by destruct st2.
    + assert (st1 = st) as -> by (unfold chat_observe in H; rewrite Hc in H; by injection H).
      unfold chat_observe. by rewrite (ui_steps_stale steps st st2 load).
  - intros chat new st3 more st4 s Hsel Hmore. unfold chat_select in Hsel.
    destruct (checked _ _ _) as [r|] eqn:E; [|done]. injection Hsel as <- <-.
    apply checked_Some in E as [-> _]. split.
    { unfold current. simpl. by rewrite bool_decide_true, Z.eqb_refl. }
    intros Ht. apply not_current_step with load; [done|].
    apply ui_steps_revision in Hsteps.
    assert (st.(cs_revision) ≤ st1.(cs_revision)) as E.
    { apply (ui_steps_revision [ObserveStep load event]). simpl. by rewrite H. }
    eapply ui_steps_stale; [| |exact Hmore]; simpl; [lia|].
    apply not_true_is_false. intros K%current_revision. simpl in K. lia.
Qed.

End Chat.

(** ** The theorem at a concrete chat *)

Definition ex_event (seq : Z) (kind : string) (data : list (string * Value)) : Value :=
  VObj [("runId", VStr "run"); ("seq", VNum (JFin (Q2Qc (inject_Z seq)))); ("eventId", VStr "event");
        ("type", VStr kind); ("data", VObj data)]%string.
Definition ex_delta (seq : Z) (delta : string) : Value :=
  ex_event seq "run.message.delta" [("delta", VStr delta)]%string.

Abbreviation ex_chat := (ChatState (MessageDto := string) (ProposalDto := string)).
Definition ex_load : ChatLoad := mkLoad "chat" 1.
Definition ex_state : option ex_chat :=
  '(_, st) ← chat_select "chat" chat_default;
  ui_steps id id st [ObserveStep ex_load (ex_event 0 "run.started" []);
                     ObserveStep ex_load (ex_delta 1 "he")].
Definition ex_later : list (UiStep (MessageDto := string) (ProposalDto := string)) :=
  [ObserveStep ex_load (ex_delta 2 "llo"); ReplaceStep ex_load ["chat"%string] [];
   ObserveStep ex_load (ex_event 3 "run.completed" []); SettleStep ex_load "run" "completed"].

Definition final_view (st : ex_chat) : option (string * RunPhase) :=
  (λ r, (r.(text), phase r)) <$> st.(cs_runs) !! "run"%string.

(** The second delivery of the delta 1 leaves the text [hello] alone. *)
Lemma late_deliveries_ignored_witness :
  match ex_state with
  | Some st =>
      match ui_steps id id (chat_observe ex_load (ex_delta 1 "he") st).2 ex_later with
      | Some st2 =>
          final_view st2 = Some ("hello"%string, Completed)
          ∧ chat_observe ex_load (ex_delta 1 "he") st2 = (Ok false, st2)
      | None => False
      end
  | None => False
  end.
Proof.
  destruct ex_state as [st|] eqn:E; [|vm_compute in E; discriminate E].
  destruct (chat_observe ex_load (ex_delta 1 "he") st) as [[b|e] st1] eqn:E1;
    [|vm_compute in E; injection E as <-; vm_compute in E1; discriminate E1].
  cbn [snd].
  destruct (ui_steps id id st1 ex_later) as [st2|] eqn:E2;
    [|vm_compute in E; injection E as <-; vm_compute in E1; injection E1 as _ <-;
      vm_compute in E2; discriminate E2].
  assert (ex_load.(cl_revision) ≤ st.(cs_revision)) as Hrev.
  { vm_compute in E. injection E as <-. vm_compute. discriminate. }
  split; [|exact (proj1 (late_deliveries_ignored id id _ _ _ _ _ _ _ Hrev E1 E2))].
  vm_compute in E. injection E as <-. vm_compute in E1. injection E1 as _ <-.
  vm_compute in E2. injection E2 as <-. vm_compute. reflexivity.
Defined.

End Chat.

(** [ConnectionChoice], [ConnectionState]: an explicit selection. *)
Module Connection.

Record ConnectionChoice := mkChoice {
  cc_connection_id : string; cc_generation : Z; cc_model : string
}.
#[export] Instance ConnectionChoice_eq_dec : EqDecision ConnectionChoice.
Proof. solve_decision. Defined.

Record ConnectionState := mkConnections {
  cn_choices : list ConnectionChoice; cn_selected : option ConnectionChoice
}.
Definition connection_default : ConnectionState := mkConnections [] None.

Definition refresh (choices : list ConnectionChoice) (st : ConnectionState) : ConnectionState :=
  mkConnections choices
    (choice ← st.(cn_selected); if bool_decide (choice ∈ choices) then Some choice else None).

Definition select_choice (choice : ConnectionChoice) (st : ConnectionState)
    : Res ClientError unit * ConnectionState :=
  if negb (bool_decide (choice ∈ st.(cn_choices))) then
    (Err (protocol "Connection/model selection is stale or unavailable"), st)
  else (Ok tt, mkConnections st.(cn_choices) (Some choice)).

Definition available (st : ConnectionState) : Prop :=
  ∀ choice, st.(cn_selected) = Some choice → choice ∈ st.(cn_choices).

Lemma refresh_available choices st : available (refresh choices st).
Proof.
  unfold available, refresh. simpl. intros choice (c & _ & H)%bind_Some.
  case_bool_decide; [|done]. by injection H as <-.
Qed.
Lemma select_available choice st : available st → available (select_choice choice st).2.
Proof.
  unfold available, select_choice. intros H. case_bool_decide; simpl; [|done]. by intros ? [= <-].
Qed.

End Connection.
