(* ===== verification/Edits.v ===== *)
(** * The edit engine

    [toolpacks-coding/src/edit_engine.rs]: several edits applied at once to a
    file, matched exactly or up to a normalisation, spliced into the original
    so that its line terminators survive.  Texts are their UTF-8 bytes and
    offsets count bytes, as in the code; compatibility composition
    ([unicode_normalization], NFKC) is a parameter on characters. *)

From stdpp Require Import pretty.
From S2P Require Export Sse.
Local Open Scope nat_scope.

Record Edit := mkEdit { old_text : bytes; new_text : bytes }.

Record CodingError := mkCodingError { ce_code : string; ce_message : string }.

(** ** Line terminators *)

Inductive Eol := Crlf | Lf | Cr.
Definition eol_str (e : Eol) : bytes :=
  match e with Crlf => [13%Z; 10%Z] | Lf => [10%Z] | Cr => [13%Z] end.

(** The counts of CRLF, lone LF and lone CR. *)
Fixpoint eol_counts (s : bytes) : nat * nat * nat :=
  match s with
  | [] => (0, 0, 0)
  | b :: s1 =>
      let '(crlf, lf, cr) := eol_counts s1 in
      if (b =? CR)%Z then
        match s1 with
        | c :: s2 => if (c =? LF)%Z then let '(crlf, lf, cr) := eol_counts s2 in (S crlf, lf, cr)
                     else (crlf, lf, S cr)
        | [] => (crlf, lf, S cr)
        end
      else if (b =? LF)%Z then (crlf, S lf, cr)
      else (crlf, lf, cr)
  end.

Definition dominant_eol (content : bytes) : Eol :=
  let '(crlf, lf, cr) := eol_counts content in
  let top := Nat.max (Nat.max crlf lf) cr in
  if Nat.eqb lf top then Lf else if Nat.eqb crlf top then Crlf else Cr.

(** [replace("\r\n", "\n")], then [replace('\r', "\n")]. *)
Fixpoint replace_crlf (s : bytes) : bytes :=
  match s with
  | [] => []
  | b :: s1 =>
      if (b =? CR)%Z then
        match s1 with
        | c :: s2 => if (c =? LF)%Z then LF :: replace_crlf s2 else b :: replace_crlf s1
        | [] => [b]
        end
      else b :: replace_crlf s1
  end.
Definition normalize_to_lf (text : bytes) : bytes :=
  map (λ b, if (b =? CR)%Z then LF else b) (replace_crlf text).

(** [lf_view]: the view, and the view offset of the newline that stands for
    each collapsed CRLF. *)
Fixpoint lf_view_from (at_ : nat) (s : bytes) : bytes * list nat :=
  match s with
  | [] => ([], [])
  | b :: s1 =>
      if (b =? CR)%Z then
        match s1 with
        | c :: s2 => if (c =? LF)%Z then let '(v, offs) := lf_view_from (S at_) s2 in (LF :: v, at_ :: offs)
                     else let '(v, offs) := lf_view_from (S at_) s1 in (LF :: v, offs)
        | [] => ([LF], [])
        end
      else let '(v, offs) := lf_view_from (S at_) s1 in (b :: v, offs)
  end.
Definition lf_view (text : bytes) : bytes * list nat := lf_view_from 0 text.

(** [partition_point] on an ascending list. *)
Fixpoint partition_point (p : nat → bool) (l : list nat) : nat :=
  match l with
  | [] => 0
  | x :: l => if p x then S (partition_point p l) else 0
  end.
Definition lf_at (crlf_view_offsets : list nat) (view_offset : nat) : nat :=
  view_offset + partition_point (λ o, Nat.ltb o view_offset) crlf_view_offsets.

Definition ends_with (suffix s : bytes) : bool :=
  bool_decide (drop (length s - length suffix) s = suffix) && Nat.leb (length suffix) (length s).

Definition eol_at_end (s : bytes) : option bytes :=
  if ends_with [CR; LF] s then Some [CR; LF]
  else if ends_with [LF] s then Some [LF]
  else if ends_with [CR] s then Some [CR]
  else None.

Definition replace_lf (eol s : bytes) : bytes :=
  concat (map (λ b, if (b =? LF)%Z then eol else [b]) s).

Definition with_eol (replacement replaced : bytes) (eol : Eol) : bytes :=
  let out := replace_lf (eol_str eol) replacement in
  match eol_at_end replaced with
  | None => out
  | Some tail =>
      if negb (ends_with [LF] replacement) then out
      else take (length out - length (eol_str eol)) out ++ tail
  end.

Definition split_bom (content : bytes) : bytes * bytes :=
  match strip_prefix bom content with Some text => (bom, text) | None => ([], content) end.

(** ** Lines *)

(** Lines with their LF endings, and with their original endings. *)
Fixpoint split_lines_from (line s : bytes) : list bytes :=
  match s with
  | [] => match line with [] => [] | _ => [line] end
  | b :: s => if (b =? LF)%Z then (line ++ [b]) :: split_lines_from [] s
              else split_lines_from (line ++ [b]) s
  end.
Definition split_lines_with_endings (content : bytes) : list bytes := split_lines_from [] content.

Fixpoint split_original_from (line s : bytes) : list bytes :=
  match s with
  | [] => match line with [] => [] | _ => [line] end
  | b :: s1 =>
      if (b =? CR)%Z then
        match s1 with
        | c :: s2 => if (c =? LF)%Z then (line ++ [b; c]) :: split_original_from [] s2
                     else (line ++ [b]) :: split_original_from [] s1
        | [] => [line ++ [b]]
        end
      else if (b =? LF)%Z then (line ++ [b]) :: split_original_from [] s1
      else split_original_from (line ++ [b]) s1
  end.
Definition split_original_lines (content : bytes) : list bytes := split_original_from [] content.

Record LineSpan := mkSpan { ls_start : nat; ls_end : nat }.
Fixpoint spans_from (offset : nat) (lines : list bytes) : list LineSpan :=
  match lines with
  | [] => []
  | line :: lines => mkSpan offset (offset + length line) :: spans_from (offset + length line) lines
  end.
Definition line_spans (content : bytes) : list LineSpan := spans_from 0 (split_lines_with_endings content).

(** A replacement: match index, match length, new text. *)
Record Replacement := mkReplacement { r_index : nat; r_length : nat; r_text : bytes }.

Definition slice (s : bytes) (from to : nat) : bytes := take (to - from) (drop from s).

(** ** Searching *)

Fixpoint find_bytes (needle hay : bytes) : option nat :=
  match strip_prefix needle hay with
  | Some _ => Some 0
  | None => match hay with [] => None | _ :: hay => S <$> find_bytes needle hay end
  end.

(** Each match found moves the search one character past its start. *)
Fixpoint count_matches (fuel step : nat) (needle hay : bytes) : nat :=
  match fuel with
  | O => 0
  | S fuel => match find_bytes needle hay with
              | Some at_ => S (count_matches fuel step needle (drop (at_ + step) hay))
              | None => 0
              end
  end.

Definition utf16_len (cs : list char) : nat :=
  list_sum (map (λ c, if (c <? 0x10000)%Z then 1 else 2) cs).

(** ** Normalisation *)

Definition in_class (ranges : list (Z * Z)) (c : char) : bool :=
  existsb (λ r, in_range r.1 r.2 c) ranges.
Definition quote_single : list (Z * Z) := [(0x2018, 0x201B)%Z].
Definition quote_double : list (Z * Z) := [(0x201C, 0x201F)%Z].
Definition dash : list (Z * Z) := [(0x2010, 0x2015); (0x2212, 0x2212)]%Z.
Definition special_space : list (Z * Z) :=
  [(0xA0, 0xA0); (0x2002, 0x200A); (0x202F, 0x202F); (0x205F, 0x205F); (0x3000, 0x3000)]%Z.

(** The four regular expressions, in the order they run. *)
Definition fold_char (c : char) : char :=
  let c := if in_class quote_single c then 0x27%Z else c in
  let c := if in_class quote_double c then 0x22%Z else c in
  let c := if in_class dash c then 0x2D%Z else c in
  if in_class special_space c then 0x20%Z else c.

Definition js_trim_matches (ch : char) : bool :=
  (white_space ch && negb (ch =? 0x85)%Z) || (ch =? 0xFEFF)%Z.
Definition js_trim_end (line : list char) : list char :=
  rev (drop_while js_trim_matches (rev line)).

(** The characters of a [str]. *)
Definition chars (s : bytes) : list char := default [] (decode s).

(** [split('\n')], and the lines joined again. *)
Fixpoint split_lf_from (line s : list char) : list (list char) :=
  match s with
  | [] => [line]
  | c :: s => if (c =? 10)%Z then line :: split_lf_from [] s else split_lf_from (line ++ [c]) s
  end.
Fixpoint join_lf (lines : list (list char)) : list char :=
  match lines with
  | [] => []
  | [line] => line
  | line :: lines => line ++ [10%Z] ++ join_lf lines
  end.

Section engine.
(** [UnicodeNormalization::nfkc]. *)
Context (nfkc : list char → list char).

Definition normalize_for_fuzzy_match (text : bytes) : bytes :=
  encode (map fold_char (join_lf (map js_trim_end (split_lf_from [] (nfkc (chars text)))))).

Definition fold_without_trim (text : bytes) : bytes :=
  encode (map fold_char (nfkc (chars text))).

(** *** Offsets of a line in its folded form *)

Record FoldPass := mkFold {
  fo_boundaries : list (nat * nat);
  fo_total : nat;
  fo_cluster : bytes;
  fo_cluster_folded : bytes;
  fo_cluster_end : nat
}.

Definition fold_step (s : FoldPass) (at_ : nat) (ch : char) : FoldPass :=
  let c := encode_char ch in
  let joined := s.(fo_cluster) ++ c in
  let folded := fold_without_trim joined in
  let joins := match s.(fo_cluster) with
               | [] => false
               | _ => negb (ch <? 0x80)%Z
                      && negb (bool_decide (folded = s.(fo_cluster_folded) ++ fold_without_trim c))
               end in
  if joins then mkFold s.(fo_boundaries) s.(fo_total) joined folded (at_ + length c)
  else
    let s := match s.(fo_cluster) with
             | [] => s
             | _ => let total := s.(fo_total) + length s.(fo_cluster_folded) in
                    mkFold (s.(fo_boundaries) ++ [(s.(fo_cluster_end), total)]) total [] [] s.(fo_cluster_end)
             end in
    mkFold s.(fo_boundaries) s.(fo_total) c (fold_without_trim c) (at_ + length c).

Fixpoint fold_chars (s : FoldPass) (at_ : nat) (cs : list char) : FoldPass :=
  match cs with
  | [] => s
  | ch :: cs => fold_chars (fold_step s at_ ch) (at_ + length (encode_char ch)) cs
  end.

(** [FoldMap::new]. *)
Definition fold_map (line : bytes) : option (list (nat * nat)) :=
  let s := fold_chars (mkFold [(0, 0)] 0 [] [] 0) 0 (chars line) in
  let '(boundaries, total) :=
    match s.(fo_cluster) with
    | [] => (s.(fo_boundaries), s.(fo_total))
    | _ => let total := s.(fo_total) + length s.(fo_cluster_folded) in
           (s.(fo_boundaries) ++ [(s.(fo_cluster_end), total)], total)
    end in
  if Nat.eqb total (length (fold_without_trim line)) then Some boundaries else None.

(** The first boundary at or past the target, when it is the target. *)
Definition original_offset_of (boundaries : list (nat * nat)) (target : nat) : option nat :=
  match find_by (λ b, negb (Nat.ltb b.2 target)) boundaries with
  | Some (original, folded) => if Nat.eqb folded target then Some original else None
  | None => None
  end.

Fixpoint stable_gaps (map_ : list (nat * nat)) (line : bytes) (cursor : nat) (spans : list (nat * nat))
    : option nat :=
  match spans with
  | [] => Some cursor
  | (from, to) :: spans =>
      match original_offset_of map_ from, original_offset_of map_ to with
      | Some start, Some end_ =>
          if Nat.ltb start cursor || Nat.ltb end_ start then None
          else
            let gap := slice line cursor start in
            if negb (bool_decide (fold_without_trim gap = gap)) then None
            else stable_gaps map_ line end_ spans
      | _, _ => None
      end
  end.

Definition untouched_text_is_stable (line : bytes) (spans : list (nat * nat)) : bool :=
  match fold_map line with
  | None => false
  | Some map_ =>
      match stable_gaps map_ line 0 spans with
      | None => false
      | Some cursor =>
          let tail := drop cursor line in
          bool_decide (js_trim_end (chars tail) = js_trim_end (chars (fold_without_trim tail)))
      end
  end.

(** *** Rewriting whole lines *)

Definition coding_error (code message : string) : CodingError := mkCodingError code message.
Definition outside_error : CodingError :=
  coding_error "edit_internal" "replacement range is outside the base content".

Fixpoint start_line_from (i : nat) (lines : list LineSpan) (from : nat) : option nat :=
  match lines with
  | [] => None
  | line :: lines =>
      if Nat.leb line.(ls_start) from && Nat.ltb from line.(ls_end) then Some i
      else start_line_from (S i) lines from
  end.
Fixpoint end_line_from (lines : list LineSpan) (to end_line : nat) : nat :=
  match lines with
  | [] => end_line
  | line :: lines => if Nat.ltb line.(ls_end) to then end_line_from lines to (S end_line) else end_line
  end.

Definition replacement_line_range (lines : list LineSpan) (r : Replacement)
    : Res CodingError (nat * nat) :=
  let to := r.(r_index) + r.(r_length) in
  match start_line_from 0 lines r.(r_index) with
  | None => Err outside_error
  | Some start_line =>
      let end_line := end_line_from (drop start_line lines) to start_line in
      if Nat.leb (length lines) end_line then Err outside_error else Ok (start_line, S end_line)
  end.

Definition apply_replacements (content : bytes) (replacements : list Replacement) (offset : nat) : bytes :=
  foldl (λ result r, let at_ := r.(r_index) - offset in
           take at_ result ++ r.(r_text) ++ drop (at_ + r.(r_length)) result)
    content (rev replacements).

Record Group := mkGroup { g_start : nat; g_end : nat; g_replacements : list Replacement }.

(** The groups so far, the last one first. *)
Definition group_step (groups : list Group) (r : Replacement) (start_line end_line : nat) : list Group :=
  match groups with
  | g :: rest =>
      if Nat.ltb start_line g.(g_end) then
        mkGroup g.(g_start) (Nat.max g.(g_end) end_line) (g.(g_replacements) ++ [r]) :: rest
      else mkGroup start_line end_line [r] :: groups
  | [] => [mkGroup start_line end_line [r]]
  end.
Fixpoint group_all (base_lines : list LineSpan) (groups : list Group) (rs : list Replacement)
    : Res CodingError (list Group) :=
  match rs with
  | [] => Ok (rev groups)
  | r :: rs =>
      range ← replacement_line_range base_lines r;
      group_all base_lines (group_step groups r range.1 range.2) rs
  end.

Definition trim_newlines (also_cr : bool) (s : bytes) : bytes :=
  rev (drop_while (λ b, (b =? LF)%Z || (also_cr && (b =? CR)%Z)) (rev s)).

Definition line_is_safe_to_rewrite (original_line : bytes) (base_line : LineSpan) (base : bytes)
    (group : Group) : bool :=
  let line := trim_newlines true original_line in
  let text_len := length (trim_newlines false (slice base base_line.(ls_start) base_line.(ls_end))) in
  let spans :=
    map (λ r, let from := Nat.max r.(r_index) base_line.(ls_start) - base_line.(ls_start) in
              let to := Nat.min (r.(r_index) + r.(r_length)) base_line.(ls_end) - base_line.(ls_start) in
              (Nat.min from text_len, Nat.min to text_len))
      (filter_by (λ r, Nat.leb r.(r_index) base_line.(ls_end)
                       && Nat.leb base_line.(ls_start) (r.(r_index) + r.(r_length))) group.(g_replacements)) in
  untouched_text_is_stable line spans.

Definition group_is_safe (original_lines : list bytes) (base_lines : list LineSpan) (base : bytes)
    (group : Group) : bool :=
  forallb (λ index, match original_lines !! index, base_lines !! index with
                    | Some line, Some span => line_is_safe_to_rewrite line span base group
                    | _, _ => false
                    end) (seq group.(g_start) (group.(g_end) - group.(g_start))).

Definition line_start (lines : list LineSpan) (i : nat) : nat := default 0 (ls_start <$> lines !! i).
Definition line_end (lines : list LineSpan) (i : nat) : nat := default 0 (ls_end <$> lines !! i).

Fixpoint rewrite_groups (original_lines : list bytes) (base_lines : list LineSpan) (base : bytes)
    (eol : Eol) (cursor : nat) (groups : list Group) : bytes :=
  match groups with
  | [] => concat (drop cursor original_lines)
  | g :: groups =>
      let start_offset := line_start base_lines g.(g_start) in
      let end_offset := line_end base_lines (g.(g_end) - 1) in
      let block := slice base start_offset end_offset in
      let applied := apply_replacements block g.(g_replacements) start_offset in
      let replaced := concat (take (g.(g_end) - g.(g_start)) (drop g.(g_start) original_lines)) in
      concat (take (g.(g_start) - cursor) (drop cursor original_lines)) ++ with_eol applied replaced eol
        ++ rewrite_groups original_lines base_lines base eol g.(g_end) groups
  end.

Definition replacement_le (a b : Replacement) : bool := Nat.leb a.(r_index) b.(r_index).

Definition apply_preserving_unchanged_lines (original base : bytes) (replacements : list Replacement)
    (eol : Eol) : Res CodingError bytes :=
  let original_lines := split_original_lines original in
  let base_lines := line_spans base in
  if negb (Nat.eqb (length original_lines) (length base_lines)) then
    Err (coding_error "edit_normalization_unsafe"
      "normalized matching changed the line count; use exact text")
  else
    groups ← group_all base_lines [] (sort_by replacement_le replacements);
    if negb (forallb (group_is_safe original_lines base_lines base) groups) then
      Err (coding_error "fuzzy_match_would_normalize" ("the match needed whitespace/quote/dash "
        +:+ "normalization, and rewriting its lines would also change other text on them (smart quotes, "
        +:+ "special spaces, compatibility characters); use the exact text from the file as oldText"))
    else mret (rewrite_groups original_lines base_lines base eol 0 groups).

(** *** Matching *)

(** [Haystack]: a text and its normalisation, computed when first needed. *)
Record Haystack := mkHaystack { hs_content : bytes; hs_normalized : bytes }.
Definition haystack_new (content : bytes) : Haystack :=
  mkHaystack content (normalize_for_fuzzy_match content).
Definition already_normalized (content : bytes) : Haystack := mkHaystack content content.

Record FuzzyMatch := mkMatch { fm_index : nat; fm_length : nat; fm_fuzzy : bool }.

(** [None]: not found. *)
Definition find_text (haystack : Haystack) (old : bytes) : option FuzzyMatch :=
  match find_bytes old haystack.(hs_content) with
  | Some exact => Some (mkMatch exact (length old) false)
  | None =>
      let fuzzy_old := normalize_for_fuzzy_match old in
      match find_bytes fuzzy_old haystack.(hs_normalized) with
      | Some at_ => Some (mkMatch at_ (length fuzzy_old) true)
      | None => None
      end
  end.

Definition count_occurrences (haystack : Haystack) (old : bytes) : Z :=
  let hay := haystack.(hs_normalized) in
  let needle := normalize_for_fuzzy_match old in
  match needle with
  | [] => match hay with [] => -1 | _ => Z.of_nat (utf16_len (chars hay)) - 1 end
  | _ =>
      let step : nat := match chars needle with c :: _ => length (encode_char c) | [] => 1%nat end in
      Z.of_nat (count_matches (S (length hay)) step needle hay)
  end%Z.

Fixpoint splice_from (original : bytes) (starts : list nat) (eol : Eol) (cursor : nat)
    (matched : list Replacement) : bytes :=
  match matched with
  | [] => drop cursor original
  | r :: matched =>
      let from := lf_at starts r.(r_index) in
      let to := lf_at starts (r.(r_index) + r.(r_length)) in
      slice original cursor from ++ with_eol r.(r_text) (slice original from to) eol
        ++ splice_from original starts eol to matched
  end.
Definition splice_original (original : bytes) (starts : list nat) (matched : list Replacement) (eol : Eol)
    : bytes := splice_from original starts eol 0 matched.

Record MatchedEdit := mkMatched {
  me_edit_index : nat; me_match_index : nat; me_match_length : nat; me_new_text : bytes
}.

Record AppliedEdits := mkApplied { ae_base_content : bytes; ae_new_content : bytes; ae_output : bytes }.

Definition show_nat (n : nat) : string := pretty (N.of_nat n).
Definition show_Z (z : Z) : string := pretty z.

Definition label (total i : nat) : string :=
  if Nat.eqb total 1 then "the text" else "edits[" +:+ show_nat i +:+ "]".

Fixpoint check_nonempty (path : string) (total i : nat) (edits : list (bytes * bytes))
    : Res CodingError unit :=
  match edits with
  | [] => Ok tt
  | ([], _) :: _ =>
      let subject := if Nat.eqb total 1 then "oldText" else "edits[" +:+ show_nat i +:+ "].oldText" in
      Err (coding_error "edit_empty_old_text" (subject +:+ " must not be empty in " +:+ path))
  | _ :: edits => check_nonempty path total (S i) edits
  end.

Fixpoint match_edits (path : string) (total i : nat) (base : Haystack) (edits : list (bytes * bytes))
    : Res CodingError (list MatchedEdit) :=
  match edits with
  | [] => Ok []
  | (old, new) :: edits =>
      match find_text base old with
      | None => Err (coding_error "edit_no_match" ("Could not find " +:+ label total i +:+ " in " +:+ path
          +:+ ". oldText must match exactly, including whitespace and newlines."))
      | Some m =>
          let occurrences := count_occurrences base old in
          if (1 <? occurrences)%Z then
            Err (coding_error "edit_ambiguous" ("Found " +:+ show_Z occurrences +:+ " occurrences of "
              +:+ label total i +:+ " in " +:+ path
              +:+ ". oldText must be unique; add surrounding context."))
          else
            rest ← match_edits path total (S i) base edits;
            mret (mkMatched i m.(fm_index) m.(fm_length) new :: rest)
      end
  end.

Fixpoint check_overlap (path : string) (matched : list MatchedEdit) : Res CodingError unit :=
  match matched with
  | previous :: (current :: _) as rest =>
      if Nat.ltb current.(me_match_index) (previous.(me_match_index) + previous.(me_match_length)) then
        Err (coding_error "edit_overlap" ("edits[" +:+ show_nat previous.(me_edit_index) +:+ "] and edits["
          +:+ show_nat current.(me_edit_index) +:+ "] overlap in " +:+ path
          +:+ ". Merge them or target disjoint regions."))
      else check_overlap path rest
  | _ => Ok tt
  end.

Definition match_le (a b : MatchedEdit) : bool := Nat.leb a.(me_match_index) b.(me_match_index).
Definition replacement_of (m : MatchedEdit) : Replacement :=
  mkReplacement m.(me_match_index) m.(me_match_length) m.(me_new_text).

Definition uses_fuzzy (content : Haystack) (edits : list (bytes * bytes)) : bool :=
  existsb (λ e, is_some_and (find_text content e.1) fm_fuzzy) edits.

Definition normalized_edits (edits : list Edit) : list (bytes * bytes) :=
  map (λ e, (normalize_to_lf e.(old_text), normalize_to_lf e.(new_text))) edits.

Definition apply_edits (original : bytes) (edits : list Edit) (path : string)
    : Res CodingError AppliedEdits :=
  let '(normalized_content, starts) := lf_view original in
  let eol := dominant_eol original in
  let total := length edits in
  let normalized := normalized_edits edits in
  _ ← check_nonempty path total 0 normalized;
  let content_view := haystack_new normalized_content in
  let used_fuzzy := uses_fuzzy content_view normalized in
  let base_view := if used_fuzzy then already_normalized content_view.(hs_normalized)
                   else haystack_new normalized_content in
  matched ← match_edits path total 0 base_view normalized;
  let matched := sort_by match_le matched in
  _ ← check_overlap path matched;
  let replacements := map replacement_of matched in
  output ← (if used_fuzzy
            then apply_preserving_unchanged_lines original base_view.(hs_content) replacements eol
            else Ok (splice_original original starts replacements eol));
  if bool_decide (output = original) then
    Err (coding_error "edit_no_change" ("No changes made to " +:+ path
      +:+ ": the replacement produced identical content."))
  else mret (mkApplied normalized_content (normalize_to_lf output) output).
End engine.
