(* ===== verification/EditLaws.v ===== *)
(** * What an edit changes

    Exact matches: the edits replace one stretch of the file each, and every
    other byte stays; in a file without lone carriage returns the change,
    seen through LF line endings, is the one asked for. *)

From S2P Require Export Edits.
Local Open Scope nat_scope.

(** ** The LF view *)

(** Induction along the line terminators. *)
Lemma text_ind (P : bytes → Prop) :
  P [] → (∀ s, P s → P (CR :: LF :: s)) → (∀ s, head s ≠ Some LF → P s → P (CR :: s)) →
  (∀ b s, b ≠ CR → P s → P (b :: s)) → ∀ s, P s.
Proof.
  intros H0 H1 H2 H3 s. remember (length s) as n eqn:En. revert s En.
  induction n as [n IH] using lt_wf_ind. intros s ->.
  destruct s as [|b s]; [done|]. destruct (decide (b = CR)) as [->|Hb].
  - destruct s as [|c s]; [apply H2; [done|apply H0]|]. destruct (decide (c = LF)) as [->|Hc].
    + apply H1, (IH (length s)); simpl; [lia|done].
    + apply H2; [by intros [= ->]|]. apply (IH (length (c :: s))); simpl; [lia|done].
  - apply H3; [done|]. apply (IH (length s)); simpl; [lia|done].
Qed.

Lemma head_not_lf s : head s ≠ Some LF → match s with c :: _ => (c =? LF)%Z = false | [] => True end.
Proof. destruct s as [|c s]; [done|]. intros H. apply Z.eqb_neq. intros ->. by apply H. Qed.

Lemma lf_crlf s : normalize_to_lf (CR :: LF :: s) = LF :: normalize_to_lf s.
Proof. done. Qed.
Lemma lf_cr s : head s ≠ Some LF → normalize_to_lf (CR :: s) = LF :: normalize_to_lf s.
Proof.
  intros H%head_not_lf. unfold normalize_to_lf. simpl. destruct s as [|c s]; [done|]. by rewrite H.
Qed.
Lemma lf_other b s : b ≠ CR → normalize_to_lf (b :: s) = b :: normalize_to_lf s.
Proof.
  intros H%Z.eqb_neq. unfold normalize_to_lf. simpl. rewrite H. simpl. by rewrite H.
Qed.

Lemma view_crlf at_ s : lf_view_from at_ (CR :: LF :: s)
  = (LF :: (lf_view_from (S at_) s).1, at_ :: (lf_view_from (S at_) s).2).
Proof. simpl. by destruct (lf_view_from (S at_) s). Qed.
Lemma view_cr at_ s : head s ≠ Some LF →
  lf_view_from at_ (CR :: s) = (LF :: (lf_view_from (S at_) s).1, (lf_view_from (S at_) s).2).
Proof.
  intros H%head_not_lf. simpl. destruct s as [|c s]; [done|]. rewrite H.
  by destruct (lf_view_from (S at_) (c :: s)).
Qed.
Lemma view_other at_ b s : b ≠ CR →
  lf_view_from at_ (b :: s) = (b :: (lf_view_from (S at_) s).1, (lf_view_from (S at_) s).2).
Proof. intros H%Z.eqb_neq. simpl. rewrite H. by destruct (lf_view_from (S at_) s). Qed.

Lemma lf_view_text at_ s : (lf_view_from at_ s).1 = normalize_to_lf s.
Proof.
  revert at_. induction s as [|s IH|s Hs IH|b s Hb IH] using text_ind; intros at_; [done|..].
  - by rewrite view_crlf, lf_crlf, <-(IH (S at_)).
  - by rewrite view_cr, lf_cr, <-(IH (S at_)).
  - by rewrite view_other, lf_other, <-(IH (S at_)).
Qed.

Lemma lf_view_offsets at_ s o : o ∈ (lf_view_from at_ s).2 → at_ ≤ o.
Proof.
  revert at_. induction s as [|s IH|s Hs IH|b s Hb IH] using text_ind; intros at_.
  - by intros ?%elem_of_nil.
  - rewrite view_crlf. intros [->|H%IH]%elem_of_cons; lia.
  - rewrite view_cr by done. intros H%IH. lia.
  - rewrite view_other by done. intros H%IH. lia.
Qed.

Lemma partition_point_none v l : (∀ o, o ∈ l → v ≤ o) → partition_point (λ o, Nat.ltb o v) l = 0.
Proof.
  intros H. destruct l as [|o l]; [done|]. simpl. destruct (Nat.ltb_spec o v) as [Hlt|]; [|done].
  specialize (H o ltac:(left)). lia.
Qed.

(** A position no terminator straddles. *)
Definition clean (s : bytes) (p : nat) : Prop :=
  last (take p s) = Some CR → head (drop p s) = Some LF → False.

(** The map sends an offset of the view to a clean position of the text that
    splits it as the offset splits the view. *)
Lemma lf_at_cut s at_ v :
  at_ ≤ v ≤ at_ + length (normalize_to_lf s) →
  let p := v - at_ + partition_point (λ o, Nat.ltb o v) (lf_view_from at_ s).2 in
  p ≤ length s ∧ clean s p
  ∧ normalize_to_lf (take p s) = take (v - at_) (normalize_to_lf s)
  ∧ normalize_to_lf (drop p s) = drop (v - at_) (normalize_to_lf s).
Proof.
  revert at_. induction s as [|s IH|s Hs IH|b s Hb IH] using text_ind; intros at_ Hv.
  - simpl in Hv. simpl. replace (v - at_) with 0 by lia. by split_and!.
  - destruct (decide (v = at_)) as [->|Hne].
    { rewrite partition_point_none by apply lf_view_offsets. rewrite Nat.sub_diag. simpl. by split_and!; [lia|..]. }
    rewrite lf_crlf in *. simpl length in Hv. rewrite view_crlf. cbn [snd partition_point].
    rewrite (proj2 (Nat.ltb_lt at_ v)) by lia.
    destruct (IH (S at_)) as (H1 & H2 & H3 & H4); [lia|].
    set (q := v - S at_ + partition_point (λ o, Nat.ltb o v) (lf_view_from (S at_) s).2) in *.
    replace (v - at_ + S (partition_point _ _)) with (S (S q)) by (unfold q; lia).
    replace (v - at_) with (S (v - S at_)) by lia. simpl take. simpl drop. rewrite lf_crlf, H3, H4.
    split_and!; [simpl; lia| |done..]. unfold clean in *. simpl take. simpl drop.
    destruct (take q s); [done|exact H2].
  - destruct (decide (v = at_)) as [->|Hne].
    { rewrite partition_point_none by apply lf_view_offsets. rewrite Nat.sub_diag. simpl. by split_and!; [lia|..]. }
    rewrite lf_cr in * by done. simpl length in Hv. rewrite view_cr by done. cbn [snd].
    destruct (IH (S at_)) as (H1 & H2 & H3 & H4); [lia|].
    set (q := v - S at_ + partition_point (λ o, Nat.ltb o v) (lf_view_from (S at_) s).2) in *.
    replace (v - at_ + partition_point _ _) with (S q) by (unfold q; lia).
    replace (v - at_) with (S (v - S at_)) by lia. simpl take. simpl drop.
    rewrite lf_cr, H3, H4; [|destruct q, s; done].
    split_and!; [simpl; lia| |done..]. unfold clean in *. simpl take. simpl drop.
    destruct q as [|q]; [by destruct s|]. destruct s as [|c s]; [done|]. exact H2.
  - destruct (decide (v = at_)) as [->|Hne].
    { rewrite partition_point_none by apply lf_view_offsets. rewrite Nat.sub_diag. simpl. by split_and!; [lia|..]. }
    rewrite lf_other in * by done. simpl length in Hv. rewrite view_other by done. cbn [snd].
    destruct (IH (S at_)) as (H1 & H2 & H3 & H4); [lia|].
    set (q := v - S at_ + partition_point (λ o, Nat.ltb o v) (lf_view_from (S at_) s).2) in *.
    replace (v - at_ + partition_point _ _) with (S q) by (unfold q; lia).
    replace (v - at_) with (S (v - S at_)) by lia. simpl take. simpl drop.
    rewrite lf_other, H3, H4 by done.
    split_and!; [simpl; lia| |done..]. unfold clean in *. simpl take. simpl drop.
    destruct (take q s); [intros [= ->]; done|exact H2].
Qed.

Lemma lf_app a b : (last a = Some CR → head b = Some LF → False) →
  normalize_to_lf (a ++ b) = normalize_to_lf a ++ normalize_to_lf b.
Proof.
  induction a as [|a IH|a Ha IH|x a Hx IH] using text_ind; intros H; [done|..]; simpl app.
  - rewrite !lf_crlf, IH; [done|]. destruct a; [done|exact H].
  - assert (head (a ++ b) ≠ Some LF) as Hab.
    { destruct a as [|c a]; [intros Hb; by apply H|done]. }
    rewrite !lf_cr by done. rewrite IH; [done|]. destruct a; [done|exact H].
  - rewrite !lf_other by done. rewrite IH; [done|]. destruct a; [done|exact H].
Qed.

(** ** Splicing *)

(** Each edit, an old text as the view shows it and a new one, replaces one
    stretch; what is between the stretches stays. *)
Inductive spliced (eol : Eol) : bytes → list (bytes * bytes) → bytes → Prop :=
  | sp_rest s : spliced eol s [] s
  | sp_edit kept replaced rest new es out :
      spliced eol rest es out →
      spliced eol (kept ++ replaced ++ rest) ((normalize_to_lf replaced, new) :: es)
        (kept ++ with_eol new replaced eol ++ out).

(** The same on plain texts. *)
Inductive view_spliced : bytes → list (bytes * bytes) → bytes → Prop :=
  | vs_rest s : view_spliced s [] s
  | vs_edit kept old rest new es out :
      view_spliced rest es out →
      view_spliced (kept ++ old ++ rest) ((old, new) :: es) (kept ++ new ++ out).

(** Matches in order and apart, between the offsets [v] and [hi]. *)
Fixpoint matches_from (hi v : nat) (rs : list Replacement) : Prop :=
  match rs with
  | [] => v ≤ hi
  | r :: rs => v ≤ r.(r_index) ∧ r.(r_index) + r.(r_length) ≤ hi
               ∧ matches_from hi (r.(r_index) + r.(r_length)) rs
  end.

Definition view_edit (view : bytes) (r : Replacement) : bytes * bytes :=
  (slice view r.(r_index) (r.(r_index) + r.(r_length)), r.(r_text)).

Lemma lf_at_spec s v : v ≤ length (normalize_to_lf s) →
  let p := lf_at (lf_view s).2 v in
  p ≤ length s ∧ clean s p ∧ normalize_to_lf (take p s) = take v (normalize_to_lf s)
  ∧ normalize_to_lf (drop p s) = drop v (normalize_to_lf s).
Proof.
  intros Hv. unfold lf_at, lf_view. pose proof (lf_at_cut s 0 v) as H. simpl in H.
  rewrite Nat.sub_0_r in H. apply H. lia.
Qed.

Lemma partition_point_mono (l : list nat) v w :
  v ≤ w → partition_point (λ o, Nat.ltb o v) l ≤ partition_point (λ o, Nat.ltb o w) l.
Proof.
  intros Hvw. induction l as [|o l IH]; simpl; [done|].
  destruct (Nat.ltb_spec o v), (Nat.ltb_spec o w); lia.
Qed.
Lemma lf_at_mono l v w : v ≤ w → lf_at l v ≤ lf_at l w.
Proof. intros H. unfold lf_at. pose proof (partition_point_mono l v w H). lia. Qed.

Lemma slice_split (s : bytes) a b c : a ≤ b → b ≤ c → slice s a c = slice s a b ++ slice s b c.
Proof.
  intros Hab Hbc. unfold slice. replace (drop b s) with (drop (b - a) (drop a s)) by
    (rewrite drop_drop; f_equal; lia).
  rewrite <-(take_drop (b - a) (take (c - a) (drop a s))). f_equal.
  - rewrite take_take. f_equal. lia.
  - rewrite skipn_firstn_comm. f_equal. lia.
Qed.
Lemma slice_drop (s : bytes) a b : a ≤ b → drop a s = slice s a b ++ drop b s.
Proof.
  intros H. unfold slice. replace (drop b s) with (drop (b - a) (drop a s)) by
    (rewrite drop_drop; f_equal; lia). by rewrite take_drop.
Qed.

(** Between two offsets, the text shows what the view has. *)
Lemma lf_slice s v w : v ≤ w → w ≤ length (normalize_to_lf s) →
  normalize_to_lf (slice s (lf_at (lf_view s).2 v) (lf_at (lf_view s).2 w))
  = slice (normalize_to_lf s) v w.
Proof.
  intros Hvw Hw. pose proof (lf_at_mono (lf_view s).2 v w Hvw) as Hm.
  destruct (lf_at_spec s v) as (Hp & Hcv & Htv & Hdv); [lia|].
  destruct (lf_at_spec s w) as (Hq & Hcw & Htw & Hdw); [lia|].
  set (p := lf_at (lf_view s).2 v) in *. set (q := lf_at (lf_view s).2 w) in *.
  assert (normalize_to_lf (slice s p q) ++ drop w (normalize_to_lf s)
    = slice (normalize_to_lf s) v w ++ drop w (normalize_to_lf s)) as E.
  { rewrite <-Hdw, <-lf_app.
    { rewrite <-slice_drop, Hdv, Hdw by lia. by apply slice_drop. }
    intros Hl Hh. apply Hcw; [|done]. assert (take q s = take p s ++ slice s p q) as ->.
    { pose proof (slice_split s 0 p q) as Hs. unfold slice in Hs |- *. rewrite !drop_0, !Nat.sub_0_r in Hs.
      apply Hs; lia. }
    rewrite last_app, Hl. done. }
  by apply app_inv_tail in E.
Qed.

Lemma splice_from_spliced s eol rs v :
  matches_from (length (normalize_to_lf s)) v rs →
  spliced eol (drop (lf_at (lf_view s).2 v) s) (map (view_edit (normalize_to_lf s)) rs)
    (splice_from s (lf_view s).2 eol (lf_at (lf_view s).2 v) rs).
Proof.
  revert v. induction rs as [|r rs IH]; intros v H; [constructor|].
  destruct H as (Hv & Hlen & H). cbn [splice_from map].
  set (from := lf_at (lf_view s).2 (r_index r)). set (to := lf_at (lf_view s).2 (r_index r + r_length r)).
  assert (lf_at (lf_view s).2 v ≤ from) as H1 by by apply lf_at_mono.
  assert (from ≤ to) as H2 by (apply lf_at_mono; lia).
  rewrite (slice_drop s _ from H1), (slice_drop s from to H2).
  unfold view_edit at 1. rewrite <-(lf_slice s) by lia. apply sp_edit. by apply IH.
Qed.

(** ** Line terminators that survive *)

(** No carriage return stands alone. *)
Definition lone_cr_free (s : bytes) : Prop := (eol_counts s).2 = 0.
Definition no_cr (s : bytes) : Prop := CR ∉ s.

Lemma counts_crlf s : (eol_counts (CR :: LF :: s)).2 = (eol_counts s).2.
Proof. simpl. destruct (eol_counts s) as [[? ?] ?]. done. Qed.
Lemma counts_cr s : head s ≠ Some LF → (eol_counts (CR :: s)).2 = S (eol_counts s).2.
Proof.
  intros H%head_not_lf. destruct s as [|c s]; [done|]. cbn -[Z.eqb]. rewrite H. cbn -[Z.eqb eol_counts].
  destruct (eol_counts s) as [[? ?] ?]. repeat case_match; try done; simplify_eq/=; congruence.
Qed.
Lemma counts_other b s : b ≠ CR → (eol_counts (b :: s)).2 = (eol_counts s).2.
Proof.
  intros H%Z.eqb_neq. cbn [eol_counts]. rewrite H.
  destruct (eol_counts s) as [[? ?] ?]. by destruct (b =? LF)%Z.
Qed.

(** In such a text no clean position follows a carriage return. *)
Lemma clean_not_cr s p : lone_cr_free s → clean s p → last (take p s) ≠ Some CR.
Proof.
  unfold lone_cr_free, clean. revert p.
  induction s as [|s IH|s Hs IH|b s Hb IH] using text_ind; intros p H0 Hc.
  - by destruct p.
  - rewrite counts_crlf in H0. destruct p as [|[|p]]; [done|by exfalso; apply Hc|].
    simpl take in *. simpl drop in *. specialize (IH p H0). destruct (take p s); [done|]. by apply IH.
  - by rewrite counts_cr in H0.
  - rewrite counts_other in H0 by done. destruct p as [|p]; [done|]. simpl take in *. simpl drop in *.
    specialize (IH p H0). destruct (take p s); [by intros [= ->]|]. by apply IH.
Qed.

Lemma no_cr_lf s : no_cr (normalize_to_lf s).
Proof.
  unfold no_cr, normalize_to_lf. intros (b & Hb & _)%list_elem_of_fmap.
  destruct (b =? CR)%Z eqn:E; [done|]. subst. done.
Qed.
Lemma lf_id s : no_cr s → normalize_to_lf s = s.
Proof.
  unfold no_cr. induction s as [|b s IH]; [done|]. intros [Hb Hs]%not_elem_of_cons.
  by rewrite lf_other, IH.
Qed.
Lemma no_cr_app a b : no_cr (a ++ b) ↔ no_cr a ∧ no_cr b.
Proof. unfold no_cr. rewrite elem_of_app. tauto. Qed.
Lemma no_cr_last s : no_cr s → last s ≠ Some CR.
Proof. intros H Hl. apply H. by apply last_Some_elem_of. Qed.

Lemma replace_lf_app eol a b : replace_lf eol (a ++ b) = replace_lf eol a ++ replace_lf eol b.
Proof. unfold replace_lf. by rewrite map_app, concat_app. Qed.

(** A text without carriage returns, written with other terminators. *)
Lemma replace_lf_view eol s : eol ≠ Cr → no_cr s →
  normalize_to_lf (replace_lf (eol_str eol) s) = s ∧ last (replace_lf (eol_str eol) s) ≠ Some CR.
Proof.
  intros He. unfold no_cr. induction s as [|b s IH]; [done|]. intros [Hb Hs]%not_elem_of_cons.
  destruct (IH Hs) as [H1 H2].
  change (replace_lf (eol_str eol) (b :: s))
    with ((if (b =? LF)%Z then eol_str eol else [b]) ++ replace_lf (eol_str eol) s).
  set (t := replace_lf (eol_str eol) s) in *. clearbody t.
  assert (∀ c (x : bytes), c ≠ CR → last x ≠ Some CR → last (c :: x) ≠ Some CR) as Hl.
  { intros c x Hc Hx. destruct x; [by intros [= ->]|done]. }
  destruct (b =? LF)%Z eqn:E; [apply Z.eqb_eq in E as ->; destruct eol|]; simpl app.
  - change (13%Z :: 10%Z :: t) with (CR :: LF :: t).
    rewrite lf_crlf, H1. split; [done|]. change (last (CR :: LF :: t)) with (last (LF :: t)). by apply Hl.
  - change (10%Z :: t) with (LF :: t). rewrite lf_other, H1 by done. split; [done|]. by apply Hl.
  - done.
  - rewrite lf_other, H1 by congruence. split; [done|]. by apply Hl.
Qed.

Lemma ends_with_true suffix s : ends_with suffix s = true ↔ ∃ p, s = p ++ suffix.
Proof.
  unfold ends_with. rewrite andb_true_iff, bool_decide_eq_true, Nat.leb_le. split.
  - intros [H _]. exists (take (length s - length suffix) s). by rewrite <-H at 2; rewrite take_drop.
  - intros [p ->]. rewrite length_app, Nat.add_sub. by rewrite drop_app_length; split; [|lia].
Qed.

(** What is written for a new text reads as that text, whatever ended the
    stretch it replaces. *)
Lemma with_eol_view new replaced eol : eol ≠ Cr → no_cr new → last replaced ≠ Some CR →
  normalize_to_lf (with_eol new replaced eol) = new ∧ last (with_eol new replaced eol) ≠ Some CR.
Proof.
  intros He Hn Hr. destruct (replace_lf_view eol new He Hn) as [H1 H2].
  unfold with_eol. destruct (eol_at_end replaced) as [tail|] eqn:Et; [|done].
  destruct (ends_with [LF] new) eqn:E; cbn [negb]; [|done].
  assert (tail = [CR; LF] ∨ tail = [LF]) as Htail.
  { unfold eol_at_end in Et. repeat (case_match; [injection Et as <-; try by auto|]); [|done].
    apply ends_with_true in H3 as [p ->]. by rewrite last_snoc in Hr. }
  apply ends_with_true in E as [n ->]. apply no_cr_app in Hn as [Hn _].
  destruct (replace_lf_view eol n He Hn) as [H3 H4].
  rewrite replace_lf_app.
  assert (replace_lf (eol_str eol) [LF] = eol_str eol) as -> by apply app_nil_r.
  rewrite length_app, Nat.add_sub, take_app_length.
  rewrite lf_app by (by intros ?%H4). rewrite H3. by destruct Htail as [-> | ->]; split; rewrite ?last_app.
Qed.

Lemma last_take_slice (s : bytes) p q x : last (slice s p q) = Some x → p ≤ q → last (take q s) = Some x.
Proof.
  intros H Hpq. pose proof (slice_split s 0 p q) as E. unfold slice in *.
  rewrite !drop_0, !Nat.sub_0_r in E. rewrite E by lia. by rewrite last_app, H.
Qed.

Lemma splice_from_view s eol rs v :
  lone_cr_free s → eol ≠ Cr → Forall (λ r, no_cr (r_text r)) rs →
  matches_from (length (normalize_to_lf s)) v rs →
  view_spliced (drop v (normalize_to_lf s)) (map (view_edit (normalize_to_lf s)) rs)
    (normalize_to_lf (splice_from s (lf_view s).2 eol (lf_at (lf_view s).2 v) rs)).
Proof.
  intros Hs He. revert v. induction rs as [|r rs IH]; intros v Hrs H.
  { simpl in *. destruct (lf_at_spec s v) as (_ & _ & _ & ->); [done|constructor]. }
  apply Forall_cons in Hrs as [Hr Hrs]. destruct H as (Hv & Hlen & H). cbn [splice_from map].
  destruct (lf_at_spec s (r_index r)) as (_ & Hc1 & _ & _); [lia|].
  destruct (lf_at_spec s (r_index r + r_length r)) as (_ & Hc2 & _ & _); [lia|].
  set (from := lf_at (lf_view s).2 (r_index r)) in *.
  set (to := lf_at (lf_view s).2 (r_index r + r_length r)) in *.
  assert (lf_at (lf_view s).2 v ≤ from) as H1 by by apply lf_at_mono.
  assert (from ≤ to) as H2 by (apply lf_at_mono; lia).
  destruct (with_eol_view (r_text r) (slice s from to) eol) as [Hw1 Hw2]; [done..| |].
  { intros Hl. apply (clean_not_cr s to); [done..|]. by eapply last_take_slice. }
  rewrite (slice_drop _ v (r_index r)), (slice_drop _ (r_index r) (r_index r + r_length r)) by lia.
  rewrite lf_app; [rewrite lf_app by (by intros ?%Hw2)|].
  - rewrite Hw1. unfold from at 1. rewrite lf_slice by lia. apply vs_edit. by apply IH.
  - intros Hl _. apply (clean_not_cr s from); [done..|]. by eapply last_take_slice.
Qed.

Lemma dominant_not_cr s : lone_cr_free s → dominant_eol s ≠ Cr.
Proof.
  unfold lone_cr_free, dominant_eol. destruct (eol_counts s) as [[a b] c]. cbn [snd]. intros ->.
  rewrite Nat.max_0_r. destruct (Nat.eqb_spec b (Nat.max a b)); [done|].
  destruct (Nat.eqb_spec a (Nat.max a b)); [done|lia].
Qed.

(** ** Matching *)

Lemma find_bytes_Some needle hay i : find_bytes needle hay = Some i →
  slice hay i (i + length needle) = needle ∧ i + length needle ≤ length hay.
Proof.
  assert (∀ n h r, strip_prefix n h = Some r → h = n ++ r) as Hp.
  { induction n as [|a n IH]; intros [|b h] r; simpl; try by intros [= <-].
    destruct (Z.eqb_spec a b) as [->|]; [|done]. by intros ->%IH. }
  revert i. induction hay as [|c hay IH]; intros i; cbn [find_bytes].
  - destruct (strip_prefix needle []) eqn:E; [|done]. apply Hp in E. intros [= <-].
    destruct needle; [done|discriminate E].
  - destruct (strip_prefix needle (c :: hay)) eqn:E.
    + intros [= <-]. rewrite (Hp _ _ _ E), length_app. unfold slice. rewrite Nat.sub_0_r, drop_0.
      change (0 + length needle) with (length needle). rewrite take_app_length. split; [done|lia].
    + destruct (find_bytes needle hay) as [j|]; [|done]. intros [= <-].
      destruct (IH j eq_refl) as [H1 H2]. unfold slice in *. simpl. split; [|lia].
      by replace (S j + length needle - S j) with (j + length needle - j) by lia.
Qed.

Section laws.
Context (nfkc : list char → list char).

(** Each accepted edit was found, and its old text counted at most once. *)
Lemma match_edits_spec path total i base edits ms :
  match_edits nfkc path total i base edits = Ok ms →
  Forall2 (λ e m, ∃ f, find_text nfkc base e.1 = Some f
    ∧ m.(me_match_index) = f.(fm_index) ∧ m.(me_match_length) = f.(fm_length)
    ∧ m.(me_new_text) = e.2 ∧ (count_occurrences nfkc base e.1 ≤ 1)%Z) edits ms.
Proof.
  revert i ms. induction edits as [|[old new] edits IH]; intros i ms; cbn [match_edits].
  { intros [= <-]. constructor. }
  destruct (find_text nfkc base old) as [f|] eqn:Ef; [|done].
  destruct (Z.ltb_spec 1 (count_occurrences nfkc base old)); [done|].
  intros (rest & Hr & [= <-])%res_bind_Ok. constructor; [|by eapply IH].
  by exists f; split_and!.
Qed.

Lemma exact_found base old f :
  find_text nfkc base old = Some f → fm_fuzzy f = false →
  slice base.(hs_content) f.(fm_index) (f.(fm_index) + f.(fm_length)) = old
  ∧ f.(fm_index) + f.(fm_length) ≤ length base.(hs_content).
Proof.
  unfold find_text. destruct (find_bytes old _) as [i|] eqn:E.
  - intros [= <-] _. by apply find_bytes_Some.
  - destruct (find_bytes (normalize_for_fuzzy_match _ _) _) as [j|]; [by intros [= <-]|done].
Qed.

(** Sorted matches that pass [check_overlap] follow each other. *)
Lemma sorted_matches path (view : bytes) ms :
  check_overlap path (sort_by match_le ms) = Ok tt →
  Forall (λ m, me_match_index m + me_match_length m ≤ length view) ms →
  matches_from (length view) 0 (map replacement_of (sort_by match_le ms)).
Proof.
  intros H Hf. assert (Forall (λ m, me_match_index m + me_match_length m ≤ length view) (sort_by match_le ms))
    as Hf' by by rewrite sort_by_perm. clear Hf.
  set (l := sort_by match_le ms) in *. clearbody l.
  assert (∀ v, (∀ m, head l = Some m → v ≤ m.(me_match_index)) → v ≤ length view →
    matches_from (length view) v (map replacement_of l)) as K.
  { induction l as [|m l IH]; intros v Hv Hlen; [done|].
    apply Forall_cons in Hf' as [Hm Hl]. simpl. split_and!; [by apply Hv|done|].
    simpl in H. destruct l as [|m' l]; [apply IH; done|].
    destruct (Nat.ltb_spec (me_match_index m') (me_match_index m + me_match_length m)); [done|].
    apply IH; [done|done| |done]. by intros ? [= <-]. }
  apply K; [intros; lia|lia].
Qed.

Lemma lf_at_0 l : lf_at l 0 = 0.
Proof. unfold lf_at. by destruct l. Qed.

(** Read back from the matches, the edits are the ones asked for. *)
Lemma exact_view_edits path total i base edits ms :
  match_edits nfkc path total i base edits = Ok ms →
  uses_fuzzy nfkc base edits = false →
  map (view_edit base.(hs_content)) (map replacement_of ms) = edits
  ∧ Forall (λ m, me_match_index m + me_match_length m ≤ length base.(hs_content)) ms.
Proof.
  intros H%match_edits_spec Hu. unfold uses_fuzzy in Hu. rewrite existsb_false in Hu. revert Hu.
  induction H as [|[old new] m edits ms (f & Hf & Hi & Hl & Hn & _) _ IH]; intros Hu; [done|].
  destruct IH as [IH1 IH2]; [intros e He; apply Hu; by right|].
  pose proof (Hu (old, new) ltac:(left)) as Hz. simpl in *. rewrite Hf in Hz. simpl in Hz.
  destruct (exact_found _ _ _ Hf Hz) as [Hs Hb]. rewrite IH1. split.
  - unfold view_edit. simpl. by rewrite Hi, Hl, Hn, Hs.
  - constructor; [by rewrite Hi, Hl|done].
Qed.

(** C35: Edits whose old texts occur as they are: the output is the file with
    one stretch per edit replaced, each reading (line endings aside) as the
    old text and written with the file's dominant terminator, and not one
    byte between the stretches changed.  The result says what the file reads
    as before and after; in a file without lone carriage returns that change
    is exactly the one asked for.  An output equal to the file is an error. *)
Theorem exact_edits_are_spliced original edits path r :
  apply_edits nfkc original edits path = Ok r →
  uses_fuzzy nfkc (haystack_new nfkc (normalize_to_lf original)) (normalized_edits edits) = false →
  ∃ es, es ≡ₚ normalized_edits edits
    ∧ spliced (dominant_eol original) original es r.(ae_output)
    ∧ r.(ae_base_content) = normalize_to_lf original
    ∧ r.(ae_new_content) = normalize_to_lf r.(ae_output)
    ∧ r.(ae_output) ≠ original
    ∧ (lone_cr_free original → view_spliced r.(ae_base_content) es r.(ae_new_content)).
Proof.
  unfold apply_edits. rewrite (surjective_pairing (lf_view original)).
  pose proof (lf_view_text 0 original : (lf_view original).1 = _) as ->.
  intros (u & _ & H)%res_bind_Ok Hf. rewrite Hf in H.
  apply res_bind_Ok in H as (ms & Hms & H). apply res_bind_Ok in H as ([] & Ho & H).
  apply res_bind_Ok in H as (output & [= <-] & H). case_bool_decide as Hd; [done|]. injection H as <-.
  set (view := normalize_to_lf original) in *.
  destruct (exact_view_edits _ _ _ _ _ _ Hms Hf) as [Hes Hb].
  pose proof (sorted_matches path view _ Ho Hb) as Hm. set (rs := map replacement_of _) in *.
  exists (map (view_edit view) rs). split_and!; try done.
  - rewrite <-Hes. unfold rs. by rewrite sort_by_perm.
  - pose proof (splice_from_spliced original (dominant_eol original) rs 0 Hm) as K.
    by rewrite lf_at_0, drop_0 in K.
  - intros Hl. pose proof (splice_from_view original (dominant_eol original) rs 0) as K.
    rewrite lf_at_0, drop_0 in K. apply K; [done|by apply dominant_not_cr| |done].
    assert (Forall (λ e : bytes * bytes, no_cr e.2) (normalized_edits edits)) as Hn.
    { apply Forall_map, Forall_true. intros e. apply no_cr_lf. }
    rewrite <-Hes in Hn. unfold rs. rewrite sort_by_perm. by rewrite !Forall_map in *.
Qed.
End laws.

(** A file with CRLF endings, and two edits in reverse order. *)
Definition crlf_file : bytes := lit "one" ++ [CR; LF] ++ lit "two" ++ [CR; LF] ++ lit "three" ++ [CR; LF].
Definition crlf_edits : list Edit :=
  [mkEdit (lit "three") (lit "3"); mkEdit (lit "one" ++ [LF]) (lit "1" ++ [LF] ++ lit "uno" ++ [LF])].

Lemma exact_edits_are_spliced_witness : ∃ r es,
  apply_edits (λ cs, cs) crlf_file crlf_edits "f" = Ok r
  ∧ es ≡ₚ normalized_edits crlf_edits
  ∧ spliced (dominant_eol crlf_file) crlf_file es r.(ae_output)
  ∧ view_spliced r.(ae_base_content) es r.(ae_new_content).
Proof.
  destruct (apply_edits (λ cs, cs) crlf_file crlf_edits "f") as [r|] eqn:E; [|vm_compute in E; discriminate E].
  assert (uses_fuzzy (λ cs, cs) (haystack_new (λ cs, cs) (normalize_to_lf crlf_file)) (normalized_edits crlf_edits)
    = false) as Hf by (vm_compute; reflexivity).
  destruct (exact_edits_are_spliced (λ cs, cs) crlf_file crlf_edits "f" r E Hf) as (es & H1 & H2 & _ & _ & _ & H3).
  exists r, es. split; [reflexivity|]. split; [exact H1|]. split; [exact H2|].
  apply H3. vm_compute. reflexivity.
Defined.

(** With lone carriage returns the view can miss an edit: a newline written
    after one joins it, and the file reads as before. *)
Example mixed_terminators : ∀ text, text = lit "x" ++ [CR] ++ lit "y" ++ [LF] ++ lit "z" ++ [LF] →
  apply_edits (λ cs, cs) text [mkEdit (lit "y") ([LF] ++ lit "y")] "f"
  = Ok (mkApplied (normalize_to_lf text) (normalize_to_lf text)
          (lit "x" ++ [CR; LF] ++ lit "y" ++ [LF] ++ lit "z" ++ [LF])).
Proof. intros text ->. by vm_compute. Qed.

(** An old text of white space normalises to nothing: it counts once however
    often it occurs, and its first occurrence is edited. *)
Example blank_old_text :
  apply_edits (λ cs, cs) (lit "a  ") [mkEdit (lit " ") (lit "b")] "f"
  = Ok (mkApplied (lit "a  ") (lit "ab ") (lit "ab ")).
Proof. by vm_compute. Qed.
