(* ===== verification/EditBlocks.v ===== *)
(** * Normalised matches

    When an old text is found only up to normalisation, the matches are
    offsets of the normalised file and whole lines are rewritten.  Which lines
    are, what is written in their place, and that every other line stays. *)

From S2P Require Export EditLaws.
Local Open Scope nat_scope.

(** ** Lines *)

Lemma split_lines_concat line s : concat (split_lines_from line s) = line ++ s.
Proof.
  revert line. induction s as [|b s IH]; intros line; simpl.
  - destruct line; simpl; by rewrite ?app_nil_r.
  - destruct (b =? LF)%Z; simpl; by rewrite IH, <-app_assoc.
Qed.
Lemma split_lines_whole s : concat (split_lines_with_endings s) = s.
Proof. apply split_lines_concat. Qed.

Lemma split_original_concat line s : concat (split_original_from line s) = line ++ s.
Proof.
  revert line. induction s as [|s IH|s Hs IH|b s Hb IH] using text_ind; intros line.
  - destruct line; simpl; by rewrite ?app_nil_r.
  - cbn [split_original_from]. rewrite !Z.eqb_refl. simpl. by rewrite IH, <-app_assoc.
  - apply head_not_lf in Hs. cbn [split_original_from]. rewrite Z.eqb_refl.
    destruct s as [|c s]; [simpl; by rewrite app_nil_r|]. rewrite Hs. by rewrite List.concat_cons, IH, <-app_assoc.
  - cbn [split_original_from]. rewrite (proj2 (Z.eqb_neq _ _) Hb).
    destruct (b =? LF)%Z; rewrite ?List.concat_cons, IH; by rewrite <-?app_assoc.
Qed.
Lemma split_original_whole s : concat (split_original_lines s) = s.
Proof. apply split_original_concat. Qed.

(** The length of the first [i] lines. *)
Definition upto (lines : list bytes) (i : nat) : nat := length (concat (take i lines)).

Lemma upto_mono lines i j : i ≤ j → upto lines i ≤ upto lines j.
Proof.
  intros H. unfold upto. replace (take i lines) with (take i (take j lines)) by (rewrite take_take; f_equal; lia).
  rewrite <-(take_drop i (take j lines)) at 2. rewrite concat_app, length_app. lia.
Qed.

Lemma spans_lookup offset lines i : i < length lines →
  spans_from offset lines !! i = Some (mkSpan (offset + upto lines i) (offset + upto lines (S i))).
Proof.
  revert offset i. induction lines as [|line lines IH]; intros offset [|i] H; simpl in *; try lia.
  - unfold upto. simpl. by rewrite app_nil_r, Nat.add_0_r.
  - rewrite IH by lia. unfold upto. simpl. rewrite !length_app. do 2 f_equal; lia.
Qed.
Lemma spans_length offset lines : length (spans_from offset lines) = length lines.
Proof. revert offset. induction lines; intros; simpl; auto. Qed.

Lemma slice_lines lines a b : a ≤ b →
  slice (concat lines) (upto lines a) (upto lines b) = concat (take (b - a) (drop a lines)).
Proof.
  intros H. unfold slice, upto.
  assert (take b lines = take a lines ++ take (b - a) (drop a lines)) as E.
  { rewrite <-(take_drop a (take b lines)). rewrite take_take, skipn_firstn_comm. do 2 f_equal; lia. }
  rewrite E, concat_app, length_app.
  replace (_ + _ - _) with (length (concat (take (b - a) (drop a lines)))) by lia.
  assert (concat lines = concat (take a lines) ++ concat (take (b - a) (drop a lines))
    ++ concat (drop (b - a) (drop a lines))) as ->.
  { by rewrite <-!concat_app, take_drop, take_drop. }
  by rewrite drop_app_length, take_app_length.
Qed.

(** ** Replacements of a block, from the last to the first *)

Lemma apply_replacements_cons content r rs offset :
  apply_replacements content (r :: rs) offset
  = (let result := apply_replacements content rs offset in
     take (r.(r_index) - offset) result ++ r.(r_text) ++ drop (r.(r_index) - offset + r.(r_length)) result).
Proof. unfold apply_replacements. simpl rev. by rewrite foldl_snoc. Qed.

Lemma take_slice (s : bytes) a b c : a ≤ c → c ≤ b → take (c - a) (slice s a b) = slice s a c.
Proof. intros H1 H2. unfold slice. rewrite take_take. f_equal. lia. Qed.

Lemma apply_replacements_spliced base lo hi rs v :
  hi ≤ length base → lo ≤ v → matches_from hi v rs →
  ∃ out, apply_replacements (slice base lo hi) rs lo = take (v - lo) (slice base lo hi) ++ out
    ∧ view_spliced (slice base v hi) (map (view_edit base) rs) out.
Proof.
  intros Hhi. revert v. induction rs as [|r rs IH]; intros v Hlo H; simpl in H.
  - exists (drop (v - lo) (slice base lo hi)). unfold apply_replacements. simpl. rewrite take_drop.
    split; [done|]. assert (drop (v - lo) (slice base lo hi) = slice base v hi) as ->; [|constructor].
    unfold slice. rewrite skipn_firstn_comm, drop_drop. f_equal; [lia|f_equal; lia].
  - destruct H as (Hv & Hh & H). destruct (IH (r_index r + r_length r)) as (out & E & Hs); [lia|done|].
    rewrite apply_replacements_cons, E. cbn zeta.
    assert (length (take (r_index r + r_length r - lo) (slice base lo hi)) = r_index r + r_length r - lo) as Hl.
    { unfold slice. rewrite !length_take, length_drop. lia. }
    exists (slice base v r.(r_index) ++ r.(r_text) ++ out). split.
    + rewrite take_app_le, take_take by lia. rewrite drop_app_ge by lia. rewrite Hl.
      replace (r_index r - lo + r_length r - (r_index r + r_length r - lo)) with 0 by lia. rewrite drop_0.
      replace (_ `min` _) with (r_index r - lo) by lia.
      rewrite !take_slice, (slice_split base lo v (r_index r)) by lia. by rewrite <-app_assoc.
    + rewrite (slice_split base v (r_index r)), (slice_split base (r_index r) (r_index r + r_length r)) by lia.
      by apply vs_edit.
Qed.

(** ** Blocks of lines *)

Section blocks.
Context (base : bytes).
Let lines := split_lines_with_endings base.

(** The line [i] of the base shares a character with the replacement, or
    holds the place where an empty match stands. *)
Definition touches (r : Replacement) (i : nat) : Prop :=
  r.(r_index) < upto lines (S i)
  ∧ (upto lines i ≤ r.(r_index) ∨ upto lines i < r.(r_index) + r.(r_length)).

(** The lines of a block are there, each is touched, and the matches lie
    within them. *)
Definition good_group (g : Group) : Prop :=
  g.(g_start) < g.(g_end) ∧ g.(g_end) ≤ length lines
  ∧ (∀ i, g.(g_start) ≤ i < g.(g_end) → ∃ r, r ∈ g.(g_replacements) ∧ touches r i)
  ∧ matches_from (upto lines g.(g_end)) (upto lines g.(g_start)) g.(g_replacements).

Lemma line_spans_lookup i span : line_spans base !! i = Some span →
  i < length lines ∧ span = mkSpan (upto lines i) (upto lines (S i)).
Proof.
  intros H. pose proof (lookup_lt_Some _ _ _ H) as Hi. unfold line_spans in *. rewrite spans_length in Hi.
  rewrite spans_lookup in H by done. by injection H as <-.
Qed.

Lemma line_offsets i : i < length lines →
  line_start (line_spans base) i = upto lines i ∧ line_end (line_spans base) i = upto lines (S i).
Proof. intros H. unfold line_start, line_end, line_spans. by rewrite spans_lookup. Qed.

Lemma start_line_Some i k from spans : start_line_from i spans from = Some k →
  ∃ j span, k = i + j ∧ spans !! j = Some span ∧ span.(ls_start) ≤ from < span.(ls_end).
Proof.
  revert i. induction spans as [|span spans IH]; intros i; simpl; [done|].
  destruct (_ && _) eqn:E.
  - intros [= <-]. apply andb_true_iff in E as [E1%Nat.leb_le E2%Nat.ltb_lt].
    by exists 0, span; split; [lia|].
  - intros (j & span' & -> & Hj & H)%IH. exists (S j), span'. by split; [lia|].
Qed.

(** The scan for the last line stops at the first one reaching the end. *)
Lemma end_line_spec spans to k :
  k ≤ end_line_from spans to k
  ∧ (∀ j span, j < end_line_from spans to k - k → spans !! j = Some span → span.(ls_end) < to)
  ∧ ∀ span, spans !! (end_line_from spans to k - k) = Some span → to ≤ span.(ls_end).
Proof.
  revert k. induction spans as [|span spans IH]; intros k; simpl; [by split_and!|].
  destruct (Nat.ltb_spec (ls_end span) to) as [Hlt|Hge].
  - destruct (IH (S k)) as (H1 & H2 & H3). split_and!; [lia|..].
    + intros [|j] s Hj; simpl; [by intros [= <-]|]. apply H2. lia.
    + intros s. replace (_ - k) with (S (end_line_from spans to (S k) - S k)) by lia. apply H3.
  - rewrite Nat.sub_diag. split_and!; [lia|intros; lia|]. by intros s [= <-].
Qed.

Lemma range_spec r a b : replacement_line_range (line_spans base) r = Ok (a, b) →
  a < b ∧ b ≤ length lines ∧ upto lines a ≤ r.(r_index)
  ∧ r.(r_index) + r.(r_length) ≤ upto lines b ∧ ∀ i, a ≤ i < b → touches r i.
Proof.
  unfold replacement_line_range. destruct (start_line_from _ _ _) as [k|] eqn:Es; [|done].
  apply start_line_Some in Es as (j & span & -> & Hj & Hfrom). simpl.
  set (to := r_index r + r_length r). pose proof (end_line_spec (drop j (line_spans base)) to j) as He.
  set (e := end_line_from _ to j) in *. destruct He as (He1 & He2 & He3).
  assert (length (line_spans base) = length lines) as Hn by apply spans_length. rewrite Hn.
  destruct (Nat.leb_spec (length lines) e); [done|]. intros [= <- <-].
  pose proof (line_spans_lookup _ _ Hj) as [Hj' ->]. simpl in Hfrom.
  destruct (lookup_lt_is_Some_2 (line_spans base) e) as [se Hse]; [lia|].
  assert (to ≤ ls_end se) as Hto. { apply He3. rewrite lookup_drop. by replace (j + (e - j)) with e by lia. }
  apply line_spans_lookup in Hse as [_ ->]. simpl in Hto.
  split_and!; [lia|lia|lia|done|]. intros i Hi. split.
  - pose proof (upto_mono lines (S j) (S i)). lia.
  - destruct (decide (i = j)) as [->|Hne]; [left; lia|]. right.
    destruct (lookup_lt_is_Some_2 (line_spans base) (i - 1)) as [si Hsi]; [lia|].
    pose proof (line_spans_lookup _ _ Hsi) as [_ ->].
    specialize (He2 (i - 1 - j) (mkSpan (upto lines (i - 1)) (upto lines (S (i - 1))))).
    simpl in He2. replace (S (i - 1)) with i in * by lia. apply He2; [lia|].
    rewrite lookup_drop. by replace (j + (i - 1 - j)) with (i - 1) by lia.
Qed.

(** Blocks in order and apart: the last one first, up to [hi], and the first
    one first, from [lo]. *)
Fixpoint below (hi : nat) (gs : list Group) : Prop :=
  match gs with [] => True | g :: gs => good_group g ∧ g.(g_end) ≤ hi ∧ below g.(g_start) gs end.
Fixpoint above (lo : nat) (gs : list Group) : Prop :=
  match gs with [] => True | g :: gs => good_group g ∧ lo ≤ g.(g_start) ∧ above g.(g_end) gs end.

Lemma above_weaken lo lo' gs : lo' ≤ lo → above lo gs → above lo' gs.
Proof. destruct gs; [done|]. simpl. intros ? (? & ? & ?). split_and!; [done|lia|done]. Qed.

Lemma below_above c gs fwd : below c gs → above c fwd → above 0 (rev gs ++ fwd).
Proof.
  revert c fwd. induction gs as [|g gs IH]; intros c fwd; simpl; [by eauto using above_weaken, Nat.le_0_l|].
  intros (Hg & Hc & Hb) Hf. rewrite <-app_assoc. apply (IH g.(g_start)); [done|]. simpl.
  split_and!; [done|done|]. by eapply above_weaken.
Qed.

Lemma matches_from_le hi v rs : matches_from hi v rs → v ≤ hi.
Proof. destruct rs; simpl; lia. Qed.
Lemma matches_from_weaken hi hi' v rs : hi ≤ hi' → matches_from hi v rs → matches_from hi' v rs.
Proof.
  intros H. revert v. induction rs as [|r rs IH]; intros v; simpl; [lia|].
  intros (H1 & H2 & H3). split_and!; [done|lia|by apply IH].
Qed.
Lemma matches_from_snoc v lo rs r : matches_from v lo rs → v ≤ r.(r_index) →
  matches_from (r.(r_index) + r.(r_length)) lo (rs ++ [r]).
Proof.
  revert lo. induction rs as [|r' rs IH]; intros lo; simpl; [lia|].
  intros (H1 & H2 & H3) Hv. split_and!; [done| |by apply IH].
  pose proof (matches_from_le _ _ _ H3). lia.
Qed.

(** The blocks built so far, when the matches up to the offset [v] are in. *)
Definition built (gs : list Group) (v : nat) : Prop :=
  below (length lines) gs
  ∧ match gs with g :: _ => matches_from v (upto lines g.(g_start)) g.(g_replacements) | [] => True end.
Definition all_replacements (gs : list Group) : list Replacement := concat (map g_replacements gs).

Lemma built_step gs v r a b :
  built gs v → v ≤ r.(r_index) → replacement_line_range (line_spans base) r = Ok (a, b) →
  built (group_step gs r a b) (r.(r_index) + r.(r_length)).
Proof.
  intros [Hb Hm] Hv (Hab & Hbn & Ha & Hr & Ht)%range_spec.
  assert (good_group (mkGroup a b [r])) as Hnew.
  { split_and!; simpl; [done..| |split_and!; [done..|lia]]. intros i Hi. exists r. split; [left|by apply Ht]. }
  unfold built, group_step. destruct gs as [|g gs]; [split; simpl; split_and!; try done; lia|].
  simpl in Hb. destruct Hb as (Hg & Hge & Hbel). destruct (Nat.ltb_spec a (g_end g)) as [Hlt|Hge'].
  - pose proof (matches_from_snoc _ _ _ r Hm Hv) as Hm'. destruct Hg as (Hg1 & Hg2 & Hg3 & _).
    split; [|done]. split_and!; simpl; [|lia|done]. split_and!; simpl; [lia|lia| |].
    + intros i Hi. destruct (decide (i < g_end g)) as [Hi'|Hi'].
      * destruct (Hg3 i) as (r' & Hr' & ?); [lia|]. exists r'. split; [apply elem_of_app; by left|done].
      * exists r. split; [apply elem_of_app; right; left|]. apply Ht. lia.
    + eapply matches_from_weaken; [|done]. pose proof (upto_mono lines b (g_end g `max` b)). lia.
  - split; [|simpl; split_and!; [done|lia|lia]]. simpl. by split_and!.
Qed.

Lemma group_step_replacements gs r a b :
  all_replacements (rev (group_step gs r a b)) = all_replacements (rev gs) ++ [r].
Proof.
  assert (∀ g gs', all_replacements (rev (g :: gs')) = all_replacements (rev gs') ++ g.(g_replacements)) as Hc.
  { intros. unfold all_replacements. simpl. rewrite map_app, concat_app. simpl. by rewrite app_nil_r. }
  unfold group_step. destruct gs as [|g gs]; [done|].
  destruct (Nat.ltb _ _); rewrite !Hc; simpl; by rewrite <-?app_assoc.
Qed.

Lemma group_all_spec hi rs gs v out :
  group_all (line_spans base) gs rs = Ok out → built gs v → matches_from hi v rs →
  above 0 out ∧ all_replacements out = all_replacements (rev gs) ++ rs.
Proof.
  revert gs v. induction rs as [|r rs IH]; intros gs v; cbn [group_all].
  { intros [= <-] [Hb _] _. rewrite app_nil_r. split; [|done]. rewrite <-(app_nil_r (rev gs)).
    by eapply below_above. }
  intros ([a b] & Hr & H)%res_bind_Ok Hb (Hv & Hh & Hm).
  destruct (IH _ _ H (built_step _ _ _ _ _ Hb Hv Hr) Hm) as [H1 H2]. split; [done|].
  simpl fst in H2. rewrite H2, group_step_replacements. by rewrite <-app_assoc.
Qed.
End blocks.

(** Blocks of lines rewritten, from the line [c] on: a block is its lines of
    the base with the edits of the block made in them; every line between the
    blocks stays as the file has it. *)
Inductive relined (original_lines : list bytes) (base : bytes) (eol : Eol)
    : nat → list Group → bytes → Prop :=
  | rl_rest c : relined original_lines base eol c [] (concat (drop c original_lines))
  | rl_block c g gs applied out :
      c ≤ g.(g_start) → good_group base g →
      view_spliced
        (concat (take (g.(g_end) - g.(g_start)) (drop g.(g_start) (split_lines_with_endings base))))
        (map (view_edit base) g.(g_replacements)) applied →
      relined original_lines base eol g.(g_end) gs out →
      relined original_lines base eol c (g :: gs)
        (concat (take (g.(g_start) - c) (drop c original_lines))
         ++ with_eol applied (concat (take (g.(g_end) - g.(g_start)) (drop g.(g_start) original_lines))) eol
         ++ out).

Lemma rewrite_groups_relined original_lines base eol c gs :
  above base c gs →
  relined original_lines base eol c gs
    (rewrite_groups original_lines (line_spans base) base eol c gs).
Proof.
  revert c. induction gs as [|g gs IH]; intros c; cbn [rewrite_groups above]; [constructor|].
  intros (Hg & Hc & Ha). apply rl_block; [done|done| |by apply IH].
  destruct Hg as (H1 & H2 & _ & Hm).
  destruct (line_offsets base g.(g_start)) as [-> _]; [lia|].
  destruct (line_offsets base (g.(g_end) - 1)) as [_ ->]; [lia|].
  replace (S (g_end g - 1)) with (g_end g) by lia.
  set (lines := split_lines_with_endings base) in *.
  destruct (apply_replacements_spliced base (upto lines (g_start g)) (upto lines (g_end g))
    g.(g_replacements) (upto lines (g_start g))) as (out & E & Hs); [|done|done|].
  { pose proof (upto_mono lines (g_end g) (length lines) H2) as Hu. unfold upto in Hu at 2.
    rewrite take_ge in Hu by lia. unfold lines in Hu at 2. by rewrite split_lines_whole in Hu. }
  rewrite E, Nat.sub_diag, take_0. rewrite <-(split_lines_whole base) in Hs at 1.
  by rewrite slice_lines in Hs by lia.
Qed.

Lemma matches_from_sorted hi v rs : matches_from hi v rs →
  StronglySorted (λ a b, replacement_le a b = true) rs.
Proof.
  intros H. assert (StronglySorted (λ a b, replacement_le a b = true) rs ∧ Forall (λ r, v ≤ r_index r) rs)
    as [? _]; [|done]. revert v H. induction rs as [|r rs IH]; intros v; simpl; [by repeat constructor|].
  intros (Hv & _ & H). destruct (IH _ H) as [H1 H2]. split; constructor; try done.
  - eapply Forall_impl; [done|]. intros r' Hr. simpl in *. apply Nat.leb_le. lia.
  - eapply Forall_impl; [done|]. intros r' Hr. simpl in *. lia.
Qed.

Section laws.
Context (nfkc : list char → list char).

Lemma found_text base old f :
  find_text nfkc base old = Some f → base.(hs_normalized) = base.(hs_content) →
  f.(fm_index) + f.(fm_length) ≤ length base.(hs_content)
  ∧ (slice base.(hs_content) f.(fm_index) (f.(fm_index) + f.(fm_length)) = old
     ∨ slice base.(hs_content) f.(fm_index) (f.(fm_index) + f.(fm_length))
       = normalize_for_fuzzy_match nfkc old).
Proof.
  unfold find_text. destruct (find_bytes old _) as [i|] eqn:E.
  - intros [= <-] _. apply find_bytes_Some in E as [??]. by split; [|left].
  - destruct (find_bytes (normalize_for_fuzzy_match _ _) _) eqn:E2; [|done].
    intros [= <-] <-. apply find_bytes_Some in E2 as [??]. by split; [|right].
Qed.

(** An edit as it is made in a normalised text. *)
Definition made_as (e v : bytes * bytes) : Prop :=
  v.2 = e.2 ∧ (v.1 = e.1 ∨ v.1 = normalize_for_fuzzy_match nfkc e.1).

Lemma matches_made_as path total i base edits ms :
  match_edits nfkc path total i base edits = Ok ms → base.(hs_normalized) = base.(hs_content) →
  Forall2 made_as edits (map (view_edit base.(hs_content)) (map replacement_of ms))
  ∧ Forall (λ m, me_match_index m + me_match_length m ≤ length base.(hs_content)) ms.
Proof.
  intros H%match_edits_spec Hn.
  induction H as [|e m edits ms (f & Hf & Hi & Hl & Ht & _) _ [IH1 IH2]]; [done|].
  destruct (found_text _ _ _ Hf Hn) as [Hb Hs].
  split; simpl; constructor; [|done|by rewrite Hi, Hl|done].
  unfold made_as, view_edit. simpl. by rewrite Hi, Hl.
Qed.

(** C36: Edits of which some old text occurs only up to normalisation: the
    output is the file with blocks of whole lines rewritten and every line
    outside the blocks kept byte for byte.  Every line of a block is touched
    by a match, what is written for a block is its normalised lines with
    its edits made in them, and together the blocks make every edit once. *)
Theorem fuzzy_edits_keep_lines original edits path r :
  apply_edits nfkc original edits path = Ok r →
  uses_fuzzy nfkc (haystack_new nfkc (normalize_to_lf original)) (normalized_edits edits) = true →
  let base := normalize_for_fuzzy_match nfkc (normalize_to_lf original) in
  concat (split_original_lines original) = original
  ∧ concat (split_lines_with_endings base) = base
  ∧ length (split_original_lines original) = length (split_lines_with_endings base)
  ∧ ∃ groups es,
      relined (split_original_lines original) base (dominant_eol original) 0 groups r.(ae_output)
      ∧ es ≡ₚ map (view_edit base) (all_replacements groups)
      ∧ Forall2 made_as (normalized_edits edits) es
      ∧ r.(ae_base_content) = normalize_to_lf original
      ∧ r.(ae_new_content) = normalize_to_lf r.(ae_output)
      ∧ r.(ae_output) ≠ original.
Proof.
  intros H Hf base. unfold apply_edits in H. rewrite (surjective_pairing (lf_view original)) in H.
  pose proof (lf_view_text 0 original : (lf_view original).1 = _) as Hview. rewrite Hview in H.
  apply res_bind_Ok in H as (u & _ & H). rewrite Hf in H. change (hs_normalized _) with base in H.
  apply res_bind_Ok in H as (ms & Hms & H). apply res_bind_Ok in H as ([] & Ho & H).
  apply res_bind_Ok in H as (output & Hout & H). case_bool_decide as Hd; [done|]. injection H as <-.
  destruct (matches_made_as _ _ _ _ _ _ Hms eq_refl) as [Hes Hb]. cbn [hs_content already_normalized] in *.
  pose proof (sorted_matches path base _ Ho Hb) as Hm. set (rs := map replacement_of (sort_by _ _)) in *.
  unfold apply_preserving_unchanged_lines in Hout.
  destruct (Nat.eqb_spec (length (split_original_lines original)) (length (line_spans base))) as [Hn|];
    cbn [negb] in Hout; [|done].
  apply res_bind_Ok in Hout as (gs & Hgs & Hout). destruct (forallb _ _); [|done]. injection Hout as <-.
  rewrite sort_by_id in Hgs by by eapply matches_from_sorted.
  destruct (group_all_spec base _ _ _ _ _ Hgs (conj I I) Hm) as [Ha Hr].
  split_and!; [apply split_original_whole|apply split_lines_whole|by rewrite Hn; apply spans_length|].
  exists gs, (map (view_edit base) (map replacement_of ms)). split_and!; try done.
  - by apply rewrite_groups_relined.
  - rewrite Hr. simpl. unfold rs. by rewrite sort_by_perm.
Qed.
End laws.

(** A line in curly quotes matched by straight ones; the other stays. *)
Definition curly : bytes := [226; 128; 156]%Z.
Definition quoted_file : bytes :=
  lit "say " ++ curly ++ lit "hi" ++ curly ++ [LF] ++ curly ++ lit " kept" ++ [LF].
Definition quoted_edits : list Edit := [mkEdit ([34%Z] ++ lit "hi" ++ [34%Z]) (lit "bye")].

Lemma fuzzy_edits_keep_lines_witness : ∃ r groups,
  apply_edits (λ cs, cs) quoted_file quoted_edits "f" = Ok r
  ∧ r.(ae_output) = lit "say bye" ++ [LF] ++ curly ++ lit " kept" ++ [LF]
  ∧ relined (split_original_lines quoted_file)
      (normalize_for_fuzzy_match (λ cs, cs) (normalize_to_lf quoted_file)) (dominant_eol quoted_file)
      0 groups r.(ae_output).
Proof.
  destruct (apply_edits (λ cs, cs) quoted_file quoted_edits "f") as [r|] eqn:E; [|vm_compute in E; discriminate E].
  assert (uses_fuzzy (λ cs, cs) (haystack_new (λ cs, cs) (normalize_to_lf quoted_file))
    (normalized_edits quoted_edits) = true) as Hf by (vm_compute; reflexivity).
  destruct (fuzzy_edits_keep_lines (λ cs, cs) quoted_file quoted_edits "f" r E Hf)
    as (_ & _ & _ & groups & es & H1 & _).
  exists r, groups. split; [reflexivity|]. split; [|exact H1].
  vm_compute in E. injection E as <-. reflexivity.
Defined.
