(* ===== verification/Diff.v ===== *)
(** * Bounded output and unified diffs

    [toolpacks-coding/src/truncate.rs] and [diff.rs]: the head or the tail of
    a text within limits of lines and bytes, and the patch a tool reports
    after an edit.  A text is its bytes, a line what lies between line feeds.
    The patch, read back, turns the old lines into the new ones, and no edit
    script changes fewer lines. *)

From S2P Require Export Edits.
Local Open Scope nat_scope.

(** ** Lines *)

(** [split('\n')] less the last, empty piece of a text that ends in one. *)
Definition split_lines (content : bytes) : list bytes :=
  match content with
  | [] => []
  | _ => let lines := split_lf_from [] content in
         if ends_with [LF] content then removelast lines else lines
  end.

(** [bytes as f64 * 5.0 / 512.0 + 0.5], rounded down: exact below 2{^50} bytes. *)
Definition tenths (bytes unit_ : Z) : Z := (bytes * 20 + unit_) / (2 * unit_).
Definition show_tenths (t : Z) : string := show_Z (t / 10) +:+ "." +:+ show_Z (t mod 10).
Definition format_size (bytes : nat) : string :=
  let b := Z.of_nat bytes in
  if (b <? 1024)%Z then show_Z b +:+ "B"
  else if (b <? 1024 * 1024)%Z then show_tenths (tenths b 1024) +:+ "KB"
  else show_tenths (tenths b 1048576) +:+ "MB".

(** ** Truncation *)

Inductive TruncatedBy := ByLines | ByBytes.
Record TruncationLimits := mkLimits { max_lines : nat; max_bytes : nat }.
Record Truncation := mkTruncation {
  tr_content : bytes;
  tr_truncated : bool;
  tr_truncated_by : option TruncatedBy;
  tr_total_lines : nat;
  tr_total_bytes : nat;
  tr_output_lines : nat;
  tr_output_bytes : nat;
  tr_last_line_partial : bool;
  tr_first_line_exceeds_limit : bool
}.

Definition untouched (content : bytes) (lines : list bytes) (bytes : nat) : Truncation :=
  mkTruncation content false None (length lines) bytes (length lines) bytes false false.

(** The first lines that fit; a line after another costs its line feed. *)
Fixpoint keep_head (limit used i : nat) (lines : list bytes) : list bytes * TruncatedBy :=
  match lines with
  | [] => ([], ByLines)
  | line :: lines =>
      let line_bytes := length line + (if Nat.ltb 0 i then 1 else 0) in
      if Nat.ltb limit (used + line_bytes) then ([], ByBytes)
      else let '(kept, by_) := keep_head limit (used + line_bytes) (S i) lines in (line :: kept, by_)
  end.
Definition truncate_head (content : bytes) (limits : TruncationLimits) : Truncation :=
  let total_bytes := length content in
  let lines := split_lines content in
  if Nat.leb (length lines) limits.(max_lines) && Nat.leb total_bytes limits.(max_bytes) then
    untouched content lines total_bytes
  else if Nat.ltb limits.(max_bytes) (default 0 (length <$> head lines)) then
    mkTruncation [] true (Some ByBytes) (length lines) total_bytes 0 0 false true
  else
    let '(kept, by_) := keep_head limits.(max_bytes) 0 0 (take limits.(max_lines) lines) in
    let out := join_lf kept in
    mkTruncation out true (Some by_) (length lines) total_bytes (length kept) (length out) false false.

(** The last [max_bytes] of a string, from a character boundary on. *)
Fixpoint skip_continuation (s : bytes) : bytes :=
  match s with
  | b :: s' => if continuation b then skip_continuation s' else s
  | [] => []
  end.
Definition tail_str_bytes (value : bytes) (max_bytes : nat) : bytes :=
  if Nat.leb (length value) max_bytes then value
  else skip_continuation (drop (length value - max_bytes) value).

(** The last lines that fit, from the end; [rev_lines] is what is left above. *)
Fixpoint keep_tail (limits : TruncationLimits) (used : nat) (kept rev_lines : list bytes)
    : list bytes * TruncatedBy * bool :=
  match rev_lines with
  | [] => (kept, ByLines, false)
  | line :: rev_lines =>
      if Nat.leb limits.(max_lines) (length kept) then (kept, ByLines, false)
      else
        let line_bytes := length line + match kept with [] => 0 | _ => 1 end in
        if Nat.ltb limits.(max_bytes) (used + line_bytes) then
          match kept with
          | [] => ([tail_str_bytes line limits.(max_bytes)], ByBytes, true)
          | _ => (kept, ByBytes, false)
          end
        else keep_tail limits (used + line_bytes) (line :: kept) rev_lines
  end.
Definition truncate_tail (content : bytes) (limits : TruncationLimits) : Truncation :=
  let total_bytes := length content in
  let lines := split_lines content in
  if Nat.leb (length lines) limits.(max_lines) && Nat.leb total_bytes limits.(max_bytes) then
    untouched content lines total_bytes
  else
    let '(kept, by_, partial) := keep_tail limits 0 [] (rev lines) in
    let out := join_lf kept in
    mkTruncation out true (Some by_) (length lines) total_bytes (length kept) (length out) partial false.

(** ** Edit scripts *)

Inductive OpKind := Same | Removed | Added.
#[export] Instance OpKind_eq_dec : EqDecision OpKind.
Proof. solve_decision. Defined.
Definition marker (k : OpKind) : Z := match k with Same => 32 | Removed => 45 | Added => 43 end.
Record Op := mkOp { op_kind : OpKind; op_text : bytes }.
Definition is_kind (k : OpKind) (op : Op) : bool := bool_decide (op.(op_kind) = k).
Definition in_old (op : Op) : bool := negb (is_kind Added op).
Definition in_new (op : Op) : bool := negb (is_kind Removed op).

(** [&l[from..to]] *)
Definition segment {A} (l : list A) (from to : nat) : list A := take (to - from) (drop from l).

(** How many lines two texts begin with alike. *)
Fixpoint common_prefix (a b : list bytes) : nat :=
  match a, b with
  | x :: a, y :: b => if bool_decide (x = y) then S (common_prefix a b) else 0
  | _, _ => 0
  end.

(** The table of [lcs_ops], from its last row and column: row [i] from the
    row below it. *)
Fixpoint lcs_row (x : bytes) (b : list bytes) (below : list nat) : list nat :=
  match b with
  | [] => [0]
  | y :: b =>
      let row := lcs_row x b (tail below) in
      (if bool_decide (x = y) then nth 1 below 0 + 1 else Nat.max (nth 0 below 0) (nth 0 row 0)) :: row
  end.
Fixpoint lcs_table (a b : list bytes) : list (list nat) :=
  match a with
  | [] => [replicate (length b + 1) 0]
  | x :: a => let table := lcs_table a b in lcs_row x b (nth 0 table []) :: table
  end.
Definition cell (table : list (list nat)) (i j : nat) : nat := nth j (nth i table []) 0.

(** The walk through the table: [a] and [b] are what is left from [i], [j]. *)
Fixpoint lcs_walk (table : list (list nat)) (a : list bytes) (i : nat) : list bytes → nat → list Op :=
  match a with
  | [] => λ b j, map (mkOp Added) b
  | x :: a' =>
      fix walk_b (b : list bytes) (j : nat) : list Op :=
        match b with
        | [] => map (mkOp Removed) (x :: a')
        | y :: b' =>
            if bool_decide (x = y) then mkOp Same x :: lcs_walk table a' (S i) b' (S j)
            else if Nat.leb (cell table i (S j)) (cell table (S i) j) then
              mkOp Removed x :: lcs_walk table a' (S i) (y :: b') j
            else mkOp Added y :: walk_b b' (S j)
        end
  end.
Definition lcs_ops (a b : list bytes) : list Op := lcs_walk (lcs_table a b) a 0 b 0.

Definition max_lcs_cells : Z := 4000000.
Definition diff_ops (a b : list bytes) : list Op :=
  let head := common_prefix a b in
  let tail := common_prefix (rev (drop head a)) (rev (drop head b)) in
  let mid_a := segment a head (length a - tail) in
  let mid_b := segment b head (length b - tail) in
  map (mkOp Same) (take head a)
    ++ (if (max_lcs_cells <? Z.of_nat (length mid_a) * Z.of_nat (length mid_b))%Z
        then map (mkOp Removed) mid_a ++ map (mkOp Added) mid_b
        else lcs_ops mid_a mid_b)
    ++ map (mkOp Same) (drop (length a - tail) a).

(** ** Hunks *)

Definition context : nat := 3.
Record UnifiedDiff := mkUnified { ud_diff : bytes; ud_added : nat; ud_removed : nat }.
Record Hunk := mkHunk {
  hk_old_start : nat; hk_old_count : nat; hk_new_start : nat; hk_new_count : nat; hk_body : list Op
}.

Fixpoint indices_from {A} (p : A → bool) (i : nat) (l : list A) : list nat :=
  match l with
  | [] => []
  | a :: l => if p a then i :: indices_from p (S i) l else indices_from p (S i) l
  end.
Definition changed_at (ops : list Op) : list nat := indices_from (λ op, negb (is_kind Same op)) 0 ops.
Definition count_by {A} (p : A → bool) (l : list A) : nat := length (filter_by p l).

(** The groups of changes no more than seven apart: first and last. *)
Fixpoint groups_from (first last : nat) (changes : list nat) : list (nat * nat) :=
  match changes with
  | [] => [(first, last)]
  | c :: changes =>
      if Nat.leb (c - last) (context * 2 + 1) then groups_from first c changes
      else (first, last) :: groups_from c c changes
  end.
Definition groups (changes : list nat) : list (nat * nat) :=
  match changes with [] => [] | c :: changes => groups_from c c changes end.

(** [old_pos[first]] and [new_pos[first]], the 1-based line numbers. *)
Definition hunk_of (ops : list Op) (group : nat * nat) : Hunk :=
  let first := group.1 - context in
  let last := Nat.min (group.2 + context) (length ops - 1) in
  let body := segment ops first (last + 1) in
  let old_pos := count_by in_old (take first ops) + 1 in
  let new_pos := count_by in_new (take first ops) + 1 in
  let old_count := count_by in_old body in
  let new_count := count_by in_new body in
  mkHunk (if Nat.eqb old_count 0 then old_pos - 1 else old_pos) old_count
         (if Nat.eqb new_count 0 then new_pos - 1 else new_pos) new_count body.
Definition hunks (ops : list Op) : list Hunk := map (hunk_of ops) (groups (changed_at ops)).

Definition header_line (h : Hunk) : bytes :=
  lit ("@@ -" +:+ show_nat h.(hk_old_start) +:+ "," +:+ show_nat h.(hk_old_count)
       +:+ " +" +:+ show_nat h.(hk_new_start) +:+ "," +:+ show_nat h.(hk_new_count) +:+ " @@").
Definition op_line (op : Op) : bytes := marker op.(op_kind) :: op.(op_text).
Definition hunk_lines (h : Hunk) : list bytes := header_line h :: map op_line h.(hk_body).

Definition unified_diff (path : string) (before after : bytes) : UnifiedDiff :=
  let ops := diff_ops (split_lines before) (split_lines after) in
  let added := count_by (is_kind Added) ops in
  let removed := count_by (is_kind Removed) ops in
  match changed_at ops with
  | [] => mkUnified [] added removed
  | _ => mkUnified (join_lf (lit ("--- a/" +:+ path) :: lit ("+++ b/" +:+ path)
                               :: concat (map hunk_lines (hunks ops)))) added removed
  end.

(** ** Reading a patch back *)

(** The body of a hunk against the old lines that are left: the lines written,
    and the old lines after them. *)
Fixpoint apply_body (body : list Op) (old : list bytes) : option (list bytes * list bytes) :=
  match body with
  | [] => Some ([], old)
  | mkOp Added line :: body => '(out, rest) ← apply_body body old; Some (line :: out, rest)
  | mkOp kind line :: body =>
      match old with
      | line' :: old =>
          if bool_decide (line = line') then
            '(out, rest) ← apply_body body old;
            Some (if bool_decide (kind = Same) then line :: out else out, rest)
          else None
      | [] => None
      end
  end.
(** The line a header names is the first of the hunk, or the one before it
    when the hunk has no line on that side. *)
Definition lines_before (start count : nat) : nat := if Nat.eqb count 0 then start else start - 1.

(** A reader of unified diffs that trusts nothing: [old_at] lines of the old
    text are behind it and [new_at] of the new one are written. *)
Fixpoint patch (old_at new_at : nat) (hs : list Hunk) (old : list bytes) : option (list bytes) :=
  match hs with
  | [] => Some old
  | h :: hs =>
      let copied := lines_before h.(hk_old_start) h.(hk_old_count) - old_at in
      if Nat.leb old_at (lines_before h.(hk_old_start) h.(hk_old_count)) && Nat.leb copied (length old)
         && Nat.eqb (new_at + copied) (lines_before h.(hk_new_start) h.(hk_new_count)) then
        '(out, rest) ← apply_body h.(hk_body) (drop copied old);
        if Nat.eqb (length out) h.(hk_new_count) && Nat.eqb (length old - copied - length rest) h.(hk_old_count) then
          tail ← patch (old_at + copied + h.(hk_old_count)) (new_at + copied + h.(hk_new_count)) hs rest;
          Some (take copied old ++ out ++ tail)
        else None
      else None
  end.

Definition olds (ops : list Op) : list bytes := map op_text (filter_by in_old ops).
Definition news (ops : list Op) : list bytes := map op_text (filter_by in_new ops).

Example diff_example :
  (λ d, (d.(ud_diff), d.(ud_added), d.(ud_removed)))
    (unified_diff "f.txt" (join_lf (map lit ["one"; "two"; "three"; ""])) (join_lf (map lit ["one"; "TWO"; "three"; ""])))
  = (join_lf (map lit ["--- a/f.txt"; "+++ b/f.txt"; "@@ -1,3 +1,3 @@"; " one"; "-two"; "+TWO"; " three"]), 1, 1).
Proof. vm_compute. reflexivity. Qed.

(** ** What an edit script says *)

Section scripts.
Implicit Types (ops : list Op) (a b s : list bytes).

Lemma olds_app ops ops' : olds (ops ++ ops') = olds ops ++ olds ops'.
Proof. unfold olds. by rewrite filter_by_app, map_app. Qed.
Lemma news_app ops ops' : news (ops ++ ops') = news ops ++ news ops'.
Proof. unfold news. by rewrite filter_by_app, map_app. Qed.
Lemma length_olds ops : length (olds ops) = count_by in_old ops.
Proof. unfold olds, count_by. apply length_map. Qed.
Lemma length_news ops : length (news ops) = count_by in_new ops.
Proof. unfold news, count_by. apply length_map. Qed.
Lemma count_by_app {A} (p : A → bool) l l' : count_by p (l ++ l') = count_by p l + count_by p l'.
Proof. unfold count_by. by rewrite filter_by_app, length_app. Qed.

Definition sides ops a b : Prop := olds ops = a ∧ news ops = b.
Lemma sides_app ops ops' a a' b b' : sides ops a b → sides ops' a' b' → sides (ops ++ ops') (a ++ a') (b ++ b').
Proof. intros [<- <-] [<- <-]. split; [apply olds_app|apply news_app]. Qed.
Lemma sides_same l : sides (map (mkOp Same) l) l l.
Proof. split; induction l as [|x l IH]; [done| |done|]; exact (f_equal (cons x) IH). Qed.
Lemma sides_removed l : sides (map (mkOp Removed) l) l [].
Proof. split; induction l as [|x l IH]; [done| |done|]; [exact (f_equal (cons x) IH)|exact IH]. Qed.
Lemma sides_added l : sides (map (mkOp Added) l) [] l.
Proof. split; induction l as [|x l IH]; [done| |done|]; [exact IH|exact (f_equal (cons x) IH)]. Qed.

Lemma sides_walk table a : ∀ i b j, sides (lcs_walk table a i b j) a b.
Proof.
  induction a as [|x a IHa]; intros i; [intros b j; apply sides_added|].
  induction b as [|y b IHb]; intros j; [apply (sides_removed (x :: a))|]. cbn [lcs_walk].
  destruct (bool_decide_reflect (x = y)) as [->|_]; [|destruct (Nat.leb _ _)].
  - exact (sides_app [mkOp Same y] _ [y] _ [y] _ (conj eq_refl eq_refl) (IHa _ _ _)).
  - exact (sides_app [mkOp Removed x] _ [x] _ [] _ (conj eq_refl eq_refl) (IHa _ _ _)).
  - exact (sides_app [mkOp Added y] _ [] _ [y] _ (conj eq_refl eq_refl) (IHb _)).
Qed.

(** ** The texts trimmed of what they share *)

Lemma common_prefix_take a : ∀ b, take (common_prefix a b) a = take (common_prefix a b) b.
Proof. induction a as [|x a IH]; intros [|y b]; try done. simpl. case_bool_decide as E; [|done]. subst. simpl. by rewrite (IH b). Qed.
Lemma common_prefix_le a : ∀ b, common_prefix a b ≤ length a ∧ common_prefix a b ≤ length b.
Proof.
  induction a as [|x a IH]; intros [|y b]; simpl; try lia. case_bool_decide; [|lia].
  destruct (IH b). lia.
Qed.

Lemma drop_common_suffix a b n : n = common_prefix (rev a) (rev b) →
  drop (length a - n) a = drop (length b - n) b ∧ n ≤ length a ∧ n ≤ length b.
Proof.
  intros ->. destruct (common_prefix_le (rev a) (rev b)) as [H1 H2]. rewrite !length_rev in H1, H2.
  split; [|done]. pose proof (common_prefix_take (rev a) (rev b)) as E.
  rewrite !List.firstn_rev in E. by apply (f_equal (@rev _)) in E; rewrite !rev_involutive in E.
Qed.

(** A text as its shared beginning, what differs, and its shared end. *)
Definition parts a b (head mid_a mid_b tail : list bytes) : Prop := a = head ++ mid_a ++ tail ∧ b = head ++ mid_b ++ tail.
Lemma segment_parts a n t : n ≤ length a → t ≤ length (drop n a) →
  a = take n a ++ segment a n (length a - t) ++ drop (length a - t) a.
Proof.
  intros Hn Ht. rewrite length_drop in Ht. unfold segment. rewrite <- (take_drop n a) at 1. f_equal.
  rewrite <- (take_drop (length a - t - n) (drop n a)) at 1. f_equal. rewrite drop_drop. f_equal. lia.
Qed.
Lemma diff_parts a b :
  let n := common_prefix a b in
  let t := common_prefix (rev (drop n a)) (rev (drop n b)) in
  parts a b (take n a) (segment a n (length a - t)) (segment b n (length b - t)) (drop (length a - t) a).
Proof.
  intros n t. destruct (common_prefix_le a b) as [H1 H2].
  destruct (drop_common_suffix (drop n a) (drop n b) t eq_refl) as (E & H3 & H4).
  split; [by apply segment_parts|]. unfold n at 1. rewrite common_prefix_take.
  rewrite !drop_drop, !length_drop in E. rewrite length_drop in H3, H4.
  replace (n + (length a - n - t)) with (length a - t) in E by lia. rewrite E.
  replace (n + (length b - n - t)) with (length b - t) by lia.
  apply segment_parts; rewrite ?length_drop; lia.
Qed.

Lemma sides_parts a b head mid_a mid_b tail mid : parts a b head mid_a mid_b tail → sides mid mid_a mid_b →
  sides (map (mkOp Same) head ++ mid ++ map (mkOp Same) tail) a b.
Proof. intros [-> ->] H. apply sides_app; [apply sides_same|]. apply sides_app; [done|apply sides_same]. Qed.
Lemma sides_diff a b : sides (diff_ops a b) a b.
Proof.
  eapply sides_parts; [apply diff_parts|]. destruct (_ <? _)%Z; [|apply sides_walk].
  rewrite <- (app_nil_r (segment a _ _)) at 2. exact (sides_app _ _ _ _ [] _ (sides_removed _) (sides_added _)).
Qed.

(** ** The script is shortest *)

(** The length of a longest common subsequence, by its recurrence. *)
Fixpoint lcs (a : list bytes) : list bytes → nat :=
  match a with
  | [] => λ _, 0
  | x :: a' => fix lcs_b (b : list bytes) : nat :=
      match b with
      | [] => 0
      | y :: b' => if bool_decide (x = y) then S (lcs a' b') else Nat.max (lcs a' b) (lcs_b b')
      end
  end.

Lemma sublist_tail {A} (z : A) l x k : z :: l `sublist_of` x :: k → l `sublist_of` k.
Proof. inversion 1; subst; [done|]. eapply sublist_cons_l in H2 as (k1 & k2 & -> & H2). by apply sublist_inserts_l, sublist_cons. Qed.
(** Nothing common is longer. *)
Lemma lcs_longest a : ∀ b s, s `sublist_of` a → s `sublist_of` b → length s ≤ lcs a b.
Proof.
  induction a as [|x a IHa]; intros b s Ha; [by inversion Ha|].
  induction b as [|y b IHb]; intros Hb; [by inversion Hb|]. cbn [lcs].
  case_bool_decide as E.
  - subst y. destruct s as [|z s]; simpl; [lia|]. apply le_n_S, IHa; eapply sublist_tail; eassumption.
  - inversion Ha; subst.
    + inversion Hb; subst; [done|]. specialize (IHb H2). cbn [lcs] in IHb. lia.
    + pose proof (IHa (y :: b) s H1 Hb). lia.
Qed.

(** The table holds it for every pair of ends. *)
Fixpoint lcs_ends a b : list nat := lcs a b :: match b with [] => [] | _ :: b => lcs_ends a b end.
Lemma lcs_row_ends x a b : lcs_row x b (lcs_ends a b) = lcs_ends (x :: a) b.
Proof.
  induction b as [|y b IH]; [done|]. cbn [lcs_row lcs_ends tail]. rewrite IH. cbn [nth].
  assert (nth 0 (lcs_ends a b) 0 = lcs a b ∧ nth 0 (lcs_ends (x :: a) b) 0 = lcs (x :: a) b) as [-> ->] by (by destruct b).
  f_equal. cbn [lcs]. case_bool_decide; lia.
Qed.
Lemma lcs_ends_nil b : replicate (length b + 1) 0 = lcs_ends [] b.
Proof. induction b as [|y b IH]; [done|]. exact (f_equal (cons 0) IH). Qed.
Lemma table_rows a b : ∀ i, i ≤ length a → nth i (lcs_table a b) [] = lcs_ends (drop i a) b.
Proof.
  induction a as [|x a IH]; intros i Hi; simpl in Hi.
  - destruct i; [|lia]. apply lcs_ends_nil.
  - destruct i as [|i]; cbn [lcs_table nth drop]; [|apply IH; lia]. rewrite (IH 0 ltac:(lia)), drop_0. apply lcs_row_ends.
Qed.
Lemma nth_ends a b : ∀ j, j ≤ length b → nth j (lcs_ends a b) 0 = lcs a (drop j b).
Proof. induction b as [|y b IH]; intros [|j] Hj; simpl in Hj; try done; [lia|]. cbn [lcs_ends nth drop]. apply IH. lia. Qed.
Lemma cell_lcs a b i j : i ≤ length a → j ≤ length b → cell (lcs_table a b) i j = lcs (drop i a) (drop j b).
Proof. intros Hi Hj. unfold cell. by rewrite table_rows, nth_ends. Qed.

Lemma walk_same table a : ∀ i b j,
  (∀ p q, p ≤ length a → q ≤ length b → cell table (i + p) (j + q) = lcs (drop p a) (drop q b)) →
  count_by (is_kind Same) (lcs_walk table a i b j) = lcs a b.
Proof.
  induction a as [|x a IHa]; intros i b j.
  { intros _. change (lcs [] b) with 0. induction b as [|y b IH]; [done|exact IH]. }
  revert j. induction b as [|y b IHb]; intros j Hc.
  { change (lcs (x :: a) []) with 0. clear. change (count_by (is_kind Same) (map (mkOp Removed) (x :: a)) = 0).
    induction (x :: a) as [|z l IH]; [done|exact IH]. }
  assert (∀ p q, p ≤ length a → q ≤ length (y :: b) → cell table (S i + p) (j + q) = lcs (drop p a) (drop q (y :: b))) as Hi.
  { intros p q Hp Hq. replace (S i + p) with (i + S p) by lia. apply (Hc (S p) q); simpl in *; lia. }
  assert (∀ p q, p ≤ length (x :: a) → q ≤ length b → cell table (i + p) (S j + q) = lcs (drop p (x :: a)) (drop q b)) as Hj.
  { intros p q Hp Hq. replace (S j + q) with (j + S q) by lia. apply (Hc p (S q)); simpl in *; lia. }
  pose proof (Hi 0 0 ltac:(lia) ltac:(lia)) as E1. pose proof (Hj 0 0 ltac:(lia) ltac:(lia)) as E2.
  rewrite !Nat.add_0_r, !drop_0 in E1, E2. cbn [lcs_walk lcs]. case_bool_decide as E; [|destruct (Nat.leb_spec (cell table i (S j)) (cell table (S i) j))].
  - refine (f_equal S (IHa (S i) b (S j) _)). intros p q Hp Hq. replace (S j + q) with (j + S q) by lia. apply (Hi p (S q)); simpl in *; lia.
  - transitivity (lcs a (y :: b)); [exact (IHa (S i) (y :: b) j Hi)|]. symmetry. apply (Nat.max_l _ (lcs (x :: a) b)). lia.
  - transitivity (lcs (x :: a) b); [exact (IHb (S j) Hj)|]. symmetry. apply (Nat.max_r _ (lcs (x :: a) b)). lia.
Qed.
Lemma lcs_ops_same a b : count_by (is_kind Same) (lcs_ops a b) = lcs a b.
Proof. apply walk_same. intros p q. apply cell_lcs. Qed.

Lemma sublist_rev {A} (l k : list A) : l `sublist_of` k → rev l `sublist_of` rev k.
Proof.
  induction 1 as [|x l k _ IH|x l k _ IH]; simpl; [done|by apply sublist_app|by apply sublist_inserts_r].
Qed.
(** What two texts share at their ends is part of a longest one. *)
Lemma common_beginning p a b : ∀ s, s `sublist_of` p ++ a → s `sublist_of` p ++ b →
  ∃ s', s' `sublist_of` a ∧ s' `sublist_of` b ∧ length s ≤ length p + length s'.
Proof.
  induction p as [|x p IH]; intros s Ha Hb; [by exists s|].
  destruct s as [|z s]; [exists []; simpl; split; [apply sublist_nil_l|]; split; [apply sublist_nil_l|lia]|].
  destruct (IH s) as (s' & H1 & H2 & H3); [by eapply sublist_tail..|]. exists s'. simpl. split; [done|]. split; [done|]. lia.
Qed.
Lemma common_end p a b s : s `sublist_of` a ++ p → s `sublist_of` b ++ p →
  ∃ s', s' `sublist_of` a ∧ s' `sublist_of` b ∧ length s ≤ length p + length s'.
Proof.
  intros Ha%sublist_rev Hb%sublist_rev. rewrite rev_app_distr in Ha, Hb.
  destruct (common_beginning _ _ _ _ Ha Hb) as (s' & H1%sublist_rev & H2%sublist_rev & H3).
  rewrite rev_involutive in H1, H2. rewrite !length_rev in H3. exists (rev s'). by rewrite length_rev.
Qed.

Definition kept ops : list bytes := map op_text (filter_by (is_kind Same) ops).
Lemma kept_sublist ops : kept ops `sublist_of` olds ops ∧ kept ops `sublist_of` news ops.
Proof.
  unfold kept, olds, news. induction ops as [|[[] t] ops [IH1 IH2]]; [done|..]; cbn; split; try done.
  all: by constructor.
Qed.
Definition changes ops : nat := count_by (λ op, negb (is_kind Same op)) ops.
Lemma changes_kept ops a b : sides ops a b → changes ops + 2 * length (kept ops) = length a + length b.
Proof.
  intros [<- <-]. unfold changes, kept, olds, news, count_by. rewrite !length_map.
  induction ops as [|[[] t] ops IH]; [done|..]; rewrite !filter_by_cons; simpl; lia.
Qed.
Lemma kept_parts a b head mid_a mid_b tail s : parts a b head mid_a mid_b tail → s `sublist_of` a → s `sublist_of` b →
  length s ≤ length head + lcs mid_a mid_b + length tail.
Proof.
  intros [-> ->] Ha Hb. destruct (common_beginning _ _ _ _ Ha Hb) as (s1 & Ha1 & Hb1 & L1).
  destruct (common_end _ _ _ _ Ha1 Hb1) as (s2 & Ha2 & Hb2 & L2). pose proof (lcs_longest _ _ _ Ha2 Hb2). lia.
Qed.
Lemma kept_app ops ops' : kept (ops ++ ops') = kept ops ++ kept ops'.
Proof. unfold kept. by rewrite filter_by_app, map_app. Qed.
Lemma kept_same l : kept (map (mkOp Same) l) = l.
Proof. induction l as [|x l IH]; [done|]. exact (f_equal (cons x) IH). Qed.

Lemma kept_around head mid tail : length (kept (map (mkOp Same) head ++ mid ++ map (mkOp Same) tail)) = length head + length (kept mid) + length tail.
Proof. rewrite !kept_app, !length_app, !kept_same. lia. Qed.
Lemma kept_mid a b head mid_a mid_b tail : (Z.of_nat (length a) * Z.of_nat (length b) <= max_lcs_cells)%Z →
  parts a b head mid_a mid_b tail →
  length (kept (if (max_lcs_cells <? Z.of_nat (length mid_a) * Z.of_nat (length mid_b))%Z
                then map (mkOp Removed) mid_a ++ map (mkOp Added) mid_b else lcs_ops mid_a mid_b)) = lcs mid_a mid_b.
Proof.
  intros Hcap [-> ->]. rewrite !length_app in Hcap. destruct (Z.ltb_spec max_lcs_cells (Z.of_nat (length mid_a) * Z.of_nat (length mid_b))); [nia|].
  rewrite <- lcs_ops_same. apply length_map.
Qed.

(** No script for the same texts changes fewer lines. *)
Lemma diff_shortest a b ops : (Z.of_nat (length a) * Z.of_nat (length b) <= max_lcs_cells)%Z → sides ops a b →
  changes (diff_ops a b) ≤ changes ops.
Proof.
  intros Hcap Hops. pose proof (changes_kept _ _ _ Hops) as E1. pose proof (changes_kept _ _ _ (sides_diff a b)) as E2.
  enough (length (kept ops) ≤ length (kept (diff_ops a b))) by lia.
  destruct (kept_sublist ops) as [Ha Hb]. destruct Hops as [Eo En]. rewrite Eo in Ha. rewrite En in Hb.
  unfold diff_ops. rewrite kept_around. erewrite kept_mid by (done || apply diff_parts). by eapply kept_parts; [apply diff_parts|..].
Qed.

(** ** The patch reads back *)

Definition unchanged_op (op : Op) : Prop := op.(op_kind) = Same.
Lemma unchanged_segment (l : list Op) : Forall unchanged_op l →
  olds l = map op_text l ∧ news l = map op_text l ∧ count_by in_old l = length l ∧ count_by in_new l = length l.
Proof.
  intros H. assert (filter_by in_old l = l ∧ filter_by in_new l = l) as [E1 E2].
  { split; apply filter_by_id; intros [k t] Hx; apply Forall_forall with (x := mkOp k t) in H; try done; unfold unchanged_op in H; simpl in H; by subst. }
  unfold olds, news, count_by. by rewrite E1, E2.
Qed.

Lemma apply_body_sides body rest : apply_body body (olds body ++ rest) = Some (news body, rest).
Proof.
  induction body as [|[k t] body IH]; [done|].
  destruct k.
  - change (olds (mkOp Same t :: body)) with (t :: olds body). change (news (mkOp Same t :: body)) with (t :: news body).
    cbn [apply_body app]. rewrite bool_decide_eq_true_2 by done. by rewrite IH.
  - change (olds (mkOp Removed t :: body)) with (t :: olds body). change (news (mkOp Removed t :: body)) with (news body).
    cbn [apply_body app]. rewrite bool_decide_eq_true_2 by done. by rewrite IH.
  - change (olds (mkOp Added t :: body)) with (olds body). change (news (mkOp Added t :: body)) with (t :: news body).
    cbn [apply_body]. by rewrite IH.
Qed.

Lemma segment_split {A} (l : list A) (k s e : nat) : k ≤ s → s ≤ e → drop k l = segment l k s ++ segment l s e ++ drop e l.
Proof.
  intros H1 H2. unfold segment. rewrite <- (take_drop (s - k) (drop k l)) at 1. f_equal. rewrite drop_drop.
  replace (k + (s - k)) with s by lia. rewrite <- (take_drop (e - s) (drop s l)) at 1. f_equal. rewrite drop_drop. f_equal. lia.
Qed.
Lemma take_segment {A} (l : list A) (k s : nat) : k ≤ s → take s l = take k l ++ segment l k s.
Proof. intros H. unfold segment. rewrite take_take_drop. f_equal. lia. Qed.

(** The range of lines a group shows. *)
Definition from_ (group : nat * nat) : nat := group.1 - context.
Definition until ops (group : nat * nat) : nat := Nat.min (group.2 + context) (length ops - 1) + 1.
(** From [k] on, the ranges come in order and leave only unchanged lines out. *)
Fixpoint leave_unchanged ops (k : nat) (gs : list (nat * nat)) : Prop :=
  match gs with
  | [] => Forall unchanged_op (drop k ops)
  | g :: gs => k ≤ from_ g ∧ from_ g ≤ until ops g ∧ until ops g ≤ length ops
               ∧ Forall unchanged_op (segment ops k (from_ g)) ∧ leave_unchanged ops (until ops g) gs
  end.

Lemma hunk_lines_before ops g :
  lines_before (hunk_of ops g).(hk_old_start) (hunk_of ops g).(hk_old_count) = count_by in_old (take (from_ g) ops)
  ∧ lines_before (hunk_of ops g).(hk_new_start) (hunk_of ops g).(hk_new_count) = count_by in_new (take (from_ g) ops).
Proof. unfold hunk_of, lines_before, from_. cbn. split; destruct (Nat.eqb _ 0) eqn:E; cbn; rewrite ?E; lia. Qed.

Lemma patch_reads ops gs : ∀ k, leave_unchanged ops k gs →
  patch (count_by in_old (take k ops)) (count_by in_new (take k ops)) (map (hunk_of ops) gs) (olds (drop k ops)) = Some (news (drop k ops)).
Proof.
  induction gs as [|g gs IH]; intros k.
  { intros H%unchanged_segment. destruct H as (-> & -> & _). done. }
  intros (Hk & Hs & He & Hsame%unchanged_segment & Hrest). destruct Hsame as (So & Sn & Co & Cn). cbn [map patch].
  destruct (hunk_lines_before ops g) as [-> ->].
  rewrite !(take_segment ops k (from_ g)), !count_by_app, Co, Cn by done.
  rewrite (segment_split ops k (from_ g) (until ops g)), !olds_app, !news_app, So, Sn by done.
  set (seg := segment ops k (from_ g)). change (hk_body (hunk_of ops g)) with (segment ops (from_ g) (until ops g)).
  change (hk_old_count (hunk_of ops g)) with (count_by in_old (segment ops (from_ g) (until ops g))).
  change (hk_new_count (hunk_of ops g)) with (count_by in_new (segment ops (from_ g) (until ops g))).
  set (body := segment ops (from_ g) (until ops g)).
  replace (count_by in_old (take k ops) + length seg - count_by in_old (take k ops)) with (length seg) by lia.
  rewrite (proj2 (Nat.leb_le _ _)) by lia. rewrite (proj2 (Nat.leb_le _ _)) by (rewrite !length_app, length_map; lia).
  rewrite Nat.eqb_refl. cbn [andb]. rewrite drop_app_length', take_app_length' by (rewrite length_map; done).
  rewrite apply_body_sides. cbn [mbind option_bind]. rewrite length_news, Nat.eqb_refl.
  rewrite (proj2 (Nat.eqb_eq _ _)) by (rewrite !length_app, length_map, length_olds; lia). cbn [andb].
  specialize (IH _ Hrest). rewrite (take_segment ops (from_ g) (until ops g)), (take_segment ops k (from_ g)), !count_by_app, Co, Cn in IH by done. fold seg body in IH.
  rewrite IH. done.
Qed.

(** ** Every change is in a hunk *)

Lemma elem_of_indices {A} (p : A → bool) l : ∀ i n, n ∈ indices_from p i l ↔ ∃ j x, n = i + j ∧ l !! j = Some x ∧ p x = true.
Proof.
  induction l as [|a l IH]; intros i n; cbn [indices_from].
  { split; [by intros ?%elem_of_nil|]. by intros (j & x & _ & H & _). }
  assert (n ∈ indices_from p (S i) l ↔ ∃ j x, n = i + S j ∧ l !! j = Some x ∧ p x = true) as E.
  { rewrite IH. by setoid_rewrite <- Nat.add_succ_comm. }
  destruct (p a) eqn:Ep; [rewrite elem_of_cons|]; rewrite E; split.
  - intros [->|(j & x & H)]; [exists 0, a|exists (S j), x]; naive_solver lia.
  - intros ([|j] & x & -> & H & Hx); [left; lia|right; by exists j, x].
  - intros (j & x & H). by exists (S j), x.
  - intros ([|j] & x & -> & H & Hx); [simpl in H; congruence|by exists j, x].
Qed.
Lemma indices_sorted {A} (p : A → bool) l : ∀ i, StronglySorted lt (indices_from p i l).
Proof.
  induction l as [|a l IH]; intros i; cbn [indices_from]; [constructor|]. destruct (p a); [|apply IH]. constructor; [apply IH|].
  apply Forall_forall. intros n (j & x & -> & _)%elem_of_indices. lia.
Qed.
Lemma changed_at_spec ops n : n ∈ changed_at ops ↔ ∃ op, ops !! n = Some op ∧ ¬ unchanged_op op.
Proof.
  unfold changed_at. rewrite elem_of_indices. unfold is_kind, unchanged_op. split.
  - intros (j & op & -> & H & Hp). exists op. split; [done|]. by apply negb_true_iff, bool_decide_eq_false in Hp.
  - intros (op & H & Hp). exists n, op. split; [lia|]. split; [done|]. by apply negb_true_iff, bool_decide_eq_false.
Qed.
(** Lines none of whose positions is a change are unchanged. *)
Lemma quiet_segment ops (k s : nat) : (∀ n, n ∈ changed_at ops → k ≤ n → n < s → False) → Forall unchanged_op (segment ops k s).
Proof.
  intros H. apply Forall_lookup. intros i op Hi. unfold segment in Hi. apply lookup_take_Some in Hi as [Hi Hlt]. rewrite lookup_drop in Hi.
  destruct (decide (unchanged_op op)) as [|Hn]; [done|]. exfalso. apply (H (k + i)); [|lia..]. apply changed_at_spec. by exists op.
Qed.

Lemma groups_leave ops changes : ∀ k first last,
  StronglySorted lt (last :: changes) → (∀ n, n ∈ changed_at ops → last < n → n ∈ changes) → (∀ n, n ∈ changes → n < length ops) →
  first ≤ last → last < length ops → k ≤ first - context → (∀ n, n ∈ changed_at ops → k ≤ n → n < first → False) →
  leave_unchanged ops k (groups_from first last changes).
Proof.
  induction changes as [|c changes IH]; intros k first last Hs Hall Hin Hfl Hl Hk Hq; cbn [groups_from].
  - cbn [leave_unchanged]. unfold from_, until. cbn [fst snd]. split; [done|]. split; [lia|]. split; [lia|]. split.
    { apply quiet_segment. intros n Hn H1 H2. apply (Hq n Hn H1). lia. }
    apply Forall_lookup. intros i op Hi. rewrite lookup_drop in Hi. destruct (decide (unchanged_op op)) as [|Hno]; [done|]. exfalso.
    apply lookup_lt_Some in Hi as Hlt. eapply not_elem_of_nil, (Hall (Nat.min (last + context) (length ops - 1) + 1 + i)); [|unfold context; lia].
    apply changed_at_spec. by exists op.
  - apply StronglySorted_inv in Hs as [Hs Hlast]. pose proof (Forall_inv Hlast) as Hc. pose proof (Hin c ltac:(left)) as Hcl.
    assert (∀ n, n ∈ changed_at ops → c < n → n ∈ changes) as Hall'.
    { intros n Hn Hlt. destruct (proj1 (elem_of_cons _ _ _) (Hall n Hn ltac:(lia))) as [->|]; [lia|done]. }
    assert (∀ n, n ∈ changes → n < length ops) as Hin' by (intros n Hn; apply Hin; by right).
    destruct (Nat.leb_spec (c - last) (context * 2 + 1)) as [H|H]; [by apply IH; first [lia|done]|].
    cbn [leave_unchanged]. unfold context in *. unfold from_, until at 1 2. cbn [fst snd]. split; [done|]. split; [unfold context; lia|]. split; [unfold context; lia|]. split.
    { apply quiet_segment. intros n Hn H1 H2. apply (Hq n Hn H1). unfold context in *. lia. }
    apply IH; [done|done|done|lia|done|unfold until; cbn [snd]; unfold context; lia|].
    intros n Hn H1 H2. unfold until in H1. cbn [snd] in H1. unfold context in H1.
    destruct (proj1 (elem_of_cons _ _ _) (Hall n Hn ltac:(lia))) as [->|Hin2]; [lia|].
    apply StronglySorted_inv in Hs as [_ Hs]. pose proof (proj1 (Forall_forall _ _) Hs n Hin2) as Hgt. simpl in Hgt. lia.
Qed.
Lemma hunks_leave ops : leave_unchanged ops 0 (groups (changed_at ops)).
Proof.
  pose proof (indices_sorted (λ op, negb (is_kind Same op)) ops 0 : StronglySorted lt (changed_at ops)) as Hs.
  assert (∀ n, n ∈ changed_at ops → n < length ops) as Hin by (by intros n (op & H%lookup_lt_Some & _)%changed_at_spec).
  destruct (changed_at ops) as [|c cs] eqn:E; cbn [groups leave_unchanged].
  - apply Forall_lookup. intros i op Hi. rewrite lookup_drop in Hi. destruct (decide (unchanged_op op)) as [|Hn]; [done|].
    assert (i ∈ changed_at ops) as Hc by (apply changed_at_spec; by exists op). rewrite E in Hc. by apply elem_of_nil in Hc.
  - pose proof (Hin c ltac:(left)) as Hc. apply groups_leave; try done; try lia; rewrite ?E.
    + intros n [->|H]%elem_of_cons ?; [lia|done].
    + intros n H. apply Hin. by right.
    + intros n [->|H]%elem_of_cons _ Hlt; [lia|]. apply StronglySorted_inv in Hs as [_ Hs].
      pose proof (proj1 (Forall_forall _ _) Hs n H). simpl in *. lia.
Qed.
Lemma hunks_patch ops : patch 0 0 (hunks ops) (olds ops) = Some (news ops).
Proof. pose proof (patch_reads ops _ 0 (hunks_leave ops)) as H. by rewrite !drop_0 in H. Qed.

Lemma count_unchanged (p : Op → bool) l : (∀ op, unchanged_op op → p op = false) → Forall unchanged_op l → count_by p l = 0.
Proof. intros Hp H. unfold count_by. rewrite filter_by_none; [done|]. intros op Hin. apply Hp. by apply (proj1 (Forall_forall _ _) H). Qed.
Lemma count_hunks (p : Op → bool) ops gs : (∀ op, unchanged_op op → p op = false) → ∀ k, leave_unchanged ops k gs →
  count_by p (concat (map hk_body (map (hunk_of ops) gs))) = count_by p (drop k ops).
Proof.
  intros Hp. induction gs as [|g gs IH]; intros k.
  - intros H. by rewrite (count_unchanged _ _ Hp H).
  - intros (Hk & Hs & He & Hsame & Hrest). rewrite (segment_split ops k (from_ g) (until ops g)), !count_by_app by done.
    rewrite (count_unchanged _ _ Hp Hsame), <- (IH _ Hrest). cbn [map concat]. by rewrite count_by_app.
Qed.
Lemma count_in_hunks k ops : k ≠ Same → count_by (is_kind k) (concat (map hk_body (hunks ops))) = count_by (is_kind k) ops.
Proof.
  intros Hk. rewrite <- (drop_0 ops) at 2. apply count_hunks; [|apply hunks_leave].
  intros op H. unfold is_kind. rewrite H. by apply bool_decide_eq_false.
Qed.
Lemma changes_counts ops : count_by (is_kind Added) ops + count_by (is_kind Removed) ops = changes ops.
Proof. unfold changes, count_by. induction ops as [|[[] t] ops IH]; [done|..]; rewrite !filter_by_cons; simpl; lia. Qed.
Lemma groups_from_some first last l : groups_from first last l = [] → False.
Proof. revert last first. induction l as [|c l IH]; intros last first; cbn [groups_from]; [done|]. destruct (Nat.leb _ _); [apply IH|done]. Qed.
End scripts.

Definition newline_text : string := String "010" EmptyString.
(** C34: What is reported of an edit is a patch, whatever the two texts.  Its
    text is the two file headers and the hunks, nothing when no line differs; a
    reader that checks every line number, every count and every line it is
    shown turns the old lines into the new ones with those hunks; the counts
    reported are those of the lines the hunks add and remove; and, when the
    product of the two line counts is within the table's 4,000,000 cells, no
    script between the texts changes fewer lines. *)
Theorem diff_patches path before after :
  let report := unified_diff path before after in
  ∃ hs, report.(ud_diff)
      = match hs with [] => [] | _ => join_lf (lit ("--- a/" +:+ path) :: lit ("+++ b/" +:+ path) :: concat (map hunk_lines hs)) end
    ∧ patch 0 0 hs (split_lines before) = Some (split_lines after)
    ∧ report.(ud_added) = count_by (is_kind Added) (concat (map hk_body hs))
    ∧ report.(ud_removed) = count_by (is_kind Removed) (concat (map hk_body hs))
    ∧ ((Z.of_nat (length (split_lines before)) * Z.of_nat (length (split_lines after)) <= max_lcs_cells)%Z →
       ∀ ops, sides ops (split_lines before) (split_lines after) →
         report.(ud_added) + report.(ud_removed) <= changes ops).
Proof.
  intros report. subst report. unfold unified_diff.
  destruct (sides_diff (split_lines before) (split_lines after)) as [Ho Hn].
  pose proof (λ Hcap ops, diff_shortest (split_lines before) (split_lines after) ops Hcap) as Hmin.
  set (script := diff_ops _ _) in *. exists (hunks script).
  pose proof (hunks_patch script) as Hp. rewrite Ho, Hn in Hp. rewrite <- changes_counts in Hmin. rewrite !count_in_hunks by done.
  split; [|by destruct (changed_at script)]. unfold hunks. destruct (changed_at script) as [|c cs]; [done|]. cbn [groups].
  by destruct (groups_from c c cs) eqn:E; [apply groups_from_some in E|].
Qed.
Lemma diff_patches_witness :
  ∃ hs, (unified_diff "f" (lit ("a" +:+ newline_text)) (lit ("b" +:+ newline_text))).(ud_diff) = join_lf (lit "--- a/f" :: lit "+++ b/f" :: concat (map hunk_lines hs))
    ∧ patch 0 0 hs [lit "a"] = Some [lit "b"].
Proof.
  destruct (diff_patches "f" (lit ("a" +:+ newline_text)) (lit ("b" +:+ newline_text)))
    as ([|h hs] & Hd & Hp & _); [vm_compute in Hp; discriminate|].
  exists (h :: hs). split; [exact Hd|exact Hp].
Defined.

(** A final line feed is no line: an edit that only adds one is reported as
    no change. *)
Lemma split_lf_snoc s : ∀ line, split_lf_from line (s ++ [LF]) = split_lf_from line s ++ [[]].
Proof. induction s as [|c s IH]; intros line; [done|]. simpl. destruct (c =? 10)%Z; [|apply IH]. simpl. by rewrite IH. Qed.
Lemma ends_with_snoc s : ends_with [LF] (s ++ [LF]) = true.
Proof.
  unfold ends_with. rewrite length_app. change (length [LF]) with 1. replace (length s + 1 - 1) with (length s) by lia.
  rewrite drop_app_length, bool_decide_eq_true_2 by done. exact (proj2 (Nat.leb_le 1 (length s + 1)) ltac:(lia)).
Qed.
Lemma split_lines_snoc s : s ≠ [] → ends_with [LF] s = false → split_lines (s ++ [LF]) = split_lines s.
Proof.
  intros Hs He. unfold split_lines. destruct s as [|c s]; [done|]. rewrite He. change ((c :: s) ++ [LF]) with (c :: (s ++ [LF])).
  cbn iota. change (c :: (s ++ [LF])) with ((c :: s) ++ [LF]). by rewrite ends_with_snoc, split_lf_snoc, removelast_last.
Qed.
Lemma common_prefix_refl a : common_prefix a a = length a.
Proof. induction a as [|x a IH]; [done|]. simpl. by rewrite bool_decide_eq_true_2, IH by done. Qed.
Lemma diff_ops_refl a : diff_ops a a = map (mkOp Same) a.
Proof.
  unfold diff_ops, segment. rewrite common_prefix_refl, drop_all, firstn_all. cbn [rev common_prefix]. rewrite Nat.sub_0_r, !drop_all, Nat.sub_diag. cbn.
  by rewrite app_nil_r.
Qed.
Lemma final_newline_unseen path s : s ≠ [] → ends_with [LF] s = false → unified_diff path s (s ++ [LF]) = mkUnified [] 0 0.
Proof.
  intros Hs He. unfold unified_diff. rewrite split_lines_snoc, diff_ops_refl by done.
  assert (∀ l i, indices_from (λ op, negb (is_kind Same op)) i (map (mkOp Same) l) = []) as E by (induction l as [|x l IH]; intros i; [done|apply IH]).
  unfold changed_at. rewrite E. f_equal; unfold count_by; by rewrite filter_by_none; [|intros op (x & -> & _)%list_elem_of_fmap].
Qed.

(** ** Output stays within its limits *)

Lemma split_lines_LF s : Forall (λ line, LF ∉ line) (split_lines s).
Proof.
  assert (∀ s line, LF ∉ line → Forall (λ line, LF ∉ line) (split_lf_from line s)) as H.
  { clear. induction s as [|c s IH]; intros line Hl; cbn [split_lf_from]; [by constructor|]. destruct (Z.eqb_spec c 10).
    - constructor; [done|]. apply IH. by apply not_elem_of_nil.
    - apply IH. rewrite elem_of_app, list_elem_of_singleton. intros [?|?]; [done|]. by subst. }
  unfold split_lines. destruct s as [|c s]; [done|]. pose proof (H (c :: s) [] ltac:(apply not_elem_of_nil)) as F.
  destruct (ends_with _ _); [|done]. clear -F. induction F as [|x l Hx F IH]; [done|]. destruct l; [done|]. by constructor.
Qed.
Lemma length_join_lf lines : length (join_lf lines) = sum_list_with length lines + pred (length lines).
Proof. induction lines as [|l [|l' lines] IH]; [done|simpl; lia|]. cbn [join_lf sum_list_with length] in *. rewrite !length_app. simpl in *. lia. Qed.

Lemma keep_head_spec limit lines : ∀ used i kept by_, keep_head limit used i lines = (kept, by_) → used ≤ limit →
  kept `prefix_of` lines ∧ used + sum_list_with (λ l, length l + 1) kept ≤ limit + (if Nat.eqb i 0 then match kept with [] => 0 | _ => 1 end else 0)
  ∧ (by_ = ByLines → kept = lines).
Proof.
  induction lines as [|line lines IH]; intros used i kept by_ H Hu; cbn [keep_head] in H.
  { injection H as <- <-. simpl. split; [done|]. split; [lia|done]. }
  destruct (Nat.ltb_spec limit (used + (length line + (if Nat.ltb 0 i then 1 else 0)))) as [Hl|Hl].
  { injection H as <- <-. simpl. split; [apply prefix_nil|]. split; [destruct (Nat.eqb i 0); lia|done]. }
  destruct (keep_head _ _ (S i) lines) as [kept' by'] eqn:E. injection H as <- <-.
  destruct (IH _ _ _ _ E Hl) as (Hp & Hb & Hall). split; [by apply prefix_cons|]. split.
  - cbn [Nat.eqb sum_list_with] in *. destruct i; cbn in *; lia.
  - intros Hby. by rewrite (Hall Hby).
Qed.
Lemma sum_with_one lines : sum_list_with (λ l : bytes, length l + 1) lines = sum_list_with length lines + length lines.
Proof. induction lines as [|l lines IH]; simpl; [done|lia]. Qed.

(** The head of a text: whole lines from its start, within both limits; what
    was not marked as truncated is the text. *)
Lemma truncate_head_bounded content limits : let t := truncate_head content limits in
  length t.(tr_content) ≤ limits.(max_bytes) ∧ t.(tr_output_lines) ≤ limits.(max_lines)
  ∧ t.(tr_output_bytes) = length t.(tr_content)
  ∧ (t.(tr_truncated) = false → t.(tr_content) = content)
  ∧ (t.(tr_truncated) = true → ∃ kept, kept `prefix_of` split_lines content ∧ t.(tr_content) = join_lf kept ∧ t.(tr_output_lines) = length kept).
Proof.
  unfold truncate_head. destruct (Nat.leb (length (split_lines content)) _ && _) eqn:E.
  { apply andb_true_iff in E as [E1%Nat.leb_le E2%Nat.leb_le]. by cbn. }
  destruct (Nat.ltb _ _) eqn:E2. { cbn. split; [lia|]. split; [lia|]. split; [done|]. split; [done|]. intros _. exists []. split; [apply prefix_nil|done]. }
  destruct (keep_head _ _ _ _) as [kept by_] eqn:K. cbn.
  destruct (keep_head_spec _ _ _ _ _ _ K ltac:(lia)) as (Hp & Hb & _). rewrite sum_with_one in Hb. cbn in Hb. split.
  { rewrite length_join_lf. destruct kept; cbn in *; lia. }
  split; [apply prefix_length in Hp; rewrite length_take in Hp; lia|]. split; [done|]. split; [done|].
  intros _. exists kept. split; [|done]. etrans; [exact Hp|]. apply prefix_take.
Qed.

Lemma skip_continuation_suffix s : skip_continuation s `suffix_of` s.
Proof. induction s as [|b s IH]; [done|]. cbn [skip_continuation]. destruct (continuation b); [by apply suffix_cons_r|done]. Qed.
Lemma tail_str_bytes_spec s n : tail_str_bytes s n `suffix_of` s ∧ length (tail_str_bytes s n) ≤ n.
Proof.
  unfold tail_str_bytes. destruct (Nat.leb_spec (length s) n) as [Hn|Hn]; [done|].
  pose proof (skip_continuation_suffix (drop (length s - n) s)) as H. split; [etrans; [exact H|apply suffix_drop]|]. 
  apply suffix_length in H. rewrite length_drop in H. lia.
Qed.
Lemma keep_tail_bounded limits rev_lines : ∀ used kept kept' by_ partial,
  keep_tail limits used kept rev_lines = (kept', by_, partial) →
  length (join_lf kept) = used → used ≤ limits.(max_bytes) → length kept ≤ limits.(max_lines) →
  length (join_lf kept') ≤ limits.(max_bytes) ∧ length kept' ≤ limits.(max_lines)
  ∧ (partial = false → ∃ above, rev rev_lines ++ kept = above ++ kept').
Proof.
  induction rev_lines as [|line rev_lines IH]; intros used kept kept' by_ partial H Hu Hm Hl; cbn [keep_tail] in H.
  { injection H as <- <- <-. rewrite Hu. split; [done|]. split; [done|]. by exists []. }
  destruct (Nat.leb_spec limits.(max_lines) (length kept)); [|destruct (Nat.ltb_spec limits.(max_bytes) (used + (length line + match kept with [] => 0 | _ => 1 end)))].
  - injection H as <- <- <-. rewrite Hu. split; [done|]. split; [done|]. by exists (rev (line :: rev_lines)).
  - destruct kept as [|k kept]; injection H as <- <- <-.
    + simpl. split; [apply tail_str_bytes_spec|]. split; [simpl in *; lia|done].
    + rewrite Hu. split; [done|]. split; [done|]. by exists (rev (line :: rev_lines)).
  - assert (length (join_lf (line :: kept)) = used + (length line + match kept with [] => 0 | _ => 1 end)) as Hu'.
    { subst used. rewrite !length_join_lf. destruct kept; simpl; lia. }
    destruct (IH _ _ _ _ _ H Hu' ltac:(lia) ltac:(simpl; lia)) as (B1 & B2 & B3). split; [done|]. split; [done|].
    intros Hp. destruct (B3 Hp) as (above & E). exists above. rewrite <- E. simpl. by rewrite <- app_assoc.
Qed.
(** The tail of a text: within both limits, and its last lines whole unless
    marked as partial. *)
Lemma truncate_tail_bounded content limits : let t := truncate_tail content limits in
  length t.(tr_content) ≤ limits.(max_bytes) ∧ t.(tr_output_lines) ≤ limits.(max_lines)
  ∧ (t.(tr_truncated) = false → t.(tr_content) = content)
  ∧ (t.(tr_truncated) = true → t.(tr_last_line_partial) = false →
     ∃ kept, kept `suffix_of` split_lines content ∧ t.(tr_content) = join_lf kept).
Proof.
  unfold truncate_tail. destruct (Nat.leb (length (split_lines content)) _ && _) eqn:E.
  { apply andb_true_iff in E as [E1%Nat.leb_le E2%Nat.leb_le]. by cbn. }
  destruct (keep_tail _ _ _ _) as [[kept by_] partial] eqn:K. cbn.
  destruct (keep_tail_bounded _ _ _ _ _ _ _ K eq_refl ltac:(lia) ltac:(simpl; lia)) as (H1 & H2 & H3).
  split; [done|]. split; [done|]. split; [done|]. intros _ Hp. destruct (H3 Hp) as (above & Eq). rewrite rev_involutive, app_nil_r in Eq.
  exists kept. split; [by exists above|done].
Qed.
