(* ===== verification/Gates.v ===== *)
(** * The gates of a workspace

    The reader/writer gates of [toolpacks-coding/src/coordination.rs]: first
    come first served, writers before the readers that come after them.  A
    gate is found by its key; grants are told apart by the id of the entry
    that asked for them, never by who holds them. *)

From stdpp Require Export gmap.
From S2P Require Export Prelude.

Record LeaseHolder := mkLeaseHolder {
  lh_chat_id : option string;
  lh_run_id : string;
  lh_tool_call_id : option string;
  lh_tool : string;
  lh_label : string
}.

Inductive Mode := Shared | Exclusive.
#[export] Instance Mode_eq_dec : EqDecision Mode.
Proof. solve_decision. Defined.

Definition EntryId : Type := nat.
Record Entry := mkEntry { en_id : EntryId; en_mode : Mode; en_holder : LeaseHolder }.

Record Gate := mkGate {
  ga_shared : list (EntryId * LeaseHolder);
  ga_exclusive : option (EntryId * LeaseHolder);
  ga_queue : list Entry
}.
Definition gate_new : Gate := mkGate [] None [].

(** ** One gate *)

Definition gate_holders (g : Gate) : list LeaseHolder :=
  match g.(ga_exclusive) with Some (_, holder) => [holder] | None => map snd g.(ga_shared) end.

Definition no_one {A} (l : list A) : bool := match l with [] => true | _ => false end.
Definition idle (g : Gate) : bool :=
  negb (is_some g.(ga_exclusive)) && no_one g.(ga_shared) && no_one g.(ga_queue).

Definition can_grant (g : Gate) (mode : Mode) : bool :=
  match mode with
  | Exclusive => negb (is_some g.(ga_exclusive)) && no_one g.(ga_shared)
  | Shared => negb (is_some g.(ga_exclusive))
  end.

Definition take_grant (id : EntryId) (mode : Mode) (holder : LeaseHolder) (g : Gate) : Gate :=
  match mode with
  | Exclusive => mkGate g.(ga_shared) (Some (id, holder)) g.(ga_queue)
  | Shared => mkGate (g.(ga_shared) ++ [(id, holder)]) g.(ga_exclusive) g.(ga_queue)
  end.

(** [Vec::remove] of the first element that meets a test, if any does. *)
Fixpoint remove_first {A} (p : A → bool) (l : list A) : list A :=
  match l with [] => [] | a :: l => if p a then l else a :: remove_first p l end.

Definition remove_grant (id : EntryId) (g : Gate) : Gate :=
  let exclusive := match g.(ga_exclusive) with
                   | Some (held, holder) => if (held =? id)%nat then None else Some (held, holder)
                   | None => None
                   end in
  mkGate (remove_first (λ e, (e.1 =? id)%nat) g.(ga_shared)) exclusive g.(ga_queue).

Definition is_queued (id : EntryId) (g : Gate) : bool := existsb (λ e, (e.(en_id) =? id)%nat) g.(ga_queue).
Definition remove_entry (id : EntryId) (g : Gate) : Gate :=
  mkGate g.(ga_shared) g.(ga_exclusive) (remove_first (λ e, (e.(en_id) =? id)%nat) g.(ga_queue)).

(** [pump]: grants from the front of the queue while it can, signalling each
    entry it grants; the ids it signalled come with the gate. *)
Fixpoint pump_from (queue : list Entry) (g : Gate) : Gate * list EntryId :=
  match queue with
  | [] => (mkGate g.(ga_shared) g.(ga_exclusive) [], [])
  | e :: rest =>
      if can_grant g e.(en_mode) then
        let '(g, signalled) := pump_from rest (take_grant e.(en_id) e.(en_mode) e.(en_holder) g) in
        (g, e.(en_id) :: signalled)
      else (mkGate g.(ga_shared) g.(ga_exclusive) (e :: rest), [])
  end.
Definition pump (g : Gate) : Gate * list EntryId := pump_from g.(ga_queue) g.

(** ** The gates by key *)

Section map.
Context {K : Type} `{Countable K}.

(** The gates, and the entries whose channel has been sent its grant. *)
Record GateMap := mkGates { gm_gates : gmap K Gate; gm_signalled : gset EntryId }.
Definition gates_new : GateMap := mkGates ∅ ∅.

Inductive AcquireState := Granted | Queued (blocked_by : list LeaseHolder).

Definition try_acquire (id : EntryId) (key : K) (mode : Mode) (holder : LeaseHolder) (m : GateMap)
    : AcquireState * GateMap :=
  let gate := default gate_new (m.(gm_gates) !! key) in
  if no_one gate.(ga_queue) && can_grant gate mode then
    (Granted, mkGates (<[key := take_grant id mode holder gate]> m.(gm_gates)) m.(gm_signalled))
  else
    (Queued (gate_holders gate),
     mkGates (<[key := mkGate gate.(ga_shared) gate.(ga_exclusive)
                         (gate.(ga_queue) ++ [mkEntry id mode holder])]> m.(gm_gates)) m.(gm_signalled)).

(** A change of one gate, then its pump; an idle gate is dropped. *)
Definition update_gate (key : K) (f : Gate → Gate) (m : GateMap) : GateMap :=
  match m.(gm_gates) !! key with
  | None => m
  | Some gate =>
      let '(gate, signalled) := pump (f gate) in
      mkGates (if idle gate then delete key m.(gm_gates) else <[key := gate]> m.(gm_gates))
        (list_to_set signalled ∪ m.(gm_signalled))
  end.

Definition release (key : K) (id : EntryId) (m : GateMap) : GateMap := update_gate key (remove_grant id) m.

(** [AcquireGuard::drop] of an armed guard. *)
Definition reclaim (key : K) (id : EntryId) (m : GateMap) : GateMap :=
  update_gate key (λ gate, if is_queued id gate then remove_entry id gate else remove_grant id gate) m.

(** What a cancelled waiter finds: whether its entry has left the queue. *)
Definition was_granted (key : K) (id : EntryId) (m : GateMap) : bool :=
  match m.(gm_gates) !! key with Some gate => negb (is_queued id gate) | None => false end.

Definition gate_at (key : K) (m : GateMap) : Gate := default gate_new (m.(gm_gates) !! key).
End map.
Arguments GateMap K {_ _}.

(** ** Laws of one gate *)

Definition exclusive_ids (g : Gate) : list EntryId :=
  match g.(ga_exclusive) with Some (id, _) => [id] | None => [] end.
Definition grant_ids (g : Gate) : list EntryId := exclusive_ids g ++ map fst g.(ga_shared).
Definition queue_ids (g : Gate) : list EntryId := map en_id g.(ga_queue).

Definition granted (g : Gate) (id : EntryId) (mode : Mode) : Prop :=
  match mode with Exclusive => id ∈ exclusive_ids g | Shared => id ∈ map fst g.(ga_shared) end.
Definition queued (g : Gate) (id : EntryId) (mode : Mode) : Prop :=
  ∃ e, e ∈ g.(ga_queue) ∧ e.(en_id) = id ∧ e.(en_mode) = mode.

(** A writer alone; ids distinct; granted before queued, queued in order. *)
Record gate_wf (g : Gate) : Prop := {
  gw_alone : g.(ga_exclusive) ≠ None → g.(ga_shared) = [];
  gw_nodup : NoDup (grant_ids g);
  gw_order : ∀ i j, i ∈ grant_ids g → j ∈ queue_ids g → (i < j)%nat;
  gw_queue : StronglySorted lt (queue_ids g)
}.
(** The front of the queue is blocked. *)
Definition pumped (g : Gate) : Prop :=
  match g.(ga_queue) with [] => True | e :: _ => can_grant g e.(en_mode) = false end.

Lemma granted_ids g id mode : granted g id mode → id ∈ grant_ids g.
Proof. unfold grant_ids. rewrite elem_of_app. destruct mode; auto. Qed.
Lemma grant_ids_granted g id : id ∈ grant_ids g → ∃ mode, granted g id mode.
Proof. unfold grant_ids. rewrite elem_of_app. intros [|]; [by exists Exclusive|by exists Shared]. Qed.
Lemma queued_ids g id mode : queued g id mode → id ∈ queue_ids g.
Proof. intros (e & He & <- & _). by apply list_elem_of_fmap_2. Qed.
Lemma is_queued_ids id g : is_queued id g = true ↔ id ∈ queue_ids g.
Proof.
  unfold is_queued. rewrite existsb_exists. setoid_rewrite Nat.eqb_eq.
  change (queue_ids g) with (en_id <$> ga_queue g). rewrite list_elem_of_fmap. split.
  - intros (e & He & <-). exists e. by rewrite list_elem_of_In.
  - intros (e & -> & He). exists e. by rewrite list_elem_of_In in He.
Qed.

Lemma no_one_nil {A} (l : list A) : no_one l = true ↔ l = [].
Proof. by destruct l. Qed.

Lemma can_grant_exclusive g : can_grant g Exclusive = true ↔ g.(ga_exclusive) = None ∧ g.(ga_shared) = [].
Proof. unfold can_grant. rewrite andb_true_iff, negb_true_iff, no_one_nil. destruct (ga_exclusive g); simpl; split; by intros []. Qed.
Lemma can_grant_shared g : can_grant g Shared = true ↔ g.(ga_exclusive) = None.
Proof. unfold can_grant. rewrite negb_true_iff. by destruct (ga_exclusive g). Qed.

(** What keeps a request waiting is somebody's grant. *)
Lemma blocked_by_grant g mode : can_grant g mode = false →
  ∃ id mode', granted g id mode' ∧ (mode = Shared → mode' = Exclusive).
Proof.
  unfold can_grant, granted, exclusive_ids. destruct (ga_exclusive g) as [[id h]|] eqn:E.
  - intros _. exists id, Exclusive. split; [left|done].
  - destruct mode; [done|]. simpl. destruct (ga_shared g) as [|[id h] l] eqn:Es; [done|]. intros _.
    exists id, Shared. split; [left|done].
Qed.

(** ** What the operations do to a gate *)

Lemma remove_first_notin {A} (p : A → bool) l : (∀ a, a ∈ l → p a = false) → remove_first p l = l.
Proof.
  induction l as [|a l IH]; intros Hp; [done|]. simpl. rewrite (Hp a) by left. f_equal. apply IH. intros b Hb.
  apply Hp. by right.
Qed.
Lemma remove_first_id {A} (f : A → EntryId) id l : NoDup (map f l) →
  ∃ l1 l2, remove_first (λ a, (f a =? id)%nat) l = l1 ++ l2
    ∧ (l = l1 ++ l2 ∧ id ∉ map f l ∨ ∃ a, l = l1 ++ a :: l2 ∧ f a = id) ∧ id ∉ map f (l1 ++ l2).
Proof.
  induction l as [|a l IH]; simpl; [intros _; exists [], []; split_and!; [done|left; split; [done|]|]; apply not_elem_of_nil|].
  intros [Ha Hn]%NoDup_cons. destruct (Nat.eqb_spec (f a) id) as [<-|Hne].
  - exists [], l. split_and!; [done|right; by exists a|done].
  - destruct (IH Hn) as (l1 & l2 & -> & Hl & Hi). exists (a :: l1), l2. split_and!; [done| |].
    + destruct Hl as [[-> Hl]|(b & -> & Hb)]; [left; split; [done|]|right; by exists b].
      simpl in *. rewrite elem_of_cons. naive_solver.
    + simpl. rewrite elem_of_cons. naive_solver.
Qed.
Lemma remove_first_elem {A} (f : A → EntryId) id l a : NoDup (map f l) →
  a ∈ remove_first (λ a, (f a =? id)%nat) l ↔ a ∈ l ∧ f a ≠ id.
Proof.
  intros Hn. destruct (remove_first_id f id l Hn) as (l1 & l2 & -> & Hl & Hi).
  assert (∀ a, a ∈ l1 ++ l2 → f a ≠ id) as Hne. { intros b Hb <-. apply Hi. by apply list_elem_of_fmap_2. }
  destruct Hl as [[-> _]|(b & -> & <-)]; [split; [auto|by intros []]|].
  split.
  - intros Ha. split; [|by apply Hne]. apply elem_of_app in Ha. rewrite elem_of_app, elem_of_cons. tauto.
  - rewrite !elem_of_app, elem_of_cons. intros [[|[->|]] Hf]; [by left|done|by right].
Qed.
Lemma remove_first_sublist {A B} (f : A → B) p l : map f (remove_first p l) `sublist_of` map f l.
Proof.
  induction l as [|a l IH]; simpl; [constructor|]. destruct (p a); [by apply sublist_cons|by apply sublist_skip].
Qed.

(** ** Laws of a gate *)

Lemma strictly_sorted_NoDup (l : list nat) : StronglySorted lt l → NoDup l.
Proof.
  induction 1 as [|i l _ IH Hi]; constructor; [|done]. intros Hin. rewrite Forall_forall in Hi.
  specialize (Hi i Hin). lia.
Qed.
Lemma strictly_sorted_sublist (l l' : list nat) : l `sublist_of` l' → StronglySorted lt l' → StronglySorted lt l.
Proof.
  induction 1 as [|i l l' Hs IH|i l l' Hs IH]; intros Hl'; [constructor|..]; apply StronglySorted_inv in Hl' as [Hl' Hi].
  - constructor; [auto|]. rewrite Forall_forall in *. intros j Hj. apply Hi.
    by eapply elem_of_submseteq, sublist_submseteq.
  - auto.
Qed.

Lemma queue_ids_elem g id : id ∈ queue_ids g ↔ ∃ mode, queued g id mode.
Proof.
  change (queue_ids g) with (en_id <$> ga_queue g). rewrite list_elem_of_fmap. split.
  - intros (e & -> & He). by exists e.(en_mode), e.
  - intros (mode & e & He & <- & _). by exists e.
Qed.

Lemma grant_ids_take id mode holder g : can_grant g mode = true →
  ∀ i, i ∈ grant_ids (take_grant id mode holder g) ↔ i = id ∨ i ∈ grant_ids g.
Proof.
  intros Hc i. unfold grant_ids. destruct mode; simpl.
  - rewrite map_app. cbn [map fst]. rewrite !elem_of_app, list_elem_of_singleton. tauto.
  - apply can_grant_exclusive in Hc as [Hx ->]. unfold exclusive_ids. rewrite Hx. simpl.
    rewrite list_elem_of_singleton, elem_of_nil. tauto.
Qed.

Lemma granted_take id mode holder g i m : can_grant g mode = true →
  granted (take_grant id mode holder g) i m ↔ granted g i m ∨ i = id ∧ m = mode.
Proof.
  intros Hc. destruct mode; destruct m; simpl.
  - rewrite map_app. cbn [map fst]. rewrite elem_of_app, list_elem_of_singleton. naive_solver.
  - naive_solver.
  - naive_solver.
  - apply can_grant_exclusive in Hc as [Hx _]. unfold exclusive_ids. rewrite Hx. simpl.
    rewrite list_elem_of_singleton, elem_of_nil. naive_solver.
Qed.

(** Taking a grant keeps a gate well formed, when the id is new among the
    grants and older than the queue. *)
Lemma take_wf id mode holder g : gate_wf g → can_grant g mode = true →
  id ∉ grant_ids g → (∀ j, j ∈ queue_ids g → (id < j)%nat) → gate_wf (take_grant id mode holder g).
Proof.
  intros [Ha Hn Ho Hq] Hc Hnew Hlt. split.
  - destruct mode; simpl; [apply can_grant_shared in Hc; congruence|].
    intros _. by apply can_grant_exclusive in Hc as [_ ?].
  - destruct mode.
    + unfold grant_ids in *. simpl. rewrite map_app, app_assoc. cbn [map fst]. apply NoDup_app. split_and!; [done| |apply NoDup_singleton].
      intros x Hx ->%list_elem_of_singleton. done.
    + apply can_grant_exclusive in Hc as [_ Hs]. unfold grant_ids. simpl. rewrite Hs. apply NoDup_singleton.
  - intros i j Hi Hj. apply (grant_ids_take _ _ _ _ Hc) in Hi as [->|Hi].
    + apply Hlt. by destruct mode.
    + apply Ho; [done|]. by destruct mode.
  - by destruct mode.
Qed.

(** What a pump did: a beginning of the queue was granted, in its order. *)
Record pumps (g : Gate) (g' : Gate) (signalled : list EntryId) : Prop := {
  pu_wf : gate_wf g';
  pu_pumped : pumped g';
  pu_moved : ∃ moved, g.(ga_queue) = moved ++ g'.(ga_queue) ∧ signalled = map en_id moved
    ∧ ∀ id mode, granted g' id mode ↔ granted g id mode ∨ ∃ e, e ∈ moved ∧ e.(en_id) = id ∧ e.(en_mode) = mode
}.

Lemma pump_from_spec queue g : let g0 := mkGate g.(ga_shared) g.(ga_exclusive) queue in
  gate_wf g0 → pumps g0 (pump_from queue g).1 (pump_from queue g).2.
Proof.
  revert g. induction queue as [|e rest IH]; intros g g0 Hg; cbn [pump_from].
  { split; [done..|]. exists []. split_and!; [done..|]. intros id mode. split; [by left|].
    intros [|(e & ?%elem_of_nil & _)]; done. }
  destruct (can_grant g (en_mode e)) eqn:Hc.
  2:{ split; [done|done|]. exists []. split_and!; [done..|]. intros id mode. split; [by left|].
      intros [|(e' & ?%elem_of_nil & _)]; done. }
  set (g1 := take_grant (en_id e) (en_mode e) (en_holder e) g) in *.
  assert (gate_wf (mkGate g1.(ga_shared) g1.(ga_exclusive) rest)) as H1.
  { destruct Hg as [Ha Hn Ho Hq]. unfold queue_ids in Hq. simpl in Hq. apply StronglySorted_inv in Hq as [Hq Hlt].
    assert (gate_wf (mkGate g.(ga_shared) g.(ga_exclusive) rest)) as Hrest.
    { split; try done. intros i j Hi Hj. apply Ho; [done|]. by right. }
    apply (take_wf (en_id e) (en_mode e) (en_holder e)) in Hrest; [by destruct (en_mode e)| done| |].
    - intros Hin. assert (en_id e < en_id e)%nat; [|lia]. apply Ho; [done|left].
    - intros j Hj. rewrite Forall_forall in Hlt. by apply Hlt. }
  destruct (IH g1 H1) as [K1 K2 (moved & K3 & K4 & K5)].
  destruct (pump_from rest g1) as [g' ids]. cbn [fst snd] in *. split; [done..|].
  exists (e :: moved). split_and!; [by simpl in *; rewrite K3|by rewrite K4|].
  intros id mode. rewrite K5. setoid_rewrite elem_of_cons.
  assert (granted (mkGate g1.(ga_shared) g1.(ga_exclusive) rest) id mode ↔ granted g1 id mode) as -> by done.
  unfold g1. rewrite granted_take by done.
  assert (granted g0 id mode ↔ granted g id mode) as -> by done. naive_solver.
Qed.

Lemma pump_spec g : gate_wf g → pumps g (pump g).1 (pump g).2.
Proof. intros Hg. unfold pump. destruct g as [s x q]. by apply (pump_from_spec q (mkGate s x q)). Qed.

(** ** Leaving *)

Lemma remove_grant_granted id g i m : gate_wf g →
  granted (remove_grant id g) i m ↔ granted g i m ∧ i ≠ id.
Proof.
  intros [_ Hn _ _]. unfold grant_ids in Hn. apply NoDup_app in Hn as (_ & _ & Hn). destruct m; simpl.
  - assert (∀ l : list (EntryId * LeaseHolder), i ∈ map fst l ↔ ∃ a, a ∈ l ∧ a.1 = i) as Hmap.
    { intros l. change (map fst l) with (fst <$> l). rewrite list_elem_of_fmap. naive_solver. }
    rewrite !Hmap. setoid_rewrite (remove_first_elem fst id _ _ Hn). naive_solver.
  - unfold exclusive_ids. simpl. destruct (ga_exclusive g) as [[held h]|]; [|by rewrite elem_of_nil; tauto].
    destruct (Nat.eqb_spec held id) as [->|Hne]; rewrite ?elem_of_nil, ?list_elem_of_singleton; naive_solver.
Qed.

Lemma remove_grant_wf id g : gate_wf g → gate_wf (remove_grant id g).
Proof.
  intros Hg. pose proof Hg as [Ha Hn Ho Hq].
  assert (grant_ids (remove_grant id g) `sublist_of` grant_ids g) as Hs.
  { unfold grant_ids, exclusive_ids, remove_grant. simpl. apply sublist_app.
    - destruct (ga_exclusive g) as [[held h]|]; [|done]. destruct (held =? id)%nat; [apply sublist_nil_l|done].
    - apply remove_first_sublist. }
  split.
  - simpl. intros Hx. rewrite Ha; [done|]. intros E. by rewrite E in Hx.
  - by eapply sublist_NoDup.
  - intros i j Hi Hj. apply Ho; [|done]. by eapply elem_of_submseteq, sublist_submseteq.
  - done.
Qed.

Lemma remove_entry_queued id g i m : gate_wf g →
  queued (remove_entry id g) i m ↔ queued g i m ∧ i ≠ id.
Proof.
  intros [_ _ _ Hq]. pose proof (strictly_sorted_NoDup _ Hq) as Hn.
  unfold queued. simpl. setoid_rewrite (remove_first_elem en_id id _ _ Hn). naive_solver.
Qed.

Lemma remove_entry_wf id g : gate_wf g → gate_wf (remove_entry id g).
Proof.
  intros [Ha Hn Ho Hq].
  assert (queue_ids (remove_entry id g) `sublist_of` queue_ids g) as Hs by apply remove_first_sublist.
  split; [done|done| |by eapply strictly_sorted_sublist].
  intros i j Hi Hj. apply Ho; [done|]. by eapply elem_of_submseteq, sublist_submseteq.
Qed.

(** ** Joining the queue *)

Definition enqueue_entry (e : Entry) (g : Gate) : Gate :=
  mkGate g.(ga_shared) g.(ga_exclusive) (g.(ga_queue) ++ [e]).

Lemma enqueue_wf e g : gate_wf g →
  (∀ i, i ∈ grant_ids g ∨ i ∈ queue_ids g → (i < e.(en_id))%nat) → gate_wf (enqueue_entry e g).
Proof.
  intros [Ha Hn Ho Hq] Hnew. assert (queue_ids (enqueue_entry e g) = queue_ids g ++ [en_id e]) as Eq.
  { unfold queue_ids. simpl. by rewrite map_app. }
  split; [done|done|..]; rewrite Eq.
  - intros i j Hi [Hj| ->%list_elem_of_singleton]%elem_of_app; [by apply Ho|]. apply Hnew. by left.
  - apply StronglySorted_app_2; [|done|by repeat constructor].
    intros i j Hi ->%list_elem_of_singleton. apply Hnew. by right.
Qed.
Lemma enqueue_queued e g i m : queued (enqueue_entry e g) i m ↔ queued g i m ∨ i = e.(en_id) ∧ m = e.(en_mode).
Proof.
  unfold queued. simpl. setoid_rewrite elem_of_app. setoid_rewrite list_elem_of_singleton. naive_solver.
Qed.
Lemma enqueue_pumped e g : pumped g → no_one g.(ga_queue) && can_grant g e.(en_mode) = false →
  pumped (enqueue_entry e g).
Proof. unfold pumped, can_grant. simpl. by destruct (ga_queue g). Qed.

(** ** The gates by key *)

Lemma gate_new_wf : gate_wf gate_new.
Proof. split; [done|constructor|by intros i j ?%elem_of_nil|constructor]. Qed.
Lemma idle_new g : idle g = true ↔ g = gate_new.
Proof.
  unfold idle. rewrite !andb_true_iff, negb_true_iff, !no_one_nil. destruct g as [s x q]; simpl.
  unfold gate_new. destruct x; naive_solver.
Qed.

Section map.
Context {K : Type} `{Countable K}.
Implicit Types (m : GateMap K) (key : K).

(** Every gate of the map is well formed, pumped and in use. *)
Definition gates_wf m : Prop :=
  ∀ key gate, m.(gm_gates) !! key = Some gate → gate_wf gate ∧ pumped gate ∧ idle gate = false.

Lemma gates_wf_at m key : gates_wf m → gate_wf (gate_at key m) ∧ pumped (gate_at key m).
Proof.
  intros Hm. unfold gate_at. destruct (gm_gates m !! key) as [gate|] eqn:E; simpl.
  - by destruct (Hm _ _ E) as (? & ? & _).
  - split; [apply gate_new_wf|done].
Qed.

Lemma gate_at_insert key key' gate m sg :
  gate_at key' (mkGates (<[key := gate]> m.(gm_gates)) sg) = if decide (key' = key) then gate else gate_at key' m.
Proof.
  unfold gate_at. simpl. destruct (decide (key' = key)) as [->|Hne]; [by rewrite lookup_insert_eq|].
  by rewrite lookup_insert_ne.
Qed.

Lemma gates_wf_insert key gate m sg : gates_wf m → gate_wf gate → pumped gate → idle gate = false →
  gates_wf (mkGates (<[key := gate]> m.(gm_gates)) sg).
Proof.
  intros Hm H1 H2 H3 key' gate'. simpl. rewrite lookup_insert_Some. intros [[_ <-]|[_ ?]]; [done|by eapply Hm].
Qed.

Record acquired (id : EntryId) key (mode : Mode) m (state : AcquireState) m' : Prop := {
  ac_wf : gates_wf m';
  ac_other key' : key' ≠ key → gate_at key' m' = gate_at key' m;
  ac_signalled : m'.(gm_signalled) = m.(gm_signalled);
  ac_state : match state with
    | Granted => (gate_at key m).(ga_queue) = [] ∧ (gate_at key m').(ga_queue) = []
                 ∧ ∀ i md, granted (gate_at key m') i md ↔ granted (gate_at key m) i md ∨ i = id ∧ md = mode
    | Queued _ => (∀ i md, granted (gate_at key m') i md ↔ granted (gate_at key m) i md)
                  ∧ ∃ holder, (gate_at key m').(ga_queue) = (gate_at key m).(ga_queue) ++ [mkEntry id mode holder]
    end
}.

Lemma try_acquire_spec id key mode holder m : gates_wf m →
  (∀ i, i ∈ grant_ids (gate_at key m) ∨ i ∈ queue_ids (gate_at key m) → (i < id)%nat) →
  acquired id key mode m (try_acquire id key mode holder m).1 (try_acquire id key mode holder m).2.
Proof.
  intros Hm Hnew. destruct (gates_wf_at m key Hm) as [Hwf Hpu]. unfold try_acquire. fold (gate_at key m).
  set (gate := gate_at key m) in *.
  destruct (no_one (ga_queue gate) && can_grant gate mode) eqn:E; cbn [fst snd].
  - apply andb_true_iff in E as [Hq Hc]. apply no_one_nil in Hq.
    assert (gate_wf (take_grant id mode holder gate)) as Hwf'.
    { apply take_wf; [done|done| |].
      - intros Hin. specialize (Hnew id (or_introl Hin)). lia.
      - unfold queue_ids. rewrite Hq. by intros j ?%elem_of_nil. }
    assert (ga_queue (take_grant id mode holder gate) = []) as Hq' by by destruct mode.
    split; [|intros key' Hne; by rewrite gate_at_insert, decide_False|done|].
    + apply gates_wf_insert; [done|done|unfold pumped; by rewrite Hq'|].
      destruct mode; unfold idle; simpl; [by destruct (ga_shared gate); rewrite andb_false_r|done].
    + rewrite gate_at_insert, decide_True by done. split_and!; [done..|].
      intros i md. by apply granted_take.
  - set (e := mkEntry id mode holder). change (mkGate _ _ _) with (enqueue_entry e gate).
    split; [|intros key' Hne; by rewrite gate_at_insert, decide_False|done|].
    + apply gates_wf_insert; [done|by apply enqueue_wf|by apply enqueue_pumped|].
      unfold idle. simpl. destruct (ga_queue gate); by rewrite andb_false_r.
    + rewrite gate_at_insert, decide_True by done. split; [done|]. by exists holder.
Qed.

(** A gate after a departure. *)
Record departed key (f : Gate → Gate) m m' (signalled : list EntryId) : Prop := {
  de_wf : gates_wf m';
  de_other key' : key' ≠ key → gate_at key' m' = gate_at key' m;
  de_signalled : m'.(gm_signalled) = list_to_set signalled ∪ m.(gm_signalled);
  de_pumps : pumps (f (gate_at key m)) (gate_at key m') signalled
}.

Lemma update_gate_spec key f m : gates_wf m → gate_wf (f (gate_at key m)) → f gate_new = gate_new →
  ∃ signalled, departed key f m (update_gate key f m) signalled.
Proof.
  intros Hm Hwf Hnew. unfold update_gate. destruct (gm_gates m !! key) as [gate|] eqn:E.
  - assert (gate_at key m = gate) as Eg by (unfold gate_at; by rewrite E). rewrite Eg in Hwf.
    pose proof (pump_spec _ Hwf) as Hp. rewrite <-Eg in Hp. destruct (pump (f gate)) as [g' sg] eqn:Epump.
    rewrite Eg in Hp. rewrite Epump in Hp. cbn [fst snd] in Hp. exists sg.
    destruct (idle g') eqn:Ei.
    + apply idle_new in Ei as ->. split; [|intros key' Hne; unfold gate_at; simpl; by rewrite lookup_delete_ne|done|].
      * intros key' gate'. simpl. rewrite lookup_delete_Some. intros [_ ?]. by eapply Hm.
      * rewrite Eg. unfold gate_at. simpl. by rewrite lookup_delete_eq.
    + split; [apply gates_wf_insert; [done|apply Hp..|done]|intros key' Hne; by rewrite gate_at_insert, decide_False|done|].
      rewrite Eg. by rewrite gate_at_insert, decide_True.
  - exists []. assert (gate_at key m = gate_new) as Eg by (unfold gate_at; by rewrite E).
    split; [done|done|simpl; by rewrite (left_id_L ∅ (∪))|]. rewrite Eg, Hnew. split; [apply gate_new_wf|done|].
    exists []. split_and!; [done..|]. intros id mode. split; [by left|]. intros [|(e & ?%elem_of_nil & _)]; done.
Qed.

Lemma release_spec key id m : gates_wf m →
  ∃ signalled, departed key (remove_grant id) m (release key id m) signalled.
Proof.
  intros Hm. apply update_gate_spec; [done| |done]. by apply remove_grant_wf, gates_wf_at.
Qed.
Definition withdraw (id : EntryId) (gate : Gate) : Gate :=
  if is_queued id gate then remove_entry id gate else remove_grant id gate.
Lemma reclaim_spec key id m : gates_wf m →
  ∃ signalled, departed key (withdraw id) m (reclaim key id m) signalled.
Proof.
  intros Hm. apply update_gate_spec; [done| |done]. unfold withdraw.
  destruct (is_queued id _); [apply remove_entry_wf|apply remove_grant_wf]; by apply gates_wf_at.
Qed.

(** A withdrawn id is gone, and nothing else. *)
Lemma withdraw_granted id gate i mode : gate_wf gate →
  granted (withdraw id gate) i mode ↔ granted gate i mode ∧ i ≠ id.
Proof.
  intros Hg. unfold withdraw. destruct (is_queued id gate) eqn:E; [|by apply remove_grant_granted].
  apply is_queued_ids in E. split; [|by intros []]. intros Hi. split; [done|]. intros ->.
  pose proof (gw_order _ Hg id id (granted_ids _ _ _ Hi) E). lia.
Qed.
Lemma withdraw_queued id gate i mode : gate_wf gate →
  queued (withdraw id gate) i mode ↔ queued gate i mode ∧ i ≠ id.
Proof.
  intros Hg. unfold withdraw. destruct (is_queued id gate) eqn:E; [by apply remove_entry_queued|].
  change (queued (remove_grant id gate) i mode) with (queued gate i mode).
  split; [|by intros []]. intros Hi. split; [done|]. intros ->.
  apply queued_ids in Hi. apply is_queued_ids in Hi. by rewrite Hi in E.
Qed.
Lemma withdraw_queue id gate : ∃ p, (withdraw id gate).(ga_queue) = remove_first p gate.(ga_queue).
Proof.
  unfold withdraw. destruct (is_queued id gate); simpl; [by eexists|]. exists (λ _, false).
  by rewrite remove_first_notin.
Qed.
End map.
