(* ===== verification/Coordinator.v ===== *)
(** * Who may change what

    [InProcessCoordinator] of [toolpacks-coding/src/coordination.rs]: a file
    lease is a share of its workspace and the file alone, a workspace lease
    the workspace alone.  Callers interleave at every await and may be dropped
    at any of them, so an acquisition is a session that moves by labelled
    steps, and a run of the coordinator any sequence of labels.

    The two gate maps of the coordinator are one here, told apart by their
    keys; roots and paths are the canonical keys they are looked up by. *)

From S2P Require Export Gates.

Inductive Which := Workspaces | Files.
#[export] Instance Which_eq_dec : EqDecision Which.
Proof. solve_decision. Defined.
#[export] Instance Which_countable : Countable Which.
Proof.
  apply (inj_countable' (λ w, match w with Workspaces => true | Files => false end)
           (λ b : bool, if b then Workspaces else Files)). by intros [].
Defined.

Definition Slot : Type := Which * string.

(** What a caller asks for, under canonical keys. *)
Inductive LeaseRequest := FileLease (root path : string) | WorkspaceLease (root : string).
Definition root_of (r : LeaseRequest) : string := match r with FileLease root _ => root | WorkspaceLease root => root end.

(** The gates an acquisition takes, in its order. *)
Definition plan (r : LeaseRequest) : list (Slot * Mode) :=
  match r with
  | FileLease root path => [((Workspaces, root), Shared); ((Files, path), Exclusive)]
  | WorkspaceLease root => [((Workspaces, root), Exclusive)]
  end.

Record Grant := mkGrant { gr_slot : Slot; gr_mode : Mode; gr_id : EntryId }.

(** Before the root is clear; on the way through the gates; with the lease in
    hand; giving the grants back. *)
Inductive Stage := Arriving | Acquiring | Holding | Releasing.

Record Session := mkSession {
  ss_request : LeaseRequest;
  ss_holder : LeaseHolder;
  ss_stage : Stage;
  ss_todo : list (Slot * Mode);
  ss_waiting : option Grant;
  ss_held : list Grant
}.

Record World := mkWorld {
  wo_next : EntryId;
  wo_gates : GateMap Slot;
  wo_sessions : gmap nat Session;
  wo_quarantined : gset string
}.
Definition world_new : World := mkWorld 1 gates_new ∅ ∅.

Definition with_sessions (f : gmap nat Session → gmap nat Session) (w : World) : World :=
  mkWorld w.(wo_next) w.(wo_gates) (f w.(wo_sessions)) w.(wo_quarantined).
Definition put (sid : nat) (s : Session) : World → World := with_sessions <[sid := s]>.

(** A session that gives its grants back, gone when it holds none. *)
Definition releasing (s : Session) (held : list Grant) : Session :=
  mkSession s.(ss_request) s.(ss_holder) Releasing [] None held.
Definition put_releasing (sid : nat) (s : Session) (held : list Grant) (w : World) : World :=
  match held with [] => with_sessions (delete sid) w | _ => put sid (releasing s held) w end.

(** ** The steps *)

(** [acquire_file] and [acquire_workspace] are called. *)
Definition call_acquire (sid : nat) (r : LeaseRequest) (holder : LeaseHolder) (w : World) : option World :=
  match w.(wo_sessions) !! sid with
  | Some _ => None
  | None => Some (put sid (mkSession r holder Arriving [] None []) w)
  end.

(** [await_clear] finds no quarantine. *)
Definition await_clear (sid : nat) (s : Session) (w : World) : option World :=
  match s.(ss_stage) with
  | Arriving =>
      if bool_decide (root_of s.(ss_request) ∈ w.(wo_quarantined)) then None
      else Some (put sid (mkSession s.(ss_request) s.(ss_holder) Acquiring (plan s.(ss_request)) None []) w)
  | _ => None
  end.
(** Its wait ended, or it was cancelled. *)
Definition turn_away (sid : nat) (s : Session) (w : World) : option World :=
  match s.(ss_stage) with Arriving => Some (with_sessions (delete sid) w) | _ => None end.

(** [acquire_single]: the next gate is asked. *)
Definition ask_gate (sid : nat) (s : Session) (w : World) : option World :=
  match s.(ss_stage), s.(ss_waiting), s.(ss_todo) with
  | Acquiring, None, (slot, mode) :: todo =>
      let id := w.(wo_next) in
      let '(state, gates) := try_acquire id slot mode s.(ss_holder) w.(wo_gates) in
      let grant := mkGrant slot mode id in
      let '(waiting, held) := match state with
                              | Granted => (None, grant :: s.(ss_held))
                              | Queued _ => (Some grant, s.(ss_held))
                              end in
      Some (mkWorld (S id) gates
              (<[sid := mkSession s.(ss_request) s.(ss_holder) Acquiring todo waiting held]> w.(wo_sessions))
              w.(wo_quarantined))
  | _, _, _ => None
  end.

(** The waiter takes the grant it was sent. *)
Definition accepted (s : Session) (g : Grant) : Session :=
  mkSession s.(ss_request) s.(ss_holder) s.(ss_stage) s.(ss_todo) None (g :: s.(ss_held)).
Definition accept (sid : nat) (s : Session) (w : World) : option World :=
  match s.(ss_waiting) with
  | Some g => if bool_decide (g.(gr_id) ∈ w.(wo_gates).(gm_signalled)) then Some (put sid (accepted s g) w) else None
  | None => None
  end.

Definition with_gates (f : GateMap Slot → GateMap Slot) (w : World) : World :=
  mkWorld w.(wo_next) (f w.(wo_gates)) w.(wo_sessions) w.(wo_quarantined).

(** The waiter sees its token cancelled: a grant that landed meanwhile is
    kept, else the entry is reclaimed and the acquisition fails. *)
Definition cancel_wait (sid : nat) (s : Session) (w : World) : option World :=
  match s.(ss_waiting) with
  | Some g =>
      if was_granted g.(gr_slot) g.(gr_id) w.(wo_gates) then Some (put sid (accepted s g) w)
      else Some (put_releasing sid s s.(ss_held) (with_gates (reclaim g.(gr_slot) g.(gr_id)) w))
  | None => None
  end.

(** The future, or the lease, is dropped: a waiting entry is reclaimed at
    once, what is held is given back. *)
Definition drop_session (sid : nat) (s : Session) (w : World) : option World :=
  match s.(ss_stage) with
  | Releasing => None
  | _ =>
      let w := match s.(ss_waiting) with
               | Some g => with_gates (reclaim g.(gr_slot) g.(gr_id)) w
               | None => w
               end in
      Some (put_releasing sid s s.(ss_held) w)
  end.

(** [quarantine_refusal], with every gate in hand. *)
Definition check_quarantine (sid : nat) (s : Session) (w : World) : option World :=
  match s.(ss_stage), s.(ss_waiting), s.(ss_todo) with
  | Acquiring, None, [] =>
      if bool_decide (root_of s.(ss_request) ∈ w.(wo_quarantined)) then Some (put_releasing sid s s.(ss_held) w)
      else Some (put sid (mkSession s.(ss_request) s.(ss_holder) Holding [] None s.(ss_held)) w)
  | _, _, _ => None
  end.

(** [WorkspaceLease::release]. *)
Definition start_release (sid : nat) (s : Session) (w : World) : option World :=
  match s.(ss_stage) with Holding => Some (put_releasing sid s s.(ss_held) w) | _ => None end.
(** One of the release closures runs; dropped leases run theirs in any order. *)
Definition release_one (i : nat) (sid : nat) (s : Session) (w : World) : option World :=
  match s.(ss_stage), s.(ss_held) !! i with
  | Releasing, Some g =>
      Some (put_releasing sid s (delete i s.(ss_held)) (with_gates (release g.(gr_slot) g.(gr_id)) w))
  | _, _ => None
  end.

(** [quarantine_workspace] and what lifts it. *)
Definition quarantine_workspace (root : string) (w : World) : World :=
  mkWorld w.(wo_next) w.(wo_gates) w.(wo_sessions) ({[root]} ∪ w.(wo_quarantined)).
Definition lift_quarantine (root : string) (w : World) : World :=
  mkWorld w.(wo_next) w.(wo_gates) w.(wo_sessions) (w.(wo_quarantined) ∖ {[root]}).

(** ** Runs *)

Inductive Move :=
  | Admit | TurnAway | AskGate | Accept | CancelWait | DropSession | CheckQuarantine | ReleaseLease
  | ReleaseOne (i : nat).
Inductive Label :=
  | Submit (sid : nat) (r : LeaseRequest) (holder : LeaseHolder)
  | Step (sid : nat) (m : Move)
  | Quarantine (root : string)
  | Lift (root : string).

Definition move (m : Move) : nat → Session → World → option World :=
  match m with
  | Admit => await_clear | TurnAway => turn_away | AskGate => ask_gate | Accept => accept | CancelWait => cancel_wait
  | DropSession => drop_session | CheckQuarantine => check_quarantine | ReleaseLease => start_release
  | ReleaseOne i => release_one i
  end.
Definition perform (l : Label) (w : World) : option World :=
  match l with
  | Submit sid r holder => call_acquire sid r holder w
  | Step sid m => w.(wo_sessions) !! sid ≫= λ s, move m sid s w
  | Quarantine root => Some (quarantine_workspace root w)
  | Lift root => Some (lift_quarantine root w)
  end.
Fixpoint perform_all (ls : list Label) (w : World) : option World :=
  match ls with [] => Some w | l :: ls => w' ← perform l w; perform_all ls w' end.

Definition attained (w : World) : Prop := ∃ ls, perform_all ls world_new = Some w.

(** ** Waiting under a cap *)

Definition busy_error (holders : list LeaseHolder) (waited_ms : string) : string * string :=
  let who := match holders with
             | [] => "another session holds the workspace"
             | _ => String.concat "; " (map (λ h, "another session is running " +:+ h.(lh_tool) +:+ ": " +:+ h.(lh_label)) holders)
             end in
  ("workspace_busy", who +:+ " (waited " +:+ waited_ms +:+ "ms). Try again later.").

(** What [with_wait_cap] makes of a failed acquisition. *)
Definition capped_error (capped caller_aborted : bool) (holders : list LeaseHolder) (waited_ms : string)
    (error : string * string) : string * string :=
  if capped && negb caller_aborted && negb (bool_decide (error.1 = "workspace_quarantined"))
  then busy_error holders waited_ms else error.
