(* ===== verification/CoordinatorLaws.v ===== *)
(** * The coordinator keeps its leases apart

    Invariants of every run of [Coordinator], whatever its callers do and
    wherever they are cancelled or dropped. *)

From S2P Require Export Coordinator.

Definition gate_of (w : World) (slot : Slot) : Gate := gate_at slot w.(wo_gates).
(** What a session has asked the gates for and not given back. *)
Definition claims (s : Session) : list Grant := option_list s.(ss_waiting) ++ s.(ss_held).
Definition step_of (g : Grant) : Slot * Mode := (g.(gr_slot), g.(gr_mode)).

(** How far a session is with its plan. *)
Definition on_plan (s : Session) : Prop :=
  match s.(ss_stage) with
  | Arriving => claims s = []
  | Acquiring => map step_of (rev (claims s)) ++ s.(ss_todo) = plan s.(ss_request)
  | Holding => s.(ss_waiting) = None ∧ map step_of (rev s.(ss_held)) = plan s.(ss_request)
  | Releasing => s.(ss_waiting) = None ∧ s.(ss_held) ≠ []
                 ∧ ∀ g, g ∈ s.(ss_held) → step_of g ∈ plan s.(ss_request)
  end.

Definition is_granted (w : World) (g : Grant) : Prop := granted (gate_of w g.(gr_slot)) g.(gr_id) g.(gr_mode).
Definition is_waiting (w : World) (g : Grant) : Prop := queued (gate_of w g.(gr_slot)) g.(gr_id) g.(gr_mode).
Definition signalled (w : World) (g : Grant) : Prop := g.(gr_id) ∈ w.(wo_gates).(gm_signalled).

(** A session's grants are in the gates. *)
Record backed (w : World) (s : Session) : Prop := {
  ba_held g : g ∈ s.(ss_held) → is_granted w g;
  ba_waiting g : s.(ss_waiting) = Some g →
    is_granted w g ∧ signalled w g ∨ is_waiting w g ∧ ¬ signalled w g
}.

Definition owner (w : World) (sid : nat) (g : Grant) : Prop :=
  ∃ s, w.(wo_sessions) !! sid = Some s ∧ g ∈ claims s.

Record Inv (w : World) : Prop := {
  inv_gates : gates_wf w.(wo_gates);
  inv_next g : is_granted w g ∨ is_waiting w g → g.(gr_id) < w.(wo_next);
  inv_signalled id : id ∈ w.(wo_gates).(gm_signalled) → id < w.(wo_next);
  inv_backed sid s : w.(wo_sessions) !! sid = Some s → backed w s ∧ on_plan s ∧ NoDup (map gr_id (claims s));
  inv_owned g : is_granted w g ∨ is_waiting w g → ∃ sid, owner w sid g;
  inv_unique sid sid' g g' : owner w sid g → owner w sid' g' → g.(gr_id) = g'.(gr_id) → sid = sid' ∧ g = g'
}.

Lemma inv_new : Inv world_new.
Proof.
  assert (∀ g, ¬ (is_granted world_new g ∨ is_waiting world_new g)) as Hno.
  { intros g. unfold is_granted, is_waiting. change (gate_of world_new (gr_slot g)) with gate_new.
    intros [Hg|(e & He & _)]; [|by apply elem_of_nil in He]. destruct (gr_mode g); by apply elem_of_nil in Hg. }
  split.
  - by intros slot gate.
  - intros g Hg. by destruct (Hno g).
  - intros id Hid. by apply elem_of_empty in Hid.
  - by intros sid s.
  - intros g Hg. by destruct (Hno g).
  - by intros sid sid' g g' (s & Hs & _).
Qed.

(** ** Sessions that change nothing at the gates *)

Lemma backed_same w w' s : w'.(wo_gates) = w.(wo_gates) → backed w s → backed w' s.
Proof.
  intros E [H1 H2]. split; unfold is_granted, is_waiting, signalled, gate_of in *; by rewrite E.
Qed.

Lemma owner_put w sid s sid' g :
  owner (put sid s w) sid' g ↔ (sid' = sid ∧ g ∈ claims s) ∨ (sid' ≠ sid ∧ owner w sid' g).
Proof.
  unfold owner. simpl. destruct (decide (sid' = sid)) as [->|Hne].
  - rewrite lookup_insert_eq. naive_solver.
  - rewrite lookup_insert_ne by done. naive_solver.
Qed.
Lemma owner_delete w sid sid' g :
  owner (with_sessions (delete sid) w) sid' g ↔ sid' ≠ sid ∧ owner w sid' g.
Proof.
  unfold owner. simpl. destruct (decide (sid' = sid)) as [->|Hne].
  - rewrite lookup_delete_eq. naive_solver.
  - rewrite lookup_delete_ne by done. naive_solver.
Qed.

Lemma inv_put w sid s0 s : Inv w → w.(wo_sessions) !! sid = Some s0 →
  claims s = claims s0 → backed w s → on_plan s → Inv (put sid s w).
Proof.
  intros Hw Hs0 Hc Hb Hp. assert (∀ sid' g, owner (put sid s w) sid' g ↔ owner w sid' g) as Ho.
  { intros sid' g. rewrite owner_put, Hc. destruct (decide (sid' = sid)) as [->|]; [|naive_solver].
    split; [intros [[_ Hg]|[]]; [by exists s0|done]|]. intros (s' & Hs' & Hg). left. split; [done|]. by simplify_eq. }
  destruct Hw as [H1 H2 H3 H4 H5 H6]. split; [done..| | |].
  - intros sid' s'. simpl. rewrite lookup_insert_Some. intros [[<- <-]|[_ Hs']].
    2:{ destruct (H4 sid' s' Hs') as [? ?]. split; [by apply (backed_same w)|done]. }
    split; [by apply (backed_same w)|]. split; [done|]. rewrite Hc. by apply (H4 sid s0).
  - intros g Hg. destruct (H5 g Hg) as [sid' Hs']. exists sid'. by apply Ho.
  - intros sid1 sid2 g1 g2 Hg1 Hg2. apply H6; by apply Ho.
Qed.

(** A session without claims comes or goes. *)
Lemma inv_arrive w sid s : Inv w → w.(wo_sessions) !! sid = None → claims s = [] → on_plan s → Inv (put sid s w).
Proof.
  intros Hw Hs0 Hc Hp. assert (∀ sid' g, owner (put sid s w) sid' g ↔ owner w sid' g) as Ho.
  { intros sid' g. rewrite owner_put, Hc. destruct (decide (sid' = sid)) as [->|]; [|naive_solver].
    split; [intros [[_ ?%elem_of_nil]|[]]; done|]. intros (s' & Hs' & _). congruence. }
  destruct Hw as [H1 H2 H3 H4 H5 H6]. split; [done..| | |].
  - intros sid' s'. simpl. rewrite lookup_insert_Some. intros [[<- <-]|[_ Hs']].
    2:{ destruct (H4 sid' s' Hs') as [? ?]. split; [by apply (backed_same w)|done]. }
    unfold claims in Hc. apply app_eq_nil in Hc as [Hwait Hheld]. split; [|split; [done|]].
    + split; [rewrite Hheld; by intros g ?%elem_of_nil|]. intros g E. by rewrite E in Hwait.
    + unfold claims. rewrite Hwait, Hheld. constructor.
  - intros g Hg. destruct (H5 g Hg) as [sid' Hs']. exists sid'. by apply Ho.
  - intros sid1 sid2 g1 g2 Hg1 Hg2. apply H6; by apply Ho.
Qed.
Lemma inv_leave w sid s : Inv w → w.(wo_sessions) !! sid = Some s → claims s = [] →
  Inv (with_sessions (delete sid) w).
Proof.
  intros Hw Hs Hc. assert (∀ sid' g, owner (with_sessions (delete sid) w) sid' g ↔ owner w sid' g) as Ho.
  { intros sid' g. rewrite owner_delete. split; [by intros []|]. intros Hg. split; [|done]. intros ->.
    destruct Hg as (s' & Hs' & Hg). simplify_eq. rewrite Hc in Hg. by apply elem_of_nil in Hg. }
  destruct Hw as [H1 H2 H3 H4 H5 H6]. split; [done..| | |].
  - intros sid' s'. simpl. rewrite lookup_delete_Some. intros [_ Hs'].
    destruct (H4 sid' s' Hs') as [? ?]. split; [by apply (backed_same w)|done].
  - intros g Hg. destruct (H5 g Hg) as [sid' Hs']. exists sid'. by apply Ho.
  - intros sid1 sid2 g1 g2 Hg1 Hg2. apply H6; by apply Ho.
Qed.

(** ** Asking a gate *)

Lemma grant_eta slot mode id g : g = mkGrant slot mode id ↔ g.(gr_slot) = slot ∧ g.(gr_mode) = mode ∧ g.(gr_id) = id.
Proof. destruct g; simpl. naive_solver. Qed.

Lemma acquired_effect w w' slot mode id state :
  acquired id slot mode w.(wo_gates) state w'.(wo_gates) →
  (∀ g, is_granted w' g ↔ is_granted w g ∨ state = Granted ∧ g = mkGrant slot mode id)
  ∧ (∀ g, is_waiting w' g ↔ is_waiting w g ∨ state ≠ Granted ∧ g = mkGrant slot mode id)
  ∧ ∀ g, signalled w' g ↔ signalled w g.
Proof.
  intros [_ Ho Hs Hst]. unfold signalled. rewrite Hs. split_and!; [..|done]; intros g; rewrite grant_eta;
    unfold is_granted, is_waiting, gate_of; (destruct (decide (gr_slot g = slot)) as [->|Hne];
      [|rewrite Ho by done; naive_solver]); destruct state.
  - destruct Hst as (_ & _ & ->). naive_solver.
  - destruct Hst as (-> & _). naive_solver.
  - destruct Hst as (H1 & H2 & _). unfold queued. rewrite H1, H2. naive_solver.
  - destruct Hst as (_ & holder & Hq). unfold queued. rewrite Hq. setoid_rewrite elem_of_app.
    setoid_rewrite list_elem_of_singleton. split; [|naive_solver].
    intros (e & [He| ->] & H1 & H2); [left; naive_solver|right; naive_solver].
Qed.

Lemma backed_more w w' s :
  (∀ g, is_granted w g → is_granted w' g) → (∀ g, is_waiting w g → is_waiting w' g) →
  (∀ g, signalled w' g ↔ signalled w g) → backed w s → backed w' s.
Proof.
  intros Hg Hw Hs [H1 H2]. split; [auto|]. intros g E. rewrite Hs. destruct (H2 g E) as [[]|[]]; auto.
Qed.

(** Claims are older than the next id. *)
Lemma owner_present w sid g : Inv w → owner w sid g → is_granted w g ∨ is_waiting w g.
Proof.
  intros Hw (s & Hs & Hg). destruct (inv_backed _ Hw sid s Hs) as ([B1 B2] & _).
  unfold claims in Hg. apply elem_of_app in Hg as [Hg|Hg]; [|left; by apply B1].
  destruct (ss_waiting s) as [g'|]; [|by apply elem_of_nil in Hg]. apply list_elem_of_singleton in Hg as ->.
  destruct (B2 g' eq_refl) as [[]|[]]; auto.
Qed.
Lemma owner_next w sid g : Inv w → owner w sid g → g.(gr_id) < w.(wo_next).
Proof. intros Hw Hg. by eapply inv_next, owner_present. Qed.

(** The owners once a session has one claim more. *)
Lemma owner_more w w' sid s s' g : w.(wo_sessions) !! sid = Some s → claims s' = g :: claims s →
  w'.(wo_sessions) = <[sid := s']> w.(wo_sessions) →
  ∀ sid' h, owner w' sid' h ↔ owner w sid' h ∨ sid' = sid ∧ h = g.
Proof.
  intros Hs Hc Ew sid' h. unfold owner. rewrite Ew. destruct (decide (sid' = sid)) as [->|Hne].
  - rewrite lookup_insert_eq, Hs. setoid_rewrite (inj_iff Some). split.
    + intros (x & <- & Hx). rewrite Hc, elem_of_cons in Hx. naive_solver.
    + intros [(x & <- & Hx)|[_ ->]]; exists s'; rewrite Hc, elem_of_cons; auto.
  - rewrite lookup_insert_ne by done. naive_solver.
Qed.

Lemma inv_ask w w' sid s :
  Inv w → w.(wo_sessions) !! sid = Some s → ask_gate sid s w = Some w' → Inv w'.
Proof.
  intros Hw Hs E. pose proof (inv_backed _ Hw sid s Hs) as (Hb & Hp & Hn).
  unfold ask_gate in E. destruct (ss_stage s) eqn:Hst; try done.
  destruct (ss_waiting s) eqn:Hwait; [done|]. destruct (ss_todo s) as [|[slot mode] todo] eqn:Htodo; [done|].
  set (id := wo_next w) in *. pose proof (try_acquire_spec id slot mode (ss_holder s) (wo_gates w) (inv_gates _ Hw)) as Ha.
  destruct (try_acquire _ _ _ _ _) as [state gates] eqn:Eta. cbn [fst snd] in Ha.
  set (g := mkGrant slot mode id) in *.
  set (s' := mkSession s.(ss_request) s.(ss_holder) Acquiring todo
               (match state with Granted => None | Queued _ => Some g end)
               (match state with Granted => g :: s.(ss_held) | Queued _ => s.(ss_held) end)).
  assert (w' = mkWorld (S id) gates (<[sid := s']> w.(wo_sessions)) w.(wo_quarantined)) as Ew.
  { destruct state; injection E as <-; unfold s'; rewrite ?Hst; done. }
  assert (wo_gates w' = gates) as Eg by by rewrite Ew.
  assert (acquired id slot mode (wo_gates w) state (wo_gates w')) as Hacq.
  { rewrite Eg. apply Ha. intros i [Hi|Hi].
    - apply grant_ids_granted in Hi as [md Hi]. exact (inv_next _ Hw (mkGrant slot md i) (or_introl Hi)).
    - apply queue_ids_elem in Hi as [md Hi]. exact (inv_next _ Hw (mkGrant slot md i) (or_intror Hi)). }
  destruct (acquired_effect w w' _ _ _ _ Hacq) as (Hgr & Hwt & Hsg).
  assert (claims s = s.(ss_held)) as Hcl by (unfold claims; by rewrite Hwait).
  assert (claims s' = g :: claims s) as Hc' by (rewrite Hcl; unfold claims, s'; by destruct state).
  assert (∀ sid' h, owner w' sid' h ↔ owner w sid' h ∨ sid' = sid ∧ h = g) as Hown.
  { apply (owner_more _ _ _ s s' g); [done|done|by rewrite Ew]. }
  assert (¬ signalled w g) as Hns by (intros Hin%(inv_signalled _ Hw); unfold g, id in Hin; simpl in Hin; lia).
  split.
  - apply Hacq.
  - intros h. rewrite Hgr, Hwt, Ew. simpl. intros Hh.
    assert (h = g ∨ is_granted w h ∨ is_waiting w h) as [->|Hh'] by tauto; [simpl; lia|].
    pose proof (inv_next _ Hw h Hh'). lia.
  - intros i Hi. rewrite (ac_signalled _ _ _ _ _ _ Hacq) in Hi. apply (inv_signalled _ Hw) in Hi.
    rewrite Ew. simpl. lia.
  - intros sid' x Hx. rewrite Ew in Hx. simpl in Hx. apply lookup_insert_Some in Hx as [[<- <-]|[_ Hx]].
    + split_and!.
      * destruct Hb as [B1 B2]. split.
        -- intros h Hh. rewrite Hgr. destruct state; simpl in Hh; [apply elem_of_cons in Hh as [->|Hh]|]; auto.
        -- intros h Hh. rewrite Hgr, Hwt, Hsg. destruct state; [done|]. injection Hh as <-. right. auto.
      * unfold on_plan in *. simpl. rewrite Hst in Hp. rewrite Hc'. simpl. rewrite map_app, <-app_assoc. simpl.
        by rewrite <-Hp, Htodo.
      * rewrite Hc'. simpl. apply NoDup_cons. split; [|done]. intros (h & Eh & Hh)%list_elem_of_fmap.
        assert (gr_id h < id) by (apply (owner_next w sid); [done|by exists s]). unfold g in Eh. simpl in Eh. lia.
    + destruct (inv_backed _ Hw sid' x Hx) as (Bx & ? & ?). split; [|done].
      apply (backed_more w); [intros h; rewrite Hgr; auto|intros h; rewrite Hwt; auto|done|done].
  - intros h. rewrite Hgr, Hwt. setoid_rewrite Hown. intros Hh.
    assert (h = g ∨ is_granted w h ∨ is_waiting w h) as [->|Hh'] by tauto; [exists sid; auto|].
    destruct (inv_owned _ Hw h Hh') as [sid' ?]. exists sid'. auto.
  - intros sid1 sid2 g1 g2. rewrite !Hown. intros [H1|[-> ->]] [H2|[-> ->]] Hid; [by eapply inv_unique| | |done].
    + apply (owner_next _ _ _ Hw) in H1. unfold g in Hid. simpl in Hid. lia.
    + apply (owner_next _ _ _ Hw) in H2. unfold g in Hid. simpl in Hid. lia.
Qed.

(** ** Leaving a gate *)

(** What a departure does, seen through the grants of the world. *)
Record departs (w w' : World) (g : Grant) : Prop := {
  dp_gates : gates_wf w'.(wo_gates);
  dp_left h : is_granted w' h ∨ is_waiting w' h → h ≠ g ∧ (is_granted w h ∨ is_waiting w h);
  dp_granted h : is_granted w h → h ≠ g → is_granted w' h;
  dp_waiting h : is_waiting w h → h ≠ g → ¬ signalled w h →
    is_granted w' h ∧ signalled w' h ∨ is_waiting w' h ∧ ¬ signalled w' h;
  dp_signalled h : signalled w h → signalled w' h;
  dp_old id : id ∈ w'.(wo_gates).(gm_signalled) → id < w.(wo_next)
}.

Lemma departed_effect w w' sid g f sg :
  Inv w → owner w sid g →
  (∀ gate, gate_wf gate → gate_wf (f gate)) →
  (∀ i md, granted (f (gate_of w g.(gr_slot))) i md ↔ granted (gate_of w g.(gr_slot)) i md ∧ i ≠ g.(gr_id)) →
  (∀ i md, queued (f (gate_of w g.(gr_slot))) i md ↔ queued (gate_of w g.(gr_slot)) i md ∧ i ≠ g.(gr_id)) →
  departed g.(gr_slot) f w.(wo_gates) w'.(wo_gates) sg → departs w w' g.
Proof.
  intros Hw Hg Hf Hgr Hq [Hwf Ho Hs [Hpwf _ (moved & Em & -> & Hpg)]].
  set (slot := gr_slot g) in *. fold (gate_of w slot) in *. fold (gate_of w' slot) in *.
  assert (∀ h, is_granted w h ∨ is_waiting w h → h ≠ g → h.(gr_id) ≠ g.(gr_id)) as Hne.
  { intros h [sid' Hh]%(inv_owned _ Hw) Hh' E. apply Hh'. by eapply inv_unique. }
  assert (∀ i md, queued (f (gate_of w slot)) i md ↔
    (∃ e, e ∈ moved ∧ e.(en_id) = i ∧ e.(en_mode) = md) ∨ queued (gate_of w' slot) i md) as Hsplit.
  { intros i md. unfold queued. rewrite Em. setoid_rewrite elem_of_app. naive_solver. }
  assert (∀ e, e ∈ moved → is_waiting w (mkGrant slot e.(en_mode) e.(en_id))) as Hmoved.
  { intros e He. apply (Hq e.(en_id) e.(en_mode)), Hsplit. left. by exists e. }
  assert (∀ id, id ∈ w'.(wo_gates).(gm_signalled) ↔
    (∃ e, e ∈ moved ∧ e.(en_id) = id) ∨ id ∈ w.(wo_gates).(gm_signalled)) as Hsig.
  { intros id. rewrite Hs, elem_of_union, elem_of_list_to_set. change (map en_id moved) with (en_id <$> moved).
    rewrite list_elem_of_fmap. naive_solver. }
  split; [done|..].
  - intros h. unfold is_granted, is_waiting. destruct (decide (gr_slot h = slot)) as [E|E].
    + rewrite E. rewrite Hpg, Hgr. intros Hh. assert (granted (gate_of w slot) h.(gr_id) h.(gr_mode) ∧ h.(gr_id) ≠ g.(gr_id)
        ∨ queued (f (gate_of w slot)) h.(gr_id) h.(gr_mode)) as [[Hh' Hid]|Hh'] by (rewrite Hsplit; tauto).
      * split; [by intros ->|by left].
      * apply Hq in Hh' as [Hh' Hid]. split; [by intros ->|by right].
    + unfold gate_of. rewrite Ho by done. intros Hh. split; [by intros ->|done].
  - intros h Hh Hhg. pose proof (Hne h (or_introl Hh) Hhg) as Hid. revert Hh. unfold is_granted.
    destruct (decide (gr_slot h = slot)) as [E|E]; [|unfold gate_of; by rewrite Ho].
    rewrite E, Hpg, Hgr. auto.
  - intros h Hh Hhg Hns. pose proof (Hne h (or_intror Hh) Hhg) as Hid. unfold signalled in *.
    destruct (decide (gr_slot h = slot)) as [E|E].
    + unfold is_waiting in Hh. rewrite E in Hh. assert (queued (f (gate_of w slot)) h.(gr_id) h.(gr_mode)) as Hh' by by apply Hq.
      apply Hsplit in Hh' as [(e & He & Hei & Hem)|Hh'].
      * left. split; [unfold is_granted; rewrite E, Hpg; right; by exists e|]. apply Hsig. left. by exists e.
      * right. split; [unfold is_waiting; by rewrite E|]. rewrite Hsig. intros [(e & He & Hei)|]; [|done].
        assert (StronglySorted lt (queue_ids (f (gate_of w slot)))) as Hss.
        { apply Hf, gates_wf_at, Hw. }
        unfold queue_ids in Hss. rewrite Em, map_app in Hss.
        assert (en_id e < gr_id h); [|lia].
        eapply StronglySorted_app_1_elem_of; [exact Hss|by apply list_elem_of_fmap_2|by eapply queued_ids].
    + right. split; [unfold is_waiting, gate_of in *; by rewrite Ho|]. rewrite Hsig. intros [(e & He & Hei)|]; [|done].
      apply E. pose proof (Hmoved e He) as He'. destruct (inv_owned _ Hw _ (or_intror He')) as [s1 H1].
      destruct (inv_owned _ Hw _ (or_intror Hh)) as [s2 H2].
      destruct (inv_unique _ Hw _ _ _ _ H1 H2 Hei) as [_ <-]. done.
  - intros h. unfold signalled. rewrite Hsig. auto.
  - intros id. rewrite Hsig. intros [(e & He & <-)|]; [|by apply Hw].
    exact (inv_next _ Hw _ (or_intror (Hmoved e He))).
Qed.

Lemma granted_not_queued w g : Inv w → is_granted w g → g.(gr_id) ∉ queue_ids (gate_of w g.(gr_slot)).
Proof.
  intros Hw Hg Hq. pose proof (gw_order _ (proj1 (gates_wf_at _ g.(gr_slot) (inv_gates _ Hw))) _ _ (granted_ids _ _ _ Hg) Hq). lia.
Qed.

Lemma departs_release w sid g : Inv w → owner w sid g → is_granted w g →
  departs w (with_gates (release g.(gr_slot) g.(gr_id)) w) g.
Proof.
  intros Hw Ho Hg. destruct (release_spec g.(gr_slot) g.(gr_id) _ (inv_gates _ Hw)) as [sg Hd].
  eapply (departed_effect w _ sid g (remove_grant g.(gr_id))); [done|done|apply remove_grant_wf|..|exact Hd].
  - intros i md. apply remove_grant_granted, gates_wf_at, Hw.
  - intros i md. change (queued (remove_grant _ ?gate) i md) with (queued gate i md).
    split; [|by intros []]. intros Hi. split; [done|]. intros ->. eapply granted_not_queued; [done..|]. by eapply queued_ids.
Qed.
Lemma departs_reclaim w sid g : Inv w → owner w sid g →
  departs w (with_gates (reclaim g.(gr_slot) g.(gr_id)) w) g.
Proof.
  intros Hw Ho. destruct (reclaim_spec g.(gr_slot) g.(gr_id) _ (inv_gates _ Hw)) as [sg Hd].
  eapply (departed_effect w _ sid g (withdraw g.(gr_id))); [done|done|..|exact Hd].
  - intros gate Hgate. unfold withdraw. destruct (is_queued _ _); [by apply remove_entry_wf|by apply remove_grant_wf].
  - intros i md. apply withdraw_granted, gates_wf_at, Hw.
  - intros i md. apply withdraw_queued, gates_wf_at, Hw.
Qed.

Lemma owner_releasing w sid s held sid' h :
  owner (put_releasing sid s held w) sid' h ↔ (sid' = sid ∧ h ∈ held) ∨ (sid' ≠ sid ∧ owner w sid' h).
Proof.
  unfold put_releasing. destruct held as [|g held].
  - rewrite owner_delete, elem_of_nil. tauto.
  - by rewrite owner_put.
Qed.

Lemma on_plan_claims s g : on_plan s → g ∈ claims s → step_of g ∈ plan s.(ss_request).
Proof.
  assert (∀ gs rest p, map step_of (rev gs) ++ rest = p → g ∈ gs → step_of g ∈ p) as Hrev.
  { intros gs rest p <- Hg. apply elem_of_app. left. apply list_elem_of_fmap_2. by rewrite list_elem_of_In, <-in_rev, <-list_elem_of_In. }
  unfold on_plan. destruct (ss_stage s).
  - intros ->. by intros ?%elem_of_nil.
  - intros Hp Hg. by eapply Hrev.
  - unfold claims. intros [-> Hp]. simpl. apply (Hrev _ []). by rewrite app_nil_r.
  - unfold claims. intros (-> & _ & Hp). simpl. auto.
Qed.

Lemma backed_departs w w' g s : departs w w' g → g ∉ claims s → backed w s → backed w' s.
Proof.
  intros Hd Hg [B1 B2]. unfold claims in Hg. apply not_elem_of_app in Hg as [Hg1 Hg2]. split.
  - intros h Hh. apply (dp_granted _ _ _ Hd); [auto|]. by intros ->.
  - intros h E. assert (h ≠ g) as Hne by (intros ->; apply Hg1; rewrite E; left).
    destruct (B2 h E) as [[H1 H2]|[H1 H2]]; [|by apply (dp_waiting _ _ _ Hd)].
    left. split; [by apply (dp_granted _ _ _ Hd)|by apply (dp_signalled _ _ _ Hd)].
Qed.

(** A session that loses one claim and keeps the others to give back. *)
Lemma inv_depart w w' sid s g held :
  Inv w → w.(wo_sessions) !! sid = Some s → g ∈ claims s → departs w w' g →
  w'.(wo_next) = w.(wo_next) → w'.(wo_sessions) = w.(wo_sessions) →
  NoDup (map gr_id held) → (∀ h, h ∈ held ↔ h ∈ claims s ∧ h ≠ g) → (∀ h, h ∈ held → is_granted w h) →
  Inv (put_releasing sid s held w').
Proof.
  intros Hw Hs Hg Hd En Es Hn Hheld Hgr.
  assert (wo_gates (put_releasing sid s held w') = wo_gates w') as Eg by by destruct held.
  assert (wo_next (put_releasing sid s held w') = wo_next w') as En' by by destruct held.
  assert (∀ sid' h, owner w' sid' h ↔ owner w sid' h) as Ho' by (intros; unfold owner; by rewrite Es).
  assert (∀ sid' h, owner (put_releasing sid s held w') sid' h → owner w sid' h ∧ h ≠ g) as Hsub.
  { intros sid' h. rewrite owner_releasing, Ho'. intros [[-> Hh]|[Hne Hh]].
    - apply Hheld in Hh as [Hh ?]. split; [by exists s|done].
    - split; [done|]. intros ->. apply Hne. apply (inv_unique _ Hw _ _ g g); [done|by exists s|done]. }
  assert (∀ h, is_granted (put_releasing sid s held w') h ↔ is_granted w' h) as Egr
    by (intros; unfold is_granted, gate_of; by rewrite Eg).
  assert (∀ h, is_waiting (put_releasing sid s held w') h ↔ is_waiting w' h) as Ewt
    by (intros; unfold is_waiting, gate_of; by rewrite Eg).
  split.
  - rewrite Eg. apply Hd.
  - intros h. rewrite Egr, Ewt, En', En. intros [_ Hh]%(dp_left _ _ _ Hd). by apply (inv_next _ Hw).
  - intros id. rewrite Eg, En', En. apply Hd.
  - assert (∀ s', backed w' s' → backed (put_releasing sid s held w') s') as Hsame by (intros s'; by apply backed_same).
    assert (∀ sid' s', wo_sessions (put_releasing sid s held w') !! sid' = Some s' →
      sid' = sid ∧ s' = releasing s held ∧ held ≠ [] ∨ sid' ≠ sid ∧ wo_sessions w !! sid' = Some s') as Hlook.
    { intros sid' s'. unfold put_releasing. destruct held as [|h held]; simpl; rewrite Es.
      - rewrite lookup_delete_Some. naive_solver.
      - rewrite lookup_insert_Some. naive_solver. }
    intros sid' s' [(-> & -> & Hne)|[Hne Hs']]%Hlook.
    + split_and!; [apply Hsame; split; [|done]|split_and!; [done|done|]|done].
      * intros h Hh. apply (dp_granted _ _ _ Hd); [by apply Hgr|]. by apply Hheld in Hh as [].
      * intros h Hh. apply (on_plan_claims s); [by destruct (inv_backed _ Hw sid s Hs) as (_ & ? & _)|]. by apply Hheld in Hh as [].
    + destruct (inv_backed _ Hw sid' s' Hs') as (Hb & ? & ?). split; [|done]. apply Hsame.
      eapply backed_departs; [done| |done]. intros Hg'. apply Hne. apply (inv_unique _ Hw _ _ g g); [by exists s'|by exists s|done].
  - intros h. rewrite Egr, Ewt. intros [Hhg Hh]%(dp_left _ _ _ Hd). destruct (inv_owned _ Hw h Hh) as [sid' Hown].
    exists sid'. rewrite owner_releasing, Ho'. destruct (decide (sid' = sid)) as [->|]; [|by right]. left. split; [done|].
    apply Hheld. destruct Hown as (s1 & Hs1 & Hh1). by simplify_eq.
  - intros sid1 sid2 g1 g2 [H1 _]%Hsub [H2 _]%Hsub. by apply (inv_unique _ Hw).
Qed.

(** A session that starts giving back all it has. *)
Lemma inv_releasing w sid s : Inv w → w.(wo_sessions) !! sid = Some s → s.(ss_waiting) = None →
  Inv (put_releasing sid s s.(ss_held) w).
Proof.
  intros Hw Hs Ew. assert (claims s = ss_held s) as Hc by (unfold claims; by rewrite Ew).
  destruct (inv_backed _ Hw sid s Hs) as ([B1 _] & Hp & _).
  unfold put_releasing. destruct (ss_held s) as [|g held] eqn:E; [by eapply inv_leave|]. rewrite <-E in *.
  eapply inv_put; [done|done|by rewrite Hc|by split|]. split_and!; [done|simpl; by rewrite E|].
  intros h Hh. apply (on_plan_claims s); [done|]. by rewrite Hc.
Qed.

(** A waiting session that leaves the queue. *)
Lemma inv_reclaim w sid s g : Inv w → w.(wo_sessions) !! sid = Some s → s.(ss_waiting) = Some g →
  Inv (put_releasing sid s s.(ss_held) (with_gates (reclaim g.(gr_slot) g.(gr_id)) w)).
Proof.
  intros Hw Hs E. destruct (inv_backed _ Hw sid s Hs) as ([B1 _] & _ & Hn).
  unfold claims in Hn. rewrite E in Hn. simpl in Hn. apply NoDup_cons in Hn as [Hni Hn].
  assert (g ∈ claims s) as Hg by (unfold claims; rewrite E; left).
  eapply (inv_depart w _ sid s g); [done|done|done|apply (departs_reclaim w sid); [done|by exists s]|done|done|done| |done].
  intros h. unfold claims. rewrite E. simpl. rewrite elem_of_cons. split; [|naive_solver].
  intros Hh. split; [by right|]. intros ->. apply Hni. by apply list_elem_of_fmap_2.
Qed.

(** One grant given back. *)
Lemma inv_release_one w sid s i g : Inv w → w.(wo_sessions) !! sid = Some s → s.(ss_waiting) = None →
  s.(ss_held) !! i = Some g →
  Inv (put_releasing sid s (delete i s.(ss_held)) (with_gates (release g.(gr_slot) g.(gr_id)) w)).
Proof.
  intros Hw Hs Ew Hi. assert (claims s = ss_held s) as Hc by (unfold claims; by rewrite Ew).
  destruct (inv_backed _ Hw sid s Hs) as ([B1 _] & _ & Hn). pose proof (list_elem_of_lookup_2 _ _ _ Hi) as Hg.
  pose proof (delete_Permutation _ _ _ Hi) as Hperm. rewrite Hc in Hn.
  assert (NoDup (map gr_id (g :: delete i (ss_held s)))) as Hn'.
  { by rewrite <-(Permutation_map gr_id Hperm). }
  simpl in Hn'. apply NoDup_cons in Hn' as [Hni Hn'].
  assert (∀ h, h ∈ delete i (ss_held s) ↔ h ∈ ss_held s ∧ h ≠ g) as Hd.
  { intros h. rewrite Hperm at 2. rewrite elem_of_cons. split; [|naive_solver].
    intros Hh. split; [by right|]. intros ->. apply Hni. by apply list_elem_of_fmap_2. }
  eapply (inv_depart w _ sid s g); [done|done|by rewrite Hc|..|done|done|done|intros h; by rewrite Hc|].
  - apply (departs_release w sid); [done|exists s; by rewrite Hc|auto].
  - intros h [Hh _]%Hd. auto.
Qed.

(** The waiter has its grant. *)
Lemma inv_accepted w sid s g : Inv w → w.(wo_sessions) !! sid = Some s → s.(ss_waiting) = Some g →
  is_granted w g → Inv (put sid (accepted s g) w).
Proof.
  intros Hw Hs E Hg. destruct (inv_backed _ Hw sid s Hs) as ([B1 _] & Hp & _).
  assert (claims (accepted s g) = claims s) as Hc by (unfold claims; by rewrite E).
  eapply inv_put; [done|done|done| |].
  - split; [|done]. intros h [->|Hh]%elem_of_cons; auto.
  - unfold on_plan in *. cbn [ss_stage accepted ss_todo ss_request]. destruct (ss_stage s).
    + by rewrite Hc.
    + by rewrite Hc.
    + by destruct Hp; simplify_eq.
    + by destruct Hp; simplify_eq.
Qed.
Lemma signalled_granted w sid s g : Inv w → w.(wo_sessions) !! sid = Some s → s.(ss_waiting) = Some g →
  signalled w g → is_granted w g.
Proof. intros Hw Hs E Hg. destruct (inv_backed _ Hw sid s Hs) as ([_ B] & _). by destruct (B g E) as [[]|[]]. Qed.
Lemma found_granted w sid s g : Inv w → w.(wo_sessions) !! sid = Some s → s.(ss_waiting) = Some g →
  was_granted g.(gr_slot) g.(gr_id) w.(wo_gates) = true → is_granted w g.
Proof.
  intros Hw Hs E Hg. destruct (inv_backed _ Hw sid s Hs) as ([_ B] & _). destruct (B g E) as [[]|[Hq _]]; [done|].
  apply queued_ids, is_queued_ids in Hq. unfold was_granted in Hg. unfold gate_of, gate_at in Hq.
  destruct (gm_gates (wo_gates w) !! gr_slot g); [|done]. simpl in Hq. by rewrite Hq in Hg.
Qed.

(** ** Every step *)

Lemma inv_move w w' sid s m : Inv w → w.(wo_sessions) !! sid = Some s → move m sid s w = Some w' → Inv w'.
Proof.
  intros Hw Hs. destruct (inv_backed _ Hw sid s Hs) as (Hb & Hp & _). destruct m; cbn [move].
  - unfold await_clear. destruct (ss_stage s) eqn:Hst; try done. case_bool_decide; [done|]. intros [= <-].
    unfold on_plan in Hp. rewrite Hst in Hp.
    eapply inv_put; [done|done|by rewrite Hp|by split; [intros g ?%elem_of_nil|]|done].
  - unfold turn_away. destruct (ss_stage s) eqn:Hst; try done. intros [= <-]. eapply inv_leave; [done|done|].
    unfold on_plan in Hp. by rewrite Hst in Hp.
  - by apply inv_ask.
  - unfold accept. destruct (ss_waiting s) as [g|] eqn:E; [|done]. case_bool_decide; [|done]. intros [= <-].
    apply inv_accepted; [done..|]. by eapply signalled_granted.
  - unfold cancel_wait. destruct (ss_waiting s) as [g|] eqn:E; [|done]. destruct (was_granted _ _ _) eqn:Ewg; intros [= <-].
    + apply inv_accepted; [done..|]. by eapply found_granted.
    + by apply inv_reclaim.
  - unfold drop_session. intros E. destruct (ss_stage s) eqn:Hst; try done; injection E as <-;
      (destruct (ss_waiting s) as [g|] eqn:Ew; [by apply inv_reclaim|by apply inv_releasing]).
  - unfold check_quarantine. destruct (ss_stage s) eqn:Hst; try done. destruct (ss_waiting s) eqn:Ew; [done|].
    destruct (ss_todo s) eqn:Et; [|done]. case_bool_decide; intros [= <-]; [by apply inv_releasing|].
    assert (claims s = ss_held s) as Hc by (unfold claims; by rewrite Ew).
    unfold on_plan in Hp. rewrite Hst, Et, app_nil_r, Hc in Hp.
    eapply inv_put; [done|done|by rewrite Hc| |by split]. destruct Hb. by split.
  - unfold start_release. destruct (ss_stage s) eqn:Hst; try done. intros [= <-]. apply inv_releasing; [done..|].
    unfold on_plan in Hp. rewrite Hst in Hp. apply Hp.
  - unfold release_one. destruct (ss_stage s) eqn:Hst; try done. destruct (ss_held s !! i) as [g|] eqn:Ei; [|done].
    intros [= <-]. apply inv_release_one; [done|done| |done]. unfold on_plan in Hp. rewrite Hst in Hp. apply Hp.
Qed.

Lemma inv_marks w marks : Inv w → Inv (mkWorld w.(wo_next) w.(wo_gates) w.(wo_sessions) marks).
Proof.
  intros [H1 H2 H3 H4 H5 H6]. split; [done..| |done|done].
  intros sid s Hs. destruct (H4 sid s Hs) as [? ?]. split; [by apply (backed_same w)|done].
Qed.

Lemma inv_perform l w w' : Inv w → perform l w = Some w' → Inv w'.
Proof.
  intros Hw. destruct l as [sid r holder|sid m|root|root]; cbn [perform].
  - unfold call_acquire. destruct (wo_sessions w !! sid) eqn:E; [done|]. intros [= <-]. by apply inv_arrive.
  - destruct (wo_sessions w !! sid) as [s|] eqn:Hs; [|done]. by apply inv_move.
  - intros [= <-]. by apply inv_marks.
  - intros [= <-]. by apply inv_marks.
Qed.
Lemma inv_perform_all ls w w' : Inv w → perform_all ls w = Some w' → Inv w'.
Proof.
  revert w. induction ls as [|l ls IH]; intros w Hw; cbn [perform_all]; [by intros [= <-]|].
  destruct (perform l w) as [w1|] eqn:E; [|done]. apply IH. by eapply inv_perform.
Qed.
Lemma attained_inv w : attained w → Inv w.
Proof. intros [ls E]. eapply inv_perform_all; [apply inv_new|exact E]. Qed.
