(* ===== verification/LeaseSafety.v ===== *)
(** * What holding a lease means

    Leases that conflict are never held together, a waiting request is not
    overtaken at its gate, and nobody is handed a lease over a quarantine
    published under the workspace's own lease. *)

From S2P Require Export CoordinatorLaws.

(** Whether two leases may not be held together. *)
Definition conflict (r1 r2 : LeaseRequest) : Prop :=
  match r1, r2 with
  | FileLease _ path1, FileLease _ path2 => path1 = path2
  | _, _ => root_of r1 = root_of r2
  end.

Definition holds (w : World) (sid : nat) (r : LeaseRequest) : Prop :=
  ∃ s, w.(wo_sessions) !! sid = Some s ∧ s.(ss_stage) = Holding ∧ s.(ss_request) = r.

(** ** A small workspace *)

Definition tool_on (label : string) : LeaseHolder := mkLeaseHolder (Some "chat") "run" None "edit" label.
(** A session gets its file lease; a workspace lease. *)
Definition take_file (sid : nat) (root path : string) : list Label :=
  Submit sid (FileLease root path) (tool_on path) :: map (Step sid) [Admit; AskGate; AskGate; CheckQuarantine].
Definition take_workspace (sid : nat) (root : string) : list Label :=
  Submit sid (WorkspaceLease root) (tool_on root) :: map (Step sid) [Admit; AskGate; CheckQuarantine].
(** A session gets as far as its first gate. *)
Definition arrive (sid : nat) (r : LeaseRequest) : list Label :=
  Submit sid r (tool_on (root_of r)) :: map (Step sid) [Admit; AskGate].
Definition after (ls : list Label) : World := default world_new (perform_all ls world_new).

Definition two_files : list Label := take_file 1 "/r" "/r/a" ++ take_file 2 "/r" "/r/b".
(** A writer behind two readers, then a reader behind the writer. *)
Definition writer_waits : list Label := two_files ++ arrive 3 (WorkspaceLease "/r").
Definition reader_behind : list Label := arrive 4 (FileLease "/r" "/r/c").

Example reader_kept_behind : map (λ sid, ss_waiting <$> wo_sessions (after (writer_waits ++ reader_behind)) !! sid) [1; 2; 3; 4] =
  [Some None; Some None; Some (Some (mkGrant (Workspaces, "/r") Exclusive 5)); Some (Some (mkGrant (Workspaces, "/r") Shared 6))].
Proof. by vm_compute. Qed.

Definition queued_behind : list Label := take_workspace 1 "/r" ++ arrive 2 (WorkspaceLease "/r").
Definition handed_on : list Label := [Step 1 ReleaseLease; Step 1 (ReleaseOne 0); Step 2 Accept; Step 2 CheckQuarantine].
(** A queued session is refused the root it waited for. *)
Example queued_refused :
  (λ s, (s.(ss_stage), length s.(ss_held))) <$> wo_sessions (after (queued_behind ++ Quarantine "/r" :: handed_on)) !! 2 = Some (Releasing, 1).
Proof. by vm_compute. Qed.

(** ** Exclusion *)

Lemma exclusive_alone gate i j mode : gate_wf gate → granted gate i Exclusive → granted gate j mode → i = j.
Proof.
  intros Hg. pose proof (gw_alone _ Hg) as Ha. unfold granted, exclusive_ids.
  destruct (ga_exclusive gate) as [[k h]|] eqn:E; [|by intros ?%elem_of_nil].
  rewrite list_elem_of_singleton. intros ->. destruct mode; [|by rewrite list_elem_of_singleton].
  rewrite Ha by done. by intros ?%elem_of_nil.
Qed.

Lemma holds_step w sid r slot mode : Inv w → holds w sid r → (slot, mode) ∈ plan r →
  ∃ g, owner w sid g ∧ is_granted w g ∧ g.(gr_slot) = slot ∧ g.(gr_mode) = mode.
Proof.
  intros Hw (s & Hs & Hst & <-) Hin. destruct (inv_backed _ Hw sid s Hs) as ([B1 _] & Hp & _).
  unfold on_plan in Hp. rewrite Hst in Hp. destruct Hp as [Ew Hp]. rewrite <-Hp in Hin.
  change (map step_of ?l) with (step_of <$> l) in Hin. apply list_elem_of_fmap in Hin as (g & [= -> ->] & Hg).
  rewrite list_elem_of_In, <-in_rev, <-list_elem_of_In in Hg. exists g. split_and!; [|auto..].
  exists s. split; [done|]. unfold claims. by rewrite Ew.
Qed.

Lemma exclusive_holder w sid1 sid2 r1 r2 slot mode : Inv w → holds w sid1 r1 → holds w sid2 r2 →
  (slot, Exclusive) ∈ plan r1 → (slot, mode) ∈ plan r2 → sid1 = sid2.
Proof.
  intros Hw H1 H2 P1 P2. destruct (holds_step _ _ _ _ _ Hw H1 P1) as (g1 & O1 & G1 & E1 & M1).
  destruct (holds_step _ _ _ _ _ Hw H2 P2) as (g2 & O2 & G2 & E2 & M2).
  apply (inv_unique _ Hw _ _ g1 g2); [done..|]. unfold is_granted in *. rewrite M1 in G1. rewrite E1 in G1. rewrite E2 in G2.
  eapply exclusive_alone; [|exact G1|exact G2]. apply gates_wf_at, Hw.
Qed.

Lemma plan_root r : ((Workspaces, root_of r), match r with FileLease _ _ => Shared | _ => Exclusive end) ∈ plan r.
Proof. destruct r; left. Qed.

Lemma holders_apart w sid1 sid2 r1 r2 : Inv w → holds w sid1 r1 → holds w sid2 r2 → sid1 ≠ sid2 → ¬ conflict r1 r2.
Proof.
  intros Hw H1 H2 Hne Hc. apply Hne. destruct r1 as [root1 path1|root1].
  - destruct r2 as [root2 path2|root2]; cbn [conflict root_of] in Hc; subst.
    + apply (exclusive_holder w sid1 sid2 (FileLease root1 path2) (FileLease root2 path2) (Files, path2) Exclusive); try done;
        right; left.
    + symmetry. eapply (exclusive_holder w); [done|exact H2|exact H1|left|left].
  - cbn [conflict root_of] in Hc. subst.
    eapply (exclusive_holder w); [done|exact H1|exact H2|left|apply plan_root].
Qed.

(** C24: Whatever the callers of the coordinator do and wherever they are
    cancelled or dropped, two leases held at the same time are compatible: a
    workspace lease is the only lease on its root, and no two file leases are
    for the same file. *)
Theorem leases_exclude w sid1 sid2 r1 r2 : attained w →
  holds w sid1 r1 → holds w sid2 r2 → sid1 ≠ sid2 → ¬ conflict r1 r2.
Proof. intros Hw. by apply holders_apart, attained_inv. Qed.
Lemma leases_exclude_witness : ¬ conflict (FileLease "/r" "/r/a") (FileLease "/r" "/r/b").
Proof.
  apply (leases_exclude (after two_files) 1 2); [exists two_files; by vm_compute| | |done];
    (eexists; split; [by vm_compute|done]).
Defined.

(** ** Order *)

Definition present (w : World) (g : Grant) : Prop := is_granted w g ∨ is_waiting w g.

Lemma present_same w w' g : w'.(wo_gates) = w.(wo_gates) → present w' g ↔ present w g.
Proof. intros E. unfold present, is_granted, is_waiting, gate_of. by rewrite E. Qed.

(** A step adds at most a request with a new id. *)
Definition grows (w w' : World) : Prop :=
  w.(wo_next) ≤ w'.(wo_next) ∧ ∀ g, present w' g → present w g ∨ w.(wo_next) ≤ g.(gr_id).

Lemma grows_same w w' : w'.(wo_gates) = w.(wo_gates) → w'.(wo_next) = w.(wo_next) → grows w w'.
Proof. intros E1 E2. split; [by rewrite E2|]. intros g. rewrite (present_same w) by done. by left. Qed.
Lemma put_releasing_gates sid s held w : wo_gates (put_releasing sid s held w) = wo_gates w.
Proof. by destruct held. Qed.
Lemma put_releasing_next sid s held w : wo_next (put_releasing sid s held w) = wo_next w.
Proof. by destruct held. Qed.
Lemma grows_departs w w' w'' g : departs w w' g → w''.(wo_gates) = w'.(wo_gates) → w''.(wo_next) = w.(wo_next) → grows w w''.
Proof.
  intros Hd E1 E2. split; [by rewrite E2|]. intros h. rewrite (present_same w') by done.
  intros [_ Hh]%(dp_left _ _ _ Hd). by left.
Qed.

Lemma grows_ask w w' sid s : Inv w → ask_gate sid s w = Some w' → grows w w'.
Proof.
  intros Hw. unfold ask_gate. destruct (ss_stage s); try done. destruct (ss_waiting s); [done|].
  destruct (ss_todo s) as [|[slot mode] todo]; [done|]. set (id := wo_next w).
  pose proof (try_acquire_spec id slot mode (ss_holder s) (wo_gates w) (inv_gates _ Hw)) as Ha.
  destruct (try_acquire _ _ _ _ _) as [state gates]. cbn [fst snd] in Ha. intros E.
  assert (wo_gates w' = gates ∧ wo_next w' = S id) as [E1 E2] by (destruct state; by injection E as <-).
  split; [rewrite E2; unfold id; lia|]. intros g. rewrite <-E1 in Ha.
  destruct (acquired_effect w w' slot mode id state) as (Hg & Hwt & _).
  { apply Ha. intros i [Hi|Hi].
    - apply grant_ids_granted in Hi as [md Hi]. exact (inv_next _ Hw (mkGrant slot md i) (or_introl Hi)).
    - apply queue_ids_elem in Hi as [md Hi]. exact (inv_next _ Hw (mkGrant slot md i) (or_intror Hi)). }
  unfold present. rewrite Hg, Hwt. intros [[|[_ ->]]|[|[_ ->]]]; [by left; left|by right|by left; right|by right].
Qed.

Lemma grows_move w w' sid s m : Inv w → w.(wo_sessions) !! sid = Some s → move m sid s w = Some w' → grows w w'.
Proof.
  intros Hw Hs. destruct (inv_backed _ Hw sid s Hs) as ([B1 _] & Hp & _).
  assert (∀ g, g ∈ claims s → owner w sid g) as Hown by (intros g Hg; by exists s).
  assert (∀ g, ss_waiting s = Some g → ∀ held,
    grows w (put_releasing sid s held (with_gates (reclaim g.(gr_slot) g.(gr_id)) w))) as Hrec.
  { intros g E held. eapply grows_departs; [|apply put_releasing_gates|by rewrite put_releasing_next].
    apply (departs_reclaim w sid); [done|]. apply Hown. unfold claims. rewrite E. left. }
  destruct m; cbn [move].
  - unfold await_clear. destruct (ss_stage s); try done. case_bool_decide; [done|]. intros [= <-]. by apply grows_same.
  - unfold turn_away. destruct (ss_stage s); try done. intros [= <-]. by apply grows_same.
  - by apply grows_ask.
  - unfold accept. destruct (ss_waiting s); [|done]. case_bool_decide; [|done]. intros [= <-]. by apply grows_same.
  - unfold cancel_wait. destruct (ss_waiting s) as [g|] eqn:E; [|done].
    destruct (was_granted _ _ _); intros [= <-]; [by apply grows_same|auto].
  - unfold drop_session. intros E. destruct (ss_stage s); try done; injection E as <-;
      (destruct (ss_waiting s) as [g|] eqn:Ew; [auto|apply grows_same; [apply put_releasing_gates|apply put_releasing_next]]).
  - unfold check_quarantine. destruct (ss_stage s); try done. destruct (ss_waiting s); [done|]. destruct (ss_todo s); [|done].
    case_bool_decide; intros [= <-]; [apply grows_same; [apply put_releasing_gates|apply put_releasing_next]|by apply grows_same].
  - unfold start_release. destruct (ss_stage s); try done. intros [= <-].
    apply grows_same; [apply put_releasing_gates|apply put_releasing_next].
  - unfold release_one. destruct (ss_stage s) eqn:Hst; try done. destruct (ss_held s !! i) as [g|] eqn:Ei; [|done]. intros [= <-].
    pose proof (list_elem_of_lookup_2 _ _ _ Ei) as Hg.
    eapply grows_departs; [|apply put_releasing_gates|by rewrite put_releasing_next].
    apply (departs_release w sid); [done|apply Hown; unfold claims; apply elem_of_app; by right|auto].
Qed.

Lemma grows_perform l w w' : Inv w → perform l w = Some w' → grows w w'.
Proof.
  intros Hw. destruct l as [sid r holder|sid m|root|root]; cbn [perform].
  - unfold call_acquire. destruct (wo_sessions w !! sid); [done|]. intros [= <-]. by apply grows_same.
  - destruct (wo_sessions w !! sid) as [s|] eqn:Hs; [|done]. by apply grows_move.
  - intros [= <-]. by apply grows_same.
  - intros [= <-]. by apply grows_same.
Qed.
Lemma grows_all ls w w' : Inv w → perform_all ls w = Some w' → grows w w'.
Proof.
  revert w. induction ls as [|l ls IH]; intros w Hw; cbn [perform_all]; [intros [= <-]; by apply grows_same|].
  destruct (perform l w) as [w1|] eqn:E; [|done]. intros E'.
  destruct (grows_perform _ _ _ Hw E) as [N1 G1]. destruct (IH w1) as [N2 G2]; [by eapply inv_perform|done|].
  split; [lia|]. intros g Hg. destruct (G2 g Hg) as [Hg'|]; [auto|right; lia].
Qed.

Lemma granted_before_queued w g g' : Inv w → is_waiting w g → is_granted w g' → g'.(gr_slot) = g.(gr_slot) →
  g'.(gr_id) < g.(gr_id).
Proof.
  intros Hw Hg Hg' E. unfold is_waiting, is_granted in *. rewrite E in Hg'.
  eapply (gw_order (gate_of w (gr_slot g))); [apply gates_wf_at, Hw|by eapply granted_ids|by eapply queued_ids].
Qed.

(** First come first served, and a writer is not starved by the readers
    that come after it: while a request waits at a gate, across any run, the
    grants of that gate are grants of requests made before it, never of a
    request made later. *)
Theorem waiters_not_overtaken w w' ls g g' : attained w → perform_all ls w = Some w' →
  is_waiting w g → is_waiting w' g → is_granted w' g' → g'.(gr_slot) = g.(gr_slot) →
  present w g' ∧ g'.(gr_id) < g.(gr_id).
Proof.
  intros Hw%attained_inv E Hg Hg1 Hg' Hslot. pose proof (inv_perform_all _ _ _ Hw E) as Hw'.
  pose proof (granted_before_queued _ _ _ Hw' Hg1 Hg' Hslot) as Hlt. split; [|done].
  destruct (grows_all _ _ _ Hw E) as [_ G]. destruct (G g' (or_introl Hg')) as [|Hge]; [done|].
  pose proof (inv_next _ Hw g (or_intror Hg)). lia.
Qed.
Lemma waiters_not_overtaken_witness :
  present (after writer_waits) (mkGrant (Workspaces, "/r") Shared 1) ∧ 1 < 5.
Proof.
  apply (waiters_not_overtaken (after writer_waits) (after (writer_waits ++ reader_behind)) reader_behind
           (mkGrant (Workspaces, "/r") Exclusive 5)).
  - exists writer_waits. by vm_compute.
  - by vm_compute.
  - eexists. split; [vm_compute; left|done].
  - eexists. split; [vm_compute; left|done].
  - vm_compute. left.
  - done.
Defined.

(** ** Quarantine *)

(** Only the lease of session [sid], if any, is held on a quarantined root. *)
Definition sealed (root : string) (sid : nat) (w : World) : Prop :=
  root ∈ w.(wo_quarantined) ∧ ∀ sid' r, holds w sid' r → root_of r = root → sid' = sid.

Lemma holds_put w sid s sid' r :
  holds (put sid s w) sid' r → (sid' = sid ∧ s.(ss_stage) = Holding ∧ s.(ss_request) = r) ∨ holds w sid' r.
Proof. unfold holds. simpl. intros (s' & [[<- <-]|[_ Hs']]%lookup_insert_Some & ? & ?); [by left|]. right. by exists s'. Qed.
Lemma holds_delete w sid sid' r : holds (with_sessions (delete sid) w) sid' r → holds w sid' r.
Proof. unfold holds. simpl. intros (s' & [_ ?]%lookup_delete_Some & ? & ?). by exists s'. Qed.
Lemma holds_releasing w sid s held sid' r : holds (put_releasing sid s held w) sid' r → holds w sid' r.
Proof. destruct held; [apply holds_delete|]. intros [(_ & ? & _)|]%holds_put; done. Qed.

(** A lease is handed out only by the check of the quarantine. *)
Lemma holds_move w w' sid s m sid' r : Inv w → w.(wo_sessions) !! sid = Some s → move m sid s w = Some w' →
  holds w' sid' r → holds w sid' r ∨ root_of r ∉ w.(wo_quarantined).
Proof.
  intros Hw Hs. destruct (inv_backed _ Hw sid s Hs) as (_ & Hp & _). unfold on_plan in Hp. intros E Hh.
  destruct m; cbn [move] in E.
  - unfold await_clear in E. destruct (ss_stage s); try done. case_bool_decide; [done|]. injection E as <-.
    apply holds_put in Hh as [(_ & ? & _)|]; [done|auto].
  - unfold turn_away in E. destruct (ss_stage s); try done. injection E as <-. apply holds_delete in Hh. auto.
  - unfold ask_gate in E. destruct (ss_stage s); try done. destruct (ss_waiting s); [done|].
    destruct (ss_todo s) as [|[slot mode] todo]; [done|]. destruct (try_acquire _ _ _ _ _) as [state gates].
    assert (∃ s0 w0, w' = put sid s0 w0 ∧ s0.(ss_stage) = Acquiring ∧ w0.(wo_sessions) = w.(wo_sessions)) as (s0 & w0 & -> & Es & Ew).
    { destruct state; injection E as <-;
        [exists (mkSession s.(ss_request) s.(ss_holder) Acquiring todo None (mkGrant slot mode (wo_next w) :: ss_held s))
        |exists (mkSession s.(ss_request) s.(ss_holder) Acquiring todo (Some (mkGrant slot mode (wo_next w))) s.(ss_held))];
        exists (mkWorld (S (wo_next w)) gates (wo_sessions w) (wo_quarantined w)); done. }
    apply holds_put in Hh as [(_ & E1 & _)|Hh]; [congruence|]. left. unfold holds in *. by rewrite Ew in Hh.
  - unfold accept in E. destruct (ss_waiting s) as [g|] eqn:Ewt; [|done]. case_bool_decide; [|done]. injection E as <-.
    apply holds_put in Hh as [(-> & Hst & <-)|]; [|auto]. simpl in Hst. rewrite Hst in Hp. by destruct Hp.
  - unfold cancel_wait in E. destruct (ss_waiting s) as [g|] eqn:Ewt; [|done].
    destruct (was_granted _ _ _); injection E as <-; [|apply holds_releasing in Hh; auto].
    apply holds_put in Hh as [(-> & Hst & <-)|]; [|auto]. simpl in Hst. rewrite Hst in Hp. by destruct Hp.
  - unfold drop_session in E. destruct (ss_stage s); try done; injection E as <-;
      apply holds_releasing in Hh; left; by destruct (ss_waiting s).
  - unfold check_quarantine in E. destruct (ss_stage s); try done. destruct (ss_waiting s); [done|]. destruct (ss_todo s); [|done].
    case_bool_decide; injection E as <-; [apply holds_releasing in Hh; auto|].
    apply holds_put in Hh as [(_ & _ & <-)|]; auto.
  - unfold start_release in E. destruct (ss_stage s); try done. injection E as <-. apply holds_releasing in Hh. auto.
  - unfold release_one in E. destruct (ss_stage s); try done. destruct (ss_held s !! i) as [g|]; [|done]. injection E as <-.
    apply holds_releasing in Hh. auto.
Qed.

Lemma quarantined_move w w' sid s m : move m sid s w = Some w' → w'.(wo_quarantined) = w.(wo_quarantined).
Proof.
  assert (∀ held w, wo_quarantined (put_releasing sid s held w) = wo_quarantined w) as Hpr by by intros [].
  destruct m; cbn [move].
  - unfold await_clear. destruct (ss_stage s); try done. case_bool_decide; [done|]. by intros [= <-].
  - unfold turn_away. destruct (ss_stage s); try done. by intros [= <-].
  - unfold ask_gate. destruct (ss_stage s); try done. destruct (ss_waiting s); [done|]. destruct (ss_todo s) as [|[]]; [done|].
    destruct (try_acquire _ _ _ _ _) as [[] ?]; by intros [= <-].
  - unfold accept. destruct (ss_waiting s); [|done]. case_bool_decide; [|done]. by intros [= <-].
  - unfold cancel_wait. destruct (ss_waiting s); [|done]. destruct (was_granted _ _ _); intros [= <-]; [done|by rewrite Hpr].
  - unfold drop_session. intros E. destruct (ss_stage s); try done; injection E as <-; rewrite Hpr; by destruct (ss_waiting s).
  - unfold check_quarantine. destruct (ss_stage s); try done. destruct (ss_waiting s); [done|]. destruct (ss_todo s); [|done].
    case_bool_decide; intros [= <-]; by rewrite ?Hpr.
  - unfold start_release. destruct (ss_stage s); try done. intros [= <-]. by rewrite Hpr.
  - unfold release_one. destruct (ss_stage s); try done. destruct (ss_held s !! i); [|done]. intros [= <-]. by rewrite Hpr.
Qed.

Lemma sealed_perform root sid l w w' : Inv w → sealed root sid w → l ≠ Lift root → perform l w = Some w' → sealed root sid w'.
Proof.
  intros Hw [Hq Hs] Hl. destruct l as [sid' r holder|sid' m|root'|root']; cbn [perform].
  - unfold call_acquire. destruct (wo_sessions w !! sid'); [done|]. intros [= <-]. split; [done|].
    intros sid1 r1 [(_ & ? & _)|]%holds_put; [done|]. by apply Hs.
  - destruct (wo_sessions w !! sid') as [s|] eqn:E; [|done]. cbn. intros Hm. split; [by rewrite (quarantined_move _ _ _ _ _ Hm)|].
    intros sid1 r1 Hh Hr. destruct (holds_move _ _ _ _ _ _ _ Hw E Hm Hh) as [|Hn]; [by eapply Hs|]. by rewrite Hr in Hn.
  - intros [= <-]. split; [simpl; set_solver|done].
  - intros [= <-]. split; [|done]. simpl. apply elem_of_difference. split; [done|]. intros ->%elem_of_singleton. done.
Qed.
Lemma sealed_all root sid ls w w' : Inv w → sealed root sid w → Lift root ∉ ls → perform_all ls w = Some w' → sealed root sid w'.
Proof.
  revert w. induction ls as [|l ls IH]; intros w Hw Hs Hl; cbn [perform_all]; [by intros [= <-]|].
  apply not_elem_of_cons in Hl as [Hl1 Hl]. destruct (perform l w) as [w1|] eqn:E; [|done]. apply IH; [|..|done].
  - by eapply inv_perform.
  - by eapply sealed_perform.
Qed.

(** C26: A workspace whose lease holder publishes a quarantine before it lets
    go is handed to nobody else: until the quarantine is lifted, across any
    run, no other session holds a lease on the root, neither those that were
    queued when it was published nor those that come after. *)
Theorem no_lease_over_quarantine w w1 w2 ls sid root sid' r : attained w → holds w sid (WorkspaceLease root) →
  perform (Quarantine root) w = Some w1 → perform_all ls w1 = Some w2 → Lift root ∉ ls →
  sid' ≠ sid → root_of r = root → ¬ holds w2 sid' r.
Proof.
  intros Hw%attained_inv Hh E1 E2 Hl Hsid Hroot Hh2. apply Hsid. revert Hh2 Hroot. pose proof (inv_perform _ _ _ Hw E1) as Hw1.
  apply (sealed_all root sid ls w1); [done| |done..]. injection E1 as <-. split; [simpl; set_solver|].
  intros sid1 r1 H1 Hr. destruct (decide (sid1 = sid)) as [|Hne]; [done|exfalso].
  apply (holders_apart w sid sid1 (WorkspaceLease root) r1 Hw Hh); [|done|by destruct r1].
  destruct H1 as (s1 & ? & ? & ?). by exists s1.
Qed.
Lemma no_lease_over_quarantine_witness : ¬ holds (after (queued_behind ++ Quarantine "/r" :: handed_on)) 2 (WorkspaceLease "/r").
Proof.
  refine (no_lease_over_quarantine (after queued_behind) _ _ handed_on 1 "/r" 2 (WorkspaceLease "/r") _ _ eq_refl _ _ _ eq_refl).
  - exists queued_behind. by vm_compute.
  - eexists. split; [by vm_compute|done].
  - by vm_compute.
  - intros Hin%list_elem_of_In. vm_compute in Hin. naive_solver.
  - done.
Defined.

(** ** Progress *)

(** ** Steps are finite *)

Definition weight (s : Session) : nat :=
  match s.(ss_stage) with
  | Arriving => 13
  | Acquiring =>
      5 * length s.(ss_todo) + match s.(ss_waiting) with Some _ => 4 | None => 0 end + length s.(ss_held) + 2
  | Holding => length s.(ss_held) + 1
  | Releasing => length s.(ss_held)
  end.
Definition potential (w : World) : nat := map_fold (λ _ s n, weight s + n) 0 w.(wo_sessions).

Definition total (m : gmap nat Session) : nat := map_fold (λ _ s n, weight s + n) 0 m.
Lemma total_insert m sid s : m !! sid = None → total (<[sid := s]> m) = weight s + total m.
Proof. intros E. unfold total. apply (map_fold_insert_L (λ _ s n, weight s + n)); [intros; lia|done]. Qed.
Lemma total_delete m sid s : m !! sid = Some s → total m = weight s + total (delete sid m).
Proof. intros E. rewrite <-(total_insert _ sid) by apply lookup_delete_eq. by rewrite insert_delete_id. Qed.
Lemma total_put m sid s s' : m !! sid = Some s → total (<[sid := s']> m) + weight s = total m + weight s'.
Proof.
  intros E. rewrite (total_delete m sid s E). rewrite <-insert_delete_eq, total_insert by apply lookup_delete_eq. lia.
Qed.

Lemma put_spends w w0 sid s s' : w.(wo_sessions) !! sid = Some s → w0.(wo_sessions) = w.(wo_sessions) →
  weight s' < weight s → potential (put sid s' w0) < potential w.
Proof. intros Hs E Hlt. unfold potential. simpl. rewrite E. pose proof (total_put _ _ _ s' Hs). unfold total in *. lia. Qed.
Lemma releasing_spends w w0 sid s held : w.(wo_sessions) !! sid = Some s → w0.(wo_sessions) = w.(wo_sessions) →
  length held < weight s → potential (put_releasing sid s held w0) < potential w.
Proof.
  intros Hs E Hlt. unfold put_releasing. destruct held as [|g held].
  - unfold potential. simpl. rewrite E. pose proof (total_delete _ _ _ Hs). unfold total in *. simpl in Hlt. lia.
  - eapply put_spends; [done..|]. exact Hlt.
Qed.
Lemma held_weight s : s.(ss_stage) = Acquiring ∨ s.(ss_stage) = Holding → length s.(ss_held) < weight s.
Proof. unfold weight. intros [-> | ->]; lia. Qed.

Lemma move_spends w w' sid s m : Inv w → w.(wo_sessions) !! sid = Some s → move m sid s w = Some w' →
  potential w' < potential w.
Proof.
  intros Hw Hs. destruct (inv_backed _ Hw sid s Hs) as (_ & Hp & _). unfold on_plan in Hp.
  destruct m; cbn [move].
  - unfold await_clear. destruct (ss_stage s) eqn:Hst; try done. case_bool_decide; [done|]. intros [= <-].
    eapply put_spends; [done..|]. unfold weight. simpl. rewrite Hst. destruct (ss_request s); simpl; lia.
  - unfold turn_away. destruct (ss_stage s) eqn:Hst; try done. intros [= <-].
    unfold potential. simpl. pose proof (total_delete _ _ _ Hs) as E. unfold total, weight in *. rewrite Hst in E. lia.
  - unfold ask_gate. destruct (ss_stage s) eqn:Hst; try done. destruct (ss_waiting s) eqn:Ew; [done|].
    destruct (ss_todo s) as [|[slot mode] todo] eqn:Et; [done|].
    destruct (try_acquire _ _ _ _ _) as [[] gates]; intros [= <-];
      (eapply (put_spends w (mkWorld _ _ w.(wo_sessions) _)); [done..|]); unfold weight; rewrite Hst, Ew, Et; simpl; lia.
  - unfold accept. destruct (ss_waiting s) as [g|] eqn:Ew; [|done]. case_bool_decide; [|done]. intros [= <-].
    eapply put_spends; [done..|]. unfold weight. simpl. rewrite Ew.
    destruct (ss_stage s); [unfold claims in Hp; by rewrite Ew in Hp|simpl; lia|by destruct Hp..].
  - unfold cancel_wait. destruct (ss_waiting s) as [g|] eqn:Ew; [|done].
    assert (ss_stage s = Acquiring) as Hst.
    { destruct (ss_stage s); [unfold claims in Hp; by rewrite Ew in Hp|done|by destruct Hp..]. }
    destruct (was_granted _ _ _); intros [= <-].
    + eapply put_spends; [done..|]. unfold weight. simpl. rewrite Ew, Hst. simpl. lia.
    + eapply releasing_spends; [done..|]. apply held_weight. auto.
  - unfold drop_session. intros E. destruct (ss_stage s) eqn:Hst; try done; injection E as <-;
      (eapply releasing_spends; [done|by destruct (ss_waiting s)|]); try (apply held_weight; by auto).
    apply app_eq_nil in Hp as [_ Hp]. unfold weight. rewrite Hst, Hp. simpl. lia.
  - unfold check_quarantine. destruct (ss_stage s) eqn:Hst; try done. destruct (ss_waiting s) eqn:Ew; [done|].
    destruct (ss_todo s) eqn:Et; [|done]. case_bool_decide; intros [= <-].
    + eapply releasing_spends; [done..|]. apply held_weight. auto.
    + eapply put_spends; [done..|]. unfold weight. rewrite Hst, Ew, Et. simpl. lia.
  - unfold start_release. destruct (ss_stage s) eqn:Hst; try done. intros [= <-].
    eapply releasing_spends; [done..|]. apply held_weight. auto.
  - unfold release_one. destruct (ss_stage s) eqn:Hst; try done. destruct (ss_held s !! i) as [g|] eqn:Ei; [|done].
    intros [= <-]. eapply releasing_spends; [done..|]. unfold weight. rewrite Hst.
    pose proof (Permutation_length (delete_Permutation _ _ _ Ei)) as Hl. simpl in Hl. lia.
Qed.

(** ** One of them can be taken *)

(** Moves that cancel nobody; an arrival is turned away only from a
    quarantined root. *)
Definition patient (w : World) (sid : nat) (m : Move) : Prop :=
  match m with
  | CancelWait | DropSession => False
  | TurnAway => ∃ s, w.(wo_sessions) !! sid = Some s ∧ root_of s.(ss_request) ∈ w.(wo_quarantined)
  | _ => True
  end.
Definition can_move (w : World) : Prop :=
  ∃ sid m w', patient w sid m ∧ perform (Step sid m) w = Some w'.

Lemma can_move_by w sid s m w' : w.(wo_sessions) !! sid = Some s → patient w sid m → move m sid s w = Some w' → can_move w.
Proof. intros Hs Hm E. exists sid, m, w'. split; [done|]. simpl. by rewrite Hs. Qed.

(** Who cannot move waits at a gate, unsignalled. *)
Lemma moves_or_waits w sid s : Inv w → w.(wo_sessions) !! sid = Some s →
  can_move w ∨ s.(ss_stage) = Acquiring ∧ ∃ g, s.(ss_waiting) = Some g ∧ is_waiting w g.
Proof.
  intros Hw Hs. destruct (inv_backed _ Hw sid s Hs) as ([_ B2] & Hp & _). unfold on_plan in Hp.
  destruct (ss_stage s) eqn:Hst.
  - left. destruct (decide (root_of (ss_request s) ∈ w.(wo_quarantined))) as [Hq|Hq].
    + eapply (can_move_by w sid s TurnAway); [done|by exists s|]. simpl. unfold turn_away. by rewrite Hst.
    + eapply (can_move_by w sid s Admit); [done|done|]. simpl. unfold await_clear. by rewrite Hst, bool_decide_false.
  - destruct (ss_waiting s) as [g|] eqn:Ew.
    + destruct (B2 g eq_refl) as [[_ Hsg]|[Hwt _]]; [left|right; split; [done|by exists g]].
      eapply (can_move_by w sid s Accept); [done|done|]. simpl. unfold accept. by rewrite Ew, bool_decide_true.
    + left. destruct (ss_todo s) as [|[slot mode] todo] eqn:Et.
      * destruct (move CheckQuarantine sid s w) as [w'|] eqn:E; [by eapply (can_move_by w sid s CheckQuarantine)|].
        simpl in E. unfold check_quarantine in E. rewrite Hst, Ew, Et in E. by case_bool_decide.
      * destruct (move AskGate sid s w) as [w'|] eqn:E; [by eapply (can_move_by w sid s AskGate)|].
        simpl in E. unfold ask_gate in E. rewrite Hst, Ew, Et in E. by destruct (try_acquire _ _ _ _ _) as [[] ?].
  - left. eapply (can_move_by w sid s ReleaseLease); [done|done|]. simpl. unfold start_release. by rewrite Hst.
  - left. destruct Hp as (_ & Hne & _). destruct (ss_held s) as [|g held] eqn:Eh; [done|].
    eapply (can_move_by w sid s (ReleaseOne 0)); [done|done|]. simpl. unfold release_one. by rewrite Hst, Eh.
Qed.

(** Whoever holds a gate while it waits, waits for its file. *)
Lemma holder_waits_for_file w sid s g g' : Inv w → w.(wo_sessions) !! sid = Some s → s.(ss_stage) = Acquiring →
  s.(ss_waiting) = Some g → g' ∈ s.(ss_held) → g.(gr_slot).1 = Files ∧ g'.(gr_slot).1 = Workspaces.
Proof.
  intros Hw Hs Hst Ew Hg'. destruct (inv_backed _ Hw sid s Hs) as (_ & Hp & _). unfold on_plan, claims in Hp.
  rewrite Hst, Ew in Hp. simpl in Hp. rewrite map_app, <-app_assoc in Hp.
  assert (g' ∈ rev (ss_held s)) as Hr by (by rewrite list_elem_of_In, <-in_rev, <-list_elem_of_In).
  destruct (rev (ss_held s)) as [|h0 [|h1 hs]]; [by apply elem_of_nil in Hr|..].
  - apply list_elem_of_singleton in Hr as ->. destruct (ss_request s); simpl in Hp; [|done].
    injection Hp as E1 E2 E3 E4 _. by rewrite E1, E3.
  - apply (f_equal length) in Hp. destruct (ss_request s); simpl in Hp; rewrite ?length_app, ?length_map in Hp; simpl in Hp; lia.
Qed.

(** Someone is in the way of a waiter, with the gate in hand. *)
Lemma waiter_blocked w g : Inv w → is_waiting w g →
  ∃ sid s g', w.(wo_sessions) !! sid = Some s ∧ g' ∈ claims s ∧ is_granted w g' ∧ g'.(gr_slot) = g.(gr_slot).
Proof.
  intros Hw (e & He & _). destruct (gates_wf_at _ g.(gr_slot) (inv_gates _ Hw)) as [_ Hpu].
  fold (gate_of w g.(gr_slot)) in Hpu. unfold pumped in Hpu.
  destruct (ga_queue (gate_of w (gr_slot g))) as [|e0 q]; [by apply elem_of_nil in He|].
  apply blocked_by_grant in Hpu as (id & mode & Hg & _).
  destruct (inv_owned _ Hw (mkGrant g.(gr_slot) mode id)) as (sid & s & Hs & Hin); [by left|].
  by exists sid, s, (mkGrant g.(gr_slot) mode id).
Qed.

(** If nobody could move, everyone would wait for a file behind somebody who
    already has it. *)
Lemma no_deadlock w sid s : Inv w → w.(wo_sessions) !! sid = Some s → can_move w.
Proof.
  intros Hw Hs.
  assert (∀ sid s g, w.(wo_sessions) !! sid = Some s → s.(ss_stage) = Acquiring → s.(ss_waiting) = Some g → is_waiting w g →
    can_move w ∨ ∃ sid' s' g1 g2, w.(wo_sessions) !! sid' = Some s' ∧ s'.(ss_stage) = Acquiring ∧
      s'.(ss_waiting) = Some g1 ∧ is_waiting w g1 ∧ g2 ∈ s'.(ss_held) ∧ g2.(gr_slot) = g.(gr_slot)) as Hblock.
  { intros sid1 s1 g _ _ _ Hg. destruct (waiter_blocked w g Hw Hg) as (sid' & s' & g2 & Hs' & Hin & Hg2 & Eslot).
    destruct (moves_or_waits w sid' s' Hw Hs') as [|(Hst & g1 & Ew & Hg1)]; [by left|right].
    exists sid', s', g1, g2. split_and!; [done..| |done].
    unfold claims in Hin. rewrite Ew in Hin. apply elem_of_cons in Hin as [->|Hin]; [|done].
    exfalso. eapply granted_not_queued; [done|exact Hg2|]. by eapply queued_ids. }
  destruct (moves_or_waits w sid s Hw Hs) as [|(Hst & g & Ew & Hg)]; [done|].
  destruct (Hblock sid s g Hs Hst Ew Hg) as [|(sid1 & s1 & g1 & g2 & Hs1 & Hst1 & Ew1 & Hg1 & Hin1 & _)]; [done|].
  destruct (holder_waits_for_file w sid1 s1 g1 g2 Hw Hs1 Hst1 Ew1 Hin1) as [Hf _].
  destruct (Hblock sid1 s1 g1 Hs1 Hst1 Ew1 Hg1) as [|(sid3 & s3 & g3 & g4 & Hs3 & Hst3 & Ew3 & _ & Hin3 & Es3)]; [done|].
  destruct (holder_waits_for_file w sid3 s3 g3 g4 Hw Hs3 Hst3 Ew3 Hin3) as [_ Hf3].
  rewrite Es3, Hf in Hf3. done.
Qed.

(** Without sessions the gates are gone too. *)
Lemma nothing_leaks w : Inv w → w.(wo_sessions) = ∅ → w.(wo_gates).(gm_gates) = ∅.
Proof.
  intros Hw Es. apply map_eq_iff. intros slot. rewrite lookup_empty.
  destruct (gm_gates (wo_gates w) !! slot) as [gate|] eqn:E; [exfalso|done].
  assert (gate_of w slot = gate) as Eg by (unfold gate_of, gate_at; by rewrite E).
  assert (∀ g, ¬ present w g) as Hno.
  { intros g (sid & s & Hs & _)%(inv_owned _ Hw). rewrite Es in Hs. by apply lookup_empty_Some in Hs. }
  destruct (inv_gates _ Hw slot gate E) as (_ & Hpu & Hi). enough (gate = gate_new) as ->; [done|].
  destruct gate as [[|[i h] sh] x q]; [destruct x as [[i h]|]; [|destruct q as [|e q]; [done|]]|]; exfalso.
  - apply (Hno (mkGrant slot Exclusive i)). left. unfold is_granted. simpl. rewrite Eg. left.
  - apply (Hno (mkGrant slot e.(en_mode) e.(en_id))). right. unfold is_waiting. simpl. rewrite Eg. exists e. split; [left|done].
  - apply (Hno (mkGrant slot Shared i)). left. unfold is_granted. simpl. rewrite Eg. left.
Qed.

(** ** Draining *)

Definition is_step (l : Label) : Prop := match l with Step _ _ => True | _ => False end.
(** A run of patient steps. *)
Inductive patient_run : World → World → Prop :=
  | patient_stop w : patient_run w w
  | patient_step w sid m w1 w' :
      patient w sid m → perform (Step sid m) w = Some w1 → patient_run w1 w' → patient_run w w'.

Lemma perform_step_spends w w' sid m : Inv w → perform (Step sid m) w = Some w' → potential w' < potential w.
Proof. intros Hw. cbn [perform]. destruct (wo_sessions w !! sid) as [s|] eqn:Hs; [|done]. by apply move_spends. Qed.

Lemma steps_spend ls w w' : Inv w → Forall is_step ls → perform_all ls w = Some w' → length ls + potential w' ≤ potential w.
Proof.
  revert w. induction ls as [|l ls IH]; intros w Hw Hls; cbn [perform_all length]; [intros [= <-]; lia|].
  apply Forall_cons in Hls as [Hl Hls]. destruct (perform l w) as [w1|] eqn:E; [|done]. cbn. intros E'.
  destruct l as [|sid m| |]; try done. pose proof (perform_step_spends _ _ _ _ Hw E).
  pose proof (IH w1 (inv_perform _ _ _ Hw E) Hls E'). lia.
Qed.

Lemma drains w : Inv w → ∃ w', patient_run w w' ∧ w'.(wo_sessions) = ∅ ∧ w'.(wo_gates).(gm_gates) = ∅.
Proof.
  remember (potential w) as n eqn:En. revert w En. induction (lt_wf n) as [n _ IH]. intros w -> Hw.
  destruct (map_choose_or_empty (wo_sessions w)) as [(sid & s & Hs)|E].
  - destruct (no_deadlock w sid s Hw Hs) as (sid' & m & w1 & Hm & E).
    destruct (IH _ (perform_step_spends _ _ _ _ Hw E) w1 eq_refl) as (w' & Hrun & ?); [by eapply inv_perform|].
    exists w'. split; [by eapply patient_step|done].
  - exists w. split; [constructor|]. split; [done|]. by apply nothing_leaks.
Qed.

(** C25: The coordinator neither deadlocks nor leaks: from any attained state
    the acquisitions in flight take at most [potential w] steps, in whatever
    order they are taken, and wherever they have got to, steps that cancel
    and drop nobody lead to a state with no session and no gate left. *)
Theorem leases_drain w ls w' : attained w → Forall is_step ls → perform_all ls w = Some w' →
  length ls ≤ potential w ∧
  ∃ w'', patient_run w' w'' ∧ w''.(wo_sessions) = ∅ ∧ w''.(wo_gates).(gm_gates) = ∅.
Proof.
  intros Hw%attained_inv Hls E. split; [pose proof (steps_spend _ _ _ Hw Hls E); lia|].
  apply drains. by eapply inv_perform_all.
Qed.
Lemma leases_drain_witness : length [Step 1 ReleaseLease] ≤ potential (after (writer_waits ++ reader_behind)) ∧
  ∃ w'', patient_run (after (writer_waits ++ reader_behind ++ [Step 1 ReleaseLease])) w'' ∧ w''.(wo_sessions) = ∅ ∧ w''.(wo_gates).(gm_gates) = ∅.
Proof.
  apply (leases_drain (after (writer_waits ++ reader_behind)) [Step 1 ReleaseLease]).
  - exists (writer_waits ++ reader_behind). by vm_compute.
  - by repeat constructor.
  - by vm_compute.
Defined.
