(* ===== verification/ShellWords.v ===== *)
(** * Reading a shell command

    The lexers of [toolpacks-coding/src/command_policy.rs]: the loose words a
    deny list is matched against, the simple commands with their raw words,
    the substitutions inside double quotes, and the word that names a
    command behind assignments, keywords and wrappers.  A text is its
    characters; [str::to_lowercase] is a parameter beyond ASCII. *)

From S2P Require Export Edits.
Local Open Scope nat_scope.

Abbreviation text := (list char).

(** [str::to_lowercase]: the Unicode tables, of which only the ASCII part is
    written out. *)
Definition is_ascii (c : char) : bool := in_range 0 127 c.
Definition ascii_lower (c : char) : char := if in_range 65 90 c then (c + 32)%Z else c.
Class Lowercase := {
  to_lowercase : text → text;
  lowercase_ascii s : forallb is_ascii s = true → to_lowercase s = map ascii_lower s
}.

Definition mem (w : text) (ws : list text) : bool := existsb (λ w', bool_decide (w = w')) ws.
Definition one_of (c : char) (cs : text) : bool := existsb (Z.eqb c) cs.
Fixpoint take_while {A} (p : A → bool) (l : list A) : list A :=
  match l with a :: l => if p a then a :: take_while p l else [] | [] => [] end.
Definition is_lower (c : char) : bool := in_range 97 122 c.
Definition is_upper (c : char) : bool := in_range 65 90 c.
Definition is_digit (c : char) : bool := in_range 48 57 c.

Definition backslash : char := 0x5C%Z.
Definition single_quote : char := 0x27%Z.
Definition double_quote : char := 0x22%Z.
Definition newline_char : char := 10%Z.

(** The 25 white space characters of JavaScript's [\s]. *)
Definition js_is_space (ch : char) : bool :=
  in_class [(9, 13); (0x20, 0x20); (0xA0, 0xA0); (0x1680, 0x1680); (0x2000, 0x200A); (0x2028, 0x2029);
            (0x202F, 0x202F); (0x205F, 0x205F); (0x3000, 0x3000); (0xFEFF, 0xFEFF)]%Z ch.

(** ** Loose words *)

Definition flush_word (word : text) (words : list text) : list text :=
  match word with [] => words | _ => word :: words end.
Definition escapes (ch : char) (quote : option char) : bool :=
  (ch =? backslash)%Z && negb (bool_decide (quote = Some single_quote)).
Definition is_quote (ch : char) : bool := (ch =? single_quote)%Z || (ch =? double_quote)%Z.
Definition separators : text := lit ";&|()<>`$".
Definition separates (ch : char) : bool := js_is_space ch || one_of ch separators.

Fixpoint shell_from (s word : text) (quote : option char) : list text :=
  match s with
  | [] => flush_word word []
  | ch :: rest =>
      let ordinary :=
        if bool_decide (quote = Some ch) then shell_from rest word None
        else if negb (is_some quote) && is_quote ch then shell_from rest word (Some ch)
        else if negb (is_some quote) && separates ch then flush_word word (shell_from rest [] quote)
        else shell_from rest (word ++ [ch]) quote in
      match rest with
      | next :: rest' => if escapes ch quote then shell_from rest' (word ++ [next]) quote else ordinary
      | [] => ordinary
      end
  end.
Definition shell_words (raw : text) : list text := shell_from raw [] None.

(** ** Simple commands *)

Record SimpleCommand := mkSimple { sc_words : list text; sc_end : char }.
Definition end_of_text : char := 0%Z.
Definition arm_end : char := 68%Z.

Record CommandLexer := mkLexer {
  cl_commands : list SimpleCommand;
  cl_command : list text;
  cl_word : text;
  cl_skip_word : bool
}.
Definition lexer_new : CommandLexer := mkLexer [] [] [] false.

Definition push_char (ch : char) (l : CommandLexer) : CommandLexer :=
  mkLexer l.(cl_commands) l.(cl_command) (l.(cl_word) ++ [ch]) l.(cl_skip_word).
Definition end_word (l : CommandLexer) : CommandLexer :=
  match l.(cl_word) with
  | [] => l
  | word => mkLexer l.(cl_commands) (if l.(cl_skip_word) then l.(cl_command) else l.(cl_command) ++ [word]) [] false
  end.
Definition end_command (ch : char) (l : CommandLexer) : CommandLexer :=
  let l := end_word l in
  if negb (bool_decide (l.(cl_command) = [])) || (ch =? 0x29)%Z || (ch =? arm_end)%Z
  then mkLexer (l.(cl_commands) ++ [mkSimple l.(cl_command) ch]) [] l.(cl_word) l.(cl_skip_word)
  else l.
(** A redirection: digits before it are a file descriptor, the word after it
    is a file. *)
Definition redirect (l : CommandLexer) : CommandLexer :=
  let word := l.(cl_word) in
  let l := if forallb is_digit word then mkLexer l.(cl_commands) l.(cl_command) [] l.(cl_skip_word) else l in
  let l := end_word l in
  mkLexer l.(cl_commands) l.(cl_command) l.(cl_word) true.

(** [raw.replace("\\\n", "")]. *)
Fixpoint join_lines (s : text) : text :=
  match s with
  | a :: (b :: rest) as s' => if (a =? backslash)%Z && (b =? newline_char)%Z then join_lines rest else a :: join_lines s'
  | _ => s
  end.

Fixpoint lex_from (s : text) (quote : option char) (l : CommandLexer) : CommandLexer :=
  match s with
  | [] => l
  | ch :: rest =>
      if escapes ch quote then
        match rest with
        | next :: rest' => lex_from rest' quote (push_char next (push_char ch l))
        | [] => push_char ch l
        end
      else match quote with
      | Some open => lex_from rest (if (ch =? open)%Z then None else quote) (push_char ch l)
      | None =>
          if is_quote ch then lex_from rest (Some ch) (push_char ch l)
          else if (ch =? newline_char)%Z then lex_from rest quote (end_command newline_char l)
          else if js_is_space ch then lex_from rest quote (end_word l)
          else if one_of ch (lit "<>") then
            match rest with
            | next :: rest' => if (next =? 0x26)%Z then lex_from rest' quote (redirect l) else lex_from rest quote (redirect l)
            | [] => redirect l
            end
          else match rest with
          | next :: rest' =>
              if (ch =? 0x3B)%Z && (next =? 0x3B)%Z then lex_from rest' quote (end_command arm_end l)
              else if one_of ch (lit ";&|()") then lex_from rest quote (end_command ch l)
              else lex_from rest quote (push_char ch l)
          | [] => if one_of ch (lit ";&|()") then end_command ch l else push_char ch l
          end
      end
  end.
Definition command_words (raw : text) : list SimpleCommand :=
  cl_commands (end_command end_of_text (lex_from (join_lines raw) None lexer_new)).

(** ** Substitutions inside double quotes *)

(** What a scan has read before its end, and what is left after it. *)
Definition before (ch : char) (r : option (text * text)) : option (text * text) :=
  match r with Some (body, rest) => Some (ch :: body, rest) | None => None end.

Fixpoint paren_end (s : text) (depth : nat) (quote : option char) : option (text * text) :=
  match s with
  | [] => None
  | ch :: rest =>
      if escapes ch quote then
        match rest with next :: rest' => before ch (before next (paren_end rest' depth quote)) | [] => None end
      else match quote with
      | Some open => before ch (paren_end rest depth (if (ch =? open)%Z then None else quote))
      | None =>
          if is_quote ch then before ch (paren_end rest depth (Some ch))
          else if (ch =? 0x28)%Z then before ch (paren_end rest (depth + 1) quote)
          else if (ch =? 0x29)%Z then
            if depth - 1 =? 0 then Some ([], rest) else before ch (paren_end rest (depth - 1) quote)
          else before ch (paren_end rest depth quote)
      end
  end.
(** To the end of the text when nothing closes it. *)
Definition paren_body (s : text) : text * text := default (s, []) (paren_end s 1 None).

Fixpoint backtick_end (s : text) : option (text * text) :=
  match s with
  | [] => None
  | ch :: rest =>
      if (ch =? backslash)%Z then
        match rest with next :: rest' => before ch (before next (backtick_end rest')) | [] => None end
      else if (ch =? 0x60)%Z then Some ([], rest)
      else before ch (backtick_end rest)
  end.
Definition backtick_body (s : text) : text * text := default (s, []) (backtick_end s).

(** [fuel] bounds the characters visited; the length of the text is enough. *)
Fixpoint substitutions (fuel : nat) (s : text) (quote : option char) : list text :=
  match fuel, s with
  | S fuel, ch :: rest =>
      if escapes ch quote then substitutions fuel (drop 1 rest) quote
      else match quote with
      | Some open =>
          if (open =? single_quote)%Z then substitutions fuel rest (if (ch =? single_quote)%Z then None else quote)
          else if (ch =? double_quote)%Z then substitutions fuel rest None
          else if (ch =? 0x24)%Z && bool_decide (head rest = Some 0x28%Z) then
            let '(body, after) := paren_body (drop 1 rest) in body :: substitutions fuel after quote
          else if (ch =? 0x60)%Z then
            let '(body, after) := backtick_body rest in body :: substitutions fuel after quote
          else substitutions fuel rest quote
      | None => substitutions fuel rest (if is_quote ch then Some ch else None)
      end
  | _, _ => []
  end.
Definition double_quoted_substitutions (raw : text) : list text := substitutions (length raw) raw None.

(** ** Which word names the command *)

Section lower.
Context {L : Lowercase}.

Definition trim_end_char (c : char) (s : text) : text := reverse (drop_while (Z.eqb c) (reverse s)).
(** What follows the last [c]. *)
Definition after_last (c : char) (s : text) : text := reverse (take_while (λ d, negb (d =? c)%Z) (reverse s)).
Definition executable_name (word : text) : text := to_lowercase (after_last 0x2F%Z (trim_end_char 0x2F%Z word)).

Fixpoint prefixb (p s : text) : bool :=
  match p, s with
  | [], _ => true
  | a :: p, b :: s => (a =? b)%Z && prefixb p s
  | _, _ => false
  end.

(** [\A[A-Za-z_][A-Za-z0-9_]*=]. *)
Definition name_start (c : char) : bool := is_lower c || is_upper c || (c =? 0x5F)%Z.
Definition name_char (c : char) : bool := name_start c || is_digit c.
Definition is_assignment (word : text) : bool :=
  match word with
  | c :: s => name_start c && bool_decide (head (drop_while name_char s) = Some 0x3D%Z)
  | [] => false
  end.
(** [\A[0-9.]+[smhd]?\z]. *)
Definition is_duration (word : text) : bool :=
  let digit_or_dot c := is_digit c || (c =? 0x2E)%Z in
  match word with
  | c :: _ => digit_or_dot c &&
      match drop_while digit_or_dot word with [] => true | [u] => one_of u (lit "smhd") | _ => false end
  | [] => false
  end.

Definition command_prefix_keywords : list text :=
  map lit ["if"; "then"; "else"; "elif"; "do"; "while"; "until"; "!"; "{"; "}"; "fi"; "done"; "esac"].
Definition wrapper_words : list text :=
  map lit ["nohup"; "nice"; "timeout"; "setsid"; "stdbuf"; "time"; "xargs"; "env"; "command"; "builtin"].
Definition indirect_command_words : list text := map lit ["eval"; "exec"; "source"; "."].

Definition wrapper_options (wrapper : text) : list text :=
  map lit
    (if bool_decide (wrapper = lit "xargs") then ["-I"; "-n"; "-P"; "-d"; "-L"; "-s"; "-E"; "-a"; "-J"; "-R"; "-S"]
     else if bool_decide (wrapper = lit "nice") then ["-n"]
     else if bool_decide (wrapper = lit "timeout") then ["-s"; "-k"]
     else if bool_decide (wrapper = lit "stdbuf") then ["-i"; "-o"; "-e"]
     else if bool_decide (wrapper = lit "env") then ["-u"; "-C"; "-P"]
     else if bool_decide (wrapper = lit "time") then ["-f"; "-o"]
     else []).
Definition wrapper_option_takes_value (wrapper option : text) : bool := mem option (wrapper_options wrapper).

(** The options of a wrapper, with their values, its duration and the
    assignments of [env]. *)
Fixpoint skip_options (name : text) (words : list text) (duration_pending : bool) : list text :=
  match words with
  | [] => []
  | next :: rest =>
      if bool_decide (next = lit "--") then rest
      else if prefixb (lit "-") next && (1 <? length next) then
        if wrapper_option_takes_value name next
        then match rest with _ :: rest' => skip_options name rest' duration_pending | [] => [] end
        else skip_options name rest duration_pending
      else if bool_decide (name = lit "env") && is_assignment next || duration_pending && is_duration next then
        skip_options name rest false
      else words
  end.

(** [fuel] bounds the words visited; their number is enough. *)
Fixpoint resolve_from (fuel : nat) (words : list text) : option text :=
  match fuel, words with
  | S fuel, word :: rest =>
      if is_assignment word || mem word command_prefix_keywords then resolve_from fuel rest
      else
        let name := executable_name word in
        if negb (mem name wrapper_words) then Some word
        else if bool_decide (name = lit "command")
                && (bool_decide (head rest = Some (lit "-v")) || bool_decide (head rest = Some (lit "-V"))) then None
        else resolve_from fuel (skip_options name rest (bool_decide (name = lit "timeout")))
  | _, _ => None
  end.
Definition resolve_command_word (words : list text) : option text := resolve_from (length words) words.

(** ** Commands that cannot be read off the text *)

Definition spelled_out (word : text) : bool :=
  negb (existsb (λ c, one_of c (lit "$`\'*?" ++ [double_quote])) word
        || one_of 0x5B%Z word && negb (bool_decide (word = lit "[") || bool_decide (word = lit "[["))).
Definition unresolvable_word (word : text) : bool :=
  negb (spelled_out word) || mem (executable_name word) indirect_command_words.

(** The commands of a text that are judged: not the patterns of a [case], not
    the heads of loops. *)
Fixpoint judged_from (case_depth : nat) (in_patterns : bool) (commands : list SimpleCommand) : list (list text) :=
  match commands with
  | [] => []
  | c :: rest =>
      if in_patterns then judged_from case_depth (negb (c.(sc_end) =? 0x29)%Z) rest
      else
        let first := head c.(sc_words) in
        if bool_decide (first = Some (lit "case")) then judged_from (case_depth + 1) (negb (c.(sc_end) =? 0x29)%Z) rest
        else if bool_decide (first = Some (lit "for")) || bool_decide (first = Some (lit "select")) then
          judged_from case_depth false rest
        else
          let case_depth := if bool_decide (first = Some (lit "esac")) then case_depth - 1 else case_depth in
          c.(sc_words) :: judged_from case_depth ((c.(sc_end) =? arm_end)%Z && (0 <? case_depth)) rest
  end.
Definition judged (raw : text) : list (list text) := judged_from 0 false (command_words raw).

(** [fuel] bounds the nesting of substitutions; the length is enough. *)
Fixpoint unresolvable (fuel : nat) (raw : text) : bool :=
  match fuel with
  | O => false
  | S fuel =>
      existsb (unresolvable fuel) (double_quoted_substitutions raw)
      || existsb (λ words, match resolve_command_word words with Some word => unresolvable_word word | None => false end)
           (judged raw)
  end.
Definition has_unresolvable_command_word (raw : text) : bool := unresolvable (S (length raw)) raw.
End lower.
