(* ===== verification/ShellLaws.v ===== *)
(** * Where the words of a command stand

    Every word the lexer of simple commands finds, when it is spelled out,
    stands between separators in the text itself, also when the command hides
    in a substitution; the recursion of the check has fuel enough; and on
    scripts given as syntax trees the lexers find the commands, the programs
    and the substitutions of the tree, no more and no fewer. *)

From S2P Require Export ShellWords.
Local Open Scope nat_scope.

(** No quoting, no escape, no expansion. *)
Definition simple (w : text) : bool := forallb (λ c, negb (one_of c (lit "$`\'" ++ [double_quote]))) w.
(** Nor any separator. *)
Definition bare (w : text) : Prop :=
  w ≠ [] ∧ Forall (λ c, separates c = false ∧ is_quote c = false ∧ c ≠ backslash) w.

Definition left_bound (l : text) : Prop := l = [] ∨ ∃ l' c, l = l' ++ [c] ∧ separates c = true.
Definition right_bound (r : text) : Prop := r = [] ∨ ∃ c r', r = c :: r' ∧ separates c = true.
(** [w] stands between separators in [s]. *)
Definition stands (s w : text) : Prop := ∃ l r, s = l ++ w ++ r ∧ left_bound l ∧ right_bound r.

Lemma left_bound_snoc l c : separates c = true → left_bound (l ++ [c]).
Proof. right. by exists l, c. Qed.
Lemma left_bound_app l l' : left_bound l → left_bound l' → left_bound (l ++ l').
Proof.
  intros Hl [->|(l1 & c & -> & Hc)]; [by rewrite app_nil_r|]. rewrite app_assoc. by apply left_bound_snoc.
Qed.
Lemma right_bound_app r r' : right_bound r' → right_bound r → right_bound (r' ++ r).
Proof. intros [->|(c & r1 & -> & Hc)] Hr; [done|]. right. by exists c, (r1 ++ r). Qed.

Lemma stands_inside s l r w : left_bound l → right_bound r → stands s w → stands (l ++ s ++ r) w.
Proof.
  intros Hl Hr (l1 & r1 & -> & Hl1 & Hr1). exists (l ++ l1), (r1 ++ r).
  split_and!; [by rewrite <-!app_assoc|by apply left_bound_app|by apply right_bound_app].
Qed.

(** ** The lexer of simple commands *)

(** A word that is done with, before a separator. *)
Definition closed (done w : text) : Prop :=
  w ≠ [] ∧ (simple w = true → bare w ∧ ∃ l c r, done = l ++ w ++ c :: r ∧ left_bound l ∧ separates c = true).
(** The word being read. *)
Definition pending (done : text) (quote : option char) (w : text) : Prop :=
  (quote ≠ None → simple w = false)
  ∧ (simple w = true → ∃ l, done = l ++ w ∧ left_bound l ∧ Forall (λ c, separates c = false ∧ is_quote c = false ∧ c ≠ backslash) w).

Record lexed (done : text) (quote : option char) (l : CommandLexer) : Prop := {
  lx_commands c w : c ∈ l.(cl_commands) → w ∈ c.(sc_words) → closed done w;
  lx_command w : w ∈ l.(cl_command) → closed done w;
  lx_word : pending done quote l.(cl_word)
}.

Lemma closed_app done s w : closed done w → closed (done ++ s) w.
Proof.
  intros [Hne Hc]. split; [done|]. intros Hs. destruct (Hc Hs) as (Hb & l & c & r & -> & ? & ?). split; [done|].
  exists l, c, (r ++ s). split_and!; [|done..]. by rewrite <-!app_assoc.
Qed.

Lemma simple_snoc w c : simple (w ++ [c]) = simple w && negb (one_of c (lit "$`\'" ++ [double_quote])).
Proof. unfold simple. rewrite forallb_app. simpl. by rewrite andb_true_r. Qed.

(** Reading on: what is pushed either is plain or spoils the word for good. *)
Lemma lexed_push done quote quote' l c :
  lexed done quote l →
  (quote = None → quote' = None → one_of c (lit "$`\'" ++ [double_quote]) = false →
    separates c = false ∧ is_quote c = false ∧ c ≠ backslash) →
  (quote = None → quote' ≠ None → one_of c (lit "$`\'" ++ [double_quote]) = true) →
  lexed (done ++ [c]) quote' (push_char c l).
Proof.
  intros [H1 H2 [H3 H4]] Hplain Hspoil. split; simpl.
  - intros c' w Hc' Hw. by eapply closed_app, H1.
  - intros w Hw. by apply closed_app, H2.
  - split; rewrite simple_snoc.
    + intros Hq. destruct quote; [by rewrite H3|]. rewrite Hspoil by done. by rewrite andb_false_r.
    + intros [Hs Hc]%andb_true_iff. apply negb_true_iff in Hc. destruct (H4 Hs) as (l0 & -> & Hl & Hall).
      exists l0. split_and!; [by rewrite app_assoc|done|]. apply Forall_app. split; [done|]. constructor; [|done].
      destruct quote; [by rewrite H3 in Hs|]. destruct quote'; [by rewrite Hspoil in Hc|]. auto.
Qed.

(** A separator closes the word. *)
Lemma pending_empty done c : separates c = true → pending (done ++ [c]) None [].
Proof. intros Hc. split; [done|]. intros _. exists (done ++ [c]). split_and!; [by rewrite app_nil_r|by apply left_bound_snoc|done]. Qed.

Lemma pending_closes done w c : pending done None w → w ≠ [] → separates c = true → closed (done ++ [c]) w.
Proof.
  intros [_ Hw] Hne Hc. split; [done|]. intros Hs. destruct (Hw Hs) as (l & -> & Hl & Hall). split; [by split|].
  exists l, c, []. split_and!; [by rewrite <-app_assoc|done|done].
Qed.

Lemma lexed_end_word done c l : lexed done None l → separates c = true → lexed (done ++ [c]) None (end_word l).
Proof.
  intros [H1 H2 H3] Hc.
  assert (∀ c' w, c' ∈ cl_commands l → w ∈ sc_words c' → closed (done ++ [c]) w) as H1' by (intros; by eapply closed_app, H1).
  assert (∀ w, w ∈ cl_command l → closed (done ++ [c]) w) as H2' by (intros; by eapply closed_app, H2).
  unfold end_word. destruct (cl_word l) as [|a w] eqn:E; [split; [done|done|rewrite E; by apply pending_empty]|].
  split; simpl; [done| |by apply pending_empty].
  intros w'. destruct (cl_skip_word l); [auto|]. rewrite elem_of_app, list_elem_of_singleton.
  intros [?| ->]; [auto|]. by apply pending_closes.
Qed.
Lemma lexed_end_command done c e l : lexed done None l → separates c = true → lexed (done ++ [c]) None (end_command e l).
Proof.
  intros H Hc. destruct (lexed_end_word done c l H Hc) as [H1 H2 H3]. unfold end_command.
  destruct (negb _ || _ || _); [|done]. split; simpl; [|by intros w ?%elem_of_nil|done].
  intros c' w [Hc'|Hc']%elem_of_app; [by eapply H1|]. apply list_elem_of_singleton in Hc' as ->. apply H2.
Qed.
Lemma lexed_redirect done c l : lexed done None l → separates c = true → lexed (done ++ [c]) None (redirect l).
Proof.
  intros H Hc. unfold redirect.
  set (l1 := if forallb is_digit (cl_word l) then _ else l).
  destruct (forallb is_digit (cl_word l)).
  - destruct H as [H1 H2 H3]. split; simpl.
    + intros; by eapply closed_app, H1.
    + intros; by eapply closed_app, H2.
    + by apply pending_empty.
  - destruct (lexed_end_word done c l H Hc) as [H1 H2 H3]. by split.
Qed.
Lemma lexed_more done c l : lexed (done ++ [c]) None l → l.(cl_word) = [] → ∀ d, separates d = true → lexed (done ++ [c] ++ [d]) None l.
Proof.
  intros [H1 H2 H3] E d Hd. rewrite app_assoc. split.
  - intros; by eapply closed_app, H1.
  - intros; by eapply closed_app, H2.
  - rewrite E. by apply pending_empty.
Qed.
Lemma end_word_empty l : (end_word l).(cl_word) = [].
Proof. unfold end_word. by destruct (cl_word l) eqn:E. Qed.
Lemma end_command_empty e l : (end_command e l).(cl_word) = [].
Proof. unfold end_command. destruct (negb _ || _ || _); apply end_word_empty. Qed.
Lemma redirect_empty l : (redirect l).(cl_word) = [].
Proof. unfold redirect. destruct (forallb _ _); simpl; [done|apply end_word_empty]. Qed.

Lemma one_of_false c cs : one_of c cs = false ↔ Forall (λ d, c ≠ d) cs.
Proof.
  unfold one_of. induction cs as [|d cs IH]; simpl; [split; [constructor|done]|].
  rewrite orb_false_iff, Z.eqb_neq, Forall_cons, IH. done.
Qed.
Lemma one_of_true c cs : one_of c cs = true ↔ c ∈ cs.
Proof.
  unfold one_of. rewrite existsb_exists. setoid_rewrite Z.eqb_eq. setoid_rewrite <-list_elem_of_In. naive_solver.
Qed.

(** The separators, and the marks that spoil a word. *)
Lemma separates_spec c : separates c = false ↔
  js_is_space c = false ∧ one_of c (lit ";&|()") = false ∧ one_of c (lit "<>") = false ∧ one_of c (lit "`$") = false.
Proof.
  unfold separates. rewrite orb_false_iff.
  change separators with (lit ";&|()" ++ lit "<>" ++ lit "`$"). unfold one_of. rewrite !existsb_app, !orb_false_iff. tauto.
Qed.
Lemma spoils_spec c : one_of c (lit "$`\'" ++ [double_quote]) = false ↔
  one_of c (lit "`$") = false ∧ c ≠ backslash ∧ is_quote c = false.
Proof.
  unfold is_quote. rewrite orb_false_iff, !Z.eqb_neq, !one_of_false. cbn [lit map app String.list_ascii_of_string].
  rewrite !Forall_cons, !Forall_nil. unfold backslash, single_quote, double_quote. cbn. intuition lia.
Qed.
Lemma escapes_spec c quote : escapes c quote = true → c = backslash.
Proof. unfold escapes. rewrite andb_true_iff, Z.eqb_eq. by intros []. Qed.
Lemma space_separates c : js_is_space c = true → separates c = true.
Proof. unfold separates. by intros ->. Qed.
Lemma one_of_forall (p : char → bool) c cs : one_of c cs = true → forallb p cs = true → p c = true.
Proof. intros H Hs. apply one_of_true in H. rewrite forallb_forall in Hs. apply Hs. by apply list_elem_of_In. Qed.
Lemma in_separators c cs : one_of c cs = true → forallb separates cs = true → separates c = true.
Proof. apply one_of_forall. Qed.

Lemma newline_separates : separates newline_char = true.
Proof. done. Qed.

Lemma lexed_escaped done quote l c : lexed done quote l → escapes c quote = true → lexed (done ++ [c]) quote (push_char c l).
Proof.
  intros H Hc%escapes_spec. apply (lexed_push done quote quote); [done| |]; subst; [|done]. by intros _ _ (_ & ? & _)%spoils_spec.
Qed.
(** What follows an escape is pushed whatever it is: the word is spoilt. *)
Lemma lexed_literal done quote l c a w : lexed done quote l → l.(cl_word) = w ++ [a] → one_of a (lit "$`\'" ++ [double_quote]) = true →
  lexed (done ++ [c]) quote (push_char c l).
Proof.
  intros [H1 H2 [H3 H4]] E Ha. split; simpl.
  - intros; by eapply closed_app, H1.
  - intros; by eapply closed_app, H2.
  - assert (simple (cl_word l ++ [c]) = false) as Hs by (rewrite simple_snoc, E, simple_snoc, Ha, andb_false_r; done).
    split; [done|congruence].
Qed.

Lemma lexed_plain done l c :
  lexed done None l → escapes c None = false → is_quote c = false → js_is_space c = false →
  one_of c (lit "<>") = false → one_of c (lit ";&|()") = false → lexed (done ++ [c]) None (push_char c l).
Proof.
  intros H He Hq Hs H1 H2. apply (lexed_push done None None); [done| |done].
  intros _ _ (Hm & Hb & _)%spoils_spec. split_and!; [|done|done]. by apply separates_spec.
Qed.

Lemma lex_from_lexed n s quote l done : length s ≤ n → lexed done quote l →
  ∃ quote', lexed (done ++ s) quote' (lex_from s quote l).
Proof.
  revert s quote l done. induction n as [|n IH]; intros s quote l done Hn H; (destruct s as [|ch rest];
    [exists quote; by rewrite app_nil_r|]); [simpl in Hn; lia|].
  simpl in Hn. rewrite (cons_middle ch done rest), app_assoc. cbn [lex_from].
  destruct (escapes ch quote) eqn:He.
  { pose proof (lexed_escaped _ _ _ _ H He) as H'. destruct rest as [|next rest]; [exists quote; by rewrite app_nil_r|].
    rewrite (cons_middle next _ rest), app_assoc. apply IH; [simpl in Hn; lia|].
    eapply (lexed_literal _ _ _ _ ch (cl_word l)); [done|done|]. apply escapes_spec in He as ->. done. }
  destruct quote as [open|].
  { apply IH; [lia|]. apply (lexed_push done (Some open)); [done|done|done]. }
  destruct (is_quote ch) eqn:Hq.
  { apply IH; [lia|]. apply (lexed_push done None (Some ch)); [done|done|]. intros _ _.
    apply not_false_iff_true. rewrite spoils_spec, Hq. naive_solver. }
  destruct (ch =? newline_char)%Z eqn:Hnl.
  { apply Z.eqb_eq in Hnl as ->. apply IH; [lia|]. by apply lexed_end_command. }
  destruct (js_is_space ch) eqn:Hsp.
  { apply IH; [lia|]. by apply lexed_end_word; [|apply space_separates]. }
  destruct (one_of ch (lit "<>")) eqn:Hr.
  { apply (in_separators _ _) in Hr; [|done]. pose proof (lexed_redirect _ _ _ H Hr) as H'.
    destruct rest as [|next rest]; [exists None; by rewrite app_nil_r|].
    destruct (next =? 0x26)%Z eqn:Ha; [|apply IH; [simpl in *; lia|done]].
    apply Z.eqb_eq in Ha as ->. rewrite (cons_middle _ _ rest), app_assoc. apply IH; [simpl in Hn; lia|].
    rewrite <-app_assoc. by apply lexed_more; [|apply redirect_empty|]. }
  assert (one_of ch (lit ";&|()") = true → separates ch = true) as Hsep by (intros Hc; by apply (in_separators _ _ Hc)).
  assert (one_of ch (lit ";&|()") = false → lexed (done ++ [ch]) None (push_char ch l)) as Hpl by (intros; by apply lexed_plain).
  destruct rest as [|next rest].
  { exists None. rewrite app_nil_r. destruct (one_of ch (lit ";&|()")) eqn:Hc; [by apply lexed_end_command; [|apply Hsep]|by apply Hpl]. }
  destruct ((ch =? 0x3B)%Z && (next =? 0x3B)%Z) eqn:Hd.
  { apply andb_true_iff in Hd as [->%Z.eqb_eq ->%Z.eqb_eq]. rewrite (cons_middle _ _ rest), app_assoc.
    apply IH; [simpl in Hn; lia|]. rewrite <-app_assoc. apply lexed_more; [by apply lexed_end_command|apply end_command_empty|done]. }
  destruct (one_of ch (lit ";&|()")) eqn:Hc; (apply IH; [simpl in *; lia|]); [by apply lexed_end_command; [|apply Hsep]|by apply Hpl].
Qed.

(** A text with no line continuation, which the lexer would join. *)
Fixpoint continued (s : text) : bool :=
  match s with
  | a :: (b :: _) as s' => (a =? backslash)%Z && (b =? newline_char)%Z || continued s'
  | _ => false
  end.
Lemma join_lines_id s : continued s = false → join_lines s = s.
Proof.
  induction s as [|a [|b s] IH]; [done..|]. cbn [continued join_lines]. intros [-> H]%orb_false_iff. f_equal. by apply IH.
Qed.
Lemma continued_app l s r : continued (l ++ s ++ r) = false → continued s = false.
Proof.
  intros H. assert (continued (s ++ r) = false) as Hs.
  { revert H. induction l as [|a l IH]; [done|]. simpl. destruct (l ++ s ++ r) eqn:E; [|rewrite orb_false_iff; intros []; by apply IH].
    intros _. apply app_eq_nil in E as [_ [-> ->]%app_eq_nil]. done. }
  clear H. induction s as [|a s IH]; [done|]. destruct s as [|b s]; [done|]. cbn [app continued] in *.
  apply orb_false_iff in Hs as [-> Hs]. by apply IH.
Qed.

(** Every word of every simple command, when spelled out, stands in the text. *)
Lemma command_words_stand raw c w : continued raw = false → c ∈ command_words raw → w ∈ c.(sc_words) →
  simple w = true → bare w ∧ stands raw w.
Proof.
  intros Hj Hc Hw Hs. unfold command_words in Hc. rewrite (join_lines_id _ Hj) in Hc.
  destruct (lex_from_lexed (length raw) raw None lexer_new [] (le_n _)) as [q [H1 H2 H3]].
  { split; [by intros c' w' ?%elem_of_nil|by intros w' ?%elem_of_nil|]. split; [done|]. intros _. exists []. by split_and!; [|left|]. }
  simpl in *. set (l := lex_from raw None lexer_new) in *.
  assert (∀ w, closed raw w → simple w = true → bare w ∧ stands raw w) as Hclosed.
  { intros w' [Hne Hcl] Hs'. destruct (Hcl Hs') as (Hb & l0 & d & r & E & Hl & Hd). split; [done|].
    exists l0, (d :: r). split_and!; [done|done|right; by exists d, r]. }
  assert (∀ w, w ∈ cl_command (end_word l) → simple w = true → bare w ∧ stands raw w) as Hlast.
  { unfold end_word. destruct (cl_word l) as [|a w1] eqn:E; [intros; by apply Hclosed; [apply H2|]|]. simpl.
    intros w' Hw' Hs'. destruct (cl_skip_word l); [by apply Hclosed; [apply H2|]|].
    apply elem_of_app in Hw' as [Hw'|Hw']; [by apply Hclosed; [apply H2|]|]. apply list_elem_of_singleton in Hw' as ->.
    destruct H3 as [_ H3]. destruct (H3 Hs') as (l0 & E0 & Hl & Hall). split; [by split|].
    exists l0, []. split_and!; [by rewrite app_nil_r|done|by left]. }
  assert (cl_commands (end_word l) = cl_commands l) as Ecmd by (unfold end_word; by destruct (cl_word l)).
  unfold end_command in Hc. destruct (negb _ || _ || _); simpl in Hc; rewrite Ecmd in Hc.
  - apply elem_of_app in Hc as [Hc|Hc]; [by eapply Hclosed; [eapply H1|]|]. apply list_elem_of_singleton in Hc as ->. by apply Hlast.
  - by eapply Hclosed; [eapply H1|].
Qed.

(** ** Substitutions *)

Lemma before_Some ch r body rest : before ch r = Some (body, rest) → ∃ body', body = ch :: body' ∧ r = Some (body', rest).
Proof. destruct r as [[b r']|]; [|done]. intros [= <- <-]. by exists b. Qed.

(** A scan that ends, ends at its delimiter. *)
Lemma paren_end_spec n s depth quote body rest : length s ≤ n → paren_end s depth quote = Some (body, rest) →
  s = body ++ 0x29%Z :: rest.
Proof.
  revert s depth quote body rest. induction n as [|n IH]; intros s depth quote body rest Hn;
    (destruct s as [|ch s]; [done|]); [simpl in Hn; lia|]. simpl in Hn. cbn [paren_end].
  assert (∀ d q, before ch (paren_end s d q) = Some (body, rest) → ch :: s = body ++ 0x29%Z :: rest) as Hstep.
  { intros d q (b & -> & E)%before_Some. simpl. f_equal. eapply IH; [|exact E]. lia. }
  destruct (escapes ch quote).
  { destruct s as [|next s]; [done|]. intros (b & -> & (b' & -> & E)%before_Some)%before_Some. simpl. do 2 f_equal.
    eapply IH; [|exact E]. simpl in Hn. lia. }
  destruct quote as [open|]; [apply Hstep|]. destruct (is_quote ch); [apply Hstep|].
  destruct (ch =? 0x28)%Z; [apply Hstep|]. destruct (Z.eqb_spec ch 0x29) as [->|]; [|apply Hstep].
  destruct (depth - 1 =? 0); [|apply Hstep]. by intros [= <- <-].
Qed.
Lemma backtick_end_spec n s body rest : length s ≤ n → backtick_end s = Some (body, rest) → s = body ++ 0x60%Z :: rest.
Proof.
  revert s body rest. induction n as [|n IH]; intros s body rest Hn; (destruct s as [|ch s]; [done|]); [simpl in Hn; lia|].
  simpl in Hn. cbn [backtick_end]. destruct (ch =? backslash)%Z.
  { destruct s as [|next s]; [done|]. intros (b & -> & (b' & -> & E)%before_Some)%before_Some. simpl. do 2 f_equal.
    eapply IH; [|exact E]. simpl in Hn. lia. }
  destruct (Z.eqb_spec ch 0x60) as [->|]; [by intros [= <- <-]|].
  intros (b & -> & E)%before_Some. simpl. f_equal. eapply IH; [|exact E]. lia.
Qed.

(** What a body is followed by. *)
Lemma paren_body_spec s : ∃ r, s = (paren_body s).1 ++ r ∧ right_bound r ∧ (∃ l, s = l ++ (paren_body s).2).
Proof.
  unfold paren_body. destruct (paren_end s 1 None) as [[body rest]|] eqn:E; simpl.
  - apply (paren_end_spec (length s)) in E; [|done]. exists (0x29%Z :: rest). split_and!; [done|right; by eexists _, _|].
    exists (body ++ [0x29%Z]). by rewrite <-app_assoc.
  - exists []. rewrite app_nil_r. split_and!; [done|by left|exists s; by rewrite app_nil_r].
Qed.
Lemma backtick_body_spec s : ∃ r, s = (backtick_body s).1 ++ r ∧ right_bound r ∧ (∃ l, s = l ++ (backtick_body s).2).
Proof.
  unfold backtick_body. destruct (backtick_end s) as [[body rest]|] eqn:E; simpl.
  - apply (backtick_end_spec (length s)) in E; [|done]. exists (0x60%Z :: rest). split_and!; [done|right; by eexists _, _|].
    exists (body ++ [0x60%Z]). by rewrite <-app_assoc.
  - exists []. rewrite app_nil_r. split_and!; [done|by left|exists s; by rewrite app_nil_r].
Qed.

(** A part of a text that follows a separator, up to a separator or the end. *)
Definition inside (s body : text) : Prop :=
  ∃ l c r, s = (l ++ [c]) ++ body ++ r ∧ separates c = true ∧ right_bound r.
Lemma inside_cons a s body : inside s body → inside (a :: s) body.
Proof. intros (l & c & r & -> & Hc & Hr). by exists (a :: l), c, r. Qed.
Lemma inside_app l s body : inside s body → inside (l ++ s) body.
Proof. induction l; [done|]. intros. simpl. by apply inside_cons, IHl. Qed.
Lemma inside_shorter s body : inside s body → length body < length s.
Proof. intros (l & c & r & -> & _). rewrite !length_app. simpl. lia. Qed.

Lemma substitutions_inside fuel s quote body : body ∈ substitutions fuel s quote → inside s body.
Proof.
  revert s quote. induction fuel as [|fuel IH]; intros s quote; [by intros ?%elem_of_nil|].
  destruct s as [|ch rest]; [by intros ?%elem_of_nil|]. cbn [substitutions].
  assert (∀ q, body ∈ substitutions fuel rest q → inside (ch :: rest) body) as Hnext by (intros; by eapply inside_cons, IH).
  destruct (escapes ch quote).
  { intros H%IH. apply inside_cons. rewrite <-(take_drop 1 rest). by apply inside_app. }
  destruct quote as [open|]; [|apply Hnext]. destruct (open =? single_quote)%Z; [apply Hnext|].
  destruct (ch =? double_quote)%Z; [apply Hnext|].
  destruct ((ch =? 0x24)%Z && bool_decide (head rest = Some 0x28%Z)) eqn:Ep.
  { apply andb_true_iff in Ep as [_ Eh%bool_decide_eq_true]. destruct rest as [|p rest]; [done|]. injection Eh as ->.
    change (drop 1 (0x28%Z :: rest)) with rest. destruct (paren_body_spec rest) as (r & E & Hr & l & El). destruct (paren_body rest) as [b after]. simpl in *.
    intros [->|H]%elem_of_cons; apply inside_cons; [exists [], 0x28%Z, r; by rewrite E|].
    apply inside_cons. rewrite El. by apply inside_app, (IH _ (Some open)). }
  destruct (Z.eqb_spec ch 0x60) as [->|]; [|apply Hnext].
  destruct (backtick_body_spec rest) as (r & E & Hr & l & El). destruct (backtick_body rest) as [b after]. simpl in *.
  intros [->|H]%elem_of_cons; [exists [], 0x60%Z, r; by rewrite E|].
  apply inside_cons. rewrite El. by apply inside_app, (IH _ (Some open)).
Qed.
Lemma double_quoted_inside raw body : body ∈ double_quoted_substitutions raw → inside raw body.
Proof. apply substitutions_inside. Qed.

Lemma stands_in_body raw body w : inside raw body → stands body w → stands raw w.
Proof. intros (l & c & r & -> & Hc & Hr). by apply stands_inside; [apply left_bound_snoc|]. Qed.

(** The length of a text is fuel enough for its substitutions. *)
Lemma substitutions_fuel fuel fuel' s quote : length s ≤ fuel → length s ≤ fuel' →
  substitutions fuel s quote = substitutions fuel' s quote.
Proof.
  revert fuel' s quote. induction fuel as [|fuel IH]; intros [|fuel'] [|ch rest] quote; simpl length; try lia; try done.
  intros H1 H2. cbn [substitutions].
  assert (∀ s q, length s ≤ length rest → substitutions fuel s q = substitutions fuel' s q) as Hs by (intros; apply IH; lia).
  destruct (escapes ch quote); [apply Hs; rewrite length_drop; lia|].
  destruct quote as [open|]; [|by apply Hs]. destruct (open =? single_quote)%Z; [by apply Hs|].
  destruct (ch =? double_quote)%Z; [by apply Hs|]. destruct (_ && _).
  { destruct (paren_body_spec (drop 1 rest)) as (_ & _ & _ & l & El). destruct (paren_body (drop 1 rest)) as [b after].
    simpl in El. f_equal. apply Hs. apply (f_equal length) in El. rewrite length_app, length_drop in El. lia. }
  destruct (ch =? 0x60)%Z; [|by apply Hs].
  destruct (backtick_body_spec rest) as (_ & _ & _ & l & El). destruct (backtick_body rest) as [b after].
  simpl in El. f_equal. apply Hs. apply (f_equal length) in El. rewrite length_app in El. lia.
Qed.

Module Script.
(** ** Scripts *)

(** A fragment of the shell's language, as it is written: words of plain,
    quoted and escaped parts, a part in double quotes with a command
    substitution in it; simple commands of keywords, assignments, wrappers,
    words and redirections; and what stands between them, subshells and
    unquoted substitutions ([$] before a parenthesis) included. *)
Inductive separator := SSemi | SAmp | SAnd | SOr | SPipe | SNewline | SOpen | SClose.
Inductive piece :=
  | Plain (t : text)
  | Single (t : text)
  | Double (t : text)
  | Escaped (c : char)
  | Subst (a : text) (body : script) (b : text)
with item :=
  | Keyword (t : text)
  | Assign (name : text) (w : list piece)
  | Wrapper (t : text) (duration : option text)
  | Word (w : list piece)
  | Redirect (fd op : text) (w : list piece)
with script :=
  | Last (c : list item)
  | Then (c : list item) (s : separator) (rest : script).

(** How it is written down. *)
Definition print_separator (s : separator) : text :=
  match s with
  | SSemi => lit ";" | SAmp => lit "&" | SAnd => lit "&&" | SOr => lit "||" | SPipe => lit "|"
  | SNewline => [newline_char] | SOpen => lit "(" | SClose => lit ")"
  end.
Definition blank : char := 0x20%Z.
Fixpoint print_piece (p : piece) : text :=
  match p with
  | Plain t => t
  | Single t => single_quote :: t ++ [single_quote]
  | Double t => double_quote :: t ++ [double_quote]
  | Escaped c => [backslash; c]
  | Subst a body b => double_quote :: a ++ lit "$(" ++ print_script body ++ lit ")" ++ b ++ [double_quote]
  end
with print_item (i : item) : text :=
  match i with
  | Keyword t => t
  | Assign name w => name ++ lit "=" ++ concat (map print_piece w)
  | Wrapper t None => t
  | Wrapper t (Some d) => t ++ blank :: d
  | Word w => concat (map print_piece w)
  | Redirect fd op w => fd ++ op ++ concat (map print_piece w)
  end
with print_script (s : script) : text :=
  match s with
  | Last c => concat (map (λ i, blank :: print_item i) c)
  | Then c s rest => concat (map (λ i, blank :: print_item i) c) ++ print_separator s ++ blank :: print_script rest
  end.
Definition print_word (w : list piece) : text := concat (map print_piece w).
Definition print_command (c : list item) : text := concat (map (λ i, blank :: print_item i) c).

Fixpoint commands (s : script) : list (list item) :=
  match s with Last c => [c] | Then c _ rest => c :: commands rest end.
(** The substitutions of a command. *)
Definition substs_of (p : piece) : list script := match p with Subst _ body _ => [body] | _ => [] end.
Definition item_pieces (i : item) : list piece :=
  match i with Assign _ w | Word w | Redirect _ _ w => w | _ => [] end.
Definition substs (c : list item) : list script := flat_map substs_of (flat_map item_pieces c).

(** What the shell runs of a script: its commands and those of its
    substitutions. *)
Inductive executes : script → list item → Prop :=
  | executes_here s c : c ∈ commands s → executes s c
  | executes_inside s c body c' : c ∈ commands s → body ∈ substs c → executes body c' → executes s c'.

(** The words of a command, and the one that names its program: the first
    that is no keyword, no assignment and no wrapper. *)
Definition item_words (i : item) : list text :=
  match i with
  | Wrapper t (Some d) => [t; d]
  | Redirect _ _ _ => []
  | i => [print_item i]
  end.
Definition words_of (c : list item) : list text := flat_map item_words c.
Definition loop_head (c : list item) : bool :=
  bool_decide (head (words_of c) = Some (lit "for")) || bool_decide (head (words_of c) = Some (lit "select")).
Fixpoint first_word (c : list item) : option (list piece) :=
  match c with [] => None | Word w :: _ => Some w | _ :: c => first_word c end.
Definition program (c : list item) : option (list piece) := if loop_head c then None else first_word c.

(** ** Well-formed scripts *)

Definition word_char (c : char) : bool :=
  negb (js_is_space c) && negb (is_quote c) && negb (c =? backslash)%Z && negb (c =? 0x60)%Z && negb (one_of c (lit ";&|()<>")).
Definition quoted_char (c : char) : bool := negb (c =? double_quote)%Z && negb (c =? backslash)%Z && negb (c =? 0x60)%Z.
Fixpoint opens_subst (t : text) : bool :=
  match t with
  | c :: (d :: _) as t' => (c =? 0x24)%Z && (d =? 0x28)%Z || opens_subst t'
  | _ => false
  end.
Definition quoted_text (t : text) : bool := forallb quoted_char t && negb (opens_subst t).
Definition body_char (c : char) : bool := quoted_char c && negb (one_of c (lit "()'")).
Definition is_name (t : text) : bool :=
  match t with c :: s => name_start c && forallb name_char s | [] => false end.
Definition is_plain (p : piece) : bool := match p with Plain _ => true | _ => false end.
Fixpoint no_plain_pair (w : list piece) : bool :=
  match w with p :: ((q :: _) as w) => negb (is_plain p && is_plain q) && no_plain_pair w | _ => true end.

Section lower.
Context {L : Lowercase}.

(** A word that may name a program. *)
Definition program_ok (t : text) : bool :=
  negb (prefixb (lit "-") t) && negb (is_assignment t) && negb (mem t command_prefix_keywords)
  && negb (mem (executable_name t) wrapper_words).
Fixpoint piece_ok (p : piece) : bool :=
  match p with
  | Plain t => negb (bool_decide (t = [])) && forallb word_char t
  | Single t => forallb (λ c, negb (c =? single_quote)%Z) t
  | Double t => quoted_text t
  | Escaped _ => true
  | Subst a body b => quoted_text a && quoted_text b && forallb body_char (print_script body) && script_ok body
  end
with item_ok (i : item) : bool :=
  match i with
  | Keyword t => mem t command_prefix_keywords
  | Assign name w => is_name name && forallb word_char name && forallb piece_ok w
  | Wrapper t d =>
      forallb word_char t && mem (executable_name t) wrapper_words && negb (prefixb (lit "-") t)
      && negb (is_assignment t) && negb (mem t command_prefix_keywords)
      && Bool.eqb (bool_decide (executable_name t = lit "timeout")) (is_some d)
      && match d with Some d => is_duration d && forallb word_char d | None => true end
  | Word w => negb (bool_decide (w = [])) && forallb piece_ok w && no_plain_pair w
  | Redirect fd op w =>
      mem fd (map lit [""; "0"; "1"; "2"]) && mem op (map lit ["<"; ">"; ">>"; "<&"; ">&"])
      && negb (bool_decide (w = [])) && forallb piece_ok w
  end
with script_ok (s : script) : bool :=
  match s with
  | Last c => forallb item_ok c && negb (bool_decide (head (words_of c) = Some (lit "case")))
      && match first_word c with Some w => program_ok (print_word w) | None => true end
  | Then c _ rest => forallb item_ok c && negb (bool_decide (head (words_of c) = Some (lit "case")))
      && match first_word c with Some w => program_ok (print_word w) | None => true end && script_ok rest
  end.
Definition command_ok (c : list item) : bool :=
  forallb item_ok c && negb (bool_decide (head (words_of c) = Some (lit "case")))
  && match first_word c with Some w => program_ok (print_word w) | None => true end.
Lemma script_ok_commands s : script_ok s = true → Forall (λ c, command_ok c = true) (commands s).
Proof.
  induction s as [c|c sep rest IH]; simpl; [by repeat constructor|]. intros [H Hr]%andb_true_iff. constructor; [exact H|by apply IH].
Qed.

(** ** The lexer on a script *)

Definition push_text (t : text) (l : CommandLexer) : CommandLexer :=
  mkLexer l.(cl_commands) l.(cl_command) (l.(cl_word) ++ t) l.(cl_skip_word).
Lemma push_text_nil l : push_text [] l = l.
Proof. destruct l. unfold push_text. simpl. by rewrite app_nil_r. Qed.
Lemma push_text_cons c t l : push_text t (push_char c l) = push_text (c :: t) l.
Proof. unfold push_text. simpl. by rewrite <-app_assoc. Qed.
Lemma push_text_app t t' l : push_text t' (push_text t l) = push_text (t ++ t') l.
Proof. unfold push_text. simpl. by rewrite <-app_assoc. Qed.

Lemma word_char_spec c : word_char c = true →
  js_is_space c = false ∧ is_quote c = false ∧ c ≠ backslash ∧ one_of c (lit ";&|()") = false ∧ one_of c (lit "<>") = false.
Proof.
  unfold word_char. rewrite !andb_true_iff, !negb_true_iff. intros [[[[H1 H2] H3%Z.eqb_neq] _] H4].
  change (lit ";&|()<>") with (lit ";&|()" ++ lit "<>") in H4. unfold one_of in *. rewrite existsb_app in H4.
  apply orb_false_iff in H4. tauto.
Qed.
Lemma not_backslash c q : c ≠ backslash → escapes c q = false.
Proof. intros H. unfold escapes. by rewrite (proj2 (Z.eqb_neq _ _) H). Qed.

Lemma lex_plain t rest l : forallb word_char t = true → lex_from (t ++ rest) None l = lex_from rest None (push_text t l).
Proof.
  revert l. induction t as [|c t IH]; intros l; [by rewrite push_text_nil|]. simpl forallb.
  intros [(Hs & Hq & Hb & H1 & H2)%word_char_spec Ht]%andb_true_iff. rewrite <-push_text_cons, <-IH by done.
  simpl app. cbn [lex_from]. rewrite (not_backslash _ _ Hb), Hq, Hs, H2, H1.
  assert ((c =? newline_char)%Z = false) as -> by (apply Z.eqb_neq; intros ->; done).
  assert ((c =? 0x3B)%Z = false) as -> by (apply Z.eqb_neq; intros ->; done).
  by destruct (t ++ rest).
Qed.
Lemma lex_quoted q t rest l : Forall (λ c, c ≠ q ∧ escapes c (Some q) = false) t → escapes q (Some q) = false →
  lex_from ((t ++ [q]) ++ rest) (Some q) l = lex_from rest None (push_text (t ++ [q]) l).
Proof.
  intros Ht Hq. rewrite <-app_assoc. cbn [app]. revert l. induction Ht as [|c t [Hc He] _ IH]; intros l.
  - cbn [app lex_from]. rewrite Hq, Z.eqb_refl. by rewrite <-push_text_cons, push_text_nil.
  - cbn [app lex_from]. rewrite He, (proj2 (Z.eqb_neq _ _) Hc), IH. by rewrite push_text_cons.
Qed.
Lemma lex_open q rest l : is_quote q = true → lex_from (q :: rest) None l = lex_from rest (Some q) (push_char q l).
Proof.
  intros Hq. cbn [lex_from]. rewrite not_backslash, Hq; [done|]. intros ->. done.
Qed.

Lemma quoted_char_spec c : quoted_char c = true → c ≠ double_quote ∧ c ≠ backslash ∧ c ≠ 0x60%Z.
Proof. unfold quoted_char. rewrite !andb_true_iff, !negb_true_iff, !Z.eqb_neq. tauto. Qed.
Lemma quoted_inside t : forallb quoted_char t = true → Forall (λ c, c ≠ double_quote ∧ escapes c (Some double_quote) = false) t.
Proof.
  rewrite forallb_forall. intros H. apply Forall_forall. intros c Hc%list_elem_of_In%H%quoted_char_spec.
  split; [tauto|]. apply not_backslash; tauto.
Qed.
Lemma body_quoted t : forallb body_char t = true → forallb quoted_char t = true.
Proof. rewrite !forallb_forall. intros H c Hc%H. by apply andb_true_iff in Hc as [? _]. Qed.
(** The text between the quotes of a substitution. *)
Definition inner (a : text) (body : script) (b : text) : text := a ++ lit "$(" ++ print_script body ++ lit ")" ++ b.
Lemma inner_quoted a body b : piece_ok (Subst a body b) = true → forallb quoted_char (inner a body b) = true.
Proof.
  cbn [piece_ok]. unfold quoted_text, inner. rewrite !andb_true_iff. intros [[[[Ha _] [Hb _]] Hbody%body_quoted] _].
  rewrite !forallb_app, Ha, Hb, Hbody. done.
Qed.
Lemma print_subst a body b : print_piece (Subst a body b) = double_quote :: inner a body b ++ [double_quote].
Proof. unfold inner. cbn [print_piece]. by rewrite <-!app_assoc. Qed.

Lemma lex_piece p rest l : piece_ok p = true → lex_from (print_piece p ++ rest) None l = lex_from rest None (push_text (print_piece p) l).
Proof.
  destruct p as [t|t|t|c|a body b]; [| | | |intros H%inner_quoted; rewrite print_subst; revert H; generalize (inner a body b); intros t];
    [|cbn [print_piece piece_ok]..|]; intros H.
  - cbn [piece_ok] in H. apply andb_true_iff in H as [_ H]. by apply lex_plain.
  - rewrite <-app_comm_cons, lex_open by done. rewrite lex_quoted; [by rewrite push_text_cons| |done].
    rewrite forallb_forall in H. apply Forall_forall. intros c Hc%list_elem_of_In%H. apply negb_true_iff, Z.eqb_neq in Hc.
    split; [done|]. unfold escapes. by rewrite andb_false_r.
  - apply andb_true_iff in H as [H _]. rewrite <-app_comm_cons, lex_open by done.
    rewrite lex_quoted; [by rewrite push_text_cons|by apply quoted_inside|done].
  - cbn [app lex_from]. by rewrite <-!push_text_cons, push_text_nil.
  - rewrite <-app_comm_cons, lex_open by done.
    rewrite lex_quoted; [by rewrite push_text_cons|by apply quoted_inside|done].
Qed.
Lemma lex_word w rest l : forallb piece_ok w = true → lex_from (print_word w ++ rest) None l = lex_from rest None (push_text (print_word w) l).
Proof.
  unfold print_word. revert l. induction w as [|p w IH]; intros l; [by rewrite push_text_nil|]. simpl forallb.
  intros [Hp Hw]%andb_true_iff. cbn [map concat]. rewrite <-app_assoc, lex_piece, IH by done. by rewrite push_text_app.
Qed.

(** Between two words the lexer has commands, a command and no word. *)
Definition at_ (cs : list SimpleCommand) (cmd : list text) (l : CommandLexer) : Prop := end_word l = mkLexer cs cmd [] false.
Lemma at_start cs cmd : at_ cs cmd (mkLexer cs cmd [] false).
Proof. done. Qed.
Lemma at_word cs cmd t : t ≠ [] → at_ cs (cmd ++ [t]) (push_text t (mkLexer cs cmd [] false)).
Proof. by destruct t. Qed.
Lemma lex_blank rest l cs cmd : at_ cs cmd l → lex_from (blank :: rest) None l = lex_from rest None (mkLexer cs cmd [] false).
Proof. intros <-. done. Qed.

Lemma piece_ok_some p : piece_ok p = true → print_piece p ≠ [].
Proof. destruct p as [t|t|t|c|a body b]; try done. cbn [piece_ok print_piece]. by destruct t. Qed.
Lemma word_ok_some w : w ≠ [] → forallb piece_ok w = true → print_word w ≠ [].
Proof.
  destruct w as [|p w]; [done|]. simpl. intros _ [Hp%piece_ok_some _]%andb_true_iff. unfold print_word. cbn [map concat].
  by destruct (print_piece p).
Qed.
(** A word starts with no ampersand and no angle bracket. *)
Lemma word_head w : w ≠ [] → forallb piece_ok w = true →
  ∃ c t, print_word w = c :: t ∧ c ≠ 0x26%Z ∧ one_of c (lit "<>") = false.
Proof.
  destruct w as [|p w]; [done|]. simpl. intros _ [Hp _]%andb_true_iff. unfold print_word. cbn [map concat].
  destruct p as [t|t|t|c|a body b]; [|cbn [print_piece app]; by eexists _, _..].
  cbn [piece_ok] in Hp. apply andb_true_iff in Hp as [Hne Ht]. destruct t as [|c t]; [done|]. simpl in Ht.
  apply andb_true_iff in Ht as [(_ & _ & _ & H1 & H2)%word_char_spec _]. exists c, (t ++ concat (map print_piece w)). split; [done|]. split; [|done].
  intros ->. done.
Qed.

(** The words of an item join the command. *)
Lemma lex_one cs cmd t rest l : t ≠ [] → at_ cs cmd l →
  (∀ l, lex_from (t ++ rest) None l = lex_from rest None (push_text t l)) →
  ∃ l', lex_from (blank :: t ++ rest) None l = lex_from rest None l' ∧ at_ cs (cmd ++ [t]) l'.
Proof. intros Hne Hl Hlex. rewrite (lex_blank _ _ cs cmd) by done. rewrite Hlex. eexists. split; [done|by apply at_word]. Qed.

Lemma keywords_plain t : mem t command_prefix_keywords = true → t ≠ [] ∧ forallb word_char t = true.
Proof.
  intros H. apply existsb_exists in H as (w & Hw & ->%bool_decide_eq_true).
  assert (forallb (λ w, negb (bool_decide (w = [])) && forallb word_char w) command_prefix_keywords = true) as Hall by by vm_compute.
  rewrite forallb_forall in Hall. apply Hall, andb_true_iff in Hw as [?%negb_true_iff%bool_decide_eq_false ?]. done.
Qed.
Lemma mem_cases w ws : mem w ws = true → w ∈ ws.
Proof. unfold mem. rewrite existsb_exists. intros (w' & Hw%list_elem_of_In & ->%bool_decide_eq_true). done. Qed.
Lemma wrapper_some t : mem (executable_name t) wrapper_words = true → prefixb (lit "-") t = false → t ≠ [].
Proof.
  intros H _ ->. unfold executable_name in H. rewrite lowercase_ascii in H by done. by vm_compute in H.
Qed.
Lemma duration_some d : is_duration d = true → d ≠ [].
Proof. by destruct d. Qed.

(** A redirection drops its file and the number before it. *)
Lemma lex_angle ch next rest l : ch = 0x3C%Z ∨ ch = 0x3E%Z →
  lex_from (ch :: next :: rest) None l = if (next =? 0x26)%Z then lex_from rest None (redirect l) else lex_from (next :: rest) None (redirect l).
Proof. by intros [-> | ->]. Qed.
Lemma redirect_number cs cmd fd b : forallb is_digit fd = true → redirect (mkLexer cs cmd fd b) = mkLexer cs cmd [] true.
Proof. intros H. unfold redirect. cbn [cl_word]. by rewrite H. Qed.
Lemma lex_operator fd op c rest cs cmd : mem fd (map lit [""; "0"; "1"; "2"]) = true →
  mem op (map lit ["<"; ">"; ">>"; "<&"; ">&"]) = true → c ≠ 0x26%Z →
  lex_from ((fd ++ op) ++ c :: rest) None (mkLexer cs cmd [] false) = lex_from (c :: rest) None (mkLexer cs cmd [] true).
Proof.
  intros Hfd%mem_cases%list_elem_of_In Hop%mem_cases%list_elem_of_In Hc%Z.eqb_neq. rewrite <-app_assoc.
  assert (forallb word_char fd = true ∧ forallb is_digit fd = true) as [Hw Hd]
    by (cbn [map In] in Hfd; destruct Hfd as [<-|[<-|[<-|[<-|[]]]]]; by vm_compute).
  rewrite lex_plain by done. unfold push_text. cbn [cl_commands cl_command cl_word cl_skip_word app].
  cbn [map In] in Hop. destruct Hop as [<-|[<-|[<-|[<-|[<-|[]]]]]]; cbn [lit map String.list_ascii_of_string app].
  all: rewrite lex_angle by (cbv; auto).
  all: try (cbn -[lex_from redirect Z.eqb]; rewrite ?Hc, redirect_number by done; done).
  change (Z.of_N (Ascii.N_of_ascii ">") =? 0x26)%Z with false. cbv iota. rewrite lex_angle, Hc by (cbv; auto).
  by rewrite !redirect_number.
Qed.

(** The words of an item are read. *)
Lemma lex_item i rest cs cmd l : item_ok i = true → at_ cs cmd l →
  ∃ l', lex_from (blank :: print_item i ++ rest) None l = lex_from rest None l' ∧ at_ cs (cmd ++ item_words i) l'.
Proof.
  intros Hi Hl. destruct i as [t|name w|t d|w|fd op w]; cbn [item_ok] in Hi.
  - apply keywords_plain in Hi as [Hne Ht]. apply lex_one; [done..|]. intros l0. by apply lex_plain.
  - apply andb_true_iff in Hi as [[Hn Hw1]%andb_true_iff Hw]. cbn [print_item item_words]. apply lex_one; [by destruct name|done|].
    intros l0. fold (print_word w). rewrite app_assoc, <-app_assoc, lex_plain, lex_word, push_text_app by (by rewrite ?forallb_app, ?Hw1). done.
  - rewrite !andb_true_iff, !negb_true_iff in Hi. destruct Hi as [[[[[[Ht Hm] Hp] _] _] _] Hd].
    assert (t ≠ []) as Hne by by apply wrapper_some. destruct d as [d|]; cbn [print_item item_words].
    + apply andb_true_iff in Hd as [Hd1%duration_some Hd2].
      destruct (lex_one cs cmd t (blank :: d ++ rest) l Hne Hl) as (l1 & E1 & H1); [by intros; apply lex_plain|].
      destruct (lex_one cs (cmd ++ [t]) d rest l1 Hd1 H1) as (l2 & E2 & H2); [by intros; apply lex_plain|].
      exists l2. rewrite <-app_assoc in H2. rewrite <-app_assoc. cbn [app] in *. by rewrite E1, E2.
    + apply lex_one; [done..|]. intros l0. by apply lex_plain.
  - rewrite !andb_true_iff, negb_true_iff, bool_decide_eq_false in Hi. destruct Hi as [[Hne Hw] _].
    apply lex_one; [by apply word_ok_some|done|]. intros l0. by apply lex_word.
  - rewrite !andb_true_iff, negb_true_iff, bool_decide_eq_false in Hi. destruct Hi as [[[Hfd Hop] Hne] Hw].
    rewrite (lex_blank _ _ cs cmd) by done. cbn [print_item item_words]. fold (print_word w).
    destruct (word_head w Hne Hw) as (c & t & E & Hc & _). pose proof (lex_word w rest (mkLexer cs cmd [] true) Hw) as Hlex.
    rewrite E in *. rewrite app_assoc, <-app_assoc. cbn [app] in *. rewrite (lex_operator fd op c) by done. rewrite Hlex.
    eexists. split; [done|]. rewrite app_nil_r. done.
Qed.
Lemma print_command_cons i c : print_command (i :: c) = blank :: print_item i ++ print_command c.
Proof. done. Qed.
Lemma lex_command c rest cs cmd l : forallb item_ok c = true → at_ cs cmd l →
  ∃ l', lex_from (print_command c ++ rest) None l = lex_from rest None l' ∧ at_ cs (cmd ++ words_of c) l'.
Proof.
  revert cmd l. induction c as [|i c IH]; intros cmd l; [intros _ Hl; exists l; by rewrite app_nil_r|].
  simpl forallb. intros [Hi Hc]%andb_true_iff Hl. rewrite print_command_cons, <-app_comm_cons, <-app_assoc.
  destruct (lex_item i (print_command c ++ rest) cs cmd l Hi Hl) as (l1 & -> & H1).
  destruct (IH _ _ Hc H1) as (l2 & -> & H2). exists l2. split; [done|]. unfold words_of in *. cbn [flat_map]. by rewrite app_assoc.
Qed.

(** A separator ends the command; a closing parenthesis an empty one, too. *)
Definition separator_char (s : separator) : char :=
  match s with
  | SSemi => 0x3B%Z | SAmp | SAnd => 0x26%Z | SOr | SPipe => 0x7C%Z | SNewline => newline_char | SOpen => 0x28%Z | SClose => 0x29%Z
  end.
Definition ended_by (e : char) (words : list text) : list SimpleCommand :=
  if negb (bool_decide (words = [])) || (e =? 0x29)%Z || (e =? arm_end)%Z then [mkSimple words e] else [].
Fixpoint read_as (s : script) : list SimpleCommand :=
  match s with
  | Last c => ended_by end_of_text (words_of c)
  | Then c sep rest => ended_by (separator_char sep) (words_of c) ++ read_as rest
  end.
Lemma end_command_at cs cmd l e : at_ cs cmd l → end_command e l = mkLexer (cs ++ ended_by e cmd) [] [] false.
Proof.
  unfold at_, end_command, ended_by. intros ->. cbn [cl_commands cl_command cl_word cl_skip_word].
  destruct (negb _ || _ || _) eqn:E; [done|]. rewrite app_nil_r. rewrite !orb_false_iff, negb_false_iff, bool_decide_eq_true in E.
  by destruct E as [[-> _] _].
Qed.
Lemma lex_ends e rest l : one_of e (lit ";&|()") = true → is_quote e = false → escapes e None = false → js_is_space e = false →
  one_of e (lit "<>") = false → (e =? newline_char)%Z = false → head rest ≠ Some 0x3B%Z → rest ≠ [] →
  lex_from (e :: rest) None l = lex_from rest None (end_command e l).
Proof.
  intros H1 H2 H3 H4 H5 H6 H7 H8. cbn [lex_from]. rewrite H1, H2, H3, H4, H5, H6. destruct rest as [|n rest]; [done|].
  assert ((n =? 0x3B)%Z = false) as -> by (apply Z.eqb_neq; naive_solver). by rewrite andb_false_r.
Qed.
Lemma lex_separator sep rest cs cmd l : at_ cs cmd l →
  lex_from (print_separator sep ++ blank :: rest) None l
  = lex_from (blank :: rest) None (mkLexer (cs ++ ended_by (separator_char sep) cmd) [] [] false).
Proof.
  intros Hl. rewrite <-(end_command_at _ _ l) by done.
  assert (∀ e, e ≠ 0x29%Z → e ≠ arm_end → end_command e (end_command e l) = end_command e l) as Htwice.
  { intros e He%Z.eqb_neq Ha%Z.eqb_neq. rewrite (end_command_at _ _ _ e Hl).
    unfold end_command at 1. unfold end_word. cbn [cl_commands cl_command cl_word cl_skip_word]. by rewrite He, Ha. }
  destruct sep; cbn [print_separator lit map String.list_ascii_of_string app separator_char].
  all: try (apply lex_ends; done).
  - rewrite lex_ends by done. rewrite lex_ends by done. f_equal. by apply Htwice.
  - rewrite lex_ends by done. rewrite lex_ends by done. f_equal. by apply Htwice.
  - done.
Qed.
Lemma lex_script s cs l : script_ok s = true → at_ cs [] l →
  cl_commands (end_command end_of_text (lex_from (print_script s) None l)) = cs ++ read_as s.
Proof.
  revert cs l. induction s as [c|c sep rest IH]; intros cs l Hs Hl.
  - pose proof (lex_command c [] cs [] l) as (l1 & E & H1); [|done|].
    { cbn [script_ok] in Hs. by apply andb_true_iff in Hs as [[? _]%andb_true_iff _]. }
    rewrite app_nil_r in E. change (print_script (Last c)) with (print_command c). rewrite E. cbn [lex_from].
    by rewrite (end_command_at _ _ _ _ H1).
  - cbn [script_ok] in Hs. apply andb_true_iff in Hs as [[[Hc _]%andb_true_iff _]%andb_true_iff Hs].
    change (print_script (Then c sep rest)) with (print_command c ++ print_separator sep ++ blank :: print_script rest).
    destruct (lex_command c (print_separator sep ++ blank :: print_script rest) cs [] l Hc Hl) as (l1 & -> & H1).
    rewrite (lex_separator _ _ _ _ _ H1). rewrite (lex_blank _ _ (cs ++ ended_by (separator_char sep) (words_of c)) []) by done.
    rewrite (IH (cs ++ ended_by (separator_char sep) (words_of c))) by done. cbn [read_as]. by rewrite app_assoc.
Qed.
Lemma command_words_script s : script_ok s = true → continued (print_script s) = false → command_words (print_script s) = read_as s.
Proof. intros Hs Hj. unfold command_words. rewrite join_lines_id by done. by apply (lex_script s [] lexer_new). Qed.

(** Without a [case] every command is judged but the heads of loops. *)
Lemma judged_no_case cs : Forall (λ c, head c.(sc_words) ≠ Some (lit "case")) cs →
  judged_from 0 false cs = map sc_words (filter (λ c, head c.(sc_words) ≠ Some (lit "for") ∧ head c.(sc_words) ≠ Some (lit "select")) cs).
Proof.
  induction 1 as [|c cs Hc _ IH]; [done|]. cbn [judged_from]. rewrite bool_decide_false by done.
  assert (∀ b : bool, (if b then 0 - 1 else 0) = 0) as Hz by (by intros []). rewrite Hz. change (0 <? 0) with false. rewrite andb_false_r.
  destruct (bool_decide_reflect (head (sc_words c) = Some (lit "for"))) as [E|E]; cbn [orb]; [rewrite filter_cons_False by naive_solver; done|].
  destruct (bool_decide_reflect (head (sc_words c) = Some (lit "select"))) as [E'|E']; [rewrite filter_cons_False by naive_solver; done|].
  rewrite filter_cons_True by done. cbn [map]. by rewrite IH.
Qed.
Lemma ended_by_elem e words x : x ∈ ended_by e words → x.(sc_words) = words.
Proof. unfold ended_by. destruct (_ || _); [by intros ->%list_elem_of_singleton|by intros ?%elem_of_nil]. Qed.
Lemma ended_by_some e words : words ≠ [] → ended_by e words = [mkSimple words e].
Proof. intros H. unfold ended_by. by rewrite bool_decide_false. Qed.
Lemma read_as_elem s x : x ∈ read_as s → ∃ c, c ∈ commands s ∧ x.(sc_words) = words_of c.
Proof.
  induction s as [c|c sep rest IH]; cbn [read_as commands]; [intros ?%ended_by_elem; exists c; split; [left|done]|].
  intros [?%ended_by_elem|(c' & ? & ?)%IH]%elem_of_app; [exists c; split; [left|done]|exists c'; split; [by right|done]].
Qed.
Lemma read_as_here s c : c ∈ commands s → words_of c ≠ [] → ∃ e, mkSimple (words_of c) e ∈ read_as s.
Proof.
  induction s as [c1|c1 sep rest IH]; cbn [read_as commands].
  - intros ->%list_elem_of_singleton Hne. eexists. rewrite ended_by_some by done. left.
  - intros [->|Hc]%elem_of_cons Hne; [eexists; rewrite ended_by_some by done; left|].
    destruct (IH Hc Hne) as [e He]. exists e. apply elem_of_app. by right.
Qed.
Lemma command_judged s c : script_ok s = true → continued (print_script s) = false → c ∈ commands s → words_of c ≠ [] →
  loop_head c = false → words_of c ∈ judged (print_script s).
Proof.
  intros Hs Hj Hc Hne Hl. unfold judged. rewrite command_words_script by done. pose proof (script_ok_commands _ Hs) as Hall.
  rewrite judged_no_case.
  - destruct (read_as_here s c Hc Hne) as [e He]. apply list_elem_of_fmap. exists (mkSimple (words_of c) e). split; [done|].
    apply list_elem_of_filter. split; [|done]. unfold loop_head in Hl.
    by apply orb_false_iff in Hl as [?%bool_decide_eq_false ?%bool_decide_eq_false].
  - apply Forall_forall. intros x (c' & Hc' & ->)%read_as_elem. rewrite Forall_forall in Hall. apply Hall in Hc'.
    unfold command_ok in Hc'. by apply andb_true_iff in Hc' as [[_ ?%negb_true_iff%bool_decide_eq_false]%andb_true_iff _].
Qed.

(** ** The program of a command *)

Lemma drop_while_stop {A} (p : A → bool) l x r : forallb p l = true → p x = false → drop_while p (l ++ x :: r) = x :: r.
Proof. induction l as [|a l IH]; simpl; [by intros _ ->|]. by intros [-> H]%andb_true_iff; apply IH. Qed.
Lemma assignment_printed name t : is_name name = true → is_assignment (name ++ lit "=" ++ t) = true.
Proof.
  destruct name as [|c s]; [done|]. cbn [is_name app is_assignment]. intros [-> Hs]%andb_true_iff.
  change (lit "=" ++ t) with (0x3D%Z :: t). by rewrite drop_while_stop.
Qed.
Lemma assignment_dash t : is_assignment t = true → prefixb (lit "-") t = false.
Proof.
  destruct t as [|c t]; [done|]. cbn [is_assignment]. intros [Hc _]%andb_true_iff.
  change (prefixb (lit "-") (c :: t)) with ((0x2D =? c)%Z && true). rewrite andb_true_r. apply Z.eqb_neq. by intros <-.
Qed.
Lemma duration_dash t : is_duration t = true → prefixb (lit "-") t = false.
Proof.
  destruct t as [|c t]; [done|]. cbn [is_duration]. intros [Hc _]%andb_true_iff.
  change (prefixb (lit "-") (c :: t)) with ((0x2D =? c)%Z && true). rewrite andb_true_r. apply Z.eqb_neq. by intros <-.
Qed.
Lemma no_dashes t : prefixb (lit "-") t = false → t ≠ lit "--" ∧ t ≠ lit "-v" ∧ t ≠ lit "-V".
Proof. intros H. split_and!; intros ->; done. Qed.
Lemma keyword_word t : mem t command_prefix_keywords = true →
  prefixb (lit "-") t = false ∧ is_assignment t = false.
Proof.
  intros (w & Hw & ->%bool_decide_eq_true)%existsb_exists.
  assert (forallb (λ w, negb (prefixb (lit "-") w) && negb (is_assignment w)) command_prefix_keywords = true) as Hall by by vm_compute.
  rewrite forallb_forall in Hall. by apply Hall, andb_true_iff in Hw as [?%negb_true_iff ?%negb_true_iff].
Qed.

(** Words that a wrapper's options end at. *)
Lemma skip_stops name w rest : prefixb (lit "-") w = false → is_assignment w = false → skip_options name (w :: rest) false = w :: rest.
Proof.
  intros Hp Ha. destruct (no_dashes w Hp) as (H & _). cbn [skip_options]. rewrite bool_decide_false, Hp, Ha by done. by rewrite andb_false_r.
Qed.
Lemma skip_assignment name w rest : is_assignment w = true →
  skip_options name (w :: rest) false = if bool_decide (name = lit "env") then skip_options name rest false else w :: rest.
Proof.
  intros Ha. pose proof (assignment_dash _ Ha) as Hp. destruct (no_dashes w Hp) as (H & _). cbn [skip_options].
  rewrite bool_decide_false, Hp, Ha by done. rewrite andb_true_r, orb_false_r. done.
Qed.
Lemma skip_duration name d rest : is_duration d = true → skip_options name (d :: rest) true = skip_options name rest false.
Proof.
  intros Hd. pose proof (duration_dash _ Hd) as Hp. destruct (no_dashes d Hp) as (H & _). cbn [skip_options].
  rewrite bool_decide_false, Hp, Hd by done. by rewrite orb_true_r.
Qed.

(** What stands before the program is no option. *)
Lemma prefix_no_option c w : forallb item_ok c = true → first_word c = Some w → program_ok (print_word w) = true →
  ∃ x, head (words_of c) = Some x ∧ prefixb (lit "-") x = false.
Proof.
  induction c as [|i c IH]; [done|]. simpl forallb. intros [Hi Hc]%andb_true_iff Hf Hp. unfold words_of in *. cbn [flat_map].
  destruct i as [t|name v|t d|v|fd op v]; cbn [first_word item_words print_item] in *.
  - exists t. split; [done|]. by apply keyword_word.
  - eexists. split; [done|]. cbn [item_ok] in Hi. apply andb_true_iff in Hi as [[Hn _]%andb_true_iff _].
    by apply assignment_dash, assignment_printed.
  - exists t. cbn [item_ok] in Hi. rewrite !andb_true_iff, !negb_true_iff in Hi. destruct d; (split; [done|]); tauto.
  - injection Hf as <-. eexists. split; [done|]. unfold program_ok in Hp. rewrite !andb_true_iff, !negb_true_iff in Hp. fold (print_word v). tauto.
  - by apply IH.
Qed.

Lemma resolve_program c w fuel : forallb item_ok c = true → first_word c = Some w → program_ok (print_word w) = true →
  length (words_of c) ≤ fuel →
  resolve_from fuel (words_of c) = Some (print_word w) ∧ ∀ name, resolve_from fuel (skip_options name (words_of c) false) = Some (print_word w).
Proof.
  revert fuel. induction c as [|i c IH]; intros fuel; [done|]. simpl forallb. intros [Hi Hc]%andb_true_iff Hf Hp.
  change (words_of (i :: c)) with (item_words i ++ words_of c). rewrite length_app. intros Hfuel.
  destruct i as [t|name v|t d|v|fd op v]; cbn [item_ok] in Hi; cbn [first_word] in Hf; cbn [item_words print_item] in *; cbn [app length] in *;
    (destruct fuel as [|fuel]; [try lia|]).
  - destruct (keyword_word t Hi) as [Hd Ha].
    assert (∀ rest, resolve_from (S fuel) (t :: rest) = resolve_from fuel rest) as E by (intros; cbn [resolve_from]; by rewrite Ha, Hi).
    split; [|intros name; rewrite skip_stops by done]; rewrite E; apply IH; done || lia.
  - apply andb_true_iff in Hi as [[Hn _]%andb_true_iff _]. set (a := name ++ lit "=" ++ concat (map print_piece v)) in *.
    assert (is_assignment a = true) as Ha by by apply assignment_printed.
    assert (∀ rest, resolve_from (S fuel) (a :: rest) = resolve_from fuel rest) as E by (intros; cbn [resolve_from]; by rewrite Ha).
    assert (resolve_from (S fuel) (a :: words_of c) = Some (print_word w)) as H1 by (rewrite E; apply IH; done || lia).
    split; [exact H1|]. intros name'. rewrite skip_assignment by done. destruct (bool_decide _); [|exact H1]. apply IH; done || lia.
  - destruct d; simpl in Hfuel; lia.
  - rewrite !andb_true_iff, !negb_true_iff in Hi. destruct Hi as [[[[[[_ Hm] Hd] Ha] Hk] Ht] Hdur].
    assert (∀ rest, (bool_decide (head rest = Some (lit "-v")) || bool_decide (head rest = Some (lit "-V"))) = false →
      resolve_from (S fuel) (t :: rest) = resolve_from fuel (skip_options (executable_name t) rest (bool_decide (executable_name t = lit "timeout")))) as E.
    { intros rest Hr. cbn [resolve_from]. rewrite Ha, Hk, Hm, Hr. by rewrite andb_false_r. }
    apply Bool.eqb_prop in Ht. rewrite Ht in E.
    assert (∀ x rest, prefixb (lit "-") x = false → (bool_decide (head (x :: rest) = Some (lit "-v")) || bool_decide (head (x :: rest) = Some (lit "-V"))) = false) as Hhead.
    { intros x rest Hx. destruct (no_dashes x Hx) as (_ & ? & ?). rewrite !bool_decide_false by (simpl; congruence). done. }
    assert (resolve_from (S fuel) (item_words (Wrapper t d) ++ words_of c) = Some (print_word w)) as H1.
    { destruct d as [d|]; cbn [item_words app is_some length print_item] in *.
      - apply andb_true_iff in Hdur as [Hdur _]. rewrite E, skip_duration by (done || by apply Hhead, duration_dash). apply IH; done || lia.
      - rewrite E; [apply IH; done || lia|]. destruct (prefix_no_option c w Hc Hf Hp) as (x & Hx & Hx').
        destruct (words_of c) as [|y ws]; [done|]. simpl in Hx. injection Hx as ->. by apply Hhead. }
    split; [exact H1|]. intros name. destruct d as [d|]; cbn [item_words app] in *; by rewrite skip_stops.
  - injection Hf as ->. fold (print_word w) in *. unfold program_ok in Hp. rewrite !andb_true_iff, !negb_true_iff in Hp. destruct Hp as [[[Hd Ha] Hk] Hw].
    assert (∀ rest, resolve_from (S fuel) (print_word w :: rest) = Some (print_word w)) as E by (intros; cbn [resolve_from]; by rewrite Ha, Hk, Hw).
    split; [|intros name; rewrite skip_stops by done]; apply E.
  - destruct (prefix_no_option c w Hc Hf Hp) as (x & Hx & _). destruct (words_of c); [done|simpl in Hfuel; lia].
  - apply IH; done || lia.
Qed.

(** ** The substitutions of a script *)

Definition scan (s : text) (quote : option char) : list text := substitutions (length s) s quote.
Lemma scan_pass c rest : is_quote c = false → c ≠ backslash → scan (c :: rest) None = scan rest None.
Proof. intros Hq Hb. unfold scan. cbn [length substitutions]. by rewrite not_backslash, Hq. Qed.
Lemma scan_outside t rest : Forall (λ c, is_quote c = false ∧ c ≠ backslash) t → scan (t ++ rest) None = scan rest None.
Proof. induction 1 as [|c t [? ?] _ IH]; [done|]. cbn [app]. by rewrite scan_pass. Qed.
Lemma scan_open q rest : is_quote q = true → scan (q :: rest) None = scan rest (Some q).
Proof. intros Hq. unfold scan. cbn [length substitutions]. rewrite not_backslash, Hq; [done|]. by intros ->. Qed.
Lemma scan_single t rest : forallb (λ c, negb (c =? single_quote)%Z) t = true →
  scan (t ++ single_quote :: rest) (Some single_quote) = scan rest None.
Proof.
  induction t as [|c t IH]; [done|]. simpl forallb. intros [Hc%negb_true_iff Ht]%andb_true_iff. rewrite <-IH by done.
  unfold scan. cbn [app length substitutions]. unfold escapes. rewrite bool_decide_true by done. cbn [negb]. rewrite andb_false_r, Z.eqb_refl.
  by rewrite Hc.
Qed.
Lemma opens_cons c t : opens_subst (c :: t) = (c =? 0x24)%Z && bool_decide (head t = Some 0x28%Z) || opens_subst t.
Proof. destruct t as [|d t]; cbn [opens_subst head]; [by rewrite andb_false_r|]. do 2 f_equal. destruct (Z.eqb_spec d 0x28) as [->|]; by rewrite ?bool_decide_true, ?bool_decide_false by congruence. Qed.
Lemma scan_quoted t rest : forallb quoted_char t = true → opens_subst t = false → head rest ≠ Some 0x28%Z →
  scan (t ++ rest) (Some double_quote) = scan rest (Some double_quote).
Proof.
  intros Hq Ho Hr. induction t as [|c t IH]; [done|]. simpl forallb in Hq. apply andb_true_iff in Hq as [(H1 & H2 & H3)%quoted_char_spec Hq].
  rewrite opens_cons in Ho. apply orb_false_iff in Ho as [Hc Ho]. rewrite <-IH by done.
  unfold scan. cbn [app length substitutions]. rewrite not_backslash by done. cbn [Z.eqb].
  change (double_quote =? single_quote)%Z with false. rewrite (proj2 (Z.eqb_neq _ _) H1), (proj2 (Z.eqb_neq _ _) H3).
  assert ((c =? 0x24)%Z && bool_decide (head (t ++ rest) = Some 0x28%Z) = false) as ->; [|done].
  destruct t as [|d t]; [|exact Hc]. cbn [app]. rewrite bool_decide_false by done. apply andb_false_r.
Qed.
Lemma scan_close rest : scan (double_quote :: rest) (Some double_quote) = scan rest None.
Proof. done. Qed.
Lemma paren_end_body t after : forallb body_char t = true → paren_end (t ++ 0x29%Z :: after) 1 None = Some (t, after).
Proof.
  induction t as [|c t IH]; [done|]. simpl forallb. intros [Hc Ht]%andb_true_iff. unfold body_char in Hc.
  apply andb_true_iff in Hc as [(H1 & H2 & H3)%quoted_char_spec Ho%negb_true_iff].
  apply one_of_false in Ho. cbn [lit map String.list_ascii_of_string] in Ho. rewrite !Forall_cons in Ho. destruct Ho as (Ha & Hb & Hs & _).
  change (c ≠ 0x28%Z) in Ha. change (c ≠ 0x29%Z) in Hb. change (c ≠ 0x27%Z) in Hs. apply Z.eqb_neq in Ha, Hb, Hs, H1.
  cbn [app paren_end]. rewrite not_backslash by done. unfold is_quote, single_quote. rewrite Ha, Hb, Hs, H1. cbn [orb]. by rewrite IH.
Qed.
Lemma substitutions_open fuel rest body after : paren_body rest = (body, after) →
  substitutions (S fuel) (0x24%Z :: 0x28%Z :: rest) (Some double_quote) = body :: substitutions fuel after (Some double_quote).
Proof. intros E. cbn [substitutions]. rewrite not_backslash, bool_decide_true by done. change (drop 1 (0x28%Z :: rest)) with rest. by rewrite E. Qed.
Lemma scan_subst body after : forallb body_char body = true →
  scan (lit "$(" ++ body ++ lit ")" ++ after) (Some double_quote) = body :: scan after (Some double_quote).
Proof.
  intros Hb. set (rest := body ++ lit ")" ++ after). change (lit "$(" ++ rest) with (0x24%Z :: 0x28%Z :: rest).
  assert (paren_body rest = (body, after)) as E
    by (unfold paren_body, rest; change (lit ")" ++ after) with (0x29%Z :: after); by rewrite paren_end_body).
  unfold scan at 1. cbn [length]. rewrite (substitutions_open _ _ _ _ E). f_equal. apply substitutions_fuel; [|done].
  unfold rest. rewrite !length_app. lia.
Qed.

Lemma substitutions_escaped fuel c rest : substitutions (S fuel) (backslash :: c :: rest) None = substitutions fuel rest None.
Proof. done. Qed.
Lemma word_chars_outside t : forallb word_char t = true → Forall (λ c, is_quote c = false ∧ c ≠ backslash) t.
Proof. rewrite forallb_forall. intros H. apply Forall_forall. intros c Hc%list_elem_of_In%H%word_char_spec. tauto. Qed.
Lemma scan_piece p rest : piece_ok p = true →
  scan (print_piece p ++ rest) None = map print_script (substs_of p) ++ scan rest None.
Proof.
  destruct p as [t|t|t|c|a body b]; cbn [piece_ok print_piece substs_of map app]; intros H.
  - apply andb_true_iff in H as [_ H]. by apply scan_outside, word_chars_outside.
  - rewrite scan_open, <-app_assoc by done. by apply scan_single.
  - unfold quoted_text in H. apply andb_true_iff in H as [H Ho%negb_true_iff]. rewrite scan_open, <-app_assoc by done. by rewrite scan_quoted.
  - unfold scan. cbn [length]. rewrite substitutions_escaped. apply substitutions_fuel; lia.
  - unfold quoted_text in H. rewrite !andb_true_iff, !negb_true_iff in H. destruct H as [[[[Ha Ha'] [Hb Hb']] Hbody] _].
    rewrite scan_open by done. rewrite <-!app_assoc, scan_quoted by done. rewrite scan_subst by done. f_equal. by rewrite scan_quoted.
Qed.
Lemma scan_word w rest : forallb piece_ok w = true →
  scan (print_word w ++ rest) None = map print_script (flat_map substs_of w) ++ scan rest None.
Proof.
  unfold print_word. induction w as [|p w IH]; [done|]. simpl forallb. intros [Hp Hw]%andb_true_iff. cbn [map concat flat_map].
  rewrite <-app_assoc, scan_piece, IH by done. by rewrite map_app, <-app_assoc.
Qed.
Lemma scan_item i rest : item_ok i = true →
  scan (print_item i ++ rest) None = map print_script (flat_map substs_of (item_pieces i)) ++ scan rest None.
Proof.
  intros Hi. destruct i as [t|name w|t d|w|fd op w]; cbn [item_ok print_item item_pieces] in *.
  - apply keywords_plain in Hi as [_ Hi]. by apply scan_outside, word_chars_outside.
  - apply andb_true_iff in Hi as [[_ Hn]%andb_true_iff Hw]. rewrite <-app_assoc, scan_outside, <-app_assoc by by apply word_chars_outside.
    rewrite (scan_outside (lit "=")) by (apply word_chars_outside; by vm_compute). by apply scan_word.
  - rewrite !andb_true_iff in Hi. destruct Hi as [[[[[[Ht _] _] _] _] _] Hd]. destruct d as [d|]; [|by apply scan_outside, word_chars_outside].
    apply andb_true_iff in Hd as [_ Hd]. apply scan_outside. apply Forall_app. split; [by apply word_chars_outside|].
    constructor; [done|by apply word_chars_outside].
  - apply andb_true_iff in Hi as [[_ Hw]%andb_true_iff _]. by apply scan_word.
  - rewrite !andb_true_iff in Hi. destruct Hi as [[[Hfd%mem_cases%list_elem_of_In Hop%mem_cases%list_elem_of_In] _] Hw].
    rewrite app_assoc, <-app_assoc, scan_outside; [by apply scan_word|]. apply Forall_app. cbn [map In] in Hfd, Hop.
    split; [destruct Hfd as [<-|[<-|[<-|[<-|[]]]]]|destruct Hop as [<-|[<-|[<-|[<-|[<-|[]]]]]]]; by repeat constructor.
Qed.
Lemma scan_command c rest : forallb item_ok c = true → scan (print_command c ++ rest) None = map print_script (substs c) ++ scan rest None.
Proof.
  unfold substs. induction c as [|i c IH]; [done|]. simpl forallb. intros [Hi Hc]%andb_true_iff.
  rewrite print_command_cons, <-app_comm_cons, <-app_assoc, scan_pass, scan_item, IH by done.
  cbn [flat_map]. by rewrite flat_map_app, map_app, <-app_assoc.
Qed.
Lemma scan_script s : script_ok s = true → double_quoted_substitutions (print_script s) = map print_script (flat_map substs (commands s)).
Proof.
  change (double_quoted_substitutions (print_script s)) with (scan (print_script s) None).
  induction s as [c|c sep rest IH]; cbn [script_ok commands flat_map]; intros Hs.
  - apply andb_true_iff in Hs as [[Hc _]%andb_true_iff _]. pose proof (scan_command c [] Hc) as E. by rewrite !app_nil_r in *.
  - apply andb_true_iff in Hs as [[[Hc _]%andb_true_iff _]%andb_true_iff Hs].
    change (print_script (Then c sep rest)) with (print_command c ++ print_separator sep ++ blank :: print_script rest).
    rewrite scan_command, scan_outside by (done || by destruct sep; repeat constructor). rewrite scan_pass, IH by done. by rewrite map_app.
Qed.
Lemma substs_ok s c body : script_ok s = true → c ∈ commands s → body ∈ substs c → script_ok body = true.
Proof.
  intros Hs%script_ok_commands Hc Hb. rewrite Forall_forall in Hs. apply Hs in Hc. unfold command_ok in Hc.
  apply andb_true_iff in Hc as [[Hc _]%andb_true_iff _]. rewrite forallb_forall in Hc.
  apply list_elem_of_In, in_flat_map in Hb as (p & (i & Hi%Hc & Hp)%in_flat_map & Hb). destruct p as [| | | |a body' b]; cbn in Hb; try done.
  destruct Hb as [->|[]]. assert (piece_ok (Subst a body b) = true) as Hpo.
  { destruct i as [t|name w|t d|w|fd op w]; cbn [item_ok item_pieces] in *; try done; rewrite !andb_true_iff in Hi;
      [destruct Hi as [_ Hi]|destruct Hi as [[_ Hi] _]|destruct Hi as [_ Hi]]; rewrite forallb_forall in Hi; by apply Hi. }
  cbn [piece_ok] in Hpo. by apply andb_true_iff in Hpo as [_ ?].
Qed.
Lemma substs_found s c body : script_ok s = true → c ∈ commands s → body ∈ substs c →
  print_script body ∈ double_quoted_substitutions (print_script s).
Proof.
  intros Hs Hc Hb. rewrite scan_script by done. apply list_elem_of_In, in_map, in_flat_map. exists c. by split; apply list_elem_of_In.
Qed.

(** A word spelled out, with no two plain parts side by side, is one plain
    part. *)
Lemma spelled_out_plain w : w ≠ [] → no_plain_pair w = true → spelled_out (print_word w) = true → ∃ t, w = [Plain t].
Proof.
  intros Hne Hw Hs. unfold spelled_out in Hs. apply negb_true_iff, orb_false_iff in Hs as [Hs _].
  assert (Forall (λ p, is_plain p = true) w) as Hall.
  { apply Forall_forall. intros p Hp. apply list_elem_of_split in Hp as (l & r & ->). unfold print_word in Hs.
    rewrite map_app, concat_app, existsb_app in Hs. cbn [map concat] in Hs. rewrite existsb_app in Hs.
    apply orb_false_iff in Hs as [_ [Hs _]%orb_false_iff]. by destruct p. }
  destruct Hall as [|p w Hp Hall]; [done|]. destruct Hall as [|q w Hq _]; [|cbn in Hw; by rewrite Hp, Hq in Hw].
  destruct p; try done. by eexists.
Qed.
End lower.
End Script.
