(* ===== verification/CommandPolicy.v ===== *)
(** * Which commands need a fresh approval

    [toolpacks-coding/src/command_policy.rs]: the verdict on a shell command,
    the guard that forces a fresh approval for a dangerous one, and the key a
    standing approval is remembered by. *)

From S2P Require Export ShellWords Permission.
Local Open Scope nat_scope.

Inductive CommandClass := Eligible | HighRisk | Unknown.
#[export] Instance CommandClass_eq_dec : EqDecision CommandClass.
Proof. solve_decision. Defined.

Definition is_shell_tool (name : string) : bool := mem_str name ["run_command"; "run_tests"].

Definition high_risk_words : list text :=
  map lit ["rm"; "rimraf"; "rmdir"; "unlink"; "shred"; "sudo"; "su"; "doas"; "dd"; "mkfs"; "diskutil"; "chmod";
    "chown"; "chflags"; "curl"; "wget"; "ssh"; "scp"; "sftp"; "rsync"; "ftp"; "nc"; "ncat"; "netcat"; "telnet";
    "kill"; "killall"; "pkill"; "shutdown"; "reboot"; "launchctl"; "docker"; "podman"; "kubectl"; "helm";
    "terraform"; "pulumi"; "ansible"; "eval"; "exec"; "xargs"; "osascript"; "open"; "crontab"; "security";
    "defaults"; "gh"; "twine"; "vercel"; "netlify"; "fly"; "flyctl"; "heroku"; "firebase"; "aws"; "gcloud"; "az"].
Definition git_risky_subcommands : list text :=
  map lit ["push"; "reset"; "clean"; "rebase"; "checkout"; "switch"; "restore"; "filter-branch"; "filter-repo";
    "stash"; "gc"; "prune"; "update-ref"; "reflog"; "rm"; "mv"; "commit"; "merge"; "cherry-pick"; "revert"; "am";
    "apply"; "tag"; "branch"; "worktree"; "submodule"; "config"; "remote"; "fetch"; "pull"; "clone"].
Definition package_managers : list text := map lit ["npm"; "bun"; "yarn"; "pnpm"; "cargo"].
Definition publish_subcommands : list text :=
  map lit ["publish"; "unpublish"; "deprecate"; "login"; "logout"; "adduser"; "owner"; "dist-tag"].
Definition force_flags : list text := map lit ["--force"; "--hard"; "--no-verify"].
Definition dangerous_words : list text :=
  map lit ["deploy"; "publish"; "release"; "migrate"; "migration"; "seed"; "drop"; "destroy"; "purge"; "wipe";
    "prod"; "production"].

(** ** Text *)

(** The pieces between the characters of a class, the empty ones too. *)
Fixpoint pieces (p : char → bool) (s word : text) : list text :=
  match s with
  | [] => [word]
  | c :: s => if p c then word :: pieces p s [] else pieces p s (word ++ [c])
  end.
Definition split_on (p : char → bool) (s : text) : list text := pieces p s [].
Definition words_between (p : char → bool) (s : text) : list text :=
  filter (λ w, w ≠ []) (split_on p s).
Definition is_text (t : text) (s : string) : bool := bool_decide (t = lit s).
Definition is_any (t : text) (ss : list string) : bool := mem t (map lit ss).
Definition starts (t : text) (s : string) : bool := prefixb (lit s) t.

(** ** Code given on the command line *)

(** [^-[a-z]*c] and the like: a letter of a class in the run of small letters
    after the dash. *)
Definition flag_with (letters : string) (arg : text) : bool :=
  match arg with
  | d :: s => (d =? 0x2D)%Z && existsb (λ c, one_of c (lit letters)) (take_while is_lower s)
  | [] => false
  end.
(** [python] with an optional dotted version, or [pypy] with digits. *)
Definition is_number (s : text) : bool := negb (bool_decide (s = [])) && forallb is_digit s.
Definition is_python (token : text) : bool :=
  starts token "python" &&
    (let version := drop 6 token in
     bool_decide (version = []) || forallb is_number (split_on (Z.eqb 0x2E) version))
  || starts token "pypy" && forallb is_digit (drop 4 token).

Definition inline_shell (token : text) (rest : list text) : bool :=
  if is_any token ["sh"; "bash"; "zsh"; "dash"; "ksh"; "fish"] then existsb (flag_with "c") rest
  else is_python token && existsb (λ arg, is_text arg "-" || flag_with "c" arg) rest.

Definition loads_data (flag : string) (arg : text) (rest : list text) : bool :=
  starts arg (flag +:+ "=data:")
  || is_text arg flag && match rest with next :: _ => starts next "data:" | [] => false end.
Fixpoint any_loads_data (rest : list text) : bool :=
  match rest with
  | [] => false
  | arg :: rest =>
      existsb (λ flag, loads_data flag arg rest) ["--import"; "--loader"; "--preload"; "--require"] || any_loads_data rest
  end.
Definition inline_node (token : text) (rest : list text) : bool :=
  is_any token ["node"; "nodejs"]
    && (bool_decide (rest = []) || forallb (λ arg, starts arg "-") rest
        || existsb (λ arg, is_text arg "-" || is_text arg "--input-type" || starts arg "--input-type=") rest)
  || is_any token ["node"; "nodejs"; "bun"] && any_loads_data rest.

Definition inline_other (token : text) (rest : list text) : bool :=
  if is_any token ["node"; "nodejs"; "bun"; "ruby"; "perl"; "lua"; "luajit"] then
    existsb (λ arg, is_text arg "--eval" || starts arg "--eval=" || is_text arg "--print" || starts arg "--print="
                    || flag_with "ep" arg) rest
  else if is_text token "php" then existsb (λ arg, starts arg "-r") rest
  else if is_text token "deno" then existsb (λ arg, is_text arg "eval") rest
  else if is_any token ["powershell"; "powershell.exe"; "pwsh"; "pwsh.exe"] then
    existsb (λ arg, is_any arg ["-c"; "-command"; "-encodedcommand"; "-enc"; "-e"]) rest
  else is_any token ["awk"; "gawk"; "mawk"].

Section lower.
Context {L : Lowercase}.

Fixpoint has_inline_evaluation (words : list text) : bool :=
  match words with
  | [] => false
  | word :: rest =>
      let token := executable_name word in
      let rest' := map to_lowercase rest in
      inline_shell token rest' || inline_node token rest' || inline_other token rest' || has_inline_evaluation rest
  end.

(** ** Risk *)

(** Case folding, as a regular expression compares: the long s and the Kelvin
    sign fold to ASCII. *)
Definition fold_case (c : char) : char :=
  if (c =? 0x17F)%Z then 0x73%Z else if (c =? 0x212A)%Z then 0x6B%Z else ascii_lower c.
(** A dangerous word between [:], [_], [-] or the ends, whatever the case. *)
Definition is_dangerous (word : text) : bool :=
  existsb (λ piece, mem (map fold_case piece) dangerous_words) (split_on (λ c, one_of c (lit ":_-")) word).

Definition is_risky_git_word (token : text) : bool := mem token git_risky_subcommands.
Definition is_force_host (token : text) : bool := is_any token ["git"; "rm"].

(** What is judged of a token: of a flag only its value. *)
Definition judged_part (token : text) : text :=
  if starts token "-" then default [] (split_on (Z.eqb 0x3D) token !! 1) else token.

(** One word, between those before it and those after it. *)
Definition risky_at (before : list text) (word : text) (rest : list text) : bool :=
  let token := executable_name word in
  let later := map executable_name rest in
  mem token high_risk_words
  || is_dangerous (judged_part token)
  || mem token force_flags
  || is_text token "git" && (existsb is_risky_git_word later
                             || existsb (λ arg, starts arg "-c" || starts arg "--config-env") rest)
  || mem token package_managers && existsb (λ t, mem t publish_subcommands) later
  || is_text token "-f" && existsb is_force_host (map executable_name before).
Fixpoint any_risky (before words : list text) : bool :=
  match words with
  | [] => false
  | word :: rest => risky_at before word rest || any_risky (before ++ [word]) rest
  end.

(** The words a command is searched for: as a shell reads them, and as they
    stand once the quotes are taken away. *)
Definition stripped (raw : text) : text := filter (λ c, c ≠ single_quote ∧ c ≠ double_quote) raw.
Definition risk_words (raw : text) : list text := shell_words raw ++ words_between separates (stripped raw).

Definition is_high_risk (raw : text) : bool :=
  let words := risk_words raw in
  let tokens := map executable_name words in
  has_unresolvable_command_word raw
  || has_inline_evaluation words
  || existsb (λ t, is_any t ["node"; "nodejs"; "bun"]) tokens && one_of 0x3C%Z raw
  || existsb (λ t, is_text t "env") tokens && existsb (λ w, starts w "--split-string" || starts w "-S") words
  || any_risky [] words
  || existsb (λ t, is_text t "find") tokens && existsb (λ t, is_any t ["-delete"; "-exec"; "-execdir"]) tokens.

(** ** The allow list *)

(** The script names that are safe to run. *)
Definition script_char (c : char) : bool := name_char c || one_of c (lit ".-").
Definition safe_script (s : text) : bool :=
  is_any s ["test"; "lint"; "typecheck"; "type-check"; "check"; "build"; "format:check"; "fmt:check"]
  || existsb (λ p, starts s (p +:+ ":") &&
       (let name := drop (length (lit p) + 1) s in negb (bool_decide (name = [])) && forallb script_char name))
       ["test"; "lint"; "typecheck"; "check"].

Definition nth_is (tokens : list text) (i : nat) (ss : list string) : bool :=
  match tokens !! i with Some t => is_any t ss | None => false end.

Definition matches_allowlist (tokens : list text) : bool :=
  let a := nth_is tokens 0 in
  let b := nth_is tokens 1 in
  let c := nth_is tokens 2 in
  if a ["bun"] && b ["test"] then true
  else if a ["bun"; "npm"; "pnpm"; "yarn"] && b ["run"] then
    (length tokens =? 3) && safe_script (default [] (tokens !! 2))
  else if a ["npm"; "pnpm"; "yarn"] && b ["test"] then length tokens =? 2
  else if a ["tsc"] || a ["npx"; "bunx"] && b ["tsc"] then true
  else if a ["vitest"] && b ["run"] then true
  else if a ["npx"] && b ["vitest"] && c ["run"] then true
  else if a ["jest"] || a ["npx"] && b ["jest"] then true
  else if a ["eslint"] || a ["npx"] && b ["eslint"] then true
  else if a ["npx"] && b ["prettier"] && c ["--check"] then true
  else if a ["pytest"] then true
  else if a ["python"; "python3"] && b ["-m"] && c ["pytest"; "unittest"] then true
  else if a ["uv"] && b ["run"] && c ["pytest"] then true
  else if a ["cargo"] && b ["test"; "check"; "build"; "clippy"] then true
  else if a ["cargo"] && b ["fmt"] && c ["--check"] then true
  else if a ["go"] && b ["test"; "build"; "vet"] then true
  else if a ["make"] && (length tokens =? 2) && b ["test"; "check"; "lint"; "build"; "typecheck"] then true
  else a ["git"] && b ["status"; "diff"; "log"; "show"].

(** [[A-Za-z0-9_./:=@%+, -]]. *)
Definition plain_char (c : char) : bool := name_char c || one_of c (lit "./:=@%+, -").

Definition space : char := 0x20%Z.
Definition command_tokens (command : text) : list text := words_between (Z.eqb space) command.

Definition classify_shell_command (command : text) : CommandClass :=
  if is_high_risk command then HighRisk
  else if bool_decide (command = []) || negb (forallb plain_char command) then Unknown
  else match command_tokens command with
  | [] => Unknown
  | first :: _ =>
      if is_assignment first then Unknown
      else if matches_allowlist (command_tokens command) then Eligible else Unknown
  end.
End lower.
