(* ===== verification/PolicyLaws.v ===== *)
(** * What the verdicts on a command mean

    A script that is not high risk names every program it runs in plain
    letters, none of them on the deny list, where what it runs is read off
    its syntax tree; an eligible command is a single one, the same to every
    reader. *)

From S2P Require Export ShellLaws CommandPolicy.
Import Script.
Local Open Scope nat_scope.

(** ** Words between separators *)

Lemma pieces_sep p s c r word : p c = true → pieces p (s ++ c :: r) word = pieces p s word ++ pieces p r [].
Proof. intros Hc. revert word. induction s as [|d s IH]; intros word; simpl; [by rewrite Hc|]. destruct (p d); simpl; by rewrite IH. Qed.
Lemma pieces_word p w word : Forall (λ c, p c = false) w → pieces p w word = [word ++ w].
Proof.
  revert word. induction w as [|c w IH]; intros word Hw; simpl; [by rewrite app_nil_r|].
  apply Forall_cons in Hw as [-> Hw]. rewrite IH by done. by rewrite <-app_assoc.
Qed.

Lemma words_between_stand l w r : bare w → left_bound l → right_bound r → w ∈ words_between separates (l ++ w ++ r).
Proof.
  intros [Hne Hw] Hl Hr. apply list_elem_of_filter. split; [done|]. unfold split_on.
  assert (Forall (λ c, separates c = false) w) as Hs by (eapply Forall_impl; [exact Hw|by intros c []]).
  assert (w ∈ pieces separates (w ++ r) []) as Hwr.
  { destruct Hr as [->|(c & r' & -> & Hc)]; [rewrite app_nil_r, pieces_word by done; left|].
    rewrite pieces_sep, pieces_word by done. left. }
  destruct Hl as [->|(l' & c & -> & Hc)]; [done|]. rewrite <-app_assoc. simpl. rewrite pieces_sep by done.
  apply elem_of_app. by right.
Qed.

Lemma separator_no_quote c : separates c = true → c ≠ single_quote ∧ c ≠ double_quote.
Proof. intros Hc. split; intros ->; done. Qed.

(** Taking the quotes away leaves a word that stands between separators. *)
Lemma stripped_word w : bare w → stripped w = w.
Proof.
  intros [_ Hw]. unfold stripped. induction Hw as [|c w (_ & Hq & _) _ IH]; [done|].
  unfold is_quote in Hq. apply orb_false_iff in Hq as [H1%Z.eqb_neq H2%Z.eqb_neq].
  rewrite filter_cons_True by done. by rewrite IH.
Qed.
Lemma stripped_app s r : stripped (s ++ r) = stripped s ++ stripped r.
Proof. apply filter_app. Qed.
Lemma stripped_sep c : separates c = true → stripped [c] = [c].
Proof. intros Hc. unfold stripped. by rewrite filter_cons_True by by apply separator_no_quote. Qed.
Lemma stands_risk_word raw w : bare w → stands raw w → w ∈ risk_words raw.
Proof.
  intros Hb (l & r & -> & Hl & Hr). apply elem_of_app. right.
  rewrite !stripped_app, (stripped_word w) by done. apply words_between_stand; [done|..].
  - destruct Hl as [->|(l' & c & -> & Hc)]; [by left|]. rewrite stripped_app, stripped_sep by done. by apply left_bound_snoc.
  - destruct Hr as [->|(c & r' & -> & Hc)]; [by left|]. right. exists c, (stripped r').
    change (c :: r') with ([c] ++ r'). by rewrite stripped_app, stripped_sep.
Qed.

Section lower.
Context {L : Lowercase}.

(** ** The recursion over substitutions *)

Lemma unresolvable_fuel n fuel fuel' raw : length raw ≤ n → length raw < fuel → length raw < fuel' →
  unresolvable fuel raw = unresolvable fuel' raw.
Proof.
  revert fuel fuel' raw. induction n as [|n IH]; intros [|fuel] [|fuel'] raw Hn H1 H2; try lia; cbn [unresolvable]; f_equal.
  - destruct raw; [done|simpl in Hn; lia].
  - assert (∀ body, body ∈ double_quoted_substitutions raw → unresolvable fuel body = unresolvable fuel' body) as Hb.
    { intros body Hbody. apply double_quoted_inside, inside_shorter in Hbody. apply IH; lia. }
    revert Hb. generalize (double_quoted_substitutions raw). intros bodies Hb.
    induction bodies as [|b bs IHb]; [done|]. simpl. rewrite (Hb b) by left. f_equal. apply IHb. intros b' Hb'. apply Hb. by right.
Qed.

Lemma has_unresolvable_false raw : has_unresolvable_command_word raw = false →
  (∀ body, body ∈ double_quoted_substitutions raw → has_unresolvable_command_word body = false)
  ∧ ∀ words word, words ∈ judged raw → resolve_command_word words = Some word → unresolvable_word word = false.
Proof.
  unfold has_unresolvable_command_word at 1. cbn [unresolvable]. rewrite orb_false_iff. intros [H1 H2]. split.
  - intros body Hbody. apply not_true_iff_false. intros Ht. apply not_true_iff_false in H1. apply H1.
    apply existsb_exists. exists body. split; [by apply list_elem_of_In|]. rewrite <-Ht.
    pose proof (inside_shorter _ _ (double_quoted_inside _ _ Hbody)). by apply (unresolvable_fuel (length body)); [|lia|lia].
  - intros words word Hw Hr. apply not_true_iff_false. intros Ht. apply not_true_iff_false in H2. apply H2.
    apply existsb_exists. exists words. split; [by apply list_elem_of_In|]. by rewrite Hr.
Qed.

(** ** What a text runs *)

(** The simple commands of a text and of its substitutions that are not case
    patterns or loop heads. *)
Inductive runs : text → list text → Prop :=
  | runs_here raw words : words ∈ judged raw → runs raw words
  | runs_inside raw body words : body ∈ double_quoted_substitutions raw → runs body words → runs raw words.

Lemma judged_from_words d b cs words : words ∈ judged_from d b cs → ∃ c, c ∈ cs ∧ c.(sc_words) = words.
Proof.
  revert d b. induction cs as [|c cs IH]; intros d b; cbn [judged_from]; [by intros ?%elem_of_nil|].
  assert (∀ d b, words ∈ judged_from d b cs → ∃ c', c' ∈ c :: cs ∧ c'.(sc_words) = words) as Hrest.
  { intros d' b' (c' & Hc' & ?)%IH. exists c'. split; [by right|done]. }
  destruct b; [apply Hrest|]. destruct (bool_decide _); [apply Hrest|]. destruct (_ || _); [apply Hrest|].
  intros [->|Hw]%elem_of_cons; [exists c; split; [left|done]|by eapply Hrest].
Qed.

Lemma skip_options_sub name words b : ∀ w, w ∈ skip_options name words b → w ∈ words.
Proof.
  remember (length words) as n eqn:En. revert words b En.
  induction (lt_wf n) as [n _ IH]. intros words b -> w. destruct words as [|next rest]; [done|]. cbn [skip_options].
  destruct (bool_decide _); [by right|].
  assert (∀ b, w ∈ skip_options name rest b → w ∈ next :: rest) as Hrest.
  { intros b' Hw. right. eapply (IH (length rest)); [simpl; lia|done|exact Hw]. }
  destruct (_ && _); [destruct (wrapper_option_takes_value _ _); [|apply Hrest]|destruct (_ || _); [apply Hrest|done]].
  destruct rest as [|x rest]; [by intros ?%elem_of_nil|]. intros Hw. right; right. eapply (IH (length rest)); [simpl; lia|done|exact Hw].
Qed.
Lemma resolve_from_in fuel words word : resolve_from fuel words = Some word → word ∈ words.
Proof.
  revert words. induction fuel as [|fuel IH]; intros [|w rest]; [done..|]. cbn [resolve_from].
  destruct (_ || _); [intros H%IH; by right|]. destruct (negb _); [intros [= ->]; left|].
  destruct (_ && _); [done|]. intros H%IH. right. by eapply skip_options_sub.
Qed.

Lemma spelled_out_simple w : spelled_out w = true → simple w = true.
Proof.
  unfold spelled_out, simple. rewrite negb_true_iff, orb_false_iff. intros [H _]. rewrite forallb_forall. intros c Hc.
  apply negb_true_iff, not_true_iff_false. intros Hm. apply not_true_iff_false in H. apply H. apply existsb_exists.
  exists c. split; [done|]. apply one_of_true in Hm. apply one_of_true.
  rewrite !elem_of_app in *. cbn [lit map String.list_ascii_of_string] in *. rewrite !elem_of_cons in *. tauto.
Qed.

Lemma runs_stand raw words word : runs raw words → continued raw = false → has_unresolvable_command_word raw = false →
  resolve_command_word words = Some word → unresolvable_word word = false ∧ bare word ∧ stands raw word.
Proof.
  induction 1 as [raw words Hw|raw body words Hbody _ IH]; intros Hj Hu Hr;
    destruct (has_unresolvable_false raw Hu) as [Hbodies Hwords].
  - pose proof (Hwords _ _ Hw Hr) as Hok. split; [done|]. apply judged_from_words in Hw as (c & Hc & <-).
    eapply command_words_stand; [done|exact Hc|by eapply resolve_from_in|].
    unfold unresolvable_word in Hok. apply orb_false_iff in Hok as [Hok%negb_false_iff _]. by apply spelled_out_simple.
  - pose proof (double_quoted_inside _ _ Hbody) as Hin. destruct IH as (? & ? & ?); [|by apply Hbodies|done|].
    + destruct Hin as (l & c & r & -> & _). by eapply continued_app.
    + split_and!; [done..|]. by eapply stands_in_body.
Qed.

(** ** Not high risk *)

Lemma any_risky_false before words w : any_risky before words = false → w ∈ words →
  mem (executable_name w) high_risk_words = false.
Proof.
  revert before. induction words as [|w' words IH]; intros before; [by intros _ ?%elem_of_nil|]. cbn [any_risky].
  rewrite orb_false_iff. intros [Hr Hrest] [->|Hw]%elem_of_cons; [|by eapply IH].
  unfold risky_at in Hr. rewrite !orb_false_iff in Hr. apply Hr.
Qed.
Lemma not_high_risk raw : is_high_risk raw = false → has_unresolvable_command_word raw = false ∧ any_risky [] (risk_words raw) = false.
Proof. unfold is_high_risk. rewrite !orb_false_iff. tauto. Qed.

Lemma executes_ok s c : executes s c → script_ok s = true → command_ok c = true.
Proof.
  induction 1 as [s c Hc|s c body c' Hc Hb _ IH]; intros Hs.
  - apply script_ok_commands in Hs. rewrite Forall_forall in Hs. by apply Hs.
  - apply IH. by eapply substs_ok.
Qed.
(** What a script runs is among the commands the check judges. *)
Lemma executes_judged s c : executes s c → script_ok s = true → continued (print_script s) = false →
  words_of c ≠ [] → loop_head c = false → runs (print_script s) (words_of c).
Proof.
  induction 1 as [s c Hc|s c body c' Hc Hb _ IH]; intros Hs Hj Hne Hl.
  - by apply runs_here, command_judged.
  - pose proof (substs_found _ _ _ Hs Hc Hb) as Hin. eapply runs_inside; [exact Hin|]. apply IH; [by eapply substs_ok| |done..].
    pose proof (double_quoted_inside _ _ Hin) as (l & d & r & E & _). rewrite E in Hj. by eapply continued_app.
Qed.
Lemma first_word_ok c w : forallb item_ok c = true → first_word c = Some w → w ≠ [] ∧ no_plain_pair w = true.
Proof.
  induction c as [|i c IH]; [done|]. simpl forallb. intros [Hi Hc]%andb_true_iff. destruct i as [t|name v|t d|v|fd op v]; cbn [first_word]; auto.
  intros [= ->]. cbn [item_ok] in Hi. rewrite !andb_true_iff, negb_true_iff, bool_decide_eq_false in Hi. tauto.
Qed.
Lemma program_resolves c w : command_ok c = true → program c = Some w →
  loop_head c = false ∧ words_of c ≠ [] ∧ resolve_command_word (words_of c) = Some (print_word w) ∧ w ≠ [] ∧ no_plain_pair w = true.
Proof.
  unfold command_ok, program. intros [[Hc _]%andb_true_iff Hp]%andb_true_iff Hw. destruct (loop_head c); [done|]. rewrite Hw in Hp.
  destruct (resolve_program c w (length (words_of c)) Hc Hw Hp (le_n _)) as [Hr _].
  destruct (prefix_no_option c w Hc Hw Hp) as (x & Hx & _). destruct (first_word_ok c w Hc Hw) as [Hne Hpair].
  split_and!; [done|by destruct (words_of c)|exact Hr|done..].
Qed.

(** C39: A script that is not refused as high risk names every program it
    runs in plain sight.  The script is given as its parts (words plain,
    quoted, escaped and with substitutions in double quotes; keywords,
    assignments, wrappers, redirections; separators, subshells), and what it
    runs is read off those parts, not off the check's lexers: whatever the
    text of a script is, when no line of it is continued, every command of
    it and of the substitutions in its double quotes has for a program one
    plain part, with no expansion, quoting, escape or glob in it, which is
    neither on the deny list nor an indirection such as eval.  Outside this
    fragment the check has holes (the examples at the end of the file):
    continued lines, [case] arms, process substitutions and backticks outside
    of double quotes hide a name; heredocs, quotes and parentheses inside a
    substitution and wrappers with options other than a duration are not
    written by these scripts. *)
Theorem named_in_plain_sight s c w :
  script_ok s = true → continued (print_script s) = false → classify_shell_command (print_script s) ≠ HighRisk →
  executes s c → program c = Some w →
  ∃ t, w = [Plain t] ∧ spelled_out t = true
    ∧ mem (executable_name t) high_risk_words = false ∧ mem (executable_name t) indirect_command_words = false.
Proof.
  intros Hs Hj Hc Hex Hw. assert (is_high_risk (print_script s) = false) as Hh.
  { unfold classify_shell_command in Hc. by destruct (is_high_risk (print_script s)). }
  assert (command_ok c = true) as Hok by by eapply executes_ok.
  destruct (program_resolves c w Hok Hw) as (Hl & Hne & Hr & Hsome & Hpair).
  pose proof (executes_judged s c Hex Hs Hj Hne Hl) as Hrun. destruct (not_high_risk _ Hh) as [Hu Ha].
  destruct (runs_stand _ _ _ Hrun Hj Hu Hr) as (Hres & Hb & Hst).
  unfold unresolvable_word in Hres. apply orb_false_iff in Hres as [Hres%negb_false_iff Hi].
  destruct (spelled_out_plain w Hsome Hpair Hres) as [t ->]. unfold print_word in *. cbn [map concat print_piece] in *. rewrite app_nil_r in *.
  exists t. split_and!; [done|done| |done]. eapply any_risky_false; [exact Ha|]. by apply stands_risk_word.
Qed.

(** ** Eligible *)

Lemma plain_char_spec c : plain_char c = true →
  js_is_space c = (space =? c)%Z ∧ is_quote c = false ∧ (c =? backslash)%Z = false ∧ one_of c separators = false.
Proof.
  intros Hc.
  set (ok c := implb (plain_char c) (Bool.eqb (js_is_space c) (space =? c)%Z && negb (is_quote c)
                 && negb (c =? backslash)%Z && negb (one_of c separators))).
  assert (in_range 0 127 c = true) as Hr.
  { unfold plain_char in Hc. apply orb_true_iff in Hc as [Hc|Hc]; [|by apply (one_of_forall _ _ _ Hc)].
    unfold name_char, name_start, is_lower, is_upper, is_digit in Hc. rewrite !orb_true_iff, !in_range_spec, Z.eqb_eq in Hc.
    apply in_range_spec. lia. }
  apply in_range_spec in Hr. assert (forallb (λ n, ok (Z.of_nat n)) (seq 0 128) = true) as Hall by by vm_compute.
  rewrite forallb_forall in Hall. specialize (Hall (Z.to_nat c)). rewrite in_seq, Z2Nat.id in Hall by lia.
  unfold ok in Hall. rewrite Hc in Hall. simpl in Hall. rewrite !andb_true_iff, !negb_true_iff in Hall.
  destruct Hall as [[[H1%Bool.eqb_prop H2] H3] H4]; [lia|done].
Qed.

Lemma flush_word_filter word ws : flush_word word (filter (λ w, w ≠ []) ws) = filter (λ w, w ≠ []) (word :: ws).
Proof. by destruct word. Qed.

(** Without quoting and expansion all readers agree on the words. *)
Lemma shell_from_plain s word : forallb plain_char s = true →
  shell_from s word None = filter (λ w, w ≠ []) (pieces (Z.eqb space) s word).
Proof.
  revert word. induction s as [|c s IH]; intros word; simpl forallb; [intros _; cbn [shell_from pieces]; by rewrite <-flush_word_filter|].
  intros [(Hs & Hq & Hb & Ho)%plain_char_spec Hall]%andb_true_iff. cbn [shell_from pieces].
  assert (escapes c None = false) as -> by by unfold escapes; rewrite Hb.
  rewrite bool_decide_false by done. cbn [is_some negb andb]. rewrite Hq. unfold separates. rewrite Hs, Ho, orb_false_r.
  destruct (space =? c)%Z; [rewrite (IH []), flush_word_filter by done|rewrite (IH (word ++ [c])) by done]; by destruct s.
Qed.

Definition one_command (ws : list text) : list SimpleCommand := match ws with [] => [] | _ => [mkSimple ws end_of_text] end.
Lemma end_word_plain cmd word : end_word (mkLexer [] cmd word false) = mkLexer [] (cmd ++ filter (λ w, w ≠ []) [word]) [] false.
Proof. by destruct word; [rewrite app_nil_r|]. Qed.
Lemma lex_from_plain s cmd word : forallb plain_char s = true →
  cl_commands (end_command end_of_text (lex_from s None (mkLexer [] cmd word false)))
  = one_command (cmd ++ filter (λ w, w ≠ []) (pieces (Z.eqb space) s word)).
Proof.
  revert cmd word. induction s as [|c s IH]; intros cmd word; simpl forallb.
  { intros _. cbn [lex_from pieces]. unfold end_command. rewrite end_word_plain. cbn [cl_command].
    by destruct (cmd ++ filter _ [word]). }
  intros [(Hs & Hq & Hb & Ho)%plain_char_spec Hall]%andb_true_iff. cbn [lex_from pieces].
  assert (escapes c None = false) as -> by by unfold escapes; rewrite Hb. rewrite Hq.
  assert (one_of c (lit ";&|()") = false ∧ one_of c (lit "<>") = false) as [Ho1 Ho2].
  { change separators with (lit ";&|()" ++ lit "<>" ++ lit "`$") in Ho. unfold one_of in Ho.
    rewrite !existsb_app, !orb_false_iff in Ho. tauto. }
  assert ((c =? 0x3B)%Z = false) as H3b.
  { apply not_true_iff_false. by intros ->%Z.eqb_eq. }
  rewrite Hs, Ho1, Ho2, H3b. cbn [andb]. destruct (Z.eqb_spec space c) as [<-|Hne].
  - change (space =? newline_char)%Z with false. cbn [pieces]. rewrite end_word_plain, IH by done.
    rewrite <-app_assoc. do 2 f_equal. by destruct word.
  - destruct (c =? newline_char)%Z eqn:En; [apply Z.eqb_eq in En as ->; done|].
    unfold push_char. cbn [cl_commands cl_command cl_word cl_skip_word].
    destruct s as [|d s]; [by rewrite <-IH|]. by apply IH.
Qed.

Lemma join_lines_plain s : forallb plain_char s = true → join_lines s = s.
Proof.
  intros Hs. apply join_lines_id. induction s as [|a [|b s] IH]; [done..|]. cbn [continued]. simpl forallb in Hs.
  apply andb_true_iff in Hs as [(_ & _ & -> & _)%plain_char_spec Hs]. by apply IH.
Qed.
Lemma substitutions_plain fuel s : forallb plain_char s = true → substitutions fuel s None = [].
Proof.
  revert s. induction fuel as [|fuel IH]; intros [|c s]; try done. simpl forallb.
  intros [(_ & Hq & Hb & _)%plain_char_spec Hs]%andb_true_iff. cbn [substitutions]. unfold escapes. rewrite Hb, Hq. by apply IH.
Qed.

(** The programs of the allow list. *)
Definition allowed_programs : list string :=
  ["bun"; "npm"; "pnpm"; "yarn"; "tsc"; "npx"; "bunx"; "vitest"; "jest"; "eslint"; "pytest"; "python"; "python3"; "uv";
   "cargo"; "go"; "make"; "git"].
Lemma nth_is_sub tokens i ss ss' : nth_is tokens i ss = true → forallb (λ s, mem_str s ss') ss = true → nth_is tokens i ss' = true.
Proof.
  unfold nth_is. destruct (tokens !! i) as [t|]; [|done]. unfold is_any, mem. rewrite !existsb_exists, forallb_forall.
  intros (w & Hw & ->%bool_decide_eq_true) Hs. apply in_map_iff in Hw as (s & <- & Hs').
  exists (lit s). split; [|by apply bool_decide_eq_true]. apply in_map. specialize (Hs s Hs'). unfold mem_str in Hs. apply bool_decide_eq_true in Hs. by apply list_elem_of_In.
Qed.
Lemma allowlist_program tokens : matches_allowlist tokens = true → nth_is tokens 0 allowed_programs = true.
Proof.
  unfold matches_allowlist.
  repeat match goal with
  | |- (if ?b then _ else _) = true → _ => destruct b eqn:?; [intros _|]
  end;
  repeat match goal with
  | H : _ && _ = true |- _ => apply andb_true_iff in H as [? ?]
  | H : _ || _ = true |- _ => apply orb_true_iff in H as [?|?]
  end; try (eapply nth_is_sub; [eassumption|by vm_compute]).
  all: try (intros [? ?]%andb_true_iff; eapply nth_is_sub; [eassumption|by vm_compute]).
Qed.
Lemma allowed_resolves first rest : is_any first allowed_programs = true → is_assignment first = false →
  resolve_command_word (first :: rest) = Some first.
Proof.
  intros Hf Ha. unfold resolve_command_word. cbn [length resolve_from]. rewrite Ha.
  unfold is_any, mem in Hf. apply existsb_exists in Hf as (w & Hw & ->%bool_decide_eq_true).
  apply in_map_iff in Hw as (s & <- & Hs).
  assert (∀ s, forallb is_ascii (lit s) = true → executable_name (lit s) =
    map ascii_lower (after_last 0x2F%Z (trim_end_char 0x2F%Z (lit s))) ∨ after_last 0x2F%Z (trim_end_char 0x2F%Z (lit s)) ≠ lit s) as Hname.
  { intros s' Hs'. destruct (decide (after_last 0x2F%Z (trim_end_char 0x2F%Z (lit s')) = lit s')) as [E|]; [left|by right].
    unfold executable_name. rewrite E. by apply lowercase_ascii. }
  assert (executable_name (lit s) = lit s) as En.
  { apply list_elem_of_In in Hs. unfold allowed_programs in Hs. rewrite !elem_of_cons, elem_of_nil in Hs.
    destruct_or? Hs; try done; subst s;
      (match goal with |- context [lit ?n] => destruct (Hname n) as [->|Hno]; [done|by vm_compute|by destruct Hno] end). }
  rewrite En. clear -Hs. apply list_elem_of_In in Hs. unfold allowed_programs in Hs. rewrite !elem_of_cons, elem_of_nil in Hs.
  destruct_or? Hs; try done; by subst s.
Qed.

(** An eligible command is one command and means the same to everyone: the
    words the shell reads, the words of the only simple command, and the
    tokens the allow list was matched against are the same list; its first
    word names the program, one of the allow list; no word is a denied
    program; and nothing is substituted. *)
Theorem eligible_single_command command : classify_shell_command command = Eligible →
  ∃ program arguments, let tokens := program :: arguments in
    command_tokens command = tokens ∧ shell_words command = tokens
    ∧ command_words command = [mkSimple tokens end_of_text]
    ∧ double_quoted_substitutions command = []
    ∧ resolve_command_word tokens = Some program ∧ is_any program allowed_programs = true
    ∧ matches_allowlist tokens = true
    ∧ ∀ w, w ∈ tokens → mem (executable_name w) high_risk_words = false.
Proof.
  unfold classify_shell_command. destruct (is_high_risk command) eqn:Hr; [done|].
  destruct (bool_decide (command = []) || _) eqn:Hp; [done|]. apply orb_false_iff in Hp as [_ Hp%negb_false_iff].
  destruct (command_tokens command) as [|program arguments] eqn:Et; [done|].
  destruct (is_assignment program) eqn:Ha; [done|]. destruct (matches_allowlist _) eqn:Hm; [intros _|done].
  assert (shell_words command = program :: arguments) as Es.
  { rewrite <-Et. unfold shell_words. by apply shell_from_plain. }
  pose proof (allowlist_program _ Hm) as Hprog. unfold nth_is in Hprog. simpl in Hprog.
  exists program, arguments. split_and!; [done|done| | |by apply allowed_resolves|done|done|].
  - unfold command_words. rewrite join_lines_plain by done. etrans; [by apply (lex_from_plain command [] [])|]. simpl.
    change (filter _ _) with (command_tokens command). by rewrite Et.
  - by apply substitutions_plain.
  - intros w Hw. eapply any_risky_false; [by apply not_high_risk|]. unfold risk_words. apply elem_of_app. left. by rewrite Es.
Qed.
End lower.

(** Lower case on ASCII text. *)
#[export] Instance ascii_lowercase : Lowercase.
Proof. refine {| to_lowercase := map ascii_lower |}. done. Defined.

Lemma eligible_single_command_witness : classify_shell_command (lit "cargo test --workspace") = Eligible ∧
  command_words (lit "cargo test --workspace") = [mkSimple [lit "cargo"; lit "test"; lit "--workspace"] end_of_text].
Proof.
  split; [by vm_compute|]. destruct (eligible_single_command (lit "cargo test --workspace")) as (p & args & Ht & _ & Hc & _); [by vm_compute|].
  rewrite Hc, <-Ht. by vm_compute.
Defined.

(** [ if A=1 timeout 5 tee "got $(wc -l)" 2>log && grep 'x y' f]: three
    commands, the substituted one too. *)
Definition plain_script : script :=
  Then [Keyword (lit "if"); Assign (lit "A") [Plain (lit "1")]; Wrapper (lit "timeout") (Some (lit "5")); Word [Plain (lit "tee")];
        Word [Subst (lit "got ") (Last [Word [Plain (lit "wc")]; Word [Plain (lit "-l")]]) []];
        Redirect (lit "2") (lit ">") [Plain (lit "log")]] SAnd
    (Last [Word [Plain (lit "grep")]; Word [Single (lit "x y")]; Word [Plain (lit "f")]]).
Lemma named_in_plain_sight_witness :
  (∃ t, [Plain (lit "wc")] = [Plain t] ∧ spelled_out t = true
    ∧ mem (executable_name t) high_risk_words = false ∧ mem (executable_name t) indirect_command_words = false)
  ∧ (∃ t, [Plain (lit "tee")] = [Plain t] ∧ spelled_out t = true
    ∧ mem (executable_name t) high_risk_words = false ∧ mem (executable_name t) indirect_command_words = false).
Proof.
  split.
  - apply (named_in_plain_sight plain_script [Word [Plain (lit "wc")]; Word [Plain (lit "-l")]]); [by vm_compute..| |by vm_compute].
    eapply executes_inside; [left|left|]. apply executes_here. left.
  - eapply (named_in_plain_sight plain_script); [by vm_compute..|apply executes_here; left|by vm_compute].
Defined.
(** Each hypothesis can fail: a denied program in a substitution, an expansion
    for a program. *)
Example plain_script_refused :
  (let s := Last [Word [Plain (lit "echo")]; Word [Subst [] (Last [Word [Plain (lit "rm")]; Word [Plain (lit "x")]]) []]] in
   script_ok s = true ∧ classify_shell_command (print_script s) = HighRisk)
  ∧ (let s := Then [Word [Plain (lit "true")]] SSemi (Last [Word [Plain (lit "$x")]; Word [Plain (lit "-rf")]]) in
     script_ok s = true ∧ classify_shell_command (print_script s) = HighRisk).
Proof. by vm_compute. Qed.

(** ** Where the check falls short *)

Definition line_break : text := [newline_char].

(** A continued line: the shell joins the name of the program, the deny list
    sees its halves. *)
Example continuation_hides_name :
  let raw := lit "r" ++ [backslash] ++ line_break ++ lit "m -rf /" in
  map sc_words (command_words raw) = [map lit ["rm"; "-rf"; "/"]] ∧ classify_shell_command raw = Unknown.
Proof. by vm_compute. Qed.

(** The lexer takes the end of a [case] for a pattern, and all that follows it
    up to a closing parenthesis. *)
Example case_hides_the_rest :
  let raw := lit "case $y in" ++ line_break ++ lit " *) echo ;;" ++ line_break ++ lit "esac" ++ line_break ++ lit "$x -rf /" in
  judged raw = [[lit "echo"]] ∧ classify_shell_command raw = Unknown
  ∧ classify_shell_command (lit "$x -rf /") = HighRisk.
Proof. by vm_compute. Qed.

(** The first word of a process substitution is taken for the file of a
    redirection. *)
Example process_substitution_hides_name :
  map sc_words (command_words (lit "cat <($x -rf /)")) = [[lit "cat"]; map lit ["-rf"; "/"]]
  ∧ classify_shell_command (lit "cat <($x -rf /)") = Unknown.
Proof. by vm_compute. Qed.

(** Backticks outside of double quotes start no command of their own, so the
    name they run is not looked at: with double quotes it is. *)
Example backtick_hides_name :
  has_unresolvable_command_word (lit "echo `$x -rf /`") = false ∧ classify_shell_command (lit "echo `$x -rf /`") = Unknown
  ∧ classify_shell_command (lit "echo" ++ [0x20%Z; double_quote] ++ lit "`$x -rf /`" ++ [double_quote]) = HighRisk.
Proof. by vm_compute. Qed.
