(* ===== verification/Paths.v ===== *)
(** * Paths inside a workspace

    [toolpacks-coding/src/paths.rs]: the gate every path argument of a file
    tool passes.  A path is its characters.  What the code asks of the file
    system, of the version ledger and of its caller are the questions of a
    process, so that others may act between any two of them.

    A path that passes lies under the root, component by component, with
    every symbolic link followed; a path to be written names nothing under
    [.git], and none of its segments is on the denylist. *)

From S2P Require Export CommandPolicy Diff.
From S2P Require Import PolicyLaws.
Local Open Scope nat_scope.

(** ** What a process asks *)

Inductive IoKind := KAlreadyExists | KUnsupported | KOther.
Record IoError := mkIo { io_errno : option Z; io_kind : IoKind; io_text : string }.
(** [std::fs::Metadata], as far as it is read. *)
Record Meta := mkMeta {
  mt_file : bool; mt_dir : bool; mt_symlink : bool; mt_dev : Z; mt_ino : Z; mt_len : Z; mt_mode : Z
}.
Definition Fd := nat.
Record LedgerEntry := mkLedger { le_sha256 : text; le_full : bool }.

Inductive FsQuery : Type → Type :=
  (** [canonicalize], as text; [symlink_metadata]; [metadata]. *)
  | QCanonicalize (path : text) : FsQuery (option text)
  | QLstat (path : text) : FsQuery (Res IoError Meta)
  | QStat (path : text) : FsQuery (Res IoError Meta)
  (** Descriptors: a directory, where it really is, its parent, a file under
      it or by its path. *)
  | QOpenDir (path : text) : FsQuery (Res IoError Fd)
  | QFdPath (fd : Fd) : FsQuery (option text)
  | QFdStat (fd : Fd) : FsQuery (Res IoError Meta)
  | QOpenParent (fd : Fd) : FsQuery (Res IoError Fd)
  | QOpenAt (dir : Fd) (leaf : text) : FsQuery (Res IoError Fd)
  | QOpenNoFollow (path : text) : FsQuery (Res IoError Fd)
  | QRead (fd : Fd) (room : Z) : FsQuery (Res IoError bytes)
  (** Writing: names are relative to the directory, full paths without one. *)
  | QCreateNew (dir : option Fd) (name : text) (mode : Z) : FsQuery (Res IoError Fd)
  | QSetMode (fd : Fd) (mode : Z) : FsQuery (Res IoError unit)
  | QWriteAll (fd : Fd) (data : bytes) : FsQuery (Res IoError unit)
  | QFlush (fd : Fd) : FsQuery (Res IoError unit)
  | QSyncData (fd : Fd) : FsQuery (Res IoError unit)
  | QRename (dir : option Fd) (from to : text) : FsQuery (Res IoError unit)
  | QLink (dir : option Fd) (from to : text) : FsQuery (Res IoError unit)
  | QUnlink (dir : option Fd) (name : text) : FsQuery unit
  | QSyncDir (dir : option Fd) (prefix : text) : FsQuery unit
  | QMkdirAll (path : text) : FsQuery (Res string unit)
  | QTempId : FsQuery text
  (** The caller: its workspace, its lease on a file, whether it gave up. *)
  | QRoot : FsQuery (Res CodingError text)
  | QAcquireFile (path : text) (tool : string) : FsQuery (Res CodingError unit)
  | QReleaseFile (path : text) : FsQuery unit
  | QCancelled : FsQuery bool
  (** The version ledger: [expected] and [put]. *)
  | QExpected (chat : option text) (path : text) : FsQuery (option LedgerEntry)
  | QRecord (chat : option text) (path sha256 : text) (full : bool) : FsQuery unit.

Inductive FsProc (A : Type) : Type :=
  | FRet (a : A)
  | FAsk {X : Type} (q : FsQuery X) (k : X → FsProc A).
Arguments FRet {A} a.
Arguments FAsk {A X} q k.

(** A process that may fail, with [?]. *)
Definition Fs (A : Type) : Type := FsProc (Res CodingError A).
Fixpoint fbind {A B} (p : Fs A) (f : A → Fs B) : Fs B :=
  match p with
  | FRet (Ok a) => f a
  | FRet (Err e) => FRet (Err e)
  | FAsk q k => FAsk q (λ x, fbind (k x) f)
  end.
Definition fret {A} (a : A) : Fs A := FRet (Ok a).
Definition ffail {A} (code message : string) : Fs A := FRet (Err (coding_error code message)).
Definition ask {A} (q : FsQuery A) : Fs A := FAsk q fret.
Definition ask_or {A E} (q : FsQuery (Res E A)) (f : E → CodingError) : Fs A :=
  FAsk q (λ r, match r with Ok a => fret a | Err e => FRet (Err (f e)) end).
Definition flift {A} (r : Res CodingError A) : Fs A := FRet r.
#[export] Instance Fs_ret : MRet Fs := @fret.
#[export] Instance Fs_bind : MBind Fs := λ A B f p, fbind p f.

(** One question with its answer, and what a process may come to. *)
Inductive FsEvent := | Ev {X : Type} (q : FsQuery X) (x : X).
Inductive runs {A} : FsProc A → list FsEvent → FsProc A → Prop :=
  | runs_here p : runs p [] p
  | runs_ask {X} (q : FsQuery X) k x tr p' : runs (k x) tr p' → runs (FAsk q k) (Ev q x :: tr) p'.

(** ** Text *)

Definition slash : char := 0x2F%Z.
Definition show_text (t : text) : string := String.string_of_list_ascii (map (λ b, ascii_of_nat (Z.to_nat b)) (encode t)).
Fixpoint join_with (sep : char) (parts : list text) : text :=
  match parts with
  | [] => []
  | [part] => part
  | part :: parts => part ++ sep :: join_with sep parts
  end.
Fixpoint infixb (needle t : text) : bool :=
  prefixb needle t || match t with [] => false | _ :: t => infixb needle t end.
Definition suffixb (suffix t : text) : bool := prefixb (rev suffix) (rev t).
(** [rfind] of a character. *)
Definition rfind_char (c : char) (t : text) : option nat :=
  let after := take_while (λ d, negb (d =? c)%Z) (rev t) in
  if Nat.eqb (length after) (length t) then None else Some (length t - length after - 1).
Definition trim_spaces (t : text) : text := rev (drop_while white_space (rev (drop_while white_space t))).

(** ** The denylist *)

Definition sensitive_directories : list text :=
  map lit [".git"; ".ssh"; ".aws"; ".gnupg"; ".kube"; ".docker"; ".azure"; ".terraform.d"].
Definition sensitive_extensions : list text :=
  map lit [".pem"; ".key"; ".p12"; ".pfx"; ".jks"; ".keystore"; ".p8"; ".jwk"; ".kdbx"].
Definition sensitive_names : list text :=
  map lit [".netrc"; ".npmrc"; ".pypirc"; ".git-credentials"; ".htpasswd"; ".pgpass"].
Definition sensitive_prefixes : list text :=
  map lit ["id_rsa"; "id_dsa"; "id_ecdsa"; "id_ed25519"; "id_ed448"; "credentials"; "secrets"; "service-account"].
Definition sensitive_infixes : list text := map lit [".tfstate"].
Definition template_suffixes : list text := map lit [".example"; ".sample"; ".template"; ".tpl"; ".dist"; ".default"].

Section paths.
Context {L : Lowercase}.

Definition is_sensitive_segment (raw : text) : bool :=
  let segment := to_lowercase (trim_spaces raw) in
  if bool_decide (segment = []) || bool_decide (segment = lit ".") || bool_decide (segment = lit "**") then false
  else if mem segment sensitive_directories || mem segment sensitive_names then true
  else if existsb (λ prefix, prefixb prefix segment) sensitive_prefixes then true
  else if existsb (λ inner, infixb inner segment) sensitive_infixes then true
  else if prefixb (lit ".env") segment then negb (existsb (λ suffix, suffixb suffix segment) template_suffixes)
  else if suffixb (lit ".env") segment then true
  else match rfind_char 0x2E%Z segment with
       | Some dot => Nat.ltb 0 dot && mem (drop dot segment) sensitive_extensions
       | None => false
       end.

Definition segments_of (path : text) : list text := words_between (λ c, (c =? slash)%Z || (c =? backslash)%Z) path.
Definition is_git_segment (segment : text) : bool := bool_decide (to_lowercase segment = lit ".git").
Definition is_sensitive_path (path : text) : bool := existsb is_sensitive_segment (segments_of path).

(** ** Where a path leads *)

Record ConfinedPath := mkConfined { cf_root : text; cf_path : text; cf_relative : text }.
Inductive PathAccess := ReadAccess | WriteAccess.
Record ConfineOptions := mkConfineOptions { co_access : PathAccess; co_allow_sensitive : bool }.

Definition rel_escapes (rel : text) : bool :=
  bool_decide (rel = lit "..") || prefixb (lit "../") rel || bool_decide (rel = lit "/") || prefixb (lit "/") rel.
Definition path_parts (path : text) : list text := words_between (Z.eqb slash) path.
Definition relative_to (from to : text) : text :=
  let from_parts := path_parts from in
  let to_parts := path_parts to in
  let common := common_prefix from_parts to_parts in
  join_with slash (replicate (length from_parts - common) (lit "..") ++ drop common to_parts).

Definition push_part (stack : list text) (part : text) : list text :=
  if bool_decide (part = []) || bool_decide (part = lit ".") then stack
  else if bool_decide (part = lit "..") then removelast stack
  else stack ++ [part].
Definition resolve_path (root raw : text) : text :=
  let base := if prefixb [slash] raw then [] else root in
  let stack := filter (λ part, part ≠ lit ".") (path_parts base) in
  slash :: join_with slash (foldl push_part stack (split_on (Z.eqb slash) raw)).

Definition parent_of (path : text) : option text :=
  let trimmed := trim_end_char slash path in
  match trimmed with
  | [] => None
  | _ => match rfind_char slash trimmed with
         | None | Some 0 => Some [slash]
         | Some at_ => Some (take at_ trimmed)
         end
  end.

Definition outside {A} (raw : text) : Fs A := ffail "path_outside_root" (show_text raw +:+ " is outside the workspace").
Definition is_symlink (path : text) : Fs bool :=
  FAsk (QLstat path) (λ r, fret (match r with Ok meta => meta.(mt_symlink) | Err _ => false end)).

(** The loop that climbs to the nearest ancestor that exists; the names below
    it are [missing].  The fuel is never spent ([ascend_enough]). *)
Fixpoint ascend (fuel : nat) (raw existing : text) (missing : list text) : Fs (text * list text) :=
  match fuel with
  | O => ffail "fuel" ""
  | S fuel =>
      resolved ← ask (QCanonicalize existing);
      match resolved with
      | Some resolved => mret (resolved, missing)
      | None =>
          link ← is_symlink existing;
          if (link : bool) then
            ffail "path_dangling_symlink" (show_text raw +:+ " is a dangling symlink; refusing to follow it")
          else
            let parent := default [slash] (parent_of existing) in
            if bool_decide (parent = existing) then outside raw
            else ascend fuel raw parent (drop_while (Z.eqb slash) (drop (length parent) existing) :: missing)
      end
  end.

(** [Path::join] *)
Definition path_join (base more : text) : text :=
  if prefixb [slash] more then more
  else if bool_decide (base = []) || suffixb [slash] base then base ++ more
  else base ++ slash :: more.

Definition resolve_inside_root (root raw : text) : Fs ConfinedPath :=
  if bool_decide (raw = []) || Nat.ltb 4096 (utf16_len raw) then
    ffail "path_invalid" "path must be a non-empty string (max 4096)"
  else if one_of 0%Z raw then ffail "path_invalid" "path contains a NUL byte"
  else if prefixb (lit "~") raw then ffail "path_invalid" "paths starting with ~ are not supported"
  else
    let target := resolve_path root raw in
    found ← ascend (S (length target)) raw target [];
    let '(existing, missing) := found : text * list text in
    let path := match missing with [] => existing | _ => path_join existing (join_with slash missing) end in
    let relative := relative_to root path in
    if rel_escapes relative then outside raw else mret (mkConfined root path relative).

Definition confine (root raw : text) (options : ConfineOptions) : Fs ConfinedPath :=
  confined ← resolve_inside_root root raw;
  let lexical := relative_to root (resolve_path root raw) in
  let candidates := filter (λ rel, rel_escapes rel = false) [confined.(cf_relative); lexical] in
  let segments := concat (map segments_of candidates) in
  if match options.(co_access) with WriteAccess => existsb is_git_segment segments | ReadAccess => false end then
    ffail "path_git_write" "writes under .git are never allowed"
  else match (if options.(co_allow_sensitive) then None else find_by is_sensitive_segment segments) with
       | Some hit => ffail "path_sensitive" (show_text raw +:+ " names a sensitive path (" +:+ show_text hit +:+ "); refused")
       | None => mret confined
       end.
End paths.

(** ** Reasoning about processes *)

(** A world that answers, from a state of its own: what a process does in it. *)
Fixpoint run_in {S A} (world : S → ∀ X, FsQuery X → X * S) (s : S) (p : FsProc A) : list FsEvent * A * S :=
  match p with
  | FRet a => ([], a, s)
  | @FAsk _ X q k => let '(x, s) := world s X q in let '(tr, a, s) := run_in world s (k x) in (Ev q x :: tr, a, s)
  end.
Lemma run_in_runs {S A} (world : S → ∀ X, FsQuery X → X * S) (p : FsProc A) : ∀ s tr a s',
  run_in world s p = (tr, a, s') → runs p tr (FRet a).
Proof.
  induction p as [a|X q k IH]; intros s tr b s'; cbn [run_in]; [intros [= <- <- <-]; constructor|].
  destruct (world s X q) as [x s1]. destruct (run_in world s1 (k x)) as [[tr1 b1] s2] eqn:E. intros [= <- <- <-]. constructor. by eapply IH.
Qed.

Section logic.
(** What is assumed of an answer, and what must hold when a question is put,
    given all that happened before. *)
Context (sane : list FsEvent → ∀ X, FsQuery X → X → Prop) (may : list FsEvent → ∀ X, FsQuery X → Prop).

Fixpoint sane_run (h tr : list FsEvent) : Prop :=
  match tr with
  | [] => True
  | @Ev X q x :: tr => sane h X q x ∧ sane_run (h ++ [Ev q x]) tr
  end.
Fixpoint fwp {A} (h : list FsEvent) (p : FsProc A) (Q : list FsEvent → A → Prop) : Prop :=
  match p with
  | FRet a => Q h a
  | @FAsk _ X q k => may h X q ∧ ∀ x, sane h X q x → fwp (h ++ [Ev q x]) (k x) Q
  end.

Lemma fwp_runs {A} (p p' : FsProc A) tr Q : runs p tr p' → ∀ h, sane_run h tr → fwp h p Q → fwp (h ++ tr) p' Q.
Proof.
  induction 1 as [p|X q k x tr p' _ IH]; intros h Hs Hw; [by rewrite app_nil_r|]. destruct Hs as [Hx Hs], Hw as [_ Hw].
  rewrite cons_middle, app_assoc. apply IH; [done|]. by apply Hw.
Qed.
Lemma fwp_mono {A} (Q Q' : list FsEvent → A → Prop) (p : FsProc A) : (∀ h a, Q h a → Q' h a) → ∀ h, fwp h p Q → fwp h p Q'.
Proof. intros HQ. induction p as [a|X q k IH]; intros h; cbn [fwp]; [apply HQ|]. intros [H1 H2]. split; [done|]. intros x Hx. apply IH, H2, Hx. Qed.

(** The postcondition of a process that may fail. *)
Definition ok {A} (Q : list FsEvent → A → Prop) (h : list FsEvent) (r : Res CodingError A) : Prop :=
  match r with Ok a => Q h a | Err e => e.(ce_code) ≠ "fuel" end.
Lemma fwp_bind {A B} (Q : list FsEvent → B → Prop) (p : Fs A) (f : A → Fs B) : ∀ h,
  fwp h p (ok (λ h a, fwp h (f a) (ok Q))) → fwp h (p ≫= f) (ok Q).
Proof.
  change (p ≫= f) with (fbind p f). induction p as [[a|e]|X q k IH]; intros h; cbn [fbind fwp]; [done|done|].
  intros [H1 H2]. split; [done|]. intros x Hx. apply IH, H2, Hx.
Qed.
Lemma fwp_ask {A} (Q : list FsEvent → A → Prop) (q : FsQuery A) h :
  may h A q → (∀ x, sane h A q x → Q (h ++ [Ev q x]) x) → fwp h (ask q) (ok Q).
Proof. done. Qed.
Lemma fwp_ask_or {A E} (Q : list FsEvent → A → Prop) (q : FsQuery (Res E A)) f h :
  may h _ q → (∀ e, (f e).(ce_code) ≠ "fuel") → (∀ a, sane h _ q (Ok a) → Q (h ++ [Ev q (Ok a)]) a) → fwp h (ask_or q f) (ok Q).
Proof. intros H He HQ. split; [done|]. intros [a|e] Hx; cbn; [by apply HQ|apply He]. Qed.
End logic.

(** ** Components *)

Definition clean (part : text) : Prop := part ≠ [] ∧ part ≠ lit "." ∧ part ≠ lit ".." ∧ slash ∉ part.
(** The absolute path of a list of names. *)
Definition absolute (parts : list text) : text := slash :: join_with slash parts.
Definition canonical (path : text) : Prop := ∃ parts, Forall clean parts ∧ path = absolute parts.

Lemma pieces_clean part : slash ∉ part → ∀ word, pieces (Z.eqb slash) part word = [word ++ part].
Proof. intros H word. apply pieces_word, Forall_forall. intros c Hc. apply Z.eqb_neq. by intros <-. Qed.
Lemma split_join parts : parts ≠ [] → Forall (λ part, slash ∉ part) parts → split_on (Z.eqb slash) (join_with slash parts) = parts.
Proof.
  intros Hne H. unfold split_on. induction H as [|part [|part' parts] Hp H IH]; [done| |].
  - by rewrite pieces_clean.
  - cbn [join_with]. rewrite pieces_sep by done. rewrite pieces_clean by done. f_equal. by apply IH.
Qed.
Lemma clean_slash parts : Forall clean parts → Forall (λ part, slash ∉ part) parts.
Proof. intros H. eapply Forall_impl; [exact H|]. by intros part (_ & _ & _ & Hs). Qed.
Lemma filter_clean (P : text → Prop) `{!∀ t, Decision (P t)} parts : (∀ part, clean part → P part) → Forall clean parts → filter P parts = parts.
Proof.
  intros HP. induction 1 as [|part parts Hp Hps IH]; [done|]. rewrite filter_cons_True by (by apply HP). by rewrite IH.
Qed.
Lemma path_parts_absolute parts : Forall clean parts → path_parts (absolute parts) = parts.
Proof.
  intros H. unfold path_parts, words_between, absolute, split_on. cbn [pieces]. rewrite Z.eqb_refl.
  rewrite filter_cons_False by (intros E; by apply E). destruct parts as [|part parts]; [done|].
  fold (split_on (Z.eqb slash) (join_with slash (part :: parts))). rewrite split_join by (done || by apply clean_slash).
  apply filter_clean; [by intros ? []|done].
Qed.

Lemma push_part_clean stack part : Forall clean stack → slash ∉ part → Forall clean (push_part stack part).
Proof.
  intros H Hp. unfold push_part. case_bool_decide as E1; [done|]. case_bool_decide as E2; [done|]. simpl. case_bool_decide as E3.
  - induction H as [|x l Hx H IH]; [done|]. destruct l; [constructor|]. by constructor.
  - apply Forall_app. split; [done|]. by repeat constructor.
Qed.
Lemma pieces_slash s : ∀ word, slash ∉ word → Forall (λ part, slash ∉ part) (pieces (Z.eqb slash) s word).
Proof.
  induction s as [|c s IH]; intros word H; cbn [pieces]; [by constructor|]. destruct (Z.eqb_spec slash c) as [<-|Hc].
  - constructor; [done|]. apply IH. by apply not_elem_of_nil.
  - apply IH. rewrite elem_of_app, list_elem_of_singleton. by intros [?|?].
Qed.
Lemma resolve_path_canonical root raw : canonical root → canonical (resolve_path root raw).
Proof.
  intros (parts & Hparts & ->). unfold resolve_path. eexists. split; [|done].
  assert (Forall clean (filter (λ part, part ≠ lit ".") (path_parts (if prefixb [slash] raw then [] else absolute parts)))) as Hb.
  { apply Forall_forall. intros part [_ Hin]%list_elem_of_filter. destruct (prefixb _ _); [by apply elem_of_nil in Hin|].
    rewrite path_parts_absolute in Hin by done. by apply (proj1 (Forall_forall _ _) Hparts). }
  revert Hb. generalize (filter (λ part, part ≠ lit ".") (path_parts (if prefixb [slash] raw then [] else absolute parts))) as stack.
  pose proof (pieces_slash raw [] ltac:(apply not_elem_of_nil)) as H. unfold split_on.
  induction H as [|part l Hp H IH]; intros stack Hs; [done|]. cbn [foldl]. apply IH. by apply push_part_clean.
Qed.

Lemma join_snoc part parts : parts ≠ [] → join_with slash (parts ++ [part]) = join_with slash parts ++ slash :: part.
Proof.
  induction parts as [|p [|p' parts] IH]; intros H; [done|done|]. cbn [app join_with] in *. rewrite IH by done. by rewrite <- app_assoc.
Qed.
Lemma join_app parts parts' : parts ≠ [] → parts' ≠ [] → join_with slash (parts ++ parts') = join_with slash parts ++ slash :: join_with slash parts'.
Proof.
  intros Hp Hp'. induction parts as [|p [|p1 parts] IH]; [done|by destruct parts'|]. cbn [app join_with] in *. rewrite IH by done. by rewrite <- app_assoc.
Qed.
(** What precedes the last name of a path. *)
Definition before_name (parts : list text) : text := match parts with [] => [] | _ => absolute parts end.
Lemma absolute_snoc parts part : absolute (parts ++ [part]) = before_name parts ++ slash :: part.
Proof. unfold absolute, before_name. destruct parts as [|p parts]; [done|]. by rewrite join_snoc. Qed.

Lemma take_while_stop {A} (p : A → bool) l a r : Forall (λ x, p x = true) l → p a = false → take_while p (l ++ a :: r) = l.
Proof. intros H Ha. induction H as [|x l Hx H IH]; cbn; [by rewrite Ha|]. by rewrite Hx, IH. Qed.
Lemma drop_while_none {A} (p : A → bool) a l : p a = false → drop_while p (a :: l) = a :: l.
Proof. intros H. cbn. by rewrite H. Qed.
Lemma clean_last part : clean part → ∃ part' c, part = part' ++ [c] ∧ (slash =? c)%Z = false.
Proof.
  intros (Hne & _ & _ & Hs). destruct part as [|c part _] using rev_ind; [done|]. exists part, c. split; [done|].
  apply Z.eqb_neq. intros <-. apply Hs, elem_of_app. right. by left.
Qed.
Lemma clean_head part : clean part → ∃ c part', part = c :: part' ∧ (slash =? c)%Z = false.
Proof.
  intros (Hne & _ & _ & Hs). destruct part as [|c part]; [done|]. exists c, part. split; [done|]. apply Z.eqb_neq. intros <-. apply Hs. by left.
Qed.
Lemma parent_of_name parts part : clean part → parent_of (before_name parts ++ slash :: part) = Some (absolute parts).
Proof.
  intros Hp. destruct (clean_last part Hp) as (part' & c & -> & Hc). unfold parent_of, trim_end_char.
  assert (before_name parts ++ slash :: part' ++ [c] = (before_name parts ++ slash :: part') ++ [c]) as E by (by rewrite <- app_assoc).
  rewrite E, reverse_snoc, drop_while_none, <- reverse_snoc, reverse_involutive, <- E by done.
  assert (rfind_char slash (before_name parts ++ slash :: part' ++ [c]) = Some (length (before_name parts))) as ->.
  { destruct Hp as (_ & _ & _ & Hs). revert Hs. generalize (part' ++ [c]) as s. intros s Hs. unfold rfind_char.
    rewrite rev_app_distr. cbn [rev]. rewrite <- app_assoc. cbn [app]. rewrite take_while_stop; [| |by rewrite Z.eqb_refl].
    - rewrite length_rev, length_app. cbn [length]. destruct (Nat.eqb_spec (length s) (length (before_name parts) + S (length s))); [lia|]. f_equal. lia.
    - apply Forall_forall. intros x Hx. apply list_elem_of_In, in_rev, list_elem_of_In in Hx. apply negb_true_iff, Z.eqb_neq. by intros ->. }
  destruct parts as [|p parts]; [done|]. rewrite take_app_length. done.
Qed.
Lemma parent_root : parent_of (absolute []) = None.
Proof. done. Qed.
Lemma below_parent parts part : clean part →
  drop_while (Z.eqb slash) (drop (length (absolute parts)) (before_name parts ++ slash :: part)) = part.
Proof.
  intros (c & part' & -> & Hc)%clean_head. destruct parts as [|p parts].
  - exact (drop_while_none _ c part' Hc).
  - cbn [before_name]. rewrite drop_app_length. exact (drop_while_none _ c part' Hc).
Qed.

(** [canonicalize] answers with canonical paths. *)
Definition canonical_answers (h : list FsEvent) (X : Type) (q : FsQuery X) : X → Prop :=
  match q with
  | QCanonicalize _ => λ r, match r with Some path => canonical path | None => True end
  | _ => λ _, True
  end.
Definition anything (h : list FsEvent) (X : Type) (q : FsQuery X) : Prop := True.

Lemma ascend_spec raw : ∀ fuel parts missing h, length parts < fuel → Forall clean (parts ++ missing) →
  fwp canonical_answers anything h (ascend fuel raw (absolute parts) missing)
    (ok (λ h' found, ∃ above, parts ++ missing = above ++ found.2 ∧ canonical found.1
      ∧ Ev (QCanonicalize (absolute above)) (Some found.1) ∈ h')).
Proof.
  induction fuel as [|fuel IH]; intros parts missing h Hf Hc; [lia|]. cbn [ascend].
  apply fwp_bind, fwp_ask; [done|]. intros [resolved|] Hx.
  { exists parts. split; [done|]. split; [done|]. apply elem_of_app. right. by left. }
  apply fwp_bind. split; [done|]. intros link _. unfold fret. cbn [fwp ok].
  destruct (match link with Ok meta => mt_symlink meta | Err _ => false end); [done|].
  destruct parts as [|part parts _] using rev_ind; [done|]. rewrite absolute_snoc.
  apply Forall_app in Hc as Hc'. destruct Hc' as [Hparts Hm]. apply Forall_app in Hparts as [Hparts Hpart]. apply Forall_inv in Hpart.
  rewrite parent_of_name by done. change (default [slash] (Some (absolute parts))) with (absolute parts). cbv zeta. rewrite below_parent by done.
  rewrite bool_decide_eq_false_2.
  2:{ intros E. apply (f_equal length) in E. rewrite <- absolute_snoc in E. unfold absolute in E. cbn in E. destruct parts as [|p parts].
      - destruct (clean_head _ Hpart) as (? & ? & -> & _). done.
      - rewrite join_snoc, length_app in E by done. cbn in E. lia. }
  eapply fwp_mono; [|apply IH; [rewrite length_app in Hf; cbn in Hf; lia|]].
  - intros h' [a|e]; [|done]. cbn. intros (above & E & Hr). exists above. rewrite <- app_assoc. done.
  - rewrite <- app_assoc in Hc. done.
Qed.

Lemma prefix_head c s : (slash =? c)%Z = false → prefixb [slash] (c :: s) = false.
Proof. intros H. cbn -[Z.eqb]. by rewrite H. Qed.
Lemma absolute_join parts more : Forall clean parts → Forall clean more → more ≠ [] →
  path_join (absolute parts) (join_with slash more) = absolute (parts ++ more).
Proof.
  intros Hp Hm Hne. unfold path_join. destruct more as [|m more]; [done|]. apply Forall_inv in Hm as Hm1.
  destruct (clean_head _ Hm1) as (c & m' & -> & Hc).
  assert (prefixb [slash] (join_with slash ((c :: m') :: more)) = false) as ->.
  { destruct more; by apply prefix_head. }
  unfold absolute. rewrite bool_decide_eq_false_2 by done. cbn [orb]. destruct parts as [|part parts _] using rev_ind; [done|].
  apply Forall_app in Hp as [_ Hp]. apply Forall_inv in Hp. destruct (clean_last _ Hp) as (p' & d & -> & Hd).
  assert (suffixb [slash] (slash :: join_with slash (parts ++ [p' ++ [d]])) = false) as ->.
  { unfold suffixb. destruct parts as [|p parts].
    - cbn [app join_with]. change (slash :: p' ++ [d]) with ((slash :: p') ++ [d]). rewrite rev_unit. by apply prefix_head.
    - rewrite join_snoc by done. change (slash :: join_with slash (p :: parts) ++ slash :: p' ++ [d]) with ((slash :: join_with slash (p :: parts)) ++ (slash :: p') ++ [d]).
      rewrite app_assoc, rev_unit. by apply prefix_head. }
  rewrite (join_app (parts ++ [p' ++ [d]])); [done| |done]. by destruct parts.
Qed.

Lemma escapes_up rest : rel_escapes (join_with slash (lit ".." :: rest)) = true.
Proof.
  destruct rest as [|p rest]; [done|]. change (join_with slash (lit ".." :: p :: rest)) with (lit ".." ++ slash :: join_with slash (p :: rest)).
  generalize (join_with slash (p :: rest)) as s. intros s. unfold rel_escapes.
  assert (prefixb (lit "../") (lit ".." ++ slash :: s) = true) as E by done. by rewrite E, orb_true_r.
Qed.
(** A relative path that does not escape is what follows the root. *)
Lemma rel_inside roots parts : Forall clean roots → Forall clean parts →
  rel_escapes (relative_to (absolute roots) (absolute parts)) = false →
  ∃ inside, parts = roots ++ inside ∧ relative_to (absolute roots) (absolute parts) = join_with slash inside.
Proof.
  intros Hr Hp. unfold relative_to. rewrite !path_parts_absolute by done. intros He.
  destruct (common_prefix_le roots parts) as [H1 H2]. set (n := common_prefix roots parts) in *.
  destruct (decide (n = length roots)) as [E|Hlt].
  - exists (drop n parts). rewrite E, Nat.sub_diag. split; [|done]. rewrite <- (take_drop n parts) at 1. rewrite <- E. f_equal.
    unfold n. rewrite <- common_prefix_take. fold n. rewrite E. apply firstn_all.
  - exfalso. destruct (length roots - n) as [|k] eqn:Ek; [lia|]. cbn [replicate app] in He. by rewrite escapes_up in He.
Qed.

(** Where a confined path leads. *)
Definition leads (root raw : text) (c : ConfinedPath) (h : list FsEvent) : Prop :=
  ∃ roots inside above resolved missing,
    root = absolute roots ∧ c = mkConfined root (absolute (roots ++ inside)) (join_with slash inside) ∧ Forall clean (roots ++ inside)
    ∧ rel_escapes (join_with slash inside) = false ∧ resolve_path root raw = absolute (above ++ missing) ∧ roots ++ inside = resolved ++ missing
    ∧ Ev (QCanonicalize (absolute above)) (Some (absolute resolved)) ∈ h.

Lemma absolute_length parts : Forall clean parts → length parts < S (length (absolute parts)).
Proof.
  unfold absolute. cbn. intros H. apply le_n_S. induction H as [|p parts Hp Hps IH]; [cbn; lia|].
  destruct (clean_head _ Hp) as (c & p' & -> & _). destruct parts; cbn in *; [lia|]. rewrite length_app. cbn. lia.
Qed.
Lemma resolve_leads root raw h : canonical root →
  fwp canonical_answers anything h (resolve_inside_root root raw) (ok (λ h' c, leads root raw c h')).
Proof.
  intros Hroot. unfold resolve_inside_root. destruct (_ || _); [done|]. destruct (one_of _ _); [done|]. destruct (prefixb _ raw); [done|].
  destruct (resolve_path_canonical root raw Hroot) as (parts & Hparts & Hres). destruct Hroot as (roots & Hroots & ->). rewrite Hres.
  apply fwp_bind. eapply fwp_mono; [|apply ascend_spec; [by apply absolute_length|by rewrite app_nil_r]].
  intros h' [[existing missing]|e]; [|done]. cbn [ok fst snd]. rewrite app_nil_r. intros (above & E & (resolved & Hresolved & ->) & Hin).
  rewrite E in Hparts. apply Forall_app in Hparts as [_ Hmissing].
  assert ((match missing with [] => absolute resolved | _ => path_join (absolute resolved) (join_with slash missing) end) = absolute (resolved ++ missing)) as ->.
  { destruct missing; [by rewrite app_nil_r|]. by apply absolute_join. }
  destruct (rel_escapes _) eqn:Ee; [done|]. cbn [fwp mret Fs_ret fret ok].
  assert (Forall clean (resolved ++ missing)) as Hc by (by apply Forall_app).
  destruct (rel_inside _ _ Hroots Hc Ee) as (inside & Ei & Er). rewrite Er in *.
  exists roots, inside, above, resolved, missing. split; [done|]. rewrite Ei in *. split; [done|]. split; [done|]. split; [done|]. rewrite <- E. done.
Qed.

Section confined.
Context {L : Lowercase}.

(** The segments of a name are free of what may not be touched. *)
Definition permitted (options : ConfineOptions) (rel : text) : Prop :=
  (options.(co_access) = WriteAccess → ∀ segment, segment ∈ segments_of rel → to_lowercase segment ≠ lit ".git")
  ∧ (options.(co_allow_sensitive) = false → ∀ segment, segment ∈ segments_of rel → is_sensitive_segment segment = false).

Lemma confine_leads root raw options h : canonical root →
  fwp canonical_answers anything h (confine root raw options)
    (ok (λ h' c, leads root raw c h' ∧ ∀ rel, rel = c.(cf_relative) ∨ rel = relative_to root (resolve_path root raw) →
                   rel_escapes rel = false → permitted options rel)).
Proof.
  intros Hroot. unfold confine. apply fwp_bind. eapply fwp_mono; [|by apply resolve_leads]. intros h' [c|e]; [|done]. cbn [ok]. intros Hl.
  set (segments := concat _).
  assert (∀ rel segment, rel = cf_relative c ∨ rel = relative_to root (resolve_path root raw) → rel_escapes rel = false →
    segment ∈ segments_of rel → segment ∈ segments) as Hin.
  { intros rel segment Hrel He Hs. apply list_elem_of_In, in_concat. exists (segments_of rel). split; [|by apply list_elem_of_In].
    apply in_map, list_elem_of_In, list_elem_of_filter. split; [done|]. destruct Hrel as [->| ->]; [left|right; left]. }
  destruct (match co_access options with WriteAccess => existsb is_git_segment segments | ReadAccess => false end) eqn:Eg; [done|].
  destruct (if co_allow_sensitive options then None else find_by is_sensitive_segment segments) eqn:Es; [done|].
  cbn [fwp mret Fs_ret fret ok]. split; [done|].
  intros rel Hrel He. split.
  - intros Ha segment Hs E. rewrite Ha in Eg. pose proof (proj1 (existsb_false _ _) Eg segment (Hin _ _ Hrel He Hs)) as Hg.
    by apply bool_decide_eq_false in Hg.
  - intros Ha segment Hs. rewrite Ha in Es. exact (proj1 (find_by_None _ _) Es _ (Hin _ _ Hrel He Hs)).
Qed.

(** C33: A path that passes leads into the workspace.  Whatever the file system
    answers and whoever acts meanwhile, the path returned is the root followed
    by clean names; it is what [canonicalize] answered for an ancestor of the
    path asked for, followed by the names below that ancestor; its relative form
    is those names; and neither that form nor the one asked for, where it stays
    inside, has a segment that the access or the denylist forbids.  The climb to
    the ancestor always ends. *)
Theorem confined_inside root raw options tr r : canonical root → sane_run canonical_answers [] tr →
  runs (confine root raw options) tr (FRet r) →
  match r with
  | Ok c => leads root raw c tr ∧ permitted options c.(cf_relative)
            ∧ (rel_escapes (relative_to root (resolve_path root raw)) = false → permitted options (relative_to root (resolve_path root raw)))
  | Err e => e.(ce_code) ≠ "fuel"
  end.
Proof.
  intros Hroot Hs Hr. pose proof (fwp_runs _ _ _ _ _ _ Hr [] Hs (confine_leads root raw options [] Hroot)) as H.
  destruct r as [c|e]; [|exact H]. destruct H as [Hl Hp]. split; [exact Hl|]. split; [|by apply Hp; right].
  apply Hp; [by left|]. by destruct Hl as (roots & inside & above & resolved & missing & -> & -> & _ & He & _).
Qed.
End confined.

#[export] Instance clean_dec part : Decision (clean part).
Proof. unfold clean. apply _. Defined.
Lemma canonical_of parts : bool_decide (Forall clean parts) = true → canonical (absolute parts).
Proof. intros H%bool_decide_eq_true. by exists parts. Qed.

(** A world in which nothing is there. *)
Definition quiet {X} (q : FsQuery X) : X :=
  match q with
  | QCanonicalize _ => None
  | QLstat _ | QStat _ | QOpenDir _ | QFdStat _ | QOpenParent _ | QOpenAt _ _ | QOpenNoFollow _ | QRead _ _ | QCreateNew _ _ _
  | QSetMode _ _ | QWriteAll _ _ | QFlush _ | QSyncData _ | QRename _ _ _ | QLink _ _ _ => Err (mkIo (Some 2%Z) KOther "No such file or directory")
  | QFdPath _ => None
  | QUnlink _ _ | QSyncDir _ _ | QReleaseFile _ | QRecord _ _ _ _ => tt
  | QMkdirAll _ | QAcquireFile _ _ => Ok tt
  | QTempId => lit "0a1b2c3d4e5f"
  | QRoot => Ok (lit "/w")
  | QCancelled => false
  | QExpected _ _ => None
  end.
(** The directory [src] of the workspace is a link to [lib]. *)
Definition linked_world (s : unit) (X : Type) (q : FsQuery X) : X * unit :=
  (match q in FsQuery X return X with
   | QCanonicalize path => if bool_decide (path = lit "/w/src") then Some (lit "/w/lib") else None
   | q => quiet q
   end, s).
Definition plain_write : ConfineOptions := mkConfineOptions WriteAccess false.
Example confine_example :
  (run_in linked_world tt (confine (L := ascii_lowercase) (lit "/w") (lit "src/./x/../new.rs") plain_write)).1.2
  = Ok (mkConfined (lit "/w") (lit "/w/lib/new.rs") (lit "lib/new.rs")).
Proof. vm_compute. reflexivity. Qed.
Lemma confined_inside_witness : ∃ tr c,
  leads (lit "/w") (lit "src/new.rs") c tr ∧ permitted (L := ascii_lowercase) plain_write c.(cf_relative) ∧ c.(cf_path) = lit "/w/lib/new.rs".
Proof.
  destruct (run_in linked_world tt (confine (L := ascii_lowercase) (lit "/w") (lit "src/new.rs") plain_write)) as [[tr r] s] eqn:E.
  pose proof (run_in_runs _ _ _ _ _ _ E) as Hr. vm_compute in E. injection E as <- <- <-.
  pose proof (λ Hs, confined_inside (L := ascii_lowercase) (lit "/w") (lit "src/new.rs") plain_write _ _ (canonical_of [lit "w"] eq_refl) Hs Hr) as H.
  destruct (H (conj I (conj I (conj (canonical_of [lit "w"; lit "lib"] eq_refl) I)))) as (H1 & H2 & _).
  eexists _, _. split; [exact H1|]. split; [exact H2|reflexivity].
Defined.
