(* ===== verification/FileTools.v ===== *)
(** * The file tools

    [toolpacks-coding/src/fs_util.rs], [version_ledger.rs], [args.rs],
    [errors.rs] and the reading and writing tools of [fs_tools.rs].  A tool
    is a process ([Paths.FsProc]) from its parsed arguments; the descriptors
    it opens are numbers the file system hands out.  The version ledger is a
    state of its own, answering [QExpected] and [QRecord]. *)

From stdpp Require Import gmap.
From S2P Require Export Paths Value.
Local Open Scope nat_scope.

(** ** Errors *)

Definition newline_bytes : bytes := [LF].
Definition show_bytes (s : bytes) : string := String.string_of_list_ascii (map (λ b, ascii_of_nat (Z.to_nat b)) s).

Definition file_changed_error (label : text) : CodingError :=
  coding_error "file_changed" (show_text label +:+ " changed since this session last read it (another session or an external editor modified it). Read it again and redo the edit.").
Definition file_not_read_error (label : text) (partial : bool) : CodingError :=
  coding_error "file_not_read" (show_text label +:+
    (if partial then " already exists and you only read part of it. Read the whole file (no offset/limit, nothing truncated) or pass expectedSha256 before overwriting it."
     else " already exists. Read it before overwriting it.")).
Definition file_created_elsewhere_error (label : text) : CodingError :=
  coding_error "file_changed" (show_text label +:+ " was created by someone else while writing it. Read it, then edit or overwrite it.").
Definition io_failure (error : IoError) : CodingError := coding_error "io_error" error.(io_text).
(** [libc::ENOENT], [ELOOP], [EEXIST]; and the codes of a missing [link]:
    [EPERM], [ENOTSUP], [EXDEV] (Linux). *)
Definition map_open_error (label : text) (error : IoError) : CodingError :=
  if bool_decide (error.(io_errno) = Some 2%Z) then coding_error "not_found" (show_text label +:+ " does not exist")
  else if bool_decide (error.(io_errno) = Some 40%Z) then coding_error "path_symlink" (show_text label +:+ " is a symlink; refused")
  else io_failure error.
Definition is_kind_of (k : IoKind) (error : IoError) : bool :=
  match k, error.(io_kind) with KAlreadyExists, KAlreadyExists | KUnsupported, KUnsupported => true | _, _ => false end.
Definition already_exists (error : IoError) : bool :=
  is_kind_of KAlreadyExists error || bool_decide (error.(io_errno) = Some 17%Z).
Definition link_unsupported (error : IoError) : bool :=
  is_kind_of KUnsupported error || is_some_and error.(io_errno) (λ code, bool_decide (code ∈ [1; 95; 18]%Z)).

(** ** Low-level files *)

Definition looks_binary (data : bytes) : bool := existsb (Z.eqb 0) (take (Z.to_nat 8192) data).
Definition split_path (path : text) : text * text :=
  match rfind_char slash path with
  | None => (lit ".", path)
  | Some 0 => ([slash], drop 1 path)
  | Some at_ => (take at_ path, drop (S at_) path)
  end.
(** The characters of the first 200 bytes. *)
Fixpoint fit_bytes (room : nat) (s : text) : text :=
  match s with
  | c :: s => let n := length (encode_char c) in if Nat.leb n room then c :: fit_bytes (room - n) s else []
  | [] => []
  end.
Definition temp_leaf (base hex : text) : text := lit "." ++ fit_bytes 200 base ++ lit "." ++ hex ++ lit ".tmp".
Definition dir_prefix (dir : text) : text := if bool_decide (dir = [slash]) then [slash] else dir ++ [slash].

Definition same_place (a b : Meta) : bool := (a.(mt_dev) =? b.(mt_dev))%Z && (a.(mt_ino) =? b.(mt_ino))%Z.
(** The walk up from a directory, by identity.  Where the code gives up, be it
    on an error or at its depth, the answer is no; a descriptor that cannot be
    duplicated for the walk is one whose first stat fails. *)
Fixpoint climb (depth : nat) (root : Meta) (current : Fd) : Fs bool :=
  match depth with
  | O => fret false
  | S depth =>
      FAsk (QFdStat current) (λ r, match r with
      | Err _ => fret false
      | Ok meta =>
          if same_place meta root then fret true
          else FAsk (QOpenParent current) (λ r, match r with
          | Err _ => fret false
          | Ok parent =>
              FAsk (QFdStat parent) (λ r, match r with
              | Err _ => fret false
              | Ok parent_meta => if same_place parent_meta meta then fret false else climb depth root parent
              end)
          end)
      end)
  end.
Definition max_depth : nat := 4096.
Definition is_below_by_identity (dir : Fd) (root : text) : Fs bool :=
  FAsk (QStat root) (λ r, match r with Ok meta => climb max_depth meta dir | Err _ => fret false end).
(** [Path::starts_with] compares components. *)
Definition starts_with_path (path root : text) : bool :=
  bool_decide (take (length (path_parts root)) (path_parts path) = path_parts root).
Definition verify_dir_inside (dir : Fd) (root label : text) : Fs unit :=
  real ← ask (QFdPath dir);
  if is_some_and real (λ real, starts_with_path real root) then fret tt
  else
    below ← is_below_by_identity dir root;
    if (below : bool) then fret tt else outside label.
Definition open_verified (dir root label : text) : Fs Fd :=
  FAsk (QOpenDir dir) (λ r, match r with
  | Ok handle => _ ← verify_dir_inside handle root label; fret handle
  | Err error =>
      link ← is_symlink dir;
      if (link : bool) then outside label else FRet (Err (map_open_error label error))
  end).

Definition open_for_read (root : option text) (path label : text) : Fs Fd :=
  match root with
  | Some root =>
      let '(dir, leaf) := split_path path in
      handle ← open_verified dir root label;
      ask_or (QOpenAt handle leaf) (map_open_error label)
  | None => ask_or (QOpenNoFollow path) (map_open_error label)
  end.
(** Reading until the buffer is full or the file ends. *)
Fixpoint read_loop (fuel : nat) (fd : Fd) (label : text) (room : Z) (buffer : bytes) : Fs bytes :=
  if (room <=? 0)%Z then fret buffer
  else match fuel with
  | O => ffail "fuel" ""
  | S fuel =>
      data ← ask_or (QRead fd room) (map_open_error label);
      match data with
      | [] => fret buffer
      | _ => read_loop fuel fd label (room - Z.of_nat (length data)) (buffer ++ data)
      end
  end.
Definition read_regular_file_in_root (root : option text) (path label : text) (max_bytes : Z) : Fs bytes :=
  before ← ask_or (QLstat path) (map_open_error label);
  if negb before.(mt_file) then ffail "not_a_file" (show_text label +:+ " is not a regular file")
  else
    opened ← open_for_read root path label;
    after ← ask_or (QFdStat opened) (map_open_error label);
    if negb after.(mt_file) || negb (same_place after before) then
      ffail "file_changed" (show_text label +:+ " changed while opening")
    else if (max_bytes <? after.(mt_len))%Z then
      ffail "file_too_large" (show_text label +:+ " is " +:+ show_Z after.(mt_len) +:+ " bytes; the limit is " +:+ show_Z max_bytes)
    else read_loop (Z.to_nat after.(mt_len)) opened label after.(mt_len) [].
Definition read_regular_file : text → text → Z → Fs bytes := read_regular_file_in_root None.

(** [Placement]: where a temporary file is created and moved. *)
Record Placement := mkPlacement { pl_prefix : text; pl_handle : option Fd; pl_root : option text; pl_label : text }.
Definition full (p : Placement) (leaf : text) : text := p.(pl_prefix) ++ leaf.
(** The name a system call is given. *)
Definition named (p : Placement) (leaf : text) : text := match p.(pl_handle) with Some _ => leaf | None => full p leaf end.
Definition open_placement (path : text) (root : option text) (label : text) : Fs Placement :=
  let '(dir, _) := split_path path in
  match root with
  | Some root => handle ← open_verified dir root label; fret (mkPlacement (dir_prefix dir) (Some handle) (Some root) label)
  | None => fret (mkPlacement (dir_prefix dir) None None label)
  end.
Definition verify_placement (p : Placement) : Fs unit :=
  match p.(pl_handle), p.(pl_root) with
  | Some handle, Some root => verify_dir_inside handle root p.(pl_label)
  | _, _ => fret tt
  end.
Definition create_temp (p : Placement) (leaf : text) (restricted : bool) : FsQuery (Res IoError Fd) :=
  QCreateNew p.(pl_handle) (named p leaf) (if restricted then 0x180 else 0x1B6)%Z.
Definition unlink (p : Placement) (leaf : text) : FsQuery unit := QUnlink p.(pl_handle) (named p leaf).
Definition sync_dir (p : Placement) : Fs unit := ask (QSyncDir p.(pl_handle) p.(pl_prefix)).

(** [TempGuard]: an armed guard unlinks its file however the body ends, or
    only when it fails if the body disarms it last. *)
Fixpoint finally {A} (cleanup : Res CodingError A → FsProc unit) (body : Fs A) : Fs A :=
  match body with
  | FRet r => (fix after (c : FsProc unit) := match c with FRet _ => FRet r | FAsk q k => FAsk q (λ x, after (k x)) end) (cleanup r)
  | FAsk q k => FAsk q (λ x, finally cleanup (k x))
  end.
Definition unlink_on_error {A} (p : Placement) (leaf : text) : Fs A → Fs A :=
  finally (λ r, match r with Ok _ => FRet tt | Err _ => FAsk (unlink p leaf) FRet end).
Definition unlink_always {A} (p : Placement) (leaf : text) : Fs A → Fs A :=
  finally (λ _, FAsk (unlink p leaf) FRet).

Definition fill (handle : Fd) (mode : option Z) (data : bytes) : Fs unit :=
  _ ← (match mode with Some mode => ask_or (QSetMode handle mode) io_failure | None => fret tt end);
  _ ← ask_or (QWriteAll handle data) io_failure;
  _ ← ask_or (QFlush handle) io_failure;
  ask_or (QSyncData handle) io_failure.
Definition write_durable (p : Placement) (leaf : text) (data : bytes) (mode : option Z) : Fs unit :=
  handle ← ask_or (create_temp p leaf (is_some mode)) io_failure;
  fill handle mode data.

(** [metadata(path)] of the target, if it has any. *)
Definition existing_mode (path label : text) : Fs (option Z) :=
  FAsk (QStat path) (λ r, match r with
  | Ok meta => if negb meta.(mt_file) then ffail "not_a_file" (show_text label +:+ " is not a regular file")
               else fret (Some (Z.land meta.(mt_mode) 0xFFF))
  | Err _ => fret None
  end).
Definition atomic_write_in_root (root : option text) (path : text) (data : bytes) (label : text) (before_rename : option (Fs unit)) : Fs unit :=
  mode ← existing_mode path label;
  placement ← open_placement path root label;
  let base := (split_path path).2 in
  hex ← ask QTempId;
  let leaf := temp_leaf base hex in
  _ ← unlink_on_error placement leaf (
    _ ← write_durable placement leaf data mode;
    _ ← default (fret tt) before_rename;
    _ ← verify_placement placement;
    ask_or (QRename placement.(pl_handle) (named placement leaf) (named placement base)) io_failure);
  sync_dir placement.

Definition create_new_fallback (p : Placement) (base : text) (data : bytes) (label : text) : Fs unit :=
  handle ← ask_or (create_temp p base false) (λ error, if already_exists error then file_created_elsewhere_error label else io_failure error);
  unlink_on_error p base (fill handle None data).
Definition create_if_absent_in_root (root : option text) (path : text) (data : bytes) (label : text) : Fs unit :=
  placement ← open_placement path root label;
  let base := (split_path path).2 in
  hex ← ask QTempId;
  let leaf := temp_leaf base hex in
  unlink_always placement leaf (
    _ ← write_durable placement leaf data None;
    _ ← verify_placement placement;
    _ ← FAsk (QLink placement.(pl_handle) (named placement leaf) (named placement base)) (λ r, match r with
        | Ok _ => fret tt
        | Err error =>
            if already_exists error then FRet (Err (file_created_elsewhere_error label))
            else if link_unsupported error then create_new_fallback placement base data label
            else FRet (Err (io_failure error))
        end);
    sync_dir placement).

(** ** The version ledger *)

Definition max_paths_per_chat : nat := 4096.
Definition max_chats : nat := 256.
Record PathEntry := mkPathEntry { pe_sha256 : text; pe_full : bool; pe_used : Z }.
Record Chat := mkChat { ct_paths : gmap text PathEntry; ct_used : Z }.
Record Ledger := mkLedgerState { lg_chats : gmap text Chat; lg_clock : Z }.
Definition empty_ledger : Ledger := mkLedgerState ∅ 0.

Definition tick (l : Ledger) : Z * Ledger := let used := (l.(lg_clock) + 1)%Z in (used, mkLedgerState l.(lg_chats) used).
(** The stamp of least recent use; stamps are all different, so whatever order
    the map is walked in, one entry bears it. *)
Definition oldest {V} (used : V → Z) (m : gmap text V) : option text :=
  let least := match map (λ e, used e.2) (map_to_list m) with [] => u64_max | v :: vs => foldr Z.min v vs end in
  fst <$> find_by (λ e : text * V, used e.2 =? least)%Z (map_to_list m).
Fixpoint evict {V} (used : V → Z) (bound fuel : nat) (m : gmap text V) : gmap text V :=
  match fuel with
  | O => m
  | S fuel =>
      if Nat.ltb bound (size m) then
        match oldest used m with
        | Some victim => evict used bound fuel (delete victim m)
        | None => m
        end
      else m
  end.
(** Insert or touch a chat; its entry, and the ledger that holds it. *)
Definition touch_chat (l : Ledger) (chat_id : text) : option Chat * Ledger :=
  let '(used, l) := tick l in
  let chat := mkChat (ct_paths (default (mkChat ∅ 0) (l.(lg_chats) !! chat_id))) used in
  let chats := <[chat_id := chat]> l.(lg_chats) in
  let chats := evict ct_used max_chats (size chats) chats in
  (chats !! chat_id, mkLedgerState chats l.(lg_clock)).
(** [None] is the panic of [expect]; it does not happen ([touch_chat_present]). *)
Definition put (chat_id : option text) (path sha256 : text) (full : bool) (l : Ledger) : option Ledger :=
  match chat_id with
  | None => Some l
  | Some chat_id =>
      let '(used, l) := tick l in
      let '(chat, l) := touch_chat l chat_id in
      chat ← chat;
      let keep_full := is_some_and (chat.(ct_paths) !! path) (λ p, p.(pe_full) && bool_decide (p.(pe_sha256) = sha256)) in
      let paths := <[path := mkPathEntry sha256 (full || keep_full) used]> chat.(ct_paths) in
      let paths := evict pe_used max_paths_per_chat (size paths) paths in
      Some (mkLedgerState (<[chat_id := mkChat paths chat.(ct_used)]> l.(lg_chats)) l.(lg_clock))
  end.
Definition record_read : option text → text → text → bool → Ledger → option Ledger := put.
Definition record_write (chat_id : option text) (path sha256 : text) : Ledger → option Ledger := put chat_id path sha256 true.
Definition expected (chat_id : option text) (path : text) (l : Ledger) : option LedgerEntry * Ledger :=
  match chat_id with
  | None => (None, l)
  | Some chat_id =>
      let '(used, l) := tick l in
      match l.(lg_chats) !! chat_id with
      | None => (None, l)
      | Some chat =>
          match chat.(ct_paths) !! path with
          | None => (None, l)
          | Some entry =>
              let paths := <[path := mkPathEntry entry.(pe_sha256) entry.(pe_full) used]> chat.(ct_paths) in
              (Some (mkLedger entry.(pe_sha256) entry.(pe_full)),
               mkLedgerState (<[chat_id := mkChat paths chat.(ct_used)]> l.(lg_chats)) l.(lg_clock))
          end
      end
  end.
Definition clear_version_ledger (l : Ledger) : Ledger := empty_ledger.

(** ** Arguments *)

Definition quote_mark : string := String "034" EmptyString.
Definition quoted (key : string) : string := quote_mark +:+ key +:+ quote_mark.
Definition invalid {A} (message : string) : Res CodingError A := Err (coding_error "invalid_arguments" message).
Definition str_text (s : string) : text := chars (lit s).

Definition as_record (input : Value) : Res CodingError (list (string * Value)) :=
  match input with VObj map => Ok map | _ => invalid "arguments must be an object" end.
Definition req_string (input : list (string * Value)) (key : string) (max_length : nat) : Res CodingError string :=
  match obj_get key input with
  | Some (VStr value) =>
      if bool_decide (value = ""%string) then invalid (quoted key +:+ " must be a non-empty string")
      else if Nat.ltb max_length (utf16_len (str_text value)) then
        invalid (quoted key +:+ " is longer than " +:+ show_nat max_length +:+ " characters")
      else Ok value
  | _ => invalid (quoted key +:+ " must be a non-empty string")
  end.
Definition opt_string (input : list (string * Value)) (key : string) (max_length : nat) : Res CodingError (option string) :=
  match obj_get key input with None => Ok None | Some _ => s ← req_string input key max_length; Ok (Some s) end.
Definition opt_bool (input : list (string * Value)) (key : string) : Res CodingError (option bool) :=
  match obj_get key input with
  | None => Ok None
  | Some (VBool value) => Ok (Some value)
  | Some _ => invalid (quoted key +:+ " must be a boolean")
  end.
Definition opt_int (input : list (string * Value)) (key : string) (min max : Z) : Res CodingError (option Z) :=
  let refused := invalid (quoted key +:+ " must be an integer between " +:+ show_Z min +:+ " and " +:+ show_Z max) in
  match obj_get key input with
  | None => Ok None
  | Some (VNum n) =>
      match finite n with
      | Some q =>
          if negb (Pos.eqb (Qden (this q)) 1) then refused
          else
            let number := sat_i64 (Qnum (this q)) in
            if ((number <? min) || (max <? number))%Z then refused else Ok (Some number)
      | None => refused
      end
  | Some _ => refused
  end.

Definition max_read_paths : nat := 8.
Fixpoint path_strings (items : list Value) : option (list string) :=
  match items with
  | [] => Some []
  | VStr value :: items =>
      if bool_decide (value = ""%string) || Nat.ltb 4096 (utf16_len (str_text value)) then None
      else rest ← path_strings items; Some (value :: rest)
  | _ => None
  end.
Definition read_paths (input : list (string * Value)) : Res CodingError (list string) :=
  let many := obj_get "paths" input in
  if Bool.eqb (is_some (obj_get "path" input)) (is_some many) then
    invalid ("pass exactly one of " +:+ quoted "path" +:+ " or " +:+ quoted "paths")
  else
    let refused := invalid (quoted "paths" +:+ " must be 1.." +:+ show_nat max_read_paths +:+ " non-empty strings") in
    match many with
    | None => path ← req_string input "path" 4096; Ok [path]
    | Some (VArr items) =>
        if bool_decide (items = []) || Nat.ltb max_read_paths (length items) then refused
        else match path_strings items with
             | None => refused
             | Some paths => if negb (bool_decide (NoDup paths)) then invalid (quoted "paths" +:+ " must be unique") else Ok paths
             end
    | Some _ => refused
    end.

Definition is_hex_digit (b : Z) : bool := in_range 48 57 b || in_range 97 102 b || in_range 65 70 b.
Definition max_edits : nat := 50.
Fixpoint edits_from (i : nat) (items : list Value) : Res CodingError (list Edit) :=
  match items with
  | [] => Ok []
  | item :: items =>
      record ← as_record item;
      match obj_get "oldText" record, obj_get "newText" record with
      | Some (VStr old), Some (VStr new) => rest ← edits_from (S i) items; Ok (mkEdit (lit old) (lit new) :: rest)
      | _, _ => invalid ("edits[" +:+ show_nat i +:+ "] needs string oldText and newText")
      end
  end.
Definition parse_edits (value : option Value) : Res CodingError (list Edit) :=
  let refused := invalid (quoted "edits" +:+ " must be an array of 1.." +:+ show_nat max_edits +:+ " {oldText,newText}") in
  match value with
  | Some (VArr items) => if bool_decide (items = []) || Nat.ltb max_edits (length items) then refused else edits_from 0 items
  | _ => refused
  end.

(** ** Reading *)

(** [String::from_utf8_lossy]: each maximal beginning of an ill-formed
    sequence becomes one U+FFFD. *)
Definition second_ok (b0 b1 : Z) : bool :=
  if (b0 =? 0xE0)%Z then in_range 0xA0 0xBF b1
  else if (b0 =? 0xED)%Z then in_range 0x80 0x9F b1
  else if (b0 =? 0xF0)%Z then in_range 0x90 0xBF b1
  else if (b0 =? 0xF4)%Z then in_range 0x80 0x8F b1
  else continuation b1.
Definition sequence_length (b0 : Z) : nat :=
  if (b0 <? 0x80)%Z then 1 else if in_range 0xC2 0xDF b0 then 2 else if in_range 0xE0 0xEF b0 then 3
  else if in_range 0xF0 0xF4 b0 then 4 else 0.
(** How many of the following bytes continue the sequence. *)
Definition continued (b0 : Z) (rest : bytes) : nat :=
  match rest with
  | b1 :: rest => if second_ok b0 b1 then S (length (take_while continuation (take (sequence_length b0 - 2) rest))) else 0
  | [] => 0
  end.
Definition replacement_char : bytes := [0xEF; 0xBF; 0xBD]%Z.
Fixpoint lossy (fuel : nat) (s : bytes) : bytes :=
  match fuel, s with
  | S fuel, b0 :: rest =>
      match sequence_length b0 with
      | 0 => replacement_char ++ lossy fuel rest
      | 1 => b0 :: lossy fuel rest
      | n => let m := continued b0 rest in
             (if Nat.eqb (S m) n then b0 :: take m rest else replacement_char) ++ lossy fuel (drop m rest)
      end
  | _, _ => []
  end.
Definition from_utf8_lossy (s : bytes) : bytes := lossy (length s) s.

Record CodingLimits := mkCodingLimits {
  read_max_lines : nat; read_max_bytes : nat; read_max_file_bytes : Z;
  write_max_bytes : nat; edit_max_file_bytes : Z; edit_max_diff_bytes : nat
}.
Record PackEnv := mkPack { pk_limits : CodingLimits; pk_allow_sensitive : bool }.
Record Outcome := mkOutcome {
  oc_ok : bool; oc_text : bytes; oc_summary : option string; oc_truncated : bool; oc_warnings : list string; oc_details : option Value
}.
Record FileRead := mkFileRead {
  fr_text : bytes; fr_summary : string; fr_truncated : bool; fr_sha256 : text; fr_total_lines : nat; fr_invalid_utf8 : bool
}.

Definition throw_if_aborted : Fs unit :=
  aborted ← ask QCancelled; if (aborted : bool) then ffail "aborted" "the call was aborted" else fret tt.
(** What follows a process, whether it failed or not. *)
Fixpoint fcases {A B} (p : Fs A) (f : Res CodingError A → Fs B) : Fs B :=
  match p with
  | FRet r => f r
  | FAsk q k => FAsk q (λ x, fcases (k x) f)
  end.

Definition number_line (n : Z) (line : bytes) : bytes := lit (show_Z n) ++ [9%Z] ++ strip_cr line.
Fixpoint numbered_from (n : Z) (lines : list bytes) : list bytes :=
  match lines with [] => [] | line :: lines => number_line n line :: numbered_from (n + 1) lines end.

Definition invalid_utf8_warning : string := "not valid UTF-8; shown with replacement characters".

Section tools.
Context {L : Lowercase}.
(** SHA-256, in hexadecimal; compatibility composition. *)
Context (sha256 : bytes → text) (nfkc : list char → list char).

Definition read_one (env : PackEnv) (root path : text) (offset : Z) (limit : option Z) (max_bytes : nat) (chat_id : option text) : Fs FileRead :=
  target ← confine root path (mkConfineOptions ReadAccess env.(pk_allow_sensitive));
  buffer ← read_regular_file_in_root (Some target.(cf_root)) target.(cf_path) path env.(pk_limits).(read_max_file_bytes);
  if looks_binary buffer then
    ffail "binary_file" (show_text path +:+ " looks binary (" +:+ format_size (length buffer) +:+ "); not shown")
  else
    let digest := sha256 buffer in
    let invalid_utf8 := negb (valid_utf8 buffer) in
    let content := if invalid_utf8 then from_utf8_lossy buffer else buffer in
    let lines := split_lines content in
    let count := Z.of_nat (length lines) in
    match lines with
    | [] =>
        _ ← ask (QRecord chat_id target.(cf_path) digest true);
        fret (mkFileRead (lit "(empty file)") ("read " +:+ show_text path +:+ " (empty)") false digest 0 invalid_utf8)
    | _ =>
        if (count <? offset)%Z then
          ffail "offset_out_of_range" ("offset " +:+ show_Z offset +:+ " is beyond the end of " +:+ show_text path +:+ " (" +:+ show_Z count +:+ " lines)")
        else
          let max_lines := Z.of_nat env.(pk_limits).(read_max_lines) in
          let wanted := Z.to_nat (Z.min (default max_lines limit) max_lines) in
          let start := Z.to_nat (offset - 1) in
          let shown := segment lines start (Nat.min (start + wanted) (length lines)) in
          let cut := truncate_head (join_lf (numbered_from offset shown)) (mkLimits (length shown) max_bytes) in
          if cut.(tr_first_line_exceeds_limit) then
            ffail "line_too_long" ("line " +:+ show_Z offset +:+ " of " +:+ show_text path +:+ " exceeds " +:+ format_size max_bytes +:+ "; it cannot be shown")
          else
            let last := (offset + Z.of_nat cut.(tr_output_lines) - 1)%Z in
            let more := (last <? count)%Z in
            _ ← ask (QRecord chat_id target.(cf_path) digest ((offset =? 1)%Z && negb more && negb cut.(tr_truncated)));
            let range := show_Z offset +:+ "-" +:+ show_Z last +:+ " of " +:+ show_Z count in
            let by_bytes := match cut.(tr_truncated_by) with Some ByBytes => " (" +:+ format_size max_bytes +:+ " limit)" | _ => "" end in
            let notice := if more then newline_bytes ++ lit ("[Showing lines " +:+ range +:+ by_bytes +:+ ". Use offset=" +:+ show_Z (last + 1) +:+ " to continue.]") else [] in
            fret (mkFileRead (cut.(tr_content) ++ notice) ("read " +:+ show_text path +:+ " lines " +:+ range)
                    (cut.(tr_truncated) || negb (is_some limit) && more) digest (length lines) invalid_utf8)
    end.

Definition read_details (path : string) (one : FileRead) : Value :=
  VObj ([("path", VStr path); ("sha256", VStr (show_text one.(fr_sha256))); ("totalLines", int_value (Z.of_nat one.(fr_total_lines)))]
        ++ if one.(fr_invalid_utf8) then [("encoding", VStr "invalid-utf8")] else []).
Record ReadBatch := mkBatch { bt_blocks : list bytes; bt_files : list Value; bt_warnings : list string; bt_failed : nat; bt_truncated : bool }.
Definition file_block (path : string) (body : bytes) : bytes := lit ("==> " +:+ path +:+ " <==") ++ newline_bytes ++ body.
Definition note_read (path : string) (r : Res CodingError FileRead) (b : ReadBatch) : ReadBatch :=
  match r with
  | Ok one => mkBatch (b.(bt_blocks) ++ [file_block path one.(fr_text)]) (b.(bt_files) ++ [read_details path one])
                (b.(bt_warnings) ++ if one.(fr_invalid_utf8) then [path +:+ ": " +:+ invalid_utf8_warning] else [])
                b.(bt_failed) (b.(bt_truncated) || one.(fr_truncated))
  | Err e => mkBatch (b.(bt_blocks) ++ [file_block path (lit (e.(ce_code) +:+ ": " +:+ e.(ce_message)))])
                (b.(bt_files) ++ [VObj [("path", VStr path); ("error", VStr e.(ce_code))]]) b.(bt_warnings) (S b.(bt_failed)) b.(bt_truncated)
  end.
Fixpoint read_each (read : text → Fs FileRead) (paths : list string) (b : ReadBatch) : Fs ReadBatch :=
  match paths with
  | [] => fret b
  | path :: paths =>
      _ ← throw_if_aborted;
      fcases (read (str_text path)) (λ r, read_each read paths (note_read path r b))
  end.
(** [blocks.join] with an empty line between. *)
Definition join_blocks (blocks : list bytes) : bytes :=
  match blocks with [] => [] | b :: bs => b ++ concat (map (λ b, newline_bytes ++ newline_bytes ++ b) bs) end.

Definition read_file (env : PackEnv) (chat_id : option text) (raw : Value) : Fs Outcome :=
  input ← flift (as_record raw);
  paths ← flift (read_paths input);
  offset ← flift (opt_int input "offset" 1 1000000000);
  let offset := default 1%Z offset in
  limit ← flift (opt_int input "limit" 1 1000000000);
  root ← ask_or QRoot id;
  match obj_get "path" input, paths with
  | Some _, path :: _ =>
      _ ← throw_if_aborted;
      one ← read_one env root (str_text path) offset limit env.(pk_limits).(read_max_bytes) chat_id;
      fret (mkOutcome true one.(fr_text) (Some one.(fr_summary)) one.(fr_truncated)
              (if one.(fr_invalid_utf8) then [invalid_utf8_warning] else []) (Some (read_details path one)))
  | _, _ =>
      let share := env.(pk_limits).(read_max_bytes) / length paths in
      b ← read_each (λ path, read_one env root path offset limit share chat_id) paths (mkBatch [] [] [] 0 false);
      fret (mkOutcome (Nat.ltb b.(bt_failed) (length paths)) (join_blocks b.(bt_blocks))
              (Some ("read " +:+ show_nat (length paths - b.(bt_failed)) +:+ " of " +:+ show_nat (length paths) +:+ " files"))
              b.(bt_truncated) b.(bt_warnings) (Some (VObj [("files", VArr b.(bt_files))])))
  end.

(** ** Writing *)

Definition parse_expected_sha (input : list (string * Value)) : Res CodingError (option text) :=
  value ← opt_string input "expectedSha256" 64;
  match value with
  | None => Ok None
  | Some value =>
      if negb (Nat.eqb (String.length value) 64) || negb (forallb is_hex_digit (lit value)) then
        invalid (quoted "expectedSha256" +:+ " must be 64 hex characters")
      else Ok (Some (to_lowercase (str_text value)))
  end.

Definition read_existing (path label : text) (max_bytes : Z) : Fs (option text) :=
  fcases (read_regular_file path label max_bytes) (λ r, match r with
  | Ok buffer => fret (Some (sha256 buffer))
  | Err error => if bool_decide (error.(ce_code) = "not_found"%string) then fret None else FRet (Err error)
  end).
Definition assert_unchanged (path label digest : text) (max_bytes : Z) (relative_path : text) : Fs unit :=
  fcases (read_existing path label max_bytes) (λ r, match r with
  | Err error => if bool_decide (error.(ce_code) = "file_changed"%string) then FRet (Err (file_changed_error relative_path)) else FRet (Err error)
  | Ok now => if bool_decide (now = Some digest) then fret tt else FRet (Err (file_changed_error relative_path))
  end).
Definition verify_callback (root path target_path relative_path digest : text) (max_bytes : Z) (options : ConfineOptions) : Fs unit :=
  again ← confine root path options;
  if negb (bool_decide (again.(cf_path) = target_path)) then FRet (Err (file_changed_error relative_path))
  else assert_unchanged target_path path digest max_bytes relative_path.

Definition parent_directory (path : text) : text :=
  match rfind_char slash path with Some at_ => take at_ path | None => lit "." end.
(** Which version the caller may overwrite. *)
Definition expected_version (explicit chat_id : option text) (target : ConfinedPath) : Fs text :=
  match explicit with
  | Some digest => fret digest
  | None =>
      seen ← ask (QExpected chat_id target.(cf_path));
      match seen with
      | Some (mkLedger digest true) => fret digest
      | seen => FRet (Err (file_not_read_error target.(cf_relative) (is_some seen)))
      end
  end.
Definition write_file_body (env : PackEnv) (chat_id : option text) (root path : text) (data : bytes) (explicit : option text)
    (target : ConfinedPath) (options : ConfineOptions) : Fs Outcome :=
  _ ← throw_if_aborted;
  let limits := env.(pk_limits) in
  let read_limit := Z.max (Z.max limits.(edit_max_file_bytes) limits.(read_max_file_bytes)) (Z.of_nat limits.(write_max_bytes)) in
  current ← read_existing target.(cf_path) path read_limit;
  let digest := sha256 data in
  _ ← (match current with
       | Some current =>
           expected ← expected_version explicit chat_id target;
           if negb (bool_decide (expected = current)) then FRet (Err (file_changed_error target.(cf_relative)))
           else
             let verify := verify_callback root path target.(cf_path) target.(cf_relative) current read_limit options in
             atomic_write_in_root (Some target.(cf_root)) target.(cf_path) data path (Some verify)
       | None =>
           if is_some explicit then FRet (Err (file_changed_error target.(cf_relative)))
           else
             _ ← ask_or (QMkdirAll (parent_directory target.(cf_path))) (λ e, coding_error "io_error" e);
             again ← confine root path options;
             if negb (bool_decide (again.(cf_path) = target.(cf_path))) then FRet (Err (file_changed_error target.(cf_relative)))
             else create_if_absent_in_root (Some target.(cf_root)) target.(cf_path) data target.(cf_relative)
       end);
  _ ← ask (QRecord chat_id target.(cf_path) digest true);
  let existed := is_some current in
  fret (mkOutcome true
    (lit ((if existed then "Overwrote " else "Created ") +:+ show_text target.(cf_relative) +:+ " (" +:+ show_nat (length data) +:+ " bytes)")
       ++ newline_bytes ++ lit ("sha256: " +:+ show_text digest))
    (Some ((if existed then "overwrote " else "created ") +:+ show_text target.(cf_relative))) false []
    (Some (VObj [("path", VStr (show_text target.(cf_relative))); ("sha256", VStr (show_text digest))]))).

(** The lease on a file, held over a mutation whatever its end. *)
Definition under_lease {A} (path : text) (tool : string) (body : Fs A) : Fs A :=
  _ ← ask_or (QAcquireFile path tool) id;
  finally (λ _, FAsk (QReleaseFile path) FRet) body.
Definition write_options (env : PackEnv) : ConfineOptions := mkConfineOptions WriteAccess env.(pk_allow_sensitive).
Definition write_file (env : PackEnv) (chat_id : option text) (raw : Value) : Fs Outcome :=
  input ← flift (as_record raw);
  path ← flift (req_string input "path" 4096);
  content ← flift (match obj_get "content" input with Some (VStr content) => Ok content | _ => invalid (quoted "content" +:+ " must be a string") end);
  explicit ← flift (parse_expected_sha input);
  let data := lit content in
  if Nat.ltb env.(pk_limits).(write_max_bytes) (length data) then
    ffail "content_too_large" ("content is " +:+ show_nat (length data) +:+ " bytes; the limit is " +:+ show_nat env.(pk_limits).(write_max_bytes))
  else
    root ← ask_or QRoot id;
    first ← confine root (str_text path) (write_options env);
    under_lease first.(cf_path) "write_file" (write_file_body env chat_id root (str_text path) data explicit first (write_options env)).

Definition edit_file_body (env : PackEnv) (chat_id : option text) (root : text) (path : string) (edits : list Edit) (explicit : option text)
    (target : ConfinedPath) (options : ConfineOptions) : Fs Outcome :=
  _ ← throw_if_aborted;
  let limits := env.(pk_limits) in
  buffer ← read_regular_file_in_root (Some target.(cf_root)) target.(cf_path) (str_text path) limits.(edit_max_file_bytes);
  if looks_binary buffer then ffail "binary_file" (path +:+ " looks binary; not edited")
  else
    let before := sha256 buffer in
    expected ← (match explicit with
                | Some value => fret (Some value)
                | None => seen ← ask (QExpected chat_id target.(cf_path)); fret (le_sha256 <$> seen)
                end);
    if is_some_and expected (λ expected, negb (bool_decide (expected = before))) then FRet (Err (file_changed_error target.(cf_relative)))
    else if negb (valid_utf8 buffer) then
      ffail "encoding_unsupported" (path +:+ " is not valid UTF-8; not edited (editing would corrupt it)")
    else
      let '(bom, content) := split_bom buffer in
      applied ← flift (apply_edits nfkc content edits path);
      let out := bom ++ applied.(ae_output) in
      _ ← throw_if_aborted;
      let verify := verify_callback root (str_text path) target.(cf_path) target.(cf_relative) before limits.(edit_max_file_bytes) options in
      _ ← atomic_write_in_root (Some target.(cf_root)) target.(cf_path) out (str_text path) (Some verify);
      let after := sha256 out in
      _ ← ask (QRecord chat_id target.(cf_path) after true);
      let patch := unified_diff (show_text target.(cf_relative)) applied.(ae_base_content) applied.(ae_new_content) in
      let cut := truncate_head patch.(ud_diff) (mkLimits (S (length patch.(ud_diff))) limits.(edit_max_diff_bytes)) in
      let diff_text := if cut.(tr_truncated)
        then cut.(tr_content) ++ newline_bytes ++ lit ("[diff truncated at " +:+ format_size limits.(edit_max_diff_bytes) +:+ "]")
        else patch.(ud_diff) in
      let counts := "+" +:+ show_nat patch.(ud_added) +:+ " -" +:+ show_nat patch.(ud_removed) in
      fret (mkOutcome true
        (lit ("Edited " +:+ show_text target.(cf_relative) +:+ " (" +:+ show_nat (length edits) +:+ " edit" +:+ (if Nat.eqb (length edits) 1 then "" else "s")
              +:+ ", " +:+ counts +:+ ")") ++ newline_bytes ++ lit ("sha256: " +:+ show_text after) ++ newline_bytes ++ diff_text)
        (Some ("edited " +:+ show_text target.(cf_relative) +:+ " (" +:+ counts +:+ ")")) cut.(tr_truncated) []
        (Some (VObj [("path", VStr (show_text target.(cf_relative))); ("sha256", VStr (show_text after)); ("diff", VStr (show_bytes diff_text))]))).
Definition edit_file (env : PackEnv) (chat_id : option text) (raw : Value) : Fs Outcome :=
  input ← flift (as_record raw);
  path ← flift (req_string input "path" 4096);
  edits ← flift (parse_edits (obj_get "edits" input));
  explicit ← flift (parse_expected_sha input);
  root ← ask_or QRoot id;
  target ← confine root (str_text path) (write_options env);
  under_lease target.(cf_path) "edit_file" (edit_file_body env chat_id root path edits explicit target (write_options env)).
End tools.
