(* ===== verification/FileLaws.v ===== *)
(** * What the file tools promise

    No tool overwrites a version of a file that its session has not seen.
    The ledger ([FileTools.Ledger]) remembers, within its bounds, the last
    version each session read or wrote; a process asks for a rename only
    after it has read, last of all, the version it was allowed to replace. *)

From S2P Require Import PolicyLaws.
From stdpp Require Import gmap.
From S2P Require Export FileTools.
Local Open Scope nat_scope.

(** ** The ledger forgets the least recently used *)

Section evict.
Context {V : Type} (used : V → Z).
Implicit Types m : gmap text V.

Lemma fold_min_le v vs : ∀ x, x ∈ v :: vs → (foldr Z.min v vs <= x)%Z.
Proof.
  induction vs as [|w vs IH]; intros x Hx; [apply list_elem_of_singleton in Hx as ->; simpl; lia|]. simpl.
  apply elem_of_cons in Hx as [->|[->|Hx]%elem_of_cons]; [|lia|].
  - pose proof (IH v ltac:(left)). lia.
  - pose proof (IH x ltac:(by right)). lia.
Qed.
Lemma fold_min_in v vs : foldr Z.min v vs ∈ v :: vs.
Proof.
  induction vs as [|w vs IH]; simpl; [left|]. destruct (Z.min_spec w (foldr Z.min v vs)) as [[_ ->]|[_ ->]]; [right; left|].
  apply elem_of_cons in IH as [->|IH]; [left|right; by right].
Qed.
Lemma oldest_spec m : m ≠ ∅ → ∃ k v, oldest used m = Some k ∧ m !! k = Some v ∧ ∀ k' v', m !! k' = Some v' → (used v <= used v')%Z.
Proof.
  intros Hm. unfold oldest. destruct (map_to_list m) as [|e es] eqn:E; [by apply map_to_list_empty_iff in E|]. cbn [map].
  set (least := foldr Z.min _ _).
  assert (∃ e', e' ∈ e :: es ∧ used e'.2 = least) as (e' & Hin & Hu).
  { pose proof (fold_min_in (used e.2) (map (λ e, used e.2) es)) as H. change (used e.2 :: map (λ e, used e.2) es) with (map (λ e, used e.2) (e :: es)) in H.
    apply list_elem_of_fmap in H as (e' & He & Hin). exists e'. split; [done|]. symmetry. exact He. }
  destruct (find_by (λ e, used e.2 =? least)%Z (e :: es)) as [[k v]|] eqn:F.
  - apply find_by_Some in F as [Hk Hv]. apply Z.eqb_eq in Hv. simpl in Hv. rewrite <- E in Hk. apply elem_of_map_to_list in Hk.
    exists k, v. split; [done|]. split; [done|]. intros k' v' Hv'%elem_of_map_to_list. rewrite E in Hv'. rewrite Hv. apply fold_min_le.
    assert (used v' ∈ map (λ e, used e.2) (e :: es)) as Hx by (apply list_elem_of_fmap; by exists (k', v')). exact Hx.
  - pose proof (proj1 (find_by_None _ _) F e' Hin) as H. simpl in H. rewrite Hu in H. by rewrite Z.eqb_refl in H.
Qed.

(** Eviction keeps within the bound, drops only, and spares the entry used
    last. *)
Lemma evict_bound bound : ∀ fuel m, size m ≤ fuel → size (evict used bound fuel m) ≤ bound.
Proof.
  induction fuel as [|fuel IH]; intros m Hf; cbn [evict]; [lia|]. destruct (Nat.ltb_spec bound (size m)) as [H|H]; [|done].
  destruct (oldest_spec m) as (k & v & -> & Hk & _); [by intros ->; rewrite map_size_empty in H; lia|].
  apply IH. rewrite map_size_delete_Some by by eexists. lia.
Qed.
Lemma evict_subseteq bound : ∀ fuel m, evict used bound fuel m ⊆ m.
Proof.
  induction fuel as [|fuel IH]; intros m; cbn [evict]; [done|]. destruct (Nat.ltb _ _); [|done]. destruct (oldest used m); [|done].
  etrans; [apply IH|apply delete_subseteq].
Qed.
Lemma evict_keeps bound k v : 1 ≤ bound → ∀ fuel m, m !! k = Some v → (∀ k' v', m !! k' = Some v' → k' ≠ k → (used v' < used v)%Z) →
  evict used bound fuel m !! k = Some v.
Proof.
  intros Hb. induction fuel as [|fuel IH]; intros m Hk Hlast; cbn [evict]; [done|]. destruct (Nat.ltb_spec bound (size m)) as [H|H]; [|done].
  destruct (oldest_spec m) as (k0 & v0 & -> & Hk0 & Hmin); [by intros ->; rewrite map_size_empty in H; lia|].
  destruct (decide (k0 = k)) as [->|Hne].
  - exfalso. assert (size (delete k m) ≠ 0) as Hs by (rewrite map_size_delete_Some by (by eexists); lia).
    assert (delete k m ≠ ∅) as He by (intros E; apply Hs; by rewrite E, map_size_empty).
    apply map_choose in He as (k1 & v1 & H1). apply lookup_delete_Some in H1 as [Hne H1].
    pose proof (Hmin _ _ H1). pose proof (Hlast _ _ H1 ltac:(congruence)). assert (v0 = v) by congruence. subst. lia.
  - apply IH; [by rewrite lookup_delete_ne|]. intros k' v' H' Hne'. apply lookup_delete_Some in H' as [_ H']. by eapply Hlast.
Qed.
End evict.

(** ** The ledger is well formed *)

Definition entry (l : Ledger) (chat path : text) : option PathEntry := l.(lg_chats) !! chat ≫= λ c, c.(ct_paths) !! path.
Record chat_ok (clock : Z) (c : Chat) : Prop := {
  ck_size : size c.(ct_paths) ≤ max_paths_per_chat;
  ck_used : (c.(ct_used) <= clock)%Z;
  ck_paths p e : c.(ct_paths) !! p = Some e → (e.(pe_used) <= clock)%Z;
  ck_apart p p' e e' : c.(ct_paths) !! p = Some e → c.(ct_paths) !! p' = Some e' → e.(pe_used) = e'.(pe_used) → p = p'
}.
(** Both bounds hold, and every stamp is past and borne once. *)
Record ledger_ok (l : Ledger) : Prop := {
  lk_size : size l.(lg_chats) ≤ max_chats;
  lk_chats k c : l.(lg_chats) !! k = Some c → chat_ok l.(lg_clock) c;
  lk_apart k k' c c' : l.(lg_chats) !! k = Some c → l.(lg_chats) !! k' = Some c' → c.(ct_used) = c'.(ct_used) → k = k'
}.
Lemma chat_ok_later clock clock' c : (clock <= clock')%Z → chat_ok clock c → chat_ok clock' c.
Proof. intros Hle [H1 H2 H3 H4]. split; [done|lia| |done]. intros p e H. specialize (H3 p e H). lia. Qed.
Lemma empty_ledger_ok : ledger_ok empty_ledger.
Proof. split; [apply Nat.le_0_l|done..]. Qed.
Lemma tick_ok l : ledger_ok l → ledger_ok (tick l).2.
Proof. intros [H1 H2 H3]. split; [done| |done]. intros k c H. eapply chat_ok_later; [|by eapply H2]. simpl. lia. Qed.

(** A fresh stamp is later than every other. *)
Lemma insert_fresh {V} (used : V → Z) (m : gmap text V) k v clock :
  (∀ k' v', m !! k' = Some v' → (used v' <= clock)%Z) → used v = (clock + 1)%Z →
  ∀ k' v', <[k := v]> m !! k' = Some v' → k' ≠ k → (used v' < used v)%Z.
Proof. intros H Hv k' v' [[<- _]|[_ Hk]]%lookup_insert_Some Hne; [done|]. specialize (H _ _ Hk). lia. Qed.
Lemma insert_fresh_apart {V} (used : V → Z) (m : gmap text V) k v clock :
  (∀ k' v', m !! k' = Some v' → (used v' <= clock)%Z) → used v = (clock + 1)%Z →
  (∀ k1 k2 v1 v2, m !! k1 = Some v1 → m !! k2 = Some v2 → used v1 = used v2 → k1 = k2) →
  ∀ k1 k2 v1 v2, <[k := v]> m !! k1 = Some v1 → <[k := v]> m !! k2 = Some v2 → used v1 = used v2 → k1 = k2.
Proof.
  intros H Hv Hm k1 k2 v1 v2 [[<- <-]|[_ H1]]%lookup_insert_Some [[<- <-]|[_ H2]]%lookup_insert_Some E; [done| | |by eapply Hm].
  - specialize (H _ _ H2). lia.
  - specialize (H _ _ H1). lia.
Qed.

Lemma touch_chat_spec l chat : ledger_ok l →
  ∃ l', touch_chat l chat = (Some (mkChat (ct_paths (default (mkChat ∅ 0) (l.(lg_chats) !! chat))) (l.(lg_clock) + 1)%Z), l')
    ∧ ledger_ok l' ∧ l'.(lg_clock) = (l.(lg_clock) + 1)%Z
    ∧ l'.(lg_chats) !! chat = Some (mkChat (ct_paths (default (mkChat ∅ 0) (l.(lg_chats) !! chat))) (l.(lg_clock) + 1)%Z)
    ∧ l'.(lg_chats) ⊆ <[chat := mkChat (ct_paths (default (mkChat ∅ 0) (l.(lg_chats) !! chat))) (l.(lg_clock) + 1)%Z]> l.(lg_chats).
Proof.
  intros [Hsize Hchats Hapart]. unfold touch_chat, tick. cbn [lg_chats lg_clock].
  assert (chat_ok (lg_clock l + 1) (mkChat (ct_paths (default (mkChat ∅ 0) (l.(lg_chats) !! chat))) (lg_clock l + 1))) as Hc.
  { destruct (lg_chats l !! chat) as [c0|] eqn:E0; simpl.
    - destruct (Hchats _ _ E0) as [A1 A2 A3 A4]. split; [done|simpl; lia| |done]. intros p e He. specialize (A3 p e He). lia.
    - split; simpl; [apply Nat.le_0_l|lia|done..]. }
  set (c := mkChat _ _). set (m := <[chat := c]> (lg_chats l)).
  assert (∀ k' v', m !! k' = Some v' → k' ≠ chat → (ct_used v' < ct_used c)%Z) as Hlast.
  { eapply insert_fresh; [|done]. intros k' v' H. by eapply ck_used, Hchats. }
  pose proof (evict_keeps ct_used max_chats chat c ltac:(unfold max_chats; lia) (size m) m (lookup_insert_eq _ _ _) Hlast) as Hk.
  pose proof (evict_subseteq ct_used max_chats (size m) m) as Hsub. rewrite Hk. eexists. split; [done|]. split; [|done]. split; cbn [lg_chats lg_clock].
  - by apply evict_bound.
  - intros k c' H. pose proof (lookup_weaken _ _ _ _ H Hsub) as Hm. apply lookup_insert_Some in Hm as [[<- <-]|[_ Hm]].
    + exact Hc.
    + eapply chat_ok_later; [|by eapply Hchats]. lia.
  - intros k1 k2 c1 c2 H1 H2. apply (lookup_weaken _ _ _ _ H1) in Hsub as G1. apply (lookup_weaken _ _ _ _ H2) in Hsub as G2.
    eapply (insert_fresh_apart ct_used (lg_chats l) chat c (lg_clock l)); [|done|exact Hapart|exact G1|exact G2]. intros k' v' H. by eapply ck_used, Hchats.
Qed.
(** The [expect] of [touch_chat] never fails. *)
Lemma touch_chat_present l chat : ledger_ok l → is_Some (touch_chat l chat).1.
Proof. intros H. destruct (touch_chat_spec l chat H) as (l' & -> & _). by eexists. Qed.

(** Putting a chat back with other paths, under its own stamp. *)
Lemma replace_chat l chat c paths : ledger_ok l → l.(lg_chats) !! chat = Some c → chat_ok l.(lg_clock) (mkChat paths c.(ct_used)) →
  ledger_ok (mkLedgerState (<[chat := mkChat paths c.(ct_used)]> l.(lg_chats)) l.(lg_clock)).
Proof.
  intros [Hs Hc Ha] Hl Hp. split; cbn [lg_chats lg_clock].
  - by rewrite map_size_insert_Some by by eexists.
  - intros k c' [[<- <-]|[_ H]]%lookup_insert_Some; [done|by eapply Hc].
  - intros k1 k2 c1 c2 [[<- <-]|[_ H1]]%lookup_insert_Some [[<- <-]|[_ H2]]%lookup_insert_Some E; [done|by eapply Ha|by eapply Ha|by eapply Ha].
Qed.
Lemma entry_replace l chat c paths clock chat' path' :
  entry (mkLedgerState (<[chat := mkChat paths (ct_used c)]> (lg_chats l)) clock) chat' path'
  = if decide (chat' = chat) then paths !! path' else entry l chat' path'.
Proof.
  unfold entry. cbn [lg_chats]. destruct (decide (chat' = chat)) as [->|Hne]; [by rewrite lookup_insert_eq|by rewrite lookup_insert_ne].
Qed.

(** What an entry of another path or chat was before, it is, or it is gone. *)
Lemma put_spec l chat path sha256 full : ledger_ok l →
  ∃ l' e, put (Some chat) path sha256 full l = Some l' ∧ ledger_ok l'
    ∧ entry l' chat path = Some e ∧ e.(pe_sha256) = sha256
    ∧ (e.(pe_full) = true → full = true ∨ ∃ e0, entry l chat path = Some e0 ∧ e0.(pe_full) = true ∧ e0.(pe_sha256) = sha256)
    ∧ ∀ chat' path' e', entry l' chat' path' = Some e' → (chat', path') ≠ (chat, path) → entry l chat' path' = Some e'.
Proof.
  intros Hl. unfold put. pose proof (tick_ok l Hl) as Ht. destruct (tick l) as [used l1] eqn:Etick. injection Etick as Eu El1. cbn [snd] in Ht.
  destruct (touch_chat_spec l1 chat Ht) as (l2 & -> & Hl2 & Hclock & Hchat & Hsub). cbn [mbind option_bind].
  assert (lg_chats l1 = lg_chats l ∧ lg_clock l1 = used) as [Ec Eclock] by (by subst l1 used). rewrite Ec, Eclock in *. clear El1.
  set (c := mkChat _ (used + 1)) in *. set (keep := is_some_and _ _). set (e := mkPathEntry sha256 (full || keep) used).
  set (m := <[path := e]> (ct_paths c)).
  assert (∀ p, ct_paths c !! p = entry l chat p) as Hold.
  { intros p. unfold entry, c. simpl. by destruct (lg_chats l !! chat). }
  assert (∀ p e0, ct_paths c !! p = Some e0 → (pe_used e0 <= lg_clock l)%Z) as Hle.
  { intros p e0. rewrite Hold. unfold entry. intros (c0 & E0 & H)%bind_Some. exact (ck_paths _ _ (lk_chats _ Hl _ _ E0) _ _ H). }
  assert (∀ p1 p2 e1 e2, ct_paths c !! p1 = Some e1 → ct_paths c !! p2 = Some e2 → pe_used e1 = pe_used e2 → p1 = p2) as Hap.
  { intros p1 p2 e1 e2. rewrite !Hold. unfold entry. intros (c0 & E0 & H1)%bind_Some (c1 & E1 & H2)%bind_Some. rewrite E0 in E1. injection E1 as <-.
    exact (ck_apart _ _ (lk_chats _ Hl _ _ E0) _ _ _ _ H1 H2). }
  pose proof (evict_keeps pe_used max_paths_per_chat path e ltac:(unfold max_paths_per_chat; lia) (size m) m (lookup_insert_eq _ _ _)
    (insert_fresh pe_used (ct_paths c) path e (lg_clock l) Hle ltac:(simpl; lia))) as Hk.
  pose proof (evict_subseteq pe_used max_paths_per_chat (size m) m) as Hsubm.
  eexists _, e. split; [reflexivity|]. split; [|rewrite !entry_replace, decide_True by done; split; [exact Hk|split; [done|split]]].
  - apply replace_chat; [done|done|]. split; cbn [ct_paths].
    + by apply evict_bound.
    + simpl. lia.
    + intros p e0 H. pose proof (lookup_weaken _ _ _ _ H Hsubm) as G. apply lookup_insert_Some in G as [[_ <-]|[_ G]]; [simpl; lia|]. specialize (Hle _ _ G). lia.
    + intros p1 p2 e1 e2 H1 H2. eapply (insert_fresh_apart pe_used (ct_paths c) path e (lg_clock l) Hle ltac:(simpl; lia) Hap).
      * exact (lookup_weaken _ _ _ _ H1 Hsubm).
      * exact (lookup_weaken _ _ _ _ H2 Hsubm).
  - cbn [pe_full e]. intros [->|Hkeep]%orb_true_iff; [by left|right]. unfold keep in Hkeep. rewrite Hold in Hkeep.
    destruct (entry l chat path) as [e0|]; [|done]. exists e0. simpl in Hkeep. apply andb_true_iff in Hkeep as [? ?%bool_decide_eq_true]. done.
  - intros chat' path' e' H Hne. rewrite entry_replace in H. destruct (decide (chat' = chat)) as [->|Hc].
    + pose proof (lookup_weaken _ _ _ _ H Hsubm) as G. rewrite <- Hold. apply lookup_insert_Some in G as [[<- _]|[_ G]]; [done|exact G].
    + unfold entry in H. apply bind_Some in H as (c' & H1 & H2). pose proof (lookup_weaken _ _ _ _ H1 Hsub) as G.
      apply lookup_insert_Some in G as [[<- _]|[_ G]]; [done|]. unfold entry. by rewrite G.
Qed.

Definition seen_as (e : PathEntry) : LedgerEntry := mkLedger e.(pe_sha256) e.(pe_full).
Lemma expected_spec l chat path : ledger_ok l →
  (expected (Some chat) path l).1 = seen_as <$> entry l chat path ∧ ledger_ok (expected (Some chat) path l).2
  ∧ ∀ chat' path', seen_as <$> entry (expected (Some chat) path l).2 chat' path' = seen_as <$> entry l chat' path'.
Proof.
  intros Hl. pose proof (tick_ok l Hl) as Ht. unfold expected. destruct (tick l) as [used l1] eqn:Etick. injection Etick as Eu El1. cbn [snd] in Ht.
  assert (lg_chats l1 = lg_chats l ∧ lg_clock l1 = used) as [Ec Eclock] by (by subst l1 used).
  assert (∀ c p, entry l1 c p = entry l c p) as Ee by (intros c p; unfold entry; by rewrite Ec).
  rewrite Ec. destruct (lg_chats l !! chat) as [c|] eqn:E1; [|cbn [fst snd]; unfold entry at 1; rewrite E1; split; [done|split; [done|intros; by rewrite Ee]]].
  destruct (ct_paths c !! path) as [e|] eqn:E2.
  2:{ cbn [fst snd]. unfold entry at 1. rewrite E1. simpl. rewrite E2. split; [done|]. split; [done|]. intros. by rewrite Ee. }
  cbn [fst snd]. unfold entry at 1. rewrite E1. simpl. rewrite E2. split; [done|].
  destruct (lk_chats _ Hl _ _ E1) as [S U P A]. rewrite <- Ec. split.
  - rewrite <- Ec in E1. apply replace_chat; [done|done|]. rewrite Eclock. split; cbn [ct_paths ct_used].
    + by rewrite map_size_insert_Some by by eexists.
    + lia.
    + intros p e0 [[_ <-]|[_ H]]%lookup_insert_Some; [simpl; lia|]. specialize (P _ _ H). lia.
    + intros p1 p2 e1 e2 H1 H2. eapply (insert_fresh_apart pe_used (ct_paths c) path (mkPathEntry (pe_sha256 e) (pe_full e) used) (lg_clock l) P ltac:(simpl; lia) A); eassumption.
  - intros chat' path'. rewrite entry_replace. destruct (decide (chat' = chat)) as [->|Hne]; [|by rewrite Ee].
    unfold entry. rewrite E1. simpl. destruct (decide (path' = path)) as [->|Hp]; [by rewrite lookup_insert_eq, E2|by rewrite lookup_insert_ne].
Qed.

(** ** What the ledger says was said to it *)

#[export] Instance LedgerEntry_eq_dec : EqDecision LedgerEntry.
Proof. solve_decision. Defined.

(** The ledger's part in an event; [None] when it did not answer so. *)
Definition ledger_step (e : FsEvent) (l : Ledger) : option Ledger :=
  match e with
  | @Ev X q x =>
      match q in FsQuery X return X → option Ledger with
      | QExpected chat path => λ r, let '(seen, l') := expected chat path l in if bool_decide (r = seen) then Some l' else None
      | QRecord chat path sha256 full => λ _, put chat path sha256 full l
      | _ => λ _, Some l
      end x
  end.
Fixpoint ledger_run (l : Ledger) (h : list FsEvent) : option Ledger :=
  match h with [] => Some l | e :: h => l' ← ledger_step e l; ledger_run l' h end.

(** What an event records. *)
Definition record_of (e : FsEvent) : option (option text * text * text * bool) :=
  match e with @Ev X q x => match q with QRecord chat path sha256 full => Some (chat, path, sha256, full) | _ => None end end.
Definition recorded (h : list FsEvent) (chat path sha256 : text) (full : bool) : Prop :=
  ∃ e, e ∈ h ∧ record_of e = Some (Some chat, path, sha256, full).
(** The last version recorded under a path of a chat. *)
Definition last_recorded (h : list FsEvent) (chat path sha256 : text) : Prop :=
  ∃ h1 e h2 full, h = h1 ++ e :: h2 ∧ record_of e = Some (Some chat, path, sha256, full)
    ∧ ∀ e' sha256' full', e' ∈ h2 → record_of e' ≠ Some (Some chat, path, sha256', full').

Definition remembers (h : list FsEvent) (l : Ledger) : Prop :=
  ledger_ok l ∧ ∀ chat path seen, seen_as <$> entry l chat path = Some seen →
    last_recorded h chat path seen.(le_sha256) ∧ (seen.(le_full) = true → recorded h chat path seen.(le_sha256) true).

Lemma recorded_app h h' chat path sha256 full : recorded h chat path sha256 full → recorded (h ++ h') chat path sha256 full.
Proof. intros (e & He & H). exists e. split; [apply elem_of_app; by left|done]. Qed.
Lemma last_recorded_other h e chat path sha256 : last_recorded h chat path sha256 →
  (∀ sha256' full', record_of e ≠ Some (Some chat, path, sha256', full')) → last_recorded (h ++ [e]) chat path sha256.
Proof.
  intros (h1 & e1 & h2 & full & -> & H1 & H2) He. exists h1, e1, (h2 ++ [e]), full. split; [by rewrite <- app_assoc|]. split; [done|].
  intros e' s f [Hin| ->%list_elem_of_singleton]%elem_of_app; [by apply H2|apply He].
Qed.

Lemma remembers_same h e l l' : remembers h l → ledger_ok l' → record_of e = None →
  (∀ chat path, seen_as <$> entry l' chat path = seen_as <$> entry l chat path) → remembers (h ++ [e]) l'.
Proof.
  intros [_ H] Hok He Hsame. split; [done|]. intros chat path seen. rewrite Hsame. intros (H1 & H2)%H. split.
  - apply last_recorded_other; [done|]. by rewrite He.
  - intros Hf. apply recorded_app. by apply H2.
Qed.
Lemma remembers_step h e l l' : remembers h l → ledger_step e l = Some l' → remembers (h ++ [e]) l'.
Proof.
  intros Hr Hs. pose proof Hr as [Hok H]. destruct e as [X q x].
  destruct q; try (injection Hs as <-; by eapply remembers_same).
  - cbn [ledger_step] in Hs. destruct chat as [chat|].
    + destruct (expected_spec l chat path Hok) as (_ & Hok' & Hsame). destruct (expected (Some chat) path l) as [seen l1].
      case_bool_decide; [|done]. injection Hs as <-. by eapply remembers_same.
    + cbn [expected] in Hs. case_bool_decide; [|done]. injection Hs as <-. by eapply remembers_same.
  - cbn [ledger_step] in Hs. destruct chat as [chat|]; [|injection Hs as <-; split; [done|]].
    2:{ intros chat path' seen (H1 & H2)%H. split; [by apply last_recorded_other|]. intros Hf. by apply recorded_app, H2. }
    destruct (put_spec l chat path sha256 full Hok) as (l1 & e & Hput & Hok1 & He & Hsha & Hfull & Hother).
    rewrite Hput in Hs. injection Hs as <-. split; [done|]. intros chat' path' seen (e' & He' & ->)%fmap_Some.
    destruct (decide ((chat', path') = (chat, path))) as [[= -> ->]|Hne].
    + rewrite He in He'. injection He' as <-. cbn [seen_as le_sha256 le_full]. rewrite Hsha. split.
      * exists h, (Ev (QRecord (Some chat) path sha256 full) x), [], full. split; [done|]. split; [done|]. by intros ??? ?%elem_of_nil.
      * intros [->|(e0 & H0 & Hf0 & Hs0)]%Hfull.
        -- exists (Ev (QRecord (Some chat) path sha256 true) x). split; [apply elem_of_app; right; by left|done].
        -- apply recorded_app. rewrite <- Hs0. apply (H chat path (seen_as e0)); [by rewrite H0|done].
    + pose proof (Hother _ _ _ He' Hne) as H0. destruct (H chat' path' (seen_as e')) as [H1 H2]; [by rewrite H0|]. split.
      * apply last_recorded_other; [done|]. intros s f. cbn. congruence.
      * intros Hf. by apply recorded_app, H2.
Qed.
Lemma ledger_remembers h : ∀ h0 l0 l, remembers h0 l0 → ledger_run l0 h = Some l → remembers (h0 ++ h) l.
Proof.
  induction h as [|e h IH]; intros h0 l0 l H0 Hrun; cbn [ledger_run] in Hrun; [injection Hrun as <-; by rewrite app_nil_r|].
  apply bind_Some in Hrun as (l1 & Hs & Hrun). rewrite cons_middle, app_assoc. eapply IH; [by eapply remembers_step|done].
Qed.
Lemma remembers_nothing : remembers [] empty_ledger.
Proof. split; [apply empty_ledger_ok|]. intros chat path seen. unfold entry. simpl. by rewrite lookup_empty. Qed.
(** An answer of the ledger is the last version recorded, and full only where
    that version was recorded in full. *)
Lemma expected_recorded h1 h2 l chat path seen : ledger_run empty_ledger (h1 ++ Ev (QExpected (Some chat) path) (Some seen) :: h2) = Some l →
  last_recorded h1 chat path seen.(le_sha256) ∧ (seen.(le_full) = true → recorded h1 chat path seen.(le_sha256) true).
Proof.
  assert (∀ h1 l0, ledger_run l0 (h1 ++ Ev (QExpected (Some chat) path) (Some seen) :: h2) = Some l →
    ∃ l1, ledger_run l0 h1 = Some l1 ∧ ∃ l2, ledger_step (Ev (QExpected (Some chat) path) (Some seen)) l1 = Some l2) as Hsplit.
  { clear. induction h1 as [|e h1 IH]; intros l0 H; cbn [app ledger_run] in H; apply bind_Some in H as (l1 & Hs & H).
    - exists l0. split; [done|]. by exists l1.
    - destruct (IH _ H) as (l2 & Hr & Hx). exists l2. split; [|done]. cbn [ledger_run]. by rewrite Hs. }
  intros Hrun. destruct (Hsplit _ _ Hrun) as (l1 & Hr & l2 & Hs). pose proof (ledger_remembers _ _ _ _ remembers_nothing Hr) as [Hok H]. simpl in H.
  apply H. destruct (expected_spec l1 chat path Hok) as (E & _). cbn [ledger_step] in Hs. destruct (expected (Some chat) path l1) as [r l3].
  case_bool_decide as Hb; [|done]. simpl in E. by rewrite <- E, <- Hb.
Qed.

(** ** What a process asks, and may ask *)

(** Only questions of a kind. *)
Fixpoint only {A} (K : ∀ X, FsQuery X → Prop) (p : FsProc A) : Prop :=
  match p with
  | FRet _ => True
  | @FAsk _ X q k => K X q ∧ ∀ x, only K (k x)
  end.
Definition event_kind (K : ∀ X, FsQuery X → Prop) (e : FsEvent) : Prop := match e with @Ev X q _ => K X q end.
Lemma only_runs {A} K (p p' : FsProc A) tr : runs p tr p' → only K p → Forall (event_kind K) tr.
Proof. induction 1 as [|X q k x tr p' _ IH]; intros Ho; [done|]. destruct Ho as [H1 H2]. constructor; [done|]. apply IH, H2. Qed.
Lemma only_mono {A} (K K' : ∀ X, FsQuery X → Prop) (p : FsProc A) : (∀ X q, K X q → K' X q) → only K p → only K' p.
Proof. intros HK. induction p as [|X q k IH]; [done|]. intros [H1 H2]. split; [by apply HK|]. intros x. apply IH, H2. Qed.
Section only.
Context (K : ∀ X, FsQuery X → Prop).
Lemma only_bind {A B} (p : Fs A) (f : A → Fs B) : only K p → (∀ a, only K (f a)) → only K (p ≫= f).
Proof.
  change (p ≫= f) with (fbind p f). intros Hp Hf. induction p as [[a|e]|X q k IH]; cbn [fbind only]; [apply Hf|done|].
  destruct Hp as [H1 H2]. split; [done|]. intros x. apply IH, H2.
Qed.
Lemma only_cases {A B} (p : Fs A) (f : Res CodingError A → Fs B) : only K p → (∀ r, only K (f r)) → only K (fcases p f).
Proof. intros Hp Hf. induction p as [r|X q k IH]; cbn [fcases only]; [apply Hf|]. destruct Hp as [H1 H2]. split; [done|]. intros x. apply IH, H2. Qed.
Lemma only_ask {A} (q : FsQuery A) : K A q → only K (ask q).
Proof. done. Qed.
Lemma only_ask_or {A E} (q : FsQuery (Res E A)) f : K _ q → only K (ask_or q f).
Proof. intros H. split; [done|]. by intros [a|e]. Qed.
Lemma only_finally {A} (cleanup : Res CodingError A → FsProc unit) (p : Fs A) : only K p → (∀ r, only K (cleanup r)) → only K (finally cleanup p).
Proof.
  intros Hp Hc. induction p as [r|X q k IH]; cbn [finally only].
  - specialize (Hc r). induction (cleanup r) as [u|X q k IH]; cbn; [done|]. destruct Hc as [H1 H2]. split; [done|]. intros x. apply IH, H2.
  - destruct Hp as [H1 H2]. split; [done|]. intros x. apply IH, H2.
Qed.
Lemma only_flift {A} (r : Res CodingError A) : only K (flift r).
Proof. done. Qed.
End only.

Definition harmless (X : Type) (q : FsQuery X) : Prop := match q with QRename _ _ _ | QRecord _ _ _ _ => False | _ => True end.
Definition directory_check (X : Type) (q : FsQuery X) : Prop := match q with QFdPath _ | QFdStat _ | QStat _ | QOpenParent _ => True | _ => False end.

Ltac only_step :=
  match goal with
  | |- only _ (_ ≫= _) => apply only_bind; [|intros]
  | |- only _ (fbind _ _) => apply only_bind; [|intros]
  | |- only _ (fcases _ _) => apply only_cases; [|intros]
  | |- only _ (finally _ _) => apply only_finally; [|intros]
  | |- only _ (ask _) => apply only_ask
  | |- only _ (ask_or _ _) => apply only_ask_or
  | |- only _ (flift _) => apply only_flift
  | |- only _ (FRet _) => exact I
  | |- only _ (fret _) => exact I
  | |- only _ (mret _) => exact I
  | |- only _ (ffail _ _) => exact I
  | |- only _ (outside _) => exact I
  | |- only _ (FAsk _ _) => split; [|intros]
  | |- only _ (match ?x with _ => _ end) => destruct x
  | |- only _ (let _ := _ in _) => cbv zeta
  | |- harmless _ _ => exact I
  | |- directory_check _ _ => exact I
  end.
Create HintDb only discriminated.
Ltac only_auto := repeat first [only_step | progress eauto with only nocore].

Lemma only_climb depth root : ∀ fd, only directory_check (climb depth root fd).
Proof. induction depth as [|depth IH]; intros fd; cbn [climb]; only_auto. Qed.
Lemma only_verify_dir dir root label : only directory_check (verify_dir_inside dir root label).
Proof. unfold verify_dir_inside, is_below_by_identity. only_auto; apply only_climb. Qed.
Lemma only_verify_placement p : only directory_check (verify_placement p).
Proof. unfold verify_placement. only_auto; apply only_verify_dir. Qed.
Lemma harmless_check {A} (p : FsProc A) : only directory_check p → only harmless p.
Proof. apply only_mono. by intros X []. Qed.
Lemma harmless_verify_placement p : only harmless (verify_placement p).
Proof. apply harmless_check, only_verify_placement. Qed.
Lemma harmless_open_verified dir root label : only harmless (open_verified dir root label).
Proof. unfold open_verified, is_symlink. only_auto. apply harmless_check, only_verify_dir. Qed.
Lemma harmless_ascend raw : ∀ fuel existing missing, only harmless (ascend fuel raw existing missing).
Proof. induction fuel as [|fuel IH]; intros existing missing; cbn [ascend]; unfold is_symlink; only_auto. Qed.
Lemma harmless_confine {L : Lowercase} root raw options : only harmless (confine root raw options).
Proof. unfold confine, resolve_inside_root. only_auto. apply harmless_ascend. Qed.
Lemma harmless_read_loop fd label : ∀ fuel room buffer, only harmless (read_loop fuel fd label room buffer).
Proof. induction fuel as [|fuel IH]; intros room buffer; cbn [read_loop]; only_auto. Qed.
#[export] Hint Resolve harmless_verify_placement harmless_open_verified harmless_confine harmless_read_loop : only.
Lemma harmless_read root path label max_bytes : only harmless (read_regular_file_in_root root path label max_bytes).
Proof. unfold read_regular_file_in_root, open_for_read. only_auto. Qed.
#[export] Hint Resolve harmless_read : only.
Lemma harmless_existing sha256 path label max_bytes : only harmless (read_existing sha256 path label max_bytes).
Proof. unfold read_existing, read_regular_file. only_auto. Qed.
#[export] Hint Resolve harmless_existing : only.
Lemma harmless_verify {L : Lowercase} sha256 root path target relative digest max_bytes options :
  only harmless (verify_callback sha256 root path target relative digest max_bytes options).
Proof. unfold verify_callback, assert_unchanged. only_auto. Qed.
Lemma harmless_open_placement path root label : only harmless (open_placement path root label).
Proof. unfold open_placement. only_auto. Qed.
Lemma harmless_existing_mode path label : only harmless (existing_mode path label).
Proof. unfold existing_mode. only_auto. Qed.
Lemma harmless_fill handle mode data : only harmless (fill handle mode data).
Proof. unfold fill. only_auto. Qed.
#[export] Hint Resolve harmless_verify harmless_open_placement harmless_existing_mode harmless_fill : only.
Lemma harmless_write_durable p leaf data mode : only harmless (write_durable p leaf data mode).
Proof. unfold write_durable, create_temp. only_auto. Qed.
#[export] Hint Resolve harmless_write_durable : only.
Lemma harmless_create_if_absent root path data label : only harmless (create_if_absent_in_root root path data label).
Proof. unfold create_if_absent_in_root, create_new_fallback, unlink_always, unlink_on_error, create_temp, unlink, sync_dir. only_auto. Qed.
#[export] Hint Resolve harmless_create_if_absent : only.
Lemma harmless_throw : only harmless throw_if_aborted.
Proof. unfold throw_if_aborted. only_auto. Qed.
#[export] Hint Resolve harmless_throw : only.

(** An event of a part is an event of the whole. *)
Ltac in_trace :=
  match goal with
  | |- _ ⊆ _ => let e := fresh in let He := fresh in intros e He; in_trace
  | |- _ ∈ _ ++ _ => apply elem_of_app; first [left; in_trace | right; in_trace]
  | |- _ ∈ _ :: _ => first [left | right; in_trace]
  | |- _ => assumption
  end.

(** *** What a run of a part shows *)

Lemma runs_inv {A} (p : FsProc A) tr p' : runs p tr p' →
  tr = [] ∧ p' = p ∨ match p with FRet _ => False | @FAsk _ X q k => ∃ x tr', tr = Ev q x :: tr' ∧ runs (k x) tr' p' end.
Proof. intros H. destruct H as [p|X q k x tr p' H]; [by left|right]. by exists x, tr. Qed.
Lemma runs_ret {A} (a b : A) tr : runs (FRet a) tr (FRet b) → tr = [] ∧ a = b.
Proof. intros [[-> [= ->]]|[]]%runs_inv. done. Qed.
Lemma runs_asked {A X} (q : FsQuery X) (k : X → FsProc A) tr a : runs (FAsk q k) tr (FRet a) → ∃ x tr', tr = Ev q x :: tr' ∧ runs (k x) tr' (FRet a).
Proof. by intros [[_ ?]|H]%runs_inv. Qed.
Lemma runs_bind {A B} (p : Fs A) (f : A → Fs B) b : ∀ tr, runs (p ≫= f) tr (FRet (Ok b)) →
  ∃ tr1 a tr2, tr = tr1 ++ tr2 ∧ runs p tr1 (FRet (Ok a)) ∧ runs (f a) tr2 (FRet (Ok b)).
Proof.
  change (p ≫= f) with (fbind p f). induction p as [[a|e]|X q k IH]; intros tr H; cbn [fbind] in H.
  - exists [], a, tr. split; [done|]. split; [constructor|done].
  - by apply runs_ret in H as [_ ?].
  - apply runs_asked in H as (x & tr' & -> & (tr1 & a & tr2 & -> & H1 & H2)%IH). exists (Ev q x :: tr1), a, tr2.
    split; [done|]. split; [by constructor|done].
Qed.
Lemma runs_cases {A B} (p : Fs A) (f : Res CodingError A → Fs B) b : ∀ tr, runs (fcases p f) tr (FRet b) →
  ∃ tr1 r tr2, tr = tr1 ++ tr2 ∧ runs p tr1 (FRet r) ∧ runs (f r) tr2 (FRet b).
Proof.
  induction p as [r|X q k IH]; intros tr H; cbn [fcases] in H.
  - exists [], r, tr. split; [done|]. split; [constructor|done].
  - apply runs_asked in H as (x & tr' & -> & (tr1 & a & tr2 & -> & H1 & H2)%IH). exists (Ev q x :: tr1), a, tr2.
    split; [done|]. split; [by constructor|done].
Qed.
Lemma runs_ask_ok {A} (q : FsQuery A) tr a : runs (ask q) tr (FRet (Ok a)) → tr = [Ev q a].
Proof. intros (x & tr' & -> & [-> [= ->]]%runs_ret)%runs_asked. done. Qed.
Lemma runs_ask_or_ok {A E} (q : FsQuery (Res E A)) f tr a : runs (ask_or q f) tr (FRet (Ok a)) → tr = [Ev q (Ok a)].
Proof. intros ([x|e] & tr' & -> & [-> [= ->]]%runs_ret)%runs_asked. done. Qed.

(** A whole reading of the file at a path, with what it found. *)
Definition reading (path : text) (b : bytes) (tr : list FsEvent) : Prop :=
  ∃ root label max_bytes, runs (read_regular_file_in_root root path label max_bytes) tr (FRet (Ok b)).

Section versions.
Context (sha256 : bytes → text).

Lemma existing_reads path label max_bytes tr digest : runs (read_existing sha256 path label max_bytes) tr (FRet (Ok (Some digest))) →
  ∃ b, sha256 b = digest ∧ reading path b tr.
Proof.
  intros (tr1 & r & tr2 & -> & H1 & H2)%runs_cases. destruct r as [b|e].
  - apply runs_ret in H2 as [-> [= <-]]. exists b. split; [done|]. rewrite app_nil_r. by eexists None, label, max_bytes.
  - case_bool_decide; by apply runs_ret in H2 as [_ ?].
Qed.
(** What the check before a rename ends with: the file read, at that version. *)
Lemma verify_reads {L : Lowercase} root path target relative digest max_bytes options tr u :
  runs (verify_callback sha256 root path target relative digest max_bytes options) tr (FRet (Ok u)) →
  ∃ tr1 tr2 b, tr = tr1 ++ tr2 ∧ sha256 b = digest ∧ reading target b tr2.
Proof.
  intros (tr1 & again & tr2 & -> & _ & H)%runs_bind. exists tr1, tr2. destruct (negb _); [by apply runs_ret in H as [_ ?]|].
  apply runs_cases in H as (tr3 & r & tr4 & -> & H1 & H2). destruct r as [now|e]; [|case_bool_decide; by apply runs_ret in H2 as [_ ?]].
  case_bool_decide as E; [|by apply runs_ret in H2 as [_ ?]]. subst now. apply runs_ret in H2 as [-> _]. rewrite app_nil_r.
  destruct (existing_reads _ _ _ _ _ H1) as (b & Hb & Hr). by exists b.
Qed.

End versions.

(** The data is in the file of that name, on disk. *)
Definition written (h : list FsEvent) (dir : option Fd) (name : text) (data : bytes) : Prop :=
  ∃ fd mode, Ev (QCreateNew dir name mode) (Ok fd) ∈ h ∧ Ev (QWriteAll fd data) (Ok tt) ∈ h ∧ Ev (QSyncData fd) (Ok tt) ∈ h.
Lemma written_mono h h' dir name data : h ⊆ h' → written h dir name data → written h' dir name data.
Proof. intros Hs (fd & mode & H1 & H2 & H3). exists fd, mode. split; [by apply Hs|]. split; by apply Hs. Qed.
Lemma fill_writes fd mode data tr u : runs (fill fd mode data) tr (FRet (Ok u)) → Ev (QWriteAll fd data) (Ok tt) ∈ tr ∧ Ev (QSyncData fd) (Ok tt) ∈ tr.
Proof.
  intros (tr1 & [] & tr2 & -> & _ & (tr3 & [] & tr4 & -> & ->%runs_ask_or_ok & (tr5 & [] & tr6 & -> & _ & Hs)%runs_bind)%runs_bind)%runs_bind.
  destruct u. apply runs_ask_or_ok in Hs as ->. rewrite !elem_of_app, !list_elem_of_singleton. tauto.
Qed.
Lemma write_durable_writes p leaf data mode tr u : runs (write_durable p leaf data mode) tr (FRet (Ok u)) → written tr p.(pl_handle) (named p leaf) data.
Proof.
  intros (tr1 & fd & tr2 & -> & ->%runs_ask_or_ok & [H1 H2]%fill_writes)%runs_bind. exists fd. eexists. split; [by left|]. split; by right.
Qed.
(** A file that came to hold the data: moved or linked over a written one, or
    created and filled where there was none. *)
Definition installed (h : list FsEvent) (path : text) (data : bytes) : Prop :=
  ∃ dir from, (Ev (QRename dir from (split_path path).2) (Ok tt) ∈ h ∨ Ev (QLink dir from (split_path path).2) (Ok tt) ∈ h) ∧ written h dir from data
  ∨ written h dir (split_path path).2 data.
Lemma installed_mono h h' path data : h ⊆ h' → installed h path data → installed h' path data.
Proof.
  intros Hs (dir & from & [[He Hw]|Hw]); exists dir, from; [left|right; by eapply written_mono].
  split; [|by eapply written_mono]. destruct He; [left|right]; by apply Hs.
Qed.

Lemma runs_finally {A} (cleanup : Res CodingError A → FsProc unit) (p : Fs A) r : ∀ tr, runs (finally cleanup p) tr (FRet r) →
  ∃ tr1 tr2, tr = tr1 ++ tr2 ∧ runs p tr1 (FRet r).
Proof.
  induction p as [r0|X q k IH]; intros tr H; cbn [finally] in H.
  - exists [], tr. split; [done|]. assert (r0 = r) as ->; [|constructor]. revert tr H. induction (cleanup r0) as [u|X q k IH]; intros tr H.
    + by apply runs_ret in H as [_ ?].
    + apply runs_asked in H as (x & tr' & -> & H). by eapply IH.
  - apply runs_asked in H as (x & tr' & -> & (tr1 & tr2 & -> & H)%IH). exists (Ev q x :: tr1), tr2. split; [done|]. by constructor.
Qed.
Lemma placement_handle path root label tr p : runs (open_placement path (Some root) label) tr (FRet (Ok p)) → ∃ fd, p.(pl_handle) = Some fd.
Proof.
  unfold open_placement. destruct (split_path path) as [dir base]. intros (tr1 & fd & tr2 & -> & _ & H)%runs_bind.
  apply runs_ret in H as [_ [= <-]]. by exists fd.
Qed.
Lemma create_installs root path data label tr u : runs (create_if_absent_in_root (Some root) path data label) tr (FRet (Ok u)) → installed tr path data.
Proof.
  intros (tr1 & p & tr2 & -> & (fd & Hfd)%placement_handle & (tr3 & hex & tr4 & -> & _ & H)%runs_bind)%runs_bind. cbv zeta in H.
  set (base := (split_path path).2) in *. set (leaf := temp_leaf base hex) in *.
  apply runs_finally in H as (tr5 & tr6 & -> & (tr7 & [] & tr8 & -> & Hw%write_durable_writes & (tr9 & [] & tr10 & -> & _ & H)%runs_bind)%runs_bind).
  apply runs_bind in H as (tr11 & [] & tr12 & -> & H & _). apply runs_asked in H as (r & tr13 & -> & H). unfold named in Hw, H |- *. rewrite Hfd in Hw |- *.
  exists (Some fd), leaf. destruct r as [[]|error].
  - left. split; [right; in_trace|]. eapply written_mono; [|exact Hw]. in_trace.
  - destruct (already_exists error); [by apply runs_ret in H as [_ ?]|]. destruct (link_unsupported error); [|by apply runs_ret in H as [_ ?]].
    right. apply runs_bind in H as (tr14 & fd' & tr15 & -> & ->%runs_ask_or_ok & (tr16 & tr17 & -> & [F1 F2]%fill_writes)%runs_finally).
    unfold create_temp, named. rewrite Hfd. exists fd'. eexists. split; [|split]; in_trace.
Qed.

(** ** What may happen at a rename and at a record *)

Section safety.
Context (R : list FsEvent → option Fd → text → text → Prop) (C : list FsEvent → option text → text → text → bool → Prop).
Definition may_ask (h : list FsEvent) (X : Type) (q : FsQuery X) : Prop :=
  match q with
  | QRename dir from to => R h dir from to
  | QRecord chat path sha256 full => C h chat path sha256 full
  | _ => True
  end.
Definition any_answer (h : list FsEvent) (X : Type) (q : FsQuery X) (x : X) : Prop := True.
#[local] Abbreviation safe := (fwp any_answer may_ask).
Definition succeeds {A} (Q : list FsEvent → A → Prop) (h : list FsEvent) (r : Res CodingError A) : Prop :=
  match r with Ok a => Q h a | Err _ => True end.

Lemma safe_bind {A B} (Q : list FsEvent → B → Prop) (p : Fs A) (f : A → Fs B) : ∀ h,
  safe h p (succeeds (λ h a, safe h (f a) (succeeds Q))) → safe h (p ≫= f) (succeeds Q).
Proof.
  change (p ≫= f) with (fbind p f). induction p as [[a|e]|X q k IH]; intros h; cbn [fbind fwp]; [done|done|].
  intros [H1 H2]. split; [done|]. intros x Hx. apply IH, H2, Hx.
Qed.
Lemma safe_cases {A B} (Q : list FsEvent → Res CodingError B → Prop) (p : Fs A) (f : Res CodingError A → Fs B) : ∀ h,
  safe h p (λ h r, safe h (f r) Q) → safe h (fcases p f) Q.
Proof.
  induction p as [r|X q k IH]; intros h; cbn [fcases fwp]; [done|]. intros [H1 H2]. split; [done|]. intros x Hx. apply IH, H2, Hx.
Qed.
Lemma safe_harmless {A} (p : FsProc A) : ∀ h, only harmless p → safe h p (λ h' a, ∃ tr, h' = h ++ tr ∧ runs p tr (FRet a)).
Proof.
  induction p as [a|X q k IH]; intros h; cbn [fwp only]; [intros _; exists []; rewrite app_nil_r; split; [done|constructor]|].
  intros [H1 H2]. split; [by destruct q|]. intros x _. eapply fwp_mono; [|apply IH, H2]. intros h' a (tr & -> & Hr).
  exists (Ev q x :: tr). rewrite <- app_assoc. split; [done|]. by constructor.
Qed.
Lemma safe_then {A B} (Q : list FsEvent → B → Prop) (p : Fs A) (f : A → Fs B) h : only harmless p →
  (∀ tr a, runs p tr (FRet (Ok a)) → safe (h ++ tr) (f a) (succeeds Q)) → safe h (p ≫= f) (succeeds Q).
Proof.
  intros Hp Hf. apply safe_bind. eapply fwp_mono; [|by apply safe_harmless]. intros h' [a|e] (tr & -> & Hr); [|done]. by apply Hf.
Qed.
Lemma safe_finally {A} (cleanup : Res CodingError A → FsProc unit) (Q : list FsEvent → Res CodingError A → Prop) (p : Fs A) : (∀ r, only harmless (cleanup r)) →
  ∀ h, safe h p (λ h r, ∀ tr, Q (h ++ tr) r) → safe h (finally cleanup p) Q.
Proof.
  intros Hc. induction p as [r|X q k IH]; intros h; cbn [finally fwp].
  - specialize (Hc r). revert h. induction (cleanup r) as [u|X q k IH]; intros h HQ; cbn.
    + specialize (HQ []). by rewrite app_nil_r in HQ.
    + destruct Hc as [H1 H2]. split; [by destruct q|]. intros x _. apply IH; [apply H2|]. intros tr. rewrite <- app_assoc. apply HQ.
  - intros [H1 H2]. split; [done|]. intros x Hx. apply IH, H2, Hx.
Qed.

Lemma safe_cleaned {A} (cleanup : Res CodingError A → FsProc unit) (Q : list FsEvent → A → Prop) (p : Fs A) h : (∀ r, only harmless (cleanup r)) →
  safe h p (succeeds (λ h a, ∀ tr, Q (h ++ tr) a)) → safe h (finally cleanup p) (succeeds Q).
Proof. intros Hc Hp. apply safe_finally; [done|]. eapply fwp_mono; [|exact Hp]. by intros h' [a|e]. Qed.

(** A move over a file: last of all the check ran, then only the directory was
    looked at. *)
Lemma safe_atomic_write Q h root path data label verify : only harmless verify →
  (∀ hw tv hp fd from, runs verify tv (FRet (Ok tt)) → Forall (event_kind directory_check) hp → written hw (Some fd) from data →
     R (h ++ hw ++ tv ++ hp) (Some fd) from (split_path path).2) →
  (∀ tr, installed tr path data → Q (h ++ tr) tt) →
  safe h (atomic_write_in_root (Some root) path data label (Some verify)) (succeeds Q).
Proof.
  intros Hv HR HQ. unfold atomic_write_in_root. apply safe_then; [apply harmless_existing_mode|]. intros tr1 mode _.
  apply safe_then; [apply harmless_open_placement|]. intros tr2 p (fd & Hfd)%placement_handle.
  apply safe_then; [done|]. intros tr3 hex _. cbv zeta. set (base := (split_path path).2). set (leaf := temp_leaf base hex).
  rewrite <- !app_assoc. set (h1 := tr1 ++ tr2 ++ tr3).
  apply safe_bind, safe_cleaned; [intros []; only_auto|].
  apply safe_then; [apply harmless_write_durable|]. intros tr4 [] Hw%write_durable_writes.
  apply safe_then; [done|]. intros tr5 [] H5. apply safe_then; [apply harmless_verify_placement|]. intros tr6 [] H6.
  unfold named in *. rewrite Hfd in *. split; [|intros [[]|e] _; cbn [fwp succeeds]; [|done]].
  - rewrite <- !app_assoc. replace (h ++ h1 ++ tr4 ++ tr5 ++ tr6) with (h ++ (h1 ++ tr4) ++ tr5 ++ tr6) by (by rewrite <- !app_assoc).
    apply HR; [done|by eapply only_runs; [|apply only_verify_placement]|]. eapply written_mono; [|exact Hw]. in_trace.
  - intros tr7. split; [done|]. intros [] _. cbn [fwp fret succeeds]. rewrite <- !app_assoc. apply HQ.
    exists (Some fd), leaf. left. split; [left; in_trace|]. eapply written_mono; [|exact Hw]. in_trace.
Qed.
End safety.

(** ** The calls *)

Inductive FileCall := CallRead (chat : option text) (raw : Value) | CallWrite (chat : option text) (raw : Value) | CallEdit (chat : option text) (raw : Value).
Definition chat_of (call : FileCall) : option text := match call with CallRead chat _ | CallWrite chat _ | CallEdit chat _ => chat end.

Section calls.
Context {L : Lowercase} (sha256 : bytes → text) (nfkc : list char → list char) (env : PackEnv).

Definition process (call : FileCall) : Fs Outcome :=
  match call with
  | CallRead chat raw => read_file sha256 env chat raw
  | CallWrite chat raw => write_file sha256 env chat raw
  | CallEdit chat raw => edit_file sha256 nfkc env chat raw
  end.

(** The file at [target] held [b] when it was last looked at, and nothing but
    its directory was looked at since; by then the new data was on disk. *)
Definition replaces (h : list FsEvent) (target : text) (b : bytes) (dir : option Fd) (from : text) (data : bytes) : Prop :=
  ∃ before tr after, h = before ++ tr ++ after ∧ reading target b tr ∧ Forall (event_kind directory_check) after ∧ written before dir from data.
Definition was_read (h : list FsEvent) (path : text) (b : bytes) : Prop := ∃ h1 tr h2, h = h1 ++ tr ++ h2 ∧ reading path b tr.

(** What the caller of a write said, and what gave it leave. *)
Definition asked_write (raw : Value) (explicit : option text) (data : bytes) : Prop :=
  ∃ input content, raw = VObj input ∧ obj_get "content" input = Some (VStr content) ∧ data = lit content ∧ parse_expected_sha input = Ok explicit.
Definition may_overwrite (h : list FsEvent) (chat explicit : option text) (target digest : text) : Prop :=
  explicit = Some digest ∨ explicit = None ∧ Ev (QExpected chat target) (Some (mkLedger digest true)) ∈ h.
(** What the caller of an edit said, and which version it may be applied to. *)
Definition asked_edit (raw : Value) (path : string) (edits : list Edit) (explicit : option text) : Prop :=
  ∃ input, raw = VObj input ∧ req_string input "path" 4096 = Ok path ∧ parse_edits (obj_get "edits" input) = Ok edits ∧ parse_expected_sha input = Ok explicit.
Definition may_edit (h : list FsEvent) (chat explicit : option text) (target digest : text) : Prop :=
  explicit = Some digest ∨ explicit = None ∧ ∃ seen, Ev (QExpected chat target) seen ∈ h ∧ ∀ e, seen = Some e → e.(le_sha256) = digest.
Definition edited (b : bytes) (edits : list Edit) (path : string) (data : bytes) : Prop :=
  ∃ applied, apply_edits nfkc (split_bom b).2 edits path = Ok applied ∧ data = (split_bom b).1 ++ applied.(ae_output).

Definition rename_condition (call : FileCall) (h : list FsEvent) (dir : option Fd) (from to : text) : Prop :=
  match call with
  | CallRead _ _ => False
  | CallWrite chat raw => ∃ explicit data target b, asked_write raw explicit data ∧ to = (split_path target).2
      ∧ replaces h target b dir from data ∧ may_overwrite h chat explicit target (sha256 b)
  | CallEdit chat raw => ∃ path edits explicit data target b b', asked_edit raw path edits explicit ∧ to = (split_path target).2
      ∧ was_read h target b ∧ edited b edits path data ∧ may_edit h chat explicit target (sha256 b)
      ∧ replaces h target b' dir from data ∧ sha256 b' = sha256 b
  end.
(** A version recorded was read, or is the caller's own. *)
Definition record_condition (call : FileCall) (h : list FsEvent) (chat : option text) (path digest : text) (full : bool) : Prop :=
  chat = chat_of call ∧ ((∃ b, sha256 b = digest ∧ was_read h path b) ∨ ∃ data, sha256 data = digest ∧ full = true ∧ installed h path data).
Abbreviation call_safe call h p Q := (fwp any_answer (may_ask (rename_condition call) (record_condition call)) h p (succeeds Q)).

Lemma was_read_here h tr path b : reading path b tr → was_read (h ++ tr) path b.
Proof. intros H. exists h, tr, []. by rewrite app_nil_r. Qed.
Lemma was_read_app h h' path b : was_read h path b → was_read (h ++ h') path b.
Proof. intros (h1 & tr & h2 & -> & H). exists h1, tr, (h2 ++ h'). by rewrite <- !app_assoc. Qed.

Lemma read_one_safe call h root path offset limit max_bytes :
  call_safe call h (read_one sha256 env root path offset limit max_bytes (chat_of call)) (λ _ _, True).
Proof.
  unfold read_one. apply safe_then; [only_auto|]. intros tr1 target _. apply safe_then; [only_auto|]. intros tr2 b Hb.
  assert (was_read ((h ++ tr1) ++ tr2) (cf_path target) b) as Hread by (apply was_read_here; by eexists _, _, _).
  destruct (looks_binary b); [done|]. cbv zeta. destruct (split_lines _) as [|line lines].
  { split; [split; [done|left; by exists b]|]. by intros [] _. }
  destruct (_ <? _)%Z; [done|]. destruct (tr_first_line_exceeds_limit _); [done|]. split; [split; [done|left; by exists b]|]. by intros [] _.
Qed.
Lemma read_each_safe call root offset limit share paths : ∀ h b,
  call_safe call h (read_each (λ path, read_one sha256 env root path offset limit share (chat_of call)) paths b) (λ _ _, True).
Proof.
  induction paths as [|path paths IH]; intros h b; cbn [read_each]; [done|]. apply safe_then; [only_auto|]. intros tr1 [] _.
  apply safe_cases. eapply fwp_mono; [|apply read_one_safe]. intros h' r _. apply IH.
Qed.
Lemma read_file_safe chat raw : call_safe (CallRead chat raw) [] (read_file sha256 env chat raw) (λ _ _, True).
Proof.
  unfold read_file. apply safe_then; [only_auto|]. intros t1 input _. apply safe_then; [only_auto|]. intros t2 paths _.
  apply safe_then; [only_auto|]. intros t3 offset _. cbv zeta. apply safe_then; [only_auto|]. intros t4 limit _.
  apply safe_then; [only_auto|]. intros t5 root _. destruct (obj_get "path" input); [destruct paths as [|path paths]|].
  - apply safe_bind. eapply fwp_mono; [|apply (read_each_safe (CallRead chat raw))]. by intros h' [a|e].
  - apply safe_then; [only_auto|]. intros tr' [] _. apply safe_bind. eapply fwp_mono; [|apply (read_one_safe (CallRead chat raw))]. by intros h' [a'|e].
  - apply safe_bind. eapply fwp_mono; [|apply (read_each_safe (CallRead chat raw))]. by intros h' [a'|e].
Qed.

Lemma expected_version_allows explicit chat target tr digest : runs (expected_version explicit chat target) tr (FRet (Ok digest)) →
  may_overwrite tr chat explicit target.(cf_path) digest.
Proof.
  unfold expected_version. destruct explicit as [given|]; [intros [_ [= <-]]%runs_ret; by left|].
  intros (tr1 & seen & tr2 & -> & ->%runs_ask_ok & H)%runs_bind. right. split; [done|].
  destruct seen as [[version []]|]; [|by apply runs_ret in H as [_ ?]..]. apply runs_ret in H as [-> [= <-]]. by left.
Qed.
Lemma may_overwrite_mono h h' chat explicit target digest : h ⊆ h' → may_overwrite h chat explicit target digest → may_overwrite h' chat explicit target digest.
Proof. intros Hs [H|[H1 H2]]; [by left|right]. split; [done|by apply Hs]. Qed.

(** A checked move satisfies the condition on renames. *)
Lemma verified_replaces h hw tv hp root path target relative digest max_bytes options fd from data u :
  runs (verify_callback sha256 root path target relative digest max_bytes options) tv (FRet (Ok u)) →
  Forall (event_kind directory_check) hp → written hw (Some fd) from data →
  ∃ b, sha256 b = digest ∧ replaces (h ++ hw ++ tv ++ hp) target b (Some fd) from data.
Proof.
  intros (t1 & t2 & b & -> & Hb & Hr)%verify_reads Hp Hw. exists b. split; [done|]. exists (h ++ hw ++ t1), t2, hp.
  split; [by rewrite <- !app_assoc|]. split; [done|]. split; [done|]. eapply written_mono; [|exact Hw]. in_trace.
Qed.

Lemma write_body_safe chat raw h root path data explicit target options : asked_write raw explicit data →
  call_safe (CallWrite chat raw) h (write_file_body sha256 env chat root path data explicit target options) (λ _ _, True).
Proof.
  intros Hasked. unfold write_file_body. apply safe_then; [only_auto|]. intros t1 [] _. cbv zeta. apply safe_then; [only_auto|]. intros t2 current _.
  apply safe_bind. eapply fwp_mono with (Q := succeeds (λ h' _, installed h' target.(cf_path) data)).
  { intros h' [[]|e]; [|done]. intros Hi. split; [split; [done|right; by exists data]|]. by intros [] _. }
  destruct current as [current|].
  - apply safe_then; [unfold expected_version; only_auto|]. intros t3 expected Hexp%expected_version_allows. 
    destruct (decide (expected = current)) as [->|Hne]; [rewrite bool_decide_eq_true_2 by done|by rewrite bool_decide_eq_false_2].
    apply safe_atomic_write; [only_auto| |].
    + intros hw tv hp fd from Hv Hp Hw. destruct (verified_replaces (((h ++ t1) ++ t2) ++ t3) _ _ _ _ _ _ _ _ _ _ _ _ _ _ Hv Hp Hw) as (b & Hb & Hr).
      exists explicit, data, (cf_path target), b. split; [done|]. split; [done|]. split; [done|]. rewrite Hb. eapply may_overwrite_mono; [|exact Hexp]. in_trace.
    + intros tr Hi. eapply installed_mono; [|exact Hi]. in_trace.
  - destruct (is_some explicit); [done|]. apply safe_then; [only_auto|]. intros t3 [] _. apply safe_then; [only_auto|]. intros t4 again _.
    destruct (negb _); [done|]. eapply fwp_mono; [|apply safe_harmless; only_auto]. intros h' [[]|e] (tr & -> & Hr); [|done].
    eapply installed_mono; [|by eapply create_installs]. in_trace.
Qed.
Lemma write_file_safe chat raw : call_safe (CallWrite chat raw) [] (write_file sha256 env chat raw) (λ _ _, True).
Proof.
  unfold write_file. apply safe_then; [only_auto|]. intros t1 input [_ Hinput]%runs_ret. apply safe_then; [only_auto|]. intros t2 path _.
  apply safe_then; [only_auto|]. intros t3 content [_ Hcontent]%runs_ret. apply safe_then; [only_auto|]. intros t4 explicit [_ Hexplicit]%runs_ret. cbv zeta.
  destruct (Nat.ltb _ _); [done|]. apply safe_then; [only_auto|]. intros t5 root _. apply safe_then; [only_auto|]. intros t6 first _.
  unfold under_lease. apply safe_then; [only_auto|]. intros t7 [] _. apply safe_cleaned; [intros; only_auto|].
  eapply fwp_mono; [|apply write_body_safe].
  - by intros h' [a|e].
  - destruct raw; try done. injection Hinput as ->. destruct (obj_get "content" input) as [[]|] eqn:Ec; try done. injection Hcontent as ->. by exists input, content.
Qed.

Lemma edit_body_safe chat raw h root path edits explicit target options : asked_edit raw path edits explicit →
  call_safe (CallEdit chat raw) h (edit_file_body sha256 nfkc env chat root path edits explicit target options) (λ _ _, True).
Proof.
  intros Hasked. unfold edit_file_body. apply safe_then; [only_auto|]. intros t1 [] _. cbv zeta. apply safe_then; [only_auto|]. intros t2 b Hb.
  assert (was_read ((h ++ t1) ++ t2) (cf_path target) b) as Hread by (apply was_read_here; by eexists _, _, _).
  destruct (looks_binary b); [done|]. apply safe_then; [destruct explicit; only_auto|]. intros t3 expected Hexp.
  destruct (is_some_and expected _) eqn:Eexp; [done|]. destruct (negb (valid_utf8 b)); [done|].
  destruct (split_bom b) as [bom0 content] eqn:Ebom. apply safe_then; [only_auto|]. intros t4 applied [_ Happlied]%runs_ret.
  apply safe_then; [only_auto|]. intros t5 [] _. apply safe_bind.
  eapply fwp_mono with (Q := succeeds (λ h' _, installed h' target.(cf_path) (bom0 ++ ae_output applied))).
  { intros h' [[]|e]; [|done]. intros Hi. split; [split; [done|right; by eexists]|]. by intros [] _. }
  assert (may_edit ((((h ++ t1) ++ t2) ++ t3) ++ t4) chat explicit (cf_path target) (sha256 b)) as Hmay.
  { destruct explicit as [given|].
    - apply runs_ret in Hexp as [_ [= <-]]. simpl in Eexp. apply negb_false_iff, bool_decide_eq_true in Eexp as ->. by left.
    - apply runs_bind in Hexp as (t6 & seen & t7 & -> & ->%runs_ask_ok & [-> [= <-]]%runs_ret). right. split; [done|]. exists seen. split; [in_trace|].
      intros e ->. simpl in Eexp. by apply negb_false_iff, bool_decide_eq_true in Eexp. }
  apply safe_atomic_write; [only_auto| |].
  - intros hw tv hp fd from Hv Hp Hw.
    destruct (verified_replaces (((((h ++ t1) ++ t2) ++ t3) ++ t4) ++ t5) _ _ _ _ _ _ _ _ _ _ _ _ _ _ Hv Hp Hw) as (b' & Hb' & Hr).
    exists path, edits, explicit, (bom0 ++ ae_output applied), (cf_path target), b, b'. split; [done|]. split; [done|].
    split; [by do 4 apply was_read_app|].
    split; [exists applied; rewrite Ebom; done|]. split; [|done].
    destruct Hmay as [?|(? & seen & Hin & Hs)]; [by left|right]. split; [done|]. exists seen. split; [in_trace|done].
  - intros tr Hi. eapply installed_mono; [|exact Hi]. in_trace.
Qed.
Lemma edit_file_safe chat raw : call_safe (CallEdit chat raw) [] (edit_file sha256 nfkc env chat raw) (λ _ _, True).
Proof.
  unfold edit_file. apply safe_then; [only_auto|]. intros t1 input [_ Hinput]%runs_ret. apply safe_then; [only_auto|]. intros t2 path [_ Hpath]%runs_ret.
  apply safe_then; [only_auto|]. intros t3 edits [_ Hedits]%runs_ret. apply safe_then; [only_auto|]. intros t4 explicit [_ Hexplicit]%runs_ret.
  apply safe_then; [only_auto|]. intros t5 root _. apply safe_then; [only_auto|]. intros t6 target _.
  unfold under_lease. apply safe_then; [only_auto|]. intros t7 [] _. apply safe_cleaned; [intros; only_auto|].
  eapply fwp_mono; [|apply edit_body_safe].
  - by intros h' [a|e].
  - destruct raw; try done. injection Hinput as ->. by exists input.
Qed.
Lemma process_safe call : call_safe call [] (process call) (λ _ _, True).
Proof. destruct call; [apply read_file_safe|apply write_file_safe|apply edit_file_safe]. Qed.

(** At every point of a run, what is asked there may be asked. *)
Lemma safe_asked {A} R C (Q : list FsEvent → A → Prop) (p p' : FsProc A) e tr2 : ∀ tr1 h, runs p (tr1 ++ e :: tr2) p' →
  fwp any_answer (may_ask R C) h p Q → match e with @Ev X q _ => may_ask R C (h ++ tr1) X q end.
Proof.
  induction p as [a|X q k IH]; intros tr1 h Hr Hs; apply runs_inv in Hr as [[E _]|Hr]; try by destruct tr1.
  destruct Hr as (x & tr' & E & Hr). destruct Hs as [H1 H2]. destruct tr1 as [|e1 tr1]; injection E as -> E.
  - by rewrite app_nil_r.
  - subst tr'. specialize (IH x tr1 _ Hr (H2 x I)). by rewrite <- app_assoc in IH.
Qed.

(** ** Many calls and one ledger *)

(** The events of one call. *)
Definition own (i : nat) (h : list (nat * FsEvent)) : list FsEvent := omap (λ e, if decide (e.1 = i) then Some e.2 else None) h.
(** A history of any number of calls, interleaved as it may be: each call did
    what its process does, and the ledger answered as it is defined to. *)
Record history (calls : nat → FileCall) (h : list (nat * FsEvent)) : Prop := {
  hs_runs i : ∃ p, runs (process (calls i)) (own i h) p;
  hs_ledger : is_Some (ledger_run empty_ledger (map snd h))
}.

Lemma own_app i h h' : own i (h ++ h') = own i h ++ own i h'.
Proof. apply omap_app. Qed.
Lemma own_here i e h : own i ((i, e) :: h) = e :: own i h.
Proof. unfold own. cbn. by rewrite decide_True. Qed.
Lemma elem_of_own i e h : e ∈ own i h → (i, e) ∈ h.
Proof. intros ([j e'] & Hin & H)%list_elem_of_omap. cbn in H. destruct (decide (j = i)) as [->|]; [|done]. by injection H as ->. Qed.

Lemma record_asked calls h1 j e h2 chat path digest full : history calls (h1 ++ (j, e) :: h2) → record_of e = Some (Some chat, path, digest, full) →
  record_condition (calls j) (own j h1) (Some chat) path digest full.
Proof.
  intros [Hr _] He. destruct (Hr j) as (p & Hp). rewrite own_app, own_here in Hp.
  pose proof (safe_asked _ _ _ _ _ _ _ _ _ Hp (process_safe (calls j))) as H. destruct e as [X q x]. destruct q; try done. by injection He as -> -> -> ->.
Qed.

(** How the caller came to know the version: the ledger answered with it, it
    was the last one recorded for that file in that chat, and a call of that
    chat had recorded it in full, having read or written it itself. *)
Definition version_seen (calls : nat → FileCall) (h : list (nat * FsEvent)) (i : nat) (chat : option text) (target digest : text) : Prop :=
  ∃ chat_id ha hb, chat = Some chat_id ∧ h = ha ++ (i, Ev (QExpected chat target) (Some (mkLedger digest true))) :: hb
    ∧ last_recorded (map snd ha) chat_id target digest
    ∧ ∃ hc j e hd, ha = hc ++ (j, e) :: hd ∧ record_of e = Some (Some chat_id, target, digest, true)
        ∧ chat_of (calls j) = Some chat_id
        ∧ ((∃ b, sha256 b = digest ∧ was_read (own j hc) target b) ∨ ∃ data, sha256 data = digest ∧ installed (own j hc) target data).

Lemma answer_seen calls i chat target digest ha hb :
  history calls (ha ++ (i, Ev (QExpected chat target) (Some (mkLedger digest true))) :: hb) →
  ∀ hb', version_seen calls (ha ++ (i, Ev (QExpected chat target) (Some (mkLedger digest true))) :: hb') i chat target digest.
Proof.
  intros Hh hb'. pose proof Hh as [_ [l Hl]]. rewrite map_app in Hl. cbn [map snd] in Hl. destruct chat as [chat_id|].
  - destruct (expected_recorded _ _ _ _ _ _ Hl) as [Hlast Hfull]. specialize (Hfull eq_refl) as (e & He & Hrec).
    apply list_elem_of_fmap in He as ([j e'] & -> & Hin). cbn in Hrec. apply list_elem_of_split in Hin as (hc & hd & Ha). cbn [le_sha256] in *.
    exists chat_id, ha, hb'. split; [done|]. split; [done|]. split; [done|]. exists hc, j, e', hd. split; [done|]. split; [done|]. rewrite Ha in Hh.
    rewrite <- app_assoc in Hh. cbn [app] in Hh. destruct (record_asked calls _ _ _ _ _ _ _ _ Hh Hrec) as [Hc Hwhat]. split; [by rewrite <- Hc|].
    destruct Hwhat as [?|(data & ? & _ & ?)]; [by left|right; by exists data].
  - exfalso. clear -Hl. revert Hl. generalize empty_ledger. induction (map snd ha) as [|e h IH]; intros l0 H; cbn [app ledger_run] in H; apply bind_Some in H as (l1 & Hs & H).
    + cbn in Hs. done.
    + by eapply IH.
Qed.

(** C32: No call replaces a version of a file that its session has not seen,
    however the calls interleave and whatever others do to the files.  Where a
    [write_file] asks to move its data over a file, the data is on disk, the
    file was read last of all and found at one version, and that version is the
    one its caller named or, failing that, one the ledger knew in full: the last
    recorded for that file in that chat, by a call of the chat that had read it
    or written it.  Where an [edit_file] does, the data is the outcome of the
    edits on the very version that is replaced, which is the one named, or else
    the one last recorded if any was.  [read_file] never asks. *)
Theorem no_blind_overwrite calls h1 i dir from to r h2 :
  history calls (h1 ++ (i, Ev (QRename dir from to) r) :: h2) →
  match calls i with
  | CallRead _ _ => False
  | CallWrite chat raw => ∃ explicit data target b, asked_write raw explicit data ∧ to = (split_path target).2
      ∧ replaces (own i h1) target b dir from data
      ∧ (explicit = Some (sha256 b) ∨ explicit = None ∧ version_seen calls h1 i chat target (sha256 b))
  | CallEdit chat raw => ∃ path edits explicit data target b b', asked_edit raw path edits explicit ∧ to = (split_path target).2
      ∧ was_read (own i h1) target b ∧ edited b edits path data ∧ replaces (own i h1) target b' dir from data ∧ sha256 b' = sha256 b
      ∧ may_edit (own i h1) chat explicit target (sha256 b)
  end.
Proof.
  intros Hh. pose proof Hh as [Hr _]. destruct (Hr i) as (p & Hp). rewrite own_app, own_here in Hp.
  pose proof (safe_asked _ _ _ _ _ _ _ _ _ Hp (process_safe (calls i))) as H. cbn [may_ask app] in H. destruct (calls i) as [chat raw|chat raw|chat raw]; [done| |].
  - destruct H as (explicit & data & target & b & Ha & Ht & Hrep & Hmay). exists explicit, data, target, b. split; [done|]. split; [done|]. split; [done|].
    destruct Hmay as [?|[? Hin]]; [by left|right]. split; [done|]. apply elem_of_own, list_elem_of_split in Hin as (ha & hb & ->).
    rewrite <- app_assoc in Hh. by eapply answer_seen.
  - destruct H as (path & edits & explicit & data & target & b & b' & Ha & Ht & Hread & Hed & Hmay & Hrep & Hsha).
    by exists path, edits, explicit, data, target, b, b'.
Qed.

(** The ledger stays within its bounds, and its [expect] never fails. *)
Lemma ledger_bounded h l chat : ledger_run empty_ledger h = Some l →
  size l.(lg_chats) ≤ max_chats ∧ (∀ k c, l.(lg_chats) !! k = Some c → size c.(ct_paths) ≤ max_paths_per_chat) ∧ is_Some (touch_chat l chat).1.
Proof.
  intros H. pose proof (ledger_remembers _ _ _ _ remembers_nothing H) as [Hok _]. split; [apply Hok|]. split; [|by apply touch_chat_present].
  intros k c Hc. by eapply ck_size, lk_chats.
Qed.
End calls.

(** ** What a full reading shows *)

(** The fuel of [read_loop] is enough: it fails only as the file system does. *)
Lemma read_loop_fails fd label e : ∀ fuel room buffer tr, (room <= Z.of_nat fuel)%Z →
  runs (read_loop fuel fd label room buffer) tr (FRet (Err e)) → ∃ error, e = map_open_error label error.
Proof.
  induction fuel as [|fuel IH]; intros room buffer tr Hroom; cbn [read_loop]; destruct (Z.leb_spec room 0) as [Hr|Hr]; try lia.
  1,2: by intros [_ ?]%runs_ret.
  intros ([data|error] & tr' & -> & H)%runs_asked; [|apply runs_ret in H as [_ [= <-]]; by exists error].
  destruct data as [|b data]; [by apply runs_ret in H as [_ ?]|]. eapply IH; [|exact H]. cbn [length]. lia.
Qed.

Definition as_text (b : bytes) : bytes := if negb (valid_utf8 b) then from_utf8_lossy b else b.
Lemma not_recorded {A} (p : FsProc A) tr p' chat path digest u : runs p tr p' → only harmless p → Ev (QRecord chat path digest true) u ∉ tr.
Proof. intros Hr Ho Hin. pose proof (proj1 (Forall_forall _ _) (only_runs _ _ _ _ Hr Ho) _ Hin) as H. exact H. Qed.
(** A version recorded as read in full was shown in full: every line, numbered
    from one, of the very bytes that were hashed. *)
Lemma read_full_shows {L : Lowercase} sha256 env root path offset limit max_bytes chat tr one p digest u :
  runs (read_one sha256 env root path offset limit max_bytes chat) tr (FRet (Ok one)) → Ev (QRecord chat p digest true) u ∈ tr →
  ∃ b, was_read tr p b ∧ sha256 b = digest ∧ one.(fr_truncated) = false
    ∧ one.(fr_text) = match split_lines (as_text b) with [] => lit "(empty file)" | lines => join_lf (numbered_from 1 lines) end.
Proof.
  unfold read_one. intros (t1 & target & t2 & -> & Hc & (t3 & b & t4 & -> & Hb & H)%runs_bind)%runs_bind Hin.
  apply elem_of_app in Hin as [Hin|[Hin|Hin]%elem_of_app]; [by eapply not_recorded in Hin; [|exact Hc|only_auto]|by eapply not_recorded in Hin; [|exact Hb|only_auto]|].
  assert (was_read (t1 ++ t3 ++ t4) (cf_path target) b) as Hread by (exists t1, t3, t4; split; [done|]; by eexists _, _, _).
  destruct (looks_binary b); [by apply runs_ret in H as [_ ?]|]. cbv zeta in H. fold (as_text b) in H.
  set (lines := split_lines (as_text b)) in *. destruct lines as [|line rest] eqn:El.
  { apply runs_bind in H as (t5 & [] & t6 & -> & ->%runs_ask_ok & [-> [= <-]]%runs_ret).
    apply list_elem_of_singleton, (f_equal record_of) in Hin. injection Hin as -> ->. exists b. fold lines. by rewrite El. }
  rewrite <- El in H. assert (lines ≠ []) as Hne by (by rewrite El). clear El line rest. set (count := Z.of_nat (Datatypes.length lines)) in *.
  destruct (count <? offset)%Z; [by apply runs_ret in H as [_ ?]|].
  set (wanted := Z.to_nat _) in H. set (shown := segment lines _ _) in H. set (cut := truncate_head _ _) in H.
  destruct (tr_first_line_exceeds_limit cut); [by apply runs_ret in H as [_ ?]|].
  apply runs_bind in H as (t5 & [] & t6 & -> & ->%runs_ask_ok & [-> [= <-]]%runs_ret).
  apply list_elem_of_singleton, (f_equal record_of) in Hin. injection Hin as -> -> Hfull. symmetry in Hfull.
  apply andb_true_iff in Hfull as [[-> %Z.eqb_eq Hm%negb_true_iff]%andb_true_iff Ht%negb_true_iff].
  exists b. split; [done|]. split; [done|]. fold lines. replace (match lines with [] => _ | _ => _ end) with (join_lf (numbered_from 1 lines)) by (by destruct lines).
  cbn [fr_truncated fr_text]. rewrite Hm, Ht, andb_false_r. split; [done|].
  destruct (truncate_head_bounded (join_lf (numbered_from 1 shown)) (mkLimits (Datatypes.length shown) max_bytes)) as (_ & Hl & _ & Hc' & _).
  fold cut in Hl, Hc'. cbn [max_lines] in Hl. apply Z.ltb_ge in Hm. rewrite app_nil_r, (Hc' Ht). do 2 f_equal.
  assert (Datatypes.length lines ≤ Datatypes.length shown) as Hall by lia. clear -Hall.
  revert Hall. unfold shown, segment. change (Z.to_nat (1 - 1)) with 0. rewrite drop_0, length_take. intros Hall. apply take_ge. lia.
Qed.

(** *** One file, read and then written by one chat *)

Lemma own_tagged i tr : own i (map (pair i) tr) = tr.
Proof. induction tr as [|e tr IH]; [done|]. cbn [map]. by rewrite own_here, IH. Qed.
Lemma own_untagged i j tr : i ≠ j → own i (map (pair j) tr) = [].
Proof. intros Hij. induction tr as [|e tr IH]; [done|]. cbn [map]. unfold own in *. cbn. rewrite decide_False by (cbn; congruence). exact IH. Qed.

Definition small_file : Meta := mkMeta true false false 1 7 3 0x1A4.
Definition small_world (l : Ledger) (X : Type) (q : FsQuery X) : X * Ledger :=
  match q in FsQuery X return X * Ledger with
  | QCanonicalize path => (Some path, l)
  | QLstat _ | QStat _ | QFdStat _ => (Ok small_file, l)
  | QOpenDir _ => (Ok 1, l)
  | QFdPath _ => (Some (lit "/w"), l)
  | QOpenAt _ _ | QOpenNoFollow _ => (Ok 2, l)
  | QRead _ _ => (Ok (lit "hi" ++ newline_bytes), l)
  | QCreateNew _ _ _ => (Ok 3, l)
  | QSetMode _ _ | QWriteAll _ _ | QFlush _ | QSyncData _ | QRename _ _ _ => (Ok tt, l)
  | QTempId => (lit "beef", l)
  | QRoot => (Ok (lit "/w"), l)
  | QAcquireFile _ _ => (Ok tt, l)
  | QExpected chat path => expected chat path l
  | QRecord chat path sha256 full => (tt, default l (put chat path sha256 full l))
  | q => (quiet q, l)
  end.
Definition small_pack : PackEnv := mkPack (mkCodingLimits 100 1000 1000 1000 1000 1000) false.
Definition small_call (i : nat) : FileCall :=
  if Nat.eqb i 1 then CallWrite (Some (lit "c")) (VObj [("path", VStr "f.txt"); ("content", VStr "ho")])
  else CallRead (Some (lit "c")) (VObj [("path", VStr "f.txt")]).
Definition small_process (i : nat) : Fs Outcome := process (L := ascii_lowercase) (λ b, b) (λ s, s) small_pack (small_call i).
Definition read_run := run_in small_world empty_ledger (small_process 0).
Definition write_run := run_in small_world read_run.2 (small_process 1).
Definition read_then_write : list (nat * FsEvent) := map (pair 0) read_run.1.1 ++ map (pair 1) write_run.1.1.
Lemma small_history : history (L := ascii_lowercase) (λ b, b) (λ s, s) small_pack small_call read_then_write.
Proof.
  split; [|vm_compute; by eexists]. intros i. unfold read_then_write. rewrite own_app.
  destruct read_run as [[t0 a0] l0] eqn:E0, write_run as [[t1 a1] l1] eqn:E1. cbn [fst].
  destruct (decide (i = 0)) as [->|H0]; [|destruct (decide (i = 1)) as [->|H1]].
  - rewrite own_tagged, own_untagged, app_nil_r by done. eexists. by eapply run_in_runs.
  - rewrite own_untagged, own_tagged by done. eexists. by eapply run_in_runs.
  - rewrite !own_untagged by done. eexists. constructor.
Qed.

(** An edit of the same file, by the version the reading recorded. *)
Example small_edit :
  oc_ok <$> match (run_in small_world read_run.2 (edit_file (L := ascii_lowercase) (λ b, b) (λ s, s) small_pack (Some (lit "c"))
    (VObj [("path", VStr "f.txt"); ("edits", VArr [VObj [("oldText", VStr "i"); ("newText", VStr "o")]])]))).1.2 with Ok o => Some o | Err _ => None end = Some true.
Proof. vm_compute. reflexivity. Qed.

Lemma no_blind_overwrite_witness : ∃ h1 dir from to h2 data target b,
  read_then_write = h1 ++ (1, Ev (QRename dir from to) (Ok tt)) :: h2 ∧ data = lit "ho" ∧ replaces (own 1 h1) target b dir from data
  ∧ version_seen (λ b, b) small_call h1 1 (Some (lit "c")) target b.
Proof.
  assert (∃ h1 dir from to h2, read_then_write = h1 ++ (1, Ev (QRename dir from to) (Ok tt)) :: h2) as (h1 & dir & from & to & h2 & E).
  { vm_compute. eexists [_;_;_;_;_;_;_;_;_;_;_;_;_;_;_;_;_;_;_;_;_;_;_;_;_;_;_;_;_;_;_;_;_;_], _, _, _, _. reflexivity. }
  pose proof small_history as H. rewrite E in H.
  destruct (no_blind_overwrite (L := ascii_lowercase) (λ b, b) (λ s, s) small_pack small_call h1 1 dir from to (Ok tt) h2 H)
    as (explicit & data & target & b & (input & content & Hi & Hc & Hd & He) & _ & Hr & Hv).
  injection Hi as <-. vm_compute in He. injection He as <-. injection Hc as <-.
  exists h1, dir, from, to, h2, data, target, b. split; [exact E|]. split; [exact Hd|]. split; [exact Hr|].
  destruct Hv as [Hv|[_ Hv]]; [discriminate Hv|exact Hv].
Defined.
