(* ===== verification/StandingKeys.v ===== *)
(** * Standing approvals of shell commands

    [toolpacks-coding/src/command_policy.rs], second half: the guard that
    makes a dangerous command ask every time, and the key an approval is
    remembered by.  The file system, the fingerprint of the command's inputs
    and SHA-256 are parameters. *)

From S2P Require Export PolicyLaws Value Utf8.
Local Open Scope nat_scope.

Definition text_of (s : string) : text := chars (lit s).

Record ShellArgs := mkShellArgs { command : text; cwd : option text }.

(** A malformed shape is not a refusal: nothing can be keyed for it. *)
Definition shell_args_of (args : Value) : option ShellArgs :=
  value ← match args with VObj _ => vget args "command" | _ => None end;
  command ← as_str value;
  if bool_decide (command = "") then None
  else match vget args "cwd" with
  | None => Some (mkShellArgs (text_of command) None)
  | Some (VStr cwd) => Some (mkShellArgs (text_of command) (Some (text_of cwd)))
  | Some _ => None
  end.

Definition high_risk_refusal (tool_name : string) : string :=
  "high_risk_command: " +:+ tool_name +:+ " needs a fresh approval".

(** ** JSON text *)

Definition escape_char (ch : char) : text :=
  if (ch =? double_quote)%Z then [backslash; double_quote]
  else if (ch =? backslash)%Z then [backslash; backslash]
  else if (ch =? 8)%Z then backslash :: lit "b"
  else if (ch =? 9)%Z then backslash :: lit "t"
  else if (ch =? 10)%Z then backslash :: lit "n"
  else if (ch =? 12)%Z then backslash :: lit "f"
  else if (ch =? 13)%Z then backslash :: lit "r"
  else if (ch =? 0x2028)%Z then backslash :: lit "u2028"
  else if (ch =? 0x2029)%Z then backslash :: lit "u2029"
  else if (ch <? 0x20)%Z then backslash :: lit "u00" ++ [hex_digit (ch / 16); hex_digit (ch mod 16)]
  else [ch].
Definition json_quote (value : text) : text := [double_quote] ++ concat (map escape_char value) ++ [double_quote].

(** ** The key *)

Definition standing_key_version : string := "4".
Record KeyEnvelope := mkEnvelope {
  ke_fingerprint : text;
  ke_chat_id : text;
  ke_tool : text;
  ke_identity : text;
  ke_root : text;
  ke_cwd : text;
  ke_command : text;
  ke_context : option text
}.
(** A field of the object: its separator, its name, its value. *)
Definition json_field (separator name : string) (value : text) : text :=
  lit separator ++ [double_quote] ++ lit name ++ [double_quote] ++ lit ":" ++ value.
Definition digest_input (e : KeyEnvelope) : text :=
  json_field "{" "v" (lit standing_key_version)
  ++ json_field "," "fingerprint" (json_quote e.(ke_fingerprint))
  ++ json_field "," "chatId" (json_quote e.(ke_chat_id))
  ++ json_field "," "tool" (json_quote e.(ke_tool))
  ++ json_field "," "identity" (json_quote e.(ke_identity))
  ++ json_field "," "root" (json_quote e.(ke_root))
  ++ json_field "," "cwd" (json_quote e.(ke_cwd))
  ++ json_field "," "command" (json_quote e.(ke_command))
  ++ json_field "," "context" (match e.(ke_context) with Some context => json_quote context | None => lit "null" end)
  ++ lit "}".

Record StandingApprovalWorkspace := mkWorkspace {
  sw_root : text;
  sw_identity : text;
  sw_context : option text;
  sw_environment : option (list (text * text))
}.
Record StandingApprovalKey := mkKey { sk_digest : text; sk_label : text }.

(** [String::from_utf16_lossy] of the first code units: half a pair becomes
    the replacement character. *)
Fixpoint take_utf16 (n : nat) (s : text) : text :=
  match n, s with
  | O, _ | _, [] => []
  | S n, c :: s => if (c <? 0x10000)%Z then c :: take_utf16 n s
                   else match n with O => [0xFFFD%Z] | S n => c :: take_utf16 n s end
  end.

(** What the key reads of the world. *)
Class KeyWorld := {
  canonical_root : text → option text;
  resolve_inside_root : text → text → option text;
  canonicalize : text → option text;
  is_dir : text → bool;
  relative : text → text → text;
  process_env : list (text * text);
  command_fingerprint : text → text → text → list (text * text) → option text;
  hex_sha256 : text → text
}.

Section key.
Context {L : Lowercase} {W : KeyWorld}.

(** [HighRiskCommandGuard::can_execute]. *)
Definition high_risk_can_execute (call : ToolCall) : Res string ToolGuardVerdict :=
  if negb (String.eqb call.(tc_namespace) "coding") then mret VerdictAllowed
  else if negb (is_shell_tool call.(tc_name)) then mret VerdictAllowed
  else match call.(tc_arguments) ≫= shell_args_of with
  | None => mret VerdictAllowed
  | Some args =>
      if negb (bool_decide (classify_shell_command args.(command) = HighRisk)) then mret VerdictAllowed
      else mret (VerdictAwaitingHuman (mkAsk (high_risk_refusal call.(tc_name)) None None None))
  end.

(** The envelope of a call, and where in the workspace it runs. *)
Definition key_envelope (namespace : string) (chat_id : option text) (tool : string) (args : ShellArgs)
    (workspace : StandingApprovalWorkspace) : option (KeyEnvelope * text) :=
  if negb (String.eqb namespace "coding") || negb (is_shell_tool tool) then None
  else
    chat_id ← chat_id;
    if negb (bool_decide (classify_shell_command args.(command) = Eligible)) then None
    else
      root ← canonical_root workspace.(sw_root);
      confined ← resolve_inside_root root (default (lit ".") args.(cwd));
      cwd ← canonicalize confined;
      if negb (is_dir cwd) then None
      else
        let inside := relative root cwd in
        if is_text inside ".." || starts inside "../" then None
        else
          let environment := default process_env workspace.(sw_environment) in
          fingerprint ← command_fingerprint root cwd args.(command) environment;
          Some (mkEnvelope fingerprint chat_id (lit tool) workspace.(sw_identity) root cwd args.(command)
                  workspace.(sw_context), inside).
Definition coding_standing_approval_key (namespace : string) (chat_id : option text) (tool : string) (args : ShellArgs)
    (workspace : StandingApprovalWorkspace) : option StandingApprovalKey :=
  envelope ← key_envelope namespace chat_id tool args workspace;
  let '(e, inside) := envelope in
  let label := match inside with
               | [] => args.(command)
               | _ => args.(command) ++ lit " (in " ++ inside ++ lit ")"
               end in
  Some (mkKey (hex_sha256 (digest_input e)) (take_utf16 512 label)).

(** [CodingStandingApproval::key_for]: only a call whose every refusal is the
    ordinary one can be remembered. *)
Definition key_for (call : ToolCall) (chat_id : option text) (resolve : text → option StandingApprovalWorkspace)
    (reasons : list string) : option (text * text) :=
  if negb (String.eqb call.(tc_namespace) "coding") || negb (is_shell_tool call.(tc_name))
     || bool_decide (reasons = []) || negb (forallb (String.prefix "approval_required:") reasons) then None
  else
    args ← call.(tc_arguments) ≫= shell_args_of;
    chat ← chat_id;
    workspace ← resolve chat;
    key ← coding_standing_approval_key call.(tc_namespace) (Some chat) call.(tc_name) args workspace;
    Some (key.(sk_digest), key.(sk_label)).
End key.

(** ** Quoted text reads back *)

Lemma unescape_escape c r : (0 ≤ c)%Z → unescape (escape_char c ++ r) = Some (c, r).
Proof.
  intros Hc. unfold escape_char.
  repeat match goal with
  | |- context [if (?a =? ?b)%Z then _ else _] => destruct (Z.eqb_spec a b) as [->|]; [done|]
  end.
  destruct (Z.ltb_spec c 0x20) as [Hlt|Hge]; [exact (unescape_control c r (conj Hc Hlt))|].
  simpl. unfold backslash in *. destruct (Z.eqb_spec c 92); [by subst|done].
Qed.
Lemma escape_char_head c : ∃ h t, escape_char c = h :: t ∧ h ≠ double_quote.
Proof.
  unfold escape_char. repeat match goal with
  | |- context [if (?a =? ?b)%Z then _ else _] => destruct (Z.eqb_spec a b) as [->|]; [by eexists _, _|]
  end. destruct (c <? 0x20)%Z; by eexists _, _.
Qed.

Definition text_ok (s : text) : Prop := Forall (λ c, 0 ≤ c)%Z s.

Lemma quoted_inj s s' r r' : text_ok s → text_ok s' → json_quote s ++ r = json_quote s' ++ r' → s = s' ∧ r = r'.
Proof. apply quoted_apart; [apply unescape_escape|apply escape_char_head]. Qed.
Lemma field_inj sep name s s' r r' : text_ok s → text_ok s' →
  json_field sep name (json_quote s) ++ r = json_field sep name (json_quote s') ++ r' → s = s' ∧ r = r'.
Proof. intros Hs Hs' E. unfold json_field in E. rewrite <-!app_assoc in E. do 5 apply app_inv_head in E. by apply quoted_inj. Qed.

Record envelope_ok (e : KeyEnvelope) : Prop := {
  eo_fields : Forall text_ok [e.(ke_fingerprint); e.(ke_chat_id); e.(ke_tool); e.(ke_identity); e.(ke_root); e.(ke_cwd); e.(ke_command)];
  eo_context : ∀ context, e.(ke_context) = Some context → text_ok context
}.

(** C40: A standing approval is bound to all it was given for: the text its key
    digests determines the fingerprint of the command's inputs, the chat, the
    tool, the identity of the environment, the root, the directory, the
    command, and the context, quotes and control characters included. *)
Theorem standing_key_binds e e' : envelope_ok e → envelope_ok e' → digest_input e = digest_input e' → e = e'.
Proof.
  intros [Hf Hc] [Hf' Hc'] E. destruct e as [f ch t i r cw co x], e' as [f' ch' t' i' r' cw' co' x'].
  unfold digest_input in E.
  cbn [ke_fingerprint ke_chat_id ke_tool ke_identity ke_root ke_cwd ke_command ke_context] in *. apply app_inv_head in E.
  repeat match type of Hf with Forall _ (_ :: _) => apply Forall_cons in Hf as [? Hf]; apply Forall_cons in Hf' as [? Hf'] end.
  do 7 (apply field_inj in E as [-> E]; [|done|done]).
  destruct x as [x|], x' as [x'|].
  - apply field_inj in E as [-> _]; [done|by apply Hc|by apply Hc'].
  - unfold json_field in E. rewrite <-!app_assoc in E. by do 5 apply app_inv_head in E.
  - unfold json_field in E. rewrite <-!app_assoc in E. by do 5 apply app_inv_head in E.
  - done.
Qed.

Section key.
Context {L : Lowercase} {W : KeyWorld}.

(** No remembered approval covers a dangerous command: whatever the mode
    of the session, a chain of guards that lets the call through carries the
    guard's request for a fresh approval, and no key is made for the call,
    whatever its other refusals. *)
Theorem high_risk_asks_again call args answers asks chat resolve reasons :
  call.(tc_namespace) = "coding" → is_shell_tool call.(tc_name) = true →
  call.(tc_arguments) ≫= shell_args_of = Some args → classify_shell_command args.(command) = HighRisk →
  Answered (high_risk_can_execute call) ∈ answers → guard_chain answers [] = ChainPassed asks →
  (∃ ask, ask ∈ asks ∧ ask.(ask_reason) = high_risk_refusal call.(tc_name)) ∧ key_for call chat resolve reasons = None.
Proof.
  intros Hns Htool Hargs Hrisk Hin Hchain. split.
  - assert (high_risk_can_execute call = Ok (VerdictAwaitingHuman (mkAsk (high_risk_refusal (tc_name call)) None None None))) as E.
    { unfold high_risk_can_execute. by rewrite Hns, Htool, Hargs, Hrisk. }
    destruct (guard_chain_passed _ _ _ Hchain) as [Ha _]. destruct (Ha _ Hin) as [|(ask & Eq & Hask)]; [congruence|].
    exists ask. split; [done|]. rewrite E in Eq. by injection Eq as <-.
  - unfold key_for. destruct (_ || _); [done|]. rewrite Hargs. cbn. destruct chat as [chat|]; [|done]. cbn.
    destruct (resolve chat) as [workspace|]; [|done]. cbn. unfold coding_standing_approval_key, key_envelope.
    rewrite Hrisk. by destruct (negb _ || _).
Qed.
End key.

(** ** A workspace *)

(** Every path is its own canonical form and every input hashes to itself. *)
#[local] Instance plain_world : KeyWorld := {|
  canonical_root := Some;
  resolve_inside_root root cwd := Some (if is_text cwd "." then root else root ++ lit "/" ++ cwd);
  canonicalize := Some;
  is_dir _ := true;
  relative root path := drop (length root + 1) path;
  process_env := [];
  command_fingerprint _ _ command _ := Some command;
  hex_sha256 := id
|}.

Definition shell_call (command : string) : ToolCall :=
  mkCall "coding" "run_command" "process.exec" "write" (Some (VObj [("command", VStr command)])).
Definition demo_workspace : StandingApprovalWorkspace := mkWorkspace (lit "/w") (lit "host") None None.

Example remembered :
  sk_label <$> coding_standing_approval_key "coding" (Some (lit "c")) "run_tests" (mkShellArgs (lit "cargo test") (Some (lit "crates"))) demo_workspace
  = Some (lit "cargo test (in crates)").
Proof. by vm_compute. Qed.

Lemma high_risk_asks_again_witness : let call := shell_call "git push" in
  (∃ ask, ask ∈ [mkAsk (high_risk_refusal "run_command") None None None] ∧ ask.(ask_reason) = high_risk_refusal "run_command")
  ∧ key_for call (Some (lit "c")) (λ _, Some demo_workspace) ["approval_required: run_command"] = None.
Proof.
  apply (high_risk_asks_again (shell_call "git push") (mkShellArgs (lit "git push") None)
           [Answered (Ok VerdictAllowed); Answered (high_risk_can_execute (shell_call "git push"))]); try by vm_compute.
  right. left.
Defined.
Lemma standing_key_binds_witness : let e := mkEnvelope (lit "f") (lit "c") (lit "run_tests") [double_quote] (lit "/w") (lit "/w") (lit "jest") None in
  digest_input e = digest_input e ∧ e = e.
Proof.
  intros e. split; [done|]. assert (envelope_ok e) as Ho.
  { split; [|done]. unfold e. simpl. repeat (constructor; [repeat (constructor; [by vm_compute|]); constructor|]). constructor. }
  by apply (standing_key_binds e e).
Defined.
