(* ===== verification/Timestamp.v ===== *)
(** * Conversation timestamps

    [store/src/timestamp.rs] (epoch milliseconds to ISO-8601 text) and the
    reader of [store/src/agent_inputs.rs] ([parse_iso_millis]).  The calendar
    conversions are proved inverse on every day, and reading back a written
    timestamp is proved to give the same instant. *)


From Stdlib Require String.
From S2P Require Import Prelude.
Local Open Scope Z_scope.

(** ** Calendar *)

(** [civil_date]: days since the epoch to year, month, day.  [/] on [i64]
    truncates ([Z.quot]); [div_euclid] by a positive constant is [Z.div]. *)
Definition civil_date (days : Z) : Z * Z * Z :=
  let shifted := days + 719468 in
  let era := shifted / 146097 in
  let day_of_era := shifted - era * 146097 in
  let year_of_era :=
    (day_of_era - day_of_era ÷ 1460 + day_of_era ÷ 36524 - day_of_era ÷ 146096) ÷ 365 in
  let year := year_of_era + era * 400 in
  let day_of_year := day_of_era - (365 * year_of_era + year_of_era ÷ 4 - year_of_era ÷ 100) in
  let march_month := (5 * day_of_year + 2) ÷ 153 in
  let day := day_of_year - (153 * march_month + 2) ÷ 5 + 1 in
  let month := march_month + (if march_month <? 10 then 3 else -9) in
  (year + (if month <=? 2 then 1 else 0), month, day).

(** [days_from_civil], the inverse used by the reader. *)
Definition days_from_civil (year month day : Z) : Z :=
  let year := year - (if month <=? 2 then 1 else 0) in
  let era := (if 0 <=? year then year else year - 399) ÷ 400 in
  let year_of_era := year - era * 400 in
  let day_of_year := (153 * (month + (if 2 <? month then -3 else 9)) + 2) ÷ 5 + day - 1 in
  let day_of_era := year_of_era * 365 + year_of_era ÷ 4 - year_of_era ÷ 100 + day_of_year in
  era * 146097 + day_of_era - 719468.

(** ** Writing *)

Definition digit_char (d : Z) : ascii := ascii_of_nat (Z.to_nat (48 + d)).

(** The last [w] decimal digits of [n]. *)
Fixpoint fixed (w : nat) (n : Z) : list ascii :=
  match w with
  | O => []
  | S w => fixed w (n / 10) ++ [digit_char (n mod 10)]
  end.

(** How many decimal digits [n >= 0] has ([20] covers [u64]). *)
Fixpoint ndigits (fuel : nat) (n : Z) : nat :=
  match fuel with
  | O => 1
  | S fuel => if n <? 10 then 1 else S (ndigits fuel (n / 10))
  end.

(** [format!("{n:0w$}")] for [n >= 0]. *)
Definition padded (w : nat) (n : Z) : list ascii := fixed (Nat.max w (ndigits 20 n)) n.

Definition validate_epoch (milliseconds : Z) : bool :=
  in_range (-8640000000000000) 8640000000000000 milliseconds.

Definition epoch_chars (milliseconds : Z) : list ascii :=
  let '(year, month, day) := civil_date (milliseconds / 86400000) in
  let remainder := milliseconds mod 86400000 in
  let year := if in_range 0 9999 year then padded 4 year
              else (if year <? 0 then ["-"%char] else ["+"%char]) ++ padded 6 (Z.abs year) in
  year ++ ["-"%char] ++ padded 2 month ++ ["-"%char] ++ padded 2 day ++ ["T"%char]
    ++ padded 2 (remainder ÷ 3600000) ++ [":"%char]
    ++ padded 2 (Z.rem (remainder ÷ 60000) 60) ++ [":"%char]
    ++ padded 2 (Z.rem (remainder ÷ 1000) 60) ++ ["."%char]
    ++ padded 3 (Z.rem remainder 1000) ++ ["Z"%char].

Definition epoch_text (milliseconds : Z) : string :=
  String.string_of_list_ascii (epoch_chars milliseconds).

Inductive ConversationTimestamp :=
  | EpochMillis (milliseconds : Z)
  | Text (text : string).

(** [None] is [TimestampOutOfRange]. *)
Definition from_epoch_millis (milliseconds : Z) : option ConversationTimestamp :=
  if validate_epoch milliseconds then Some (EpochMillis milliseconds) else None.

Definition wire_text (t : ConversationTimestamp) : option string :=
  match t with
  | EpochMillis ms => if validate_epoch ms then Some (epoch_text ms) else None
  | Text s => Some s
  end.

Definition epoch_millis (t : ConversationTimestamp) : option Z :=
  match t with EpochMillis ms => Some ms | Text _ => None end.

(** ** Reading *)

Definition is_ascii_digit (c : ascii) : bool :=
  in_range 48 57 (Z.of_nat (nat_of_ascii c)).

(** The value of a run of ASCII digits, [None] on an empty run or another
    byte. *)
Definition digits_value (l : list ascii) : option Z :=
  if negb (Nat.eqb (length l) 0) && forallb is_ascii_digit l
  then Some (foldl (λ acc c, acc * 10 + (Z.of_nat (nat_of_ascii c) - 48)) 0 l)
  else None.

(** The two closures of [parse_iso_millis]. *)
Definition take_digits (bytes : list ascii) (pos len : nat) : option (Z * nat) :=
  if (pos + len <=? length bytes)%nat
  then n ← digits_value (take len (drop pos bytes)); Some (n, (pos + len)%nat)
  else None.
Definition take_char (bytes : list ascii) (pos : nat) (ch : ascii) : option nat :=
  if bool_decide (bytes !! pos = Some ch) then Some (S pos) else None.

Fixpoint digit_run (l : list ascii) : nat :=
  match l with c :: l => if is_ascii_digit c then S (digit_run l) else 0 | [] => 0 end.

(** [Date.parse] parity: hour 24 only as exactly 24:00:00.000. *)
Definition valid_ranges (month day hour minute second fraction : Z) : bool :=
  in_range 1 12 month && in_range 1 31 day && (minute <=? 59) && (second <=? 59)
  && ((hour <=? 23)
      || ((hour =? 24) && (minute =? 0) && (second =? 0) && (fraction =? 0))).

(** The optional fraction: its milliseconds and the position after it. *)
Definition parse_fraction (bytes : list ascii) (p2 : nat) : option (Z * nat) :=
  match take_char bytes p2 "."%char with
  | None => Some (0, p2)
  | Some p3 =>
      let run := digit_run (drop p3 bytes) in
      if Nat.eqb run 0 then None
      else
        '(value, _) ← take_digits bytes p3 (Nat.min run 3);
        Some (match Nat.min run 3 with
              | 1%nat => value * 100
              | 2%nat => value * 10
              | _ => value
              end, (p3 + run)%nat)
  end.

Definition instant (year month day hour minute second fraction : Z) : Z :=
  days_from_civil year month day * 86400000 + hour * 3600000 + minute * 60000
    + second * 1000 + fraction.

Definition parse_time (bytes : list ascii) (year month day : Z) (p2 : nat) : option Z :=
  '(hour, p2) ← take_digits bytes p2 2;
  p2 ← take_char bytes p2 ":"%char;
  '(minute, p2) ← take_digits bytes p2 2;
  p2 ← take_char bytes p2 ":"%char;
  '(second, p2) ← take_digits bytes p2 2;
  '(fraction, p2) ← parse_fraction bytes p2;
  if negb (valid_ranges month day hour minute second fraction) then None
  else
    match bytes !! p2 with
    | None => Some (instant year month day hour minute second fraction)
    | Some c =>
        if (bool_decide (c = "Z"%char) || bool_decide (c = "z"%char))
           && Nat.eqb (S p2) (length bytes)
        then Some (instant year month day hour minute second fraction)
        else if bool_decide (c = "+"%char) || bool_decide (c = "-"%char)
        then
          '(oh, q) ← take_digits bytes (S p2) 2;
          q ← take_char bytes q ":"%char;
          '(om, q) ← take_digits bytes q 2;
          if negb (Nat.eqb q (length bytes)) || (23 <? oh) || (59 <? om) then None
          else Some (instant year month day hour minute second fraction
                     - (if bool_decide (c = "+"%char) then 1 else -1)
                       * (oh * 3600000 + om * 60000))
        else None
    end.

Definition parse_iso_millis (value : string) : option Z :=
  let bytes := String.list_ascii_of_string value in
  '(year, p) ← (if bool_decide (head bytes = Some "+"%char)
                then take_digits bytes 1 6 else take_digits bytes 0 4);
  p ← take_char bytes p "-"%char;
  '(month, p) ← take_digits bytes p 2;
  p ← take_char bytes p "-"%char;
  '(day, p) ← take_digits bytes p 2;
  match take_char bytes p "T"%char with
  | Some p2 => parse_time bytes year month day p2
  | None =>
      if negb (Nat.eqb p (length bytes)) then None
      else if negb (valid_ranges month day 0 0 0 0) then None
      else Some (instant year month day 0 0 0 0)
  end.

(** ** The Gregorian calendar, as a reference *)

Definition leap (y : Z) : bool :=
  (y mod 4 =? 0) && (negb (y mod 100 =? 0) || (y mod 400 =? 0)).

Definition days_in_month (y m : Z) : Z :=
  if m =? 2 then (if leap y then 29 else 28)
  else if (m =? 4) || (m =? 6) || (m =? 9) || (m =? 11) then 30 else 31.

Definition valid_date (y m d : Z) : Prop :=
  1 ≤ m ≤ 12 ∧ 1 ≤ d ≤ days_in_month y m.

Definition next_day (date : Z * Z * Z) : Z * Z * Z :=
  let '(y, m, d) := date in
  if d <? days_in_month y m then (y, m, d + 1)
  else if m <? 12 then (y, m + 1, 1) else (y + 1, 1, 1).

(** Truncated division agrees with flooring division on the non-negative
    operands of the calendar code. *)
Ltac quot_to_div :=
  repeat match goal with
  | |- context [?a ÷ ?b] => rewrite (Z.quot_div_nonneg a b) by (Z.div_mod_to_equations; lia)
  end.

Lemma year_of_era_spec yoe doy :
  0 ≤ yoe ≤ 399 → 0 ≤ doy ≤ 364 ∨ (doy = 365 ∧ (yoe mod 4 = 3) ∧ (yoe mod 100 ≠ 99 ∨ yoe = 399)) →
  let doe := yoe * 365 + yoe / 4 - yoe / 100 + doy in
  (doe - doe / 1460 + doe / 36524 - doe / 146096) / 365 = yoe.
Proof. intros Hy Hd doe. subst doe. Z.div_mod_to_equations; lia. Qed.

(** The March-based decomposition of a date: year of the era, day of the
    year counted from the first of March. *)
Definition march_doy (m d : Z) : Z := (153 * (m + (if 2 <? m then -3 else 9)) + 2) / 5 + d - 1.
Definition march_year (y m : Z) : Z := y - (if m <=? 2 then 1 else 0).

Lemma days_from_civil_march y m d :
  1 ≤ m ≤ 12 →
  days_from_civil y m d =
    let y' := march_year y m in
    let yoe := y' mod 400 in
    (y' / 400) * 146097 + (yoe * 365 + yoe / 4 - yoe / 100 + march_doy m d) - 719468.
Proof.
  intros Hm. unfold days_from_civil, march_doy. fold (march_year y m).
  set (y' := march_year y m).
  assert (Hera : (if 0 <=? y' then y' else y' - 399) ÷ 400 = y' / 400).
  { destruct (Z.leb_spec 0 y').
    - by rewrite Z.quot_div_nonneg by lia.
    - replace (y' - 399) with (- (399 - y')) by lia.
      rewrite Z.quot_opp_l, Z.quot_div_nonneg by lia. Z.div_mod_to_equations; lia. }
  rewrite Hera. replace (y' - y' / 400 * 400) with (y' mod 400) by (Z.div_mod_to_equations; lia).
  cbv zeta.
  assert (0 ≤ y' mod 400 < 400) by (apply Z.mod_pos_bound; lia).
  rewrite (Z.quot_div_nonneg (y' mod 400)), (Z.quot_div_nonneg (y' mod 400)) by lia.
  rewrite (Z.quot_div_nonneg _ 5) by (destruct (Z.ltb_spec 2 m); lia). lia.
Qed.

Lemma civil_date_march y yoe doy :
  let doe := yoe * 365 + yoe / 4 - yoe / 100 + doy in
  0 ≤ yoe ≤ 399 →
  0 ≤ doy ≤ 364 ∨ (doy = 365 ∧ (yoe mod 4 = 3) ∧ (yoe mod 100 ≠ 99 ∨ yoe = 399)) →
  civil_date (y * 146097 + doe - 719468) =
    let mp := (5 * doy + 2) / 153 in
    let month := mp + (if mp <? 10 then 3 else -9) in
    (yoe + y * 400 + (if month <=? 2 then 1 else 0), month, doy - (153 * mp + 2) / 5 + 1).
Proof.
  intros doe Hy Hd. unfold civil_date.
  replace (y * 146097 + doe - 719468 + 719468) with (doe + y * 146097) by lia.
  assert (Hdoe : 0 ≤ doe < 146097) by (subst doe; Z.div_mod_to_equations; lia).
  rewrite Z.div_add, (Z.div_small doe) by lia.
  replace (doe + y * 146097 - (0 + y) * 146097) with doe by lia.
  rewrite !(Z.quot_div_nonneg doe) by lia.
  rewrite (Z.quot_div_nonneg (_ - _) 365) by (Z.div_mod_to_equations; lia).
  pose proof (year_of_era_spec yoe doy Hy Hd) as Hyoe. cbv zeta in Hyoe. fold doe in Hyoe.
  rewrite Hyoe. rewrite (Z.quot_div_nonneg yoe 4), (Z.quot_div_nonneg yoe 100) by lia.
  replace (doe - (365 * yoe + yoe / 4 - yoe / 100)) with doy by (subst doe; lia).
  rewrite (Z.quot_div_nonneg _ 153) by lia.
  rewrite (Z.quot_div_nonneg _ 5) by (Z.div_mod_to_equations; lia).
  by rewrite Z.add_0_l.
Qed.

Lemma march_doy_range y m d :
  valid_date y m d →
  let doy := march_doy m d in
  let yoe := march_year y m mod 400 in
  0 ≤ doy ≤ 364 ∨ (doy = 365 ∧ (yoe mod 4 = 3) ∧ (yoe mod 100 ≠ 99 ∨ yoe = 399)).
Proof.
  unfold valid_date, days_in_month, march_doy, march_year, leap. intros [Hm Hd].
  assert (m = 1 ∨ m = 2 ∨ m = 3 ∨ m = 4 ∨ m = 5 ∨ m = 6 ∨ m = 7 ∨ m = 8 ∨ m = 9 ∨ m = 10
    ∨ m = 11 ∨ m = 12) as Hc by lia.
  (repeat destruct Hc as [->|Hc]; try subst m; simpl in *; try (Z.div_mod_to_equations; lia)).
  destruct (y mod 4 =? 0) eqn:E4; simpl in Hd; [|left; Z.div_mod_to_equations; lia].
  destruct (y mod 100 =? 0) eqn:E100; simpl in Hd.
  - destruct (y mod 400 =? 0) eqn:E400; simpl in Hd; reflect_bools; Z.div_mod_to_equations; lia.
  - reflect_bools.  Z.div_mod_to_equations; lia.
Qed.

Lemma days_in_month_le y m : days_in_month y m ≤ 31.
Proof. unfold days_in_month. destruct (m =? 2), (leap y); try lia; repeat case_match; lia. Qed.

Lemma march_month_spec y m d :
  valid_date y m d → (5 * march_doy m d + 2) / 153 = m + (if 2 <? m then -3 else 9).
Proof.
  unfold valid_date, march_doy, days_in_month. intros [Hm Hd].
  assert (m = 1 ∨ m = 2 ∨ m = 3 ∨ m = 4 ∨ m = 5 ∨ m = 6 ∨ m = 7 ∨ m = 8 ∨ m = 9 ∨ m = 10
    ∨ m = 11 ∨ m = 12) as Hc by lia.
  repeat destruct Hc as [->|Hc]; try subst m; simpl in *;
    try (destruct (leap y)); Z.div_mod_to_equations; lia.
Qed.

Lemma civil_of_days y m d :
  valid_date y m d → civil_date (days_from_civil y m d) = (y, m, d).
Proof.
  intros Hv. pose proof (march_doy_range y m d Hv) as Hdoy.
  pose proof (march_month_spec y m d Hv) as Hmp. destruct Hv as [Hm Hd].
  rewrite days_from_civil_march by done. cbv zeta in *.
  assert (0 ≤ march_year y m mod 400 < 400) by (apply Z.mod_pos_bound; lia).
  rewrite civil_date_march by (done || lia). cbv zeta. rewrite Hmp.
  assert (march_year y m = march_year y m mod 400 + march_year y m / 400 * 400) as <-
    by (Z.div_mod_to_equations; lia).
  unfold march_doy, march_year.
  destruct (Z.ltb_spec 2 m), (Z.leb_spec m 2); try lia.
  - replace (m + -3 <? 10) with true by (symmetry; apply Z.ltb_lt; lia).
    replace (m + -3 + 3 <=? 2) with false by (symmetry; apply Z.leb_gt; lia).
    f_equal; [f_equal|]; lia.
  - replace (m + 9 <? 10) with false by (symmetry; apply Z.ltb_ge; lia).
    replace (m + 9 + -9 <=? 2) with true by (symmetry; apply Z.leb_le; lia).
    f_equal; [f_equal|]; lia.
Qed.

Lemma next_day_spec y m d :
  valid_date y m d →
  let '(y', m', d') := next_day (y, m, d) in
  valid_date y' m' d' ∧ days_from_civil y' m' d' = days_from_civil y m d + 1.
Proof.
  intros Hv. unfold next_day. pose proof (march_doy_range y m d Hv) as Hdoy. cbv zeta in Hdoy.
  destruct Hv as [Hm Hd].
  assert (∀ y m, 28 ≤ days_in_month y m) as H28.
  { intros y1 m1. unfold days_in_month. repeat case_match; lia. }
  destruct (Z.ltb_spec d (days_in_month y m)).
  { split; [split; lia|]. rewrite !days_from_civil_march by lia. unfold march_doy. cbv zeta. ring. }
  assert (d = days_in_month y m) as -> by lia.
  destruct (Z.ltb_spec m 12).
  - split; [split; [lia|]; specialize (H28 y (m + 1)); lia|].
    rewrite !days_from_civil_march by lia. cbv zeta.
    unfold days_in_month, march_doy, march_year, leap in *.
    assert (m = 1 ∨ m = 2 ∨ m = 3 ∨ m = 4 ∨ m = 5 ∨ m = 6 ∨ m = 7 ∨ m = 8 ∨ m = 9 ∨ m = 10
      ∨ m = 11) as Hc by lia.
    repeat destruct Hc as [->|Hc]; try subst m; simpl in *; try (Z.div_mod_to_equations; lia).
    destruct (y mod 4 =? 0) eqn:E4, (y mod 100 =? 0) eqn:E100, (y mod 400 =? 0) eqn:E400;
      simpl in *; reflect_bools; Z.div_mod_to_equations; lia.
  - assert (m = 12) as -> by lia. split; [split; [lia|]; specialize (H28 (y + 1) 1); lia|].
    rewrite !days_from_civil_march by lia. unfold march_doy, march_year, days_in_month. simpl.
    replace (y + 1 - 1) with (y - 0) by lia. clear.
    generalize (y - 0); intros y'. change ((153 * (12 + -3) + 2) / 5) with 275.
    change ((153 * (1 + 9) + 2) / 5) with 306. ring.
Qed.

Lemma leap_period y k : leap (y + k * 400) = leap y.
Proof.
  unfold leap. replace (y + k * 400) with (y + (k * 4) * 100) at 2 by lia.
  replace (y + k * 400) with (y + (k * 100) * 4) at 1 by lia. by rewrite !Z.mod_add by lia.
Qed.

Lemma valid_date_period y m d k : valid_date y m d → valid_date (y + k * 400) m d.
Proof. unfold valid_date, days_in_month. by rewrite leap_period. Qed.

Lemma days_from_civil_period y m d k :
  1 ≤ m ≤ 12 → days_from_civil (y + k * 400) m d = days_from_civil y m d + k * 146097.
Proof.
  intros Hm. rewrite !days_from_civil_march by done.
  replace (march_year (y + k * 400) m) with (march_year y m + k * 400) by (unfold march_year; lia).
  cbv zeta. rewrite Z.mod_add, Z.div_add by lia. ring.
Qed.

Lemma days_from_civil_surj n : ∃ y m d, valid_date y m d ∧ days_from_civil y m d = n.
Proof.
  assert (∀ k : nat, ∃ y m d, valid_date y m d ∧ days_from_civil y m d = -719468 + Z.of_nat k) as Hpos.
  { induction k as [|k (y & m & d & Hv & IH)]; [by exists 0, 3, 1|].
    pose proof (next_day_spec y m d Hv) as Hn. destruct (next_day _) as [[y' m'] d'].
    destruct Hn as [Hv' Hd]. exists y', m', d'. split; [done|]. lia. }
  set (k := Z.abs n).
  destruct (Hpos (Z.to_nat (n + 719468 + k * 146097))) as (y & m & d & Hv & Hd).
  exists (y + (-k) * 400), m, d. split; [by apply valid_date_period|].
  rewrite days_from_civil_period by apply Hv. rewrite Hd. subst k. lia.
Qed.

Lemma days_of_civil n :
  let '(y, m, d) := civil_date n in valid_date y m d ∧ days_from_civil y m d = n.
Proof.
  destruct (days_from_civil_surj n) as (y & m & d & Hv & Hd).
  rewrite <-Hd, civil_of_days by done. done.
Qed.

(** The day number of every date, before and after the epoch, is the
    Gregorian calendar's: day 0 is 1970-01-01, the next day number is the next
    calendar date (months, leap years and centuries included), every result is
    a valid date, and [days_from_civil] is its inverse. *)
Theorem civil_date_gregorian :
  civil_date 0 = (1970, 1, 1) ∧
  ∀ n, civil_date (n + 1) = next_day (civil_date n) ∧
       let '(y, m, d) := civil_date n in valid_date y m d ∧ days_from_civil y m d = n.
Proof.
  split; [reflexivity|]. intros n. split; [|apply days_of_civil].
  pose proof (days_of_civil n) as Hn. destruct (civil_date n) as [[y m] d].
  destruct Hn as [Hv Hd]. pose proof (next_day_spec y m d Hv) as Hs.
  destruct (next_day (y, m, d)) as [[y' m'] d']. destruct Hs as [Hv' Hd'].
  by rewrite <-Hd, <-Hd', civil_of_days.
Qed.

(** ** Reading back what was written *)

Lemma fixed_length w n : length (fixed w n) = w.
Proof.
  revert n. induction w as [|w IH]; intros n; simpl; [done|].
  rewrite length_app, IH. simpl. lia.
Qed.

Lemma digit_char_value d :
  0 ≤ d ≤ 9 → Z.of_nat (nat_of_ascii (digit_char d)) = 48 + d.
Proof. intros Hd. unfold digit_char. rewrite nat_ascii_embedding by lia. lia. Qed.

Lemma fixed_digits w n : forallb is_ascii_digit (fixed w n) = true.
Proof.
  revert n. induction w as [|w IH]; intros n; simpl; [done|].
  rewrite forallb_app, IH. simpl. unfold is_ascii_digit.
  rewrite digit_char_value by (Z.div_mod_to_equations; lia).
  rewrite andb_true_r. apply in_range_spec. Z.div_mod_to_equations; lia.
Qed.

Lemma fixed_fold w n acc :
  0 ≤ n < 10 ^ Z.of_nat w →
  foldl (λ acc c, acc * 10 + (Z.of_nat (nat_of_ascii c) - 48)) acc (fixed w n)
    = acc * 10 ^ Z.of_nat w + n.
Proof.
  revert n acc. induction w as [|w IH]; intros n acc Hn; simpl fixed.
  - simpl in *. lia.
  - rewrite Nat2Z.inj_succ, Z.pow_succ_r in * by lia.
    rewrite foldl_app, IH by (Z.div_mod_to_equations; lia). simpl.
    rewrite digit_char_value by (Z.div_mod_to_equations; lia).
    rewrite (Z.div_mod n 10) at 3 by lia. ring.
Qed.

Lemma digits_value_fixed w n :
  (0 < w)%nat → 0 ≤ n < 10 ^ Z.of_nat w → digits_value (fixed w n) = Some n.
Proof.
  intros Hw Hn. unfold digits_value. rewrite fixed_length, fixed_digits, fixed_fold by done.
  destruct w; [lia|]. simpl. f_equal; lia.
Qed.

Lemma ndigits_le fuel w n :
  (0 < w)%nat → 0 ≤ n < 10 ^ Z.of_nat w → (ndigits fuel n ≤ w)%nat.
Proof.
  revert w n. induction fuel as [|fuel IH]; intros w n Hw Hn; simpl; [lia|].
  destruct (Z.ltb_spec n 10); [lia|].
  destruct w as [|w]; [lia|]. destruct w as [|w].
  { change (10 ^ Z.of_nat 1) with 10 in Hn. lia. }
  rewrite Nat2Z.inj_succ, Z.pow_succ_r in Hn by lia.
  apply le_n_S, IH; [lia|]. Z.div_mod_to_equations; lia.
Qed.

Lemma padded_fixed w n :
  (0 < w)%nat → 0 ≤ n < 10 ^ Z.of_nat w → padded w n = fixed w n.
Proof.
  intros Hw Hn. unfold padded. by rewrite Nat.max_l by (by apply ndigits_le).
Qed.

Lemma drop_add_app {A} (bytes l rest : list A) pos :
  drop pos bytes = l ++ rest → drop (pos + length l) bytes = rest.
Proof. intros H. rewrite <-drop_drop, H. apply drop_app_length. Qed.

Lemma take_digits_fixed bytes pos w n rest :
  drop pos bytes = fixed w n ++ rest → (0 < w)%nat → 0 ≤ n < 10 ^ Z.of_nat w →
  take_digits bytes pos w = Some (n, (pos + w)%nat) ∧ drop (pos + w) bytes = rest.
Proof.
  intros Hd Hw Hn. split.
  - unfold take_digits. assert (length (drop pos bytes) = length (fixed w n ++ rest)) as Hl by congruence.
    rewrite length_drop, length_app, fixed_length in Hl.
    replace (pos + w <=? length bytes)%nat with true by (symmetry; apply Nat.leb_le; lia).
    rewrite Hd. rewrite <-(fixed_length w n) at 1. rewrite take_app_length.
    by rewrite digits_value_fixed.
  - rewrite <-(fixed_length w n) at 1. by apply drop_add_app.
Qed.

Lemma take_char_cons bytes pos c rest :
  drop pos bytes = c :: rest →
  take_char bytes pos c = Some (S pos) ∧ drop (S pos) bytes = rest.
Proof.
  intros Hd. split.
  - unfold take_char. rewrite bool_decide_true; [done|].
    rewrite <-(Nat.add_0_r pos), <-lookup_drop, Hd. done.
  - rewrite <-(Nat.add_1_r pos). by apply (drop_add_app bytes [c]).
Qed.

Lemma digit_run_app l rest :
  forallb is_ascii_digit l = true →
  (∀ c, head rest = Some c → is_ascii_digit c = false) →
  digit_run (l ++ rest) = length l.
Proof.
  intros Hl Hr. induction l as [|c l IH]; simpl in *.
  - destruct rest as [|c rest]; simpl; [done|]. by rewrite Hr.
  - apply andb_true_iff in Hl as [-> Hl]. by rewrite IH.
Qed.

Lemma digit_run_fixed w n rest :
  (∀ c, head rest = Some c → is_ascii_digit c = false) →
  digit_run (fixed w n ++ rest) = w.
Proof. intros Hr. by rewrite digit_run_app, fixed_length by auto using fixed_digits. Qed.

(** Reduce the [option] binds of the reader, and nothing else. *)
Ltac obind := cbn beta iota delta [mbind option_bind].

(** A clock reading [h:m:s.f Z] after the date. *)
Lemma parse_time_written bytes year month day pos h m s f :
  drop pos bytes = fixed 2 h ++ ":"%char :: fixed 2 m ++ ":"%char :: fixed 2 s
                   ++ "."%char :: fixed 3 f ++ ["Z"%char] →
  0 ≤ h ≤ 23 → 0 ≤ m ≤ 59 → 0 ≤ s ≤ 59 → 0 ≤ f ≤ 999 →
  1 ≤ month ≤ 12 → 1 ≤ day ≤ 31 →
  parse_time bytes year month day pos = Some (instant year month day h m s f).
Proof.
  intros Hd Hh Hm Hs Hf Hmo Hda. unfold parse_time.
  assert (10 ^ Z.of_nat 2 = 100) as H2 by reflexivity.
  assert (10 ^ Z.of_nat 3 = 1000) as H3 by reflexivity.
  eapply take_digits_fixed in Hd as [-> Hd]; [|lia..]. obind.
  apply take_char_cons in Hd as [-> Hd]. obind.
  eapply take_digits_fixed in Hd as [-> Hd]; [|lia..]. obind.
  apply take_char_cons in Hd as [-> Hd]. obind.
  eapply take_digits_fixed in Hd as [-> Hd]; [|lia..]. obind.
  unfold parse_fraction.
  apply take_char_cons in Hd as [-> Hd]. rewrite Hd, digit_run_fixed by (by intros ? [= <-]).
  simpl (Nat.eqb _ _). simpl (Nat.min _ _). eapply take_digits_fixed in Hd as [-> Hd]; [|lia..]. obind.
  replace (valid_ranges month day h m s f) with true.
  2:{ symmetry. unfold valid_ranges. rewrite !andb_true_iff, !in_range_spec, orb_true_iff, !Z.leb_le. lia. }
  match type of Hd with drop ?p _ = _ => set (q := p) in * end.
  assert (length bytes = S q) as ->.
  { assert (length (drop q bytes) = 1%nat) as Hlen by (by rewrite Hd).
    rewrite length_drop in Hlen. lia. }
  simpl negb. cbv iota. rewrite <-(Nat.add_0_r q), <-lookup_drop, Hd, Nat.add_0_r.
  simpl. by rewrite Nat.eqb_refl.
Qed.

Lemma civil_year_bounds ms y m d :
  validate_epoch ms = true → civil_date (ms / 86400000) = (y, m, d) → -999999 ≤ y ≤ 999999.
Proof.
  unfold validate_epoch. rewrite in_range_spec. intros Hms Hc.
  pose proof (days_of_civil (ms / 86400000)) as Hv. rewrite Hc in Hv.
  destruct Hv as [[Hm Hd] Hdays]. rewrite days_from_civil_march in Hdays by done.
  pose proof (days_in_month_le y m). unfold march_year, march_doy in Hdays. cbv zeta in Hdays.
  assert (-100000000 ≤ ms / 86400000 ≤ 100000000) by (Z.div_mod_to_equations; lia).
  destruct (m <=? 2), (2 <? m); Z.div_mod_to_equations; lia.
Qed.

Lemma instant_split ms :
  let r := ms mod 86400000 in
  let '(y, mo, d) := civil_date (ms / 86400000) in
  instant y mo d (r / 3600000) ((r / 60000) mod 60) ((r / 1000) mod 60) (r mod 1000) = ms.
Proof.
  pose proof (days_of_civil (ms / 86400000)) as Hv. cbv zeta.
  destruct (civil_date _) as [[y mo] d]. destruct Hv as [_ Hd]. unfold instant. rewrite Hd.
  clear. Z.div_mod_to_equations; lia.
Qed.

(** Everything [epoch_chars] writes after the year. *)
Definition after_year (month day r : Z) : list ascii :=
  "-"%char :: fixed 2 month ++ "-"%char :: fixed 2 day ++ "T"%char ::
    fixed 2 (r / 3600000) ++ ":"%char :: fixed 2 ((r / 60000) mod 60) ++ ":"%char ::
    fixed 2 ((r / 1000) mod 60) ++ "."%char :: fixed 3 (r mod 1000) ++ ["Z"%char].

Lemma epoch_chars_layout ms y mo d :
  validate_epoch ms = true → civil_date (ms / 86400000) = (y, mo, d) →
  epoch_chars ms =
    (if in_range 0 9999 y then fixed 4 y
     else (if y <? 0 then ["-"%char] else ["+"%char]) ++ fixed 6 (Z.abs y))
    ++ after_year mo d (ms mod 86400000).
Proof.
  intros Hms Hc. pose proof (civil_year_bounds _ _ _ _ Hms Hc) as Hy.
  pose proof (days_of_civil (ms / 86400000)) as Hv. rewrite Hc in Hv.
  destruct Hv as [[Hmo Hd] _]. pose proof (days_in_month_le y mo).
  unfold epoch_chars. rewrite Hc. set (r := ms mod 86400000).
  assert (0 ≤ r < 86400000) by (apply Z.mod_pos_bound; lia).
  assert (10 ^ Z.of_nat 2 = 100) as H2 by reflexivity.
  assert (10 ^ Z.of_nat 3 = 1000) as H3 by reflexivity.
  assert (10 ^ Z.of_nat 4 = 10000) as H4 by reflexivity.
  assert (10 ^ Z.of_nat 6 = 1000000) as H6 by reflexivity.
  rewrite !(Z.quot_div_nonneg r) by lia.
  rewrite !Z.rem_mod_nonneg by (Z.div_mod_to_equations; lia).
  rewrite !(padded_fixed 2), (padded_fixed 3), (padded_fixed 6) by (Z.div_mod_to_equations; lia).
  destruct (in_range 0 9999 y) eqn:Er; [|done].
  apply in_range_spec in Er. by rewrite padded_fixed by lia.
Qed.

(** The reader after the year, on what the writer put there. *)
Lemma parse_after_year bytes y mo d r pos :
  drop pos bytes = after_year mo d r →
  1 ≤ mo ≤ 12 → 1 ≤ d ≤ 31 → 0 ≤ r < 86400000 →
  (p ← take_char bytes pos "-"%char;
   '(month, p) ← take_digits bytes p 2;
   p ← take_char bytes p "-"%char;
   '(day, p) ← take_digits bytes p 2;
   match take_char bytes p "T"%char with
   | Some p2 => parse_time bytes y month day p2
   | None => if negb (Nat.eqb p (length bytes)) then None
             else if negb (valid_ranges month day 0 0 0 0) then None
             else Some (instant y month day 0 0 0 0)
   end) = Some (instant y mo d (r / 3600000) ((r / 60000) mod 60) ((r / 1000) mod 60) (r mod 1000)).
Proof.
  intros Hdrop Hmo Hd Hr. assert (10 ^ Z.of_nat 2 = 100) as H2 by reflexivity.
  apply take_char_cons in Hdrop as [-> Hdrop]. obind.
  eapply take_digits_fixed in Hdrop as [-> Hdrop]; [|lia..]. obind.
  apply take_char_cons in Hdrop as [-> Hdrop]. obind.
  eapply take_digits_fixed in Hdrop as [-> Hdrop]; [|lia..]. obind.
  apply take_char_cons in Hdrop as [-> Hdrop].
  apply parse_time_written; [done|Z.div_mod_to_equations; lia..].
Qed.

(** A digit is not the plus sign that opens an extended year. *)
Lemma fixed_head_not_plus w n : head (fixed (S w) n) ≠ Some "+"%char.
Proof.
  intros Hh. pose proof (fixed_digits (S w) n) as Hd.
  destruct (fixed (S w) n); [done|]. injection Hh as ->. done.
Qed.

(** C27: A written timestamp reads back as the same instant: for every instant of
    the JavaScript [Date] range [parse_iso_millis] inverts [epoch_text],
    except that the negative extended years [epoch_text] can write are the
    ones the reader refuses. *)
Theorem parse_iso_millis_epoch_text ms :
  validate_epoch ms = true →
  parse_iso_millis (epoch_text ms) =
    if (civil_date (ms / 86400000)).1.1 <? 0 then None else Some ms.
Proof.
  intros Hms. unfold parse_iso_millis, epoch_text.
  rewrite String.list_ascii_of_string_of_list_ascii.
  pose proof (instant_split ms) as Hinst. pose proof (days_of_civil (ms / 86400000)) as Hv.
  destruct (civil_date (ms / 86400000)) as [[y mo] d] eqn:Hc.
  pose proof (civil_year_bounds _ _ _ _ Hms Hc) as Hy. cbv zeta in Hinst.
  destruct Hv as [[Hmo Hd] _]. pose proof (days_in_month_le y mo).
  assert (10 ^ Z.of_nat 4 = 10000 ∧ 10 ^ Z.of_nat 6 = 1000000) as [H4 H6] by done.
  rewrite (epoch_chars_layout ms y mo d) by done.
  set (r := ms mod 86400000) in *. assert (0 ≤ r < 86400000) by (apply Z.mod_pos_bound; lia).
  set (tail := after_year mo d r). simpl fst. destruct (in_range 0 9999 y) eqn:Er.
  - apply in_range_spec in Er. replace (y <? 0) with false by (symmetry; apply Z.ltb_ge; lia).
    set (bytes := fixed 4 y ++ tail). assert (drop 0 bytes = fixed 4 y ++ tail) as Hdrop by done.
    rewrite bool_decide_false.
    2:{ unfold bytes. pose proof (fixed_head_not_plus 3 y). by destruct (fixed 4 y). }
    eapply take_digits_fixed in Hdrop as [-> Hdrop]; [|lia..]. obind.
    rewrite (parse_after_year bytes y mo d r) by (done || lia). by rewrite Hinst.
  - assert (¬ (0 ≤ y ≤ 9999)) by (rewrite <-in_range_spec, Er; done).
    destruct (Z.ltb_spec y 0).
    { rewrite bool_decide_false by done. unfold take_digits. by case_match. }
    set (bytes := (["+"%char] ++ fixed 6 (Z.abs y)) ++ tail).
    assert (drop 1 bytes = fixed 6 y ++ tail) as Hdrop by (subst bytes; by rewrite Z.abs_eq by lia).
    rewrite (bool_decide_true (head bytes = _)) by done.
    eapply take_digits_fixed in Hdrop as [-> Hdrop]; [|lia..]. obind.
    rewrite (parse_after_year bytes y mo d r) by (done || lia). by rewrite Hinst.
Qed.

Lemma parse_iso_millis_epoch_text_witness :
  validate_epoch 1700000000123 = true ∧
  parse_iso_millis (epoch_text 1700000000123) = Some 1700000000123.
Proof.
  split; [reflexivity|]. rewrite (parse_iso_millis_epoch_text 1700000000123); reflexivity.
Defined.
