(* ===== verification/Models.v ===== *)
(** * Data model of the store

    The records of [store/src/models.rs], [proposals.rs], [data.rs],
    [conversations.rs] and [agent_inputs.rs], with the source's fields in the
    source's order.  A field [x] of the struct with prefix [p] is [p_x].
    Machine integers are [Z]; their ranges are enforced where a row is
    written (Store.v). *)

From stdpp Require Import pretty.
From S2P Require Export Prelude Value Timestamp.

(** ** Errors *)

(** [StoreError]; the payload is the message. *)
Inductive StoreError :=
  | Database (message : string)
  | Json (message : string)
  | Io (message : string)
  | AlreadyOwned
  | ForeignDatabase
  | UnsupportedVersion (version : Z)
  | NotFound (id : string)
  | Duplicate (id : string)
  | Conflict (id : string)
  | ScopeBusy (scope : string)
  | SessionDescriptorChanged (scope : string)
  | LeaseLost (task : string)
  | InvalidTransition (message : string)
  | InvalidInput (message : string)
  | InvalidImport (reason : string)
  | RecoveryUnreadable (message : string)
  | Closed
  | TransactionGateTimeout
  | TransactionScopeExpired
  | Internal (message : string).

(** [StoreError]'s [Display]. *)
Definition store_error_text (e : StoreError) : string :=
  match e with
  | Database m => "database error: " +:+ m
  | Json m => "serialization error: " +:+ m
  | Io m => "filesystem error: " +:+ m
  | AlreadyOwned => "database is already owned by another store"
  | ForeignDatabase => "foreign SQLite database; refusing to modify it"
  | UnsupportedVersion v => "unsupported database schema version " +:+ pretty v
  | NotFound id => "record not found: " +:+ id
  | Duplicate id => "duplicate record: " +:+ id
  | Conflict id => "concurrent modification: " +:+ id
  | ScopeBusy scope => "scope busy: " +:+ scope
  | SessionDescriptorChanged scope => "session descriptor changed while staging settlement: " +:+ scope
  | LeaseLost task => "lease lost for task " +:+ task
  | InvalidTransition m => "invalid transition: " +:+ m
  | InvalidInput m => "invalid input: " +:+ m
  | InvalidImport reason => "invalid import: " +:+ reason
  | RecoveryUnreadable m => "recovery evidence unreadable: " +:+ m
  | Closed => "store worker closed"
  | TransactionGateTimeout => "transaction_gate_timeout"
  | TransactionScopeExpired => "transaction scope expired"
  | Internal m => "internal store error: " +:+ m
  end.
(** ** Tasks *)

Inductive TaskStatus :=
  | Queued | Running | Interrupted | WaitingApproval | WaitingChild
  | Uncertain | Completed | Failed | Cancelled.

#[export] Instance TaskStatus_eq_dec : EqDecision TaskStatus.
Proof. solve_decision. Defined.

Definition is_terminal (s : TaskStatus) : bool :=
  match s with Completed | Failed | Cancelled => true | _ => false end.

(** The [snake_case] text of the [status] column. *)
Definition status_text (s : TaskStatus) : string :=
  match s with
  | Queued => "queued" | Running => "running" | Interrupted => "interrupted"
  | WaitingApproval => "waiting_approval" | WaitingChild => "waiting_child"
  | Uncertain => "uncertain" | Completed => "completed" | Failed => "failed"
  | Cancelled => "cancelled"
  end.

(** The [{:?}] text of a status. *)
Definition status_debug (s : TaskStatus) : string :=
  match s with
  | Queued => "Queued" | Running => "Running" | Interrupted => "Interrupted"
  | WaitingApproval => "WaitingApproval" | WaitingChild => "WaitingChild"
  | Uncertain => "Uncertain" | Completed => "Completed" | Failed => "Failed"
  | Cancelled => "Cancelled"
  end.

Record SubmitTask := mkSubmit {
  s_task_id : string;
  s_kind : string;
  s_scope_id : string;
  s_payload : Value;
  s_priority : Z;
  s_now : Z;
  s_available_at : option Z;
  s_depends_on : list string;
  s_parent_task_id : option string;
  s_exclusive_scope : bool
}.
#[export] Instance upd_s_now : Upd s_now := λ v r,
  mkSubmit (r.(s_task_id)) (r.(s_kind)) (r.(s_scope_id)) (r.(s_payload))
    (r.(s_priority)) v (r.(s_available_at)) (r.(s_depends_on))
    (r.(s_parent_task_id)) (r.(s_exclusive_scope)).

Record PinnedRunProfile := mkPin {
  pin_digest : string;
  pin_profile : Value;
  pin_pinned_at : Z
}.

Record TaskBinding := mkBinding {
  b_agent_id : string;
  b_agent_revision : Z;
  b_admission_key : string;
  b_run_profile : option PinnedRunProfile
}.

(** A row of the admission ledger, by its key. *)
Record AdmissionRow := mkAdmissionRow {
  am_admission_key : string;
  am_agent_id : string;
  am_task_id : string;
  am_created_at : Z
}.

Record TaskRecord := mkTask {
  t_task_id : string;
  t_kind : string;
  t_scope_id : string;
  t_status : TaskStatus;
  t_payload : Value;
  t_priority : Z;
  t_enqueued_at : Z;
  t_available_at : Z;
  t_started_at : option Z;
  t_finished_at : option Z;
  t_depends_on : list string;
  t_parent_task_id : option string;
  t_attempt_count : Z;
  t_poison_count : Z;
  t_dead_lettered_at : option Z;
  t_dead_letter_reason : option string;
  t_error : option string;
  t_progress : option Value;
  t_cancel_requested : bool;
  t_runtime_state : option Value;
  t_retry_pending : bool;
  t_interrupt_requested : bool;
  t_agent_id : option string;
  t_agent_revision : option Z;
  t_admission_key : option string;
  t_run_profile : option PinnedRunProfile
}.
#[export] Instance upd_t_status : Upd t_status := λ v r,
  mkTask (r.(t_task_id)) (r.(t_kind)) (r.(t_scope_id)) v (r.(t_payload))
    (r.(t_priority)) (r.(t_enqueued_at)) (r.(t_available_at))
    (r.(t_started_at)) (r.(t_finished_at)) (r.(t_depends_on))
    (r.(t_parent_task_id)) (r.(t_attempt_count)) (r.(t_poison_count))
    (r.(t_dead_lettered_at)) (r.(t_dead_letter_reason)) (r.(t_error))
    (r.(t_progress)) (r.(t_cancel_requested)) (r.(t_runtime_state))
    (r.(t_retry_pending)) (r.(t_interrupt_requested)) (r.(t_agent_id))
    (r.(t_agent_revision)) (r.(t_admission_key)) (r.(t_run_profile)).
#[export] Instance upd_t_payload : Upd t_payload := λ v r,
  mkTask (r.(t_task_id)) (r.(t_kind)) (r.(t_scope_id)) (r.(t_status)) v
    (r.(t_priority)) (r.(t_enqueued_at)) (r.(t_available_at))
    (r.(t_started_at)) (r.(t_finished_at)) (r.(t_depends_on))
    (r.(t_parent_task_id)) (r.(t_attempt_count)) (r.(t_poison_count))
    (r.(t_dead_lettered_at)) (r.(t_dead_letter_reason)) (r.(t_error))
    (r.(t_progress)) (r.(t_cancel_requested)) (r.(t_runtime_state))
    (r.(t_retry_pending)) (r.(t_interrupt_requested)) (r.(t_agent_id))
    (r.(t_agent_revision)) (r.(t_admission_key)) (r.(t_run_profile)).
#[export] Instance upd_t_priority : Upd t_priority := λ v r,
  mkTask (r.(t_task_id)) (r.(t_kind)) (r.(t_scope_id)) (r.(t_status))
    (r.(t_payload)) v (r.(t_enqueued_at)) (r.(t_available_at))
    (r.(t_started_at)) (r.(t_finished_at)) (r.(t_depends_on))
    (r.(t_parent_task_id)) (r.(t_attempt_count)) (r.(t_poison_count))
    (r.(t_dead_lettered_at)) (r.(t_dead_letter_reason)) (r.(t_error))
    (r.(t_progress)) (r.(t_cancel_requested)) (r.(t_runtime_state))
    (r.(t_retry_pending)) (r.(t_interrupt_requested)) (r.(t_agent_id))
    (r.(t_agent_revision)) (r.(t_admission_key)) (r.(t_run_profile)).
#[export] Instance upd_t_available_at : Upd t_available_at := λ v r,
  mkTask (r.(t_task_id)) (r.(t_kind)) (r.(t_scope_id)) (r.(t_status))
    (r.(t_payload)) (r.(t_priority)) (r.(t_enqueued_at)) v (r.(t_started_at))
    (r.(t_finished_at)) (r.(t_depends_on)) (r.(t_parent_task_id))
    (r.(t_attempt_count)) (r.(t_poison_count)) (r.(t_dead_lettered_at))
    (r.(t_dead_letter_reason)) (r.(t_error)) (r.(t_progress))
    (r.(t_cancel_requested)) (r.(t_runtime_state)) (r.(t_retry_pending))
    (r.(t_interrupt_requested)) (r.(t_agent_id)) (r.(t_agent_revision))
    (r.(t_admission_key)) (r.(t_run_profile)).
#[export] Instance upd_t_started_at : Upd t_started_at := λ v r,
  mkTask (r.(t_task_id)) (r.(t_kind)) (r.(t_scope_id)) (r.(t_status))
    (r.(t_payload)) (r.(t_priority)) (r.(t_enqueued_at)) (r.(t_available_at))
    v (r.(t_finished_at)) (r.(t_depends_on)) (r.(t_parent_task_id))
    (r.(t_attempt_count)) (r.(t_poison_count)) (r.(t_dead_lettered_at))
    (r.(t_dead_letter_reason)) (r.(t_error)) (r.(t_progress))
    (r.(t_cancel_requested)) (r.(t_runtime_state)) (r.(t_retry_pending))
    (r.(t_interrupt_requested)) (r.(t_agent_id)) (r.(t_agent_revision))
    (r.(t_admission_key)) (r.(t_run_profile)).
#[export] Instance upd_t_finished_at : Upd t_finished_at := λ v r,
  mkTask (r.(t_task_id)) (r.(t_kind)) (r.(t_scope_id)) (r.(t_status))
    (r.(t_payload)) (r.(t_priority)) (r.(t_enqueued_at)) (r.(t_available_at))
    (r.(t_started_at)) v (r.(t_depends_on)) (r.(t_parent_task_id))
    (r.(t_attempt_count)) (r.(t_poison_count)) (r.(t_dead_lettered_at))
    (r.(t_dead_letter_reason)) (r.(t_error)) (r.(t_progress))
    (r.(t_cancel_requested)) (r.(t_runtime_state)) (r.(t_retry_pending))
    (r.(t_interrupt_requested)) (r.(t_agent_id)) (r.(t_agent_revision))
    (r.(t_admission_key)) (r.(t_run_profile)).
#[export] Instance upd_t_attempt_count : Upd t_attempt_count := λ v r,
  mkTask (r.(t_task_id)) (r.(t_kind)) (r.(t_scope_id)) (r.(t_status))
    (r.(t_payload)) (r.(t_priority)) (r.(t_enqueued_at)) (r.(t_available_at))
    (r.(t_started_at)) (r.(t_finished_at)) (r.(t_depends_on))
    (r.(t_parent_task_id)) v (r.(t_poison_count)) (r.(t_dead_lettered_at))
    (r.(t_dead_letter_reason)) (r.(t_error)) (r.(t_progress))
    (r.(t_cancel_requested)) (r.(t_runtime_state)) (r.(t_retry_pending))
    (r.(t_interrupt_requested)) (r.(t_agent_id)) (r.(t_agent_revision))
    (r.(t_admission_key)) (r.(t_run_profile)).
#[export] Instance upd_t_poison_count : Upd t_poison_count := λ v r,
  mkTask (r.(t_task_id)) (r.(t_kind)) (r.(t_scope_id)) (r.(t_status))
    (r.(t_payload)) (r.(t_priority)) (r.(t_enqueued_at)) (r.(t_available_at))
    (r.(t_started_at)) (r.(t_finished_at)) (r.(t_depends_on))
    (r.(t_parent_task_id)) (r.(t_attempt_count)) v (r.(t_dead_lettered_at))
    (r.(t_dead_letter_reason)) (r.(t_error)) (r.(t_progress))
    (r.(t_cancel_requested)) (r.(t_runtime_state)) (r.(t_retry_pending))
    (r.(t_interrupt_requested)) (r.(t_agent_id)) (r.(t_agent_revision))
    (r.(t_admission_key)) (r.(t_run_profile)).
#[export] Instance upd_t_dead_lettered_at : Upd t_dead_lettered_at := λ v r,
  mkTask (r.(t_task_id)) (r.(t_kind)) (r.(t_scope_id)) (r.(t_status))
    (r.(t_payload)) (r.(t_priority)) (r.(t_enqueued_at)) (r.(t_available_at))
    (r.(t_started_at)) (r.(t_finished_at)) (r.(t_depends_on))
    (r.(t_parent_task_id)) (r.(t_attempt_count)) (r.(t_poison_count)) v
    (r.(t_dead_letter_reason)) (r.(t_error)) (r.(t_progress))
    (r.(t_cancel_requested)) (r.(t_runtime_state)) (r.(t_retry_pending))
    (r.(t_interrupt_requested)) (r.(t_agent_id)) (r.(t_agent_revision))
    (r.(t_admission_key)) (r.(t_run_profile)).
#[export] Instance upd_t_dead_letter_reason : Upd t_dead_letter_reason := λ v r,
  mkTask (r.(t_task_id)) (r.(t_kind)) (r.(t_scope_id)) (r.(t_status))
    (r.(t_payload)) (r.(t_priority)) (r.(t_enqueued_at)) (r.(t_available_at))
    (r.(t_started_at)) (r.(t_finished_at)) (r.(t_depends_on))
    (r.(t_parent_task_id)) (r.(t_attempt_count)) (r.(t_poison_count))
    (r.(t_dead_lettered_at)) v (r.(t_error)) (r.(t_progress))
    (r.(t_cancel_requested)) (r.(t_runtime_state)) (r.(t_retry_pending))
    (r.(t_interrupt_requested)) (r.(t_agent_id)) (r.(t_agent_revision))
    (r.(t_admission_key)) (r.(t_run_profile)).
#[export] Instance upd_t_error : Upd t_error := λ v r,
  mkTask (r.(t_task_id)) (r.(t_kind)) (r.(t_scope_id)) (r.(t_status))
    (r.(t_payload)) (r.(t_priority)) (r.(t_enqueued_at)) (r.(t_available_at))
    (r.(t_started_at)) (r.(t_finished_at)) (r.(t_depends_on))
    (r.(t_parent_task_id)) (r.(t_attempt_count)) (r.(t_poison_count))
    (r.(t_dead_lettered_at)) (r.(t_dead_letter_reason)) v (r.(t_progress))
    (r.(t_cancel_requested)) (r.(t_runtime_state)) (r.(t_retry_pending))
    (r.(t_interrupt_requested)) (r.(t_agent_id)) (r.(t_agent_revision))
    (r.(t_admission_key)) (r.(t_run_profile)).
#[export] Instance upd_t_progress : Upd t_progress := λ v r,
  mkTask (r.(t_task_id)) (r.(t_kind)) (r.(t_scope_id)) (r.(t_status))
    (r.(t_payload)) (r.(t_priority)) (r.(t_enqueued_at)) (r.(t_available_at))
    (r.(t_started_at)) (r.(t_finished_at)) (r.(t_depends_on))
    (r.(t_parent_task_id)) (r.(t_attempt_count)) (r.(t_poison_count))
    (r.(t_dead_lettered_at)) (r.(t_dead_letter_reason)) (r.(t_error)) v
    (r.(t_cancel_requested)) (r.(t_runtime_state)) (r.(t_retry_pending))
    (r.(t_interrupt_requested)) (r.(t_agent_id)) (r.(t_agent_revision))
    (r.(t_admission_key)) (r.(t_run_profile)).
#[export] Instance upd_t_cancel_requested : Upd t_cancel_requested := λ v r,
  mkTask (r.(t_task_id)) (r.(t_kind)) (r.(t_scope_id)) (r.(t_status))
    (r.(t_payload)) (r.(t_priority)) (r.(t_enqueued_at)) (r.(t_available_at))
    (r.(t_started_at)) (r.(t_finished_at)) (r.(t_depends_on))
    (r.(t_parent_task_id)) (r.(t_attempt_count)) (r.(t_poison_count))
    (r.(t_dead_lettered_at)) (r.(t_dead_letter_reason)) (r.(t_error))
    (r.(t_progress)) v (r.(t_runtime_state)) (r.(t_retry_pending))
    (r.(t_interrupt_requested)) (r.(t_agent_id)) (r.(t_agent_revision))
    (r.(t_admission_key)) (r.(t_run_profile)).
#[export] Instance upd_t_runtime_state : Upd t_runtime_state := λ v r,
  mkTask (r.(t_task_id)) (r.(t_kind)) (r.(t_scope_id)) (r.(t_status))
    (r.(t_payload)) (r.(t_priority)) (r.(t_enqueued_at)) (r.(t_available_at))
    (r.(t_started_at)) (r.(t_finished_at)) (r.(t_depends_on))
    (r.(t_parent_task_id)) (r.(t_attempt_count)) (r.(t_poison_count))
    (r.(t_dead_lettered_at)) (r.(t_dead_letter_reason)) (r.(t_error))
    (r.(t_progress)) (r.(t_cancel_requested)) v (r.(t_retry_pending))
    (r.(t_interrupt_requested)) (r.(t_agent_id)) (r.(t_agent_revision))
    (r.(t_admission_key)) (r.(t_run_profile)).
#[export] Instance upd_t_retry_pending : Upd t_retry_pending := λ v r,
  mkTask (r.(t_task_id)) (r.(t_kind)) (r.(t_scope_id)) (r.(t_status))
    (r.(t_payload)) (r.(t_priority)) (r.(t_enqueued_at)) (r.(t_available_at))
    (r.(t_started_at)) (r.(t_finished_at)) (r.(t_depends_on))
    (r.(t_parent_task_id)) (r.(t_attempt_count)) (r.(t_poison_count))
    (r.(t_dead_lettered_at)) (r.(t_dead_letter_reason)) (r.(t_error))
    (r.(t_progress)) (r.(t_cancel_requested)) (r.(t_runtime_state)) v
    (r.(t_interrupt_requested)) (r.(t_agent_id)) (r.(t_agent_revision))
    (r.(t_admission_key)) (r.(t_run_profile)).
#[export] Instance upd_t_interrupt_requested : Upd t_interrupt_requested := λ v r,
  mkTask (r.(t_task_id)) (r.(t_kind)) (r.(t_scope_id)) (r.(t_status))
    (r.(t_payload)) (r.(t_priority)) (r.(t_enqueued_at)) (r.(t_available_at))
    (r.(t_started_at)) (r.(t_finished_at)) (r.(t_depends_on))
    (r.(t_parent_task_id)) (r.(t_attempt_count)) (r.(t_poison_count))
    (r.(t_dead_lettered_at)) (r.(t_dead_letter_reason)) (r.(t_error))
    (r.(t_progress)) (r.(t_cancel_requested)) (r.(t_runtime_state))
    (r.(t_retry_pending)) v (r.(t_agent_id)) (r.(t_agent_revision))
    (r.(t_admission_key)) (r.(t_run_profile)).

Record ClaimInput := mkClaimInput {
  ci_owner_id : string;
  ci_now : Z;
  ci_ttl_ms : Z;
  ci_kinds : list string;
  ci_busy_scopes : list string;
  ci_max_attempts : Z
}.

Record Lease := mkLease {
  l_task_id : string;
  l_attempt_id : string;
  l_owner_id : string;
  l_lease_token : string;
  l_fencing_token : Z;
  l_expires_at : Z
}.
#[export] Instance upd_l_expires_at : Upd l_expires_at := λ v r,
  mkLease (r.(l_task_id)) (r.(l_attempt_id)) (r.(l_owner_id))
    (r.(l_lease_token)) (r.(l_fencing_token)) v.

Record LeaseFence := mkFence {
  f_task_id : string;
  f_lease_token : string;
  f_fencing_token : Z
}.

(** [Lease::fence]. *)
Definition lease_fence (l : Lease) : LeaseFence :=
  mkFence l.(l_task_id) l.(l_lease_token) l.(l_fencing_token).

Record ClaimedTask := mkClaimed {
  c_task : TaskRecord;
  c_lease : Lease
}.

Record EventRecord := mkEvent {
  e_task_id : string;
  e_seq : Qc;
  e_event : Value;
  e_created_at : Z
}.

Record TaskTransitionPatch := mkPatch {
  p_started_at : option Z;
  p_finished_at : option Z;
  p_error : option string;
  p_available_at : option Z;
  p_priority : option Z;
  p_poison_count : option Z;
  p_payload : option Value
}.

Record RetryTask := mkRetry {
  r_fence : LeaseFence;
  r_now : Z;
  r_available_at : Z;
  r_max_attempts : Z;
  r_error : string
}.

Inductive RecoveryMode := Manual | Automatic.

Record AttemptRecord := mkAttempt {
  a_attempt_id : string;
  a_task_id : string;
  a_attempt_number : Z;
  a_status : string;
  a_owner_id : string;
  a_started_at : Z;
  a_ended_at : option Z;
  a_error : option string
}.
#[export] Instance upd_a_status : Upd a_status := λ v r,
  mkAttempt (r.(a_attempt_id)) (r.(a_task_id)) (r.(a_attempt_number)) v
    (r.(a_owner_id)) (r.(a_started_at)) (r.(a_ended_at)) (r.(a_error)).
#[export] Instance upd_a_ended_at : Upd a_ended_at := λ v r,
  mkAttempt (r.(a_attempt_id)) (r.(a_task_id)) (r.(a_attempt_number))
    (r.(a_status)) (r.(a_owner_id)) (r.(a_started_at)) v (r.(a_error)).
#[export] Instance upd_a_error : Upd a_error := λ v r,
  mkAttempt (r.(a_attempt_id)) (r.(a_task_id)) (r.(a_attempt_number))
    (r.(a_status)) (r.(a_owner_id)) (r.(a_started_at)) (r.(a_ended_at)) v.

(** ** Outbox *)

Record OutboxInput := mkOutboxInput {
  oi_id : option string;
  oi_topic : string;
  oi_run_id : option string;
  oi_payload : Value;
  oi_available_at : Z
}.

Record OutboxRecord := mkOutbox {
  o_id : string;
  o_topic : string;
  o_run_id : option string;
  o_payload : Value;
  o_created_at : Z;
  o_available_at : Z;
  o_attempts : Z;
  o_published_at : option Z;
  o_last_error : option string;
  o_claim_token : option string;
  o_claim_owner : option string;
  o_claim_until : option Z
}.
#[export] Instance upd_o_available_at : Upd o_available_at := λ v r,
  mkOutbox (r.(o_id)) (r.(o_topic)) (r.(o_run_id)) (r.(o_payload))
    (r.(o_created_at)) v (r.(o_attempts)) (r.(o_published_at))
    (r.(o_last_error)) (r.(o_claim_token)) (r.(o_claim_owner))
    (r.(o_claim_until)).
#[export] Instance upd_o_attempts : Upd o_attempts := λ v r,
  mkOutbox (r.(o_id)) (r.(o_topic)) (r.(o_run_id)) (r.(o_payload))
    (r.(o_created_at)) (r.(o_available_at)) v (r.(o_published_at))
    (r.(o_last_error)) (r.(o_claim_token)) (r.(o_claim_owner))
    (r.(o_claim_until)).
#[export] Instance upd_o_published_at : Upd o_published_at := λ v r,
  mkOutbox (r.(o_id)) (r.(o_topic)) (r.(o_run_id)) (r.(o_payload))
    (r.(o_created_at)) (r.(o_available_at)) (r.(o_attempts)) v
    (r.(o_last_error)) (r.(o_claim_token)) (r.(o_claim_owner))
    (r.(o_claim_until)).
#[export] Instance upd_o_last_error : Upd o_last_error := λ v r,
  mkOutbox (r.(o_id)) (r.(o_topic)) (r.(o_run_id)) (r.(o_payload))
    (r.(o_created_at)) (r.(o_available_at)) (r.(o_attempts))
    (r.(o_published_at)) v (r.(o_claim_token)) (r.(o_claim_owner))
    (r.(o_claim_until)).
#[export] Instance upd_o_claim_token : Upd o_claim_token := λ v r,
  mkOutbox (r.(o_id)) (r.(o_topic)) (r.(o_run_id)) (r.(o_payload))
    (r.(o_created_at)) (r.(o_available_at)) (r.(o_attempts))
    (r.(o_published_at)) (r.(o_last_error)) v (r.(o_claim_owner))
    (r.(o_claim_until)).
#[export] Instance upd_o_claim_owner : Upd o_claim_owner := λ v r,
  mkOutbox (r.(o_id)) (r.(o_topic)) (r.(o_run_id)) (r.(o_payload))
    (r.(o_created_at)) (r.(o_available_at)) (r.(o_attempts))
    (r.(o_published_at)) (r.(o_last_error)) (r.(o_claim_token)) v
    (r.(o_claim_until)).
#[export] Instance upd_o_claim_until : Upd o_claim_until := λ v r,
  mkOutbox (r.(o_id)) (r.(o_topic)) (r.(o_run_id)) (r.(o_payload))
    (r.(o_created_at)) (r.(o_available_at)) (r.(o_attempts))
    (r.(o_published_at)) (r.(o_last_error)) (r.(o_claim_token))
    (r.(o_claim_owner)) v.

(** ** Conversations *)

Record ChatRecord := mkChat {
  ch_id : string;
  ch_title : option string;
  ch_metadata : Value;
  ch_archived : bool;
  ch_created_at : ConversationTimestamp;
  ch_updated_at : ConversationTimestamp
}.
#[export] Instance upd_ch_title : Upd ch_title := λ v r,
  mkChat (r.(ch_id)) v (r.(ch_metadata)) (r.(ch_archived)) (r.(ch_created_at))
    (r.(ch_updated_at)).
#[export] Instance upd_ch_metadata : Upd ch_metadata := λ v r,
  mkChat (r.(ch_id)) (r.(ch_title)) v (r.(ch_archived)) (r.(ch_created_at))
    (r.(ch_updated_at)).
#[export] Instance upd_ch_archived : Upd ch_archived := λ v r,
  mkChat (r.(ch_id)) (r.(ch_title)) (r.(ch_metadata)) v (r.(ch_created_at))
    (r.(ch_updated_at)).
#[export] Instance upd_ch_updated_at : Upd ch_updated_at := λ v r,
  mkChat (r.(ch_id)) (r.(ch_title)) (r.(ch_metadata)) (r.(ch_archived))
    (r.(ch_created_at)) v.

Record MessageInput := mkMessageInput {
  mi_id : option string;
  mi_chat_id : string;
  mi_run_id : option string;
  mi_role : string;
  mi_content : Value;
  mi_parent_message_id : option string;
  mi_tool_call_id : option string;
  mi_tool_calls : option Value;
  mi_model_result_json : option string;
  mi_metadata : Value;
  mi_activate : bool;
  mi_explicit_root : bool
}.

Record MessageRecord := mkMessage {
  m_id : string;
  m_chat_id : string;
  m_run_id : option string;
  m_role : string;
  m_content : Value;
  m_parent_message_id : option string;
  m_tool_call_id : option string;
  m_tool_calls : option Value;
  m_model_result_json : option string;
  m_metadata : Value;
  m_order_key : Z;
  m_depth : Z;
  m_branch_index : Z;
  m_active : bool;
  m_archived : bool;
  m_created_at : ConversationTimestamp
}.
#[export] Instance upd_m_content : Upd m_content := λ v r,
  mkMessage (r.(m_id)) (r.(m_chat_id)) (r.(m_run_id)) (r.(m_role)) v
    (r.(m_parent_message_id)) (r.(m_tool_call_id)) (r.(m_tool_calls))
    (r.(m_model_result_json)) (r.(m_metadata)) (r.(m_order_key)) (r.(m_depth))
    (r.(m_branch_index)) (r.(m_active)) (r.(m_archived)) (r.(m_created_at)).
#[export] Instance upd_m_metadata : Upd m_metadata := λ v r,
  mkMessage (r.(m_id)) (r.(m_chat_id)) (r.(m_run_id)) (r.(m_role))
    (r.(m_content)) (r.(m_parent_message_id)) (r.(m_tool_call_id))
    (r.(m_tool_calls)) (r.(m_model_result_json)) v (r.(m_order_key))
    (r.(m_depth)) (r.(m_branch_index)) (r.(m_active)) (r.(m_archived))
    (r.(m_created_at)).
#[export] Instance upd_m_tool_call_id : Upd m_tool_call_id := λ v r,
  mkMessage (r.(m_id)) (r.(m_chat_id)) (r.(m_run_id)) (r.(m_role))
    (r.(m_content)) (r.(m_parent_message_id)) v (r.(m_tool_calls))
    (r.(m_model_result_json)) (r.(m_metadata)) (r.(m_order_key)) (r.(m_depth))
    (r.(m_branch_index)) (r.(m_active)) (r.(m_archived)) (r.(m_created_at)).
#[export] Instance upd_m_tool_calls : Upd m_tool_calls := λ v r,
  mkMessage (r.(m_id)) (r.(m_chat_id)) (r.(m_run_id)) (r.(m_role))
    (r.(m_content)) (r.(m_parent_message_id)) (r.(m_tool_call_id)) v
    (r.(m_model_result_json)) (r.(m_metadata)) (r.(m_order_key)) (r.(m_depth))
    (r.(m_branch_index)) (r.(m_active)) (r.(m_archived)) (r.(m_created_at)).
#[export] Instance upd_m_model_result_json : Upd m_model_result_json := λ v r,
  mkMessage (r.(m_id)) (r.(m_chat_id)) (r.(m_run_id)) (r.(m_role))
    (r.(m_content)) (r.(m_parent_message_id)) (r.(m_tool_call_id))
    (r.(m_tool_calls)) v (r.(m_metadata)) (r.(m_order_key)) (r.(m_depth))
    (r.(m_branch_index)) (r.(m_active)) (r.(m_archived)) (r.(m_created_at)).
#[export] Instance upd_m_archived : Upd m_archived := λ v r,
  mkMessage (r.(m_id)) (r.(m_chat_id)) (r.(m_run_id)) (r.(m_role))
    (r.(m_content)) (r.(m_parent_message_id)) (r.(m_tool_call_id))
    (r.(m_tool_calls)) (r.(m_model_result_json)) (r.(m_metadata))
    (r.(m_order_key)) (r.(m_depth)) (r.(m_branch_index)) (r.(m_active)) v
    (r.(m_created_at)).
#[export] Instance upd_m_active : Upd m_active := λ v r,
  mkMessage (r.(m_id)) (r.(m_chat_id)) (r.(m_run_id)) (r.(m_role))
    (r.(m_content)) (r.(m_parent_message_id)) (r.(m_tool_call_id))
    (r.(m_tool_calls)) (r.(m_model_result_json)) (r.(m_metadata))
    (r.(m_order_key)) (r.(m_depth)) (r.(m_branch_index)) v (r.(m_archived))
    (r.(m_created_at)).

(** ** Agent inputs *)

Inductive AgentInputKind := Steer | FollowUp | HumanRequest.
Inductive AgentInputStatus := Pending | Applied | Converted | Answered | CancelledInput.
Inductive AgentInputSettlePolicy := SettleFollowUp | SettleCancel.

#[export] Instance AgentInputKind_eq_dec : EqDecision AgentInputKind.
Proof. solve_decision. Defined.
#[export] Instance AgentInputStatus_eq_dec : EqDecision AgentInputStatus.
Proof. solve_decision. Defined.

Record AgentInputRecord := mkInput {
  i_input_id : string;
  i_session_id : string;
  i_agent_id : option string;
  i_kind : AgentInputKind;
  i_status : AgentInputStatus;
  i_content : Value;
  i_content_hash : string;
  i_order : Z;
  i_target_task_id : option string;
  i_on_settled : option AgentInputSettlePolicy;
  i_attempt_id : option string;
  i_tool_call_id : option string;
  i_expires_at : option string;
  i_applied_task_id : option string;
  i_applied_message_id : option string;
  i_answer_id : option string;
  i_created_at : string;
  i_updated_at : string
}.
#[export] Instance upd_i_status : Upd i_status := λ v r,
  mkInput (r.(i_input_id)) (r.(i_session_id)) (r.(i_agent_id)) (r.(i_kind)) v
    (r.(i_content)) (r.(i_content_hash)) (r.(i_order)) (r.(i_target_task_id))
    (r.(i_on_settled)) (r.(i_attempt_id)) (r.(i_tool_call_id))
    (r.(i_expires_at)) (r.(i_applied_task_id)) (r.(i_applied_message_id))
    (r.(i_answer_id)) (r.(i_created_at)) (r.(i_updated_at)).
#[export] Instance upd_i_applied_task_id : Upd i_applied_task_id := λ v r,
  mkInput (r.(i_input_id)) (r.(i_session_id)) (r.(i_agent_id)) (r.(i_kind))
    (r.(i_status)) (r.(i_content)) (r.(i_content_hash)) (r.(i_order))
    (r.(i_target_task_id)) (r.(i_on_settled)) (r.(i_attempt_id))
    (r.(i_tool_call_id)) (r.(i_expires_at)) v (r.(i_applied_message_id))
    (r.(i_answer_id)) (r.(i_created_at)) (r.(i_updated_at)).
#[export] Instance upd_i_applied_message_id : Upd i_applied_message_id := λ v r,
  mkInput (r.(i_input_id)) (r.(i_session_id)) (r.(i_agent_id)) (r.(i_kind))
    (r.(i_status)) (r.(i_content)) (r.(i_content_hash)) (r.(i_order))
    (r.(i_target_task_id)) (r.(i_on_settled)) (r.(i_attempt_id))
    (r.(i_tool_call_id)) (r.(i_expires_at)) (r.(i_applied_task_id)) v
    (r.(i_answer_id)) (r.(i_created_at)) (r.(i_updated_at)).
#[export] Instance upd_i_answer_id : Upd i_answer_id := λ v r,
  mkInput (r.(i_input_id)) (r.(i_session_id)) (r.(i_agent_id)) (r.(i_kind))
    (r.(i_status)) (r.(i_content)) (r.(i_content_hash)) (r.(i_order))
    (r.(i_target_task_id)) (r.(i_on_settled)) (r.(i_attempt_id))
    (r.(i_tool_call_id)) (r.(i_expires_at)) (r.(i_applied_task_id))
    (r.(i_applied_message_id)) v (r.(i_created_at)) (r.(i_updated_at)).
#[export] Instance upd_i_updated_at : Upd i_updated_at := λ v r,
  mkInput (r.(i_input_id)) (r.(i_session_id)) (r.(i_agent_id)) (r.(i_kind))
    (r.(i_status)) (r.(i_content)) (r.(i_content_hash)) (r.(i_order))
    (r.(i_target_task_id)) (r.(i_on_settled)) (r.(i_attempt_id))
    (r.(i_tool_call_id)) (r.(i_expires_at)) (r.(i_applied_task_id))
    (r.(i_applied_message_id)) (r.(i_answer_id)) (r.(i_created_at)) v.

Record CreateAgentInput := mkCreateInput {
  cr_input_id : string;
  cr_session_id : string;
  cr_kind : AgentInputKind;
  cr_content : Value;
  cr_content_hash : string;
  cr_target_task_id : option string;
  cr_on_settled : option AgentInputSettlePolicy;
  cr_attempt_id : option string;
  cr_tool_call_id : option string;
  cr_expires_at : option string
}.

Record AgentInputQuery := mkInputQuery {
  q_session_id : string;
  q_kinds : option (list AgentInputKind);
  q_statuses : option (list AgentInputStatus);
  q_target_task_id : option string
}.

Record AgentInputPatch := mkInputPatch {
  ip_applied_task_id : option string;
  ip_applied_message_id : option string;
  ip_answer_id : option string
}.

(** ** Proposals *)

Inductive ProposalStatus :=
  | PPending | PApproved | PApplying | PApplied | PFailed | PRejected | PInvalidated.

#[export] Instance ProposalStatus_eq_dec : EqDecision ProposalStatus.
Proof. solve_decision. Defined.

Record ProposalRecord := mkProposal {
  pr_id : string;
  pr_chat_id : string;
  pr_run_id : option string;
  pr_scope_key : string;
  pr_action_id : option string;
  pr_tool_name : string;
  pr_kind : string;
  pr_risk : string;
  pr_status : ProposalStatus;
  pr_envelope : Value;
  pr_operations : list Value;
  pr_warnings : list string;
  pr_truncated : bool;
  pr_revision_at_create : option string;
  pr_operation_id : option string;
  pr_decision : option Value;
  pr_reason : option string;
  pr_created_at : Z;
  pr_decided_at : option Z;
  pr_claimed_at : option Z;
  pr_applied_at : option Z
}.
#[export] Instance upd_pr_status : Upd pr_status := λ v r,
  mkProposal (r.(pr_id)) (r.(pr_chat_id)) (r.(pr_run_id)) (r.(pr_scope_key))
    (r.(pr_action_id)) (r.(pr_tool_name)) (r.(pr_kind)) (r.(pr_risk)) v
    (r.(pr_envelope)) (r.(pr_operations)) (r.(pr_warnings)) (r.(pr_truncated))
    (r.(pr_revision_at_create)) (r.(pr_operation_id)) (r.(pr_decision))
    (r.(pr_reason)) (r.(pr_created_at)) (r.(pr_decided_at))
    (r.(pr_claimed_at)) (r.(pr_applied_at)).
#[export] Instance upd_pr_operation_id : Upd pr_operation_id := λ v r,
  mkProposal (r.(pr_id)) (r.(pr_chat_id)) (r.(pr_run_id)) (r.(pr_scope_key))
    (r.(pr_action_id)) (r.(pr_tool_name)) (r.(pr_kind)) (r.(pr_risk))
    (r.(pr_status)) (r.(pr_envelope)) (r.(pr_operations)) (r.(pr_warnings))
    (r.(pr_truncated)) (r.(pr_revision_at_create)) v (r.(pr_decision))
    (r.(pr_reason)) (r.(pr_created_at)) (r.(pr_decided_at))
    (r.(pr_claimed_at)) (r.(pr_applied_at)).
#[export] Instance upd_pr_decision : Upd pr_decision := λ v r,
  mkProposal (r.(pr_id)) (r.(pr_chat_id)) (r.(pr_run_id)) (r.(pr_scope_key))
    (r.(pr_action_id)) (r.(pr_tool_name)) (r.(pr_kind)) (r.(pr_risk))
    (r.(pr_status)) (r.(pr_envelope)) (r.(pr_operations)) (r.(pr_warnings))
    (r.(pr_truncated)) (r.(pr_revision_at_create)) (r.(pr_operation_id)) v
    (r.(pr_reason)) (r.(pr_created_at)) (r.(pr_decided_at))
    (r.(pr_claimed_at)) (r.(pr_applied_at)).
#[export] Instance upd_pr_reason : Upd pr_reason := λ v r,
  mkProposal (r.(pr_id)) (r.(pr_chat_id)) (r.(pr_run_id)) (r.(pr_scope_key))
    (r.(pr_action_id)) (r.(pr_tool_name)) (r.(pr_kind)) (r.(pr_risk))
    (r.(pr_status)) (r.(pr_envelope)) (r.(pr_operations)) (r.(pr_warnings))
    (r.(pr_truncated)) (r.(pr_revision_at_create)) (r.(pr_operation_id))
    (r.(pr_decision)) v (r.(pr_created_at)) (r.(pr_decided_at))
    (r.(pr_claimed_at)) (r.(pr_applied_at)).
#[export] Instance upd_pr_decided_at : Upd pr_decided_at := λ v r,
  mkProposal (r.(pr_id)) (r.(pr_chat_id)) (r.(pr_run_id)) (r.(pr_scope_key))
    (r.(pr_action_id)) (r.(pr_tool_name)) (r.(pr_kind)) (r.(pr_risk))
    (r.(pr_status)) (r.(pr_envelope)) (r.(pr_operations)) (r.(pr_warnings))
    (r.(pr_truncated)) (r.(pr_revision_at_create)) (r.(pr_operation_id))
    (r.(pr_decision)) (r.(pr_reason)) (r.(pr_created_at)) v
    (r.(pr_claimed_at)) (r.(pr_applied_at)).
#[export] Instance upd_pr_claimed_at : Upd pr_claimed_at := λ v r,
  mkProposal (r.(pr_id)) (r.(pr_chat_id)) (r.(pr_run_id)) (r.(pr_scope_key))
    (r.(pr_action_id)) (r.(pr_tool_name)) (r.(pr_kind)) (r.(pr_risk))
    (r.(pr_status)) (r.(pr_envelope)) (r.(pr_operations)) (r.(pr_warnings))
    (r.(pr_truncated)) (r.(pr_revision_at_create)) (r.(pr_operation_id))
    (r.(pr_decision)) (r.(pr_reason)) (r.(pr_created_at)) (r.(pr_decided_at))
    v (r.(pr_applied_at)).
#[export] Instance upd_pr_applied_at : Upd pr_applied_at := λ v r,
  mkProposal (r.(pr_id)) (r.(pr_chat_id)) (r.(pr_run_id)) (r.(pr_scope_key))
    (r.(pr_action_id)) (r.(pr_tool_name)) (r.(pr_kind)) (r.(pr_risk))
    (r.(pr_status)) (r.(pr_envelope)) (r.(pr_operations)) (r.(pr_warnings))
    (r.(pr_truncated)) (r.(pr_revision_at_create)) (r.(pr_operation_id))
    (r.(pr_decision)) (r.(pr_reason)) (r.(pr_created_at)) (r.(pr_decided_at))
    (r.(pr_claimed_at)) v.

Record ProposalPatch := mkProposalPatch {
  pp_operation_id : option string;
  pp_decision : option Value;
  pp_reason : option string
}.

Record ApplyOutcome := mkOutcome {
  ao_status : string;
  ao_applied_ops : Z;
  ao_failed_ops : list Value;
  ao_result_json : option string;
  ao_revision : option string
}.

Record ReceiptRecord := mkReceipt {
  rc_proposal_id : string;
  rc_operation_id : string;
  rc_outcome : ApplyOutcome;
  rc_created_at : Z
}.

(** A row of [receipts]: its [proposal_id] column, [NULL] for an outcome
    recorded without a proposal, and the record. *)
Record ReceiptRow := mkReceiptRow {
  rr_proposal : option string;
  rr_record : ReceiptRecord
}.
Definition rr_operation (row : ReceiptRow) : string := row.(rr_record).(rc_operation_id).

Record FinalizeApply := mkFinalize {
  fa_proposal_id : string;
  fa_operation_id : string;
  fa_outcome : ApplyOutcome;
  fa_from : list ProposalStatus;
  fa_to : ProposalStatus;
  fa_patch : ProposalPatch;
  fa_now : Z
}.

Record SettleTask := mkSettle {
  st_fence : LeaseFence;
  st_now : Z;
  st_status : TaskStatus;
  st_error : option string;
  st_events : list Value;
  st_messages : list MessageInput
}.
