(* ===== verification/Store.v ===== *)
(** * The database and its primitive operations

    The SQLite tables of the store as lists of records in [rowid] order, the
    helpers of [store/src/util.rs] over them, and the environment the store
    is run in ([Host]).  Every component works in the monad [M]: a job on
    the one store worker, rolled back when it returns an error
    ([Prelude.atomic]). *)

From S2P Require Export Models.
Local Open Scope Z_scope.

(** ** What the store takes from outside

    [js_int] is the integer a JSON row reads back after JavaScript number
    formatting (the [ryu_js] crate): exact in the safe range, unspecified
    beyond it.  [uuid] is the sequence of identifiers [Uuid::now_v7] mints.
    [show_f64] formats a binary64 in a message, [json_text] a JSON value.  [valid_envelope] is the
    verdict of the generated [TaskEventEnvelopeSchema] validator.
    [profile_refused] is the verdict of [verify_run_profile] on a pinned
    profile, which reads the provider, skill and grant tables that are not
    modelled here. *)
Class Host := {
  js_int : Z → Z;
  uuid : nat → string;
  show_f64 : Qc → string;
  json_text : Value → string;
  valid_envelope : Value → bool;
  profile_refused : option string → PinnedRunProfile → bool;
  js_int_safe : ∀ z, - max_safe ≤ z ≤ max_safe → js_int z = z;
  uuid_inj : Inj (=) (=) uuid;
}.

(** ** The database *)

Record Db := mkDb {
  db_file : bool;
  db_tasks : list TaskRecord;
  db_attempts : list AttemptRecord;
  db_leases : list Lease;
  db_events : list EventRecord;
  db_outbox : list OutboxRecord;
  db_chats : list ChatRecord;
  db_messages : list MessageRecord;
  db_inputs : list AgentInputRecord;
  db_proposals : list ProposalRecord;
  db_receipts : list ReceiptRow;
  db_settings : list (string * string * Value);
  db_admissions : list AdmissionRow;
  db_fence : Z;
  db_input_order : Z;
  db_uuids : nat
}.

(** [db.path().is_none_or(str::is_empty)] decides the JSON dialect of the
    rows; a fresh store has empty tables and zero counters. *)
Definition empty_db (file : bool) : Db :=
  mkDb file [] [] [] [] [] [] [] [] [] [] [] [] 0 0 0.

Abbreviation M := (St Db StoreError).

(** ** Rows

    [json]: a record is serialised, its numbers go through JavaScript
    formatting, and the write is refused when the text no longer reads back
    at the field's width. *)
Section rows.
Context {host : Host}.

Definition json_int (lo hi z : Z) : Res StoreError Z :=
  let r := js_int z in
  if in_range lo hi r then Ok r else Err (Json "number out of range").
Definition json_i64 : Z → Res StoreError Z := json_int i64_min i64_max.
Definition json_u64 : Z → Res StoreError Z := json_int 0 u64_max.
Definition json_oi64 (o : option Z) : Res StoreError (option Z) :=
  match o with None => Ok None | Some z => r ← json_i64 z; mret (Some r) end.

Definition json_value (file : bool) (v : Value) : Value :=
  if file then javascript_json_value v else v.
(** [Option<Value>]: a stored [null] reads back as [None]. *)
Definition json_ovalue (file : bool) (o : option Value) : option Value :=
  match o with
  | None => None
  | Some v => let w := json_value file v in if is_null w then None else Some w
  end.

Definition json_pin (file : bool) (o : option PinnedRunProfile)
    : Res StoreError (option PinnedRunProfile) :=
  match o with
  | None => Ok None
  | Some p =>
      at_ ← json_i64 p.(pin_pinned_at);
      mret (Some (mkPin p.(pin_digest) (json_value file p.(pin_profile)) at_))
  end.

Definition json_timestamp (t : ConversationTimestamp) : Res StoreError ConversationTimestamp :=
  match t with
  | EpochMillis ms => r ← json_i64 ms; mret (EpochMillis r)
  | Text s => Ok (Text s)
  end.

Definition json_task (file : bool) (t : TaskRecord) : Res StoreError TaskRecord :=
  enqueued_at ← json_i64 t.(t_enqueued_at);
  available_at ← json_i64 t.(t_available_at);
  started_at ← json_oi64 t.(t_started_at);
  finished_at ← json_oi64 t.(t_finished_at);
  dead_lettered_at ← json_oi64 t.(t_dead_lettered_at);
  agent_revision ← json_oi64 t.(t_agent_revision);
  run_profile ← json_pin file t.(t_run_profile);
  mret (mkTask t.(t_task_id) t.(t_kind) t.(t_scope_id) t.(t_status)
    (json_value file t.(t_payload)) t.(t_priority) enqueued_at available_at
    started_at finished_at t.(t_depends_on) t.(t_parent_task_id)
    t.(t_attempt_count) t.(t_poison_count) dead_lettered_at
    t.(t_dead_letter_reason) t.(t_error) (json_ovalue file t.(t_progress))
    t.(t_cancel_requested) (json_ovalue file t.(t_runtime_state))
    t.(t_retry_pending) t.(t_interrupt_requested) t.(t_agent_id)
    agent_revision t.(t_admission_key) run_profile).

Definition json_attempt (file : bool) (a : AttemptRecord) : Res StoreError AttemptRecord :=
  started_at ← json_i64 a.(a_started_at);
  ended_at ← json_oi64 a.(a_ended_at);
  mret (mkAttempt a.(a_attempt_id) a.(a_task_id) a.(a_attempt_number)
    a.(a_status) a.(a_owner_id) started_at ended_at a.(a_error)).

Definition json_lease (file : bool) (l : Lease) : Res StoreError Lease :=
  fencing_token ← json_u64 l.(l_fencing_token);
  expires_at ← json_i64 l.(l_expires_at);
  mret (mkLease l.(l_task_id) l.(l_attempt_id) l.(l_owner_id)
    l.(l_lease_token) fencing_token expires_at).

Definition json_event (file : bool) (e : EventRecord) : Res StoreError EventRecord :=
  created_at ← json_i64 e.(e_created_at);
  mret (mkEvent e.(e_task_id) e.(e_seq) (json_value file e.(e_event)) created_at).

Definition json_outbox (file : bool) (o : OutboxRecord) : Res StoreError OutboxRecord :=
  created_at ← json_i64 o.(o_created_at);
  available_at ← json_i64 o.(o_available_at);
  published_at ← json_oi64 o.(o_published_at);
  claim_until ← json_oi64 o.(o_claim_until);
  mret (mkOutbox o.(o_id) o.(o_topic) o.(o_run_id) (json_value file o.(o_payload))
    created_at available_at o.(o_attempts) published_at o.(o_last_error)
    o.(o_claim_token) o.(o_claim_owner) claim_until).

Definition json_chat (file : bool) (c : ChatRecord) : Res StoreError ChatRecord :=
  created_at ← json_timestamp c.(ch_created_at);
  updated_at ← json_timestamp c.(ch_updated_at);
  mret (mkChat c.(ch_id) c.(ch_title) (json_value file c.(ch_metadata))
    c.(ch_archived) created_at updated_at).

Definition json_message (file : bool) (m : MessageRecord) : Res StoreError MessageRecord :=
  order_key ← json_u64 m.(m_order_key);
  created_at ← json_timestamp m.(m_created_at);
  mret (mkMessage m.(m_id) m.(m_chat_id) m.(m_run_id) m.(m_role)
    (json_value file m.(m_content)) m.(m_parent_message_id) m.(m_tool_call_id)
    (json_ovalue file m.(m_tool_calls)) m.(m_model_result_json)
    (json_value file m.(m_metadata)) order_key m.(m_depth) m.(m_branch_index)
    m.(m_active) m.(m_archived) created_at).

Definition json_input (file : bool) (i : AgentInputRecord) : Res StoreError AgentInputRecord :=
  order ← json_i64 i.(i_order);
  mret (mkInput i.(i_input_id) i.(i_session_id) i.(i_agent_id) i.(i_kind)
    i.(i_status) (json_value file i.(i_content)) i.(i_content_hash) order
    i.(i_target_task_id) i.(i_on_settled) i.(i_attempt_id) i.(i_tool_call_id)
    i.(i_expires_at) i.(i_applied_task_id) i.(i_applied_message_id)
    i.(i_answer_id) i.(i_created_at) i.(i_updated_at)).

Definition json_proposal (file : bool) (p : ProposalRecord) : Res StoreError ProposalRecord :=
  created_at ← json_i64 p.(pr_created_at);
  decided_at ← json_oi64 p.(pr_decided_at);
  claimed_at ← json_oi64 p.(pr_claimed_at);
  applied_at ← json_oi64 p.(pr_applied_at);
  mret (mkProposal p.(pr_id) p.(pr_chat_id) p.(pr_run_id) p.(pr_scope_key)
    p.(pr_action_id) p.(pr_tool_name) p.(pr_kind) p.(pr_risk) p.(pr_status)
    (json_value file p.(pr_envelope)) (map (json_value file) p.(pr_operations))
    p.(pr_warnings) p.(pr_truncated) p.(pr_revision_at_create)
    p.(pr_operation_id) (json_ovalue file p.(pr_decision)) p.(pr_reason)
    created_at decided_at claimed_at applied_at).

Definition json_outcome (file : bool) (o : ApplyOutcome) : ApplyOutcome :=
  mkOutcome o.(ao_status) o.(ao_applied_ops) (map (json_value file) o.(ao_failed_ops))
    o.(ao_result_json) o.(ao_revision).

Definition json_receipt (file : bool) (r : ReceiptRecord) : Res StoreError ReceiptRecord :=
  created_at ← json_i64 r.(rc_created_at);
  mret (mkReceipt r.(rc_proposal_id) r.(rc_operation_id)
    (json_outcome file r.(rc_outcome)) created_at).
Definition json_receipt_row (file : bool) (row : ReceiptRow) : Res StoreError ReceiptRow :=
  record ← json_receipt file row.(rr_record);
  mret (mkReceiptRow row.(rr_proposal) record).
End rows.

(** ** Tables *)

#[export] Instance upd_db_tasks : Upd db_tasks := λ v d,
  mkDb d.(db_file) v d.(db_attempts) d.(db_leases) d.(db_events) d.(db_outbox)
    d.(db_chats) d.(db_messages) d.(db_inputs) d.(db_proposals)
    d.(db_receipts) d.(db_settings) d.(db_admissions) d.(db_fence) d.(db_input_order)
    d.(db_uuids).
#[export] Instance upd_db_attempts : Upd db_attempts := λ v d,
  mkDb d.(db_file) d.(db_tasks) v d.(db_leases) d.(db_events) d.(db_outbox)
    d.(db_chats) d.(db_messages) d.(db_inputs) d.(db_proposals)
    d.(db_receipts) d.(db_settings) d.(db_admissions) d.(db_fence) d.(db_input_order)
    d.(db_uuids).
#[export] Instance upd_db_leases : Upd db_leases := λ v d,
  mkDb d.(db_file) d.(db_tasks) d.(db_attempts) v d.(db_events) d.(db_outbox)
    d.(db_chats) d.(db_messages) d.(db_inputs) d.(db_proposals)
    d.(db_receipts) d.(db_settings) d.(db_admissions) d.(db_fence) d.(db_input_order)
    d.(db_uuids).
#[export] Instance upd_db_events : Upd db_events := λ v d,
  mkDb d.(db_file) d.(db_tasks) d.(db_attempts) d.(db_leases) v d.(db_outbox)
    d.(db_chats) d.(db_messages) d.(db_inputs) d.(db_proposals)
    d.(db_receipts) d.(db_settings) d.(db_admissions) d.(db_fence) d.(db_input_order)
    d.(db_uuids).
#[export] Instance upd_db_outbox : Upd db_outbox := λ v d,
  mkDb d.(db_file) d.(db_tasks) d.(db_attempts) d.(db_leases) d.(db_events) v
    d.(db_chats) d.(db_messages) d.(db_inputs) d.(db_proposals)
    d.(db_receipts) d.(db_settings) d.(db_admissions) d.(db_fence) d.(db_input_order)
    d.(db_uuids).
#[export] Instance upd_db_chats : Upd db_chats := λ v d,
  mkDb d.(db_file) d.(db_tasks) d.(db_attempts) d.(db_leases) d.(db_events)
    d.(db_outbox) v d.(db_messages) d.(db_inputs) d.(db_proposals)
    d.(db_receipts) d.(db_settings) d.(db_admissions) d.(db_fence) d.(db_input_order)
    d.(db_uuids).
#[export] Instance upd_db_messages : Upd db_messages := λ v d,
  mkDb d.(db_file) d.(db_tasks) d.(db_attempts) d.(db_leases) d.(db_events)
    d.(db_outbox) d.(db_chats) v d.(db_inputs) d.(db_proposals)
    d.(db_receipts) d.(db_settings) d.(db_admissions) d.(db_fence) d.(db_input_order)
    d.(db_uuids).
#[export] Instance upd_db_inputs : Upd db_inputs := λ v d,
  mkDb d.(db_file) d.(db_tasks) d.(db_attempts) d.(db_leases) d.(db_events)
    d.(db_outbox) d.(db_chats) d.(db_messages) v d.(db_proposals)
    d.(db_receipts) d.(db_settings) d.(db_admissions) d.(db_fence) d.(db_input_order)
    d.(db_uuids).
#[export] Instance upd_db_proposals : Upd db_proposals := λ v d,
  mkDb d.(db_file) d.(db_tasks) d.(db_attempts) d.(db_leases) d.(db_events)
    d.(db_outbox) d.(db_chats) d.(db_messages) d.(db_inputs) v d.(db_receipts)
    d.(db_settings) d.(db_admissions) d.(db_fence) d.(db_input_order) d.(db_uuids).
#[export] Instance upd_db_receipts : Upd db_receipts := λ v d,
  mkDb d.(db_file) d.(db_tasks) d.(db_attempts) d.(db_leases) d.(db_events)
    d.(db_outbox) d.(db_chats) d.(db_messages) d.(db_inputs) d.(db_proposals)
    v d.(db_settings) d.(db_admissions) d.(db_fence) d.(db_input_order) d.(db_uuids).
#[export] Instance upd_db_settings : Upd db_settings := λ v d,
  mkDb d.(db_file) d.(db_tasks) d.(db_attempts) d.(db_leases) d.(db_events)
    d.(db_outbox) d.(db_chats) d.(db_messages) d.(db_inputs) d.(db_proposals)
    d.(db_receipts) v d.(db_admissions) d.(db_fence) d.(db_input_order) d.(db_uuids).
#[export] Instance upd_db_admissions : Upd db_admissions := λ v d,
  mkDb d.(db_file) d.(db_tasks) d.(db_attempts) d.(db_leases) d.(db_events)
    d.(db_outbox) d.(db_chats) d.(db_messages) d.(db_inputs) d.(db_proposals)
    d.(db_receipts) d.(db_settings) v d.(db_fence) d.(db_input_order) d.(db_uuids).
#[export] Instance upd_db_fence : Upd db_fence := λ v d,
  mkDb d.(db_file) d.(db_tasks) d.(db_attempts) d.(db_leases) d.(db_events)
    d.(db_outbox) d.(db_chats) d.(db_messages) d.(db_inputs) d.(db_proposals)
    d.(db_receipts) d.(db_settings) d.(db_admissions) v d.(db_input_order) d.(db_uuids).
#[export] Instance upd_db_input_order : Upd db_input_order := λ v d,
  mkDb d.(db_file) d.(db_tasks) d.(db_attempts) d.(db_leases) d.(db_events)
    d.(db_outbox) d.(db_chats) d.(db_messages) d.(db_inputs) d.(db_proposals)
    d.(db_receipts) d.(db_settings) d.(db_admissions) d.(db_fence) v d.(db_uuids).
#[export] Instance upd_db_uuids : Upd db_uuids := λ v d,
  mkDb d.(db_file) d.(db_tasks) d.(db_attempts) d.(db_leases) d.(db_events)
    d.(db_outbox) d.(db_chats) d.(db_messages) d.(db_inputs) d.(db_proposals)
    d.(db_receipts) d.(db_settings) d.(db_admissions) d.(db_fence) d.(db_input_order) v.

(** What the generic row operations need of a table: its rows, its primary
    key and its row format, which keeps the key. *)
Class Table `{!Host} (A : Type) := {
  tbl : Db → list A;
  set_tbl : list A → Db → Db;
  row_key : A → string;
  json : bool → A → Res StoreError A;
  tbl_set l d : tbl (set_tbl l d) = l;
  file_set l d : db_file (set_tbl l d) = db_file d;
  json_key b r j : json b r = Ok j → row_key j = row_key r;
}.
#[export] Hint Mode Table - ! : typeclass_instances.

(** Take a successful [json] apart. *)
Ltac inv_res :=
  repeat match goal with
  | H : mbind _ ?r = Ok _ |- _ =>
      unfold mbind, res_bind in H; cbv beta in H; destruct r eqn:?; [|discriminate H]
  | H : (match ?r with Ok _ => _ | Err _ => _ end) = Ok _ |- _ =>
      destruct r eqn:?; [|discriminate H]
  | H : mret _ = Ok _ |- _ => injection H as <-
  | H : Ok _ = Ok _ |- _ => injection H as <-
  end.

Ltac solve_json_key :=
  let H := fresh in intros ??? H; cbv [json_task json_attempt json_lease json_outbox
    json_chat json_message json_input json_proposal json_receipt_row] in H;
  inv_res; unfold json_receipt in *; inv_res; reflexivity.

Section instances.
Context {host : Host}.

#[export] Program Instance tasks_table : Table TaskRecord :=
  {| tbl := db_tasks; set_tbl l d := d <| db_tasks := l |>; row_key := t_task_id; json := json_task |}.
Solve Obligations with (done || solve_json_key).
#[export] Program Instance attempts_table : Table AttemptRecord :=
  {| tbl := db_attempts; set_tbl l d := d <| db_attempts := l |>; row_key := a_attempt_id; json := json_attempt |}.
Solve Obligations with (done || solve_json_key).
#[export] Program Instance leases_table : Table Lease :=
  {| tbl := db_leases; set_tbl l d := d <| db_leases := l |>; row_key := l_task_id; json := json_lease |}.
Solve Obligations with (done || solve_json_key).
#[export] Program Instance outbox_table : Table OutboxRecord :=
  {| tbl := db_outbox; set_tbl l d := d <| db_outbox := l |>; row_key := o_id; json := json_outbox |}.
Solve Obligations with (done || solve_json_key).
#[export] Program Instance chats_table : Table ChatRecord :=
  {| tbl := db_chats; set_tbl l d := d <| db_chats := l |>; row_key := ch_id; json := json_chat |}.
Solve Obligations with (done || solve_json_key).
#[export] Program Instance messages_table : Table MessageRecord :=
  {| tbl := db_messages; set_tbl l d := d <| db_messages := l |>; row_key := m_id; json := json_message |}.
Solve Obligations with (done || solve_json_key).
#[export] Program Instance inputs_table : Table AgentInputRecord :=
  {| tbl := db_inputs; set_tbl l d := d <| db_inputs := l |>; row_key := i_input_id; json := json_input |}.
Solve Obligations with (done || solve_json_key).
#[export] Program Instance proposals_table : Table ProposalRecord :=
  {| tbl := db_proposals; set_tbl l d := d <| db_proposals := l |>; row_key := pr_id; json := json_proposal |}.
Solve Obligations with (done || solve_json_key).
#[export] Program Instance receipts_table : Table ReceiptRow :=
  {| tbl := db_receipts; set_tbl l d := d <| db_receipts := l |>; row_key := rr_operation; json := json_receipt_row |}.
Solve Obligations with (done || solve_json_key).
End instances.

(** An integer in the safe range reads back as it is. *)
Lemma json_int_Ok {host : Host} lo hi z r :
  json_int lo hi z = Ok r → r = js_int z ∧ lo ≤ r ≤ hi.
Proof.
  unfold json_int. destruct (in_range lo hi (js_int z)) eqn:E; [|done].
  intros [= <-]. by apply in_range_spec in E.
Qed.

(** ** Row operations

    [util.rs]: [get], [required], [all]/[select], and the three statements
    the store writes with.  [UPDATE ... WHERE key=?] rewrites the row with
    that key, if there is one; [INSERT] refuses a key that exists. *)
Section ops.
Context {host : Host} {A : Type} {table : Table A}.

Definition find_row (key : string) (l : list A) : option A :=
  find_by (λ r, String.eqb (row_key r) key) l.
Definition replace_row (j : A) (l : list A) : list A :=
  map (λ r, if String.eqb (row_key r) (row_key j) then j else r) l.
Definition remove_row (key : string) (l : list A) : list A :=
  filter_by (λ r, negb (String.eqb (row_key r) key)) l.

Definition get (key : string) : M (option A) := gets (λ d, find_row key (tbl d)).
Definition required (key : string) : M A :=
  o ← get key; lift (ok_or (NotFound key) o).
Definition select (p : A → bool) : M (list A) := gets (λ d, filter_by p (tbl d)).
Definition all : M (list A) := gets tbl.

Definition to_json (r : A) : M A := λ d, lift (json (db_file d) r) d.
Definition update_row (r : A) : M unit :=
  j ← to_json r; modify (λ d, set_tbl (replace_row j (tbl d)) d).
Definition insert_row (r : A) : M unit :=
  j ← to_json r;
  o ← get (row_key r);
  _ ← guard_or (negb (is_some o)) (Database "UNIQUE constraint failed");
  modify (λ d, set_tbl (tbl d ++ [j]) d).
(** [INSERT ... ON CONFLICT DO UPDATE]. *)
Definition upsert_row (r : A) : M unit :=
  j ← to_json r;
  o ← get (row_key r);
  if is_some o then modify (λ d, set_tbl (replace_row j (tbl d)) d)
  else modify (λ d, set_tbl (tbl d ++ [j]) d).
Definition delete_row (key : string) : M unit :=
  modify (λ d, set_tbl (remove_row key (tbl d)) d).

(** *** Lookups after a write *)

Lemma find_row_Some key l r : find_row key l = Some r → r ∈ l ∧ row_key r = key.
Proof. intros [? ?%String.eqb_eq]%find_by_Some. done. Qed.

Lemma find_row_None key l : find_row key l = None ↔ ∀ r, r ∈ l → row_key r ≠ key.
Proof. unfold find_row. rewrite find_by_None. by setoid_rewrite String.eqb_neq. Qed.

Lemma find_row_elem l r :
  NoDup (map row_key l) → r ∈ l → find_row (row_key r) l = Some r.
Proof.
  unfold find_row. induction l as [|x l IH]; simpl; [by intros _ ?%elem_of_nil|].
  intros [Hx ?]%NoDup_cons [->|Hr]%elem_of_cons; [by rewrite String.eqb_refl|].
  destruct (String.eqb_spec (row_key x) (row_key r)) as [E|]; [|auto].
  exfalso. apply Hx. rewrite E. by apply list_elem_of_fmap_2.
Qed.

Lemma find_row_replace key j l :
  find_row key (replace_row j l) =
    if String.eqb (row_key j) key then match find_row key l with Some _ => Some j | None => None end
    else find_row key l.
Proof.
  unfold find_row, replace_row. induction l as [|x l IH]; simpl; [by destruct String.eqb|].
  destruct (String.eqb_spec (row_key x) (row_key j)) as [E|E].
  - rewrite E. destruct (String.eqb_spec (row_key j) key); [done|]. by rewrite IH.
  - destruct (String.eqb_spec (row_key x) key) as [<-|]; [|done].
    destruct (String.eqb_spec (row_key j) (row_key x)); [congruence|done].
Qed.

Lemma find_row_app key l l' :
  find_row key (l ++ l') = match find_row key l with Some r => Some r | None => find_row key l' end.
Proof.
  unfold find_row. induction l as [|x l IH]; simpl; [done|]. by destruct String.eqb.
Qed.

Lemma find_row_remove key key' l :
  find_row key (remove_row key' l) =
    if String.eqb key' key then None else find_row key l.
Proof.
  unfold find_row, remove_row, filter_by. induction l as [|x l IH]; [by destruct String.eqb|].
  rewrite filter_cons. simpl.
  destruct (String.eqb_spec (row_key x) key') as [E|E]; simpl.
  - rewrite IH, E. by destruct String.eqb.
  - rewrite IH. destruct (String.eqb_spec (row_key x) key) as [<-|]; [|done].
    destruct (String.eqb_spec key' (row_key x)); [congruence|done].
Qed.

Lemma replace_row_keys j l : map row_key (replace_row j l) = map row_key l.
Proof.
  unfold replace_row. rewrite map_map. apply map_ext. intros r.
  destruct (String.eqb_spec (row_key r) (row_key j)); done.
Qed.

Lemma elem_of_replace_row r j l :
  r ∈ replace_row j l →
  r = j ∧ (∃ r0, r0 ∈ l ∧ row_key r0 = row_key j) ∨ r ∈ l ∧ row_key r ≠ row_key j.
Proof.
  intros (x & -> & Hx)%list_elem_of_fmap.
  destruct (String.eqb_spec (row_key x) (row_key j)); eauto.
Qed.

Lemma elem_of_remove_row r key l : r ∈ remove_row key l ↔ r ∈ l ∧ row_key r ≠ key.
Proof.
  unfold remove_row. rewrite elem_of_filter_by, negb_true_iff, String.eqb_neq. tauto.
Qed.

Lemma remove_row_NoDup key l : NoDup (map row_key l) → NoDup (map row_key (remove_row key l)).
Proof.
  unfold remove_row, filter_by. induction l as [|x l IH]; [done|].
  simpl. intros [Hx ?]%NoDup_cons. rewrite filter_cons. case_decide; [|auto].
  apply NoDup_cons. split; [|auto].
  intros (y & E & [_ ?]%list_elem_of_filter)%list_elem_of_fmap. apply Hx. rewrite E.
  by apply list_elem_of_fmap_2.
Qed.

Lemma insert_row_NoDup j l :
  NoDup (map row_key l) → find_row (row_key j) l = None → NoDup (map row_key (l ++ [j])).
Proof.
  intros Hl Hf. rewrite map_app. apply NoDup_app. split_and!; [done| |apply NoDup_singleton].
  intros id (r & -> & Hr)%list_elem_of_fmap Eq%list_elem_of_singleton.
  rewrite find_row_None in Hf. by apply (Hf r).
Qed.

(** A replaced row keeps the column it shares with the row it replaces. *)
Lemma replace_row_map {B} (f : A → B) r j l :
  NoDup (map row_key l) → find_row (row_key r) l = Some r → row_key j = row_key r → f j = f r →
  map f (replace_row j l) = map f l.
Proof.
  intros Hl Hf Hk Hj. unfold replace_row. rewrite map_map. apply map_ext_in.
  intros x Hx%list_elem_of_In. destruct (String.eqb_spec (row_key x) (row_key j)) as [E|]; [|done].
  pose proof (find_row_elem _ _ Hl Hx) as Hx'. rewrite E, Hk, Hf in Hx'. congruence.
Qed.

(** *** Inversion *)

Lemma to_json_Ok r d j d' :
  to_json r d = Ok (j, d') ↔ json (db_file d) r = Ok j ∧ d' = d.
Proof. unfold to_json. apply st_lift_Ok. Qed.

Lemma required_Ok key d r d' :
  required key d = Ok (r, d') ↔ find_row key (tbl d) = Some r ∧ d' = d.
Proof.
  unfold required, get. rewrite st_bind_Ok. split.
  - intros (o & d1 & H1 & H). inv_st. by destruct (find_row key _); simplify_eq/=.
  - intros [H ->]. exists (Some r), d. split; [|done]. unfold gets. by rewrite H.
Qed.

Lemma required_Err key d e : required key d = Err e → e = NotFound key ∧ find_row key (tbl d) = None.
Proof.
  unfold required, get, gets, mbind, st_bind, lift. by destruct find_row; intros; simplify_eq/=.
Qed.

Lemma update_row_Ok r d u d' :
  update_row r d = Ok (u, d') ↔
  ∃ j, json (db_file d) r = Ok j ∧ d' = set_tbl (replace_row j (tbl d)) d.
Proof.
  unfold update_row. rewrite st_bind_Ok. split.
  - intros (j & d1 & [Hj ->]%to_json_Ok & Hm). inv_st. eauto.
  - intros (j & ? & ->). exists j, d. by rewrite to_json_Ok, st_modify_Ok.
Qed.

Lemma insert_row_Ok r d u d' :
  insert_row r d = Ok (u, d') ↔
  ∃ j, json (db_file d) r = Ok j ∧ find_row (row_key r) (tbl d) = None
    ∧ d' = set_tbl (tbl d ++ [j]) d.
Proof.
  unfold insert_row, get. rewrite st_bind_Ok. split.
  - intros (j & d1 & [Hj ->]%to_json_Ok & Hm). inv_st. exists j. split; [done|].
    by destruct (find_row (row_key r) (tbl d)).
  - intros (j & ? & H & ->). exists j, d. rewrite to_json_Ok. split; [done|].
    unfold mbind, st_bind, gets. rewrite H. simpl. by destruct u.
Qed.

Lemma upsert_row_Ok r d u d' :
  upsert_row r d = Ok (u, d') ↔
  ∃ j, json (db_file d) r = Ok j ∧
    d' = set_tbl (if is_some (find_row (row_key r) (tbl d))
                  then replace_row j (tbl d) else tbl d ++ [j]) d.
Proof.
  unfold upsert_row, get. rewrite st_bind_Ok. split.
  - intros (j & d1 & [Hj ->]%to_json_Ok & Hm). inv_st. exists j. split; [done|].
    destruct (find_row (row_key r) (tbl d)); simpl in *; by inv_st.
  - intros (j & ? & ->). exists j, d. rewrite to_json_Ok. split; [done|].
    unfold mbind, st_bind, gets. destruct u. by destruct (find_row (row_key r) (tbl d)).
Qed.

(** *** Steps *)

Section within_rows.
Context (R : Db → Db → Prop).

Lemma within_get `{!PreOrder R} key : within R (get key).
Proof. apply within_gets, _. Qed.
Lemma within_select `{!PreOrder R} p : within R (select p).
Proof. apply within_gets, _. Qed.
Lemma within_all `{!PreOrder R} : within R all.
Proof. apply within_gets, _. Qed.
Lemma within_required `{!PreOrder R} key : within R (required key).
Proof. intros d r d' [_ ->]%required_Ok. reflexivity. Qed.
Lemma within_to_json `{!PreOrder R} r : within R (to_json r).
Proof. intros d j d' [_ ->]%to_json_Ok. reflexivity. Qed.

Lemma within_update_row r :
  (∀ d j, json (db_file d) r = Ok j → R d (set_tbl (replace_row j (tbl d)) d)) →
  within R (update_row r).
Proof. intros H d u d' (j & ? & ->)%update_row_Ok. eauto. Qed.

Lemma within_insert_row r :
  (∀ d j, json (db_file d) r = Ok j → find_row (row_key r) (tbl d) = None →
    R d (set_tbl (tbl d ++ [j]) d)) →
  within R (insert_row r).
Proof. intros H d u d' (j & ? & ? & ->)%insert_row_Ok. eauto. Qed.

Lemma within_upsert_row r :
  (∀ d j, json (db_file d) r = Ok j → R d (set_tbl (replace_row j (tbl d)) d)) →
  (∀ d j, json (db_file d) r = Ok j → find_row (row_key r) (tbl d) = None →
    R d (set_tbl (tbl d ++ [j]) d)) →
  within R (upsert_row r).
Proof.
  intros H H' d u d' (j & ? & ->)%upsert_row_Ok.
  destruct (find_row (row_key r) (tbl d)) eqn:E; simpl; eauto.
Qed.

Lemma within_delete_row key :
  (∀ d, R d (set_tbl (remove_row key (tbl d)) d)) → within R (delete_row key).
Proof. intros H d u d' ->%st_modify_Ok. auto. Qed.
End within_rows.
End ops.

#[export] Hint Resolve within_get within_select within_all within_required
  within_to_json : st.

(** [util::id]: the next identifier. *)
Definition fresh {host : Host} : M string := λ d,
  Ok (uuid d.(db_uuids), d <| db_uuids := S d.(db_uuids) |>).

Definition checked_expiry (now ttl : Z) : Res StoreError Z :=
  if ttl <? 0 then Err (InvalidInput "lease TTL must not be negative")
  else ok_or (InvalidInput "lease expiry overflow") (checked_add_i64 now ttl).

Lemma checked_expiry_Ok now ttl r :
  checked_expiry now ttl = Ok r → 0 ≤ ttl ∧ r = now + ttl ∧ i64_min ≤ r ≤ i64_max.
Proof.
  unfold checked_expiry, checked_add_i64. destruct (ttl <? 0) eqn:E; [done|].
  destruct (checked _ _ _) eqn:C; [|done]. intros [= <-].
  apply checked_Some in C as [-> ?]. reflect_bools. lia.
Qed.

Lemma within_fresh {host : Host} (R : Db → Db → Prop) :
  (∀ d n, R d (d <| db_uuids := n |>)) → within R fresh.
Proof. intros H d ? d' [= _ <-]. apply H. Qed.
