(* ===== verification/Outbox.v ===== *)
(** * Outbox and settings

    [store/src/data.rs]: the durable outbox (enqueue, claim with a delivery
    window, publish, fail, prune) and the settings documents (bind,
    compare-and-set, read-modify-write). *)

From S2P Require Export Store.
Local Open Scope Z_scope.

Section outbox.
Context {host : Host}.

Definition enqueue (input : OutboxInput) (now : Z) : M OutboxRecord :=
  id ← (match input.(oi_id) with Some id => mret id | None => fresh end);
  let record := mkOutbox id input.(oi_topic) input.(oi_run_id) input.(oi_payload)
    now input.(oi_available_at) 0 None None None None None in
  _ ← insert_row record;
  mret record.

Definition enqueue_outbox := enqueue.

(** [due.sort_by_key(|r| (r.available_at, r.created_at, r.id.clone()))] *)
Definition outbox_le (a b : OutboxRecord) : bool :=
  if o_available_at a =? o_available_at b then
    if o_created_at a =? o_created_at b then String.leb (o_id a) (o_id b)
    else o_created_at a <? o_created_at b
  else o_available_at a <? o_available_at b.

Definition outbox_due (now max_attempts : Z) (r : OutboxRecord) : bool :=
  negb (is_some r.(o_published_at)) && (r.(o_available_at) <=? now)
    && (r.(o_attempts) <? max_attempts)
    && is_none_or r.(o_claim_until) (λ expiry, expiry <=? now).

Definition claim_record (owner_id : string) (expires : Z) (r : OutboxRecord) : M OutboxRecord :=
  token ← fresh;
  let r := r <| o_attempts := r.(o_attempts) + 1 |> <| o_claim_owner := Some owner_id |>
    <| o_claim_token := Some token |> <| o_claim_until := Some expires |> in
  _ ← update_row r;
  mret r.

Definition claim_outbox (owner_id : string) (now ttl_ms : Z) (limit : nat) (max_attempts : Z)
    : M (list OutboxRecord) :=
  expires ← lift (checked_expiry now ttl_ms);
  _ ← guard_or (negb (max_attempts =? 0)) (InvalidInput "max_attempts must be positive");
  due ← select (outbox_due now max_attempts);
  let due := take (Nat.min limit (Z.to_nat 10000)) (sort_by outbox_le due) in
  for_map (claim_record owner_id expires) due.

Definition release_claim (r : OutboxRecord) : OutboxRecord :=
  r <| o_claim_token := None |> <| o_claim_owner := None |> <| o_claim_until := None |>.

Definition finish_outbox (record_id token : string) (now : Z) (failure : option (string * Z))
    : M unit :=
  r ← required (A := OutboxRecord) record_id;
  _ ← guard_or (ostr_eqb r.(o_claim_token) (Some token)
        && negb (is_none_or r.(o_claim_until) (λ expiry, expiry <=? now)))
        (InvalidInput "outbox claim lost");
  let r := match failure with
    | Some (error, retry) => r <| o_last_error := Some error |> <| o_available_at := retry |>
    | None => r <| o_published_at := Some now |>
    end in
  update_row (release_claim r).

Definition publish_outbox (record_id claim_token : string) (now : Z) : M unit :=
  finish_outbox record_id claim_token now None.
Definition fail_outbox (record_id claim_token : string) (now : Z) (error : string) (retry_at : Z)
    : M unit :=
  finish_outbox record_id claim_token now (Some (error, retry_at)).

Definition mark_outbox_published (record_id : string) (at_ : Z) : M unit :=
  r ← required (A := OutboxRecord) record_id;
  update_row (r <| o_published_at := Some at_ |>).

Definition mark_outbox_failed (record_id error : string) (retry_at : Z) : M unit :=
  r ← required (A := OutboxRecord) record_id;
  update_row (release_claim (r <| o_last_error := Some error |> <| o_available_at := retry_at |>)).

Definition prunable (before max_attempts : Z) (r : OutboxRecord) : bool :=
  is_some_and r.(o_published_at) (λ at_, at_ <? before)
  || (negb (is_some r.(o_published_at)) && (max_attempts <=? r.(o_attempts))
      && (r.(o_created_at) <? before) && is_none_or r.(o_claim_until) (λ until, until <? before)).

Definition prune_outbox (before max_attempts : Z) : M nat :=
  _ ← guard_or (negb (max_attempts =? 0)) (InvalidInput "max_attempts must be positive");
  rows ← select (prunable before max_attempts);
  _ ← for_each (λ r, delete_row (A := OutboxRecord) (o_id r)) rows;
  mret (length rows).
End outbox.

(** ** Settings *)

(** The row of a namespace key, and [INSERT ... ON CONFLICT DO UPDATE]. *)
Fixpoint setting_get (namespace key : string) (l : list (string * string * Value)) : option Value :=
  match l with
  | [] => None
  | (n, k, v) :: l =>
      if String.eqb n namespace && String.eqb k key then Some v else setting_get namespace key l
  end.
Fixpoint setting_put (namespace key : string) (v : Value) (l : list (string * string * Value))
    : list (string * string * Value) :=
  match l with
  | [] => [(namespace, key, v)]
  | (n, k, w) :: l =>
      if String.eqb n namespace && String.eqb k key then (n, k, v) :: l
      else (n, k, w) :: setting_put namespace key v l
  end.

Section settings.
Definition get_setting (namespace key : string) : M (option Value) :=
  gets (λ d, setting_get namespace key d.(db_settings)).

Definition set_setting (namespace key : string) (value : Value) : M unit :=
  modify (λ d, d <| db_settings := setting_put namespace key (json_value d.(db_file) value) d.(db_settings) |>).

Definition compare_and_set_setting (namespace key : string) (expected : option Value) (next : Value)
    : M bool :=
  current ← get_setting namespace key;
  if negb (ovalue_eqb current expected) then mret false else
  _ ← set_setting namespace key next;
  mret true.

Definition bind_setting (namespace key : string) (value : Value) : M bool :=
  existing ← get_setting namespace key;
  match existing with
  | Some existing => mret (value_eqb existing value)
  | None => _ ← set_setting namespace key value; mret true
  end.

Definition update_setting (namespace key : string) (dflt : Value) (merge : Value → Value) : M Value :=
  current ← get_setting namespace key;
  let next := merge (default dflt current) in
  _ ← set_setting namespace key next;
  mret next.

Definition delete_setting (namespace key : string) : M bool :=
  current ← get_setting namespace key;
  _ ← modify (λ d, d <| db_settings := base.filter
        (λ '(n, k, _), ¬ (n = namespace ∧ k = key)) d.(db_settings) |>);
  mret (is_some current).
End settings.
