(* ===== verification/TaskEvents.v ===== *)
(** * The task event log

    [store/src/tasks/events.rs] (the append path): sequence numbers strictly
    increase per task, the durable identity of an agent-bound task is
    stamped into every event, and each event is mirrored to the outbox. *)

From S2P Require Export Outbox.
Local Open Scope Z_scope.

Section events.
Context {host : Host}.

(** [Map::insert] on an object. *)

Definition task_events (task_id : string) (d : Db) : list EventRecord :=
  filter_by (λ e, String.eqb e.(e_task_id) task_id) d.(db_events).

Definition Qc_max (a b : Qc) : Qc := if bool_decide (a ≤ b)%Qc then b else a.
(** [SELECT MAX(seq)], [-1.0] for an empty log. *)
Definition max_seq (l : list EventRecord) : Qc :=
  foldr (λ e acc, Qc_max e.(e_seq) acc) (Q2Qc (-1)) l.

Definition last (task_id : string) : M Qc :=
  _ ← required (A := TaskRecord) task_id;
  gets (λ d, max_seq (task_events task_id d)).

(** *** Identity stamping *)

Definition stamp_event (task_id : string) (task : TaskRecord) (agent_id : string) (agent_revision : Z)
    (attempt_id : option string) (event : Value) : Value :=
  match event with
  | VObj map =>
      let map := obj_insert "agentId" (VStr agent_id) map in
      let map := obj_insert "taskId" (VStr task_id) map in
      let map := obj_insert "definitionRevision" (int_value agent_revision) map in
      let map := match attempt_id with
        | Some attempt_id =>
            if is_none_or (obj_get "attemptId" map ≫= as_str) (λ s, String.eqb s "")
            then obj_insert "attemptId" (VStr attempt_id) map else map
        | None => map
        end in
      VObj (if is_some (obj_get "status" map) then map
            else obj_insert "status" (VStr (status_text task.(t_status))) map)
  | _ => event
  end.

(** The [TaskEventEnvelopeSchema] check of one event. *)
Definition checked_envelope (event : Value) : M unit :=
  guard_or (valid_envelope event) (InvalidInput "invalid task event envelope").

Definition stamp_identities (task_id : string) (events : list Value) : M (list Value) :=
  task ← required (A := TaskRecord) task_id;
  match task.(t_agent_id), task.(t_agent_revision) with
  | Some agent_id, Some agent_revision =>
      lease ← get (A := Lease) task_id;
      for_map (λ event, _ ← checked_envelope event;
        mret (stamp_event task_id task agent_id agent_revision (l_attempt_id <$> lease) event)) events
  | _, _ => _ ← for_each checked_envelope events; mret events
  end.

(** *** Appending *)

Definition event_id (event : Value) : option string := as_str (vindex event "eventId").

(** The table's [PRIMARY KEY(task_id,seq)] and [UNIQUE(task_id,event_id)];
    an event without an id panics, which the worker answers as
    [Internal]. *)
Definition insert_event (record : EventRecord) : M unit :=
  id ← lift (ok_or (Internal "called `Option::unwrap()` on a `None` value")
               (event_id record.(e_event)));
  j ← (λ d, lift (json_event d.(db_file) record) d);
  old ← gets (task_events record.(e_task_id));
  _ ← guard_or (negb (existsb (λ e, bool_decide (e.(e_seq) = record.(e_seq))
                                || ostr_eqb (event_id e.(e_event)) (Some id)) old))
        (Database "UNIQUE constraint failed");
  modify (λ d, d <| db_events := d.(db_events) ++ [j] |>).

Definition insert (record : EventRecord) (now : Z) : M unit :=
  _ ← insert_event record;
  _ ← enqueue (mkOutboxInput None "task.events" (Some record.(e_task_id))
        record.(e_event) now) now;
  mret tt.

Definition next_seq (previous : Qc) (event : Value) : Res StoreError Qc :=
  match javascript_number (vindex event "seq") ≫= finite with
  | Some sequence =>
      if bool_decide (previous < sequence)%Qc then Ok sequence
      else Err (InvalidInput ("event seq must be greater than " +:+ show_f64 previous))
  | None => Err (InvalidInput ("event seq must be greater than " +:+ show_f64 previous))
  end.

Fixpoint append_from (task_id : string) (previous : Qc) (events : list Value) (now : Z)
    : M (list EventRecord) :=
  match events with
  | [] => mret []
  | event :: events =>
      sequence ← lift (next_seq previous event);
      let record := mkEvent task_id sequence event now in
      _ ← insert record now;
      records ← append_from task_id sequence events now;
      mret (record :: records)
  end.

Definition append (task_id : string) (events : list Value) (now : Z) : M (list EventRecord) :=
  previous ← last task_id;
  events ← stamp_identities task_id events;
  append_from task_id previous events now.
End events.
