(* ===== verification/AgentInputs.v ===== *)
(** * Durable agent-session inputs

    [store/src/agent_inputs.rs]: steers, follow-ups and human requests.
    Creation is idempotent on the input id, a status moves by
    compare-and-set along the per-kind machine, and [order] is the FIFO
    key. *)

From S2P Require Export Store.
Local Open Scope Z_scope.

(** [AGENT_INPUT_TRANSITIONS]: the targets from [Pending]. *)
Definition agent_input_targets (kind : AgentInputKind) : list AgentInputStatus :=
  match kind with
  | Steer => [Applied; Converted; CancelledInput]
  | FollowUp => [Converted; CancelledInput]
  | HumanRequest => [Answered; CancelledInput]
  end.

Definition input_status_debug (s : AgentInputStatus) : string :=
  match s with
  | Pending => "Pending" | Applied => "Applied" | Converted => "Converted"
  | Answered => "Answered" | CancelledInput => "Cancelled"
  end.
Definition input_kind_debug (k : AgentInputKind) : string :=
  match k with
  | Steer => "Steer" | FollowUp => "FollowUp" | HumanRequest => "HumanRequest"
  end.
(** The [{:?}] text of a list. *)
Definition debug_list {A} (show : A → string) (l : list A) : string :=
  "[" +:+ String.concat ", " (map show l) +:+ "]".

Definition legal_input_edge (record : AgentInputRecord) (to : AgentInputStatus) : bool :=
  bool_decide (record.(i_status) = Pending)
    && bool_decide (to ∈ agent_input_targets record.(i_kind)).

Definition assert_agent_input_transition (record : AgentInputRecord)
    (from : list AgentInputStatus) (to : AgentInputStatus) : Res StoreError unit :=
  if negb (bool_decide (record.(i_status) ∈ from)) then
    Err (InvalidTransition ("Input " +:+ record.(i_input_id) +:+ " is "
      +:+ input_status_debug record.(i_status) +:+ ", expected one of "
      +:+ debug_list input_status_debug from +:+ "."))
  else if negb (legal_input_edge record to) then
    Err (InvalidTransition ("Input " +:+ record.(i_input_id) +:+ " ("
      +:+ input_kind_debug record.(i_kind) +:+ ") cannot move "
      +:+ input_status_debug record.(i_status) +:+ " → " +:+ input_status_debug to +:+ "."))
  else Ok tt.

Definition str_empty (s : string) : bool := String.eqb s "".

Definition validate_create_agent_input (input : CreateAgentInput) : Res StoreError unit :=
  let bad message := Err (InvalidInput message) in
  if str_empty input.(cr_input_id) then bad "inputId must be a non-empty string."
  else if str_empty input.(cr_session_id) then bad "sessionId must be a non-empty string."
  else if str_empty input.(cr_content_hash) then bad "contentHash must be a non-empty string."
  else if is_some input.(cr_on_settled) && negb (bool_decide (input.(cr_kind) = Steer))
  then bad "onSettled is only valid for steer."
  else if bool_decide (input.(cr_kind) = HumanRequest)
    && is_none_or input.(cr_attempt_id) str_empty
  then bad "attemptId is required for human_request."
  else if bool_decide (input.(cr_kind) = HumanRequest)
    && is_none_or input.(cr_tool_call_id) str_empty
  then bad "toolCallId is required for human_request."
  else if negb (bool_decide (input.(cr_kind) = HumanRequest))
    && (is_some input.(cr_attempt_id) || is_some input.(cr_tool_call_id)
        || is_some input.(cr_expires_at))
  then bad "attemptId, toolCallId and expiresAt are only valid for human_request."
  else if is_some_and input.(cr_target_task_id) str_empty
  then bad "targetTaskId must be non-empty when present."
  else if is_some_and input.(cr_expires_at) (λ value, negb (is_some (parse_iso_millis value)))
  then bad "expiresAt must be a valid ISO timestamp."
  else Ok tt.

Section inputs.
Context {host : Host}.

Definition next_order : M Z :=
  current ← gets db_input_order;
  next ← lift (ok_or (InvalidInput "input order overflow") (checked_add_i64 current 1));
  _ ← modify (λ d, d <| db_input_order := next |>);
  mret next.

Definition input_conflicts (existing : AgentInputRecord) (input : CreateAgentInput) : bool :=
  negb (String.eqb existing.(i_session_id) input.(cr_session_id))
  || negb (bool_decide (existing.(i_kind) = input.(cr_kind)))
  || negb (String.eqb existing.(i_content_hash) input.(cr_content_hash))
  || is_some existing.(i_agent_id).

Definition insert_input (input : CreateAgentInput) (now_text : string)
    : M (AgentInputRecord * bool) :=
  _ ← lift (validate_create_agent_input input);
  existing ← get (A := AgentInputRecord) input.(cr_input_id);
  match existing with
  | Some existing =>
      if input_conflicts existing input then
        throw (Duplicate ("input_conflict: input " +:+ input.(cr_input_id)
          +:+ " already exists with different kind, session, or content."))
      else mret (existing, false)
  | None =>
      order ← next_order;
      let record := mkInput input.(cr_input_id) input.(cr_session_id) None
        input.(cr_kind) Pending input.(cr_content) input.(cr_content_hash) order
        input.(cr_target_task_id) input.(cr_on_settled) input.(cr_attempt_id)
        input.(cr_tool_call_id) input.(cr_expires_at) None None None now_text now_text in
      _ ← insert_row record;
      mret (record, true)
  end.

Definition get_input (input_id : string) : M (option AgentInputRecord) := get input_id.

Definition input_le (a b : AgentInputRecord) : bool := i_order a <=? i_order b.

Definition input_matches (query : AgentInputQuery) (r : AgentInputRecord) : bool :=
  String.eqb r.(i_session_id) query.(q_session_id)
  && is_none_or query.(q_target_task_id) (λ t, ostr_eqb r.(i_target_task_id) (Some t))
  && negb (is_some r.(i_agent_id))
  && is_none_or query.(q_kinds) (λ kinds, bool_decide (r.(i_kind) ∈ kinds))
  && is_none_or query.(q_statuses) (λ statuses, bool_decide (r.(i_status) ∈ statuses)).

Definition list_inputs (query : AgentInputQuery) : M (list AgentInputRecord) :=
  records ← select (input_matches query);
  mret (sort_by input_le records).

(** The row a transition writes. *)
Definition moved_input (to : AgentInputStatus) (patch : AgentInputPatch) (now_text : string)
    (record : AgentInputRecord) : AgentInputRecord :=
  record <| i_status := to |>
    <| i_applied_task_id := opt_or patch.(ip_applied_task_id) record.(i_applied_task_id) |>
    <| i_applied_message_id := opt_or patch.(ip_applied_message_id) record.(i_applied_message_id) |>
    <| i_answer_id := opt_or patch.(ip_answer_id) record.(i_answer_id) |>
    <| i_updated_at := now_text |>.

Definition transition_input (input_id : string) (from : list AgentInputStatus)
    (to : AgentInputStatus) (patch : AgentInputPatch) (now_text : string) : M AgentInputRecord :=
  o ← get_input input_id;
  record ← lift (ok_or (NotFound ("agent input " +:+ input_id +:+ " does not exist")) o);
  _ ← lift (assert_agent_input_transition record from to);
  let record := moved_input to patch now_text record in
  _ ← update_row record;
  mret record.

Definition delete_session_inputs (session_id : string) : M nat :=
  rows ← select (λ r : AgentInputRecord,
    String.eqb r.(i_session_id) session_id && negb (is_some r.(i_agent_id)));
  _ ← for_each (λ r, delete_row (A := AgentInputRecord) (i_input_id r)) rows;
  mret (length rows).

(** The timestamp an operation stamps, [InvalidInput] out of range. *)
Definition epoch_of (now : Z) : Res StoreError ConversationTimestamp :=
  ok_or (InvalidInput "timestamp is outside JavaScript Date range") (from_epoch_millis now).
Definition text_of (now : Z) : Res StoreError string :=
  t ← epoch_of now;
  ok_or (InvalidInput "timestamp is outside JavaScript Date range") (wire_text t).

Definition create_input (input : CreateAgentInput) (now : Z) : M (AgentInputRecord * bool) :=
  now_text ← lift (text_of now);
  insert_input input now_text.

Definition transition_input_op (input_id : string) (from : list AgentInputStatus)
    (to : AgentInputStatus) (patch : AgentInputPatch) (now : Z) : M AgentInputRecord :=
  now_text ← lift (text_of now);
  transition_input input_id from to patch now_text.

(** *** [session_ops.rs]: cancelling a turn's human requests *)

(** A lost compare-and-set is an expected race outcome.  The transition
    writes once, last, so a refused one leaves the database as it was. *)
Definition ignore_lost_cas (m : M AgentInputRecord) : M unit := λ d,
  match m d with
  | Ok (_, d') => Ok (tt, d')
  | Err (InvalidTransition _) => Ok (tt, d)
  | Err e => Err e
  end.

Definition cancel_turn_requests (session_id turn_id : string) (now : Z) : M unit :=
  now_text ← lift (text_of now);
  records ← list_inputs (mkInputQuery session_id (Some [HumanRequest]) (Some [Pending])
    (Some turn_id));
  for_each (λ record, ignore_lost_cas (transition_input record.(i_input_id) [Pending]
    CancelledInput (mkInputPatch None None None) now_text)) records.
End inputs.
