(* ===== verification/Conversations.v ===== *)
(** * Conversations

    [store/src/conversations.rs]: chats and their message trees, with one
    active branch per chat, and [conversations/order.rs], the order the
    provider sees. *)

From S2P Require Export AgentInputs.
Local Open Scope Z_scope.

(** [Iterator::max] of unsigned keys, with the code's [unwrap_or(0)]. *)
Definition max_or_zero (l : list Z) : Z := foldr Z.max 0 l.

Definition valid_role (role : string) : bool :=
  mem_str role ["user"; "assistant"; "tool"; "system"].

Section conversations.
Context {host : Host}.
Implicit Types (m : MessageRecord) (ms : list MessageRecord).

Definition save_message (m : MessageRecord) : M unit := update_row m.

Definition chat_messages (chat_id : string) : M (list MessageRecord) :=
  select (λ m, String.eqb m.(m_chat_id) chat_id).

(** *** The active branch *)

Definition kids ms (leaf : MessageRecord) : list MessageRecord :=
  filter_by (λ m, ostr_eqb m.(m_parent_message_id) (Some leaf.(m_id)) && negb m.(m_archived)) ms.

(** The child [activate] follows: the active one, or the first branch. *)
Definition next_child ms (leaf : MessageRecord) : option MessageRecord :=
  opt_or (find_by m_active (kids ms leaf)) (min_by_key m_branch_index (kids ms leaf)).

(** The two loops of [activate]; [None] is a loop that does not end. *)
Fixpoint descend (fuel : nat) ms (leaf : MessageRecord) : option MessageRecord :=
  match fuel with
  | O => None
  | S fuel => match next_child ms leaf with
              | Some child => descend fuel ms child
              | None => Some leaf
              end
  end.

Definition find_message ms (id : string) : option MessageRecord :=
  find_by (λ m, String.eqb m.(m_id) id) ms.

Fixpoint ascend (fuel : nat) ms (cursor : option string) (path : list string)
    : option (Res StoreError (list string)) :=
  match cursor with
  | None => Some (Ok path)
  | Some id =>
      match fuel with
      | O => None
      | S fuel =>
          match find_message ms id with
          | None => Some (Err (NotFound id))
          | Some node => ascend fuel ms node.(m_parent_message_id) (path ++ [id])
          end
      end
  end.

Definition diverges : StoreError := Internal "loop does not terminate".

Definition path_of ms (target : MessageRecord) : Res StoreError (list string) :=
  leaf ← ok_or diverges (descend (S (length ms)) ms target);
  path ← ok_or diverges (ascend (S (length ms)) ms (Some leaf.(m_id)) []);
  path.

Definition set_active (path : list string) (m : MessageRecord) : MessageRecord :=
  m <| m_active := mem_str m.(m_id) path |>.

(** The row update of [activate]: written only when the flag changes. *)
Definition activation (path : list string) (m : MessageRecord) : M unit :=
  if Bool.eqb m.(m_active) (mem_str m.(m_id) path) then mret tt
  else save_message (set_active path m).

Definition order_key_le (a b : MessageRecord) : bool := m_order_key a <=? m_order_key b.

Definition activate (message_id : string) : M (list MessageRecord) :=
  target ← required (A := MessageRecord) message_id;
  _ ← guard_or (negb target.(m_archived)) (NotFound message_id);
  messages ← chat_messages target.(m_chat_id);
  path ← lift (path_of messages target);
  _ ← for_each (activation path) messages;
  mret (sort_by order_key_le (filter_by m_active (map (set_active path) messages))).

(** *** Appending *)

Definition active_leaf ms : option MessageRecord := max_by_key m_depth (filter_by m_active ms).

Definition parent_for ms (input : MessageInput) : option string :=
  if input.(mi_explicit_root) then None
  else opt_or input.(mi_parent_message_id) (m_id <$> active_leaf ms).

(** An archived parent does not exist for appends. *)
Definition live_parent ms (parent_id : option string) : Res StoreError (option MessageRecord) :=
  match parent_id with
  | None => Ok None
  | Some id =>
      match find_message ms id with
      | Some p => if p.(m_archived) then Err (NotFound id) else Ok (Some p)
      | None => Err (NotFound id)
      end
  end.

Definition siblings ms (parent_id : option string) : list MessageRecord :=
  filter_by (λ m, ostr_eqb m.(m_parent_message_id) parent_id) ms.

Definition appended_active ms (input : MessageInput) (parent_id : option string)
    (parent : option MessageRecord) : bool :=
  input.(mi_activate)
  || is_some_and parent m_active
     && negb (existsb (λ m, ostr_eqb m.(m_parent_message_id) parent_id && m.(m_active)) ms).

Definition new_message ms (input : MessageInput) (id chat_id : string)
    (parent_id : option string) (parent : option MessageRecord) (created_at : ConversationTimestamp)
    : MessageRecord :=
  mkMessage id chat_id input.(mi_run_id) input.(mi_role) input.(mi_content) parent_id
    input.(mi_tool_call_id) input.(mi_tool_calls) input.(mi_model_result_json)
    input.(mi_metadata)
    (wrapping_succ_u64 (max_or_zero (map m_order_key ms)))
    (match parent with None => 0 | Some p => wrapping_succ_u32 p.(m_depth) end)
    (max_or_zero (map (λ m, wrapping_succ_u32 m.(m_branch_index)) (siblings ms parent_id)))
    (appended_active ms input parent_id parent) false created_at.

Definition touch_chat (chat : ChatRecord) (now : Z) : M unit :=
  updated_at ← lift (epoch_of now);
  update_row (chat <| ch_updated_at := updated_at |>).

Definition sql_integer (value : Z) : Res StoreError Z :=
  if value <=? i64_max then Ok value else Err (InvalidInput "integer exceeds SQLite range").

(** The [UNIQUE(chat_id, order_key)] constraint. *)
Definition order_key_free (message : MessageRecord) : M unit :=
  taken ← gets (λ d, existsb (λ m, String.eqb m.(m_chat_id) message.(m_chat_id)
                                && (m.(m_order_key) =? message.(m_order_key))) d.(db_messages));
  guard_or (negb taken) (Database "UNIQUE constraint failed").

Definition append (input : MessageInput) (now : Z) : M MessageRecord :=
  _ ← guard_or (valid_role input.(mi_role)) (InvalidInput "invalid message role");
  chat ← required (A := ChatRecord) input.(mi_chat_id);
  _ ← guard_or (input.(mi_activate) || is_some input.(mi_parent_message_id))
        (InvalidInput "chain append requires explicit parent");
  messages ← chat_messages chat.(ch_id);
  let parent_id := parent_for messages input in
  parent ← lift (live_parent messages parent_id);
  id ← (match input.(mi_id) with Some id => mret id | None => fresh end);
  created_at ← lift (epoch_of now);
  let message := new_message messages input id chat.(ch_id) parent_id parent created_at in
  duplicate ← get (A := MessageRecord) message.(m_id);
  _ ← guard_or (negb (is_some duplicate)) (Duplicate message.(m_id));
  _ ← lift (sql_integer message.(m_order_key));
  _ ← order_key_free message;
  _ ← insert_row message;
  _ ← (if input.(mi_activate) then _ ← activate message.(m_id); mret tt else mret tt);
  _ ← touch_chat chat now;
  mret message.

(** *** Projecting a run's message *)

Definition with_placeholder (metadata : Value) : Res StoreError Value :=
  match metadata with
  | VObj o => Ok (VObj (match obj_get "placeholder" o with
                        | Some _ => o
                        | None => obj_insert "placeholder" (VBool false) o
                        end))
  | _ => Err (InvalidInput "message metadata must be an object")
  end.

Definition placeholder (m : MessageRecord) : bool :=
  is_some_and (vget m.(m_metadata) "placeholder") is_true.

Definition project (input : MessageInput) (now : Z) : M MessageRecord :=
  existing ← (match input.(mi_id) with
              | Some id => get (A := MessageRecord) id | None => mret None end);
  match existing with
  | None => append input now
  | Some m =>
      _ ← guard_or (String.eqb m.(m_chat_id) input.(mi_chat_id)
            && ostr_eqb m.(m_run_id) input.(mi_run_id)
            && String.eqb m.(m_role) input.(mi_role) && placeholder m)
            (InvalidInput "projection may only replace its own placeholder");
      metadata ← lift (with_placeholder input.(mi_metadata));
      let m := m <| m_content := input.(mi_content) |> <| m_metadata := metadata |>
        <| m_tool_call_id := input.(mi_tool_call_id) |>
        <| m_tool_calls := input.(mi_tool_calls) |>
        <| m_model_result_json := input.(mi_model_result_json) |> in
      _ ← save_message m;
      chat ← required (A := ChatRecord) m.(m_chat_id);
      _ ← touch_chat chat now;
      mret m
  end.

(** *** The store's entry points *)

Definition create_chat (chat_id : string) (title : option string) (metadata : Value) (now : Z)
    : M ChatRecord :=
  existing ← get (A := ChatRecord) chat_id;
  _ ← guard_or (negb (is_some existing)) (Duplicate chat_id);
  at_ ← lift (epoch_of now);
  let chat := mkChat chat_id title metadata false at_ at_ in
  _ ← insert_row chat;
  mret chat.

Definition update_chat (chat_id : string) (title : option string) (metadata : option Value)
    (archived : option bool) (now : Z) : M ChatRecord :=
  chat ← required (A := ChatRecord) chat_id;
  updated_at ← lift (epoch_of now);
  let chat := chat <| ch_title := opt_or title chat.(ch_title) |>
    <| ch_metadata := default chat.(ch_metadata) metadata |>
    <| ch_archived := default chat.(ch_archived) archived |>
    <| ch_updated_at := updated_at |> in
  _ ← update_row chat;
  mret chat.

Definition mutate_chat {T} (chat_id : string) (now : Z)
    (mutate : ChatRecord → Res StoreError (T * ChatRecord)) : M T :=
  chat ← required (A := ChatRecord) chat_id;
  r ← lift (mutate chat);
  updated_at ← lift (epoch_of now);
  _ ← (j ← to_json (r.2 <| ch_updated_at := updated_at |>);
       modify (λ d, d <| db_chats := map (λ c, if String.eqb (ch_id c) chat_id then j else c)
                           d.(db_chats) |>));
  mret r.1.

Definition messages (chat_id : string) (include_inactive : bool) : M (list MessageRecord) :=
  ms ← chat_messages chat_id;
  mret (sort_by order_key_le (filter_by (λ m, include_inactive || m.(m_active)) ms)).

Definition activate_path (message_id : string) : M (list MessageRecord) := activate message_id.
End conversations.
