(* ===== verification/Proposals.v ===== *)
(** * Proposals and their receipts

    [store/src/proposals.rs]: a proposed action is decided, claimed for
    application under an operation id, and settled with a receipt.  The
    [receipts] table keeps the outcome of an operation for good; the columns
    of [proposals] repeat the record's and carry two unique indices. *)

From S2P Require Export Models Store.
Local Open Scope Z_scope.

Implicit Types (p q : ProposalRecord) (outcome : ApplyOutcome).

Definition allowed (from to : ProposalStatus) : bool :=
  match from, to with
  | PPending, (PApproved | PRejected | PInvalidated)
  | PApproved, PApplying
  | PApplying, (PApplied | PFailed) => true
  | _, _ => false
  end.

Definition proposal_status_debug (s : ProposalStatus) : string :=
  match s with
  | PPending => "Pending" | PApproved => "Approved" | PApplying => "Applying"
  | PApplied => "Applied" | PFailed => "Failed" | PRejected => "Rejected"
  | PInvalidated => "Invalidated"
  end.

(** [util::safe_integer]. *)
Definition safe_integer (value : Value) : option Z :=
  match value with
  | VNum n =>
      q ← finite n;
      if bool_decide (Qden (this q) = 1%positive) && in_range 0 max_safe (Qnum (this q))
      then Some (Qnum (this q)) else None
  | _ => None
  end.

(** The loop of [validate_apply_outcome] over the failures: each names an
    operation of the proposal, none twice, with an error text. *)
Fixpoint invalid_failures (operations : Z) (seen : list Z) (failures : list Value) : bool :=
  match failures with
  | [] => false
  | failure :: failures =>
      match safe_integer (vindex failure "opIndex") with
      | None => true
      | Some index =>
          (operations <=? index) || bool_decide (index ∈ seen)
          || negb (is_some (as_str (vindex failure "error")))
          || invalid_failures operations (index :: seen) failures
      end
  end.

Definition validate_apply_outcome p outcome : Res StoreError unit :=
  let operations := Z.of_nat (length p.(pr_operations)) in
  let failed := Z.of_nat (length outcome.(ao_failed_ops)) in
  let invalid_count :=
    is_none_or (checked 0 u64_max (outcome.(ao_applied_ops) + failed))
      (λ count, operations <? count) in
  if negb (mem_str outcome.(ao_status) ["applied"; "partial"; "failed"])
    || invalid_failures operations [] outcome.(ao_failed_ops)
    || invalid_count
    || String.eqb outcome.(ao_status) "failed" && negb (outcome.(ao_applied_ops) =? 0)
    || String.eqb outcome.(ao_status) "applied" && negb (failed =? 0)
  then Err (InvalidInput "invalid domain apply outcome; reconciliation required")
  else Ok tt.

(** The rows the partial index [proposal_action] covers: every status except
    the releasing pair, with an action id. *)
Definition holds_action p : bool :=
  is_some p.(pr_action_id)
  && negb (bool_decide (p.(pr_status) = PRejected) || bool_decide (p.(pr_status) = PInvalidated)).
Definition same_action p q : bool :=
  String.eqb p.(pr_scope_key) q.(pr_scope_key) && ostr_eqb p.(pr_action_id) q.(pr_action_id).

(** Two rows that may not both be stored: the [UNIQUE] column and the partial
    index. *)
Definition rows_clash p q : bool :=
  negb (String.eqb p.(pr_id) q.(pr_id))
  && (is_some p.(pr_operation_id) && ostr_eqb p.(pr_operation_id) q.(pr_operation_id)
      || holds_action p && holds_action q && same_action p q).

(** A status the terminal stamp of an outcome sets. *)
Definition stamp_of outcome : ProposalStatus :=
  if String.eqb outcome.(ao_status) "failed" then PFailed else PApplied.

(** The decision and the reason of a patch, as far as it has them. *)
Definition patch_decision (patch : ProposalPatch) (now : Z) p : ProposalRecord :=
  if is_some patch.(pp_decision)
  then p <| pr_decision := patch.(pp_decision) |> <| pr_decided_at := Some now |> else p.
Definition patch_reason (patch : ProposalPatch) p : ProposalRecord :=
  if is_some patch.(pp_reason) then p <| pr_reason := patch.(pp_reason) |> else p.

(** The row a transition writes. *)
Definition moved_proposal (to : ProposalStatus) (patch : ProposalPatch) (now : Z) p
    : ProposalRecord :=
  let p := p <| pr_status := to |> in
  let p := if is_some patch.(pp_operation_id)
           then p <| pr_operation_id := patch.(pp_operation_id) |> else p in
  let p := patch_reason patch (patch_decision patch now p) in
  let p := if bool_decide (to = PApplying) then p <| pr_claimed_at := Some now |> else p in
  if bool_decide (to = PApplied) then p <| pr_applied_at := Some now |> else p.

(** The terminal stamp. *)
Definition stamped outcome (now : Z) p : ProposalRecord :=
  p <| pr_status := stamp_of outcome |> <| pr_applied_at := Some now |>.

(** [actor == "policy"] without a [policyId]. *)
Definition unnamed_policy (decision : Value) : bool :=
  ostr_eqb (vget decision "actor" ≫= as_str) (Some "policy")
  && is_none_or (vget decision "policyId" ≫= as_str) (λ s, String.eqb s "").

Section proposals.
Context {host : Host}.

(** [UPDATE proposals SET ... WHERE id=?] *)
Definition save p : M unit :=
  j ← to_json p;
  rows ← all (A := ProposalRecord);
  _ ← guard_or (negb (existsb (λ r, String.eqb r.(pr_id) p.(pr_id)) rows
                      && existsb (rows_clash p) rows))
        (Database "UNIQUE constraint failed");
  modify (λ d, d <| db_proposals := replace_row j d.(db_proposals) |>).

(** [INSERT INTO receipts VALUES(?,?,?)] *)
Definition insert_receipt (column : option string) (receipt : ReceiptRecord) : M unit :=
  j ← to_json (mkReceiptRow column receipt);
  rows ← all (A := ReceiptRow);
  _ ← guard_or (negb (existsb (λ r, String.eqb (rr_operation r) (rr_operation j)) rows
                      || is_some column && existsb (λ r, ostr_eqb r.(rr_proposal) column) rows))
        (Database "UNIQUE constraint failed");
  proposals ← all (A := ProposalRecord);
  _ ← guard_or (is_none_or column (λ id, existsb (λ p, String.eqb p.(pr_id) id) proposals))
        (Database "FOREIGN KEY constraint failed");
  modify (λ d, d <| db_receipts := d.(db_receipts) ++ [j] |>).

(** [DELETE FROM proposals WHERE id=?], with the receipt that hangs off it. *)
Definition delete_proposal (id : string) : M unit :=
  _ ← delete_row (A := ProposalRecord) id;
  modify (λ d, d <| db_receipts :=
    filter_by (λ r, negb (ostr_eqb r.(rr_proposal) (Some id))) d.(db_receipts) |>).

Definition get_receipt (operation_id : string) : M (option ReceiptRecord) :=
  row ← get (A := ReceiptRow) operation_id;
  mret (rr_record <$> row).

Definition create_proposal p : M ProposalRecord :=
  _ ← guard_or (bool_decide (p.(pr_status) = PPending) && negb (is_some p.(pr_operation_id)))
        (InvalidInput "new proposal must be pending without operation id");
  _ ← guard_or (mem_str p.(pr_risk) ["low"; "medium"; "high"; "destructive"])
        (InvalidInput "invalid risk level");
  rows ← all (A := ProposalRecord);
  _ ← (match p.(pr_action_id), find_by (λ r, holds_action r && same_action r p) rows with
       | Some action, Some holder =>
           throw (Duplicate ("action_id " +:+ action +:+ " already used in scope "
             +:+ p.(pr_scope_key) +:+ " by proposal " +:+ holder.(pr_id) +:+ "."))
       | _, _ => mret tt
       end);
  _ ← insert_row p;
  mret p.

Definition get_proposal (proposal_id : string) : M (option ProposalRecord) := get proposal_id.

Definition proposals (chat_id : option string) (status : option ProposalStatus)
    : M (list ProposalRecord) :=
  select (λ p, is_none_or chat_id (λ id, String.eqb id p.(pr_chat_id))
    && is_none_or status (λ s, bool_decide (s = p.(pr_status)))).

Definition proposal_by_action (scope action : string) : M (option ProposalRecord) :=
  rows ← select (λ p, String.eqb p.(pr_scope_key) scope && ostr_eqb p.(pr_action_id) (Some action));
  mret (max_by_key pr_created_at rows).

(** The status error of a refused edge. *)
Definition wrong_edge p (to : ProposalStatus) : StoreError :=
  InvalidTransition (proposal_status_debug p.(pr_status) +:+ " to " +:+ proposal_status_debug to).

Definition transition_proposal (proposal_id : string) (from : list ProposalStatus)
    (to : ProposalStatus) (patch : ProposalPatch) (now : Z) : M ProposalRecord :=
  p ← required (A := ProposalRecord) proposal_id;
  _ ← guard_or (bool_decide (p.(pr_status) ∈ from) && allowed p.(pr_status) to) (wrong_edge p to);
  _ ← (match to, p.(pr_operation_id) with
       | (PApplied | PFailed), Some operation_id =>
           bound ← get_receipt operation_id;
           guard_or (negb (is_some bound)) (InvalidInput
             "terminal apply transition requires complete_proposal and bound receipt")
       | _, _ => mret tt
       end);
  _ ← guard_or (negb (bool_decide (to = PApplying)
                      && is_none_or patch.(pp_operation_id) (λ s, String.eqb s "")))
        (InvalidInput "apply claim requires operation id");
  _ ← guard_or (negb (negb (bool_decide (to = PApplying)) && is_some patch.(pp_operation_id)))
        (InvalidInput "operation id can only be set by apply claim");
  _ ← guard_or (negb (is_some_and patch.(pp_decision) unnamed_policy))
        (InvalidInput "policy decision requires policyId");
  let p := moved_proposal to patch now p in
  _ ← save p;
  mret p.

(** The claimed proposal of a completion. *)
Definition claimed_proposal (proposal_id operation_id : string) : M ProposalRecord :=
  p ← required (A := ProposalRecord) proposal_id;
  _ ← guard_or (ostr_eqb p.(pr_operation_id) (Some operation_id))
        (InvalidInput "receipt does not match proposal operation");
  mret p.

Definition complete_proposal (proposal_id operation_id : string) outcome (now : Z)
    : M ReceiptRecord :=
  p ← claimed_proposal proposal_id operation_id;
  existing ← get_receipt operation_id;
  match existing with
  | Some receipt =>
      _ ← guard_or (String.eqb receipt.(rc_proposal_id) proposal_id)
            (InvalidInput "receipt belongs to another proposal");
      _ ← (if bool_decide (p.(pr_status) = PApplying)
           then save (stamped receipt.(rc_outcome) now p) else mret tt);
      mret receipt
  | None =>
      _ ← guard_or (bool_decide (p.(pr_status) = PApplying))
            (InvalidTransition "receipt requires applying proposal");
      _ ← lift (validate_apply_outcome p outcome);
      let receipt := mkReceipt proposal_id operation_id outcome now in
      _ ← insert_receipt (Some proposal_id) receipt;
      _ ← save (stamped outcome now p);
      mret receipt
  end.

Definition receipt (operation_id : string) : M (option ReceiptRecord) := get_receipt operation_id.

Definition finalize_apply (input : FinalizeApply) : M ReceiptRecord :=
  let proposal_id := input.(fa_proposal_id) in
  let operation_id := input.(fa_operation_id) in
  let stamp outcome p := patch_decision input.(fa_patch) input.(fa_now)
    (patch_reason input.(fa_patch) (stamped outcome input.(fa_now) p)) in
  _ ← guard_or (bool_decide (input.(fa_to) = PApplied) || bool_decide (input.(fa_to) = PFailed))
        (InvalidInput "finalize needs applied or failed");
  _ ← guard_or (negb (is_some input.(fa_patch).(pp_operation_id)))
        (InvalidInput "operation id can only be set by apply claim");
  p ← claimed_proposal proposal_id operation_id;
  _ ← guard_or (bool_decide (p.(pr_status) ∈ input.(fa_from)) && allowed p.(pr_status) input.(fa_to))
        (wrong_edge p input.(fa_to));
  existing ← get_receipt operation_id;
  match existing with
  | Some receipt =>
      _ ← guard_or (String.eqb receipt.(rc_proposal_id) proposal_id)
            (InvalidInput "receipt belongs to another proposal");
      _ ← save (stamp receipt.(rc_outcome) p);
      mret receipt
  | None =>
      _ ← lift (validate_apply_outcome p input.(fa_outcome));
      let receipt := mkReceipt proposal_id operation_id input.(fa_outcome) input.(fa_now) in
      _ ← insert_receipt (Some proposal_id) receipt;
      _ ← save (stamp input.(fa_outcome) p);
      mret receipt
  end.

Definition record_outcome (operation_id : string) outcome (now : Z) : M ReceiptRecord :=
  existing ← get_receipt operation_id;
  match existing with
  | Some receipt => mret receipt
  | None =>
      rows ← select (λ p, ostr_eqb p.(pr_operation_id) (Some operation_id));
      let proposal_id := default "" (pr_id <$> max_by_key pr_created_at rows) in
      let receipt := mkReceipt proposal_id operation_id outcome now in
      _ ← insert_receipt (if String.eqb proposal_id "" then None else Some proposal_id) receipt;
      mret receipt
  end.

Definition delete_proposals_by_chat (chat_id : string) : M nat :=
  rows ← select (λ p, String.eqb p.(pr_chat_id) chat_id);
  _ ← for_each (λ p, delete_proposal p.(pr_id)) rows;
  mret (length rows).

Definition stale (scope revision : string) p : bool :=
  String.eqb p.(pr_scope_key) scope && bool_decide (p.(pr_status) = PPending)
  && negb (ostr_eqb p.(pr_revision_at_create) (Some revision)).

Definition invalidate_pending (scope revision : string) : M nat :=
  rows ← select (stale scope revision);
  _ ← for_each (λ p, save (p <| pr_status := PInvalidated |>
                             <| pr_reason := Some "revision_conflict" |>)) rows;
  mret (length rows).
End proposals.
