(* ===== verification/ProviderOrder.v ===== *)
(** * The provider's message order

    [store/src/conversations/order.rs]: within a run, a tool result is moved
    behind the internal assistant message that called it and the run's
    visible messages come last; runs keep their slots in the
    conversation. *)

From stdpp Require Export gmap.
From S2P Require Export Models.
Local Open Scope Z_scope.

Implicit Types (m : MessageRecord) (records : list MessageRecord).

Definition meta_true (key : string) (m : MessageRecord) : bool :=
  is_some_and (vget m.(m_metadata) key) is_true.

Definition internal_assistant (record : MessageRecord) : bool :=
  String.eqb record.(m_role) "assistant" && meta_true "internal" record.

Definition prefix (record : MessageRecord) : bool :=
  String.eqb record.(m_role) "tool" || internal_assistant record.

(** [tools]: the run's tool results by call id. *)
Definition add_tool (tools : gmap string (list MessageRecord)) (record : MessageRecord)
    : gmap string (list MessageRecord) :=
  match record.(m_tool_call_id) with
  | Some call => <[call := default [] (tools !! call) ++ [record]]> tools
  | None => tools
  end.
Definition tool_groups records : gmap string (list MessageRecord) :=
  foldl add_tool ∅ (filter_by (λ m, String.eqb m.(m_role) "tool") records).

(** The ids of an assistant message's calls: an array of objects with a
    string [id]. *)
Definition call_ids (record : MessageRecord) : list string :=
  match record.(m_tool_calls) with
  | Some (VArr calls) => omap (λ call, vget call "id" ≫= as_str) calls
  | _ => []
  end.

(** [tools.remove(id)] for each call: the results taken and what is left. *)
Fixpoint take_groups (ids : list string) (tools : gmap string (list MessageRecord))
    : list MessageRecord * gmap string (list MessageRecord) :=
  match ids with
  | [] => ([], tools)
  | id :: ids =>
      match tools !! id with
      | Some group => let '(results, tools) := take_groups ids (delete id tools) in
                      (group ++ results, tools)
      | None => take_groups ids tools
      end
  end.

(** The loop over the internal assistants: [claimed] and [groups]. *)
Fixpoint claim_groups (assistants : list MessageRecord) (tools : gmap string (list MessageRecord))
    (claimed : list string) (groups : gmap string (list MessageRecord))
    : list string * gmap string (list MessageRecord) :=
  match assistants with
  | [] => (claimed, groups)
  | a :: assistants =>
      let '(results, tools) := take_groups (call_ids a) tools in
      claim_groups assistants tools (claimed ++ map m_id results) (<[m_id a := results]> groups)
  end.

Fixpoint emit (l : list MessageRecord) (groups : gmap string (list MessageRecord))
    : list MessageRecord :=
  match l with
  | [] => []
  | r :: l =>
      match groups !! m_id r with
      | Some group => r :: group ++ emit l (delete (m_id r) groups)
      | None => r :: emit l groups
      end
  end.

Definition order_run records : list MessageRecord :=
  if existsb (meta_true "canonicalProviderTurn") records then records
  else
    let '(claimed, groups) :=
      claim_groups (filter_by internal_assistant records) (tool_groups records) [] ∅ in
    emit (filter_by (λ m, prefix m && negb (mem_str m.(m_id) claimed)) records) groups
      ++ filter_by (λ m, negb (prefix m)) records.

(** [BTreeMap::entry(run).or_default().push(position)], in key order. *)
Fixpoint slot_push (run : string) (position : nat) (slots : list (string * list nat))
    : list (string * list nat) :=
  match slots with
  | [] => [(run, [position])]
  | (r, ps) :: slots' =>
      if String.eqb r run then (r, ps ++ [position]) :: slots'
      else if String.ltb run r then (run, [position]) :: slots
      else (r, ps) :: slot_push run position slots'
  end.

(** The run whose slot a message holds: a user message holds none. *)
Definition slot_run (record : MessageRecord) : option string :=
  if String.eqb record.(m_role) "user" then None else record.(m_run_id).

Definition run_slots records : list (string * list nat) :=
  foldl (λ slots '(position, record),
      match slot_run record with Some run => slot_push run position slots | None => slots end)
    [] (imap pair records).

(** [for (position, record) in positions.iter().zip(run)] *)
Fixpoint write_slots (positions : list nat) (run ordered : list MessageRecord)
    : list MessageRecord :=
  match positions, run with
  | p :: positions, r :: run => write_slots positions run (<[p := r]> ordered)
  | _, _ => ordered
  end.

Definition reorder records : list MessageRecord :=
  foldl (λ ordered '(_, positions),
      write_slots positions (order_run (omap (λ p, records !! p) positions)) ordered)
    records (run_slots records).

Definition order_messages_for_provider records : list MessageRecord :=
  reorder (sort_by (λ a b, a.(m_order_key) <=? b.(m_order_key)) records).
