(* ===== verification/Tasks.v ===== *)
(** * The task queue

    [store/src/tasks.rs] and [tasks/lease.rs]: submission, the fenced
    writes, and the claim that admits one task to a worker. *)

From S2P Require Export TaskEvents Conversations.
Local Open Scope Z_scope.

(** ** Priority aging *)

Record TaskAging := mkAging { interval_ms : Z; bonus : Z; max_bonus : Z }.

Definition default_aging_interval_ms : Z := 30000.
Definition default_aging : TaskAging := mkAging default_aging_interval_ms 0 i64_max.

Definition aging_validate (a : TaskAging) : Res StoreError unit :=
  if (a.(bonus) <? 0) || (a.(max_bonus) <? 0) || (a.(interval_ms) <=? 0)
  then Err (InvalidInput "task aging requires bonus >= 0, max_bonus >= 0, interval_ms > 0")
  else Ok tt.

Definition effective_priority (a : TaskAging) (priority enqueued_at now : Z) : Z :=
  if a.(bonus) =? 0 then priority
  else
    let interval := if 0 <? a.(interval_ms) then a.(interval_ms) else default_aging_interval_ms in
    let wait := Z.max (sat_sub now enqueued_at) 0 in
    let earned := sat_mul (wait ÷ interval) a.(bonus) in
    sat_add priority (Z.min earned a.(max_bonus)).

Section tasks.
Context {host : Host}.
Implicit Types (t task : TaskRecord).

(** ** Shared steps *)

Definition save (task : TaskRecord) : M unit := update_row task.

Definition lease_valid (proof : LeaseFence) (now : Z) (lease : Lease) : bool :=
  String.eqb lease.(l_lease_token) proof.(f_lease_token)
  && (lease.(l_fencing_token) =? proof.(f_fencing_token))
  && (now <? lease.(l_expires_at)).


Definition fence (proof : LeaseFence) (now : Z) : M Lease :=
  lease ← get (A := Lease) proof.(f_task_id);
  lift (ok_or (LeaseLost proof.(f_task_id)) (opt_filter (lease_valid proof now) lease)).

Definition ostr_value (o : option string) : Value :=
  match o with Some s => VStr s | None => VNull end.

Definition lifecycle_event (task : TaskRecord) (kind : string) (now : Z) : M unit :=
  let event := VObj [("type", VStr kind); ("taskId", VStr task.(t_task_id));
    ("status", VStr (status_text task.(t_status))); ("error", ostr_value task.(t_error))] in
  _ ← enqueue (mkOutboxInput None "tasks.lifecycle" (Some task.(t_task_id)) event now) now;
  mret tt.

(** ** Submission *)

Definition scope_busy (scope : string) (d : Db) : bool :=
  existsb (λ t, String.eqb t.(t_scope_id) scope && negb (is_terminal t.(t_status))) d.(db_tasks).

Definition check_dependency (dependency : string) : M unit :=
  o ← get (A := TaskRecord) dependency;
  guard_or (is_some o) (InvalidInput ("unknown dependency: " +:+ dependency)).

Definition new_task (input : SubmitTask) (binding : option TaskBinding) : TaskRecord :=
  mkTask input.(s_task_id) input.(s_kind) input.(s_scope_id) Queued input.(s_payload)
    input.(s_priority) input.(s_now) (default input.(s_now) input.(s_available_at))
    None None input.(s_depends_on) input.(s_parent_task_id) 0 0 None None None None
    false None false false (b_agent_id <$> binding) (b_agent_revision <$> binding)
    (b_admission_key <$> binding) (binding ≫= b_run_profile).

Definition insert_bound (input : SubmitTask) (binding : option TaskBinding) : M TaskRecord :=
  existing ← get (A := TaskRecord) input.(s_task_id);
  _ ← guard_or (negb (is_some existing)) (Duplicate input.(s_task_id));
  _ ← guard_or (negb (str_empty input.(s_task_id) || str_empty input.(s_scope_id)
                      || str_empty input.(s_kind)))
        (InvalidInput "task id, scope, and kind must be nonempty");
  busy ← gets (λ d, input.(s_exclusive_scope) && scope_busy input.(s_scope_id) d);
  _ ← guard_or (negb busy) (ScopeBusy input.(s_scope_id));
  _ ← for_each check_dependency (input.(s_depends_on) ++ option_list input.(s_parent_task_id));
  let task := new_task input binding in
  _ ← insert_row task;
  _ ← lifecycle_event task "task.queued" input.(s_now);
  mret task.

Definition insert (input : SubmitTask) : M TaskRecord := insert_bound input None.

Definition submit (input : SubmitTask) : M TaskRecord := insert input.

Definition validate_projection (task : TaskRecord) (message : MessageInput) : Res StoreError unit :=
  if negb (String.eqb message.(mi_chat_id) task.(t_scope_id))
     || negb (ostr_eqb message.(mi_run_id) (Some task.(t_task_id)))
  then Err (InvalidInput "message scope/run does not match task") else Ok tt.

Definition replay_mismatch (task : TaskRecord) (input : SubmitTask) : bool :=
  negb (String.eqb task.(t_kind) input.(s_kind))
  || negb (String.eqb task.(t_scope_id) input.(s_scope_id))
  || negb (value_eqb task.(t_payload) input.(s_payload))
  || negb (bool_decide (task.(t_depends_on) = input.(s_depends_on)))
  || negb (ostr_eqb task.(t_parent_task_id) input.(s_parent_task_id)).

Definition turn_message (task : TaskRecord) (now : Z) (message : MessageInput) : M unit :=
  _ ← (if String.eqb message.(mi_role) "user" && negb (is_some message.(mi_run_id))
       then guard_or (String.eqb message.(mi_chat_id) task.(t_scope_id))
              (InvalidInput "message scope does not match task")
       else lift (validate_projection task message));
  _ ← Conversations.append message now;
  mret tt.

Definition submit_turn (input : SubmitTask) (messages : list MessageInput) : M TaskRecord :=
  existing ← get (A := TaskRecord) input.(s_task_id);
  match existing with
  | Some task =>
      if replay_mismatch task input then throw (InvalidInput "task replay identity mismatch")
      else mret task
  | None =>
      task ← insert input;
      _ ← for_each (turn_message task input.(s_now)) messages;
      mret task
  end.

(** ** Fenced writes *)

Definition verify_fence (proof : LeaseFence) (now : Z) : M unit :=
  _ ← fence proof now; mret tt.

Definition append_events (proof : LeaseFence) (events : list Value) (now : Z)
    : M (list EventRecord) :=
  _ ← fence proof now;
  TaskEvents.append proof.(f_task_id) events now.

Definition project_message (task : TaskRecord) (now : Z) (message : MessageInput) : M unit :=
  _ ← lift (validate_projection task message);
  _ ← project message now;
  mret tt.

Definition append_projected (proof : LeaseFence) (events : list Value)
    (messages : list MessageInput) (now : Z) : M (list EventRecord) :=
  _ ← fence proof now;
  task ← required (A := TaskRecord) proof.(f_task_id);
  records ← TaskEvents.append proof.(f_task_id) events now;
  _ ← for_each (project_message task now) messages;
  mret records.

Definition append_message (input : MessageInput) (proof : option LeaseFence) (now : Z)
    : M MessageRecord :=
  _ ← (match proof with
       | Some proof =>
           _ ← fence proof now;
           guard_or (ostr_eqb input.(mi_run_id) (Some proof.(f_task_id)))
             (InvalidInput "message run does not match lease task")
       | None => mret tt
       end);
  Conversations.append input now.

(** ** Leases *)

Definition acquire (task_id attempt_id owner_id : string) (now ttl_ms : Z) : M Lease :=
  expires_at ← lift (checked_expiry now ttl_ms);
  current ← gets db_fence;
  token ← lift (ok_or (Database "integer overflow") (checked_add_i64 current 1));
  _ ← modify (λ d, d <| db_fence := token |>);
  lease_token ← fresh;
  _ ← guard_or (0 <=? token) (InvalidInput "fencing token overflow");
  let lease := mkLease task_id attempt_id owner_id lease_token token expires_at in
  _ ← upsert_row lease;
  mret lease.

Definition get_lease (task_id : string) : M (option Lease) := get task_id.

Definition acquire_lease (task_id attempt_id owner_id : string) (now ttl_ms : Z) : M Lease :=
  _ ← required (A := TaskRecord) task_id;
  acquire task_id attempt_id owner_id now ttl_ms.

(** ** Claiming *)

(** The scan: the statuses that can hold a slot, block a lane or be
    claimed. *)
Definition scanned (t : TaskRecord) : bool :=
  match t.(t_status) with
  | Queued | Running | WaitingApproval | WaitingChild | Uncertain => true
  | _ => false
  end.

Definition queued t : bool := bool_decide (t.(t_status) = Queued).
Definition running t : bool := bool_decide (t.(t_status) = Running).

Definition occupies (t : TaskRecord) : bool := running t || (t.(t_retry_pending) && queued t).

Definition claim_le (aging : TaskAging) (now : Z) (a b : TaskRecord) : bool :=
  let pa := effective_priority aging a.(t_priority) a.(t_enqueued_at) now in
  let pb := effective_priority aging b.(t_priority) b.(t_enqueued_at) now in
  if pa =? pb then a.(t_enqueued_at) <=? b.(t_enqueued_at) else pb <? pa.

Definition candidate (now : Z) (t : TaskRecord) : bool :=
  (queued t || (running t && t.(t_retry_pending))) && (t.(t_available_at) <=? now)
  && negb (is_some t.(t_dead_lettered_at)).

Definition holds_lane (t : TaskRecord) : bool :=
  match t.(t_status) with
  | Running | WaitingApproval | WaitingChild | Uncertain => true
  | Queued => t.(t_retry_pending)
  | _ => false
  end.

Definition same_lane (task t : TaskRecord) : bool :=
  String.eqb t.(t_scope_id) task.(t_scope_id)
  || (is_some task.(t_agent_id) && ostr_eqb t.(t_agent_id) task.(t_agent_id)).

Definition lane_busy (tasks : list TaskRecord) (task : TaskRecord) : bool :=
  existsb (λ t, negb (String.eqb t.(t_task_id) task.(t_task_id)) && same_lane task t
                && holds_lane t) tasks.

(** The [continue]s of the loop that read only the snapshot. *)
Definition admissible (input : ClaimInput) (concurrency occupied : Z)
    (tasks : list TaskRecord) (task : TaskRecord) : bool :=
  (bool_decide (input.(ci_kinds) = []) || mem_str task.(t_kind) input.(ci_kinds))
  && negb (queued task && negb task.(t_retry_pending) && (concurrency <=? occupied))
  && negb (mem_str task.(t_scope_id) input.(ci_busy_scopes) || lane_busy tasks task).

Definition dependency_failed (o : option TaskRecord) : bool :=
  is_none_or o (λ t, bool_decide (t.(t_status) = Failed) || is_some t.(t_dead_lettered_at)).
Definition dependency_cancelled (o : option TaskRecord) : bool :=
  is_some_and o (λ t, bool_decide (t.(t_status) = Cancelled)).

Definition fail_dependent (task : TaskRecord) (failed cancelled : bool) (id : string) (now : Z)
    : TaskRecord :=
  task <| t_status := if cancelled && negb failed then Cancelled else Failed |>
    <| t_error := if failed then Some ("dependency_failed: " +:+ id) else None |>
    <| t_finished_at := Some now |> <| t_retry_pending := false |>.

Fixpoint dependency_loop (ids : list string) (task : TaskRecord) (now : Z) (blocked : bool)
    : M bool :=
  match ids with
  | [] => mret (negb blocked)
  | id :: ids =>
      dependency ← get (A := TaskRecord) id;
      let failed := dependency_failed dependency in
      let cancelled := dependency_cancelled dependency in
      if failed || cancelled then
        let task := fail_dependent task failed cancelled id now in
        _ ← save task;
        _ ← lifecycle_event task "task.settled" now;
        mret false
      else
        dependency_loop ids task now (blocked
          || is_some_and dependency (λ t, negb (bool_decide (t.(t_status) = Completed))))
  end.

Definition dependencies (task : TaskRecord) (now : Z) : M bool :=
  dependency_loop task.(t_depends_on) task now false.

Definition dispatch_fenced (task : TaskRecord) : bool :=
  is_some_and task.(t_run_profile) (profile_refused task.(t_agent_id)).

Definition dead_lettered (reason : string) (now : Z) (task : TaskRecord) : TaskRecord :=
  task <| t_status := Failed |> <| t_retry_pending := false |>
    <| t_finished_at := Some now |> <| t_dead_lettered_at := Some now |>
    <| t_dead_letter_reason := Some reason |> <| t_error := Some reason |>.

Definition dead_letter (task : TaskRecord) (now : Z) (reason : string) : M TaskRecord :=
  let task := dead_lettered reason now task in
  _ ← save task;
  _ ← lifecycle_event task "task.dead_lettered" now;
  mret task.

Definition started (task : TaskRecord) (now : Z) : TaskRecord :=
  task <| t_status := Running |> <| t_retry_pending := false |>
    <| t_interrupt_requested := false |>
    <| t_attempt_count := wrapping_succ_u32 task.(t_attempt_count) |>
    <| t_started_at := Some now |>.

Definition start (task : TaskRecord) (input : ClaimInput) : M ClaimedTask :=
  let task := started task input.(ci_now) in
  attempt_id ← fresh;
  let attempt := mkAttempt attempt_id task.(t_task_id) task.(t_attempt_count) "running"
    input.(ci_owner_id) input.(ci_now) None None in
  lease ← acquire task.(t_task_id) attempt_id input.(ci_owner_id) input.(ci_now) input.(ci_ttl_ms);
  _ ← insert_row attempt;
  _ ← save task;
  _ ← lifecycle_event task "task.started" input.(ci_now);
  mret (mkClaimed task lease).

Fixpoint claim_loop (input : ClaimInput) (concurrency occupied : Z) (tasks : list TaskRecord)
    (candidates : list TaskRecord) : M (option ClaimedTask) :=
  match candidates with
  | [] => mret None
  | task :: candidates =>
      let continue := claim_loop input concurrency occupied tasks candidates in
      if negb (admissible input concurrency occupied tasks task) then continue else
      ready ← dependencies task input.(ci_now);
      if negb ready then continue else
      if dispatch_fenced task then continue else
      if input.(ci_max_attempts) <=? task.(t_attempt_count) then
        _ ← dead_letter task input.(ci_now) "attempts_exhausted";
        continue
      else
        claimed ← start task input;
        mret (Some claimed)
  end.

Definition claim_with_concurrency (aging : TaskAging) (input : ClaimInput) (concurrency : Z)
    : M (option ClaimedTask) :=
  _ ← lift (aging_validate aging);
  _ ← lift (checked_expiry input.(ci_now) input.(ci_ttl_ms));
  _ ← guard_or (negb ((input.(ci_max_attempts) =? 0) || (concurrency =? 0)))
        (InvalidInput "max_attempts and concurrency must be positive");
  tasks ← select scanned;
  let occupied := Z.of_nat (length (filter_by occupies tasks)) in
  let tasks := sort_by (claim_le aging input.(ci_now)) tasks in
  claim_loop input concurrency occupied tasks (filter_by (candidate input.(ci_now)) tasks).

Definition claim (aging : TaskAging) (input : ClaimInput) : M (option ClaimedTask) :=
  claim_with_concurrency aging input u64_max.
End tasks.
