(* ===== verification/Receipts.v ===== *)
(** * Execution receipts

    [store/src/execution_receipts.rs], [execution_resolution.rs] and
    [execution_no_start.rs]: the durable record that a mutating tool was
    admitted, and what became of it.  The ledger is the store with the tables
    [tool_executions] and [uncertainty_barriers] beside it; a row is its
    record, whose columns repeat three of its fields.  The digests of JSON
    texts are a parameter. *)

From S2P Require Export Tasks AgentInputs Utf8.
Local Open Scope Z_scope.

Inductive ReceiptStatus := ReceiptAdmitted | ReceiptCompleted | Resolved.
#[export] Instance ReceiptStatus_eq_dec : EqDecision ReceiptStatus.
Proof. solve_decision. Defined.
Inductive ResolutionOutcome := OutcomeCompleted | NotStarted | Acknowledged.
#[export] Instance ResolutionOutcome_eq_dec : EqDecision ResolutionOutcome.
Proof. solve_decision. Defined.
Inductive ArgsHashProvenance := Canonical | TsCanonical.
#[export] Instance ArgsHashProvenance_eq_dec : EqDecision ArgsHashProvenance.
Proof. solve_decision. Defined.

Record ExecutionResolution := mkResolution {
  rl_outcome : ResolutionOutcome;
  rl_note : option string;
  rl_resolved_at : Z;
  rl_resolved_by : option string
}.

(** The record, and the digest of the admitting fence stored beside it. *)
Record ExecutionReceiptRecord := mkReceiptRecord {
  er_execution_id : string;
  er_run_id : string;
  er_chat_id : string;
  er_tool_call_id : string;
  er_tool_name : string;
  er_args_sha256 : string;
  er_args_hash_provenance : ArgsHashProvenance;
  er_context_sha256 : string;
  er_attempt_id : string;
  er_approval_request_id : option string;
  er_approval_generation : option string;
  er_status : ReceiptStatus;
  er_result : option Value;
  er_resolution : option ExecutionResolution;
  er_authority : option string
}.

Record ExecutionReceiptAdmission := mkAdmission {
  ad_execution_id : string;
  ad_run_id : string;
  ad_chat_id : string;
  ad_tool_call_id : string;
  ad_tool_name : string;
  ad_args_sha256 : string;
  ad_ts_args_sha256 : option string;
  ad_args_hash_provenance : ArgsHashProvenance;
  ad_context_sha256 : string;
  ad_attempt_id : string;
  ad_approval_request_id : option string;
  ad_approval_generation : option string;
  ad_now : Z
}.

Record UncertaintyBarrierRecord := mkBarrier {
  ub_barrier_id : string;
  ub_chat_id : option string;
  ub_run_id : option string;
  ub_tool_name : string;
  ub_args_sha256 : option string;
  ub_args_hash_provenance : ArgsHashProvenance;
  ub_reason : string
}.

(** ** The ledger *)

Record Ledger := mkLedger {
  lg_db : Db;
  lg_executions : list ExecutionReceiptRecord;
  lg_barriers : list UncertaintyBarrierRecord;
  (** [run_bindings]: the chat a run is bound to. *)
  lg_bindings : list (string * string)
}.
Abbreviation LM := (St Ledger StoreError).

Definition on_db {A} (m : M A) : LM A := λ s,
  match m s.(lg_db) with
  | Ok (a, d) => Ok (a, mkLedger d s.(lg_executions) s.(lg_barriers) s.(lg_bindings))
  | Err e => Err e
  end.
Definition set_executions (rows : list ExecutionReceiptRecord) : LM unit :=
  modify (λ s, mkLedger s.(lg_db) rows s.(lg_barriers) s.(lg_bindings)).
Definition set_barriers (rows : list UncertaintyBarrierRecord) : LM unit :=
  modify (λ s, mkLedger s.(lg_db) s.(lg_executions) rows s.(lg_bindings)).

(** SHA-256 of the JSON text of a value, in lower case hex. *)
Class Digests := { json_sha256 : Value → string; json_len : Value → Z }.

(** ** Matching *)

Definition args_match (provenance : ArgsHashProvenance) (stored args_sha256 : string) (ts_args_sha256 : option string) : bool :=
  String.eqb stored args_sha256
  || bool_decide (provenance = TsCanonical) && is_some_and ts_args_sha256 (λ hash, String.eqb hash stored).

Definition blocks (b : UncertaintyBarrierRecord) (tool_name args_sha256 : string) (ts_args_sha256 : option string) : bool :=
  String.eqb b.(ub_tool_name) tool_name
  && is_none_or b.(ub_args_sha256) (λ stored, args_match b.(ub_args_hash_provenance) stored args_sha256 ts_args_sha256).

Definition hex_char (c : ascii) : bool :=
  let n := Z.of_nat (nat_of_ascii c) in in_range 48 57 n || in_range 97 102 n.
Definition is_hex64 (value : string) : bool :=
  (String.length value =? 64)%nat && forallb hex_char (String.list_ascii_of_string value).
Definition empty_text (s : string) : bool := String.eqb s "".

(** ** Reading rows *)

Definition unreadable {A} (reason : string) : Res StoreError A :=
  Err (RecoveryUnreadable ("A durable execution receipt is malformed (" +:+ reason +:+ "); mutations remain blocked.")).

Definition is_object (v : Value) : bool := match v with VObj _ => true | _ => false end.

(** [read_execution_receipt] on a row, whose columns are the record's own
    fields. *)
Definition read_execution_receipt (r : ExecutionReceiptRecord) : Res StoreError ExecutionReceiptRecord :=
  if existsb empty_text [r.(er_execution_id); r.(er_run_id); r.(er_chat_id); r.(er_tool_call_id); r.(er_tool_name); r.(er_attempt_id)]
  then unreadable "a field must be non-empty"
  else if negb (is_hex64 r.(er_args_sha256) && is_hex64 r.(er_context_sha256))
  then unreadable "a hash must be 64 lowercase hex characters"
  else if is_some_and r.(er_approval_request_id) empty_text || is_some_and r.(er_approval_generation) empty_text
  then unreadable "a field must be non-empty when present"
  else if bool_decide (r.(er_status) = ReceiptCompleted) && negb (is_some_and r.(er_result) is_object)
  then unreadable "a completed receipt must carry a tool-result object"
  else if bool_decide (r.(er_status) = Resolved)
          && (is_some r.(er_result)
              || is_none_or r.(er_resolution) (λ resolution, bool_decide (resolution.(rl_outcome) = OutcomeCompleted)))
  then unreadable "a resolved receipt must carry a non-completed resolution and no result"
  else Ok r.

Definition read_rows (rows : list ExecutionReceiptRecord) : LM (list ExecutionReceiptRecord) :=
  lift (res_mapM read_execution_receipt rows).
Definition of_run (run_id : string) (r : ExecutionReceiptRecord) : bool := String.eqb r.(er_run_id) run_id.
Definition select_run (run_id : string) : LM (list ExecutionReceiptRecord) :=
  rows ← gets (λ s, filter_by (of_run run_id) s.(lg_executions));
  read_rows rows.
Definition list_executions : string → LM (list ExecutionReceiptRecord) := select_run.
Definition list_executions_by_chat (chat_id : string) : LM (list ExecutionReceiptRecord) :=
  rows ← gets (λ s, filter_by (λ r, String.eqb r.(er_chat_id) chat_id) s.(lg_executions));
  read_rows rows.
Definition is_admitted (r : ExecutionReceiptRecord) : bool := bool_decide (r.(er_status) = ReceiptAdmitted).
Definition count_admitted : LM nat := gets (λ s, length (filter_by is_admitted s.(lg_executions))).

(** ** Barriers *)

Definition read_barrier (b : UncertaintyBarrierRecord) : Res StoreError UncertaintyBarrierRecord :=
  let unreadable reason :=
    Err (RecoveryUnreadable ("An uncertainty barrier is malformed (" +:+ reason +:+ "); mutations remain blocked.")) in
  if empty_text b.(ub_tool_name) then unreadable "toolName must be non-empty"
  else if is_some_and b.(ub_args_sha256) (λ hash, negb (is_hex64 hash))
  then unreadable "argsSha256 must be 64 lowercase hex characters"
  else if empty_text b.(ub_barrier_id) || empty_text b.(ub_reason) then unreadable "barrierId and reason must be non-empty"
  else Ok b.

(** The rows of this chat, of this run, of a run bound to this chat, or of
    nobody. *)
Definition in_scope (bindings : list (string * string)) (chat_id run_id : string) (b : UncertaintyBarrierRecord) : bool :=
  negb (is_some b.(ub_chat_id)) && negb (is_some b.(ub_run_id))
  || ostr_eqb b.(ub_chat_id) (Some chat_id)
  || ostr_eqb b.(ub_run_id) (Some run_id)
  || is_some_and b.(ub_run_id) (λ run, existsb (λ p, String.eqb p.1 run && String.eqb p.2 chat_id) bindings).
Definition select_barriers (chat_id run_id : string) : LM (list UncertaintyBarrierRecord) :=
  rows ← gets (λ s, filter_by (in_scope s.(lg_bindings) chat_id run_id) s.(lg_barriers));
  lift (res_mapM read_barrier rows).
Definition list_uncertainty_barriers : string → string → LM (list UncertaintyBarrierRecord) := select_barriers.

Definition merged_barrier (old new : UncertaintyBarrierRecord) : UncertaintyBarrierRecord :=
  mkBarrier old.(ub_barrier_id) (opt_or old.(ub_chat_id) new.(ub_chat_id)) (opt_or old.(ub_run_id) new.(ub_run_id))
    old.(ub_tool_name) old.(ub_args_sha256) new.(ub_args_hash_provenance) old.(ub_reason).
Definition has_barrier (id : string) (b : UncertaintyBarrierRecord) : bool := String.eqb b.(ub_barrier_id) id.
Definition insert_barrier (barrier : UncertaintyBarrierRecord) : LM bool :=
  if empty_text barrier.(ub_barrier_id) || empty_text barrier.(ub_tool_name) || empty_text barrier.(ub_reason)
     || is_some_and barrier.(ub_args_sha256) (λ hash, negb (is_hex64 hash))
  then throw (InvalidInput "an uncertainty barrier needs a barrier id, tool name, reason and a well-formed argument hash")
  else
    rows ← gets lg_barriers;
    if existsb (has_barrier barrier.(ub_barrier_id)) rows then
      _ ← set_barriers (map (λ b, if has_barrier barrier.(ub_barrier_id) b then merged_barrier b barrier else b) rows);
      mret false
    else
      _ ← set_barriers (rows ++ [barrier]);
      mret true.

(** ** Admission *)

Definition approval_mismatch : StoreError :=
  InvalidInput "approval_mismatch: approval does not authorize this execution".

Definition str_at (content : Value) (key : string) : option string := vget content key ≫= as_str.
Definition not_a_string (v : option Value) : bool := is_some_and v (λ v, negb (is_some (as_str v))).

(** Whether an answered request authorizes exactly this execution. *)
Definition approves (request : AgentInputRecord) (id : string) (a : ExecutionReceiptAdmission) : bool :=
  let content := request.(i_content) in
  let generation := vget content "approvalGeneration" in
  let legacy := vget content "uncertaintyGeneration" in
  let hash := vget content "contextSha256" in
  negb (not_a_string generation
        || not_a_string legacy
        || is_some generation && is_some legacy && negb (ovalue_eqb generation legacy)
        || not_a_string hash
        || negb (String.eqb request.(i_input_id) id)
        || negb (bool_decide (request.(i_kind) = HumanRequest))
        || negb (bool_decide (request.(i_status) = Answered))
        || negb (is_some_and request.(i_applied_message_id)
                   (λ marker, String.prefix "approval:" marker && (9 <? String.length marker)%nat))
        || is_none_or request.(i_answer_id) empty_text
        || negb (String.eqb request.(i_session_id) a.(ad_chat_id))
        || negb (ostr_eqb request.(i_target_task_id) (Some a.(ad_run_id)))
        || negb (ostr_eqb request.(i_tool_call_id) (Some a.(ad_tool_call_id)))
        || negb (ostr_eqb (str_at content "kind") (Some "approval"))
        || negb (ostr_eqb (str_at content "toolName") (Some a.(ad_tool_name)))
        || negb (ostr_eqb (str_at content "argsSha256") (Some a.(ad_args_sha256)))
        || negb (ostr_eqb (opt_or generation legacy ≫= as_str) a.(ad_approval_generation))
        || is_some_and hash (λ v, negb (ostr_eqb (as_str v) (Some a.(ad_context_sha256))))).

Section digests.
Context `{Host} {digests : Digests}.

(** [generation.or(legacy)] without a request is no authorization. *)
Definition validate_approval (a : ExecutionReceiptAdmission) : LM unit :=
  match a.(ad_approval_request_id) with
  | None => guard_or (negb (is_some a.(ad_approval_generation))) approval_mismatch
  | Some id =>
      request ← on_db (get_input id);
      request ← lift (ok_or approval_mismatch request);
      guard_or (approves request id a) approval_mismatch
  end.

(** The same operation: the tool, the execution context and the arguments. *)
Definition same_operation (a : ExecutionReceiptAdmission) (r : ExecutionReceiptRecord) : bool :=
  String.eqb r.(er_tool_name) a.(ad_tool_name)
  && String.eqb r.(er_context_sha256) a.(ad_context_sha256)
  && args_match r.(er_args_hash_provenance) r.(er_args_sha256) a.(ad_args_sha256) a.(ad_ts_args_sha256).
Definition rfind {A} (p : A → bool) (l : list A) : option A := find_by p (rev l).

(** [json(&record)]: the result's numbers and the time of the decision go
    through the row's JSON text. *)
Definition json_resolution (r : ExecutionResolution) : Res StoreError ExecutionResolution :=
  at_ ← json_i64 r.(rl_resolved_at);
  mret (mkResolution r.(rl_outcome) r.(rl_note) at_ r.(rl_resolved_by)).
Definition with_outcome (r : ExecutionReceiptRecord) (status : ReceiptStatus) (result : option Value)
    (resolution : option ExecutionResolution) (authority : option string) : ExecutionReceiptRecord :=
  mkReceiptRecord r.(er_execution_id) r.(er_run_id) r.(er_chat_id) r.(er_tool_call_id) r.(er_tool_name) r.(er_args_sha256)
    r.(er_args_hash_provenance) r.(er_context_sha256) r.(er_attempt_id) r.(er_approval_request_id)
    r.(er_approval_generation) status result resolution authority.
Definition json_execution (file : bool) (r : ExecutionReceiptRecord) : Res StoreError ExecutionReceiptRecord :=
  resolution ← match r.(er_resolution) with
               | Some resolution => Some <$> json_resolution resolution
               | None => mret None
               end;
  mret (with_outcome r r.(er_status) (json_value file <$> r.(er_result)) resolution r.(er_authority)).
Definition serialized (r : ExecutionReceiptRecord) : LM ExecutionReceiptRecord := λ s,
  lift (json_execution (db_file s.(lg_db)) r) s.

Definition has_id (execution_id : string) (r : ExecutionReceiptRecord) : bool := String.eqb r.(er_execution_id) execution_id.
(** [UPDATE tool_executions SET record = ? WHERE execution_id = ?]. *)
Definition write_record (r : ExecutionReceiptRecord) : LM unit :=
  rows ← gets lg_executions;
  set_executions (map (λ old, if has_id r.(er_execution_id) old then r else old) rows).

(** [INSERT ... ON CONFLICT(execution_id) DO NOTHING]; a spent approval is
    refused by its unique index, a missing run by its foreign key. *)
Definition insert_record (r : ExecutionReceiptRecord) : LM bool :=
  rows ← gets lg_executions;
  if existsb (has_id r.(er_execution_id)) rows then mret false
  else if is_some_and r.(er_approval_request_id) (λ id, existsb (λ old, ostr_eqb old.(er_approval_request_id) (Some id)) rows)
  then mret false
  else
    task ← on_db (get (A := TaskRecord) r.(er_run_id));
    _ ← guard_or (is_some task) (Database "FOREIGN KEY constraint failed");
    _ ← set_executions (rows ++ [r]);
    mret true.

(** ** What is admitted *)

Definition admission_authority (proof : LeaseFence) (attempt_id : string) : string :=
  json_sha256 (VArr [VStr proof.(f_task_id); VStr attempt_id; VStr proof.(f_lease_token);
    int_value proof.(f_fencing_token)]).

Definition admitted_record (proof : LeaseFence) (a : ExecutionReceiptAdmission) : ExecutionReceiptRecord :=
  mkReceiptRecord a.(ad_execution_id) a.(ad_run_id) a.(ad_chat_id) a.(ad_tool_call_id) a.(ad_tool_name) a.(ad_args_sha256)
    a.(ad_args_hash_provenance) a.(ad_context_sha256) a.(ad_attempt_id) a.(ad_approval_request_id)
    a.(ad_approval_generation) ReceiptAdmitted None None (Some (admission_authority proof a.(ad_attempt_id))).

(** Only [true] may invoke the body. *)
Definition admit_execution (proof : LeaseFence) (a : ExecutionReceiptAdmission) : LM bool :=
  _ ← on_db (fence proof a.(ad_now));
  _ ← guard_or (String.eqb a.(ad_run_id) proof.(f_task_id)) (InvalidInput "Execution does not belong to the fenced run.");
  _ ← guard_or (negb (existsb empty_text
        [a.(ad_execution_id); a.(ad_chat_id); a.(ad_tool_call_id); a.(ad_tool_name); a.(ad_attempt_id)]))
        (InvalidInput "receipt identity fields must be non-empty");
  _ ← guard_or (is_hex64 a.(ad_args_sha256) && is_hex64 a.(ad_context_sha256))
        (InvalidInput "receipt hashes must be 64 lowercase hex characters");
  _ ← guard_or (is_none_or a.(ad_ts_args_sha256) is_hex64)
        (InvalidInput "the TypeScript-pipeline argument hash must be 64 lowercase hex characters");
  _ ← validate_approval a;
  barriers ← select_barriers a.(ad_chat_id) a.(ad_run_id);
  if existsb (λ b, blocks b a.(ad_tool_name) a.(ad_args_sha256) a.(ad_ts_args_sha256)
                   && negb (ostr_eqb a.(ad_approval_generation) (Some b.(ub_barrier_id)))) barriers
  then mret false
  else
    existing ← select_run a.(ad_run_id);
    if is_some_and (rfind (same_operation a) existing)
         (λ previous, is_admitted previous && negb (ostr_eqb a.(ad_approval_generation) (Some previous.(er_execution_id))))
    then mret false
    else
      record ← serialized (admitted_record proof a);
      insert_record record.

(** ** Completion *)

Definition find_execution (execution_id run_id : string) : LM (option ExecutionReceiptRecord) :=
  gets (λ s, find_by (λ r, has_id execution_id r && of_run run_id r) s.(lg_executions)).

Definition complete_execution (proof : LeaseFence) (execution_id : string) (result : Value) (now : Z) : LM unit :=
  _ ← on_db (fence proof now);
  row ← find_execution execution_id proof.(f_task_id);
  row ← lift (ok_or (NotFound ("execution receipt " +:+ execution_id)) row);
  record ← lift (read_execution_receipt row);
  if bool_decide (record.(er_status) = ReceiptCompleted) then mret tt
  else
    _ ← guard_or (is_admitted record) (InvalidTransition ("execution " +:+ record.(er_execution_id) +:+ " is already Resolved"));
    _ ← guard_or (is_object result) (InvalidInput "a tool result must be a JSON object");
    record ← serialized (with_outcome record ReceiptCompleted (Some result) record.(er_resolution) None);
    _ ← lift (read_execution_receipt record);
    write_record record.

(** A trusted driver's proof that its command never started, even after the
    lease ended. *)
Definition no_start_result (result : Value) : bool :=
  let data := default VNull (vget result "data") in
  value_eqb (default VNull (vget result "ok")) (VBool false)
  && ostr_eqb (str_at data "errorCode") (Some "command_not_started")
  && ostr_eqb (str_at data "phase") (Some "before_spawn")
  && value_eqb (default VNull (vget data "started")) (VBool false).
Definition complete_execution_not_started (proof : LeaseFence) (attempt_id execution_id : string) (result : Value) : LM bool :=
  _ ← guard_or (no_start_result result) (InvalidInput "a failed before-spawn command result is required");
  row ← find_execution execution_id proof.(f_task_id);
  match row with
  | None => mret false
  | Some row =>
      record ← lift (read_execution_receipt row);
      let authority := admission_authority proof attempt_id in
      if negb (mem_str record.(er_tool_name) ["run_command"; "run_tests"])
         || negb (String.eqb record.(er_attempt_id) attempt_id) || negb (ostr_eqb record.(er_authority) (Some authority))
      then mret false
      else if negb (is_admitted record) then
        mret (bool_decide (record.(er_status) = ReceiptCompleted) && ovalue_eqb record.(er_result) (Some result))
      else
        record ← serialized (with_outcome record ReceiptCompleted (Some result) record.(er_resolution) (Some authority));
        _ ← write_record record;
        mret true
  end.

(** ** Resolution by an operator *)

Record ResolveExecution := mkResolve {
  re_outcome : ResolutionOutcome;
  re_result : option Value;
  re_note : option string;
  re_resolved_by : option string;
  re_now : Z
}.
Definition max_resolution_result_bytes : Z := 262144.
(** [str::chars().count()]. *)
Definition char_count (s : string) : Z := Z.of_nat (length (default [] (decode (lit s)))).

Definition validate_resolution (request : ResolveExecution) : Res StoreError unit :=
  _ ← match request.(re_outcome), request.(re_result) with
      | OutcomeCompleted, Some result =>
          if is_object result then guard_res (json_len result <=? max_resolution_result_bytes) (InvalidInput "result exceeds 262144 bytes")
          else Err (InvalidInput "a completed resolution requires a tool-result object")
      | OutcomeCompleted, None => Err (InvalidInput "a completed resolution requires a tool-result object")
      | _, Some _ => Err (InvalidInput "only a completed resolution may carry a result")
      | _, None => Ok tt
      end;
  _ ← guard_res (is_none_or request.(re_note) (λ note, char_count note <=? 2000)) (InvalidInput "note exceeds 2000 characters");
  guard_res (is_none_or request.(re_resolved_by) (λ actor, negb (empty_text actor) && (char_count actor <=? 200)))
    (InvalidInput "resolvedBy must be 1-200 characters when present").

Definition barrier_id_of (execution_id run_id : option string) (tool_name : string) (args_sha256 : option string) : string :=
  "barrier:" +:+ json_sha256 (VObj [("executionId", ostr_value execution_id); ("runId", ostr_value run_id);
    ("toolName", VStr tool_name); ("argsSha256", ostr_value args_sha256)]).
Definition barrier_ids (r : ExecutionReceiptRecord) : list string :=
  run ← [Some r.(er_run_id); None];
  args ← [Some r.(er_args_sha256); None];
  [barrier_id_of (Some r.(er_execution_id)) run r.(er_tool_name) args].
Definition clear_barriers (r : ExecutionReceiptRecord) : LM unit :=
  rows ← gets lg_barriers;
  set_barriers (filter_by (λ b, negb (mem_str b.(ub_barrier_id) (barrier_ids r))) rows).

Definition resolve_execution (execution_id : string) (request : ResolveExecution) : LM ExecutionReceiptRecord :=
  _ ← lift (validate_resolution request);
  row ← gets (λ s, find_by (has_id execution_id) s.(lg_executions));
  row ← lift (ok_or (NotFound ("execution receipt " +:+ execution_id)) row);
  record ← lift (read_execution_receipt row);
  if negb (is_admitted record) then
    match record.(er_resolution) with
    | Some existing =>
        if bool_decide (existing.(rl_outcome) = request.(re_outcome))
           && (negb (bool_decide (request.(re_outcome) = OutcomeCompleted)) || ovalue_eqb record.(er_result) request.(re_result))
        then mret record
        else throw (InvalidTransition ("receipt_not_uncertain: execution " +:+ execution_id +:+ " is already finished"))
    | None => throw (InvalidTransition ("receipt_not_uncertain: execution " +:+ execution_id +:+ " is already finished"))
    end
  else
    task ← on_db (get (A := TaskRecord) record.(er_run_id));
    _ ← guard_or (negb (is_some_and task (λ task, negb (is_terminal task.(t_status)))))
          (InvalidTransition ("receipt_run_active: run " +:+ record.(er_run_id) +:+ " is still active"));
    let status := match request.(re_outcome) with OutcomeCompleted => ReceiptCompleted | _ => Resolved end in
    let resolution := mkResolution request.(re_outcome) request.(re_note) request.(re_now) request.(re_resolved_by) in
    record ← serialized (with_outcome record status request.(re_result) (Some resolution) None);
    _ ← lift (read_execution_receipt record);
    _ ← write_record record;
    _ ← clear_barriers record;
    mret record.
End digests.
