(* ===== verification/StandingGrants.v ===== *)
(** * Standing approvals and execution grants of a session

    [store/src/session_ops.rs], the metadata of a chat: the approvals that
    were remembered, the mode a plan was granted, and who writes them.  What
    cannot be read grants nothing and is never overwritten. *)

From S2P Require Export Receipts Conversations.
From S2P Require Import Envelope.
Local Open Scope Z_scope.

Definition execution_metadata_key : string := "agentkit.session.execution".
Definition standing_approvals_metadata_key : string := "agentkit.session.approvals".
Definition max_history : nat := 8.
Definition max_standing_approvals : nat := 256.

(** ** JSON helpers *)

Definition as_object (v : Value) : option (list (string * Value)) := match v with VObj o => Some o | _ => None end.
Definition as_array (v : Value) : option (list Value) := match v with VArr l => Some l | _ => None end.
Definition is_string (v : Value) : bool := is_some (as_str v).
Definition non_empty_string (v : Value) : bool := is_some_and (as_str v) (λ s, negb (empty_text s)).
Definition version_one (v : Value) : bool := value_eqb v (int_value 1).
Definition is_none_or_null (o : option Value) : bool := is_none_or o is_null.

(** ** Standing approvals *)

Definition read_standing_grant (raw : Value) : option Value :=
  grant ← as_object raw;
  if negb (is_some_and (obj_get "grantId" grant) non_empty_string) then None
  else if negb (forallb (λ key, is_some_and (obj_get key grant) is_string)
                  ["label"; "toolName"; "sourceRequestId"; "answerId"; "grantedAt"]) then None
  else if negb (is_some_and (obj_get "digest" grant ≫= as_str) is_hex64) then None
  else if is_some_and (obj_get "revokedAt" grant) (λ revoked, negb (is_string revoked)) then None
  else Some (VObj grant).

Fixpoint read_all {A} (read : Value → option A) (l : list Value) : option (list A) :=
  match l with
  | [] => Some []
  | v :: l => x ← read v; xs ← read_all read l; Some (x :: xs)
  end.

(** [None]: malformed. *)
Definition parse_standing (metadata : Value) : option (list Value) :=
  match vget metadata standing_approvals_metadata_key with
  | None => Some []
  | Some raw =>
      raw ← as_object raw;
      if negb (is_some_and (obj_get "version" raw) version_one) then None
      else
        list ← obj_get "grants" raw ≫= as_array;
        if (max_standing_approvals <? length list)%nat then None
        else read_all read_standing_grant list
  end.
Definition standing_grants (metadata : Value) : list Value := default [] (parse_standing metadata).

Definition grant_digest (grant : Value) : option string := vget grant "digest" ≫= as_str.
Definition grant_id_of (grant : Value) : option string := vget grant "grantId" ≫= as_str.
Definition revoked (grant : Value) : bool := negb (is_none_or_null (vget grant "revokedAt")).
Definition find_active_standing_grant (metadata : Value) (digest : string) : option Value :=
  find_by (λ grant, ostr_eqb (grant_digest grant) (Some digest) && negb (revoked grant)) (standing_grants metadata).

Definition writable_standing (metadata : Value) (session_id : string) : Res StoreError (list Value) :=
  ok_or (InvalidInput ("The session's standing approvals are unreadable and were not overwritten. (" +:+ session_id +:+ ")"))
    (parse_standing metadata).
Definition with_standing (metadata : Value) (grants : list Value) : Value :=
  VObj (obj_insert standing_approvals_metadata_key (VObj [("version", int_value 1); ("grants", VArr grants)])
    (default [] (as_object metadata))).

(** Without the first element that satisfies the test. *)
Fixpoint remove_first {A} (p : A → bool) (l : list A) : option (list A) :=
  match l with
  | [] => None
  | x :: l => if p x then Some l else cons x <$> remove_first p l
  end.
(** [while grants.len() >= MAX]: each turn drops one, so as many turns as
    there are grants are enough. *)
Fixpoint make_room_from (fuel : nat) (grants : list Value) (session_id : string) : Res StoreError (list Value) :=
  if (length grants <? max_standing_approvals)%nat then Ok grants
  else match remove_first revoked grants, fuel with
  | Some grants, S fuel => make_room_from fuel grants session_id
  | _, _ => Err (InvalidInput ("A session keeps at most 256 standing approvals; revoke one first. (" +:+ session_id +:+ ")"))
  end.
Definition make_room (grants : list Value) (session_id : string) : Res StoreError (list Value) :=
  make_room_from (length grants) grants session_id.

Definition read_standing_key (content : Value) : option (string * string) :=
  standing ← vget content "standing" ≫= as_object;
  digest ← obj_get "digest" standing ≫= as_str;
  label ← obj_get "label" standing ≫= as_str;
  if negb (is_hex64 digest) || empty_text label || (512 <? char_count label) then None
  else Some (digest, label).

(** ** The execution state *)

Definition read_grant (raw : Value) : option Value :=
  grant ← as_object raw;
  if negb (forallb (λ key, is_some_and (obj_get key grant) non_empty_string) ["mode"; "planDigest"]) then None
  else if negb (forallb (λ key, is_some_and (obj_get key grant) is_string) ["requestId"; "turnId"; "approvedAt"]) then None
  else if existsb (λ key, is_some_and (obj_get key grant) (λ v, negb (is_null v) && negb (is_string v))) ["requestedMode"; "plan"] then None
  else Some (VObj (foldl (λ o key, if is_some_and (obj_get key o) is_null then obj_remove key o else o)
         grant ["requestedMode"; "plan"])).

Definition read_execution_state_inner (metadata : Value) : option Value :=
  raw ← vget metadata execution_metadata_key ≫= as_object;
  if negb (is_some_and (obj_get "version" raw) version_one) then None
  else
    mode ← obj_get "mode" raw ≫= as_str;
    if empty_text mode then None
    else
      updated_at ← obj_get "updatedAt" raw ≫= as_str;
      history_raw ← match obj_get "history" raw with
                    | None => Some []
                    | Some (VArr entries) => Some entries
                    | Some _ => None
                    end;
      history ← read_all read_grant history_raw;
      let state := [("version", int_value 1); ("mode", VStr mode); ("updatedAt", VStr updated_at); ("history", VArr history)] in
      match obj_get "grantedPlan" raw with
      | None => Some (VObj state)
      | Some grant => grant ← read_grant grant; Some (VObj (state ++ [("grantedPlan", grant)]))
      end.

Inductive ExecutionStateRead := Absent | Malformed | Valid (state : Value).
Definition inspect_execution_state (metadata : Value) : ExecutionStateRead :=
  if is_none_or_null (vget metadata execution_metadata_key) then Absent
  else match read_execution_state_inner metadata with Some state => Valid state | None => Malformed end.
Definition read_execution_state (metadata : Value) : option Value :=
  match inspect_execution_state metadata with Valid state => Some state | _ => None end.

Definition execution_state_for_mode (mode updated_at : string) (prior : option Value) : option Value :=
  if empty_text mode then None
  else
    let history := default (VArr []) (prior ≫= λ state, vget state "history") in
    Some (VObj [("version", int_value 1); ("mode", VStr mode); ("updatedAt", VStr updated_at); ("history", history)]).

Definition with_execution (metadata : Value) (state : option Value) : Value :=
  let next := default [] (as_object metadata) in
  VObj match state with
       | None => obj_remove execution_metadata_key next
       | Some state => obj_insert execution_metadata_key state next
       end.

Definition execution_state_for_grant (grant : Value) (now_text : string) (prior : option Value) : option Value :=
  mode ← vget grant "mode" ≫= as_str;
  if String.eqb mode "plan" || empty_text mode then None
  else
    let history := default [] (prior ≫= λ prior, vget prior "history" ≫= as_array) in
    Some (VObj [("version", int_value 1); ("mode", VStr mode); ("grantedPlan", grant); ("updatedAt", VStr now_text);
      ("history", VArr (take max_history (grant :: history)))]).
