(* ===== verification/Guarded.v ===== *)
(** * The execution of a guarded tool

    [host/src/governance/staging.rs], [durable_execution.rs],
    [execution_completion.rs] and [execution_recheck.rs]: what one call of a
    staged tool does, as a process.  Each question it puts to the store, to a
    guard, to the person or to the tool's body is an event at which others may
    run; the process says what it does with the answer. *)

From stdpp Require Import pretty.
From S2P Require Export StandingGrants Permission CanonicalArgs.
From S2P Require Import Envelope RunModel.
Local Open Scope Z_scope.

(** ** Processes *)

(** What a process asks, by the type of the answer. *)
Inductive Query : Type → Type :=
  | QListExecutions (run_id : string) : Query (Res StoreError (list ExecutionReceiptRecord))
  | QListByChat (chat_id : string) : Query (Res StoreError (list ExecutionReceiptRecord))
  | QListBarriers (chat_id run_id : string) : Query (Res StoreError (list UncertaintyBarrierRecord))
  | QGetChat (chat_id : string) : Query (Res StoreError (option ChatRecord))
  | QAdmit (proof : LeaseFence) (a : ExecutionReceiptAdmission) : Query (Res StoreError bool)
  | QComplete (proof : LeaseFence) (execution_id : string) (result : Value) (now : Z) : Query (Res StoreError unit)
  | QNotStarted (proof : LeaseFence) (attempt_id execution_id : string) (result : Value) : Query (Res StoreError bool)
  (** The call ids whose one-use approval this wrapper has spent. *)
  | QConsumed (call_id : string) : Query bool
  | QConsume (call_id : string) : Query unit
  | QGuard (guard : nat) (input : Value) : Query GuardAnswer
  | QKeyFor (input : Value) (reasons : list string) : Query (Res string (option (string * string)))
  | QRequestHuman (spec : HumanRequestSpec) : Query bool
  | QDispatch : Query (Res CoreError unit)
  | QCancelled : Query bool
  | QNow : Query Z
  (** The body begins, under the receipt it may have; and ends. *)
  | QStart (receipt : option string) (input : Value) : Query unit
  | QBody : Query (Res CoreError ToolResult).

Inductive Proc (A : Type) : Type :=
  | PRet (a : A)
  | PAsk {X : Type} (q : Query X) (k : X → Proc A).
Arguments PRet {A} a.
Arguments PAsk {A X} q k.

(** A process that may fail, with [?]. *)
Definition P (A : Type) : Type := Proc (Res CoreError A).
Fixpoint pbind {A B} (p : P A) (f : A → P B) : P B :=
  match p with
  | PRet (Ok a) => f a
  | PRet (Err e) => PRet (Err e)
  | PAsk q k => PAsk q (λ x, pbind (k x) f)
  end.
Definition pret {A} (a : A) : P A := PRet (Ok a).
Definition pfail {A} (e : CoreError) : P A := PRet (Err e).
Definition query {A} (q : Query A) : P A := PAsk q pret.
(** [.map_err(f)?]. *)
Definition query_or {A E} (q : Query (Res E A)) (f : E → CoreError) : P A :=
  PAsk q (λ r, match r with Ok a => pret a | Err e => pfail (f e) end).

#[export] Instance P_ret : MRet P := @pret.
#[export] Instance P_bind : MBind P := λ A B f p, pbind p f.

(** ** The parts of a call *)

(** [ToolDefinition], as far as the wrapper reads it. *)
Record StagedDefinition := mkStaged {
  sg_name : string;
  sg_version : string;
  sg_effect : string;
  sg_capability : string
}.
Record ApprovalGrant := mkGrant {
  ag_request_id : string;
  ag_args_sha256 : string;
  ag_uncertainty_generation : option string;
  ag_context_sha256 : option string
}.
Record DurableExecution := mkDurable {
  (** Of the [ExecutionContext]: the task, the attempt and the lease. *)
  de_task_id : string;
  de_attempt_id : string;
  de_fence : LeaseFence;
  de_chat_id : string;
  de_is_mutating : option (string → bool);
  de_approvals : list (string * ApprovalGrant);
  (** Whether a policy for standing approvals is there. *)
  de_standing : bool
}.
Record ToolContributionContext := mkContribution {
  cb_chat_id : option string;
  cb_run_id : string;
  cb_scope_id : option string;
  cb_bindings : list Value;
  cb_durable : option DurableExecution
}.
(** [ToolContext]. *)
Record CallContext := mkCallContext {
  cx_chat_id : option string;
  cx_run_id : string;
  cx_scope_id : option string;
  cx_tool_call_id : option string;
  cx_dispatch_guard : bool
}.
Record GuardedTool := mkGuarded {
  gt_definition : StagedDefinition;
  gt_effect_context : option Value;
  gt_records_start : bool;
  gt_guards : nat;
  gt_contribution : ToolContributionContext
}.

(** SHA-256 of a text; the derived JSON form of a tool result. *)
Class TextDigest := text_sha256 : bytes → string.
Class ResultJson := { to_value : ToolResult → Value; from_value : Value → option ToolResult }.

Definition receipt_unreadable (e : StoreError) : CoreError :=
  core_error "recovery_history_unreadable"
    ("Cannot read durable execution receipts; mutations remain blocked. (" +:+ store_error_text e +:+ ")").

Definition refusal (data : Value) (reason : string) : ToolResult :=
  mkToolResult false (Some data) [] [] false (Some data) (Some reason) None None.
Definition receipt_refusal (code reason : string) (extra : option Value) : ToolResult :=
  let data := [("errorCode", VStr code); ("errorMessage", VStr reason); ("phase", VStr "receipts"); ("retryable", VBool false)] in
  let data := match extra with
              | Some (VObj extra) => foldl (λ data e, obj_insert e.1 e.2 data) data extra
              | _ => data
              end in
  refusal (VObj data) reason.
Definition guard_refusal (reason : string) : ToolResult :=
  refusal (VObj [("errorCode", VStr "tool_guard_refused"); ("errorMessage", VStr reason); ("phase", VStr "guard"); ("retryable", VBool false)]) reason.
Definition uncertain_message : string :=
  "a previous execution of this operation was admitted without a durable result; fresh approval is required".

(** ** Identities *)

Inductive PreGuard :=
  | Proceed
  | Replay (result : ToolResult)
  | Uncertain (refusal : ToolResult) (generation : string).
Inductive Admission :=
  | Skipped
  | Granted (execution_id : string)
  | NotAdmitted (result : ToolResult).

Section guarded.
Context {digests : Digests} {text_digest : TextDigest} {results : ResultJson} {lower : LowerExp}.

Definition canonical_sha256 (v : Value) : string := json_sha256 (sort_into_btree v).
Definition args_sha256 (input : Value) : string := canonical_sha256 input.
Definition ts_args_sha256 (input : Value) : string := text_sha256 (ts_canonical_json input).
Definition execution_context_sha256 (durable : DurableExecution) (contribution : ToolContributionContext)
    (tool : StagedDefinition) (effect_context : option Value) : string :=
  canonical_sha256 (VObj [("chatId", VStr durable.(de_chat_id)); ("scopeId", ostr_value contribution.(cb_scope_id));
    ("bindings", VArr contribution.(cb_bindings)); ("toolName", VStr tool.(sg_name)); ("toolVersion", VStr tool.(sg_version));
    ("context", default (VObj []) effect_context)]).
Definition execution_id (run_id tool_call_id : string) (approval_request_id : option string) : string :=
  canonical_sha256 (VObj [("runId", VStr run_id); ("toolCallId", VStr tool_call_id);
    ("approvalRequestId", VStr (default "initial" approval_request_id))]).

Definition needs_receipt (durable : DurableExecution) (tool : StagedDefinition) : bool :=
  String.eqb tool.(sg_effect) "write" || is_some_and durable.(de_is_mutating) (λ policy, policy tool.(sg_name)).
Definition grant_of (durable : DurableExecution) (call_id : string) : option ApprovalGrant :=
  snd <$> find_by (λ e, String.eqb e.1 call_id) durable.(de_approvals).
Definition covers (durable : DurableExecution) (call_id generation : string) : bool :=
  is_some_and (grant_of durable call_id) (λ grant, ostr_eqb grant.(ag_uncertainty_generation) (Some generation)).

Definition no_identity : CoreError :=
  core_error "invalid_execution" "Mutating execution requires a stable tool-call identity".
Definition uncertain (reason generation : string) (more : list (string * Value)) : PreGuard :=
  Uncertain (receipt_refusal "tool_result_uncertain" reason (Some (VObj (("approvalGeneration", VStr generation) :: more)))) generation.

(** ** [before_guards] *)

(** What the receipts and the barriers say of the call. *)
Definition this_operation (tool : StagedDefinition) (input : Value) (r : ExecutionReceiptRecord) : bool :=
  String.eqb r.(er_tool_name) tool.(sg_name)
  && args_match r.(er_args_hash_provenance) r.(er_args_sha256) (args_sha256 input) (Some (ts_args_sha256 input)).
Definition replayed (durable : DurableExecution) (contribution : ToolContributionContext) (tool : StagedDefinition)
    (effect_context : option Value) (input : Value) (last : ExecutionReceiptRecord) : Res CoreError PreGuard :=
  if negb (this_operation tool input last
           && String.eqb last.(er_context_sha256) (execution_context_sha256 durable contribution tool effect_context))
  then Err (core_error "execution_context_mismatch" "The recovered execution no longer matches its recorded operation or context.")
  else match last.(er_result) with
  | None => Err (core_error "recovery_history_unreadable" "A completed execution receipt carries no result; mutations remain blocked.")
  | Some result =>
      match from_value result with
      | Some stored => Ok (Replay stored)
      | None => Err (core_error "recovery_history_unreadable" "A completed execution receipt is malformed; mutations remain blocked.")
      end
  end.

(** The probes for an effect whose outcome is not known: in this run, in the
    other runs of the chat, among the barriers. *)
Definition probe (durable : DurableExecution) (tool : StagedDefinition) (input : Value)
    (receipts : list ExecutionReceiptRecord) (tool_call_id : string) : P PreGuard :=
  let uncovered generation := negb (covers durable tool_call_id generation) in
  match opt_filter (λ previous, uncovered previous.(er_execution_id))
          (opt_filter is_admitted (rfind (this_operation tool input) receipts)) with
  | Some previous => pret (uncertain uncertain_message previous.(er_execution_id) [])
  | None =>
      others ← query_or (QListByChat durable.(de_chat_id)) receipt_unreadable;
      match opt_filter (λ previous, uncovered previous.(er_execution_id))
              (rfind (λ r, this_operation tool input r && is_admitted r)
                (filter_by (λ r, negb (String.eqb r.(er_run_id) durable.(de_task_id))) others)) with
      | Some previous =>
          pret (uncertain (uncertain_message +:+ "; the pending execution belongs to run " +:+ previous.(er_run_id))
            previous.(er_execution_id) [("pendingRunId", VStr previous.(er_run_id))])
      | None =>
          barriers ← query_or (QListBarriers durable.(de_chat_id) durable.(de_task_id)) receipt_unreadable;
          match opt_filter (λ barrier, uncovered barrier.(ub_barrier_id))
                  (rfind (λ barrier, blocks barrier tool.(sg_name) (args_sha256 input) (Some (ts_args_sha256 input))) barriers) with
          | Some barrier =>
              pret (uncertain (uncertain_message +:+ "; the unresolved evidence is a barrier: " +:+ barrier.(ub_reason))
                barrier.(ub_barrier_id) [])
          | None => pret Proceed
          end
      end
  end.

Definition before_guards (durable : DurableExecution) (context : CallContext) (contribution : ToolContributionContext)
    (tool : StagedDefinition) (effect_context : option Value) (input : Value) : P PreGuard :=
  if negb (needs_receipt durable tool) then pret Proceed
  else match context.(cx_tool_call_id) with
  | None => pfail no_identity
  | Some tool_call_id =>
      receipts ← query_or (QListExecutions durable.(de_task_id)) receipt_unreadable;
      match opt_filter (λ last, bool_decide (last.(er_status) = ReceiptCompleted))
              (rfind (λ r, String.eqb r.(er_tool_call_id) tool_call_id) receipts) with
      | Some last => PRet (replayed durable contribution tool effect_context input last)
      | None => probe durable tool input receipts tool_call_id
      end
  end.

(** ** Admission and completion ([admit], [complete]) *)

Definition admission_of (durable : DurableExecution) (contribution : ToolContributionContext) (tool : StagedDefinition)
    (effect_context : option Value) (input : Value) (tool_call_id : string) (now : Z) : ExecutionReceiptAdmission :=
  let grant := grant_of durable tool_call_id in
  let approval_request_id := ag_request_id <$> grant in
  mkAdmission (execution_id durable.(de_task_id) tool_call_id approval_request_id) durable.(de_task_id) durable.(de_chat_id)
    tool_call_id tool.(sg_name) (args_sha256 input) (Some (ts_args_sha256 input)) Canonical
    (execution_context_sha256 durable contribution tool effect_context) durable.(de_attempt_id) approval_request_id
    (grant ≫= ag_uncertainty_generation) now.

(** A grant for another execution context. *)
Definition context_changed (grant : option ApprovalGrant) (context_sha256 : option string) : bool :=
  is_some_and (grant ≫= ag_context_sha256) (λ hash, negb (ostr_eqb (Some hash) context_sha256)).

Definition admit_call (durable : DurableExecution) (context : CallContext) (contribution : ToolContributionContext)
    (tool : StagedDefinition) (effect_context : option Value) (input : Value) : P Admission :=
  if negb (needs_receipt durable tool) then pret Skipped
  else match context.(cx_tool_call_id) with
  | None => pfail no_identity
  | Some tool_call_id =>
      if context_changed (grant_of durable tool_call_id) (Some (execution_context_sha256 durable contribution tool effect_context))
      then pret (NotAdmitted (receipt_refusal "approval_mismatch" "The approval no longer matches this execution context." None))
      else
        now ← query QNow;
        let admission := admission_of durable contribution tool effect_context input tool_call_id now in
        admitted ← query_or (QAdmit durable.(de_fence) admission) receipt_unreadable;
        if negb admitted
        then pret (NotAdmitted (receipt_refusal "execution_already_admitted"
               "this authorization has already been consumed; its outcome must be recovered before another execution."
               (Some (VObj [("executionId", VStr admission.(ad_execution_id))]))))
        else pret (Granted admission.(ad_execution_id))
  end.

Definition complete (durable : DurableExecution) (execution_id : string) (result : ToolResult) : P unit :=
  now ← query QNow;
  query_or (QComplete durable.(de_fence) execution_id (to_value result) now)
    (λ e, core_error "receipt_unavailable" ("Durable execution result could not be persisted: " +:+ store_error_text e)).
Definition complete_not_started (durable : DurableExecution) (execution_id : string) (result : ToolResult) : P unit :=
  recorded ← query_or (QNotStarted durable.(de_fence) durable.(de_attempt_id) execution_id (to_value result))
    (λ e, core_error "receipt_unavailable" ("Cannot persist command no-start evidence: " +:+ store_error_text e));
  if negb recorded
  then pfail (core_error "receipt_conflict" "Command no-start evidence does not match its original admission")
  else pret tt.

(** [execution_completion.rs]. *)
Definition is_no_start (result : ToolResult) : bool :=
  negb result.(tr_ok)
  && is_some_and result.(tr_data) (λ data,
       value_eqb (vindex data "errorCode") (VStr "command_not_started")
       && value_eqb (vindex data "phase") (VStr "before_spawn")
       && value_eqb (vindex data "started") (VBool false)).
Definition execute_receipted (owns_start : bool) (durable : option DurableExecution) (execution_id : option string)
    (input : Value) : P ToolResult :=
  _ ← query (QStart execution_id input);
  result ← query_or QBody id;
  match durable, execution_id with
  | Some durable, Some id =>
      _ ← (if owns_start && is_no_start result then complete_not_started durable id result else complete durable id result);
      pret result
  | _, _ => pret result
  end.

(** A schema refusal leaves a row as a refusal of the body would; whatever
    happens to the row, the caller is told nothing. *)
Fixpoint ignored (p : P unit) : P unit :=
  match p with
  | PRet _ => pret tt
  | PAsk q k => PAsk q (λ x, ignored (k x))
  end.
Definition schema_refusal (message : string) : ToolResult :=
  mkToolResult false (Some (VObj [("ok", VBool false); ("errorCode", VStr "schema_invalid"); ("errorMessage", VStr message);
    ("phase", VStr "validation"); ("retryable", VBool false)])) [] [] false None (Some message) None None.
Definition record_schema_refusal (durable : DurableExecution) (context : CallContext) (contribution : ToolContributionContext)
    (tool : StagedDefinition) (effect_context : option Value) (input : Value) (message : string) : P unit :=
  if negb (needs_receipt durable tool) then pret tt
  else match context.(cx_tool_call_id) with
  | None => pret tt
  | Some tool_call_id =>
      now ← query QNow;
      let admission := admission_of durable contribution tool effect_context input tool_call_id now in
      let execution := admission.(ad_execution_id) in
      admitted ← query (QAdmit durable.(de_fence) admission);
      match admitted with
      | Ok true => ignored (complete durable execution (schema_refusal message))
      | Ok false | Err _ =>
          rows ← query (QListExecutions durable.(de_task_id));
          match rows with
          | Ok rows =>
              if existsb (λ row, has_id execution row && is_admitted row && String.eqb row.(er_attempt_id) durable.(de_attempt_id)) rows
              then ignored (complete durable execution (schema_refusal message))
              else pret tt
          | Err _ => pret tt
          end
      end
  end.

(** ** Approvals *)

Definition first_of {A} (f : ApprovalAsk → option A) (asks : list ApprovalAsk) : option A := head (omap f asks).
Definition opt_member (key : string) (v : option Value) : list (string * Value) :=
  match v with Some v => [(key, v)] | None => [] end.
Definition standing_value (standing : option (string * string)) : option Value :=
  (λ k, VObj [("digest", VStr k.1); ("label", VStr k.2)]) <$> standing.

Definition approval_spec (context : CallContext) (tool : StagedDefinition) (approvable : list ApprovalAsk)
    (args : string) (standing : option (string * string)) (context_sha256 : option string) : HumanRequestSpec :=
  let tool_call_id := default "unknown" context.(cx_tool_call_id) in
  let uncertainty := first_of ask_uncertainty_generation approvable in
  let request_id := match uncertainty with
                    | Some generation => "hreq:" +:+ context.(cx_run_id) +:+ ":" +:+ tool_call_id +:+ ":" +:+ generation
                    | None => "hreq:" +:+ context.(cx_run_id) +:+ ":" +:+ tool_call_id
                    end in
  let prompt := default ("Approve " +:+ tool.(sg_name) +:+ "?") (first_of ask_preview approvable) in
  let requested_mode := first_of ask_requested_mode approvable in
  let bound := [("argsSha256", VStr args)] ++ opt_member "approvalGeneration" (VStr <$> uncertainty)
    ++ opt_member "contextSha256" (VStr <$> context_sha256) ++ opt_member "requestedMode" (VStr <$> requested_mode)
    ++ opt_member "standing" (standing_value standing) in
  let content := [("prompt", VStr prompt); ("toolName", VStr tool.(sg_name)); ("kind", VStr "approval")] ++ bound in
  let envelope := [("requestId", VStr request_id); ("toolCallId", VStr tool_call_id); ("prompt", VStr prompt);
    ("kind", VStr "approval")] ++ bound in
  mkHumanRequest request_id (VObj content) (json_sha256 (VObj envelope)) None.

Definition has_active_standing_grant (durable : DurableExecution) (digest : string) : P bool :=
  chat ← query_or (QGetChat durable.(de_chat_id)) (λ e, core_error "recovery_history_unreadable"
    ("Cannot read standing approvals; the call stays gated. (" +:+ store_error_text e +:+ ")"));
  match chat with
  | None => pfail (core_error "invalid_execution" "Approval chat vanished mid-run")
  | Some chat => pret (is_some (find_active_standing_grant chat.(ch_metadata) digest))
  end.

(** [None] of the source: the call goes on, under the standing digest if one
    was used; [Some]: it ends. *)
Inductive Approval :=
  | Approved (standing_digest : option string)
  | Ends (result : ToolResult).

(** The one-use grant of this exact call, for the uncertainty it was asked
    about. *)
Definition spendable (grant : option ApprovalGrant) (args : string) (uncertainty : option string) : bool :=
  is_some_and grant (λ grant, String.eqb grant.(ag_args_sha256) args && ostr_eqb grant.(ag_uncertainty_generation) uncertainty).

Definition ask_human (context : CallContext) (tool : StagedDefinition) (approvable : list ApprovalAsk) (args : string)
    (uncertainty : option (ToolResult * string)) (standing : option (string * string)) (context_hash : option string) : P Approval :=
  parked ← query (QRequestHuman (approval_spec context tool approvable args standing context_hash));
  if (parked : bool) then pret (Ends (guard_refusal "awaiting human approval"))
  else match uncertainty with
  | Some (refusal, _) => pret (Ends refusal)
  | None => pret (Ends (guard_refusal (default "" (ask_reason <$> head approvable))))
  end.

(** A remembered approval, when the policy can key the call; or the question. *)
Definition remembered_or_ask (self : GuardedTool) (context : CallContext) (input : Value) (approvable : list ApprovalAsk)
    (args : string) (uncertainty : option (ToolResult * string)) (is_duplicate : bool) (context_hash : option string) : P Approval :=
  let asks (standing : option (string * string)) : P Approval :=
    ask_human context self.(gt_definition) approvable args uncertainty standing context_hash in
  match self.(gt_contribution).(cb_durable) with
  | Some d =>
      if negb (is_some uncertainty) && negb is_duplicate && d.(de_standing) then
        key ← query (QKeyFor input (map ask_reason approvable));
        match key with
        | Ok (Some (digest, label)) =>
            active ← has_active_standing_grant d digest;
            if (active : bool) then pret (Approved (Some digest)) else asks (Some (digest, label))
        | _ => asks None
        end
      else asks None
  | None => asks None
  end.

Definition resolve_approval (self : GuardedTool) (context : CallContext) (input : Value) (approvable : list ApprovalAsk)
    (uncertainty : option (ToolResult * string)) : P Approval :=
  let tool := self.(gt_definition) in
  let durable := self.(gt_contribution).(cb_durable) in
  let args := args_sha256 input in
  let context_hash := (λ d, execution_context_sha256 d self.(gt_contribution) tool self.(gt_effect_context)) <$> durable in
  let grant : option ApprovalGrant := (id ← context.(cx_tool_call_id); d ← durable; grant_of d id) in
  if context_changed grant context_hash
  then pret (Ends (guard_refusal "The approval no longer matches this execution context."))
  else
    spent ← (match context.(cx_tool_call_id) with
            | Some call_id =>
                if spendable grant args (snd <$> uncertainty) then
                  consumed ← query (QConsumed call_id);
                  if (consumed : bool) then pret false
                  else _ ← query (QConsume call_id); pret true
                else pret false
            | None => pret false
            end : P bool);
    if (spent : bool) then pret (Approved None)
    else
      remembered_or_ask self context input approvable args uncertainty (is_some grant) context_hash.

(** ** The whole call *)

Definition aborted : CoreError := core_error "cancelled" "aborted".

(** The loop over the guards: the asks, or the refusal that ends the call. *)
Fixpoint run_guards (todo next : nat) (input : Value) (approvable : list ApprovalAsk) : P (list ApprovalAsk + ToolResult) :=
  match todo with
  | O => pret (inl approvable)
  | S todo =>
      answer ← query (QGuard next input);
      match answer with
      | RunCancelled => pfail aborted
      | Permission.Answered (Ok VerdictAllowed) => run_guards todo (S next) input approvable
      | Permission.Answered (Ok (VerdictRefused reason)) => pret (inr (guard_refusal reason))
      | Permission.Answered (Ok (VerdictAwaitingHuman a)) => run_guards todo (S next) input (approvable ++ [a])
      | _ => pret (inr (guard_refusal "guard error"))
      end
  end.
Definition uncertain_ask (tool : StagedDefinition) (generation : string) : ApprovalAsk :=
  mkAsk ("uncertain:" +:+ generation)
    (Some ("The previous run of " +:+ tool.(sg_name) +:+ " was admitted without a recorded result; its effect is unknown. Approve running it again?"))
    None (Some generation).

(** Dispatch, cancellation, admission and the body: the end of both
    wrappers. *)
Definition admit_and_run (owns_start : bool) (durable : option DurableExecution) (context : CallContext)
    (contribution : ToolContributionContext) (tool : StagedDefinition) (effect_context : option Value) (input : Value) : P ToolResult :=
  _ ← (if context.(cx_dispatch_guard) then query_or QDispatch id else pret tt);
  cancelled ← query QCancelled;
  if (cancelled : bool) then pfail aborted
  else
    admission ← match durable with
                | None => pret Skipped
                | Some d => admit_call d context contribution tool effect_context input
                end;
    match admission with
    | Skipped => execute_receipted owns_start durable None input
    | Granted id => execute_receipted owns_start durable (Some id) input
    | NotAdmitted result => pret result
    end.

(** [<GuardedTool as Tool>::execute]. *)
Definition execute (self : GuardedTool) (context : CallContext) (input : Value) : P ToolResult :=
  let staged := self.(gt_contribution) in
  let tool := self.(gt_definition) in
  if negb (ostr_eqb context.(cx_chat_id) staged.(cb_chat_id) && String.eqb context.(cx_run_id) staged.(cb_run_id)
           && ostr_eqb context.(cx_scope_id) staged.(cb_scope_id))
  then pret (guard_refusal "Tool invocation does not match staged run")
  else
    pre ← match staged.(cb_durable) with
          | Some d => before_guards d context staged tool self.(gt_effect_context) input
          | None => pret Proceed
          end;
    match pre with
    | Replay result => pret result
    | Proceed | Uncertain _ _ =>
        let uncertainty := match pre with Uncertain refusal generation => Some (refusal, generation) | _ => None end in
        chain ← run_guards self.(gt_guards) 0 input [];
        match chain with
        | inr refused => pret refused
        | inl approvable =>
            let approvable := approvable ++ match uncertainty with Some (_, generation) => [uncertain_ask tool generation] | None => [] end in
            approval ← match approvable with
                       | [] => pret (Approved None)
                       | _ => resolve_approval self context input approvable uncertainty
                       end;
            match approval with
            | Ends result => pret result
            | Approved _ =>
                admit_and_run self.(gt_records_start) staged.(cb_durable) context staged tool self.(gt_effect_context) input
            end
        end
    end.

(** [<ReceiptedTool as Tool>::execute]: receipts only. *)
Definition execute_receipts_only (durable : DurableExecution) (owns_start : bool) (contribution : ToolContributionContext)
    (tool : StagedDefinition) (effect_context : option Value) (context : CallContext) (input : Value) : P ToolResult :=
  pre ← before_guards durable context contribution tool effect_context input;
  match pre with
  | Replay result => pret result
  | Uncertain refusal _ => pret refusal
  | Proceed => admit_and_run owns_start (Some durable) context contribution tool effect_context input
  end.

(** ** The second check, before a command's body acts *)

Definition changed (reason : string) : CoreError := core_error "authorization_changed" reason.
Fixpoint recheck_guards (todo next : nat) (input : Value) (approvals : list ApprovalAsk) : P unit :=
  match todo with
  | O => pret tt
  | S todo =>
      answer ← query (QGuard next input);
      match answer with
      | RunCancelled => pfail (core_error "cancelled" "command authority cancelled")
      | Permission.Answered (Ok VerdictAllowed) => recheck_guards todo (S next) input approvals
      | Permission.Answered (Ok (VerdictRefused reason)) => pfail (changed reason)
      | Permission.Answered (Ok (VerdictAwaitingHuman a)) =>
          if bool_decide (a ∈ approvals) then recheck_guards todo (S next) input approvals
          else pfail (changed "permissions changed; fresh approval required")
      | _ => pfail (changed "permissions changed; fresh approval required")
      end
  end.
Definition check_standing_grant (durable : option DurableExecution) (input : Value) (approvals : list ApprovalAsk)
    (standing_digest : option string) : P unit :=
  match standing_digest, durable with
  | None, _ => pret tt
  | Some _, None => pfail (changed "standing approval authority unavailable")
  | Some expected, Some d =>
      if negb d.(de_standing) then pfail (changed "standing approval policy unavailable")
      else
        current ← query_or (QKeyFor input (map ask_reason approvals)) (λ _, changed "standing approval identity unavailable");
        if negb (ostr_eqb (fst <$> current) (Some expected))
        then pfail (changed "standing approval changed or revoked; fresh approval required")
        else
          active ← has_active_standing_grant d expected;
          if (active : bool) then pret tt
          else pfail (changed "standing approval changed or revoked; fresh approval required")
  end.
(** [<ExecutionRecheck as DispatchGuard>::check]. *)
Definition recheck (self : GuardedTool) (dispatch_guard : bool) (input : Value) (approvals : list ApprovalAsk)
    (standing_digest : option string) : P unit :=
  let original : P unit := if dispatch_guard then query_or QDispatch id else pret tt in
  _ ← original;
  _ ← recheck_guards self.(gt_guards) 0 input approvals;
  _ ← check_standing_grant self.(gt_contribution).(cb_durable) input approvals standing_digest;
  cancelled ← query QCancelled;
  if (cancelled : bool) then pfail (core_error "cancelled" "command authority cancelled")
  else original.
End guarded.
