(* ===== verification/GuardedLaws.v ===== *)
(** * What a guarded call has seen when its body begins

    A logic for the processes of [Guarded]: what a call has learnt so far,
    and what must hold of it whenever the body begins and when the call
    returns.  Other callers may run between any two questions, so nothing is
    assumed of the answers. *)

From S2P Require Export Guarded.
From S2P Require Import Envelope RunModel.
Local Open Scope Z_scope.

(** ** What a call has learnt *)

(** What a call read of the receipts of a run, of those of a chat, and of the
    barriers of a run of a chat: each with what it asked about. *)
Record Evidence := mkEvidence {
  ev_receipts : option (string * list ExecutionReceiptRecord);
  ev_others : option (string * list ExecutionReceiptRecord);
  ev_barriers : option (string * string * list UncertaintyBarrierRecord)
}.
Record Ghost := mkGhost {
  gh_evidence : Evidence;
  (** The guards asked, in order: which, about what input, and its answer. *)
  gh_guards : list (nat * Value * GuardAnswer);
  (** The call id whose one-use approval was last found unspent, and the one
      that was then spent. *)
  gh_unspent : option string;
  gh_spent : option string;
  (** The last standing key, with the input and the reasons it is of; and the
      last chat metadata read, with its chat. *)
  gh_key : option (Value * list string * string);
  gh_chat : option (string * Value);
  (** The run was last seen alive. *)
  gh_alive : bool;
  (** The admission the store answered [true] to, if that is the last thing
      that happened. *)
  gh_admitted : option (LeaseFence * ExecutionReceiptAdmission);
  (** The body's receipt, once it began; and the last result recorded, with its
      receipt. *)
  gh_started : option (option string);
  gh_recorded : option (string * Value)
}.
Definition unseen : Ghost := mkGhost (mkEvidence None None None) [] None None None None false None None None.
Definition later_than (g : Ghost) : Ghost :=
  mkGhost g.(gh_evidence) g.(gh_guards) g.(gh_unspent) g.(gh_spent) g.(gh_key) g.(gh_chat) g.(gh_alive) None g.(gh_started) g.(gh_recorded).
Definition with_evidence (e : Evidence) (g : Ghost) : Ghost :=
  mkGhost e g.(gh_guards) g.(gh_unspent) g.(gh_spent) g.(gh_key) g.(gh_chat) g.(gh_alive) None g.(gh_started) g.(gh_recorded).
Definition with_guard (asked : nat * Value * GuardAnswer) (g : Ghost) : Ghost :=
  mkGhost g.(gh_evidence) (g.(gh_guards) ++ [asked]) g.(gh_unspent) g.(gh_spent) g.(gh_key) g.(gh_chat) g.(gh_alive) None g.(gh_started) g.(gh_recorded).
Definition with_grant (unspent spent : option string) (g : Ghost) : Ghost :=
  mkGhost g.(gh_evidence) g.(gh_guards) unspent spent g.(gh_key) g.(gh_chat) g.(gh_alive) None g.(gh_started) g.(gh_recorded).
Definition with_standing (key : option (Value * list string * string)) (chat : option (string * Value)) (g : Ghost) : Ghost :=
  mkGhost g.(gh_evidence) g.(gh_guards) g.(gh_unspent) g.(gh_spent) key chat g.(gh_alive) None g.(gh_started) g.(gh_recorded).
Definition with_body (alive : bool) (admitted : option (LeaseFence * ExecutionReceiptAdmission)) (started : option (option string))
    (recorded : option (string * Value)) (g : Ghost) : Ghost :=
  mkGhost g.(gh_evidence) g.(gh_guards) g.(gh_unspent) g.(gh_spent) g.(gh_key) g.(gh_chat) alive admitted started recorded.

Definition seen {X} (q : Query X) : X → Ghost → Ghost :=
  match q with
  | QListExecutions run_id => λ r g, match r with
      | Ok rows => with_evidence (mkEvidence (Some (run_id, rows)) g.(gh_evidence).(ev_others) g.(gh_evidence).(ev_barriers)) g
      | Err _ => later_than g
      end
  | QListByChat chat_id => λ r g, match r with
      | Ok rows => with_evidence (mkEvidence g.(gh_evidence).(ev_receipts) (Some (chat_id, rows)) g.(gh_evidence).(ev_barriers)) g
      | Err _ => later_than g
      end
  | QListBarriers chat_id run_id => λ r g, match r with
      | Ok rows => with_evidence (mkEvidence g.(gh_evidence).(ev_receipts) g.(gh_evidence).(ev_others) (Some (chat_id, run_id, rows))) g
      | Err _ => later_than g
      end
  | QAdmit proof a => λ r g, match r with
      | Ok true => with_body g.(gh_alive) (Some (proof, a)) g.(gh_started) g.(gh_recorded) g
      | _ => later_than g
      end
  | QGuard guard input => λ answer, with_guard (guard, input, answer)
  | QConsumed call_id => λ consumed g, with_grant (if consumed then None else Some call_id) g.(gh_spent) g
  | QConsume call_id => λ _ g, with_grant None (if ostr_eqb g.(gh_unspent) (Some call_id) then Some call_id else g.(gh_spent)) g
  | QKeyFor input reasons => λ key g,
      with_standing (match key with Ok (Some (digest, _)) => Some (input, reasons, digest) | _ => None end) g.(gh_chat) g
  | QGetChat chat_id => λ chat g,
      with_standing g.(gh_key) (match chat with Ok (Some chat) => Some (chat_id, chat.(ch_metadata)) | _ => None end) g
  | QCancelled => λ cancelled g, with_body (negb cancelled) None g.(gh_started) g.(gh_recorded) g
  | QStart receipt _ => λ _ g, with_body g.(gh_alive) None (Some receipt) g.(gh_recorded) g
  | QComplete _ id v _ => λ r g, with_body g.(gh_alive) None g.(gh_started) (match r with Ok _ => Some (id, v) | Err _ => None end) g
  | QNotStarted _ _ id v => λ r g,
      with_body g.(gh_alive) None g.(gh_started) (match r with Ok true => Some (id, v) | _ => None end) g
  | _ => λ _ g, later_than g
  end.

(** The states a process may come to, whatever the answers. *)
Inductive reaches {A} : Ghost → Proc A → Ghost → Proc A → Prop :=
  | reaches_here g p : reaches g p g p
  | reaches_there {X} (q : Query X) k x g g' p' : reaches (seen q x g) (k x) g' p' → reaches g (PAsk q k) g' p'.

(** ** The logic *)

Section logic.
Context (may_start : Ghost → option string → Value → Prop).

Definition allowed (g : Ghost) {X} (q : Query X) : Prop :=
  match q with QStart receipt input => may_start g receipt input | _ => True end.
Fixpoint wp {A} (g : Ghost) (p : Proc A) (Q : Ghost → A → Prop) : Prop :=
  match p with
  | PRet a => Q g a
  | PAsk q k => allowed g q ∧ ∀ x, wp (seen q x g) (k x) Q
  end.

Lemma wp_reaches {A} (Q : Ghost → A → Prop) g p g' p' : reaches g p g' p' → wp g p Q → wp g' p' Q.
Proof. induction 1 as [|X q k x g g' p' _ IH]; [done|]. intros [_ H]. apply IH, H. Qed.
Lemma wp_mono {A} (Q Q' : Ghost → A → Prop) g p : (∀ g a, Q g a → Q' g a) → wp g p Q → wp g p Q'.
Proof. intros HQ. revert g. induction p as [a|X q k IH]; intros g; simpl; [apply HQ|]. intros [H1 H2]. split; [done|]. intros x. apply IH, H2. Qed.

(** Between parts of a process that may fail. *)
Definition goes {A} (E : Ghost → CoreError → Prop) (Q : Ghost → A → Prop) (g : Ghost) (r : Res CoreError A) : Prop :=
  match r with Ok a => Q g a | Err e => E g e end.
Lemma wp_bind {A B} (E : Ghost → CoreError → Prop) (Q : Ghost → B → Prop) g (p : P A) (f : A → P B) :
  wp g p (goes E (λ g a, wp g (f a) (goes E Q))) → wp g (p ≫= f) (goes E Q).
Proof.
  change (p ≫= f) with (pbind p f). revert g. induction p as [[a|e]|X q k IH]; intros g; simpl; [done|done|].
  intros [H1 H2]. split; [done|]. intros x. apply IH, H2.
Qed.
Lemma wp_query {A} (E : Ghost → CoreError → Prop) (Q : Ghost → A → Prop) g (q : Query A) :
  allowed g q → (∀ x, Q (seen q x g) x) → wp g (query q) (goes E Q).
Proof. done. Qed.
Lemma wp_query_or {A E'} (E : Ghost → CoreError → Prop) (Q : Ghost → A → Prop) g (q : Query (Res E' A)) f :
  allowed g q → (∀ e, E (seen q (Err e) g) (f e)) → (∀ a, Q (seen q (Ok a) g) a) → wp g (query_or q f) (goes E Q).
Proof. intros H HE HQ. split; [done|]. intros [a|e]; simpl; [apply HQ|apply HE]. Qed.
End logic.

Abbreviation ok Q := (goes (λ _ _, True) Q).

Section calls.
Context {digests : Digests} {text_digest : TextDigest} {results : ResultJson} {lower : LowerExp}.
Context (may_start : Ghost → option string → Value → Prop).
#[local] Abbreviation wp := (wp may_start).

Lemma later_steady g : gh_admitted g = None → later_than g = g.
Proof. destruct g. simpl. by intros ->. Qed.
(** No unsettled effect of this operation stood in what the call read, short
    of the one its own approval names: not in its own run, not in another run
    of its chat, not as a barrier of either. *)
Definition cleared (d : DurableExecution) (tool : StagedDefinition) (call input_args ts_args : string) (input : Value) (e : Evidence) : Prop :=
  ∃ own others barriers,
    e.(ev_receipts) = Some (d.(de_task_id), own) ∧ e.(ev_others) = Some (d.(de_chat_id), others)
    ∧ e.(ev_barriers) = Some (d.(de_chat_id), d.(de_task_id), barriers)
    ∧ (∀ r, rfind (this_operation tool input) own = Some r → is_admitted r = true → covers d call r.(er_execution_id) = true)
    ∧ (∀ r, rfind (λ r, this_operation tool input r && is_admitted r)
          (filter_by (λ r, negb (String.eqb r.(er_run_id) d.(de_task_id))) others) = Some r →
        covers d call r.(er_execution_id) = true)
    ∧ (∀ b, rfind (λ b, blocks b tool.(sg_name) input_args (Some ts_args)) barriers = Some b → covers d call b.(ub_barrier_id) = true).

(** What the questions before the guards leave behind. *)
Definition before_post (d : DurableExecution) (context : CallContext) (tool : StagedDefinition) (input : Value) (g g' : Ghost) (pre : PreGuard) : Prop :=
  gh_admitted g' = None ∧ gh_guards g' = gh_guards g ∧ gh_started g' = gh_started g ∧
  match pre with
  | Proceed => needs_receipt d tool = true → ∃ call, context.(cx_tool_call_id) = Some call
      ∧ cleared d tool call (args_sha256 input) (ts_args_sha256 input) input g'.(gh_evidence)
  | Uncertain _ generation => ∃ call, context.(cx_tool_call_id) = Some call ∧ covers d call generation = false
  | Replay _ => True
  end.

Lemma wp_before_guards g d context contribution tool effect_context input : gh_admitted g = None →
  wp g (before_guards d context contribution tool effect_context input) (ok (before_post d context tool input g)).
Proof.
  intros Hg. unfold before_guards. destruct (needs_receipt d tool) eqn:En; [|split_and!; [done..|congruence]].
  destruct (cx_tool_call_id context) as [call|] eqn:Ec; [|done]. cbn [negb].
  apply wp_bind, wp_query_or; [done|done|]. intros receipts.
  destruct (opt_filter _ (rfind _ receipts)) as [last|].
  { destruct (replayed d contribution tool effect_context input last) as [pre|] eqn:Er; [|done].
    split_and!; [done..|]. revert Er. unfold replayed. repeat case_match; naive_solver. }
  unfold probe. destruct (opt_filter _ (opt_filter _ _)) as [previous|] eqn:E1.
  { apply opt_filter_Some in E1 as [_ ?%negb_true_iff]. split_and!; try done. by exists call. }
  apply wp_bind, wp_query_or; [done|done|]. intros others.
  destruct (opt_filter _ (rfind _ (filter_by _ _))) as [previous|] eqn:E2.
  { apply opt_filter_Some in E2 as [_ ?%negb_true_iff]. split_and!; try done. by exists call. }
  apply wp_bind, wp_query_or; [done|done|]. intros barriers.
  destruct (opt_filter _ (rfind _ barriers)) as [barrier|] eqn:E3.
  { apply opt_filter_Some in E3 as [_ ?%negb_true_iff]. split_and!; try done. by exists call. }
  split_and!; try done. intros _. exists call. split; [done|]. exists receipts, others, barriers. split_and!; [done..| | |].
  - intros r Hr Ha. apply negb_false_iff, (opt_filter_None _ _ _ E1). transitivity (opt_filter is_admitted (Some r)); [by f_equal|by simpl; rewrite Ha].
  - intros r Hr. apply negb_false_iff, (opt_filter_None _ _ _ E2), Hr.
  - intros b Hb. apply negb_false_iff, (opt_filter_None _ _ _ E3), Hb.
Qed.

Lemma guard_chain_app l1 l2 asks : guard_chain (l1 ++ l2) asks
  = match guard_chain l1 asks with ChainPassed asks' => guard_chain l2 asks' | outcome => outcome end.
Proof. revert asks. induction l1 as [|[[[|reason|a]|e]| |] l1 IH]; intros asks; simpl; try done; apply IH. Qed.

(** The first [n] guards, each asked about [input], in order. *)
Definition asked_of (input : Value) (n : nat) (g : Ghost) : Prop :=
  map fst (gh_guards g) = map (λ guard, (guard, input)) (seq 0 n).
Definition guards_said (g : Ghost) : list GuardAnswer := map snd (gh_guards g).

(** The loop over the guards is their chain. *)
Definition guards_post (g g' : Ghost) (input : Value) (n : nat) (r : list ApprovalAsk + ToolResult) : Prop :=
  gh_admitted g' = None ∧ gh_started g' = gh_started g ∧ gh_evidence g' = gh_evidence g
  ∧ match r with
    | inl asks' => guard_chain (guards_said g') [] = ChainPassed asks' ∧ asked_of input n g'
    | inr _ => True
    end.
Lemma asked_of_next input n answer g : asked_of input n g → asked_of input (S n) (with_guard (n, input, answer) g).
Proof. unfold asked_of. intros H. cbn [with_guard gh_guards]. by rewrite seq_S, !map_app, H. Qed.
Lemma wp_run_guards todo next input : ∀ g asks, gh_admitted g = None → guard_chain (guards_said g) [] = ChainPassed asks →
  asked_of input next g →
  wp g (run_guards todo next input asks) (ok (λ g', guards_post g g' input (next + todo))).
Proof.
  revert next. induction todo as [|todo IH]; intros next g asks Hg Hc Ha; cbn [run_guards]; [simpl; split_and!; try done; by rewrite Nat.add_0_r|].
  apply wp_bind, wp_query; [done|]. intros answer. rewrite <-Nat.add_succ_comm.
  destruct answer as [[[|reason|a]|e]| |]; try done;
    (eapply wp_mono; [|apply IH; [done| |by apply asked_of_next]]; [intros g' [r|e'] H; exact H|
      unfold guards_said in *; cbn [seen with_guard gh_guards]; by rewrite map_app, guard_chain_app, Hc]).
Qed.

(** ** Approval *)

(** The call's own one-use answer, found unspent, was spent for exactly these
    arguments and this context; or a remembered approval keyed by this call and
    what was asked of it was read as active in this chat. *)
Definition approved (self : GuardedTool) (context : CallContext) (input : Value) (asks : list ApprovalAsk) (g : Ghost) : Prop :=
  ∃ d, self.(gt_contribution).(cb_durable) = Some d ∧
  ((∃ call_id grant, context.(cx_tool_call_id) = Some call_id
     ∧ grant_of d call_id = Some grant ∧ grant.(ag_args_sha256) = args_sha256 input
     ∧ context_changed (Some grant)
         (Some (execution_context_sha256 d self.(gt_contribution) self.(gt_definition) self.(gt_effect_context))) = false
     ∧ gh_spent g = Some call_id)
   ∨ ∃ digest metadata, d.(de_standing) = true ∧ gh_key g = Some (input, map ask_reason asks, digest)
     ∧ gh_chat g = Some (d.(de_chat_id), metadata)
     ∧ is_some (find_active_standing_grant metadata digest) = true).

(** What an approval leaves behind; one of an uncertain effect names it. *)
Definition approval_post (self : GuardedTool) (context : CallContext) (input : Value) (asks : list ApprovalAsk)
    (uncertainty : option (ToolResult * string)) (g g' : Ghost) (r : Approval) : Prop :=
  gh_started g' = gh_started g ∧
  match r with
  | Approved _ => gh_admitted g' = None ∧ gh_guards g' = gh_guards g ∧ gh_evidence g' = gh_evidence g ∧ approved self context input asks g'
      ∧ ∀ generation, snd <$> uncertainty = Some generation → ∃ call d,
          context.(cx_tool_call_id) = Some call ∧ self.(gt_contribution).(cb_durable) = Some d ∧ covers d call generation = true
  | Ends _ => True
  end.

Lemma wp_ask_human self context input tool approvable approvable' args uncertainty asked standing hash g g0 : gh_started g = gh_started g0 →
  wp g (ask_human context tool approvable args uncertainty standing hash) (ok (approval_post self context input approvable' asked g0)).
Proof.
  intros Hg. unfold ask_human. apply wp_bind, wp_query; [done|]. intros [|]; [done|]. by destruct uncertainty as [[]|].
Qed.

Lemma wp_remembered_or_ask self context input approvable args uncertainty is_duplicate hash g : gh_admitted g = None →
  wp g (remembered_or_ask self context input approvable args uncertainty is_duplicate hash)
    (ok (approval_post self context input approvable uncertainty g)).
Proof.
  intros Hg. unfold remembered_or_ask. destruct (cb_durable (gt_contribution self)) as [d|] eqn:Ed; [|by apply wp_ask_human].
  destruct (negb (is_some uncertainty) && negb is_duplicate && de_standing d) eqn:Eu; [|by apply wp_ask_human].
  apply wp_bind, wp_query; [done|]. intros [[[digest label]|]|e]; [|by apply wp_ask_human..].
  unfold has_active_standing_grant. apply wp_bind, wp_bind, wp_query_or; [done|done|].
  intros [chat|]; [|done]. cbn [seen]. destruct (is_some (find_active_standing_grant (ch_metadata chat) digest)) eqn:Ea; [|by apply wp_ask_human].
  split_and!; [done..| |].
  - exists d. split; [done|]. right. exists digest, (ch_metadata chat). split_and!; [|done..]. by apply andb_true_iff in Eu as [_ ?].
  - intros generation Hu. by destruct uncertainty.
Qed.
Lemma wp_resolve_approval self context input approvable uncertainty g : gh_admitted g = None →
  wp g (resolve_approval self context input approvable uncertainty) (ok (approval_post self context input approvable uncertainty g)).
Proof.
  intros Hg. unfold resolve_approval. cbv zeta.
  destruct (context_changed _ _) eqn:Hctx; [done|]. apply wp_bind.
  destruct (cx_tool_call_id context) as [call|] eqn:Ecall; [|by apply wp_remembered_or_ask].
  destruct (spendable _ _ _) eqn:Es; [|by apply wp_remembered_or_ask].
  apply wp_bind, wp_query; [done|]. intros [|]; cbn [seen];
    [refine (wp_mono _ _ _ _ _ _ (wp_remembered_or_ask self context input approvable _ uncertainty _ _ (with_grant None (gh_spent g) g) eq_refl)); by intros g' [r|e]|].
  apply wp_bind, wp_query; [done|]. intros [].
  destruct (cb_durable (gt_contribution self)) as [d|] eqn:Ed; [|done]. simpl in *.
  destruct (grant_of d call) as [grant|] eqn:Eg; [|done].
  apply andb_true_iff in Es as [Es%String.eqb_eq Egen].
  split_and!; [done..| |].
  - exists d. split; [done|]. left. exists call, grant. split_and!; try done. simpl. unfold ostr_eqb. by rewrite bool_decide_eq_true_2.
  - intros generation Hu. exists call, d. split_and!; [done..|]. unfold covers. rewrite Eg. simpl. by rewrite <- Hu.
Qed.
End calls.

(** ** The whole call *)

Section whole.
Context {digests : Digests} {text_digest : TextDigest} {results : ResultJson} {lower : LowerExp}.
Context (self : GuardedTool) (context : CallContext) (input : Value).

(** The authority a body begins under: every guard passed on these very
    arguments, what they asked for was approved, the run was alive, and, for an
    effect, nothing unsettled stands in its way and the store has just granted
    the receipt. *)
Definition authorized (g : Ghost) (receipt : option string) (input' : Value) : Prop :=
  input' = input ∧ gh_started g = None ∧ gh_alive g = true
  ∧ (asked_of input self.(gt_guards) g ∧ ∃ asks, guard_chain (guards_said g) [] = ChainPassed asks
       ∧ (asks = [] ∨ approved self context input asks g))
  ∧ match self.(gt_contribution).(cb_durable) with
    | None => receipt = None
    | Some d =>
        if needs_receipt d self.(gt_definition) then
          ∃ call now, context.(cx_tool_call_id) = Some call
            ∧ cleared d self.(gt_definition) call (args_sha256 input) (ts_args_sha256 input) input g.(gh_evidence)
            ∧ context_changed (grant_of d call)
                (Some (execution_context_sha256 d self.(gt_contribution) self.(gt_definition) self.(gt_effect_context))) = false
            ∧ gh_admitted g = Some (d.(de_fence),
                admission_of d self.(gt_contribution) self.(gt_definition) self.(gt_effect_context) input call now)
            ∧ receipt = Some (execution_id d.(de_task_id) call (ag_request_id <$> grant_of d call))
        else receipt = None
    end.
(** A body that ran under a receipt has its result recorded there. *)
Definition recorded_first (g : Ghost) (result : ToolResult) : Prop :=
  ∀ id, gh_started g = Some (Some id) → gh_recorded g = Some (id, to_value result).
#[local] Abbreviation wp := (wp authorized).

Lemma wp_execute_receipted owns_start receipt g : authorized g receipt input →
  wp g (execute_receipted owns_start self.(gt_contribution).(cb_durable) receipt input) (ok recorded_first).
Proof.
  intros Hauth. unfold execute_receipted. apply wp_bind, wp_query; [done|]. intros [].
  apply wp_bind, wp_query_or; [done|done|]. intros result.
  destruct Hauth as (_ & _ & _ & _ & Hd). destruct (cb_durable _) as [d|]; [|by subst].
  destruct receipt as [id|]; [|done]. apply wp_bind.
  destruct (owns_start && is_no_start result).
  - unfold complete_not_started. apply wp_bind, wp_query_or; [done|done|]. intros [|]; [|done]. by intros id' [= <-].
  - unfold complete. apply wp_bind, wp_query; [done|]. intros now. apply wp_query_or; [done|done|]. intros []. by intros id' [= <-].
Qed.

(** Ready to dispatch: all of [authorized] but the admission. *)
Definition ready (g : Ghost) : Prop :=
  gh_admitted g = None ∧ gh_started g = None
  ∧ (asked_of input self.(gt_guards) g ∧ ∃ asks, guard_chain (guards_said g) [] = ChainPassed asks
       ∧ (asks = [] ∨ approved self context input asks g))
  ∧ ∀ d, self.(gt_contribution).(cb_durable) = Some d → needs_receipt d self.(gt_definition) = true →
      ∃ call, context.(cx_tool_call_id) = Some call
        ∧ cleared d self.(gt_definition) call (args_sha256 input) (ts_args_sha256 input) input g.(gh_evidence).

Lemma not_started_recorded g result : gh_started g = None → recorded_first g result.
Proof. intros Hg id Hid. congruence. Qed.

Lemma wp_admit_and_run g : ready g →
  wp g (admit_and_run self.(gt_records_start) self.(gt_contribution).(cb_durable) context self.(gt_contribution)
          self.(gt_definition) self.(gt_effect_context) input) (ok recorded_first).
Proof.
  intros Hr. pose proof Hr as (Hadm & Hst & Hasks & Hcl). unfold admit_and_run. apply wp_bind.
  assert (wp g (cancelled ← query QCancelled;
    if (cancelled : bool) then pfail aborted
    else admission ← match self.(gt_contribution).(cb_durable) with
                     | None => pret Skipped
                     | Some d => admit_call d context self.(gt_contribution) self.(gt_definition) self.(gt_effect_context) input
                     end;
         match admission with
         | Skipped => execute_receipted self.(gt_records_start) self.(gt_contribution).(cb_durable) None input
         | Granted id => execute_receipted self.(gt_records_start) self.(gt_contribution).(cb_durable) (Some id) input
         | NotAdmitted result => pret result
         end) (ok recorded_first)) as Hrest.
  { apply wp_bind, wp_query; [done|]. intros [|]; [done|]. cbn [seen negb].
    set (g' := with_body true None (gh_started g) (gh_recorded g) g). apply wp_bind.
    destruct (cb_durable _) as [d|] eqn:Ed; [|rewrite <- Ed; apply wp_execute_receipted; split_and!; [done..|exact (proj1 Hasks)|exact (proj2 Hasks)|by rewrite Ed]].
    unfold admit_call. destruct (needs_receipt d _) eqn:En; cbn [negb];
      [|rewrite <- Ed; apply wp_execute_receipted; split_and!; [done..|exact (proj1 Hasks)|exact (proj2 Hasks)|by rewrite Ed, En]].
    destruct (Hcl d eq_refl En) as (call & Ecall & Hclear). rewrite Ecall.
    destruct (context_changed _ _) eqn:Ectx; [by apply not_started_recorded|].
    apply wp_bind, wp_query; [done|]. intros now. cbn [seen]. rewrite later_steady by done.
    apply wp_bind, wp_query_or; [done|done|]. intros [|]; [|by apply not_started_recorded].
    rewrite <- Ed. apply wp_execute_receipted. split_and!; [done..|exact (proj1 Hasks)|exact (proj2 Hasks)|]. rewrite Ed, En. by exists call, now. }
  destruct (cx_dispatch_guard context); [|done]. apply wp_query_or; [done|done|]. intros []. cbn [seen]. by rewrite later_steady.
Qed.

(** After the receipts were read: the guards, the approval, the body. *)
Definition after_receipts (uncertainty : option (ToolResult * string)) : P ToolResult :=
  chain ← run_guards self.(gt_guards) 0 input [];
  match chain with
  | inr refused => pret refused
  | inl approvable =>
      let approvable := approvable ++ match uncertainty with
        | Some (_, generation) => [uncertain_ask self.(gt_definition) generation] | None => [] end in
      approval ← match approvable with
                 | [] => pret (Approved None)
                 | _ => resolve_approval self context input approvable uncertainty
                 end;
      match approval with
      | Ends result => pret result
      | Approved _ =>
          admit_and_run self.(gt_records_start) self.(gt_contribution).(cb_durable) context self.(gt_contribution)
            self.(gt_definition) self.(gt_effect_context) input
      end
  end.

Lemma wp_after_receipts uncertainty g : gh_admitted g = None → gh_guards g = [] → gh_started g = None →
  (uncertainty = None → ∀ d, self.(gt_contribution).(cb_durable) = Some d → needs_receipt d self.(gt_definition) = true →
    ∃ call, context.(cx_tool_call_id) = Some call
      ∧ cleared d self.(gt_definition) call (args_sha256 input) (ts_args_sha256 input) input g.(gh_evidence)) →
  (∀ generation call d, snd <$> uncertainty = Some generation → context.(cx_tool_call_id) = Some call →
    self.(gt_contribution).(cb_durable) = Some d → covers d call generation = false) →
  wp g (after_receipts uncertainty) (ok recorded_first).
Proof.
  intros Hadm Hgs Hst Hclear Hunc. unfold after_receipts. apply wp_bind.
  eapply wp_mono; [|apply wp_run_guards; [done|unfold guards_said|unfold asked_of]; by rewrite Hgs].
  intros g1 [r|e] H; [|done]. destruct H as (Hadm1 & Hst1 & Hev1 & Hr).
  destruct r as [asks|refused]; [|apply not_started_recorded; congruence]. destruct Hr as [Hchain Hasked].
  cbn [Nat.add] in Hasked. cbv zeta. apply wp_bind.
  set (approvable := asks ++ _).
  assert (asks = [] ∧ uncertainty = None ∨
    match approvable with
    | [] => pret (Approved None)
    | a :: l => resolve_approval self context input approvable uncertainty
    end = resolve_approval self context input approvable uncertainty)
    as [[-> ->]|Heq] by (unfold approvable; destruct asks, uncertainty as [[]|]; naive_solver).
  - apply wp_admit_and_run. split_and!; [done|congruence|done|by exists []; auto|]. rewrite Hev1. by apply Hclear.
  - cbn [goes] in Heq |- *. rewrite Heq. eapply wp_mono; [|by apply wp_resolve_approval].
    intros g2 [a|e] H; [|done]. destruct H as [Hst2 Ha]. destruct a; [|apply not_started_recorded; congruence].
    destruct Ha as (Hadm2 & Hgs2 & Hev2 & Happ & Hcov).
    destruct uncertainty as [[refusal generation]|].
    { destruct (Hcov generation eq_refl) as (call & d & H1 & H2 & H3). by rewrite (Hunc generation call d) in H3. }
    unfold approvable in Happ. rewrite app_nil_r in Happ. apply wp_admit_and_run. unfold ready, asked_of, guards_said. rewrite Hgs2.
    split_and!; [done|congruence|done|exists asks; auto|]. rewrite Hev2, Hev1. by apply Hclear.
Qed.

Lemma wp_execute : wp unseen (execute self context input) (ok recorded_first).
Proof.
  unfold execute. destruct (negb _); [done|]. apply wp_bind.
  assert (wp unseen (match self.(gt_contribution).(cb_durable) with
     | Some d => before_guards d context self.(gt_contribution) self.(gt_definition) self.(gt_effect_context) input
     | None => pret Proceed end)
     (ok (λ g pre, gh_admitted g = None ∧ gh_guards g = [] ∧ gh_started g = None ∧
        match self.(gt_contribution).(cb_durable) with
        | Some d => before_post d context self.(gt_definition) input unseen g pre
        | None => pre = Proceed
        end))) as Hbefore.
  { destruct (cb_durable _) as [d|]; [|done].
    eapply wp_mono; [|by apply wp_before_guards]. intros g [pre|e] H; [|done]. pose proof H as (H1 & H2 & H3 & H4).
    by split_and!. }
  eapply wp_mono; [|exact Hbefore]. clear Hbefore. intros g [pre|e] H; [|done]. destruct H as (Hadm & Hgs & Hst & Hpre).
  destruct pre as [|result|refusal generation]; [|by apply not_started_recorded|].
  - apply (wp_after_receipts None); [done..| |done]. intros _ d Hd. rewrite Hd in Hpre. by destruct Hpre as (_ & _ & _ & H).
  - apply (wp_after_receipts (Some (refusal, generation))); [done..|]. intros ? call d [= <-] Hcall Hd.
    rewrite Hd in Hpre. destruct Hpre as (_ & _ & _ & call' & H1 & H2). by simplify_eq.
Qed.

(** C19: Whatever the store, the guards, the person and other callers answer
    and whenever they answer it, when the body of a guarded tool begins it
    begins once, on the very input of the call, after the run was last seen
    alive and every guard of the tool, the first to the last, was asked about
    that input and passed; if any of them asked for a person, the one-use
    answer of this exact call (same arguments, same context) was found unspent
    and then spent, or a remembered approval keyed by this input and these
    reasons was read as active in this chat; and an effect begins only when
    the receipts of its run, those of its chat and the barriers of both were
    read, no unsettled execution or barrier among them stood in its way, and
    the last thing that happened was that the store granted its own receipt
    under its lease. *)
Theorem body_authorized g receipt input' k :
  reaches unseen (execute self context input) g (PAsk (QStart receipt input') k) → authorized g receipt input'.
Proof. intros H. by destruct (wp_reaches _ _ _ _ _ _ H wp_execute). Qed.

(** C20: When a guarded call hands back a result after its body ran under a
    receipt, that very result has been recorded under that receipt, whatever
    the answers on the way; if it could not be recorded the call fails. *)
Theorem result_recorded_first g result id :
  reaches unseen (execute self context input) g (PRet (Ok result)) → gh_started g = Some (Some id) →
  gh_recorded g = Some (id, to_value result).
Proof. intros H. exact (wp_reaches _ _ _ _ _ _ H wp_execute id). Qed.
End whole.

(** ** A run of the logic *)

(** The answers of a quiet world. *)
Definition quietly (answer : GuardAnswer) {X} (q : Query X) : X :=
  match q with
  | QListExecutions _ => Ok []
  | QListByChat _ => Ok []
  | QListBarriers _ _ => Ok []
  | QGetChat _ => Ok None
  | QAdmit _ _ => Ok true
  | QComplete _ _ _ _ => Ok tt
  | QNotStarted _ _ _ _ => Ok true
  | QConsumed _ => false
  | QConsume _ => tt
  | QGuard _ _ => answer
  | QKeyFor _ _ => Ok None
  | QRequestHuman _ => true
  | QDispatch => Ok tt
  | QCancelled => false
  | QNow => 5
  | QStart _ _ => tt
  | QBody => Ok (mkToolResult true None [] [] false None None None None)
  end.
(** To where the body begins; to the end. *)
Fixpoint to_start {A} (oracle : ∀ X, Query X → X) (g : Ghost) (p : Proc A) : option (Ghost * option string * Value * (unit → Proc A)) :=
  match p with
  | PRet _ => None
  | PAsk q k =>
      match q in Query X return (X → Proc A) → option (Ghost * option string * Value * (unit → Proc A)) → _ with
      | QStart receipt input => λ k _, Some (g, receipt, input, k)
      | _ => λ _ more, more
      end k (to_start oracle (seen q (oracle _ q) g) (k (oracle _ q)))
  end.
Fixpoint to_end {A} (oracle : ∀ X, Query X → X) (g : Ghost) (p : Proc A) : Ghost * A :=
  match p with
  | PRet a => (g, a)
  | PAsk q k => to_end oracle (seen q (oracle _ q) g) (k (oracle _ q))
  end.
Lemma to_start_reaches {A} oracle (p : Proc A) : ∀ g g' receipt input k,
  to_start oracle g p = Some (g', receipt, input, k) → reaches g p g' (PAsk (QStart receipt input) k).
Proof.
  induction p as [a|X q k IH]; intros g g' receipt input k' H; [done|].
  destruct q; try (by eapply reaches_there, IH, H). simpl in H. injection H as <- <- <- <-. constructor.
Qed.
Lemma to_end_reaches {A} oracle (p : Proc A) : ∀ g, reaches g p (to_end oracle g p).1 (PRet (to_end oracle g p).2).
Proof. induction p as [a|X q k IH]; intros g; simpl; [constructor|]. eapply reaches_there, IH. Qed.

Section examples.
Definition ex_digest : string := "0123456789abcdef0123456789abcdef0123456789abcdef0123456789abcdef".
Definition ex_text_digest : TextDigest := λ _, ex_digest.
Definition ex_json_digest : Digests := {| json_sha256 := λ _, ex_digest; json_len := λ _, 2 |}.
Definition ex_results : ResultJson := {| to_value := λ r, VObj [("ok", VBool r.(tr_ok))]; from_value := λ _, None |}.
Definition ex_exponent : LowerExp := λ _, (false, [49], 0).

(** A write under one guard, in the run [t1]. *)
Definition ex_tool (proof : LeaseFence) (grants : list (string * ApprovalGrant)) : GuardedTool :=
  mkGuarded (mkStaged "write_file" "1" "write" "files") None false 1
    (mkContribution (Some "chat") "t1" None []
      (Some (mkDurable "t1" "attempt" proof "chat" None grants false))).
Definition ex_context (call : string) : CallContext := mkCallContext (Some "chat") "t1" None (Some call) true.
Definition ex_input : Value := VObj [("path", VStr "a")].
Definition ex_grant : ApprovalGrant := mkGrant "i1" ex_digest None (Some ex_digest).
End examples.

Lemma body_authorized_witness :
  let digests := ex_json_digest in let text_digest := ex_text_digest in let results := ex_results in let lower := ex_exponent in
  let self := ex_tool (mkFence "t1" "token" 1) [("call1", ex_grant)] in
  match to_start (@quietly (Permission.Answered (Ok (VerdictAwaitingHuman (mkAsk "write" None None None))))) unseen
          (execute self (ex_context "call1") ex_input) with
  | Some (g, receipt, input, _) => receipt = Some ex_digest ∧ authorized self (ex_context "call1") ex_input g receipt input
  | None => False
  end.
Proof.
  intros digests text_digest results lower self.
  destruct (to_start _ _ _) as [[[[g receipt] input] k]|] eqn:E; [|vm_compute in E; discriminate E].
  split; [vm_compute in E; by injection E as _ <- _ _|].
  exact (body_authorized self (ex_context "call1") ex_input g receipt input k (to_start_reaches _ _ _ _ _ _ _ E)).
Defined.

Lemma result_recorded_first_witness :
  let digests := ex_json_digest in let text_digest := ex_text_digest in let results := ex_results in let lower := ex_exponent in
  let self := ex_tool (mkFence "t1" "token" 1) [] in
  let last := to_end (@quietly (Permission.Answered (Ok VerdictAllowed))) unseen (execute self (ex_context "call1") ex_input) in
  gh_recorded last.1 = Some (ex_digest, VObj [("ok", VBool true)]).
Proof.
  intros digests text_digest results lower self last.
  destruct last.2 as [result|e] eqn:E; [|vm_compute in E; discriminate E].
  assert (to_value result = VObj [("ok", VBool true)]) as <- by (vm_compute in E; by injection E as <-).
  apply (result_recorded_first self (ex_context "call1") ex_input last.1 result ex_digest); [|vm_compute; reflexivity].
  rewrite <-E. apply to_end_reaches.
Defined.
