(* ===== verification/Lifecycle.v ===== *)
(** * The task lifecycle

    [store/src/tasks/lifecycle.rs], [retry.rs] and [runtime_state.rs]: the
    fenced writes of a running attempt, its settlement or retry, requested
    cancellation, and the recovery of expired leases. *)

From S2P Require Export Tasks.
Local Open Scope Z_scope.

Definition orphan_grace_ms : Z := 10 * 60 * 1000.

Section lifecycle.
Context {host : Host}.
Implicit Types (task : TaskRecord) (lease : Lease).

Definition is_running (a : AttemptRecord) : bool := String.eqb a.(a_status) "running".

Definition ended (status : string) (now : Z) (error : option string) (a : AttemptRecord)
    : AttemptRecord :=
  a <| a_status := status |> <| a_ended_at := Some now |> <| a_error := error |>.

Definition end_attempt (lease : Lease) (status : string) (now : Z) (error : option string)
    : M unit :=
  attempt ← required (A := AttemptRecord) lease.(l_attempt_id);
  if negb (is_running attempt) then mret tt else
  update_row (ended status now error attempt).

Definition delete_lease (task_id : string) : M unit := delete_row (A := Lease) task_id.

(** ** Fenced writes of the running attempt *)

Definition check_dispatch (proof : LeaseFence) (now : Z) : M unit :=
  _ ← fence proof now;
  task ← required (A := TaskRecord) proof.(f_task_id);
  guard_or (running task && negb task.(t_cancel_requested)) (LeaseLost proof.(f_task_id)).

Definition renew (proof : LeaseFence) (now ttl_ms : Z) : M Lease :=
  lease ← fence proof now;
  expires_at ← lift (checked_expiry now ttl_ms);
  let lease := lease <| l_expires_at := expires_at |> in
  _ ← update_row lease;
  mret lease.

Definition update_progress (proof : LeaseFence) (progress : Value) (now : Z) : M unit :=
  _ ← fence proof now;
  task ← required (A := TaskRecord) proof.(f_task_id);
  save (task <| t_progress := Some progress |>).

Definition checkpoint_runtime_state (proof : LeaseFence) (expected : option Value)
    (state : Value) (now : Z) : M TaskRecord :=
  _ ← fence proof now;
  task ← required (A := TaskRecord) proof.(f_task_id);
  _ ← guard_or (ovalue_eqb task.(t_runtime_state) expected)
        (InvalidTransition "runtime state changed since checkpoint");
  let task := task <| t_runtime_state := Some state |> in
  _ ← save task;
  mret task.

Definition submit_child (proof : LeaseFence) (input : SubmitTask) (now : Z) : M TaskRecord :=
  _ ← fence proof now;
  parent ← required (A := TaskRecord) proof.(f_task_id);
  _ ← guard_or (running parent && negb parent.(t_cancel_requested))
        (InvalidTransition "parent task is not accepting children");
  _ ← guard_or (ostr_eqb input.(s_parent_task_id) (Some proof.(f_task_id)))
        (InvalidInput "child parent does not match current lease task");
  Tasks.insert (input <| s_now := now |>).

(** ** Settlement *)

(** What a session settle adds in the same transaction: the descriptor the
    chat must still hold, and the settlement of the session's inputs
    ([session_ops::settle_session_inputs]). *)
Record SessionExtra := mkExtra {
  expected_descriptor : option Value;
  settle_inputs : TaskRecord → bool → Z → M unit
}.

Definition session_metadata_key : string := "agentkit.session".

Definition check_descriptor (extra : option SessionExtra) (task : TaskRecord) : M unit :=
  match extra ≫= expected_descriptor with
  | Some expected =>
      chat ← get (A := ChatRecord) task.(t_scope_id);
      guard_or (ovalue_eqb (chat ≫= λ c, vget c.(ch_metadata) session_metadata_key) (Some expected))
        (SessionDescriptorChanged task.(t_scope_id))
  | None => mret tt
  end.

Definition settled (input : SettleTask) (task : TaskRecord) : TaskRecord :=
  task <| t_status := if task.(t_cancel_requested) then Cancelled else input.(st_status) |>
    <| t_finished_at := Some input.(st_now) |> <| t_retry_pending := false |>
    <| t_error := input.(st_error) |>.

Definition settleable (task : TaskRecord) : bool :=
  running task || bool_decide (task.(t_status) = WaitingApproval).

Definition settle_inner (input : SettleTask) (extra : option SessionExtra) : M TaskRecord :=
  _ ← guard_or (is_terminal input.(st_status))
        (InvalidTransition "settle requires terminal status");
  lease ← fence input.(st_fence) input.(st_now);
  task ← required (A := TaskRecord) input.(st_fence).(f_task_id);
  _ ← guard_or (settleable task)
        (InvalidTransition (status_debug task.(t_status) +:+ " cannot settle"));
  _ ← (if bool_decide (input.(st_status) = Completed) && negb task.(t_cancel_requested)
       then check_descriptor extra task else mret tt);
  let task := settled input task in
  _ ← TaskEvents.append task.(t_task_id) input.(st_events) input.(st_now);
  _ ← for_each (project_message task input.(st_now)) input.(st_messages);
  _ ← save task;
  _ ← end_attempt lease (status_text task.(t_status)) input.(st_now) task.(t_error);
  _ ← lifecycle_event task "task.settled" input.(st_now);
  _ ← delete_lease task.(t_task_id);
  _ ← (match extra with
       | Some extra => extra.(settle_inputs) task
           (bool_decide (task.(t_status) = Completed)) input.(st_now)
       | None => mret tt
       end);
  mret task.

Definition settle (input : SettleTask) : M TaskRecord := settle_inner input None.

(** ** Retry *)

Definition retry_task (input : RetryTask) : M TaskRecord :=
  _ ← guard_or (negb ((input.(r_max_attempts) =? 0) || (input.(r_available_at) <? input.(r_now))))
        (InvalidInput "invalid retry limits or deadline");
  lease ← fence input.(r_fence) input.(r_now);
  task ← required (A := TaskRecord) input.(r_fence).(f_task_id);
  _ ← guard_or (running task) (InvalidTransition "retry requires running task");
  r ← (if task.(t_cancel_requested) then
         let task := task <| t_status := Cancelled |> <| t_finished_at := Some input.(r_now) |>
           <| t_error := None |> in
         _ ← save task;
         _ ← lifecycle_event task "task.settled" input.(r_now);
         mret (task, "cancelled")
       else if input.(r_max_attempts) <=? task.(t_attempt_count) then
         task ← dead_letter task input.(r_now) input.(r_error);
         mret (task, "failed")
       else
         let task := task <| t_available_at := input.(r_available_at) |>
           <| t_retry_pending := true |> <| t_error := Some input.(r_error) |> in
         _ ← save task;
         _ ← lifecycle_event task "task.retry_scheduled" input.(r_now);
         mret (task, "failed"));
  let '(task, attempt_status) := r in
  _ ← end_attempt lease attempt_status input.(r_now) (Some input.(r_error));
  _ ← delete_lease task.(t_task_id);
  mret task.

(** ** Cancellation and resumption *)

Definition cancels_now (task : TaskRecord) : bool :=
  match task.(t_status) with
  | Queued | Interrupted | WaitingApproval | WaitingChild => true
  | _ => task.(t_retry_pending)
  end.

Definition cancel_task (task_id : string) (now : Z) : M TaskRecord :=
  task ← required (A := TaskRecord) task_id;
  if is_terminal task.(t_status) then mret task else
  let task := task <| t_cancel_requested := true |> in
  task ← (if cancels_now task then
            let task := task <| t_status := Cancelled |> <| t_finished_at := Some now |>
              <| t_retry_pending := false |> <| t_interrupt_requested := false |> in
            _ ← cancel_turn_requests task.(t_scope_id) task.(t_task_id) now;
            mret task
          else mret task);
  _ ← save task;
  _ ← lifecycle_event task "task.cancel_requested" now;
  mret task.

Definition resume_task (task_id : string) (now : Z) : M TaskRecord :=
  task ← required (A := TaskRecord) task_id;
  _ ← guard_or (bool_decide (task.(t_status) = Interrupted))
        (InvalidTransition "only interrupted tasks may resume");
  let task := task <| t_status := Queued |> <| t_available_at := now |> in
  _ ← save task;
  _ ← lifecycle_event task "task.queued" now;
  mret task.

(** ** Recovery *)

Definition end_running_attempts (task_id : string) (now : Z) : M unit :=
  attempts ← select (λ a : AttemptRecord, String.eqb a.(a_task_id) task_id);
  for_each (λ a, update_row (ended "abandoned" now (Some "lease_expired") a))
    (filter_by is_running attempts).

Definition recover_task (task : TaskRecord) (now max_attempts delay : Z) (mode : RecoveryMode)
    : M TaskRecord :=
  let task := task <| t_error := Some "lease_expired" |> in
  let finish task := _ ← save task; _ ← lifecycle_event task "task.recovered" now; mret task in
  if task.(t_cancel_requested) then
    finish (task <| t_status := Cancelled |> <| t_finished_at := Some now |>)
  else match mode with
  | Manual => finish (task <| t_status := Interrupted |>)
  | Automatic =>
      if max_attempts <=? task.(t_attempt_count) then dead_letter task now "attempts_exhausted"
      else
        available_at ← lift (ok_or (InvalidInput "retry time overflow")
                               (checked_add_i64 now delay));
        finish (task <| t_status := Queued |> <| t_available_at := available_at |>)
  end.

Definition abandon (task : TaskRecord) (now max_attempts delay : Z) (mode : RecoveryMode)
    : M TaskRecord :=
  poison_count ← lift (ok_or (InvalidInput "poison count overflow")
                         (checked_add_u32 task.(t_poison_count) 1));
  recover_task (task <| t_poison_count := poison_count |>) now max_attempts delay mode.

Definition recover_lease (now max_attempts delay : Z) (mode : RecoveryMode) (lease : Lease)
    : M (option TaskRecord) :=
  task ← required (A := TaskRecord) lease.(l_task_id);
  if negb (settleable task) then
    _ ← end_running_attempts task.(t_task_id) now;
    _ ← delete_lease task.(t_task_id);
    mret None
  else
    _ ← end_attempt lease "abandoned" now (Some "lease_expired");
    task ← abandon task now max_attempts delay mode;
    _ ← delete_lease task.(t_task_id);
    mret (Some task).

(** The newest attempt start, the task's own start, or its enqueue. *)
Definition last_activity (task : TaskRecord) (attempts : list AttemptRecord) : Z :=
  match map a_started_at attempts ++ option_list task.(t_started_at) with
  | [] => task.(t_enqueued_at)
  | z :: zs => foldr Z.max z zs
  end.

Definition recover_orphan (now max_attempts delay : Z) (mode : RecoveryMode) (task : TaskRecord)
    : M (option TaskRecord) :=
  attempts ← select (λ a : AttemptRecord, String.eqb a.(a_task_id) task.(t_task_id));
  if sat_sub now (last_activity task attempts) <=? orphan_grace_ms then mret None else
  _ ← end_running_attempts task.(t_task_id) now;
  task ← abandon task now max_attempts delay mode;
  mret (Some task).

Definition orphan (d : Db) (task : TaskRecord) : bool :=
  running task
  && negb (existsb (λ l, String.eqb l.(l_task_id) task.(t_task_id)) d.(db_leases)).

Definition recover (now max_attempts retry_delay_ms : Z) (mode : RecoveryMode)
    : M (list TaskRecord) :=
  _ ← guard_or (negb ((max_attempts =? 0) || (retry_delay_ms <? 0)))
        (InvalidInput "invalid recovery limits");
  leases ← all (A := Lease);
  recovered ← for_map (recover_lease now max_attempts retry_delay_ms mode)
    (filter_by (λ l, l.(l_expires_at) <=? now) leases);
  orphans ← gets (λ d, filter_by (orphan d) d.(db_tasks));
  swept ← for_map (recover_orphan now max_attempts retry_delay_ms mode)
    (filter_by (λ t, negb t.(t_retry_pending)) orphans);
  mret (omap id recovered ++ omap id swept).

Definition attempts (task_id : string) : M (list AttemptRecord) :=
  select (λ a : AttemptRecord, String.eqb a.(a_task_id) task_id).

(** Boot-time policy. *)
Definition interrupt_one (before : Z) (task : TaskRecord) : M unit :=
  let task := task <| t_status := Interrupted |> in
  _ ← save task;
  lifecycle_event task "task.interrupted" before.

Definition interrupt_queued (before : Z) : M nat :=
  candidates ← select (λ t : TaskRecord, queued t || t.(t_retry_pending));
  let candidates := filter_by (λ t, t.(t_enqueued_at) <? before) candidates in
  _ ← for_each (interrupt_one before) candidates;
  mret (length candidates).
End lifecycle.
