(* ===== verification/SessionOps.v ===== *)
(** * The operations of a session

    [store/src/session_ops.rs]: a person's answer and every effect it
    authorizes, the parking of a turn, its interruption, and the queue of
    inputs a session's turns are made of.  Each operation is one transaction;
    what remembers approvals in the chat's metadata is in [StandingGrants]. *)

From S2P Require Export StandingGrants Lifecycle.
From S2P Require Import Envelope.
Local Open Scope Z_scope.

Definition compact_requested_metadata_key : string := "agentkit.session.compactRequestedAt".
(** Marks an approve answer in [appliedMessageId]. *)
Definition approve_marker : string := "approval:".

(** [message.contains(needle)]. *)
Definition has_text (needle message : string) : bool := is_some (String.index 0 needle message).
Definition is_settle_cancel (r : AgentInputRecord) : bool :=
  match r.(i_on_settled) with Some SettleCancel => true | _ => false end.

(** ** What a request asks and an answer says *)

Definition is_approval_request (content : Value) : bool := ostr_eqb (str_at content "kind") (Some "approval").

(** A key set on an object ([value["key"] = ...]). *)
Definition set_key (key : string) (x v : Value) : Value :=
  match v with VObj o => VObj (obj_insert key x o) | _ => v end.

Definition plan_request_of (content : Value) (plan_tool_names : list string) : option Value :=
  if bool_decide (plan_tool_names = []) || negb (is_approval_request content) then None
  else
    tool_name ← str_at content "toolName";
    if negb (existsb (String.eqb tool_name) plan_tool_names) then None
    else
      plan_digest ← str_at content "argsSha256";
      let plan := VObj [("planDigest", VStr plan_digest)] in
      let plan := match str_at content "requestedMode" with Some mode => set_key "requestedMode" (VStr mode) plan | None => plan end in
      Some (match str_at content "prompt" with Some text => set_key "plan" (VStr text) plan | None => plan end).

Record AnswerDecision := mkDecision {
  dc_approve : bool;
  dc_note : option string;
  dc_remember : option bool
}.
Definition bad_decision {A} : Res StoreError A := Err (InvalidInput
  ("An approval answer must be { decision: " +:+ debug_str "approve" +:+ " | " +:+ debug_str "deny" +:+ ", note?: string, remember?: boolean }; remember is only allowed with " +:+ debug_str "approve" +:+ ".")).
Definition read_decision (response : Value) : Res StoreError AnswerDecision :=
  match as_object response with
  | None => bad_decision
  | Some object =>
      let decision := obj_get "decision" object ≫= as_str in
      if negb (bool_decide (decision = Some "approve")) && negb (bool_decide (decision = Some "deny")) then bad_decision
      else if negb (forallb (λ e, bool_decide (e.1 ∈ ["decision"; "note"; "remember"])) object) then bad_decision
      else
        note ← (match obj_get "note" object with
                | None | Some VNull => Ok None
                | Some (VStr note) => Ok (Some note)
                | Some _ => bad_decision
                end : Res StoreError (option string));
        remember ← (match obj_get "remember" object with
                    | None | Some VNull => Ok None
                    | Some (VBool value) => Ok (Some value)
                    | Some _ => bad_decision
                    end : Res StoreError (option bool));
        if is_some remember && bool_decide (decision = Some "deny") then bad_decision
        else Ok (mkDecision (bool_decide (decision = Some "approve")) note remember)
  end.
Definition check_approval_answer_shape (content response : Value) : Res StoreError unit :=
  if is_approval_request content then (λ _, tt) <$> read_decision response else Ok tt.

Definition request_tool_name (content : Value) : string := default "request_user_input" (str_at content "toolName").

Definition stale (request_id reason : string) : StoreError :=
  InvalidTransition ("Request " +:+ request_id +:+ " can no longer be answered: " +:+ reason +:+ ".").
Definition answer_stale_reason (e : StoreError) : option string :=
  match e with
  | InvalidTransition message => if has_text " can no longer be answered: " message then Some message else None
  | _ => None
  end.
Definition parse_answer_expiry (value : string) : option Z := parse_iso_millis value.

(** ** The records of the operations *)

Record AnswerHumanRequest := mkAnswer {
  an_request_id : string;
  an_answer_id : string;
  an_response : Value;
  an_response_hash : string;
  an_now : Z;
  an_message_id : string;
  an_plan_tool_names : list string;
  an_policy_denial : option string;
  an_granted_mode : option string
}.
Record AnswerReceipt := mkAnswerReceipt {
  ar_request_id : string;
  ar_answer_id : string;
  ar_turn_id : string;
  ar_message_id : string;
  ar_duplicate : bool
}.
Record AnswerOutcome := mkAnswerOutcome {
  ao_receipt : AnswerReceipt;
  ao_enqueue : option (string * string)
}.
Record ParkTurn := mkPark {
  pk_fence : LeaseFence;
  pk_assistant_message : option (string * Value);
  pk_events : list Value;
  pk_request : option CreateAgentInput;
  pk_now : Z
}.
Record AppliedSteer := mkAppliedSteer {
  as_input_id : string;
  as_message : MessageInput
}.
Record AppendProjectedInputs := mkProjectedInputs {
  pi_fence : LeaseFence;
  pi_events : list Value;
  pi_messages : list MessageInput;
  pi_creates : list CreateAgentInput;
  pi_applies : list AppliedSteer;
  pi_task_id : string;
  pi_now : Z
}.
Record ProjectionCommit := mkProjectionCommit {
  pc_created : list string;
  pc_applied : list string
}.
Record StagedCandidate := mkCandidate {
  sc_input_id : string;
  sc_task : SubmitTask;
  sc_messages : list MessageInput
}.
Record TurnStaging := mkStaging {
  tg_kind : string;
  tg_config : Value
}.
Record SessionSettle := mkSessionSettle {
  se_convert : list StagedCandidate;
  se_expected_descriptor : option Value;
  se_staging : option TurnStaging
}.
Record StageQueuedTurn := mkStageQueued {
  sq_session_id : string;
  sq_task_kind : string;
  sq_exclude_task_id : option string;
  sq_input_id : string;
  sq_expected_kind : AgentInputKind;
  sq_task : SubmitTask;
  sq_messages : list MessageInput;
  sq_now : Z
}.
Record QueueOrStage := mkQueueOrStage {
  qs_session_id : string;
  qs_task_kind : string;
  qs_input : CreateAgentInput;
  qs_target_the_live_turn : bool;
  qs_candidate : option StagedCandidate;
  qs_now : Z
}.
Inductive QueueAdmission :=
  | QueuedInput (record : AgentInputRecord)
  | StagedTurn (task : TaskRecord).

Section session.
Context {host : Host}.

(** ** The chat's metadata *)

Definition set_metadata (chat : ChatRecord) (metadata : Value) (now : Z) : M unit :=
  updated_at ← lift (epoch_of now);
  update_row (chat <| ch_metadata := metadata |> <| ch_updated_at := updated_at |>).

Definition has_grant (grant_id : option string) (grants : list Value) : bool :=
  existsb (λ grant, ostr_eqb (grant_id_of grant) grant_id) grants.
Definition write_standing_grant (session_id : string) (grant : Value) (now : Z) : M unit :=
  chat ← required (A := ChatRecord) session_id;
  grants ← lift (writable_standing chat.(ch_metadata) session_id);
  if has_grant (grant_id_of grant) grants then mret tt
  else
    next ← lift (make_room grants session_id);
    set_metadata chat (with_standing chat.(ch_metadata) (next ++ [grant])) now.

Definition not_eligible (request_id : string) : StoreError :=
  InvalidInput ("This call is not eligible for a standing approval. (" +:+ request_id +:+ ")").
Definition write_request_grant (request : AgentInputRecord) (answer_id now_text : string) (now : Z) : M unit :=
  match read_standing_key request.(i_content) with
  | None => throw (not_eligible request.(i_input_id))
  | Some (digest, label) =>
      write_standing_grant request.(i_session_id)
        (VObj [("grantId", VStr ("grant:" +:+ request.(i_input_id))); ("digest", VStr digest); ("label", VStr label);
          ("toolName", VStr (request_tool_name request.(i_content))); ("sourceRequestId", VStr request.(i_input_id));
          ("answerId", VStr answer_id); ("grantedAt", VStr now_text)]) now
  end.

Definition plan_grant (request_id turn_id : string) (plan : Value) (granted_mode now_text : string) : Value :=
  VObj ([("grantId", VStr ("grant:" +:+ request_id)); ("planDigest", VStr (default "" (str_at plan "planDigest")))]
    ++ match str_at plan "plan" with Some text => [("plan", VStr text)] | None => [] end
    ++ [("mode", VStr granted_mode)]
    ++ match str_at plan "requestedMode" with Some mode => [("requestedMode", VStr mode)] | None => [] end
    ++ [("requestId", VStr request_id); ("turnId", VStr turn_id); ("approvedAt", VStr now_text)]).
Definition apply_plan_grant (session_id request_id turn_id : string) (plan : Value) (granted_mode now_text : string)
    (now : Z) : M unit :=
  _ ← guard_or (negb (String.eqb granted_mode "plan" || empty_text granted_mode))
        (InvalidInput ("Plan approval cannot grant plan mode. (" +:+ request_id +:+ ")"));
  chat ← map_err (λ _, NotFound ("Session " +:+ session_id +:+ " has no chat to grant."))
           (required (A := ChatRecord) session_id);
  let prior := read_execution_state chat.(ch_metadata) in
  state ← lift (ok_or (InvalidInput ("Plan approval grant is invalid: mode " +:+ debug_str "plan" +:+ " is never grantable and planDigest is required. (" +:+ request_id +:+ ")"))
            (execution_state_for_grant (plan_grant request_id turn_id plan granted_mode now_text) now_text prior));
  set_metadata chat (with_execution chat.(ch_metadata) (Some state)) now.

(** A grant marked revoked. *)
Fixpoint revoke_first (grant_id now_text : string) (grants : list Value) : list Value :=
  match grants with
  | [] => []
  | grant :: grants =>
      if ostr_eqb (grant_id_of grant) (Some grant_id) then set_key "revokedAt" (VStr now_text) grant :: grants
      else grant :: revoke_first grant_id now_text grants
  end.
Definition revoke_standing_approval (session_id grant_id : string) (now : Z) : M Value :=
  chat ← required (A := ChatRecord) session_id;
  grants ← lift (writable_standing chat.(ch_metadata) session_id);
  match find_by (λ grant, ostr_eqb (grant_id_of grant) (Some grant_id)) grants with
  | None => throw (NotFound ("Standing approval not found: " +:+ grant_id +:+ " (" +:+ session_id +:+ ")"))
  | Some grant =>
      if revoked grant then mret grant
      else
        now_text ← lift (text_of now);
        _ ← set_metadata chat (with_standing chat.(ch_metadata) (revoke_first grant_id now_text grants)) now;
        mret (set_key "revokedAt" (VStr now_text) grant)
  end.

(** ** Answers *)

Definition answer_record (ok : bool) (status summary : string) (data : Value) : string :=
  json_text (VObj [("ok", VBool ok); ("status", VStr status); ("summary", VStr summary); ("warnings", VArr []);
    ("truncated", VBool false); ("data", data)]).
Definition answer_envelope (response : Value) : string :=
  answer_record true "ok" "The user answered." (VObj [("answer", response)]).
Definition deny_envelope (note : option string) : string :=
  answer_record false "error" "The user denied this tool call."
    (VObj [("errorCode", VStr "approval_denied"); ("errorMessage", VStr (default "The user denied this tool call." note));
      ("phase", VStr "guard"); ("retryable", VBool false)]).

Definition last_message_of_run (chat_id run_id : string) : M (option MessageRecord) :=
  rows ← select (λ m, String.eqb m.(m_chat_id) chat_id && ostr_eqb m.(m_run_id) (Some run_id));
  mret (last (sort_by order_key_le rows)).

Definition append_answer (input : AnswerHumanRequest) (request : AgentInputRecord) (task_id parent_message_id text : string) : M unit :=
  _ ← Conversations.append (mkMessageInput (Some input.(an_message_id)) request.(i_session_id) (Some task_id) "tool" (VStr text)
        (Some parent_message_id) request.(i_tool_call_id) None (Some text)
        (VObj [("internal", VBool true); ("toolName", VStr (request_tool_name request.(i_content))); ("humanAnswer", VBool true);
          ("answerId", VStr input.(an_answer_id)); ("requestId", VStr request.(i_input_id));
          ("responseHash", VStr input.(an_response_hash))])
        false false) input.(an_now);
  mret tt.

Definition requeued (now : Z) (task : TaskRecord) : TaskRecord :=
  task <| t_status := Queued |> <| t_available_at := now |> <| t_finished_at := None |>.
Definition requeue_task (task : TaskRecord) (now : Z) : M unit := save (requeued now task).

(** The decision an answer makes, after the plan policy had its say. *)
Definition decided (input : AnswerHumanRequest) (own : option AnswerDecision) : option AnswerDecision :=
  match own, input.(an_policy_denial) with
  | Some _, Some reason => Some (mkDecision false (Some ("plan_not_authorized: " +:+ reason)) None)
  | own, _ => own
  end.
Definition answer_text (input : AnswerHumanRequest) (approval : option AnswerDecision) : string :=
  match approval with
  | Some d => if negb d.(dc_approve) then deny_envelope d.(dc_note) else answer_envelope input.(an_response)
  | None => answer_envelope input.(an_response)
  end.
Definition remembers (approval : option AnswerDecision) : bool := bool_decide ((approval ≫= dc_remember) = Some true).

Definition race_error (e : StoreError) : bool :=
  match e with InvalidTransition _ => true | _ => false end.
Definition answer_conflict (request_id : string) : StoreError :=
  Duplicate ("answer_conflict: Request " +:+ request_id +:+ " was already answered differently.").

(** The answer was recorded before: observation only. *)
Definition replay_answer (input : AnswerHumanRequest) (request : AgentInputRecord) (turn_id : string)
    (enqueue : option (string * string)) : M AnswerOutcome :=
  let seen := mkAnswerOutcome (mkAnswerReceipt input.(an_request_id) input.(an_answer_id) turn_id "" true) enqueue in
  if is_some_and request.(i_applied_message_id) (String.prefix approve_marker)
  then
    if negb (ostr_eqb request.(i_answer_id) (Some input.(an_answer_id)))
       || negb (ostr_eqb request.(i_applied_message_id) (Some (approve_marker +:+ input.(an_response_hash))))
    then throw (answer_conflict input.(an_request_id))
    else mret seen
  else
    recorded ← (match request.(i_applied_message_id) with
                | Some id => get (A := MessageRecord) id
                | None => mret None
                end : M (option MessageRecord));
    if negb (ostr_eqb request.(i_answer_id) (Some input.(an_answer_id)))
       || negb (ostr_eqb (recorded ≫= λ r, str_at r.(m_metadata) "responseHash") (Some input.(an_response_hash)))
    then throw (answer_conflict input.(an_request_id))
    else mret (mkAnswerOutcome (mkAnswerReceipt input.(an_request_id) input.(an_answer_id) turn_id
                 (default "" request.(i_applied_message_id)) true) enqueue).

(** What an approval commits: the turn is queued again, the request answered,
    the plan's mode and the remembered approval granted. *)
Definition room_for_grant (input : AnswerHumanRequest) (request : AgentInputRecord) : M unit :=
  _ ← guard_or (is_some (read_standing_key request.(i_content))) (not_eligible input.(an_request_id));
  chat ← required (A := ChatRecord) request.(i_session_id);
  grants ← lift (writable_standing chat.(ch_metadata) request.(i_session_id));
  if has_grant (Some ("grant:" +:+ input.(an_request_id))) grants then mret tt
  else _ ← lift (make_room grants request.(i_session_id)); mret tt.
Definition lost_race (e : StoreError) : bool :=
  race_error e && (has_text "cannot move" (store_error_text e) || has_text "expected one of" (store_error_text e)).
Definition approve_answer (input : AnswerHumanRequest) (request : AgentInputRecord) (task : TaskRecord) (turn_id : string)
    (own approval : option AnswerDecision) (now_text : string) : M AnswerOutcome :=
  _ ← (if remembers approval then room_for_grant input request else mret tt);
  _ ← map_err (λ e, if lost_race e then stale input.(an_request_id) "a concurrent answer or cancel won" else e)
        (_ ← requeue_task task input.(an_now);
         _ ← transition_input input.(an_request_id) [Pending] Answered
               (mkInputPatch None (Some (approve_marker +:+ input.(an_response_hash))) (Some input.(an_answer_id))) now_text;
         _ ← (match (if is_some_and own dc_approve then plan_request_of request.(i_content) input.(an_plan_tool_names) else None),
                    input.(an_granted_mode) with
              | Some plan, Some granted_mode =>
                  apply_plan_grant request.(i_session_id) input.(an_request_id) turn_id plan granted_mode now_text input.(an_now)
              | _, _ => mret tt
              end);
         if remembers approval then write_request_grant request input.(an_answer_id) now_text input.(an_now) else mret tt);
  mret (mkAnswerOutcome (mkAnswerReceipt input.(an_request_id) input.(an_answer_id) turn_id "" false)
          (Some (turn_id, task.(t_scope_id)))).

(** What any other answer commits: the turn is queued again, and the answer is
    the result of the call that asked. *)
Definition plain_answer (input : AnswerHumanRequest) (request : AgentInputRecord) (task : TaskRecord) (turn_id : string)
    (approval : option AnswerDecision) (now_text : string) : M AnswerOutcome :=
  parent ← last_message_of_run request.(i_session_id) turn_id;
  parent ← lift (ok_or (NotFound ("Turn " +:+ turn_id +:+ " has no run records.")) parent);
  _ ← map_err (λ e, if race_error e then stale input.(an_request_id) "a concurrent answer or cancel won" else e)
        (_ ← requeue_task task input.(an_now);
         _ ← transition_input input.(an_request_id) [Pending] Answered
               (mkInputPatch None (Some input.(an_message_id)) (Some input.(an_answer_id))) now_text;
         mret tt);
  _ ← append_answer input request turn_id parent.(m_id) (answer_text input approval);
  mret (mkAnswerOutcome (mkAnswerReceipt input.(an_request_id) input.(an_answer_id) turn_id input.(an_message_id) false)
          (Some (turn_id, task.(t_scope_id)))).

Definition answer_human_request (input : AnswerHumanRequest) : M AnswerOutcome :=
  now_text ← lift (text_of input.(an_now));
  request ← get_input input.(an_request_id);
  let missing := NotFound ("Human request not found: " +:+ input.(an_request_id)) in
  request ← lift (ok_or missing request);
  _ ← guard_or (bool_decide (request.(i_kind) = HumanRequest)) missing;
  own ← lift (if is_approval_request request.(i_content) then Some <$> read_decision input.(an_response) else Ok None);
  let approval := decided input own in
  turn_id ← lift (ok_or (stale input.(an_request_id) "it names no turn") request.(i_target_task_id));
  task ← get (A := TaskRecord) turn_id;
  let enqueue := (λ t, (t.(t_task_id), t.(t_scope_id))) <$> opt_filter queued task in
  match request.(i_status) with
  | Answered => replay_answer input request turn_id enqueue
  | CancelledInput => throw (stale input.(an_request_id) "it was cancelled")
  | _ =>
      task ← lift (ok_or (stale input.(an_request_id) "its turn is no longer waiting")
               (opt_filter (λ t, bool_decide (t.(t_status) = WaitingApproval)) task));
      _ ← guard_or (negb (is_some_and (request.(i_expires_at) ≫= parse_iso_millis) (λ expires, expires <=? input.(an_now))))
            (stale input.(an_request_id) "it expired");
      if is_some_and approval dc_approve then approve_answer input request task turn_id own approval now_text
      else plain_answer input request task turn_id approval now_text
  end.

(** ** Parking *)

(** The message an interrupted stream left is given its content. *)
Definition finalize_message (message_id : string) (content : Value) : M unit :=
  message ← required (A := MessageRecord) message_id;
  save_message (message <| m_content := content |>).

Definition park_turn (input : ParkTurn) : M (option string) :=
  let id := input.(pk_fence).(f_task_id) in
  _ ← fence input.(pk_fence) input.(pk_now);
  task ← required (A := TaskRecord) id;
  _ ← guard_or (running task && negb task.(t_cancel_requested)) (LeaseLost id);
  let task := task <| t_status := WaitingApproval |> in
  _ ← save task;
  _ ← lifecycle_event task "task.waiting_approval" input.(pk_now);
  lease ← required (A := Lease) task.(t_task_id);
  _ ← end_attempt lease "completed" input.(pk_now) None;
  _ ← TaskEvents.append task.(t_task_id) input.(pk_events) input.(pk_now);
  now_text ← lift (text_of input.(pk_now));
  request_id ← (match input.(pk_request) with
                | Some request => r ← insert_input request now_text; mret (Some r.1.(i_input_id))
                | None => mret None
                end);
  _ ← (match input.(pk_assistant_message) with
       | Some (message_id, content) => finalize_message message_id content
       | None => mret tt
       end);
  _ ← delete_lease task.(t_task_id);
  mret request_id.

(** ** Projection in mid run *)

Definition apply_steer (input : AppendProjectedInputs) (now_text : string) (apply : AppliedSteer) : M (option string) :=
  placed ← savepoint race_error
    (_ ← transition_input apply.(as_input_id) [Pending] Applied
           (mkInputPatch (Some input.(pi_task_id)) apply.(as_message).(mi_id) None) now_text; mret tt);
  if (placed : bool) then
    _ ← Conversations.append apply.(as_message) input.(pi_now); mret (Some apply.(as_input_id))
  else
    record ← get_input apply.(as_input_id);
    mret (if is_some_and record (λ record, bool_decide (record.(i_status) = Applied)
              && ostr_eqb record.(i_applied_message_id) apply.(as_message).(mi_id))
          then Some apply.(as_input_id) else None).

Definition append_projected_inputs (input : AppendProjectedInputs) : M ProjectionCommit :=
  let now := input.(pi_now) in
  _ ← fence input.(pi_fence) now;
  task ← required (A := TaskRecord) input.(pi_fence).(f_task_id);
  _ ← TaskEvents.append task.(t_task_id) input.(pi_events) now;
  now_text ← lift (text_of now);
  _ ← for_each (λ message, _ ← lift (validate_projection task message); _ ← Conversations.append message now; mret tt) input.(pi_messages);
  _ ← for_each (λ apply,
        _ ← guard_or (is_some apply.(as_message).(mi_id)) (InvalidInput "a steer placement must carry its message id");
        lift (validate_projection task apply.(as_message))) input.(pi_applies);
  created ← for_map (λ create, insert_input create now_text) input.(pi_creates);
  let created := map (λ r, r.1.(i_input_id)) (filter_by snd created) in
  _ ← for_each (λ id, ignore_lost_cas (transition_input id [Pending] Applied (mkInputPatch (Some input.(pi_task_id)) None None) now_text)) created;
  applied ← for_map (apply_steer input now_text) input.(pi_applies);
  mret (mkProjectionCommit created (omap id applied)).

(** ** Interruption *)

Definition request_interrupt (task_id : string) (now : Z) : M unit :=
  task ← get (A := TaskRecord) task_id;
  task ← lift (ok_or (NotFound ("Task " +:+ task_id +:+ " does not exist.")) task);
  if queued task then save (task <| t_status := Interrupted |>)
  else if running task && negb task.(t_cancel_requested) then
    let task := task <| t_interrupt_requested := true |> in
    _ ← save task;
    lifecycle_event task "task.interrupt_requested" now
  else mret tt.

Definition park_interrupted (proof : LeaseFence) (now : Z) : M unit :=
  _ ← fence proof now;
  task ← required (A := TaskRecord) proof.(f_task_id);
  _ ← guard_or (running task) (InvalidTransition ("Task " +:+ task.(t_task_id)
        +:+ " cannot move running -> interrupted: its status is " +:+ status_debug task.(t_status) +:+ "."));
  let task := task <| t_status := Interrupted |> <| t_interrupt_requested := false |> in
  _ ← save task;
  lease ← required (A := Lease) task.(t_task_id);
  _ ← end_attempt lease "interrupted" now None;
  _ ← delete_lease task.(t_task_id);
  lifecycle_event task "task.interrupted" now.

(** ** The queue of inputs *)

(** A turn of this kind holds the scope; a task of another kind does. *)
Definition holds_scope (t : TaskRecord) : bool :=
  bool_decide (t.(t_status) ∈ [Running; WaitingApproval; Interrupted]).
Definition turn_busy (scope kind : string) (exclude : option string) (d : Db) : bool :=
  existsb (λ t, String.eqb t.(t_scope_id) scope && String.eqb t.(t_kind) kind
    && is_none_or exclude (λ id, negb (String.eqb t.(t_task_id) id))
    && (holds_scope t || queued t && t.(t_retry_pending))) d.(db_tasks).
Definition unrelated_live_task (session_id task_kind : string) (exclude : option string) (d : Db) : bool :=
  existsb (λ t, String.eqb t.(t_scope_id) session_id && negb (String.eqb t.(t_kind) task_kind)
    && is_none_or exclude (λ id, negb (String.eqb t.(t_task_id) id)) && holds_scope t) d.(db_tasks).

Definition usable (content : Value) : bool :=
  match content with VStr text => negb (empty_text text) | VArr blocks => negb (bool_decide (blocks = [])) | _ => false end.
Definition queue_content (content : Value) : option Value := opt_filter usable (vget content "content").

Definition convert_message (candidate : StagedCandidate) (task : TaskRecord) (now : Z) (message : MessageInput) : M unit :=
  _ ← (if String.eqb message.(mi_role) "user" then
         _ ← guard_or (String.eqb message.(mi_chat_id) candidate.(sc_task).(s_scope_id))
               (InvalidInput "A turn may only append messages to its own chat.");
         guard_or (usable message.(mi_content)) (InvalidInput "Projected user messages must carry user content.")
       else lift (validate_projection task message));
  _ ← Conversations.append message now;
  mret tt.
Definition convert_claimed (record : AgentInputRecord) (candidate : StagedCandidate) (now_text : string) (now : Z) : M unit :=
  let user_message_id := if bool_decide (record.(i_kind) = Steer)
    then find_by (λ m, String.eqb m.(mi_role) "user") candidate.(sc_messages) ≫= mi_id else None in
  _ ← transition_input candidate.(sc_input_id) [Pending] Converted
        (mkInputPatch (Some candidate.(sc_task).(s_task_id)) user_message_id None) now_text;
  task ← Tasks.insert (candidate.(sc_task) <| s_now := now |>);
  for_each (convert_message candidate task now) candidate.(sc_messages).
Definition scope_busy_error (e : StoreError) : bool := match e with ScopeBusy _ => true | _ => false end.
Definition convert_candidate (scope_id : string) (candidate : StagedCandidate) (now : Z) : M bool :=
  now_text ← lift (text_of now);
  record ← get_input candidate.(sc_input_id);
  match record with
  | None => mret false
  | Some record =>
      if negb (bool_decide (record.(i_status) = Pending)) || negb (String.eqb record.(i_session_id) scope_id) then mret false
      else savepoint scope_busy_error (convert_claimed record candidate now_text now)
  end.

Definition promotable (record : AgentInputRecord) (task : TaskRecord) : bool :=
  (if bool_decide (record.(i_kind) = Steer) then
     negb (is_some_and record.(i_target_task_id) (λ target, negb (String.eqb target task.(t_task_id))))
     && negb (is_settle_cancel record)
   else true)
  && is_some (queue_content record.(i_content)).
Definition promotable_pending (task : TaskRecord) (supplied : list StagedCandidate) : M (list AgentInputRecord) :=
  pending ← list_inputs (mkInputQuery task.(t_scope_id) (Some [FollowUp; Steer]) (Some [Pending]) None);
  mret (filter_by (λ record,
    negb (existsb (λ candidate, String.eqb candidate.(sc_input_id) record.(i_input_id)) supplied) && promotable record task) pending).

(** [None]: skipped. *)
Definition stage_missed (staging : TurnStaging) (record : AgentInputRecord) (now : Z) : Res StoreError (option StagedCandidate) :=
  match queue_content record.(i_content) with
  | None => Ok None
  | Some content =>
      config ← ok_or (InvalidInput "turn staging config must be an object") (as_object staging.(tg_config));
      let user_message_id := (if bool_decide (record.(i_kind) = Steer) then "steer:" else "msg_q:") +:+ record.(i_input_id) in
      let assistant_message_id := "msg_a:" +:+ record.(i_input_id) in
      let task_id := "turn:" +:+ record.(i_input_id) in
      let payload := obj_insert "userMessageId" (VStr user_message_id)
        (obj_insert "assistantMessageId" (VStr assistant_message_id) (obj_remove "parentMessageId" config)) in
      Ok (Some (mkCandidate record.(i_input_id)
        (mkSubmit task_id staging.(tg_kind) record.(i_session_id) (VObj payload) 0 now None [] None true)
        [mkMessageInput (Some user_message_id) record.(i_session_id) None "user" content None None None None (VObj []) true false;
         mkMessageInput (Some assistant_message_id) record.(i_session_id) (Some task_id) "assistant" (VStr "")
           (Some user_message_id) None None None (VObj [("placeholder", VBool true)]) true false]))
  end.

(** The first candidate that is converted. *)
Fixpoint convert_first (scope_id : string) (now : Z) (candidates : list StagedCandidate) : M bool :=
  match candidates with
  | [] => mret false
  | candidate :: candidates =>
      converted ← convert_candidate scope_id candidate now;
      if (converted : bool) then mret true else convert_first scope_id now candidates
  end.
Fixpoint convert_missed (staging : TurnStaging) (scope_id : string) (now : Z) (records : list AgentInputRecord) : M unit :=
  match records with
  | [] => mret tt
  | record :: records =>
      candidate ← lift (stage_missed staging record now);
      match candidate with
      | None => convert_missed staging scope_id now records
      | Some candidate =>
          converted ← convert_candidate scope_id candidate now;
          if (converted : bool) then mret tt else convert_missed staging scope_id now records
      end
  end.

Definition settle_session_inputs (extra : SessionSettle) (task : TaskRecord) (completed : bool) (now : Z) : M unit :=
  now_text ← lift (text_of now);
  steers ← list_inputs (mkInputQuery task.(t_scope_id) (Some [Steer]) (Some [Pending]) None);
  _ ← for_each (λ steer,
        if is_settle_cancel steer
        then ignore_lost_cas (transition_input steer.(i_input_id) [Pending] CancelledInput (mkInputPatch None None None) now_text)
        else mret tt)
      (filter_by (λ record, is_none_or record.(i_target_task_id) (String.eqb task.(t_task_id))) steers);
  if negb completed then mret tt
  else
    busy ← gets (λ d, turn_busy task.(t_scope_id) task.(t_kind) (Some task.(t_task_id)) d
                      || unrelated_live_task task.(t_scope_id) task.(t_kind) (Some task.(t_task_id)) d);
    if (busy : bool) then mret tt
    else
      promoted ← convert_first task.(t_scope_id) now extra.(se_convert);
      if (promoted : bool) then mret tt
      else match extra.(se_staging) with
           | None => mret tt
           | Some staging =>
               records ← promotable_pending task extra.(se_convert);
               convert_missed staging task.(t_scope_id) now records
           end.
Definition settle_session (input : SettleTask) (extra : SessionSettle) : M TaskRecord :=
  settle_inner input (Some (mkExtra extra.(se_expected_descriptor) (settle_session_inputs extra))).

Definition stage_queued_turn (input : StageQueuedTurn) : M (option string) :=
  busy ← gets (λ d, turn_busy input.(sq_session_id) input.(sq_task_kind) input.(sq_exclude_task_id) d
                    || unrelated_live_task input.(sq_session_id) input.(sq_task_kind) input.(sq_exclude_task_id) d);
  if (busy : bool) then mret None
  else
    record ← get_input input.(sq_input_id);
    match record with
    | None => mret None
    | Some record =>
        if negb (bool_decide (record.(i_status) = Pending)) || negb (String.eqb record.(i_session_id) input.(sq_session_id))
           || negb (bool_decide (record.(i_kind) = input.(sq_expected_kind)))
        then mret None
        else
          converted ← convert_candidate input.(sq_session_id)
            (mkCandidate input.(sq_input_id) input.(sq_task) input.(sq_messages)) input.(sq_now);
          mret (if (converted : bool) then Some input.(sq_task).(s_task_id) else None)
    end.

Definition aimed_at (task_id : string) (input : CreateAgentInput) : CreateAgentInput :=
  mkCreateInput input.(cr_input_id) input.(cr_session_id) input.(cr_kind) input.(cr_content) input.(cr_content_hash)
    (Some task_id) input.(cr_on_settled) input.(cr_attempt_id) input.(cr_tool_call_id) input.(cr_expires_at).
(** A turn that holds the scope, or will. *)
Definition live_turn (t : TaskRecord) : bool := queued t || holds_scope t.
(** Which of several live_turn turns [LIMIT 1] picks is SQLite's choice: [pick]. *)
Definition active_turn (pick : nat) (session_id : string) (d : Db) : option TaskRecord :=
  let rows := filter_by (λ t, String.eqb t.(t_scope_id) session_id && live_turn t) d.(db_tasks) in
  rows !! (pick mod length rows)%nat.
Definition queue_or_stage_turn (pick : nat) (input : QueueOrStage) : M QueueAdmission :=
  unrelated ← gets (λ d, existsb (λ t, String.eqb t.(t_scope_id) input.(qs_session_id)
    && negb (String.eqb t.(t_kind) input.(qs_task_kind)) && live_turn t) d.(db_tasks));
  _ ← guard_or (negb unrelated) (ScopeBusy input.(qs_session_id));
  active ← gets (active_turn pick input.(qs_session_id));
  let create := match active with
    | Some turn => if input.(qs_target_the_live_turn) then aimed_at turn.(t_task_id) input.(qs_input) else input.(qs_input)
    | None => input.(qs_input)
    end in
  now_text ← lift (text_of input.(qs_now));
  r ← insert_input create now_text;
  let record := r.1 in
  if is_some active || negb (bool_decide (record.(i_status) = Pending)) || is_settle_cancel record then mret (QueuedInput record)
  else match input.(qs_candidate) with
  | None => mret (QueuedInput record)
  | Some candidate =>
      converted ← convert_candidate input.(qs_session_id) candidate input.(qs_now);
      if (converted : bool) then
        task ← required (A := TaskRecord) candidate.(sc_task).(s_task_id);
        mret (StagedTurn task)
      else
        again ← get_input record.(i_input_id);
        mret (QueuedInput (default record again))
  end.

Definition request_compact (session_id task_kind : string) (expected_descriptor : Value) (now : Z) : M unit :=
  busy ← gets (λ d, existsb (λ t, String.eqb t.(t_scope_id) session_id && String.eqb t.(t_kind) task_kind && live_turn t) d.(db_tasks));
  _ ← guard_or (negb busy) (ScopeBusy session_id);
  chat ← required (A := ChatRecord) session_id;
  _ ← guard_or (ovalue_eqb (vget chat.(ch_metadata) session_metadata_key) (Some expected_descriptor)) (SessionDescriptorChanged session_id);
  now_text ← lift (text_of now);
  set_metadata chat (VObj (obj_insert compact_requested_metadata_key (VStr now_text)
    (default [] (as_object chat.(ch_metadata))))) now.
End session.
