(* ===== verification/Ports.v ===== *)
(** * Port-shaped task operations

    [store/src/tasks/ports.rs]: the operations that take the caller's ids
    and tokens, with the store's own guarantees: legal transitions, the
    first terminal attempt end wins, token checks, and the refusal to delete
    a busy scope. *)

From S2P Require Export Lifecycle.
Local Open Scope Z_scope.

(** [TASK_TRANSITIONS]. *)
Definition allowed (from to : TaskStatus) : bool :=
  match from, to with
  | Queued, (Running | Cancelled | Failed | Interrupted)
  | Interrupted, (Queued | Cancelled)
  | Running, (Interrupted | WaitingApproval | WaitingChild | Uncertain | Completed | Failed
              | Cancelled)
  | WaitingApproval, (Running | Queued | Completed | Failed | Cancelled)
  | WaitingChild, (Queued | Interrupted | Completed | Failed | Cancelled)
  | Uncertain, (Queued | Completed | Failed | Cancelled) => true
  | _, _ => false
  end.

(** [ON DELETE CASCADE] from a task to its attempts, lease, events and
    admission. *)
Definition delete_task_rows (task_id : string) (d : Db) : Db :=
  d <| db_tasks := base.filter (λ t, t_task_id t ≠ task_id) d.(db_tasks) |>
    <| db_attempts := base.filter (λ a, a_task_id a ≠ task_id) d.(db_attempts) |>
    <| db_leases := base.filter (λ l, l_task_id l ≠ task_id) d.(db_leases) |>
    <| db_events := base.filter (λ e, e_task_id e ≠ task_id) d.(db_events) |>
    <| db_admissions := base.filter (λ a, am_task_id a ≠ task_id) d.(db_admissions) |>.

Section ports.
Context {host : Host}.

Definition fence_by_token (task_id lease_token : string) (now : Z) : M Lease :=
  lease ← get (A := Lease) task_id;
  lift (ok_or (LeaseLost task_id)
    (opt_filter (λ l, String.eqb l.(l_lease_token) lease_token && (now <? l.(l_expires_at))) lease)).

(** The optional fence of a port write. *)
Definition fence_opt (task_id : string) (lease_token : option string) (now : Z) : M unit :=
  match lease_token with
  | Some token => _ ← fence_by_token task_id token now; mret tt
  | None => mret tt
  end.

Definition lease_by_token (lease_token : string) : M (option Lease) :=
  gets (λ d, find_by (λ l, String.eqb l.(l_lease_token) lease_token) d.(db_leases)).

Definition patched (to : TaskStatus) (patch : TaskTransitionPatch) (task : TaskRecord) : TaskRecord :=
  task <| t_status := to |>
    <| t_started_at := opt_or patch.(p_started_at) task.(t_started_at) |>
    <| t_finished_at := opt_or patch.(p_finished_at) task.(t_finished_at) |>
    <| t_error := opt_or patch.(p_error) task.(t_error) |>
    <| t_available_at := default task.(t_available_at) patch.(p_available_at) |>
    <| t_priority := default task.(t_priority) patch.(p_priority) |>
    <| t_poison_count := default task.(t_poison_count) patch.(p_poison_count) |>
    <| t_payload := default task.(t_payload) patch.(p_payload) |>.

Definition transition_task (task_id : string) (from : list TaskStatus) (to : TaskStatus)
    (patch : TaskTransitionPatch) (lease_token : option string) (now : Z) : M TaskRecord :=
  task ← required (A := TaskRecord) task_id;
  _ ← fence_opt task_id lease_token now;
  _ ← guard_or (bool_decide (task.(t_status) ∈ from) && allowed task.(t_status) to)
        (InvalidTransition ("task " +:+ task_id +:+ " is " +:+ status_debug task.(t_status)
          +:+ ", expected one of " +:+ debug_list status_debug from +:+ " to " +:+ status_debug to));
  let task := patched to patch task in
  _ ← save task;
  _ ← (if is_terminal to || bool_decide (to = Interrupted) then delete_lease task_id else mret tt);
  mret task.

Definition create_attempt (task_id attempt_id owner_id : string) (now : Z) : M AttemptRecord :=
  task ← required (A := TaskRecord) task_id;
  existing ← get (A := AttemptRecord) attempt_id;
  _ ← guard_or (negb (is_some existing)) (Duplicate attempt_id);
  attempt_count ← lift (ok_or (InvalidInput "attempt count overflow")
                          (checked_add_u32 task.(t_attempt_count) 1));
  let task := task <| t_attempt_count := attempt_count |> in
  let attempt := mkAttempt attempt_id task.(t_task_id) attempt_count "running" owner_id now None None in
  _ ← insert_row attempt;
  _ ← save task;
  mret attempt.

Definition end_attempt (attempt_id status : string) (error lease_token : option string) (now : Z)
    : M AttemptRecord :=
  attempt ← required (A := AttemptRecord) attempt_id;
  _ ← fence_opt attempt.(a_task_id) lease_token now;
  if negb (is_running attempt) then mret attempt else
  _ ← guard_or (mem_str status ["completed"; "failed"; "abandoned"; "cancelled"])
        (InvalidInput ("attempt cannot end " +:+ debug_str status));
  let attempt := attempt <| a_status := status |> <| a_ended_at := Some now |>
    <| a_error := opt_or error attempt.(a_error) |> in
  _ ← update_row attempt;
  _ ← (if String.eqb status "abandoned" then
         task ← required (A := TaskRecord) attempt.(a_task_id);
         poison_count ← lift (ok_or (InvalidInput "poison count overflow")
                                (checked_add_u32 task.(t_poison_count) 1));
         save (task <| t_poison_count := poison_count |>)
       else mret tt);
  mret attempt.

Definition interrupt_task (task_id reason : string) (lease_token : option string) (now : Z)
    : M bool :=
  task ← required (A := TaskRecord) task_id;
  _ ← fence_opt task_id lease_token now;
  if negb (queued task || running task) then mret false else
  _ ← save (task <| t_status := Interrupted |> <| t_error := Some reason |>);
  attempts ← select (λ a : AttemptRecord, String.eqb a.(a_task_id) task_id && is_running a);
  _ ← for_each (λ a, update_row (ended "cancelled" now (Some reason) a)) attempts;
  _ ← delete_lease task_id;
  mret true.

Definition child_le (a b : TaskRecord) : bool :=
  if t_enqueued_at a =? t_enqueued_at b then String.leb (t_task_id a) (t_task_id b)
  else t_enqueued_at a <? t_enqueued_at b.

Definition list_children (task_id : string) : M (list TaskRecord) :=
  children ← select (λ t, ostr_eqb t.(t_parent_task_id) (Some task_id));
  mret (sort_by child_le children).

Definition blocks_delete (t : TaskRecord) : bool :=
  match t.(t_status) with
  | Running | WaitingApproval | Interrupted => true
  | _ => false
  end.

Definition delete_task (t : TaskRecord) : M unit :=
  _ ← modify (λ d, d <| db_outbox :=
        base.filter (λ o, o_run_id o ≠ Some t.(t_task_id)) d.(db_outbox) |>);
  modify (delete_task_rows t.(t_task_id)).

Definition delete_by_scope (scope_id : string) : M nat :=
  tasks ← select (λ t, String.eqb t.(t_scope_id) scope_id);
  _ ← guard_or (negb (existsb blocks_delete tasks)) (ScopeBusy scope_id);
  _ ← for_each delete_task tasks;
  mret (length tasks).

Definition mark_dead_lettered (task_id reason : string) (lease_token : option string) (now : Z)
    : M TaskRecord :=
  task ← required (A := TaskRecord) task_id;
  _ ← fence_opt task_id lease_token now;
  let task := task <| t_dead_lettered_at := Some now |> <| t_dead_letter_reason := Some reason |> in
  _ ← save task;
  mret task.

Definition renew_lease_by_token (lease_token : string) (now ttl_ms : Z) : M Lease :=
  o ← lease_by_token lease_token;
  lease ← lift (ok_or (LeaseLost lease_token) o);
  _ ← guard_or (now <? lease.(l_expires_at)) (LeaseLost lease.(l_task_id));
  expires_at ← lift (checked_expiry now ttl_ms);
  let lease := lease <| l_expires_at := expires_at |> in
  _ ← update_row lease;
  mret lease.

Definition release_lease (lease_token : string) : M unit :=
  o ← lease_by_token lease_token;
  lease ← lift (ok_or (LeaseLost lease_token) o);
  delete_lease lease.(l_task_id).

Definition expire_stale_leases (now : Z) : M (list Lease) :=
  stale ← select (λ l : Lease, l.(l_expires_at) <=? now);
  _ ← for_each (λ l, delete_lease l.(l_task_id)) stale;
  mret stale.
End ports.
