(* ===== verification/History.v ===== *)
(** * Conversation history

    [store/src/conversations/history.rs]: importing, forking, deleting and
    archiving conversations, and rewriting a message in place. *)

From stdpp Require Import gmap.
From S2P Require Export Ports Proposals ProviderOrder.
Local Open Scope Z_scope.

Record ImportConversation := mkImport {
  im_chat : ChatRecord;
  im_messages : list MessageRecord
}.

Definition invalid_import {A} (reason : string) : Res StoreError A := Err (InvalidImport reason).

Definition wire_checked (t : ConversationTimestamp) : Res StoreError string :=
  ok_or (InvalidInput "timestamp is outside JavaScript Date range") (wire_text t).

(** ** Validating an import

    The renumbering pass: the depth of every id seen so far, the parents of
    live messages, and how many children each parent has. *)
Record ImportPass := mkPass {
  ip_seen : gmap string Z;
  ip_children : gset string;
  ip_siblings : gmap (option string) Z
}.
Definition pass_start : ImportPass := mkPass ∅ ∅ ∅.

Definition parent_depth (declared : list string) (seen : gmap string Z) (parent : string)
    : Res StoreError Z :=
  match seen !! parent with
  | Some depth => Ok depth
  | None => invalid_import (if mem_str parent declared then "forward_parent" else "unknown_parent")
  end.

Definition branch_count (s : ImportPass) (parent : option string) : Z :=
  default 0 (s.(ip_siblings) !! parent).
Definition live_children (s : ImportPass) (m : MessageRecord) : gset string :=
  match m.(m_parent_message_id) with
  | Some parent => if m.(m_archived) then s.(ip_children) else {[parent]} ∪ s.(ip_children)
  | None => s.(ip_children)
  end.

(** The columns an import assigns. *)
Definition renumbered (m : MessageRecord) (chat_id : string) (order_key depth branch : Z)
    : MessageRecord :=
  mkMessage m.(m_id) chat_id None m.(m_role) m.(m_content) m.(m_parent_message_id)
    m.(m_tool_call_id) m.(m_tool_calls) m.(m_model_result_json) m.(m_metadata)
    order_key depth branch m.(m_active) m.(m_archived) m.(m_created_at).

Definition import_message (chat_id : string) (declared : list string) (index : nat)
    (m : MessageRecord) (s : ImportPass) : Res StoreError (MessageRecord * ImportPass) :=
  _ ← wire_checked m.(m_created_at);
  _ ← guard_res (negb (is_some (s.(ip_seen) !! m.(m_id)))) (InvalidImport "duplicate_message_id");
  _ ← guard_res (valid_role m.(m_role)) (InvalidImport "invalid_message_role");
  _ ← guard_res (negb (m.(m_active) && m.(m_archived))) (InvalidImport "active_archived_message");
  depth ← (match m.(m_parent_message_id) with
           | Some parent => wrapping_succ_u32 <$> parent_depth declared s.(ip_seen) parent
           | None => Ok 0
           end);
  let branch := branch_count s m.(m_parent_message_id) in
  mret (renumbered m chat_id (Z.of_nat index + 1) depth branch,
        mkPass (<[m.(m_id) := depth]> s.(ip_seen)) (live_children s m)
          (<[m.(m_parent_message_id) := wrapping_succ_u32 branch]> s.(ip_siblings))).

Fixpoint import_messages (chat_id : string) (declared : list string) (index : nat)
    (ms : list MessageRecord) (s : ImportPass) : Res StoreError (list MessageRecord * ImportPass) :=
  match ms with
  | [] => mret ([], s)
  | m :: ms =>
      r ← import_message chat_id declared index m s;
      rs ← import_messages chat_id declared (S index) ms r.2;
      mret (r.1 :: rs.1, rs.2)
  end.

(** Whether the ancestry from [start] meets an archived message; more hops
    than messages count as one that does. *)
Fixpoint archived_at (hops : nat) (snapshot : list MessageRecord) (start : option string) : bool :=
  match start with
  | None => false
  | Some parent =>
      existsb (λ m, String.eqb m.(m_id) parent && m.(m_archived)) snapshot
      || match hops with
         | O => true
         | S hops => archived_at hops snapshot (find_message snapshot parent ≫= m_parent_message_id)
         end
  end.

Definition under_archived (snapshot : list MessageRecord) (m : MessageRecord) : bool :=
  archived_at (length snapshot) snapshot m.(m_parent_message_id).

Definition carry_archive (snapshot : list MessageRecord) (m : MessageRecord) : MessageRecord :=
  if under_archived snapshot m then m <| m_archived := true |> else m.

Definition path_le (a b : MessageRecord) : bool :=
  (m_depth a <? m_depth b) || ((m_depth a =? m_depth b) && (m_order_key a <=? m_order_key b)).

(** Each message of the path follows the one before it; the last id. *)
Fixpoint chained (previous : option string) (path : list MessageRecord)
    : Res StoreError (option string) :=
  match path with
  | [] => mret previous
  | m :: path =>
      if ostr_eqb m.(m_parent_message_id) previous then chained (Some m.(m_id)) path
      else invalid_import "broken_active_chain"
  end.

Definition active_path_of (ms : list MessageRecord) : list MessageRecord :=
  sort_by path_le (filter_by m_active ms).

(** [validate_import]: the messages as they will be stored. *)
Definition validate_import (input : ImportConversation) : Res StoreError (list MessageRecord) :=
  _ ← wire_checked input.(im_chat).(ch_created_at);
  let declared := map m_id input.(im_messages) in
  r ← import_messages input.(im_chat).(ch_id) declared 0 input.(im_messages) pass_start;
  let snapshot := r.1 in
  let ms := map (carry_archive snapshot) snapshot in
  _ ← guard_res (negb (existsb (λ m, m.(m_active) && (m.(m_archived) || under_archived snapshot m)) ms))
        (InvalidImport "active_under_archived");
  let path := active_path_of ms in
  _ ← guard_res (Nat.eqb (length ms) 0 || negb (Nat.eqb (length path) 0)) (InvalidImport "no_active_path");
  leaf ← chained None path;
  _ ← guard_res (negb (is_some_and leaf (λ id, bool_decide (id ∈ r.2.(ip_children)))))
        (InvalidImport "active_leaf_has_child");
  mret ms.

(** [Map::remove] of an order-preserving map: the last member takes the
    place of the one removed. *)
Fixpoint obj_without (key : string) (o : list (string * Value)) : list (string * Value) :=
  match o with
  | [] => []
  | (k, v) :: o => if bool_decide (k = key) then o else (k, v) :: obj_without key o
  end.
Definition obj_swap_remove (key : string) (o : list (string * Value)) : list (string * Value) :=
  match obj_get key o, last o with
  | None, _ | _, None => o
  | Some _, Some (lk, lv) =>
      if bool_decide (lk = key) then obj_without key o
      else map (λ kv, if bool_decide (kv.1 = key) then (lk, lv) else kv) (removelast o)
  end.

Definition without_placeholder (metadata : Value) : Value :=
  match metadata with VObj o => VObj (obj_swap_remove "placeholder" o) | v => v end.

Section history.
Context {host : Host}.
Implicit Types m : MessageRecord.

Definition import_row m : M unit :=
  existing ← get (A := MessageRecord) m.(m_id);
  _ ← guard_or (negb (is_some existing)) (Duplicate m.(m_id));
  _ ← lift (sql_integer m.(m_order_key));
  _ ← order_key_free m;
  insert_row m.

Definition import_conversation (input : ImportConversation) : M ChatRecord :=
  existing ← get (A := ChatRecord) input.(im_chat).(ch_id);
  _ ← guard_or (negb (is_some existing)) (InvalidImport "duplicate_chat");
  ms ← lift (validate_import input);
  let chat := input.(im_chat) <| ch_updated_at := input.(im_chat).(ch_created_at) |> in
  _ ← insert_row chat;
  _ ← for_each import_row ms;
  mret chat.

(** The walk from the fork point to its root, root first. *)
Fixpoint fork_path (fuel : nat) (cursor : MessageRecord) (path : list MessageRecord)
    : M (list MessageRecord) :=
  match cursor.(m_parent_message_id) with
  | None => mret (cursor :: path)
  | Some parent =>
      match fuel with
      | O => lift (Err diverges)
      | S fuel =>
          next ← required (A := MessageRecord) parent;
          fork_path fuel next (cursor :: path)
      end
  end.

Definition fork_input (chat_id : string) (original : MessageRecord) : MessageInput :=
  mkMessageInput None chat_id None original.(m_role) original.(m_content) None
    original.(m_tool_call_id) original.(m_tool_calls) original.(m_model_result_json)
    (without_placeholder original.(m_metadata)) true false.

Definition fork_chat (chat_id from_message_id new_chat_id : string) (now : Z)
    : M (ChatRecord * list MessageRecord) :=
  source ← required (A := ChatRecord) chat_id;
  found ← get (A := MessageRecord) from_message_id;
  cursor ← lift (ok_or (InvalidInput "invalid_fork_point")
    (opt_filter (λ m, String.eqb m.(m_chat_id) chat_id && m.(m_active)) found));
  count ← gets (λ d, length d.(db_messages));
  path ← fork_path count cursor [];
  let path := order_messages_for_provider (filter_by (λ m, negb (placeholder m)) path) in
  at_ ← lift (epoch_of now);
  let chat := mkChat new_chat_id ((λ title, "Fork of " +:+ title) <$> source.(ch_title))
                source.(ch_metadata) false at_ at_ in
  _ ← insert_row chat;
  copied ← for_map (λ original, append (fork_input chat.(ch_id) original) now) path;
  mret (chat, copied).

(** The message rows go with their chat. *)
Definition delete_chat_rows (chat_id : string) (d : Db) : Db :=
  d <| db_messages := filter_by (λ m, negb (String.eqb m.(m_chat_id) chat_id)) d.(db_messages) |>.

Definition delete_chat (chat_id : string) : M unit :=
  _ ← required (A := ChatRecord) chat_id;
  tasks ← select (λ t, String.eqb t.(t_scope_id) chat_id);
  _ ← guard_or (negb (existsb (λ t, negb (is_terminal t.(t_status))) tasks)) (ScopeBusy chat_id);
  proposals ← select (λ p, String.eqb p.(pr_chat_id) chat_id);
  _ ← for_each (λ p, delete_proposal p.(pr_id)) proposals;
  _ ← for_each delete_task tasks;
  _ ← modify (delete_chat_rows chat_id);
  delete_row (A := ChatRecord) chat_id.

Definition update_message (message_id : string) (content metadata tool_calls : option Value)
    (proof : option LeaseFence) (now : Z) : M MessageRecord :=
  message ← required (A := MessageRecord) message_id;
  _ ← match proof with
      | None => mret tt
      | Some proof =>
          _ ← fence proof now;
          guard_or (ostr_eqb message.(m_run_id) (Some proof.(f_task_id)))
            (InvalidInput "message run does not match lease task")
      end;
  let message := message <| m_content := default message.(m_content) content |>
    <| m_metadata := default message.(m_metadata) metadata |>
    <| m_tool_calls := opt_or tool_calls message.(m_tool_calls) |> in
  _ ← save_message message;
  mret message.

Definition sibling_le m m' : bool :=
  (m.(m_branch_index) <? m'.(m_branch_index))
  || ((m.(m_branch_index) =? m'.(m_branch_index)) && (m.(m_order_key) <=? m'.(m_order_key))).

Definition list_siblings (message_id : string) : M (list MessageRecord) :=
  target ← required (A := MessageRecord) message_id;
  _ ← guard_or (negb target.(m_archived)) (NotFound message_id);
  ms ← chat_messages target.(m_chat_id);
  mret (sort_by sibling_le (filter_by (λ m,
    ostr_eqb m.(m_parent_message_id) target.(m_parent_message_id) && negb m.(m_archived)) ms)).

(** The ids [archive_branch] marks, in order; the queue is a stack whose top
    is its head here.  [None] is a loop that does not end. *)
Fixpoint branch_ids (fuel : nat) (ms : list MessageRecord) (queue seen : list string)
    : option (list string) :=
  match queue with
  | [] => Some []
  | id :: queue =>
      match fuel with
      | O => None
      | S fuel =>
          if mem_str id seen then branch_ids fuel ms queue seen
          else
            let kids := filter_by (λ m, ostr_eqb m.(m_parent_message_id) (Some id)) ms in
            cons id <$> branch_ids fuel ms (rev (map m_id kids) ++ queue) (id :: seen)
      end
  end.

Definition archive_branch (message_id : string) : M nat :=
  target ← required (A := MessageRecord) message_id;
  _ ← guard_or (negb target.(m_active)) (InvalidInput "active_branch_archive");
  ms ← chat_messages target.(m_chat_id);
  ids ← lift (ok_or diverges (branch_ids (S (length ms)) ms [target.(m_id)] []));
  let marked := concat (map (λ id, filter_by (λ m, String.eqb m.(m_id) id) ms) ids) in
  _ ← for_each (λ m, save_message (m <| m_archived := true |>)) marked;
  mret (length marked).

Lemma within_fork_path R `{!PreOrder R} fuel cursor path : within R (fork_path fuel cursor path).
Proof.
  revert cursor path. induction fuel as [|fuel IH]; intros cursor path; simpl; within_auto.
Qed.
End history.
