(* ===== verification/Teammates.v ===== *)
(** * Teammates

    [store/src/teammates.rs]: the tasks admitted under a persistent agent, the
    waits and the undecided outcomes that keep an agent's lane, and the
    agent's mailbox.  The agents and their definitions ([agents.rs],
    [run_profiles.rs]) are not modelled: what an admission reads of them at
    its commit, the agent's row and the verdict on a pinned profile, is an
    argument of the operation. *)

From S2P Require Export SessionOps Ports.
Local Open Scope Z_scope.

Definition teammate_scope (agent_id : string) : string := "agent:" +:+ agent_id.

Inductive AgentLifecycle := ActiveAgent | ArchivedAgent | DeletedAgent.
(** What the admission reads of an agent's row. *)
Record AgentRow := mkAgentRow {
  ag_lifecycle : AgentLifecycle;
  ag_current_revision : Z
}.
(** The agent's row when the admission commits, and what
    [run_profiles::validate_at_admission] then says of a pinned profile. *)
Record AdmissionFacts := mkFacts {
  af_agent : option AgentRow;
  af_profile : Res StoreError unit
}.

Record AdmitTeammateTask := mkAdmit {
  tm_task_id : option string;
  tm_agent_id : string;
  tm_admission_key : string;
  tm_kind : string;
  tm_payload : Value;
  tm_priority : Z;
  tm_now : Z;
  tm_available_at : option Z;
  tm_depends_on : list string;
  tm_parent_task_id : option string;
  tm_run_profile : option PinnedRunProfile
}.
Record AdmittedTask := mkAdmitted {
  adm_task : TaskRecord;
  adm_replayed : bool
}.
Record CreateAgentMailbox := mkMailbox {
  mb_input_id : string;
  mb_kind : AgentInputKind;
  mb_content : Value;
  mb_content_hash : string;
  mb_expires_at : option string;
  mb_now : Z
}.

(** ** What an agent shows *)

Inductive AgentDisplayState := DisplayIdle | DisplayQueued | DisplayWorking | DisplayNeedsYou | DisplayInterrupted | DisplayError.
Definition derive_agent_display_state (tasks : list TaskRecord) : AgentDisplayState :=
  let live statuses := existsb (λ task, bool_decide (task.(t_status) ∈ (statuses : list TaskStatus)) && negb (is_some task.(t_dead_lettered_at))) tasks in
  if live [Running; WaitingChild] then DisplayWorking
  else if live [WaitingApproval] then DisplayNeedsYou
  else if live [Uncertain] then DisplayError
  else if live [Interrupted] then DisplayInterrupted
  else if live [Queued] then DisplayQueued
  else DisplayIdle.

Section teammates.
Context {host : Host}.
Implicit Types (t task : TaskRecord).

(** ** Admission *)

Definition read_admission (admission_key : string) : M (option AdmissionRow) :=
  gets (λ d, find_by (λ row, String.eqb row.(am_admission_key) admission_key) d.(db_admissions)).

Definition admission_gate (agent : option AgentRow) (agent_id : string) : Res StoreError AgentRow :=
  match agent with
  | None => Err (NotFound ("agent " +:+ agent_id))
  | Some record =>
      match record.(ag_lifecycle) with
      | ActiveAgent => Ok record
      | DeletedAgent => Err (NotFound ("agent " +:+ agent_id))
      | ArchivedAgent => Err (InvalidTransition ("agent_archived: " +:+ agent_id +:+ " refuses new admission"))
      end
  end.
Definition validate_at_admission (verdict : Res StoreError unit) (pin : option PinnedRunProfile) : Res StoreError unit :=
  match pin with None => Ok tt | Some _ => verdict end.

(** The key admitted other work. *)
Definition admission_mismatch (input : AdmitTeammateTask) (row : AdmissionRow) (task : TaskRecord) : bool :=
  negb (String.eqb row.(am_agent_id) input.(tm_agent_id))
  || negb (ostr_eqb task.(t_agent_id) (Some input.(tm_agent_id)))
  || negb (String.eqb task.(t_kind) input.(tm_kind))
  || negb (value_eqb task.(t_payload) input.(tm_payload))
  || negb (ostr_eqb task.(t_parent_task_id) input.(tm_parent_task_id))
  || negb (bool_decide (task.(t_depends_on) = input.(tm_depends_on)))
  || negb (ostr_eqb (pin_digest <$> task.(t_run_profile)) (pin_digest <$> input.(tm_run_profile)))
  || is_some_and input.(tm_task_id) (λ id, negb (String.eqb id task.(t_task_id))).

(** The task an admission of [input] under the id [task_id] submits. *)
Definition admitted_submit (input : AdmitTeammateTask) (task_id : string) : SubmitTask :=
  mkSubmit task_id input.(tm_kind) (teammate_scope input.(tm_agent_id)) input.(tm_payload) input.(tm_priority)
    input.(tm_now) input.(tm_available_at) input.(tm_depends_on) input.(tm_parent_task_id) false.
Definition admit_new (input : AdmitTeammateTask) (agent : AgentRow) : M AdmittedTask :=
  task_id ← (match input.(tm_task_id) with Some id => mret id | None => fresh end : M string);
  task ← insert_bound (admitted_submit input task_id)
    (Some (mkBinding input.(tm_agent_id) agent.(ag_current_revision) input.(tm_admission_key) input.(tm_run_profile)));
  _ ← modify (λ d, d <| db_admissions := d.(db_admissions)
        ++ [mkAdmissionRow input.(tm_admission_key) input.(tm_agent_id) task_id input.(tm_now)] |>);
  _ ← lifecycle_event task "task.admitted" input.(tm_now);
  mret (mkAdmitted task false).

Definition admit_teammate_task (facts : AdmissionFacts) (input : AdmitTeammateTask) : M AdmittedTask :=
  _ ← guard_or (negb (str_empty input.(tm_agent_id) || str_empty input.(tm_admission_key) || str_empty input.(tm_kind)))
        (InvalidInput "agent id, admission key, and kind must be nonempty");
  _ ← guard_or (negb (is_some_and input.(tm_task_id) str_empty)) (InvalidInput "pinned task id must be nonempty");
  existing ← read_admission input.(tm_admission_key);
  match existing with
  | Some row =>
      task ← required (A := TaskRecord) row.(am_task_id);
      _ ← guard_or (negb (admission_mismatch input row task))
            (InvalidInput ("admission replay identity mismatch: key " +:+ input.(tm_admission_key) +:+ " already admitted different work"));
      mret (mkAdmitted task true)
  | None =>
      agent ← lift (admission_gate facts.(af_agent) input.(tm_agent_id));
      _ ← lift (validate_at_admission facts.(af_profile) input.(tm_run_profile));
      collision ← (match input.(tm_task_id) with
                   | Some pinned => get (A := TaskRecord) pinned
                   | None => mret None
                   end : M (option TaskRecord));
      match collision with
      | Some task =>
          if ostr_eqb task.(t_agent_id) (Some input.(tm_agent_id)) && ostr_eqb task.(t_admission_key) (Some input.(tm_admission_key))
          then mret (mkAdmitted task true)
          else throw (Duplicate (default "" input.(tm_task_id)))
      | None => admit_new input agent
      end
  end.

Definition task_by_admission_key (admission_key : string) : M (option TaskRecord) :=
  row ← read_admission admission_key;
  match row with None => mret None | Some row => get row.(am_task_id) end.
Definition bound_to (agent_id : string) (task : TaskRecord) : bool := ostr_eqb task.(t_agent_id) (Some agent_id).
Definition list_agent_tasks (agent_id : string) : M (list TaskRecord) := select (bound_to agent_id).

(** ** Waiting for children *)

Definition unfinished_children (task_id : string) (d : Db) : bool :=
  existsb (λ t, ostr_eqb t.(t_parent_task_id) (Some task_id) && negb (is_terminal t.(t_status))) d.(db_tasks).

Definition wait_for_children (proof : LeaseFence) (now : Z) : M bool :=
  lease ← fence proof now;
  task ← required (A := TaskRecord) proof.(f_task_id);
  _ ← guard_or (running task && negb task.(t_cancel_requested)) (LeaseLost proof.(f_task_id));
  unfinished ← gets (unfinished_children task.(t_task_id));
  if negb unfinished then mret false
  else
    let task := task <| t_status := WaitingChild |> in
    _ ← save task;
    _ ← lifecycle_event task "task.waiting_child" now;
    _ ← Lifecycle.end_attempt lease "completed" now None;
    _ ← delete_lease task.(t_task_id);
    mret true.

Definition continued_task (now : Z) (task : TaskRecord) : TaskRecord :=
  task <| t_status := Queued |> <| t_available_at := now |>.
Definition continue_after_children (task_id : string) (now : Z) : M TaskRecord :=
  task ← required (A := TaskRecord) task_id;
  _ ← guard_or (bool_decide (task.(t_status) = WaitingChild))
        (InvalidTransition (status_debug task.(t_status) +:+ " cannot continue from a child wait"));
  let task := continued_task now task in
  _ ← save task;
  _ ← lifecycle_event task "task.continued" now;
  mret task.

(** ** Outcomes that cannot be decided *)

Definition made_uncertain (reason : string) (task : TaskRecord) : TaskRecord :=
  task <| t_status := Uncertain |> <| t_error := Some reason |>.
Definition mark_uncertain (proof : LeaseFence) (now : Z) (reason : string) : M TaskRecord :=
  lease ← fence proof now;
  task ← required (A := TaskRecord) proof.(f_task_id);
  _ ← guard_or (running task) (InvalidTransition (status_debug task.(t_status) +:+ " cannot become uncertain"));
  let task := made_uncertain reason task in
  _ ← save task;
  _ ← Lifecycle.end_attempt lease "abandoned" now (Some reason);
  _ ← lifecycle_event task "task.uncertain" now;
  _ ← delete_lease task.(t_task_id);
  mret task.

Definition resolved_finished (to : TaskStatus) (error : option string) (now : Z) (task : TaskRecord) : TaskRecord :=
  task <| t_status := to |> <| t_finished_at := Some now |> <| t_error := error |>.
Definition resolved_queued (now : Z) (task : TaskRecord) : TaskRecord :=
  task <| t_status := Queued |> <| t_available_at := now |> <| t_retry_pending := false |>.
Definition resolve_uncertain (task_id : string) (to : TaskStatus) (error : option string) (now : Z) : M TaskRecord :=
  _ ← guard_or (bool_decide (to ∈ [Completed; Failed; Cancelled; Queued]))
        (InvalidInput "uncertain outcomes resolve only to completed, failed, cancelled, or queued");
  task ← required (A := TaskRecord) task_id;
  _ ← guard_or (bool_decide (task.(t_status) = Uncertain)) (InvalidTransition (status_debug task.(t_status) +:+ " is not uncertain"));
  if is_terminal to then
    let task := resolved_finished to error now task in
    _ ← save task;
    _ ← lifecycle_event task "task.settled" now;
    mret task
  else
    let task := resolved_queued now task in
    _ ← save task;
    _ ← lifecycle_event task "task.queued" now;
    mret task.

Definition unresolved : string := "lease_expired_unresolved".
Definition abandon_running_attempts (task_id : string) (now : Z) (error : string) : M unit :=
  rows ← select (λ a : AttemptRecord, String.eqb a.(a_task_id) task_id && is_running a);
  for_each (λ a, update_row (ended "abandoned" now (Some error) a)) rows.

(** A requested cancellation that nothing is left to notice. *)
Definition honoured_cancel (now : Z) (task : TaskRecord) : TaskRecord :=
  task <| t_status := Cancelled |> <| t_finished_at := Some now |> <| t_retry_pending := false |> <| t_interrupt_requested := false |>.
Definition land_cancelled (task : TaskRecord) (now : Z) : M (option TaskRecord) :=
  let task := honoured_cancel now task in
  _ ← save task;
  _ ← lifecycle_event task "task.cancel_requested" now;
  mret (Some task).
(** One task of the pass; [None]: left alone. *)
Definition reconcile_one (now : Z) (task : TaskRecord) : M (option TaskRecord) :=
  match task.(t_status) with
  | Running =>
      lease ← get (A := Lease) task.(t_task_id);
      if is_some_and lease (λ l, now <? l.(l_expires_at)) then mret None
      else
        _ ← abandon_running_attempts task.(t_task_id) now unresolved;
        _ ← (if is_some lease then delete_lease task.(t_task_id) else mret tt);
        if task.(t_cancel_requested) then land_cancelled task now
        else
          let task := made_uncertain unresolved task in
          _ ← save task;
          _ ← lifecycle_event task "task.uncertain" now;
          mret (Some task)
  | Queued => if task.(t_cancel_requested) then land_cancelled task now else mret None
  | _ => mret None
  end.
Definition reconcile_agent_runs (agent_id : string) (now : Z) : M (list TaskRecord) :=
  tasks ← select (bound_to agent_id);
  changed ← for_map (reconcile_one now) tasks;
  mret (omap id changed).

(** ** The mailbox *)

Definition mailbox_record (agent_id : string) (input : CreateAgentMailbox) (now_text : string) (order : Z) : AgentInputRecord :=
  mkInput input.(mb_input_id) agent_id (Some agent_id) input.(mb_kind) Pending input.(mb_content) input.(mb_content_hash) order
    None None None None input.(mb_expires_at) None None None now_text now_text.
Definition mailbox_conflicts (existing : AgentInputRecord) (agent_id : string) (input : CreateAgentMailbox) : bool :=
  negb (ostr_eqb existing.(i_agent_id) (Some agent_id)) || negb (bool_decide (existing.(i_kind) = input.(mb_kind)))
  || negb (String.eqb existing.(i_content_hash) input.(mb_content_hash)).
Definition insert_mailbox (agent_id : string) (input : CreateAgentMailbox) : M (AgentInputRecord * bool) :=
  _ ← guard_or (negb (str_empty agent_id || str_empty input.(mb_input_id) || str_empty input.(mb_content_hash)))
        (InvalidInput "mailbox agent id, input id, and content hash must be nonempty");
  _ ← guard_or (negb (bool_decide (input.(mb_kind) = HumanRequest)))
        (InvalidInput "mailbox inputs are steers or follow-ups; human requests belong to an attempt");
  _ ← guard_or (negb (is_some_and input.(mb_expires_at) (λ value, negb (is_some (parse_iso_millis value)))))
        (InvalidInput "expiresAt must be a valid ISO timestamp.");
  existing ← get_input input.(mb_input_id);
  match existing with
  | Some existing =>
      if mailbox_conflicts existing agent_id input
      then throw (Duplicate ("input_conflict: input " +:+ input.(mb_input_id) +:+ " already exists with different agent, kind, or content."))
      else mret (existing, false)
  | None =>
      now_text ← lift (text_of input.(mb_now));
      order ← next_order;
      let record := mailbox_record agent_id input now_text order in
      _ ← insert_row record;
      mret (record, true)
  end.
Definition enqueue_agent_mailbox (agent_id : string) (input : CreateAgentMailbox) : M (AgentInputRecord * bool) :=
  insert_mailbox agent_id input.

Definition in_mailbox (agent_id : string) (r : AgentInputRecord) : bool := ostr_eqb r.(i_agent_id) (Some agent_id).
Definition list_agent_mailbox (agent_id : string) (statuses : option (list AgentInputStatus)) : M (list AgentInputRecord) :=
  records ← select (in_mailbox agent_id);
  mret (filter_by (λ r, is_none_or statuses (λ statuses, bool_decide (r.(i_status) ∈ statuses))) (sort_by input_le records)).
Definition promote_next_agent_mailbox (agent_id : string) (now : Z) : M (option AgentInputRecord) :=
  pending ← select (λ r, in_mailbox agent_id r && bool_decide (r.(i_status) = Pending));
  match sort_by input_le pending with
  | [] => mret None
  | first :: _ =>
      now_text ← lift (text_of now);
      record ← transition_input first.(i_input_id) [Pending] Converted (mkInputPatch None None None) now_text;
      mret (Some record)
  end.
Definition cancel_agent_mailbox (input_id : string) (now : Z) : M AgentInputRecord :=
  now_text ← lift (text_of now);
  transition_input input_id [Pending] CancelledInput (mkInputPatch None None None) now_text.
End teammates.
