(* ===== verification/TaskOps.v ===== *)
(** * The operations as an alphabet

    Every entry point of the modelled store as a value, one job of the
    worker per value, and the run of a sequence of jobs: whatever the
    callers' interleaving, the single worker executes some such sequence. *)

From stdpp Require Import pretty.
From S2P Require Export History SessionOps Ports Teammates.
Local Open Scope Z_scope.

Record frame (d d' : Db) : Prop := {
  frame_file : db_file d' = db_file d;
  frame_tasks : db_tasks d' = db_tasks d;
  frame_attempts : db_attempts d' = db_attempts d;
  frame_leases : db_leases d' = db_leases d;
  frame_fence : db_fence d' = db_fence d
}.

#[export] Instance frame_preorder : PreOrder frame.
Proof.
  split; [by split|]. intros d1 d2 d3 [] []. split; congruence.
Qed.

#[export] Hint Extern 2 (within frame (update_row _)) =>
  apply within_update_row; intros; by split : st.
#[export] Hint Extern 2 (within frame (insert_row _)) =>
  apply within_insert_row; intros; by split : st.
#[export] Hint Extern 2 (within frame (delete_row _)) =>
  apply within_delete_row; intros; by split : st.
#[export] Hint Extern 2 (within frame (modify _)) =>
  apply within_modify; intros; by split : st.
#[export] Hint Extern 2 (within frame fresh) =>
  apply within_fresh; intros; by split : st.
#[export] Hint Extern 2 (within frame (fun d => lift _ d)) =>
  intros ? ? ? ?; inv_st; done : st.

Section frames.
Context {host : Host}.

Lemma frame_enqueue input now : within frame (enqueue input now).
Proof. unfold enqueue. within_auto. Qed.
Hint Resolve frame_enqueue : st.

Lemma frame_lifecycle_event task kind now : within frame (lifecycle_event task kind now).
Proof. unfold lifecycle_event. within_auto. Qed.

Lemma frame_insert record now : within frame (TaskEvents.insert record now).
Proof. unfold TaskEvents.insert, insert_event. within_auto. Qed.
Hint Resolve frame_insert : st.

Lemma frame_append_from task_id events now previous :
  within frame (append_from task_id previous events now).
Proof.
  revert previous. induction events as [|e l IH]; intros previous; simpl; within_auto.
Qed.
Hint Resolve frame_append_from : st.

Lemma frame_events_append task_id events now : within frame (TaskEvents.append task_id events now).
Proof. unfold TaskEvents.append, TaskEvents.last, stamp_identities, checked_envelope. within_auto. Qed.

Lemma frame_activate message_id : within frame (activate message_id).
Proof. unfold activate, chat_messages, activation, save_message. within_auto. Qed.
Hint Resolve frame_activate : st.

Lemma frame_touch_chat chat now : within frame (touch_chat chat now).
Proof. unfold touch_chat. within_auto. Qed.
Hint Resolve frame_touch_chat : st.

Lemma frame_append input now : within frame (Conversations.append input now).
Proof. unfold Conversations.append, chat_messages, order_key_free. within_auto. Qed.
Hint Resolve frame_append : st.

Lemma frame_project input now : within frame (project input now).
Proof. unfold project, save_message. within_auto. Qed.
Hint Resolve frame_project : st.

Lemma frame_project_message task now message : within frame (project_message task now message).
Proof. unfold project_message. within_auto. Qed.

Lemma frame_turn_message task now message : within frame (turn_message task now message).
Proof. unfold turn_message. within_auto. Qed.

Lemma frame_transition_input input_id from to patch now_text :
  within frame (transition_input input_id from to patch now_text).
Proof. unfold transition_input, get_input. within_auto. Qed.

Lemma frame_ignore_lost_cas m : within frame m → within frame (ignore_lost_cas m).
Proof.
  intros H d u d'. unfold ignore_lost_cas. destruct (m d) as [[a s]|e] eqn:E.
  - intros [= _ <-]. eauto.
  - destruct e; try done. by intros [= _ <-].
Qed.
Hint Resolve frame_transition_input frame_ignore_lost_cas : st.

Lemma frame_cancel_turn_requests session_id turn_id now :
  within frame (cancel_turn_requests session_id turn_id now).
Proof. unfold cancel_turn_requests, list_inputs. within_auto. Qed.

Lemma frame_insert_input input now_text : within frame (insert_input input now_text).
Proof. unfold insert_input, next_order. within_auto. Qed.
Lemma frame_finalize_message id content : within frame (finalize_message id content).
Proof. unfold finalize_message, save_message. within_auto. Qed.

Lemma frame_write_request_grant request answer_id now_text now : within frame (write_request_grant request answer_id now_text now).
Proof. unfold write_request_grant, write_standing_grant, set_metadata. within_auto. Qed.
Lemma frame_apply_plan_grant session_id request_id turn_id plan mode now_text now :
  within frame (apply_plan_grant session_id request_id turn_id plan mode now_text now).
Proof. unfold apply_plan_grant, set_metadata. within_auto. Qed.
Lemma frame_room_for_grant input request : within frame (room_for_grant input request).
Proof. unfold room_for_grant. within_auto. Qed.

(** *** The steps that read *)

Lemma fence_Ok proof now d lease d' :
  fence proof now d = Ok (lease, d') ↔
  find_row proof.(f_task_id) d.(db_leases) = Some lease ∧ lease_valid proof now lease = true ∧ d' = d.
Proof.
  unfold fence, get. rewrite st_bind_Ok. setoid_rewrite st_gets_Ok. setoid_rewrite st_lift_Ok.
  unfold opt_filter. split.
  - intros (o & d1 & [-> ->] & Ho & ->). simpl in Ho.
    destruct (find_row _ _) as [l|]; [|done].
    destruct (lease_valid proof now l) eqn:E; by simplify_eq/=.
  - intros (Hl & Hv & ->). exists (Some lease), d. simpl. by rewrite Hl; simpl; rewrite Hv.
Qed.

Lemma fence_opt_Ok task_id token now d u d' :
  fence_opt task_id token now d = Ok (u, d') → d' = d.
Proof.
  unfold fence_opt. destruct token; intros H; [|by inv_st].
  unfold fence_by_token, get in H. by inv_st.
Qed.

End frames.

(** ** Relations that contain [frame] *)

Class Framed (R : Db → Db → Prop) := framed d d' : frame d d' → R d d'.
#[export] Hint Mode Framed ! : typeclass_instances.
#[export] Instance frame_framed : Framed frame.
Proof. by intros d d'. Qed.

Lemma within_framed (R : Db → Db → Prop) `{!Framed R} {A} (m : M A) :
  within frame m → within R m.
Proof. intros H d a d' E. apply framed. eauto. Qed.

Ltac by_frame L := apply within_framed; [typeclasses eauto|apply L].
#[export] Hint Extern 1 (within _ (enqueue _ _)) => by_frame frame_enqueue : st.
#[export] Hint Extern 1 (within _ (lifecycle_event _ _ _)) => by_frame frame_lifecycle_event : st.
#[export] Hint Extern 1 (within _ (TaskEvents.append _ _ _)) => by_frame frame_events_append : st.
#[export] Hint Extern 1 (within _ (activate _)) => by_frame frame_activate : st.
#[export] Hint Extern 1 (within _ (Conversations.append _ _)) => by_frame frame_append : st.
#[export] Hint Extern 1 (within _ (project_message _ _ _)) => by_frame frame_project_message : st.
#[export] Hint Extern 1 (within _ (turn_message _ _ _)) => by_frame frame_turn_message : st.
#[export] Hint Extern 1 (within _ (cancel_turn_requests _ _ _)) =>
  by_frame frame_cancel_turn_requests : st.
#[export] Hint Extern 3 (within _ (fence _ _)) =>
  (intros ? ? ? (_ & _ & ->)%fence_Ok; reflexivity) : st.
#[export] Hint Extern 3 (within _ (fence_opt _ _ _)) =>
  (intros ? ? ? ->%fence_opt_Ok; reflexivity) : st.

Inductive Op :=
  (* tasks.rs *)
  | OpSubmit (input : SubmitTask)
  | OpSubmitTurn (input : SubmitTask) (messages : list MessageInput)
  | OpAppendEvents (proof : LeaseFence) (events : list Value) (now : Z)
  | OpAppendProjected (proof : LeaseFence) (events : list Value) (messages : list MessageInput) (now : Z)
  | OpAppendMessage (input : MessageInput) (proof : option LeaseFence) (now : Z)
  | OpClaim (aging : TaskAging) (input : ClaimInput) (concurrency : Z)
  | OpAcquireLease (task_id attempt_id owner_id : string) (now ttl_ms : Z)
  (* lifecycle.rs, retry.rs, runtime_state.rs *)
  | OpCheckDispatch (proof : LeaseFence) (now : Z)
  | OpRenew (proof : LeaseFence) (now ttl_ms : Z)
  | OpUpdateProgress (proof : LeaseFence) (progress : Value) (now : Z)
  | OpCheckpoint (proof : LeaseFence) (expected : option Value) (state : Value) (now : Z)
  | OpSubmitChild (proof : LeaseFence) (input : SubmitTask) (now : Z)
  | OpSettle (input : SettleTask)
  | OpRetry (input : RetryTask)
  | OpCancel (task_id : string) (now : Z)
  | OpResume (task_id : string) (now : Z)
  | OpRecover (now max_attempts retry_delay_ms : Z) (mode : RecoveryMode)
  | OpInterruptQueued (before : Z)
  (* ports.rs *)
  | OpTransition (task_id : string) (from : list TaskStatus) (to : TaskStatus)
      (patch : TaskTransitionPatch) (lease_token : option string) (now : Z)
  | OpCreateAttempt (task_id attempt_id owner_id : string) (now : Z)
  | OpEndAttempt (attempt_id status : string) (error lease_token : option string) (now : Z)
  | OpInterruptTask (task_id reason : string) (lease_token : option string) (now : Z)
  | OpDeleteByScope (scope_id : string)
  | OpMarkDeadLettered (task_id reason : string) (lease_token : option string) (now : Z)
  | OpRenewByToken (lease_token : string) (now ttl_ms : Z)
  | OpReleaseLease (lease_token : string)
  | OpExpireStale (now : Z)
  (* conversations.rs, agent_inputs.rs, data.rs *)
  | OpCreateChat (chat_id : string) (title : option string) (metadata : Value) (now : Z)
  | OpUpdateChat (chat_id : string) (title : option string) (metadata : option Value)
      (archived : option bool) (now : Z)
  | OpActivatePath (message_id : string)
  | OpCreateInput (input : CreateAgentInput) (now : Z)
  | OpTransitionInput (input_id : string) (from : list AgentInputStatus) (to : AgentInputStatus)
      (patch : AgentInputPatch) (now : Z)
  | OpDeleteSessionInputs (session_id : string)
  | OpEnqueueOutbox (input : OutboxInput) (now : Z)
  | OpClaimOutbox (owner_id : string) (now ttl_ms : Z) (limit : nat) (max_attempts : Z)
  | OpFinishOutbox (record_id token : string) (now : Z) (failure : option (string * Z))
  | OpMarkOutboxPublished (record_id : string) (at_ : Z)
  | OpMarkOutboxFailed (record_id error : string) (retry_at : Z)
  | OpPruneOutbox (before max_attempts : Z)
  | OpSetSetting (namespace key : string) (value : Value)
  (* conversations/history.rs *)
  | OpImport (input : ImportConversation)
  | OpFork (chat_id from_message_id new_chat_id : string) (now : Z)
  | OpDeleteChat (chat_id : string)
  | OpUpdateMessage (message_id : string) (content metadata tool_calls : option Value)
      (proof : option LeaseFence) (now : Z)
  | OpArchiveBranch (message_id : string)
  (* proposals.rs *)
  | OpCreateProposal (proposal : ProposalRecord)
  | OpTransitionProposal (proposal_id : string) (from : list ProposalStatus) (to : ProposalStatus)
      (patch : ProposalPatch) (now : Z)
  | OpCompleteProposal (proposal_id operation_id : string) (outcome : ApplyOutcome) (now : Z)
  | OpFinalizeApply (input : FinalizeApply)
  | OpRecordOutcome (operation_id : string) (outcome : ApplyOutcome) (now : Z)
  | OpDeleteProposalsByChat (chat_id : string)
  | OpInvalidatePending (scope revision : string)
  (* session_ops.rs *)
  | OpAnswer (input : AnswerHumanRequest)
  | OpRevokeStanding (session_id grant_id : string) (now : Z)
  | OpPark (input : ParkTurn)
  | OpProjectInputs (input : AppendProjectedInputs)
  | OpRequestInterrupt (task_id : string) (now : Z)
  | OpParkInterrupted (proof : LeaseFence) (now : Z)
  | OpSettleSession (input : SettleTask) (extra : SessionSettle)
  | OpStageQueued (input : StageQueuedTurn)
  | OpQueueOrStage (pick : nat) (input : QueueOrStage)
  | OpRequestCompact (session_id task_kind : string) (expected_descriptor : Value) (now : Z)
  (* teammates.rs *)
  | OpAdmitTeammate (facts : AdmissionFacts) (input : AdmitTeammateTask)
  | OpWaitForChildren (proof : LeaseFence) (now : Z)
  | OpContinueAfterChildren (task_id : string) (now : Z)
  | OpMarkUncertain (proof : LeaseFence) (now : Z) (reason : string)
  | OpResolveUncertain (task_id : string) (to : TaskStatus) (error : option string) (now : Z)
  | OpReconcileAgent (agent_id : string) (now : Z)
  | OpEnqueueMailbox (agent_id : string) (input : CreateAgentMailbox)
  | OpPromoteMailbox (agent_id : string) (now : Z)
  | OpCancelMailbox (input_id : string) (now : Z).

Section ops.
Context {host : Host}.

Definition ignore {A} (m : M A) : M unit := _ ← m; mret tt.

Definition exec (op : Op) : M unit :=
  match op with
  | OpSubmit input => ignore (submit input)
  | OpSubmitTurn input messages => ignore (submit_turn input messages)
  | OpAppendEvents proof events now => ignore (append_events proof events now)
  | OpAppendProjected proof events messages now =>
      ignore (append_projected proof events messages now)
  | OpAppendMessage input proof now => ignore (append_message input proof now)
  | OpClaim aging input concurrency => ignore (claim_with_concurrency aging input concurrency)
  | OpAcquireLease task_id attempt_id owner_id now ttl_ms =>
      ignore (acquire_lease task_id attempt_id owner_id now ttl_ms)
  | OpCheckDispatch proof now => check_dispatch proof now
  | OpRenew proof now ttl_ms => ignore (renew proof now ttl_ms)
  | OpUpdateProgress proof progress now => update_progress proof progress now
  | OpCheckpoint proof expected state now =>
      ignore (checkpoint_runtime_state proof expected state now)
  | OpSubmitChild proof input now => ignore (submit_child proof input now)
  | OpSettle input => ignore (settle input)
  | OpRetry input => ignore (retry_task input)
  | OpCancel task_id now => ignore (cancel_task task_id now)
  | OpResume task_id now => ignore (resume_task task_id now)
  | OpRecover now max_attempts delay mode => ignore (recover now max_attempts delay mode)
  | OpInterruptQueued before => ignore (interrupt_queued before)
  | OpTransition task_id from to patch lease_token now =>
      ignore (transition_task task_id from to patch lease_token now)
  | OpCreateAttempt task_id attempt_id owner_id now =>
      ignore (create_attempt task_id attempt_id owner_id now)
  | OpEndAttempt attempt_id status error lease_token now =>
      ignore (end_attempt attempt_id status error lease_token now)
  | OpInterruptTask task_id reason lease_token now =>
      ignore (interrupt_task task_id reason lease_token now)
  | OpDeleteByScope scope_id => ignore (delete_by_scope scope_id)
  | OpMarkDeadLettered task_id reason lease_token now =>
      ignore (mark_dead_lettered task_id reason lease_token now)
  | OpRenewByToken lease_token now ttl_ms => ignore (renew_lease_by_token lease_token now ttl_ms)
  | OpReleaseLease lease_token => release_lease lease_token
  | OpExpireStale now => ignore (expire_stale_leases now)
  | OpCreateChat chat_id title metadata now => ignore (create_chat chat_id title metadata now)
  | OpUpdateChat chat_id title metadata archived now =>
      ignore (update_chat chat_id title metadata archived now)
  | OpActivatePath message_id => ignore (activate_path message_id)
  | OpCreateInput input now => ignore (create_input input now)
  | OpTransitionInput input_id from to patch now =>
      ignore (transition_input_op input_id from to patch now)
  | OpDeleteSessionInputs session_id => ignore (delete_session_inputs session_id)
  | OpEnqueueOutbox input now => ignore (enqueue_outbox input now)
  | OpClaimOutbox owner_id now ttl_ms limit max_attempts =>
      ignore (claim_outbox owner_id now ttl_ms limit max_attempts)
  | OpFinishOutbox record_id token now failure => finish_outbox record_id token now failure
  | OpMarkOutboxPublished record_id at_ => mark_outbox_published record_id at_
  | OpMarkOutboxFailed record_id error retry_at => mark_outbox_failed record_id error retry_at
  | OpPruneOutbox before max_attempts => ignore (prune_outbox before max_attempts)
  | OpSetSetting namespace key value => set_setting namespace key value
  | OpImport input => ignore (import_conversation input)
  | OpFork chat_id from_message_id new_chat_id now =>
      ignore (fork_chat chat_id from_message_id new_chat_id now)
  | OpDeleteChat chat_id => delete_chat chat_id
  | OpUpdateMessage message_id content metadata tool_calls proof now =>
      ignore (update_message message_id content metadata tool_calls proof now)
  | OpArchiveBranch message_id => ignore (archive_branch message_id)
  | OpCreateProposal proposal => ignore (create_proposal proposal)
  | OpTransitionProposal proposal_id from to patch now =>
      ignore (transition_proposal proposal_id from to patch now)
  | OpCompleteProposal proposal_id operation_id outcome now =>
      ignore (complete_proposal proposal_id operation_id outcome now)
  | OpFinalizeApply input => ignore (finalize_apply input)
  | OpRecordOutcome operation_id outcome now => ignore (record_outcome operation_id outcome now)
  | OpDeleteProposalsByChat chat_id => ignore (delete_proposals_by_chat chat_id)
  | OpInvalidatePending scope revision => ignore (invalidate_pending scope revision)
  | OpAnswer input => ignore (answer_human_request input)
  | OpRevokeStanding session_id grant_id now => ignore (revoke_standing_approval session_id grant_id now)
  | OpPark input => ignore (park_turn input)
  | OpProjectInputs input => ignore (append_projected_inputs input)
  | OpRequestInterrupt task_id now => request_interrupt task_id now
  | OpParkInterrupted proof now => park_interrupted proof now
  | OpSettleSession input extra => ignore (settle_session input extra)
  | OpStageQueued input => ignore (stage_queued_turn input)
  | OpQueueOrStage pick input => ignore (queue_or_stage_turn pick input)
  | OpRequestCompact session_id task_kind expected_descriptor now =>
      request_compact session_id task_kind expected_descriptor now
  | OpAdmitTeammate facts input => ignore (admit_teammate_task facts input)
  | OpWaitForChildren proof now => ignore (wait_for_children proof now)
  | OpContinueAfterChildren task_id now => ignore (continue_after_children task_id now)
  | OpMarkUncertain proof now reason => ignore (mark_uncertain proof now reason)
  | OpResolveUncertain task_id to error now => ignore (resolve_uncertain task_id to error now)
  | OpReconcileAgent agent_id now => ignore (reconcile_agent_runs agent_id now)
  | OpEnqueueMailbox agent_id input => ignore (enqueue_agent_mailbox agent_id input)
  | OpPromoteMailbox agent_id now => ignore (promote_next_agent_mailbox agent_id now)
  | OpCancelMailbox input_id now => ignore (cancel_agent_mailbox input_id now)
  end.

(** One job, rolled back when it fails; and a sequence of jobs. *)
Definition step (d : Db) (op : Op) : Db := (atomic (exec op) d).2.
Definition run (ops : list Op) (d : Db) : Db := foldl step d ops.

Lemma step_within (R : Db → Db → Prop) `{!PreOrder R} op d :
  within R (exec op) → R d (step d op).
Proof.
  intros H. unfold step, atomic. destruct (exec op d) as [[a d']|e] eqn:E; [eauto|].
  simpl. reflexivity.
Qed.

Lemma run_within (R : Db → Db → Prop) `{!PreOrder R} ops d :
  (∀ op, op ∈ ops → within R (exec op)) → R d (run ops d).
Proof.
  revert d. induction ops as [|op ops IH]; intros d H; [simpl; reflexivity|].
  change (run (op :: ops) d) with (run ops (step d op)).
  transitivity (step d op).
  { apply step_within; [done|]. apply H. left. }
  apply IH. intros op' ?. apply H. by right.
Qed.

(** The jobs of [proposals.rs]; and the jobs outside the task tables. *)
Definition proposal_op (op : Op) : bool :=
  match op with
  | OpCreateProposal _ | OpTransitionProposal _ _ _ _ _ | OpCompleteProposal _ _ _ _
  | OpFinalizeApply _ | OpRecordOutcome _ _ _ | OpDeleteProposalsByChat _
  | OpInvalidatePending _ _ => true
  | _ => false
  end.

(** The jobs of [history.rs]. *)
Definition history_op (op : Op) : bool :=
  match op with
  | OpImport _ | OpFork _ _ _ _ | OpDeleteChat _ | OpUpdateMessage _ _ _ _ _ _
  | OpArchiveBranch _ => true
  | _ => false
  end.

Definition side_op (op : Op) : bool :=
  match op with
  | OpImport _ | OpFork _ _ _ _ | OpUpdateMessage _ _ _ _ _ _ | OpArchiveBranch _
  | OpAppendEvents _ _ _ | OpAppendProjected _ _ _ _ | OpAppendMessage _ _ _
  | OpCheckDispatch _ _ | OpCreateChat _ _ _ _ | OpUpdateChat _ _ _ _ _ | OpActivatePath _
  | OpCreateInput _ _ | OpTransitionInput _ _ _ _ _ | OpDeleteSessionInputs _
  | OpEnqueueOutbox _ _ | OpClaimOutbox _ _ _ _ _ | OpFinishOutbox _ _ _ _
  | OpMarkOutboxPublished _ _ | OpMarkOutboxFailed _ _ _ | OpPruneOutbox _ _
  | OpSetSetting _ _ _ | OpRevokeStanding _ _ _ | OpProjectInputs _ | OpRequestCompact _ _ _ _
  | OpEnqueueMailbox _ _ | OpPromoteMailbox _ _ | OpCancelMailbox _ _ => true
  | op => proposal_op op
  end.

Lemma frame_side_op op : side_op op = true → within frame (exec op).
Proof.
  destruct op; intros Hop; try discriminate Hop; clear Hop; simpl; unfold ignore,
    append_events, append_projected, append_message, check_dispatch, create_chat, update_chat,
    activate_path, create_input, transition_input_op, insert_input, next_order,
    delete_session_inputs, enqueue_outbox, claim_outbox, claim_record, finish_outbox,
    mark_outbox_published, mark_outbox_failed, prune_outbox, set_setting, create_proposal,
    transition_proposal, complete_proposal, finalize_apply, claimed_proposal, record_outcome,
    get_receipt, insert_receipt, delete_proposals_by_chat, delete_proposal, invalidate_pending,
    Proposals.save, import_conversation, import_row, order_key_free, fork_chat, update_message,
    archive_branch, chat_messages, save_message, revoke_standing_approval, request_compact, set_metadata,
    append_projected_inputs, apply_steer, enqueue_agent_mailbox, insert_mailbox, insert_input, next_order, get_input,
    promote_next_agent_mailbox, cancel_agent_mailbox.
  all: within_auto. all: first [by apply (within_fork_path frame)|by apply frame_transition_input
    |by apply frame_ignore_lost_cas, frame_transition_input].
Qed.
End ops.

(** ** A concrete store

    One host and a few requests, for the witnesses and for running the model
    on small inputs. *)

(** Identifiers ["id0"], ["id1"], ...; JSON keeps every integer; every
    envelope and every pinned profile is accepted. *)
Definition example_uuid (n : nat) : string := "id" +:+ pretty n.

Lemma example_uuid_inj : Inj (=) (=) example_uuid.
Proof. intros n m H. unfold example_uuid in H. simpl in H. injection H as H. by apply (inj pretty). Qed.

Definition example_host : Host := {|
  js_int := λ z, z;
  uuid := example_uuid;
  show_f64 := λ _, "seq";
  json_text := λ _, "{}";
  valid_envelope := λ _, true;
  profile_refused := λ _ _, false;
  js_int_safe := λ z _, eq_refl;
  uuid_inj := example_uuid_inj
|}.

Section examples.
#[local] Existing Instance example_host.

Definition ex_submit (id scope : string) (now : Z) : SubmitTask :=
  mkSubmit id "turn" scope VNull 0 now None [] None false.
Definition ex_claim (now : Z) : ClaimInput := mkClaimInput "worker" now 1000 [] [] 3.

Definition ex_proof (id : string) (d : Db) : LeaseFence :=
  match find_row id d.(db_leases) with
  | Some l => lease_fence l
  | None => mkFence id "" 0
  end.

Definition ex_settle (proof : LeaseFence) (now : Z) : SettleTask :=
  mkSettle proof now Completed None [] [].
Definition ex_retry (proof : LeaseFence) (now : Z) : RetryTask :=
  mkRetry proof now (now + 5) 3 "boom".

(** A task submitted and claimed; and the same task settled. *)
Definition ex_queued : Db := run [OpSubmit (ex_submit "t1" "chat" 0)] (empty_db true).
Definition ex_claimed : Db := run [OpClaim default_aging (ex_claim 1) u64_max] ex_queued.
Definition ex_settled : Db := run [OpSettle (ex_settle (ex_proof "t1" ex_claimed) 2)] ex_claimed.

Example ex_claimed_running :
  t_status <$> find_row "t1" ex_claimed.(db_tasks) = Some Running.
Proof. vm_compute. reflexivity. Qed.

Example ex_settled_completed :
  t_status <$> find_row "t1" ex_settled.(db_tasks) = Some Completed.
Proof. vm_compute. reflexivity. Qed.

Example ex_settled_leases : ex_settled.(db_leases) = [].
Proof. vm_compute. reflexivity. Qed.
End examples.
