(* ===== verification/TaskSpecs.v ===== *)
(** * What a successful task operation does

    One lemma per operation: the rows it read, the rows it wrote and the
    tables it left alone, as equations between the states. *)

From S2P Require Export TaskOps.
Local Open Scope Z_scope.

(** *** Status tests *)
Lemma running_status t : running t = true ↔ t.(t_status) = Running.
Proof. apply bool_decide_eq_true. Qed.
Lemma queued_status t : queued t = true ↔ t.(t_status) = Queued.
Proof. apply bool_decide_eq_true. Qed.
Lemma settleable_status t :
  settleable t = true ↔ t.(t_status) = Running ∨ t.(t_status) = WaitingApproval.
Proof. unfold settleable. by rewrite orb_true_iff, running_status, bool_decide_eq_true. Qed.
Lemma allowed_terminal from to : allowed from to = true → is_terminal from = false.
Proof. by destruct from, to. Qed.

Ltac status_facts :=
  repeat match goal with
  | H : running _ = true |- _ => apply running_status in H
  | H : queued _ = true |- _ => apply queued_status in H
  | H : settleable _ = true |- _ => apply settleable_status in H as [H|H]
  | H : allowed _ _ = true |- _ => apply allowed_terminal in H
  | H : negb _ = false |- _ => apply negb_false_iff in H
  | H : negb _ = true |- _ => apply negb_true_iff in H
  | H : _ && _ = true |- _ => apply andb_true_iff in H as [? ?]
  | H : _ || _ = true |- _ => apply orb_true_iff in H as [H|H]
  | H : bool_decide _ = true |- _ => apply bool_decide_eq_true in H
  end.

(** The attempt of [lease] is ended unless it has ended before. *)
Definition attempt_ended {host : Host} (d d' : Db) (lease : Lease) (status : string) (now : Z)
    (error : option string) : Prop :=
  ∃ a, find_row lease.(l_attempt_id) d.(db_attempts) = Some a ∧
    (is_running a = false ∧ d'.(db_attempts) = d.(db_attempts)
     ∨ is_running a = true ∧ ∃ j, json_attempt d.(db_file) (ended status now error a) = Ok j
         ∧ d'.(db_attempts) = replace_row j d.(db_attempts)).

Lemma end_attempt_Ok {host : Host} lease status now error d u d' :
  Lifecycle.end_attempt lease status now error d = Ok (u, d') →
  attempt_ended d d' lease status now error ∧ db_file d' = db_file d ∧ db_tasks d' = db_tasks d
  ∧ db_leases d' = db_leases d ∧ db_fence d' = db_fence d.
Proof.
  unfold Lifecycle.end_attempt, attempt_ended. intros Hr.
  apply st_bind_Ok in Hr as (a & d1 & [Ha ->]%required_Ok & Hr).
  destruct (is_running a) eqn:E; simpl in Hr; inv_st.
  - apply update_row_Ok in Hr as (j & ? & ->). split_and!; [|done..]. exists a. eauto 10.
  - split_and!; [|done..]. exists a. eauto.
Qed.

Lemma attempt_ended_frame {host : Host} d1 d1' d d' lease status now error :
  attempt_ended d1 d1' lease status now error → db_attempts d = db_attempts d1 →
  db_file d = db_file d1 → db_attempts d' = db_attempts d1' →
  attempt_ended d d' lease status now error.
Proof. unfold attempt_ended. intros H -> -> ->. done. Qed.

Lemma for_each_attempts_Ok {host : Host} (f : AttemptRecord → AttemptRecord) l d u d' :
  for_each (λ a, update_row (f a)) l d = Ok (u, d') →
  db_file d' = db_file d ∧ db_tasks d' = db_tasks d ∧ db_leases d' = db_leases d
  ∧ db_fence d' = db_fence d.
Proof.
  revert d. induction l as [|a l IH]; intros d; simpl; intros Hr; [by inv_st|].
  apply st_bind_Ok in Hr as (? & d1 & (j & ? & ->)%update_row_Ok & Hr).
  by apply IH in Hr.
Qed.

(** Take a successful run apart down to equations on the tables. *)
Ltac keep_frame L H :=
  apply L in H; destruct H as [? ? ? ? ?]; simpl in *.
Ltac inv_op_step :=
  match goal with
  | H : fence _ _ _ = Ok (_, _) |- _ => apply fence_Ok in H as (? & ? & ->)
  | H : fence_opt _ _ _ _ = Ok (_, _) |- _ => apply fence_opt_Ok in H as ->
  | H : required _ _ = Ok (_, _) |- _ => apply required_Ok in H as [? ->]
  | H : get _ _ = Ok (_, _) |- _ => apply st_gets_Ok in H as [? ->]
  | H : select _ _ = Ok (_, _) |- _ => apply st_gets_Ok in H as [? ->]
  | H : save _ _ = Ok (_, _) |- _ => apply update_row_Ok in H as (? & ? & ->)
  | H : update_row _ _ = Ok (_, _) |- _ => apply update_row_Ok in H as (? & ? & ->)
  | H : insert_row _ _ = Ok (_, _) |- _ => apply insert_row_Ok in H as (? & ? & ? & ->)
  | H : upsert_row _ _ = Ok (_, _) |- _ => apply upsert_row_Ok in H as (? & ? & ->)
  | H : for_each (λ a : AttemptRecord, update_row _) _ _ = Ok (_, _) |- _ =>
      apply for_each_attempts_Ok in H as (? & ? & ? & ?); simpl in *
  | H : delete_lease _ _ = Ok (_, _) |- _ => apply st_modify_Ok in H as ->
  | H : fresh _ = Ok (_, _) |- _ => let E1 := fresh in let E2 := fresh in
      injection H as E1 E2; subst_r E2; subst_r E1
  | H : lifecycle_event _ _ _ _ = Ok (_, _) |- _ => keep_frame frame_lifecycle_event H
  | H : TaskEvents.append _ _ _ _ = Ok (_, _) |- _ => keep_frame frame_events_append H
  | H : cancel_turn_requests _ _ _ _ = Ok (_, _) |- _ => keep_frame frame_cancel_turn_requests H
  | H : insert_input _ _ _ = Ok (_, _) |- _ => keep_frame frame_insert_input H
  | H : finalize_message _ _ _ = Ok (_, _) |- _ => keep_frame frame_finalize_message H
  | H : for_each (project_message ?t ?n) _ _ = Ok (_, _) |- _ =>
      apply (within_for_each frame) in H;
        [destruct H as [? ? ? ? ?]; simpl in *|intros ? _; apply frame_project_message]
  | H : for_each (turn_message ?t ?n) _ _ = Ok (_, _) |- _ =>
      apply (within_for_each frame) in H;
        [destruct H as [? ? ? ? ?]; simpl in *|intros ? _; apply frame_turn_message]
  | H : (if ?b then _ else _) _ = Ok (_, _) |- _ => destruct b eqn:?
  | H : (match ?x with _ => _ end) _ = Ok (_, _) |- _ => destruct x eqn:?
  | H : Lifecycle.end_attempt _ _ _ _ _ = Ok (_, _) |- _ =>
      apply end_attempt_Ok in H as (? & ? & ? & ? & ?); simpl in *
  | H : (_, _) = (_, _) |- _ => let E1 := fresh in let E2 := fresh in
      injection H as E1 E2; subst_l E1; subst_l E2; simpl in *
  | |- _ => inv_st_step
  end.
Ltac inv_op := repeat inv_op_step.

(** Rewrite every table of a later state to the earlier one's. *)
Ltac use_frames :=
  simpl in *;
  repeat match goal with
  | E : db_tasks ?d = _ |- context [db_tasks ?d] => rewrite E
  | E : db_leases ?d = _ |- context [db_leases ?d] => rewrite E
  | E : db_attempts ?d = _ |- context [db_attempts ?d] => rewrite E
  | E : db_fence ?d = _ |- context [db_fence ?d] => rewrite E
  | E : db_file ?d = _ |- context [db_file ?d] => rewrite E
  | E : db_file ?d = _, H : context [db_file ?d] |- _ => rewrite E in H
  | E : db_tasks ?d = _, H : context [db_tasks ?d] |- _ => lazymatch type of H with
      | db_tasks d = _ => fail | _ => rewrite E in H end
  | E : db_leases ?d = _, H : context [db_leases ?d] |- _ => lazymatch type of H with
      | db_leases d = _ => fail | _ => rewrite E in H end
  | E : db_attempts ?d = _, H : context [db_attempts ?d] |- _ => lazymatch type of H with
      | db_attempts d = _ => fail | _ => rewrite E in H end
  end.

(** The row found under an id has that id. *)
Ltac fold_id :=
  simpl in *;
  match goal with H : find_row ?id (db_tasks _) = Some ?t |- _ =>
    pose proof (proj2 (find_row_Some _ _ _ H) : t_task_id t = id);
    lazymatch goal with E : t_task_id t = id |- _ => try rewrite E in * end
  end.

Ltac solve_rewrote :=
  split; [eassumption|]; split; [|eexists; split; [eassumption|simpl; congruence]]; simpl; done.
Ltac solve_ended :=
  eapply attempt_ended_frame; [eassumption|simpl; congruence..].

Section specs.
Context {host : Host}.

(** [task] with id [id] is rewritten as [task'] and nothing else in the
    task table moves. *)
Definition rewrote (d d' : Db) (id : string) (task task' : TaskRecord) : Prop :=
  find_row id d.(db_tasks) = Some task ∧ t_task_id task' = id ∧
  ∃ j, json_task d.(db_file) task' = Ok j ∧ d'.(db_tasks) = replace_row j d.(db_tasks).

(** A settlement, up to what a session adds to it. *)
Lemma settle_inner_Ok input extra d0 task' d'' :
  settle_inner input extra d0 = Ok (task', d'') →
  ∃ d' lease task, (let d := d0 in
    find_row input.(st_fence).(f_task_id) d.(db_leases) = Some lease
    ∧ lease_valid input.(st_fence) input.(st_now) lease = true
    ∧ settleable task = true ∧ is_terminal input.(st_status) = true
    ∧ task' = settled input task
    ∧ rewrote d d' input.(st_fence).(f_task_id) task task'
    ∧ attempt_ended d d' lease (status_text task'.(t_status)) input.(st_now) input.(st_error)
    ∧ d'.(db_leases) = remove_row input.(st_fence).(f_task_id) d.(db_leases)
    ∧ d'.(db_fence) = d.(db_fence))
    ∧ match extra with
      | Some extra => extra.(settle_inputs) task' (bool_decide (task'.(t_status) = Completed)) input.(st_now) d' = Ok (tt, d'')
      | None => d'' = d'
      end.
Proof.
  unfold settle_inner, check_descriptor. simpl mbind. intros H.
  inv_op; fold_id; use_frames.
  all: try match goal with H : settle_inputs _ _ _ _ _ = Ok (?u, _) |- _ => destruct u end.
  all: eexists _, _, _; (split; [|first [eassumption|reflexivity]]); cbv zeta; split_and!;
    first [eassumption|done|solve_rewrote|solve_ended|simpl; congruence].
Qed.
Lemma settle_Ok input d task' d' :
  settle input d = Ok (task', d') →
  ∃ lease task,
    find_row input.(st_fence).(f_task_id) d.(db_leases) = Some lease
    ∧ lease_valid input.(st_fence) input.(st_now) lease = true
    ∧ settleable task = true ∧ is_terminal input.(st_status) = true
    ∧ task' = settled input task
    ∧ rewrote d d' input.(st_fence).(f_task_id) task task'
    ∧ attempt_ended d d' lease (status_text task'.(t_status)) input.(st_now) input.(st_error)
    ∧ d'.(db_leases) = remove_row input.(st_fence).(f_task_id) d.(db_leases)
    ∧ d'.(db_fence) = d.(db_fence).
Proof. intros (d1 & lease & task & H & ->)%settle_inner_Ok. by exists lease, task. Qed.

Lemma retry_task_Ok input d task' d' :
  retry_task input d = Ok (task', d') →
  ∃ lease task,
    find_row input.(r_fence).(f_task_id) d.(db_leases) = Some lease
    ∧ lease_valid input.(r_fence) input.(r_now) lease = true
    ∧ running task = true
    ∧ rewrote d d' input.(r_fence).(f_task_id) task task'
    ∧ task' = (if task.(t_cancel_requested) then
                 task <| t_status := Cancelled |> <| t_finished_at := Some input.(r_now) |>
                   <| t_error := None |>
               else if input.(r_max_attempts) <=? task.(t_attempt_count) then
                 dead_lettered input.(r_error) input.(r_now) task
               else task <| t_available_at := input.(r_available_at) |>
                 <| t_retry_pending := true |> <| t_error := Some input.(r_error) |>)
    ∧ attempt_ended d d' lease (if task.(t_cancel_requested) then "cancelled" else "failed")
        input.(r_now) (Some input.(r_error))
    ∧ d'.(db_leases) = remove_row input.(r_fence).(f_task_id) d.(db_leases)
    ∧ d'.(db_fence) = d.(db_fence).
Proof.
  unfold retry_task, dead_letter. intros H. inv_op; fold_id; use_frames.
  all: eexists _, _; split_and!; try eassumption; try (simpl; congruence); try solve_rewrote.
  all: repeat match goal with H : _ = true |- context [if ?b then _ else _] => rewrite H
    | H : _ = false |- context [if ?b then _ else _] => rewrite H end; try done; solve_ended.
Qed.
(** *** Answers *)

(** An answer is committed for a waiting turn, or was before. *)
Definition replayed_answer (input : AnswerHumanRequest) (request : AgentInputRecord) (turn_id : string) (d : Db)
    (r : AnswerOutcome) : Prop :=
  ∃ enqueue, replay_answer input request turn_id enqueue d = Ok (r, d).
Lemma replay_answer_Ok input request turn_id enqueue d r d' :
  replay_answer input request turn_id enqueue d = Ok (r, d') → d' = d.
Proof.
  unfold replay_answer. intros H. destruct (is_some_and _ _); [destruct (_ || _); by inv_st|].
  apply st_bind_Ok in H as (o & d1 & H1 & H).
  assert (d1 = d) as -> by (destruct (i_applied_message_id request); [apply st_gets_Ok in H1 as [_ ->]|inv_st]; done).
  destruct (_ || _); by inv_st.
Qed.

Record asked (input : AnswerHumanRequest) (d : Db) (request : AgentInputRecord) (turn_id : string)
    (own : option AnswerDecision) (now_text : string) : Prop := {
  as_request : find_row input.(an_request_id) d.(db_inputs) = Some request;
  as_kind : request.(i_kind) = HumanRequest;
  as_turn : request.(i_target_task_id) = Some turn_id;
  as_own : (if is_approval_request request.(i_content) then Some <$> read_decision input.(an_response) else Ok None) = Ok own;
  as_now : text_of input.(an_now) = Ok now_text
}.
(** The person approves, as far as the plan policy lets them. *)
Definition approving (input : AnswerHumanRequest) (own : option AnswerDecision) : bool :=
  is_some_and (decided input own) dc_approve.
(** What an open request and its waiting turn commit. *)
Definition committed_answer (input : AnswerHumanRequest) (request : AgentInputRecord) (task : TaskRecord) (turn_id : string)
    (own : option AnswerDecision) (now_text : string) : M AnswerOutcome :=
  if approving input own then approve_answer input request task turn_id own (decided input own) now_text
  else plain_answer input request task turn_id (decided input own) now_text.
Lemma answer_Ok input d r d' : answer_human_request input d = Ok (r, d') →
  ∃ request turn_id own now_text, asked input d request turn_id own now_text ∧
  (request.(i_status) = Answered ∧ d' = d ∧ replayed_answer input request turn_id d r
   ∨ request.(i_status) ≠ Answered ∧ request.(i_status) ≠ CancelledInput
     ∧ ∃ task, find_row turn_id d.(db_tasks) = Some task ∧ task.(t_status) = WaitingApproval
       ∧ (∀ expires, request.(i_expires_at) ≫= parse_iso_millis = Some expires → input.(an_now) < expires)
       ∧ committed_answer input request task turn_id own now_text d = Ok (r, d')).
Proof.
  intros H. unfold answer_human_request, get_input in H.
  apply st_bind_Ok in H as (now_text & d1 & [Hnow ->]%st_lift_Ok & H). apply st_bind_Ok in H as (o & d1 & [-> ->]%st_gets_Ok & H).
  apply st_bind_Ok in H as (request & d1 & [Hreq%ok_or_Ok ->]%st_lift_Ok & H).
  apply st_bind_Ok in H as (u & d1 & [Hkind%bool_decide_eq_true ->]%st_guard_Ok & H).
  apply st_bind_Ok in H as (own & d1 & [Hown ->]%st_lift_Ok & H). apply st_bind_Ok in H as (turn_id & d1 & [Hturn%ok_or_Ok ->]%st_lift_Ok & H).
  apply st_bind_Ok in H as (task & d1 & [-> ->]%st_gets_Ok & H).
  exists request, turn_id, own, now_text. split; [by split|].
  assert ((task ← lift (ok_or (stale input.(an_request_id) "its turn is no longer waiting")
               (opt_filter (λ t, bool_decide (t.(t_status) = WaitingApproval)) (find_row turn_id (tbl d))));
      _ ← guard_or (negb (is_some_and (request.(i_expires_at) ≫= parse_iso_millis) (λ expires, expires <=? input.(an_now))))
            (stale input.(an_request_id) "it expired");
      if is_some_and (decided input own) dc_approve then approve_answer input request task turn_id own (decided input own) now_text
      else plain_answer input request task turn_id (decided input own) now_text) d = Ok (r, d') →
    ∃ task, find_row turn_id d.(db_tasks) = Some task ∧ task.(t_status) = WaitingApproval
       ∧ (∀ expires, request.(i_expires_at) ≫= parse_iso_millis = Some expires → input.(an_now) < expires)
       ∧ committed_answer input request task turn_id own now_text d = Ok (r, d')) as Hopen.
  { intros Hm. apply st_bind_Ok in Hm as (task & d1 & [Hf%ok_or_Ok ->]%st_lift_Ok & Hm).
    apply st_bind_Ok in Hm as (u' & d1 & [Hexp ->]%st_guard_Ok & Hm). apply opt_filter_Some in Hf as [Hf Hst%bool_decide_eq_true].
    exists task. split; [exact Hf|]. split; [done|]. split; [|exact Hm].
    intros expires E. rewrite E in Hexp. simpl in Hexp. apply negb_true_iff in Hexp. lia. }
  destruct (i_status request) eqn:Est; try (right; split; [done|]; split; [done|]; by apply Hopen, H); [|done].
  left. split; [done|]. pose proof H as ->%replay_answer_Ok. split; [done|]. by eexists.
Qed.

(** *** The steps of a claim *)

(** The lease, attempt and fencing tables are untouched. *)
Record only_tasks (d d' : Db) : Prop := {
  ot_file : db_file d' = db_file d;
  ot_attempts : db_attempts d' = db_attempts d;
  ot_leases : db_leases d' = db_leases d;
  ot_fence : db_fence d' = db_fence d
}.

(** A dependency that lets its dependent run. *)
Definition dep_completed (d : Db) (id : string) : Prop := ∃ t,
  find_row id d.(db_tasks) = Some t ∧ t.(t_status) = Completed ∧ t.(t_dead_lettered_at) = None.

Lemma dead_letter_Ok task now reason d t d' :
  find_row task.(t_task_id) d.(db_tasks) = Some task →
  dead_letter task now reason d = Ok (t, d') →
  t = dead_lettered reason now task ∧ only_tasks d d'
  ∧ rewrote d d' task.(t_task_id) task (dead_lettered reason now task).
Proof.
  intros Hf H. unfold dead_letter in H. inv_op; use_frames.
  split_and!; [done|split; simpl; congruence|solve_rewrote].
Qed.

Lemma dependency_loop_true ids task now d :
  (∀ id, id ∈ ids → dep_completed d id) → dependency_loop ids task now false d = Ok (true, d).
Proof.
  induction ids as [|id ids IH]; intros Hd; [done|]. simpl.
  destruct (Hd id) as (t & Hf & Hs & Hdl); [left|]. simpl in Hf.
  unfold get, gets, mbind, st_bind. simpl. rewrite Hf. simpl. rewrite Hs, Hdl. simpl.
  apply IH. intros id' ?. apply Hd. by right.
Qed.

Lemma dependency_loop_Ok ids task now blocked d r d' :
  find_row task.(t_task_id) d.(db_tasks) = Some task →
  dependency_loop ids task now blocked d = Ok (r, d') →
  (r = true ∧ d' = d ∧ blocked = false ∧ ∀ id, id ∈ ids → dep_completed d id)
  ∨ (r = false ∧ d' = d)
  ∨ (r = false ∧ only_tasks d d' ∧ ∃ failed cancelled id, failed || cancelled = true
      ∧ rewrote d d' task.(t_task_id) task (fail_dependent task failed cancelled id now)).
Proof.
  intros Hf. revert blocked. induction ids as [|id ids IH]; intros blocked H; simpl in H.
  { inv_st. destruct blocked; [right; by left|left]. split_and!; try done.
    by intros ? ?%elem_of_nil. }
  apply st_bind_Ok in H as (o & d1 & [Ho ->]%st_gets_Ok & H). simpl in Ho.
  destruct (dependency_failed o || dependency_cancelled o) eqn:Hb.
  - inv_op; use_frames. right; right. split; [done|]. split; [split; simpl; congruence|].
    exists (dependency_failed o), (dependency_cancelled o), id. split; [done|]. solve_rewrote.
  - apply IH in H as [(-> & -> & Hbl & Hd)|[?|?]]; [left|auto..].
    apply orb_false_iff in Hbl as [-> Hbl]. split_and!; try done.
    intros id' [->|?]%elem_of_cons; [|auto]. destruct o as [t|]; [|done]. simpl in *.
    exists t. split; [done|]. apply negb_false_iff, bool_decide_eq_true in Hbl. split; [done|].
    apply orb_false_iff in Hb as [Hb _]. apply orb_false_iff in Hb as [_ Hb].
    by destruct (t_dead_lettered_at t).
Qed.

Lemma acquire_Ok task_id attempt_id owner_id now ttl_ms d l d' :
  acquire task_id attempt_id owner_id now ttl_ms d = Ok (l, d') →
  l = mkLease task_id attempt_id owner_id (uuid d.(db_uuids)) (d.(db_fence) + 1) (now + ttl_ms)
  ∧ 0 ≤ ttl_ms ∧ d'.(db_fence) = d.(db_fence) + 1 ∧ d'.(db_file) = d.(db_file)
  ∧ d'.(db_tasks) = d.(db_tasks) ∧ d'.(db_attempts) = d.(db_attempts)
  ∧ ∃ j, json_lease d.(db_file) l = Ok j ∧ find_row task_id d'.(db_leases) = Some j
    ∧ ∀ id, id ≠ task_id → find_row id d'.(db_leases) = find_row id d.(db_leases).
Proof.
  unfold acquire. intros H. inv_op. use_frames.
  match goal with H : checked_expiry _ _ = _ |- _ => apply checked_expiry_Ok in H as (? & -> & ?) end.
  match goal with H : ok_or _ _ = Ok _ |- _ => rename H into Htok end.
  unfold checked_add_i64 in Htok. destruct (checked _ _ _) eqn:C; [|done].
  injection Htok as ->. apply checked_Some in C as [-> ?].
  match goal with H : json_lease _ _ = Ok ?j |- _ =>
    pose proof (json_key (A := Lease) _ _ _ H) as Hk; rename H into Hj; rename j into j0 end.
  simpl in Hk. split_and!; try done. exists j0. split; [done|]. split.
  - destruct (find_row task_id (db_leases d)) eqn:E; simpl.
    + rewrite find_row_replace, E. simpl. by rewrite Hk, String.eqb_refl.
    + rewrite find_row_app, E. unfold find_row. simpl. by rewrite Hk, String.eqb_refl.
  - intros id Hne. destruct (find_row task_id (db_leases d)) eqn:E; simpl.
    + rewrite find_row_replace. simpl. rewrite Hk. by destruct (String.eqb_spec task_id id).
    + rewrite find_row_app. unfold find_row. simpl. rewrite Hk.
      destruct (String.eqb_spec task_id id); [done|]. by destruct find_by.
Qed.

Lemma start_Ok task input d c d' :
  find_row task.(t_task_id) d.(db_tasks) = Some task →
  start task input d = Ok (c, d') →
  rewrote d d' task.(t_task_id) task (started task input.(ci_now))
  ∧ c.(c_task) = started task input.(ci_now)
  ∧ c.(c_lease).(l_task_id) = task.(t_task_id) ∧ c.(c_lease).(l_owner_id) = input.(ci_owner_id)
  ∧ c.(c_lease).(l_fencing_token) = d.(db_fence) + 1
  ∧ c.(c_lease).(l_expires_at) = input.(ci_now) + input.(ci_ttl_ms)
  ∧ d'.(db_fence) = d.(db_fence) + 1
  ∧ (∃ j, json_lease d.(db_file) c.(c_lease) = Ok j
      ∧ find_row task.(t_task_id) d'.(db_leases) = Some j)
  ∧ ∃ a, json_attempt d.(db_file) (mkAttempt c.(c_lease).(l_attempt_id) task.(t_task_id)
        (wrapping_succ_u32 task.(t_attempt_count)) "running" input.(ci_owner_id) input.(ci_now)
        None None) = Ok a
      ∧ d'.(db_attempts) = d.(db_attempts) ++ [a].
Proof.
  intros Hf H. unfold start in H. inv_op.
  match goal with H : acquire _ _ _ _ _ _ = _ |- _ =>
    apply acquire_Ok in H as (-> & ? & ? & ? & ? & ? & j0 & ? & ? & ?) end.
  use_frames. split_and!; try done; try congruence; [solve_rewrote| |].
  - exists j0. split; [done|]. congruence.
  - eexists. split; [eassumption|]. congruence.
Qed.
End specs.
