(* ===== verification/Walk.v ===== *)
(** * Carrying a relation through every operation

    [StoreSteps R]: the statements of the store stay within [R].  [exec_within]
    lifts it to every operation of the alphabet, so an invariant of one table
    is proved from the few statements that write that table; [same] is the
    relation of the statements that do not. *)

From S2P Require Export TaskSpecs.
Local Open Scope Z_scope.

(** The operations that drop rows, and those of the outbox, of the proposals
    and of the history alone: a client says what it makes of them. *)
Definition apart_op (op : Op) : bool :=
  match op with
  | OpDeleteByScope _ | OpDeleteSessionInputs _ | OpPruneOutbox _ _ | OpClaimOutbox _ _ _ _ _
  | OpFinishOutbox _ _ _ _ | OpMarkOutboxPublished _ _ | OpMarkOutboxFailed _ _ _ => true
  | op => proposal_op op || history_op op
  end.

Class StoreSteps {host : Host} (R : Db → Db → Prop) := {
  steps_preorder :: PreOrder R;
  step_tasks l d : R d (d <| db_tasks := l |>);
  step_attempts l d : R d (d <| db_attempts := l |>);
  step_leases l d : R d (d <| db_leases := l |>);
  step_settings l d : R d (d <| db_settings := l |>);
  step_admissions l d : R d (d <| db_admissions := l |>);
  step_fence n d : R d (d <| db_fence := n |>);
  step_uuids n d : (d.(db_uuids) ≤ n)%nat → R d (d <| db_uuids := n |>);
  step_enqueue input now : within R (enqueue input now);
  step_events task_id events now : within R (TaskEvents.append task_id events now);
  step_append input now : within R (Conversations.append input now);
  step_project input now : within R (project input now);
  step_activate message_id : within R (activate message_id);
  step_create_chat id title metadata now : within R (create_chat id title metadata now);
  step_update_chat id title metadata archived now :
    within R (update_chat id title metadata archived now);
  step_insert_input input now_text : within R (insert_input input now_text);
  step_insert_mailbox agent_id input : within R (insert_mailbox agent_id input);
  step_transition_input id from to patch now_text :
    within R (transition_input id from to patch now_text);
  step_set_metadata chat metadata now : within R (set_metadata chat metadata now);
  step_finalize_message id content : within R (finalize_message id content)
}.

Create HintDb walk.
#[export] Hint Extern 2 (within _ (update_row (A := TaskRecord) _)) =>
  (apply within_update_row; intros; apply step_tasks) : walk.
#[export] Hint Extern 2 (within _ (insert_row (A := TaskRecord) _)) =>
  (apply within_insert_row; intros; apply step_tasks) : walk.
#[export] Hint Extern 2 (within _ (update_row (A := AttemptRecord) _)) =>
  (apply within_update_row; intros; apply step_attempts) : walk.
#[export] Hint Extern 2 (within _ (insert_row (A := AttemptRecord) _)) =>
  (apply within_insert_row; intros; apply step_attempts) : walk.
#[export] Hint Extern 2 (within _ (update_row (A := Lease) _)) =>
  (apply within_update_row; intros; apply step_leases) : walk.
#[export] Hint Extern 2 (within _ (upsert_row (A := Lease) _)) =>
  (apply within_upsert_row; intros; apply step_leases) : walk.
#[export] Hint Extern 2 (within _ (delete_lease _)) =>
  (apply within_modify; intros; apply step_leases) : walk.
#[export] Hint Extern 2 (within _ (modify (λ d, d <| db_fence := _ |>))) =>
  (apply within_modify; intros; apply step_fence) : walk.
#[export] Hint Extern 2 (within _ fresh) =>
  (intros ? ? ? [= _ <-]; apply step_uuids; lia) : walk.
#[export] Hint Resolve step_enqueue step_events step_append step_project step_activate
  step_transition_input step_create_chat step_update_chat step_insert_input step_set_metadata
  step_finalize_message step_insert_mailbox : walk.
#[export] Hint Extern 2 (within _ (modify (λ d, d <| db_settings := _ |>))) =>
  (apply within_modify; intros; apply step_settings) : walk.
#[export] Hint Extern 2 (within _ (modify (λ d, d <| db_admissions := _ |>))) =>
  (apply within_modify; intros; apply step_admissions) : walk.

Ltac walk_step :=
  match goal with
  | |- within _ (mbind _ _) => apply within_bind; [apply steps_preorder| |intros ?]
  | |- within _ (if ?b then _ else _) => destruct b eqn:?
  | |- within _ (match ?x with _ => _ end) => destruct x eqn:?
  | |- within _ (for_each _ _) => apply within_for_each; [apply steps_preorder|intros ? ?]
  | |- within _ (for_map _ _) => apply within_for_map; [apply steps_preorder|intros ? ?]
  | |- within _ (map_err _ _) => apply within_map_err
  | |- within _ (savepoint _ _) => apply within_savepoint; [apply steps_preorder|]
  | |- within _ _ => solve [eauto with walk st typeclass_instances]
  end.
Ltac walk := repeat walk_step.

Section walk.
Context {host : Host} (R : Db → Db → Prop) {steps : StoreSteps R}.

Lemma walk_lifecycle_event task kind now : within R (lifecycle_event task kind now).
Proof. unfold lifecycle_event. walk. Qed.
Hint Resolve walk_lifecycle_event : walk.

Lemma walk_dead_letter task now reason : within R (dead_letter task now reason).
Proof. unfold dead_letter, save. walk. Qed.
Hint Resolve walk_dead_letter : walk.

Lemma walk_fence proof now : within R (fence proof now).
Proof. intros d l d' (_ & _ & ->)%fence_Ok. reflexivity. Qed.
Lemma walk_fence_opt id token now : within R (fence_opt id token now).
Proof. intros d l d' ->%fence_opt_Ok. reflexivity. Qed.
Hint Resolve walk_fence walk_fence_opt : walk.

Lemma walk_ignore_lost_cas m : within R m → within R (ignore_lost_cas m).
Proof.
  intros H d u d'. unfold ignore_lost_cas. destruct (m d) as [ [a s]|e ] eqn:E.
  - intros [= _ <-]. eauto.
  - destruct e; try done. intros [= _ <-]. reflexivity.
Qed.
Hint Resolve walk_ignore_lost_cas : walk.

Lemma walk_cancel_turn_requests session_id turn_id now :
  within R (cancel_turn_requests session_id turn_id now).
Proof. unfold cancel_turn_requests, list_inputs. walk. Qed.
Hint Resolve walk_cancel_turn_requests : walk.

Lemma walk_insert_bound input binding : within R (insert_bound input binding).
Proof. unfold insert_bound, check_dependency. walk. Qed.
Hint Resolve walk_insert_bound : walk.
Lemma walk_insert input : within R (Tasks.insert input).
Proof. apply walk_insert_bound. Qed.
Hint Resolve walk_insert : walk.

Lemma walk_acquire task_id attempt_id owner_id now ttl_ms :
  within R (acquire task_id attempt_id owner_id now ttl_ms).
Proof. unfold acquire. walk. Qed.
Hint Resolve walk_acquire : walk.

Lemma walk_dependencies ids task now blocked : within R (dependency_loop ids task now blocked).
Proof.
  revert blocked. induction ids as [|id ids IH]; intros blocked; simpl; unfold save; walk.
Qed.
Hint Resolve walk_dependencies : walk.

Lemma walk_claim_loop input concurrency occupied tasks l :
  within R (claim_loop input concurrency occupied tasks l).
Proof.
  induction l as [|t l IH]; cbn [claim_loop]; unfold dependencies, start, save; walk.
Qed.
Hint Resolve walk_claim_loop : walk.

Lemma walk_end_attempt lease status now error :
  within R (Lifecycle.end_attempt lease status now error).
Proof. unfold Lifecycle.end_attempt. walk. Qed.
Hint Resolve walk_end_attempt : walk.

Lemma walk_end_running_attempts task_id now : within R (end_running_attempts task_id now).
Proof. unfold end_running_attempts. walk. Qed.
Hint Resolve walk_end_running_attempts : walk.

Lemma walk_abandon task now max_attempts delay mode :
  within R (abandon task now max_attempts delay mode).
Proof. unfold abandon, recover_task, save. walk. Qed.
Hint Resolve walk_abandon : walk.

Lemma walk_project_message task now message : within R (project_message task now message).
Proof. unfold project_message. walk. Qed.
Lemma walk_turn_message task now message : within R (turn_message task now message).
Proof. unfold turn_message. walk. Qed.
Hint Resolve walk_project_message walk_turn_message : walk.

(** *** The operations of a session *)

Lemma walk_convert_candidate scope_id candidate now : within R (convert_candidate scope_id candidate now).
Proof. unfold convert_candidate, convert_claimed, convert_message, get_input. walk. Qed.
Hint Resolve walk_convert_candidate : walk.
Lemma walk_convert_first scope_id now candidates : within R (convert_first scope_id now candidates).
Proof. induction candidates as [|c l IH]; cbn [convert_first]; walk. Qed.
Lemma walk_convert_missed staging scope_id now records : within R (convert_missed staging scope_id now records).
Proof. induction records as [|r l IH]; cbn [convert_missed]; walk. Qed.
Hint Resolve walk_convert_first walk_convert_missed : walk.
Lemma walk_settle_inputs extra task completed now : within R (settle_session_inputs extra task completed now).
Proof. unfold settle_session_inputs, promotable_pending, list_inputs. walk. Qed.
Hint Resolve walk_settle_inputs : walk.

Lemma walk_write_request_grant request answer_id now_text now : within R (write_request_grant request answer_id now_text now).
Proof. unfold write_request_grant, write_standing_grant. walk. Qed.
Lemma walk_apply_plan_grant session_id request_id turn_id plan mode now_text now :
  within R (apply_plan_grant session_id request_id turn_id plan mode now_text now).
Proof. unfold apply_plan_grant. walk. Qed.
Hint Resolve walk_write_request_grant walk_apply_plan_grant : walk.
Lemma walk_approve_answer input request task turn_id own approval now_text :
  within R (approve_answer input request task turn_id own approval now_text).
Proof. unfold approve_answer, room_for_grant, requeue_task, save. walk. Qed.
Lemma walk_plain_answer input request task turn_id approval now_text :
  within R (plain_answer input request task turn_id approval now_text).
Proof. unfold plain_answer, last_message_of_run, requeue_task, append_answer, save. walk. Qed.
Hint Resolve walk_approve_answer walk_plain_answer : walk.
Lemma walk_answer input : within R (answer_human_request input).
Proof. unfold answer_human_request, replay_answer, get_input. walk. Qed.
Lemma walk_park input : within R (park_turn input).
Proof. unfold park_turn, save. walk. Qed.
Lemma walk_project_inputs input : within R (append_projected_inputs input).
Proof. unfold append_projected_inputs, apply_steer, get_input. walk. Qed.
Hint Resolve walk_answer walk_park walk_project_inputs : walk.

(** *** The operations of a teammate *)

Lemma walk_admit facts input : within R (admit_teammate_task facts input).
Proof. unfold admit_teammate_task, admit_new, read_admission. walk. Qed.
Lemma walk_reconcile_one now task : within R (reconcile_one now task).
Proof. unfold reconcile_one, land_cancelled, abandon_running_attempts, save. walk. Qed.
Hint Resolve walk_admit walk_reconcile_one : walk.

Lemma exec_within op : (apart_op op = true → within R (exec op)) → within R (exec op).
Proof.
  intros Hapart. destruct (apart_op op) eqn:Hd; [by apply Hapart|clear Hapart].
  destruct op; try discriminate Hd; clear Hd; simpl; unfold ignore, submit, submit_turn,
    append_events, append_projected, append_message, claim_with_concurrency, acquire_lease,
    check_dispatch, renew, update_progress, checkpoint_runtime_state, submit_child,
    settle, settle_session, settle_inner, check_descriptor, retry_task, cancel_task, resume_task, recover,
    recover_lease, recover_orphan, interrupt_queued, interrupt_one, transition_task,
    create_attempt, Ports.end_attempt, interrupt_task, mark_dead_lettered,
    renew_lease_by_token, release_lease, lease_by_token, expire_stale_leases, activate_path,
    create_input, transition_input_op, enqueue_outbox, set_setting, revoke_standing_approval,
    request_interrupt, park_interrupted, stage_queued_turn, queue_or_stage_turn, request_compact,
    wait_for_children, continue_after_children, mark_uncertain, resolve_uncertain, reconcile_agent_runs,
    enqueue_agent_mailbox, promote_next_agent_mailbox, cancel_agent_mailbox, get_input, save; walk.
Qed.
End walk.

(** ** Relations that ignore a table *)

(** The tables [π] reads are untouched. *)
Definition same {T} (π : Db → T) (d d' : Db) : Prop := π d' = π d.
#[export] Instance same_preorder {T} (π : Db → T) : PreOrder (same π).
Proof. split; unfold same; [done|congruence]. Qed.

Class Contains (Q R : Db → Db → Prop) := contains d d' : Q d d' → R d d'.
#[export] Hint Mode Contains - ! : typeclass_instances.

Lemma within_same {T} (π : Db → T) R `{!Contains (same π) R} {A} (m : M A) :
  within (same π) m → within R m.
Proof. intros H d a d' E. apply contains. eauto. Qed.

(** The two deletions, from the statements they are made of. *)
Lemma within_delete_by_scope {host : Host} R `{!PreOrder R} scope_id :
  (∀ t, within R (delete_task t)) → within R (delete_by_scope scope_id).
Proof. intros Ht. unfold delete_by_scope. within_auto. Qed.

Lemma within_delete_chat {host : Host} R `{!PreOrder R} chat_id :
  (∀ t, within R (delete_task t)) → (∀ id, within R (delete_proposal id)) →
  within R (modify (delete_chat_rows chat_id) : M unit) → within R (delete_row (A := ChatRecord) chat_id) →
  within R (delete_chat chat_id).
Proof. intros Ht Hp Hm Hc. unfold delete_chat. within_auto. Qed.

Lemma within_append_from {host : Host} R `{!PreOrder R} task_id previous events now :
  (∀ record, within R (TaskEvents.insert record now)) →
  within R (append_from task_id previous events now).
Proof.
  intros H. revert previous. induction events as [|e l IH]; intros previous; simpl; within_auto.
Qed.

Lemma within_events_append {host : Host} R `{!PreOrder R} task_id events now :
  (∀ l d, R d (d <| db_events := l |>)) → (∀ input at_, within R (enqueue input at_)) →
  within R (TaskEvents.append task_id events now).
Proof.
  intros He Ho. unfold TaskEvents.append, TaskEvents.last, stamp_identities, checked_envelope.
  within_auto; apply within_append_from; try done; intros record; unfold TaskEvents.insert,
    insert_event; within_auto; try done; try (apply within_modify; intros; apply He).
  all: intros ? ? ? H; inv_st; reflexivity.
Qed.

(** Take a program apart down to its statements, each closed by [tac]. *)
Ltac stmt_step tac :=
  match goal with
  | |- within _ (mbind _ _) => apply within_bind; [typeclasses eauto| |intros ?]
  | |- within _ (if ?b then _ else _) => destruct b eqn:?
  | |- within _ (match ?x with _ => _ end) => destruct x eqn:?
  | |- within _ (for_each _ _) => apply within_for_each; [typeclasses eauto|intros ? ?]
  | |- within _ (for_map _ _) => apply within_for_map; [typeclasses eauto|intros ? ?]
  | |- within _ (map_err _ _) => apply within_map_err
  | |- within _ (savepoint _ _) => apply within_savepoint; [typeclasses eauto|]
  | |- within _ (update_row _) => apply within_update_row; intros; tac
  | |- within _ (insert_row _) => apply within_insert_row; intros; tac
  | |- within _ (upsert_row _) => apply within_upsert_row; intros; tac
  | |- within _ (delete_row _) => apply within_delete_row; intros; tac
  | |- within _ (modify _) => apply within_modify; intros; tac
  | |- within _ fresh => intros ? ? ? [= _ <-]; tac
  | |- within _ (λ d, lift _ d) => let H := fresh in intros ? ? ? H; inv_st; reflexivity
  | |- within _ (activate _) => unfold activate, chat_messages, activation, save_message
  | |- within _ (Conversations.append _ _) =>
      unfold Conversations.append, chat_messages, order_key_free, touch_chat
  | |- within _ (project _ _) => unfold project, save_message, touch_chat
  | |- within _ (create_chat _ _ _ _) => unfold create_chat
  | |- within _ (update_chat _ _ _ _ _) => unfold update_chat
  | |- within _ (set_metadata _ _ _) => unfold set_metadata
  | |- within _ (finalize_message _ _) => unfold finalize_message
  | |- within _ (enqueue _ _) => unfold enqueue
  | |- within _ (claim_outbox _ _ _ _ _) => unfold claim_outbox, claim_record
  | |- within _ (finish_outbox _ _ _ _) => unfold finish_outbox
  | |- within _ (mark_outbox_published _ _) => unfold mark_outbox_published
  | |- within _ (mark_outbox_failed _ _ _) => unfold mark_outbox_failed
  | |- within _ (prune_outbox _ _) => unfold prune_outbox
  | |- within _ (TaskEvents.append _ _ _) =>
      unfold TaskEvents.append, TaskEvents.last, stamp_identities, checked_envelope
  | |- within _ (append_from _ _ _ _) => apply within_append_from; [typeclasses eauto|];
      intros; unfold TaskEvents.insert, insert_event
  | |- within _ (insert_input _ _) => unfold insert_input, next_order
  | |- within _ (transition_input _ _ _ _ _) => unfold transition_input, get_input
  | |- within _ (insert_mailbox _ _) => unfold insert_mailbox, next_order, get_input
  | |- within _ (delete_session_inputs _) => unfold delete_session_inputs
  | |- within _ (delete_by_scope _) => unfold delete_by_scope, delete_task
  | |- within _ (delete_task _) => unfold delete_task
  | |- within _ (delete_proposal _) => unfold delete_proposal
  | |- within _ (save_message _) => unfold save_message
  | |- within _ (import_conversation _) => unfold import_conversation, import_row, order_key_free
  | |- within _ (fork_chat _ _ _ _) => unfold fork_chat
  | |- within _ (fork_path _ _ _) => apply within_fork_path; typeclasses eauto
  | |- within _ (delete_chat _) => unfold delete_chat
  | |- within _ (update_message _ _ _ _ _ _) => unfold update_message
  | |- within _ (archive_branch _) => unfold archive_branch, chat_messages
  | |- within _ (create_proposal _) => unfold create_proposal
  | |- within _ (transition_proposal _ _ _ _ _) => unfold transition_proposal
  | |- within _ (complete_proposal _ _ _ _) => unfold complete_proposal
  | |- within _ (finalize_apply _) => unfold finalize_apply
  | |- within _ (claimed_proposal _ _) => unfold claimed_proposal
  | |- within _ (record_outcome _ _ _) => unfold record_outcome
  | |- within _ (get_receipt _) => unfold get_receipt
  | |- within _ (insert_receipt _ _) => unfold insert_receipt
  | |- within _ (delete_proposals_by_chat _) => unfold delete_proposals_by_chat, delete_proposal
  | |- within _ (invalidate_pending _ _) => unfold invalidate_pending
  | |- within _ (Proposals.save _) => unfold Proposals.save
  | |- within _ _ => solve [eauto with st typeclass_instances]
  end.
Ltac stmt_steps tac := repeat stmt_step tac.

(** The statements a table is not written by, for an instance of
    [StoreSteps]. *)
Ltac by_same π := intros; lazymatch goal with
  | |- within _ _ => apply (within_same π); [typeclasses eauto|solve [stmt_steps ltac:(idtac; reflexivity)] ]
  | |- _ => refine (contains (Q := same π) _ _ _); reflexivity
  end.

(** The outbox is untouched and identifiers are only minted. *)
Definition mints {T} (π : Db → T) (d d' : Db) : Prop :=
  π d' = π d ∧ (d.(db_uuids) ≤ d'.(db_uuids))%nat.
#[export] Instance mints_preorder {T} (π : Db → T) : PreOrder (mints π).
Proof.
  split; [by split|]. intros d1 d2 d3 [E1 ?] [E2 ?]. split; [congruence|lia].
Qed.
Lemma within_mints {T} (π : Db → T) R `{!Contains (mints π) R} {A} (m : M A) :
  within (mints π) m → within R m.
Proof. intros H d a d' E. apply contains. eauto. Qed.

Ltac by_mints π := intros; lazymatch goal with
  | |- within _ _ => apply (within_mints π); [typeclasses eauto|
      solve [stmt_steps ltac:(idtac; (split; [reflexivity|simpl; lia]))] ]
  | |- _ => refine (contains (Q := mints π) _ _ _); split; [reflexivity|simpl; lia]
  end.
