(* ===== verification/InputLaws.v ===== *)
(** * Session inputs: one outcome, one order, one creation

    What every operation of the store keeps of the durable inputs of
    [agent_inputs.rs]. *)

From S2P Require Export Walk.
From S2P Require Import TaskOps.
Local Open Scope Z_scope.

(** How one input row may change. *)
Record input_evolves (i i' : AgentInputRecord) : Prop := {
  ie_id : i'.(i_input_id) = i.(i_input_id);
  ie_session : i'.(i_session_id) = i.(i_session_id);
  ie_agent : i'.(i_agent_id) = i.(i_agent_id);
  ie_kind : i'.(i_kind) = i.(i_kind);
  ie_hash : i'.(i_content_hash) = i.(i_content_hash);
  ie_content : i'.(i_content) = i.(i_content)
    ∨ i'.(i_content) = javascript_json_value i.(i_content);
  ie_order : - max_safe ≤ i.(i_order) ≤ max_safe → i'.(i_order) = i.(i_order);
  ie_target : i'.(i_target_task_id) = i.(i_target_task_id);
  ie_outcome : i.(i_status) ≠ Pending → i'.(i_answer_id) = i.(i_answer_id)
    ∧ i'.(i_applied_message_id) = i.(i_applied_message_id) ∧ i'.(i_applied_task_id) = i.(i_applied_task_id);
  ie_status : i'.(i_status) = i.(i_status)
    ∨ i.(i_status) = Pending ∧ i'.(i_status) ∈ agent_input_targets i.(i_kind)
}.

Lemma targets_not_pending kind : Pending ∉ agent_input_targets kind.
Proof. eapply bool_decide_eq_false_1. by destruct kind. Qed.

#[export] Instance input_evolves_preorder : PreOrder input_evolves.
Proof.
  split; [by intros i; split; auto|]. intros i1 i2 i3 [] []. split; try congruence.
  - destruct ie_content0 as [E|E], ie_content1 as [E'|E']; rewrite E', E; auto.
    right. apply javascript_json_idempotent.
  - intros Hs. rewrite <-(ie_order0 Hs). apply ie_order1. by rewrite (ie_order0 Hs).
  - intros Hp. destruct (ie_outcome0 Hp) as (<- & <- & <-). apply ie_outcome1.
    destruct ie_status0 as [->|[? _]]; [done|congruence].
  - destruct ie_status1 as [->|[Hp Ht]]; [done|]. destruct ie_status0 as [E|[_ Hn]].
    + right. split; congruence.
    + rewrite Hp in Hn. by apply targets_not_pending in Hn.
Qed.

Section laws.
Context {host : Host}.

(** A stored row is the written one up to the JSON of its content. *)
Lemma json_input_evolves b i j : json_input b i = Ok j → input_evolves i j.
Proof.
  unfold json_input. intros H. inv_res. split; simpl; auto.
  - unfold json_value. destruct b; auto.
  - intros Hs. match goal with H : json_i64 _ = Ok _ |- _ => apply json_int_Ok in H as [-> _] end.
    by apply js_int_safe.
Qed.

(** *** No input is lost or moved illegally *)

Definition inputs_evolve (d d' : Db) : Prop := ∀ id i, find_row id d.(db_inputs) = Some i →
  ∃ i', find_row id d'.(db_inputs) = Some i' ∧ input_evolves i i'.

#[export] Instance inputs_evolve_preorder : PreOrder inputs_evolve.
Proof.
  split.
  - intros d id i ?. by exists i.
  - intros d1 d2 d3 H1 H2 id i (i2 & (i3 & ? & ?)%H2 & ?)%H1. exists i3. split; [done|].
    by trans i2.
Qed.

#[export] Instance same_inputs_evolve : Contains (same db_inputs) inputs_evolve.
Proof. intros d d' E id i ?. rewrite E. by exists i. Qed.

Lemma insert_input_evolves input now_text : within inputs_evolve (insert_input input now_text).
Proof.
  unfold insert_input. within_auto; [unfold next_order; by by_same db_inputs|].
  apply within_insert_row. intros d j Hj Hf id i Hi. simpl. exists i.
  by rewrite find_row_app, Hi.
Qed.

Lemma insert_mailbox_evolves agent_id input : within inputs_evolve (insert_mailbox agent_id input).
Proof.
  unfold insert_mailbox, get_input. within_auto; [unfold next_order; by by_same db_inputs|].
  apply within_insert_row. intros d j Hj Hf id i Hi. simpl. exists i.
  by rewrite find_row_app, Hi.
Qed.

Lemma transition_input_Ok id from to patch now_text d r d' :
  transition_input id from to patch now_text d = Ok (r, d') →
  ∃ i j, find_row id d.(db_inputs) = Some i ∧ i.(i_status) ∈ from ∧ i.(i_status) = Pending
    ∧ to ∈ agent_input_targets i.(i_kind) ∧ r = moved_input to patch now_text i
    ∧ json_input d.(db_file) r = Ok j ∧ d' = d <| db_inputs := replace_row j d.(db_inputs) |>.
Proof.
  unfold transition_input, get_input. intros H. inv_st.
  match goal with H : get _ _ = _ |- _ => apply st_gets_Ok in H as [-> ->] end.
  match goal with H : update_row _ _ = _ |- _ => apply update_row_Ok in H as (j & Hj & ->) end.
  match goal with H : ok_or _ _ = _ |- _ => rename H into Hf end. simpl in *.
  destruct (find_row id (db_inputs d)) as [i|]; [|done]. injection Hf as <-.
  match goal with H : assert_agent_input_transition _ _ _ = _ |- _ => rename H into Ha end.
  unfold assert_agent_input_transition, legal_input_edge in Ha.
  destruct (bool_decide (i_status i ∈ from)) eqn:Hfrom; [|done].
  destruct (bool_decide (i_status i = Pending)) eqn:Hp; [|done].
  destruct (bool_decide (to ∈ agent_input_targets (i_kind i))) eqn:Ht; [|done].
  rewrite bool_decide_eq_true in Hfrom, Hp, Ht. by exists i, j.
Qed.

Lemma transition_input_evolves id from to patch now_text :
  within inputs_evolve (transition_input id from to patch now_text).
Proof.
  intros d r d' (i & j & Hf & _ & Hp & Ht & -> & Hj & ->)%transition_input_Ok id' i' Hi'.
  simpl. rewrite find_row_replace, Hi'.
  pose proof (json_input_evolves _ _ _ Hj) as Hev.
  apply find_row_Some in Hf as Hid. destruct Hid as [_ Hid].
  assert (row_key j = id) as Hk by (simpl in *; by rewrite (ie_id _ _ Hev)).
  rewrite Hk. destruct (String.eqb_spec id id') as [->|]; [|by exists i'].
  simplify_eq. exists j. split; [done|]. etrans; [|exact Hev]. split; simpl; auto. by intros ?.
Qed.

#[export] Instance inputs_evolve_steps : StoreSteps inputs_evolve.
Proof.
  split; [apply _|..].
  all: lazymatch goal with
    | |- context [insert_input] => apply insert_input_evolves
    | |- context [insert_mailbox] => apply insert_mailbox_evolves
    | |- context [transition_input] => apply transition_input_evolves
    | |- _ => by_same db_inputs
    end.
Qed.

(** The operation that drops inputs. *)
Definition keeps_inputs (op : Op) : bool :=
  match op with OpDeleteSessionInputs _ => false | _ => true end.

Lemma inputs_evolve_run ops d : forallb keeps_inputs ops = true → inputs_evolve d (run ops d).
Proof.
  intros Hk. apply run_within; [apply _|]. intros op Hop.
  rewrite forallb_forall in Hk. apply list_elem_of_In, Hk in Hop.
  apply exec_within; [apply _|]. intros Hd. destruct op; try discriminate Hd; try discriminate Hop;
    simpl; unfold ignore; by_same db_inputs.
Qed.

(** *** Order keys *)

(** Rows are in creation order: their keys ascend and the counter is ahead. *)
Definition orders_ok (d : Db) : Prop :=
  NoDup (map i_input_id d.(db_inputs)) ∧ 0 ≤ d.(db_input_order) ∧ StronglySorted Z.lt (map i_order d.(db_inputs))
  ∧ ∀ i, i ∈ d.(db_inputs) → 1 ≤ i.(i_order) ≤ d.(db_input_order).

Definition orders_step (d d' : Db) : Prop :=
  d.(db_input_order) ≤ d'.(db_input_order)
  ∧ (d'.(db_input_order) ≤ max_safe → orders_ok d → orders_ok d').

#[export] Instance orders_step_preorder : PreOrder orders_step.
Proof.
  split; unfold orders_step; [by intros d|]. intros d1 d2 d3 [? H1] [? H2].
  split; [lia|]. intros Hs Hok. apply H2, H1; [done|lia|done].
Qed.

Definition order_tables (d : Db) := (d.(db_inputs), d.(db_input_order)).
#[export] Instance same_orders_step : Contains (same order_tables) orders_step.
Proof.
  intros d d' E. injection E as E1 E2. unfold orders_step, orders_ok. rewrite E1, E2. done.
Qed.

(** A row stored under the next key. *)
Lemma next_row_orders {A} (f : Z → AgentInputRecord) (r : Z → A) : (∀ o, i_order (f o) = o) →
  within orders_step (order ← next_order; _ ← insert_row (f order); mret (r order)).
Proof.
  intros Hf d a d' H. inv_st. match goal with H : next_order _ = _ |- _ => unfold next_order in H end. inv_st.
  match goal with H : insert_row _ _ = _ |- _ => apply insert_row_Ok in H as (j & Hj & Hfr & ->) end.
  match goal with H : ok_or _ _ = Ok ?n |- _ => rename H into Hn; rename n into next end.
  unfold checked_add_i64 in Hn. destruct (checked _ _ _) eqn:C; [|done]. injection Hn as ->.
  apply checked_Some in C as [-> ?]. split; simpl; [lia|].
  intros Hs (Hnd & H0 & Hsort & Hall). pose proof (json_input_evolves _ _ _ Hj) as Hev.
  assert (i_order j = db_input_order d + 1) as Ej
    by (pose proof (ie_order _ _ Hev) as Ho; rewrite Hf in Ho; apply Ho; unfold max_safe in *; lia).
  split; [|split; [simpl; lia|]]; simpl; [|split].
  - pose proof (insert_row_NoDup j (db_inputs d)) as K. simpl in K. apply K; [exact Hnd|].
    simpl in *. rewrite (ie_id _ _ Hev). exact Hfr.
  - rewrite map_app. simpl. apply StronglySorted_app_2; [|done|by repeat constructor].
    intros o ? (i & -> & Hi)%list_elem_of_fmap ->%list_elem_of_singleton.
    apply Hall in Hi. lia.
  - intros i [Hi | ->%list_elem_of_singleton]%elem_of_app; [|lia]. apply Hall in Hi. lia.
Qed.
Lemma insert_input_orders input now_text : within orders_step (insert_input input now_text).
Proof.
  unfold insert_input. do 2 (apply within_bind; [apply _|by by_same order_tables|intros ?]). destruct a0; [by_same order_tables|].
  by apply next_row_orders.
Qed.
Lemma insert_mailbox_orders agent_id input : within orders_step (insert_mailbox agent_id input).
Proof.
  unfold insert_mailbox, get_input. do 4 (apply within_bind; [apply _|by by_same order_tables|intros ?]).
  destruct a2; [by_same order_tables|]. apply within_bind; [apply _|by by_same order_tables|intros ?]. by apply next_row_orders.
Qed.

(** Replacing a row keeps what the new row shares with the old one. *)
Lemma transition_input_orders id from to patch now_text :
  within orders_step (transition_input id from to patch now_text).
Proof.
  intros d r d' (i & j & Hf & _ & _ & _ & -> & Hj & ->)%transition_input_Ok. split; [done|].
  simpl. intros Hs (Hnd & H0 & Hsort & Hall). pose proof (json_input_evolves _ _ _ Hj) as Hev.
  apply find_row_Some in Hf as Hid. destruct Hid as [Hi Hid].
  assert (i_order j = i_order i) as Eo.
  { apply Hev. simpl. apply Hall in Hi. unfold max_safe in *. lia. }
  assert (map i_order (replace_row j (db_inputs d)) = map i_order (db_inputs d)) as Em.
  { pose proof (replace_row_map (B := Z) i_order i j (db_inputs d)) as K. simpl in K.
    apply K; [done| | |exact Eo].
    - simpl in *. rewrite Hid. exact Hf.
    - exact (ie_id _ _ Hev). }
  unfold orders_ok. simpl. rewrite Em. split; [|split; [done|split; [done|]]].
  - pose proof (replace_row_keys j (db_inputs d)) as K. simpl in K. by rewrite K.
  - intros i' Hi'. assert (i_order i' ∈ map i_order (db_inputs d)) as Ho
      by (rewrite <-Em; by apply list_elem_of_fmap_2).
    apply list_elem_of_fmap in Ho as (i0 & -> & Hi0). by apply Hall.
Qed.

#[export] Instance orders_step_steps : StoreSteps orders_step.
Proof.
  split; [apply _|..].
  all: lazymatch goal with
    | |- context [insert_input] => apply insert_input_orders
    | |- context [insert_mailbox] => apply insert_mailbox_orders
    | |- context [transition_input] => apply transition_input_orders
    | |- _ => by_same order_tables
    end.
Qed.

Lemma delete_inputs_orders session_id : within orders_step (delete_session_inputs session_id).
Proof.
  unfold delete_session_inputs. within_auto. apply within_delete_row. intros d. split; [done|].
  intros _ (Hnd & H0 & Hsort & Hall). split; [|split; [done|split] ].
  - pose proof (remove_row_NoDup (i_input_id a0) (db_inputs d)) as K. by apply K.
  - apply sorted_map, sorted_filter, sorted_map, Hsort.
  - intros i [Hi _]%elem_of_remove_row. by apply Hall.
Qed.

Lemma orders_run ops file :
  let d := run ops (empty_db file) in d.(db_input_order) ≤ max_safe → orders_ok d.
Proof.
  intros d Hs. assert (orders_step (empty_db file) d) as [_ H].
  { apply run_within; [apply _|]. intros op _. apply exec_within; [apply _|]. intros Hd.
    destruct op; try discriminate Hd; simpl; unfold ignore.
    all: try by_same order_tables.
    apply within_bind; [apply _|apply delete_inputs_orders|]. intros _. apply within_ret, _. }
  apply H; [done|]. split; [apply NoDup_nil_2|]. split; [done|]. split; [constructor|].
  by intros i ?%elem_of_nil.
Qed.

(** An input has one outcome.  Whatever runs after it was stored, short of
    dropping the session's inputs, it is still there with its session, kind,
    content and place in the queue, and its status is the one it had, or a
    target its kind allows from [Pending]: an applied, converted, answered or
    cancelled input never moves again. *)
Theorem input_settles_once d ops id i :
  forallb keeps_inputs ops = true → find_row id d.(db_inputs) = Some i →
  ∃ i', find_row id (run ops d).(db_inputs) = Some i' ∧ input_evolves i i'
    ∧ (i.(i_status) ≠ Pending → i'.(i_status) = i.(i_status)).
Proof.
  intros Hk Hi. destruct (inputs_evolve_run ops d Hk id i Hi) as (i' & ? & Hev).
  exists i'. split_and!; [done..|]. intros Hp. by destruct (ie_status _ _ Hev) as [|[? _] ].
Qed.

(** The queue is first in, first out.  In every reachable store a listing
    returns the matching inputs in the order they were created in (the order
    of their rows), under distinct ascending order keys. *)
Theorem list_inputs_fifo file ops query :
  let d := run ops (empty_db file) in
  d.(db_input_order) ≤ max_safe →
  ∃ l, list_inputs query d = Ok (l, d) ∧ l = filter_by (input_matches query) d.(db_inputs)
    ∧ StronglySorted (λ i j, i.(i_order) < j.(i_order)) l.
Proof.
  intros d (_ & _ & Hsort & _)%orders_run. fold d in Hsort.
  apply sorted_map, (sorted_filter (λ r, input_matches query r = true)) in Hsort as Hl.
  exists (filter_by (input_matches query) d.(db_inputs)). split; [|done].
  unfold list_inputs, select, gets, mbind, st_bind. simpl. unfold mret, st_ret. do 2 f_equal.
  apply sort_by_id. eapply sorted_weaken; [|exact Hl].
  intros i j Hij. unfold input_le. apply Z.leb_le. simpl in Hij. lia.
Qed.

(** *** Idempotent creation *)

(** The same request: the fields the code compares. *)
Definition same_request (a b : CreateAgentInput) : Prop :=
  a.(cr_input_id) = b.(cr_input_id) ∧ a.(cr_session_id) = b.(cr_session_id)
  ∧ a.(cr_kind) = b.(cr_kind) ∧ a.(cr_content_hash) = b.(cr_content_hash).

Lemma insert_input_Ok input now_text d r d1 :
  insert_input input now_text d = Ok ((r, true), d1) →
  ∃ j, find_row input.(cr_input_id) d1.(db_inputs) = Some j ∧ input_evolves r j
    ∧ r.(i_session_id) = input.(cr_session_id) ∧ r.(i_kind) = input.(cr_kind)
    ∧ r.(i_content_hash) = input.(cr_content_hash) ∧ r.(i_agent_id) = None
    ∧ r.(i_status) = Pending.
Proof.
  intros H. unfold insert_input in H. inv_st.
  match goal with H : get _ _ = _ |- _ => apply st_gets_Ok in H as [-> ->] end. simpl in *.
  destruct (find_row (cr_input_id input) (db_inputs d)) eqn:E.
  { destruct (input_conflicts _ _); by inv_st. }
  inv_st. match goal with H : next_order _ = _ |- _ => unfold next_order in H end. inv_st.
  match goal with H : insert_row _ _ = _ |- _ => apply insert_row_Ok in H as (j & Hj & Hf & ->) end.
  match goal with H : (_, _) = (_, _) |- _ => injection H as -> end.
  exists j. simpl in *. pose proof (json_input_evolves _ _ _ Hj) as Hev. split_and!; try done.
  rewrite find_row_app, E. unfold find_row. simpl. by rewrite (ie_id _ _ Hev), String.eqb_refl.
Qed.

Lemma insert_input_again input now_text d j :
  validate_create_agent_input input = Ok tt → find_row input.(cr_input_id) d.(db_inputs) = Some j →
  insert_input input now_text d =
    if input_conflicts j input then
      Err (Duplicate ("input_conflict: input " +:+ input.(cr_input_id)
          +:+ " already exists with different kind, session, or content."))
    else Ok ((j, false), d).
Proof.
  intros Hv Hf. unfold insert_input, lift, get, gets, mbind, st_bind. rewrite Hv. simpl.
  rewrite Hf. by destruct (input_conflicts j input).
Qed.

Lemma input_conflicts_spec j input :
  input_conflicts j input = false ↔
  j.(i_session_id) = input.(cr_session_id) ∧ j.(i_kind) = input.(cr_kind)
  ∧ j.(i_content_hash) = input.(cr_content_hash) ∧ j.(i_agent_id) = None.
Proof.
  unfold input_conflicts. rewrite !orb_false_iff, !negb_false_iff, !String.eqb_eq, bool_decide_eq_true.
  destruct (i_agent_id j); simpl; intuition congruence.
Qed.

(** Creation is idempotent on the input id.  Once a creation has stored an
    input, repeating the request, at any time and whatever ran in between
    short of dropping the session's inputs, changes nothing and answers with
    the stored input as it now is; a request that reuses the id for another
    session, kind or content is refused as a duplicate. *)
Theorem create_input_idempotent input now d r d1 ops input' now' now_text :
  create_input input now d = Ok ((r, true), d1) → forallb keeps_inputs ops = true →
  input'.(cr_input_id) = input.(cr_input_id) → text_of now' = Ok now_text →
  validate_create_agent_input input' = Ok tt →
  let d2 := run ops d1 in
  (same_request input input' →
    ∃ r', create_input input' now' d2 = Ok ((r', false), d2) ∧ input_evolves r r')
  ∧ (¬ same_request input input' →
    ∃ message, create_input input' now' d2 = Err (Duplicate message)).
Proof.
  intros Hc Hk Hid Ht Hv d2. unfold create_input in Hc. inv_st.
  match goal with H : insert_input _ _ _ = _ |- _ =>
    apply insert_input_Ok in H as (j & Hj & Hev & Es & Ek & Eh & Ea & _) end.
  destruct (inputs_evolve_run ops d1 Hk _ _ Hj) as (j' & Hj' & Hev').
  assert (input_evolves r j') as Hr by by trans j. rewrite <-Hid in Hj'. fold d2 in Hj'.
  assert (create_input input' now' d2 = insert_input input' now_text d2) as ->.
  { unfold create_input, lift, mbind, st_bind. by rewrite Ht. }
  rewrite (insert_input_again input' now_text d2 j' Hv Hj').
  assert (input_conflicts j' input' = false ↔ same_request input input') as Hcf.
  { rewrite input_conflicts_spec. unfold same_request. destruct Hr. split; intros; split_and!;
      destruct_and?; congruence. }
  destruct (input_conflicts j' input').
  - split; [|eauto]. intros Hs. by apply Hcf in Hs.
  - split; [eauto|]. intros Hn. exfalso. apply Hn. by apply Hcf.
Qed.
End laws.

(** ** Witnesses *)

Section witnesses.
#[local] Existing Instance example_host.

Definition ex_steer (id hash : string) : CreateAgentInput :=
  mkCreateInput id "chat" Steer (VStr "text") hash None None None None None.
Definition ex_input_ops : list Op :=
  [OpCreateInput (ex_steer "i1" "h1") 0; OpCreateInput (ex_steer "i2" "h2") 1;
   OpTransitionInput "i1" [Pending] Applied (mkInputPatch None None None) 2].
End witnesses.

Lemma input_settles_once_witness :
  let host := example_host in
  ∃ i', find_row "i1" (run [OpTransitionInput "i1" [Pending] Converted (mkInputPatch None None None) 3]
      (run ex_input_ops (empty_db true))).(db_inputs) = Some i' ∧ i'.(i_status) = Applied.
Proof.
  intros host. destruct (find_row "i1" (run ex_input_ops (empty_db true)).(db_inputs)) as [i|] eqn:E;
    [|vm_compute in E; discriminate E].
  destruct (input_settles_once (run ex_input_ops (empty_db true))
    [OpTransitionInput "i1" [Pending] Converted (mkInputPatch None None None) 3] "i1" i)
    as (i' & Hi' & _ & Hs); [reflexivity|exact E|].
  exists i'. split; [exact Hi'|]. vm_compute in E. injection E as <-. by apply Hs.
Defined.

Lemma list_inputs_fifo_witness :
  let host := example_host in
  ∃ l, list_inputs (mkInputQuery "chat" None None None) (run ex_input_ops (empty_db true))
      = Ok (l, run ex_input_ops (empty_db true)) ∧ map i_input_id l = ["i1"; "i2"].
Proof.
  intros host.
  destruct (list_inputs_fifo true ex_input_ops (mkInputQuery "chat" None None None))
    as (l & Hl & El & _); [vm_compute; discriminate|].
  exists l. split; [exact Hl|]. rewrite El. vm_compute. reflexivity.
Defined.

Lemma create_input_idempotent_witness :
  let host := example_host in
  ∃ r d1, create_input (ex_steer "i1" "h1") 0 (empty_db true) = Ok ((r, true), d1)
    ∧ (∃ r', create_input (ex_steer "i1" "h1") 5 (run [OpInterruptQueued 4] d1)
        = Ok ((r', false), run [OpInterruptQueued 4] d1))
    ∧ ∃ m, create_input (ex_steer "i1" "other") 5 (run [OpInterruptQueued 4] d1) = Err (Duplicate m).
Proof.
  intros host.
  destruct (create_input (ex_steer "i1" "h1") 0 (empty_db true)) as [ [ [r b] d1]|] eqn:E;
    [|vm_compute in E; discriminate E].
  assert (b = true) as -> by (vm_compute in E; injection E as _ <- _; reflexivity).
  exists r, d1. split; [reflexivity|]. split.
  - destruct (create_input_idempotent (ex_steer "i1" "h1") 0 _ r d1 [OpInterruptQueued 4]
      (ex_steer "i1" "h1") 5 "1970-01-01T00:00:00.005Z" E) as [H _]; try reflexivity.
    destruct H as (r' & Hr' & _); [by split_and!|]. exists r'. exact Hr'.
  - destruct (create_input_idempotent (ex_steer "i1" "h1") 0 _ r d1 [OpInterruptQueued 4]
      (ex_steer "i1" "other") 5 "1970-01-01T00:00:00.005Z" E) as [_ H]; try reflexivity.
    apply H. intros (_ & _ & _ & Hh). discriminate Hh.
Defined.
