(* ===== verification/OutboxLaws.v ===== *)
(** * Outbox delivery: who may finish a record

    A claim of [data.rs] hands out a record under a fresh token and a
    delivery window.  The window is exclusive, and a token that has been
    replaced is refused for ever. *)

From S2P Require Export Walk.
From S2P Require Import TaskOps.
Local Open Scope Z_scope.

Section laws.
Context {host : Host}.

(** A stored record keeps everything but the JSON of its payload, as long as
    its instants are safe integers. *)
Lemma json_outbox_kept b o j : json_outbox b o = Ok j →
  j.(o_id) = o.(o_id) ∧ j.(o_claim_token) = o.(o_claim_token)
  ∧ j.(o_attempts) = o.(o_attempts)
  ∧ (∀ e, o.(o_claim_until) = Some e → - max_safe ≤ e ≤ max_safe → j.(o_claim_until) = Some e)
  ∧ is_some j.(o_published_at) = is_some o.(o_published_at).
Proof.
  unfold json_outbox. intros H. inv_res. simpl. split_and!; try done.
  - intros e He Hs.
    match goal with H : json_oi64 (o_claim_until o) = _ |- _ => rewrite He in H; simpl in H end.
    inv_res. match goal with H : json_i64 e = Ok _ |- _ => apply json_int_Ok in H as [-> _] end.
    by rewrite js_int_safe.
  - destruct (o_published_at o); simpl in *; by inv_res.
Qed.

Lemma json_outbox_Err b o e : json_outbox b o = Err e → ∃ message, e = Json message.
Proof.
  unfold json_outbox, json_oi64, json_i64, json_int, mbind, res_bind, mret, res_ret.
  intros H. repeat case_match; simplify_eq; eauto.
Qed.

(** ** Spent tokens *)

(** The record [id] may be finished under the token [uuid n]. *)
Definition token_held (id : string) (n : nat) (d : Db) : Prop :=
  ∃ o, o ∈ d.(db_outbox) ∧ o.(o_id) = id ∧ o.(o_claim_token) = Some (uuid n).

(** A token that was minted and is not held. *)
Definition token_spent (id : string) (n : nat) (d : Db) : Prop :=
  (n < d.(db_uuids))%nat ∧ ¬ token_held id n d.

Section spent.
Variables (id : string) (n : nat).

#[local] Instance mints_spent : Contains (mints db_outbox) (keeps (token_spent id n)).
Proof.
  intros d d' [E ?]. unfold keeps, token_spent, token_held. rewrite E. intros [? ?].
  split; [lia|done].
Qed.

Lemma fresh_spent : within (keeps (token_spent id n)) fresh.
Proof. intros d t d' [= _ <-] [? H]. split; simpl; [lia|exact H]. Qed.

(** Writing a row that does not hold the token. *)
Lemma update_spent r d :
  r.(o_claim_token) ≠ Some (uuid n) →
  ∀ u d', update_row r d = Ok (u, d') → token_spent id n d → token_spent id n d'.
Proof.
  intros Ht u d' (j & Hj & ->)%update_row_Ok [? H]. split; [done|].
  apply json_outbox_kept in Hj as (_ & Et & _).
  intros (o & [ [-> _]|[Ho _] ]%elem_of_replace_row & Hid & Ho'); [congruence|].
  apply H. by exists o.
Qed.

Lemma enqueue_spent input now : within (keeps (token_spent id n)) (enqueue input now).
Proof.
  unfold enqueue. within_auto; [apply fresh_spent|].
  apply within_insert_row. intros d j Hj _ [? H]. split; [done|].
  apply json_outbox_kept in Hj as (_ & Et & _). simpl in Et.
  intros (o & [Ho | ->%list_elem_of_singleton]%elem_of_app & Hid & Ho'); [|congruence].
  apply H. by exists o.
Qed.

Lemma claim_record_spent owner expires r :
  within (keeps (token_spent id n)) (claim_record owner expires r).
Proof.
  intros d r' d' H Hs. unfold claim_record in H. inv_st.
  match goal with H : fresh _ = _ |- _ => injection H as <- <- end.
  eapply update_spent; [|eassumption|].
  - simpl. intros [= E]. apply uuid_inj in E. destruct Hs. lia.
  - eapply (fresh_spent d); [reflexivity|done].
Qed.

Lemma claim_outbox_spent owner now ttl limit max :
  within (keeps (token_spent id n)) (claim_outbox owner now ttl limit max).
Proof.
  unfold claim_outbox. within_auto. apply claim_record_spent.
Qed.

(** A record of the table, written back with its token or none. *)
Lemma rewrite_spent x r d :
  x ∈ d.(db_outbox) → r.(o_id) = x.(o_id) →
  r.(o_claim_token) = x.(o_claim_token) ∨ r.(o_claim_token) = None →
  ∀ u d', update_row r d = Ok (u, d') → token_spent id n d → token_spent id n d'.
Proof.
  intros Hx Hid Ht u d' (j & Hj & ->)%update_row_Ok [? Hh]. split; [done|].
  apply json_outbox_kept in Hj as (Ei & Et & _).
  intros (o & [ [-> _]|[Ho _] ]%elem_of_replace_row & Ho' & Hto); apply Hh; [|by exists o].
  exists x. split; [done|]. split; [congruence|]. destruct Ht; congruence.
Qed.

Ltac rewrite_spent := intros d u d' H Hs; inv_op; simpl in *;
  match goal with H : find_row _ (db_outbox d) = Some _ |- _ => apply find_row_Some in H as [? _] end;
  split; [by apply Hs|]; destruct Hs as [_ Hh];
  intros (o & [ [-> _]|[? _] ]%elem_of_replace_row & ? & ?); apply Hh; [|by exists o];
  match goal with H : json_outbox _ _ = Ok _ |- _ =>
    apply json_outbox_kept in H as (? & ? & _) end; simpl in *; try congruence;
  eexists; split_and!; first [eassumption|congruence].

Lemma finish_spent oid token now failure :
  within (keeps (token_spent id n)) (finish_outbox oid token now failure).
Proof. unfold finish_outbox. rewrite_spent. Qed.
Lemma published_spent oid now : within (keeps (token_spent id n)) (mark_outbox_published oid now).
Proof. unfold mark_outbox_published. rewrite_spent. Qed.
Lemma failed_spent oid error retry :
  within (keeps (token_spent id n)) (mark_outbox_failed oid error retry).
Proof. unfold mark_outbox_failed. rewrite_spent. Qed.

Lemma drop_spent d d' :
  (d.(db_uuids) ≤ d'.(db_uuids))%nat → (∀ o, o ∈ d'.(db_outbox) → o ∈ d.(db_outbox)) →
  token_spent id n d → token_spent id n d'.
Proof.
  intros Hu Ho [? H]. split; [lia|]. intros (o & ? & ? & ?). apply H. exists o. auto.
Qed.

#[local] Instance spent_steps : StoreSteps (keeps (token_spent id n)).
Proof.
  split; [apply _|..].
  all: lazymatch goal with
    | |- context [enqueue] => apply enqueue_spent
    | |- context [TaskEvents.append] =>
        intros; apply within_events_append; [apply _| |intros; apply enqueue_spent]
    | |- _ => by_mints db_outbox
    end.
  by_mints db_outbox.
Qed.

Lemma delete_task_spent t : within (keeps (token_spent id n)) (delete_task t).
Proof.
  unfold delete_task. within_auto; apply within_modify; intros d;
    refine (drop_spent _ _ _ _); [done| |done|done]. intros o. simpl. by intros [_ ?]%list_elem_of_filter.
Qed.

Lemma exec_spent op : within (keeps (token_spent id n)) (exec op).
Proof.
  apply exec_within; [apply _|]. intros Hd. destruct op; try discriminate Hd; simpl; unfold ignore; try by_mints db_outbox.
  - within_auto. apply within_delete_by_scope; [apply _|]. apply delete_task_spent.
  - within_auto. apply claim_outbox_spent.
  - apply finish_spent.
  - apply published_spent.
  - apply failed_spent.
  - unfold prune_outbox. within_auto. apply within_delete_row. intros d. refine (drop_spent _ _ _ _); [done|].
    intros o. simpl. by intros [? _]%elem_of_remove_row.
  - apply within_delete_chat; [apply _|apply delete_task_spent|..]; by_mints db_outbox.
Qed.
End spent.

(** A replaced delivery token is dead.  Once a token has been minted and
    no record of its id holds it (the delivery window ran out and another
    worker claimed the record, or the record was published, failed or
    pruned), finishing the record under it is refused after every further
    sequence of operations. *)
Theorem outbox_token_spent d ops id n now failure :
  token_spent id n d →
  finish_outbox id (uuid n) now failure (run ops d) = Err (NotFound id)
  ∨ finish_outbox id (uuid n) now failure (run ops d) = Err (InvalidInput "outbox claim lost").
Proof.
  intros Hs. assert (token_spent id n (run ops d)) as [_ Hh].
  { revert Hs. apply (run_within (keeps (token_spent id n)) ops). intros op _. apply exec_spent. }
  unfold finish_outbox, required, get, gets, mbind, st_bind, lift. simpl.
  destruct (find_row id (db_outbox (run ops d))) as [o|] eqn:E; [right|by left]. simpl.
  destruct (ostr_eqb (o_claim_token o) (Some (uuid n))) eqn:Et; [|done].
  exfalso. apply Hh. apply find_row_Some in E as [? ?]. exists o. split_and!; [done..|].
  by apply bool_decide_eq_true in Et.
Qed.

(** ** Live claims *)

Definition outbox_keys (d : Db) : Prop := NoDup (map o_id d.(db_outbox)).

(** The record [id] is claimed under [tok] until [e] and unpublished. *)
Definition claim_live (id tok : string) (e : Z) (d : Db) : Prop :=
  ∃ o, find_row id d.(db_outbox) = Some o ∧ o.(o_claim_token) = Some tok
    ∧ o.(o_claim_until) = Some e ∧ o.(o_published_at) = None.

Definition live (id tok : string) (e : Z) (d : Db) : Prop :=
  outbox_keys d ∧ claim_live id tok e d.

Lemma update_outbox_keys (r : OutboxRecord) d u d' : update_row r d = Ok (u, d') → outbox_keys d → outbox_keys d'.
Proof.
  intros (j & _ & ->)%update_row_Ok. unfold outbox_keys.
  pose proof (replace_row_keys j (db_outbox d)) as K. simpl in *. by rewrite K.
Qed.

Lemma update_outbox_other r d u d' id :
  update_row r d = Ok (u, d') → r.(o_id) ≠ id →
  find_row id d'.(db_outbox) = find_row id d.(db_outbox).
Proof.
  intros (j & Hj & ->)%update_row_Ok Hne. apply json_outbox_kept in Hj as (Ei & _).
  simpl. rewrite find_row_replace. simpl. rewrite Ei. by destruct (String.eqb_spec (o_id r) id).
Qed.

Lemma enqueue_outbox_table input now d r d' :
  enqueue input now d = Ok (r, d') →
  ∃ j, d'.(db_outbox) = d.(db_outbox) ++ [j] ∧ find_row j.(o_id) d.(db_outbox) = None.
Proof.
  unfold enqueue. intros H. inv_st.
  match goal with H : insert_row _ _ = _ |- _ => apply insert_row_Ok in H as (j & Hj & Hf & ->) end.
  apply json_outbox_kept in Hj as (Ei & _). exists j.
  destruct (oi_id input); [inv_st|match goal with H : fresh _ = _ |- _ => injection H as <- <- end];
    simpl in *; split; try done; by rewrite Ei.
Qed.

Lemma enqueue_keys input now : within (keeps outbox_keys) (enqueue input now).
Proof.
  intros d r d' (j & E & Hf)%enqueue_outbox_table Hk. unfold outbox_keys. rewrite E.
  pose proof (insert_row_NoDup j (db_outbox d)) as K. by apply K.
Qed.

Lemma enqueue_live id tok e input now : within (keeps (live id tok e)) (enqueue input now).
Proof.
  intros d r d' H [Hk (o & Ho & Hl)]. split; [by eapply enqueue_keys|].
  apply enqueue_outbox_table in H as (j & E & _). exists o. split; [|done].
  rewrite E, find_row_app. by rewrite Ho.
Qed.

(** *** A claim over the due rows *)

(** What the row of a claimed record looks like. *)
Definition claimed_as (expires : Z) (x r : OutboxRecord) (d d' : Db) : Prop :=
  r.(o_id) = x.(o_id) ∧ r.(o_claim_until) = Some expires ∧ r.(o_published_at) = x.(o_published_at)
  ∧ is_some r.(o_claim_token) = true
  ∧ ∃ j, json_outbox d.(db_file) r = Ok j ∧ find_row x.(o_id) d'.(db_outbox) = Some j.

Lemma claim_record_Ok owner expires x d r d' :
  find_row x.(o_id) d.(db_outbox) = Some x → claim_record owner expires x d = Ok (r, d') →
  claimed_as expires x r d d' ∧ db_file d' = db_file d
  ∧ (∀ id, id ≠ x.(o_id) → find_row id d'.(db_outbox) = find_row id d.(db_outbox)).
Proof.
  intros Hx H. unfold claim_record in H. inv_st.
  match goal with H : fresh _ = _ |- _ => injection H as <- <- end.
  match goal with H : update_row ?r0 _ = _ |- _ => set (r1 := r0) in *;
    pose proof (λ id, update_outbox_other _ _ _ _ id H) as Hoth;
    apply update_row_Ok in H as (j & Hj & ->) end.
  pose proof (json_outbox_kept _ _ _ Hj) as (Ei & _). simpl in Ei.
  split; [|split; [done|] ].
  - split_and!; try done. exists j. split; [done|]. simpl. rewrite find_row_replace. simpl.
    rewrite Ei, String.eqb_refl. simpl in Hx. by rewrite Hx.
  - intros id Hne. apply Hoth. intros Eq. by apply Hne.
Qed.

Lemma claim_records_Ok owner expires l d rs d' :
  NoDup (map o_id l) → (∀ x, x ∈ l → find_row x.(o_id) d.(db_outbox) = Some x) →
  for_map (claim_record owner expires) l d = Ok (rs, d') →
  db_file d' = db_file d
  ∧ (∀ r, r ∈ rs → ∃ x, x ∈ l ∧ claimed_as expires x r d d')
  ∧ (∀ id, id ∉ map o_id l → find_row id d'.(db_outbox) = find_row id d.(db_outbox)).
Proof.
  revert d rs. induction l as [|x l IH]; intros d rs Hnd Hl H; simpl in H.
  { inv_st. split_and!; [done| |done]. by intros r ?%elem_of_nil. }
  inv_st. simpl in Hnd. apply NoDup_cons in Hnd as [Hx Hnd].
  match goal with H : claim_record _ _ _ _ = Ok (?r, ?d0) |- _ => rename r into r1; rename d0 into d1;
    apply claim_record_Ok in H as (Hc & Hf1 & Ho1); [|apply Hl; left] end.
  match goal with H : for_map _ _ _ = _ |- _ => apply IH in H as (Hf & Hrs & Ho); [|done|] end.
  - split_and!; [congruence| |].
    + intros r [-> |Hr]%elem_of_cons.
      * exists x. split; [left|]. destruct Hc as (? & ? & ? & ? & j & ? & ?).
        split_and!; try done. exists j. split; [done|]. by rewrite Ho.
      * destruct (Hrs _ Hr) as (y & Hy & ? & ? & ? & ? & j & ? & ?). exists y. split; [by right|].
        split_and!; try done. exists j. split; [congruence|done].
    + intros id Hid. rewrite map_cons, not_elem_of_cons in Hid. destruct Hid.
      by rewrite Ho, Ho1.
  - intros y Hy. rewrite Ho1; [apply Hl; by right|]. intros Eq. apply Hx. rewrite <-Eq.
    by apply list_elem_of_fmap_2.
Qed.

(** The rows a claim takes: due ones, at most one per id. *)
Lemma claim_outbox_Ok owner now ttl limit max d rs d' :
  outbox_keys d → claim_outbox owner now ttl limit max d = Ok (rs, d') →
  ∃ l, NoDup (map o_id l) ∧ (∀ x, x ∈ l → x ∈ d.(db_outbox) ∧ outbox_due now max x = true)
    ∧ for_map (claim_record owner (now + ttl)) l d = Ok (rs, d').
Proof.
  intros Hk H. unfold claim_outbox in H. inv_st.
  match goal with H : select _ _ = _ |- _ => apply st_gets_Ok in H as [-> ->] end.
  match goal with H : checked_expiry _ _ = _ |- _ => apply checked_expiry_Ok in H as (_ & -> & _) end.
  eexists. split; [|split; [|eassumption] ].
  - apply NoDup_map_take. rewrite sort_by_perm. by apply NoDup_map_filter.
  - intros x Hx%elem_of_subseteq_take. rewrite elem_of_sort_by, elem_of_filter_by in Hx.
    by destruct Hx.
Qed.

(** *** What leaves a live claim alone *)

(** Anything but an unfenced mark of the record, a finish under its token, a
    prune or deletion that reaches it, or a claim after the window. *)
Definition leaves_claim (id tok : string) (e : Z) (op : Op) : bool :=
  match op with
  | OpFinishOutbox id' tok' _ _ => negb (String.eqb id' id && String.eqb tok' tok)
  | OpMarkOutboxPublished id' _ | OpMarkOutboxFailed id' _ _ => negb (String.eqb id' id)
  | OpClaimOutbox _ now _ _ _ => now <? e
  | OpPruneOutbox before _ => before <=? e
  | OpDeleteByScope _ | OpDeleteChat _ => false
  | _ => true
  end.

Section live.
Variables (id tok : string) (e : Z).

#[local] Instance same_live : Contains (same db_outbox) (keeps (live id tok e)).
Proof. intros d d' E. unfold keeps, live, outbox_keys, claim_live. by rewrite E. Qed.

Lemma rewrite_live (r x : OutboxRecord) d u d' :
  find_row x.(o_id) d.(db_outbox) = Some x → r.(o_id) = x.(o_id) →
  x.(o_id) ≠ id ∨ x.(o_claim_token) ≠ Some tok →
  update_row r d = Ok (u, d') → live id tok e d → live id tok e d'.
Proof.
  intros Hx Hid Hne Hu [Hk (o & Ho & Ht & He & Hp)].
  split; [by eapply update_outbox_keys|]. exists o. split; [|done].
  erewrite update_outbox_other; [exact Ho|exact Hu|]. intros Eq.
  assert (o = x) as -> by (rewrite <-Hid, Eq in Hx; congruence).
  destruct Hne as [Hne|Hne]; [by apply Hne; rewrite <-Hid|done].
Qed.

Lemma finish_live oid otok now failure :
  negb (String.eqb oid id && String.eqb otok tok) = true →
  within (keeps (live id tok e)) (finish_outbox oid otok now failure).
Proof.
  intros Hne d u d' H. unfold finish_outbox in H. inv_st.
  match goal with H : required _ _ = _ |- _ => apply required_Ok in H as [Hx ->] end.
  pose proof (find_row_Some _ _ _ Hx) as [_ Hid]. simpl in *.
  match goal with H : _ && _ = true |- _ => apply andb_true_iff in H as [Ht _] end.
  apply bool_decide_eq_true in Ht.
  intros Hl. eapply (rewrite_live _ x); [by rewrite Hid| | |exact H|exact Hl].
  - by destruct failure as [ [??] |].
  - apply negb_true_iff, andb_false_iff in Hne as [Hne|Hne]; apply String.eqb_neq in Hne;
      [left|right]; congruence.
Qed.

Lemma published_live oid now :
  negb (String.eqb oid id) = true → within (keeps (live id tok e)) (mark_outbox_published oid now).
Proof.
  intros Hne%negb_true_iff%String.eqb_neq d u d' H. unfold mark_outbox_published in H. inv_st.
  match goal with H : required _ _ = _ |- _ => apply required_Ok in H as [Hx ->] end.
  pose proof (find_row_Some _ _ _ Hx) as [_ Hid]. simpl in *.
  intros Hl. eapply (rewrite_live _ x); [by rewrite Hid| |left; congruence|exact H|exact Hl]; done.
Qed.

Lemma failed_live oid error retry :
  negb (String.eqb oid id) = true → within (keeps (live id tok e)) (mark_outbox_failed oid error retry).
Proof.
  intros Hne%negb_true_iff%String.eqb_neq d u d' H. unfold mark_outbox_failed in H. inv_st.
  match goal with H : required _ _ = _ |- _ => apply required_Ok in H as [Hx ->] end.
  pose proof (find_row_Some _ _ _ Hx) as [_ Hid]. simpl in *.
  intros Hl. eapply (rewrite_live _ x); [by rewrite Hid| |left; congruence|exact H|exact Hl]; done.
Qed.

(** A live record is not due. *)
Lemma live_not_due now max o :
  o.(o_claim_until) = Some e → now < e → outbox_due now max o = false.
Proof.
  intros He Hn. unfold outbox_due. rewrite He. simpl.
  destruct (Z.leb_spec e now); [lia|]. by rewrite andb_false_r.
Qed.

Lemma claimed_others owner now ttl limit max d rs d' :
  outbox_keys d → claim_outbox owner now ttl limit max d = Ok (rs, d') →
  now < e → claim_live id tok e d →
  find_row id d'.(db_outbox) = find_row id d.(db_outbox) ∧ ∀ r, r ∈ rs → r.(o_id) ≠ id.
Proof.
  intros Hk Hc Hn (o & Ho & _ & He & _).
  apply claim_outbox_Ok in Hc as (l & Hnd & Hl & Hc); [|done].
  assert (∀ x, x ∈ l → x.(o_id) ≠ id) as Hids.
  { intros x Hx Eq. apply Hl in Hx as [Hx Hdue].
    pose proof (find_row_elem _ x Hk Hx) as Hfx. simpl in Hfx. rewrite Eq, Ho in Hfx.
    injection Hfx as ->. by rewrite (live_not_due _ _ _ He Hn) in Hdue. }
  apply claim_records_Ok in Hc as (_ & Hr & Ho'); [|done|].
  - split.
    + apply Ho'. intros (x & Ex & Hx)%list_elem_of_fmap. by apply (Hids x).
    + intros r (x & Hx & Eq & _)%Hr. rewrite Eq. by apply Hids.
  - intros x Hx. apply Hl in Hx as [Hx _]. exact (find_row_elem _ x Hk Hx).
Qed.

Lemma claim_outbox_keys owner now ttl limit max :
  within (keeps outbox_keys) (claim_outbox owner now ttl limit max).
Proof.
  unfold claim_outbox, claim_record. within_auto.
  - by intros d t d' [= _ <-] Hk.
  - intros d u d' Hu. exact (update_outbox_keys _ _ _ _ Hu).
Qed.

Lemma claim_live_kept owner now ttl limit max :
  (now <? e) = true → within (keeps (live id tok e)) (claim_outbox owner now ttl limit max).
Proof.
  intros Hn%Z.ltb_lt d rs d' H [Hk Hl]. split; [by eapply claim_outbox_keys|].
  destruct (claimed_others _ _ _ _ _ _ _ _ Hk H Hn Hl) as [E _].
  destruct Hl as (o & Ho & Hrest). exists o. by rewrite E.
Qed.

Lemma delete_live (r : OutboxRecord) :
  r.(o_id) ≠ id → within (keeps (live id tok e)) (delete_row (A := OutboxRecord) r.(o_id)).
Proof.
  intros Hr. apply within_delete_row. intros d [Hk (o & Ho & Hrest)].
  split; [exact (remove_row_NoDup (o_id r) (db_outbox d) Hk)|]. exists o. split; [|done].
  simpl. rewrite find_row_remove. by destruct (String.eqb_spec (o_id r) id).
Qed.

Lemma prune_live before max :
  (before <=? e) = true → within (keeps (live id tok e)) (prune_outbox before max).
Proof.
  intros Hb%Z.leb_le d n d' Hr Hl. unfold prune_outbox in Hr. inv_st.
  match goal with H : select _ _ = _ |- _ => apply st_gets_Ok in H as [-> ->] end.
  match goal with H : for_each _ _ _ = _ |- _ =>
    apply (within_for_each (keeps (live id tok e))) in H; [by apply H|] end.
  intros r Hr. apply delete_live. apply elem_of_filter_by in Hr as [Hpr Hr]. intros Eq.
  destruct Hl as [Hk (o & Ho & _ & He & Hp)].
  pose proof (find_row_elem _ r Hk Hr) as Hfr. simpl in Hfr. rewrite Eq, Ho in Hfr.
  injection Hfr as ->. unfold prunable in Hpr. rewrite Hp, He in Hpr. simpl in Hpr.
  destruct (Z.ltb_spec e before); [lia|]. by rewrite !andb_false_r in Hpr.
Qed.

#[local] Instance live_steps : StoreSteps (keeps (live id tok e)).
Proof.
  split; [apply _|..].
  all: lazymatch goal with
    | |- context [enqueue] => apply enqueue_live
    | |- context [TaskEvents.append] =>
        intros; apply within_events_append; [apply _| |intros; apply enqueue_live]
    | |- _ => by_same db_outbox
    end.
  by_same db_outbox.
Qed.

Lemma exec_live op : leaves_claim id tok e op = true → within (keeps (live id tok e)) (exec op).
Proof.
  intros Hop. apply exec_within; [apply _|]. intros Hd.
  destruct op; try discriminate Hd; try discriminate Hop; simpl in *; unfold ignore; try by_same db_outbox.
  - apply within_bind; [apply _|by apply claim_live_kept|]. intros. apply within_ret, _.
  - by apply finish_live.
  - by apply published_live.
  - by apply failed_live.
  - apply within_bind; [apply _|by apply prune_live|]. intros. apply within_ret, _.
Qed.
End live.

(** Keys stay distinct. *)
#[local] Instance same_outbox_keys : Contains (same db_outbox) (keeps outbox_keys).
Proof. intros d d' E. unfold keeps, outbox_keys. by rewrite E. Qed.

#[local] Instance outbox_keys_steps : StoreSteps (keeps outbox_keys).
Proof.
  split; [apply _|..].
  all: lazymatch goal with
    | |- context [enqueue] => apply enqueue_keys
    | |- context [TaskEvents.append] =>
        intros; apply within_events_append; [apply _| |intros; apply enqueue_keys]
    | |- _ => by_same db_outbox
    end.
  by_same db_outbox.
Qed.

Lemma delete_task_keys t : within (keeps outbox_keys) (delete_task t).
Proof.
  unfold delete_task. within_auto; apply within_modify; intros d Hk; [by apply NoDup_map_filter|exact Hk].
Qed.

Lemma exec_outbox_keys op : within (keeps outbox_keys) (exec op).
Proof.
  apply exec_within; [apply _|]. intros Hd.
  destruct op; try discriminate Hd; simpl; unfold ignore, delete_by_scope,
    finish_outbox, mark_outbox_published, mark_outbox_failed, prune_outbox;
    try by_same db_outbox; try (apply within_delete_chat; [apply _|apply delete_task_keys|..];
      by_same db_outbox); within_auto; try apply delete_task_keys;
    try (apply claim_outbox_keys || (intros d u d' Hu; exact (update_outbox_keys _ _ _ _ Hu))).
  apply within_delete_row. intros d Hk. by apply NoDup_map_filter.
Qed.

Lemma outbox_keys_run ops file : outbox_keys (run ops (empty_db file)).
Proof.
  assert (outbox_keys (empty_db file)) as H by apply NoDup_nil_2. revert H.
  apply (run_within (keeps outbox_keys) ops). intros op _. apply exec_outbox_keys.
Qed.

(** A delivery window is exclusive.  A record a claim handed out is handed
    out to nobody else before its window ends, and its holder can still
    finish it under its token, whatever runs in between short of an unfenced
    mark of the record, a finish under the same token, or a prune or deletion
    that drops it. *)
Theorem outbox_claim_exclusive file before owner now ttl limit max rs d1 r tok after :
  let d := run before (empty_db file) in
  claim_outbox owner now ttl limit max d = Ok (rs, d1) → r ∈ rs → r.(o_claim_token) = Some tok →
  - max_safe ≤ now + ttl ≤ max_safe →
  forallb (leaves_claim r.(o_id) tok (now + ttl)) after = true →
  let d2 := run after d1 in
  (∀ owner' now' ttl' limit' max' rs' d3, now' < now + ttl →
    claim_outbox owner' now' ttl' limit' max' d2 = Ok (rs', d3) →
    ∀ r', r' ∈ rs' → r'.(o_id) ≠ r.(o_id))
  ∧ ∀ now' failure, now' < now + ttl →
      finish_outbox r.(o_id) tok now' failure d2 ≠ Err (InvalidInput "outbox claim lost").
Proof.
  intros d Hc Hr Htok Hs Hops d2. pose proof (outbox_keys_run before file) as Hk. fold d in Hk.
  assert (live r.(o_id) tok (now + ttl) d2) as [Hk2 Hl2].
  { assert (live r.(o_id) tok (now + ttl) d1) as Hl.
    { split; [by eapply claim_outbox_keys|].
      apply claim_outbox_Ok in Hc as (l & Hnd & Hl & Hc); [|done].
      apply claim_records_Ok in Hc as (_ & Hrs & _); [|done|].
      2: { intros x [Hx _]%Hl. exact (find_row_elem _ x Hk Hx). }
      destruct (Hrs _ Hr) as (x & Hx & Hid & Hu & Hp & _ & j & Hj & Hf).
      apply json_outbox_kept in Hj as (_ & Ht & _ & Hju & Hjp).
      exists j. rewrite Hid. split; [done|]. split; [congruence|]. split; [by apply Hju|].
      apply Hl in Hx as [_ Hdue]. unfold outbox_due in Hdue. rewrite Hp in Hjp.
      destruct (o_published_at x); [done|]. by destruct (o_published_at j). }
    revert Hl. apply (run_within (keeps (live _ tok _)) after). intros op Hop.
    rewrite forallb_forall in Hops. by apply list_elem_of_In, Hops in Hop; apply exec_live. }
  split.
  - intros owner' now' ttl' limit' max' rs' d3 Hn Hc'. by eapply claimed_others.
  - intros now' failure Hn. destruct Hl2 as (o & Ho & Ht & Hu & _).
    unfold finish_outbox, required, get, gets, mbind, st_bind, lift. simpl. rewrite Ho. simpl.
    rewrite Ht, Hu. unfold ostr_eqb. rewrite bool_decide_true by done. simpl.
    destruct (Z.leb_spec (now + ttl) now'); [lia|]. simpl.
    unfold update_row, to_json, mbind, st_bind, lift. simpl.
    destruct (json_outbox _ _) as [j|e] eqn:E; [done|]. by apply json_outbox_Err in E as [m ->].
Qed.
End laws.

(** ** Settings *)

Lemma setting_get_put ns key v l n k :
  setting_get n k (setting_put ns key v l) =
    if bool_decide (n = ns ∧ k = key) then Some v else setting_get n k l.
Proof.
  induction l as [|[ [n0 k0] w] l IH]; simpl.
  - destruct (String.eqb_spec ns n), (String.eqb_spec key k); simpl; case_bool_decide as Hb;
      try destruct Hb as [? ?]; subst; try done; exfalso; by apply Hb.
  - destruct (String.eqb n0 ns && String.eqb k0 key) eqn:E; simpl.
    + apply andb_true_iff in E as [->%String.eqb_eq ->%String.eqb_eq].
      destruct (String.eqb_spec ns n), (String.eqb_spec key k); simpl; case_bool_decide as Hb;
      try destruct Hb as [? ?]; subst; try done; exfalso; by apply Hb.
    + rewrite IH. destruct (String.eqb n0 n && String.eqb k0 k) eqn:E'; [|done].
      apply andb_true_iff in E' as [->%String.eqb_eq ->%String.eqb_eq].
      rewrite bool_decide_false; [done|]. intros [-> ->]. by rewrite !String.eqb_refl in E.
Qed.

(** Compare-and-set: it writes exactly when the stored document equals the
    expected one, what it writes reads back in the normal form of a stored
    document, and no other key moves; so of two writers that expect the same
    document, the second is refused unless the first wrote that document
    again. *)
Theorem compare_and_set_wins_once ns key expected next d wrote d' :
  compare_and_set_setting ns key expected next d = Ok (wrote, d') →
  wrote = ovalue_eqb (setting_get ns key d.(db_settings)) expected
  ∧ (wrote = false → d' = d)
  ∧ (wrote = true →
      setting_get ns key d'.(db_settings) = Some (json_value d.(db_file) next)
      ∧ (∀ n k, (n, k) ≠ (ns, key) →
          setting_get n k d'.(db_settings) = setting_get n k d.(db_settings))
      ∧ (ovalue_eqb (Some (json_value d.(db_file) next)) expected = false →
          ∀ other, compare_and_set_setting ns key expected other d' = Ok (false, d'))).
Proof.
  unfold compare_and_set_setting, get_setting. intros H. inv_st.
  destruct (ovalue_eqb (setting_get ns key (db_settings d)) expected) eqn:E; simpl in H; inv_st.
  2: { by split_and!. }
  split_and!; [done..|]. intros _.
  match goal with H : set_setting _ _ _ _ = _ |- _ => apply st_modify_Ok in H as -> end.
  simpl. rewrite setting_get_put, bool_decide_true by done. split_and!; [done| |].
  - intros n k Hne. rewrite setting_get_put, bool_decide_false; [done|]. intros [-> ->]. done.
  - intros Hne other. unfold gets, mbind, st_bind. simpl.
    rewrite setting_get_put, bool_decide_true by done.
    destruct expected; simpl in *; by rewrite ?Hne.
Qed.

(** ** Witnesses *)

Section witnesses.
#[local] Existing Instance example_host.

(** Two records, claimed at 10 for 100. *)
Definition ex_outbox : Db :=
  run [OpEnqueueOutbox (mkOutboxInput (Some "a") "topic" None VNull 0) 0;
       OpEnqueueOutbox (mkOutboxInput (Some "b") "topic" None VNull 0) 1] (empty_db true).
End witnesses.

Lemma outbox_claim_exclusive_witness :
  let host := example_host in
  ∃ rs d1 r, claim_outbox "w" 10 100 1 3 ex_outbox = Ok (rs, d1) ∧ r ∈ rs
    ∧ finish_outbox r.(o_id) "id0" 50 None (run [OpClaimOutbox "v" 20 100 5 3] d1)
      ≠ Err (InvalidInput "outbox claim lost").
Proof.
  intros host. destruct (claim_outbox "w" 10 100 1 3 ex_outbox) as [ [rs d1]|] eqn:E;
    [|vm_compute in E; discriminate E].
  destruct rs as [|r rs]; [vm_compute in E; discriminate E|].
  exists (r :: rs), d1, r. split; [reflexivity|]. split; [left|].
  destruct (outbox_claim_exclusive true
    [OpEnqueueOutbox (mkOutboxInput (Some "a") "topic" None VNull 0) 0;
     OpEnqueueOutbox (mkOutboxInput (Some "b") "topic" None VNull 0) 1]
    "w" 10 100 1 3 (r :: rs) d1 r "id0" [OpClaimOutbox "v" 20 100 5 3]) as [_ H].
  - exact E.
  - left.
  - vm_compute in E. injection E as <- _ _. reflexivity.
  - vm_compute. split; discriminate.
  - reflexivity.
  - apply H. reflexivity.
Defined.

Lemma outbox_token_spent_witness :
  let host := example_host in
  let d := run [OpClaimOutbox "w" 10 100 1 3; OpClaimOutbox "v" 110 100 1 3] ex_outbox in
  finish_outbox "a" (uuid 0) 120 None (run [OpInterruptQueued 5] d) = Err (NotFound "a")
  ∨ finish_outbox "a" (uuid 0) 120 None (run [OpInterruptQueued 5] d)
    = Err (InvalidInput "outbox claim lost").
Proof.
  intros host d. apply (outbox_token_spent d [OpInterruptQueued 5] "a" 0). split.
  - vm_compute. lia.
  - intros (o & Ho & Hid & Ht). revert Hid Ht. vm_compute in Ho.
    apply elem_of_cons in Ho as [-> |Ho%list_elem_of_singleton]; [|subst o]; discriminate.
Defined.

Lemma compare_and_set_wins_once_witness :
  compare_and_set_setting "ns" "k" (Some (VStr "b")) (VStr "c")
    (run (host := example_host) [OpSetSetting "ns" "k" (VStr "a")] (empty_db true))
  = Ok (false, run (host := example_host) [OpSetSetting "ns" "k" (VStr "a")] (empty_db true)).
Proof.
  destruct (compare_and_set_setting "ns" "k" (Some (VStr "b")) (VStr "c")
    (run (host := example_host) [OpSetSetting "ns" "k" (VStr "a")] (empty_db true)))
    as [ [w d']|] eqn:E; [|vm_compute in E; discriminate E].
  destruct (compare_and_set_wins_once _ _ _ _ _ _ _ E) as (Hw & Hd & _).
  assert (w = false) as -> by (rewrite Hw; vm_compute; reflexivity). by rewrite Hd.
Defined.

(** ** The event log *)

(** Of two events of one task, the earlier row has the smaller sequence
    number and another event id. *)
Definition log_lt (e f : EventRecord) : Prop := e.(e_task_id) = f.(e_task_id) →
  (e.(e_seq) < f.(e_seq))%Qc ∧ event_id e.(e_event) ≠ event_id f.(e_event).

Definition log_ok (d : Db) : Prop := StronglySorted log_lt d.(db_events).

(** No event of the task is past [previous]. *)
Definition log_below (task_id : string) (previous : Qc) (d : Db) : Prop :=
  ∀ e, e ∈ d.(db_events) → e.(e_task_id) = task_id → (e.(e_seq) ≤ previous)%Qc.

Lemma as_str_stored b v : as_str (json_value b v) = as_str v.
Proof. destruct b; [|done]. by destruct v as [|?|[]|?|?|?]. Qed.

Lemma event_id_stored b v : event_id (json_value b v) = event_id v.
Proof.
  destruct b; [|done]. unfold event_id, vindex. simpl. destruct v as [|?|[]|?|?|o]; try done.
  rewrite javascript_json_object. simpl. rewrite obj_get_normal, obj_get_sorted.
  destruct (obj_get "eventId" o) as [v|]; [|done]. simpl. apply (as_str_stored true).
Qed.

Lemma elem_of_task_events task_id d e :
  e ∈ task_events task_id d ↔ e.(e_task_id) = task_id ∧ e ∈ d.(db_events).
Proof. unfold task_events. by rewrite elem_of_filter_by, String.eqb_eq. Qed.

Lemma Qc_max_le a b : (a ≤ Qc_max a b ∧ b ≤ Qc_max a b)%Qc.
Proof.
  unfold Qc_max. case_bool_decide; [split; [done|apply Qcle_refl]|].
  split; [apply Qcle_refl|]. apply Qcnot_le_lt in H. by apply Qclt_le_weak.
Qed.

Lemma max_seq_le l e : e ∈ l → (e.(e_seq) ≤ max_seq l)%Qc.
Proof.
  induction l as [|f l IH]; [by intros ?%elem_of_nil|].
  intros [-> |He]%elem_of_cons; simpl; [apply Qc_max_le|].
  eapply Qcle_trans; [by apply IH|apply Qc_max_le].
Qed.

Section laws.
Context {host : Host}.

(** The rows a successful append adds to the log and to the outbox. *)
Definition mirrors (e : EventRecord) (o : OutboxRecord) : Prop :=
  o.(o_topic) = "task.events" ∧ o.(o_run_id) = Some e.(e_task_id) ∧ o.(o_payload) = e.(e_event)
  ∧ o.(o_published_at) = None.

Lemma insert_event_Ok record d u d' :
  insert_event record d = Ok (u, d') →
  ∃ j, json_event d.(db_file) record = Ok j ∧ d' = d <| db_events := d.(db_events) ++ [j] |>
    ∧ is_some (event_id record.(e_event)) = true
    ∧ ∀ e, e ∈ d.(db_events) → e.(e_task_id) = record.(e_task_id) →
        e.(e_seq) ≠ record.(e_seq) ∧ event_id e.(e_event) ≠ event_id record.(e_event).
Proof.
  unfold insert_event. intros H. inv_st.
  match goal with H : ok_or _ _ = Ok ?x |- _ => rename H into Hid; rename x into id end.
  match goal with H : json_event _ _ = Ok ?j |- _ => exists j; rename H into Hj end.
  match goal with H : negb _ = true |- _ => apply negb_true_iff in H; rename H into Hfree end.
  destruct (event_id (e_event record)) as [id'|]; [injection Hid as ->|done].
  split_and!; [done..|]. intros e He Ht.
  assert (e ∈ task_events (e_task_id record) d) as Hin by by apply elem_of_task_events.
  pose proof (proj1 (existsb_false _ _) Hfree e Hin) as Hf.
  apply orb_false_iff in Hf as [Hs%bool_decide_eq_false Hi%bool_decide_eq_false]. done.
Qed.

Lemma json_event_kept b e j : json_event b e = Ok j →
  j.(e_task_id) = e.(e_task_id) ∧ j.(e_seq) = e.(e_seq) ∧ j.(e_event) = json_value b e.(e_event).
Proof. unfold json_event. intros H. by inv_res. Qed.

Lemma enqueue_events input now : within (same db_events) (enqueue input now).
Proof. stmt_steps ltac:(idtac; reflexivity). Qed.

(** One event: the log stays ordered and nothing of the task passes it. *)
Lemma insert_log record now d u d' previous :
  TaskEvents.insert record now d = Ok (u, d') → (previous < record.(e_seq))%Qc →
  log_below record.(e_task_id) previous d → log_ok d →
  log_ok d' ∧ log_below record.(e_task_id) record.(e_seq) d'.
Proof.
  intros H Hlt Hb Hok. unfold TaskEvents.insert in H. inv_st.
  match goal with H : insert_event _ _ = _ |- _ =>
    apply insert_event_Ok in H as (j & Hj & -> & _ & Hfree) end.
  match goal with H : enqueue _ _ _ = _ |- _ => apply enqueue_events in H as E end.
  unfold same in E. simpl in E. apply json_event_kept in Hj as (Et & Es & Ee).
  unfold log_ok, log_below. rewrite E. split.
  - apply StronglySorted_app_2; [|done|by repeat constructor].
    intros e ? He ->%list_elem_of_singleton Htask. rewrite Es, Ee, event_id_stored.
    rewrite Et in Htask. destruct (Hfree e He Htask) as [_ ?]. split; [|done].
    eapply Qcle_lt_trans; [by apply Hb|done].
  - intros e [He| ->%list_elem_of_singleton]%elem_of_app Htask; [|rewrite Es; apply Qcle_refl].
    apply Qclt_le_weak. eapply Qcle_lt_trans; [by apply Hb|done].
Qed.

Lemma append_from_log task_id previous events now d rs d' :
  append_from task_id previous events now d = Ok (rs, d') →
  log_below task_id previous d → log_ok d → log_ok d'.
Proof.
  revert previous d rs. induction events as [|event events IH]; intros previous d rs H Hb Hok;
    simpl in H; inv_st; [done|].
  match goal with H : next_seq _ _ = Ok ?q |- _ => rename H into Hn; rename q into seq end.
  unfold next_seq in Hn. destruct (javascript_number _ ≫= finite) as [q|]; [|done].
  destruct (bool_decide (previous < q)%Qc) eqn:Hlt; [|done]. injection Hn as ->.
  apply bool_decide_eq_true in Hlt.
  match goal with H : TaskEvents.insert _ _ _ = _ |- _ =>
    apply (insert_log _ _ _ _ _ previous) in H as [Hok' Hb']; [|done..] end.
  by eapply IH.
Qed.

Lemma stamp_identities_reads task_id events : within (same (λ d, d)) (stamp_identities task_id events).
Proof. unfold stamp_identities, checked_envelope. stmt_steps ltac:(idtac; reflexivity). Qed.

Lemma stamp_identities_length task_id events d l d' :
  stamp_identities task_id events d = Ok (l, d') → length l = length events.
Proof.
  unfold stamp_identities. intros H. inv_st. repeat case_run H; inv_st; try done.
  by eapply for_map_length.
Qed.

Lemma append_Ok task_id events now d rs d' :
  TaskEvents.append task_id events now d = Ok (rs, d') →
  ∃ events', length events' = length events
    ∧ append_from task_id (max_seq (task_events task_id d)) events' now d = Ok (rs, d').
Proof.
  intros H. unfold TaskEvents.append, TaskEvents.last in H. inv_st.
  match goal with H : required _ _ = _ |- _ => apply required_Ok in H as [_ ->] end.
  match goal with H : stamp_identities _ _ _ = _ |- _ =>
    apply stamp_identities_length in H as Hl; apply stamp_identities_reads in H;
    unfold same in H; subst end.
  eauto.
Qed.

Lemma append_log task_id events now : within (keeps log_ok) (TaskEvents.append task_id events now).
Proof.
  intros d rs d' (events' & _ & H)%append_Ok Hok. eapply append_from_log; [exact H| |done].
  intros e He Ht. apply max_seq_le, elem_of_task_events. done.
Qed.

#[local] Instance same_log : Contains (same db_events) (keeps log_ok).
Proof. intros d d' E. unfold keeps, log_ok. by rewrite E. Qed.

#[local] Instance log_steps : StoreSteps (keeps log_ok).
Proof.
  split; [apply _|..].
  all: lazymatch goal with
    | |- context [TaskEvents.append] => apply append_log
    | |- _ => by_same db_events
    end.
Qed.

Lemma delete_task_log t : within (keeps log_ok) (delete_task t).
Proof.
  unfold delete_task. within_auto; apply within_modify; intros d Hok; [done|]. by apply sorted_filter.
Qed.

Lemma exec_log op : within (keeps log_ok) (exec op).
Proof.
  apply exec_within; [apply _|]. intros Hd.
  destruct op; try discriminate Hd; simpl; unfold ignore; try by_same db_events.
  - within_auto. apply within_delete_by_scope; [apply _|]. apply delete_task_log.
  - apply within_delete_chat; [apply _|apply delete_task_log|..]; by_same db_events.
Qed.

(** The log of a task is ordered and deduplicated.  In every reachable
    store the sequence numbers of a task's events strictly increase in the
    order they were appended in, and no two of its events share an event
    id. *)
Theorem event_log_ordered file ops i k e f :
  let d := run ops (empty_db file) in
  d.(db_events) !! i = Some e → d.(db_events) !! k = Some f → (i < k)%nat →
  e.(e_task_id) = f.(e_task_id) →
  (e.(e_seq) < f.(e_seq))%Qc ∧ event_id e.(e_event) ≠ event_id f.(e_event).
Proof.
  intros d He Hf Hik. assert (log_ok d) as Hok.
  { assert (log_ok (empty_db file)) as H by constructor. revert H.
    apply (run_within (keeps log_ok) ops). intros op _. apply exec_log. }
  by apply (sorted_lookup log_lt d.(db_events) i k).
Qed.

(** *** Appended events reach the outbox *)

Lemma insert_mirrors record now d u d' :
  TaskEvents.insert record now d = Ok (u, d') →
  ∃ e o, json_event d.(db_file) record = Ok e ∧ d'.(db_events) = d.(db_events) ++ [e]
    ∧ d'.(db_outbox) = d.(db_outbox) ++ [o] ∧ mirrors e o ∧ d'.(db_file) = d.(db_file).
Proof.
  intros H. unfold TaskEvents.insert in H. inv_st.
  match goal with H : insert_event _ _ = _ |- _ =>
    apply insert_event_Ok in H as (j & Hj & -> & _ & _) end.
  match goal with H : enqueue _ _ _ = _ |- _ => unfold enqueue in H; simpl in H end.
  inv_st. match goal with H : fresh _ = _ |- _ => injection H as <- <- end.
  match goal with H : insert_row _ _ = _ |- _ => apply insert_row_Ok in H as (o & Ho & _ & ->) end.
  exists j, o. apply json_event_kept in Hj as Hk. destruct Hk as (Et & _ & Ee).
  simpl in *. split_and!; try done. unfold json_outbox in Ho. simpl in Ho. inv_res.
  unfold mirrors. simpl. rewrite Ee. by split_and!; try congruence.
Qed.

Lemma append_from_mirrors task_id previous events now d rs d' :
  append_from task_id previous events now d = Ok (rs, d') →
  ∃ es os, d'.(db_events) = d.(db_events) ++ es ∧ d'.(db_outbox) = d.(db_outbox) ++ os
    ∧ Forall2 mirrors es os ∧ Forall2 (λ r e, json_event d.(db_file) r = Ok e) rs es
    ∧ length rs = length events ∧ Forall (λ r, r.(e_task_id) = task_id) rs.
Proof.
  revert previous d rs. induction events as [|event events IH]; intros previous d rs H; simpl in H;
    inv_st.
  { exists [], []. rewrite !app_nil_r. by repeat split; constructor. }
  match goal with H : TaskEvents.insert _ _ _ = _ |- _ =>
    apply insert_mirrors in H as (e & o & Hj & Ee & Eo & Hm & Ef) end.
  match goal with H : append_from _ _ _ _ _ = _ |- _ =>
    apply IH in H as (es & os & Ees & Eos & Hms & Hjs & Hl & Ht) end.
  exists (e :: es), (o :: os). rewrite Ees, Ee, Eos, Eo, <-!app_assoc. simpl.
  rewrite Ef in Hjs. split_and!; try done; [by constructor..|congruence|by constructor].
Qed.

(** An append is whole and mirrored: the events it returns are stored, in
    order, at the end of the log, and each one, with its durable identity
    stamped, is queued in the outbox under its task at the same place. *)
Theorem append_events_mirrored proof events now d rs d' :
  append_events proof events now d = Ok (rs, d') →
  ∃ es os, d'.(db_events) = d.(db_events) ++ es ∧ d'.(db_outbox) = d.(db_outbox) ++ os
    ∧ Forall2 mirrors es os ∧ Forall2 (λ r e, json_event d.(db_file) r = Ok e) rs es
    ∧ length rs = length events ∧ Forall (λ r, r.(e_task_id) = proof.(f_task_id)) rs.
Proof.
  intros H. unfold append_events in H. inv_st.
  match goal with H : fence _ _ _ = _ |- _ => apply fence_Ok in H as (_ & _ & ->) end.
  match goal with H : TaskEvents.append _ _ _ _ = _ |- _ => apply append_Ok in H as (l & <- & H);
    by apply append_from_mirrors in H end.
Qed.
End laws.

(** ** Witnesses *)

Section witnesses.
#[local] Existing Instance example_host.

Definition ex_event (id : string) (seq : Z) : Value :=
  VObj [("eventId", VStr id); ("seq", int_value seq); ("type", VStr "run.status")].
Definition ex_log_ops : list Op :=
  [OpSubmit (ex_submit "t1" "chat" 0); OpClaim default_aging (ex_claim 1) u64_max;
   OpAppendEvents (mkFence "t1" "id2" 1) [ex_event "e1" 1; ex_event "e2" 4] 2].
End witnesses.

Lemma event_log_ordered_witness :
  let host := example_host in
  let d := run ex_log_ops (empty_db true) in
  ∃ e f, d.(db_events) !! 0%nat = Some e ∧ d.(db_events) !! 1%nat = Some f
    ∧ (e.(e_seq) < f.(e_seq))%Qc.
Proof.
  intros host d. destruct (d.(db_events) !! 0%nat) as [e|] eqn:E; [|vm_compute in E; discriminate E].
  destruct (d.(db_events) !! 1%nat) as [f|] eqn:F; [|vm_compute in F; discriminate F].
  exists e, f. split; [reflexivity|]. split; [reflexivity|].
  destruct (event_log_ordered true ex_log_ops 0 1 e f) as [H _].
  - exact E.
  - exact F.
  - lia.
  - vm_compute in E. vm_compute in F. injection E as <-. injection F as <-. reflexivity.
  - exact H.
Defined.

Lemma append_events_mirrored_witness :
  let host := example_host in
  ∃ rs d' es os, append_events (ex_proof "t1" ex_claimed) [ex_event "e1" 1; ex_event "e2" 4] 2 ex_claimed
      = Ok (rs, d')
    ∧ d'.(db_outbox) = ex_claimed.(db_outbox) ++ os ∧ Forall2 mirrors es os ∧ length rs = 2%nat.
Proof.
  intros host.
  destruct (append_events (ex_proof "t1" ex_claimed) [ex_event "e1" 1; ex_event "e2" 4] 2 ex_claimed)
    as [ [rs d']|] eqn:E; [|vm_compute in E; discriminate E].
  destruct (append_events_mirrored _ _ _ _ _ _ E) as (es & os & _ & Ho & Hm & _ & Hl & _).
  exists rs, d', es, os. split; [reflexivity|]. split; [exact Ho|]. split; [exact Hm|exact Hl].
Defined.
