(* ===== verification/Forest.v ===== *)
(** * Message forests

    The rows of one chat: the loops of [activate] end on rows whose parents
    come first, the shape the operations keep, the one active branch, and the
    archived branches. *)

From S2P Require Export Walk.
Local Open Scope Z_scope.

Lemma mem_cons s x l : s ≠ x → mem_str s (x :: l) = mem_str s l.
Proof. intros Hne. unfold mem_str. apply bool_decide_ext. rewrite elem_of_cons. tauto. Qed.
Lemma mem_here s l : mem_str s (s :: l) = true.
Proof. apply bool_decide_eq_true. left. Qed.

(** ** One chat

    [ms] is the rows of a chat, in the order they were appended. *)
Section forest.
Variable ms : list MessageRecord.

(** Every parent is an earlier row. *)
Definition parents_first : Prop := ∀ i m p, ms !! i = Some m → m.(m_parent_message_id) = Some p →
  ∃ k q, (k < i)%nat ∧ ms !! k = Some q ∧ q.(m_id) = p.

Hypothesis (Hids : NoDup (map m_id ms)) (Hpar : parents_first).

Lemma same_id i k m q : ms !! i = Some m → ms !! k = Some q → m.(m_id) = q.(m_id) → i = k ∧ m = q.
Proof.
  intros Hi Hk E. assert (i = k) as ->; [|by simplify_eq].
  eapply NoDup_lookup; [exact Hids| |]; rewrite list_lookup_fmap; [by rewrite Hi|].
  by rewrite Hk, E.
Qed.

Lemma find_message_row i m : ms !! i = Some m → find_message ms m.(m_id) = Some m.
Proof.
  intros Hi. unfold find_message.
  destruct (find_by _ ms) as [q|] eqn:E.
  - apply find_by_Some in E as [ [k Hk]%list_elem_of_lookup Eq%String.eqb_eq].
    by destruct (same_id k i q m) as [_ ->].
  - rewrite find_by_None in E. specialize (E m (list_elem_of_lookup_2 _ _ _ Hi)).
    by rewrite String.eqb_refl in E.
Qed.

(** The ids from a message up to its root. *)
Inductive up_chain : option string → list string → Prop :=
  | up_root : up_chain None []
  | up_step m path : m ∈ ms → up_chain m.(m_parent_message_id) path →
      up_chain (Some m.(m_id)) (m.(m_id) :: path).

Lemma ascend_chain fuel i m acc : ms !! i = Some m → (i < fuel)%nat →
  ∃ path, ascend fuel ms (Some m.(m_id)) acc = Some (Ok (acc ++ path))
    ∧ up_chain (Some m.(m_id)) path.
Proof.
  revert i m acc. induction fuel as [|fuel IH]; intros i m acc Hi Hf; [lia|]. cbn [ascend].
  rewrite (find_message_row _ _ Hi). apply list_elem_of_lookup_2 in Hi as Hm.
  destruct (m_parent_message_id m) as [p|] eqn:Ep.
  - destruct (Hpar _ _ _ Hi Ep) as (k & q & Hk & Hq & <-).
    destruct (IH k q (acc ++ [m_id m])) as (path & Ha & Hc); [done|lia|].
    exists (m_id m :: path). rewrite Ha, <-app_assoc. split; [done|].
    constructor; [done|]. by rewrite Ep.
  - exists [m_id m]. destruct fuel; (split; [done|]); (constructor; [done|]); rewrite Ep;
      constructor.
Qed.

(** A chain holds the parents of its members, and only earlier rows. *)
Lemma chain_parent c path m p :
  up_chain c path → m ∈ ms → m.(m_id) ∈ path → m.(m_parent_message_id) = Some p → p ∈ path.
Proof.
  intros Hc [i Hi]%list_elem_of_lookup Hm Hp. induction Hc as [|q path [k Hk]%list_elem_of_lookup Hc IH];
    [by apply elem_of_nil in Hm|].
  apply elem_of_cons in Hm as [E|Hm]; [|right; auto].
  destruct (same_id _ _ _ _ Hi Hk E) as [_ <-]. rewrite Hp in Hc. inversion Hc; subst.
  right; left.
Qed.

Lemma chain_before i m path k q :
  up_chain (Some m.(m_id)) path → ms !! i = Some m → ms !! k = Some q → q.(m_id) ∈ path → (k ≤ i)%nat.
Proof.
  intros Hc. remember (Some (m_id m)) as c eqn:Ec. revert i m Ec.
  induction Hc as [|x path Hx Hc IH]; intros i m Ec Hi Hk Hq; [done|].
  injection Ec as Ec. apply list_elem_of_lookup in Hx as [j Hj].
  destruct (same_id _ _ _ _ Hj Hi Ec) as [-> ->].
  apply elem_of_cons in Hq as [E|Hq]; [by destruct (same_id _ _ _ _ Hk Hi E); lia|].
  destruct (m_parent_message_id m) as [p|] eqn:Ep.
  - destruct (Hpar _ _ _ Hi Ep) as (l & y & Hl & Hy & <-).
    specialize (IH l y eq_refl Hy Hk Hq). lia.
  - inversion Hc; subst. by apply elem_of_nil in Hq.
Qed.

(** Two members with one parent are one. *)
Lemma chain_linear c path m q :
  up_chain c path → m ∈ ms → q ∈ ms → m.(m_id) ∈ path → q.(m_id) ∈ path →
  m.(m_parent_message_id) = q.(m_parent_message_id) → m = q.
Proof.
  intros Hc [i Hi]%list_elem_of_lookup [k Hk]%list_elem_of_lookup. revert i m k q Hi Hk.
  induction Hc as [|x path [j Hj]%list_elem_of_lookup Hc IH]; intros i m k q Hi Hk Hm Hq E;
    [by apply elem_of_nil in Hm|].
  assert (∀ a n, ms !! n = Some a → a.(m_id) ∈ path →
    a.(m_parent_message_id) ≠ x.(m_parent_message_id)) as Hno.
  { intros a n Hn Ha Ep. destruct (m_parent_message_id x) as [p|] eqn:Epx.
    - destruct (Hpar _ _ _ Hn Ep) as (l & y & Hl & Hy & <-).
      pose proof (chain_before _ _ _ _ _ Hc Hy Hn Ha). lia.
    - inversion Hc; subst. by apply elem_of_nil in Ha. }
  apply elem_of_cons in Hm as [Em|Hm]; apply elem_of_cons in Hq as [Eq|Hq].
  - destruct (same_id i j m x Hi Hj Em) as [_ ->]. by destruct (same_id k j q x Hk Hj Eq) as [_ ->].
  - destruct (same_id i j m x) as [_ ->]; [done..|]. exfalso. by apply (Hno q k).
  - destruct (same_id k j q x) as [_ ->]; [done..|]. exfalso. by apply (Hno m i).
  - by apply (IH i m k q).
Qed.

(** Read from the root, a chain is its rows in order. *)
Lemma chain_rows c path : up_chain c path →
  map m_id (filter_by (λ m, mem_str m.(m_id) path) ms) = rev path.
Proof.
  induction 1 as [|m path Hm Hc IH].
  { by rewrite filter_by_none. }
  apply list_elem_of_split in Hm as (l1 & l2 & E).
  assert (ms !! length l1 = Some m) as Hi by (rewrite E; by apply list_lookup_middle).
  assert (∀ k q, ms !! k = Some q → q.(m_id) ∈ path → (k < length l1)%nat) as Hlt.
  { intros k q Hk Hq. destruct (m_parent_message_id m) as [p|] eqn:Ep.
    - destruct (Hpar _ _ _ Hi Ep) as (n & y & Hn & Hy & <-).
      pose proof (chain_before _ _ _ _ _ Hc Hy Hk Hq). lia.
    - inversion Hc; subst. by apply elem_of_nil in Hq. }
  assert (∀ q, q ∈ m :: l2 → mem_str q.(m_id) path = false) as Hnone.
  { intros q [k Hk]%list_elem_of_lookup. apply bool_decide_eq_false. intros Hin.
    assert (length l1 + k < length l1)%nat; [|lia]. apply (Hlt _ q); [|exact Hin].
    rewrite E, lookup_app_r by lia. by replace (length l1 + k - length l1)%nat with k by lia. }
  assert (∀ k q, ms !! k = Some q → k ≠ length l1 → q.(m_id) ≠ m.(m_id)) as Hne.
  { intros k q Hk Hkl Eid. by destruct (same_id k (length l1) q m). }
  rewrite E in IH |- *. rewrite filter_by_app in IH |- *. rewrite map_app in IH |- *.
  rewrite (filter_by_none _ _ Hnone), app_nil_r in IH.
  simpl rev. rewrite <-IH. f_equal.
  - f_equal. apply filter_by_ext. intros q [k Hk]%list_elem_of_lookup.
    apply lookup_lt_Some in Hk as Hkl. apply mem_cons, (Hne k); [|lia].
    rewrite E. by apply lookup_app_l_Some.
  - unfold filter_by. rewrite filter_cons, mem_here, decide_True by done.
    change (base.filter _ l2) with (filter_by (λ q, mem_str q.(m_id) (m_id m :: path)) l2).
    rewrite filter_by_none; [done|]. intros q [k Hk]%list_elem_of_lookup.
    rewrite mem_cons; [apply Hnone; right; by eapply list_elem_of_lookup_2|].
    apply (Hne (length l1 + S k)%nat); [|lia].
    rewrite E, lookup_app_r by lia. by replace (length l1 + S k - length l1)%nat with (S k) by lia.
Qed.

(** *** Down to a leaf *)

Lemma next_child_Some leaf child : next_child ms leaf = Some child →
  child ∈ ms ∧ child.(m_parent_message_id) = Some leaf.(m_id) ∧ child.(m_archived) = false.
Proof.
  unfold next_child, kids. intros H. assert (child ∈ filter_by (λ m,
    ostr_eqb m.(m_parent_message_id) (Some leaf.(m_id)) && negb m.(m_archived)) ms) as Hin.
  { destruct (find_by m_active _) as [a|] eqn:E; simpl in H.
    - injection H as ->. by apply find_by_Some in E as [? _].
    - by apply min_by_key_elem in H. }
  apply elem_of_filter_by in Hin as [ [Hp Ha]%andb_true_iff Hin]. split; [done|].
  apply bool_decide_eq_true in Hp. by apply negb_true_iff in Ha.
Qed.

Lemma next_child_None leaf : next_child ms leaf = None → kids ms leaf = [].
Proof.
  unfold next_child. destruct (find_by m_active _); [done|]. apply min_by_key_None.
Qed.

Lemma descend_leaf fuel i m : ms !! i = Some m → (length ms ≤ i + fuel)%nat →
  ∃ k leaf, descend fuel ms m = Some leaf ∧ ms !! k = Some leaf ∧ kids ms leaf = []
    ∧ (m.(m_archived) = false → leaf.(m_archived) = false)
    ∧ ∀ path, up_chain (Some leaf.(m_id)) path → m.(m_id) ∈ path.
Proof.
  revert i m. induction fuel as [|fuel IH]; intros i m Hi Hf.
  { apply lookup_lt_Some in Hi. lia. }
  simpl. destruct (next_child ms m) as [child|] eqn:E.
  - apply next_child_Some in E as ([k Hk]%list_elem_of_lookup & Hp & Hlive).
    destruct (Hpar _ _ _ Hk Hp) as (i' & q & Hlt & Hq & Eid).
    destruct (same_id i' i q m) as [-> ->]; [done..|].
    destruct (IH k child) as (n & leaf & Hd & Hn & Hl & Har & Hc); [done|lia|].
    exists n, leaf. split_and!; [done..|intros _; by apply Har|]. intros path Hpath.
    eapply chain_parent; [exact Hpath| |by apply Hc|done]. by eapply list_elem_of_lookup_2.
  - exists i, m. split_and!; [done..|by apply next_child_None|done|].
    intros path Hpath. inversion Hpath; subst. left.
Qed.

(** The loops of [activate] end, on the branch through [target]. *)
Lemma path_of_Ok target : target ∈ ms →
  ∃ leaf path, path_of ms target = Ok path ∧ leaf ∈ ms ∧ kids ms leaf = []
    ∧ up_chain (Some leaf.(m_id)) path ∧ target.(m_id) ∈ path
    ∧ (target.(m_archived) = false → leaf.(m_archived) = false).
Proof.
  intros [i Hi]%list_elem_of_lookup. unfold path_of.
  destruct (descend_leaf (S (length ms)) i target) as (k & leaf & -> & Hk & Hl & Har & Hc); [done|lia|].
  destruct (ascend_chain (S (length ms)) k leaf []) as (path & Ha & Hp); [done| |].
  { apply lookup_lt_Some in Hk. lia. }
  exists leaf, path. cbn [ok_or mbind res_bind]. rewrite Ha. split_and!; try done; [|by apply Hc].
  by eapply list_elem_of_lookup_2.
Qed.
End forest.

(** ** The shape of a chat *)

(** Row [i] has order key [i + 1], its parent is an earlier row one level up,
    and no two messages of one parent have the same branch index. *)
Definition row_shape (ms : list MessageRecord) (i : nat) (m : MessageRecord) : Prop :=
  m.(m_order_key) = Z.of_nat i + 1 ∧ 0 ≤ m.(m_depth) ≤ Z.of_nat i
  ∧ 0 ≤ m.(m_branch_index) ≤ Z.of_nat i
  ∧ match m.(m_parent_message_id) with
    | None => m.(m_depth) = 0
    | Some p => ∃ k q, (k < i)%nat ∧ ms !! k = Some q ∧ q.(m_id) = p
        ∧ m.(m_depth) = q.(m_depth) + 1
    end.

Record chat_shape (ms : list MessageRecord) : Prop := {
  sh_row i m : ms !! i = Some m → row_shape ms i m;
  sh_branch i k m q : ms !! i = Some m → ms !! k = Some q →
    m.(m_parent_message_id) = q.(m_parent_message_id) → m.(m_branch_index) = q.(m_branch_index) →
    i = k
}.

(** The active messages: closed under parents, one per parent. *)
Record chat_active (ms : list MessageRecord) : Prop := {
  ac_up m p : m ∈ ms → m.(m_active) = true → m.(m_parent_message_id) = Some p →
    ∃ q, q ∈ ms ∧ q.(m_id) = p ∧ q.(m_active) = true;
  ac_one i k m q : ms !! i = Some m → ms !! k = Some q → m.(m_active) = true → q.(m_active) = true →
    m.(m_parent_message_id) = q.(m_parent_message_id) → i = k
}.

(** The columns these depend on. *)
Definition skeleton (m : MessageRecord) : string * option string * Z * Z * Z :=
  (m.(m_id), m.(m_parent_message_id), m.(m_depth), m.(m_order_key), m.(m_branch_index)).

Lemma map_lookup_inv {A B} (f : A → B) l l' i a' :
  map f l' = map f l → l' !! i = Some a' → ∃ a, l !! i = Some a ∧ f a = f a'.
Proof.
  intros E Hi. assert (map f l' !! i = Some (f a')) as H by (by rewrite list_lookup_fmap, Hi).
  rewrite E, list_lookup_fmap in H. destruct (l !! i) as [a|]; [|done]. exists a. by simplify_eq/=.
Qed.

Lemma chat_shape_skeleton ms ms' :
  map skeleton ms' = map skeleton ms → chat_shape ms → chat_shape ms'.
Proof.
  intros E [Hrow Hbr]. split.
  - intros i m' Hi. destruct (map_lookup_inv _ _ _ _ _ E Hi) as (m & Hm & Es).
    injection Es as E1 E2 E3 E4 E5. destruct (Hrow _ _ Hm) as (H1 & H2 & H3 & H4).
    unfold row_shape. rewrite <-E2, <-E3, <-E4, <-E5. split_and!; try done; try lia.
    destruct (m_parent_message_id m) as [p|]; [|done]. destruct H4 as (k & q & Hk & Hq & Hid & Hd).
    destruct (map_lookup_inv _ _ _ _ _ (eq_sym E) Hq) as (q' & Hq' & Es').
    injection Es' as F1 F2 F3 F4 F5. exists k, q'. split_and!; congruence.
  - intros i k m' q' Hi Hk Ep Eb.
    destruct (map_lookup_inv _ _ _ _ _ E Hi) as (m & Hm & Em).
    destruct (map_lookup_inv _ _ _ _ _ E Hk) as (q & Hq & Eq).
    injection Em as ? ? ? ? ?. injection Eq as ? ? ? ? ?. apply (Hbr i k m q); congruence.
Qed.

Lemma chat_active_skeleton ms ms' :
  map (λ m, (skeleton m, m_active m)) ms' = map (λ m, (skeleton m, m_active m)) ms →
  chat_active ms → chat_active ms'.
Proof.
  intros E [Hup Hone]. split.
  - intros m' p [i Hi]%list_elem_of_lookup Ha Hp.
    destruct (map_lookup_inv _ _ _ _ _ E Hi) as (m & Hm & Es). injection Es as ? ? ? ? ? ?.
    destruct (Hup m p) as (q & [k Hk]%list_elem_of_lookup & ? & ?);
      [by eapply list_elem_of_lookup_2|congruence..|].
    destruct (map_lookup_inv _ _ _ _ _ (eq_sym E) Hk) as (q' & Hq' & Es'). injection Es' as ? ? ? ? ? ?.
    exists q'. split_and!; [by eapply list_elem_of_lookup_2|congruence..].
  - intros i k m' q' Hi Hk Ham Haq Ep.
    destruct (map_lookup_inv _ _ _ _ _ E Hi) as (m & Hm & Em).
    destruct (map_lookup_inv _ _ _ _ _ E Hk) as (q & Hq & Eq).
    injection Em as ? ? ? ? ? ?. injection Eq as ? ? ? ? ? ?. apply (Hone i k m q); congruence.
Qed.

Lemma shape_parents_first ms : chat_shape ms → parents_first ms.
Proof.
  intros [Hrow _] i m p Hi Hp. destruct (Hrow _ _ Hi) as (_ & _ & _ & H). rewrite Hp in H.
  destruct H as (k & q & ? & ? & ? & _). by exists k, q.
Qed.

Lemma rows_sorted ms : chat_shape ms → StronglySorted (λ a b, order_key_le a b = true) ms.
Proof.
  intros [Hrow _]. apply sorted_of_lookup. intros i k a b Hi Hk Hik.
  destruct (Hrow _ _ Hi) as [Ha _]. destruct (Hrow _ _ Hk) as [Hb _].
  unfold order_key_le. rewrite Ha, Hb. apply Z.leb_le. lia.
Qed.

(** *** Appending *)

Lemma max_or_zero_le l n : 0 ≤ n → (∀ z, z ∈ l → z ≤ n) → max_or_zero l ≤ n.
Proof.
  intros Hn Hl. unfold max_or_zero. induction l as [|z l IH]; simpl; [done|].
  apply Z.max_lub; [apply Hl; left|]. apply IH. intros y Hy. apply Hl. by right.
Qed.
Lemma max_or_zero_ge l z : z ∈ l → z ≤ max_or_zero l.
Proof.
  unfold max_or_zero. induction l as [|y l IH]; [by intros ?%elem_of_nil|].
  intros [-> |Hz]%elem_of_cons; simpl; [lia|]. specialize (IH Hz). lia.
Qed.
Lemma max_or_zero_nonneg l : 0 ≤ max_or_zero l.
Proof. unfold max_or_zero. induction l; simpl; lia. Qed.

Lemma max_order_key ms : chat_shape ms → max_or_zero (map m_order_key ms) = Z.of_nat (length ms).
Proof.
  intros [Hrow _]. apply Z.le_antisymm.
  - apply max_or_zero_le; [lia|]. intros z (m & -> & [i Hi]%list_elem_of_lookup)%list_elem_of_fmap.
    apply lookup_lt_Some in Hi as Hlt. destruct (Hrow _ _ Hi) as [-> _]. lia.
  - destruct (decide (length ms = 0%nat)) as [E|Hne]; [rewrite E; apply max_or_zero_nonneg|].
    destruct (lookup_lt_is_Some_2 ms (length ms - 1)) as [m Hm]; [lia|].
    destruct (Hrow _ _ Hm) as [Hk _]. transitivity (m_order_key m); [lia|].
    apply max_or_zero_ge, list_elem_of_fmap_2. by eapply list_elem_of_lookup_2.
Qed.

Lemma elem_of_siblings ms parent_id m :
  m ∈ siblings ms parent_id ↔ m.(m_parent_message_id) = parent_id ∧ m ∈ ms.
Proof. unfold siblings, ostr_eqb. by rewrite elem_of_filter_by, bool_decide_eq_true. Qed.

Lemma lookup_snoc_cases {A} (l : list A) x i y :
  (l ++ [x]) !! i = Some y → l !! i = Some y ∨ i = length l ∧ y = x.
Proof.
  intros H. apply lookup_app_Some in H as [H|[Hlt H]]; [by left|right].
  apply list_lookup_singleton_Some in H as [? ->]. split; [lia|done].
Qed.

(** The branch index of a new message is past its siblings'. *)
Lemma branch_index_fresh ms parent_id : chat_shape ms → Z.of_nat (length ms) < u32_max →
  let b := max_or_zero (map (λ m, wrapping_succ_u32 m.(m_branch_index)) (siblings ms parent_id)) in
  0 ≤ b ≤ Z.of_nat (length ms)
  ∧ ∀ m, m ∈ ms → m.(m_parent_message_id) = parent_id → m.(m_branch_index) < b.
Proof.
  intros [Hrow _] Hlen b.
  assert (∀ m, m ∈ ms → wrapping_succ_u32 m.(m_branch_index) = m.(m_branch_index) + 1
    ∧ m.(m_branch_index) + 1 ≤ Z.of_nat (length ms)) as Hs.
  { intros m [i Hi]%list_elem_of_lookup. apply lookup_lt_Some in Hi as Hlt.
    destruct (Hrow _ _ Hi) as (_ & _ & Hb & _). unfold wrapping_succ_u32, u32_max in *.
    rewrite Z.mod_small; lia. }
  split; [split; [apply max_or_zero_nonneg|]|].
  - apply max_or_zero_le; [lia|]. intros z (m & -> & [_ Hm]%elem_of_siblings)%list_elem_of_fmap.
    destruct (Hs m Hm) as [-> ?]. done.
  - intros m Hm Hp. destruct (Hs m Hm) as [E _].
    assert (wrapping_succ_u32 (m_branch_index m) ≤ b); [|lia].
    apply max_or_zero_ge. apply (list_elem_of_fmap_2 (λ m, wrapping_succ_u32 (m_branch_index m))).
    by apply elem_of_siblings.
Qed.

(** What [live_parent] found. *)
Definition parent_found (ms : list MessageRecord) (parent_id : option string)
    (parent : option MessageRecord) : Prop :=
  match parent_id with
  | None => parent = None
  | Some id => ∃ p, parent = Some p ∧ p ∈ ms ∧ p.(m_id) = id ∧ p.(m_archived) = false
  end.

Lemma live_parent_Ok ms parent_id parent :
  live_parent ms parent_id = Ok parent → parent_found ms parent_id parent.
Proof.
  unfold live_parent, parent_found, find_message. destruct parent_id as [id|]; [|by intros [= <-]].
  destruct (find_by _ ms) as [p|] eqn:E; [|done]. apply find_by_Some in E as [? ?%String.eqb_eq].
  destruct (m_archived p) eqn:Ea; [done|]. intros [= <-]. by exists p.
Qed.

Lemma chat_shape_snoc ms j :
  chat_shape ms → row_shape (ms ++ [j]) (length ms) j →
  (∀ m, m ∈ ms → m.(m_parent_message_id) = j.(m_parent_message_id) →
    m.(m_branch_index) < j.(m_branch_index)) →
  chat_shape (ms ++ [j]).
Proof.
  intros [Hrow Hbr] Hj Hfresh.
  split.
  - intros i m [Hi|[-> ->] ]%lookup_snoc_cases; [|done].
    destruct (Hrow _ _ Hi) as (H1 & H2 & H3 & H4). unfold row_shape. split_and!; try done; try lia.
    destruct (m_parent_message_id m); [|done]. destruct H4 as (k & q & ? & Hq & ? & ?).
    exists k, q. split_and!; try done. by apply lookup_app_l_Some.
  - intros i k m q [Hi|[-> ->] ]%lookup_snoc_cases [Hk|[-> ->] ]%lookup_snoc_cases Ep Eb; [| | |done].
    + by apply (Hbr i k m q).
    + exfalso. assert (m_branch_index m < m_branch_index j); [|lia].
      apply Hfresh; [by eapply list_elem_of_lookup_2|done].
    + exfalso. assert (m_branch_index q < m_branch_index j); [|lia].
      apply Hfresh; [by eapply list_elem_of_lookup_2|done].
Qed.

Lemma chat_shape_append ms input id c parent_id parent at_ j :
  chat_shape ms → Z.of_nat (length ms) < u32_max → parent_found ms parent_id parent →
  skeleton j = skeleton (new_message ms input id c parent_id parent at_) →
  chat_shape (ms ++ [j]).
Proof.
  intros Hsh Hlen Hpar Es. pose proof (max_order_key ms Hsh) as Hmax.
  pose proof (branch_index_fresh ms parent_id Hsh Hlen) as [Hb Hfresh].
  destruct Hsh as [Hrow Hbr]. injection Es as E1 E2 E3 E4 E5.
  assert (row_shape (ms ++ [j]) (length ms) j) as Hj.
  { unfold row_shape. rewrite E2, E3, E4, E5, Hmax. split_and!; try lia.
    - unfold wrapping_succ_u64, u32_max in *. rewrite Z.mod_small; lia.
    - destruct parent; [|lia]. apply Z.mod_pos_bound. lia.
    - destruct parent as [p|]; [|lia]. destruct parent_id; simpl in Hpar; [|done].
      destruct Hpar as (p' & [= <-] & [i Hi]%list_elem_of_lookup & _).
      apply lookup_lt_Some in Hi as Hlt. destruct (Hrow _ _ Hi) as (_ & Hd & _).
      unfold wrapping_succ_u32, u32_max in *. rewrite Z.mod_small; lia.
    - destruct parent_id as [pid|]; simpl in Hpar; [|by subst].
      destruct Hpar as (p & -> & [i Hi]%list_elem_of_lookup & Hid & _).
      apply lookup_lt_Some in Hi as Hlt. destruct (Hrow _ _ Hi) as (_ & Hd & _).
      exists i, p. split_and!; try done; [by rewrite lookup_app_l|].
      unfold wrapping_succ_u32, u32_max in *. rewrite Z.mod_small; lia. }
  apply chat_shape_snoc; [by split|exact Hj|]. intros m Hm Ep. rewrite E5. apply Hfresh; congruence.
Qed.

(** A message appended without activation extends the branch or stays off it. *)
Lemma chat_active_append ms input parent_id parent j :
  chat_active ms → parent_found ms parent_id parent → input.(mi_activate) = false →
  j.(m_parent_message_id) = parent_id → j.(m_active) = appended_active ms input parent_id parent →
  chat_active (ms ++ [j]).
Proof.
  intros [Hup Hone] Hpar Hact Ejp Eja. unfold appended_active in Eja. rewrite Hact in Eja.
  simpl in Eja. split.
  - intros m p [Hm| ->%list_elem_of_singleton]%elem_of_app Ha Hp.
    + destruct (Hup m p Hm Ha Hp) as (q & ? & ? & ?). exists q. rewrite elem_of_app. auto.
    + rewrite Eja in Ha. apply andb_true_iff in Ha as [Ha _]. rewrite Ejp in Hp. subst parent_id.
      rewrite Hp in Hpar. destruct Hpar as (q & -> & ? & ? & _). simpl in Ha.
      exists q. rewrite elem_of_app. auto.
  - assert (∀ m, m ∈ ms → m.(m_active) = true → j.(m_active) = true →
      m.(m_parent_message_id) = j.(m_parent_message_id) → False) as Hno.
    { intros m Hm Ha Hj E. rewrite Eja in Hj. apply andb_true_iff in Hj as [_ Hj].
      apply negb_true_iff in Hj. pose proof (proj1 (existsb_false _ _) Hj m Hm) as Hf.
      simpl in Hf. unfold ostr_eqb in Hf. rewrite Ha, E, Ejp, bool_decide_true in Hf by done. done. }
    intros i k m q [Hi|[-> ->] ]%lookup_snoc_cases [Hk|[-> ->] ]%lookup_snoc_cases Ha Hb Ep.
    + by apply (Hone i k m q).
    + exfalso. apply (Hno m); try done. by eapply list_elem_of_lookup_2.
    + exfalso. apply (Hno q); try done. by eapply list_elem_of_lookup_2.
    + done.
Qed.

(** An activated branch is one. *)
Lemma chat_active_path ms c path :
  NoDup (map m_id ms) → parents_first ms → up_chain ms c path →
  chat_active (map (set_active path) ms).
Proof.
  intros Hids Hpar Hc.
  assert (∀ m, m_active (set_active path m) = true ↔ m.(m_id) ∈ path) as Hact.
  { intros m. unfold set_active. simpl. unfold mem_str. apply bool_decide_eq_true. }
  split.
  - intros m' p (m & -> & Hm)%list_elem_of_fmap Ha Hp. apply Hact in Ha.
    change (m_parent_message_id m = Some p) in Hp.
    pose proof (chain_parent ms Hids _ _ _ _ Hc Hm Ha Hp) as Hin.
    apply list_elem_of_lookup in Hm as [i Hi].
    destruct (Hpar _ _ _ Hi Hp) as (k & q & _ & Hq & <-).
    exists (set_active path q). split; [|split; [done|by apply Hact] ].
    apply list_elem_of_fmap_2. by eapply list_elem_of_lookup_2.
  - intros i k m' q' Hi Hk Ham Haq E. rewrite list_lookup_fmap in Hi, Hk.
    destruct (ms !! i) as [m|] eqn:Em; [|done]. destruct (ms !! k) as [q|] eqn:Eq; [|done].
    injection Hi as <-. injection Hk as <-. rewrite Hact in Ham, Haq.
    assert (m = q) as ->.
    { eapply chain_linear; try done; by eapply list_elem_of_lookup_2. }
    by destruct (same_id ms Hids i k q q).
Qed.

(** ** Archived branches *)

(** What is below an archived message is archived, and no active message is. *)
Record chat_archive (ms : list MessageRecord) : Prop := {
  ar_down m q : m ∈ ms → q ∈ ms → m.(m_parent_message_id) = Some q.(m_id) →
    q.(m_archived) = true → m.(m_archived) = true;
  ar_live m : m ∈ ms → m.(m_active) = true → m.(m_archived) = false
}.

Lemma chat_archive_columns ms ms' :
  map (λ m, (skeleton m, m_active m, m_archived m)) ms'
    = map (λ m, (skeleton m, m_active m, m_archived m)) ms →
  chat_archive ms → chat_archive ms'.
Proof.
  intros E [Hdown Hlive].
  assert (∀ m', m' ∈ ms' → ∃ m, m ∈ ms ∧ (skeleton m, m_active m, m_archived m)
    = (skeleton m', m_active m', m_archived m')) as Hcopy.
  { intros m' [i Hi]%list_elem_of_lookup. destruct (map_lookup_inv _ _ _ _ _ E Hi) as (m & Hm & Es).
    exists m. split; [by eapply list_elem_of_lookup_2|done]. }
  split.
  - intros m' q' (m & Hm & Em)%Hcopy (q & Hq & Eq)%Hcopy Hp Ha.
    injection Em as ? ? ? ? ? ? <-. injection Eq as ? ? ? ? ? ? ?. apply (Hdown m q); congruence.
  - intros m' (m & Hm & Em)%Hcopy Ha. injection Em as ? ? ? ? ? ? <-. apply Hlive; congruence.
Qed.

(** A branch that ends in a live message is live. *)
Lemma chain_live ms c path m :
  chat_archive ms → NoDup (map m_id ms) → up_chain ms c path →
  (∀ leaf, leaf ∈ ms → c = Some leaf.(m_id) → leaf.(m_archived) = false) →
  m ∈ ms → m.(m_id) ∈ path → m.(m_archived) = false.
Proof.
  intros [Hdown _] Hids Hc. induction Hc as [|x path Hx Hc IH]; intros Hleaf Hm Hin;
    [by apply elem_of_nil in Hin|].
  assert (m_archived x = false) as Hax by (by apply Hleaf).
  apply elem_of_cons in Hin as [E|Hin].
  - apply Hleaf; [done|]. by rewrite E.
  - apply IH; try done. intros p Hp Ep. apply not_true_is_false. intros Ha.
    rewrite (Hdown x p) in Hax; done.
Qed.

Lemma chat_archive_path ms leaf path :
  chat_archive ms → NoDup (map m_id ms) → up_chain ms (Some leaf.(m_id)) path →
  leaf ∈ ms → leaf.(m_archived) = false → chat_archive (map (set_active path) ms).
Proof.
  intros Har Hids Hc Hleaf Hlive. split.
  - intros m' q' (m & -> & Hm)%list_elem_of_fmap (q & -> & Hq)%list_elem_of_fmap.
    apply (ar_down _ Har m q Hm Hq).
  - intros m' (m & -> & Hm)%list_elem_of_fmap Ha.
    change (mem_str m.(m_id) path = true) in Ha. change (m_archived m = false).
    apply bool_decide_eq_true in Ha. eapply chain_live; try done. intros l Hl [= E].
    apply list_elem_of_lookup in Hl as [i Hi]. apply list_elem_of_lookup in Hleaf as [k Hk].
    by destruct (same_id ms Hids i k l leaf) as [_ ->].
Qed.

Lemma chat_archive_append ms parent_id parent j :
  chat_archive ms → parents_first ms → NoDup (map m_id (ms ++ [j])) →
  parent_found ms parent_id parent → j.(m_parent_message_id) = parent_id →
  j.(m_archived) = false → chat_archive (ms ++ [j]).
Proof.
  intros [Hdown Hlive] Hpar Hids Hp Ep Ha. subst parent_id.
  assert (∀ q, q ∈ ms → q.(m_id) ≠ j.(m_id)) as Hfresh.
  { rewrite map_app in Hids. apply NoDup_app in Hids as (_ & Hd & _). intros q Hq E.
    apply (Hd q.(m_id)); [by apply list_elem_of_fmap_2|]. rewrite E. left. }
  split.
  - intros m q [Hm| ->%list_elem_of_singleton]%elem_of_app [Hq| ->%list_elem_of_singleton]%elem_of_app Em Hq'.
    + by apply (Hdown m q).
    + exfalso. apply list_elem_of_lookup in Hm as [i Hi].
      destruct (Hpar _ _ _ Hi Em) as (k & q & _ & Hk & E). apply list_elem_of_lookup_2 in Hk.
      by apply (Hfresh q).
    + rewrite Em in Hp. destruct Hp as (p & _ & Hpm & Ei & Hpa). exfalso.
      rewrite map_app in Hids. apply NoDup_app in Hids as (Hids & _ & _).
      apply list_elem_of_lookup in Hpm as [i Hi]. apply list_elem_of_lookup in Hq as [k Hk].
      destruct (same_id ms Hids i k p q) as [_ ->]; congruence.
    + congruence.
  - intros m [Hm| ->%list_elem_of_singleton]%elem_of_app; [by apply Hlive|done].
Qed.

(** ** Archived branches *)

Lemma elem_of_rev_list {A} (x : A) l : x ∈ rev l ↔ x ∈ l.
Proof. by rewrite !list_elem_of_In, <-in_rev. Qed.

Section traversal.
Variable ms : list MessageRecord.

(** [id] is [top] or below it. *)
Inductive below (top : string) : string → Prop :=
  | below_top : below top top
  | below_child m p : m ∈ ms → m.(m_parent_message_id) = Some p → below top p → below top m.(m_id).

Definition child_ids (id : string) : list string :=
  map m_id (filter_by (λ m, ostr_eqb m.(m_parent_message_id) (Some id)) ms).

Lemma elem_of_child_ids x id :
  x ∈ child_ids id ↔ ∃ m, m ∈ ms ∧ m.(m_parent_message_id) = Some id ∧ m.(m_id) = x.
Proof.
  unfold child_ids. rewrite list_elem_of_fmap. split.
  - intros (m & -> & [Hp Hm]%elem_of_filter_by). apply bool_decide_eq_true in Hp. eauto.
  - intros (m & Hm & Hp & <-). exists m. split; [done|]. apply elem_of_filter_by.
    split; [by apply bool_decide_eq_true|done].
Qed.

(** What the traversal has reached, and still will. *)
Definition reached (queue seen : list string) (x : string) : Prop := x ∈ queue ∨ x ∈ seen.

Lemma branch_ids_reached fuel queue seen ids :
  branch_ids fuel ms queue seen = Some ids →
  (∀ s x, s ∈ seen → x ∈ child_ids s → reached queue seen x) →
  (∀ x, x ∈ queue → reached ids seen x)
  ∧ (∀ s x, reached ids seen s → x ∈ child_ids s → reached ids seen x).
Proof.
  unfold reached. revert queue seen ids. induction fuel as [|fuel IH]; intros [|id queue] seen ids H Hcl;
    simpl in H; try discriminate H.
  1,2: injection H as <-; split; [by intros x ?%elem_of_nil|]; intros s x [?%elem_of_nil|Hs] Hx; [done|];
    right; by destruct (Hcl s x Hs Hx) as [?%elem_of_nil|].
  destruct (mem_str id seen) eqn:Em.
  - apply bool_decide_eq_true in Em. destruct (IH _ _ _ H) as [Hq Hc].
    + intros s x Hs Hx. destruct (Hcl s x Hs Hx) as [ [->|?]%elem_of_cons|?]; auto.
    + split; [|done]. intros x [->|Hx]%elem_of_cons; auto.
  - apply fmap_Some in H as (ids' & H & ->). fold (child_ids id) in H.
    destruct (IH _ _ _ H) as [Hq Hc].
    { intros s x [->|Hs]%elem_of_cons Hx; [left; rewrite elem_of_app, elem_of_rev_list; auto|].
      destruct (Hcl s x Hs Hx) as [ [->|?]%elem_of_cons|?]; [right; left|left; apply elem_of_app; auto|right; by right]. }
    split.
    + intros x [->|Hx]%elem_of_cons; [left; left|].
      destruct (Hq x) as [?|[->|?]%elem_of_cons]; [apply elem_of_app; auto|left; by right|left; left|auto].
    + intros s x Hs Hx. destruct (Hc s x) as [?|[->|?]%elem_of_cons];
        [|done|left; by right|left; left|auto].
      destruct Hs as [ [->|?]%elem_of_cons|?]; [right; left|auto|right; by right].
Qed.

Lemma branch_ids_below top fuel queue seen ids :
  branch_ids fuel ms queue seen = Some ids → (∀ x, x ∈ queue → below top x) →
  (∀ x, x ∈ ids → below top x) ∧ NoDup ids ∧ (∀ x, x ∈ ids → x ∉ seen).
Proof.
  revert queue seen ids. induction fuel as [|fuel IH]; intros [|id queue] seen ids H Hq;
    simpl in H; try discriminate H.
  1,2: injection H as <-; split_and!; [by intros x ?%elem_of_nil|apply NoDup_nil_2|by intros x ?%elem_of_nil].
  destruct (mem_str id seen) eqn:Em.
  - eapply IH; [done|]. intros x Hx. apply Hq. by right.
  - apply bool_decide_eq_false in Em. apply fmap_Some in H as (ids' & H & ->). fold (child_ids id) in H.
    destruct (IH _ _ _ H) as (Hb & Hnd & Hns).
    { intros x [Hx|Hx]%elem_of_app; [|apply Hq; by right].
      rewrite elem_of_rev_list in Hx. apply elem_of_child_ids in Hx as (m & Hm & Hp & <-).
      eapply below_child; [done..|]. apply Hq. left. }
    split_and!.
    + intros x [->|Hx]%elem_of_cons; [apply Hq; left|auto].
    + apply NoDup_cons. split; [|done]. intros Hin. apply (Hns id Hin). left.
    + intros x [->|Hx]%elem_of_cons; [done|]. intros Hs. apply (Hns x Hx). by right.
Qed.

(** Messages whose parent the traversal has not expanded yet. *)
Definition unexpanded (seen : list string) : nat :=
  length (filter_by (λ m, is_some_and m.(m_parent_message_id) (λ p, negb (mem_str p seen))) ms).

Lemma unexpanded_expand id seen :
  mem_str id seen = false →
  (unexpanded (id :: seen) + length (child_ids id) = unexpanded seen)%nat.
Proof.
  intros Hid. unfold unexpanded, child_ids, ostr_eqb. rewrite length_map. unfold filter_by.
  induction ms as [|m l IH]; [done|]. rewrite !filter_cons.
  destruct (m_parent_message_id m) as [p|]; simpl; [|exact IH].
  destruct (decide (p = id)) as [->|Hne].
  - rewrite mem_here, Hid. simpl. rewrite bool_decide_true by done. simpl. lia.
  - rewrite mem_cons by done. rewrite (bool_decide_false (Some p = Some id)) by congruence.
    destruct (mem_str p seen); simpl; lia.
Qed.

Lemma branch_ids_total fuel queue seen :
  (length queue + unexpanded seen ≤ fuel)%nat → is_Some (branch_ids fuel ms queue seen).
Proof.
  revert queue seen. induction fuel as [|fuel IH]; intros [|id queue] seen Hf; simpl in *; try (by eexists);
    [lia|].
  destruct (mem_str id seen) eqn:Em; [apply IH; lia|].
  destruct (IH (rev (child_ids id) ++ queue) (id :: seen)) as [ids E].
  { rewrite length_app, length_rev. pose proof (unexpanded_expand id seen Em). lia. }
  fold (child_ids id). rewrite E. by eexists.
Qed.

(** The traversal of a branch ends with exactly what is at or below it. *)
Lemma branch_ids_spec top : ∃ ids, branch_ids (S (length ms)) ms [top] [] = Some ids ∧ NoDup ids
  ∧ ∀ x, x ∈ ids ↔ below top x.
Proof.
  destruct (branch_ids_total (S (length ms)) [top] []) as [ids E].
  { assert (unexpanded [] ≤ length ms)%nat by apply length_filter. simpl. lia. }
  exists ids. split; [done|].
  destruct (branch_ids_below top _ _ _ _ E) as (Hb & Hnd & _).
  { intros x ->%list_elem_of_singleton. constructor. }
  destruct (branch_ids_reached _ _ _ _ E) as [Hq Hc]; [by intros s x ?%elem_of_nil|].
  split; [done|]. intros x. split; [apply Hb|]. induction 1 as [|m p Hm Hp Hx IH].
  - destruct (Hq top) as [?|?%elem_of_nil]; [left|done..].
  - destruct (Hc p m.(m_id)) as [?|?%elem_of_nil]; [by left|by apply elem_of_child_ids; eauto|done..].
Qed.
End traversal.

(** ** Marking *)

Definition mark (ids : list string) (m : MessageRecord) : MessageRecord :=
  if mem_str m.(m_id) ids then m <| m_archived := true |> else m.

Lemma mark_columns ids ms :
  map (λ m, (skeleton m, m_active m)) (map (mark ids) ms) = map (λ m, (skeleton m, m_active m)) ms.
Proof. rewrite map_map. apply map_ext. intros m. unfold mark. by destruct (mem_str _ _). Qed.

(** Below a message off the branch nothing is on it. *)
Lemma below_inactive ms top x m :
  chat_active ms → NoDup (map m_id ms) → (∀ t, t ∈ ms → t.(m_id) = top → t.(m_active) = false) →
  below ms top x → m ∈ ms → m.(m_id) = x → m.(m_active) = false.
Proof.
  intros [Hup _] Hids Htop Hb. revert m. induction Hb as [|k p Hk Hp _ IH]; intros m Hm E; [by apply Htop|].
  apply not_true_is_false. intros Ha. apply list_elem_of_lookup in Hm as [i Hi].
  apply list_elem_of_lookup in Hk as [j Hj]. destruct (same_id ms Hids i j m k) as [_ ->]; [done..|].
  destruct (Hup k p) as (q & Hq & Hqp & Hqa); [by eapply list_elem_of_lookup_2|done..|].
  rewrite (IH q Hq Hqp) in Hqa. done.
Qed.

Lemma chat_archive_mark ms top ids :
  chat_archive ms → chat_active ms → NoDup (map m_id ms) →
  (∀ t, t ∈ ms → t.(m_id) = top → t.(m_active) = false) → (∀ x, x ∈ ids ↔ below ms top x) →
  chat_archive (map (mark ids) ms).
Proof.
  intros [Hdown Hlive] Hact Hids Htop Hbelow.
  assert (∀ m, m_archived (mark ids m) = mem_str m.(m_id) ids || m.(m_archived)) as Emark.
  { intros m. unfold mark. by destruct (mem_str _ _). }
  assert (∀ m, m_id (mark ids m) = m_id m ∧ m_parent_message_id (mark ids m) = m_parent_message_id m
    ∧ m_active (mark ids m) = m_active m) as Ekeep.
  { intros m. unfold mark. by destruct (mem_str _ _). }
  split.
  - intros m' q' (m & -> & Hm)%list_elem_of_fmap (q & -> & Hq)%list_elem_of_fmap.
    destruct (Ekeep m) as (_ & -> & _). destruct (Ekeep q) as (-> & _ & _). rewrite !Emark.
    intros Hp [Hin|Ha]%orb_true_iff; apply orb_true_iff.
    + left. apply bool_decide_eq_true in Hin. apply bool_decide_eq_true, Hbelow.
      eapply below_child; [done..|]. by apply Hbelow.
    + right. by apply (Hdown m q).
  - intros m' (m & -> & Hm)%list_elem_of_fmap. destruct (Ekeep m) as (_ & _ & ->). rewrite Emark.
    intros Ha. apply orb_false_iff. split; [|by apply Hlive].
    apply bool_decide_eq_false. intros Hin%Hbelow.
    by rewrite (below_inactive ms top _ m Hact Hids Htop Hin Hm eq_refl) in Ha.
Qed.
