(* ===== verification/Imports.v ===== *)
(** * What an import stores

    [validate_import]: the rows it lets through form a well-formed chat with
    one active branch, and archived branches carried down. *)

From stdpp Require Import gmap.
From S2P Require Export Forest.
Local Open Scope Z_scope.

(** A timestamp that can be stored and read back. *)
Lemma wire_checked_stable t s : wire_checked t = Ok s → ∀ host : Host, json_timestamp t = Ok t.
Proof.
  unfold wire_checked, wire_text. destruct t as [ms|]; [|done].
  destruct (validate_epoch ms) eqn:E; [|done]. intros _ host. apply in_range_spec in E. simpl.
  unfold json_i64, json_int. rewrite js_int_safe by (unfold max_safe; lia).
  assert (in_range i64_min i64_max ms = true) as ->; [|done]. apply in_range_spec.
  unfold i64_min, i64_max. lia.
Qed.

(** ** The renumbering pass *)

(** The pass after the rows [pre]. *)
Record pass_ok (pre : list MessageRecord) (s : ImportPass) : Prop := {
  pk_shape : chat_shape pre;
  pk_ids : NoDup (map m_id pre);
  pk_seen id d : s.(ip_seen) !! id = Some d →
    ∃ k q, pre !! k = Some q ∧ q.(m_id) = id ∧ q.(m_depth) = d;
  pk_known m : m ∈ pre → is_Some (s.(ip_seen) !! m.(m_id));
  pk_count p : 0 ≤ branch_count s p ≤ Z.of_nat (length pre);
  pk_branch m : m ∈ pre → m.(m_branch_index) < branch_count s m.(m_parent_message_id);
  pk_children m p : m ∈ pre → m.(m_archived) = false → m.(m_parent_message_id) = Some p →
    p ∈ s.(ip_children)
}.

(** What a row keeps of the message it comes from. *)
Definition imported (chat_id : string) (m m' : MessageRecord) : Prop :=
  m' = renumbered m chat_id m'.(m_order_key) m'.(m_depth) m'.(m_branch_index)
  ∧ (∃ s, wire_checked m.(m_created_at) = Ok s) ∧ (m.(m_active) && m.(m_archived)) = false.

Lemma pass_start_ok : pass_ok [] pass_start.
Proof.
  split.
  - by split.
  - apply NoDup_nil_2.
  - intros id d. unfold pass_start. simpl. by rewrite lookup_empty.
  - by intros m ?%elem_of_nil.
  - intros p. unfold branch_count, pass_start. simpl. rewrite lookup_empty. simpl. lia.
  - by intros m ?%elem_of_nil.
  - by intros m p ?%elem_of_nil.
Qed.

Lemma import_message_inv chat_id declared index m s m' s' :
  import_message chat_id declared index m s = Ok (m', s') →
  ∃ depth, imported chat_id m m'
    ∧ m' = renumbered m chat_id (Z.of_nat index + 1) depth (branch_count s m.(m_parent_message_id))
    ∧ s.(ip_seen) !! m.(m_id) = None
    ∧ match m.(m_parent_message_id) with
      | None => depth = 0
      | Some p => ∃ d, s.(ip_seen) !! p = Some d ∧ depth = wrapping_succ_u32 d
      end
    ∧ s' = mkPass (<[m.(m_id) := depth]> s.(ip_seen)) (live_children s m)
        (<[m.(m_parent_message_id) := wrapping_succ_u32 (branch_count s m.(m_parent_message_id))]>
          s.(ip_siblings)).
Proof.
  unfold import_message, guard_res. intros H.
  destruct (wire_checked (m_created_at m)) as [t|] eqn:Et; [|done]. cbn [mbind res_bind] in H.
  destruct (ip_seen s !! m_id m) as [x|] eqn:Eseen; [done|]. cbn [is_some negb] in H.
  destruct (valid_role (m_role m)); [|done]. cbn in H.
  destruct (m_active m && m_archived m) eqn:Eaa; [done|]. cbn [negb mbind res_bind] in H.
  unfold parent_depth in H.
  destruct (m_parent_message_id m) as [p|] eqn:Ep.
  - destruct (ip_seen s !! p) as [d|] eqn:Ed; [|done]. cbn in H. injection H as <- <-.
    exists (wrapping_succ_u32 d). split_and!; eauto. by split_and!; eauto.
  - cbn in H. injection H as <- <-. exists 0. split_and!; eauto. by split_and!; eauto.
Qed.

Lemma branch_count_insert s p v p' :
  branch_count (mkPass (ip_seen s) (ip_children s) (<[p := v]> s.(ip_siblings))) p'
  = if decide (p' = p) then v else branch_count s p'.
Proof.
  unfold branch_count. simpl. destruct (decide (p' = p)) as [->|Hne];
    [by rewrite lookup_insert_eq|by rewrite lookup_insert_ne].
Qed.

Lemma import_message_ok chat_id declared pre m s m' s' :
  import_message chat_id declared (length pre) m s = Ok (m', s') →
  Z.of_nat (length pre) < u32_max → pass_ok pre s →
  imported chat_id m m' ∧ pass_ok (pre ++ [m']) s'.
Proof.
  intros (depth & Him & Em & Hnew & Hdepth & Es)%import_message_inv Hlen
    [Hsh Hids Hseen Hknown Hcount Hbranch Hchild].
  split; [done|].
  pose proof (Hcount (m_parent_message_id m)) as Hb.
  assert (m_id m' = m_id m ∧ m_parent_message_id m' = m_parent_message_id m
    ∧ m_archived m' = m_archived m ∧ m_depth m' = depth
    ∧ m_branch_index m' = branch_count s (m_parent_message_id m)
    ∧ m_order_key m' = Z.of_nat (length pre) + 1) as (Eid & Epar & Earc & Edep & Ebr & Eok)
    by (by rewrite Em).
  assert (∀ p', branch_count s' p' = if decide (p' = m_parent_message_id m)
    then branch_count s (m_parent_message_id m) + 1 else branch_count s p') as Hcnt.
  { intros p'. subst s'. unfold branch_count at 1. simpl.
    pose proof (branch_count_insert s (m_parent_message_id m)
      (wrapping_succ_u32 (branch_count s (m_parent_message_id m))) p') as E.
    unfold branch_count at 1 in E. simpl in E. rewrite E. destruct (decide _); [|done].
    unfold wrapping_succ_u32, u32_max in *. rewrite Z.mod_small; lia. }
  assert (∀ k q d, pre !! k = Some q → q.(m_depth) = d → wrapping_succ_u32 d = d + 1
    ∧ 0 ≤ d ≤ Z.of_nat k) as Hd.
  { intros k q d Hq <-. apply lookup_lt_Some in Hq as Hlt.
    destruct (sh_row _ Hsh _ _ Hq) as (_ & Hdp & _). unfold wrapping_succ_u32, u32_max in *.
    rewrite Z.mod_small; lia. }
  assert (row_shape (pre ++ [m']) (length pre) m') as Hrow.
  { unfold row_shape. rewrite Eok, Ebr, Edep, Epar. split_and!; try lia.
    - destruct (m_parent_message_id m) as [p|]; [|lia].
      destruct Hdepth as (d & Hd1 & ->). destruct (Hseen _ _ Hd1) as (k & q & Hq & _ & Edq).
      unfold wrapping_succ_u32. apply Z.mod_pos_bound. lia.
    - destruct (m_parent_message_id m) as [p|]; [|lia].
      destruct Hdepth as (d & Hd1 & ->). destruct (Hseen _ _ Hd1) as (k & q & Hq & _ & Edq).
      apply lookup_lt_Some in Hq as Hlt. destruct (Hd _ _ _ Hq Edq) as [-> ?]. lia.
    - destruct (m_parent_message_id m) as [p|]; [|done].
      destruct Hdepth as (d & Hd1 & ->). destruct (Hseen _ _ Hd1) as (k & q & Hq & Eq & Edq).
      apply lookup_lt_Some in Hq as Hlt. exists k, q. destruct (Hd _ _ _ Hq Edq) as [-> ?].
      split_and!; [done|by rewrite lookup_app_l|done|lia]. }
  assert (∀ q, q ∈ pre → q.(m_id) ≠ m.(m_id)) as Hfresh.
  { intros q Hq E. destruct (Hknown q Hq) as [d Hd']. rewrite E in Hd'. congruence. }
  split.
  - apply chat_shape_snoc; [done|exact Hrow|]. intros q Hq Ep. rewrite Ebr, <-Epar, <-Ep.
    by apply Hbranch.
  - rewrite map_app. apply NoDup_app. split_and!; [done| |apply NoDup_singleton].
    intros x (q & -> & Hq)%list_elem_of_fmap Hin%list_elem_of_singleton.
    apply (Hfresh q Hq). by rewrite Hin.
  - intros id d. subst s'. simpl. rewrite lookup_insert_Some. intros [[<- <-]|[Hne H]].
    + exists (length pre), m'. split_and!; [|done|done]. by rewrite list_lookup_middle.
    + destruct (Hseen _ _ H) as (k & q & Hq & ? & ?). exists k, q. split_and!; [|done..].
      by apply lookup_app_l_Some.
  - intros q [Hq| ->%list_elem_of_singleton]%elem_of_app; subst s'; simpl.
    + apply lookup_insert_is_Some'. right. by apply Hknown.
    + rewrite Eid, lookup_insert_eq. by eexists.
  - intros p. rewrite Hcnt, length_app. simpl. specialize (Hcount p). destruct (decide _); lia.
  - intros q [Hq| ->%list_elem_of_singleton]%elem_of_app; rewrite Hcnt.
    + specialize (Hbranch q Hq). destruct (decide _) as [E|]; [|done]. rewrite E in Hbranch. lia.
    + rewrite decide_True by done. lia.
  - intros q p Hq Ha Hp. subst s'. simpl. unfold live_children.
    apply elem_of_app in Hq as [Hq| ->%list_elem_of_singleton].
    + pose proof (Hchild q p Hq Ha Hp). destruct (m_parent_message_id m); [|done].
      destruct (m_archived m); [done|]. by apply elem_of_union_r.
    + rewrite Epar in Hp. rewrite Hp. rewrite <-Earc, Ha. by apply elem_of_union_l, elem_of_singleton_2.
Qed.

Lemma import_messages_ok chat_id declared ms pre s ms' s' :
  import_messages chat_id declared (length pre) ms s = Ok (ms', s') →
  Z.of_nat (length pre + length ms) ≤ u32_max → pass_ok pre s →
  Forall2 (imported chat_id) ms ms' ∧ pass_ok (pre ++ ms') s'.
Proof.
  revert pre s ms' s'. induction ms as [|m ms IH]; intros pre s ms' s' H Hlen Hok; simpl in H.
  { injection H as <- <-. rewrite app_nil_r. by split; [constructor|]. }
  destruct (import_message _ _ _ m s) as [ [m1 s1]|] eqn:E1; [|done]. cbn [mbind res_bind] in H.
  simpl in Hlen. destruct (import_message_ok _ _ _ _ _ _ _ E1) as [Him Hok1]; [lia|done|].
  cbn [fst snd] in H. destruct (import_messages _ _ _ ms s1) as [ [ms1 s2]|] eqn:E2; [|done].
  cbn in H. injection H as <- <-.
  assert (S (length pre) = length (pre ++ [m1])) as El by (rewrite length_app; simpl; lia).
  rewrite El in E2. destruct (IH _ _ _ _ E2) as [Hf Hok2]; [rewrite length_app; simpl; lia|done|].
  rewrite <-app_assoc in Hok2. by split; [constructor|].
Qed.

Lemma import_messages_length chat_id declared index ms s ms' s' :
  import_messages chat_id declared index ms s = Ok (ms', s') → length ms = length ms'.
Proof.
  revert index s ms' s'. induction ms as [|m ms IH]; intros index s ms' s' H; simpl in H.
  { by injection H as <- <-. }
  destruct (import_message _ _ _ m s) as [r|]; [|done]. cbn [mbind res_bind] in H.
  destruct (import_messages _ _ _ ms r.2) as [ [ms1 s2]|] eqn:E; [|done]. cbn in H. injection H as <- <-.
  simpl. f_equal. by eapply IH.
Qed.

(** ** Archived ancestors *)

Section ancestors.
Variable ms : list MessageRecord.
Hypothesis (Hids : NoDup (map m_id ms)) (Hsh : chat_shape ms).

(** An ancestor that is archived. *)
Inductive below_archived : option string → Prop :=
  | ba_here q : q ∈ ms → q.(m_archived) = true → below_archived (Some q.(m_id))
  | ba_up q : q ∈ ms → below_archived q.(m_parent_message_id) → below_archived (Some q.(m_id)).

Lemma archived_at_fewer hops start :
  archived_at (S hops) ms start = true → archived_at hops ms start = true.
Proof.
  revert start. induction hops as [|hops IH]; intros [p|]; try done.
  - intros _. simpl. by rewrite orb_true_r.
  - intros H. change (existsb (λ m, String.eqb m.(m_id) p && m.(m_archived)) ms
      || archived_at (S hops) ms (find_message ms p ≫= m_parent_message_id) = true) in H.
    simpl. apply orb_true_iff in H as [->|H]; [done|]. apply orb_true_iff. right. by apply IH.
Qed.

Lemma archived_at_spec hops i q :
  ms !! i = Some q → (i < hops)%nat →
  archived_at hops ms (Some q.(m_id)) = true ↔ below_archived (Some q.(m_id)).
Proof.
  revert i q. induction hops as [|hops IH]; intros i q Hi Hlt; [lia|]. simpl.
  rewrite (find_message_row ms Hids _ _ Hi). simpl. rewrite orb_true_iff.
  apply list_elem_of_lookup_2 in Hi as Hq.
  assert (existsb (λ m, String.eqb (m_id m) (m_id q) && m_archived m) ms = true
    ↔ m_archived q = true) as Hex.
  { rewrite existsb_exists. split.
    - intros (m & Hm%list_elem_of_In & [E%String.eqb_eq Ha]%andb_true_iff).
      apply list_elem_of_lookup in Hm as [k Hk]. by destruct (same_id ms Hids k i m q) as [_ <-].
    - intros Ha. exists q. rewrite String.eqb_refl. split; [by apply list_elem_of_In|done]. }
  assert (archived_at hops ms (m_parent_message_id q) = true ↔ below_archived (m_parent_message_id q)) as Hup.
  { destruct (sh_row _ Hsh _ _ Hi) as (_ & _ & _ & Hpar). destruct (m_parent_message_id q) as [p|].
    - destruct Hpar as (k & x & Hk & Hx & <- & _). apply (IH k); [done|lia].
    - destruct hops; (split; [done|]); intros H; inversion H. }
  rewrite Hex, Hup. split.
  - intros [Ha|H]; [by apply ba_here|by apply ba_up].
  - intros H. remember (Some (m_id q)) as o eqn:Eo. destruct H as [x Hx Ha|x Hx H]; injection Eo as Eo;
      apply list_elem_of_lookup in Hx as [k Hk]; destruct (same_id ms Hids k i x q) as [_ ->]; auto.
Qed.

Lemma under_archived_spec m : m ∈ ms →
  under_archived ms m = true ↔ below_archived m.(m_parent_message_id).
Proof.
  intros [i Hi]%list_elem_of_lookup. unfold under_archived.
  destruct (sh_row _ Hsh _ _ Hi) as (_ & _ & _ & Hpar). destruct (m_parent_message_id m) as [p|].
  - destruct Hpar as (k & x & Hk & Hx & <- & _). apply (archived_at_spec _ k); [done|].
    by apply lookup_lt_Some in Hx.
  - destruct (length ms); (split; [done|]); intros H; inversion H.
Qed.

Lemma carry_columns : map (λ m, (skeleton m, m_active m)) (map (carry_archive ms) ms)
  = map (λ m, (skeleton m, m_active m)) ms.
Proof. rewrite map_map. apply map_ext. intros m. unfold carry_archive. by destruct (under_archived _ _). Qed.

Lemma carry_archived m : m ∈ ms →
  m_archived (carry_archive ms m) = true ↔ m.(m_archived) = true ∨ below_archived m.(m_parent_message_id).
Proof.
  intros Hm. rewrite <-(under_archived_spec m Hm). unfold carry_archive.
  destruct (under_archived ms m); simpl; intuition congruence.
Qed.

Lemma chat_archive_carry :
  (∀ m, m ∈ ms → m.(m_active) = true → m_archived (carry_archive ms m) = false) →
  chat_archive (map (carry_archive ms) ms).
Proof.
  intros Hlive.
  assert (∀ m, m_id (carry_archive ms m) = m_id m ∧ m_parent_message_id (carry_archive ms m)
    = m_parent_message_id m ∧ m_active (carry_archive ms m) = m_active m) as Ekeep.
  { intros m. unfold carry_archive. by destruct (under_archived _ _). }
  split.
  - intros m' q' (m & -> & Hm)%list_elem_of_fmap (q & -> & Hq)%list_elem_of_fmap.
    destruct (Ekeep m) as (_ & -> & _). destruct (Ekeep q) as (-> & _ & _).
    intros Hp [Ha|Hb]%carry_archived; [| |done]; apply carry_archived; try done; right; rewrite Hp;
      [by apply ba_here|by apply ba_up].
  - intros m' (m & -> & Hm)%list_elem_of_fmap. destruct (Ekeep m) as (_ & _ & ->). by apply Hlive.
Qed.
End ancestors.

(** ** The active path *)

Lemma chained_parent prev path leaf i m :
  chained prev path = Ok leaf → path !! i = Some m →
  m.(m_parent_message_id) = match i with O => prev | S k => m_id <$> path !! k end.
Proof.
  revert prev i. induction path as [|x path IH]; intros prev i H Hi; [done|]. simpl in H.
  destruct (ostr_eqb _ _) eqn:E; [|done]. apply bool_decide_eq_true in E.
  destruct i as [|i]; simpl in *; [by injection Hi as <-|].
  rewrite (IH _ _ H Hi). by destruct i.
Qed.

Lemma chained_leaf prev path x leaf : chained prev (path ++ [x]) = Ok leaf → leaf = Some x.(m_id).
Proof.
  revert prev. induction path as [|y path IH]; intros prev H; simpl in H; destruct (ostr_eqb _ _); try done.
  - by injection H as <-.
  - by eapply IH.
Qed.

Lemma elem_of_active_path ms m : m ∈ active_path_of ms ↔ m ∈ ms ∧ m.(m_active) = true.
Proof.
  unfold active_path_of. rewrite (sort_by_perm path_le (filter_by m_active ms)), elem_of_filter_by. tauto.
Qed.

Lemma chat_active_chained ms leaf :
  NoDup (map m_id ms) → chained None (active_path_of ms) = Ok leaf → chat_active ms.
Proof.
  intros Hids Hc.
  assert (NoDup (map m_id (active_path_of ms))) as Hpids.
  { unfold active_path_of. rewrite (sort_by_perm path_le (filter_by m_active ms)).
    by apply NoDup_map_filter. }
  split.
  - intros m p Hm Ha Hp. assert (m ∈ active_path_of ms) as [i Hi]%list_elem_of_lookup
      by (by apply elem_of_active_path).
    rewrite (chained_parent _ _ _ _ _ Hc Hi) in Hp. destruct i as [|k]; [done|].
    apply fmap_Some in Hp as (q & Hq & ->). apply list_elem_of_lookup_2, elem_of_active_path in Hq as [? ?].
    by exists q.
  - intros i k m q Hi Hk Ham Haq Ep.
    assert (m = q) as ->; [|by destruct (same_id ms Hids i k q q)].
    assert (m ∈ active_path_of ms) as [a Ha]%list_elem_of_lookup
      by (apply elem_of_active_path; split; [by eapply list_elem_of_lookup_2|done]).
    assert (q ∈ active_path_of ms) as [b Hb]%list_elem_of_lookup
      by (apply elem_of_active_path; split; [by eapply list_elem_of_lookup_2|done]).
    rewrite (chained_parent _ _ _ _ _ Hc Ha), (chained_parent _ _ _ _ _ Hc Hb) in Ep.
    destruct a as [|a], b as [|b]; [congruence|..].
    + destruct (active_path_of ms !! b) eqn:E; [done|]. apply lookup_ge_None in E.
      apply lookup_lt_Some in Hb. lia.
    + destruct (active_path_of ms !! a) eqn:E; [done|]. apply lookup_ge_None in E.
      apply lookup_lt_Some in Ha. lia.
    + destruct (lookup_lt_is_Some_2 (active_path_of ms) a) as [x Hx]; [apply lookup_lt_Some in Ha; lia|].
      destruct (lookup_lt_is_Some_2 (active_path_of ms) b) as [y Hy]; [apply lookup_lt_Some in Hb; lia|].
      rewrite Hx, Hy in Ep. simpl in Ep. injection Ep as Ep.
      destruct (same_id _ Hpids a b x y Hx Hy Ep) as [-> _]. congruence.
Qed.

(** ** What is let through *)

(** A stored row against the message it comes from: its place in the tree is
    assigned, the archive flag carried down, the rest kept. *)
Definition imports (chat_id : string) (below : Prop) (m m' : MessageRecord) : Prop :=
  m' = renumbered m chat_id m'.(m_order_key) m'.(m_depth) m'.(m_branch_index) <| m_archived := m'.(m_archived) |>
  ∧ (m'.(m_archived) = true ↔ m.(m_archived) = true ∨ below)
  ∧ ∃ s, wire_checked m.(m_created_at) = Ok s.

Lemma validate_import_inv input ms :
  validate_import input = Ok ms →
  ∃ raw s leaf, import_messages input.(im_chat).(ch_id) (map m_id input.(im_messages)) 0
      input.(im_messages) pass_start = Ok (raw, s)
    ∧ ms = map (carry_archive raw) raw
    ∧ (∀ m, m ∈ ms → m.(m_active) = true → m.(m_archived) = false)
    ∧ chained None (active_path_of ms) = Ok leaf
    ∧ (ms ≠ [] → active_path_of ms ≠ [])
    ∧ (∀ id, leaf = Some id → id ∉ s.(ip_children)).
Proof.
  unfold validate_import. intros (t & _ & H)%res_bind_Ok.
  apply res_bind_Ok in H as ([raw s] & Er & H). cbn [fst snd] in H.
  apply res_bind_Ok in H as (u1 & E1%guard_res_Ok & H).
  apply res_bind_Ok in H as (u2 & E2%guard_res_Ok & H).
  apply res_bind_Ok in H as (leaf & Ec & H).
  apply res_bind_Ok in H as (u3 & E3%guard_res_Ok & H). injection H as <-.
  exists raw, s, leaf. split_and!; try done.
  - intros m Hm Ha. apply negb_true_iff in E1. pose proof (proj1 (existsb_false _ _) E1 m Hm) as Hf.
    simpl in Hf. rewrite Ha in Hf. by apply orb_false_iff in Hf as [? _].
  - intros Hne Hp. rewrite Hp in E2. destruct raw; [done|]. discriminate E2.
  - intros id ->. apply negb_true_iff in E3. simpl in E3. by apply bool_decide_eq_false in E3.
Qed.

Lemma validate_import_ok input ms :
  validate_import input = Ok ms → Z.of_nat (length input.(im_messages)) ≤ u32_max →
  NoDup (map m_id ms) ∧ chat_shape ms ∧ chat_active ms ∧ chat_archive ms
  ∧ Forall2 (λ m m', imports input.(im_chat).(ch_id) (below_archived ms m.(m_parent_message_id)) m m')
      input.(im_messages) ms
  ∧ (ms ≠ [] → ∃ leaf, leaf ∈ ms ∧ leaf.(m_active) = true ∧ kids ms leaf = []).
Proof.
  intros (raw & s & leaf & Hraw & Ems & Hlive & Hc & Hne & Hleaf)%validate_import_inv Hlen.
  destruct (import_messages_ok _ _ _ [] _ _ _ Hraw) as [Hf [Hsh Hids _ _ _ _ Hch] ];
    [simpl; lia|apply pass_start_ok|]. simpl in *.
  pose proof (carry_columns raw) as Ecol. rewrite <-Ems in Ecol.
  assert (map m_id ms = map m_id raw) as Eids.
  { rewrite Ems, map_map. apply map_ext. intros m. unfold carry_archive. by destruct (under_archived _ _). }
  assert (NoDup (map m_id ms)) as Hids' by by rewrite Eids.
  assert (∀ p, below_archived ms p ↔ below_archived raw p) as Hbelow.
  { intros p. split.
    - induction 1 as [q Hq Ha|q Hq _ IH]; rewrite Ems in Hq;
        apply list_elem_of_fmap in Hq as (x & -> & Hx).
      + assert (m_id (carry_archive raw x) = m_id x) as ->
          by (unfold carry_archive; by destruct (under_archived _ _)).
        apply (carry_archived raw Hids Hsh x Hx) in Ha as [Ha|Ha]; [by apply ba_here|by apply ba_up].
      + assert (m_id (carry_archive raw x) = m_id x
          ∧ m_parent_message_id (carry_archive raw x) = m_parent_message_id x) as [-> E]
          by (unfold carry_archive; by destruct (under_archived _ _)).
        rewrite E in IH. by apply ba_up.
    - induction 1 as [q Hq Ha|q Hq _ IH].
      + assert (m_id (carry_archive raw q) = m_id q) as <-
          by (unfold carry_archive; by destruct (under_archived _ _)).
        apply ba_here; [rewrite Ems; by apply list_elem_of_fmap_2|].
        apply (carry_archived raw Hids Hsh q Hq). auto.
      + assert (m_id (carry_archive raw q) = m_id q
          ∧ m_parent_message_id (carry_archive raw q) = m_parent_message_id q) as [<- E]
          by (unfold carry_archive; by destruct (under_archived _ _)).
        apply ba_up; [rewrite Ems; by apply list_elem_of_fmap_2|]. by rewrite E. }
  split_and!; [done| | | | |].
  - eapply chat_shape_skeleton; [|exact Hsh]. rewrite Ems, map_map. apply map_ext.
    intros m. unfold carry_archive. by destruct (under_archived _ _).
  - by eapply chat_active_chained.
  - rewrite Ems. apply chat_archive_carry; [done..|]. intros m Hm Ha. apply Hlive.
    + rewrite Ems. by apply list_elem_of_fmap_2.
    + unfold carry_archive. by destruct (under_archived _ _).
  - rewrite Ems, <-(map_id input.(im_messages)). apply Forall2_fmap.
    apply Forall2_same_length_lookup. split; [by eapply Forall2_length|].
    intros i m x Hm Hx. pose proof (Forall2_lookup_lr _ _ _ _ _ _ Hf Hm Hx) as (Ex & Hw & _).
    apply list_elem_of_lookup_2 in Hx. split_and!; [| |done].
    + unfold carry_archive. rewrite Ex. destruct (under_archived _ _); reflexivity.
    + rewrite (carry_archived raw Hids Hsh x Hx), Ex. simpl. by rewrite <-Ems, Hbelow.
  - intros Hms. destruct (active_path_of ms) as [|x l _] eqn:Ep using rev_ind; [by destruct (Hne Hms)|].
    assert (x ∈ active_path_of ms) as [Hx Ha]%elem_of_active_path
      by (rewrite Ep, elem_of_app; right; left).
    exists x. split_and!; [done..|]. apply chained_leaf in Hc as ->.
    apply filter_by_none. intros k Hk. apply not_true_is_false.
    intros [Hp Hka]%andb_true_iff. apply bool_decide_eq_true in Hp. apply negb_true_iff in Hka.
    apply (Hleaf x.(m_id) eq_refl). rewrite Ems in Hk. apply list_elem_of_fmap in Hk as (y & -> & Hy).
    assert (m_archived y = false) as Hya.
    { apply not_true_is_false. intros E. assert (m_archived (carry_archive raw y) = true); [|congruence].
      apply (carry_archived raw Hids Hsh y Hy). auto. }
    apply (Hch y); [done..|]. rewrite <-Hp. unfold carry_archive. by destruct (under_archived _ _).
Qed.
