(* ===== verification/MessageTable.v ===== *)
(** * The message table

    Every chat of the table is a well-formed forest: the statements of
    [conversations.rs] one by one, and the relation the operations outside
    [history.rs] stay in. *)

From S2P Require Export Forest.
Local Open Scope Z_scope.

Section table.
Context {host : Host}.

Definition chat_rows (c : string) (d : Db) : list MessageRecord :=
  filter_by (λ m, String.eqb m.(m_chat_id) c) d.(db_messages).

(** A row that reads back as it is. *)
Definition stable (b : bool) (m : MessageRecord) : Prop := json_message b m = Ok m.

Record threads_shape (d : Db) : Prop := {
  th_ids : NoDup (map m_id d.(db_messages));
  th_chat c : chat_shape (chat_rows c d);
  th_stable m : m ∈ d.(db_messages) → stable d.(db_file) m
}.
Definition chat_ok (ms : list MessageRecord) : Prop := chat_active ms ∧ chat_archive ms.
Definition threads_ok (d : Db) : Prop := threads_shape d ∧ ∀ c, chat_ok (chat_rows c d).

(** *** Stored rows *)

Lemma json_value_twice b v : json_value b (json_value b v) = json_value b v.
Proof. destruct b; [apply javascript_json_idempotent|done]. Qed.

Lemma json_ovalue_twice b o : json_ovalue b (json_ovalue b o) = json_ovalue b o.
Proof.
  destruct o as [v|]; simpl; [|done]. destruct (is_null (json_value b v)) eqn:E; [done|].
  simpl. by rewrite json_value_twice, E.
Qed.

Lemma stable_columns b m :
  json_u64 m.(m_order_key) = Ok m.(m_order_key) → json_timestamp m.(m_created_at) = Ok m.(m_created_at) →
  ∃ j, json_message b m = Ok j ∧ stable b j ∧ j = mkMessage m.(m_id) m.(m_chat_id) m.(m_run_id) m.(m_role)
    (json_value b m.(m_content)) m.(m_parent_message_id) m.(m_tool_call_id)
    (json_ovalue b m.(m_tool_calls)) m.(m_model_result_json)
    (json_value b m.(m_metadata)) m.(m_order_key) m.(m_depth) m.(m_branch_index)
    m.(m_active) m.(m_archived) m.(m_created_at).
Proof.
  intros Hk Ht. unfold json_message. rewrite Hk. cbn [mbind res_bind]. rewrite Ht.
  eexists. split; [reflexivity|]. split; [|done]. unfold stable, json_message. simpl.
  rewrite Hk. simpl. rewrite Ht. simpl. by rewrite !json_value_twice, json_ovalue_twice.
Qed.

Lemma stable_inv b m : stable b m →
  json_u64 m.(m_order_key) = Ok m.(m_order_key)
  ∧ json_timestamp m.(m_created_at) = Ok m.(m_created_at)
  ∧ json_value b m.(m_content) = m.(m_content) ∧ json_ovalue b m.(m_tool_calls) = m.(m_tool_calls)
  ∧ json_value b m.(m_metadata) = m.(m_metadata).
Proof.
  unfold stable, json_message. destruct m. simpl.
  destruct (json_u64 _) as [k|]; [|done]. cbn [mbind res_bind].
  destruct (json_timestamp _) as [t|]; [|done]. cbn [mret res_ret].
  intros H. injection H as E1 E2 E3 E4 E5. by rewrite E1, E2, E3, E4, E5.
Qed.

Lemma stable_active b m v : stable b m → stable b (m <| m_active := v |>).
Proof.
  intros (Hk & Ht & Hc & Htc & Hm)%stable_inv. unfold stable, json_message.
  destruct m. simpl in *. rewrite Hk. simpl. rewrite Ht. simpl. by rewrite Hc, Htc, Hm.
Qed.

(** An order key of a counted row, and a stamped instant, are safe. *)
Lemma json_u64_safe z : 0 ≤ z ≤ max_safe → json_u64 z = Ok z.
Proof.
  intros Hz. unfold json_u64, json_int. rewrite js_int_safe by (unfold max_safe in *; lia).
  assert (in_range 0 u64_max z = true) as ->; [|done]. apply in_range_spec.
  unfold max_safe, u64_max in *. lia.
Qed.

Lemma epoch_of_stable now t : epoch_of now = Ok t → json_timestamp t = Ok t.
Proof.
  unfold epoch_of, from_epoch_millis. destruct (validate_epoch now) eqn:E; [|done].
  intros [= <-]. apply in_range_spec in E. simpl. unfold json_i64, json_int.
  rewrite js_int_safe by (unfold max_safe; lia).
  assert (in_range i64_min i64_max now = true) as ->; [|done]. apply in_range_spec.
  unfold i64_min, i64_max. lia.
Qed.

(** *** Activating a branch *)

Lemma set_active_same path m : Bool.eqb m.(m_active) (mem_str m.(m_id) path) = true → set_active path m = m.
Proof. intros E%Bool.eqb_prop. unfold set_active. rewrite <-E. by destruct m. Qed.

Lemma update_messages_ext (l l' : list MessageRecord) d :
  l = l' → d <| db_messages := l |> = d <| db_messages := l' |>.
Proof. by intros ->. Qed.
Lemma update_messages_twice (k l l' : list MessageRecord) d :
  l = l' → d <| db_messages := k |> <| db_messages := l |> = d <| db_messages := l' |>.
Proof. by intros ->. Qed.

Lemma activation_loop path l d :
  NoDup (map m_id d.(db_messages)) → (∀ m, m ∈ d.(db_messages) → stable d.(db_file) m) →
  NoDup (map m_id l) → (∀ m, m ∈ l → m ∈ d.(db_messages)) →
  for_each (activation path) l d = Ok (tt, d <| db_messages :=
    map (λ m, if mem_str m.(m_id) (map m_id l) then set_active path m else m) d.(db_messages) |>).
Proof.
  intros Hids Hst. revert d Hids Hst. induction l as [|a l IH]; intros d Hids Hst Hnd Hl.
  { simpl. unfold mret, st_ret. do 2 f_equal. rewrite map_id. by destruct d. }
  simpl in Hnd. apply NoDup_cons in Hnd as [Ha Hnd]. cbn [for_each].
  assert (∀ m, m ∈ db_messages d → m.(m_id) = a.(m_id) → m = a) as Huniq.
  { intros m Hm E. pose proof (find_row_elem _ m Hids Hm) as H1.
    pose proof (find_row_elem _ a Hids (Hl a (list_elem_of_here _ _))) as H2. simpl in H1, H2.
    rewrite E in H1. congruence. }
  destruct (Bool.eqb (m_active a) (mem_str (m_id a) path)) eqn:Eq.
  - assert (activation path a d = Ok (tt, d)) as Hskip by (unfold activation; by rewrite Eq).
    rewrite (st_bind_step _ _ _ _ _ Hskip). rewrite IH; [|done..|intros m Hm; apply Hl; by right].
    f_equal. f_equal. apply update_messages_ext, map_ext_in. intros m Hm%list_elem_of_In.
    simpl map. destruct (decide (m_id m = m_id a)) as [E|Hne]; [|by rewrite mem_cons].
    rewrite (Huniq _ Hm E), (set_active_same _ _ Eq). by repeat case_match.
  - assert (stable (db_file d) (set_active path a)) as Hsa.
    { apply stable_active, Hst, Hl. left. }
    assert (activation path a d = Ok (tt, d <| db_messages :=
      replace_row (set_active path a) d.(db_messages) |>)) as Hsave.
    { unfold activation. rewrite Eq. apply update_row_Ok. exists (set_active path a). split; [exact Hsa|done]. }
    rewrite (st_bind_step _ _ _ _ _ Hsave). rewrite IH.
    + simpl. f_equal. f_equal. apply update_messages_twice. unfold replace_row. rewrite map_map.
      apply map_ext_in. intros m Hm%list_elem_of_In. simpl row_key.
      destruct (String.eqb_spec (m_id m) (m_id a)) as [E|Hne].
      * rewrite (Huniq _ Hm E). simpl. rewrite mem_here. unfold mem_str at 1.
        by rewrite bool_decide_false.
      * by rewrite mem_cons.
    + simpl. pose proof (replace_row_keys (set_active path a) (db_messages d)) as K. simpl in K.
      by rewrite K.
    + intros m Hm. simpl in Hm. apply elem_of_replace_row in Hm as [ [-> _]|[Hm _] ]; [done|].
      by apply Hst.
    + done.
    + intros m Hm. simpl. apply list_elem_of_fmap. exists m. split; [|apply Hl; by right].
      simpl. destruct (String.eqb_spec (m_id m) (m_id a)) as [E|]; [|done].
      exfalso. apply Ha. rewrite <-E. by apply list_elem_of_fmap_2.
Qed.

(** The chat's rows under the branch [path]. *)
Definition activated (c : string) (path : list string) (d : Db) : Db :=
  d <| db_messages := map (λ m, if String.eqb m.(m_chat_id) c then set_active path m else m)
                        d.(db_messages) |>.

Lemma chat_rows_ids c d : NoDup (map m_id d.(db_messages)) → NoDup (map m_id (chat_rows c d)).
Proof. apply NoDup_map_filter. Qed.

Lemma elem_of_chat_rows c d m : m ∈ chat_rows c d ↔ m.(m_chat_id) = c ∧ m ∈ d.(db_messages).
Proof. unfold chat_rows. by rewrite elem_of_filter_by, String.eqb_eq. Qed.

Lemma filter_by_map {A B} (p : B → bool) (f : A → B) l :
  filter_by p (map f l) = map f (filter_by (λ a, p (f a)) l).
Proof.
  unfold filter_by. induction l as [|a l IH]; [done|]. simpl. rewrite !filter_cons, IH.
  by destruct (p (f a)).
Qed.

Lemma chat_rows_activated c c' path d :
  chat_rows c' (activated c path d) =
    if String.eqb c' c then map (set_active path) (chat_rows c d) else chat_rows c' d.
Proof.
  unfold chat_rows, activated. simpl. rewrite filter_by_map.
  destruct (String.eqb_spec c' c) as [->|Hne].
  - rewrite (filter_by_ext _ (λ m, String.eqb m.(m_chat_id) c))
      by (intros m _; destruct (String.eqb (m_chat_id m) c) eqn:E; simpl; by rewrite E).
    apply map_ext_in. intros m [Hm _]%list_elem_of_In%elem_of_filter_by. by rewrite Hm.
  - rewrite (filter_by_ext _ (λ m, String.eqb m.(m_chat_id) c'))
      by (intros m _; by destruct (String.eqb (m_chat_id m) c)).
    etrans; [|apply map_id]. apply map_ext_in.
    intros m [Hm%String.eqb_eq _]%list_elem_of_In%elem_of_filter_by. rewrite Hm.
    by destruct (String.eqb_spec c' c).
Qed.

(** [activate] on a well-formed chat: it returns, with the branch. *)
Lemma activate_Ok d id target :
  threads_shape d → find_row id d.(db_messages) = Some target → target.(m_archived) = false →
  let ms := chat_rows target.(m_chat_id) d in
  ∃ leaf path, leaf ∈ ms ∧ kids ms leaf = [] ∧ up_chain ms (Some leaf.(m_id)) path ∧ id ∈ path
    ∧ leaf.(m_archived) = false
    ∧ activate id d = Ok (filter_by m_active (map (set_active path) ms),
        activated target.(m_chat_id) path d).
Proof.
  intros [Hids Hsh Hst] Hf Har ms. specialize (Hsh target.(m_chat_id)). fold ms in Hsh.
  pose proof (find_row_Some _ _ _ Hf) as [Hin Hid]. simpl in Hid.
  pose proof (chat_rows_ids target.(m_chat_id) d Hids) as Hmids. fold ms in Hmids.
  assert (target ∈ ms) as Htm by by apply elem_of_chat_rows.
  destruct (path_of_Ok ms Hmids (shape_parents_first _ Hsh) target Htm)
    as (leaf & path & Hp & Hleaf & Hk & Hc & Hmem & Hla).
  exists leaf, path. rewrite Hid in Hmem. split_and!; try done; [by apply Hla|].
  unfold activate. erewrite st_bind_step by (apply required_Ok; split; [exact Hf|reflexivity]).
  rewrite Har. cbn [negb guard_or].
  erewrite st_bind_step by reflexivity. unfold chat_messages.
  erewrite st_bind_step by reflexivity. change (filter_by _ (tbl d)) with ms. rewrite Hp.
  erewrite st_bind_step by reflexivity.
  assert (∀ m, m ∈ ms → m ∈ db_messages d) as Hsub by (by intros m [_ ?]%elem_of_chat_rows).
  rewrite (st_bind_step _ _ _ _ _ (activation_loop path ms d Hids Hst Hmids Hsub)).
  unfold mret, st_ret. f_equal. f_equal.
  - apply sort_by_id. apply sorted_filter, sorted_map. by apply rows_sorted.
  - apply update_messages_ext, map_ext_in. intros m Hm%list_elem_of_In.
    destruct (String.eqb_spec (m_chat_id m) (m_chat_id target)) as [E|Hne].
    + unfold mem_str. rewrite bool_decide_true; [done|]. apply list_elem_of_fmap_2.
      by apply elem_of_chat_rows.
    + unfold mem_str. rewrite bool_decide_false; [done|].
      intros (q & Eq & [Hq Hqd]%elem_of_chat_rows)%list_elem_of_fmap.
      pose proof (find_row_elem _ m Hids Hm) as H1. pose proof (find_row_elem _ q Hids Hqd) as H2.
      simpl in H1, H2. congruence.
Qed.

(** *** What keeps the trees well formed *)

Lemma set_active_skeleton path ms : map skeleton (map (set_active path) ms) = map skeleton ms.
Proof. rewrite map_map. by apply map_ext. Qed.

Lemma activated_ok c leaf path d :
  threads_shape d → (∀ c', c' ≠ c → chat_active (chat_rows c' d)) →
  (∀ c', chat_archive (chat_rows c' d)) →
  up_chain (chat_rows c d) (Some leaf.(m_id)) path → leaf ∈ chat_rows c d →
  leaf.(m_archived) = false → threads_ok (activated c path d).
Proof.
  intros [Hids Hsh Hst] Hact Har Hc Hleaf Hlive. split; [split|].
  - unfold activated. simpl. rewrite map_map. erewrite map_ext; [exact Hids|].
    intros m. by destruct (String.eqb _ _).
  - intros c'. rewrite chat_rows_activated. destruct (String.eqb_spec c' c) as [->|]; [|done].
    eapply chat_shape_skeleton; [apply set_active_skeleton|done].
  - unfold activated. simpl. intros m' (m & -> & Hm)%list_elem_of_fmap.
    destruct (String.eqb _ _); [|by apply Hst]. apply stable_active. by apply Hst.
  - intros c'. rewrite chat_rows_activated. destruct (String.eqb_spec c' c) as [->|]; [|by split; auto].
    split.
    + eapply chat_active_path; [by apply chat_rows_ids|by apply shape_parents_first|exact Hc].
    + eapply chat_archive_path; [done|by apply chat_rows_ids|exact Hc|done|done].
Qed.

Lemma activate_inv id d l d' : activate id d = Ok (l, d') →
  ∃ target, find_row id d.(db_messages) = Some target ∧ target.(m_archived) = false.
Proof.
  unfold activate. intros H. inv_st.
  match goal with H : required _ _ = _ |- _ => apply required_Ok in H as [Hf ->] end.
  eexists. split; [exact Hf|]. by apply negb_true_iff.
Qed.

Lemma activate_threads id d l d' c :
  activate id d = Ok (l, d') → threads_shape d → (∀ c', c' ≠ c → chat_active (chat_rows c' d)) →
  (∀ c', chat_archive (chat_rows c' d)) →
  (∀ m, find_row id d.(db_messages) = Some m → m.(m_chat_id) = c) → threads_ok d'.
Proof.
  intros H Hsh Hact Har Hc. destruct (activate_inv _ _ _ _ H) as (target & Hf & Hta).
  destruct (activate_Ok d id target Hsh Hf Hta) as (leaf & path & Hleaf & _ & Hch & _ & Hla & E).
  rewrite E in H. injection H as _ <-. eapply activated_ok; [done| |done|exact Hch|done|done].
  by rewrite (Hc _ Hf).
Qed.

(** *** Appending a row *)

Lemma append_inv input now d m d' :
  Conversations.append input now d = Ok (m, d') →
  ∃ c parent_id parent id at_ j d1, parent_found (chat_rows c d) parent_id parent
    ∧ m = new_message (chat_rows c d) input id c parent_id parent at_
    ∧ json_timestamp at_ = Ok at_ ∧ json_message d.(db_file) m = Ok j
    ∧ find_row m.(m_id) d.(db_messages) = None
    ∧ d1.(db_messages) = d.(db_messages) ++ [j] ∧ d1.(db_file) = d.(db_file)
    ∧ ∃ d2, (if input.(mi_activate) then ∃ l, activate m.(m_id) d1 = Ok (l, d2) else d2 = d1)
      ∧ d'.(db_messages) = d2.(db_messages) ∧ d'.(db_file) = d2.(db_file).
Proof.
  unfold Conversations.append, chat_messages, order_key_free, touch_chat. intros H. inv_st.
  match goal with H : required _ _ = _ |- _ => apply required_Ok in H as [Hchat ->] end.
  match goal with H : select _ _ = _ |- _ => apply st_gets_Ok in H as [-> ->] end.
  match goal with H : get _ _ = _ |- _ => apply st_gets_Ok in H as [-> ->] end.
  match goal with H : live_parent _ _ = Ok ?p |- _ => apply live_parent_Ok in H; rename p into parent end.
  match goal with H : insert_row _ _ = _ |- _ => apply insert_row_Ok in H as (j & Hj & Hfree & ->) end.
  match goal with H : update_row _ _ = _ |- _ => apply update_row_Ok in H as (jc & _ & ->) end.
  match goal with H : match mi_id input with _ => _ end d = Ok (_, ?d0) |- _ =>
    assert (db_messages d0 = db_messages d ∧ db_file d0 = db_file d) as [Em Ef]
      by (destruct (mi_id input); [by inv_st|by injection H as _ <-]) end.
  simpl in Hj, Hfree. rewrite Em in Hfree. rewrite Ef in Hj.
  match goal with H : (if mi_activate input then _ else _) ?da = Ok (_, ?db) |- _ =>
    rename H into Hact; rename db into d2; exists (ch_id x1), (parent_for (chat_rows (ch_id x1) d) input);
    eexists _, _, _, j, da end.
  split_and!; [eassumption|reflexivity|eapply epoch_of_stable; eassumption|exact Hj|exact Hfree|by simpl; rewrite Em|done|].
  exists d2. split; [|done]. destruct (mi_activate input); inv_st; [eauto|done].
Qed.

Lemma new_row_chat d j c' : chat_rows c' (d <| db_messages := d.(db_messages) ++ [j] |>) =
  if String.eqb j.(m_chat_id) c' then chat_rows c' d ++ [j] else chat_rows c' d.
Proof.
  unfold chat_rows. simpl. rewrite filter_by_app. unfold filter_by at 2. rewrite filter_cons.
  simpl. destruct (String.eqb (m_chat_id j) c') eqn:E; simpl; [done|]. by rewrite app_nil_r.
Qed.

Lemma append_threads input now d m d' :
  Conversations.append input now d = Ok (m, d') → Z.of_nat (length d'.(db_messages)) ≤ u32_max →
  (length d.(db_messages) < length d'.(db_messages))%nat → threads_ok d → threads_ok d'.
Proof.
  intros (c & parent_id & parent & id & at_ & j & d1 & Hpar & Em & Hat & Hj & Hfree & Em1 & Ef1
    & d2 & Hact & Em2 & Ef2)%append_inv Hlen Hlt [Hsh Hac].
  assert (Z.of_nat (length (chat_rows c d)) < u32_max) as Hrows.
  { assert (length (chat_rows c d) ≤ length (db_messages d))%nat; [apply length_filter|lia]. }
  destruct Hsh as [Hids Hsh Hst]. pose proof (max_order_key _ (Hsh c)) as Hmax.
  assert (json_u64 (m_order_key m) = Ok (m_order_key m)) as Hkey.
  { apply json_u64_safe. rewrite Em. simpl. rewrite Hmax. unfold wrapping_succ_u64.
    unfold u32_max, max_safe in *. rewrite Z.mod_small; lia. }
  destruct (stable_columns (db_file d) m) as (j' & Hj' & Hstj & Ej); [done|by rewrite Em|].
  rewrite Hj in Hj'. injection Hj' as <-.
  assert (skeleton j = skeleton m) as Eskel by by rewrite Ej.
  assert (m_chat_id j = c) as Ejc by (rewrite Ej, Em; done).
  set (d1' := d <| db_messages := d.(db_messages) ++ [j] |>).
  assert (∀ c', chat_rows c' d1 = chat_rows c' d1') as Erows.
  { intros c'. unfold chat_rows. by rewrite Em1. }
  assert (threads_shape d1) as Hsh1.
  { split.
    - rewrite Em1. pose proof (insert_row_NoDup j (db_messages d)) as K. simpl in K. apply K; [done|].
      injection Eskel as -> _ _ _ _. exact Hfree.
    - intros c'. rewrite Erows. unfold d1'. rewrite new_row_chat, Ejc.
      destruct (String.eqb_spec c c') as [<-|]; [|done].
      eapply chat_shape_append; [done|done|exact Hpar|]. rewrite Eskel, Em. reflexivity.
    - rewrite Em1, Ef1. intros q [Hq| ->%list_elem_of_singleton]%elem_of_app; [by apply Hst|done]. }
  assert (∀ c', c' ≠ c → chat_active (chat_rows c' d1)) as Hoth.
  { intros c' Hne. rewrite Erows. unfold d1'. rewrite new_row_chat, Ejc.
    destruct (String.eqb_spec c c') as [<-|]; [done|apply Hac]. }
  assert (m_archived j = false) as Eja by (rewrite Ej, Em; done).
  assert (∀ c', chat_archive (chat_rows c' d1)) as Har.
  { intros c'. pose proof (chat_rows_ids c' d1 (th_ids _ Hsh1)) as Hnd. rewrite Erows in Hnd |- *.
    unfold d1' in Hnd |- *. rewrite new_row_chat, Ejc in Hnd |- *.
    destruct (String.eqb c c') eqn:Ecc; [|apply Hac]. apply String.eqb_eq in Ecc as <-.
    eapply chat_archive_append; [apply Hac|by apply shape_parents_first|done|exact Hpar| |done].
    injection Eskel as _ -> _ _ _. by rewrite Em. }
  assert (threads_ok d2) as Hok2.
  { destruct (mi_activate input) eqn:Ea.
    - destruct Hact as [l Hact]. eapply (activate_threads _ _ _ _ c); [exact Hact|done..|].
      intros q Hq. rewrite Em1, find_row_app, Hfree in Hq. unfold find_row in Hq. simpl in Hq.
      destruct (String.eqb _ _); [|done]. by injection Hq as <-.
    - subst d2. split; [done|]. intros c'. split; [|done]. destruct (decide (c' = c)) as [->|Hne]; [|auto].
      rewrite Erows. unfold d1'. rewrite new_row_chat, Ejc, String.eqb_refl.
      eapply chat_active_append; [apply Hac|exact Hpar|exact Ea|by rewrite Ej, Em|by rewrite Ej, Em]. }
  clear -Hok2 Em2 Ef2. destruct Hok2 as [ [Hids Hsh Hst] Hac]. split; [split|].
  - by rewrite Em2.
  - intros c'. specialize (Hsh c'). unfold chat_rows in *. by rewrite Em2.
  - by rewrite Em2, Ef2.
  - intros c'. specialize (Hac c'). unfold chat_rows in *. by rewrite Em2.
Qed.

(** *** Rewriting a row in place *)

Definition columns (m : MessageRecord) := (m.(m_chat_id), skeleton m, m.(m_active), m.(m_archived)).

Lemma map_filter_columns {B} (g : MessageRecord → B) c l l' :
  map (λ m, (m.(m_chat_id), g m)) l' = map (λ m, (m.(m_chat_id), g m)) l →
  map g (filter_by (λ m, String.eqb m.(m_chat_id) c) l')
  = map g (filter_by (λ m, String.eqb m.(m_chat_id) c) l).
Proof.
  revert l'. induction l as [|m l IH]; intros [|m' l'] E; try discriminate; [done|].
  injection E as Ec Eg E. unfold filter_by. rewrite !filter_cons, Ec.
  destruct (decide _); simpl; [f_equal; [done|]|]; by apply IH.
Qed.

Lemma replace_threads d r j d' :
  find_row r.(m_id) d.(db_messages) = Some r → columns j = columns r → stable d.(db_file) j →
  d'.(db_messages) = replace_row j d.(db_messages) → d'.(db_file) = d.(db_file) →
  threads_ok d → threads_ok d'.
Proof.
  intros Hf Ec Hj Em Ef [ [Hids Hsh Hst] Hac].
  assert (∀ {B} (g : MessageRecord → B), g j = g r → map g d'.(db_messages) = map g d.(db_messages)) as Hmap.
  { intros B g Eg. rewrite Em. injection Ec as _ Eid _ _ _ _ _ _.
    pose proof (replace_row_map (A := MessageRecord) g r j (db_messages d)) as K. by apply K. }
  injection Ec as E1 E2 E3 E4 E5 E6 E7 E8.
  assert (skeleton j = skeleton r) as Es by (unfold skeleton; congruence).
  split; [split|].
  - by rewrite (Hmap _ m_id E2).
  - intros c. eapply chat_shape_skeleton; [|apply (Hsh c)].
    apply map_filter_columns, Hmap. congruence.
  - rewrite Em, Ef. intros q [ [-> _]|[Hq _] ]%elem_of_replace_row; [done|by apply Hst].
  - intros c. split.
    + eapply chat_active_skeleton; [|apply (Hac c)].
      apply (map_filter_columns (λ m, (skeleton m, m_active m))), Hmap. congruence.
    + eapply chat_archive_columns; [|apply (Hac c)].
      apply (map_filter_columns (λ m, (skeleton m, m_active m, m_archived m))), Hmap. congruence.
Qed.

Lemma project_inv input now d m d' : project input now d = Ok (m, d') →
  Conversations.append input now d = Ok (m, d')
  ∨ ∃ r r' j, find_row r.(m_id) d.(db_messages) = Some r ∧ columns r' = columns r
      ∧ m_order_key r' = m_order_key r ∧ m_created_at r' = m_created_at r
      ∧ json_message d.(db_file) r' = Ok j
      ∧ d'.(db_messages) = replace_row j d.(db_messages) ∧ d'.(db_file) = d.(db_file).
Proof.
  unfold project, touch_chat, save_message. intros H. inv_st.
  match goal with H : match mi_id input with _ => _ end d = _ |- _ => rename H into Hex end.
  destruct (mi_id input) as [id|]; [|inv_st; left; exact H].
  apply st_gets_Ok in Hex as [-> ->]. destruct (find_row id (tbl d)) as [r|] eqn:Hf; [right|left; exact H].
  inv_st. repeat match goal with
    | H : update_row _ _ = _ |- _ => apply update_row_Ok in H as (? & ? & ->)
    | H : required _ _ = _ |- _ => apply required_Ok in H as [_ ->]
    end.
  apply find_row_Some in Hf as Hid. destruct Hid as [_ Hid]. simpl in Hid, Hf.
  match goal with H : json _ ?r1 = Ok ?j |- _ =>
    lazymatch type of r1 with MessageRecord => exists r, r1, j; rename H into Hj end end.
  rewrite Hid. split; [exact Hf|]. by split_and!.
Qed.

(** *** The table grows *)

Definition message_count (d : Db) : nat := length d.(db_messages).

Lemma activate_count id : within (same message_count) (activate id).
Proof.
  stmt_steps ltac:(unfold same, message_count; simpl; unfold replace_row; by rewrite length_map).
Qed.

Lemma append_count input now d m d' :
  Conversations.append input now d = Ok (m, d') → message_count d' = S (message_count d).
Proof.
  intros (c & ? & ? & ? & ? & j & d1 & _ & _ & _ & _ & _ & Em1 & _ & d2 & Hact & Em2 & _)%append_inv.
  assert (message_count d2 = message_count d1) as E2.
  { destruct (mi_activate input); [|by subst]. destruct Hact as [l H]. by apply activate_count in H. }
  unfold message_count in *. rewrite Em2, E2, Em1, length_app. simpl. lia.
Qed.

(** The relation the operations stay in: a chat is well formed as long as the
    store holds at most [u32::MAX] messages. *)
Definition threads_step (d d' : Db) : Prop :=
  (message_count d ≤ message_count d')%nat
  ∧ (Z.of_nat (message_count d') ≤ u32_max → threads_ok d → threads_ok d').

#[export] Instance threads_step_preorder : PreOrder threads_step.
Proof.
  split; [by intros d; split|]. intros d1 d2 d3 [? H1] [? H2]. split; [lia|].
  intros Hs Hok. apply H2, H1; [done|lia|done].
Qed.

Definition thread_tables (d : Db) := (d.(db_messages), d.(db_file)).
#[export] Instance same_threads_step : Contains (same thread_tables) threads_step.
Proof.
  intros d d' E. injection E as E1 E2. unfold threads_step, message_count. rewrite E1.
  split; [done|]. intros _ [ [Hids Hsh Hst] Hac]. unfold chat_rows in *.
  split; [split|]; unfold chat_rows; by rewrite ?E1, ?E2.
Qed.

Lemma append_step input now : within threads_step (Conversations.append input now).
Proof.
  intros d m d' H. pose proof (append_count _ _ _ _ _ H) as Hc. split; [lia|].
  intros Hs Hok. eapply append_threads; [exact H|exact Hs| |done]. unfold message_count in *. lia.
Qed.

Lemma activate_step id : within threads_step (activate id).
Proof.
  intros d l d' H. pose proof (activate_count _ _ _ _ H) as Hc. split; [by rewrite Hc|].
  intros _ [Hsh Hac]. destruct (activate_inv _ _ _ _ H) as (target & Hf & _).
  eapply (activate_threads _ _ _ _ target.(m_chat_id)); [exact H|done|by intros; apply Hac|by intros; apply Hac|].
  intros m Hm. congruence.
Qed.

Lemma rewrite_step d r r' j d' :
  find_row r.(m_id) d.(db_messages) = Some r → columns r' = columns r →
  m_order_key r' = m_order_key r → m_created_at r' = m_created_at r →
  json_message d.(db_file) r' = Ok j →
  d'.(db_messages) = replace_row j d.(db_messages) → d'.(db_file) = d.(db_file) → threads_step d d'.
Proof.
  intros Hf Ec Ek Et Hj Em Ef.
  split; [unfold message_count; rewrite Em; unfold replace_row; by rewrite length_map|].
  intros _ Hok. pose proof (find_row_Some _ _ _ Hf) as [Hr _].
  destruct (stable_inv _ _ (th_stable _ (proj1 Hok) _ Hr)) as (Hk & Ht & _).
  destruct (stable_columns (db_file d) r') as (j' & Hj' & Hst & Ej); [by rewrite Ek|by rewrite Et|].
  rewrite Hj in Hj'. injection Hj' as <-.
  eapply (replace_threads d r j); try done. rewrite <-Ec, Ej. reflexivity.
Qed.

Lemma project_step input now : within threads_step (project input now).
Proof.
  intros d m d' H. apply project_inv in H as [H|(r & r' & j & Hf & Ec & Ek & Et & Hj & Em & Ef)].
  - by eapply append_step.
  - by eapply rewrite_step.
Qed.

Lemma finalize_step id content : within threads_step (finalize_message id content).
Proof.
  intros d u d' H. unfold finalize_message, save_message in H. inv_st.
  match goal with H : required _ _ = _ |- _ => apply required_Ok in H as [Hf ->] end.
  match goal with H : update_row _ _ = _ |- _ => apply update_row_Ok in H as (j & Hj & ->) end.
  apply find_row_Some in Hf as Hid. destruct Hid as [_ Hid]. simpl in Hid, Hf, Hj.
  eapply rewrite_step; [rewrite Hid; exact Hf| | | |exact Hj|reflexivity|reflexivity]; reflexivity.
Qed.

#[export] Instance threads_steps : StoreSteps threads_step.
Proof.
  split; [apply _|..].
  all: lazymatch goal with
    | |- context [Conversations.append] => apply append_step
    | |- context [project] => apply project_step
    | |- context [activate] => apply activate_step
    | |- context [finalize_message] => apply finalize_step
    | |- _ => by_same thread_tables
    end.
Qed.

End table.
