(* ===== verification/Threads.v ===== *)
(** * Message trees

    What the conversation operations promise of a chat: its messages form a
    forest whose parents come first, the loops of [activate] end on it, the
    active messages are one branch, and archived branches are retired. *)

From S2P Require Export MessageTable Forest Imports.
From S2P Require Import TaskOps.
Local Open Scope Z_scope.

Section table.
Context {host : Host}.

(** ** The operations of [history.rs] *)

(** *** Rewriting a message *)

Lemma update_message_step id content metadata calls proof now :
  within threads_step (update_message id content metadata calls proof now).
Proof.
  intros d m d' H. unfold update_message, save_message in H. inv_st.
  match goal with H : required _ _ = _ |- _ => apply required_Ok in H as [Hf ->] end.
  match goal with H : match proof with _ => _ end ?d0 = Ok (_, ?d1) |- _ => assert (d1 = d0) as -> end.
  { destruct proof; inv_st; [|done]. by match goal with H : fence _ _ _ = _ |- _ =>
      apply fence_Ok in H as (_ & _ & ->) end. }
  match goal with H : update_row _ _ = _ |- _ => apply update_row_Ok in H as (j & Hj & ->) end.
  apply find_row_Some in Hf as Hid. destruct Hid as [_ Hid]. simpl in Hid, Hf, Hj.
  eapply rewrite_step; [rewrite Hid; exact Hf| | | |exact Hj|reflexivity|reflexivity]; reflexivity.
Qed.

(** *** Forking *)

Lemma fork_step chat_id from_id new_id now : within threads_step (fork_chat chat_id from_id new_id now).
Proof.
  unfold fork_chat. within_auto; try (apply (within_fork_path threads_step)); try apply append_step.
  apply within_insert_row. intros. by apply same_threads_step.
Qed.

(** The walk to the root ends, within the rows of the chat. *)
Lemma fork_path_Ok d c fuel i m path :
  threads_shape d → chat_rows c d !! i = Some m → (i ≤ fuel)%nat →
  ∃ l, fork_path fuel m path d = Ok (l ++ path, d) ∧ last l = Some m
    ∧ up_chain (chat_rows c d) (Some m.(m_id)) (rev (map m_id l)).
Proof.
  intros [Hids Hsh Hst]. revert i m path. induction fuel as [|fuel IH]; intros i m path Hi Hf; cbn [fork_path].
  all: destruct (sh_row _ (Hsh c) _ _ Hi) as (_ & _ & _ & Hp); apply list_elem_of_lookup_2 in Hi as Hm.
  all: destruct (m_parent_message_id m) as [p|] eqn:Ep;
    [|exists [m]; split_and!; [done..|]; constructor; [done|]; rewrite Ep; constructor].
  - destruct Hp as (k & q & ? & _). lia.
  - destruct Hp as (k & q & Hk & Hq & <- & _).
    assert (q ∈ db_messages d) as Hqd.
    { apply list_elem_of_lookup_2, elem_of_chat_rows in Hq as [_ ?]. done. }
    erewrite st_bind_step by (apply required_Ok; split; [exact (find_row_elem _ q Hids Hqd)|reflexivity]).
    destruct (IH k q (m :: path) Hq) as (l & -> & Hl & Hc); [lia|].
    exists (l ++ [m]). rewrite <-app_assoc. split_and!; [done|by rewrite last_snoc|].
    rewrite map_app, rev_app_distr. simpl. constructor; [done|]. by rewrite Ep.
Qed.

(** *** Archiving *)

Lemma stable_archived b m v : stable b m → stable b (m <| m_archived := v |>).
Proof.
  intros (Hk & Ht & Hc & Htc & Hm)%stable_inv. unfold stable, json_message.
  destruct m. simpl in *. rewrite Hk. simpl. rewrite Ht. simpl. by rewrite Hc, Htc, Hm.
Qed.

Lemma save_loop (f : MessageRecord → MessageRecord) l d :
  (∀ m, m_id (f m) = m_id m) → (∀ b m, stable b m → stable b (f m)) →
  NoDup (map m_id d.(db_messages)) → (∀ m, m ∈ d.(db_messages) → stable d.(db_file) m) →
  NoDup (map m_id l) → (∀ m, m ∈ l → m ∈ d.(db_messages)) →
  for_each (λ m, save_message (f m)) l d = Ok (tt, d <| db_messages :=
    map (λ m, if mem_str m.(m_id) (map m_id l) then f m else m) d.(db_messages) |>).
Proof.
  intros Hfid Hfst Hids Hst. revert d Hids Hst. induction l as [|a l IH]; intros d Hids Hst Hnd Hl.
  { simpl. unfold mret, st_ret. do 2 f_equal. rewrite map_id. by destruct d. }
  simpl in Hnd. apply NoDup_cons in Hnd as [Ha Hnd]. cbn [for_each].
  assert (save_message (f a) d = Ok (tt, d <| db_messages := replace_row (f a) d.(db_messages) |>)) as Hsave.
  { apply update_row_Ok. exists (f a). split; [|done]. apply Hfst, Hst, Hl. left. }
  rewrite (st_bind_step _ _ _ _ _ Hsave). rewrite IH.
  - simpl. f_equal. f_equal. apply update_messages_twice. unfold replace_row. rewrite map_map.
    apply map_ext_in. intros m Hm%list_elem_of_In. simpl row_key. rewrite Hfid.
    destruct (String.eqb_spec (m_id m) (m_id a)) as [E|Hne]; [|by rewrite mem_cons].
    pose proof (find_row_elem _ m Hids Hm) as H1.
    pose proof (find_row_elem _ a Hids (Hl a (list_elem_of_here _ _))) as H2. simpl in H1, H2.
    rewrite E in H1. assert (m = a) as -> by congruence. rewrite mem_here, Hfid.
    unfold mem_str. by rewrite bool_decide_false.
  - simpl. pose proof (replace_row_keys (f a) (db_messages d)) as K. simpl in K. by rewrite K.
  - intros m Hm. simpl in Hm. apply elem_of_replace_row in Hm as [ [-> _]|[Hm _] ]; [|by apply Hst].
    simpl. apply Hfst, Hst, Hl. left.
  - done.
  - intros m Hm. simpl. apply list_elem_of_fmap. exists m. split; [|apply Hl; by right].
    simpl. rewrite Hfid. destruct (String.eqb_spec (m_id m) (m_id a)) as [E|]; [|done].
    exfalso. apply Ha. rewrite <-E. by apply list_elem_of_fmap_2.
Qed.

(** The rows the traversal marks, by the ids it returns. *)
Definition marked_rows (ms : list MessageRecord) (ids : list string) : list MessageRecord :=
  concat (map (λ id, filter_by (λ m, String.eqb m.(m_id) id) ms) ids).

Lemma elem_of_marked_rows ms ids m : m ∈ marked_rows ms ids ↔ m ∈ ms ∧ m.(m_id) ∈ ids.
Proof.
  unfold marked_rows. rewrite list_elem_of_In, in_concat. setoid_rewrite <-list_elem_of_In.
  setoid_rewrite list_elem_of_fmap. split.
  - intros (? & (id & -> & Hid) & [->%String.eqb_eq Hm]%elem_of_filter_by). done.
  - intros [Hm Hid]. eexists. split; [by exists m.(m_id)|]. apply elem_of_filter_by.
    by rewrite String.eqb_refl.
Qed.

Lemma marked_rows_ids ms ids : NoDup (map m_id ms) → NoDup ids → NoDup (map m_id (marked_rows ms ids)).
Proof.
  intros Hms Hids. induction Hids as [|id ids Hid Hids IH]; [apply NoDup_nil_2|].
  unfold marked_rows in *. simpl. rewrite map_app. apply NoDup_app. split_and!; [|  |exact IH].
  - by apply NoDup_map_filter.
  - intros x (m & -> & [E%String.eqb_eq _]%elem_of_filter_by)%list_elem_of_fmap
      (q & Eq & [_ Hq]%elem_of_marked_rows)%list_elem_of_fmap. congruence.
Qed.

Lemma archive_Ok d id target :
  threads_shape d → find_row id d.(db_messages) = Some target → target.(m_active) = false →
  let ms := chat_rows target.(m_chat_id) d in
  ∃ ids, (∀ x, x ∈ ids ↔ below ms id x) ∧ NoDup ids
    ∧ archive_branch id d = Ok (length (marked_rows ms ids), d <| db_messages :=
        map (λ m, if String.eqb m.(m_chat_id) target.(m_chat_id) then mark ids m else m) d.(db_messages) |>).
Proof.
  intros [Hids Hsh Hst] Hf Ha ms. pose proof (find_row_Some _ _ _ Hf) as [Hin Hid]. simpl in Hid.
  destruct (branch_ids_spec ms id) as (ids & Eids & Hnd & Hbelow).
  exists ids. split_and!; [done..|]. unfold archive_branch.
  erewrite st_bind_step by (apply required_Ok; split; [exact Hf|reflexivity]).
  rewrite Ha. cbn [negb guard_or]. erewrite st_bind_step by reflexivity. unfold chat_messages.
  erewrite st_bind_step by reflexivity. change (filter_by _ (tbl d)) with ms.
  rewrite Hid, Eids. erewrite st_bind_step by reflexivity.
  assert (NoDup (map m_id (marked_rows ms ids))) as Hmnd by by apply marked_rows_ids; [apply chat_rows_ids|].
  cbv zeta. change (concat _) with (marked_rows ms ids).
  assert (∀ m, m ∈ marked_rows ms ids → m ∈ db_messages d) as Hsub
    by (intros m [ [_ ?]%elem_of_chat_rows _]%elem_of_marked_rows; done).
  pose proof (save_loop (upd_m_archived true) (marked_rows ms ids) d (λ _, eq_refl)
    (λ b m, stable_archived b m true) Hids Hst Hmnd Hsub) as Hloop.
  erewrite st_bind_step by exact Hloop.
  unfold mret, st_ret. f_equal. f_equal. apply update_messages_ext, map_ext_in.
  intros m Hm%list_elem_of_In. unfold mark, mem_str.
  destruct (String.eqb_spec (m_chat_id m) (m_chat_id target)) as [E|Hne].
  - rewrite (bool_decide_ext (m_id m ∈ map m_id (marked_rows ms ids)) (m_id m ∈ ids)); [done|].
    rewrite list_elem_of_fmap. split; [by intros (q & -> & [_ ?]%elem_of_marked_rows)|].
    intros Hi. exists m. split; [done|]. apply elem_of_marked_rows. split; [by apply elem_of_chat_rows|done].
  - rewrite bool_decide_false; [done|].
    intros (q & Eq & [ [Eqc Hq]%elem_of_chat_rows _]%elem_of_marked_rows)%list_elem_of_fmap.
    pose proof (find_row_elem _ m Hids Hm) as H1. pose proof (find_row_elem _ q Hids Hq) as H2.
    simpl in H1, H2. congruence.
Qed.

Lemma chat_rows_map c c' f d :
  (∀ m, m_chat_id (f m) = m_chat_id m) →
  chat_rows c' (d <| db_messages := map (λ m, if String.eqb m.(m_chat_id) c then f m else m) d.(db_messages) |>)
  = if String.eqb c' c then map f (chat_rows c d) else chat_rows c' d.
Proof.
  intros Hf. unfold chat_rows. simpl. rewrite filter_by_map.
  destruct (String.eqb_spec c' c) as [->|Hne].
  - rewrite (filter_by_ext _ (λ m, String.eqb m.(m_chat_id) c))
      by (intros m _; destruct (String.eqb (m_chat_id m) c) eqn:E; by rewrite ?Hf, E).
    apply map_ext_in. intros m [Hm _]%list_elem_of_In%elem_of_filter_by. by rewrite Hm.
  - rewrite (filter_by_ext _ (λ m, String.eqb m.(m_chat_id) c'))
      by (intros m _; destruct (String.eqb (m_chat_id m) c); by rewrite ?Hf).
    etrans; [|apply map_id]. apply map_ext_in.
    intros m [Hm%String.eqb_eq _]%list_elem_of_In%elem_of_filter_by. rewrite Hm.
    by destruct (String.eqb_spec c' c).
Qed.

Lemma archive_count id : within (same message_count) (archive_branch id).
Proof.
  stmt_steps ltac:(unfold same, message_count; simpl; unfold replace_row; by rewrite length_map).
Qed.

Lemma archive_step id : within threads_step (archive_branch id).
Proof.
  intros d n d' H.
  assert (∃ target, find_row id d.(db_messages) = Some target ∧ target.(m_active) = false) as (target & Hf & Ha).
  { unfold archive_branch in H. inv_st.
    match goal with H : required _ _ = _ |- _ => apply required_Ok in H as [Hf ->] end.
    eexists. split; [exact Hf|]. by apply negb_true_iff. }
  assert (message_count d' = message_count d) as Hcount.
  { clear Hf. revert d n d' H. apply archive_count. }
  split; [lia|]. intros _ [Hsh Hac].
  destruct (archive_Ok d id target Hsh Hf Ha) as (ids & Hbelow & Hnd & E).
  rewrite E in H. injection H as _ <-. clear E. destruct Hsh as [Hids Hsh Hst].
  pose proof (find_row_Some _ _ _ Hf) as [Hin Hid]. simpl in Hid.
  assert (∀ c', chat_rows c' (d <| db_messages := map (λ m, if String.eqb m.(m_chat_id) target.(m_chat_id)
    then mark ids m else m) d.(db_messages) |>) = if String.eqb c' target.(m_chat_id)
    then map (mark ids) (chat_rows target.(m_chat_id) d) else chat_rows c' d) as Erows.
  { intros c'. apply chat_rows_map. intros m. unfold mark. by destruct (mem_str _ _). }
  pose proof (mark_columns ids (chat_rows target.(m_chat_id) d)) as Ecol.
  split; [split|].
  - simpl. rewrite map_map. erewrite map_ext; [exact Hids|]. intros m. unfold mark.
    destruct (String.eqb _ _); [|done]. by destruct (mem_str _ _).
  - intros c'. rewrite Erows. destruct (String.eqb c' _); [|done].
    eapply chat_shape_skeleton; [|apply Hsh]. rewrite map_map. apply map_ext. intros m. unfold mark.
    by destruct (mem_str _ _).
  - simpl. intros m' (m & -> & Hm)%list_elem_of_fmap. destruct (String.eqb _ _); [|by apply Hst].
    unfold mark. destruct (mem_str _ _); [|by apply Hst]. by apply stable_archived, Hst.
  - intros c'. rewrite Erows. destruct (String.eqb_spec c' target.(m_chat_id)) as [->|]; [|done].
    split; [eapply chat_active_skeleton; [exact Ecol|apply Hac]|].
    eapply chat_archive_mark; [apply Hac..|by apply chat_rows_ids| |exact Hbelow].
    intros q [_ Hq]%elem_of_chat_rows Eq. pose proof (find_row_elem _ q Hids Hq) as K.
    simpl in K. rewrite Eq in K. congruence.
Qed.

(** *** Importing *)

Lemma import_rows_Ok ms d u d' :
  for_each import_row ms d = Ok (u, d') →
  ∃ js, Forall2 (λ m j, json_message d.(db_file) m = Ok j) ms js
    ∧ d'.(db_messages) = d.(db_messages) ++ js ∧ d'.(db_file) = d.(db_file)
    ∧ (NoDup (map m_id d.(db_messages)) → NoDup (map m_id d'.(db_messages)))
    ∧ match ms with
      | [] => True
      | m :: _ => ∀ q, q ∈ d.(db_messages) → q.(m_chat_id) = m.(m_chat_id) →
          q.(m_order_key) ≠ m.(m_order_key)
      end.
Proof.
  revert d. induction ms as [|m ms IH]; intros d H; cbn [for_each] in H.
  { injection H as _ <-. exists []. rewrite app_nil_r. by split_and!; [constructor|..]. }
  apply st_bind_Ok in H as (u1 & d1 & H1 & H). unfold import_row, order_key_free in H1. inv_st.
  match goal with H : get _ _ = _ |- _ => apply st_gets_Ok in H as [-> ->] end.
  match goal with H : insert_row _ _ = _ |- _ => apply insert_row_Ok in H as (j & Hj & Hfree & ->) end.
  destruct (IH _ H) as (js & Hjs & Em & Ef & Hnd & _). simpl in *.
  exists (j :: js). split_and!.
  - by constructor.
  - by rewrite Em, <-app_assoc.
  - done.
  - intros Hids. apply Hnd. pose proof (insert_row_NoDup j (db_messages d)) as K. simpl in K. apply K; [done|].
    assert (m_id j = m_id m) as ->; [|done]. unfold json_message in Hj. simpl in Hj.
    destruct (json_u64 _); [|done]. simpl in Hj. destruct (json_timestamp _); [|done]. by injection Hj as <-.
  - intros q Hq Ec Ek.
    match goal with H : negb (existsb _ _) = true |- _ => apply negb_true_iff in H as Hu end.
    pose proof (proj1 (existsb_false _ _) Hu q Hq) as Hf. simpl in Hf.
    by rewrite Ec, Ek, String.eqb_refl, Z.eqb_refl in Hf.
Qed.

Lemma import_inv input d chat d' :
  import_conversation input d = Ok (chat, d') →
  ∃ ms js, validate_import input = Ok ms
    ∧ Forall2 (λ m j, json_message d.(db_file) m = Ok j) ms js
    ∧ d'.(db_messages) = d.(db_messages) ++ js ∧ d'.(db_file) = d.(db_file)
    ∧ (NoDup (map m_id d.(db_messages)) → NoDup (map m_id d'.(db_messages)))
    ∧ match ms with
      | [] => True
      | m :: _ => ∀ q, q ∈ d.(db_messages) → q.(m_chat_id) = m.(m_chat_id) →
          q.(m_order_key) ≠ m.(m_order_key)
      end.
Proof.
  unfold import_conversation. intros H. inv_st.
  match goal with H : get _ _ = _ |- _ => apply st_gets_Ok in H as [-> ->] end.
  match goal with H : insert_row _ _ = _ |- _ => apply insert_row_Ok in H as (jc & _ & _ & ->) end.
  match goal with H : for_each _ _ _ = _ |- _ => apply import_rows_Ok in H as (js & J1 & J2 & J3 & J4 & J5) end.
  eexists _, js. by split_and!.
Qed.

(** The rows of the table after an import. *)
Lemma import_stored input d chat d' :
  import_conversation input d = Ok (chat, d') → Z.of_nat (message_count d') ≤ u32_max → threads_ok d →
  let c := ch_id input.(im_chat) in
  ∃ ms js, validate_import input = Ok ms
    ∧ Z.of_nat (length input.(im_messages)) ≤ u32_max
    ∧ d'.(db_messages) = d.(db_messages) ++ js
    ∧ Forall2 (λ m j, json_message d.(db_file) m = Ok j ∧ stable d.(db_file) j ∧ columns j = columns m) ms js
    ∧ (∀ c', chat_rows c' d' = if String.eqb c' c then chat_rows c' d ++ js else chat_rows c' d)
    ∧ (js = [] ∨ chat_rows c d = []).
Proof.
  intros (ms & js & Hv & Hjs & Em & Ef & Hnd & Hfirst)%import_inv Hs [ [Hids Hsh Hst] Hac] c.
  pose proof (Forall2_length _ _ _ Hjs) as Hlen.
  assert (length input.(im_messages) = length ms) as Hin.
  { apply validate_import_inv in Hv as (raw & s & leaf & Hraw & -> & _). rewrite length_map.
    by eapply import_messages_length. }
  assert (Z.of_nat (length input.(im_messages)) ≤ u32_max) as Hsmall.
  { unfold message_count in Hs. rewrite Em, length_app in Hs. lia. }
  destruct (validate_import_ok _ _ Hv Hsmall) as (_ & Hmsh & _ & _ & Hf & _).
  assert (∀ i m j, ms !! i = Some m → js !! i = Some j → (json_message d.(db_file) m = Ok j
    ∧ stable (db_file d) j ∧ columns j = columns m) ∧ m_chat_id j = c) as Hrows.
  { intros i m j Hm Hj. pose proof (Forall2_lookup_lr _ _ _ _ _ _ Hjs Hm Hj) as E. simpl in E.
    destruct (Forall2_lookup_r _ _ _ _ _ Hf Hm) as (x & _ & Ex & _ & s & Hw).
    destruct (sh_row _ Hmsh _ _ Hm) as (Hk & _). apply lookup_lt_Some in Hm as Hlt.
    destruct (stable_columns (db_file d) m) as (j' & Ej' & Hsj & Ecol).
    - apply json_u64_safe. unfold u32_max, max_safe in *. lia.
    - rewrite Ex. by apply (wire_checked_stable _ _ Hw).
    - rewrite E in Ej'. injection Ej' as <-. split_and!; [done|done|by rewrite Ecol|].
      rewrite Ecol, Ex. done. }
  exists ms, js. split_and!; [done..| | |].
  - apply Forall2_same_length_lookup. split; [done|]. intros i m j Hm Hj. by apply (Hrows i).
  - intros c'. unfold chat_rows. rewrite Em, filter_by_app.
    assert (∀ j, j ∈ js → m_chat_id j = c) as Hjc.
    { intros j [i Hi]%list_elem_of_lookup. destruct (lookup_lt_is_Some_2 ms i) as [m Hm];
        [apply lookup_lt_Some in Hi; lia|]. by apply (Hrows i m j). }
    destruct (String.eqb_spec c' c) as [->|Hne].
    + f_equal. apply filter_by_id. intros j Hj. apply String.eqb_eq. auto.
    + rewrite (filter_by_none _ js); [apply app_nil_r|]. intros j Hj. apply String.eqb_neq.
      rewrite (Hjc j Hj). congruence.
  - destruct ms as [|m ms]; [left; by destruct js|right].
    destruct (chat_rows c d) as [|q l] eqn:El; [done|]. exfalso.
    destruct (sh_row _ (Hsh c) 0 q) as (Hq & _); [by rewrite El|].
    destruct (sh_row _ Hmsh 0 m eq_refl) as (Hm & _).
    assert (q ∈ chat_rows c d) as [Hqc Hqd]%elem_of_chat_rows by (rewrite El; left).
    apply (Hfirst q Hqd); [|lia]. rewrite Hqc.
    destruct (Forall2_lookup_r _ _ _ 0 m Hf eq_refl) as (x & _ & Ex & _). by rewrite Ex.
Qed.

Lemma columns_map {B} (g : MessageRecord → B) b ms js :
  (∀ m j, columns j = columns m → g j = g m) →
  Forall2 (λ m j, json_message b m = Ok j ∧ stable b j ∧ columns j = columns m) ms js →
  map g js = map g ms.
Proof. intros Hg. induction 1 as [|m j ms js (_ & _ & E) _ IH]; [done|]. simpl. by rewrite IH, (Hg m j E). Qed.

Lemma import_step input : within threads_step (import_conversation input).
Proof.
  intros d chat d' H. pose proof (import_inv _ _ _ _ H) as (_ & js0 & _ & _ & Em0 & Ef & Hnd & _).
  split; [unfold message_count; rewrite Em0, length_app; lia|]. intros Hs Hok.
  destruct (import_stored _ _ _ _ H Hs Hok) as (ms & js & Hv & Hsmall & Em & Hrows & Echat & Hempty).
  destruct (validate_import_ok _ _ Hv Hsmall) as (_ & Hmsh & Hma & Hmar & _ & _).
  set (c := ch_id (im_chat input)) in *. destruct Hok as [ [Hids Hsh Hst] Hac].
  assert (∀ P : list MessageRecord → Prop, (∀ c', P (chat_rows c' d)) → P js → ∀ c', P (chat_rows c' d')) as Hall.
  { intros P Hd Hj c'. rewrite Echat. destruct (String.eqb_spec c' c) as [->|]; [|done].
    destruct Hempty as [->| ->]; [by rewrite app_nil_r|done]. }
  split; [split|].
  - by apply Hnd.
  - apply (Hall chat_shape Hsh). eapply chat_shape_skeleton; [|exact Hmsh].
    eapply columns_map; [|exact Hrows]. intros m j E. injection E. unfold skeleton. congruence.
  - rewrite Em, Ef. intros j [Hj|Hj]%elem_of_app; [by apply Hst|].
    apply list_elem_of_lookup in Hj as [i Hi].
    by destruct (Forall2_lookup_r _ _ _ _ _ Hrows Hi) as (m & _ & _ & ? & _).
  - apply (Hall chat_ok Hac). split.
    + eapply chat_active_skeleton; [|exact Hma]. eapply columns_map; [|exact Hrows].
      intros m j E. injection E. unfold skeleton. congruence.
    + eapply chat_archive_columns; [|exact Hmar]. eapply columns_map; [|exact Hrows].
      intros m j E. injection E. unfold skeleton. congruence.
Qed.

(** *** Deleting *)

Lemma chat_shape_nil : chat_shape [].
Proof. by split. Qed.
Lemma chat_ok_nil : chat_ok [].
Proof.
  split; [split|split]; try done; [by intros m p ?%elem_of_nil|by intros m q ?%elem_of_nil|by intros m ?%elem_of_nil].
Qed.

#[local] Instance same_threads_ok : Contains (same thread_tables) (keeps threads_ok).
Proof.
  intros d d' E. injection E as E1 E2. intros [ [Hids Hsh Hst] Hac]. unfold chat_rows in *.
  split; [split|]; unfold chat_rows; by rewrite ?E1, ?E2.
Qed.

Lemma delete_chat_keeps chat_id : within (keeps threads_ok) (delete_chat chat_id).
Proof.
  apply within_delete_chat; [apply _|by_same thread_tables|by_same thread_tables| |by_same thread_tables].
  apply within_modify. intros d [ [Hids Hsh Hst] Hac].
  assert (∀ c, chat_rows c (delete_chat_rows chat_id d) = if String.eqb c chat_id then [] else chat_rows c d)
    as Erows.
  { intros c. unfold chat_rows, delete_chat_rows. simpl. rewrite filter_by_filter_by.
    destruct (String.eqb_spec c chat_id) as [->|Hne].
    - apply filter_by_none. intros m _. by destruct (String.eqb _ _).
    - apply filter_by_ext. intros m _. destruct (String.eqb_spec (m_chat_id m) chat_id) as [->|]; [|done].
      simpl. symmetry. apply String.eqb_neq. congruence. }
  split; [split|].
  - by apply NoDup_map_filter.
  - intros c. rewrite Erows. destruct (String.eqb c chat_id); [apply chat_shape_nil|apply Hsh].
  - intros m [_ Hm]%elem_of_filter_by. by apply Hst.
  - intros c. rewrite Erows. destruct (String.eqb c chat_id); [apply chat_ok_nil|apply Hac].
Qed.

(** ** Reachable stores *)

(** The most messages the store held at any time. *)
Fixpoint peak_messages (ops : list Op) (d : Db) : nat :=
  match ops with
  | [] => message_count d
  | op :: ops => Nat.max (message_count d) (peak_messages ops (step d op))
  end.
Lemma peak_now ops d : (message_count d ≤ peak_messages ops d)%nat.
Proof. destruct ops; simpl; lia. Qed.

Lemma exec_threads op :
  match op with OpDeleteChat _ => False | _ => True end → within threads_step (exec op).
Proof.
  intros Hop. apply exec_within; [apply _|]. intros Hd.
  destruct op; try discriminate Hd; try contradiction; simpl; unfold ignore; try by_same thread_tables.
  - apply within_bind; [apply _|apply import_step|]. intros. apply within_ret, _.
  - apply within_bind; [apply _|apply fork_step|]. intros. apply within_ret, _.
  - apply within_bind; [apply _|apply update_message_step|]. intros. apply within_ret, _.
  - apply within_bind; [apply _|apply archive_step|]. intros. apply within_ret, _.
Qed.

Lemma step_threads d op :
  Z.of_nat (message_count (step d op)) ≤ u32_max → threads_ok d → threads_ok (step d op).
Proof.
  intros Hs Hok. pose proof (exec_threads op) as H.
  destruct op; try (by apply (step_within threads_step _ d (H I))).
  by apply (step_within (keeps threads_ok) (OpDeleteChat chat_id) d (delete_chat_keeps chat_id)).
Qed.

Lemma threads_run file ops :
  let d := run ops (empty_db file) in
  Z.of_nat (peak_messages ops (empty_db file)) ≤ u32_max → threads_ok d.
Proof.
  assert (threads_ok (empty_db file)) as H.
  { split; [split|]; [apply NoDup_nil_2|intros c; apply chat_shape_nil|by intros m ?%elem_of_nil|
      intros c; apply chat_ok_nil]. }
  revert H. generalize (empty_db file). induction ops as [|op ops IH]; intros d Hok d1 Hs; [done|].
  simpl in Hs. apply (IH (step d op)); [|lia]. apply step_threads; [|done].
  pose proof (peak_now ops (step d op)). lia.
Qed.

(** C29: The messages of a chat form a tree whose parents come first.  In every
    reachable store the rows of a chat carry the order keys 1, 2, 3, ... in
    the order they were appended in; a message's parent is an earlier row of
    the same chat one level up, a root is at depth zero; and the branch
    indices of the children of one parent are distinct. *)
Theorem message_tree file ops c :
  let d := run ops (empty_db file) in
  Z.of_nat (peak_messages ops (empty_db file)) ≤ u32_max → chat_shape (chat_rows c d).
Proof. intros d Hs. by apply (threads_run file ops Hs). Qed.

(** A chat has one active branch.  In every reachable store the parent of
    an active message is active, and of the children of one parent, or the
    roots, at most one is: the messages shown are a path down from a root. *)
Theorem active_branch file ops c :
  let d := run ops (empty_db file) in
  Z.of_nat (peak_messages ops (empty_db file)) ≤ u32_max → chat_active (chat_rows c d).
Proof. intros d Hs. apply (threads_run file ops Hs). Qed.

(** Activating a message terminates with its branch.  In every reachable
    store, both loops of [activate] end for every live message; what is active
    afterwards in its chat is the path from a root down to a message without
    live children, through the message, returned root first; no message of
    another chat and no other column changes. *)
Theorem activate_branch file ops id target :
  let d := run ops (empty_db file) in
  Z.of_nat (peak_messages ops (empty_db file)) ≤ u32_max →
  find_row id d.(db_messages) = Some target → target.(m_archived) = false →
  let ms := chat_rows target.(m_chat_id) d in
  ∃ leaf path l, leaf ∈ ms ∧ kids ms leaf = [] ∧ up_chain ms (Some leaf.(m_id)) path ∧ id ∈ path
    ∧ activate_path id d = Ok (l, activated target.(m_chat_id) path d) ∧ map m_id l = rev path.
Proof.
  intros d Hs Hf Har ms. destruct (threads_run file ops Hs) as [Hsh _]. fold d in Hsh.
  destruct (activate_Ok d id target Hsh Hf Har) as (leaf & path & Hl & Hk & Hc & Hi & _ & E).
  fold ms in Hl, Hk, Hc, E. eexists leaf, path, _. split_and!; [done..|exact E|].
  rewrite <-(chain_rows ms (chat_rows_ids _ d (th_ids d Hsh))
    (shape_parents_first _ (th_chat d Hsh _)) _ _ Hc).
  rewrite filter_by_map, map_map. done.
Qed.

Lemma marked_count ms id ids :
  NoDup (map m_id ms) → NoDup ids → (∀ x, x ∈ ids ↔ below ms id x) →
  (∃ m, m ∈ ms ∧ m.(m_id) = id) → length (marked_rows ms ids) = length ids.
Proof.
  intros Hms Hids Hb Hid. rewrite <-(length_map m_id). apply Permutation_length, NoDup_Permutation;
    [by apply marked_rows_ids|done|]. intros x. rewrite list_elem_of_fmap. split.
  - intros (m & -> & [_ ?]%elem_of_marked_rows). done.
  - intros Hx. apply Hb in Hx as Hbx.
    assert (∃ m, m ∈ ms ∧ m.(m_id) = x) as (m & Hm & <-) by (destruct Hbx; eauto).
    exists m. split; [done|]. by apply elem_of_marked_rows.
Qed.

(** An archived branch is retired.  In every reachable store no archived
    message is active and everything below an archived message is archived.
    [archive_branch] of a message off the active branch ends; it archives
    that message and what is below it, nothing else, and returns their
    number. *)
Theorem archived_branches file ops :
  let d := run ops (empty_db file) in
  Z.of_nat (peak_messages ops (empty_db file)) ≤ u32_max →
  (∀ c, chat_archive (chat_rows c d))
  ∧ ∀ id target, find_row id d.(db_messages) = Some target → target.(m_active) = false →
    ∃ ids d', archive_branch id d = Ok (length ids, d') ∧ NoDup ids
      ∧ (∀ x, x ∈ ids ↔ below (chat_rows target.(m_chat_id) d) id x)
      ∧ d'.(db_messages) = map (λ m, if String.eqb m.(m_chat_id) target.(m_chat_id) then mark ids m else m)
          d.(db_messages).
Proof.
  intros d Hs. destruct (threads_run file ops Hs) as [Hsh Hac]. fold d in Hsh, Hac.
  split; [intros c; apply Hac|]. intros id target Hf Ha.
  destruct (archive_Ok d id target Hsh Hf Ha) as (ids & Hb & Hnd & E).
  rewrite (marked_count _ id ids) in E; [|by apply chat_rows_ids, Hsh|done|done|].
  - exists ids. eexists. split_and!; [exact E|done..].
  - apply find_row_Some in Hf as [Hin Hid]. exists target. split; [by apply elem_of_chat_rows|done].
Qed.

(** C30: An import is faithful.  What an import adds to a reachable store is
    one row per message, in order, under a chat that had none, each the
    message as given but for its assigned place in the tree, its archive flag,
    which it has when it or an ancestor was given archived, and the JSON
    normalisation of its documents; the new rows form a well-formed chat with
    one active branch that ends where no live message follows. *)
Theorem import_faithful file ops input chat d' :
  let d := run ops (empty_db file) in
  Z.of_nat (peak_messages (ops ++ [OpImport input]) (empty_db file)) ≤ u32_max →
  import_conversation input d = Ok (chat, d') →
  let c := ch_id input.(im_chat) in
  ∃ ms js, d'.(db_messages) = d.(db_messages) ++ js ∧ (js = [] ∨ chat_rows c d' = js)
    ∧ Forall2 (λ m m', imports c (below_archived ms m.(m_parent_message_id)) m m') input.(im_messages) ms
    ∧ Forall2 (λ m j, json_message d.(db_file) m = Ok j ∧ stable d.(db_file) j ∧ columns j = columns m) ms js
    ∧ chat_shape js ∧ chat_active js ∧ chat_archive js
    ∧ (js ≠ [] → ∃ leaf, leaf ∈ js ∧ leaf.(m_active) = true ∧ kids js leaf = []).
Proof.
  intros d Hpeak H c.
  assert (step d (OpImport input) = d') as Estep.
  { unfold step, atomic. simpl. unfold ignore. by rewrite (st_bind_step _ _ _ _ _ H). }
  assert (Z.of_nat (peak_messages ops (empty_db file)) ≤ u32_max
    ∧ Z.of_nat (message_count d') ≤ u32_max) as [Hp Hs].
  { rewrite <-Estep. unfold d. clear -Hpeak. revert Hpeak. generalize (empty_db file).
    induction ops as [|op ops IH]; intros d Hpeak; simpl in *; [lia|].
    destruct (IH (step d op)) as [? K]; [lia|]. split; [lia|exact K]. }
  pose proof (threads_run file ops Hp) as Hok. fold d in Hok.
  destruct (import_stored _ _ _ _ H Hs Hok) as (ms & js & Hv & Hsmall & Em & Hrows & Echat & Hempty).
  destruct (validate_import_ok _ _ Hv Hsmall) as (_ & Hmsh & Hma & Hmar & Hf & Hleaf).
  exists ms, js. split_and!; [done| |done|done| | | |].
  - destruct Hempty as [?|He]; [by left|right]. fold c in Echat, He. by rewrite Echat, String.eqb_refl, He.
  - eapply chat_shape_skeleton; [|exact Hmsh].
    eapply columns_map; [|exact Hrows]. intros m j E. injection E. unfold skeleton. congruence.
  - eapply chat_active_skeleton; [|exact Hma]. eapply columns_map; [|exact Hrows].
    intros m j E. injection E. unfold skeleton. congruence.
  - eapply chat_archive_columns; [|exact Hmar]. eapply columns_map; [|exact Hrows].
    intros m j E. injection E. unfold skeleton. congruence.
  - intros Hne. destruct Hleaf as (leaf & Hl & Ha & Hk).
    { intros ->. apply Hne. by inversion Hrows. }
    apply list_elem_of_lookup in Hl as [i Hi].
    destruct (Forall2_lookup_l _ _ _ _ _ Hrows Hi) as (j & Hj & _ & _ & E). exists j.
    injection E as E1 E2 E3 E4 E5 E6 E7 E8.
    split_and!; [by eapply list_elem_of_lookup_2|congruence|].
    apply filter_by_none. intros x [k Hx]%list_elem_of_lookup.
    destruct (Forall2_lookup_r _ _ _ _ _ Hrows Hx) as (m & Hm & _ & _ & F).
    injection F as F1 F2 F3 F4 F5 F6 F7 F8. rewrite F3, F8, E2.
    apply not_true_is_false. intros Hb. assert (m ∈ kids ms leaf) as Hin; [|by rewrite Hk in Hin; apply elem_of_nil in Hin].
    apply elem_of_filter_by. split; [done|by eapply list_elem_of_lookup_2].
Qed.
End table.

(** ** Witnesses *)

Section witnesses.
#[local] Existing Instance example_host.

(** A question, two answers, the second one active, and a follow-up. *)
Definition ex_message (id : string) (parent : option string) (role : string) : MessageInput :=
  mkMessageInput (Some id) "chat" None role (VStr id) parent None None None (VObj []) true false.
Definition ex_thread_ops : list Op :=
  [OpCreateChat "chat" None (VObj []) 0;
   OpAppendMessage (ex_message "q" None "user") None 1;
   OpAppendMessage (ex_message "a" (Some "q") "assistant") None 2;
   OpAppendMessage (ex_message "b" (Some "q") "assistant") None 3;
   OpAppendMessage (ex_message "r" (Some "b") "user") None 4].
Definition ex_thread : Db := run ex_thread_ops (empty_db true).

Example ex_thread_active :
  map (λ m, (m.(m_id), m.(m_active), m.(m_branch_index))) ex_thread.(db_messages)
  = [("q", true, 0); ("a", false, 0); ("b", true, 1); ("r", true, 0)].
Proof. vm_compute. reflexivity. Qed.
End witnesses.

Lemma message_tree_witness :
  chat_shape (chat_rows "chat" ex_thread) ∧ length (chat_rows "chat" ex_thread) = 4%nat.
Proof.
  split; [|vm_compute; reflexivity].
  apply (message_tree (host := example_host) true ex_thread_ops "chat"). vm_compute. discriminate.
Defined.

Lemma active_branch_witness :
  chat_active (chat_rows "chat" ex_thread)
  ∧ map m_id (filter_by m_active (chat_rows "chat" ex_thread)) = ["q"; "b"; "r"].
Proof.
  split; [|vm_compute; reflexivity].
  apply (active_branch (host := example_host) true ex_thread_ops "chat"). vm_compute. discriminate.
Defined.

Lemma activate_branch_witness :
  let host := example_host in
  ∃ path l d', activate_path "a" (run ex_thread_ops (empty_db true)) = Ok (l, d') ∧ map m_id l = rev path ∧ "a" ∈ path.
Proof.
  intros host. destruct (find_row "a" (run ex_thread_ops (empty_db true)).(db_messages)) as [target|] eqn:E;
    [|vm_compute in E; discriminate E].
  destruct (activate_branch true ex_thread_ops "a" target)
    as (leaf & path & l & _ & _ & _ & Hi & Ha & Hl).
  - vm_compute. discriminate.
  - exact E.
  - vm_compute in E. injection E as <-. reflexivity.
  - exists path, l. eexists. split; [exact Ha|]. split; [exact Hl|exact Hi].
Defined.

(** Archiving the answer off the active branch. *)
Lemma archived_branches_witness :
  let host := example_host in
  ∃ ids d', archive_branch "a" (run ex_thread_ops (empty_db true)) = Ok (length ids, d')
    ∧ (∀ x, x ∈ ids ↔ below (chat_rows "chat" (run ex_thread_ops (empty_db true))) "a" x) ∧ NoDup ids.
Proof.
  intros host. destruct (archived_branches true ex_thread_ops) as [_ H]; [vm_compute; discriminate|].
  destruct (find_row "a" (run ex_thread_ops (empty_db true)).(db_messages)) as [target|] eqn:E;
    [|vm_compute in E; discriminate E].
  assert (target.(m_active) = false ∧ target.(m_chat_id) = "chat") as [Ha Hc]
    by (vm_compute in E; injection E as <-; split; reflexivity).
  destruct (H "a" target E Ha) as (ids & d' & Hx & Hnd & Hb & _). rewrite Hc in Hb.
  exists ids, d'. split; [exact Hx|]. split; [exact Hb|exact Hnd].
Defined.

(** A conversation with an archived answer, its follow-up and the live one. *)
Definition ex_imported (id : string) (parent : option string) (active archived : bool) : MessageRecord :=
  mkMessage id "elsewhere" (Some "run") "user" (VStr id) parent None None None (VObj []) 0 0 0
    active archived (EpochMillis 5).
Definition ex_import : ImportConversation :=
  mkImport (mkChat "copy" (Some "title") (VObj []) false (EpochMillis 5) (EpochMillis 9))
    [ex_imported "i1" None true false; ex_imported "i2" (Some "i1") false true;
     ex_imported "i3" (Some "i2") false false; ex_imported "i4" (Some "i1") true false].

Lemma import_faithful_witness :
  let host := example_host in
  ∃ chat d' js, import_conversation ex_import (run ex_thread_ops (empty_db true)) = Ok (chat, d')
    ∧ d'.(db_messages) = (run ex_thread_ops (empty_db true)).(db_messages) ++ js
    ∧ map (λ m, (m.(m_id), m.(m_depth), m.(m_archived))) (chat_rows "copy" d')
      = [("i1", 0, false); ("i2", 1, true); ("i3", 2, true); ("i4", 1, false)].
Proof.
  intros host.
  destruct (import_conversation ex_import (run ex_thread_ops (empty_db true))) as [ [chat d']|e] eqn:E;
    [|vm_compute in E; discriminate E].
  destruct (import_faithful true ex_thread_ops ex_import chat d') as (ms & js & Em & _);
    [vm_compute; discriminate|exact E|].
  exists chat, d', js. split; [reflexivity|]. split; [exact Em|].
  vm_compute in E. injection E as _ <-. vm_compute. reflexivity.
Defined.
