(* ===== verification/OrderLaws.v ===== *)
(** * The provider order loses no message

    [order.rs] reorders the messages of each run.  The result is a
    permutation of the history in which every run keeps its slots and the
    user's messages do not move. *)

From S2P Require Import ProviderOrder.
Local Open Scope Z_scope.

Implicit Types (m a r : MessageRecord) (l records : list MessageRecord).
Implicit Types (T G : gmap string (list MessageRecord)).

(** ** Groups of tool results *)

(** All results a map of groups holds. *)
Definition group_values T : list MessageRecord := concat (map snd (map_to_list T)).

Lemma group_values_delete T id group :
  T !! id = Some group → group_values T ≡ₚ group ++ group_values (delete id T).
Proof.
  intros H. unfold group_values. rewrite <-(map_to_list_delete T id group H). done.
Qed.

Lemma group_values_empty : group_values ∅ = [].
Proof. unfold group_values. by rewrite map_to_list_empty. Qed.

Lemma group_values_insert T id group :
  T !! id = None → group_values (<[id := group]> T) ≡ₚ group ++ group_values T.
Proof. intros H. unfold group_values. by rewrite map_to_list_insert. Qed.

Lemma add_tool_values T r :
  group_values (add_tool T r) ≡ₚ group_values T ++ (if is_some r.(m_tool_call_id) then [r] else []).
Proof.
  unfold add_tool. destruct (m_tool_call_id r) as [id|]; simpl; [|by rewrite app_nil_r].
  destruct (T !! id) as [group|] eqn:E; simpl.
  - rewrite <-insert_delete_eq, group_values_insert by apply lookup_delete_eq.
    rewrite (group_values_delete T id group E). by rewrite <-!app_assoc, (Permutation_app_comm [r]).
  - rewrite group_values_insert by done. by rewrite Permutation_app_comm.
Qed.

Definition callable (r : MessageRecord) : bool :=
  String.eqb r.(m_role) "tool" && is_some r.(m_tool_call_id).

Lemma tool_groups_values records : group_values (tool_groups records) ≡ₚ filter_by callable records.
Proof.
  unfold tool_groups.
  assert (∀ l T, group_values (foldl add_tool T (filter_by (λ m, String.eqb m.(m_role) "tool") l))
    ≡ₚ group_values T ++ filter_by callable l) as H.
  { induction l as [|r l IH]; intros T; [by simpl; rewrite app_nil_r|].
    rewrite !filter_by_cons. unfold callable at 1.
    destruct (String.eqb (m_role r) "tool"); simpl; [|apply IH].
    rewrite IH, add_tool_values. destruct (is_some (m_tool_call_id r)); simpl;
      by rewrite <-app_assoc. }
  rewrite H. by rewrite group_values_empty.
Qed.

Lemma take_groups_values ids T results T' :
  take_groups ids T = (results, T') → results ++ group_values T' ≡ₚ group_values T.
Proof.
  revert T results. induction ids as [|id ids IH]; intros T results H; simpl in H.
  - by injection H as <- <-.
  - destruct (T !! id) as [group|] eqn:E; [|by apply IH].
    destruct (take_groups ids (delete id T)) as [rs T1] eqn:E1. injection H as <- <-.
    rewrite <-app_assoc, (IH _ _ E1). symmetry. by apply group_values_delete.
Qed.

(** The results each assistant takes, in turn. *)
Fixpoint claim_results (assistants : list MessageRecord) T : list (list MessageRecord) :=
  match assistants with
  | [] => []
  | a :: assistants => let '(results, T) := take_groups (call_ids a) T in
                       results :: claim_results assistants T
  end.

Lemma claim_results_values assistants T :
  ∃ T', concat (claim_results assistants T) ++ group_values T' ≡ₚ group_values T.
Proof.
  revert T. induction assistants as [|a l IH]; intros T; simpl; [by exists T|].
  destruct (take_groups (call_ids a) T) as [results T1] eqn:E. destruct (IH T1) as [T' H].
  exists T'. simpl. rewrite <-app_assoc, H. by apply take_groups_values in E.
Qed.

Lemma claim_groups_results assistants T claimed G :
  NoDup (map m_id assistants) →
  ∃ G', claim_groups assistants T claimed G
      = (claimed ++ map m_id (concat (claim_results assistants T)), G')
    ∧ map (λ a, G' !! m_id a) assistants = map Some (claim_results assistants T)
    ∧ ∀ id, id ∉ map m_id assistants → G' !! id = G !! id.
Proof.
  revert T claimed G. induction assistants as [|a l IH]; intros T claimed G Hnd; simpl in *.
  { exists G. by rewrite app_nil_r. }
  apply NoDup_cons in Hnd as [Ha Hnd].
  destruct (take_groups (call_ids a) T) as [results T1] eqn:E.
  destruct (IH T1 (claimed ++ map m_id results) (<[m_id a := results]> G) Hnd) as (G' & -> & Hg & Hid).
  exists G'. split_and!.
  - simpl. by rewrite map_app, app_assoc.
  - rewrite (Hid _ Ha), lookup_insert_eq. simpl. f_equal. exact Hg.
  - intros id [Hne Hni]%not_elem_of_cons. rewrite Hid by done. by rewrite lookup_insert_ne.
Qed.

Lemma omap_delete_other id l G : id ∉ map m_id l →
  omap (λ q, delete id G !! m_id q) l = omap (λ q, G !! m_id q) l.
Proof.
  induction l as [|q l IH]; simpl; [done|]. intros [Hne Hid]%not_elem_of_cons.
  rewrite lookup_delete_ne by done. destruct (G !! m_id q); [f_equal|]; by apply IH.
Qed.

Lemma emit_perm l G :
  NoDup (map m_id l) → emit l G ≡ₚ l ++ concat (omap (λ r, G !! m_id r) l).
Proof.
  revert G. induction l as [|r l IH]; intros G Hnd; [done|].
  apply NoDup_cons in Hnd as [Hr Hnd]. cbn [emit].
  assert (omap (λ r, G !! m_id r) (r :: l) =
    option_list (G !! m_id r) ++ omap (λ r, G !! m_id r) l) as -> by (simpl; by destruct (G !! m_id r)).
  destruct (G !! m_id r) as [group|] eqn:E; [|by rewrite IH].
  rewrite (IH (delete (m_id r) G) Hnd), (omap_delete_other _ _ _ Hr). simpl.
  apply Permutation_skip. by rewrite !app_assoc, (Permutation_app_comm group).
Qed.

(** ** One run *)

Lemma NoDup_of_map {A B} (f : A → B) (l : list A) : NoDup (map f l) → NoDup l.
Proof. apply NoDup_fmap_1. Qed.

Lemma same_message_id records m r :
  NoDup (map m_id records) → m ∈ records → r ∈ records → m.(m_id) = r.(m_id) → m = r.
Proof.
  intros Hnd [i Hi]%list_elem_of_lookup [k Hk]%list_elem_of_lookup E.
  assert (i = k) as ->; [|congruence]. eapply NoDup_lookup; [exact Hnd| |];
    rewrite list_lookup_fmap; [by rewrite Hi|by rewrite Hk, E].
Qed.

Lemma internal_not_tool m : internal_assistant m = true → callable m = true → False.
Proof.
  unfold internal_assistant, callable. intros [H%String.eqb_eq _]%andb_true_iff
    [H'%String.eqb_eq _]%andb_true_iff. congruence.
Qed.
Lemma internal_prefix m : internal_assistant m = true → prefix m = true.
Proof. unfold prefix. intros ->. apply orb_true_r. Qed.
Lemma callable_prefix m : callable m = true → prefix m = true.
Proof. unfold prefix, callable. intros [-> _]%andb_true_iff. done. Qed.

(** What the loop over a run's assistants hands out. *)
Definition handed_out records : list MessageRecord :=
  concat (claim_results (filter_by internal_assistant records) (tool_groups records)).

Lemma handed_out_callable records m :
  m ∈ handed_out records → m ∈ records ∧ callable m = true.
Proof.
  intros Hm. destruct (claim_results_values (filter_by internal_assistant records)
    (tool_groups records)) as [T' H].
  assert (m ∈ filter_by callable records) as Hin.
  { rewrite <-tool_groups_values, <-H. apply elem_of_app. by left. }
  apply elem_of_filter_by in Hin as [? ?]. done.
Qed.

Lemma handed_out_NoDup records : NoDup records → NoDup (handed_out records).
Proof.
  intros Hnd. destruct (claim_results_values (filter_by internal_assistant records)
    (tool_groups records)) as [T' H].
  rewrite tool_groups_values in H. assert (NoDup (handed_out records ++ group_values T')) as Ha.
  { unfold handed_out. rewrite H. by apply NoDup_filter. }
  by apply NoDup_app in Ha as [? _].
Qed.

(** The messages of the run's first part that no assistant takes. *)
Definition kept records : list MessageRecord :=
  filter_by (λ m, prefix m && negb (mem_str m.(m_id) (map m_id (handed_out records)))) records.

Lemma handed_out_mem records m : NoDup (map m_id records) → m ∈ records →
  mem_str m.(m_id) (map m_id (handed_out records)) = true → m ∈ handed_out records.
Proof.
  intros Hids Hm Hmem%bool_decide_eq_true. apply list_elem_of_fmap in Hmem as (r & E & Hr).
  destruct (handed_out_callable _ _ Hr) as [Hr' _].
  by rewrite (same_message_id records m r).
Qed.

Lemma kept_internal records : NoDup (map m_id records) →
  filter_by internal_assistant (kept records) = filter_by internal_assistant records.
Proof.
  intros Hids. unfold kept. rewrite filter_by_filter_by. apply filter_by_ext. intros m Hm.
  destruct (internal_assistant m) eqn:Ei; [|apply andb_false_r].
  rewrite (internal_prefix _ Ei), andb_true_r. simpl. apply negb_true_iff, not_true_is_false.
  intros Hmem. apply (internal_not_tool m Ei). by apply (handed_out_callable records), handed_out_mem.
Qed.

Lemma order_run_emit records : NoDup (map m_id records) →
  existsb (meta_true "canonicalProviderTurn") records = false →
  ∃ G, order_run records = emit (kept records) G ++ filter_by (λ m, negb (prefix m)) records
    ∧ map (λ a, G !! m_id a) (filter_by internal_assistant records)
      = map Some (claim_results (filter_by internal_assistant records) (tool_groups records))
    ∧ ∀ id, id ∉ map m_id (filter_by internal_assistant records) → G !! id = None.
Proof.
  intros Hids Hc. unfold order_run. rewrite Hc.
  destruct (claim_groups_results (filter_by internal_assistant records) (tool_groups records) [] ∅)
    as (G & -> & HG & Hno); [by apply NoDup_map_filter|]. by exists G.
Qed.

Lemma omap_map_Some {A B} (f : A → option B) k k' : map f k = map Some k' → omap f k = k'.
Proof.
  revert k'. induction k as [|x k IH]; intros [|y k'] E; try discriminate; [done|].
  injection E as Ex E. simpl. rewrite Ex. f_equal. by apply IH.
Qed.

Lemma kept_NoDup records : NoDup (map m_id records) → NoDup (map m_id (kept records)).
Proof. apply NoDup_map_filter. Qed.

Lemma emit_kept records G : NoDup (map m_id records) →
  map (λ a, G !! m_id a) (filter_by internal_assistant records)
    = map Some (claim_results (filter_by internal_assistant records) (tool_groups records)) →
  (∀ id, id ∉ map m_id (filter_by internal_assistant records) → G !! id = None) →
  emit (kept records) G ≡ₚ kept records ++ handed_out records.
Proof.
  intros Hids HG Hno. rewrite emit_perm by by apply kept_NoDup.
  apply omap_map_Some in HG. apply Permutation_app_head. unfold handed_out. rewrite <-HG.
  rewrite <-(kept_internal records Hids).
  rewrite (omap_filter_by _ internal_assistant (kept records)); [done|].
  intros r [_ Hr]%elem_of_filter_by Ei. apply Hno.
  intros (a & E & [Ha Hain]%elem_of_filter_by)%list_elem_of_fmap.
  rewrite (same_message_id records r a) in Ei by done. congruence.
Qed.

(** The first part is the kept messages and what was handed out. *)
Lemma kept_handed_out records : NoDup (map m_id records) →
  kept records ++ handed_out records ≡ₚ filter_by prefix records.
Proof.
  intros Hids. pose proof (NoDup_of_map _ _ Hids) as Hnd. apply NoDup_Permutation.
  - apply NoDup_app. split_and!; [by apply NoDup_filter| |by apply handed_out_NoDup].
    intros m [Hm _]%elem_of_filter_by Hr. apply andb_true_iff in Hm as [_ Hm%negb_true_iff].
    apply bool_decide_eq_false in Hm. apply Hm. by apply list_elem_of_fmap_2.
  - by apply NoDup_filter.
  - intros m. rewrite elem_of_app, elem_of_filter_by. split.
    + intros [ [ [? _]%andb_true_iff ?]%elem_of_filter_by |Hr]; [done|].
      destruct (handed_out_callable _ _ Hr). split; [by apply callable_prefix|done].
    + intros [Hp Hm]. destruct (mem_str (m_id m) (map m_id (handed_out records))) eqn:E.
      * right. by apply handed_out_mem.
      * left. apply elem_of_filter_by. by rewrite Hp, E.
Qed.

Lemma order_run_Perm records : NoDup (map m_id records) → order_run records ≡ₚ records.
Proof.
  intros Hids. destruct (existsb (meta_true "canonicalProviderTurn") records) eqn:Hc.
  { unfold order_run. by rewrite Hc. }
  destruct (order_run_emit records Hids Hc) as (G & -> & HG & Hno).
  rewrite (emit_kept records G Hids HG Hno), (kept_handed_out records Hids).
  apply filter_by_negb.
Qed.

Lemma emit_at k a G group : NoDup (map m_id k) → a ∈ k → G !! a.(m_id) = Some group →
  ∃ l1 l2, emit k G = l1 ++ a :: group ++ l2.
Proof.
  revert G. induction k as [|r k IH]; intros G Hnd Ha Hg; [by apply elem_of_nil in Ha|].
  apply NoDup_cons in Hnd as [Hr Hnd]. cbn [emit]. apply elem_of_cons in Ha as [<-|Ha].
  { rewrite Hg. by exists [], (emit k (delete (m_id a) G)). }
  assert (m_id r ≠ m_id a) as Hne.
  { intros E. apply Hr. change (m_id r ∈ map m_id k). rewrite E. by apply list_elem_of_fmap_2. }
  destruct (G !! m_id r) as [gr|].
  - destruct (IH (delete (m_id r) G) Hnd Ha) as (l1 & l2 & ->); [by rewrite lookup_delete_ne|].
    exists (r :: gr ++ l1), l2. simpl. by rewrite <-app_assoc.
  - destruct (IH G Hnd Ha Hg) as (l1 & l2 & ->). by exists (r :: l1), l2.
Qed.

(** ** Slots *)

(** The (run, position) pairs of a slot table. *)
Definition slot_pairs (slots : list (string * list nat)) : list (string * nat) :=
  concat (map (λ '(r, ps), map (pair r) ps) slots).

Lemma slot_push_pairs run p slots : slot_pairs (slot_push run p slots) ≡ₚ (run, p) :: slot_pairs slots.
Proof.
  unfold slot_pairs. induction slots as [|[r ps] slots IH]; simpl; [done|].
  destruct (String.eqb_spec r run) as [->|Hne]; simpl.
  - rewrite map_app, <-app_assoc. simpl. by rewrite <-Permutation_middle.
  - destruct (String.ltb run r); simpl; [done|]. rewrite IH. by rewrite <-Permutation_middle.
Qed.

Definition slot_of '((i, r) : nat * MessageRecord) : option (string * nat) :=
  run ← slot_run r; Some (run, i).

Lemma run_slots_pairs records :
  slot_pairs (run_slots records) ≡ₚ omap slot_of (imap pair records).
Proof.
  unfold run_slots.
  assert (∀ (l : list (nat * MessageRecord)) slots, slot_pairs (foldl (λ slots '(position, record),
      match slot_run record with Some run => slot_push run position slots | None => slots end)
    slots l) ≡ₚ slot_pairs slots ++ omap slot_of l) as H.
  { induction l as [|[i r] l IH]; intros slots; simpl; [by rewrite app_nil_r|].
    rewrite IH. destruct (slot_run r) as [run|]; simpl; [|done].
    rewrite slot_push_pairs. by rewrite <-Permutation_middle. }
  by rewrite H.
Qed.

Lemma slot_of_positions (l : list (nat * MessageRecord)) : map snd (omap slot_of l) `sublist_of` map fst l.
Proof.
  induction l as [|[i r] l IH]; simpl; [constructor|].
  destruct (slot_run r); simpl; by constructor.
Qed.

Lemma imap_pair_fst {A} (l : list A) : map fst (imap pair l) = seq 0 (length l).
Proof.
  apply list_eq. intros i. rewrite list_lookup_fmap, list_lookup_imap.
  destruct (l !! i) as [x|] eqn:E; simpl.
  - rewrite lookup_seq_lt; [done|]. by apply lookup_lt_Some in E.
  - symmetry. apply lookup_seq_ge. by apply lookup_ge_None.
Qed.

Lemma concat_slot_positions slots : concat (map snd slots) = map snd (slot_pairs slots).
Proof.
  unfold slot_pairs. induction slots as [|[r ps] slots IH]; simpl; [done|].
  rewrite map_app, IH, map_map. simpl. by rewrite map_id.
Qed.

(** Slots are disjoint and hold the messages of their run. *)
Lemma run_slots_disjoint records : NoDup (concat (map snd (run_slots records))).
Proof.
  rewrite concat_slot_positions, run_slots_pairs.
  eapply sublist_NoDup; [|apply slot_of_positions]. rewrite imap_pair_fst. apply NoDup_seq.
Qed.

Lemma run_slots_own records run ps p :
  (run, ps) ∈ run_slots records → p ∈ ps → ∃ r, records !! p = Some r ∧ slot_run r = Some run.
Proof.
  intros Hs Hp. assert ((run, p) ∈ slot_pairs (run_slots records)) as Hin.
  { unfold slot_pairs. apply list_elem_of_In, in_concat. exists (map (pair run) ps). split.
    - apply in_map_iff. exists (run, ps). split; [done|]. by apply list_elem_of_In.
    - apply in_map. by apply list_elem_of_In. }
  rewrite run_slots_pairs in Hin. apply list_elem_of_omap in Hin as ([i r] & Hi & Es).
  apply elem_of_lookup_imap in Hi as (k & m & [= -> ->] & Hk).
  unfold slot_of in Es. destruct (slot_run m) as [run'|] eqn:Er; [|done].
  simpl in Es. injection Es as -> <-. by exists m.
Qed.

(** *** Writing a run back *)

Lemma write_slots_length ps rs l : length (write_slots ps rs l) = length l.
Proof.
  revert rs l. induction ps as [|p ps IH]; intros [|r rs] l; simpl; [done..|].
  by rewrite IH, length_insert.
Qed.

Lemma write_slots_other ps rs l p : p ∉ ps → write_slots ps rs l !! p = l !! p.
Proof.
  revert rs l. induction ps as [|q ps IH]; intros [|r rs] l; simpl; [done..|].
  intros [Hne Hp]%not_elem_of_cons. rewrite IH by done. by apply list_lookup_insert_ne.
Qed.

Lemma write_slots_read ps rs l :
  NoDup ps → (∀ p, p ∈ ps → (p < length l)%nat) → length rs = length ps →
  omap (λ p, write_slots ps rs l !! p) ps = rs.
Proof.
  revert rs l. induction ps as [|p ps IH]; intros [|r rs] l Hnd Hlt Hlen; try discriminate; [done|].
  apply NoDup_cons in Hnd as [Hp Hnd]. simpl.
  rewrite write_slots_other, list_lookup_insert_eq by (try done; apply Hlt; left).
  f_equal. apply IH; [done| |by injection Hlen].
  intros q Hq. rewrite length_insert. apply Hlt. by right.
Qed.

(** A list is what it holds at some positions and at the others. *)
Lemma omap_map {A B C} (f : B → option C) (g : A → B) (s : list A) :
  omap f (map g s) = omap (λ x, f (g x)) s.
Proof. induction s as [|x s IH]; simpl; [done|]. destruct (f (g x)); [f_equal|]; exact IH. Qed.

Lemma omap_ext_in {A B} (f g : A → option B) (s : list A) :
  (∀ x, x ∈ s → f x = g x) → omap f s = omap g s.
Proof.
  induction s as [|x s IH]; intros H; [done|]. simpl. rewrite (H x) by left.
  assert (omap f s = omap g s) as E by (apply IH; intros; apply H; by right).
  destruct (g x); [f_equal|]; exact E.
Qed.

Lemma omap_lookup_seq {A} (k : list A) : omap (λ p, k !! p) (seq 0 (length k)) = k.
Proof.
  induction k as [|x k IH]; [done|]. simpl length. cbn [seq]. rewrite <-seq_shift.
  simpl. f_equal. rewrite omap_map. exact IH.
Qed.

Lemma positions_Perm {A} (k : list A) ps :
  NoDup ps → (∀ p, p ∈ ps → (p < length k)%nat) →
  k ≡ₚ omap (λ p, k !! p) ps
       ++ omap (λ p, k !! p) (base.filter (λ p, p ∉ ps) (seq 0 (length k))).
Proof.
  intros Hnd Hlt. rewrite <-omap_app. rewrite <-(omap_lookup_seq k) at 1.
  apply omap_Permutation. apply NoDup_Permutation.
  - apply NoDup_seq.
  - apply NoDup_app. split_and!; [done| |apply NoDup_filter, NoDup_seq].
    by intros p Hp [Hn _]%list_elem_of_filter.
  - intros p. rewrite elem_of_app, list_elem_of_filter, elem_of_seq. split.
    + intros Hp. destruct (decide (p ∈ ps)); [by left|by right].
    + intros [Hp%Hlt|[_ ?] ]; lia.
Qed.

Lemma write_slots_Perm ps rs k :
  NoDup ps → (∀ p, p ∈ ps → (p < length k)%nat) → rs ≡ₚ omap (λ p, k !! p) ps →
  length rs = length ps → write_slots ps rs k ≡ₚ k.
Proof.
  intros Hnd Hlt Hrs Hlen. rewrite (positions_Perm (write_slots ps rs k) ps Hnd).
  2: { intros p. rewrite write_slots_length. apply Hlt. }
  rewrite write_slots_read, write_slots_length by done.
  etrans; [|symmetry; by apply (positions_Perm k ps)]. apply Permutation_app; [done|].
  erewrite omap_ext_in; [reflexivity|].
  intros p [Hp _]%list_elem_of_filter. by apply write_slots_other.
Qed.

(** ** The whole history *)

(** The history after some runs are written back. *)
Record partly_ordered records (done : list nat) (ordered : list MessageRecord) : Prop := {
  po_length : length ordered = length records;
  po_perm : ordered ≡ₚ records;
  po_rest p : p ∉ done → ordered !! p = records !! p;
  po_slots p : slot_run <$> ordered !! p = slot_run <$> records !! p
}.

Lemma write_run records seen ordered run ps :
  NoDup (map m_id records) → NoDup ps → (∀ p, p ∈ ps → p ∉ seen) →
  (∀ p, p ∈ ps → ∃ r, records !! p = Some r ∧ slot_run r = Some run) →
  partly_ordered records seen ordered →
  partly_ordered records (seen ++ ps)
    (write_slots ps (order_run (omap (λ p, records !! p) ps)) ordered).
Proof.
  intros Hids Hnd Hseen Hown [Hlen Hperm Hrest Hslots].
  set (rs := omap (λ p, records !! p) ps).
  assert (∀ p, p ∈ ps → (p < length records)%nat) as Hlt.
  { intros p (r & Hr & _)%Hown. by apply lookup_lt_Some in Hr. }
  assert (omap (λ p, ordered !! p) ps = rs) as Hrs.
  { apply omap_ext_in. intros p Hp. by apply Hrest, Hseen. }
  assert (length rs = length ps) as Hlrs.
  { unfold rs. clear -Hown. induction ps as [|p ps IH]; [done|]. simpl.
    destruct (Hown p) as (r & -> & _); [left|]. simpl. f_equal. apply IH.
    intros q Hq. apply Hown. by right. }
  assert (order_run rs ≡ₚ rs) as Hord.
  { apply order_run_Perm. pose proof (positions_Perm records ps Hnd Hlt) as Hp. fold rs in Hp.
    rewrite Hp, map_app in Hids. by apply NoDup_app in Hids as [? _]. }
  assert (length (order_run rs) = length ps) as Hlo by by rewrite Hord.
  split.
  - by rewrite write_slots_length.
  - rewrite <-Hperm. apply write_slots_Perm; [done|by rewrite Hlen|by rewrite Hrs|done].
  - intros p Hp. rewrite not_elem_of_app in Hp. destruct Hp. rewrite write_slots_other by done.
    by apply Hrest.
  - intros p. destruct (decide (p ∈ ps)) as [Hp|Hp]; [|by rewrite write_slots_other].
    destruct (Hown p Hp) as (r & -> & Hr). simpl. rewrite Hr.
    destruct (write_slots ps (order_run rs) ordered !! p) as [q|] eqn:Eq.
    + simpl. assert (q ∈ order_run rs) as Hq.
      { rewrite <-(write_slots_read ps (order_run rs) ordered Hnd); [|by rewrite Hlen|done].
        apply list_elem_of_omap. by exists p. }
      rewrite Hord in Hq. apply list_elem_of_omap in Hq as (p' & Hp' & Eq').
      destruct (Hown p' Hp') as (r' & Er' & Hr'). congruence.
    + apply lookup_ge_None in Eq. rewrite write_slots_length, Hlen in Eq. specialize (Hlt p Hp). lia.
Qed.

Lemma reorder_ordered records :
  NoDup (map m_id records) →
  partly_ordered records (concat (map snd (run_slots records))) (reorder records).
Proof.
  intros Hids. unfold reorder.
  assert (∀ slots seen ordered, (∀ s, s ∈ slots → s ∈ run_slots records) →
    NoDup (seen ++ concat (map snd slots)) → partly_ordered records seen ordered →
    partly_ordered records (seen ++ concat (map snd slots))
      (foldl (λ ordered '(_, positions),
        write_slots positions (order_run (omap (λ p, records !! p) positions)) ordered) ordered slots)) as H.
  { induction slots as [|[run ps] slots IH]; intros seen ordered Hsub Hnd Hpo; simpl in *.
    { by rewrite app_nil_r. }
    rewrite app_assoc. rewrite app_assoc in Hnd. apply IH; [intros; apply Hsub; by right|done|].
    apply NoDup_app in Hnd as [Hnd _]. apply NoDup_app in Hnd as (_ & Hdis & Hps).
    apply (write_run _ _ _ run); [done|done| | |done].
    - intros p Hp Hseen. by apply (Hdis p).
    - intros p Hp. apply (run_slots_own records run ps); [apply Hsub; left|done]. }
  apply (H (run_slots records) [] records); [done|apply run_slots_disjoint|].
  by split.
Qed.

(** The provider sees every message once.  On a history with distinct ids
    the provider order is a permutation of it; every slot of a run holds a
    message of the same run; and a message that belongs to no slot, as a user
    message does, stays where its order key puts it. *)
Theorem provider_order_slots records :
  NoDup (map m_id records) →
  let sorted := sort_by (λ a b, a.(m_order_key) <=? b.(m_order_key)) records in
  order_messages_for_provider records ≡ₚ records
  ∧ ∀ p m, sorted !! p = Some m →
      ∃ m', order_messages_for_provider records !! p = Some m' ∧ slot_run m' = slot_run m
        ∧ (slot_run m = None → m' = m).
Proof.
  intros Hids sorted. assert (sorted ≡ₚ records) as Hp by apply sort_by_perm.
  assert (NoDup (map m_id sorted)) as Hs by by rewrite Hp.
  unfold order_messages_for_provider. fold sorted.
  destruct (reorder_ordered sorted Hs) as [Hlen Hperm Hrest Hslots].
  split; [by rewrite Hperm|]. intros p m Hm. pose proof (Hslots p) as Hsl. rewrite Hm in Hsl.
  destruct (reorder sorted !! p) as [m'|] eqn:E; [|done]. exists m'. injection Hsl as Hsl.
  split_and!; [done..|]. intros Hn. rewrite Hrest in E; [congruence|].
  intros Hin. apply list_elem_of_In, in_concat in Hin as (ps & Hps & Hpin).
  apply in_map_iff in Hps as ([run ps'] & Eps & Hrun). simpl in Eps. subst ps'.
  apply list_elem_of_In in Hrun, Hpin.
  destruct (run_slots_own sorted run ps p Hrun Hpin) as (r & Er & Hr). congruence.
Qed.

(** Within a run the results of an internal assistant's calls follow it.
    Unless the run was stored as a canonical provider turn, the order of a
    run is its unclaimed tool and internal messages, each internal assistant
    followed at once by the results it takes, and then the run's visible
    messages in their own order. *)
Theorem order_run_layout records :
  NoDup (map m_id records) → existsb (meta_true "canonicalProviderTurn") records = false →
  ∃ l, order_run records = l ++ filter_by (λ m, negb (prefix m)) records
    ∧ Forall (λ m, prefix m = true) l
    ∧ ∀ a, a ∈ records → internal_assistant a = true →
        ∃ l1 l2 i results, l = l1 ++ a :: results ++ l2
          ∧ filter_by internal_assistant records !! i = Some a
          ∧ claim_results (filter_by internal_assistant records) (tool_groups records) !! i
            = Some results.
Proof.
  intros Hids Hc. destruct (order_run_emit records Hids Hc) as (G & -> & HG & Hno).
  exists (emit (kept records) G). split; [done|]. split.
  - rewrite (emit_kept records G Hids HG Hno), (kept_handed_out records Hids).
    apply Forall_forall. by intros m [? _]%elem_of_filter_by.
  - intros a Ha Hi. assert (a ∈ filter_by internal_assistant records) as Hin by by apply elem_of_filter_by.
    apply list_elem_of_lookup in Hin as [i Hai].
    assert (map (λ a, G !! m_id a) (filter_by internal_assistant records) !! i = Some (G !! m_id a)) as Hm
      by by rewrite list_lookup_fmap, Hai.
    rewrite HG, list_lookup_fmap in Hm.
    destruct (claim_results _ _ !! i) as [results|] eqn:Er; [|done]. injection Hm as Hm.
    assert (a ∈ kept records) as Hk.
    { assert (a ∈ filter_by internal_assistant (kept records)) as Hk
        by (rewrite kept_internal by done; by apply elem_of_filter_by).
      by apply elem_of_filter_by in Hk as [_ ?]. }
    destruct (emit_at (kept records) a G results) as (l1 & l2 & E); [by apply kept_NoDup|done..|].
    exists l1, l2, i, results. by split_and!.
Qed.

(** ** Witnesses *)

(** A question; an internal assistant that called [c1]; another run's
    answer between; the result of [c1]; the visible answer. *)
Definition ex_record (id role : string) (run call : option string) (calls : option Value)
    (internal : bool) (order_key : Z) : MessageRecord :=
  mkMessage id "chat" run role VNull None call calls None (VObj [("internal", VBool internal)])
    order_key order_key 0 true false (Text "1970-01-01T00:00:00.000Z").
Definition ex_history : list MessageRecord :=
  [ex_record "question" "user" (Some "r") None None false 0;
   ex_record "answer" "assistant" (Some "r") None None false 1;
   ex_record "other" "assistant" (Some "s") None None false 2;
   ex_record "result" "tool" (Some "r") (Some "c1") None false 3;
   ex_record "caller" "assistant" (Some "r") None (Some (VArr [VObj [("id", VStr "c1")]])) true 4].

Lemma provider_order_slots_witness :
  order_messages_for_provider ex_history ≡ₚ ex_history
  ∧ map m_id (order_messages_for_provider ex_history)
    = ["question"; "caller"; "other"; "result"; "answer"].
Proof.
  split; [|vm_compute; reflexivity]. apply (provider_order_slots ex_history).
  vm_compute. by apply (bool_decide_unpack _).
Defined.

Lemma order_run_layout_witness :
  let run := filter_by (λ m, bool_decide (slot_run m = Some "r")) ex_history in
  map m_id (order_run run) = ["caller"; "result"; "answer"]
  ∧ ∃ l, order_run run = l ++ filter_by (λ m, negb (prefix m)) run.
Proof.
  intros run. split; [vm_compute; reflexivity|].
  destruct (order_run_layout run) as (l & H & _).
  - vm_compute. by apply (bool_decide_unpack _).
  - vm_compute. reflexivity.
  - by exists l.
Defined.
