(* ===== verification/Evolution.v ===== *)
(** * How the rows of the task table change

    Every operation rewrites task rows along a few edges: a settlement, a
    retry, a cancellation, a recovery, ...  [EdgeLaws] lists them for a
    relation [E] between an old row and its new one; the operations are shown
    once to move the table along [E] ([evolve]), and each property of the
    tasks is an instance. *)

From S2P Require Export TaskSpecs.
Local Open Scope Z_scope.

(** Distinct ids: the primary key of the table. *)
Definition keys_ok (d : Db) : Prop := NoDup (map t_task_id d.(db_tasks)).

(** ** The edges *)

Definition retry_cancelled (now : Z) (t : TaskRecord) : TaskRecord :=
  t <| t_status := Cancelled |> <| t_finished_at := Some now |> <| t_error := None |>.
Definition retry_parked (input : RetryTask) (t : TaskRecord) : TaskRecord :=
  t <| t_available_at := input.(r_available_at) |> <| t_retry_pending := true |>
    <| t_error := Some input.(r_error) |>.
Definition cancelled_now (now : Z) (t : TaskRecord) : TaskRecord :=
  t <| t_cancel_requested := true |> <| t_status := Cancelled |> <| t_finished_at := Some now |>
    <| t_retry_pending := false |> <| t_interrupt_requested := false |>.
Definition abandoned (poison : Z) (t : TaskRecord) : TaskRecord :=
  t <| t_poison_count := poison |> <| t_error := Some "lease_expired" |>.

(** [E t t'] for every rewrite outside admission and the two operations that
    set a status for a caller ([resume_task], [transition_task]); [N] holds
    of a new row. *)
Class EdgeLaws (E : TaskRecord → TaskRecord → Prop) (N : TaskRecord → Prop) := {
  edge_preorder :: PreOrder E;
  edge_new t t' : N t → E t t' → N t';
  edge_json {host : Host} b t t' j : json_task b t' = Ok j → E t t' → E t j;
  new_json {host : Host} b t j : json_task b t = Ok j → N t → N j;
  edge_insert input binding : N (new_task input binding);
  edge_dependency t f c id now : is_terminal t.(t_status) = false → E t (fail_dependent t f c id now);
  edge_dead_letter t reason now : is_terminal t.(t_status) = false → E t (dead_lettered reason now t);
  edge_settle t input : settleable t = true → is_terminal input.(st_status) = true →
    E t (settled input t);
  edge_retry_cancel t now : running t = true → E t (retry_cancelled now t);
  edge_retry_park t input : running t = true → E t (retry_parked input t);
  edge_progress t v : E t (t <| t_progress := v |>);
  edge_runtime t v : E t (t <| t_runtime_state := v |>);
  edge_attempts t n : t.(t_attempt_count) ≤ n ≤ u32_max → E t (t <| t_attempt_count := n |>);
  edge_poison t n : E t (t <| t_poison_count := n |>);
  edge_dead_mark t now reason :
    E t (t <| t_dead_lettered_at := Some now |> <| t_dead_letter_reason := Some reason |>);
  edge_cancel_request t : E t (t <| t_cancel_requested := true |>);
  edge_cancel t now : is_terminal t.(t_status) = false → E t (cancelled_now now t);
  edge_abandon_cancel t n now : is_terminal t.(t_status) = false →
    E t (abandoned n t <| t_status := Cancelled |> <| t_finished_at := Some now |>);
  edge_abandon_manual t n : is_terminal t.(t_status) = false →
    E t (abandoned n t <| t_status := Interrupted |>);
  edge_abandon_requeue t n at_ : settleable t = true →
    E t (abandoned n t <| t_status := Queued |> <| t_available_at := at_ |>);
  edge_interrupt_queued t : queued t || t.(t_retry_pending) = true →
    E t (t <| t_status := Interrupted |>);
  edge_interrupt t reason : queued t || running t = true →
    E t (t <| t_status := Interrupted |> <| t_error := Some reason |>);
  edge_requeue t now : t.(t_status) = WaitingApproval → E t (requeued now t);
  edge_wait t : running t = true → E t (t <| t_status := WaitingApproval |>);
  edge_interrupt_request t : running t = true → E t (t <| t_interrupt_requested := true |>);
  edge_park_interrupted t : running t = true →
    E t (t <| t_status := Interrupted |> <| t_interrupt_requested := false |>);
  edge_wait_child t : running t = true → E t (t <| t_status := WaitingChild |>);
  edge_continue t now : t.(t_status) = WaitingChild → E t (continued_task now t);
  edge_uncertain t reason : running t = true → E t (made_uncertain reason t);
  edge_resolve_finish t to error now : t.(t_status) = Uncertain → is_terminal to = true →
    E t (resolved_finished to error now t);
  edge_resolve_queue t now : t.(t_status) = Uncertain → E t (resolved_queued now t);
  edge_honour_cancel t now : is_terminal t.(t_status) = false → E t (honoured_cancel now t)
}.

(** The admission of a candidate, and the two status writes. *)
Class AdmissionEdge (E : TaskRecord → TaskRecord → Prop) :=
  edge_start t now input : candidate now t = true →
    t.(t_attempt_count) < input.(ci_max_attempts) → ci_max_attempts input ≤ u32_max →
    E t (started t now).
Class StatusEdges (E : TaskRecord → TaskRecord → Prop) := {
  edge_resume t now : t.(t_status) = Interrupted →
    E t (t <| t_status := Queued |> <| t_available_at := now |>);
  edge_transition t to patch : allowed t.(t_status) to = true → E t (patched to patch t)
}.

(** ** Tables that move along the edges *)

(** Only the task [id] moves. *)
Definition moves_only {host : Host} (id : string) (d d' : Db) : Prop :=
  ∀ id', id' ≠ id → find_row id' d'.(db_tasks) = find_row id' d.(db_tasks).

Section evolve.
Context {host : Host} (E : TaskRecord → TaskRecord → Prop) (N : TaskRecord → Prop).

Definition evolve (d d' : Db) : Prop :=
  keys_ok d → keys_ok d'
  ∧ (∀ id t, find_row id d.(db_tasks) = Some t → ∃ t', find_row id d'.(db_tasks) = Some t' ∧ E t t')
  ∧ (∀ id t', find_row id d'.(db_tasks) = Some t' → find_row id d.(db_tasks) = None → N t').

(** The keys may be assumed distinct. *)
Lemma evolve_intro d d' : (keys_ok d → evolve d d') → evolve d d'.
Proof. intros H Hk. by apply H. Qed.

Context `{!EdgeLaws E N}.

#[export] Instance evolve_preorder : PreOrder evolve.
Proof.
  split.
  - intros d Hk. split; [done|]. split; [|congruence]. intros id t ?. by exists t.
  - intros d1 d2 d3 H12 H23 Hk. destruct (H12 Hk) as (Hk2 & F12 & N12).
    destruct (H23 Hk2) as (Hk3 & F23 & N23). split; [done|]. split.
    + intros id t (t2 & (t3 & ? & ?)%F23 & ?)%F12. exists t3. split; [done|]. by trans t2.
    + intros id t3 H3 H1. destruct (find_row id (db_tasks d2)) as [t2|] eqn:H2; [|eauto].
      destruct (F23 _ _ H2) as (t3' & H3' & ?). apply (edge_new t2); [eauto|]. congruence.
Qed.

Lemma evolve_same d d' : db_tasks d' = db_tasks d → evolve d d'.
Proof.
  unfold evolve, keys_ok. intros -> Hk. split; [done|]. split; [|congruence].
  intros id t ?. by exists t.
Qed.

#[export] Instance evolve_framed : Framed evolve.
Proof. intros d d' []. by apply evolve_same. Qed.

Lemma json_task_id b t j : json_task b t = Ok j → t_task_id j = t_task_id t.
Proof. exact (json_key (A := TaskRecord) b t j). Qed.

Lemma rewrote_evolve d d' id t t' : rewrote d d' id t t' → E t t' → evolve d d'.
Proof.
  intros (Hf & Hid & j & Hj & Et) Hev Hk.
  pose proof (edge_json _ _ _ _ Hj Hev) as Hev'. pose proof (json_task_id _ _ _ Hj) as Hjid.
  unfold keys_ok. rewrite Et. split_and!.
  - pose proof (replace_row_keys j (db_tasks d)) as K. simpl in K. by rewrite K.
  - intros id0 t0 Ht0. rewrite find_row_replace. simpl. rewrite Hjid, Hid.
    destruct (String.eqb_spec id id0) as [->|].
    + exists j. rewrite Ht0. split; [done|]. congruence.
    + exists t0. by split.
  - intros id0 t0. rewrite find_row_replace. simpl. intros H0 H1. rewrite H1 in H0.
    by destruct String.eqb.
Qed.

(** A row rewritten keeps the others. *)
Lemma rewrote_other d d' id t t' id' :
  rewrote d d' id t t' → id' ≠ id → find_row id' d'.(db_tasks) = find_row id' d.(db_tasks).
Proof.
  intros (Hf & Hid & j & Hj & ->) Hne. rewrite find_row_replace. simpl.
  rewrite (json_task_id _ _ _ Hj), Hid. by destruct (String.eqb_spec id id').
Qed.

(** The new row of a rewritten task. *)
Lemma rewrote_this d d' id t t' :
  rewrote d d' id t t' → ∃ j, json_task d.(db_file) t' = Ok j ∧ find_row id d'.(db_tasks) = Some j.
Proof.
  intros (Hf & Hid & j & Hj & ->). exists j. split; [done|]. rewrite find_row_replace. simpl.
  rewrite (json_task_id _ _ _ Hj), Hid, String.eqb_refl. by rewrite Hf.
Qed.

Lemma evolve_insert_task input binding : within evolve (insert_row (new_task input binding)).
Proof.
  apply within_insert_row. intros d j Hj Hf Hk. unfold keys_ok. simpl. split_and!.
  - rewrite map_app. apply NoDup_app. split_and!; [done| |apply NoDup_singleton].
    intros id (t & -> & Ht)%list_elem_of_fmap Eq%list_elem_of_singleton.
    rewrite find_row_None in Hf. apply (Hf t); [done|]. simpl.
    by rewrite Eq, (json_task_id _ _ _ Hj).
  - intros id t Ht. exists t. rewrite find_row_app. simpl in Ht. rewrite Ht.
    split; [done|reflexivity].
  - intros id t'. rewrite find_row_app. simpl. intros H1 H0. rewrite H0 in H1.
    unfold find_row in H1. simpl in H1. destruct String.eqb; [|done]. injection H1 as <-.
    eapply new_json; [exact Hj|apply edge_insert].
Qed.

(** *** Loops over a snapshot *)

(** It moves along an edge. *)
Definition touches (id : string) (d d' : Db) : Prop := evolve d d' ∧ moves_only id d d'.

Lemma rewrote_touches d d' id t t' : rewrote d d' id t t' → E t t' → touches id d d'.
Proof. intros Hr He. split; [by eapply rewrote_evolve|]. intros id' ?. by eapply rewrote_other. Qed.

Lemma same_touches id d d' : db_tasks d' = db_tasks d → touches id d d'.
Proof. intros Eq. split; [by apply evolve_same|]. intros id' _. by rewrite Eq. Qed.
End evolve.

(** The rows of the snapshot are still those of the database. *)
Definition snapshot {host : Host} (l : list TaskRecord) (d : Db) : Prop :=
  NoDup (map t_task_id l) ∧ ∀ t, t ∈ l → find_row t.(t_task_id) d.(db_tasks) = Some t.

Section snapshots.
Context {host : Host}.

Lemma snapshot_moves t l d d' :
  snapshot (t :: l) d → moves_only t.(t_task_id) d d' → snapshot l d'.
Proof.
  intros [ [Hn Hd]%NoDup_cons Hl] Ho. split; [done|]. intros t' Ht'.
  rewrite Ho; [apply Hl; by right|]. intros Eq. apply Hn. rewrite <-Eq. by apply list_elem_of_fmap_2.
Qed.

Lemma snapshot_touches E N t l d d' :
  snapshot (t :: l) d → touches E N t.(t_task_id) d d' → snapshot l d'.
Proof. intros Hs [_ Ho]. by eapply snapshot_moves. Qed.

Lemma snapshot_filter p l d : snapshot l d → snapshot (filter_by p l) d.
Proof.
  intros [Hn Hl]. split; [|intros t [_ ?]%elem_of_filter_by; auto].
  unfold filter_by. clear Hl. induction l as [|t l IH]; [done|]. simpl in Hn.
  apply NoDup_cons in Hn as [Ht Hn]. rewrite filter_cons. case_decide; [|auto].
  simpl. apply NoDup_cons. split; [|auto].
  intros (t' & Eq & [_ ?]%list_elem_of_filter)%list_elem_of_fmap. apply Ht. rewrite Eq.
  by apply list_elem_of_fmap_2.
Qed.

Lemma snapshot_all d : keys_ok d → snapshot d.(db_tasks) d.
Proof. intros Hk. split; [done|]. intros t Ht. exact (find_row_elem _ t Hk Ht). Qed.

Lemma snapshot_perm l l' d : l ≡ₚ l' → snapshot l d → snapshot l' d.
Proof. unfold snapshot. intros Eq. rewrite <-Eq. setoid_rewrite Eq. tauto. Qed.

Lemma snapshot_loop E N `{!EdgeLaws E N} {B} (P : TaskRecord → Prop) (f : TaskRecord → M B) l d bs d' :
  (∀ t d b d', P t → find_row t.(t_task_id) d.(db_tasks) = Some t → f t d = Ok (b, d') →
    touches E N t.(t_task_id) d d') →
  snapshot l d → (∀ t, t ∈ l → P t) → for_map f l d = Ok (bs, d') → evolve E N d d'.
Proof.
  intros Hf. revert d bs. induction l as [|t l IH]; intros d bs Hs HP H; simpl in H; inv_st;
    [reflexivity|].
  match goal with H : f t d = _ |- _ => apply Hf in H as Ht; [|apply HP; left|apply Hs; left] end.
  transitivity x0; [apply Ht|].
  eapply IH; [by eapply snapshot_touches|intros; apply HP; by right|eassumption].
Qed.

(** A loop over a snapshot leaves every task outside it alone, and each task
    of it as its own step left it. *)
Lemma snapshot_hits {B} (P : TaskRecord → TaskRecord → Prop) (f : TaskRecord → M B) l d us d' :
  (∀ t d b d', t ∈ l → find_row t.(t_task_id) d.(db_tasks) = Some t → f t d = Ok (b, d') →
    moves_only t.(t_task_id) d d' ∧ ∃ t', find_row t.(t_task_id) d'.(db_tasks) = Some t' ∧ P t t') →
  snapshot l d → for_map f l d = Ok (us, d') →
  (∀ id, id ∉ map t_task_id l → find_row id d'.(db_tasks) = find_row id d.(db_tasks))
  ∧ ∀ t, t ∈ l → ∃ t', find_row t.(t_task_id) d'.(db_tasks) = Some t' ∧ P t t'.
Proof.
  intros Hf. revert d us. induction l as [|t l IH]; intros d us Hs H; simpl in H.
  { inv_st. split; [done|]. by intros t ?%elem_of_nil. }
  apply st_bind_Ok in H as (b & d1 & H1 & H). apply st_bind_Ok in H as (bs & d2 & H2 & H). apply st_ret_Ok in H as [_ ->].
  destruct (Hf t d b d1 ltac:(by left) (proj2 Hs t ltac:(by left)) H1) as [Hm (t' & Ht' & Hp)].
  destruct (IH (λ t d b d' Ht, Hf t d b d' (list_elem_of_further _ _ _ Ht)) _ _ (snapshot_moves _ _ _ _ Hs Hm) H2) as [Ho Hi].
  destruct Hs as [[Hn _]%NoDup_cons _]. rewrite map_cons. split.
  - intros id [Hne Hid]%not_elem_of_cons. by rewrite Ho, Hm.
  - intros u [-> |Hu]%elem_of_cons; [|by apply Hi]. exists t'. by rewrite Ho.
Qed.

(** A loop that keeps no result is one that keeps [tt]s. *)
Lemma for_each_map {A} (f : A → M unit) l d u d' :
  for_each f l d = Ok (u, d') → ∃ us, for_map f l d = Ok (us, d').
Proof.
  revert d. induction l as [|a l IH]; intros d H; simpl in *; inv_st; [by eexists|].
  match goal with H : for_each f l _ = _ |- _ => apply IH in H as [us Hus] end.
  match goal with H : f a d = Ok (?y, _) |- _ => exists (y :: us); unfold mbind, st_bind; rewrite H end.
  by rewrite Hus.
Qed.
End snapshots.

(** ** The operations *)

#[export] Hint Extern 2 (within (evolve _ _) (update_row (A := AttemptRecord) _)) =>
  (apply within_update_row; intros; by (eapply evolve_same; [typeclasses eauto|])) : st.
#[export] Hint Extern 2 (within (evolve _ _) (insert_row (A := AttemptRecord) _)) =>
  (apply within_insert_row; intros; by (eapply evolve_same; [typeclasses eauto|])) : st.
#[export] Hint Extern 2 (within (evolve _ _) (insert_row (new_task _ _))) =>
  apply evolve_insert_task : st.
#[export] Hint Extern 2 (within (evolve _ _) (update_row (A := Lease) _)) =>
  (apply within_update_row; intros; by (eapply evolve_same; [typeclasses eauto|])) : st.
#[export] Hint Extern 2 (within (evolve _ _) (upsert_row (A := Lease) _)) =>
  (apply within_upsert_row; intros; by (eapply evolve_same; [typeclasses eauto|])) : st.
#[export] Hint Extern 2 (within (evolve _ _) (delete_lease _)) =>
  (apply within_modify; intros; by (eapply evolve_same; [typeclasses eauto|])) : st.
#[export] Hint Extern 2 (within (evolve _ _) fresh) =>
  (apply within_fresh; intros; by (eapply evolve_same; [typeclasses eauto|])) : st.
#[export] Hint Extern 3 (within (evolve _ _) (modify _)) =>
  (apply within_modify; intros; by (eapply evolve_same; [typeclasses eauto|])) : st.

Lemma dead_lettered_error reason now t e :
  dead_lettered reason now (t <| t_error := e |>) = dead_lettered reason now t.
Proof. unfold dead_lettered. cbv. reflexivity. Qed.

Lemma settleable_not_terminal t : settleable t = true → is_terminal t.(t_status) = false.
Proof. intros [Eq|Eq]%settleable_status; by rewrite Eq. Qed.
Lemma candidate_not_terminal now t : candidate now t = true → is_terminal t.(t_status) = false.
Proof. unfold candidate. intros H. status_facts; by match goal with E : t_status t = _ |- _ => rewrite E end. Qed.

Ltac evolve_rw := eapply rewrote_evolve; [typeclasses eauto|..].
Ltac touches_rw := eapply rewrote_touches; [typeclasses eauto|..].

(** A run of a single-task operation: it left the tasks alone or rewrote one
    row along the edge [L]. *)
Ltac evolve_op L := let H := fresh "Hrun" in intros ? ? ? H; inv_op;
  try match goal with H : ok_or _ ?o = Ok _, Ho : ?o = find_row _ _ |- _ => apply ok_or_Ok in H; rewrite H in Ho; symmetry in Ho end;
  try fold_id; use_frames;
  try (eapply evolve_same; [typeclasses eauto|]; simpl; congruence);
  try (evolve_rw; [solve_rewrote|]; apply L; try (reflect_bools; done); try (status_facts; done)).

Section operations.
Context {host : Host} (E : TaskRecord → TaskRecord → Prop) (N : TaskRecord → Prop).
Context `{!EdgeLaws E N}.

Lemma evolve_insert_bound input binding : within (evolve E N) (insert_bound input binding).
Proof. unfold insert_bound, check_dependency. within_auto. Qed.
Hint Resolve evolve_insert_bound : st.
Lemma evolve_insert input : within (evolve E N) (Tasks.insert input).
Proof. apply evolve_insert_bound. Qed.
Hint Resolve evolve_insert : st.

Lemma evolve_acquire task_id attempt_id owner_id now ttl_ms :
  within (evolve E N) (acquire task_id attempt_id owner_id now ttl_ms).
Proof. unfold acquire. within_auto. Qed.
Hint Resolve evolve_acquire : st.

Lemma evolve_settle_inner input extra :
  (∀ e task completed now, extra = Some e → within (evolve E N) (e.(settle_inputs) task completed now)) →
  within (evolve E N) (settle_inner input extra).
Proof.
  intros He d t d' (d1 & l & t0 & (? & ? & ? & ? & -> & Hr & _) & Hx)%settle_inner_Ok.
  transitivity d1; [evolve_rw; [done|]; by apply edge_settle|].
  destruct extra as [e|]; [by eapply He|by subst].
Qed.
Lemma evolve_settle input : within (evolve E N) (settle input).
Proof. by apply evolve_settle_inner. Qed.

Lemma evolve_retry input : within (evolve E N) (retry_task input).
Proof.
  intros d t d' (l & t0 & ? & ? & Hrun & Hr & -> & _)%retry_task_Ok.
  evolve_rw; [done|]. apply running_status in Hrun as Hst.
  destruct (t_cancel_requested t0); [by apply edge_retry_cancel|].
  destruct (_ <=? _); [apply edge_dead_letter; by rewrite Hst|by apply edge_retry_park].
Qed.

Lemma evolve_update_progress proof progress now :
  within (evolve E N) (update_progress proof progress now).
Proof. unfold update_progress. evolve_op edge_progress. Qed.
Lemma evolve_checkpoint proof expected state now :
  within (evolve E N) (checkpoint_runtime_state proof expected state now).
Proof. unfold checkpoint_runtime_state. evolve_op edge_runtime. Qed.
Lemma evolve_cancel task_id now : within (evolve E N) (cancel_task task_id now).
Proof.
  unfold cancel_task. evolve_op edge_cancel.
  evolve_rw; [solve_rewrote|]. apply edge_cancel_request.
Qed.
Lemma evolve_resume `{!StatusEdges E} task_id now : within (evolve E N) (resume_task task_id now).
Proof. unfold resume_task. evolve_op edge_resume. Qed.
Lemma evolve_transition `{!StatusEdges E} task_id from to patch lease_token now :
  within (evolve E N) (transition_task task_id from to patch lease_token now).
Proof. unfold transition_task. evolve_op edge_transition. Qed.
Lemma evolve_create_attempt task_id attempt_id owner_id now :
  within (evolve E N) (create_attempt task_id attempt_id owner_id now).
Proof.
  unfold create_attempt. evolve_op edge_attempts.
  match goal with H : ok_or _ _ = Ok _ |- _ => rename H into Hc end.
  unfold checked_add_u32 in Hc. destruct (checked _ _ _) eqn:C; [|done].
  injection Hc as ->. apply checked_Some in C as [-> ?]. lia.
Qed.
Lemma evolve_end_attempt attempt_id status error lease_token now :
  within (evolve E N) (end_attempt attempt_id status error lease_token now).
Proof. unfold end_attempt. evolve_op edge_poison. Qed.
Lemma evolve_interrupt_task task_id reason lease_token now :
  within (evolve E N) (interrupt_task task_id reason lease_token now).
Proof.
  unfold interrupt_task. evolve_op edge_interrupt; by apply negb_false_iff.
Qed.
Lemma evolve_mark_dead_lettered task_id reason lease_token now :
  within (evolve E N) (mark_dead_lettered task_id reason lease_token now).
Proof. unfold mark_dead_lettered. evolve_op edge_dead_mark. Qed.

(** *** Sessions *)

Lemma evolve_framed_step {A} (m : M A) d a d' : within frame m → m d = Ok (a, d') → evolve E N d d' ∧ db_tasks d' = db_tasks d.
Proof. intros Hm H. apply Hm in H. split; [by apply evolve_framed|apply H]. Qed.

Lemma evolve_convert_candidate scope_id candidate now : within (evolve E N) (convert_candidate scope_id candidate now).
Proof. unfold convert_candidate, convert_claimed, convert_message, get_input. within_auto; by_frame frame_transition_input. Qed.
Hint Resolve evolve_convert_candidate : st.
Lemma evolve_convert_first scope_id now candidates : within (evolve E N) (convert_first scope_id now candidates).
Proof. induction candidates as [|c l IH]; cbn [convert_first]; within_auto. Qed.
Lemma evolve_convert_missed staging scope_id now records : within (evolve E N) (convert_missed staging scope_id now records).
Proof. induction records as [|r l IH]; cbn [convert_missed]; within_auto. Qed.
Hint Resolve evolve_convert_first evolve_convert_missed : st.
Lemma evolve_settle_inputs extra task completed now : within (evolve E N) (settle_session_inputs extra task completed now).
Proof.
  unfold settle_session_inputs, promotable_pending, list_inputs. within_auto.
  by_frame frame_ignore_lost_cas. apply frame_transition_input.
Qed.
Lemma evolve_settle_session input extra : within (evolve E N) (settle_session input extra).
Proof. apply evolve_settle_inner. intros e task completed now [= <-]. apply evolve_settle_inputs. Qed.
Lemma evolve_stage_queued input : within (evolve E N) (stage_queued_turn input).
Proof. unfold stage_queued_turn, get_input. within_auto. Qed.
Lemma evolve_queue_or_stage pick input : within (evolve E N) (queue_or_stage_turn pick input).
Proof. unfold queue_or_stage_turn, get_input. within_auto; by_frame frame_insert_input. Qed.

Lemma evolve_request_interrupt task_id now : within (evolve E N) (request_interrupt task_id now).
Proof.
  unfold request_interrupt. evolve_op edge_interrupt_request.
  evolve_rw; [solve_rewrote|]. apply edge_interrupt_queued.
  by match goal with H : queued _ = true |- _ => rewrite H end.
Qed.
Lemma evolve_park_interrupted proof now : within (evolve E N) (park_interrupted proof now).
Proof. unfold park_interrupted. evolve_op edge_park_interrupted. Qed.
Lemma evolve_park input : within (evolve E N) (park_turn input).
Proof. unfold park_turn. evolve_op edge_wait. Qed.

(** A task that waits is queued again, whatever else an answer writes. *)
Lemma evolve_requeue_then {A} task now (m : unit → M A) d a d' : task.(t_status) = WaitingApproval →
  find_row task.(t_task_id) d.(db_tasks) = Some task → (∀ u, within frame (m u)) →
  (requeue_task task now ≫= m) d = Ok (a, d') → evolve E N d d'.
Proof.
  intros Hst Hf Hm H. unfold requeue_task, save in H. apply st_bind_Ok in H as (u & d1 & (j & Hj & ->)%update_row_Ok & H).
  apply Hm in H. etrans; [|by apply evolve_framed]. evolve_rw; [|by apply (edge_requeue task now)].
  split; [exact Hf|]. split; [done|]. by exists j.
Qed.
Lemma evolve_approve_answer input request task turn_id own approval now_text d r d' : task.(t_status) = WaitingApproval →
  find_row task.(t_task_id) d.(db_tasks) = Some task →
  approve_answer input request task turn_id own approval now_text d = Ok (r, d') → evolve E N d d'.
Proof.
  intros Hst Hf H. unfold approve_answer in H. apply st_bind_Ok in H as (u & d1 & H1 & H).
  assert (frame d d1) as F1.
  { apply (within_run _ _ _ _ _ H1). destruct (remembers approval); [apply frame_room_for_grant|within_auto]. }
  apply st_bind_Ok in H as (u2 & d2 & H2%map_err_Ok & H). apply st_ret_Ok in H as [_ ->].
  transitivity d1; [by apply evolve_framed|].
  eapply evolve_requeue_then; [exact Hst|by rewrite (frame_tasks _ _ F1)| |exact H2]. intros ?. cbv beta.
  within_auto; auto using frame_transition_input, frame_apply_plan_grant, frame_write_request_grant.
Qed.
Lemma evolve_plain_answer input request task turn_id approval now_text d r d' : task.(t_status) = WaitingApproval →
  find_row task.(t_task_id) d.(db_tasks) = Some task →
  plain_answer input request task turn_id approval now_text d = Ok (r, d') → evolve E N d d'.
Proof.
  intros Hst Hf H. unfold plain_answer in H. apply st_bind_Ok in H as (o & d1 & H1 & H).
  unfold last_message_of_run in H1. inv_st. match goal with H : select _ _ = _ |- _ => apply st_gets_Ok in H as [-> ->] end.
  match goal with H : map_err _ _ _ = _ |- _ => apply map_err_Ok in H; rename H into H2 end.
  match type of H2 with _ = Ok (_, ?s) => transitivity s end; [eapply evolve_requeue_then; [exact Hst|exact Hf| |exact H2]; intros ?; cbv beta; within_auto; apply frame_transition_input|].
  match goal with H : append_answer _ _ _ _ _ _ = _ |- _ => apply (within_run _ _ _ _ _ H) end.
  unfold append_answer. within_auto.
Qed.
Lemma evolve_answer input : within (evolve E N) (answer_human_request input).
Proof.
  intros d r d' (q & turn_id & own & now_text & Hq & [(_ & -> & _)|(_ & _ & task & Hf & Hst & _ & H)])%answer_Ok; [reflexivity|].
  assert (find_row (t_task_id task) (db_tasks d) = Some task) as Hf'.
  { apply find_row_Some in Hf as Hid. destruct Hid as [_ Hid]. simpl in Hid. by rewrite Hid. }
  unfold committed_answer in H. destruct (approving input own); [by eapply evolve_approve_answer|by eapply evolve_plain_answer].
Qed.

(** *** Claim *)

Lemma claim_loop_evolve `{!AdmissionEdge E} input concurrency occupied tasks l d r d' :
  input.(ci_max_attempts) ≤ u32_max →
  snapshot l d → (∀ t, t ∈ l → candidate input.(ci_now) t = true) →
  claim_loop input concurrency occupied tasks l d = Ok (r, d') → evolve E N d d'.
Proof.
  intros Hmax. revert d. induction l as [|t l IH]; intros d Hs Hc H;
    [apply st_ret_Ok in H as [_ ->]; reflexivity|].
  assert (candidate (ci_now input) t = true) as Ht by (apply Hc; left).
  pose proof (candidate_not_terminal _ _ Ht) as Hnt.
  assert (find_row (t_task_id t) (db_tasks d) = Some t) as Hf by (apply Hs; left).
  assert (∀ d1, touches E N (t_task_id t) d d1 →
    claim_loop input concurrency occupied tasks l d1 = Ok (r, d') → evolve E N d d') as Hgo.
  { intros d1 Ht1 H1. transitivity d1; [apply Ht1|]. eapply IH; [|intros; apply Hc; by right|done].
    by eapply snapshot_touches. }
  assert (claim_loop input concurrency occupied tasks l d = Ok (r, d') → evolve E N d d') as Hskip.
  { apply Hgo. by eapply same_touches; [typeclasses eauto|]. }
  cbn [claim_loop] in H. destruct (negb (admissible _ _ _ _ _)); [exact (Hskip H)|].
  apply st_bind_Ok in H as (ready & d1 & Hd & H).
  apply (dependency_loop_Ok _ _ _ _ _ _ _ Hf) in Hd as [Hd|[Hd|Hd]].
  2: { destruct Hd as [-> ->]. cbn [negb] in H. exact (Hskip H). }
  2: { destruct Hd as (-> & _ & f & c & id & _ & Hr). cbn [negb] in H. eapply Hgo; [|exact H].
       touches_rw; [exact Hr|]. by apply edge_dependency. }
  destruct Hd as (-> & -> & _). cbn [negb] in H.
  destruct (dispatch_fenced t); [exact (Hskip H)|].
  destruct (Z.leb_spec (ci_max_attempts input) (t_attempt_count t)) as [|Hlt];
    apply st_bind_Ok in H as (x & d1 & Hx & H).
  - apply dead_letter_Ok in Hx as (_ & _ & Hr); [|exact Hf].
    eapply Hgo; [|exact H]. touches_rw; [exact Hr|]. by apply edge_dead_letter.
  - apply start_Ok in Hx as (Hr & _); [|exact Hf]. apply st_ret_Ok in H as [_ ->].
    evolve_rw; [exact Hr|]. by eapply edge_start.
Qed.

Lemma evolve_claim `{!AdmissionEdge E} aging input concurrency :
  input.(ci_max_attempts) ≤ u32_max →
  within (evolve E N) (claim_with_concurrency aging input concurrency).
Proof.
  intros Hmax d r d' H. apply evolve_intro. intros Hk. unfold claim_with_concurrency in H.
  inv_st. match goal with H : select _ _ = _ |- _ => apply st_gets_Ok in H as [-> ->] end.
  eapply claim_loop_evolve; [done| | |eassumption].
  - apply snapshot_filter. eapply snapshot_perm; [symmetry; apply sort_by_perm|].
    by apply snapshot_filter, snapshot_all.
  - by intros t [Hc _]%elem_of_filter_by.
Qed.

(** *** Recovery *)

Lemma touches_abandon task now max_attempts delay mode d t d' :
  find_row task.(t_task_id) d.(db_tasks) = Some task → settleable task = true →
  abandon task now max_attempts delay mode d = Ok (t, d') → touches E N task.(t_task_id) d d'.
Proof.
  intros Hf Hs H. pose proof (settleable_not_terminal _ Hs) as Ht.
  unfold abandon, recover_task, dead_letter in H. inv_op; use_frames.
  all: touches_rw; [solve_rewrote|]; first
    [by apply edge_abandon_cancel|by apply edge_abandon_manual|by apply edge_abandon_requeue|idtac].
  transitivity (task <| t_poison_count := x |>); [apply edge_poison|].
  rewrite dead_lettered_error. by apply edge_dead_letter.
Qed.

Lemma end_running_tasks task_id now d u d' :
  end_running_attempts task_id now d = Ok (u, d') → db_tasks d' = db_tasks d.
Proof. unfold end_running_attempts. intros H. by inv_op. Qed.

Lemma evolve_recover_lease now max_attempts delay mode lease :
  within (evolve E N) (recover_lease now max_attempts delay mode lease).
Proof.
  intros d r d' H. unfold recover_lease in H.
  apply st_bind_Ok in H as (task & d1 & [Hf ->]%required_Ok & H).
  assert (∀ d0, db_tasks d0 = db_tasks d → evolve E N d d0) as Hsame.
  { intros d0 ?. by eapply evolve_same; [typeclasses eauto|]. }
  destruct (settleable task) eqn:Hs; cbn [negb] in H; inv_st.
  - match goal with H : Lifecycle.end_attempt _ _ _ _ _ = _ |- _ =>
      apply end_attempt_Ok in H as (_ & _ & Et & _) end.
    match goal with H : delete_lease _ _ = _ |- _ => apply st_modify_Ok in H as -> end.
    match goal with H : abandon _ _ _ _ _ _ = _ |- _ => apply (touches_abandon task) in H as [H _] end.
    + transitivity x0; [by apply Hsame|]. etrans; [eassumption|].
      by eapply evolve_same; [typeclasses eauto|].
    + rewrite Et. apply find_row_Some in Hf as Hid. destruct Hid as [_ Hid]. simpl in Hid.
      by rewrite Hid.
    + done.
  - match goal with H : delete_lease _ _ = _ |- _ => apply st_modify_Ok in H as -> end.
    match goal with H : end_running_attempts _ _ _ = _ |- _ => apply end_running_tasks in H end.
    by apply Hsame.
Qed.

Lemma touches_recover_orphan now max_attempts delay mode task d r d' :
  find_row task.(t_task_id) d.(db_tasks) = Some task → settleable task = true →
  recover_orphan now max_attempts delay mode task d = Ok (r, d') → touches E N task.(t_task_id) d d'.
Proof.
  intros Hf Ht H. unfold recover_orphan in H.
  apply st_bind_Ok in H as (l & d1 & [_ ->]%st_gets_Ok & H).
  destruct (_ <=? _); inv_st; [by eapply same_touches; [typeclasses eauto|]|].
  match goal with H : end_running_attempts _ _ _ = _ |- _ => apply end_running_tasks in H as Et end.
  match goal with H : abandon _ _ _ _ _ _ = _ |- _ =>
    apply (touches_abandon task) in H as [Ha Hb]; [|by rewrite Et|done] end.
  split; [etrans; [by eapply evolve_same; [typeclasses eauto|]|done]|].
  intros id Hne. rewrite Hb by done. by rewrite Et.
Qed.

Lemma evolve_recover now max_attempts delay mode :
  within (evolve E N) (recover now max_attempts delay mode).
Proof.
  intros d r d' H. unfold recover in H. inv_st.
  match goal with H : all _ = _ |- _ => apply st_gets_Ok in H as [-> ->] end.
  match goal with H : for_map (recover_lease _ _ _ _) _ _ = Ok (_, ?s) |- _ =>
    transitivity s; [apply (within_for_map (evolve E N)) in H; [done|];
      intros ? _; apply evolve_recover_lease|] end.
  apply evolve_intro. intros Hk.
  eapply (snapshot_loop E N (λ t, settleable t = true)); [| | |eassumption].
  - intros. by eapply touches_recover_orphan.
  - by apply snapshot_filter, snapshot_filter, snapshot_all.
  - intros t [_ [Ho _]%elem_of_filter_by]%elem_of_filter_by. unfold orphan in Ho.
    apply andb_true_iff in Ho as [Ho _]. unfold settleable. by rewrite Ho.
Qed.

Lemma evolve_interrupt_queued before : within (evolve E N) (interrupt_queued before).
Proof.
  intros d r d' H. apply evolve_intro. intros Hk. unfold interrupt_queued in H. inv_st.
  match goal with H : select _ _ = _ |- _ => apply st_gets_Ok in H as [-> ->] end.
  match goal with H : for_each _ _ _ = _ |- _ => apply for_each_map in H as [us H];
    eapply (snapshot_loop E N (λ t, queued t || t_retry_pending t = true)); [| | |exact H] end.
  - intros t d1 b d2 Ht Hf Hone. unfold interrupt_one in Hone. inv_op; use_frames;
      (touches_rw; [solve_rewrote|by apply edge_interrupt_queued]).
  - by apply snapshot_filter, snapshot_filter, snapshot_all.
  - by intros t [_ [Ho _]%elem_of_filter_by]%elem_of_filter_by.
Qed.

(** *** Teammates *)

Lemma evolve_admit facts input : within (evolve E N) (admit_teammate_task facts input).
Proof. unfold admit_teammate_task, admit_new, read_admission. within_auto. Qed.
Lemma evolve_wait_for_children proof now : within (evolve E N) (wait_for_children proof now).
Proof. unfold wait_for_children. evolve_op edge_wait_child. Qed.
Lemma evolve_continue task_id now : within (evolve E N) (continue_after_children task_id now).
Proof. unfold continue_after_children. evolve_op edge_continue. Qed.
Lemma evolve_mark_uncertain proof now reason : within (evolve E N) (mark_uncertain proof now reason).
Proof. unfold mark_uncertain. evolve_op edge_uncertain. Qed.
Lemma evolve_resolve task_id to error now : within (evolve E N) (resolve_uncertain task_id to error now).
Proof. unfold resolve_uncertain. evolve_op edge_resolve_finish. evolve_rw; [solve_rewrote|]. apply edge_resolve_queue. by reflect_bools. Qed.

Lemma abandon_attempts_tasks task_id now error d u d' :
  abandon_running_attempts task_id now error d = Ok (u, d') → db_tasks d' = db_tasks d.
Proof. unfold abandon_running_attempts. intros H. by inv_op. Qed.
Lemma touches_reconcile now task d r d' :
  find_row task.(t_task_id) d.(db_tasks) = Some task → reconcile_one now task d = Ok (r, d') → touches E N task.(t_task_id) d d'.
Proof.
  intros Hf H.
  unfold reconcile_one, land_cancelled, abandon_running_attempts in H. inv_op; use_frames; try (by eapply same_touches; [typeclasses eauto|]);
    touches_rw; try solve_rewrote; try (apply edge_honour_cancel; by match goal with E : t_status _ = _ |- _ => rewrite E end);
    apply edge_uncertain; by apply bool_decide_eq_true.
Qed.
Lemma evolve_reconcile agent_id now : within (evolve E N) (reconcile_agent_runs agent_id now).
Proof.
  intros d r d' H. apply evolve_intro. intros Hk. unfold reconcile_agent_runs in H. inv_st.
  match goal with H : select _ _ = _ |- _ => apply st_gets_Ok in H as [-> ->] end.
  eapply (snapshot_loop E N (λ _, True)); [| | |eassumption]; [|by apply snapshot_filter, snapshot_all|done].
  intros. by eapply touches_reconcile.
Qed.

(** *** Every operation *)

(** The deletion of a scope and that of a chat are the operations that drop
    tasks. *)
Definition keeps_tasks (op : Op) : bool :=
  match op with OpDeleteByScope _ | OpDeleteChat _ => false | _ => true end.
(** A claim's attempt limit is a [u32]. *)
Definition typed_op (op : Op) : bool :=
  match op with
  | OpClaim _ input _ => input.(ci_max_attempts) <=? u32_max
  | _ => true
  end.
(** The status writes a caller chooses. *)
Definition status_op (op : Op) : bool :=
  match op with OpResume _ _ | OpTransition _ _ _ _ _ _ => true | _ => false end.
Definition admission_op (op : Op) : bool :=
  match op with OpClaim _ _ _ => true | _ => false end.

Lemma evolve_exec op :
  keeps_tasks op = true → typed_op op = true →
  (status_op op = true → StatusEdges E) → (admission_op op = true → AdmissionEdge E) →
  within (evolve E N) (exec op).
Proof.
  intros Hop Hty Hstat Hadm.
  destruct (side_op op) eqn:Hs;
    [apply within_framed; [by apply evolve_framed|by apply frame_side_op]|].
  destruct op; try discriminate Hs; try discriminate Hop; simpl in *; unfold ignore, submit, submit_turn,
    acquire_lease, renew, submit_child, renew_lease_by_token, release_lease, lease_by_token,
    expire_stale_leases; within_auto.
  all: lazymatch goal with
    | |- within _ (settle _) => by apply evolve_settle
    | |- within _ (retry_task _) => by apply evolve_retry
    | |- within _ (update_progress _ _ _) => by apply evolve_update_progress
    | |- within _ (checkpoint_runtime_state _ _ _ _) => by apply evolve_checkpoint
    | |- within _ (cancel_task _ _) => by apply evolve_cancel
    | |- within _ (recover _ _ _ _) => by apply evolve_recover
    | |- within _ (interrupt_queued _) => by apply evolve_interrupt_queued
    | |- within _ (create_attempt _ _ _ _) => by apply evolve_create_attempt
    | |- within _ (end_attempt _ _ _ _ _) => by apply evolve_end_attempt
    | |- within _ (interrupt_task _ _ _ _) => by apply evolve_interrupt_task
    | |- within _ (mark_dead_lettered _ _ _ _) => by apply evolve_mark_dead_lettered
    | |- within _ (answer_human_request _) => by apply evolve_answer
    | |- within _ (park_turn _) => by apply evolve_park
    | |- within _ (request_interrupt _ _) => by apply evolve_request_interrupt
    | |- within _ (park_interrupted _ _) => by apply evolve_park_interrupted
    | |- within _ (settle_session _ _) => by apply evolve_settle_session
    | |- within _ (stage_queued_turn _) => by apply evolve_stage_queued
    | |- within _ (queue_or_stage_turn _ _) => by apply evolve_queue_or_stage
    | |- within _ (admit_teammate_task _ _) => by apply evolve_admit
    | |- within _ (wait_for_children _ _) => by apply evolve_wait_for_children
    | |- within _ (continue_after_children _ _) => by apply evolve_continue
    | |- within _ (mark_uncertain _ _ _) => by apply evolve_mark_uncertain
    | |- within _ (resolve_uncertain _ _ _ _) => by apply evolve_resolve
    | |- within _ (reconcile_agent_runs _ _) => by apply evolve_reconcile
    | _ => idtac
    end.
  - apply Z.leb_le in Hty. specialize (Hadm eq_refl). by apply evolve_claim.
  - specialize (Hstat eq_refl). by apply evolve_resume.
  - specialize (Hstat eq_refl). by apply evolve_transition.
Qed.
End operations.
