(* ===== verification/Claims.v ===== *)
(** * What a claim admits

    [claim_with_concurrency] starts the first eligible task in priority
    order: the lane, concurrency, dependency and attempt conditions hold for
    it in the state the claim started from, no eligible task is passed over,
    and a claim that starts nothing met no eligible task. *)

From S2P Require Export Evolution TaskOps.
Local Open Scope Z_scope.

Lemma claim_le_total aging now a b :
  claim_le aging now a b = true ∨ claim_le aging now b a = true.
Proof.
  unfold claim_le. destruct (Z.eqb_spec (effective_priority aging (t_priority a) (t_enqueued_at a) now)
    (effective_priority aging (t_priority b) (t_enqueued_at b) now)) as [E|E].
  - rewrite E, Z.eqb_refl, !Z.leb_le. lia.
  - apply not_eq_sym, Z.eqb_neq in E. rewrite E, !Z.ltb_lt. apply Z.eqb_neq in E. lia.
Qed.

Lemma claim_le_trans aging now a b c :
  claim_le aging now a b = true → claim_le aging now b c = true → claim_le aging now a c = true.
Proof.
  unfold claim_le. repeat match goal with |- context [?x =? ?y] => destruct (Z.eqb_spec x y) end;
    rewrite ?Z.leb_le, ?Z.ltb_lt; lia.
Qed.

Lemma StronglySorted_filter_by {A} (R : A → A → Prop) p l :
  StronglySorted R l → StronglySorted R (filter_by p l).
Proof.
  unfold filter_by. induction 1 as [|x l Hl IH Hx]; [constructor|].
  rewrite filter_cons. case_decide; [|done]. constructor; [done|].
  rewrite Forall_forall in *. intros y [_ Hy]%list_elem_of_filter. auto.
Qed.

Section claims.
Context {host : Host}.

(** What the loop asks of a candidate, with the rows of [d]. *)
Definition eligible_in (input : ClaimInput) (concurrency occupied : Z) (tasks : list TaskRecord)
    (d : Db) (t : TaskRecord) : Prop :=
  admissible input concurrency occupied tasks t = true
  ∧ (∀ id, id ∈ t.(t_depends_on) → dep_completed d id)
  ∧ dispatch_fenced t = false ∧ t.(t_attempt_count) < input.(ci_max_attempts).

(** Completed tasks are the same in both states. *)
Definition same_completed (d d' : Db) : Prop := ∀ id, dep_completed d id ↔ dep_completed d' id.

Lemma same_completed_eligible input concurrency occupied tasks d d' t :
  same_completed d d' →
  eligible_in input concurrency occupied tasks d t ↔ eligible_in input concurrency occupied tasks d' t.
Proof. intros E. unfold eligible_in. by setoid_rewrite (E _). Qed.

Lemma rewrote_same_completed d d' id t t' :
  rewrote d d' id t t' → t.(t_status) ≠ Completed → t'.(t_status) ≠ Completed →
  same_completed d d'.
Proof.
  intros Hr Ht Ht' id0. unfold dep_completed. destruct (decide (id0 = id)) as [->|Hne].
  - apply rewrote_this in Hr as Hj. destruct Hj as (j & Hj & Hfj). destruct Hr as [Hf _].
    assert (t_status j = t_status t') as Ej by (unfold json_task in Hj; by inv_res).
    split; intros (t0 & Hf0 & Hs & _); congruence.
  - by rewrite (rewrote_other _ _ _ _ _ _ Hr Hne).
Qed.

(** The rows moved along the edges of a loop that starts nothing. *)
Definition moved (d d' : Db) : Prop := ∀ E N, EdgeLaws E N → evolve E N d d'.

Lemma moved_refl d : moved d d.
Proof. intros E N ?. reflexivity. Qed.
Lemma moved_trans d1 d2 d3 : moved d1 d2 → moved d2 d3 → moved d1 d3.
Proof. intros H12 H23 E N ?. transitivity d2; [by apply H12|by apply H23]. Qed.

(** The candidate after which the loop stops, and the state it starts it in. *)
Definition loop_result (input : ClaimInput) (concurrency occupied : Z) (tasks l : list TaskRecord)
    (d : Db) (r : option ClaimedTask) (d' : Db) : Prop :=
  match r with
  | None => moved d d' ∧ ∀ t, t ∈ l → ¬ eligible_in input concurrency occupied tasks d t
  | Some c => ∃ l1 t l2 d1, l = l1 ++ t :: l2
      ∧ (∀ t', t' ∈ l1 → ¬ eligible_in input concurrency occupied tasks d t')
      ∧ eligible_in input concurrency occupied tasks d t
      ∧ find_row t.(t_task_id) d1.(db_tasks) = Some t
      ∧ only_tasks d d1 ∧ moved d d1 ∧ start t input d1 = Ok (c, d')
  end.

Lemma loop_result_cons input concurrency occupied tasks t l d d1 r d' :
  ¬ eligible_in input concurrency occupied tasks d t → same_completed d d1 → only_tasks d d1 →
  moved d d1 → loop_result input concurrency occupied tasks l d1 r d' →
  loop_result input concurrency occupied tasks (t :: l) d r d'.
Proof.
  intros Ht Hc Ho Hm. destruct r as [c|]; simpl.
  - intros (l1 & t0 & l2 & d2 & -> & Hl1 & He & Hf & Ho2 & Hm2 & Hs).
    exists (t :: l1), t0, l2, d2. split_and!; try done.
    + intros t' [->|?]%elem_of_cons; [done|].
      rewrite (same_completed_eligible _ _ _ _ _ _ _ Hc). auto.
    + by rewrite (same_completed_eligible _ _ _ _ _ _ _ Hc).
    + destruct Ho, Ho2. split; congruence.
    + by eapply moved_trans.
  - intros [Hm2 H]. split; [by eapply moved_trans|]. intros t' [->|?]%elem_of_cons; [done|].
    rewrite (same_completed_eligible _ _ _ _ _ _ _ Hc). auto.
Qed.

Lemma same_completed_refl d : same_completed d d.
Proof. done. Qed.
Lemma only_tasks_refl d : only_tasks d d.
Proof. by split. Qed.

Lemma claim_loop_Ok input concurrency occupied tasks l d r d' :
  snapshot l d → (∀ t, t ∈ l → candidate input.(ci_now) t = true) →
  claim_loop input concurrency occupied tasks l d = Ok (r, d') →
  loop_result input concurrency occupied tasks l d r d'.
Proof.
  revert d. induction l as [|t l IH]; intros d Hs Hnt H.
  { apply st_ret_Ok in H as [-> ->]. split; [apply moved_refl|]. by intros t ?%elem_of_nil. }
  assert (t_status t ≠ Completed) as Hnc.
  { intros Eq. specialize (Hnt t (list_elem_of_here _ _)). apply candidate_not_terminal in Hnt.
    by rewrite Eq in Hnt. }
  assert (find_row (t_task_id t) (db_tasks d) = Some t) as Hf by (apply Hs; left).
  assert (∀ d1, ¬ eligible_in input concurrency occupied tasks d t → moves_only (t_task_id t) d d1 →
    same_completed d d1 → only_tasks d d1 → moved d d1 →
    claim_loop input concurrency occupied tasks l d1 = Ok (r, d') →
    loop_result input concurrency occupied tasks (t :: l) d r d') as Hgo.
  { intros d1 He Ht1 Hc Ho Hm H1. eapply loop_result_cons; [done..|].
    apply IH; [by eapply snapshot_moves|intros; apply Hnt; by right|done]. }
  assert (¬ eligible_in input concurrency occupied tasks d t →
    claim_loop input concurrency occupied tasks l d = Ok (r, d') →
    loop_result input concurrency occupied tasks (t :: l) d r d') as Hskip.
  { intros He. apply Hgo; [done|by intros ??|done|apply only_tasks_refl|apply moved_refl]. }
  cbn [claim_loop] in H. destruct (admissible _ _ _ _ _) eqn:Ha; cbn [negb] in H;
    [|apply Hskip; [intros [? _]; congruence|exact H] ].
  apply st_bind_Ok in H as (ready & d1 & Hd & H).
  apply (dependency_loop_Ok _ _ _ _ _ _ _ Hf) in Hd as Hd'.
  assert (eligible_in input concurrency occupied tasks d t → ready = true) as Hready.
  { intros (_ & He & _). unfold dependencies in Hd.
    rewrite (dependency_loop_true _ _ _ _ He) in Hd. congruence. }
  destruct Hd' as [(-> & -> & _ & Hdeps)|[ [-> ->]|(-> & Ho & f & c & id & _ & Hr)] ];
    cbn [negb] in H.
  2: { apply Hskip; [intros He; by apply Hready in He|exact H]. }
  2: { eapply Hgo; [intros He; by apply Hready in He| | |exact Ho| |exact H].
       - intros ??. by eapply rewrote_other.
       - eapply rewrote_same_completed; [exact Hr|done|]. by destruct f, c.
       - intros E N ?. evolve_rw; [exact Hr|]. apply edge_dependency.
         by eapply candidate_not_terminal, Hnt, list_elem_of_here. }
  destruct (dispatch_fenced t) eqn:Hfd; [apply Hskip; [intros (_ & _ & ? & _); congruence|exact H]|].
  destruct (Z.leb_spec (ci_max_attempts input) (t_attempt_count t)) as [Hle|Hlt];
    apply st_bind_Ok in H as (x & d1 & Hx & H).
  - apply dead_letter_Ok in Hx as (_ & Ho & Hr); [|exact Hf].
    eapply Hgo; [intros (_ & _ & _ & ?); lia| | |exact Ho| |exact H].
    + intros ??. by eapply rewrote_other.
    + by eapply rewrote_same_completed; [exact Hr| |].
    + intros E N ?. evolve_rw; [exact Hr|]. apply edge_dead_letter.
      by eapply candidate_not_terminal, Hnt, list_elem_of_here.
  - apply st_ret_Ok in H as [-> ->]. simpl. exists [], t, l, d.
    split_and!; try done; [|apply moved_refl].
    by intros t' ?%elem_of_nil.
Qed.

(** The lists [claim_with_concurrency] works on. *)
Definition scan (aging : TaskAging) (now : Z) (d : Db) : list TaskRecord :=
  sort_by (claim_le aging now) (filter_by scanned d.(db_tasks)).
Definition occupied_slots (d : Db) : Z :=
  Z.of_nat (length (filter_by occupies (filter_by scanned d.(db_tasks)))).

Lemma snapshot_scan aging now d :
  keys_ok d → snapshot (filter_by (candidate now) (scan aging now d)) d.
Proof.
  intros Hk. apply snapshot_filter. eapply snapshot_perm; [symmetry; apply sort_by_perm|].
  by apply snapshot_filter, snapshot_all.
Qed.

Lemma claim_Ok aging input concurrency d r d' :
  keys_ok d → claim_with_concurrency aging input concurrency d = Ok (r, d') →
  input.(ci_max_attempts) ≠ 0 ∧ concurrency ≠ 0 ∧ 0 ≤ input.(ci_ttl_ms) ∧
  loop_result input concurrency (occupied_slots d) (scan aging input.(ci_now) d)
    (filter_by (candidate input.(ci_now)) (scan aging input.(ci_now) d)) d r d'.
Proof.
  intros Hk H. unfold claim_with_concurrency in H. inv_st.
  match goal with H : select _ _ = _ |- _ => apply st_gets_Ok in H as [-> ->] end.
  match goal with H : checked_expiry _ _ = _ |- _ => apply checked_expiry_Ok in H as (? & _ & _) end.
  reflect_bools. split_and!; try done.
  apply claim_loop_Ok; [by apply snapshot_scan| |eassumption].
  by intros t [Hc _]%elem_of_filter_by.
Qed.

(** ** The admission rule

    [admits d input concurrency t]: what must hold of [t] in [d] for the
    worker to be given it. *)
Record admits (d : Db) (input : ClaimInput) (concurrency : Z) (t : TaskRecord) : Prop := {
  ad_row : t ∈ d.(db_tasks);
  ad_due : t.(t_available_at) ≤ input.(ci_now) ∧ t.(t_dead_lettered_at) = None;
  ad_status : t.(t_status) = Queued ∨ t.(t_status) = Running ∧ t.(t_retry_pending) = true;
  ad_kind : input.(ci_kinds) = [] ∨ t.(t_kind) ∈ input.(ci_kinds);
  ad_slot : t.(t_status) = Queued → t.(t_retry_pending) = false → occupied_slots d < concurrency;
  ad_scope : ¬ (t.(t_scope_id) ∈ input.(ci_busy_scopes));
  ad_lane : ∀ t', t' ∈ d.(db_tasks) → t_task_id t' ≠ t_task_id t → same_lane t t' = true →
    holds_lane t' = false;
  ad_depends : ∀ id, id ∈ t.(t_depends_on) → dep_completed d id;
  ad_profile : dispatch_fenced t = false;
  ad_attempts : t.(t_attempt_count) < input.(ci_max_attempts)
}.

Lemma candidate_iff now t : candidate now t = true ↔
  (t.(t_status) = Queued ∨ t.(t_status) = Running ∧ t.(t_retry_pending) = true)
  ∧ t.(t_available_at) ≤ now ∧ t.(t_dead_lettered_at) = None.
Proof.
  unfold candidate. rewrite !andb_true_iff, orb_true_iff, andb_true_iff, queued_status,
    running_status, Z.leb_le, negb_true_iff. destruct (t_dead_lettered_at t); simpl; intuition congruence.
Qed.

Lemma lane_busy_false aging now d t : lane_busy (scan aging now d) t = false ↔
  ∀ t', t' ∈ d.(db_tasks) → t_task_id t' ≠ t_task_id t → same_lane t t' = true →
    holds_lane t' = false.
Proof.
  unfold lane_busy, scan. rewrite existsb_false. setoid_rewrite elem_of_sort_by.
  setoid_rewrite elem_of_filter_by. split.
  - intros H t' Ht' Hne Hs. destruct (holds_lane t') eqn:Hh; [|done].
    specialize (H t'). rewrite Hs, Hh in H. apply String.eqb_neq in Hne. rewrite Hne in H.
    simpl in H. apply H. split; [|done]. unfold holds_lane, scanned in *. by destruct (t_status t').
  - intros H t' [_ Ht']. destruct (String.eqb_spec (t_task_id t') (t_task_id t)); [done|].
    destruct (same_lane t t') eqn:Hs; [|done]. by rewrite (H t').
Qed.

Lemma admissible_iff input concurrency d aging t :
  admissible input concurrency (occupied_slots d) (scan aging input.(ci_now) d) t = true ↔
  (input.(ci_kinds) = [] ∨ t.(t_kind) ∈ input.(ci_kinds))
  ∧ (t.(t_status) = Queued → t.(t_retry_pending) = false → occupied_slots d < concurrency)
  ∧ ¬ (t.(t_scope_id) ∈ input.(ci_busy_scopes))
  ∧ ∀ t', t' ∈ d.(db_tasks) → t_task_id t' ≠ t_task_id t → same_lane t t' = true →
      holds_lane t' = false.
Proof.
  unfold admissible, mem_str. rewrite !andb_true_iff, orb_true_iff, !bool_decide_eq_true.
  rewrite !negb_true_iff, orb_false_iff, bool_decide_eq_false, lane_busy_false.
  rewrite <-(not_true_iff_false ((queued t && _) && _)), !andb_true_iff, queued_status, negb_true_iff,
    Z.leb_le. split.
  - intros [ [? Hs] [? ?] ]. split_and!; try done. intros ??. apply Z.nle_gt. tauto.
  - intros (? & Hs & ? & ?). split_and!; try done. intros [ [Hq Hr] ?]. specialize (Hs Hq Hr). lia.
Qed.

Lemma admits_iff aging input concurrency d t :
  admits d input concurrency t ↔
  t ∈ filter_by (candidate input.(ci_now)) (scan aging input.(ci_now) d)
  ∧ eligible_in input concurrency (occupied_slots d) (scan aging input.(ci_now) d) d t.
Proof.
  unfold eligible_in. rewrite elem_of_filter_by, admissible_iff, candidate_iff. unfold scan.
  rewrite elem_of_sort_by, elem_of_filter_by. split.
  - intros []. split_and!; try done; try tauto. unfold scanned. by destruct ad_status0 as [-> |[-> _] ].
  - intros [ [ [? [? ?] ] [_ ?] ] ([? [? [? ?] ] ] & ? & ? & ?)]. by split.
Qed.

(** A task handed out met the conditions. *)
Lemma claim_admits aging input concurrency d c d' :
  keys_ok d → claim_with_concurrency aging input concurrency d = Ok (Some c, d') →
  ∃ t, admits d input concurrency t.
Proof.
  intros Hk (_ & _ & _ & l1 & t & l2 & d1 & El & _ & He & _)%claim_Ok; [|done]. exists t.
  apply (admits_iff aging). split; [|done]. rewrite El. apply elem_of_app. right. left.
Qed.

(** C1: A claim hands out the first task in priority order that may run.  A
    claim that returns a task found it due, unfinished, not dead-lettered,
    of a wanted kind, with a free slot, every dependency completed, its
    profile not refused and attempts left, with no other task holding its
    scope's or its agent's lane; and every other task of which this is true
    comes later in (effective priority, enqueue time) order. *)
Theorem claim_admits_first aging input concurrency d c d' :
  keys_ok d → claim_with_concurrency aging input concurrency d = Ok (Some c, d') →
  ∃ t, admits d input concurrency t ∧ c.(c_task) = started t input.(ci_now)
    ∧ ∀ t', admits d input concurrency t' → claim_le aging input.(ci_now) t t' = true.
Proof.
  intros Hk (_ & _ & _ & l1 & t & l2 & d1 & El & Hl1 & He & Hf & _ & _ & Hs)%claim_Ok; [|done].
  apply start_Ok in Hs as (_ & Ec & _); [|exact Hf]. exists t. split_and!; [|done|].
  - apply (admits_iff aging). split; [|done]. rewrite El. apply elem_of_app. right. left.
  - intros t' [Ht' He']%(admits_iff aging). rewrite El in Ht'.
    apply elem_of_app in Ht' as [Ht'|Ht']; [by apply Hl1 in Ht'|].
    assert (StronglySorted (λ a b, claim_le aging (ci_now input) a b = true) (l1 ++ t :: l2)) as Hsort.
    { rewrite <-El. apply StronglySorted_filter_by, sort_by_sorted.
      - apply claim_le_total.
      - apply claim_le_trans. }
    apply elem_of_cons in Ht' as [->|Ht'];
      [destruct (claim_le_total aging (ci_now input) t t) as [E|E]; exact E|].
    eapply (StronglySorted_app_le (λ a b, claim_le aging (ci_now input) a b = true) (l1 ++ [t]) l2); [by rewrite <-app_assoc| |done].
    apply elem_of_app. right. left.
Qed.

(** A claim that hands out nothing passed over nothing: no task of the
    store met the admission conditions, so work that may run is never left
    waiting by an idle worker. *)
Theorem claim_idle aging input concurrency d d' t :
  keys_ok d → claim_with_concurrency aging input concurrency d = Ok (None, d') →
  ¬ admits d input concurrency t.
Proof.
  intros Hk (_ & _ & _ & _ & Hn)%claim_Ok; [|done]. intros [Hin He]%(admits_iff aging).
  by apply (Hn t).
Qed.

(** A claim grants the authority it reports.  The returned lease names
    the task, the worker and the next fencing token; presenting it passes the
    fence at every time before its expiry, and a running attempt with the
    task's new attempt number is recorded under it. *)
Theorem claim_grants_authority aging input concurrency d c d' now :
  keys_ok d → claim_with_concurrency aging input concurrency d = Ok (Some c, d') →
  0 ≤ d.(db_fence) → d.(db_fence) + 1 ≤ max_safe →
  - max_safe ≤ input.(ci_now) + input.(ci_ttl_ms) ≤ max_safe →
  - max_safe ≤ input.(ci_now) ≤ max_safe →
  now < input.(ci_now) + input.(ci_ttl_ms) →
  fence (lease_fence c.(c_lease)) now d' = Ok (c.(c_lease), d')
  ∧ c.(c_lease).(l_task_id) = c.(c_task).(t_task_id)
  ∧ c.(c_lease).(l_owner_id) = input.(ci_owner_id)
  ∧ c.(c_lease).(l_fencing_token) = d.(db_fence) + 1
  ∧ mkAttempt c.(c_lease).(l_attempt_id) c.(c_task).(t_task_id) c.(c_task).(t_attempt_count)
      "running" input.(ci_owner_id) input.(ci_now) None None ∈ d'.(db_attempts).
Proof.
  intros Hk Hc Hpos Hsafe Hexp Hnow Hlt. apply claim_Ok in Hc as (_ & _ & _ & Hr); [|done].
  destruct Hr as (l1 & t & l2 & d1 & _ & _ & _ & Hf & [_ Ea El Efe] & _ & Hs).
  apply start_Ok in Hs as (_ & Ec & Et & Eo & Etok & Eexp & _ & (j & Hj & Hfj) & a & Ha & Eatt);
    [|exact Hf].
  assert (j = c_lease c) as ->.
  { unfold json_lease in Hj. inv_res.
    repeat match goal with H : json_u64 _ = _ |- _ => apply json_int_Ok in H as [-> _]
      | H : json_i64 _ = _ |- _ => apply json_int_Ok in H as [-> _] end.
    rewrite !js_int_safe by (rewrite ?Etok, ?Eexp, ?Efe; unfold max_safe in *; lia).
    by destruct (c_lease c). }
  rewrite Ec, <-Efe. split_and!; try done.
  - apply fence_Ok. simpl. rewrite Et. split_and!; try done. unfold lease_valid. simpl.
    rewrite String.eqb_refl, Z.eqb_refl, Eexp. simpl. by apply Z.ltb_lt.
  - rewrite Eatt. apply elem_of_app. right. apply list_elem_of_singleton.
    unfold json_attempt in Ha. simpl in Ha. inv_res.
    match goal with H : json_i64 _ = _ |- _ => apply json_int_Ok in H as [-> _] end.
    by rewrite js_int_safe by (unfold max_safe in *; lia).
Qed.
End claims.

(** ** Witnesses *)

Ltac keys_by_computation := unfold keys_ok; vm_compute; repeat constructor; intros Hin;
  repeat (apply elem_of_cons in Hin as [Hin|Hin]; [discriminate Hin|]); by apply elem_of_nil in Hin.

Lemma claim_admits_first_witness :
  let host := example_host in
  ∃ c d' t, claim_with_concurrency default_aging (ex_claim 1) u64_max ex_queued = Ok (Some c, d')
    ∧ admits ex_queued (ex_claim 1) u64_max t ∧ t.(t_task_id) = "t1".
Proof.
  intros host.
  destruct (claim_with_concurrency default_aging (ex_claim 1) u64_max ex_queued)
    as [ [ [c|] d']|e] eqn:E; [|vm_compute in E; discriminate E..].
  destruct (claim_admits_first default_aging (ex_claim 1) u64_max ex_queued c d') as (t & Ha & _);
    [keys_by_computation|exact E|].
  exists c, d', t. split; [done|]. split; [done|]. destruct Ha as [Hin _ _ _ _ _ _ _ _ _].
  vm_compute in Hin. apply list_elem_of_singleton in Hin. by rewrite Hin.
Defined.

Lemma claim_idle_witness :
  let host := example_host in
  ¬ admits ex_claimed (ex_claim 2) u64_max (new_task (ex_submit "t1" "chat" 0) None).
Proof.
  intros host.
  destruct (claim_with_concurrency default_aging (ex_claim 2) u64_max ex_claimed)
    as [ [ [c|] d']|e] eqn:E; [vm_compute in E; discriminate E| |vm_compute in E; discriminate E].
  apply (claim_idle default_aging (ex_claim 2) u64_max ex_claimed d'); [keys_by_computation|exact E].
Defined.

Lemma claim_grants_authority_witness :
  let host := example_host in
  ∃ c d', claim_with_concurrency default_aging (ex_claim 1) u64_max ex_queued = Ok (Some c, d')
    ∧ fence (lease_fence c.(c_lease)) 1000 d' = Ok (c.(c_lease), d').
Proof.
  intros host.
  destruct (claim_with_concurrency default_aging (ex_claim 1) u64_max ex_queued)
    as [ [ [c|] d']|e] eqn:E; [|vm_compute in E; discriminate E..].
  exists c, d'. split; [done|].
  apply (claim_grants_authority default_aging (ex_claim 1) u64_max ex_queued c d' 1000);
    [keys_by_computation|exact E|vm_compute; repeat split; discriminate..|reflexivity].
Defined.
