(* ===== verification/TaskSafety.v ===== *)
(** * What no task operation can undo

    Instances of [EdgeLaws]: a finished task is final, cancellation requests
    and dead-letter marks are never withdrawn, attempt counts only grow and
    stay in range, and the worker's operations admit one task per lane. *)

From S2P Require Import Walk.
From S2P Require Export Claims.
Local Open Scope Z_scope.

(** A task that has finished: a terminal status with no retry parked. *)
Definition finished (t : TaskRecord) : Prop :=
  is_terminal t.(t_status) = true ∧ t.(t_retry_pending) = false.

Record evolves (t t' : TaskRecord) : Prop := {
  ev_id : t'.(t_task_id) = t.(t_task_id);
  ev_kind : t'.(t_kind) = t.(t_kind);
  ev_scope : t'.(t_scope_id) = t.(t_scope_id);
  ev_depends : t'.(t_depends_on) = t.(t_depends_on);
  ev_parent : t'.(t_parent_task_id) = t.(t_parent_task_id);
  ev_agent : t'.(t_agent_id) = t.(t_agent_id);
  ev_admission : t'.(t_admission_key) = t.(t_admission_key);
  ev_cancel : t.(t_cancel_requested) = true → t'.(t_cancel_requested) = true;
  ev_dead : is_some t.(t_dead_lettered_at) = true → is_some t'.(t_dead_lettered_at) = true;
  ev_finished : finished t → t'.(t_status) = t.(t_status) ∧ t'.(t_retry_pending) = false
}.

(** The attempt count stays a [u32] and never drops. *)
Definition count_ok (t : TaskRecord) : Prop := 0 ≤ t.(t_attempt_count) ≤ u32_max.
Definition counted (t t' : TaskRecord) : Prop :=
  count_ok t → count_ok t' ∧ t.(t_attempt_count) ≤ t'.(t_attempt_count).

(** A row that takes no lane it did not hold. *)
Record quiet (t t' : TaskRecord) : Prop := {
  q_scope : t'.(t_scope_id) = t.(t_scope_id);
  q_agent : t'.(t_agent_id) = t.(t_agent_id);
  q_holds : holds_lane t' = true → holds_lane t = true
}.
Definition idle (t : TaskRecord) : Prop := holds_lane t = false.

(** What a stored row keeps exactly. *)
Lemma json_task_kept {host : Host} b t j : json_task b t = Ok j →
  j.(t_task_id) = t.(t_task_id) ∧ j.(t_kind) = t.(t_kind) ∧ j.(t_scope_id) = t.(t_scope_id)
  ∧ j.(t_depends_on) = t.(t_depends_on) ∧ j.(t_parent_task_id) = t.(t_parent_task_id)
  ∧ j.(t_agent_id) = t.(t_agent_id) ∧ j.(t_admission_key) = t.(t_admission_key)
  ∧ j.(t_cancel_requested) = t.(t_cancel_requested)
  ∧ is_some j.(t_dead_lettered_at) = is_some t.(t_dead_lettered_at)
  ∧ j.(t_status) = t.(t_status) ∧ j.(t_retry_pending) = t.(t_retry_pending)
  ∧ j.(t_attempt_count) = t.(t_attempt_count).
Proof.
  unfold json_task. intros H. inv_res. simpl. split_and!; try done.
  destruct (t_dead_lettered_at t); simpl in *; by inv_res.
Qed.

(** The law for an edge given by the fields the code assigns. *)
Ltac edge_law :=
  intros; split; simpl; try done; try (by intros ->); auto;
  unfold finished in *; try (intros [Hterm Hretry]); status_facts;
  repeat match goal with
  | H : t_status _ = _ |- _ => rewrite H in *
  end; simpl in *; try done; try congruence.

#[export] Instance evolves_preorder : PreOrder evolves.
Proof.
  split.
  - intros t. split; try done. by intros [_ ?].
  - intros t1 t2 t3 [] []. split; try congruence; auto.
    intros F. unfold finished in *. destruct ev_finished0 as [E1 E2]; [done|].
    rewrite <-E1. apply ev_finished1. rewrite E1. split; [apply F|done].
Qed.

#[export] Instance evolves_laws : EdgeLaws evolves (λ _, True).
Proof.
  split; try done; try solve [edge_law].
  - apply _.
  - intros host b t t' j (?&?&?&?&?&?&?&?&?&?&?&?)%json_task_kept []. split; try congruence.
    + intros ?. rewrite H6. auto.
    + intros ?. rewrite H7. auto.
    + intros [? ?]%ev_finished0. split; congruence.
Qed.

#[export] Instance evolves_admission : AdmissionEdge evolves.
Proof. intros t now input Hc%candidate_not_terminal _ _. edge_law. Qed.

#[export] Instance evolves_status : StatusEdges evolves.
Proof. split; [edge_law|]. intros t to patch Ha%allowed_terminal. edge_law. Qed.

#[export] Instance counted_preorder : PreOrder counted.
Proof.
  split; unfold counted; [intros t Ht; split; [done|lia]|]. intros t1 t2 t3 H1 H2 H.
  destruct (H1 H) as [Hc2 ?]. destruct (H2 Hc2) as [Hc3 ?]. split; [done|lia].
Qed.

#[export] Instance counted_laws : EdgeLaws counted count_ok.
Proof.
  split; try (intros; unfold counted, count_ok in *; simpl in *; try lia; tauto).
  - apply _.
  - intros host b t t' j (?&?&?&?&?&?&?&?&?&?&?&E)%json_task_kept. unfold counted, count_ok. by rewrite E.
  - intros host b t j (?&?&?&?&?&?&?&?&?&?&?&E)%json_task_kept. unfold count_ok. by rewrite E.
  - intros input binding. unfold count_ok. simpl. unfold u32_max. lia.
Qed.

#[export] Instance counted_admission : AdmissionEdge counted.
Proof.
  intros t now input _ Hlt Hmax. unfold counted, count_ok. simpl. unfold wrapping_succ_u32.
  intros Hc. unfold u32_max in *. rewrite Z.mod_small; lia.
Qed.

#[export] Instance counted_status : StatusEdges counted.
Proof. split; intros; unfold counted, count_ok; simpl; lia. Qed.

#[export] Instance quiet_preorder : PreOrder quiet.
Proof. split; [by intros t|]. intros t1 t2 t3 [] []. split; try congruence; auto. Qed.

#[export] Instance quiet_laws : EdgeLaws quiet idle.
Proof.
  split; try done; try solve [edge_law].
  - apply _.
  - intros t t' Ht []. unfold idle in *. destruct (holds_lane t'); [|done]. rewrite q_holds0 in Ht; done.
  - intros host b t t' j (?&?&Es&?&?&Ea&?&?&?&Est&Er&?)%json_task_kept [].
    split; try congruence. unfold holds_lane in *. rewrite Est, Er. auto.
  - intros host b t j (?&?&Es&?&?&Ea&?&?&?&Est&Er&?)%json_task_kept.
    unfold idle, holds_lane. by rewrite Est, Er.
  - intros t f c id now Ht. split; [done..|]. by destruct f, c.
  - intros t input _ Ht. split; [done..|]. unfold holds_lane. simpl.
    by destruct (t_cancel_requested t), (st_status input).
  - intros t input Ht%running_status. split; [done..|]. intros _. unfold holds_lane. by rewrite Ht.
  - intros t n at_ Ht%settleable_status. split; [done..|]. intros _. unfold holds_lane.
    by destruct Ht as [-> | ->].
  - intros t now Ht. split; [done..|]. intros _. unfold holds_lane. by rewrite Ht.
  - intros t Ht%running_status. split; [done..|]. intros _. unfold holds_lane. by rewrite Ht.
  - intros t Ht%running_status. split; [done..|]. intros _. unfold holds_lane. by rewrite Ht.
  - intros t now Ht. split; [done..|]. intros _. unfold holds_lane. by rewrite Ht.
  - intros t reason Ht%running_status. split; [done..|]. intros _. unfold holds_lane. by rewrite Ht.
  - intros t to error now Ht _. split; [done..|]. intros _. unfold holds_lane. by rewrite Ht.
Qed.

(** ** Reachable tables *)

Section reachable.
Context {host : Host}.

Lemma delete_task_tasks t d u d' :
  delete_task t d = Ok (u, d') →
  d'.(db_tasks) = base.filter (λ t', t_task_id t' ≠ t.(t_task_id)) d.(db_tasks).
Proof. unfold delete_task. intros H. by inv_st. Qed.

(** An invariant of single rows that holds of new rows and along the edges
    holds of every row of a reachable table. *)
Definition all_rows (P : TaskRecord → Prop) (d : Db) : Prop :=
  keys_ok d ∧ ∀ t, t ∈ d.(db_tasks) → P t.

Lemma all_rows_evolve E N P d d' :
  (∀ t t', P t → E t t' → P t') → (∀ t, N t → P t) →
  evolve E N d d' → all_rows P d → all_rows P d'.
Proof.
  intros HE HN He [Hk HP]. destruct (He Hk) as (Hk' & Hold & Hnew). split; [done|].
  intros t' Ht'. pose proof (find_row_elem _ t' Hk' Ht') as Hf'. simpl in Hf'.
  destruct (find_row (t_task_id t') (db_tasks d)) as [t|] eqn:Hf.
  - destruct (Hold _ _ Hf) as (t'' & Hf'' & Het). apply find_row_Some in Hf as [? _].
    apply (HE t); [auto|]. congruence.
  - eauto.
Qed.

(** The operations that drop tasks do nothing else to the table. *)
Lemma exec_drops R `{!PreOrder R, !Contains (same db_tasks) R} op :
  keeps_tasks op = false → (∀ t, within R (delete_task t)) → within R (exec op).
Proof.
  intros Hop Ht. destruct op; try discriminate Hop; simpl; unfold ignore.
  - apply within_bind; [apply _|by apply within_delete_by_scope|]. intros. apply within_ret, _.
  - apply within_delete_chat; [apply _|exact Ht|..]; by_same db_tasks.
Qed.

Lemma all_rows_delete_task P t : within (keeps (all_rows P)) (delete_task t).
Proof.
  intros d u d' Hdel [Hk HP].
  apply delete_task_tasks in Hdel. unfold all_rows, keys_ok. rewrite Hdel. split.
  - clear HP Hdel. unfold keys_ok in Hk. revert Hk.
    induction (db_tasks d) as [|x l IH]; [done|]. simpl. intros [Ht ?]%NoDup_cons.
    rewrite filter_cons. case_decide; [|auto]. simpl. apply NoDup_cons. split; [|auto].
    intros (t' & Eq & [_ ?]%list_elem_of_filter)%list_elem_of_fmap. apply Ht. rewrite Eq.
    by apply list_elem_of_fmap_2.
  - intros x [_ ?]%list_elem_of_filter. auto.
Qed.

#[local] Instance same_all_rows P : Contains (same db_tasks) (keeps (all_rows P)).
Proof. intros d d' E. unfold keeps, all_rows, keys_ok. by rewrite E. Qed.

Lemma all_rows_run E N P ops file `{!EdgeLaws E N, !StatusEdges E, !AdmissionEdge E} :
  (∀ t t', P t → E t t' → P t') → (∀ t, N t → P t) →
  forallb typed_op ops = true → all_rows P (run ops (empty_db file)).
Proof.
  intros HE HN Hty. assert (all_rows P (empty_db file)) as H0.
  { split; [apply NoDup_nil_2|]. by intros t ?%elem_of_nil. }
  revert H0. apply (run_within (keeps (all_rows P)) ops). intros op Hop.
  rewrite forallb_forall in Hty. apply list_elem_of_In, Hty in Hop.
  destruct (keeps_tasks op) eqn:Hk.
  - intros d u d' Hx Hrows. eapply (all_rows_evolve E N); [exact HE|exact HN| |exact Hrows].
    by eapply (evolve_exec E N op).
  - apply exec_drops; [apply _..|exact Hk|apply all_rows_delete_task].
Qed.

Lemma keys_run ops file : forallb typed_op ops = true → keys_ok (run ops (empty_db file)).
Proof.
  intros Hty. by apply (all_rows_run evolves (λ _, True) (λ _, True) ops file).
Qed.

Lemma evolve_run E N `{!EdgeLaws E N, !StatusEdges E, !AdmissionEdge E} ops d :
  forallb typed_op ops = true → forallb keeps_tasks ops = true → evolve E N d (run ops d).
Proof.
  intros Hty Hk. apply run_within; [apply _|]. intros op Hop.
  rewrite forallb_forall in Hty, Hk. apply list_elem_of_In in Hop.
  apply evolve_exec; auto.
Qed.

(** ** Lanes *)

(** At most one task of a lane holds it: one per scope, and one per agent. *)
Definition lanes_ok (d : Db) : Prop := ∀ t1 t2,
  t1 ∈ d.(db_tasks) → t2 ∈ d.(db_tasks) → t1.(t_task_id) ≠ t2.(t_task_id) →
  same_lane t1 t2 = true → holds_lane t1 = true → holds_lane t2 = true → False.

Lemma same_lane_sym a b : same_lane a b = same_lane b a.
Proof.
  unfold same_lane, ostr_eqb. rewrite String.eqb_sym. f_equal.
  destruct (decide (t_agent_id a = t_agent_id b)) as [E|E].
  - rewrite E. by rewrite !bool_decide_true.
  - rewrite !bool_decide_false, !andb_false_r; congruence.
Qed.

(** A holder of the later state held its lane in the earlier one. *)
Lemma quiet_holder d d' t' :
  keys_ok d → evolve quiet idle d d' → t' ∈ d'.(db_tasks) → holds_lane t' = true →
  ∃ t, t ∈ d.(db_tasks) ∧ t.(t_task_id) = t'.(t_task_id) ∧ quiet t t'.
Proof.
  intros Hk He Ht' Hh. destruct (He Hk) as (Hk' & Hold & Hnew).
  pose proof (find_row_elem _ t' Hk' Ht') as Hf'. simpl in Hf'.
  destruct (find_row (t_task_id t') (db_tasks d)) as [t|] eqn:Hf.
  - destruct (Hold _ _ Hf) as (t'' & Hf'' & Hq). apply find_row_Some in Hf as [? Hid].
    exists t. split_and!; [done..|]. congruence.
  - specialize (Hnew _ _ Hf' Hf). unfold idle in Hnew. congruence.
Qed.

Lemma quiet_same_lane a a' b b' : quiet a a' → quiet b b' → same_lane a' b' = same_lane a b.
Proof. intros [Sa Aa _] [Sb Ab _]. unfold same_lane. by rewrite Sa, Sb, Aa, Ab. Qed.

Lemma lanes_quiet d d' : keys_ok d → evolve quiet idle d d' → lanes_ok d → lanes_ok d'.
Proof.
  intros Hk He Hl t1 t2 H1 H2 Hne Hs Hh1 Hh2.
  destruct (quiet_holder _ _ _ Hk He H1 Hh1) as (u1 & ? & E1 & Q1).
  destruct (quiet_holder _ _ _ Hk He H2 Hh2) as (u2 & ? & E2 & Q2).
  rewrite (quiet_same_lane _ _ _ _ Q1 Q2) in Hs. apply (Hl u1 u2); try done; [congruence| |].
  - by apply Q1.
  - by apply Q2.
Qed.

(** Admission keeps the lanes: the started task is the one new holder and
    its lane was free. *)
Lemma lanes_claim aging input concurrency d r d' :
  keys_ok d → lanes_ok d → claim_with_concurrency aging input concurrency d = Ok (r, d') → lanes_ok d'.
Proof.
  intros Hk Hl (_ & _ & _ & Hr)%claim_Ok; [|done]. destruct r as [c|]; simpl in Hr.
  2: { destruct Hr as [Hm _]. eapply lanes_quiet; [done| |done]. by apply Hm, quiet_laws. }
  destruct Hr as (l1 & t & l2 & d1 & El & _ & He & Hf & _ & Hm & Hs).
  assert (evolve quiet idle d d1) as Hq by (apply Hm, quiet_laws).
  assert (keys_ok d1) as Hk1 by apply (Hq Hk). pose proof (lanes_quiet _ _ Hk Hq Hl) as Hl1.
  assert (admits d input concurrency t) as Had.
  { apply (admits_iff aging). split; [|done]. rewrite El. apply elem_of_app. right. left. }
  apply start_Ok in Hs as (Hr & _); [|done].
  destruct Hr as (_ & _ & j & (Hid & _ & Hsc & _ & _ & Hag & _)%json_task_kept & Et). simpl in *.
  assert (∀ t2, t2 ∈ d1.(db_tasks) → t_task_id t2 ≠ t_task_id j → same_lane j t2 = true →
    holds_lane t2 = true → False) as Hfree.
  { intros t2 H2 Hne Hsame Hh. destruct (quiet_holder _ _ _ Hk Hq H2 Hh) as (u & Hu & Eu & Qu).
    assert (holds_lane u = false); [|by apply Qu in Hh; congruence].
    apply Had; [done|congruence|]. unfold same_lane in *. destruct Qu as [Su Au _].
    rewrite <-Su, <-Au, <-Hsc, <-Hag. done. }
  intros t1 t2 H1 H2 Hne Hsame Hh1 Hh2. rewrite Et in H1, H2.
  apply (elem_of_replace_row (A := TaskRecord)) in H1 as [ [-> _]|[H1 N1] ];
    apply (elem_of_replace_row (A := TaskRecord)) in H2 as [ [-> _]|[H2 N2] ]; simpl in *.
  - done.
  - by apply (Hfree t2).
  - apply (Hfree t1); try done. by rewrite same_lane_sym.
  - by apply (Hl1 t1 t2).
Qed.

Lemma lanes_delete_task t : within (keeps lanes_ok) (delete_task t).
Proof.
  intros d u d' Hdel Hl t1 t2. apply delete_task_tasks in Hdel. rewrite Hdel, !list_elem_of_filter.
  intros [_ ?] [_ ?]. by apply Hl.
Qed.

#[local] Instance same_lanes_ok : Contains (same db_tasks) (keeps lanes_ok).
Proof. intros d d' E. unfold keeps, lanes_ok. by rewrite E. Qed.

Definition tables_ok (d : Db) : Prop := keys_ok d ∧ lanes_ok d.

Lemma tables_ok_exec op :
  typed_op op = true → status_op op = false → within (keeps tables_ok) (exec op).
Proof.
  intros Hty Hst. destruct (keeps_tasks op) eqn:Hkt.
  - intros d u d' Hx [Hk Hl]. split.
    + eapply (evolve_exec evolves (λ _, True) op); try done; by intros; apply _.
    + destruct (admission_op op) eqn:Ha.
      * destruct op; try discriminate Ha. simpl in Hx. unfold ignore in Hx. inv_st.
        by eapply lanes_claim.
      * eapply lanes_quiet; [done| |done].
        eapply (evolve_exec quiet idle op); try done; by rewrite ?Hst, ?Ha.
  - intros d u d' Hx [Hk Hl]. split.
    + pose proof (exec_drops (keeps (all_rows (λ _, True))) op Hkt (all_rows_delete_task _)) as K.
      apply (K d u d' Hx). by split.
    + exact (exec_drops (keeps lanes_ok) op Hkt lanes_delete_task d u d' Hx Hl).
Qed.

(** C2: One active attempt per lane.  In every state a fresh store reaches by
    operations other than the two that write a status for the caller
    ([resume_task], [transition_task]), no two tasks of one scope, and no two
    tasks of one agent, are running, parked for an approval or a child,
    uncertain, or awaiting a retry; the tasks of an agent are those admitted
    under it, whose waits, undecided outcomes and reconciliation are among the
    operations. *)
Theorem one_holder_per_lane file ops t1 t2 :
  let d := run ops (empty_db file) in
  forallb typed_op ops = true → forallb (λ op, negb (status_op op)) ops = true →
  t1 ∈ d.(db_tasks) → t2 ∈ d.(db_tasks) → same_lane t1 t2 = true →
  holds_lane t1 = true → holds_lane t2 = true → t1.(t_task_id) = t2.(t_task_id).
Proof.
  intros d Hty Hst H1 H2 Hs Hh1 Hh2.
  destruct (decide (t1.(t_task_id) = t2.(t_task_id))) as [|Hne]; [done|]. exfalso.
  assert (keeps tables_ok (empty_db file) d) as [_ Hl].
  { apply (run_within (keeps tables_ok) ops). intros op Hop. apply list_elem_of_In in Hop.
    rewrite forallb_forall in Hty, Hst. apply tables_ok_exec; [auto|]. by apply negb_true_iff, Hst. }
  { split; [apply NoDup_nil_2|]. by intros ?? ?%elem_of_nil. }
  by eapply (Hl t1 t2).
Qed.

(** C7: No operation but the deletion of its scope or of its chat drops a
    task, and none rewrites its identity or lineage, withdraws its
    cancellation request or its dead-letter mark, or moves it once it has
    finished with no retry parked: a completed, failed or cancelled task with
    no retry parked keeps its status for ever.  One whose retry is parked does
    not: it may be brought back, as the last section shows. *)
Theorem finished_task_is_final file before after id t :
  let d := run before (empty_db file) in
  forallb typed_op before = true → forallb typed_op after = true →
  forallb keeps_tasks after = true →
  find_row id d.(db_tasks) = Some t →
  ∃ t', find_row id (run after d).(db_tasks) = Some t' ∧ evolves t t'.
Proof.
  intros d Hb Ha Hk Ht. apply (evolve_run evolves (λ _, True) after d Ha Hk); [|done].
  by apply keys_run.
Qed.

(** Attempt counts never overflow and never drop: in every reachable
    state the count of every task is a [u32], and later states only raise
    it, so the unchecked increment of a claim does not wrap. *)
Theorem attempt_count_bounds file before after id t :
  let d := run before (empty_db file) in
  forallb typed_op before = true → forallb typed_op after = true →
  forallb keeps_tasks after = true →
  find_row id d.(db_tasks) = Some t →
  0 ≤ t.(t_attempt_count) ≤ u32_max ∧
  ∃ t', find_row id (run after d).(db_tasks) = Some t' ∧
    t.(t_attempt_count) ≤ t'.(t_attempt_count) ≤ u32_max.
Proof.
  intros d Hb Ha Hk Ht. assert (count_ok t) as Hc.
  { eapply (all_rows_run counted count_ok count_ok before file); try done.
    - intros t1 t2 H1 H12. by apply H12.
    - by apply find_row_Some in Ht as [? _]. }
  destruct (evolve_run counted count_ok after d Ha Hk) as (_ & Hold & _); [by apply keys_run|].
  destruct (Hold _ _ Ht) as (t' & Ht' & Hct). destruct (Hct Hc) as [Hc' ?].
  split; [done|]. exists t'. split; [done|]. split; [done|apply Hc'].
Qed.

(** ** A task that finished twice *)

Lemma rewrote_status d d' id t u : rewrote d d' id t u →
  ∃ t', find_row id d'.(db_tasks) = Some t' ∧ t'.(t_status) = u.(t_status) ∧ t'.(t_retry_pending) = u.(t_retry_pending).
Proof. intros (j & (_&_&_&_&_&_&_&_&_&Est&Er&_)%json_task_kept & Hj)%rewrote_this. by exists j. Qed.

Lemma interrupt_queued_hits before d n d' id t : keys_ok d →
  interrupt_queued before d = Ok (n, d') → find_row id d.(db_tasks) = Some t →
  t.(t_retry_pending) = true → t.(t_enqueued_at) < before →
  ∃ t', find_row id d'.(db_tasks) = Some t' ∧ t'.(t_status) = Interrupted ∧ t'.(t_retry_pending) = true.
Proof.
  intros Hk H Ht Hr Hb. unfold interrupt_queued in H. inv_st.
  match goal with H : select _ _ = _ |- _ => apply st_gets_Ok in H as [-> ->] end.
  match goal with H : for_each _ _ _ = _ |- _ => apply for_each_map in H as [us H]; rename H into Hl end.
  apply find_row_Some in Ht as [Hin Hid]. simpl in Hid. subst id.
  apply (snapshot_hits (λ t t', t'.(t_status) = Interrupted ∧ t'.(t_retry_pending) = t.(t_retry_pending))) in Hl as [_ Hi].
  - destruct (Hi t) as (t' & ? & ? & E); [|exists t'; by rewrite E].
    rewrite !elem_of_filter_by. rewrite Hr, orb_true_r. split; [by apply Z.ltb_lt|done].
  - intros u d1 b d2 _ Hf Hone.
    assert (rewrote d1 d2 (t_task_id u) u (u <| t_status := Interrupted |>)) as Hw.
    { unfold interrupt_one in Hone. inv_op; use_frames; solve_rewrote. }
    split; [intros id Hne; by eapply rewrote_other|]. by apply rewrote_status in Hw.
  - by apply snapshot_filter, snapshot_filter, snapshot_all.
Qed.
Lemma resume_task_hits id now d r d' : resume_task id now d = Ok (r, d') →
  ∃ t t', find_row id d.(db_tasks) = Some t ∧ t.(t_status) = Interrupted
    ∧ find_row id d'.(db_tasks) = Some t' ∧ t'.(t_status) = Queued ∧ t'.(t_retry_pending) = t.(t_retry_pending).
Proof.
  intros H. assert (∃ t, t.(t_status) = Interrupted ∧ rewrote d d' id t (t <| t_status := Queued |> <| t_available_at := now |>))
    as (t & Hst & Hw).
  { unfold resume_task in H. inv_op; use_frames; fold_id; eexists; (split; [|solve_rewrote]); by reflect_bools. }
  exists t. pose proof (proj1 Hw) as Hf. apply rewrote_status in Hw as (t' & ?). by exists t'.
Qed.
Lemma transition_task_hits id from to patch token now d r d' : transition_task id from to patch token now d = Ok (r, d') →
  ∃ t t', find_row id d.(db_tasks) = Some t
    ∧ find_row id d'.(db_tasks) = Some t' ∧ t'.(t_status) = to ∧ t'.(t_retry_pending) = t.(t_retry_pending).
Proof.
  intros H. assert (∃ t, rewrote d d' id t (patched to patch t)) as (t & Hw).
  { unfold transition_task in H. inv_op; use_frames; fold_id; eexists; solve_rewrote. }
  exists t. pose proof (proj1 Hw) as Hf. apply rewrote_status in Hw as (t' & ?). by exists t'.
Qed.

(** C17: A finished task can be brought back.  Completing a task whose retry
    is parked leaves the retry parked; the next boot policy that finds the
    task enqueued before its bound then turns the completed task to
    interrupted, and a resumption queues it, its retry still parked. *)
Theorem completed_task_resurrected file ops id from patch token now r d1 before n d2 later r' d3 t1 :
  forallb typed_op ops = true →
  let d := run ops (empty_db file) in
  (∃ t, find_row id d.(db_tasks) = Some t ∧ t.(t_retry_pending) = true) →
  transition_task id from Completed patch token now d = Ok (r, d1) →
  find_row id d1.(db_tasks) = Some t1 → t1.(t_enqueued_at) < before →
  interrupt_queued before d1 = Ok (n, d2) → resume_task id later d2 = Ok (r', d3) →
  (t1.(t_status) = Completed ∧ t1.(t_retry_pending) = true)
  ∧ (∃ t2, find_row id d2.(db_tasks) = Some t2 ∧ t2.(t_status) = Interrupted ∧ t2.(t_retry_pending) = true)
  ∧ (∃ t3, find_row id d3.(db_tasks) = Some t3 ∧ t3.(t_status) = Queued ∧ t3.(t_retry_pending) = true).
Proof.
  intros Hty d (t & Ht & Hr) Htr Ht1 Hb Hi Hre.
  assert (keys_ok d1) as Hk1 by apply (evolve_transition evolves (λ _, True) _ _ _ _ _ _ _ _ _ Htr (keys_run ops file Hty)).
  apply transition_task_hits in Htr as (t0 & t0' & Hf & Hf' & Hs & Hr0). assert (t0 = t) as -> by congruence.
  assert (t0' = t1) as -> by congruence. rewrite Hr in Hr0. split; [done|].
  destruct (interrupt_queued_hits _ _ _ _ _ _ Hk1 Hi Ht1 Hr0 Hb) as (t2 & Hf2 & Hs2 & Hr2). split; [by exists t2|].
  apply resume_task_hits in Hre as (t2' & t3 & Hf2' & _ & Hf3 & Hs3 & Hr3). exists t3. split_and!; [done..|].
  rewrite Hr3. congruence.
Qed.
End reachable.

(** ** Witnesses *)

(** Two tasks admitted for one agent; the first claimed, its outcome left
    undecided, and the second passed over by the next claim. *)
Definition ex_agent : AdmissionFacts := mkFacts (Some (mkAgentRow ActiveAgent 1)) (Ok tt).
Definition ex_admit (key task_id : string) : AdmitTeammateTask :=
  mkAdmit (Some task_id) "mate" key "turn" VNull 0 0 None [] None None.
Definition ex_admitted : list Op :=
  [OpAdmitTeammate ex_agent (ex_admit "k1" "t1"); OpAdmitTeammate ex_agent (ex_admit "k1" "t1");
   OpAdmitTeammate ex_agent (ex_admit "k2" "t2"); OpClaim default_aging (ex_claim 1) u64_max].
Definition ex_agent_ops {host : Host} : list Op :=
  ex_admitted ++ [OpMarkUncertain (ex_proof "t1" (run ex_admitted (empty_db true))) 2 "lost"; OpClaim default_aging (ex_claim 3) u64_max].

Lemma one_holder_per_lane_witness :
  let host := example_host in
  let d := run ex_agent_ops (empty_db true) in
  ∃ t, t ∈ d.(db_tasks) ∧ t.(t_agent_id) = Some "mate" ∧ t.(t_status) = Uncertain
    ∧ (∀ t', t' ∈ d.(db_tasks) → same_lane t t' = true → holds_lane t' = true → t.(t_task_id) = t'.(t_task_id))
    ∧ (λ t', (t'.(t_agent_id), t'.(t_status))) <$> find_row "t2" d.(db_tasks) = Some (Some "mate", Queued).
Proof.
  intros host d.
  destruct (find_row "t1" d.(db_tasks)) as [t|] eqn:E; [|vm_compute in E; discriminate E].
  exists t. pose proof E as Hin. apply find_row_Some in Hin as [Hin _].
  assert (t.(t_agent_id) = Some "mate" ∧ t.(t_status) = Uncertain) as [Ha Hu] by (vm_compute in E; injection E as <-; done).
  split; [exact Hin|]. split; [exact Ha|]. split; [exact Hu|]. split; [|vm_compute; reflexivity].
  intros t' Ht' Hs Hh'.
  apply (one_holder_per_lane true ex_agent_ops t t'); [vm_compute; reflexivity..|exact Hin|exact Ht'|exact Hs| |exact Hh'].
  unfold holds_lane. by rewrite Hu.
Defined.

Lemma finished_task_is_final_witness :
  let host := example_host in
  ∃ t', find_row "t1" (run [OpInterruptQueued 100; OpRecover 5000 3 0 Automatic]
      (run [OpSubmit (ex_submit "t1" "chat" 0); OpCancel "t1" 1] (empty_db true))).(db_tasks) = Some t'
    ∧ t'.(t_status) = Cancelled.
Proof.
  intros host.
  destruct (find_row "t1" (run [OpSubmit (ex_submit "t1" "chat" 0); OpCancel "t1" 1]
    (empty_db true)).(db_tasks)) as [t|] eqn:E; [|vm_compute in E; discriminate E].
  destruct (finished_task_is_final true [OpSubmit (ex_submit "t1" "chat" 0); OpCancel "t1" 1]
    [OpInterruptQueued 100; OpRecover 5000 3 0 Automatic] "t1" t) as (t' & Ht' & Hev);
    [reflexivity..|exact E|].
  exists t'. split; [exact Ht'|]. destruct Hev as [_ _ _ _ _ _ _ _ _ Hfin].
  vm_compute in E. injection E as <-. by destruct Hfin as [-> _].
Defined.

Lemma attempt_count_bounds_witness :
  let host := example_host in
  let before := [OpSubmit (ex_submit "t1" "chat" 0); OpClaim default_aging (ex_claim 1) u64_max] in
  ∃ t', find_row "t1" (run [OpResume "t1" 2; OpRecover 5000 3 0 Automatic]
      (run before (empty_db true))).(db_tasks) = Some t' ∧ 1 ≤ t'.(t_attempt_count) ≤ u32_max.
Proof.
  intros host before.
  destruct (find_row "t1" (run before (empty_db true)).(db_tasks)) as [t|] eqn:E;
    [|vm_compute in E; discriminate E].
  destruct (attempt_count_bounds true before [OpResume "t1" 2; OpRecover 5000 3 0 Automatic] "t1" t)
    as (_ & t' & Ht' & Hc); [reflexivity..|exact E|].
  exists t'. split; [exact Ht'|]. vm_compute in E. injection E as <-. exact Hc.
Defined.

(** ** Two defects *)

Section findings.
#[local] Existing Instance example_host.

Definition status_of (id : string) (d : Db) : option (TaskStatus * bool) :=
  (λ t, (t.(t_status), t.(t_retry_pending))) <$> find_row id d.(db_tasks).
Definition no_patch : TaskTransitionPatch := mkPatch None None None None None None None.

(** A retry parked, then completed through the port, interrupted at boot and
    resumed. *)
Definition ex_parked_ops : list Op :=
  [OpSubmit (ex_submit "t1" "chat" 0); OpClaim default_aging (ex_claim 1) u64_max;
   OpRetry (ex_retry (mkFence "t1" "id2" 1) 2)].
Lemma completed_task_resurrected_witness :
  ∃ r d1 n d2 r' d3, transition_task "t1" [Running] Completed no_patch None 3 (run ex_parked_ops (empty_db true)) = Ok (r, d1)
    ∧ interrupt_queued 100 d1 = Ok (n, d2) ∧ resume_task "t1" 101 d2 = Ok (r', d3)
    ∧ (∃ t3, find_row "t1" d3.(db_tasks) = Some t3 ∧ t3.(t_status) = Queued ∧ t3.(t_retry_pending) = true)
    ∧ status_of "t1" (run [OpClaim default_aging (ex_claim 102) u64_max] d3) = Some (Running, false).
Proof.
  destruct (transition_task "t1" [Running] Completed no_patch None 3 (run ex_parked_ops (empty_db true))) as [[r d1]|e] eqn:E1;
    [|vm_compute in E1; discriminate E1].
  pose proof E1 as F1. vm_compute in F1. injection F1 as <- <-.
  match type of E1 with _ = Ok (?r, ?d) => set (d1 := d) in *; set (r1 := r) in * end.
  destruct (interrupt_queued 100 d1) as [[n d2]|e] eqn:E2; [|vm_compute in E2; discriminate E2].
  pose proof E2 as F2. vm_compute in F2. injection F2 as <- <-.
  match type of E2 with _ = Ok (_, ?d) => set (d2 := d) in * end.
  destruct (resume_task "t1" 101 d2) as [[r' d3]|e] eqn:E3; [|vm_compute in E3; discriminate E3].
  destruct (find_row "t1" (run ex_parked_ops (empty_db true)).(db_tasks)) as [t|] eqn:Et; [|vm_compute in Et; discriminate Et].
  destruct (find_row "t1" d1.(db_tasks)) as [t1|] eqn:Et1; [|vm_compute in Et1; discriminate Et1].
  assert (t_retry_pending t = true) as Hr by (vm_compute in Et; injection Et as <-; reflexivity).
  assert (t_enqueued_at t1 < 100) as Hb by (vm_compute in Et1; injection Et1 as <-; reflexivity).
  destruct (completed_task_resurrected true ex_parked_ops "t1" [Running] no_patch None 3 r1 d1 100 _ d2 101 r' d3 t1
    eq_refl (ex_intro _ t (conj Et Hr)) E1 Et1 Hb E2 E3) as (_ & _ & H3).
  exists r1, d1, 1%nat, d2, r', d3. split_and!; [exact E1|exact E2|exact E3|exact H3|].
  vm_compute in E3. injection E3 as <- <-. vm_compute. reflexivity.
Defined.

(** Two tasks of one scope, each interrupted with its retry parked and then
    resumed. *)
Definition ex_stuck : Db :=
  run [OpResume "t1" 105; OpResume "t2" 105]
    (run [OpInterruptQueued 100]
      (let d := run [OpSubmit (ex_submit "t1" "chat" 0); OpSubmit (ex_submit "t2" "chat" 0);
            OpClaim default_aging (ex_claim 1) u64_max] (empty_db true) in
       let d := run [OpRetry (ex_retry (ex_proof "t1" d) 2); OpInterruptQueued 100;
            OpResume "t2" 101; OpClaim default_aging (ex_claim 102) u64_max] d in
       run [OpRetry (ex_retry (ex_proof "t2" d) 103)] d)).

(** A scope can lock up for ever.  [interrupt_queued] and [resume_task]
    leave [retryPending] set, so two resumed tasks of one scope are both
    queued and both count as holding the scope's lane: every claim, at every
    time and with every limit, passes both over. *)
Theorem resumed_retries_deadlock :
  status_of "t1" ex_stuck = Some (Queued, true) ∧ status_of "t2" ex_stuck = Some (Queued, true)
  ∧ ∀ aging input concurrency r d',
      claim_with_concurrency aging input concurrency ex_stuck = Ok (r, d') → r = None.
Proof.
  split; [vm_compute; done|]. split; [vm_compute; done|].
  intros aging input concurrency [c|] d' H; [exfalso|done].
  apply claim_admits in H as (t & [Hin _ _ _ _ _ Hlane _ _ _]); [|keys_by_computation].
  assert (∀ P : TaskRecord → Prop, (∀ t', t' ∈ db_tasks ex_stuck → P t') → P t) as Hall by auto.
  revert Hlane. pattern t. apply Hall. vm_compute db_tasks.
  intros t' Ht' Hlane. apply elem_of_cons in Ht' as [-> |Ht'%list_elem_of_singleton].
  - discriminate (Hlane _ (list_elem_of_further _ _ _ (list_elem_of_here _ _))); done.
  - subst t'. discriminate (Hlane _ (list_elem_of_here _ _)); done.
Qed.
End findings.
