(* ===== verification/ReceiptLaws.v ===== *)
(** * What the receipts promise

    The jobs on the ledger, and that whatever their order the receipts move
    only as the machine of the first section does.  From that: one admission
    for an execution and for an approval, a repeat that names what it repeats,
    and an outcome that is written once. *)

From S2P Require Export Receipts TaskSafety.
Local Open Scope Z_scope.

(** ** The machine *)

Section machine.
Implicit Types (r : ExecutionReceiptRecord) (rows : list ExecutionReceiptRecord) (a : ExecutionReceiptAdmission).

(** ** The machine *)

(** What an execution is, whatever becomes of it. *)
Definition identity r : ExecutionReceiptRecord :=
  mkReceiptRecord r.(er_execution_id) r.(er_run_id) r.(er_chat_id) r.(er_tool_call_id) r.(er_tool_name) r.(er_args_sha256)
    r.(er_args_hash_provenance) r.(er_context_sha256) r.(er_attempt_id) r.(er_approval_request_id)
    r.(er_approval_generation) ReceiptAdmitted None None None.

(** The same tool, context and run; the same arguments, as far as can be told
    of an imported receipt. *)
Definition same_place r r' : bool :=
  String.eqb r'.(er_run_id) r.(er_run_id) && String.eqb r'.(er_tool_name) r.(er_tool_name)
  && String.eqb r'.(er_context_sha256) r.(er_context_sha256).
Definition same_args r r' : bool := String.eqb r'.(er_args_sha256) r.(er_args_sha256).
Definition kindred r r' : bool :=
  same_place r r' && (same_args r r' || bool_decide (r'.(er_args_hash_provenance) = TsCanonical)).

(** A receipt after the older ones, newest first: when the last that may be of
    the same operation is of the same arguments and still open, the new one
    names it. *)
Definition answers_for r older : Prop :=
  ∀ r', find_by (kindred r) older = Some r' → same_args r r' = true → is_admitted r' = true →
    r.(er_approval_generation) = Some r'.(er_execution_id).

Definition closes r r' : Prop := identity r' = identity r ∧ r'.(er_status) ≠ ReceiptAdmitted.
Definition replace r' rows : list ExecutionReceiptRecord :=
  map (λ old, if has_id r'.(er_execution_id) old then r' else old) rows.

Inductive machine : list ExecutionReceiptRecord → list ExecutionReceiptRecord → Prop :=
  | machine_admit rows r :
      existsb (has_id r.(er_execution_id)) rows = false →
      (∀ id, r.(er_approval_request_id) = Some id → ∀ old, old ∈ rows → old.(er_approval_request_id) ≠ Some id) →
      r.(er_status) = ReceiptAdmitted → answers_for r (rev rows) →
      (r.(er_approval_generation) ≠ None → r.(er_approval_request_id) ≠ None) →
      machine rows (rows ++ [r])
  | machine_close rows r r' : r ∈ rows → r.(er_status) = ReceiptAdmitted → closes r r' → machine rows (replace r' rows)
  | machine_forget rows (keep : string → bool) : machine rows (filter_by (λ r, keep r.(er_run_id)) rows)
  | machine_stay rows : machine rows rows.

(** ** What it keeps *)

Fixpoint chain (newest_first : list ExecutionReceiptRecord) : Prop :=
  match newest_first with [] => True | r :: older => answers_for r older ∧ chain older end.

Record receipts_ok rows : Prop := {
  ro_ids : NoDup (map er_execution_id rows);
  ro_approvals : NoDup (omap er_approval_request_id rows);
  ro_chain : chain (rev rows);
  ro_named r : r ∈ rows → r.(er_approval_generation) ≠ None → r.(er_approval_request_id) ≠ None
}.

(** A receipt later on: its identity stays, and so does what closed it. *)
Definition later r r' : Prop := identity r' = identity r ∧ (r.(er_status) ≠ ReceiptAdmitted → r' = r).
(** Every receipt is kept, later, or left with its whole run; the order
    stays. *)
Definition receipts_evolve rows rows' : Prop :=
  ∃ keep : string → bool, ∃ old new, rows' = old ++ new ∧
    Forall2 later (filter_by (λ r, keep r.(er_run_id)) rows) old
    ∧ ∀ r, r ∈ new → ∀ r0, r0 ∈ rows → keep r0.(er_run_id) = true → r0.(er_execution_id) ≠ r.(er_execution_id).

Lemma identity_fields r r' : identity r' = identity r →
  r'.(er_execution_id) = r.(er_execution_id) ∧ r'.(er_run_id) = r.(er_run_id) ∧ r'.(er_tool_name) = r.(er_tool_name)
  ∧ r'.(er_args_sha256) = r.(er_args_sha256) ∧ r'.(er_context_sha256) = r.(er_context_sha256)
  ∧ r'.(er_args_hash_provenance) = r.(er_args_hash_provenance) ∧ r'.(er_approval_request_id) = r.(er_approval_request_id)
  ∧ r'.(er_approval_generation) = r.(er_approval_generation) ∧ r'.(er_tool_call_id) = r.(er_tool_call_id)
  ∧ r'.(er_chat_id) = r.(er_chat_id).
Proof. intros [=]. done. Qed.
Lemma kindred_identity r r' : identity r' = identity r → ∀ x, kindred x r' = kindred x r.
Proof.
  intros (_ & E2 & E3 & E4 & E5 & E6 & _)%identity_fields x. unfold kindred, same_place, same_args.
  by rewrite E2, E3, E4, E5, E6.
Qed.
Lemma kindred_of r r' : identity r' = identity r → ∀ x, kindred r' x = kindred r x.
Proof.
  intros (_ & E2 & E3 & E4 & E5 & _)%identity_fields x. unfold kindred, same_place, same_args. by rewrite E2, E3, E4, E5.
Qed.

Lemma has_id_spec id r : has_id id r = true ↔ r.(er_execution_id) = id.
Proof. unfold has_id. apply String.eqb_eq. Qed.
Lemma existsb_has_id id rows : existsb (has_id id) rows = false ↔ id ∉ map er_execution_id rows.
Proof.
  rewrite <-not_true_iff_false, existsb_exists. change (map er_execution_id rows) with (er_execution_id <$> rows).
  rewrite list_elem_of_fmap. setoid_rewrite has_id_spec. setoid_rewrite <-list_elem_of_In. naive_solver.
Qed.

Lemma Forall2_map_self {A} (R : A → A → Prop) (f : A → A) l : (∀ x, x ∈ l → R x (f x)) → Forall2 R l (map f l).
Proof. induction l as [|x l IH]; intros H; constructor; [apply H; left|]. apply IH. intros y Hy. apply H. by right. Qed.
Lemma Forall2_elem_r {A B} (R : A → B → Prop) l k y : Forall2 R l k → y ∈ k → ∃ x, x ∈ l ∧ R x y.
Proof.
  induction 1 as [|x y' l k HR _ IH]; [by intros ?%elem_of_nil|]. intros [->|Hy]%elem_of_cons; [exists x; split; [left|done]|].
  destruct (IH Hy) as (x' & ? & ?). exists x'. split; [by right|done].
Qed.
Lemma map_filter_sublist {A B} (f : A → B) p l : map f (filter_by p l) `sublist_of` map f l.
Proof.
  induction l as [|x l IH]; [done|]. rewrite filter_by_cons. destruct (p x); simpl; [by apply sublist_skip|by apply sublist_cons].
Qed.
Lemma omap_filter_sublist {A B} (f : A → option B) p l : omap f (filter_by p l) `sublist_of` omap f l.
Proof.
  induction l as [|x l IH]; [done|]. rewrite filter_by_cons. destruct (p x); simpl; destruct (f x); simpl;
    first [by apply sublist_skip|by apply sublist_cons|done].
Qed.

(** Replacing an open receipt by what closed it changes no identity. *)
Lemma replace_later rows r r' : NoDup (map er_execution_id rows) → r ∈ rows → r.(er_status) = ReceiptAdmitted → closes r r' →
  Forall2 later rows (replace r' rows).
Proof.
  intros Hn Hr Ha [Hi _]. unfold replace. apply Forall2_map_self. intros x Hx.
  destruct (has_id (er_execution_id r') x) eqn:E; [|split; [done|done]].
  apply has_id_spec in E. destruct (identity_fields _ _ Hi) as (Eid & _). assert (x = r) as ->; [|split; [done|by rewrite Ha]].
  rewrite Eid in E. clear -Hn Hx Hr E. induction rows as [|y rows IH]; [by apply elem_of_nil in Hx|].
  simpl in Hn. apply NoDup_cons in Hn as [Hy Hn].
  apply elem_of_cons in Hx as [->|Hx]; apply elem_of_cons in Hr as [->|Hr]; [done| | |by apply IH].
  - exfalso. apply Hy. rewrite E. by apply (list_elem_of_fmap_2 er_execution_id).
  - exfalso. apply Hy. rewrite <-E. by apply (list_elem_of_fmap_2 er_execution_id).
Qed.

Lemma later_map {A} (f : ExecutionReceiptRecord → A) rows rows' :
  (∀ r r', identity r' = identity r → f r' = f r) → Forall2 later rows rows' → map f rows' = map f rows.
Proof. intros Hf. induction 1 as [|r r' rows rows' [Hi _] _ IH]; simpl; [done|]. by rewrite IH, (Hf _ _ Hi). Qed.
Lemma later_approvals rows rows' : Forall2 later rows rows' → omap er_approval_request_id rows' = omap er_approval_request_id rows.
Proof.
  induction 1 as [|x y l l' [Hi _] _ IH]; [done|]. simpl.
  destruct (identity_fields _ _ Hi) as (_ & _ & _ & _ & _ & _ & -> & _).
  destruct (er_approval_request_id x); [f_equal|]; exact IH.
Qed.

Lemma later_find x rows rows' : Forall2 later rows rows' → ∀ r', find_by (kindred x) rows' = Some r' →
  ∃ r, find_by (kindred x) rows = Some r ∧ later r r'.
Proof.
  induction 1 as [|r0 r0' rows rows' Hl _ IH]; intros r'; simpl; [done|].
  rewrite (kindred_identity _ _ (proj1 Hl)). destruct (kindred x r0); [|apply IH]. intros [= <-]. by exists r0.
Qed.
Lemma later_chain rows rows' : Forall2 later rows rows' → chain rows → chain rows'.
Proof.
  induction 1 as [|r r' rows rows' [Hi Hc] Hl IH]; [done|]. intros [Ha Hch]. split; [|by apply IH].
  intros x' Hx' Hargs Hadm.
  assert (find_by (kindred r) rows' = Some x') as Hx0.
  { rewrite <-Hx'. clear -Hi. induction rows' as [|y l IH]; simpl; [done|]. rewrite (kindred_of _ _ Hi). by rewrite IH. }
  destruct (later_find r rows rows' Hl x' Hx0) as (x & Hx & Hix & Hcx).
  destruct (identity_fields _ _ Hi) as (_ & _ & _ & E4 & _ & _ & _ & E8 & _).
  destruct (identity_fields _ _ Hix) as (F1 & _ & _ & F4 & _).
  rewrite E8, F1. apply Ha; [done| |].
  - unfold same_args in *. by rewrite <-F4, <-E4.
  - destruct (decide (er_status x = ReceiptAdmitted)) as [Es|Es]; [by apply bool_decide_eq_true|]. by rewrite Hcx in Hadm.
Qed.

(** Dropping whole runs leaves the chain of the others. *)
Lemma find_kindred_run x (keep : string → bool) rows : keep x.(er_run_id) = true →
  find_by (kindred x) (filter_by (λ r, keep r.(er_run_id)) rows) = find_by (kindred x) rows.
Proof.
  intros Hk. induction rows as [|r rows IH]; [done|]. rewrite filter_by_cons. simpl find_by at 2.
  destruct (kindred x r) eqn:Ec.
  - assert (keep (er_run_id r) = true) as ->; [|simpl; by rewrite Ec].
    unfold kindred, same_place in Ec. rewrite !andb_true_iff, String.eqb_eq in Ec. by destruct Ec as [[[-> _] _] _].
  - destruct (keep (er_run_id r)); simpl; [by rewrite Ec|done].
Qed.
Lemma forget_chain (keep : string → bool) rows : chain rows → chain (filter_by (λ r, keep r.(er_run_id)) rows).
Proof.
  induction rows as [|r rows IH]; [done|]. intros [Ha Hc]. rewrite filter_by_cons.
  destruct (keep (er_run_id r)) eqn:Hk; [|by apply IH]. split; [|by apply IH].
  intros r'. rewrite find_kindred_run by done. apply Ha.
Qed.

Lemma later_refl rows : Forall2 later rows rows.
Proof. induction rows; by constructor. Qed.
Lemma filter_by_all {A} (p : A → bool) l : (∀ x, x ∈ l → p x = true) → filter_by p l = l.
Proof.
  induction l as [|x l IH]; intros Hp; [done|]. rewrite filter_by_cons, (Hp x) by left. f_equal. apply IH. intros y Hy. apply Hp. by right.
Qed.

Lemma evolve_later rows rows' : Forall2 later rows rows' → receipts_evolve rows rows'.
Proof.
  intros H. exists (λ _, true), rows', []. rewrite app_nil_r. split_and!; [done|by rewrite filter_by_all|by intros r ?%elem_of_nil].
Qed.

Lemma machine_step rows rows' : machine rows rows' → receipts_ok rows → receipts_ok rows' ∧ receipts_evolve rows rows'.
Proof.
  intros Hm [H1 H2 H3 H4]. destruct Hm as [rows r Hid Happ Hst Hans Hgen|rows r r' Hr Hst Hcl|rows keep|rows].
  - apply existsb_has_id in Hid. split; [split|].
    + rewrite map_app. apply NoDup_app. split_and!; [done| |apply NoDup_singleton].
      intros x Hx ->%list_elem_of_singleton. done.
    + rewrite omap_app. apply NoDup_app. split_and!; [done| |simpl; destruct (er_approval_request_id r); [apply NoDup_singleton|constructor]].
      intros id (old & Hold & Eid)%list_elem_of_omap. simpl. destruct (er_approval_request_id r) as [id'|] eqn:Er; [|by apply not_elem_of_nil].
      rewrite list_elem_of_singleton. intros ->. by apply (Happ _ eq_refl old).
    + by rewrite rev_app_distr.
    + intros x [Hx| ->%list_elem_of_singleton]%elem_of_app; [by apply H4|done].
    + exists (λ _, true), rows, [r]. split_and!; [done|rewrite filter_by_all by done; apply later_refl|].
      intros x ->%list_elem_of_singleton r0 Hr0 _ E. apply Hid. rewrite <-E. by apply (list_elem_of_fmap_2 er_execution_id).
  - pose proof (replace_later _ _ _ H1 Hr Hst Hcl) as Hl. split; [split|by apply evolve_later].
    + rewrite (later_map er_execution_id _ _ (λ r r' H, proj1 (identity_fields r r' H)) Hl). done.
    + by rewrite (later_approvals _ _ Hl).
    + eapply later_chain; [|exact H3]. rewrite !rev_alt. by apply Forall2_reverse.
    + intros x Hx. destruct (Forall2_elem_r _ _ _ _ Hl Hx) as (x0 & Hx0 & [Hi _]).
      destruct (identity_fields _ _ Hi) as (_ & _ & _ & _ & _ & _ & -> & -> & _). by apply H4.
  - split; [split|].
    + eapply sublist_NoDup; [exact H1|]. apply map_filter_sublist.
    + eapply sublist_NoDup; [exact H2|]. apply omap_filter_sublist.
    + assert (rev (filter_by (λ r, keep (er_run_id r)) rows) = filter_by (λ r, keep (er_run_id r)) (rev rows)) as ->.
      { unfold filter_by. rewrite !rev_alt. symmetry. apply filter_reverse. }
      by apply forget_chain.
    + intros x [_ Hx]%elem_of_filter_by. by apply H4.
    + exists keep, (filter_by (λ r, keep (er_run_id r)) rows), []. rewrite app_nil_r.
      split_and!; [done|apply later_refl|by intros r ?%elem_of_nil].
  - split; [by split|]. apply evolve_later, later_refl.
Qed.

End machine.

(** ** The jobs *)

Inductive LedgerOp :=
  | LStore (op : Op)
  | LAdmit (proof : LeaseFence) (a : ExecutionReceiptAdmission)
  | LComplete (proof : LeaseFence) (execution_id : string) (result : Value) (now : Z)
  | LNotStarted (proof : LeaseFence) (attempt_id execution_id : string) (result : Value)
  | LResolve (execution_id : string) (request : ResolveExecution)
  | LBarrier (barrier : UncertaintyBarrierRecord)
  (** What binds runs to chats, as a run resumes. *)
  | LBind (bindings : list (string * string)).

Definition lignore {A} (m : LM A) : LM unit := _ ← m; mret tt.

Section ledger.
Context {host : Host} {digests : Digests}.

(** [REFERENCES tasks(id) ON DELETE CASCADE]. *)
Definition cascade (s : Ledger) : Ledger :=
  mkLedger s.(lg_db) (filter_by (λ r, is_some (find_row r.(er_run_id) s.(lg_db).(db_tasks))) s.(lg_executions))
    s.(lg_barriers) s.(lg_bindings).

Definition exec_ledger (op : LedgerOp) : LM unit :=
  match op with
  | LStore op => _ ← on_db (exec op); modify cascade
  | LAdmit proof a => lignore (admit_execution proof a)
  | LComplete proof execution_id result now => complete_execution proof execution_id result now
  | LNotStarted proof attempt_id execution_id result =>
      lignore (complete_execution_not_started proof attempt_id execution_id result)
  | LResolve execution_id request => lignore (resolve_execution execution_id request)
  | LBarrier barrier => lignore (insert_barrier barrier)
  | LBind bindings => modify (λ s, mkLedger s.(lg_db) s.(lg_executions) s.(lg_barriers) bindings)
  end.
Definition ledger_step (s : Ledger) (op : LedgerOp) : Ledger := (atomic (exec_ledger op) s).2.
Definition ledger_run (ops : list LedgerOp) (s : Ledger) : Ledger := foldl ledger_step s ops.
Definition empty_ledger (file : bool) : Ledger := mkLedger (empty_db file) [] [] [].

(** The bodies that may run: the admissions that were answered [true]. *)
Definition admitted_now (s : Ledger) (op : LedgerOp) : list ExecutionReceiptAdmission :=
  match op with
  | LAdmit proof a => match admit_execution proof a s with Ok (true, _) => [a] | _ => [] end
  | _ => []
  end.
Fixpoint admissions (ops : list LedgerOp) (s : Ledger) : list ExecutionReceiptAdmission :=
  match ops with
  | [] => []
  | op :: ops => admitted_now s op ++ admissions ops (ledger_step s op)
  end.

(** ** What the parts do *)


Lemma res_mapM_elem {E A B} (f : A → Res E B) l l' x : res_mapM f l = Ok l' → x ∈ l → ∃ y, f x = Ok y.
Proof.
  revert l'. induction l as [|z l IH]; simpl; intros l' H Hx; [by apply elem_of_nil in Hx|].
  destruct (f z) as [y|] eqn:Ez; simpl in H; [|done]. destruct (res_mapM f l) eqn:El; simpl in H; [|done].
  apply elem_of_cons in Hx as [->|Hx]; [by exists y|by eapply IH].
Qed.
Lemma read_execution_receipt_Ok r r' : read_execution_receipt r = Ok r' → r' = r.
Proof. unfold read_execution_receipt. repeat case_match; intros [=]; done. Qed.
Lemma read_all_Ok rows rows' : res_mapM read_execution_receipt rows = Ok rows' → rows' = rows.
Proof.
  revert rows'. induction rows as [|r rows IH]; simpl; intros rows'; [by intros [= <-]|].
  destruct (read_execution_receipt r) eqn:E; simpl; [|done]. apply read_execution_receipt_Ok in E as ->.
  destruct (res_mapM read_execution_receipt rows) eqn:E'; simpl; [|done]. intros [= <-]. by rewrite (IH _ eq_refl).
Qed.
Lemma select_run_Ok id s rows s' : select_run id s = Ok (rows, s') → s' = s ∧ rows = filter_by (of_run id) s.(lg_executions).
Proof. unfold select_run, read_rows. intros E. inv_st.
  by match goal with H : res_mapM _ _ = _ |- _ => apply read_all_Ok in H as -> end.
Qed.
Lemma on_db_Ok {A} (m : M A) s a s' : on_db m s = Ok (a, s') →
  ∃ d, m s.(lg_db) = Ok (a, d) ∧ s' = mkLedger d s.(lg_executions) s.(lg_barriers) s.(lg_bindings).
Proof. unfold on_db. destruct (m (lg_db s)) as [[x d]|]; [|done]. intros [= -> <-]. by exists d. Qed.
Lemma ledger_eta s : mkLedger s.(lg_db) s.(lg_executions) s.(lg_barriers) s.(lg_bindings) = s.
Proof. by destruct s. Qed.
Lemma on_db_fence proof now s l s' : on_db (fence proof now) s = Ok (l, s') →
  s' = s ∧ fence proof now s.(lg_db) = Ok (l, s.(lg_db)).
Proof. intros (d & E & ->)%on_db_Ok. assert (d = s.(lg_db)) as -> by (unfold fence, get in E; by inv_st). by rewrite ledger_eta. Qed.
Lemma on_db_get {A} {table : Table A} id s (o : option A) s' :
  on_db (get (A := A) id) s = Ok (o, s') → s' = s ∧ o = find_row id (tbl s.(lg_db)).
Proof. intros (d & E & ->)%on_db_Ok. unfold get in E. inv_st. by rewrite ledger_eta. Qed.

(** ** Every job is a step of the machine *)

Lemma serialized_Ok r s r' s' : serialized r s = Ok (r', s') → s' = s ∧ identity r' = identity r ∧ r'.(er_status) = r.(er_status).
Proof.
  unfold serialized, json_execution. intros [E ->]%st_lift_Ok. destruct (er_resolution r); simpl in E;
    [destruct (json_resolution _); [|done]|]; simpl in E; by injection E as <-.
Qed.
Lemma serialized_admitted proof a s : serialized (admitted_record proof a) s = Ok (admitted_record proof a, s).
Proof. done. Qed.

Lemma insert_record_Ok r s b s' : insert_record r s = Ok (b, s') →
  s' = s ∧ b = false
  ∨ b = true ∧ s' = mkLedger s.(lg_db) (s.(lg_executions) ++ [r]) s.(lg_barriers) s.(lg_bindings)
    ∧ existsb (has_id r.(er_execution_id)) s.(lg_executions) = false
    ∧ (∀ id, r.(er_approval_request_id) = Some id → ∀ old, old ∈ s.(lg_executions) → old.(er_approval_request_id) ≠ Some id)
    ∧ is_some (find_row r.(er_run_id) s.(lg_db).(db_tasks)) = true.
Proof.
  unfold insert_record. intros E. inv_st. case_run E; inv_st; [by left|]. case_run E; inv_st; [by left|].
  right. repeat match goal with H : on_db (get _) _ = _ |- _ => apply on_db_get in H as [-> ->] end.
  unfold set_executions in *. inv_st. split_and!; try done.
  intros id Hid old Hold Eold. rewrite Hid in *. simpl in *.
  match goal with Hx : existsb _ _ = false |- _ => apply not_true_iff_false in Hx; apply Hx end.
  apply existsb_exists. exists old. split; [by apply list_elem_of_In|]. rewrite Eold. unfold ostr_eqb. by apply bool_decide_eq_true.
Qed.

(** *** Admission *)

(** What an admission found in the ledger when it answered [true]. *)
Record admitted_at (proof : LeaseFence) (a : ExecutionReceiptAdmission) (s : Ledger) : Prop := {
  aa_fence : ∃ lease, fence proof a.(ad_now) s.(lg_db) = Ok (lease, s.(lg_db));
  aa_run : a.(ad_run_id) = proof.(f_task_id);
  aa_approval : match a.(ad_approval_request_id) with
                | None => a.(ad_approval_generation) = None
                | Some id => ∃ request, find_row id s.(lg_db).(db_inputs) = Some request ∧ approves request id a = true
                end;
  aa_barriers b : b ∈ s.(lg_barriers) → in_scope s.(lg_bindings) a.(ad_chat_id) a.(ad_run_id) b = true →
    blocks b a.(ad_tool_name) a.(ad_args_sha256) a.(ad_ts_args_sha256) = true →
    a.(ad_approval_generation) = Some b.(ub_barrier_id);
  aa_previous r : rfind (same_operation a) (filter_by (of_run a.(ad_run_id)) s.(lg_executions)) = Some r →
    is_admitted r = true → a.(ad_approval_generation) = Some r.(er_execution_id);
  aa_fresh : existsb (has_id a.(ad_execution_id)) s.(lg_executions) = false;
  aa_unspent id : a.(ad_approval_request_id) = Some id →
    ∀ old, old ∈ s.(lg_executions) → old.(er_approval_request_id) ≠ Some id;
  aa_task : is_some (find_row a.(ad_run_id) s.(lg_db).(db_tasks)) = true
}.

Lemma validate_approval_Ok a s u s' : validate_approval a s = Ok (u, s') → s' = s ∧
  match a.(ad_approval_request_id) with
  | None => a.(ad_approval_generation) = None
  | Some id => ∃ request, find_row id s.(lg_db).(db_inputs) = Some request ∧ approves request id a = true
  end.
Proof.
  unfold validate_approval, get_input. intros E. destruct (ad_approval_request_id a); inv_st.
  - repeat match goal with H : on_db (get _) _ = _ |- _ => apply on_db_get in H as [-> ->] end.
    split; [done|]. match goal with H : ok_or _ _ = Ok ?x |- _ => exists x; by apply ok_or_Ok in H end.
  - split; [done|]. by destruct (ad_approval_generation a).
Qed.

Lemma read_barrier_Ok b b' : read_barrier b = Ok b' → b' = b.
Proof. unfold read_barrier. repeat case_match; intros [=]; done. Qed.
Lemma read_barriers_Ok bs bs' : res_mapM read_barrier bs = Ok bs' → bs' = bs.
Proof.
  revert bs'. induction bs as [|b bs IH]; simpl; intros bs'; [by intros [= <-]|].
  destruct (read_barrier b) eqn:E; simpl; [|done]. apply read_barrier_Ok in E as ->.
  destruct (res_mapM read_barrier bs) eqn:E'; simpl; [|done]. intros [= <-]. by rewrite (IH _ eq_refl).
Qed.
Lemma select_barriers_Ok chat run s bs s' : select_barriers chat run s = Ok (bs, s') →
  s' = s ∧ bs = filter_by (in_scope s.(lg_bindings) chat run) s.(lg_barriers).
Proof.
  unfold select_barriers. intros E. inv_st.
  by match goal with H : res_mapM _ _ = _ |- _ => apply read_barriers_Ok in H as -> end.
Qed.

Lemma admit_execution_Ok proof a s b s' : admit_execution proof a s = Ok (b, s') →
  s' = s ∧ b = false
  ∨ b = true ∧ s' = mkLedger s.(lg_db) (s.(lg_executions) ++ [admitted_record proof a]) s.(lg_barriers) s.(lg_bindings)
    ∧ admitted_at proof a s.
Proof.
  unfold admit_execution. intros E. inv_st.
  match goal with H : on_db (fence _ _) _ = _ |- _ => apply on_db_fence in H as [-> Hf] end.
  match goal with H : validate_approval _ _ = _ |- _ => apply validate_approval_Ok in H as [-> Hval] end.
  match goal with H : select_barriers _ _ _ = _ |- _ => apply select_barriers_Ok in H as [-> ->] end.
  case_run E; inv_st; [by left|].
  match goal with H : select_run _ _ = _ |- _ => apply select_run_Ok in H as [-> ->] end.
  case_run E; inv_st; [by left|].
  match goal with H : serialized _ _ = _ |- _ => rewrite serialized_admitted in H; injection H as [= <- <-] end.
  apply insert_record_Ok in E as [[-> ->]|(-> & -> & Hid & Happ & Htask)]; [by left|].
  right. split_and!; [done..|]. split; try done; [by eexists|by apply String.eqb_eq|..].
  - intros b Hb Hsc Hbl. match goal with H : existsb _ (filter_by _ _) = false |- _ => apply not_true_iff_false in H end.
    destruct (ostr_eqb (ad_approval_generation a) (Some (ub_barrier_id b))) eqn:Eg; [by apply bool_decide_eq_true in Eg|].
    exfalso. match goal with H : existsb _ _ ≠ true |- _ => apply H end. apply existsb_exists. exists b.
    rewrite Hbl, Eg. split; [|done]. apply list_elem_of_In, elem_of_filter_by. done.
  - intros r Hr Hadm. match goal with H : is_some_and _ _ = false |- _ => rewrite Hr in H; simpl in H; rewrite Hadm in H end.
    destruct (ostr_eqb (ad_approval_generation a) (Some (er_execution_id r))) eqn:Eg; [by apply bool_decide_eq_true in Eg|done].
Qed.

Lemma rfind_rev {A} (p : A → bool) l : rfind p l = find_by p (rev l).
Proof. done. Qed.
Lemma find_by_filter {A} (p q : A → bool) l : (∀ x, p x = true → q x = true) → find_by p (filter_by q l) = find_by p l.
Proof.
  intros Hpq. induction l as [|x l IH]; [done|]. rewrite filter_by_cons. simpl find_by at 2. destruct (p x) eqn:Ep.
  - by rewrite (Hpq _ Ep); simpl; rewrite Ep.
  - destruct (q x); simpl; [by rewrite Ep|done].
Qed.
Lemma find_by_first {A} (p q : A → bool) l x : (∀ y, q y = true → p y = true) → q x = true →
  find_by p l = Some x → find_by q l = Some x.
Proof.
  intros Hqp Hx. induction l as [|y l IH]; [done|]. simpl. destruct (p y) eqn:Ep; [by intros [= ->]; rewrite Hx|].
  intros E. destruct (q y) eqn:Eq; [by rewrite (Hqp _ Eq) in Ep|by apply IH].
Qed.
Lemma rev_filter_by {A} (p : A → bool) l : rev (filter_by p l) = filter_by p (rev l).
Proof. unfold filter_by. rewrite !rev_alt. symmetry. apply filter_reverse. Qed.

Lemma kindred_admitted proof a r : same_place (admitted_record proof a) r = true →
  same_operation a r = true → kindred (admitted_record proof a) r = true.
Proof.
  unfold same_place, same_operation, kindred, same_place, same_args, args_match. simpl.
  rewrite !andb_true_iff, !orb_true_iff, !andb_true_iff. naive_solver.
Qed.
(** The last receipt that may be the same operation's, and is of the same
    arguments, is the one an admission compares with. *)
Lemma admitted_answers proof a s : admitted_at proof a s → answers_for (admitted_record proof a) (rev s.(lg_executions)).
Proof.
  intros Ha r Hr Hargs Hadm. simpl. eapply aa_previous; [exact Ha| |exact Hadm].
  rewrite rfind_rev, rev_filter_by. pose (q := λ r, same_operation a r && of_run (ad_run_id a) r).
  assert (q r = true) as Hq.
  { assert (kindred (admitted_record proof a) r = true) as Hc.
    { by apply find_by_Some in Hr as [_ ?]. }
    apply andb_true_iff in Hc as [Hp _]. apply andb_true_iff in Hp as [[Hrun Htool]%andb_true_iff Hctx].
    unfold q, same_operation, args_match, of_run. unfold same_args in Hargs. simpl in *. by rewrite Htool, Hctx, Hargs, Hrun. }
  assert (find_by (kindred (admitted_record proof a)) (rev (lg_executions s)) = Some r →
          find_by q (rev (lg_executions s)) = Some r) as Hfirst.
  { apply find_by_first; [|done]. intros y [Hy1 Hy2]%andb_true_iff. apply kindred_admitted; [|done].
    apply andb_true_iff in Hy1 as [[Htool Hctx]%andb_true_iff _]. unfold same_place. simpl. unfold of_run in Hy2.
    by rewrite Htool, Hctx, Hy2. }
  rewrite <-(Hfirst Hr). clear. induction (rev _) as [|x l IH]; [done|]. rewrite filter_by_cons. unfold q at 1. simpl.
  destruct (of_run (ad_run_id a) x) eqn:E; simpl; [rewrite andb_true_r; destruct (same_operation a x); [done|apply IH]|].
  rewrite andb_false_r. apply IH.
Qed.
Lemma admitted_machine proof a s : admitted_at proof a s →
  machine s.(lg_executions) (s.(lg_executions) ++ [admitted_record proof a]).
Proof.
  intros Ha. constructor; [by eapply aa_fresh|by eapply aa_unspent|done|by apply admitted_answers|].
  simpl. intros Hg. pose proof (aa_approval _ _ _ Ha) as Happ. by destruct (ad_approval_request_id a).
Qed.

(** *** The other jobs *)

Lemma write_record_Ok r s u s' : write_record r s = Ok (u, s') →
  s' = mkLedger s.(lg_db) (replace r s.(lg_executions)) s.(lg_barriers) s.(lg_bindings).
Proof. unfold write_record, set_executions. intros E. by inv_st. Qed.
Lemma find_execution_Ok id run s o s' : find_execution id run s = Ok (o, s') →
  s' = s ∧ ∀ r, o = Some r → r ∈ s.(lg_executions) ∧ r.(er_execution_id) = id ∧ r.(er_run_id) = run.
Proof.
  unfold find_execution. intros E. inv_st. split; [done|]. intros r [Hr [Hid Hrun]%andb_true_iff]%find_by_Some.
  apply has_id_spec in Hid. by apply String.eqb_eq in Hrun.
Qed.

(** A job that admits nothing leaves the receipts, or closes an open one. *)
Definition settles (s s' : Ledger) : Prop := lg_db s' = lg_db s ∧
  (s'.(lg_executions) = s.(lg_executions)
   ∨ ∃ r r', r ∈ s.(lg_executions) ∧ r.(er_status) = ReceiptAdmitted ∧ closes r r' ∧ s'.(lg_executions) = replace r' s.(lg_executions)).
Lemma settles_refl s : settles s s.
Proof. split; [done|by left]. Qed.
Lemma settles_replace r r' record s s' : r ∈ s.(lg_executions) → is_admitted r = true →
  serialized record s = Ok (r', s) → identity record = identity r → record.(er_status) ≠ ReceiptAdmitted →
  lg_db s' = lg_db s → s'.(lg_executions) = replace r' s.(lg_executions) → settles s s'.
Proof.
  intros Hr Ha Hs Hi Hst Hdb Hrows. apply serialized_Ok in Hs as (_ & Hi' & Hst').
  apply bool_decide_eq_true in Ha. split; [done|]. right. exists r, r'. split_and!; [done..| |done].
  split; [by rewrite Hi'|by rewrite Hst'].
Qed.
Lemma settles_machine s s' : settles s s' → machine s.(lg_executions) s'.(lg_executions).
Proof. intros [_ [->|(r & r' & Hr & Hst & Hc & ->)]]; [constructor|by econstructor]. Qed.

Lemma complete_execution_Ok proof id result now s u s' : complete_execution proof id result now s = Ok (u, s') →
  (∃ lease, fence proof now s.(lg_db) = Ok (lease, s.(lg_db)))
  ∧ (∃ r, r ∈ s.(lg_executions) ∧ r.(er_execution_id) = id ∧ r.(er_run_id) = proof.(f_task_id)
     ∧ (s' = s ∧ r.(er_status) = ReceiptCompleted
        ∨ ∃ r', r.(er_status) = ReceiptAdmitted ∧ serialized (with_outcome r ReceiptCompleted (Some result) r.(er_resolution) None) s = Ok (r', s)
          ∧ s' = mkLedger s.(lg_db) (replace r' s.(lg_executions)) s.(lg_barriers) s.(lg_bindings))).
Proof.
  unfold complete_execution. intros E. inv_st.
  match goal with H : on_db (fence _ _) _ = _ |- _ => apply on_db_fence in H as [-> Hf] end.
  split; [by eexists|].
  match goal with H : find_execution _ _ _ = _ |- _ => apply find_execution_Ok in H as [-> Hfind] end.
  match goal with H : ok_or _ _ = _ |- _ => apply ok_or_Ok in H as -> end. destruct (Hfind _ eq_refl) as (Hr & Hid & Hrun).
  match goal with H : read_execution_receipt _ = _ |- _ => apply read_execution_receipt_Ok in H as -> end.
  eexists. split_and!; [exact Hr|exact Hid|exact Hrun|]. case_run E; inv_st; [left; split; [done|by eapply bool_decide_eq_true_1]|].
  right. match goal with H : serialized _ _ = _ |- _ => pose proof H as Hs; apply serialized_Ok in H as (-> & _) end.
  match goal with H : read_execution_receipt _ = _ |- _ => apply read_execution_receipt_Ok in H as -> end.
  apply write_record_Ok in E. eexists. split_and!; [by eapply bool_decide_eq_true_1|exact Hs|exact E].
Qed.

Lemma complete_not_started_settles proof attempt id result s b s' :
  complete_execution_not_started proof attempt id result s = Ok (b, s') →
  settles s s'.
Proof.
  unfold complete_execution_not_started. intros E. inv_st.
  match goal with H : find_execution _ _ _ = _ |- _ => apply find_execution_Ok in H as [-> Hfind] end.
  case_run E; inv_st; [|apply settles_refl]. destruct (Hfind _ eq_refl) as (Hr & _).
  match goal with H : read_execution_receipt _ = _ |- _ => apply read_execution_receipt_Ok in H as -> end.
  case_run E; inv_st; [apply settles_refl|]. case_run E; inv_st; [apply settles_refl|].
  match goal with H : serialized _ _ = _ |- _ => pose proof H as Hs; apply serialized_Ok in H as (-> & _) end.
  match goal with H : write_record _ _ = _ |- _ => apply write_record_Ok in H as -> end.
  eapply settles_replace; [exact Hr|by apply negb_false_iff|exact Hs|done..].
Qed.

Lemma resolve_execution_settles id request s r s' : resolve_execution id request s = Ok (r, s') → settles s s'.
Proof.
  unfold resolve_execution. intros E. inv_st.
  match goal with H : ok_or _ _ = _ |- _ => apply ok_or_Ok in H; apply find_by_Some in H as [Hr _] end.
  match goal with H : read_execution_receipt _ = _ |- _ => apply read_execution_receipt_Ok in H as -> end.
  case_run E; [repeat (case_run E; inv_st); apply settles_refl|]. inv_st.
  match goal with H : on_db (get _) _ = _ |- _ => apply on_db_get in H as [-> ->] end.
  match goal with H : serialized _ _ = _ |- _ => pose proof H as Hs; apply serialized_Ok in H as (-> & _) end.
  match goal with H : write_record _ _ = _ |- _ => apply write_record_Ok in H as -> end.
  match goal with H : clear_barriers _ _ = _ |- _ => unfold clear_barriers, set_barriers in H; inv_st end.
  match goal with H : read_execution_receipt _ = _ |- _ => apply read_execution_receipt_Ok in H as -> end.
  eapply settles_replace; [exact Hr|by apply negb_false_iff|exact Hs|done| |done|done]. simpl. by destruct (re_outcome request).
Qed.

Lemma insert_barrier_settles b s u s' : insert_barrier b s = Ok (u, s') → settles s s'.
Proof. unfold insert_barrier, set_barriers. intros E. repeat (case_run E; inv_st). all: split; [done|by left]. Qed.

(** What a job does to the store, and to the receipts. *)
Lemma exec_ledger_Ok op s u s' : exec_ledger op s = Ok (u, s') →
  (∃ o d, op = LStore o ∧ exec o s.(lg_db) = Ok (tt, d) ∧ lg_db s' = d
    ∧ s'.(lg_executions) = filter_by (λ r, is_some (find_row r.(er_run_id) d.(db_tasks))) s.(lg_executions))
  ∨ (∃ proof a, op = LAdmit proof a ∧ admit_execution proof a s = Ok (true, s') ∧ admitted_at proof a s
     ∧ s' = mkLedger s.(lg_db) (s.(lg_executions) ++ [admitted_record proof a]) s.(lg_barriers) s.(lg_bindings))
  ∨ settles s s' ∧ admitted_now s op = [].
Proof.
  destruct op as [o|proof a|proof id result now|proof attempt id result|id request|b|bindings]; simpl; unfold lignore; intros E; inv_st.
  - left. match goal with H : on_db _ _ = Ok (?x, _) |- _ => destruct x; apply on_db_Ok in H as (d & E & ->) end. by exists o, d.
  - right. match goal with H : admit_execution _ _ _ = _ |- _ => pose proof H as Hadm; apply admit_execution_Ok in H as [[-> ->]|(-> & Hs & Ha)] end;
      [right; split; [apply settles_refl|unfold admitted_now; by rewrite Hadm]|left; by exists proof, a].
  - right; right. apply complete_execution_Ok in E as (_ & r & Hr & _ & _ & [[-> _]|(r' & Hst & Hs & ->)]); (split; [|done]); [apply settles_refl|].
    eapply settles_replace; [exact Hr|by apply bool_decide_eq_true|exact Hs|done..].
  - right; right. split; [|done]. by eapply complete_not_started_settles.
  - right; right. split; [|done]. by eapply resolve_execution_settles.
  - right; right. split; [|done]. by eapply insert_barrier_settles.
  - right; right. split; [|done]. split; [done|by left].
Qed.

(** C23: The receipts refine their abstract machine: whatever job the worker
    runs on whatever ledger, with whatever result, the table of receipts
    either stays, or gains one open receipt with a fresh identity and an
    unspent approval that names the open receipt it repeats, or has one open
    receipt closed in place, or loses every receipt of some runs. *)
Theorem ledger_refines_machine s op : machine s.(lg_executions) (ledger_step s op).(lg_executions).
Proof.
  unfold ledger_step, atomic. destruct (exec_ledger op s) as [[u s']|] eqn:E; simpl; [|constructor].
  apply exec_ledger_Ok in E as [(o & d & -> & E & <- & ->)|[(proof & a & _ & _ & Ha & ->)|[Hs _]]];
    [|by apply admitted_machine|by apply settles_machine].
  apply (machine_forget _ (λ run, is_some (find_row run (db_tasks (lg_db s'))))).
Qed.

(** ** Reachable ledgers *)

Definition store_ops (ops : list LedgerOp) : list Op := omap (λ op, match op with LStore op => Some op | _ => None end) ops.
Definition typed_ledger (op : LedgerOp) : bool := match op with LStore op => typed_op op | _ => true end.
Definition keeps_ledger (op : LedgerOp) : bool := match op with LStore op => keeps_tasks op | _ => true end.

(** Every receipt belongs to a task. *)
Definition filed (s : Ledger) : Prop :=
  ∀ r, r ∈ s.(lg_executions) → is_some (find_row r.(er_run_id) s.(lg_db).(db_tasks)) = true.
Definition ledger_ok (s : Ledger) : Prop := keys_ok s.(lg_db) ∧ filed s ∧ receipts_ok s.(lg_executions).

(** The jobs beside the store's leave the store. *)
Lemma ledger_step_db s op :
  lg_db (ledger_step s op) = match op with LStore o => step s.(lg_db) o | _ => s.(lg_db) end.
Proof.
  unfold ledger_step, step, atomic. destruct (exec_ledger op s) as [[u s']|] eqn:E; simpl.
  - pose proof E as E0. apply exec_ledger_Ok in E as [(o & d & -> & E & <- & _)|[(proof & a & -> & _ & _ & ->)|[[Hdb _] _]]]; [by rewrite E|done|].
    rewrite Hdb. destruct op; try done. simpl in E0. inv_st.
    match goal with H : on_db _ _ = Ok _ |- _ => apply on_db_Ok in H as (d & E & ->) end. simpl in Hdb. by rewrite E, Hdb.
  - destruct op as [o| | | | | |]; try done. simpl in E. destruct (exec o (lg_db s)) as [[[] d]|] eqn:Eo; [|done].
    simpl in E. unfold on_db, mbind, st_bind in E. by rewrite Eo in E.
Qed.
Lemma ledger_run_db ops s : lg_db (ledger_run ops s) = run (store_ops ops) s.(lg_db).
Proof.
  unfold ledger_run, run. revert s. induction ops as [|op ops IH]; intros s; [done|]. simpl. rewrite IH, ledger_step_db. by destruct op.
Qed.
Lemma typed_store ops : forallb typed_ledger ops = true → forallb typed_op (store_ops ops) = true.
Proof. induction ops as [|op ops IH]; [done|]. simpl. intros [H1 H2]%andb_true_iff. destruct op; simpl in *; rewrite ?H1; by apply IH. Qed.

Lemma replace_runs r r' rows x : r ∈ rows → closes r r' → x ∈ replace r' rows → ∃ y, y ∈ rows ∧ x.(er_run_id) = y.(er_run_id).
Proof.
  unfold replace. intros Hr [Hi _] Hx. apply list_elem_of_In, in_map_iff in Hx as (y & <- & Hy). apply list_elem_of_In in Hy.
  destruct (has_id _ y); [|by exists y]. exists r. split; [done|]. by apply identity_fields in Hi as (_ & -> & _).
Qed.
Lemma filed_step s op : filed s → filed (ledger_step s op).
Proof.
  intros Hf. unfold ledger_step, atomic. destruct (exec_ledger op s) as [[u s']|] eqn:E; simpl; [|done].
  apply exec_ledger_Ok in E as [(o & d & -> & E & <- & Hrows)|[(proof & a & -> & _ & Ha & ->)|[[Hdb Hrows] _]]]; intros r Hr.
  - rewrite Hrows in Hr. by apply elem_of_filter_by in Hr as [? _].
  - simpl in *. apply elem_of_app in Hr as [Hr|Hr]; [by apply Hf|]. apply list_elem_of_singleton in Hr as ->. by eapply aa_task.
  - rewrite Hdb. destruct Hrows as [Hrows|(x & x' & Hx & _ & Hc & Hrows)]; rewrite Hrows in Hr; [by apply Hf|].
    destruct (replace_runs _ _ _ _ Hx Hc Hr) as (y & Hy & ->). by apply Hf.
Qed.

Lemma ledger_ok_run file ops : forallb typed_ledger ops = true → ledger_ok (ledger_run ops (empty_ledger file)).
Proof.
  intros Hty. split; [rewrite ledger_run_db; by apply keys_run, typed_store|].
  assert (filed (empty_ledger file) ∧ receipts_ok (lg_executions (empty_ledger file))) as H0.
  { split; [by intros r ?%elem_of_nil|]. split; simpl; [constructor..|done|by intros r ?%elem_of_nil]. }
  clear Hty. revert H0. generalize (empty_ledger file). unfold ledger_run.
  induction ops as [|op ops IH]; intros s [Hf Hok]; [done|]. simpl. apply IH.
  split; [by apply filed_step|]. by apply (machine_step _ _ (ledger_refines_machine s op)).
Qed.

(** While the tasks are kept, so are the receipts, each later on; new ones
    are those of the admissions. *)
Definition logs (s s' : Ledger) (admitted : list ExecutionReceiptAdmission) : Prop := ∃ old new,
  s'.(lg_executions) = old ++ new ∧ Forall2 later s.(lg_executions) old
  ∧ map er_execution_id new = map ad_execution_id admitted
  ∧ omap er_approval_request_id new = omap ad_approval_request_id admitted.
Lemma logs_refl s : logs s s [].
Proof. exists s.(lg_executions), []. rewrite app_nil_r. split_and!; [done|apply later_refl|done|done]. Qed.
Lemma later_trans r1 r2 r3 : later r1 r2 → later r2 r3 → later r1 r3.
Proof.
  intros [Hi1 H1] [Hi2 H2]. split; [by rewrite Hi2|]. intros Hst. specialize (H1 Hst). subst r2. by apply H2.
Qed.
Lemma logs_trans s1 s2 s3 as1 as2 : logs s1 s2 as1 → logs s2 s3 as2 → logs s1 s3 (as1 ++ as2).
Proof.
  intros (old1 & new1 & E1 & Hl1 & Hid1 & Happ1) (old2 & new2 & E2 & Hl2 & Hid2 & Happ2).
  rewrite E1 in Hl2. apply Forall2_app_inv_l in Hl2 as (old & mid & Hold & Hmid & ->).
  exists old, (mid ++ new2). rewrite E2, app_assoc, !map_app, !omap_app, Hid2, Happ2, <-Hid1, <-Happ1. split_and!; [done| | |].
  - clear -Hl1 Hold. revert old Hold. induction Hl1 as [|x y l k Hxy _ IH]; intros old Hold; inversion Hold; subst; constructor;
      [by eapply later_trans|by apply IH].
  - f_equal. apply later_map; [|done]. by intros r r' (-> & _)%identity_fields.
  - f_equal. by apply later_approvals.
Qed.

Lemma ledger_step_logs s op : ledger_ok s → typed_ledger op = true → keeps_ledger op = true →
  logs s (ledger_step s op) (admitted_now s op).
Proof.
  intros (Hk & Hf & Hok) Hty Hkeep. unfold ledger_step, atomic.
  destruct (exec_ledger op s) as [[u s']|e] eqn:E; simpl.
  - pose proof E as E0. apply exec_ledger_Ok in E as [(o & d & -> & E & <- & Hrows)|[(proof & a & -> & Hadm & _ & ->)|[[_ Hrows] ->]]].
    + exists (lg_executions s), []. rewrite app_nil_r, Hrows. split_and!; [|apply later_refl|done|done].
      apply filter_by_all. intros r Hr. specialize (Hf r Hr).
      destruct (find_row _ (db_tasks (lg_db s))) as [t|] eqn:Et; [|done].
      destruct (evolve_exec evolves (λ _, True) o Hkeep Hty (λ _, _) (λ _, _) _ _ _ E Hk) as (_ & Hold & _).
      by destruct (Hold _ _ Et) as (t' & -> & _).
    + exists (lg_executions s), [admitted_record proof a]. simpl. rewrite Hadm. split_and!; [done|apply later_refl|done|done].
    + destruct Hrows as [Hrows|(r & r' & Hr & Hst & Hc & Hrows)].
      * exists (lg_executions s), []. rewrite app_nil_r. split_and!; [done|apply later_refl|done|done].
      * exists (replace r' (lg_executions s)), []. rewrite app_nil_r. split_and!; [done| |done|done].
        by eapply replace_later; [apply Hok|..].
  - assert (admitted_now s op = []) as ->; [|apply logs_refl]. destruct op as [|proof a| | | | |]; try done. simpl in *.
    destruct (admit_execution proof a s) as [[b s']|] eqn:Ea; [|done]. unfold lignore, mbind, st_bind in E. by rewrite Ea in E.
Qed.

Lemma ledger_ok_step s op : ledger_ok s → typed_ledger op = true → keeps_ledger op = true → ledger_ok (ledger_step s op).
Proof.
  intros (Hk & Hf & Hok) Hty Hkeep. split; [|split; [by apply filed_step|by apply (machine_step _ _ (ledger_refines_machine s op))]].
  rewrite ledger_step_db. destruct op as [o| | | | | |]; [|done..].
  assert (evolve evolves (λ _, True) (lg_db s) (step (lg_db s) o)) as He; [|by apply He].
  apply step_within; [apply _|]. exact (evolve_exec evolves (λ _, True) o Hkeep Hty (λ _, _) (λ _, _)).
Qed.
Lemma ledger_run_logs ops s : ledger_ok s → forallb typed_ledger ops = true → forallb keeps_ledger ops = true →
  logs s (ledger_run ops s) (admissions ops s) ∧ ledger_ok (ledger_run ops s).
Proof.
  unfold ledger_run. revert s. induction ops as [|op ops IH]; intros s Hs; [split; [apply logs_refl|done]|].
  simpl. intros [Hty Htys]%andb_true_iff [Hk Hks]%andb_true_iff.
  destruct (IH _ (ledger_ok_step _ _ Hs Hty Hk) Htys Hks) as [Hl Hok]. split; [|done].
  eapply logs_trans; [by apply ledger_step_logs|exact Hl].
Qed.
End ledger.
