(* ===== verification/ReceiptSafety.v ===== *)
(** * Effects happen at most once

    What the machine of the receipts gives whoever asks for an admission: one
    admission for an execution and for an approval, a repeat that answers for
    what it repeats, an outcome that is written once, evidence that blocks
    when it cannot be read, and an operator who can always close a receipt. *)

From S2P Require Export ReceiptLaws.
Local Open Scope Z_scope.

Section safety.
Context {host : Host} {digests : Digests}.

(** ** The promises *)

(** A mutating body runs at most once: it may run only on an admission
    answered [true], and whatever jobs the worker runs, in whatever order, as
    long as the runs' tasks are kept no two admissions answered [true] have
    the same execution identity, and no two spend the same approval; those
    since recorded are the receipts that follow the older ones, in the order
    of the admissions. *)
Theorem admitted_once file before after :
  let s := ledger_run before (empty_ledger file) in
  let s' := ledger_run after s in
  forallb typed_ledger before = true → forallb typed_ledger after = true → forallb keeps_ledger after = true →
  NoDup (map ad_execution_id (admissions after s)) ∧ NoDup (omap ad_approval_request_id (admissions after s))
  ∧ map er_execution_id s'.(lg_executions)
    = map er_execution_id s.(lg_executions) ++ map ad_execution_id (admissions after s).
Proof.
  intros s s' Hb Ha Hk. destruct (ledger_run_logs after s (ledger_ok_run file before Hb) Ha Hk) as
    [(old & new & E & Hl & Hid & Happ) (_ & _ & [H1 H2 _ _])]. fold s' in E, H1, H2.
  rewrite <-Hid, <-Happ, E. rewrite E, map_app in H1. rewrite E, omap_app in H2.
  apply NoDup_app in H1 as (_ & _ & H1). apply NoDup_app in H2 as (_ & _ & H2). split_and!; [done|done|].
  rewrite map_app. f_equal. apply later_map; [|done]. by intros r r' (-> & _)%identity_fields.
Qed.

(** An outcome is written once: while its run's task is kept, a receipt
    of any reachable ledger stays in the table with its identity, and once it
    is completed or resolved nothing rewrites its status, its result or its
    resolution. *)
Theorem outcome_written_once file before after r :
  let s := ledger_run before (empty_ledger file) in
  forallb typed_ledger before = true → forallb typed_ledger after = true → forallb keeps_ledger after = true →
  r ∈ s.(lg_executions) →
  ∃ r', find_by (has_id r.(er_execution_id)) (ledger_run after s).(lg_executions) = Some r'
    ∧ identity r' = identity r ∧ (r.(er_status) ≠ ReceiptAdmitted → r' = r).
Proof.
  intros s Hb Ha Hk Hr. destruct (ledger_run_logs after s (ledger_ok_run file before Hb) Ha Hk) as
    [(old & new & E & Hl & _) (_ & _ & Hok)]. pose proof (ro_ids _ Hok) as Hn. rewrite E in *. clear -Hr Hl Hn.
  induction Hl as [|x x' l l' [Hi Hx] _ IH]; [by apply elem_of_nil in Hr|]. simpl in *. apply NoDup_cons in Hn as [Hn1 Hn].
  pose proof (identity_fields _ _ Hi) as (Hid & _).
  apply elem_of_cons in Hr as [->|Hr].
  - exists x'. rewrite (proj2 (has_id_spec _ _) Hid). done.
  - destruct (IH Hr Hn) as (r' & Hf & Hir & Hc). exists r'.
    destruct (has_id (er_execution_id r) x') eqn:Ex; [|done]. exfalso. apply Hn1. apply has_id_spec in Ex. rewrite Ex.
    apply find_by_Some in Hf as [Hin Hf]. apply has_id_spec in Hf. rewrite <-Hf. by apply (list_elem_of_fmap_2 er_execution_id).
Qed.

(** A repeat answers for what it repeats: in every reachable ledger, when
    the last earlier receipt that may be of the same operation (its run, tool,
    context and arguments) is still open, the later receipt names exactly that
    one, on an approval that no other receipt carries. *)
Theorem repeat_names_the_open file ops older r newer r' :
  (ledger_run ops (empty_ledger file)).(lg_executions) = older ++ r :: newer →
  forallb typed_ledger ops = true →
  find_by (kindred r) (rev older) = Some r' → same_args r r' = true → r'.(er_status) = ReceiptAdmitted →
  r.(er_approval_generation) = Some r'.(er_execution_id)
  ∧ ∃ id, r.(er_approval_request_id) = Some id ∧ ∀ x, x ∈ older ++ newer → x.(er_approval_request_id) ≠ Some id.
Proof.
  intros E Hty Hfind Hargs Hst. destruct (ledger_ok_run file ops Hty) as (_ & _ & [_ H2 H3 H4]). rewrite E in *.
  rewrite rev_app_distr in H3. simpl in H3. rewrite <-app_assoc in H3.
  assert (answers_for r (rev older)) as Ha.
  { clear -H3. induction (rev newer) as [|y l IH]; [apply H3|]. apply IH. apply H3. }
  pose proof (Ha _ Hfind Hargs (bool_decide_eq_true_2 _ Hst)) as Hgen. split; [done|].
  assert (er_approval_request_id r ≠ None) as Happ.
  { apply H4; [apply elem_of_app; right; left|by rewrite Hgen]. }
  destruct (er_approval_request_id r) as [id|] eqn:Er; [|done]. exists id. split; [done|]. intros x Hx Ex.
  rewrite omap_app in H2. simpl in H2. rewrite Er in H2. apply NoDup_app in H2 as (_ & Hd & Hn). apply NoDup_cons in Hn as [Hn _].
  apply elem_of_app in Hx as [Hx|Hx].
  - apply (Hd id); [by apply list_elem_of_omap; exists x|left].
  - apply Hn. apply list_elem_of_omap. by exists x.
Qed.

(** *** What an approval is *)

Record authorizes (request : AgentInputRecord) (a : ExecutionReceiptAdmission) : Prop := {
  au_answered : request.(i_kind) = HumanRequest ∧ request.(i_status) = Answered;
  au_run : request.(i_session_id) = a.(ad_chat_id) ∧ request.(i_target_task_id) = Some a.(ad_run_id);
  au_call : request.(i_tool_call_id) = Some a.(ad_tool_call_id)
    ∧ str_at request.(i_content) "toolName" = Some a.(ad_tool_name)
    ∧ str_at request.(i_content) "argsSha256" = Some a.(ad_args_sha256);
  au_context : match vget request.(i_content) "contextSha256" with
               | Some (VStr hash) => hash = a.(ad_context_sha256)
               | Some _ => False
               | None => True
               end
}.
Lemma ostr_eqb_spec o o' : ostr_eqb o o' = true → o = o'.
Proof. apply bool_decide_eq_true_1. Qed.
Lemma approves_spec request id a : approves request id a = true → authorizes request a.
Proof.
  unfold approves. intros H. apply negb_true_iff in H. rewrite !orb_false_iff, !negb_false_iff in H.
  decompose [and] H. clear H.
  repeat match goal with
  | H : ostr_eqb _ _ = true |- _ => apply ostr_eqb_spec in H
  | H : bool_decide _ = true |- _ => apply bool_decide_eq_true_1 in H
  | H : String.eqb _ _ = true |- _ => apply String.eqb_eq in H
  end.
  split; [done..|]. destruct (vget (i_content request) "contextSha256") as [[]|]; simpl in *; try done.
  match goal with H : negb (ostr_eqb (Some _) _) = false |- _ => apply negb_false_iff, ostr_eqb_spec in H; by injection H end.
Qed.

(** What [true] means: the caller holds the run's lease, the execution
    and its approval are new, and every open receipt and every barrier that
    stands against the operation is the one the answered request was about;
    that request was a person's answer about exactly this run, call, tool and
    arguments.  Nothing is written but the open receipt. *)
Theorem admission_authorized proof a s s' : admit_execution proof a s = Ok (true, s') →
  s' = mkLedger s.(lg_db) (s.(lg_executions) ++ [admitted_record proof a]) s.(lg_barriers) s.(lg_bindings)
  ∧ admitted_at proof a s
  ∧ match a.(ad_approval_request_id) with
    | None => a.(ad_approval_generation) = None
      ∧ (∀ r, rfind (same_operation a) (filter_by (of_run a.(ad_run_id)) s.(lg_executions)) = Some r → r.(er_status) ≠ ReceiptAdmitted)
    | Some id => ∃ request, find_row id s.(lg_db).(db_inputs) = Some request ∧ authorizes request a
    end.
Proof.
  intros [[_ ?]|(_ & -> & Ha)]%admit_execution_Ok; [done|]. split_and!; [done|done|].
  pose proof (aa_approval _ _ _ Ha) as Happ. pose proof (aa_previous _ _ _ Ha) as Hprev.
  destruct (ad_approval_request_id a) as [id|].
  - destruct Happ as (request & Hf & Hr). exists request. split; [done|]. by eapply approves_spec.
  - split; [done|]. intros r Hr Hst. specialize (Hprev r Hr (bool_decide_eq_true_2 _ Hst)). by rewrite Happ in Hprev.
Qed.

(** Evidence that cannot be read blocks: while a receipt of the run, or a
    barrier in its scope, is malformed no admission answers [true]. *)
Theorem unreadable_evidence_blocks proof a s s' :
  (∃ r, r ∈ s.(lg_executions) ∧ of_run a.(ad_run_id) r = true ∧ ∀ r', read_execution_receipt r ≠ Ok r')
  ∨ (∃ b, b ∈ s.(lg_barriers) ∧ in_scope s.(lg_bindings) a.(ad_chat_id) a.(ad_run_id) b = true ∧ ∀ b', read_barrier b ≠ Ok b') →
  admit_execution proof a s ≠ Ok (true, s').
Proof.
  intros Hbad E. unfold admit_execution in E. inv_st.
  match goal with H : on_db (fence _ _) _ = _ |- _ => apply on_db_fence in H as [-> _] end.
  match goal with H : validate_approval _ _ = _ |- _ => apply validate_approval_Ok in H as [-> _] end.
  match goal with H : select_barriers _ _ _ = Ok (?bs, _) |- _ => unfold select_barriers in H; inv_st end.
  case_run E; inv_st; [done|]. unfold select_run, read_rows in *. inv_st.
  destruct Hbad as [(r & Hr & Hrun & Hbad)|(b & Hb & Hsc & Hbad)].
  - match goal with H : res_mapM read_execution_receipt _ = _ |- _ => eapply res_mapM_elem in H as [r' Hr'];
      [by apply (Hbad r')|by apply elem_of_filter_by] end.
  - match goal with H : res_mapM read_barrier _ = _ |- _ => eapply res_mapM_elem in H as [b' Hb'];
      [by apply (Hbad b')|by apply elem_of_filter_by] end.
Qed.

(** *** The operator *)

Lemma find_has_id rows r : NoDup (map er_execution_id rows) → r ∈ rows → find_by (has_id r.(er_execution_id)) rows = Some r.
Proof.
  intros Hn Hr. induction rows as [|x rows IH]; [by apply elem_of_nil in Hr|]. simpl in *. apply NoDup_cons in Hn as [Hx Hn].
  destruct (has_id (er_execution_id r) x) eqn:E; apply elem_of_cons in Hr as [->|Hr]; try done; [|by rewrite (proj2 (has_id_spec _ _) eq_refl) in E|by apply IH].
  exfalso. apply Hx. apply has_id_spec in E. rewrite E. by apply (list_elem_of_fmap_2 er_execution_id).
Qed.
Lemma json_object file v : is_object v = true → is_object (json_value file v) = true.
Proof. unfold json_value. destruct file; [|done]. by destruct v. Qed.

Definition resolved_status (outcome : ResolutionOutcome) : ReceiptStatus :=
  match outcome with OutcomeCompleted => ReceiptCompleted | _ => Resolved end.
Lemma read_resolved r request resolution result :
  read_execution_receipt r = Ok r → validate_resolution request = Ok tt →
  is_some result = is_some request.(re_result) → is_none_or result is_object = true →
  resolution.(rl_outcome) = request.(re_outcome) →
  let record := with_outcome r (resolved_status request.(re_outcome)) result (Some resolution) None in
  read_execution_receipt record = Ok record.
Proof.
  unfold read_execution_receipt. simpl. intros Hr Hv Hres Hobj Hout.
  destruct (empty_text (er_execution_id r) || _); [done|]. destruct (negb (is_hex64 (er_args_sha256 r) && _)); [done|].
  destruct (is_some_and (er_approval_request_id r) empty_text || _); [done|]. clear Hr. unfold validate_resolution in Hv. rewrite Hout.
  destruct (re_outcome request), (re_result request) as [v|], result as [w|]; try done; simpl in *. by rewrite Hobj.
Qed.

(** C22: No receipt is a dead end: the operator can close any open receipt
    that reads, once its run is over, with any decision that is well formed;
    the receipt keeps its identity, carries the decision, and the barriers
    that stood for it are gone, while every other receipt is untouched. *)
Theorem open_receipt_closes s r request at_ :
  receipts_ok s.(lg_executions) → r ∈ s.(lg_executions) → r.(er_status) = ReceiptAdmitted → read_execution_receipt r = Ok r →
  is_none_or (find_row r.(er_run_id) s.(lg_db).(db_tasks)) (λ task, is_terminal task.(t_status)) = true →
  validate_resolution request = Ok tt → json_i64 request.(re_now) = Ok at_ →
  ∃ record s', resolve_execution r.(er_execution_id) request s = Ok (record, s')
    ∧ identity record = identity r ∧ record.(er_status) = resolved_status request.(re_outcome)
    ∧ record.(er_resolution) = Some (mkResolution request.(re_outcome) request.(re_note) at_ request.(re_resolved_by))
    ∧ s'.(lg_executions) = replace record s.(lg_executions) ∧ lg_db s' = lg_db s
    ∧ ∀ b, b ∈ s'.(lg_barriers) → b ∈ s.(lg_barriers) ∧ b.(ub_barrier_id) ∉ barrier_ids r.
Proof.
  intros [Hn _ _ _] Hr Hst Hread Hterm Hv Hat. unfold resolve_execution.
  pose (result := json_value (db_file (lg_db s)) <$> re_result request).
  pose (resolution := mkResolution (re_outcome request) (re_note request) at_ (re_resolved_by request)).
  pose (record := with_outcome r (resolved_status (re_outcome request)) result (Some resolution) None).
  assert (read_execution_receipt record = Ok record) as Hrecord.
  { apply (read_resolved r request); try done; unfold result; destruct (re_result request) as [v|] eqn:Ev; try done. simpl.
    apply json_object. unfold validate_resolution in Hv. rewrite Ev in Hv. destruct (re_outcome request); try done.
    by destruct (is_object v). }
  erewrite st_bind_step; [|unfold lift; by rewrite Hv]. erewrite st_bind_step; [|reflexivity]. simpl.
  rewrite (find_has_id _ _ Hn Hr). erewrite st_bind_step; [|reflexivity]. erewrite st_bind_step; [|unfold lift; by rewrite Hread].
  replace (is_admitted r) with true by (symmetry; by apply bool_decide_eq_true_2). simpl. erewrite st_bind_step; [|reflexivity].
  erewrite st_bind_step; [|unfold guard_or; by replace (negb _) with true by (by destruct (find_row _ _) as [t|]; simpl in *; rewrite ?Hterm)].
  erewrite st_bind_step; [|unfold serialized, json_execution, json_resolution, lift; simpl; by rewrite Hat].
  assert (lift (read_execution_receipt record) s = Ok (record, s)) as Hl by (unfold lift; by rewrite Hrecord).
  match goal with |- context [read_execution_receipt ?x] => change x with record end. rewrite ledger_eta.
  erewrite st_bind_step; [|exact Hl].
  eexists record, _. split; [reflexivity|]. simpl. split_and!; try done.
  intros b [Hin Hb]%elem_of_filter_by. split; [exact Hb|]. unfold mem_str in Hin.
  apply negb_true_iff, bool_decide_eq_false in Hin. exact Hin.
Qed.
End safety.

(** ** Witnesses *)

Section examples.
#[local] Existing Instance example_host.
Definition ex_hash : string := "0123456789abcdef0123456789abcdef0123456789abcdef0123456789abcdef".
#[local] Instance example_digests : Digests := {| json_sha256 := λ _, ex_hash; json_len := λ _, 2 |}.

Definition ex_admission (id : string) (approval generation : option string) (now : Z) : ExecutionReceiptAdmission :=
  mkAdmission id "t1" "chat" "call1" "write_file" ex_hash None Canonical ex_hash "attempt" approval generation now.
Definition ex_request (id generation : string) : CreateAgentInput :=
  mkCreateInput id "chat" HumanRequest
    (VObj [("kind", VStr "approval"); ("toolName", VStr "write_file"); ("argsSha256", VStr ex_hash);
           ("approvalGeneration", VStr generation); ("contextSha256", VStr ex_hash)])
    "hash" (Some "t1") None (Some "attempt") (Some "call1") None.
Definition ex_fence : LeaseFence := ex_proof "t1" ex_claimed.

(** A claimed run that admitted a write and lost its result. *)
Definition ex_lost_ops : list LedgerOp :=
  [LStore (OpSubmit (ex_submit "t1" "chat" 0)); LStore (OpClaim default_aging (ex_claim 1) u64_max);
   LAdmit ex_fence (ex_admission "e1" None None 2)].
(** The same write asked for again, then approved by a person, then admitted
    once more and completed. *)
Definition ex_again_ops : list LedgerOp :=
  [LAdmit ex_fence (ex_admission "e1" None None 3);
   LAdmit ex_fence (ex_admission "e2" None None 3);
   LStore (OpCreateInput (ex_request "i1" "e1") 3);
   LStore (OpTransitionInput "i1" [Pending] Answered (mkInputPatch None (Some "approval:m1") (Some "a1")) 4);
   LAdmit ex_fence (ex_admission "e2" (Some "i1") (Some "e1") 5);
   LAdmit ex_fence (ex_admission "e3" (Some "i1") (Some "e2") 6);
   LComplete ex_fence "e2" (VObj [("ok", VBool true)]) 7].
Definition ex_lost : Ledger := ledger_run ex_lost_ops (empty_ledger true).
Definition ex_all_ops : list LedgerOp := ex_lost_ops ++ ex_again_ops.

Example ex_again_rows :
  map (λ r, (r.(er_execution_id), r.(er_status), r.(er_approval_generation))) (ledger_run ex_all_ops (empty_ledger true)).(lg_executions)
  = [("e1", ReceiptAdmitted, None); ("e2", ReceiptCompleted, Some "e1")].
Proof. vm_compute. reflexivity. Qed.
End examples.

Lemma admitted_once_witness :
  let host := example_host in let digests := example_digests in
  map ad_execution_id (admissions ex_again_ops ex_lost) = ["e2"]
  ∧ NoDup (omap ad_approval_request_id (admissions ex_again_ops ex_lost)).
Proof.
  intros host digests. split; [vm_compute; reflexivity|].
  by apply (admitted_once true ex_lost_ops ex_again_ops).
Defined.

Lemma outcome_written_once_witness :
  let host := example_host in let digests := example_digests in
  ∃ r, last (ledger_run ex_all_ops (empty_ledger true)).(lg_executions) = Some r ∧ r.(er_status) = ReceiptCompleted
  ∧ ∃ r', find_by (has_id r.(er_execution_id))
      (ledger_run [LComplete ex_fence "e2" (VObj [("ok", VBool false)]) 8] (ledger_run ex_all_ops (empty_ledger true))).(lg_executions) = Some r'
    ∧ identity r' = identity r ∧ (r.(er_status) ≠ ReceiptAdmitted → r' = r).
Proof.
  intros host digests. destruct (ledger_run ex_all_ops (empty_ledger true)).(lg_executions) as [|r0 [|r [|x l]]] eqn:E;
    [vm_compute in E; discriminate E..| |vm_compute in E; discriminate E].
  exists r. split; [reflexivity|]. split; [vm_compute in E; by injection E as <- <-|].
  apply (outcome_written_once (host := example_host) (digests := example_digests) true ex_all_ops
    [LComplete ex_fence "e2" (VObj [("ok", VBool false)]) 8] r eq_refl eq_refl eq_refl).
  change (r ∈ (ledger_run ex_all_ops (empty_ledger true)).(lg_executions)). rewrite E. right. left.
Defined.

Lemma repeat_names_the_open_witness :
  let host := example_host in let digests := example_digests in
  ∃ r, last (ledger_run ex_all_ops (empty_ledger true)).(lg_executions) = Some r ∧ r.(er_approval_generation) = Some "e1".
Proof.
  intros host digests. destruct (ledger_run ex_all_ops (empty_ledger true)).(lg_executions) as [|r' [|r [|x l]]] eqn:E;
    [vm_compute in E; discriminate E..| |vm_compute in E; discriminate E].
  exists r. split; [reflexivity|].
  destruct (repeat_names_the_open (host := example_host) (digests := example_digests) true ex_all_ops [r'] r [] r') as [H _];
    [exact E|reflexivity|vm_compute in E; injection E as <- <-; reflexivity..|].
  rewrite H. vm_compute in E. by injection E as <- <-.
Defined.

Lemma admission_authorized_witness :
  let host := example_host in let digests := example_digests in
  admitted_at ex_fence (ex_admission "e1" None None 2) (ledger_run (take 2 ex_lost_ops) (empty_ledger true)).
Proof.
  intros host digests. destruct (admit_execution ex_fence (ex_admission "e1" None None 2)
    (ledger_run (take 2 ex_lost_ops) (empty_ledger true))) as [[b s']|e] eqn:E; [|vm_compute in E; discriminate E].
  destruct b; [|vm_compute in E; discriminate E]. by apply (admission_authorized _ _ _ s' E).
Defined.

(** A barrier of the chat whose hash is no digest. *)
Definition ex_bad_barrier (s : Ledger) : Ledger :=
  mkLedger s.(lg_db) s.(lg_executions) [mkBarrier "b" (Some "chat") None "write_file" (Some "zz") Canonical "lost"] s.(lg_bindings).
Lemma unreadable_evidence_blocks_witness :
  let host := example_host in let digests := example_digests in
  ∀ s', admit_execution ex_fence (ex_admission "e1" None None 2)
    (ex_bad_barrier (ledger_run (take 2 ex_lost_ops) (empty_ledger true))) ≠ Ok (true, s').
Proof.
  intros host digests s'. apply unreadable_evidence_blocks. right.
  eexists. split; [left|]. split; [reflexivity|]. by intros b'.
Defined.

Definition ex_ended_ops : list LedgerOp := ex_lost_ops ++ [LStore (OpSettle (ex_settle ex_fence 8))].
Definition ex_acknowledge : ResolveExecution := mkResolve Acknowledged None (Some "seen") (Some "operator") 9.
Lemma open_receipt_closes_witness :
  let host := example_host in let digests := example_digests in
  let s := ledger_run ex_ended_ops (empty_ledger true) in
  ∃ r record s', r ∈ s.(lg_executions) ∧ resolve_execution r.(er_execution_id) ex_acknowledge s = Ok (record, s')
    ∧ record.(er_status) = Resolved.
Proof.
  intros host digests s. destruct s.(lg_executions) as [|r l] eqn:E; [vm_compute in E; discriminate E|].
  destruct (open_receipt_closes s r ex_acknowledge 9) as (record & s' & H & _ & Hst & _).
  - by apply (ledger_ok_run true ex_ended_ops).
  - rewrite E. left.
  - vm_compute in E. by injection E as <- <-.
  - vm_compute in E. injection E as <- <-. vm_compute. reflexivity.
  - vm_compute in E. injection E as <- <-. vm_compute. reflexivity.
  - reflexivity.
  - reflexivity.
  - exists r, record, s'. split; [left|]. split; [exact H|exact Hst].
Defined.
