(* ===== verification/GuardedRace.v ===== *)
(** * Guarded calls against one ledger

    Any number of calls under way at once, in any number of attempts, hosts
    and chats, their questions to the store answered by the ledger of
    [Receipts] and interleaved with any other jobs; and that no receipt ever
    lets two bodies begin. *)

From S2P Require Export GuardedLaws ReceiptSafety.
From S2P Require Import Envelope RunModel.
Local Open Scope Z_scope.

Section race.
Context {host : Host} {digests : Digests} {text_digest : TextDigest} {results : ResultJson} {lower : LowerExp}.

(** ** The system *)

(** A call under way: what it was called with, what it has learnt, and what
    is left of it. *)
Record Call := mkCall {
  cl_self : GuardedTool;
  cl_context : CallContext;
  cl_input : Value;
  cl_ghost : Ghost;
  cl_rest : P ToolResult
}.
Definition called (self : GuardedTool) (context : CallContext) (input : Value) : Call :=
  mkCall self context input unseen (execute self context input).
Definition answered {X} (c : Call) (q : Query X) (k : X → P ToolResult) (x : X) : Call :=
  mkCall c.(cl_self) c.(cl_context) c.(cl_input) (seen q x c.(cl_ghost)) (k x).

(** The ledger, the calls, and the receipts bodies began under, in order. *)
Record System := mkSystem {
  sy_ledger : Ledger;
  sy_calls : list Call;
  sy_started : list string
}.

Definition answer_of {A} (m : LM A) (s : Ledger) : Res StoreError A :=
  match m s with Ok (a, _) => Ok a | Err e => Err e end.
(** A question the store answers by looking: the rows, or a failure. *)
Definition looks {A} (m : LM A) (s : Ledger) (x : Res StoreError A) (s' : Ledger) : Prop :=
  s' = s ∧ (x = answer_of m s ∨ ∃ e, x = Err e).
(** A question that is a job: its outcome; or a failure that reached the
    caller, whether or not the job was run. *)
Definition runs {A} (op : LedgerOp) (m : LM A) (s : Ledger) (x : Res StoreError A) (s' : Ledger) : Prop :=
  s' = ledger_step s op ∧ x = answer_of m s ∨ (s' = s ∨ s' = ledger_step s op) ∧ ∃ e, x = Err e.
Definition reply {X} (q : Query X) (s : Ledger) : X → Ledger → Prop :=
  match q with
  | QListExecutions run_id => looks (list_executions run_id) s
  | QListByChat chat_id => looks (list_executions_by_chat chat_id) s
  | QListBarriers chat_id run_id => looks (list_uncertainty_barriers chat_id run_id) s
  | QGetChat chat_id => looks (on_db (get (A := ChatRecord) chat_id)) s
  | QAdmit proof a => runs (LAdmit proof a) (admit_execution proof a) s
  | QComplete proof id result now => runs (LComplete proof id result now) (complete_execution proof id result now) s
  | QNotStarted proof attempt_id id result =>
      runs (LNotStarted proof attempt_id id result) (complete_execution_not_started proof attempt_id id result) s
  | _ => λ _ s', s' = s
  end.
Definition begun {X} (q : Query X) : list string :=
  match q with QStart (Some id) _ => [id] | _ => [] end.

Inductive sys_step : System → System → Prop :=
  | sys_job op s calls started : typed_ledger op = true → keeps_ledger op = true →
      sys_step (mkSystem s calls started) (mkSystem (ledger_step s op) calls started)
  | sys_call self context input s calls started :
      sys_step (mkSystem s calls started) (mkSystem s (calls ++ [called self context input]) started)
  | sys_answer i c {X} (q : Query X) k x s s' calls started : calls !! i = Some c → c.(cl_rest) = PAsk q k → reply q s x s' →
      sys_step (mkSystem s calls started) (mkSystem s' (<[i := answered c q k x]> calls) (started ++ begun q))
  | sys_drop i s calls started :
      sys_step (mkSystem s calls started) (mkSystem s (delete i calls) started).

(** ** The receipts in hand *)

(** The receipt a call has just been granted and may begin under. *)
Definition token (c : Call) : list string :=
  match c.(cl_ghost).(gh_admitted) with Some (_, a) => [a.(ad_execution_id)] | None => [] end.
Definition tokens (calls : list Call) : list string := flat_map token calls.
Definition granted (op : LedgerOp) (s : Ledger) : list string := map ad_execution_id (admitted_now s op).

Lemma tokens_insert i c c' calls : calls !! i = Some c → ∃ rest,
  tokens calls ≡ₚ token c ++ rest ∧ tokens (<[i := c']> calls) ≡ₚ token c' ++ rest.
Proof.
  intros Hi. pose proof (lookup_lt_Some _ _ _ Hi) as Hlt. exists (tokens (take i calls) ++ tokens (drop (S i) calls)).
  rewrite insert_take_drop by done. rewrite <-(take_drop_middle calls i c Hi) at 1. unfold tokens.
  rewrite !flat_map_app. simpl. split; by rewrite Permutation_app_swap_app.
Qed.
Lemma tokens_delete i calls : tokens (delete i calls) ⊆+ tokens calls.
Proof.
  rewrite delete_take_drop. destruct (calls !! i) as [c|] eqn:Hi.
  2:{ apply lookup_ge_None in Hi. by rewrite take_ge, drop_ge, app_nil_r by lia. }
  rewrite <-(take_drop_middle calls i c Hi) at 3. unfold tokens. rewrite !flat_map_app. simpl.
  apply submseteq_skips_l, submseteq_inserts_l. done.
Qed.

(** What is left of a call is as its logic says. *)
Definition call_ok (c : Call) : Prop :=
  wp (authorized c.(cl_self) c.(cl_context) c.(cl_input)) c.(cl_ghost) c.(cl_rest) (ok recorded_first).
Lemma called_ok self context input : call_ok (called self context input).
Proof. apply wp_execute. Qed.

(** An answer adds no receipt to those in hand but the one just granted, and
    a body that begins has its receipt in hand. *)
Definition gained {X} (q : Query X) : X → list string :=
  match q with QAdmit _ a => λ r, match r with Ok true => [a.(ad_execution_id)] | _ => [] end | _ => λ _, [] end.
Lemma token_answered {X} (c : Call) (q : Query X) k x : token (answered c q k x) = gained q x.
Proof. destruct q; try done; unfold token; cbn [answered cl_ghost seen gained]; by destruct x as [[]|]. Qed.
Lemma begun_token {X} (c : Call) (q : Query X) k : call_ok c → c.(cl_rest) = PAsk q k → begun q ⊆+ token c.
Proof.
  unfold call_ok. intros Hok Hrest. rewrite Hrest in Hok. destruct q; try apply submseteq_nil_l. destruct receipt as [id|]; [|apply submseteq_nil_l].
  destruct Hok as [Ha _]. cbn [allowed] in Ha. destruct Ha as (_ & _ & _ & _ & H).
  destruct (cb_durable _) as [d|]; [|done]. destruct (needs_receipt d _); [|done].
  destruct H as (call & now & _ & _ & _ & Hadm & [= ->]). unfold token. by rewrite Hadm.
Qed.

(** The jobs an answer stands for. *)
Lemma reply_jobs {X} (q : Query X) s x s' : reply q s x s' → ∃ ops,
  s' = ledger_run ops s ∧ forallb typed_ledger ops = true ∧ forallb keeps_ledger ops = true
  ∧ gained q x ⊆+ map ad_execution_id (admissions ops s).
Proof.
  assert (∀ s' : Ledger, s' = s → gained q x = [] → ∃ ops, s' = ledger_run ops s ∧ forallb typed_ledger ops = true ∧ forallb keeps_ledger ops = true
    ∧ gained q x ⊆+ map ad_execution_id (admissions ops s)) as Hnone.
  { intros ? -> ->. exists []. split_and!; try done. }
  assert (∀ op (s' : Ledger), s' = ledger_step s op → typed_ledger op = true → keeps_ledger op = true → gained q x ⊆+ granted op s →
    ∃ ops, s' = ledger_run ops s ∧ forallb typed_ledger ops = true ∧ forallb keeps_ledger ops = true
    ∧ gained q x ⊆+ map ad_execution_id (admissions ops s)) as Hone.
  { intros op ? -> Ht Hk Hg. exists [op]. simpl. rewrite Ht, Hk, app_nil_r. by split_and!. }
  destruct q; cbn [reply]; unfold looks, runs; try (by intros [-> _]; apply Hnone); try (by intros ->; apply Hnone).
  - intros [[-> ->]|[[->| ->] [e ->]]]; [|by apply Hnone|by eapply Hone; [done..|apply submseteq_nil_l]].
    eapply Hone; [done..|]. unfold granted, answer_of. simpl. by destruct (admit_execution proof a s) as [[[] ?]|].
  - intros [[-> _]|[[->| ->] _]]; [|by apply Hnone|]; by eapply Hone; [done..|apply submseteq_nil_l].
  - intros [[-> _]|[[->| ->] _]]; [|by apply Hnone|]; by eapply Hone; [done..|apply submseteq_nil_l].
Qed.

Lemma admissions_app ops1 ops2 s : admissions (ops1 ++ ops2) s = admissions ops1 s ++ admissions ops2 (ledger_run ops1 s).
Proof. revert s. induction ops1 as [|op ops1 IH]; intros s; [done|]. simpl. by rewrite IH, app_assoc. Qed.
Lemma ledger_run_app ops1 ops2 s : ledger_run (ops1 ++ ops2) s = ledger_run ops2 (ledger_run ops1 s).
Proof. apply foldl_app. Qed.

(** ** The invariant *)

(** The ledger is the work of its jobs, and the receipts begun under and
    those in hand are among the ones granted, each used once. *)
Definition sys_inv (s0 : Ledger) (y : System) : Prop :=
  Forall call_ok y.(sy_calls) ∧ ∃ ops,
    y.(sy_ledger) = ledger_run ops s0 ∧ forallb typed_ledger ops = true ∧ forallb keeps_ledger ops = true
    ∧ y.(sy_started) ++ tokens y.(sy_calls) ⊆+ map ad_execution_id (admissions ops s0).

Lemma sys_inv_jobs s0 s s' calls started started' calls' new :
  sys_inv s0 (mkSystem s calls started) → Forall call_ok calls' →
  (∃ ops, s' = ledger_run ops s ∧ forallb typed_ledger ops = true ∧ forallb keeps_ledger ops = true
    ∧ new ⊆+ map ad_execution_id (admissions ops s)) →
  started' ++ tokens calls' ⊆+ (started ++ tokens calls) ++ new →
  sys_inv s0 (mkSystem s' calls' started').
Proof.
  intros [_ (ops & Hs & Ht & Hk & Hsub)] Hok (ops' & Hs' & Ht' & Hk' & Hnew) Hall. simpl in *. subst s s'.
  split; [done|]. exists (ops ++ ops'). simpl. rewrite ledger_run_app, !forallb_app, Ht, Hk, Ht', Hk', admissions_app, map_app.
  split_and!; [done..|]. etrans; [exact Hall|]. by apply submseteq_app.
Qed.

Lemma sys_inv_step s0 y y' : sys_step y y' → sys_inv s0 y → sys_inv s0 y'.
Proof.
  intros Hstep Hinv. pose proof Hinv as [Hcalls _]. destruct Hstep as [op s calls started Ht Hk|self context input s calls started
    |i c X q k x s s' calls started Hi Hrest Hreply|i s calls started]; simpl in Hcalls.
  - eapply (sys_inv_jobs _ _ _ _ _ _ _ []); [exact Hinv|done| |by rewrite app_nil_r].
    exists [op]. simpl. rewrite Ht, Hk. split_and!; try done. apply submseteq_nil_l.
  - eapply (sys_inv_jobs _ _ _ _ _ _ _ []); [exact Hinv| |by exists []|].
    + apply Forall_app. split; [done|]. constructor; [apply called_ok|done].
    + unfold tokens. rewrite flat_map_app. simpl. by rewrite !app_nil_r.
  - destruct (tokens_insert i c (answered c q k x) calls Hi) as (rest & Hold & Hnew).
    assert (call_ok c) as Hc by by eapply Forall_lookup_1.
    eapply sys_inv_jobs; [exact Hinv| |by eapply reply_jobs|].
    + apply Forall_insert; [done|]. unfold call_ok in *. rewrite Hrest in Hc. apply Hc.
    + rewrite Hnew, Hold, token_answered. rewrite <-!app_assoc. apply submseteq_skips_l.
      rewrite (Permutation_app_comm _ rest), !app_assoc. apply submseteq_skips_r.
      rewrite (Permutation_app_comm (begun q)), (Permutation_app_comm (token c)). apply submseteq_skips_l.
      by eapply begun_token.
  - eapply (sys_inv_jobs _ _ _ _ _ _ _ []); [exact Hinv|by apply Forall_delete|by exists []|].
    rewrite app_nil_r. apply submseteq_skips_l, tokens_delete.
Qed.

(** ** Playing it *)

(** The system with answers chosen: the ledger's own, and the oracle's where
    the ledger is not asked. *)
Definition replied (oracle : ∀ X, Query X → X) {X} (q : Query X) (s : Ledger) : X * Ledger :=
  match q in Query X return X → X * Ledger with
  | QListExecutions run_id => λ _, (answer_of (list_executions run_id) s, s)
  | QListByChat chat_id => λ _, (answer_of (list_executions_by_chat chat_id) s, s)
  | QListBarriers chat_id run_id => λ _, (answer_of (list_uncertainty_barriers chat_id run_id) s, s)
  | QGetChat chat_id => λ _, (answer_of (on_db (get (A := ChatRecord) chat_id)) s, s)
  | QAdmit proof a => λ _, (answer_of (admit_execution proof a) s, ledger_step s (LAdmit proof a))
  | QComplete proof id result now => λ _, (answer_of (complete_execution proof id result now) s, ledger_step s (LComplete proof id result now))
  | QNotStarted proof attempt_id id result => λ _,
      (answer_of (complete_execution_not_started proof attempt_id id result) s, ledger_step s (LNotStarted proof attempt_id id result))
  | _ => λ x, (x, s)
  end (oracle _ q).
Lemma replied_reply oracle {X} (q : Query X) s : reply q s (replied oracle q s).1 (replied oracle q s).2.
Proof. destruct q; cbn [reply replied fst snd]; unfold looks, runs; auto. Qed.

(** The turns of the calls, one question each. *)
Definition turn (oracle : ∀ X, Query X → X) (y : System) (i : nat) : System :=
  match y.(sy_calls) !! i with
  | Some c =>
      match c.(cl_rest) with
      | PAsk q k =>
          let a := replied oracle q y.(sy_ledger) in
          mkSystem a.2 (<[i := answered c q k a.1]> y.(sy_calls)) (y.(sy_started) ++ begun q)
      | PRet _ => y
      end
  | None => y
  end.
Lemma turn_steps oracle y i : rtc sys_step y (turn oracle y i).
Proof.
  destruct y as [s calls started]. unfold turn. simpl. destruct (calls !! i) as [c|] eqn:Hi; [|done].
  destruct (cl_rest c) as [r|X q k] eqn:Hc; [done|]. apply rtc_once. econstructor; [exact Hi|exact Hc|apply replied_reply].
Qed.
Lemma turns_steps oracle order y : rtc sys_step y (foldl (turn oracle) y order).
Proof. revert y. induction order as [|i order IH]; intros y; [done|]. simpl. etrans; [apply turn_steps|apply IH]. Qed.

(** C18: Whatever calls are made, by however many attempts at once, dropped at
    any point, and whatever other jobs come in between, with answers that may
    be failures whether or not the job was run: from any state the jobs of
    the worker lead to, while the runs' tasks are kept, no two bodies ever
    begin under one receipt, and every body that began under one left its row
    in the ledger. *)
Theorem body_at_most_once file before y :
  let s0 := ledger_run before (empty_ledger file) in
  forallb typed_ledger before = true → rtc sys_step (mkSystem s0 [] []) y →
  NoDup y.(sy_started)
  ∧ ∀ id, id ∈ y.(sy_started) → ∃ r, r ∈ y.(sy_ledger).(lg_executions) ∧ r.(er_execution_id) = id.
Proof.
  intros s0 Hb Hrun. assert (sys_inv s0 y) as [_ (ops & -> & Ht & Hk & Hsub)].
  { assert (sys_inv s0 (mkSystem s0 [] [])) as H0.
    { split; [constructor|]. exists []. simpl. split_and!; try done. }
    revert H0. generalize (mkSystem s0 [] []) as y0, Hrun. clear Hrun.
    induction 1 as [|y0 y1 y' Hstep _ IH]; [done|]. intros H. by apply IH, (sys_inv_step _ _ _ Hstep). }
  destruct (ledger_run_logs ops s0 (ledger_ok_run file before Hb) Ht Hk) as
    [(old & new & E & Hl & Hid & Happ) (_ & _ & [H1 _ _ _])].
  rewrite <-Hid in Hsub. apply (submseteq_trans (sy_started y)) in Hsub; [|by apply submseteq_inserts_r].
  split.
  - rewrite E, map_app in H1. apply NoDup_app in H1 as (_ & _ & H1).
    apply submseteq_Permutation in Hsub as [k Hperm]. rewrite Hperm in H1. by apply NoDup_app in H1 as [? _].
  - intros id Hin. apply (elem_of_submseteq _ _ _ Hin), list_elem_of_fmap in Hsub as (r & -> & Hr).
    exists r. split; [|done]. rewrite E. apply elem_of_app. by right.
Qed.
End race.

(** ** Witness *)

(** The same write called twice at once: whichever is granted the receipt
    runs, the other does not. *)
Definition ex_start : list LedgerOp :=
  [LStore (OpSubmit (ex_submit "t1" "chat" 0)); LStore (OpClaim default_aging (ex_claim 1) u64_max)].
Definition ex_order : list nat := concat (repeat [1; 0]%nat 12).
Lemma body_at_most_once_witness :
  let host := example_host in let digests := ex_json_digest in let text_digest := ex_text_digest in
  let results := ex_results in let lower := ex_exponent in
  let oracle := @quietly (Permission.Answered (Ok VerdictAllowed)) in
  let s0 := ledger_run ex_start (empty_ledger true) in
  let call := called (ex_tool ex_fence []) (ex_context "call1") ex_input in
  let y := foldl (turn oracle) (mkSystem s0 [call; call] []) ex_order in
  y.(sy_started) = [ex_digest] ∧ NoDup y.(sy_started)
  ∧ map (λ c, match c.(cl_rest) with PRet (Ok r) => Some r.(tr_ok) | _ => None end) y.(sy_calls) = [Some false; Some true].
Proof.
  intros host digests text_digest results lower oracle s0 call y. split; [vm_compute; reflexivity|]. split; [|vm_compute; reflexivity].
  apply (body_at_most_once true ex_start y); [reflexivity|].
  etrans; [apply rtc_once, (sys_call (ex_tool ex_fence []) (ex_context "call1") ex_input s0 [] [])|]. etrans; [apply rtc_once, (sys_call (ex_tool ex_fence []) (ex_context "call1") ex_input s0 [call] [])|].
  apply turns_steps.
Defined.
