(* ===== verification/Fencing.v ===== *)
(** * Fencing tokens

    A lease is the authority to write for a task.  The counter behind the
    fencing tokens only grows and every lease carries a token it reached, so
    an authority that is gone never comes back: a write that presents it
    fails in every later state. *)

From S2P Require Import Walk.
From S2P Require Export TaskSpecs TaskOps.
Local Open Scope Z_scope.

(** Every live lease holds a token the counter has reached. *)
Definition fence_ok (d : Db) : Prop :=
  0 ≤ d.(db_fence) ∧ ∀ l, l ∈ d.(db_leases) → 0 ≤ l.(l_fencing_token) ≤ d.(db_fence).

(** The part of a lease that is its authority: everything but its expiry. *)
Definition same_authority (l l' : Lease) : Prop :=
  l_task_id l' = l_task_id l ∧ l_attempt_id l' = l_attempt_id l ∧ l_owner_id l' = l_owner_id l
  ∧ l_lease_token l' = l_lease_token l ∧ l_fencing_token l' = l_fencing_token l.

#[export] Instance same_authority_preorder : PreOrder same_authority.
Proof.
  split; [by intros l|].
  intros l1 l2 l3 (?&?&?&?&?) (?&?&?&?&?). repeat split; congruence.
Qed.

(** A lease of a later state is an old one or minted since. *)
Definition leases_from (d d' : Db) : Prop := ∀ l', l' ∈ d'.(db_leases) →
  (∃ l, l ∈ d.(db_leases) ∧ same_authority l l') ∨ d.(db_fence) < l'.(l_fencing_token).

(** Tokens are exact in JSON up to [max_safe]. *)
Definition fence_mono (d d' : Db) : Prop :=
  d.(db_fence) ≤ d'.(db_fence)
  ∧ (fence_ok d → d'.(db_fence) ≤ max_safe → fence_ok d' ∧ leases_from d d').

#[export] Instance fence_mono_preorder : PreOrder fence_mono.
Proof.
  split.
  - intros d. split; [done|]. intros H _. split; [done|]. intros l ?. left. by exists l.
  - intros d1 d2 d3 [H12 H12'] [H23 H23']. split; [lia|]. intros Hok Hs.
    destruct H12' as [Hok2 F12]; [done|lia|]. destruct H23' as [Hok3 F23]; [done..|].
    split; [done|]. intros l3 [(l2 & Hl2 & A2)|]%F23; [|right; lia].
    destruct (F12 _ Hl2) as [(l1 & Hl1 & A1)|Hlt].
    + left. exists l1. split; [done|]. by trans l2.
    + right. destruct A2 as (_&_&_&_& ->). lia.
Qed.

Lemma fence_mono_leases d d' :
  db_fence d' = db_fence d → (∀ l, l ∈ db_leases d' → l ∈ db_leases d) → fence_mono d d'.
Proof.
  intros E H. split; [lia|]. intros [H0 Hok] _. split.
  - split; [lia|]. intros l ?%H. rewrite E. auto.
  - intros l ?%H. left. by exists l.
Qed.

#[export] Instance fence_mono_framed : Framed fence_mono.
Proof. intros d d' [??? E ?]. apply fence_mono_leases; [done|]. by rewrite E. Qed.

(** Writes to the other tables, and deletions of leases. *)
Ltac fence_mono_side := intros; apply fence_mono_leases; [done|simpl; try done].
#[export] Hint Extern 2 (within fence_mono (update_row (A := TaskRecord) _)) =>
  (apply within_update_row; fence_mono_side) : st.
#[export] Hint Extern 2 (within fence_mono (insert_row (A := TaskRecord) _)) =>
  (apply within_insert_row; fence_mono_side) : st.
#[export] Hint Extern 2 (within fence_mono (update_row (A := AttemptRecord) _)) =>
  (apply within_update_row; fence_mono_side) : st.
#[export] Hint Extern 2 (within fence_mono (insert_row (A := AttemptRecord) _)) =>
  (apply within_insert_row; fence_mono_side) : st.

Section fencing.
Context {host : Host}.

Lemma json_lease_kept b l j :
  json_lease b l = Ok j → 0 ≤ l.(l_fencing_token) ≤ max_safe → same_authority l j.
Proof.
  unfold json_lease, json_u64. intros H ?. inv_res.
  match goal with H : json_int 0 _ _ = _ |- _ => apply json_int_Ok in H as [-> _] end.
  rewrite js_int_safe by (unfold max_safe in *; lia). done.
Qed.

Lemma fence_mono_delete_lease id : within fence_mono (delete_lease id).
Proof.
  unfold delete_lease. apply within_delete_row. intros d. apply fence_mono_leases; [done|]. simpl.
  by intros l [??]%elem_of_remove_row.
Qed.
Hint Resolve fence_mono_delete_lease : st.

Lemma fence_mono_save task : within fence_mono (save task).
Proof. unfold save. within_auto. Qed.
Hint Resolve fence_mono_save : st.

(** Minting: the new lease carries the next token. *)
Lemma fence_mono_acquire task_id attempt_id owner_id now ttl_ms :
  within fence_mono (acquire task_id attempt_id owner_id now ttl_ms).
Proof.
  intros d l d' H. unfold acquire in H. inv_st.
  match goal with H : ok_or _ _ = Ok _ |- _ => rename H into Htok end.
  match goal with H : fresh _ = Ok _ |- _ => injection H as ? <- end.
  match goal with H : upsert_row _ _ = _ |- _ => apply upsert_row_Ok in H as (j & Hj & ->) end.
  unfold checked_add_i64 in Htok. destruct (checked _ _ _) eqn:C; [|done].
  injection Htok as ->. apply checked_Some in C as [-> ?].
  split; [simpl; lia|]. simpl. intros [Hpos Hok] Hs. simpl in Hj.
  apply json_lease_kept in Hj as (? & _ & _ & _ & Ej); [|simpl; lia]. simpl in *.
  assert (∀ l, l ∈ (if is_some (find_row task_id (db_leases d)) then
      replace_row j (db_leases d) else db_leases d ++ [j]) → l = j ∨ l ∈ db_leases d) as Hl.
  { intros l'. destruct is_some.
    - intros [ [-> _]|[? _] ]%elem_of_replace_row; auto.
    - intros [?| ->%list_elem_of_singleton]%elem_of_app; auto. }
  split; [split; [simpl; lia|]|].
  - simpl. intros l' [->|?%Hok]%Hl; lia.
  - intros l' [->|?]%Hl; [right; lia|left; by exists l'].
Qed.

(** Renewal: only the expiry moves. *)
Lemma fence_mono_renewed l d j t :
  l ∈ db_leases d → json_lease (db_file d) (l <| l_expires_at := t |>) = Ok j →
  fence_mono d (d <| db_leases := replace_row j (db_leases d) |>).
Proof.
  intros Hl Hj. split; [done|]. simpl. intros [H0 Hok] Hs.
  pose proof (Hok _ Hl). apply json_lease_kept in Hj as (A & B & C & D & E); [|simpl; lia].
  simpl in *. split; [split; [done|]|]; simpl.
  - intros l' [ [-> _]|[? _] ]%elem_of_replace_row; [lia|auto].
  - intros l' [ [-> _]|[? _] ]%elem_of_replace_row; left; [by exists l|by exists l'].
Qed.

Lemma fence_mono_renew proof now ttl_ms : within fence_mono (renew proof now ttl_ms).
Proof.
  intros d l d' H. unfold renew in H. inv_st.
  match goal with H : fence _ _ _ = _ |- _ => apply fence_Ok in H as (Hf & _ & ->) end.
  match goal with H : update_row _ _ = _ |- _ => apply update_row_Ok in H as (j & Hj & ->) end.
  eapply fence_mono_renewed; [|exact Hj]. by apply find_row_Some in Hf as [? _].
Qed.

Lemma fence_mono_renew_by_token token now ttl_ms :
  within fence_mono (renew_lease_by_token token now ttl_ms).
Proof.
  intros d l d' H. unfold renew_lease_by_token, lease_by_token in H. inv_st.
  match goal with H : update_row _ _ = _ |- _ => apply update_row_Ok in H as (j & Hj & ->) end.
  match goal with H : ok_or _ _ = Ok _ |- _ => rename H into Ho end.
  destruct (find_by _ _) as [l0|] eqn:E in Ho; [|done]. injection Ho as ->.
  eapply fence_mono_renewed; [|exact Hj]. by apply find_by_Some in E as [? _].
Qed.

Lemma fence_mono_delete_task t : within fence_mono (delete_task t).
Proof.
  apply within_bind; [typeclasses eauto| |intros _]; apply within_modify; intros d;
    apply fence_mono_leases; simpl; try done.
  by intros l [_ ?]%list_elem_of_filter.
Qed.
Hint Resolve fence_mono_acquire fence_mono_renew fence_mono_renew_by_token
  fence_mono_delete_task : st.

Lemma fence_mono_dead_letter task now reason : within fence_mono (dead_letter task now reason).
Proof. unfold dead_letter. within_auto. Qed.
Hint Resolve fence_mono_dead_letter : st.

Lemma fence_mono_insert_bound input binding : within fence_mono (insert_bound input binding).
Proof. unfold insert_bound, check_dependency. within_auto. Qed.
Hint Resolve fence_mono_insert_bound : st.
Lemma fence_mono_insert input : within fence_mono (Tasks.insert input).
Proof. apply fence_mono_insert_bound. Qed.
Hint Resolve fence_mono_insert : st.

Lemma fence_mono_dependencies ids task now blocked :
  within fence_mono (dependency_loop ids task now blocked).
Proof. revert blocked. induction ids; intros; simpl; within_auto. Qed.

Lemma fence_mono_start task input : within fence_mono (start task input).
Proof.
  unfold start. within_auto. apply within_fresh. fence_mono_side.
Qed.
Hint Resolve fence_mono_dependencies fence_mono_start : st.

Lemma fence_mono_claim_loop input concurrency occupied tasks l :
  within fence_mono (claim_loop input concurrency occupied tasks l).
Proof. induction l; simpl; unfold dependencies; within_auto. Qed.
Hint Resolve fence_mono_claim_loop : st.

Lemma fence_mono_end_attempt lease status now error :
  within fence_mono (Lifecycle.end_attempt lease status now error).
Proof. unfold Lifecycle.end_attempt. within_auto. Qed.
Hint Resolve fence_mono_end_attempt : st.

Lemma fence_mono_end_running task_id now : within fence_mono (end_running_attempts task_id now).
Proof. unfold end_running_attempts. within_auto. Qed.

Lemma fence_mono_abandon task now max_attempts delay mode :
  within fence_mono (abandon task now max_attempts delay mode).
Proof. unfold abandon, recover_task. within_auto. Qed.
Hint Resolve fence_mono_end_running fence_mono_abandon : st.

Lemma fence_mono_convert_candidate scope_id candidate now : within fence_mono (convert_candidate scope_id candidate now).
Proof.
  unfold convert_candidate, convert_claimed, convert_message, get_input. within_auto; by_frame frame_transition_input.
Qed.
Hint Resolve fence_mono_convert_candidate : st.
Lemma fence_mono_convert_first scope_id now candidates : within fence_mono (convert_first scope_id now candidates).
Proof. induction candidates as [|c l IH]; cbn [convert_first]; within_auto. Qed.
Lemma fence_mono_convert_missed staging scope_id now records : within fence_mono (convert_missed staging scope_id now records).
Proof. induction records as [|r l IH]; cbn [convert_missed]; within_auto. Qed.
Hint Resolve fence_mono_convert_first fence_mono_convert_missed : st.
Lemma fence_mono_settle_inputs extra task completed now : within fence_mono (settle_session_inputs extra task completed now).
Proof.
  unfold settle_session_inputs, promotable_pending, list_inputs. within_auto.
  by_frame frame_ignore_lost_cas. apply frame_transition_input.
Qed.
Lemma fence_mono_answer input : within fence_mono (answer_human_request input).
Proof.
  unfold answer_human_request, replay_answer, approve_answer, plain_answer, room_for_grant, requeue_task, save, get_input,
    last_message_of_run, append_answer. within_auto.
  all: first [by_frame frame_transition_input|by_frame frame_apply_plan_grant|by_frame frame_write_request_grant].
Qed.

Lemma fence_mono_reconcile_one now task : within fence_mono (reconcile_one now task).
Proof. unfold reconcile_one, land_cancelled, abandon_running_attempts. within_auto. Qed.
Hint Resolve fence_mono_reconcile_one : st.

Lemma fence_mono_exec op : within fence_mono (exec op).
Proof.
  destruct (side_op op) eqn:Hs; [by apply within_framed, frame_side_op; [apply _|]|].
  destruct op; try discriminate Hs; simpl; unfold ignore, submit, submit_turn,
    claim_with_concurrency, acquire_lease, update_progress, checkpoint_runtime_state,
    submit_child, settle, settle_inner, check_descriptor, retry_task, cancel_task, resume_task,
    recover, recover_lease, recover_orphan, interrupt_queued, interrupt_one, transition_task,
    create_attempt, end_attempt, interrupt_task, delete_by_scope, mark_dead_lettered,
    release_lease, lease_by_token, expire_stale_leases, park_turn, request_interrupt, park_interrupted,
    settle_session, stage_queued_turn, queue_or_stage_turn, settle_inner, check_descriptor, get_input,
    admit_teammate_task, admit_new, read_admission, wait_for_children, continue_after_children, mark_uncertain,
    resolve_uncertain, reconcile_agent_runs; within_auto.
  all: try first [by apply fence_mono_answer|by apply fence_mono_settle_inputs|by_frame frame_insert_input|by_frame frame_finalize_message
    |by_frame frame_ignore_lost_cas; apply frame_transition_input].
  - apply within_delete_chat; [apply _|apply fence_mono_delete_task|..]; try (intros id);
      apply within_framed; try apply _; unfold delete_proposal; within_auto.
  - apply within_fresh. fence_mono_side.
  - apply within_modify. fence_mono_side.
Qed.

Lemma fence_mono_run ops d : fence_mono d (run ops d).
Proof. apply run_within; [apply _|]. intros op _. apply fence_mono_exec. Qed.

(** *** Authority that is gone *)

(** The counter has passed the proof's token and no lease matches it. *)
Definition spent (proof : LeaseFence) (d : Db) : Prop :=
  fence_ok d ∧ proof.(f_fencing_token) ≤ d.(db_fence)
  ∧ ∀ l, l ∈ d.(db_leases) → lease_fence l ≠ proof.

Lemma spent_mono proof d d' :
  fence_mono d d' → db_fence d' ≤ max_safe → spent proof d → spent proof d'.
Proof.
  intros [Hle Hm] Hs (Hok & Ht & Hl). destruct Hm as [Hok' Hfrom]; [done..|].
  split_and!; [done|lia|]. intros l' Hl' <-. destruct (Hfrom _ Hl') as [(l & ? & A)|Hlt].
  - apply (Hl l); [done|]. destruct A as (E1 & _ & _ & E2 & E3).
    unfold lease_fence. congruence.
  - simpl in Ht. lia.
Qed.

Lemma spent_fence proof now d :
  spent proof d → fence proof now d = Err (LeaseLost proof.(f_task_id)).
Proof.
  intros (_ & _ & Hl). unfold fence, get, gets, mbind, st_bind, lift. simpl.
  destruct (find_row _ _) as [l|] eqn:E; [|done]. simpl.
  apply find_row_Some in E as [Hin E]. simpl in E.
  destruct (lease_valid proof now l) eqn:V; [|done]. exfalso. apply (Hl l Hin).
  unfold lease_valid in V. reflect_bools.
  repeat match goal with H : String.eqb _ _ = true |- _ => apply String.eqb_eq in H end.
  destruct proof; unfold lease_fence; simpl in *; congruence.
Qed.

Lemma removed_spent proof lease d d' :
  fence_ok d → find_row proof.(f_task_id) d.(db_leases) = Some lease →
  lease.(l_fencing_token) = proof.(f_fencing_token) →
  db_fence d' = db_fence d → db_leases d' = remove_row proof.(f_task_id) (db_leases d) →
  spent proof d'.
Proof.
  intros [H0 Hok] [Hin _]%find_row_Some Et Ef El. split_and!.
  - split; [lia|]. intros l. rewrite El, Ef. intros [? _]%elem_of_remove_row. auto.
  - rewrite Ef, <-Et. by apply Hok.
  - intros l. rewrite El. intros [_ Hne]%elem_of_remove_row <-. by apply Hne.
Qed.
End fencing.

Section properties.
Context {host : Host}.

Lemma fence_ok_empty file : fence_ok (empty_db file).
Proof. split; [done|]. by intros l ?%elem_of_nil. Qed.

(** The states a fresh store reaches while its tokens are exact. *)
Lemma fence_ok_reachable file ops :
  db_fence (run ops (empty_db file)) ≤ max_safe → fence_ok (run ops (empty_db file)).
Proof.
  intros Hs. destruct (fence_mono_run ops (empty_db file)) as [_ H].
  apply H; [apply fence_ok_empty|done].
Qed.

Lemma lease_valid_token proof now lease :
  lease_valid proof now lease = true → lease.(l_fencing_token) = proof.(f_fencing_token).
Proof. unfold lease_valid. intros H. by reflect_bools. Qed.

(** A settled or retried attempt has spent its authority. *)
Lemma settle_spent input d t d' :
  fence_ok d → settle input d = Ok (t, d') → spent input.(st_fence) d'.
Proof.
  intros Hok (l & t0 & Hf & Hv & _ & _ & _ & _ & _ & El & Ef)%settle_Ok.
  eapply removed_spent; [done|exact Hf|by eapply lease_valid_token|done..].
Qed.

Lemma retry_spent input d t d' :
  fence_ok d → retry_task input d = Ok (t, d') → spent input.(r_fence) d'.
Proof.
  intros Hok (l & t0 & Hf & Hv & _ & _ & _ & _ & El & Ef)%retry_task_Ok.
  eapply removed_spent; [done|exact Hf|by eapply lease_valid_token|done..].
Qed.

(** *** What an attempt does under its lease *)

(** The jobs that need the lease of [proof]; and those of them that end the
    attempt. *)
Definition fenced_by (op : Op) : option LeaseFence :=
  match op with
  | OpAppendEvents proof _ _ | OpAppendProjected proof _ _ _ | OpAppendMessage _ (Some proof) _ | OpCheckDispatch proof _
  | OpRenew proof _ _ | OpUpdateProgress proof _ _ | OpCheckpoint proof _ _ _ | OpSubmitChild proof _ _
  | OpUpdateMessage _ _ _ _ (Some proof) _ | OpParkInterrupted proof _
  | OpWaitForChildren proof _ | OpMarkUncertain proof _ _ => Some proof
  | OpSettle input | OpSettleSession input _ => Some input.(st_fence)
  | OpRetry input => Some input.(r_fence)
  | OpPark input => Some input.(pk_fence)
  | OpProjectInputs input => Some input.(pi_fence)
  | _ => None
  end.
Definition ends_attempt (op : Op) : bool :=
  match op with
  | OpSettle _ | OpSettleSession _ _ | OpRetry _ | OpPark _ | OpParkInterrupted _ _ | OpMarkUncertain _ _ _ => true
  | _ => false
  end.

Lemma spent_refuses proof op d : spent proof d → fenced_by op = Some proof → is_ok (exec op d) = false.
Proof.
  intros Hsp Hop. pose proof (λ now, spent_fence proof now d Hsp) as Hf.
  destruct (exec op d) as [[u d']|e] eqn:E; [exfalso|done].
  destruct op; try discriminate Hop; simpl in E; unfold ignore, append_events, append_projected, append_message, check_dispatch,
    renew, update_progress, checkpoint_runtime_state, submit_child, update_message, park_interrupted, settle_session, settle,
    settle_inner, retry_task, park_turn, append_projected_inputs, wait_for_children, mark_uncertain in E; simpl in Hop;
    repeat match goal with proof : option LeaseFence |- _ => destruct proof; [|discriminate Hop] end;
    injection Hop as <-; inv_st;
    try match goal with H : required _ _ = _ |- _ => apply required_Ok in H as [_ ->] end; by rewrite Hf in *.
Qed.

(** A job that ends an attempt takes its lease away. *)
Lemma park_leases input d r d' : park_turn input d = Ok (r, d') →
  (∃ l, find_row input.(pk_fence).(f_task_id) d.(db_leases) = Some l ∧ lease_valid input.(pk_fence) input.(pk_now) l = true)
  ∧ db_fence d' = db_fence d ∧ db_leases d' = remove_row input.(pk_fence).(f_task_id) d.(db_leases).
Proof.
  intros H. unfold park_turn in H. inv_op; fold_id; use_frames; (split; [eexists; (split; [|eassumption]); eassumption|]); split; simpl; congruence.
Qed.
Lemma park_interrupted_leases proof now d u d' : park_interrupted proof now d = Ok (u, d') →
  (∃ l, find_row proof.(f_task_id) d.(db_leases) = Some l ∧ lease_valid proof now l = true)
  ∧ db_fence d' = db_fence d ∧ db_leases d' = remove_row proof.(f_task_id) d.(db_leases).
Proof.
  intros H. unfold park_interrupted in H. inv_op; fold_id; use_frames; (split; [eexists; (split; [|eassumption]); eassumption|]); split; simpl; congruence.
Qed.
Lemma mark_uncertain_leases proof now reason d t d' : mark_uncertain proof now reason d = Ok (t, d') →
  (∃ l, find_row proof.(f_task_id) d.(db_leases) = Some l ∧ lease_valid proof now l = true)
  ∧ db_fence d' = db_fence d ∧ db_leases d' = remove_row proof.(f_task_id) d.(db_leases).
Proof.
  intros H. unfold mark_uncertain in H. inv_op; fold_id; use_frames; (split; [eexists; (split; [|eassumption]); eassumption|]); split; simpl; congruence.
Qed.
Lemma settle_inner_leases input extra d t d' : settle_inner input extra d = Ok (t, d') → ∃ d1,
  (∃ l, find_row input.(st_fence).(f_task_id) d.(db_leases) = Some l ∧ lease_valid input.(st_fence) input.(st_now) l = true)
  ∧ db_fence d1 = db_fence d ∧ db_leases d1 = remove_row input.(st_fence).(f_task_id) d.(db_leases)
  ∧ match extra with Some e => ∃ task completed, e.(settle_inputs) task completed input.(st_now) d1 = Ok (tt, d') | None => d' = d1 end.
Proof.
  intros (d1 & l & t0 & (? & ? & _ & _ & _ & _ & _ & El & Ef) & Hx)%settle_inner_Ok. exists d1.
  split_and!; [by exists l|done..|]. destruct extra; [by eexists _, _|done].
Qed.

Lemma ended_spent proof op d d' : fence_ok d → ends_attempt op = true → fenced_by op = Some proof →
  exec op d = Ok (tt, d') → db_fence d' ≤ max_safe → spent proof d'.
Proof.
  intros Hok He Hp E Hs.
  assert (∃ now d1, (∃ l, find_row proof.(f_task_id) d.(db_leases) = Some l ∧ lease_valid proof now l = true)
    ∧ db_fence d1 = db_fence d ∧ db_leases d1 = remove_row proof.(f_task_id) d.(db_leases) ∧ fence_mono d1 d')
    as (now & d1 & (l & Hl & Hv) & Ef & El & Hm).
  { destruct op; try discriminate He; simpl in Hp, E; injection Hp as <-; unfold ignore in E; inv_st.
    - match goal with H : settle _ _ = _ |- _ => apply settle_inner_leases in H as (d1 & ? & ? & ? & ->) end. by eexists _, _.
    - match goal with H : retry_task _ _ = _ |- _ => apply retry_task_Ok in H as (l & t0 & ? & ? & _ & _ & _ & _ & El & Ef) end.
      eexists _, _. split; [by exists l|]. by split_and!.
    - match goal with H : park_turn _ _ = _ |- _ => apply park_leases in H as (? & ? & ?) end. by eexists _, _.
    - apply park_interrupted_leases in E as (? & ? & ?). by eexists _, _.
    - match goal with H : settle_session _ _ _ = _ |- _ => apply settle_inner_leases in H as (d1 & ? & ? & ? & task & completed & H) end.
      eexists _, d1. split_and!; try done. simpl in H. by apply fence_mono_settle_inputs in H.
    - match goal with H : mark_uncertain _ _ _ _ = _ |- _ => apply mark_uncertain_leases in H as (? & ? & ?) end. by eexists _, _. }
  apply (spent_mono proof d1); [done..|]. eapply removed_spent; [exact Hok|exact Hl|by eapply lease_valid_token|done..].
Qed.

(** An authority that is gone stays gone.  Once no lease of a reachable
    store matches a proof whose token the counter has reached, the proof is
    refused as [LeaseLost] after every further sequence of operations, at
    every time: a worker that lost its lease can never write for the task
    again, whatever leases were minted since. *)
Theorem spent_authority_refused file before after proof now :
  let d := run before (empty_db file) in
  let d' := run after d in
  proof.(f_fencing_token) ≤ d.(db_fence) →
  (∀ l, l ∈ d.(db_leases) → lease_fence l ≠ proof) →
  d'.(db_fence) ≤ max_safe →
  fence proof now d' = Err (LeaseLost proof.(f_task_id)).
Proof.
  intros d d' Ht Hl Hs. apply spent_fence.
  pose proof (fence_mono_run after d) as Hm. fold d' in Hm.
  eapply spent_mono; [exact Hm|done|]. split_and!; [|done..].
  apply fence_ok_reachable. destruct Hm as [Hle _]. fold d. lia.
Qed.

(** An attempt ends once.  After a settlement or a retry under a proof
    commits, every later settlement or retry under the same proof is
    refused, whatever ran in between: two outcomes of one attempt cannot
    both be recorded. *)
Theorem attempt_outcome_once file before after proof t d' now :
  let d := run before (empty_db file) in
  (∃ input, input.(st_fence) = proof ∧ settle input d = Ok (t, d'))
  ∨ (∃ input, input.(r_fence) = proof ∧ retry_task input d = Ok (t, d')) →
  (run after d').(db_fence) ≤ max_safe →
  (∀ input, input.(st_fence) = proof → input.(st_now) = now →
    is_terminal input.(st_status) = true →
    settle input (run after d') = Err (LeaseLost proof.(f_task_id)))
  ∧ (∀ input, input.(r_fence) = proof → input.(r_now) = now →
    negb ((input.(r_max_attempts) =? 0) || (input.(r_available_at) <? now)) = true →
    retry_task input (run after d') = Err (LeaseLost proof.(f_task_id))).
Proof.
  intros d Hend Hs. pose proof (fence_mono_run after d') as Hm.
  assert (spent proof d' ∧ fence_mono d d') as [Hsp _].
  { destruct Hend as [ (i & <- & Hi)|(i & <- & Hi) ].
    - pose proof (fence_mono_exec (OpSettle i) d tt d') as Hd. simpl in Hd.
      unfold ignore in Hd. rewrite (st_bind_step _ _ _ _ _ Hi) in Hd. specialize (Hd eq_refl).
      split; [|done]. eapply settle_spent; [|done]. apply fence_ok_reachable. fold d.
      destruct Hd, Hm. lia.
    - pose proof (fence_mono_exec (OpRetry i) d tt d') as Hd. simpl in Hd.
      unfold ignore in Hd. rewrite (st_bind_step _ _ _ _ _ Hi) in Hd. specialize (Hd eq_refl).
      split; [|done]. eapply retry_spent; [|done]. apply fence_ok_reachable. fold d.
      destruct Hd, Hm. lia. }
  pose proof (spent_mono _ _ _ Hm Hs Hsp) as Hsp'. split.
  - intros i <- <- Hterm. unfold settle, settle_inner. unfold mbind, st_bind, guard_or.
    rewrite Hterm. simpl. by rewrite (spent_fence _ (st_now i) _ Hsp').
  - intros i <- <- Hg. unfold retry_task, mbind, st_bind, guard_or. rewrite Hg. simpl.
    by rewrite (spent_fence _ (r_now i) _ Hsp').
Qed.
(** C3: An attempt that ended writes nothing more.  After any job that ends an
    attempt under a lease (a settlement, with or without its session's
    inputs, a retry, a parked request for a person, a parked interruption)
    commits, every later job that needs that lease fails, whatever ran in
    between: two outcomes of one attempt cannot both be recorded, and
    nothing is appended, projected or checkpointed after one. *)
Theorem ended_attempt_silenced file before after proof ending late d' :
  let d := run before (empty_db file) in
  ends_attempt ending = true → fenced_by ending = Some proof → exec ending d = Ok (tt, d') →
  (run after d').(db_fence) ≤ max_safe → fenced_by late = Some proof →
  is_ok (exec late (run after d')) = false.
Proof.
  intros d He Hp E Hs Hl. pose proof (fence_mono_run after d') as Hm.
  apply (spent_refuses proof); [|done]. apply (spent_mono proof d'); [exact Hm|done|].
  pose proof (fence_mono_exec ending d tt d' E) as Hd.
  assert (db_fence d' ≤ max_safe) as Hs' by (destruct Hm; lia).
  eapply ended_spent; [|exact He|exact Hp|exact E|exact Hs']. apply fence_ok_reachable. fold d. destruct Hd; lia.
Qed.
End properties.

Lemma spent_authority_refused_witness :
  let host := example_host in
  fence (ex_proof "t1" ex_claimed) 9
    (run [OpSubmit (ex_submit "t2" "chat" 3); OpClaim default_aging (ex_claim 4) u64_max]
      (run [OpSubmit (ex_submit "t1" "chat" 0); OpClaim default_aging (ex_claim 1) u64_max;
        OpSettle (ex_settle (ex_proof "t1" ex_claimed) 2)] (empty_db true)))
  = Err (LeaseLost "t1").
Proof.
  apply (spent_authority_refused (host := example_host)).
  - vm_compute. discriminate.
  - vm_compute. intros l Hl. by apply elem_of_nil in Hl.
  - vm_compute. discriminate.
Defined.

Lemma attempt_outcome_once_witness :
  let host := example_host in
  settle (ex_settle (ex_proof "t1" ex_claimed) 3)
    (run [OpAcquireLease "t1" "again" "other" 3 1000] ex_settled) = Err (LeaseLost "t1").
Proof.
  intros host.
  destruct (attempt_outcome_once true
    [OpSubmit (ex_submit "t1" "chat" 0); OpClaim default_aging (ex_claim 1) u64_max]
    [OpAcquireLease "t1" "again" "other" 3 1000] (ex_proof "t1" ex_claimed)
    (settled (ex_settle (ex_proof "t1" ex_claimed) 2)
      (default (new_task (ex_submit "t1" "chat" 0) None) (find_row "t1" ex_claimed.(db_tasks))))
    ex_settled 3) as [H _].
  - left. exists (ex_settle (ex_proof "t1" ex_claimed) 2). split; vm_compute; reflexivity.
  - vm_compute. discriminate.
  - apply H; reflexivity.
Defined.

(** A run that parks for a person has no authority left, even after the
    person's answer made it run again. *)
Definition ex_park : ParkTurn :=
  mkPark (mkFence "t1" "id2" 1) None []
    (Some (mkCreateInput "i1" "chat" HumanRequest (VObj [("kind", VStr "question")]) "hash" (Some "t1") None (Some "a1") (Some "call1") None)) 2.
Definition ex_claim_ops : list Op := [OpSubmit (ex_submit "t1" "chat" 0); OpClaim default_aging (ex_claim 1) u64_max].
Definition ex_later_ops : list Op := [OpResume "t1" 3; OpClaim default_aging (ex_claim 4) u64_max].
Lemma ended_attempt_silenced_witness :
  let host := example_host in
  ∃ d', exec (OpPark ex_park) (run ex_claim_ops (empty_db true)) = Ok (tt, d')
    ∧ is_ok (exec (OpSettle (ex_settle (mkFence "t1" "id2" 1) 5)) (run ex_later_ops d')) = false.
Proof.
  intros host. destruct (exec (OpPark ex_park) (run ex_claim_ops (empty_db true))) as [[[] d']|e] eqn:E;
    [|vm_compute in E; discriminate E].
  assert (db_fence (run ex_later_ops d') ≤ max_safe) as Hs by (vm_compute in E; injection E as <-; vm_compute; discriminate).
  exists d'. split; [reflexivity|].
  exact (ended_attempt_silenced true ex_claim_ops ex_later_ops (mkFence "t1" "id2" 1) (OpPark ex_park)
    (OpSettle (ex_settle (mkFence "t1" "id2" 1) 5)) d' eq_refl eq_refl E Hs eq_refl).
Defined.
