(* ===== verification/SessionLaws.v ===== *)
(** * What the session operations promise

    An answer to a human request is taken once, and a settled turn hands its
    session's queue on. *)

From S2P Require Export InputLaws TaskSpecs Fencing.
From S2P Require Import TaskOps.
Local Open Scope Z_scope.

Section laws.
Context {host : Host}.
Hint Resolve walk_write_request_grant walk_apply_plan_grant : walk.

(** ** Answers *)

(** The mark a committed answer leaves on its request. *)
Definition answer_mark (approved : bool) (input : AnswerHumanRequest) : string :=
  if approved then approve_marker +:+ input.(an_response_hash) else input.(an_message_id).
Record answered_by (input : AnswerHumanRequest) (turn_id mark : string) (i : AgentInputRecord) : Prop := {
  ab_kind : i.(i_kind) = HumanRequest;
  ab_status : i.(i_status) = Answered;
  ab_answer : i.(i_answer_id) = Some input.(an_answer_id);
  ab_turn : i.(i_target_task_id) = Some turn_id;
  ab_mark : i.(i_applied_message_id) = Some mark
}.

Lemma answered_evolves input turn_id mark i i' :
  answered_by input turn_id mark i → input_evolves i i' → answered_by input turn_id mark i'.
Proof.
  intros [] Hev. destruct (ie_outcome _ _ Hev) as (? & ? & _); [congruence|].
  split; try (rewrite ?(ie_kind _ _ Hev), ?(ie_target _ _ Hev); congruence).
  destruct (ie_status _ _ Hev) as [|[? _]]; congruence.
Qed.

(** The row a transition leaves. *)
Lemma transition_input_moves id from to patch now_text d r d' :
  transition_input id from to patch now_text d = Ok (r, d') →
  ∃ i, find_row id d'.(db_inputs) = Some i ∧ i.(i_status) = to.
Proof.
  intros (i & j & Hi & _ & _ & _ & -> & Hj & ->)%transition_input_Ok. exists j.
  apply find_row_Some in Hi as Hid. destruct Hid as [_ Hid]. unfold json_input in Hj. inv_res. simpl in *. split; [|done].
  by rewrite find_row_replace, Hid, String.eqb_refl, Hi.
Qed.
Lemma answer_transition input d0 request turn_id own text mark now_text d r d' :
  asked input d0 request turn_id own text → inputs_evolve d0 d →
  transition_input input.(an_request_id) [Pending] Answered
    (mkInputPatch None (Some mark) (Some input.(an_answer_id))) now_text d = Ok (r, d') →
  ∃ i, find_row input.(an_request_id) d'.(db_inputs) = Some i ∧ answered_by input turn_id mark i.
Proof.
  intros [Hq Hk Ht _ _] H0. destruct (H0 _ _ Hq) as (q & Hf & He). intros (i & j & Hi & _ & _ & _ & -> & Hj & ->)%transition_input_Ok.
  rewrite Hf in Hi. injection Hi as <-.
  pose proof (json_input_evolves _ _ _ Hj) as Hev. exists j.
  apply find_row_Some in Hf as Hid. destruct Hid as [_ Hid]. simpl in *. split.
  - assert (row_key j = input.(an_request_id)) as Hkey by (simpl in *; by rewrite (ie_id _ _ Hev)).
    by rewrite find_row_replace, Hkey, String.eqb_refl, Hf.
  - eapply answered_evolves; [|exact Hev]. split; simpl; rewrite ?(ie_kind _ _ He), ?(ie_target _ _ He); done.
Qed.

Lemma answered_kept input turn_id mark d d' i : inputs_evolve d d' →
  find_row input.(an_request_id) d.(db_inputs) = Some i → answered_by input turn_id mark i →
  ∃ i', find_row input.(an_request_id) d'.(db_inputs) = Some i' ∧ answered_by input turn_id mark i'.
Proof. intros H (i' & ? & ?)%H Ha. exists i'. split; [done|]. by eapply answered_evolves. Qed.

(** What a first answer leaves: a receipt, and the request answered under it. *)
Definition first_receipt (input : AnswerHumanRequest) (turn_id : string) (approved : bool) : AnswerReceipt :=
  mkAnswerReceipt input.(an_request_id) input.(an_answer_id) turn_id (if approved then "" else input.(an_message_id)) false.
Lemma committed_answer_leaves input request task turn_id own now_text d r d' :
  asked input d request turn_id own now_text →
  committed_answer input request task turn_id own now_text d = Ok (r, d') →
  r.(ao_receipt) = first_receipt input turn_id (approving input own)
  ∧ ∃ i, find_row input.(an_request_id) d'.(db_inputs) = Some i
    ∧ answered_by input turn_id (answer_mark (approving input own) input) i.
Proof.
  intros Hq H. unfold committed_answer in H. destruct (approving input own).
  - unfold approve_answer in H. apply st_bind_Ok in H as (u & d1 & H1 & H).
    apply st_bind_Ok in H as (u2 & d2 & H2%map_err_Ok & [-> ->]%st_ret_Ok). split; [done|].
    apply st_bind_Ok in H2 as (u3 & d3 & H3 & H2). apply st_bind_Ok in H2 as (i & d4 & H4 & H2).
    assert (inputs_evolve d d3) as E3.
    { transitivity d1; [apply (within_run _ _ _ _ _ H1)|apply (within_run _ _ _ _ _ H3)]; unfold room_for_grant, requeue_task, save; walk. }
    destruct (answer_transition _ _ _ _ _ _ _ _ _ _ _ Hq E3 H4) as (i' & Hi' & Ha).
    eapply answered_kept; [|exact Hi'|exact Ha]. apply (within_run _ _ _ _ _ H2). walk.
  - unfold plain_answer in H. apply st_bind_Ok in H as (o & d1 & H1 & H).
    apply st_bind_Ok in H as (parent & d2 & [_ ->]%st_lift_Ok & H).
    apply st_bind_Ok in H as (u2 & d2 & H2%map_err_Ok & H). apply st_bind_Ok in H as (u & d5 & H5 & [-> ->]%st_ret_Ok). split; [done|].
    apply st_bind_Ok in H2 as (u3 & d3 & H3 & H2). apply st_bind_Ok in H2 as (i & d4 & H4 & [_ ->]%st_ret_Ok).
    assert (inputs_evolve d d3) as E3.
    { transitivity d1; [apply (within_run _ _ _ _ _ H1)|apply (within_run _ _ _ _ _ H3)]; unfold last_message_of_run, requeue_task, save; walk. }
    destruct (answer_transition _ _ _ _ _ _ _ _ _ _ _ Hq E3 H4) as (i' & Hi' & Ha).
    eapply answered_kept; [|exact Hi'|exact Ha]. apply (within_run _ _ _ _ _ H5). unfold append_answer. walk.
Qed.

Lemma approve_marked hash : is_some_and (Some (approve_marker +:+ hash)) (String.prefix approve_marker) = true.
Proof. simpl. by destruct hash. Qed.
Lemma checked_Ok {A} (b1 b2 : bool) (e : StoreError) (x : A) (d : Db) r d' :
  ((if negb b1 || negb b2 then throw e else mret x) : M A) d = Ok (r, d') → b1 = true ∧ b2 = true ∧ r = x.
Proof. destruct b1, b2; simpl; intros H; try done. by injection H. Qed.

(** A request answered before is only read. *)
Lemma replayed_Ok input again d r d' turn_id approved i :
  again.(an_request_id) = input.(an_request_id) →
  find_row input.(an_request_id) d.(db_inputs) = Some i → answered_by input turn_id (answer_mark approved input) i →
  answer_human_request again d = Ok (r, d') →
  d' = d ∧ again.(an_answer_id) = input.(an_answer_id)
  ∧ r.(ao_receipt).(ar_duplicate) = true ∧ r.(ao_receipt).(ar_request_id) = input.(an_request_id)
  ∧ r.(ao_receipt).(ar_answer_id) = input.(an_answer_id) ∧ r.(ao_receipt).(ar_turn_id) = turn_id
  ∧ (approved = true → again.(an_response_hash) = input.(an_response_hash)).
Proof.
  intros Eid Hf [_ Hst Han Htn Hmk] (q & turn & own & text & [Hq _ Ht _ _] & H)%answer_Ok.
  rewrite Eid, Hf in Hq. injection Hq as <-. rewrite Htn in Ht. injection Ht as <-.
  destruct H as [(_ & -> & enqueue & H)|(Hn & _)]; [|done]. split; [done|].
  unfold replay_answer in H. rewrite Hmk, Han in H. unfold answer_mark in H.
  assert (an_answer_id again = an_answer_id input ∧ (approved = true → an_response_hash again = an_response_hash input)
    ∧ ∃ message, r = mkAnswerOutcome (mkAnswerReceipt (an_request_id again) (an_answer_id again) turn_id message true) enqueue) as (E1 & E2 & message & ->); [|by rewrite E1, Eid].
  destruct approved; cbv beta iota in H.
  - rewrite (approve_marked (an_response_hash input)) in H. apply checked_Ok in H as (E1%bool_decide_eq_true & E2%bool_decide_eq_true & ->).
    injection E1 as ->. injection E2 as E2. split_and!; [done| |by eexists]. intros _. done.
  - destruct (is_some_and _ _).
    + apply checked_Ok in H as (E1%bool_decide_eq_true & _ & ->). injection E1 as ->. split_and!; [done..|by eexists].
    + apply st_bind_Ok in H as (o & d1 & _ & H). apply checked_Ok in H as (E1%bool_decide_eq_true & _ & ->).
      injection E1 as ->. split_and!; [done..|by eexists].
Qed.

(** The answer approves what was asked, as far as the plan policy lets it. *)
Definition approves (input : AnswerHumanRequest) (d : Db) : bool :=
  is_some_and (find_row input.(an_request_id) d.(db_inputs)) (λ request,
    is_approval_request request.(i_content)
    && match read_decision input.(an_response) with Ok decision => approving input (Some decision) | Err _ => false end).
Lemma asked_approves input d request turn_id own text :
  asked input d request turn_id own text → approves input d = approving input own.
Proof.
  intros [Hq _ _ Hown _]. unfold approves. rewrite Hq. simpl. destruct (is_approval_request _).
  - destruct (read_decision _) as [decision|e]; [|done]. by injection Hown as <-.
  - injection Hown as <-. unfold approving, decided. by destruct (an_policy_denial input).
Qed.
Lemma replay_duplicate input request turn_id enqueue d r d' :
  replay_answer input request turn_id enqueue d = Ok (r, d') → r.(ao_receipt).(ar_duplicate) = true.
Proof.
  unfold replay_answer. intros H. destruct (is_some_and _ _); [|apply st_bind_Ok in H as (o & d1 & _ & H)].
  all: by apply checked_Ok in H as (_ & _ & ->).
Qed.

(** C4: A request is answered once.  After an answer commits, and whatever
    else runs short of dropping the session's inputs, every further answer to
    the request that does not fail writes nothing: it says that it is a
    duplicate, it carries the same answer id, it names the same turn, and,
    when the answer approved, the same response.  An approval is never
    applied twice, so what was revoked since stays revoked. *)
Theorem answered_once input d r d1 later again r2 d2 :
  answer_human_request input d = Ok (r, d1) → r.(ao_receipt).(ar_duplicate) = false →
  forallb keeps_inputs later = true →
  again.(an_request_id) = input.(an_request_id) →
  answer_human_request again (run later d1) = Ok (r2, d2) →
  d2 = run later d1
  ∧ r2.(ao_receipt).(ar_duplicate) = true
  ∧ again.(an_answer_id) = input.(an_answer_id)
  ∧ r2.(ao_receipt).(ar_turn_id) = r.(ao_receipt).(ar_turn_id)
  ∧ (approves input d = true → again.(an_response_hash) = input.(an_response_hash)).
Proof.
  intros H Hnew Hk Eid Hagain. apply answer_Ok in H as (request & turn_id & own & text & Hq & H).
  destruct H as [(Hst & -> & enqueue & H)|(_ & _ & task & _ & _ & _ & H)].
  { rewrite (replay_duplicate _ _ _ _ _ _ _ H) in Hnew. discriminate. }
  destruct (committed_answer_leaves _ _ _ _ _ _ _ _ _ Hq H) as (Er & i & Hi & Ha).
  destruct (answered_kept _ _ _ _ _ _ (inputs_evolve_run later d1 Hk) Hi Ha) as (i' & Hi' & Ha').
  destruct (replayed_Ok _ _ _ _ _ _ _ _ Eid Hi' Ha' Hagain) as (-> & E1 & E2 & _ & _ & E3 & E4).
  rewrite Er, (asked_approves _ _ _ _ _ _ Hq). by split_and!.
Qed.

(** ** Which step can find the scope busy

    Only the insertion of a task can: no other step of a conversion fails
    with [ScopeBusy]. *)

Definition spares {A} (r : Res StoreError A) : Prop := match r with Err e => scope_busy_error e = false | Ok _ => True end.
Definition unbusied {A} (m : M A) : Prop := ∀ d, spares (m d).

Lemma spares_bind {A B} (r : Res StoreError A) (f : A → Res StoreError B) :
  spares r → (∀ a, spares (f a)) → spares (r ≫= f).
Proof. destruct r; simpl; auto. Qed.
Lemma spares_ok_or {A} e (o : option A) : scope_busy_error e = false → spares (ok_or e o).
Proof. by destruct o. Qed.
Lemma unbusied_bind {A B} (m : M A) (f : A → M B) : unbusied m → (∀ a, unbusied (f a)) → unbusied (m ≫= f).
Proof. intros Hm Hf d. specialize (Hm d). unfold mbind, st_bind. destruct (m d) as [[a d1]|e]; [apply Hf|done]. Qed.
Lemma unbusied_ret {A} (a : A) : unbusied (mret a).
Proof. by intros d. Qed.
Lemma unbusied_gets {A} (f : Db → A) : unbusied (gets f).
Proof. by intros d. Qed.
Lemma unbusied_modify f : unbusied (modify f).
Proof. by intros d. Qed.
Lemma unbusied_lift {A} (r : Res StoreError A) : spares r → unbusied (lift r).
Proof. intros H d. unfold lift. by destruct r. Qed.
Lemma unbusied_guard b e : scope_busy_error e = false → unbusied (guard_or b e).
Proof. intros H d. by destruct b. Qed.
Lemma unbusied_for_each {A} (f : A → M unit) l : (∀ a, unbusied (f a)) → unbusied (for_each f l).
Proof. intros Hf. induction l; [apply unbusied_ret|by apply unbusied_bind; [|intros _]]. Qed.
Lemma unbusied_fresh : unbusied fresh.
Proof. by intros d. Qed.
Lemma unbusied_to_json `{!Table A} (r : A) : (∀ b, spares (json b r)) → unbusied (to_json r).
Proof. intros H d. unfold to_json. specialize (H (db_file d)). unfold lift. by destruct (json _ r). Qed.
Create HintDb busy discriminated.
Hint Resolve unbusied_ret unbusied_gets unbusied_modify unbusied_fresh : busy.

Ltac spare :=
  repeat match goal with
  | |- ∀ _, _ => intros ?
  | |- spares (mbind _ _) => apply spares_bind
  | |- spares (ok_or _ _) => apply spares_ok_or; done
  | |- spares (if ?b then _ else _) => destruct b
  | |- spares (match ?x with _ => _ end) => destruct x
  | |- spares (Ok _) => exact I
  | |- spares (mret _) => exact I
  | |- spares (Err _) => reflexivity
  | |- unbusied (mbind _ _) => apply unbusied_bind
  | |- unbusied (guard_or _ _) => apply unbusied_guard; reflexivity
  | |- unbusied (lift _) => apply unbusied_lift
  | |- unbusied (for_each _ _) => apply unbusied_for_each
  | |- unbusied (to_json _) => apply unbusied_to_json
  | |- unbusied (if ?b then _ else _) => destruct b
  | |- unbusied (match ?x with _ => _ end) => destruct x
  | |- _ => solve [auto with busy]
  end.

Lemma spares_int lo hi z : spares (json_int lo hi z).
Proof. unfold json_int. cbv zeta. spare. Qed.
Lemma spares_oint o : spares (json_oi64 o).
Proof. unfold json_oi64, json_i64. pose proof spares_int. spare. Qed.
Hint Resolve spares_int spares_oint : busy.
Hint Unfold json_i64 json_u64 : busy.
Lemma spares_rows b :
  (∀ r, spares (json_input b r)) ∧ (∀ r, spares (json_message b r)) ∧ (∀ r, spares (json_chat b r))
  ∧ (∀ r, spares (json_task b r)) ∧ (∀ r, spares (json_outbox b r)).
Proof.
  split_and!; intros r; unfold json_input, json_message, json_chat, json_task, json_outbox, json_pin, json_timestamp,
    json_i64, json_u64; spare.
Qed.
Lemma spares_epoch now : spares (epoch_of now).
Proof. unfold epoch_of. spare. Qed.
Hint Resolve spares_epoch : busy.

Lemma unbusied_insert_row `{!Table A} (r : A) : (∀ b, spares (json b r)) → unbusied (insert_row r).
Proof. intros H. unfold insert_row, get. spare. Qed.
Lemma unbusied_update_row `{!Table A} (r : A) : (∀ b, spares (json b r)) → unbusied (update_row r).
Proof. intros H. unfold update_row. spare. Qed.
Lemma unbusied_required `{!Table A} key : unbusied (required (A := A) key).
Proof. unfold required, get. spare. Qed.
Hint Resolve unbusied_required : busy.
Hint Extern 1 (unbusied (insert_row _)) => (apply unbusied_insert_row; intros b; apply (spares_rows b)) : busy.
Hint Extern 1 (unbusied (update_row _)) => (apply unbusied_update_row; intros b; apply (spares_rows b)) : busy.

Lemma unbusied_transition id from to patch now_text : unbusied (transition_input id from to patch now_text).
Proof. unfold transition_input, get_input, get, assert_agent_input_transition. spare. Qed.
Lemma unbusied_lifecycle task kind now : unbusied (lifecycle_event task kind now).
Proof. unfold lifecycle_event, enqueue. spare. Qed.
Lemma spares_ascend fuel messages cursor path p : ascend fuel messages cursor path = Some p → spares p.
Proof.
  revert cursor path. induction fuel as [|fuel IH]; intros [id|] path; simpl; try (by intros [= <-]).
  destruct (find_message _ _); [apply IH|by intros [= <-]].
Qed.
Lemma spares_path messages target : spares (path_of messages target).
Proof.
  unfold path_of. apply spares_bind; [by apply spares_ok_or|]. intros leaf.
  destruct (ascend _ _ _ _) as [p|] eqn:E; [|done]. by apply spares_ascend in E.
Qed.
Hint Resolve unbusied_transition unbusied_lifecycle spares_path : busy.
Lemma unbusied_append input now : unbusied (Conversations.append input now).
Proof.
  unfold Conversations.append, activate, activation, save_message, touch_chat, order_key_free, live_parent, sql_integer,
    chat_messages, select, get. spare.
Qed.
Hint Resolve unbusied_append : busy.

(** A task that is not inserted found its scope busy; one that is makes it so. *)
Lemma scope_busy_live scope d t : t ∈ d.(db_tasks) → t.(t_scope_id) = scope → is_terminal t.(t_status) = false →
  scope_busy scope d = true.
Proof.
  intros Ht <- Hs. unfold scope_busy. apply existsb_exists. exists t. split; [by apply list_elem_of_In|].
  by rewrite String.eqb_refl, Hs.
Qed.
Lemma unbusied_Err {A} (m : M A) d s : unbusied m → m d = Err (ScopeBusy s) → False.
Proof. intros Hm H. specialize (Hm d). by rewrite H in Hm. Qed.
Lemma unbusied_bind_Err {A B} (m : M A) (f : A → M B) d s : (m ≫= f) d = Err (ScopeBusy s) → unbusied m →
  ∃ a d1, m d = Ok (a, d1) ∧ f a d1 = Err (ScopeBusy s).
Proof.
  unfold mbind, st_bind. intros H Hm. specialize (Hm d). destruct (m d) as [[a d1]|e]; [by exists a, d1|].
  injection H as ->. done.
Qed.
Lemma insert_busy input d s : Tasks.insert input d = Err (ScopeBusy s) → scope_busy input.(s_scope_id) d = true.
Proof.
  intros H. unfold Tasks.insert, insert_bound in H.
  apply unbusied_bind_Err in H as (o & d1 & [-> ->]%st_gets_Ok & H); [|apply unbusied_gets].
  do 2 (apply unbusied_bind_Err in H as ([] & d1 & [_ ->]%st_guard_Ok & H); [|by apply unbusied_guard]).
  apply unbusied_bind_Err in H as (busy & d1 & [-> ->]%st_gets_Ok & H); [|apply unbusied_gets].
  destruct (s_exclusive_scope input && scope_busy _ d) eqn:E; [by apply andb_true_iff in E as [_ ?]|].
  exfalso. apply unbusied_bind_Err in H as (u & d1 & _ & H); [|exact (unbusied_ret tt)].
  revert H. apply unbusied_Err. unfold check_dependency, get. spare.
Qed.

(** The new row of a turn. *)
Definition turn_queued (scope id : string) (d : Db) : Prop := ∃ t,
  find_row id d.(db_tasks) = Some t ∧ t.(t_scope_id) = scope ∧ t.(t_status) = Queued.
Lemma turn_queued_busy scope id d : turn_queued scope id d → scope_busy scope d = true.
Proof. intros (t & [Ht _]%find_row_Some & Hs & Hq). apply (scope_busy_live _ _ t); [done..|by rewrite Hq]. Qed.
Lemma turn_queued_frame scope id d d' : frame d d' → turn_queued scope id d → turn_queued scope id d'.
Proof. intros [_ Ht _ _ _] H. unfold turn_queued. by rewrite Ht. Qed.
Lemma insert_stages input d t d' : Tasks.insert input d = Ok (t, d') → turn_queued input.(s_scope_id) input.(s_task_id) d'.
Proof.
  intros H. unfold Tasks.insert, insert_bound in H.
  apply st_bind_Ok in H as (o & d1 & [-> ->]%st_gets_Ok & H). apply st_bind_Ok in H as (? & ? & [Hnew ->]%st_guard_Ok & H).
  apply st_bind_Ok in H as (? & ? & [_ ->]%st_guard_Ok & H). apply st_bind_Ok in H as (busy & d1 & [-> ->]%st_gets_Ok & H).
  apply st_bind_Ok in H as (? & ? & [_ ->]%st_guard_Ok & H). apply st_bind_Ok in H as (? & d1 & _ & H).
  apply st_bind_Ok in H as (? & d2 & (j & Hj & Hf & ->)%insert_row_Ok & H).
  apply st_bind_Ok in H as (? & d3 & H3 & [_ ->]%st_ret_Ok).
  eapply turn_queued_frame; [apply (within_run _ _ _ _ _ H3); within_auto|]. exists j. simpl in *.
  unfold json_task in Hj. inv_res. split_and!; [|done..]. rewrite find_row_app, Hf. unfold find_row. simpl.
  by rewrite String.eqb_refl.
Qed.

Lemma convert_claimed_busy record candidate now_text now d s :
  convert_claimed record candidate now_text now d = Err (ScopeBusy s) →
  scope_busy candidate.(sc_task).(s_scope_id) d = true.
Proof.
  intros H. unfold convert_claimed in H.
  apply unbusied_bind_Err in H as (i & d1 & (? & j & _ & _ & _ & _ & _ & _ & ->)%transition_input_Ok & H); [|auto with busy].
  unfold mbind at 1, st_bind in H. destruct (Tasks.insert _ _) as [[t d2]|e] eqn:E.
  - exfalso. revert H. apply unbusied_Err. unfold convert_message, validate_projection. spare.
  - injection H as ->. by apply insert_busy in E.
Qed.
Lemma convert_claimed_stages record candidate now_text now d d' :
  convert_claimed record candidate now_text now d = Ok (tt, d') →
  turn_queued candidate.(sc_task).(s_scope_id) candidate.(sc_task).(s_task_id) d'
  ∧ ∃ i, find_row candidate.(sc_input_id) d'.(db_inputs) = Some i ∧ i.(i_status) = Converted.
Proof.
  intros H. unfold convert_claimed in H. apply st_bind_Ok in H as (i & d1 & H1 & H).
  apply st_bind_Ok in H as (t & d2 & H2 & H). split.
  - apply insert_stages in H2. eapply turn_queued_frame; [|exact H2].
    apply (within_run _ _ _ _ _ H); unfold convert_message; within_auto.
  - apply transition_input_moves in H1 as (j & Hj & Hst).
    assert (inputs_evolve d1 d') as Hev.
    { transitivity d2; [apply (within_run _ _ _ _ _ H2), walk_insert, _|apply (within_run _ _ _ _ _ H); unfold convert_message; walk]. }
    destruct (Hev _ _ Hj) as (j' & Hj' & He). exists j'. split; [done|]. destruct (ie_status _ _ He) as [|[? _]]; congruence.
Qed.

(** ** What a conversion may leave *)

(** Nothing of the queue waits: the scope has a live task, or the input is
    not a pending one of the session. *)
Definition no_longer (scope id : string) (d : Db) : Prop := ∀ i, find_row id d.(db_inputs) = Some i →
  i.(i_session_id) = scope → i.(i_status) = Pending → False.
Lemma convert_candidate_Ok scope candidate now d b d' :
  candidate.(sc_task).(s_scope_id) = scope → convert_candidate scope candidate now d = Ok (b, d') →
  scope_busy scope d' = true ∨ b = false ∧ d' = d ∧ no_longer scope candidate.(sc_input_id) d.
Proof.
  intros <- H. unfold convert_candidate, get_input in H.
  apply st_bind_Ok in H as (now_text & d1 & [_ ->]%st_lift_Ok & H). apply st_bind_Ok in H as (o & d1 & [-> ->]%st_gets_Ok & H).
  simpl in H. unfold no_longer. destruct (find_row _ _) as [record|]; [|right; by inv_st].
  destruct (_ || _) eqn:E.
  - inv_st. right. split_and!; [done..|]. intros i [= <-] Hs Hp. rewrite Hp, Hs, String.eqb_refl in E. done.
  - unfold savepoint in H. destruct (convert_claimed _ _ _ _ _) as [[[] d1]|e] eqn:C.
    + injection H as _ <-. left. apply convert_claimed_stages in C as [C _]. by eapply turn_queued_busy.
    + destruct (scope_busy_error e) eqn:Eb; [|done]. injection H as <- <-. left. destruct e; try done.
      by apply convert_claimed_busy in C.
Qed.

Definition staged_for (scope : string) (c : StagedCandidate) : Prop := c.(sc_task).(s_scope_id) = scope.
Lemma convert_first_Ok scope now candidates d b d' :
  (∀ c, c ∈ candidates → staged_for scope c) → convert_first scope now candidates d = Ok (b, d') →
  scope_busy scope d' = true ∨ b = false ∧ d' = d ∧ ∀ c, c ∈ candidates → no_longer scope c.(sc_input_id) d.
Proof.
  intros Hc. induction candidates as [|c candidates IH] in d, b, d', Hc |- *; simpl; intros H.
  { right. inv_st. split_and!; [done..|]. by intros c ?%elem_of_nil. }
  apply st_bind_Ok in H as (converted & d1 & H1 & H).
  apply convert_candidate_Ok in H1 as [Hb|(-> & -> & Hn)]; [..|apply Hc; by left].
  - left. destruct converted; [by inv_st|].
    destruct (IH _ _ _ (λ c' Hc', Hc c' (list_elem_of_further _ _ _ Hc')) H) as [?|(_ & -> & _)]; done.
  - destruct (IH _ _ _ (λ c' Hc', Hc c' (list_elem_of_further _ _ _ Hc')) H) as [?|(-> & -> & Hl)]; [by left|].
    right. split_and!; [done..|]. intros c' [->|Hin]%elem_of_cons; [done|by apply Hl].
Qed.

(** What [stage_missed] stages. *)
Lemma stage_missed_Ok staging record now o : stage_missed staging record now = Ok o →
  match o with
  | Some c => c.(sc_input_id) = record.(i_input_id) ∧ staged_for record.(i_session_id) c
  | None => queue_content record.(i_content) = None
  end.
Proof.
  unfold stage_missed. destruct (queue_content _); [|by intros [= <-]]. intros H. by inv_res.
Qed.
Lemma convert_missed_Ok staging scope now records d d' :
  (∀ r, r ∈ records → r.(i_session_id) = scope ∧ is_some (queue_content r.(i_content)) = true) →
  convert_missed staging scope now records d = Ok (tt, d') →
  scope_busy scope d' = true ∨ d' = d ∧ ∀ r, r ∈ records → no_longer scope r.(i_input_id) d.
Proof.
  intros Hr. induction records as [|r records IH] in d, d', Hr |- *; simpl; intros H.
  { right. inv_st. split; [done|]. by intros c ?%elem_of_nil. }
  apply st_bind_Ok in H as (o & d1 & [Ho%stage_missed_Ok ->]%st_lift_Ok & H).
  destruct (Hr r (list_elem_of_here _ _)) as [Hs Hq].
  destruct o as [c|]; [|by rewrite Ho in Hq]. destruct Ho as [Hid Hst]. rewrite Hs in Hst.
  apply st_bind_Ok in H as (converted & d1 & H1 & H).
  apply (convert_candidate_Ok _ _ _ _ _ _ Hst) in H1 as [Hb|(-> & -> & Hn)].
  - left. destruct converted; [by inv_st|].
    destruct (IH _ _ (λ c' Hc', Hr c' (list_elem_of_further _ _ _ Hc')) H) as [?|(-> & _)]; done.
  - destruct (IH _ _ (λ c' Hc', Hr c' (list_elem_of_further _ _ _ Hc')) H) as [?|(-> & Hl)]; [by left|].
    right. split; [done|]. intros c' [->|Hin]%elem_of_cons; [by rewrite <-Hid|by apply Hl].
Qed.

(** A task that keeps the queue from moving is live. *)
Lemma turn_busy_live scope kind exclude d :
  turn_busy scope kind exclude d || unrelated_live_task scope kind exclude d = true → scope_busy scope d = true.
Proof.
  unfold turn_busy, unrelated_live_task, holds_scope, queued.
  intros [H|H]%orb_true_iff; apply existsb_exists in H as (t & Ht%list_elem_of_In & H);
    rewrite !andb_true_iff in H; destruct H as [[[Hs%String.eqb_eq _] _] Hl]; apply (scope_busy_live _ _ t Ht Hs);
    destruct (t_status t); done.
Qed.

(** The inputs a settled turn may promote. *)
Definition waits (task : TaskRecord) (i : AgentInputRecord) : bool :=
  String.eqb i.(i_session_id) task.(t_scope_id) && negb (is_some i.(i_agent_id))
  && bool_decide (i.(i_kind) ∈ [FollowUp; Steer]) && bool_decide (i.(i_status) = Pending) && promotable i task.

Lemma promotable_pending_Ok task supplied d records d' : promotable_pending task supplied d = Ok (records, d') →
  (∀ i, i ∈ records ↔ i ∈ d.(db_inputs)
    ∧ negb (existsb (λ c, String.eqb c.(sc_input_id) i.(i_input_id)) supplied) && waits task i = true) ∧ d' = d.
Proof.
  unfold promotable_pending, list_inputs, select. intros H. inv_st.
  split; [|done]. intros i. rewrite elem_of_filter_by, elem_of_sort_by, elem_of_filter_by.
  unfold input_matches, waits. simpl. rewrite !andb_true_iff, !bool_decide_eq_true, list_elem_of_singleton. tauto.
Qed.

(** The host staged the input for the settlement: a candidate carries it, or
    the session's descriptor is there to stage whatever arrived since. *)
Definition reachable_by (extra : SessionSettle) (i : AgentInputRecord) : bool :=
  is_some extra.(se_staging)
  || existsb (λ c, String.eqb c.(sc_input_id) i.(i_input_id)) extra.(se_convert).

Lemma settle_inputs_moves_on extra task now d d' :
  (∀ c, c ∈ extra.(se_convert) → staged_for task.(t_scope_id) c) →
  settle_session_inputs extra task true now d = Ok (tt, d') →
  scope_busy task.(t_scope_id) d' = true
  ∨ ∀ id i, find_row id d'.(db_inputs) = Some i → waits task i && reachable_by extra i = false.
Proof.
  intros Hc H. unfold settle_session_inputs, list_inputs, select in H.
  apply st_bind_Ok in H as (now_text & d1 & [_ ->]%st_lift_Ok & H). apply st_bind_Ok in H as (steers & d1 & _ & H).
  apply st_bind_Ok in H as (u & d2 & _ & H). cbn [negb] in H. apply st_bind_Ok in H as (busy & d3 & [-> ->]%st_gets_Ok & H).
  destruct (turn_busy _ _ _ _ || _) eqn:Eb; [apply turn_busy_live in Eb; inv_st; by left|].
  apply st_bind_Ok in H as (promoted & d3 & H3 & H). apply (convert_first_Ok _ _ _ _ _ _ Hc) in H3.
  destruct promoted; [destruct H3 as [Hb|(? & _)]; [inv_st; by left|done]|].
  assert (scope_busy (t_scope_id task) d' = true ∨ d' = d3 ∧ ∀ staging i, extra.(se_staging) = Some staging →
    i ∈ d3.(db_inputs) → existsb (λ c, String.eqb c.(sc_input_id) i.(i_input_id)) extra.(se_convert) = false →
    waits task i = true → no_longer (t_scope_id task) i.(i_input_id) d3) as [Hb|(-> & Hl)]; [|by left|].
  { destruct (se_staging extra) as [staging|]; [|right; inv_st; by split].
    apply st_bind_Ok in H as (records & d4 & [Hrec ->]%promotable_pending_Ok & H).
    apply convert_missed_Ok in H as [Hb|(-> & Hl)]; [by left|right; split; [done|]|].
    - intros st i _ Hin Ec Ew. apply Hl, Hrec. by rewrite Ec, Ew.
    - intros r [_ [_ Hr]%andb_true_iff]%Hrec. unfold waits, promotable in Hr. rewrite !andb_true_iff, String.eqb_eq in Hr. tauto. }
  destruct H3 as [Hb|(_ & -> & Hf)]; [by left|]. right. intros id i Hi.
  destruct (waits task i) eqn:Ew; [|done]. simpl. apply not_true_iff_false. intros Er.
  apply find_row_Some in Hi as Hid. destruct Hid as [Hin Hid]. simpl in Hid.
  assert (i.(i_session_id) = task.(t_scope_id) ∧ i.(i_status) = Pending) as [Hses Hp].
  { unfold waits in Ew. rewrite !andb_true_iff, !bool_decide_eq_true, String.eqb_eq in Ew. tauto. }
  unfold reachable_by in Er. destruct (existsb _ _) eqn:Ec.
  - apply existsb_exists in Ec as (c & Hc'%list_elem_of_In & Ec%String.eqb_eq).
    refine (Hf c Hc' i _ Hses Hp). by rewrite Ec, Hid.
  - destruct (se_staging extra) as [staging|]; [|done].
    refine (Hl staging i eq_refl Hin Ec Ew i _ Hses Hp). by rewrite Hid.
Qed.

(** C5: A settled turn never leaves its session idle with work it could have
    started.  After a settlement that completes a turn commits, its candidates
    being staged for that session, either some task of the session is still
    to run, be answered or be resumed; or no queued follow-up and no steer the
    turn might have taken is left pending among those the host could stage:
    the inputs its candidates carry, and every other one, also one that
    arrived in between, when the session's descriptor was supplied.  Without
    the descriptor only an input outside the candidates may stay pending. *)
Theorem queue_moves_on input extra d task d' :
  settle_session input extra d = Ok (task, d') → task.(t_status) = Completed →
  (∀ c, c ∈ extra.(se_convert) → staged_for task.(t_scope_id) c) →
  scope_busy task.(t_scope_id) d' = true
  ∨ ∀ id i, find_row id d'.(db_inputs) = Some i → waits task i && reachable_by extra i = false.
Proof.
  intros (d1 & lease & t & _ & H)%settle_inner_Ok Hcomp Hc. rewrite Hcomp, bool_decide_eq_true_2 in H by done.
  exact (settle_inputs_moves_on _ _ _ _ _ Hc H).
Qed.
(** ** Admission to the queue *)

Lemma convert_candidate_true scope candidate now d d' :
  convert_candidate scope candidate now d = Ok (true, d') →
  turn_queued candidate.(sc_task).(s_scope_id) candidate.(sc_task).(s_task_id) d'
  ∧ ∃ i, find_row candidate.(sc_input_id) d'.(db_inputs) = Some i ∧ i.(i_status) = Converted.
Proof.
  intros H. unfold convert_candidate, get_input in H.
  apply st_bind_Ok in H as (now_text & d1 & [_ ->]%st_lift_Ok & H). apply st_bind_Ok in H as (o & d1 & [_ ->]%st_gets_Ok & H).
  destruct o as [record|]; [|by apply st_ret_Ok in H as [? _]].
  destruct (negb (bool_decide (record.(i_status) = Pending)) || _); [by apply st_ret_Ok in H as [? _]|]. unfold savepoint in H.
  destruct (convert_claimed _ _ _ _ _) as [[[] d1]|e] eqn:C; [|by destruct (scope_busy_error e)].
  injection H as <-. by apply convert_claimed_stages in C.
Qed.

(** The input a request creates, or finds again: what the code compares, and
    the state it is in. *)
Record kept_input (input : CreateAgentInput) (status : AgentInputStatus) (i : AgentInputRecord) : Prop := {
  ki_session : i.(i_session_id) = input.(cr_session_id);
  ki_kind : i.(i_kind) = input.(cr_kind);
  ki_hash : i.(i_content_hash) = input.(cr_content_hash);
  ki_agent : i.(i_agent_id) = None;
  ki_status : i.(i_status) = status
}.
Lemma insert_input_row input now_text d r b d1 : insert_input input now_text d = Ok ((r, b), d1) →
  r.(i_input_id) = input.(cr_input_id)
  ∧ ∃ i, find_row input.(cr_input_id) d1.(db_inputs) = Some i ∧ kept_input input r.(i_status) i.
Proof.
  intros H. unfold insert_input in H. apply st_bind_Ok in H as (u & d2 & [_ ->]%st_lift_Ok & H).
  apply st_bind_Ok in H as (o & d2 & [-> ->]%st_gets_Ok & H). simpl in H.
  destruct (find_row _ _) as [i|] eqn:Ef.
  - destruct (input_conflicts i input) eqn:Ec; [inv_st|]. apply st_ret_Ok in H as [[= -> _] ->].
    apply input_conflicts_spec in Ec as (Hs & Hk & Hh & Ha). apply find_row_Some in Ef as Hid. destruct Hid as [_ Hid].
    split; [exact Hid|]. exists i. by split.
  - apply st_bind_Ok in H as (order & d2 & H2 & H). apply st_bind_Ok in H as (? & d3 & (j & Hj & Hf & ->)%insert_row_Ok & H).
    apply st_ret_Ok in H as [[= -> _] ->]. split; [done|]. exists j. simpl in *. unfold json_input in Hj. inv_res.
    split; [|by split]. rewrite find_row_app, Hf. unfold find_row. simpl. by rewrite String.eqb_refl.
Qed.

Lemma active_turn_busy pick session d turn : active_turn pick session d = Some turn → scope_busy session d = true.
Proof.
  unfold active_turn, live_turn, holds_scope, queued. intros H%list_elem_of_lookup_2. apply elem_of_filter_by in H as [Hl Ht].
  rewrite andb_true_iff in Hl. destruct Hl as [Hs%String.eqb_eq Hl]. apply (scope_busy_live _ _ turn Ht Hs).
  destruct (t_status turn); done.
Qed.

(** The candidate the host stages for the input it admits. *)
Definition staged_input (input : QueueOrStage) : Prop :=
  input.(qs_input).(cr_session_id) = input.(qs_session_id)
  ∧ ∀ c, input.(qs_candidate) = Some c →
    staged_for input.(qs_session_id) c ∧ c.(sc_input_id) = input.(qs_input).(cr_input_id).

(** The request, aimed at the live turn when the host asks for that. *)
Lemma aimed_keeps active input i status :
  kept_input (match active with
    | Some turn => if input.(qs_target_the_live_turn) then aimed_at turn.(t_task_id) input.(qs_input) else input.(qs_input)
    | None => input.(qs_input) end) status i → kept_input input.(qs_input) status i.
Proof. destruct active as [turn|]; [|done]. destruct (qs_target_the_live_turn input); [|done]. intros []. by split. Qed.
Lemma aimed_id (active : option TaskRecord) input :
  (match active with
    | Some turn => if input.(qs_target_the_live_turn) then aimed_at turn.(t_task_id) input.(qs_input) else input.(qs_input)
    | None => input.(qs_input) end).(cr_input_id) = input.(qs_input).(cr_input_id).
Proof. destruct active as [turn|]; [|done]. by destruct (qs_target_the_live_turn input). Qed.

End laws.

(** An approval, given again after a revocation. *)
Definition ex_ask : ParkTurn :=
  mkPark (mkFence "t1" "id2" 1) None []
    (Some (mkCreateInput "i1" "chat" HumanRequest (VObj [("kind", VStr "approval"); ("toolName", VStr "bash")]) "hash" (Some "t1") None (Some "a1") (Some "call1") None)) 2.
Definition ex_asked : list Op := ex_claim_ops ++ [OpPark ex_ask].
Definition ex_approve (now : Z) : AnswerHumanRequest :=
  mkAnswer "i1" "answer1" (VObj [("decision", VStr "approve")]) "digest" now "m1" [] None None.
Lemma answered_once_witness :
  let host := example_host in let d := run ex_asked (empty_db true) in
  ∃ r d1 r2, answer_human_request (ex_approve 3) d = Ok (r, d1) ∧ r.(ao_receipt).(ar_duplicate) = false
    ∧ answer_human_request (ex_approve 9) (run ex_later_ops d1) = Ok (r2, run ex_later_ops d1)
    ∧ approves (ex_approve 3) d = true ∧ r2.(ao_receipt).(ar_duplicate) = true.
Proof.
  intros host d.
  destruct (answer_human_request (ex_approve 3) d) as [[r d1]|e] eqn:E; [|vm_compute in E; discriminate E].
  destruct (answer_human_request (ex_approve 9) (run ex_later_ops d1)) as [[r2 d2]|e] eqn:E2;
    [|exfalso; vm_compute in E; injection E as <- <-; vm_compute in E2; discriminate E2].
  assert (ar_duplicate (ao_receipt r) = false) as Hd by (vm_compute in E; injection E as <- <-; reflexivity).
  destruct (answered_once (ex_approve 3) d r d1 ex_later_ops (ex_approve 9) r2 d2 E Hd eq_refl eq_refl E2) as (-> & H2 & _).
  exists r, d1, r2. split; [reflexivity|]. split; [exact Hd|]. split; [exact E2|]. split; [vm_compute; reflexivity|exact H2].
Defined.

(** A session whose turn runs while a follow-up waits. *)
Definition ex_follow (id text : string) : CreateAgentInput :=
  mkCreateInput id "chat" FollowUp (VObj [("content", VStr text)]) "hash" None None None None None.
Definition ex_busy_chat : list Op :=
  [OpCreateChat "chat" None (VObj []) 0; OpSubmit (ex_submit "t1" "chat" 0); OpClaim default_aging (ex_claim 1) u64_max].
Definition ex_followed : list Op := ex_busy_chat ++ [OpCreateInput (ex_follow "i1" "and then?") 2].
Definition ex_session_settle : SessionSettle := mkSessionSettle [] None (Some (mkStaging "turn" (VObj [("chatId", VStr "chat")]))).
Lemma queue_moves_on_witness :
  let host := example_host in let d := run ex_followed (empty_db true) in
  ∃ task d', settle_session (ex_settle (mkFence "t1" "id2" 1) 5) ex_session_settle d = Ok (task, d')
    ∧ i_status <$> find_row "i1" d'.(db_inputs) = Some Converted
    ∧ t_status <$> find_row "turn:i1" d'.(db_tasks) = Some Queued
    ∧ (scope_busy task.(t_scope_id) d' = true ∨ ∀ id i, find_row id d'.(db_inputs) = Some i → waits task i && reachable_by ex_session_settle i = false).
Proof.
  intros host d.
  destruct (settle_session (ex_settle (mkFence "t1" "id2" 1) 5) ex_session_settle d) as [[task d']|e] eqn:E;
    [|vm_compute in E; discriminate E].
  assert (t_status task = Completed ∧ i_status <$> find_row "i1" d'.(db_inputs) = Some Converted
    ∧ t_status <$> find_row "turn:i1" d'.(db_tasks) = Some Queued) as (Hst & Hi & Ht)
    by (vm_compute in E; injection E as <- <-; repeat split; vm_compute; reflexivity).
  exists task, d'. split; [reflexivity|]. split; [exact Hi|]. split; [exact Ht|].
  exact (queue_moves_on (ex_settle (mkFence "t1" "id2" 1) 5) ex_session_settle d task d' E Hst
    (λ c Hc, False_ind _ (not_elem_of_nil _ Hc))).
Defined.

(** An input admitted to an idle session starts a turn at once. *)
Definition ex_candidate : StagedCandidate :=
  mkCandidate "i1" (mkSubmit "turn:i1" "turn" "chat" (VObj []) 0 3 None [] None true)
    [mkMessageInput (Some "m1") "chat" None "user" (VStr "hello") None None None None (VObj []) true false].
Definition ex_admission : QueueOrStage := mkQueueOrStage "chat" "turn" (ex_follow "i1" "hello") true (Some ex_candidate) 3.
