(* ===== verification/Elision.v ===== *)
(** * Stale tool results

    [host/src/tool_result_elision.rs]: the results of tools called some turns
    ago are cut to head and tail before the provider sees them.  Lengths are
    JavaScript's: UTF-16 code units.  The cut of a stale result keeps a
    beginning and an end of the text whole, says exactly how much it left out,
    and is shorter; nothing but the content of results before the kept turns
    changes. *)

From S2P Require Export ToolContent Store.
From S2P Require Import Edits CanonicalArgs TaskOps.
From stdpp Require Import pretty.
Local Open Scope Z_scope.

Definition default_keep_recent_turns : Z := 2.
Definition default_max_chars : Z := 6000.
Definition default_head_chars : Z := 2000.
Definition default_tail_chars : Z := 1000.

Record ToolResultElisionOptions := mkElisionOptions {
  keep_recent_turns : Z;
  max_chars : Z;
  head_chars : Z;
  tail_chars : Z
}.
Record Elision := mkElision { el_elided : Z; el_saved_chars : Z }.

(** An entry of the history: a message, and the id of the record it shows. *)
Abbreviation Entry := (ChatMessage * option string)%type.

(** ** Code units *)

Definition text_chars (text : string) : list char := chars (lit text).
Definition units_of (text : string) : Z := Z.of_nat (utf16_len (text_chars text)).
Definition len_utf16 (ch : char) : Z := if ch <? 0x10000 then 1 else 2.
Definition len_utf8 (ch : char) : Z := Z.of_nat (length (encode_char ch)).
(** [&text[from..to]] *)
Definition byte_slice (from to : Z) (text : string) : string :=
  String.substring (Z.to_nat from) (Z.to_nat (to - from)) text.

(** The bytes of the characters that fit in [units]. *)
Fixpoint fitting (units used bytes : Z) (cs : list char) : Z :=
  match cs with
  | [] => bytes
  | ch :: cs =>
      if units <? used + len_utf16 ch then bytes
      else fitting units (used + len_utf16 ch) (bytes + len_utf8 ch) cs
  end.
Definition take_units (text : string) (units : Z) : string :=
  byte_slice 0 (fitting units 0 0 (text_chars text)) text.
Definition take_tail_units (text : string) (units : Z) : string :=
  byte_slice (byte_len text - fitting units 0 0 (rev (text_chars text))) (byte_len text) text.

(** ** One text *)

Definition newline : string := String "010" EmptyString.
Definition elision_notice (omitted : Z) : string :=
  newline +:+ "…[" +:+ pretty omitted +:+ " characters of an earlier tool result elided; call the tool again if you need them]…" +:+ newline.
Definition elide_text (text : string) (options : ToolResultElisionOptions) : option string :=
  let total := units_of text in
  if total <=? options.(max_chars) then None
  else
    let head := take_units text options.(head_chars) in
    let tail := if 0 <? options.(tail_chars) then take_tail_units text options.(tail_chars) else "" in
    let omitted := total - units_of head - units_of tail in
    if omitted <=? 0 then None
    else
      let cut := head +:+ elision_notice omitted +:+ tail in
      if units_of cut <? total then Some cut else None.

(** ** The history *)

(** The messages from the oldest kept turn on; every message of a user opens
    a turn. *)
Fixpoint first_kept_from (rev_messages : list Entry) (turns_seen keep : Z) : nat :=
  match rev_messages with
  | [] => 0
  | (message, _) :: rest =>
      if negb (String.eqb message.(cm_role) "user") then first_kept_from rest turns_seen keep
      else if keep <=? turns_seen + 1 then length rest
      else first_kept_from rest (turns_seen + 1) keep
  end.
Definition first_kept_index (messages : list Entry) (keep : Z) : nat := first_kept_from (rev messages) 0 keep.

(** A text part is rewritten whole; any other part is left alone. *)
Definition elide_part (options : ToolResultElisionOptions) (part : Value) : option (Value * Z) :=
  if negb (bool_decide ((vget part "type" ≫= as_str) = Some "text")) then None
  else
    text ← vget part "text" ≫= as_str;
    cut ← elide_text text options;
    Some (VObj [("type", VStr "text"); ("text", VStr cut)], units_of text - units_of cut).
Definition kept_part (options : ToolResultElisionOptions) (part : Value) : Value :=
  from_option fst part (elide_part options part).
Definition saved_in (options : ToolResultElisionOptions) (parts : list Value) : Z :=
  foldr Z.add 0 (omap (λ part, snd <$> elide_part options part) parts).

(** The new content of a stale result and the units it saves. *)
Definition elide_content (options : ToolResultElisionOptions) (content : Value) : option (Value * Z) :=
  match content with
  | VStr text => cut ← elide_text text options; Some (VStr cut, units_of text - units_of cut)
  | VArr parts =>
      if existsb (λ part, is_some (elide_part options part)) parts
      then Some (VArr (map (kept_part options) parts), saved_in options parts) else None
  | _ => None
  end.
Definition with_content (message : ChatMessage) (content : Value) : ChatMessage :=
  mkChatMessage message.(cm_role) content message.(cm_name) message.(cm_tool_call_id) message.(cm_tool_calls) message.(cm_metadata).

Fixpoint elide_from (options : ToolResultElisionOptions) (boundary index : nat) (messages : list Entry) (result : Elision)
    : list Entry * Elision :=
  match messages with
  | [] => ([], result)
  | (message, id) :: rest =>
      let '(message, result) :=
        if bool_decide (boundary ≤ index)%nat || negb (String.eqb message.(cm_role) "tool") then (message, result)
        else match elide_content options message.(cm_content) with
             | Some (content, saved) =>
                 (with_content message content, mkElision (result.(el_elided) + 1) (result.(el_saved_chars) + saved))
             | None => (message, result)
             end in
      let '(rest, result) := elide_from options boundary (S index) rest result in
      ((message, id) :: rest, result)
  end.
Definition elide_stale_tool_results (messages : list Entry) (options : ToolResultElisionOptions) : list Entry * Elision :=
  elide_from options (first_kept_index messages (Z.max 1 options.(keep_recent_turns))) 0 messages (mkElision 0 0).

Section resolve.
Context {host : Host}.

(** [Value::as_u64]: a number whose text is an integer of 64 bits, which that
    of negative zero, [-0.0], is not. *)
Definition as_u64 (v : Value) : option Z :=
  match v with
  | VNum (JFin q) =>
      if bool_decide (Qden q = 1%positive) then
        let z := js_int (Qnum q) in if in_range 0 u64_max z then Some z else None
      else None
  | _ => None
  end.

(** [None]: switched off. *)
Definition resolve_tool_result_elision (options : option Value) : option ToolResultElisionOptions :=
  match options with
  | Some (VBool false) => None
  | Some (VObj values) => Some (mkElisionOptions
      (default default_keep_recent_turns (obj_get "keepRecentTurns" values ≫= as_u64))
      (default default_max_chars (obj_get "maxChars" values ≫= as_u64)) default_head_chars default_tail_chars)
  | _ => Some (mkElisionOptions default_keep_recent_turns default_max_chars default_head_chars default_tail_chars)
  end.
End resolve.

(** ** What elision drops *)

(** ** Slices of a text *)

Lemma lit_app a b : lit (a +:+ b) = lit a ++ lit b.
Proof. induction a as [|c a IH]; [done|]. unfold lit in *. simpl. by rewrite IH. Qed.
Lemma lit_length s : length (lit s) = String.length s.
Proof. induction s as [|c s IH]; [done|]. unfold lit in *. simpl. by rewrite IH. Qed.
Lemma lit_substring n m s : lit (String.substring n m s) = take m (drop n (lit s)).
Proof.
  revert n m. induction s as [|c s IH]; intros n m; [by destruct n, m|].
  destruct n as [|n]; [destruct m as [|m]; [done|]|]; unfold lit in *; simpl; [|apply IH]. f_equal. apply (IH 0%nat).
Qed.

(** A Rust string: its bytes are the encoding of its characters. *)
Definition utf8 (s : string) : Prop := valid_utf8 (lit s) = true.
Lemma utf8_chars s : utf8 s → lit s = encode (text_chars s) ∧ Forall (λ c, is_scalar c = true) (text_chars s).
Proof.
  unfold utf8, valid_utf8, text_chars, chars. destruct (decode (lit s)) as [cs|] eqn:E; [intros _|done].
  apply encode_decode in E as [<- ?]; [done|]. apply lit_bytes.
Qed.
Lemma chars_utf8 s cs : Forall (λ c, is_scalar c = true) cs → lit s = encode cs → utf8 s ∧ text_chars s = cs.
Proof. intros Hs E. unfold utf8, valid_utf8, text_chars, chars. by rewrite E, decode_encode. Qed.

Lemma encode_app a b : encode (a ++ b) = encode a ++ encode b.
Proof. unfold encode. by rewrite map_app, concat_app. Qed.
Lemma utf16_len_app a b : utf16_len (a ++ b) = (utf16_len a + utf16_len b)%nat.
Proof. unfold utf16_len. by rewrite map_app, list_sum_app. Qed.
Lemma utf16_len_rev a : utf16_len (rev a) = utf16_len a.
Proof. induction a as [|c a IH]; [done|]. simpl. rewrite utf16_len_app, IH. unfold utf16_len. simpl. lia. Qed.
Lemma encode_rev_length a : length (encode (rev a)) = length (encode a).
Proof.
  induction a as [|c a IH]; [done|]. simpl. rewrite encode_app, length_app, IH. unfold encode. simpl.
  rewrite app_nil_r, length_app. lia.
Qed.

Lemma utf16_len_cons c cs : Z.of_nat (utf16_len (c :: cs)) = len_utf16 c + Z.of_nat (utf16_len cs).
Proof.
  change (utf16_len (c :: cs)) with ((if (c <? 0x10000)%Z then 1 else 2) + utf16_len cs)%nat. unfold len_utf16.
  destruct (c <? 0x10000); lia.
Qed.
Lemma encode_length_cons c cs : Z.of_nat (length (encode (c :: cs))) = len_utf8 c + Z.of_nat (length (encode cs)).
Proof. unfold encode, len_utf8. cbn [map concat]. rewrite length_app. lia. Qed.

Lemma units_app a b : utf8 a → utf8 b → utf8 (a +:+ b) ∧ units_of (a +:+ b) = units_of a + units_of b.
Proof.
  intros [Ea Ha]%utf8_chars [Eb Hb]%utf8_chars. destruct (chars_utf8 (a +:+ b) (text_chars a ++ text_chars b)) as [Hu Hc].
  - by apply Forall_app.
  - by rewrite lit_app, encode_app, Ea, Eb.
  - split; [done|]. unfold units_of. rewrite Hc, utf16_len_app. lia.
Qed.

(** The characters that fit. *)
Lemma fitting_spec units used bytes cs : used ≤ units → ∃ k,
  fitting units used bytes cs = bytes + Z.of_nat (length (encode (take k cs)))
  ∧ used + Z.of_nat (utf16_len (take k cs)) ≤ units.
Proof.
  revert used bytes. induction cs as [|c cs IH]; intros used bytes Hu; cbn [fitting]; [exists 0%nat; split; [by rewrite Z.add_0_r|]; unfold utf16_len; simpl; lia|].
  destruct (Z.ltb_spec units (used + len_utf16 c)) as [Hlt|Hle].
  - exists 0%nat. split; [by rewrite Z.add_0_r|]. unfold utf16_len. simpl. lia.
  - destruct (IH (used + len_utf16 c) (bytes + len_utf8 c) Hle) as (k & -> & Hk). exists (S k).
    cbn [take]. rewrite utf16_len_cons, encode_length_cons. split; lia.
Qed.

Lemma take_encode k cs : take (length (encode (take k cs))) (encode cs) = encode (take k cs).
Proof. rewrite <-(take_drop k cs) at 2. rewrite encode_app. apply take_app_length. Qed.
Lemma drop_encode k cs : drop (length (encode (take k cs))) (encode cs) = encode (drop k cs).
Proof. rewrite <-(take_drop k cs) at 2. rewrite encode_app. apply drop_app_length. Qed.

Lemma take_units_spec text units : utf8 text → 0 ≤ units → ∃ k,
  lit (take_units text units) = encode (take k (text_chars text)) ∧ Z.of_nat (utf16_len (take k (text_chars text))) ≤ units.
Proof.
  intros [E _]%utf8_chars Hu. unfold take_units, byte_slice. destruct (fitting_spec units 0 0 (text_chars text) Hu) as (k & -> & Hk).
  exists k. split; [|done]. rewrite lit_substring, E, Z.sub_0_r, Z.add_0_l, Nat2Z.id. apply take_encode.
Qed.
Lemma take_tail_spec text units : utf8 text → 0 ≤ units → ∃ k,
  lit (take_tail_units text units) = encode (drop k (text_chars text)) ∧ Z.of_nat (utf16_len (drop k (text_chars text))) ≤ units.
Proof.
  intros [E _]%utf8_chars Hu. unfold take_tail_units, byte_slice.
  destruct (fitting_spec units 0 0 (rev (text_chars text)) Hu) as (k & -> & Hk). set (cs := text_chars text) in *.
  exists (length cs - k)%nat. rewrite firstn_rev, utf16_len_rev in Hk. split; [|done].
  rewrite firstn_rev, encode_rev_length, lit_substring, E.
  assert (byte_len text = Z.of_nat (length (encode cs))) as ->.
  { unfold byte_len. rewrite <-E. by rewrite lit_length. }
  set (j := (length cs - k)%nat). assert (encode cs = encode (take j cs) ++ encode (drop j cs)) as E2 by by rewrite <-encode_app, take_drop.
  rewrite E2, length_app.
  replace (Z.to_nat (_ - (0 + _))) with (length (encode (take j cs))) by lia. rewrite drop_app_length. apply take_ge. lia.
Qed.

(** ** One text *)

(** What a cut says it did: [middle] left out of [head ++ middle ++ tail]. *)
Record cut_of (options : ToolResultElisionOptions) (text cut : string) : Prop := {
  co_parts : ∃ head middle tail, text = head +:+ middle +:+ tail ∧ cut = head +:+ elision_notice (units_of middle) +:+ tail
    ∧ utf8 head ∧ utf8 middle ∧ utf8 tail
    ∧ units_of head ≤ options.(head_chars) ∧ units_of tail ≤ options.(tail_chars) ∧ 0 < units_of middle;
  co_shorter : units_of cut < units_of text;
  co_long : options.(max_chars) < units_of text
}.

Lemma parts_of text i j h t : utf8 text → (i ≤ j)%nat →
  lit h = encode (take i (text_chars text)) → lit t = encode (drop j (text_chars text)) →
  ∃ middle, text = h +:+ middle +:+ t ∧ utf8 h ∧ utf8 middle ∧ utf8 t
    ∧ units_of h = Z.of_nat (utf16_len (take i (text_chars text))) ∧ units_of t = Z.of_nat (utf16_len (drop j (text_chars text)))
    ∧ units_of middle = units_of text - units_of h - units_of t.
Proof.
  intros Hu Hij Eh Et. pose proof (utf8_chars _ Hu) as [E Hs]. set (cs := text_chars text) in *.
  assert (cs = take i cs ++ take (j - i) (drop i cs) ++ drop j cs) as Ecs.
  { rewrite <-(take_drop i cs) at 1. f_equal. rewrite <-(take_drop (j - i) (drop i cs)) at 1. rewrite drop_drop. do 2 f_equal. lia. }
  assert (Forall (λ c, is_scalar c = true) (take i cs) ∧ Forall (λ c, is_scalar c = true) (take (j - i) (drop i cs))
    ∧ Forall (λ c, is_scalar c = true) (drop j cs)) as (H1 & H2 & H3) by (rewrite Ecs, !Forall_app in Hs; tauto).
  set (m := String.substring (length (encode (take i cs))) (length (encode (take (j - i) (drop i cs)))) text).
  assert (lit m = encode (take (j - i) (drop i cs))) as Em.
  { unfold m. by rewrite lit_substring, E, drop_encode, take_encode. }
  destruct (chars_utf8 h _ H1 Eh) as [Uh Ch]. destruct (chars_utf8 m _ H2 Em) as [Um Cm]. destruct (chars_utf8 t _ H3 Et) as [Ut Ct].
  assert (text = h +:+ m +:+ t) as Etext by (apply lit_inj; rewrite !lit_app, Eh, Em, Et, E, Ecs at 1; by rewrite !encode_app).
  destruct (units_app m t Um Ut) as [Umt Emt]. destruct (units_app h (m +:+ t) Uh Umt) as [_ Eall]. rewrite <-Etext in Eall.
  exists m. split_and!; try done; [unfold units_of; by rewrite Ch|unfold units_of; by rewrite Ct|lia].
Qed.

Lemma elide_text_cut options text cut :
  utf8 text → 0 ≤ options.(head_chars) → 0 ≤ options.(tail_chars) → elide_text text options = Some cut →
  cut_of options text cut.
Proof.
  intros Hu Hh Ht0 H. unfold elide_text in H. destruct (Z.leb_spec (units_of text) (max_chars options)) as [|Hmax]; [done|].
  destruct (take_units_spec text (head_chars options) Hu Hh) as (i & Eh & Hi).
  set (h := take_units text (head_chars options)) in *.
  set (t := if 0 <? tail_chars options then take_tail_units text (tail_chars options) else "") in *.
  assert (∃ j, lit t = encode (drop j (text_chars text)) ∧ Z.of_nat (utf16_len (drop j (text_chars text))) ≤ Z.max 0 (tail_chars options)) as (j & Et & Hj).
  { unfold t. destruct (Z.ltb_spec 0 (tail_chars options)) as [Ht|Ht].
    - destruct (take_tail_spec text (tail_chars options) Hu) as (k & ? & ?); [lia|]. exists k. split; [done|lia].
    - exists (length (text_chars text)). rewrite drop_ge by done. split; [done|]. unfold utf16_len. simpl. lia. }
  pose proof (utf8_chars _ Hu) as [_ Hs]. set (cs := text_chars text) in *.
  destruct (chars_utf8 h (take i cs)) as [_ Ch]; [by apply Forall_take|done|].
  destruct (chars_utf8 t (drop j cs)) as [_ Ct]; [by apply Forall_drop|done|].
  destruct (Z.leb_spec (units_of text - units_of h - units_of t) 0) as [|Homit]; [done|].
  assert (units_of h = Z.of_nat (utf16_len (take i cs)) ∧ units_of t = Z.of_nat (utf16_len (drop j cs))) as [Uh Ut]
    by (unfold units_of; by rewrite Ch, Ct).
  assert (i ≤ j)%nat as Hij.
  { apply Nat.nlt_ge. intros Hlt. assert (utf16_len cs = (utf16_len (take i cs) + utf16_len (drop i cs))%nat) as Hcs
      by (by rewrite <-utf16_len_app, take_drop).
    assert (utf16_len (drop j cs) = (utf16_len (take (i - j) (drop j cs)) + utf16_len (drop i cs))%nat) as Hd.
    { rewrite <-utf16_len_app. f_equal. rewrite <-(take_drop (i - j) (drop j cs)) at 1. rewrite drop_drop. do 2 f_equal. lia. }
    assert (units_of text = Z.of_nat (utf16_len cs)) by done. lia. }
  destruct (parts_of text i j h t Hu Hij Eh Et) as (middle & Etext & H1 & H2 & H3 & _ & _ & Em). rewrite <-Em in H, Homit.
  destruct (Z.ltb_spec (units_of (h +:+ elision_notice (units_of middle) +:+ t)) (units_of text)) as [Hlt|]; [|done].
  injection H as <-. split; [|done|done]. exists h, middle, t. split_and!; try done; lia.
Qed.

(** ** The history *)

(** What a pass may do to an entry. *)
Definition elided (options : ToolResultElisionOptions) (e e' : Entry) : Prop :=
  e' = e ∨ e.1.(cm_role) = "tool" ∧ ∃ content saved, elide_content options e.1.(cm_content) = Some (content, saved)
    ∧ e' = (with_content e.1 content, e.2).
Lemma elide_from_spec options boundary index messages result :
  let out := (elide_from options boundary index messages result).1 in
  Forall2 (elided options) messages out ∧ drop (boundary - index) out = drop (boundary - index) messages.
Proof.
  revert index result. induction messages as [|[m id] messages IH]; intros index result; simpl.
  { split; [constructor|done]. }
  case_bool_decide as Hb.
  - cbn [orb]. destruct (elide_from _ _ _ _ _) as [rest r] eqn:E. cbn [fst].
    destruct (IH (S index) result) as [H1 H2]. rewrite E in H1, H2. cbn [fst] in H1, H2.
    split; [constructor; [by left|done]|]. replace (boundary - index)%nat with 0%nat by lia.
    replace (boundary - S index)%nat with 0%nat in H2 by lia. rewrite drop_0 in *. by rewrite H2.
  - assert (∀ m' r', elided options (m, id) (m', id) →
      Forall2 (elided options) ((m, id) :: messages) (let '(rest, result) := elide_from options boundary (S index) messages r' in ((m', id) :: rest, result)).1
      ∧ drop (boundary - index) (let '(rest, result) := elide_from options boundary (S index) messages r' in ((m', id) :: rest, result)).1
        = drop (boundary - index) ((m, id) :: messages)) as K.
    { intros m' r' Hm. destruct (IH (S index) r') as [H1 H2]. destruct (elide_from _ _ _ _ _) as [rest r]. cbn [fst] in *.
      split; [by constructor|]. replace (boundary - index)%nat with (S (boundary - S index)) by lia. exact H2. }
    destruct (String.eqb_spec (cm_role m) "tool") as [Hr|]; [|apply K; by left]. cbn [orb negb].
    destruct (elide_content options (cm_content m)) as [[content saved]|] eqn:Ec; [|apply K; by left].
    apply K. right. split; [done|]. by exists content, saved.
Qed.

(** The text of a content, as the pass reads it. *)
Definition part_text (part : Value) : option string :=
  if bool_decide ((vget part "type" ≫= as_str) = Some "text") then vget part "text" ≫= as_str else None.
Definition texts_of (content : Value) : list string :=
  match content with VStr text => [text] | VArr parts => omap part_text parts | _ => [] end.
Definition content_units (content : Value) : Z := foldr Z.add 0 (map units_of (texts_of content)).
Definition total_units (messages : list Entry) : Z := foldr Z.add 0 (map (λ e, content_units e.1.(cm_content)) messages).

(** A text part rewritten with a cut of its text. *)
Definition part_cut (options : ToolResultElisionOptions) (part part' : Value) : Prop :=
  part' = part ∨ ∃ text cut, part_text part = Some text ∧ cut_of options text cut
    ∧ part' = VObj [("type", VStr "text"); ("text", VStr cut)].
Inductive content_cut (options : ToolResultElisionOptions) : Value → Value → Prop :=
  | cut_text text cut : cut_of options text cut → content_cut options (VStr text) (VStr cut)
  | cut_parts parts parts' : Forall2 (part_cut options) parts parts' → content_cut options (VArr parts) (VArr parts').

Section pass.
Context (options : ToolResultElisionOptions).
Hypothesis head_nonneg : 0 ≤ options.(head_chars).
Hypothesis tail_nonneg : 0 ≤ options.(tail_chars).

Lemma elide_part_Some part part' saved : (∀ text, part_text part = Some text → utf8 text) →
  elide_part options part = Some (part', saved) → ∃ text cut, part_text part = Some text ∧ cut_of options text cut
    ∧ part' = VObj [("type", VStr "text"); ("text", VStr cut)] ∧ saved = units_of text - units_of cut.
Proof.
  intros Hu H. unfold elide_part, part_text in *. case_bool_decide; [|done]. cbn [negb] in H.
  destruct (vget part "text" ≫= as_str) as [text|] eqn:Et; [|done]. simpl in H.
  destruct (elide_text text options) as [cut|] eqn:Ec; [|done]. injection H as <- <-. exists text, cut.
  split_and!; [done| |done..]. apply elide_text_cut; auto.
Qed.
Lemma kept_part_cut part : (∀ text, part_text part = Some text → utf8 text) →
  part_cut options part (kept_part options part)
  ∧ foldr Z.add 0 (map units_of (option_list (part_text (kept_part options part))))
    + from_option snd 0 (elide_part options part) = foldr Z.add 0 (map units_of (option_list (part_text part))).
Proof.
  intros Hu. unfold kept_part. destruct (elide_part options part) as [[part' saved]|] eqn:E; cbn [from_option fst snd].
  - destruct (elide_part_Some _ _ _ Hu E) as (text & cut & Ht & Hc & -> & ->). split; [right; by exists text, cut|].
    rewrite Ht. unfold part_text. simpl. lia.
  - split; [by left|lia].
Qed.
Lemma kept_parts_cut parts : (∀ text, text ∈ texts_of (VArr parts) → utf8 text) →
  Forall2 (part_cut options) parts (map (kept_part options) parts)
  ∧ content_units (VArr (map (kept_part options) parts)) + saved_in options parts = content_units (VArr parts).
Proof.
  unfold content_units, saved_in. simpl. induction parts as [|p parts IH]; intros Hu; [done|].
  destruct (kept_part_cut p) as [Hp Es]; [intros text Ht; apply Hu; simpl; rewrite Ht; left|].
  destruct IH as [Hf Eq]; [intros text Ht; apply Hu; simpl; destruct (part_text p); [by right|done]|].
  split; [by constructor|]. cbn [map omap list_omap].
  destruct (part_text p), (part_text (kept_part options p)), (elide_part options p) as [[? ?]|];
    simpl in Es; cbn [map foldr fmap option_fmap option_map from_option snd]; lia.
Qed.

Lemma elide_content_Some content content' saved : (∀ text, text ∈ texts_of content → utf8 text) →
  elide_content options content = Some (content', saved) →
  content_cut options content content' ∧ content_units content' + saved = content_units content.
Proof.
  intros Hu H. destruct content as [| | |text|parts|]; try done; simpl in H.
  - destruct (elide_text text options) as [cut|] eqn:E; [|done]. injection H as <- <-. split.
    + constructor. apply elide_text_cut; [apply Hu; left|done..].
    + unfold content_units. simpl. lia.
  - destruct (existsb _ _); [|done]. injection H as <- <-. destruct (kept_parts_cut parts Hu) as [Hf E]. split; [by constructor|exact E].
Qed.

Lemma elide_from_saved boundary index messages result :
  (∀ e text, e ∈ messages → text ∈ texts_of e.1.(cm_content) → utf8 text) →
  let out := elide_from options boundary index messages result in
  total_units out.1 + out.2.(el_saved_chars) = total_units messages + result.(el_saved_chars).
Proof.
  revert index result. unfold total_units.
  induction messages as [|[m id] messages IH]; intros index result Hu; cbn [elide_from map foldr fst]; [simpl; lia|].
  assert (∀ m' r', content_units (cm_content m') + el_saved_chars r' = content_units (cm_content m) + el_saved_chars result →
    let out := let '(rest, result) := elide_from options boundary (S index) messages r' in ((m', id) :: rest, result) in
    foldr Z.add 0 (map (λ e : Entry, content_units (cm_content e.1)) out.1) + el_saved_chars out.2
    = content_units (cm_content m) + foldr Z.add 0 (map (λ e : Entry, content_units (cm_content e.1)) messages) + el_saved_chars result) as K.
  { intros m' r' Hm. specialize (IH (S index) r'). cbv zeta in *.
    destruct (elide_from _ _ _ _ _) as [rest r]. cbn [fst snd map foldr] in *.
    rewrite <-Z.add_assoc, IH by (intros e text He; apply Hu; by right). lia. }
  destruct (_ || _); [by apply K|].
  destruct (elide_content options (cm_content m)) as [[content saved]|] eqn:Ec; [|by apply K].
  apply K. cbn [cm_content with_content el_saved_chars].
  apply elide_content_Some in Ec as [_ Ec]; [lia|]. intros text. apply (Hu (m, id)). left.
Qed.
End pass.

(** The turns of a history: its messages of users. *)
Definition turns (messages : list Entry) : Z :=
  Z.of_nat (length (filter_by (λ e, String.eqb e.1.(cm_role) "user") messages)).
Lemma turns_app a b : turns (a ++ b) = turns a + turns b.
Proof. unfold turns. rewrite filter_by_app, length_app. lia. Qed.
Lemma first_kept_spec messages keep : 1 ≤ keep →
  let kept := drop (first_kept_index messages keep) messages in
  turns kept = Z.min keep (turns messages) ∧ (first_kept_index messages keep = 0%nat ∨ turns kept = keep).
Proof.
  intros Hk. unfold first_kept_index.
  assert (∀ rest seen done_, messages = rev rest ++ done_ → turns done_ = seen → seen < keep →
    let n := first_kept_from rest seen keep in
    turns (drop n messages) = Z.min keep (turns messages) ∧ (n = 0%nat ∨ turns (drop n messages) = keep)) as H.
  { induction rest as [|[m id] rest IH]; intros seen done_ E Es Hs; cbn [first_kept_from].
    { cbn [rev app] in E. subst done_. rewrite drop_0. split; [lia|by left]. }
    simpl in E. rewrite <-app_assoc in E. simpl in E. assert (turns ((m, id) :: done_) = (if String.eqb m.(cm_role) "user" then 1 else 0) + seen) as Et.
    { unfold turns in *. rewrite filter_by_cons. cbn [fst]. destruct (String.eqb _ _); cbn [length]; lia. }
    destruct (String.eqb (cm_role m) "user") eqn:Er; cbn [negb]; [|apply (IH seen _ E); lia].
    destruct (Z.leb_spec keep (seen + 1)) as [Hle|Hlt]; [|apply (IH (seen + 1) _ E); lia].
    assert (drop (length rest) messages = (m, id) :: done_) as Ed by (rewrite E, drop_app_length'; [done|by rewrite length_rev]).
    cbv zeta. rewrite Ed, Et. split; [|by right; lia]. rewrite E, turns_app, Et. unfold turns. lia. }
  apply (H (rev messages) 0 []); [by rewrite rev_involutive, app_nil_r|done|lia].
Qed.

(** C16: Elision is honest.  A pass over a history of well-formed texts keeps
    every entry and all of a message but its content; it changes only results
    of tools before the newest turns it must keep, and of these only texts
    longer than the limit, each to a beginning and an end of itself around a
    notice that counts exactly the code units in between; and the saving it
    reports is what the history shrank by. *)
Theorem elision_honest messages options :
  0 ≤ options.(head_chars) → 0 ≤ options.(tail_chars) →
  (∀ e text, e ∈ messages → text ∈ texts_of e.1.(cm_content) → utf8 text) →
  let out := (elide_stale_tool_results messages options).1 in
  let kept := first_kept_index messages (Z.max 1 options.(keep_recent_turns)) in
  Forall2 (λ e e', e' = e ∨ e.1.(cm_role) = "tool" ∧ ∃ content, content_cut options e.1.(cm_content) content
    ∧ e' = (with_content e.1 content, e.2)) messages out
  ∧ drop kept out = drop kept messages
  ∧ turns (drop kept messages) = Z.min (Z.max 1 options.(keep_recent_turns)) (turns messages)
  ∧ (elide_stale_tool_results messages options).2.(el_saved_chars) = total_units messages - total_units out.
Proof.
  intros Hh Ht Hu out kept. unfold elide_stale_tool_results in *. fold kept in out. fold kept.
  destruct (elide_from_spec options kept 0 messages (mkElision 0 0)) as [Hf Hd]. fold out in Hf, Hd. rewrite Nat.sub_0_r in Hd.
  pose proof (elide_from_saved options Hh Ht kept 0 messages (mkElision 0 0) Hu) as Hs. cbv zeta in Hs. fold out in Hs. simpl in Hs.
  split_and!; [|exact Hd|by apply first_kept_spec; lia|lia].
  clear Hd Hs. revert Hu. clearbody out. induction Hf as [|e e' messages out He Hf IH]; intros Hu; constructor.
  - destruct He as [->|(Hr & content & saved & Hc & ->)]; [by left|]. right. split; [done|]. exists content. split; [|done].
    eapply elide_content_Some; [done..| |exact Hc]. intros text. apply Hu. left.
  - apply IH. intros e0 text He0. apply Hu. by right.
Qed.

Definition ex_elision : ToolResultElisionOptions := mkElisionOptions 1 8 3 2.
Definition ex_turns : list Entry :=
  [(text_message "user" "read it", Some "m1"); (tool_message (mkToolCall "c1" "read" "{}") (String.concat "" (repeat "0123456789" 20)), Some "m2");
   (text_message "user" "and now?", Some "m3"); (tool_message (mkToolCall "c2" "read" "{}") (String.concat "" (repeat "0123456789" 20)), Some "m4")].
Lemma elision_honest_witness :
  let out := (elide_stale_tool_results ex_turns ex_elision).1 in
  total_units out < total_units ex_turns ∧ drop 2 out = drop 2 ex_turns.
Proof.
  intros out.
  destruct (elision_honest ex_turns ex_elision) as (_ & Hd & _); [vm_compute; discriminate..| |].
  - intros e text He Ht. repeat (apply elem_of_cons in He as [->|He]; [apply list_elem_of_singleton in Ht as ->; vm_compute; reflexivity|]).
    by apply elem_of_nil in He.
  - split; [vm_compute; reflexivity|exact Hd].
Defined.
