(* ===== verification/Compaction.v ===== *)
(** * Fitting a history into the model's window

    [host/src/chat_context.rs], [context_window.rs], [compaction.rs],
    [compaction_request.rs] and [compaction_runner.rs]: how long a message
    counts as, which window a turn has and what a request may ask of it; and
    how a history that is too long is compacted: its older turns are replaced
    by a summary of them that names, by a digest, exactly what it covers, and
    what still does not fit is dropped by whole turns. *)

From stdpp Require Import pretty.
From S2P Require Budget RunLoop Utf8 SessionOps.
From S2P Require Export Outbox Guarded Elision ToolContent.
Local Open Scope Z_scope.

Implicit Types (entries body : list Entry) (message : ChatMessage).

(** [HostError], as far as these operations raise it. *)
Inductive HostError :=
  | HostStore (e : StoreError)
  | HostCancelled
  | HostExecution (reason : string).

(** ** Lengths *)

Definition div_ceil4 (n : Z) : Z := (n + 3) / 4.
Definition sum_of (l : list Z) : Z := foldr Z.add 0 l.

Section estimate.
Context {host : Host}.

Definition part_units (part : Value) : Z :=
  let field key := match as_str (vindex part key) with Some text => units_of text | None => 0 end in
  match as_str (vindex part "type") with
  | Some "text" => field "text"
  | Some "image" => 4800
  | _ => field "data"
  end.
Definition message_tokens (message : ChatMessage) : Z :=
  let content := match message.(cm_content) with
                 | VStr text => units_of text
                 | VArr parts => sum_of (map part_units parts)
                 | other => units_of (json_text other)
                 end in
  div_ceil4 (content + sum_of (map (λ call, units_of call.(tc_name) + units_of call.(tc_arguments_json)) message.(cm_tool_calls))).
Definition entries_tokens (entries : list Entry) : Z := sum_of (map (λ entry, message_tokens entry.1) entries).

(** ** The window of a turn *)

Record ContextBudget := mkContextBudget { window : Z; source : string; reserve : Z }.

Definition safe_positive (n : Z) : bool := (0 <? n) && (n <=? max_safe).
(** [positive]. *)
Definition positive (value : Value) : option Z := opt_filter safe_positive (as_u64 value).
Definition fallback_context_window_tokens : Z := 32768.

Definition catalog_window (catalog : Value) (model : string) : option Z :=
  rows ← as_array catalog;
  row ← find_by (λ row, bool_decide (as_str (vindex row "modelId") = Some model)) rows;
  positive (vindex row "contextWindowTokens").
(** [context_window::resolve]. *)
Definition resolve_window (descriptor : Value) (provider model : string) : M (Z * string) :=
  match positive (vindex (vindex descriptor "context") "windowTokens") with
  | Some window => mret (window, "descriptor")
  | None =>
      models ← get_setting "agentkit.compat.provider-models" provider;
      match models ≫= λ catalog, catalog_window catalog model with
      | Some window => mret (window, "model")
      | None =>
          catalog ← get_setting "http.provider-catalog" provider;
          match catalog ≫= λ catalog, catalog_window catalog model with
          | Some window => mret (window, "model")
          | None => mret (fallback_context_window_tokens, "fallback")
          end
      end
  end.

Definition frozen_provider_window (payload : Value) (model : string) : Res HostError (option Z) :=
  let snapshot := vindex payload "providerSnapshot" in
  if negb (bool_decide (as_str (vindex snapshot "model") = Some model)) then Ok None
  else
    let window :=
      models ← as_array (vindex (vindex (vindex snapshot "connection") "config") "models");
      row ← find_by (λ row, bool_decide (as_str (vindex row "id") = Some model)) models;
      opt_filter (λ value, negb (is_null value)) (vget row "context_window_tokens") in
    match window with
    | None => Ok None
    | Some value => match positive value with
                    | Some window => Ok (Some window)
                    | None => Err (HostExecution "invalid_provider_context_window")
                    end
    end.

(** [ContextBudget::resolve], of the turn's effective descriptor and its
    payload. *)
Definition resolve (descriptor payload : Value) (provider model : string) : M (Res HostError ContextBudget) :=
  let reserved (found : Z * string) :=
    let reserve := default 16384 (opt_filter (λ n, 0 <? n) (as_u64 (vindex (vindex descriptor "context") "reserveTokens"))) in
    Ok (mkContextBudget found.1 found.2 (Z.min reserve (found.1 / 2))) in
  match vget payload "contextWindowTokens" with
  | Some snapshot =>
      mret (match positive snapshot with
            | Some window => reserved (window, "descriptor")
            | None => Err (HostExecution "invalid_context_window_snapshot")
            end)
  | None =>
      let live := found ← resolve_window descriptor provider model; mret (reserved found) in
      match as_u64 (vindex (vindex descriptor "context") "windowTokens") with
      | Some _ => live
      | None => match frozen_provider_window payload model with
                | Err e => mret (Err e)
                | Ok (Some window) => mret (reserved (window, "model"))
                | Ok None => live
                end
      end
  end.

(** ** Admission of a request *)

(** Of a [ChatRequest]: what the budget reads; [tools] is the JSON text of
    its tool definitions, [None] when there are none. *)
Record BudgetedRequest := mkBudgeted {
  bq_messages : list ChatMessage;
  bq_selected_content : list ChatMessage;
  bq_tools : option string;
  bq_max_output_tokens : option Z
}.
Definition request_messages (input : BudgetedRequest) : Z :=
  sum_of (map message_tokens (input.(bq_selected_content) ++ input.(bq_messages))).
Definition tool_tokens (tools : option string) : Z :=
  match tools with Some serialized => div_ceil4 (units_of serialized) | None => 0 end.

Definition admit_budget (budget : ContextBudget) (input : BudgetedRequest) (request_id : string) (implicit_limit : bool)
    : Res CoreError (BudgetedRequest * Value) :=
  if is_some_and input.(bq_max_output_tokens) (λ value, (value =? 0) || (max_safe <? value))
  then Err (core_error "invalid_max_output_tokens" "maxOutputTokens must be a positive safe integer.")
  else
    let messages := request_messages input in
    let tools := tool_tokens input.(bq_tools) in
    let estimated := Budget.saturating_add_u64 messages tools in
    let fits := budget.(window) - budget.(reserve) - tools in
    let available := Budget.saturating_sub_u64 budget.(window) estimated in
    let output := Z.min (Z.min (default budget.(reserve) input.(bq_max_output_tokens)) budget.(reserve)) available in
    if (fits <? messages) || (output =? 0)
    then Err (core_error "context_overflow"
                ("The current request needs about " +:+ pretty messages +:+ " message tokens but only " +:+ pretty fits
                 +:+ " fit in the " +:+ pretty budget.(window)
                 +:+ "-token window after the reply reserve, tool definitions and run content. Shorten the request or compact the session."))
    else
      let forwards_limit := is_some input.(bq_max_output_tokens) || implicit_limit in
      let admission := [("requestId", VStr request_id); ("windowTokens", int_value budget.(window));
        ("windowSource", VStr budget.(source)); ("reserveTokens", int_value budget.(reserve));
        ("toolTokens", int_value tools); ("extraTokens", int_value 0); ("estimatedInputTokens", int_value estimated);
        ("budgetTokens", int_value fits)] in
      if forwards_limit
      then Ok (mkBudgeted input.(bq_messages) input.(bq_selected_content) input.(bq_tools) (Some output),
               VObj (admission ++ [("maxOutputTokens", int_value output)]))
      else Ok (input, VObj admission).
End estimate.

(** ** Texts *)

Definition lf : string := String "010" EmptyString.
(** [str::split_once]. *)
Definition split_once (needle text : string) : option (string * string) :=
  i ← String.index 0 needle text;
  Some (String.substring 0 i text,
        String.substring (i + String.length needle) (String.length text - (i + String.length needle)) text).
(** [str::lines]. *)
Definition strip_cr (line : string) : string :=
  let n := String.length line in
  if String.eqb (String.substring (n - 1) 1 line) (String "013" EmptyString) then String.substring 0 (n - 1) line else line.
Fixpoint lines_from (line text : string) : list string :=
  match text with
  | EmptyString => if String.eqb line "" then [] else [line]
  | String c text =>
      if Ascii.eqb c "010" then strip_cr line :: lines_from "" text else lines_from (line +:+ String c EmptyString) text
  end.
Definition lines (text : string) : list string := lines_from "" text.
(** [char::is_whitespace] and [str::trim]. *)
Definition is_whitespace (ch : char) : bool :=
  (9 <=? ch) && (ch <=? 13) || (ch =? 0x20) || (ch =? 0x85) || (ch =? 0xA0) || (ch =? 0x1680)
  || (0x2000 <=? ch) && (ch <=? 0x200A) || (ch =? 0x2028) || (ch =? 0x2029) || (ch =? 0x202F) || (ch =? 0x205F) || (ch =? 0x3000).
Fixpoint spaces (bytes : Z) (cs : list char) : Z :=
  match cs with
  | ch :: cs => if is_whitespace ch then spaces (bytes + len_utf8 ch) cs else bytes
  | [] => bytes
  end.
Definition trim (text : string) : string :=
  let from := spaces 0 (text_chars text) in
  byte_slice from (Z.max from (byte_len text - spaces 0 (rev (text_chars text)))) text.
(** [text.chars().take(n)]. *)
Definition take_chars (n : nat) (text : string) : string :=
  byte_slice 0 (sum_of (map len_utf8 (take n (text_chars text)))) text.
(** A [BTreeSet] of strings, in order. *)
Fixpoint set_insert (s : string) (l : list string) : list string :=
  match l with
  | [] => [s]
  | x :: l' => if String.eqb s x then l else if String.ltb s x then s :: l else x :: set_insert s l'
  end.

(** [message_text] of the hooks. *)
Definition message_text (value : Value) : string :=
  match as_str value with
  | Some text => text
  | None =>
      String.concat lf (omap (λ part,
        if bool_decide (as_str (vindex part "type") = Some "text") then as_str (vindex part "text") else None)
        (default [] (as_array value)))
  end.

(** ** Summaries *)

Definition revision : string := "agentkit-compaction-v1".
Definition covering_text (summary : string) : string :=
  "The conversation history before this point was compacted into the following summary:" +:+ lf +:+ "<summary>" +:+ lf
  +:+ summary +:+ lf +:+ "</summary>".
Definition body_start (entries : list Entry) : nat :=
  match entries with (message, _) :: _ => if String.eqb message.(cm_role) "system" then 1%nat else 0%nat | [] => 0%nat end.

(** The two instructions and the system prompt of [compaction_prompts.rs];
    nothing depends on what they say. *)
Class SummaryPrompts := { system_prompt : string; first_prompt : string; update_prompt : string }.

Section compaction.
Context {host : Host} {text_digest : TextDigest} {prompts : SummaryPrompts}.
(** [stringify_javascript_value], [parse_javascript_json] and
    [serde_json::from_str]. *)
Context (stringify : Value → option string) (parse_javascript_json from_str : string → option Value).

Definition source_row (entry : Entry) : option Value :=
  let '(message, id) := entry in
  id ← id;
  Some (VArr [VStr id; VStr message.(cm_role); message.(cm_content); RunLoop.ostr_value message.(cm_tool_call_id);
              VArr (map RunLoop.call_value message.(cm_tool_calls))]).
Definition hash_source (entries : list Entry) : option string :=
  rows ← mapM source_row entries;
  encoded ← stringify (VArr [VStr "agentkit-compaction-source-v2"; VArr rows]);
  Some (text_sha256 (Utf8.lit encoded)).

(** [body.iter().position(|entry| entry.1.as_deref() == id)]. *)
Definition position_of (body : list Entry) (id : option string) : option nat :=
  fst <$> list_find (λ entry, entry.2 = id) body.

Definition apply_summary (entries : list Entry) (record : Value) : option (list Entry) :=
  summarizer ← as_str (vindex record "summarizerRevision");
  if negb (String.eqb summarizer revision) then None
  else
    let start := body_start entries in
    let body := drop start entries in
    through ← position_of body (as_str (vindex record "coversThroughMessageId"));
    let kept := S through in
    first_kept ← body !! kept;
    if negb (bool_decide (first_kept.2 = as_str (vindex record "firstKeptMessageId"))) then None
    else
      hash ← hash_source (take kept body);
      source_hash ← as_str (vindex record "sourceHash");
      if negb (String.eqb hash source_hash) then None
      else
        summary ← as_str (vindex record "summary");
        summary_id ← as_str (vindex record "summaryId");
        Some (take start entries ++ (text_message "user" (covering_text summary), Some ("summary:" +:+ summary_id))
              :: drop kept body).

(** Where a turn may begin: a message of the user that is not between a call
    and its result. *)
Definition turn_start (entries : list Entry) (i : nat) : bool :=
  match entries !! i with
  | Some (message, _) =>
      String.eqb message.(cm_role) "user"
      && match i with
         | O => true
         | S before => is_none_or (entries !! before) (λ entry, negb (String.eqb entry.1.(cm_role) "tool"))
         end
  | None => false
  end.
Definition between (from to : nat) (entries : list Entry) : list Entry := take (to - from) (drop from entries).

(** The loop of [find_cut] over the starts before the last, newest first. *)
Fixpoint widen_cut (entries : list Entry) (keep_tokens : Z) (rev_starts : list nat) (cut : nat) (total : Z) : nat :=
  match rev_starts with
  | [] => cut
  | start :: rev_starts =>
      let cost := entries_tokens (between start cut entries) in
      if keep_tokens <? Budget.saturating_add_u64 total cost then cut else widen_cut entries keep_tokens rev_starts start (total + cost)
  end.
Definition find_cut (entries : list Entry) (from : nat) (keep_tokens : Z) : nat :=
  let starts := filter_by (turn_start entries) (seq from (length entries - from)) in
  match rev starts with
  | [] => from
  | last :: before => widen_cut entries keep_tokens before last (entries_tokens (drop last entries))
  end.

(** ** What the summarizer is asked *)

Definition describe_arguments (raw : string) : string :=
  match parse_javascript_json raw with
  | Some (VObj object) =>
      String.concat ", " (map (λ e : string * Value, e.1 +:+ "=" +:+ default "null" (stringify e.2)) object)
  | _ => raw
  end.
Definition conversation_lines (entry : Entry) : list string :=
  let '(message, _) := entry in
  let text := message_text message.(cm_content) in
  let empty := String.eqb text "" in
  if String.eqb message.(cm_role) "user" then (if empty then [] else ["[User]: " +:+ text])
  else if String.eqb message.(cm_role) "assistant" then
    (if empty then [] else ["[Assistant]: " +:+ text])
    ++ match message.(cm_tool_calls) with
       | [] => []
       | calls => ["[Assistant tool calls]: " +:+ String.concat "; "
                     (map (λ call, call.(tc_name) +:+ "(" +:+ describe_arguments call.(tc_arguments_json) +:+ ")") calls)]
       end
  else if String.eqb message.(cm_role) "tool" && negb empty then
    let count := units_of text in
    ["[Tool result]: " +:+
     (if 2000 <? count
      then take_units text 2000 +:+ lf +:+ lf +:+ "[... " +:+ pretty (count - 2000) +:+ " more characters truncated]"
      else text)]
  else [].
Definition serialize_conversation (entries : list Entry) : string :=
  String.concat (lf +:+ lf) (concat (map conversation_lines entries)).

Definition bounded_conversation (covered : list Entry) (budget : Z) : option string :=
  let conversation := serialize_conversation covered in
  if units_of conversation <=? budget then Some conversation else None.

Definition summary_messages (covered : list Entry) (previous : option Value) (window reserve : Z)
    : option (list ChatMessage * Z) :=
  let prompt := match previous with
                | Some _ => "The messages above are NEW conversation messages to incorporate into the existing summary provided in <previous-summary> tags."
                            +:+ lf +:+ lf +:+ update_prompt
                | None => first_prompt
                end in
  let previous := match previous with
                  | Some record => lf +:+ lf +:+ "<previous-summary>" +:+ lf +:+ default "" (as_str (vindex record "summary"))
                                   +:+ lf +:+ "</previous-summary>"
                  | None => ""
                  end in
  let overhead := units_of prompt + units_of previous + units_of system_prompt
                  + byte_len ("<conversation>" +:+ lf +:+ lf +:+ "</conversation>" +:+ lf +:+ lf)
                  + byte_len ("[... earlier conversation omitted]" +:+ lf +:+ lf) + 8 in
  let budget := Budget.saturating_sub_u64 (Z.min u64_max (Budget.saturating_sub_u64 window reserve * 4)) overhead in
  conversation ← bounded_conversation covered budget;
  let messages := [text_message "system" system_prompt;
                   text_message "user" ("<conversation>" +:+ lf +:+ conversation +:+ lf +:+ "</conversation>" +:+ previous
                                        +:+ lf +:+ lf +:+ prompt)] in
  let estimate := sum_of (map message_tokens messages) in
  let output := Z.min (Z.min (Z.max 1 (Z.min u64_max (reserve * 8) / 10)) reserve) (Budget.saturating_sub_u64 window estimate) in
  if (Budget.saturating_add_u64 estimate reserve <=? window) && (0 <? output) then Some (messages, output) else None.

(** The files and commands of the covered calls. *)
Definition file_sets : Type := list string * list string * list string.
Definition note_call (found : file_sets) (call : ToolCall) : file_sets :=
  let '(read, modified, commands) := found in
  match from_str call.(tc_arguments_json) with
  | None => found
  | Some args =>
      let named key := opt_filter (λ text, negb (String.eqb text "")) (as_str (vindex args key)) in
      let called l := mem_str call.(tc_name) l in
      let read := match named "path" with
                  | Some path => if called ["read_file"; "code_search"] then set_insert path read else read
                  | None => read
                  end in
      let modified := match named "path" with
                      | Some path => if called ["edit_file"; "write_file"] then set_insert path modified else modified
                      | None => modified
                      end in
      let commands := match named "command" with
                      | Some command => if called ["run_command"; "run_tests"] then commands ++ [take_chars 200 command] else commands
                      | None => commands
                      end in
      (read, modified, commands)
  end.
Definition noted_files (previous : option Value) (field : string) : list string :=
  match previous with
  | Some record => foldl (λ set file, set_insert file set) []
                     (omap as_str (default [] (as_array (vindex (vindex record "details") field))))
  | None => []
  end.
Definition noted_commands (previous : option Value) : list string :=
  default [] (record ← previous; summary ← as_str (vindex record "summary");
    after ← split_once ("<commands-run>" +:+ lf) summary;
    body ← split_once (lf +:+ "</commands-run>") after.2; Some (lines body.1)).
Definition file_details (covered : list Entry) (previous : option Value) : Value * list string :=
  let '(read, modified, commands) :=
    foldl note_call (noted_files previous "readFiles", noted_files previous "modifiedFiles", noted_commands previous)
      (concat (map (λ entry : Entry, entry.1.(cm_tool_calls)) covered)) in
  let read := filter_by (λ path, negb (mem_str path modified)) read in
  (VObj [("readFiles", VArr (map VStr read)); ("modifiedFiles", VArr (map VStr modified))],
   drop (length commands - 20) commands).

Definition details_block (details : Value) (field tag : string) : option string :=
  match as_array (vindex details field) with
  | Some ((_ :: _) as files) =>
      Some ("<" +:+ tag +:+ ">" +:+ lf +:+ String.concat lf (omap as_str files) +:+ lf +:+ "</" +:+ tag +:+ ">")
  | _ => None
  end.
Definition add_details (text : string) (details : Value) (commands : list string) : string :=
  let blocks := option_list (details_block details "readFiles" "read-files")
                ++ option_list (details_block details "modifiedFiles" "modified-files")
                ++ match commands with
                   | [] => []
                   | _ => ["<commands-run>" +:+ lf +:+ String.concat lf commands +:+ lf +:+ "</commands-run>"]
                   end in
  match blocks with
  | [] => text
  | _ => text +:+ lf +:+ lf +:+ String.concat (lf +:+ lf) blocks
  end.

Definition summary_text (result : RunLoop.RunResult) (finish : string) : Res string string :=
  match RunLoop.rr_terminal result with
  | RunLoop.RunCompleted =>
      if String.eqb finish "length" || String.eqb finish "incomplete" then Err "summary incomplete"
      else
        let text := trim (match rfind (λ message, String.eqb message.(cm_role) "assistant")
                                  (RunLoop.rr_appended_messages result) with
                          | Some message => message_text message.(cm_content)
                          | None => ""
                          end) in
        if String.eqb text "" then Err "summarizer returned no text" else Ok text
  | _ => Err "summarizer failed"
  end.

(** ** Trimming *)

(** The index trimming starts at: behind the system message and a leading
    summary. *)
Definition trim_start (entries : list Entry) : nat :=
  let system := body_start entries in
  let summary := match entries !! system with
                 | Some (_, Some id) => if String.prefix "summary:" id then 1%nat else 0%nat
                 | _ => 0%nat
                 end in
  (system + summary)%nat.
Definition next_turn (entries : list Entry) (start : nat) : option nat :=
  find_by (turn_start entries) (seq (S start) (length entries - S start)).
Fixpoint trim_loop (fuel start : nat) (budget : Z) (entries : list Entry) (dropped : nat) : list Entry * nat :=
  match fuel with
  | O => (entries, dropped)
  | S fuel =>
      if budget <? entries_tokens entries then
        match next_turn entries start with
        | Some next => trim_loop fuel start budget (take start entries ++ drop next entries) (S dropped)
        | None => (entries, dropped)
        end
      else (entries, dropped)
  end.
Definition trim_entries (entries : list Entry) (budget : Z) : list Entry * nat :=
  trim_loop (length entries) (trim_start entries) budget entries 0.

(** ** The compaction of a turn *)

Record Input := mkInput {
  in_task_id : string;
  in_payload : Value;
  in_fence : LeaseFence;
  in_now : Z;
  in_chat_id : string;
  in_model : string;
  in_provider_id : string;
  in_context_budget : ContextBudget;
  in_entries : list Entry;
  in_tools : option string;
  in_path_snapshot : Value;
  in_receipt_snapshot : Value
}.
Record Snapshot := mkSnapshot {
  sn_marker : option Value;
  sn_descriptor : option Value;
  sn_path : Value;
  sn_receipts : Value;
  sn_summaries : list Value
}.
(** [Snapshot::capture], of the chat and the summaries the store gives. *)
Definition capture (input : Input) (chat : option ChatRecord) (summaries : list Value) : Res HostError Snapshot :=
  match chat with
  | None => Err (HostExecution "session not found")
  | Some chat => Ok (mkSnapshot (vget chat.(ch_metadata) SessionOps.compact_requested_metadata_key) (vget chat.(ch_metadata) "agentkit.session")
                       input.(in_path_snapshot) input.(in_receipt_snapshot) summaries)
  end.
Definition manual (snapshot : Snapshot) : bool := is_some_and snapshot.(sn_marker) (λ marker, is_some (as_str marker)).

Record Plan := mkPlan {
  pl_working : list Entry;
  pl_previous : option Value;
  pl_body_start : nat;
  pl_from : nat;
  pl_cut : nat;
  pl_budget : Z;
  pl_triggered : bool
}.
Definition message_budget (input : Input) : Z :=
  Budget.saturating_sub_u64 (Budget.saturating_sub_u64 input.(in_context_budget).(window) input.(in_context_budget).(reserve)) (tool_tokens input.(in_tools)).

(** The first stored summary that still applies. *)
Fixpoint find_summary (entries : list Entry) (summaries : list Value) : option (Value * list Entry) :=
  match summaries with
  | [] => None
  | record :: summaries =>
      match apply_summary entries record with
      | Some working => Some (record, working)
      | None => find_summary entries summaries
      end
  end.
Definition keep_recent_tokens (input : Input) (snapshot : Snapshot) : Z :=
  let context := match vget input.(in_payload) "sessionContext" with
                 | Some context => Some context
                 | None => descriptor ← snapshot.(sn_descriptor); vget descriptor "context"
                 end in
  default 20000 (context ≫= λ context, as_u64 (vindex context "keepRecentTokens")).
Definition make_plan (input : Input) (snapshot : Snapshot) : Plan :=
  let found := find_summary input.(in_entries) snapshot.(sn_summaries) in
  let working := match found with Some (_, working) => working | None => input.(in_entries) end in
  let previous := fst <$> found in
  let budget := message_budget input in
  let start := body_start input.(in_entries) in
  let body := drop start input.(in_entries) in
  let from := default 0%nat (record ← previous; position_of body (as_str (vindex record "firstKeptMessageId"))) in
  mkPlan working previous start from (find_cut body from (keep_recent_tokens input snapshot)) budget
    (manual snapshot || (budget <? entries_tokens working)).

(** What the transaction that commits a compaction reads: the lease and the
    cancellation before and after, the task, the chat and its rows; and
    whether its writes and its end are accepted. *)
Record CommitView := mkCommitView {
  cv_cancelled : bool;
  cv_fence : Res StoreError unit;
  cv_task : Res StoreError (option TaskRecord);
  cv_chat : Res StoreError (option ChatRecord);
  cv_path : Value;
  cv_receipts : Value;
  cv_summaries : list Value;
  cv_written : Res StoreError unit;
  cv_fence_after : Res StoreError unit;
  cv_cancelled_after : bool;
  cv_committed : Res StoreError unit
}.
Inductive Effect :=
  | Emitted (kind : string) (data : Value)
  | Saved (record : Value)
  | MarkerCleared (metadata : Value).

(** How the summarizer's run ended, as its events are read. *)
Inductive SummaryEvent := EventJson (value : Value) | EventInvalid | EventTimeout.
Record CompactionWorld := mkCompactionWorld {
  w_emit : list Effect → string → Value → Res HostError unit;
  w_summarizer : list ChatMessage → Z → list SummaryEvent;
  w_summary : option RunLoop.RunResult;
  w_cancelled : bool;
  w_commit : CommitView
}.
Definition C (A : Type) : Type := St (list Effect) HostError A.

Definition from_store {A} (r : Res StoreError A) : C A :=
  lift match r with Ok a => Ok a | Err e => Err (HostStore e) end.
Definition verify_active (view : CommitView) : C unit :=
  if view.(cv_cancelled) then throw HostCancelled
  else
    _ ← from_store view.(cv_fence);
    task ← from_store view.(cv_task);
    match task with
    | None => throw (HostExecution "compaction task disappeared")
    | Some task =>
        if task.(t_cancel_requested) then throw HostCancelled
        else if task.(t_interrupt_requested) then throw (HostExecution "compaction interrupted") else mret tt
    end.
Definition validate_snapshot (snapshot : Snapshot) (view : CommitView) : C ChatRecord :=
  chat ← from_store view.(cv_chat);
  match chat with
  | None => throw (HostExecution "session disappeared")
  | Some chat =>
      if negb (ovalue_eqb (vget chat.(ch_metadata) "agentkit.session") snapshot.(sn_descriptor))
         || negb (ovalue_eqb (vget chat.(ch_metadata) SessionOps.compact_requested_metadata_key) snapshot.(sn_marker))
         || negb (value_eqb view.(cv_path) snapshot.(sn_path))
         || negb (value_eqb view.(cv_receipts) snapshot.(sn_receipts))
         || negb (value_eqb (VArr view.(cv_summaries)) (VArr snapshot.(sn_summaries)))
      then throw (HostExecution "context changed during compaction")
      else mret chat
  end.
Definition log (effects : list Effect) : C unit := modify (λ t, t ++ effects).
Definition commit (snapshot : Snapshot) (view : CommitView) (record : option Value) : C unit :=
  _ ← verify_active view;
  chat ← validate_snapshot snapshot view;
  _ ← from_store view.(cv_written);
  _ ← from_store view.(cv_fence_after);
  if view.(cv_cancelled_after) then throw HostCancelled
  else
    _ ← from_store view.(cv_committed);
    log (option_list (Saved <$> record)
            ++ (if manual snapshot then [MarkerCleared (vremove SessionOps.compact_requested_metadata_key chat.(ch_metadata))] else [])).

Section apply.
Context (input : Input) (world : CompactionWorld).

Definition emit (kind : string) (data : Value) : C unit := λ t,
  match world.(w_emit) t kind data with
  | Ok _ => Ok (tt, t ++ [Emitted kind data])
  | Err e => Err e
  end.

(** [account_all]: every item is accounted for; the first error is returned. *)
Fixpoint account_all (usage : list Value) (first_error : option HostError) : C unit :=
  match usage with
  | [] => match first_error with Some e => throw e | None => mret tt end
  | item :: usage => λ t,
      match emit "run.usage" (vset "step" (int_value 0) item) t with
      | Ok (_, t) => account_all usage first_error t
      | Err e => account_all usage (match first_error with Some first => Some first | None => Some e end) t
      end
  end.

Fixpoint collect_events (events : list SummaryEvent) (usage : list Value) (finish : string)
    : list Value * string * option string :=
  match events with
  | [] => (usage, finish, None)
  | EventTimeout :: _ => (usage, finish, Some "summarizer timed out")
  | EventInvalid :: _ => (usage, finish, Some "invalid summarizer event")
  | EventJson value :: events =>
      match as_str (vindex value "type") with
      | Some "run.usage" => collect_events events (usage ++ [vindex value "data"]) finish
      | Some "run.completed" =>
          collect_events events usage (default "" (as_str (vindex (vindex value "data") "finishReason")))
      | _ => collect_events events usage finish
      end
  end.
Definition summarize (covered : list Entry) (previous : option Value) : Res string string * list Value :=
  match summary_messages covered previous input.(in_context_budget).(window) input.(in_context_budget).(reserve) with
  | None => (Err "summarizer context overflow", [])
  | Some (messages, max_output_tokens) =>
      let '(usage, finish, error) := collect_events (world.(w_summarizer) messages max_output_tokens) [] "" in
      (match error with
       | Some error => Err error
       | None => match world.(w_summary) with
                 | Some result => summary_text result finish
                 | None => Err "summarizer request threw"
                 end
       end, usage)
  end.

(** [record]; the indexing of [body] panics out of range. *)
Definition source_id_missing : HostError := HostExecution "summary source id missing".
Definition summary_record (body : list Entry) (cut : nat) (id summary : string) (details : Value) : Res HostError Value :=
  timestamp ← ok_or (HostExecution "invalid runtime timestamp") (from_epoch_millis input.(in_now) ≫= wire_text);
  last ← ok_or (HostExecution "panic: index out of bounds") (body !! (cut - 1)%nat);
  through ← ok_or source_id_missing last.2;
  first ← ok_or (HostExecution "panic: index out of bounds") (body !! cut);
  kept ← ok_or source_id_missing first.2;
  hash ← ok_or (HostExecution "summary source hash failed") (hash_source (take cut body));
  Ok (VObj [("summaryId", VStr id); ("sessionId", VStr input.(in_chat_id)); ("coversThroughMessageId", VStr through);
    ("firstKeptMessageId", VStr kept); ("summary", VStr summary); ("sourceHash", VStr hash);
    ("tokensBefore", int_value (entries_tokens (take cut body)));
    ("tokensAfter", int_value (message_tokens (text_message "user" (covering_text summary))));
    ("providerId", VStr input.(in_provider_id)); ("model", VStr input.(in_model)); ("summarizerRevision", VStr revision);
    ("details", details); ("createdAt", VStr timestamp)]).

Definition trim_and_report (entries : list Entry) (budget : Z) : C (list Entry) :=
  let '(entries, dropped) := trim_entries entries budget in
  match dropped with
  | O => mret entries
  | S _ =>
      _ ← emit "run.warning" (VObj [("code", VStr "context_trimmed"); ("message",
        VStr ("Dropped the " +:+ pretty (N.of_nat dropped) +:+ " oldest turn(s) to fit the context window; about "
              +:+ pretty (entries_tokens entries) +:+ " of " +:+ pretty budget +:+ " budgeted tokens remain in use."))]);
      mret entries
  end.

Definition save_summary (snapshot : Snapshot) (plan : Plan) (id text : string) : C (list Entry) :=
  let body := drop plan.(pl_body_start) input.(in_entries) in
  let '(details, commands) := file_details (between plan.(pl_from) plan.(pl_cut) body) plan.(pl_previous) in
  let summary := add_details text details commands in
  record ← lift (summary_record body plan.(pl_cut) id summary details);
  _ ← commit snapshot world.(w_commit) (Some record);
  _ ← emit "run.context.compacted" (VObj [("summaryId", VStr id); ("tokensBefore", vindex record "tokensBefore");
        ("tokensAfter", vindex record "tokensAfter"); ("coveredMessages", int_value (Z.of_nat plan.(pl_cut)));
        ("reason", VStr (if manual snapshot then "manual" else "threshold"))]);
  mret (default plan.(pl_working) (apply_summary input.(in_entries) record)).

Definition compaction_id (snapshot : Snapshot) : string :=
  input.(in_task_id) +:+ ":compaction:" +:+ pretty (N.of_nat (length snapshot.(sn_summaries) + 1)).

(** [apply], from the snapshot it captured. *)
Definition apply (snapshot : Snapshot) : C (list Entry) :=
  let plan := make_plan input snapshot in
  if negb plan.(pl_triggered) then mret plan.(pl_working)
  else if bool_decide (plan.(pl_cut) ≤ plan.(pl_from))%nat then
    _ ← (if manual snapshot then commit snapshot world.(w_commit) None else mret tt);
    trim_and_report plan.(pl_working) plan.(pl_budget)
  else
    let body := drop plan.(pl_body_start) input.(in_entries) in
    let id := compaction_id snapshot in
    let '(result, usage) := summarize (between plan.(pl_from) plan.(pl_cut) body) plan.(pl_previous) in
    _ ← account_all usage None;
    working ← match result with
              | Ok text => save_summary snapshot plan id text
              | Err reason =>
                  _ ← (if world.(w_cancelled) then throw HostCancelled else mret tt);
                  _ ← emit "run.warning" (VObj [("code", VStr "compaction_failed");
                        ("message", VStr ("Context compaction failed (" +:+ reason +:+ "); the history was trimmed instead."))]);
                  mret plan.(pl_working)
              end;
    trim_and_report working plan.(pl_budget).
End apply.
End compaction.
