(* ===== verification/CompactionLaws.v ===== *)
(** * What a compacted history leaves out

    Theorems about [Compaction]: a request that is admitted fits its window;
    trimming drops whole turns, the fewest that help; a summary stands for
    exactly the messages its digest was taken of; and whatever a compaction
    leaves out is covered by a summary or reported as trimmed. *)

From stdpp Require Import pretty.
From S2P Require Import TaskOps GuardedLaws.
From S2P Require Export Compaction.
Local Open Scope Z_scope.

Implicit Types (entries body : list Entry).

Section laws.
Context {host : Host}.

(** ** Lengths *)

Lemma sum_of_app a b : sum_of (a ++ b) = sum_of a + sum_of b.
Proof. induction a; simpl; lia. Qed.
Lemma sum_of_nonneg l : (∀ x, x ∈ l → 0 ≤ x) → 0 ≤ sum_of l.
Proof.
  induction l as [|x l IH]; intros H; simpl; [lia|]. pose proof (H x ltac:(left)).
  assert (0 ≤ sum_of l) by (apply IH; intros; apply H; by right). lia.
Qed.
Lemma sum_of_map_nonneg {A} (f : A → Z) l : (∀ x, 0 ≤ f x) → 0 ≤ sum_of (map f l).
Proof. intros H. apply sum_of_nonneg. by intros x (y & -> & _)%list_elem_of_fmap. Qed.
Lemma units_of_nonneg text : 0 ≤ units_of text.
Proof. unfold units_of. lia. Qed.
Lemma message_tokens_nonneg message : 0 ≤ message_tokens message.
Proof.
  unfold message_tokens, div_ceil4. apply Z.div_pos; [|lia].
  assert (0 ≤ sum_of (map (λ call, units_of call.(tc_name) + units_of call.(tc_arguments_json)) message.(cm_tool_calls))).
  { apply sum_of_map_nonneg. intros call. pose proof (units_of_nonneg (tc_name call)).
    pose proof (units_of_nonneg (tc_arguments_json call)). lia. }
  assert (∀ part, 0 ≤ part_units part).
  { intros part. unfold part_units. assert (∀ key, 0 ≤ match as_str (vindex part key) with Some text => units_of text | None => 0 end).
    { intros key. destruct (as_str _); [apply units_of_nonneg|lia]. }
    destruct (as_str (vindex part "type")) as [s|]; [|done]. repeat (case_match; try done); lia. }
  assert (∀ parts, 0 ≤ sum_of (map part_units parts)) as Hparts by (intros; by apply sum_of_map_nonneg).
  destruct (cm_content message); cbv zeta;
    match goal with |- _ ≤ ?a + _ + 3 => assert (0 ≤ a) by first [apply units_of_nonneg|apply Hparts]; lia end.
Qed.
Lemma entries_tokens_app a b : entries_tokens (a ++ b) = entries_tokens a + entries_tokens b.
Proof. unfold entries_tokens. by rewrite map_app, sum_of_app. Qed.

(** An admitted request fits: its messages, its tools and the answer it may
    ask for stay within the window, and so do its messages and tools with the
    whole reserve. *)
Theorem admitted_request_fits budget input id implicit_limit input' admission :
  0 ≤ budget.(window) ≤ max_safe → 0 ≤ budget.(reserve) →
  is_none_or input.(bq_max_output_tokens) (λ n, 0 <=? n) = true →
  admit_budget budget input id implicit_limit = Ok (input', admission) →
  request_messages input' = request_messages input ∧ input'.(bq_tools) = input.(bq_tools)
  ∧ request_messages input + tool_tokens input.(bq_tools) + budget.(reserve) ≤ budget.(window)
  ∧ match input'.(bq_max_output_tokens) with
    | Some output => 0 < output ≤ budget.(reserve) ∧ output ≤ default output input.(bq_max_output_tokens)
    | None => input.(bq_max_output_tokens) = None ∧ implicit_limit = false
    end.
Proof.
  intros Hw Hr Hm. unfold admit_budget. destruct (is_some_and _ _) eqn:Hv; [done|].
  destruct (_ || _) eqn:Hf; [done|]. apply orb_false_iff in Hf as [Hf%Z.ltb_ge Ho%Z.eqb_neq].
  assert (request_messages input + tool_tokens (bq_tools input) + budget.(reserve) ≤ budget.(window)) as Hfit by lia.
  destruct (_ || implicit_limit) eqn:Hl; intros [= <- _]; (split_and!; [done|done|exact Hfit|]); cbn [bq_max_output_tokens].
  - unfold Budget.saturating_sub_u64, Budget.saturating_add_u64 in *. destruct (bq_max_output_tokens input) as [n|]; simpl in *; [|lia].
    apply Z.leb_le in Hm. lia.
  - apply orb_false_iff in Hl as [Hn Hi]. by destruct (bq_max_output_tokens input).
Qed.

(** ** Trimming *)

Lemma turn_start_shift a b c i : (0 < i)%nat → (i < length c)%nat →
  turn_start (a ++ c) (length a + i) = turn_start (b ++ c) (length b + i).
Proof.
  intros Hi Hc. unfold turn_start.
  assert (∀ l, (l ++ c) !! (length l + i)%nat = c !! i) as Hl by (intros l; by rewrite lookup_app_r, Nat.add_comm, Nat.add_sub by lia).
  rewrite !Hl. destruct (c !! i) as [ [m id]|]; [|done]. f_equal. destruct i as [|j]; [lia|].
  rewrite <-!plus_n_Sm. rewrite !lookup_app_r by lia. by rewrite !(Nat.add_comm (length _)), !Nat.add_sub.
Qed.

Lemma next_turn_spec entries start :
  match next_turn entries start with
  | Some next => (start < next < length entries)%nat ∧ turn_start entries next = true
      ∧ ∀ i, (start < i < next)%nat → turn_start entries i = false
  | None => ∀ i, (start < i)%nat → turn_start entries i = false
  end.
Proof.
  unfold next_turn. set (n := (length entries - S start)%nat).
  assert (∀ i, (length entries ≤ i)%nat → turn_start entries i = false) as Hout.
  { intros i Hi. unfold turn_start. by rewrite lookup_ge_None_2. }
  assert (S start + n = length entries ∨ n = 0 ∧ length entries ≤ S start)%nat as Hn by lia.
  clearbody n. assert (∀ from, (∀ i, (start < i < from)%nat → turn_start entries i = false) →
    (from + n = length entries ∨ n = 0 ∧ length entries ≤ from)%nat → (start < from)%nat →
    match find_by (turn_start entries) (seq from n) with
    | Some next => (start < next < length entries)%nat ∧ turn_start entries next = true
        ∧ ∀ i, (start < i < next)%nat → turn_start entries i = false
    | None => ∀ i, (start < i)%nat → turn_start entries i = false
    end) as H; [|apply H; [lia|done|lia]].
  clear Hn. induction n as [|n IH]; intros from Hb Hlen Hs; cbn [seq find_by].
  { intros i Hi. destruct (decide (i < from)%nat); [apply Hb; lia|apply Hout; lia]. }
  destruct (turn_start entries from) eqn:E; [split_and!; [lia|lia|done|exact Hb]|].
  apply IH; [|lia|lia]. intros i Hi. destruct (decide (i = from)) as [->|]; [done|apply Hb; lia].
Qed.

(** What trimming does: it drops nothing that fits, and otherwise whole turns
    behind the start, oldest first, one more only while what is left is too
    long, until it fits or one turn is left. *)
Record trimmed (start : nat) (budget : Z) entries (out : list Entry) (m : nat) : Prop := {
  tm_out : out = take start entries ++ drop m entries;
  tm_from : (start ≤ m)%nat;
  tm_turn : m = start ∨ turn_start entries m = true;
  tm_need : ∀ i, (start ≤ i < m)%nat → i = start ∨ turn_start entries i = true →
    budget < entries_tokens (take start entries ++ drop i entries);
  tm_done : entries_tokens out ≤ budget ∨ ∀ i, (start < i)%nat → turn_start out i = false
}.
Lemma trim_loop_spec fuel start budget : ∀ entries dropped,
  (length entries ≤ fuel)%nat → (start ≤ length entries)%nat →
  ∃ m, trimmed start budget entries (trim_loop fuel start budget entries dropped).1 m
    ∧ (m = start ∧ (trim_loop fuel start budget entries dropped).2 = dropped
       ∨ (start < m)%nat ∧ (dropped < (trim_loop fuel start budget entries dropped).2)%nat).
Proof.
  induction fuel as [|fuel IH]; intros entries dropped Hf Hs; cbn [trim_loop].
  { exists start. destruct entries; [|simpl in Hf; lia]. split; [|by left]. constructor; simpl; try lia.
    - by destruct start.
    - right. intros i _. unfold turn_start. by rewrite lookup_nil. }
  assert (∀ P : Prop, (entries_tokens entries ≤ budget ∨ ∀ i, (start < i)%nat → turn_start entries i = false) →
    trimmed start budget entries entries start) as Hstay.
  { intros _ Hd. constructor; [by rewrite take_drop|lia|by left|lia|done]. }
  destruct (Z.ltb_spec budget (entries_tokens entries)) as [Hover|Hfit]; [|exists start; split; [apply (Hstay True); by left|by left] ].
  pose proof (next_turn_spec entries start) as Hn.
  destruct (next_turn entries start) as [next|]; [|exists start; split; [apply (Hstay True); by right|by left] ].
  destruct Hn as ((Hsn & Hnl) & Htn & Hbetween).
  set (e1 := take start entries ++ drop next entries).
  assert (length (take start entries) = start) as Hts by (rewrite length_take; lia).
  assert (length e1 = start + (length entries - next))%nat as Hl1 by (unfold e1; rewrite length_app, Hts, length_drop; lia).
  assert (take start e1 = take start entries) as Ht1 by (apply take_app_length'; by rewrite Hts).
  assert (∀ i, (start ≤ i)%nat → drop i e1 = drop (next + (i - start)) entries) as Hd1.
  { intros i Hi. unfold e1. rewrite drop_app_ge by (rewrite Hts; lia). by rewrite Hts, drop_drop. }
  assert (∀ i, (start < i < length e1)%nat → turn_start e1 i = turn_start entries (next + (i - start))) as Htu.
  { intros i Hi. rewrite <-(take_drop next entries).
    replace (next + (i - start))%nat with (length (take next entries) + (i - start))%nat by (rewrite length_take; lia).
    replace i with (length (take start entries) + (i - start))%nat at 1 by lia. unfold e1.
    apply turn_start_shift; [lia|]. rewrite length_drop. lia. }
  destruct (IH e1 (S dropped)) as (m & [Ho Hm Hturn Hneed Hdone] & Hk); [lia|lia|].
  exists (next + (m - start))%nat. rewrite Ht1, Hd1 in Ho by done. split; [|right; lia].
  constructor; [exact Ho|lia| | |exact Hdone].
  - right. destruct Hturn as [->|Hturn]; [by rewrite Nat.sub_diag, Nat.add_0_r|].
    destruct (decide (m = start)) as [->|]; [by rewrite Nat.sub_diag, Nat.add_0_r|].
    rewrite <-Htu; [done|]. split; [lia|]. destruct (decide (m < length e1)%nat); [done|].
    unfold turn_start in Hturn. by rewrite lookup_ge_None_2 in Hturn by lia.
  - intros i Hi Hti. destruct (decide (i = start)) as [->|Hns]; [by rewrite take_drop|]. destruct Hti as [?|Hti]; [done|].
    destruct (decide (i < next)%nat); [rewrite Hbetween in Hti by lia; done|].
    assert (i = next + ((start + (i - next)) - start))%nat as Ei by lia.
    rewrite Ei. rewrite <-Hd1, <-Ht1 by lia. apply Hneed; [lia|].
    destruct (decide (i = next)) as [->|]; [left; lia|right].
    assert (i < length entries)%nat.
    { destruct (decide (i < length entries)%nat); [done|]. unfold turn_start in Hti. by rewrite lookup_ge_None_2 in Hti by lia. }
    rewrite Htu by lia. by rewrite <-Ei.
Qed.
End laws.

(** ** Summaries *)

Section summaries.
Context {host : Host} {text_digest : TextDigest} {prompts : SummaryPrompts}.
Context (stringify : Value → option string) (parse_javascript_json from_str : string → option Value).
Notation hash_source := (hash_source stringify).
Notation apply_summary := (apply_summary stringify).
Notation apply := (Compaction.apply stringify parse_javascript_json from_str).

(** [working] is the history with the summary [record] in the place of its
    first [n] messages, and the digest of [record] is the one of these. *)
Record summarizes (record : Value) (entries working : list Entry) (n : nat) : Prop := {
  cv_some : (0 < n < length (drop (body_start entries) entries))%nat;
  cv_hash : ∃ hash, hash_source (take n (drop (body_start entries) entries)) = Some hash
    ∧ as_str (vindex record "sourceHash") = Some hash;
  cv_working : ∃ summary id, as_str (vindex record "summary") = Some summary
    ∧ as_str (vindex record "summaryId") = Some id
    ∧ working = take (body_start entries) entries
        ++ (text_message "user" (covering_text summary), Some ("summary:" +:+ id)) :: drop n (drop (body_start entries) entries);
  cv_next : ∃ first, drop (body_start entries) entries !! n = Some first
    ∧ first.2 = as_str (vindex record "firstKeptMessageId")
}.

Lemma apply_summary_covers entries record working :
  apply_summary entries record = Some working → ∃ n, summarizes record entries working n.
Proof.
  unfold Compaction.apply_summary. set (body := drop (body_start entries) entries).
  destruct (as_str (vindex record "summarizerRevision")) as [summarizer|]; [|done]. cbn [mbind option_bind].
  destruct (negb _); [done|]. destruct (position_of _ _) as [through|]; [|done]. cbn [mbind option_bind].
  destruct (body !! S through) as [first|] eqn:Hf; [|done]. cbn [mbind option_bind].
  case_bool_decide as Hk; [|done]. cbn [negb].
  destruct (hash_source _) as [hash|] eqn:Hh; [|done]. cbn [mbind option_bind].
  destruct (as_str (vindex record "sourceHash")) as [source_hash|] eqn:Hs; [|done]. cbn [mbind option_bind].
  destruct (String.eqb_spec hash source_hash) as [<-|]; [|done]. cbn [negb].
  destruct (as_str (vindex record "summary")) as [summary|] eqn:Et; [|done]. cbn [mbind option_bind].
  destruct (as_str (vindex record "summaryId")) as [id|] eqn:Ei; [|done]. cbn [mbind option_bind].
  intros [= <-]. exists (S through). constructor; fold body.
  - apply lookup_lt_Some in Hf. lia.
  - by exists hash.
  - by exists summary, id.
  - by exists first.
Qed.
Lemma find_summary_covers entries summaries record working :
  find_summary stringify entries summaries = Some (record, working) →
  record ∈ summaries ∧ apply_summary entries record = Some working.
Proof.
  induction summaries as [|r summaries IH]; [done|]. cbn [find_summary].
  destruct (apply_summary entries r) as [w|] eqn:E.
  - intros [= <- <-]. split; [left|done].
  - intros [? ?]%IH. split; [by right|done].
Qed.

(** With distinct ids a position is the only one. *)
Lemma position_of_at body i entry : NoDup (map snd body) → body !! i = Some entry → position_of body entry.2 = Some i.
Proof.
  intros Hnd Hi. unfold position_of. assert (list_find (λ e : Entry, e.2 = entry.2) body = Some (i, entry)) as ->; [|done].
  apply list_find_Some. split_and!; [done|done|]. intros j e Hj Hlt He.
  assert (i = j) by (eapply NoDup_lookup; [exact Hnd|..]; rewrite list_lookup_fmap; [by rewrite Hi|by rewrite Hj; simpl; rewrite He]).
  lia.
Qed.

(** A summary that was just made applies. *)
Lemma summary_record_applies input cut id summary details record :
  let body := drop (body_start input.(in_entries)) input.(in_entries) in
  NoDup (map snd body) → (0 < cut)%nat → summary_record stringify input body cut id summary details = Ok record →
  ∃ working, apply_summary input.(in_entries) record = Some working ∧ summarizes record input.(in_entries) working cut.
Proof.
  intros body Hnd Hcut. unfold summary_record. intros Hr.
  apply res_bind_Ok in Hr as (timestamp & _ & Hr).
  apply res_bind_Ok in Hr as (last & Hlast%ok_or_Ok & Hr). apply res_bind_Ok in Hr as (through & Hthrough%ok_or_Ok & Hr).
  apply res_bind_Ok in Hr as (first & Hfirst%ok_or_Ok & Hr). apply res_bind_Ok in Hr as (kept & Hkept%ok_or_Ok & Hr).
  apply res_bind_Ok in Hr as (hash & Hhash%ok_or_Ok & Hr). injection Hr as <-.
  set (record := VObj _).
  assert (apply_summary (in_entries input) record
    = Some (take (body_start (in_entries input)) (in_entries input)
            ++ (text_message "user" (covering_text summary), Some ("summary:" +:+ id)) :: drop cut body)) as E.
  { unfold Compaction.apply_summary. fold body.
    change (as_str (vindex record "summarizerRevision")) with (Some revision).
    change (as_str (vindex record "coversThroughMessageId")) with (Some through).
    change (as_str (vindex record "firstKeptMessageId")) with (Some kept).
    change (as_str (vindex record "sourceHash")) with (Some hash).
    change (as_str (vindex record "summary")) with (Some summary).
    change (as_str (vindex record "summaryId")) with (Some id).
    cbn [mbind option_bind]. rewrite String.eqb_refl. cbn [negb].
    rewrite <-Hthrough, (position_of_at body (cut - 1) last Hnd Hlast). cbn [mbind option_bind].
    replace (S (cut - 1)) with cut by lia. rewrite Hfirst. cbn [mbind option_bind].
    rewrite bool_decide_true by done. cbn [negb]. rewrite Hhash. cbn [mbind option_bind]. by rewrite String.eqb_refl. }
  eexists. split; [exact E|]. constructor; fold body.
  - apply lookup_lt_Some in Hfirst. lia.
  - by exists hash.
  - by exists summary, id.
  - by exists first.
Qed.

(** ** The effects of a compaction *)

Definition appends (P : Effect → Prop) (t t' : list Effect) : Prop := ∃ l, t' = t ++ l ∧ Forall P l.
#[export] Instance appends_preorder P : PreOrder (appends P).
Proof.
  split; [intros t; exists []; by rewrite app_nil_r|].
  intros t t' t'' (l & -> & Hl) (l' & -> & Hl'). exists (l ++ l'). rewrite app_assoc. split; [done|by apply Forall_app].
Qed.
Definition is_emitted (e : Effect) : Prop := ∃ kind data, e = Emitted kind data.
Definition trimming_reported (effects : list Effect) : Prop :=
  ∃ data, Emitted "run.warning" data ∈ effects ∧ as_str (vindex data "code") = Some "context_trimmed".

Lemma emit_Ok world kind data t u t' : emit world kind data t = Ok (u, t') → t' = t ++ [Emitted kind data].
Proof. unfold emit. destruct (w_emit _ _ _ _); [by intros [= _ <-]|done]. Qed.
Lemma emit_emitted world kind data : within (appends is_emitted) (emit world kind data).
Proof. intros t u t' ->%emit_Ok. exists [Emitted kind data]. split; [done|]. constructor; [by eexists _, _|constructor]. Qed.
Lemma account_all_emitted world usage : ∀ first, within (appends is_emitted) (account_all world usage first).
Proof.
  induction usage as [|item usage IH]; intros first; cbn [account_all]; [destruct first; by eauto with st typeclass_instances|].
  intros t u t' H. destruct (emit world _ _ t) as [ [x t1]|e] eqn:E; [|by eapply IH].
  etrans; [by eapply emit_emitted|by eapply IH].
Qed.
(** Trimming reports whatever it drops. *)
Lemma trim_and_report_spec world entries budget t out t' : (trim_start entries ≤ length entries)%nat →
  trim_and_report world entries budget t = Ok (out, t') →
  appends is_emitted t t' ∧ ∃ m, trimmed (trim_start entries) budget entries out m
    ∧ ((trim_start entries < m)%nat → trimming_reported t').
Proof.
  intros Hs. unfold trim_and_report, trim_entries.
  destruct (trim_loop_spec (length entries) (trim_start entries) budget entries 0 ltac:(lia) Hs) as (m & Ht & Hk).
  destruct (trim_loop _ _ _ _ _) as [out' dropped]. cbn [fst snd] in *.
  destruct dropped as [|dropped]; intros H; inv_st; subst.
  - split; [reflexivity|]. exists m. split; [done|]. lia.
  - match goal with H : emit _ _ _ _ = _ |- _ => pose proof H as ->%emit_Ok end.
    split; [eexists; split; [done|]; constructor; [by eexists _, _|constructor]|].
    exists m. split; [done|]. intros _. eexists. split; [apply elem_of_app; right; left|done].
Qed.
Lemma trim_start_le entries : (trim_start entries ≤ length entries)%nat.
Proof.
  unfold trim_start. assert (body_start entries ≤ length entries)%nat.
  { destruct entries as [|[m id] l]; simpl; [lia|]. destruct (String.eqb _ _); lia. }
  destruct (entries !! body_start entries) as [ [m [id|]]|] eqn:E; [|lia..].
  apply lookup_lt_Some in E. destruct (String.prefix _ _); lia.
Qed.

(** What the store said when a summary was saved: the lease held before and
    after, nobody had cancelled, and the chat, its messages, its receipts and
    its summaries were those the summary was made from. *)
Record unchanged (snapshot : Snapshot) (view : CommitView) : Prop := {
  un_fenced : view.(cv_fence) = Ok tt ∧ view.(cv_fence_after) = Ok tt;
  un_wanted : view.(cv_cancelled) = false ∧ view.(cv_cancelled_after) = false;
  un_task : ∃ task, view.(cv_task) = Ok (Some task) ∧ task.(t_cancel_requested) = false ∧ task.(t_interrupt_requested) = false;
  un_chat : ∃ chat, view.(cv_chat) = Ok (Some chat)
    ∧ ovalue_eqb (vget chat.(ch_metadata) "agentkit.session") snapshot.(sn_descriptor) = true
    ∧ ovalue_eqb (vget chat.(ch_metadata) SessionOps.compact_requested_metadata_key) snapshot.(sn_marker) = true;
  un_path : value_eqb view.(cv_path) snapshot.(sn_path) = true ∧ value_eqb view.(cv_receipts) snapshot.(sn_receipts) = true
    ∧ value_eqb (VArr view.(cv_summaries)) (VArr snapshot.(sn_summaries)) = true
}.
Lemma from_store_Ok {A} (r : Res StoreError A) t a t' : from_store r t = Ok (a, t') → r = Ok a ∧ t' = t.
Proof. unfold from_store. intros [H ->]%st_lift_Ok. destruct r; [by injection H as ->|done]. Qed.
Lemma verify_active_Ok view t u t' : verify_active view t = Ok (u, t') →
  t' = t ∧ view.(cv_cancelled) = false ∧ view.(cv_fence) = Ok tt
  ∧ ∃ task, view.(cv_task) = Ok (Some task) ∧ task.(t_cancel_requested) = false ∧ task.(t_interrupt_requested) = false.
Proof.
  unfold verify_active. destruct (cv_cancelled view); [done|].
  intros ([] & t1 & [Hf ->]%from_store_Ok & H)%st_bind_Ok. apply st_bind_Ok in H as ([task|] & t2 & [Ht ->]%from_store_Ok & H); [|done].
  destruct (t_cancel_requested task) eqn:Hc; [done|]. destruct (t_interrupt_requested task) eqn:Hi; [done|].
  apply st_ret_Ok in H as [_ ->]. split_and!; [done..|]. by exists task.
Qed.
Lemma validate_snapshot_Ok snapshot view t chat t' : validate_snapshot snapshot view t = Ok (chat, t') →
  t' = t ∧ view.(cv_chat) = Ok (Some chat)
  ∧ ovalue_eqb (vget chat.(ch_metadata) "agentkit.session") snapshot.(sn_descriptor) = true
  ∧ ovalue_eqb (vget chat.(ch_metadata) SessionOps.compact_requested_metadata_key) snapshot.(sn_marker) = true
  ∧ value_eqb view.(cv_path) snapshot.(sn_path) = true ∧ value_eqb view.(cv_receipts) snapshot.(sn_receipts) = true
  ∧ value_eqb (VArr view.(cv_summaries)) (VArr snapshot.(sn_summaries)) = true.
Proof.
  unfold validate_snapshot. intros ([c|] & t1 & [Hc ->]%from_store_Ok & H)%st_bind_Ok; [|done].
  destruct (_ || _) eqn:Hv; [done|]. apply st_ret_Ok in H as [-> ->].
  repeat (apply orb_false_iff in Hv as [Hv ?%negb_false_iff]). apply negb_false_iff in Hv. by split_and!.
Qed.
Lemma commit_Ok snapshot view record t u t' : commit snapshot view record t = Ok (u, t') →
  unchanged snapshot view ∧ ∃ l, t' = t ++ l ∧ ∀ r, Saved r ∈ l → record = Some r.
Proof.
  unfold commit. intros ([] & t1 & (-> & Hc & Hf & Ht)%verify_active_Ok & H)%st_bind_Ok.
  apply st_bind_Ok in H as (chat & t2 & (-> & Hchat & Hd & Hm & Hpath)%validate_snapshot_Ok & H).
  apply st_bind_Ok in H as ([] & t3 & [_ ->]%from_store_Ok & H). apply st_bind_Ok in H as ([] & t4 & [Hfa ->]%from_store_Ok & H).
  destruct (cv_cancelled_after view) eqn:Hca; [done|]. apply st_bind_Ok in H as ([] & t5 & [_ ->]%from_store_Ok & H).
  unfold log in H. apply st_modify_Ok in H as ->. split.
  - constructor; [done|done|done|by exists chat|done].
  - eexists. split; [done|]. intros r [Hr|Hr]%elem_of_app.
    + destruct record as [r'|]; simpl in Hr; [|by apply elem_of_nil in Hr]. apply list_elem_of_singleton in Hr. by injection Hr as ->.
    + destruct (manual snapshot); [by apply list_elem_of_singleton in Hr|by apply elem_of_nil in Hr].
Qed.

(** ** The whole *)

Lemma widen_cut_in entries keep rev_starts : ∀ cut total, widen_cut entries keep rev_starts cut total ∈ cut :: rev_starts.
Proof.
  induction rev_starts as [|start rev_starts IH]; intros cut total; cbn [widen_cut]; [left|].
  destruct (_ <? _); [left|]. right. apply IH.
Qed.
(** A cut that summarizes something is made where a turn begins. *)
Lemma find_cut_turn entries from keep : find_cut entries from keep = from ∨ turn_start entries (find_cut entries from keep) = true.
Proof.
  unfold find_cut. set (starts := filter_by _ _). destruct (rev starts) as [|last before] eqn:E; [by left|right].
  pose proof (widen_cut_in entries keep before last (entries_tokens (drop last entries))) as Hin. rewrite <-E in Hin.
  apply list_elem_of_In, in_rev, list_elem_of_In in Hin. by apply elem_of_filter_by in Hin as [? _].
Qed.

Lemma saved_before r t t' : appends is_emitted t t' → Saved r ∈ t' → Saved r ∈ t.
Proof.
  intros (l & -> & Hl) [?|Hr]%elem_of_app; [done|]. rewrite Forall_forall in Hl. by destruct (Hl _ Hr) as (kind & data & [=]).
Qed.
Lemma plan_working input snapshot : let plan := make_plan stringify input snapshot in
  plan.(pl_working) = input.(in_entries)
  ∨ ∃ record n, record ∈ snapshot.(sn_summaries) ∧ summarizes record input.(in_entries) plan.(pl_working) n.
Proof.
  unfold make_plan. cbn [pl_working]. destruct (find_summary _ _ _) as [ [record working]|] eqn:E; [right|by left].
  apply find_summary_covers in E as [Hr E]. destruct (apply_summary_covers _ _ _ E) as [n Hn]. by exists record, n.
Qed.
Lemma save_summary_spec input world snapshot plan id text out t t' :
  let body := drop (body_start input.(in_entries)) input.(in_entries) in
  plan.(pl_body_start) = body_start input.(in_entries) → (0 < plan.(pl_cut))%nat →
  save_summary stringify from_str input world snapshot plan id text t = Ok (out, t') →
  unchanged snapshot world.(w_commit)
  ∧ ∃ record, (∀ r, Saved r ∈ t' → Saved r ∈ t ∨ r = record) ∧ Saved record ∈ t'
    ∧ ((∃ n, summarizes record input.(in_entries) out n) ∨ out = plan.(pl_working))
    ∧ (NoDup (map snd body) → summarizes record input.(in_entries) out plan.(pl_cut)).
Proof.
  intros body Hb Hcut. unfold save_summary. rewrite Hb. destruct (file_details _ _ _) as [details commands].
  intros (record & t1 & [Hr ->]%st_lift_Ok & H)%st_bind_Ok.
  apply st_bind_Ok in H as ([] & t2 & Hcommit & H). apply st_bind_Ok in H as ([] & t3 & ->%emit_Ok & H).
  apply st_ret_Ok in H as [-> ->].
  pose proof Hcommit as [Hun (l & -> & Hl)]%commit_Ok. split; [exact Hun|]. exists record. split_and!.
  - intros r [ [?|?%Hl]%elem_of_app|Hr']%elem_of_app; [by left|right; congruence|by apply list_elem_of_singleton in Hr'].
  - assert (Saved record ∈ t ++ l) as Hin; [|apply elem_of_app; by left].
    revert Hcommit. unfold commit. intros ([] & t3 & (-> & _)%verify_active_Ok & H)%st_bind_Ok.
    apply st_bind_Ok in H as (chat & t4 & (-> & _)%validate_snapshot_Ok & H).
    apply st_bind_Ok in H as ([] & t5 & [_ ->]%from_store_Ok & H). apply st_bind_Ok in H as ([] & t6 & [_ ->]%from_store_Ok & H).
    destruct (cv_cancelled_after _); [done|]. apply st_bind_Ok in H as ([] & t7 & [_ ->]%from_store_Ok & H). unfold log in H. apply st_modify_Ok in H as ->.
    apply elem_of_app. right. apply elem_of_app. left. simpl. left.
  - destruct (apply_summary (in_entries input) record) as [w|] eqn:E; [left; by eapply apply_summary_covers|by right].
  - intros Hnd. destruct (summary_record_applies input (pl_cut plan) id _ details record Hnd Hcut Hr) as (w & -> & Hw). exact Hw.
Qed.

(** C11: A compaction accounts for everything it leaves out.  What is sent to
    the provider is the history, or the history with a summary in the place of
    its first messages; the summary is stored or was just saved, and its
    digest is the one of exactly the messages it stands for.  What is then
    dropped to fit the budget is whole turns behind the system message and the
    summary, the fewest that do, never the last turn, and it is reported.  A
    summary is saved only under the lease, uncancelled, and while the chat, its
    messages, receipts and summaries are those it was made from; with distinct
    ids it is then the one that is used, and what it leaves begins with a turn. *)
Theorem compaction_accounts input world snapshot out effects :
  let entries := input.(in_entries) in
  let body := drop (body_start entries) entries in
  apply input world snapshot [] = Ok (out, effects) →
  ∃ working m,
    (working = entries
     ∨ ∃ record n, (record ∈ snapshot.(sn_summaries) ∨ Saved record ∈ effects) ∧ summarizes record entries working n)
    ∧ trimmed (trim_start working) (message_budget input) working out m
    ∧ ((trim_start working < m)%nat → trimming_reported effects)
    ∧ ∀ record, Saved record ∈ effects → unchanged snapshot world.(w_commit)
        ∧ (NoDup (map snd body) → ∃ n, summarizes record entries working n ∧ turn_start body n = true).
Proof.
  intros entries body. unfold Compaction.apply.
  set (plan := make_plan stringify input snapshot). pose proof (plan_working input snapshot) as Hw. fold plan in Hw. cbv zeta in Hw.
  destruct (negb (pl_triggered plan)) eqn:Htr.
  { intros [-> ->]%st_ret_Ok. apply negb_true_iff, orb_false_iff in Htr as [_ Hfit%Z.ltb_ge].
    exists (pl_working plan), (trim_start (pl_working plan)). split_and!.
    - destruct Hw as [?|(r & n & ? & ?)]; [by left|right; exists r, n; auto].
    - constructor; [by rewrite take_drop|lia|by left|lia|by left].
    - lia.
    - by intros r ?%elem_of_nil. }
  case_bool_decide as Hcut.
  - intros ([] & t1 & Hc & H)%st_bind_Ok.
    apply trim_and_report_spec in H as (Happ & m & Ht & Hrep); [|apply trim_start_le].
    exists (pl_working plan), m. split_and!; [|exact Ht|exact Hrep|].
    + destruct Hw as [?|(r & n & ? & ?)]; [by left|right; exists r, n; auto].
    + intros r Hr%(saved_before _ _ _ Happ). exfalso. destruct (manual snapshot).
      * apply commit_Ok in Hc as [_ (l & -> & Hl)]. by apply Hl in Hr.
      * apply st_ret_Ok in Hc as [_ ->]. by apply elem_of_nil in Hr.
  - destruct (summarize _ _ _ _ _) as [result usage]. intros ([] & t1 & Hacc & H)%st_bind_Ok.
    apply account_all_emitted in Hacc.
    assert (∀ r, Saved r ∉ t1) as Hno by (intros r Hr%(saved_before _ _ _ Hacc); by apply elem_of_nil in Hr).
    apply st_bind_Ok in H as (working & t2 & Hres & H).
    apply trim_and_report_spec in H as (Happ & m & Ht & Hrep); [|apply trim_start_le].
    exists working, m. destruct result as [text|reason].
    + apply save_summary_spec in Hres as (Hun & record & Hsaved & Hin & Hout & Hnd); [|done|lia]. split_and!; [|exact Ht|exact Hrep|].
      * assert (Saved record ∈ effects) by (destruct Happ as (l & -> & _); apply elem_of_app; by left).
        destruct Hout as [ [n Hn]|Ew]; [right; exists record, n; auto|].
        destruct Hw as [Hw|(r & n & ? & ?)]; [left; by rewrite Ew|right; exists r, n; rewrite Ew; auto].
      * intros r Hr%(saved_before _ _ _ Happ). destruct (Hsaved r Hr) as [?%Hno| ->]; [done|]. split; [exact Hun|].
        intros Hids. exists (pl_cut plan). split; [by apply Hnd|].
        destruct (find_cut_turn body (pl_from plan) (keep_recent_tokens input snapshot)) as [Hf|Hf]; [|exact Hf].
        exfalso. apply Hcut. change (pl_cut plan) with (find_cut body (pl_from plan) (keep_recent_tokens input snapshot)). rewrite Hf. lia.
    + apply st_bind_Ok in Hres as ([] & t3 & Hcan & Hres).
      assert (t3 = t1) as -> by (destruct (w_cancelled world); [done|by apply st_ret_Ok in Hcan as [_ ->] ]).
      apply st_bind_Ok in Hres as ([] & t4 & ->%emit_Ok & Hres). apply st_ret_Ok in Hres as [-> ->].
      split_and!; [|exact Ht|exact Hrep|].
      * destruct Hw as [?|(r & n & ? & ?)]; [by left|right; exists r, n; auto].
      * intros r Hr. apply (saved_before _ _ _ Happ), elem_of_app in Hr as [Hr|Hr]; [by apply Hno in Hr|by apply list_elem_of_singleton in Hr].
Qed.
End summaries.

(** ** Examples *)

Definition ex_prompts : SummaryPrompts := {| system_prompt := ""; first_prompt := "Summarize."; update_prompt := "Update." |}.
Definition ex_entry (role text id : string) : Entry := (text_message role text, Some id).
Definition ex_session : list Entry :=
  [(text_message "system" "be brief", None); ex_entry "user" "one" "m1"; ex_entry "assistant" "first answer" "m2";
   ex_entry "user" "two" "m3"; ex_entry "assistant" "second answer" "m4"; ex_entry "user" "three" "m5"].
Definition ex_input : Input :=
  mkInput "t1" (VObj [("sessionContext", VObj [("keepRecentTokens", int_value 0)])]) (mkFence "t1" "token" 1) 5 "chat" "model" "provider"
    (mkContextBudget 1000 "model" 100) ex_session None VNull VNull.
Definition ex_snapshot : Snapshot := mkSnapshot (Some (VStr "now")) None VNull VNull [].
Definition ex_task : TaskRecord :=
  mkTask "t1" "chat.turn" "chat" Running VNull 0 0 0 None None [] None 0 0 None None None None false None false false None None None None.
Definition ex_chat : ChatRecord :=
  mkChat "chat" None (VObj [(SessionOps.compact_requested_metadata_key, VStr "now")]) false (EpochMillis 0) (EpochMillis 0).
Definition ex_world : CompactionWorld :=
  mkCompactionWorld (λ _ _ _, Ok tt) (λ _ _, [])
    (Some (RunLoop.mkRunResult "t1" RunLoop.RunCompleted [text_message "assistant" " went well "] 1 None false)) false
    (mkCommitView false (Ok tt) (Ok (Some ex_task)) (Ok (Some ex_chat)) VNull VNull [] (Ok tt) (Ok tt) false (Ok tt)).

Lemma compaction_accounts_witness :
  let host := example_host in let text_digest := ex_text_digest in let prompts := ex_prompts in
  match Compaction.apply (λ _, Some "text") (λ _, None) (λ _, None) ex_input ex_world ex_snapshot [] with
  | Ok (out, Saved record :: effects) =>
      map snd out = [None; Some "summary:t1:compaction:1"; Some "m5"]
      ∧ unchanged ex_snapshot ex_world.(w_commit)
      ∧ ∃ working n, summarizes (λ _, Some "text") record ex_session working n
  | _ => False
  end.
Proof.
  intros host text_digest prompts.
  destruct (Compaction.apply (λ _, Some "text") (λ _, None) (λ _, None) ex_input ex_world ex_snapshot [])
    as [ [out [|[kind data|record|metadata] effects]]|e] eqn:E; try (vm_compute in E; discriminate E).
  destruct (compaction_accounts (λ _, Some "text") (λ _, None) (λ _, None) ex_input ex_world ex_snapshot out _ E)
    as (working & m & _ & _ & _ & Hsaved).
  destruct (Hsaved record ltac:(left)) as [Hun Hcov]. split_and!; [|exact Hun|].
  - vm_compute in E. injection E as <- _. vm_compute. reflexivity.
  - destruct Hcov as (n & Hn & _); [vm_compute; by apply (bool_decide_unpack _)|]. by exists working, n.
Defined.

(** The elision of a history moves on with its turns.  A summary is saved of
    a turn whose results are still whole; one turn later they are cut, the
    digest is another one, and the summary no longer applies. *)
Fixpoint flat_text (v : Value) : string :=
  match v with
  | VStr s => s
  | VArr l => foldr (λ v text, flat_text v +:+ text) "" l
  | _ => ""
  end.
Definition ex_length_digest : TextDigest := λ text, pretty (N.of_nat (length text)).
Definition ex_big_result : Entry :=
  (tool_message (mkToolCall "c1" "read" "{}") (String.concat "" (repeat "0123456789" 20)), Some "m3").
Definition ex_covered_turn : list Entry :=
  [ex_entry "user" "read it" "m1"; (assistant_message "" [mkToolCall "c1" "read" "{}"], Some "m2"); ex_big_result;
   ex_entry "user" "and now?" "m4"].
Definition ex_next_turn : list Entry := ex_covered_turn ++ [ex_entry "assistant" "nothing" "m5"; ex_entry "user" "go on" "m6"].
Definition ex_elided (entries : list Entry) : list Entry := (elide_stale_tool_results entries (mkElisionOptions 2 8 3 2)).1.
Lemma saved_summary_lapses :
  let text_digest := ex_length_digest in
  let stringify v := Some (flat_text v) in
  let record := VObj [("summaryId", VStr "s"); ("coversThroughMessageId", VStr "m3"); ("firstKeptMessageId", VStr "m4");
    ("summary", VStr "It was read."); ("sourceHash", VStr (default "" (hash_source stringify (take 3 (ex_elided ex_covered_turn)))));
    ("summarizerRevision", VStr revision)] in
  length <$> apply_summary stringify (ex_elided ex_covered_turn) record = Some 2%nat
  ∧ apply_summary stringify (ex_elided ex_next_turn) record = None.
Proof. split; vm_compute; reflexivity. Qed.
