(* ===== verification/ChatHistory.v ===== *)
(** * The history a turn replays

    [host/src/chat_history.rs]: from the stored messages of a chat to the
    messages of a request.  The records the provider may see are put in its
    order, cut to a window that does not open inside a group of results, and
    every call that has no stored result gets one from the ledger of
    receipts: the recorded result where there is one, a failure that says what
    is known where there is not. *)

From stdpp Require Import pretty.
From S2P Require Export ProviderOrder Guarded.
From S2P Require RunLoop.
From S2P Require Import OrderLaws GuardedLaws TaskOps.
From S2P Require Export ToolContent.
Local Open Scope Z_scope.

(** ** Reading a record *)

(** [HistoryPolicy]. *)
Inductive HistoryPolicy := Transcript | FinalAnswers.
#[export] Instance HistoryPolicy_eq_dec : EqDecision HistoryPolicy.
Proof. solve_decision. Defined.

(** The calls of a record; none when they do not read. *)
Definition calls_of (record : MessageRecord) : list ToolCall :=
  match record.(m_tool_calls) with Some value => RunLoop.parse_calls value | None => [] end.

Definition own_run_record (record : MessageRecord) : bool :=
  String.eqb record.(m_role) "tool" || String.eqb record.(m_role) "system"
  || meta_true "internal" record || meta_true "steering" record
  || is_some (vget record.(m_metadata) "correctionPass").

(** [record.run_id.as_deref() == Some(run_id)]. *)
Definition owned_by (run_id : string) (record : MessageRecord) : bool := bool_decide (record.(m_run_id) = Some run_id).

Definition eligible_records (ordered : list MessageRecord) (anchor run_id : string) (policy : HistoryPolicy)
    : list MessageRecord :=
  filter_by (λ record,
    (record.(m_active) || owned_by run_id record && meta_true "internal" record)
    && (bool_decide (policy = Transcript) || owned_by run_id record || negb (own_run_record record))
    && (negb (String.eqb record.(m_id) anchor) && negb (meta_true "placeholder" record)
        && negb (meta_true "canonicalProviderDisplay" record) && negb (String.eqb record.(m_role) "system")
        && negb (is_some (vget record.(m_metadata) "correctionPass") && negb (meta_true "canonicalProviderTurn" record))))
    ordered.

(** A call of a run. *)
Notation Key := (option string * string)%type.

Definition call_key (record : MessageRecord) (call : ToolCall) : Key := (record.(m_run_id), call.(tc_id)).
Definition declared_calls (records : list MessageRecord) : list Key :=
  concat (map (λ record, map (call_key record) (calls_of record))
              (filter_by (λ record, String.eqb record.(m_role) "assistant") records)).

(** The call a record answers, when it answers one. *)
Definition answered_key (record : MessageRecord) : option Key :=
  id ← record.(m_tool_call_id); Some (record.(m_run_id), id).

(** ** The window *)

Definition opens_in_group (record : MessageRecord) (declared : list Key) : bool :=
  String.eqb record.(m_role) "tool"
  && is_some_and (answered_key record) (λ key, negb (bool_decide (key ∈ declared))).

(** The loop of [history_start]; [None] where indexing the records panics. *)
Fixpoint extend_start (eligible : list MessageRecord) (start : nat) : option nat :=
  match start with
  | O => Some O
  | S before =>
      record ← eligible !! start;
      if opens_in_group record (declared_calls (drop start eligible)) then extend_start eligible before else Some start
  end.
Definition history_start (eligible : list MessageRecord) (limit : Z) : option nat :=
  extend_start eligible (Z.to_nat (Z.of_nat (length eligible) - limit)).

Notation OwnedHistoryMessage := (ChatMessage * option string * option string)%type.

(** What the record is shown as. *)
Definition shown (record : MessageRecord) : ChatMessage :=
  mkChatMessage record.(m_role) record.(m_content) (as_str (vindex record.(m_metadata) "toolName"))
    record.(m_tool_call_id) (calls_of record) None.
Definition visible_message (record : MessageRecord) (declared : list Key) : option OwnedHistoryMessage :=
  if String.eqb record.(m_role) "tool"
     && is_none_or (answered_key record) (λ key, negb (bool_decide (key ∈ declared)))
  then None
  else Some (shown record, record.(m_run_id), Some record.(m_id)).

(** ** Answers from the ledger *)

Inductive ReceiptDecision :=
  | CompletedAs (model_json : string)
  | UncertainEffect
  | ResolvedAs (outcome : ResolutionOutcome)
  | MissingResult.

Section history.
Context {host : Host} {digests : Digests} {text_digest : TextDigest} {results : ResultJson} {lower : LowerExp}.
(** [stringify_javascript_value], [parse_javascript_json]; the limits a stored
    result carries. *)
Context (stringify : Value → string) (parse_json : string → option Value) (limits_of : Value → ToolLimits).

(** [tool_model_envelope]. *)
Definition tool_model_envelope (result : ToolResult) (limits : ToolLimits) : string :=
  stringify (build stringify result limits).

Definition arguments_match (record : ExecutionReceiptRecord) (call : ToolCall) : bool :=
  is_some_and (parse_json call.(tc_arguments_json)) (λ arguments,
    args_match record.(er_args_hash_provenance) record.(er_args_sha256) (args_sha256 arguments)
      (Some (ts_args_sha256 arguments))).
Definition receipt_of (receipts : list ExecutionReceiptRecord) (owner_run id : string) : option ExecutionReceiptRecord :=
  rfind (λ record, String.eqb record.(er_run_id) owner_run && String.eqb record.(er_tool_call_id) id) receipts.

Definition resolve_receipt (receipts : list ExecutionReceiptRecord) (owner_run : option string) (call : ToolCall)
    : ReceiptDecision :=
  match owner_run with
  | None => MissingResult
  | Some owner_run =>
      match receipt_of receipts owner_run call.(tc_id) with
      | None => MissingResult
      | Some record =>
          if negb (String.eqb record.(er_tool_name) call.(tc_name)) || negb (arguments_match record call) then UncertainEffect
          else match record.(er_status) with
               | ReceiptCompleted =>
                   match record.(er_result) with
                   | Some value => match from_value value with
                                   | Some stored => CompletedAs (tool_model_envelope stored (limits_of value))
                                   | None => UncertainEffect
                                   end
                   | None => UncertainEffect
                   end
               | Resolved => match record.(er_resolution) with
                             | Some resolution => ResolvedAs resolution.(rl_outcome)
                             | None => UncertainEffect
                             end
               | ReceiptAdmitted => UncertainEffect
               end
      end
  end.

Definition resolved_text (outcome : ResolutionOutcome) : string :=
  match outcome with
  | NotStarted => "an operator confirmed this tool call never started; no result exists"
  | Acknowledged => "an operator acknowledged this tool call without a recorded result; its effect remains unconfirmed"
  | OutcomeCompleted => "an operator resolved this tool call as completed"
  end.
Definition failure_envelope (text code : string) : string :=
  json_text (VObj [("ok", VBool false); ("status", VStr "error"); ("summary", VStr text); ("warnings", VArr []);
                   ("truncated", VBool false); ("data", VObj [("errorCode", VStr code); ("errorMessage", VStr text)])]).
Definition decision_text (decision : ReceiptDecision) : string :=
  match decision with
  | CompletedAs model_json => model_json
  | UncertainEffect =>
      failure_envelope "admitted execution has no durable result; uncertain side effect, do not reissue" "tool_effect_uncertain"
  | ResolvedAs outcome => failure_envelope (resolved_text outcome) "tool_execution_resolved"
  | MissingResult =>
      failure_envelope "missing tool result for persisted tool call; reconciled as synthetic failure" "tool_result_missing"
  end.
Definition synthetic_result (receipts : list ExecutionReceiptRecord) (owner record_id : option string) (call : ToolCall)
    : ChatMessage * option string :=
  (tool_message call (decision_text (resolve_receipt receipts owner call)),
   id ← record_id; Some (id +:+ "#missing:" +:+ call.(tc_id))).

(** The loop over the calls of a message, and the one over the messages;
    [answered] is the set of answered calls. *)
Fixpoint answer_calls (receipts : list ExecutionReceiptRecord) (owner record_id : option string) (calls : list ToolCall)
    (answered : list Key) : list (ChatMessage * option string) * list Key :=
  match calls with
  | [] => ([], answered)
  | call :: calls =>
      if bool_decide ((owner, call.(tc_id)) ∈ answered) then answer_calls receipts owner record_id calls answered
      else let '(rest, answered) := answer_calls receipts owner record_id calls ((owner, call.(tc_id)) :: answered) in
           (synthetic_result receipts owner record_id call :: rest, answered)
  end.
Fixpoint reconcile_from (receipts : list ExecutionReceiptRecord) (messages : list OwnedHistoryMessage)
    (answered : list Key) : list (ChatMessage * option string) :=
  match messages with
  | [] => []
  | (message, owner, record_id) :: messages =>
      let '(made, answered) := answer_calls receipts owner record_id message.(cm_tool_calls) answered in
      (message, record_id) :: made ++ reconcile_from receipts messages answered
  end.
Definition answered_by (message : OwnedHistoryMessage) : option Key :=
  let '(m, owner, _) := message in
  if String.eqb m.(cm_role) "tool" then id ← m.(cm_tool_call_id); Some (owner, id) else None.
Definition reconcile (messages : list OwnedHistoryMessage) (receipts : list ExecutionReceiptRecord)
    : list (ChatMessage * option string) :=
  reconcile_from receipts messages (omap answered_by messages).

Definition assemble_with_ids (records : list MessageRecord) (limit : Z) (anchor : string) (system_prompt : option string)
    (receipts : list ExecutionReceiptRecord) (run_id : string) (policy : HistoryPolicy)
    : option (list (ChatMessage * option string)) :=
  let eligible := eligible_records (order_messages_for_provider records) anchor run_id policy in
  start ← history_start eligible limit;
  let prompt := match system_prompt with
                | Some prompt => if String.eqb prompt "" then [] else [(text_message "system" prompt, None, None)]
                | None => []
                end in
  let declared := declared_calls (drop start eligible) in
  Some (reconcile (prompt ++ omap (λ record, visible_message record declared) (drop start eligible)) receipts).
End history.

(** ** What a run leaves in the store *)

(** [DurableEvents]: the chat and the run of its task, the assistant message
    the turn fills, and whether the provider replays its own turns. *)
Record DurableEvents := mkDurableEvents {
  dv_chat_id : string;
  dv_task_id : string;
  dv_anchor : string;
  dv_canonical : bool;
  dv_display_metadata : Value
}.
(** [metadata[key] = value] on an object or on [null]. *)
Definition mset (key : string) (value : Value) (metadata : Value) : Value :=
  match metadata with VNull => VObj [(key, value)] | _ => vset key value metadata end.

(** The record of one message; [id] is the next fresh id. *)
Definition persist_message (sink : DurableEvents) (id : string) (message : ChatMessage) : list MessageInput :=
  let final_answer := String.eqb message.(cm_role) "assistant" && bool_decide (message.(cm_tool_calls) = []) in
  let metadata := if sink.(dv_canonical) then mset "canonicalProviderTurn" (VBool true) (VObj []) else VObj [] in
  let metadata := if final_answer && negb sink.(dv_canonical)
                  then mset "placeholder" (VBool true) sink.(dv_display_metadata) else metadata in
  let metadata := if negb final_answer then mset "internal" (VBool true) metadata else metadata in
  let metadata := match message.(cm_name) with Some name => mset "toolName" (VStr name) metadata | None => metadata end in
  mkMessageInput (Some (if final_answer && negb sink.(dv_canonical) then sink.(dv_anchor) else id)) sink.(dv_chat_id)
    (Some sink.(dv_task_id)) message.(cm_role) message.(cm_content) None message.(cm_tool_call_id)
    (match message.(cm_tool_calls) with [] => None | calls => Some (VArr (map RunLoop.call_value calls)) end)
    (if String.eqb message.(cm_role) "tool" then as_str message.(cm_content) else None) metadata true false
  :: (if final_answer && sink.(dv_canonical)
      then [mkMessageInput (Some sink.(dv_anchor)) sink.(dv_chat_id) (Some sink.(dv_task_id)) "assistant" message.(cm_content)
              None None None None
              (mset "placeholder" (VBool true) (mset "canonicalProviderDisplay" (VBool true) sink.(dv_display_metadata))) true false]
      else []).
(** The loop of [persist], with the ids the runtime gives. *)
Definition persist_messages (sink : DurableEvents) (ids : nat → string) (messages : list ChatMessage) : list MessageInput :=
  concat (imap (λ i message, persist_message sink (ids i) message) messages).

(** ** The window *)

(** The loop ends, never before its start, and not inside a group of results
    whose declaration it could still reach. *)
Lemma extend_start_spec eligible start : (start < length eligible ∨ start = 0)%nat →
  ∃ first, extend_start eligible start = Some first ∧ (first ≤ start)%nat
    ∧ (first = 0%nat ∨ ∃ record, eligible !! first = Some record
        ∧ opens_in_group record (declared_calls (drop first eligible)) = false).
Proof.
  induction start as [|before IH]; intros Hs; [exists 0%nat; cbn; auto|]. cbn [extend_start].
  destruct (lookup_lt_is_Some_2 eligible (S before)) as [record Hr]; [lia|]. rewrite Hr. cbn [mbind option_bind].
  destruct (opens_in_group _ _) eqn:Ho; [|exists (S before); eauto 7].
  destruct IH as (first & -> & Hle & Hf); [lia|]. exists first. split_and!; [done|lia|done].
Qed.
Lemma history_start_spec eligible limit : 0 < limit →
  ∃ first, history_start eligible limit = Some first
    ∧ (first ≤ Z.to_nat (Z.of_nat (length eligible) - limit))%nat
    ∧ (first = 0%nat ∨ ∃ record, eligible !! first = Some record
        ∧ opens_in_group record (declared_calls (drop first eligible)) = false).
Proof. intros Hl. apply extend_start_spec. lia. Qed.

(** ** Filling in the answers *)

Section reconcile.
Context {host : Host} {digests : Digests} {text_digest : TextDigest} {results : ResultJson} {lower : LowerExp}.
Context (stringify : Value → string) (parse_json : string → option Value) (limits_of : Value → ToolLimits).
Notation synthetic_result := (synthetic_result stringify parse_json limits_of).
Notation answer_calls := (answer_calls stringify parse_json limits_of).
Notation reconcile_from := (reconcile_from stringify parse_json limits_of).

Definition keys_of (owner : option string) (calls : list ToolCall) : list Key := map (λ call, (owner, call.(tc_id))) calls.

(** The calls of a message that get an answer are those whose key has none. *)
Lemma answer_calls_spec receipts owner id calls : ∀ answered, ∃ cs,
  cs `sublist_of` calls
  ∧ (answer_calls receipts owner id calls answered).1 = map (synthetic_result receipts owner id) cs
  ∧ (∀ k, k ∈ (answer_calls receipts owner id calls answered).2 ↔ k ∈ answered ∨ k ∈ keys_of owner cs)
  ∧ NoDup (keys_of owner cs) ∧ (∀ k, k ∈ keys_of owner cs → k ∉ answered)
  ∧ ∀ k, k ∈ keys_of owner calls → k ∈ answered ∨ k ∈ keys_of owner cs.
Proof.
  induction calls as [|call calls IH]; intros answered; cbn [ChatHistory.answer_calls].
  { exists []. split_and!; [done..| | | |]; cbn.
    - intros k. rewrite elem_of_nil. tauto.
    - apply NoDup_nil_2.
    - by intros k ?%elem_of_nil.
    - by intros k ?%elem_of_nil. }
  case_bool_decide as Ha.
  - destruct (IH answered) as (cs & Hsub & Hmade & Hset & Hnd & Hnew & Hall). exists cs.
    split_and!; [by apply sublist_cons|done..|]. intros k [->|Hk]%elem_of_cons; [by left|by apply Hall].
  - destruct (IH ((owner, call.(tc_id)) :: answered)) as (cs & Hsub & Hmade & Hset & Hnd & Hnew & Hall).
    exists (call :: cs). destruct (answer_calls _ _ _ calls _) as [rest answered'] eqn:E. cbn [fst snd] in *.
    split_and!; [by apply sublist_skip|by rewrite Hmade| | | |]; cbn.
    + intros k. rewrite Hset, !elem_of_cons. tauto.
    + apply NoDup_cons. split; [|done]. intros Hk%Hnew. apply Hk. left.
    + intros k [->|Hk]%elem_of_cons; [done|]. intros Hin. apply (Hnew k Hk). by right.
    + intros k [->|Hk]%elem_of_cons; [right; left|]. apply Hall in Hk as [ [->|Hk]%elem_of_cons|Hk]; [right; left|by left|by right; right].
Qed.

(** A shown message with the answers made for it. *)
Definition answered_group receipts (message : OwnedHistoryMessage) (cs : list ToolCall) : list (ChatMessage * option string) :=
  (message.1.1, message.2) :: map (synthetic_result receipts message.1.2 message.2) cs.
Definition group_keys (message : OwnedHistoryMessage) (cs : list ToolCall) : list Key := keys_of message.1.2 cs.

Lemma reconcile_from_spec receipts messages : ∀ answered, ∃ fills,
  Forall2 (λ message cs, cs `sublist_of` message.1.1.(cm_tool_calls)) messages fills
  ∧ reconcile_from receipts messages answered = concat (zip_with (answered_group receipts) messages fills)
  ∧ let made := concat (zip_with group_keys messages fills) in
    NoDup made ∧ (∀ k, k ∈ made → k ∉ answered)
    ∧ ∀ message k, message ∈ messages → k ∈ keys_of message.1.2 message.1.1.(cm_tool_calls) → k ∈ answered ∨ k ∈ made.
Proof.
  induction messages as [|[ [m o] id] messages IH]; intros answered; cbn [ChatHistory.reconcile_from].
  { exists []. split_and!; [constructor|done| | |]; cbn; [apply NoDup_nil_2|by intros k ?%elem_of_nil|by intros k ? ?%elem_of_nil]. }
  destruct (answer_calls_spec receipts o id m.(cm_tool_calls) answered) as (cs & Hsub & Hmade & Hset & Hnd & Hnew & Hall).
  destruct (answer_calls _ _ _ _ _) as [made answered']. cbn [fst snd] in *.
  destruct (IH answered') as (fills & Hf & Heq & Hnd' & Hnew' & Hall'). exists (cs :: fills).
  split_and!; [by constructor|by rewrite Hmade, Heq| | |]; cbn [zip_with concat].
  - apply NoDup_app. split_and!; [done| |done]. intros k Hk Hk'. apply (Hnew' k Hk'), Hset. by right.
  - intros k [Hk|Hk]%elem_of_app; [by apply Hnew|]. intros Hin. apply (Hnew' k Hk), Hset. by left.
  - intros message k [->|Hm]%elem_of_cons Hk.
    + apply Hall in Hk as [?|?]; [by left|right; apply elem_of_app; by left].
    + destruct (Hall' message k Hm Hk) as [ [?|?]%Hset|?]; [by left|right; apply elem_of_app; by left|right; apply elem_of_app; by right].
Qed.
End reconcile.

(** ** What an answer may say *)

(** The receipts of a call of a run. *)
Definition receipt_for (owner : option string) (call : ToolCall) (r : ExecutionReceiptRecord) : Prop :=
  owner = Some r.(er_run_id) ∧ r.(er_tool_call_id) = call.(tc_id).

Section honest.
Context {host : Host} {digests : Digests} {text_digest : TextDigest} {results : ResultJson} {lower : LowerExp}.
Context (stringify : Value → string) (parse_json : string → option Value) (limits_of : Value → ToolLimits).

(** The last receipt of the call is for the same tool and arguments. *)
Definition evidence (receipts : list ExecutionReceiptRecord) (owner : option string) (call : ToolCall)
    (r : ExecutionReceiptRecord) : Prop :=
  (∃ before after, receipts = before ++ r :: after ∧ ∀ r', r' ∈ after → ¬ receipt_for owner call r')
  ∧ receipt_for owner call r ∧ r.(er_tool_name) = call.(tc_name) ∧ arguments_match parse_json r call = true.

(** A made-up answer says one of four things.  That the call succeeded or
    failed with a recorded result: only with the result recorded for it; that
    an operator closed it: only as the operator did; that it never ran: only
    when no receipt for it exists; and otherwise that its effect is
    uncertain. *)
Inductive honest (receipts : list ExecutionReceiptRecord) (owner : option string) (call : ToolCall) : string → Prop :=
  | honest_result r value stored :
      evidence receipts owner call r → r.(er_status) = ReceiptCompleted → r.(er_result) = Some value →
      from_value value = Some stored →
      honest receipts owner call (tool_model_envelope stringify stored (limits_of value))
  | honest_closed r resolution :
      evidence receipts owner call r → r.(er_status) = Resolved → r.(er_resolution) = Some resolution →
      honest receipts owner call (failure_envelope (resolved_text resolution.(rl_outcome)) "tool_execution_resolved")
  | honest_missing :
      (∀ r, r ∈ receipts → ¬ receipt_for owner call r) →
      honest receipts owner call
        (failure_envelope "missing tool result for persisted tool call; reconciled as synthetic failure" "tool_result_missing")
  | honest_uncertain r :
      r ∈ receipts → receipt_for owner call r →
      honest receipts owner call
        (failure_envelope "admitted execution has no durable result; uncertain side effect, do not reissue" "tool_effect_uncertain").

Lemma find_by_split {A} (p : A → bool) l x : find_by p l = Some x →
  ∃ before after, l = before ++ x :: after ∧ (∀ y, y ∈ before → p y = false) ∧ p x = true.
Proof.
  induction l as [|y l IH]; simpl; [done|]. destruct (p y) eqn:Ep.
  - intros [= <-]. exists [], l. split_and!; [done| |done]. by intros y' ?%elem_of_nil.
  - intros (before & after & -> & Hb & Hp)%IH. exists (y :: before), after. split_and!; [done| |done].
    by intros y' [->|?%Hb]%elem_of_cons.
Qed.
Lemma resolve_receipt_honest receipts owner call :
  honest receipts owner call (decision_text (resolve_receipt stringify parse_json limits_of receipts owner call)).
Proof.
  unfold resolve_receipt. destruct owner as [run|]; [|by apply honest_missing; intros r _ [? _]].
  unfold receipt_of, rfind. destruct (find_by _ (rev receipts)) as [r|] eqn:E.
  - apply find_by_split in E as (before & after & Er & Hb & Hp).
    apply andb_true_iff in Hp as [Hrun%String.eqb_eq Hid%String.eqb_eq].
    assert (receipt_for (Some run) call r) as Hr by (split; congruence).
    assert (receipts = rev after ++ r :: rev before) as Es.
    { rewrite <-(rev_involutive receipts), Er, rev_app_distr. simpl. by rewrite <-app_assoc. }
    assert (r ∈ receipts) as Hin by (rewrite Es; apply elem_of_app; right; left).
    destruct (String.eqb_spec (er_tool_name r) (tc_name call)) as [Hn|]; cbn [negb orb]; [|by apply (honest_uncertain _ _ _ r)].
    destruct (arguments_match _ _ _) eqn:Ha; cbn [negb]; [|by apply (honest_uncertain _ _ _ r)].
    assert (evidence receipts (Some run) call r) as He.
    { split_and!; [|done..]. exists (rev after), (rev before). split; [done|]. intros r' Hr' [Hr1 Hr2].
      apply list_elem_of_In, in_rev, list_elem_of_In in Hr'. specialize (Hb r' Hr'). simpl in Hb. injection Hr1 as Hr1. rewrite Hr1, Hr2, !String.eqb_refl in Hb. done. }
    destruct (er_status r) eqn:Es'; [by apply (honest_uncertain _ _ _ r)| |].
    + destruct (er_result r) as [value|] eqn:Ev; [|by apply (honest_uncertain _ _ _ r)].
      destruct (from_value value) as [stored|] eqn:Ef; [|by apply (honest_uncertain _ _ _ r)]. by eapply honest_result.
    + destruct (er_resolution r) as [resolution|] eqn:Ev; [|by apply (honest_uncertain _ _ _ r)]. by eapply honest_closed.
  - apply honest_missing. intros r Hr [Hr1 Hr2]. injection Hr1 as ->.
    rewrite find_by_None in E. apply list_elem_of_In, in_rev, list_elem_of_In in Hr. apply E in Hr. simpl in Hr. by rewrite Hr2, !String.eqb_refl in Hr.
Qed.
End honest.

(** ** The history *)

(** What of a window is shown, and what of it answers a call. *)
Definition kept_records (window : list MessageRecord) : list MessageRecord :=
  filter_by (λ r, is_some (visible_message r (declared_calls window))) window.
Definition result_key (r : MessageRecord) : option Key := if String.eqb r.(m_role) "tool" then answered_key r else None.
Definition owned_message (r : MessageRecord) : OwnedHistoryMessage := (shown r, r.(m_run_id), Some r.(m_id)).

Lemma visible_window window l :
  omap (λ r, visible_message r (declared_calls window)) l
  = map owned_message (filter_by (λ r, is_some (visible_message r (declared_calls window))) l).
Proof.
  induction l as [|r l IH]; [done|]. rewrite filter_by_cons. cbn [omap list_omap]. rewrite IH.
  unfold visible_message at 1 4. destruct (_ && _); done.
Qed.
Lemma omap_answered l : omap answered_by (map owned_message l) = omap result_key l.
Proof.
  induction l as [|r l IH]; [done|]. cbn [map omap list_omap]. rewrite IH. unfold result_key, answered_key. simpl.
  by destruct (String.eqb _ _).
Qed.
Lemma elem_of_declared k window : k ∈ declared_calls window ↔
  ∃ r, r ∈ window ∧ r.(m_role) = "assistant" ∧ k ∈ map (call_key r) (calls_of r).
Proof.
  unfold declared_calls. rewrite list_elem_of_In, in_concat. split.
  - intros (ks & (r & <- & Hr%list_elem_of_In)%in_map_iff & Hk%list_elem_of_In).
    apply elem_of_filter_by in Hr as [Hrole%String.eqb_eq Hr]. eauto.
  - intros (r & Hr & Hrole & Hk). exists (map (call_key r) (calls_of r)). split; [|by apply list_elem_of_In].
    apply (in_map (λ record, map (call_key record) (calls_of record))). apply list_elem_of_In, elem_of_filter_by. by rewrite Hrole.
Qed.
(** A shown result answers a call that is shown. *)
Lemma kept_declared window k : k ∈ omap result_key (kept_records window) →
  ∃ r, r ∈ kept_records window ∧ r.(m_role) = "assistant" ∧ k ∈ map (call_key r) (calls_of r).
Proof.
  intros (r & Hr & Hk)%list_elem_of_omap. apply elem_of_filter_by in Hr as [Hv _].
  unfold visible_message, result_key in *. destruct (String.eqb (m_role r) "tool"); [|done]. rewrite Hk in Hv. simpl in Hv.
  case_bool_decide as Hd; [|done]. apply elem_of_declared in Hd as (a & Ha & Hrole & Hk'). exists a. split_and!; [|done..].
  apply elem_of_filter_by. split; [|done]. unfold visible_message. by rewrite Hrole.
Qed.

Section assembled.
Context {host : Host} {digests : Digests} {text_digest : TextDigest} {results : ResultJson} {lower : LowerExp}.
Context (stringify : Value → string) (parse_json : string → option Value) (limits_of : Value → ToolLimits).
Notation synthetic_result := (synthetic_result stringify parse_json limits_of).
Notation assemble_with_ids := (assemble_with_ids stringify parse_json limits_of).

(** A record as it is shown, and behind it the answers made for [cs]. *)
Definition record_group receipts (r : MessageRecord) (cs : list ToolCall) : list (ChatMessage * option string) :=
  (shown r, Some r.(m_id)) :: map (synthetic_result receipts r.(m_run_id) (Some r.(m_id))) cs.
Definition prompt_entries (system_prompt : option string) : list (ChatMessage * option string) :=
  match system_prompt with
  | Some prompt => if String.eqb prompt "" then [] else [(text_message "system" prompt, None)]
  | None => []
  end.

Lemma reconcile_records receipts l : ∃ fills,
  Forall2 (λ r cs, cs `sublist_of` calls_of r) l fills
  ∧ reconcile stringify parse_json limits_of (map owned_message l) receipts
    = concat (zip_with (record_group receipts) l fills)
  ∧ let made := concat (zip_with (λ r, map (call_key r)) l fills) in
    NoDup made ∧ (∀ k, k ∈ made → k ∉ omap result_key l)
    ∧ ∀ r c, r ∈ l → c ∈ calls_of r → call_key r c ∈ omap result_key l ∨ call_key r c ∈ made.
Proof.
  unfold reconcile. rewrite omap_answered.
  destruct (reconcile_from_spec stringify parse_json limits_of receipts (map owned_message l) (omap result_key l))
    as (fills & Hf & Heq & Hnd & Hnew & Hall). exists fills.
  assert (zip_with group_keys (map owned_message l) fills = zip_with (λ r, map (call_key r)) l fills) as Ek
    by apply (zip_with_fmap_l group_keys owned_message).
  rewrite Ek in Hnd, Hnew, Hall. rewrite (zip_with_fmap_l _ owned_message) in Heq.
  split_and!; [by rewrite Forall2_fmap_l in Hf|exact Heq|exact Hnd|exact Hnew|].
  intros r c Hr Hc. 
  apply (Hall (owned_message r) (call_key r c)); [by apply list_elem_of_fmap_2|]. by apply (list_elem_of_fmap_2 (call_key r)).
Qed.

Lemma reconcile_prompt receipts prompt l :
  reconcile stringify parse_json limits_of (match prompt with
     | Some prompt => if String.eqb prompt "" then [] else [(text_message "system" prompt, None, None)]
     | None => [] end ++ map owned_message l) receipts
  = prompt_entries prompt ++ reconcile stringify parse_json limits_of (map owned_message l) receipts.
Proof. destruct prompt as [prompt|]; [|done]. simpl. by destruct (String.eqb prompt ""). Qed.

End assembled.

(** A run called three tools before it was lost: the first has its result,
    the second a completed receipt, and nothing is known of the third, whose
    id another run used as well. *)
Definition ex_call (id : string) : Value :=
  VObj [("id", VStr id); ("name", VStr "write_file"); ("argumentsJson", VStr "{}")].
Definition ex_lost_run : list MessageRecord :=
  [ex_record "q1" "user" None None None false 0;
   ex_record "a1" "assistant" (Some "t1") None (Some (VArr [ex_call "c1"; ex_call "c2"; ex_call "c3"])) true 1;
   ex_record "r1" "tool" (Some "t1") (Some "c1") None true 2;
   ex_record "orphan" "tool" (Some "t0") (Some "c9") None true 3;
   ex_record "q2" "user" None None None false 4].
Definition ex_receipt (run id : string) : ExecutionReceiptRecord :=
  mkReceiptRecord "e" run "chat" id "write_file" ex_digest Canonical ex_digest "attempt" None None ReceiptCompleted (Some VNull) None None.
Definition ex_stored : ResultJson :=
  {| to_value := λ _, VNull; from_value := λ _, Some (mkToolResult true None [] [] false None None None None) |}.

