(* ===== verification/ChatReplay.v ===== *)
(** * A run comes back as it was stored

    [DurableEvents::persist] stores the messages of a run as it goes, the
    assembly of [ChatHistory] reads them back: for a later attempt of the run,
    or for a turn that comes after it.  A run whose calls were answered comes
    back message for message; where the code does not manage that, an example
    shows it. *)

From S2P Require Import RunHistory.
From S2P Require Export ChatHistory.
From S2P Require Import OrderLaws GuardedLaws TaskOps.
From S2P Require Export ToolContent ProviderOrder.
Local Open Scope Z_scope.

Implicit Types (a r : MessageRecord) (records : list MessageRecord).

(** ** Turns of a run *)

(** A call message with its results. *)
Notation Group := (MessageRecord * list MessageRecord)%type.
Definition flat_groups {A} (groups : list (A * list A)) : list A := concat (map (λ g, g.1 :: g.2) groups).

Definition is_result (m : ChatMessage) : Prop := m.(cm_role) = "tool".
Definition answered_turn (g : ChatMessage * list ChatMessage) : Prop :=
  g.1.(cm_role) = "assistant" ∧ Forall is_result g.2
  ∧ map cm_tool_call_id g.2 = map (λ call, Some call.(tc_id)) g.1.(cm_tool_calls).

Lemma owed_results ids ms : owed ids ms = Some [] →
  ∃ results rest, ms = results ++ rest ∧ Forall is_result results ∧ map cm_tool_call_id results = map Some ids
    ∧ owed [] rest = Some [].
Proof.
  revert ms. induction ids as [|id ids IH]; intros ms H; [by exists [], ms|].
  destruct ms as [|m ms]; [done|]. cbn [owed] in H. destruct (_ && _) eqn:E; [|done].
  apply andb_true_iff in E as [Er%bool_decide_eq_true Ei%bool_decide_eq_true].
  destruct (IH ms H) as (results & rest & -> & Hr & Hi & Hrest).
  exists (m :: results), rest. split_and!; [done|by constructor|simpl; by rewrite Ei, Hi|done].
Qed.
(** A run of calls and results in which nothing is owed is made of answered
    turns. *)
Lemma owed_turns ms : (∀ m, m ∈ ms → m.(cm_role) = "assistant" ∨ m.(cm_role) = "tool") → owed [] ms = Some [] →
  ∃ turns, ms = flat_groups turns ∧ Forall answered_turn turns.
Proof.
  remember (length ms) as n eqn:En. assert (length ms ≤ n)%nat as Hn by lia. clear En. revert ms Hn.
  induction n as [|n IH]; intros ms Hn Hroles H; (destruct ms as [|m ms]; [by exists []|]); simpl in Hn; [lia|].
  cbn [owed] in H. destruct (bool_decide (cm_role m = "tool")) eqn:Et; [done|].
  destruct (Hroles m ltac:(left)) as [Ha|Ha]; [|by rewrite bool_decide_true in Et].
  rewrite Ha in H. destruct (owed_results _ _ H) as (results & rest & -> & Hr & Hi & Hrest).
  destruct (IH rest) as (turns & -> & Hturns); [rewrite length_app in Hn; lia| |done|].
  { intros m' Hm'. apply Hroles. right. apply elem_of_app. by right. }
  exists ((m, results) :: turns). split; [done|]. constructor; [|done]. unfold answered_turn. cbn [fst snd].
  split_and!; [done|done|by rewrite Hi, map_map].
Qed.

(** ** The order of one run *)

Definition turn_groups (groups : list Group) : Prop :=
  ∀ g, g ∈ groups → internal_assistant g.1 = true
    ∧ (∀ r, r ∈ g.2 → r.(m_role) = "tool") ∧ map m_tool_call_id g.2 = map Some (call_ids g.1).

Lemma elem_of_flat {A} (x : A) groups : x ∈ flat_groups groups ↔ ∃ g, g ∈ groups ∧ (x = g.1 ∨ x ∈ g.2).
Proof.
  unfold flat_groups. rewrite list_elem_of_In, in_concat. split.
  - intros (l & (g & <- & Hg%list_elem_of_In)%in_map_iff & Hx%list_elem_of_In). exists g. by apply elem_of_cons in Hx.
  - intros (g & Hg & Hx). exists (g.1 :: g.2). split; [apply in_map_iff; exists g; split; [done|by apply list_elem_of_In]|].
    apply list_elem_of_In, elem_of_cons. done.
Qed.

(** A call takes its one result. *)
Lemma take_groups_exact ids : ∀ results (tools : gmap string (list MessageRecord)),
  map m_tool_call_id results = map Some ids → NoDup ids →
  (∀ r id, r ∈ results → r.(m_tool_call_id) = Some id → tools !! id = Some [r]) →
  (take_groups ids tools).1 = results
  ∧ ∀ id, (take_groups ids tools).2 !! id = if bool_decide (id ∈ ids) then None else tools !! id.
Proof.
  induction ids as [|id ids IH]; intros results tools Hids Hnd Hone; (destruct results as [|r results]; try done).
  cbn [take_groups]. injection Hids as Hr Hids. apply NoDup_cons in Hnd as [Hnew Hnd].
  rewrite (Hone r id ltac:(left) Hr).
  destruct (IH results (delete id tools) Hids Hnd) as [Hf Hs].
  { intros r' id' Hr' Hid'. rewrite lookup_delete_ne; [apply Hone; [by right|done]|]. intros ->. apply Hnew.
    assert (Some id' ∈ map Some ids) as Hin by (rewrite <-Hids, <-Hid'; by apply list_elem_of_fmap_2).
    apply list_elem_of_fmap in Hin as (x & [= ->] & ?). done. }
  destruct (take_groups ids (delete id tools)) as [rs ts]. cbn [fst snd] in *. split; [by rewrite Hf|].
  intros k. rewrite Hs. destruct (decide (k = id)) as [->|].
  - rewrite (bool_decide_true (id ∈ id :: ids)) by left. case_bool_decide; [done|]. apply lookup_delete_eq.
  - rewrite lookup_delete_ne by done. repeat case_bool_decide; try done; set_solver.
Qed.
Lemma claim_results_exact groups : ∀ (tools : gmap string (list MessageRecord)), turn_groups groups →
  NoDup (concat (map (λ g : Group, call_ids g.1) groups)) →
  (∀ g r id, g ∈ groups → r ∈ g.2 → r.(m_tool_call_id) = Some id → tools !! id = Some [r]) →
  claim_results (map fst groups) tools = map snd groups.
Proof.
  induction groups as [|g groups IH]; intros tools Hg Hnd Hone; [done|]. cbn [map claim_results].
  destruct (Hg g ltac:(left)) as (_ & _ & Hids). simpl in Hnd. apply NoDup_app in Hnd as (Hnd1 & Hdis & Hnd2).
  destruct (take_groups_exact (call_ids g.1) g.2 tools Hids Hnd1) as [Hf Hs]; [intros r id; apply Hone; left|].
  destruct (take_groups _ _) as [rs ts]. cbn [fst snd] in *. rewrite Hf. f_equal.
  apply IH; [intros g' ?; apply Hg; by right|done|]. intros g' r id Hg' Hr Hid.
  rewrite Hs, bool_decide_false; [eapply Hone; [by right|done..]|]. intros Hin. apply (Hdis id Hin).
  apply list_elem_of_In, in_concat. exists (call_ids g'.1). split; [by apply (in_map (λ g : Group, call_ids g.1)), list_elem_of_In|].
  destruct (Hg g' ltac:(by right)) as (_ & _ & Hids'). apply list_elem_of_In.
  assert (Some id ∈ map Some (call_ids g'.1)) as Hsome by (rewrite <-Hids', <-Hid; by apply list_elem_of_fmap_2).
  apply list_elem_of_fmap in Hsome as (x & [= ->] & ?). done.
Qed.

Lemma add_tools_other l : ∀ (tools : gmap string (list MessageRecord)) id,
  (∀ r, r ∈ l → r.(m_tool_call_id) ≠ Some id) → foldl add_tool tools l !! id = tools !! id.
Proof.
  induction l as [|r l IH]; intros tools id Hno; [done|]. cbn [foldl]. rewrite IH by (intros ??; apply Hno; by right).
  unfold add_tool. destruct (m_tool_call_id r) as [call|] eqn:E; [|done]. apply lookup_insert_ne.
  intros ->. by apply (Hno r ltac:(left)).
Qed.
Lemma add_tools_single l : ∀ (tools : gmap string (list MessageRecord)) r id,
  NoDup (omap m_tool_call_id l) → r ∈ l → r.(m_tool_call_id) = Some id → tools !! id = None →
  foldl add_tool tools l !! id = Some [r].
Proof.
  induction l as [|r0 l IH]; intros tools r id Hnd Hr Hid Hnone; [by apply elem_of_nil in Hr|]. cbn [foldl].
  cbn [omap list_omap] in Hnd.
  apply elem_of_cons in Hr as [<-|Hr].
  - rewrite Hid in Hnd. apply NoDup_cons in Hnd as [Hnew _]. rewrite add_tools_other.
    + unfold add_tool. rewrite Hid, Hnone. by rewrite lookup_insert_eq.
    + intros r' Hr' E. apply Hnew, list_elem_of_omap. by exists r'.
  - unfold add_tool at 2. destruct (m_tool_call_id r0) as [call|] eqn:E; [|by apply IH].
    apply NoDup_cons in Hnd as [Hnew Hnd]. apply IH; [done..|].
    rewrite lookup_insert_ne; [done|]. intros ->. apply Hnew, list_elem_of_omap. by exists r.
Qed.

Lemma emit_groups groups : ∀ G : gmap string (list MessageRecord), NoDup (map (λ g : Group, g.1.(m_id)) groups) →
  (∀ g, g ∈ groups → G !! g.1.(m_id) = Some g.2) → emit (map fst groups) G = flat_groups groups.
Proof.
  induction groups as [|g groups IH]; intros G Hnd HG; [done|]. cbn [map emit]. rewrite (HG g ltac:(left)).
  simpl in Hnd. apply NoDup_cons in Hnd as [Hnew Hnd]. rewrite IH; [done|done|]. intros g' Hg'.
  rewrite lookup_delete_ne; [apply HG; by right|]. intros E. apply Hnew. rewrite E.
  by apply (list_elem_of_fmap_2 (λ g : Group, g.1.(m_id))).
Qed.
Lemma group_ids_sublist groups : map (λ g : Group, g.1.(m_id)) groups `sublist_of` map m_id (flat_groups groups).
Proof.
  induction groups as [|g groups IH]; [constructor|]. unfold flat_groups. cbn [map concat]. rewrite map_app. cbn [map].
  apply sublist_skip. by apply sublist_inserts_l.
Qed.
(** Of the groups, the calls stay and the results are handed out. *)
Lemma filter_calls groups (handed : list string) : turn_groups groups →
  (∀ g, g ∈ groups → g.1.(m_id) ∉ handed ∧ ∀ r, r ∈ g.2 → r.(m_id) ∈ handed) →
  filter_by (λ m, prefix m && negb (mem_str m.(m_id) handed)) (flat_groups groups) = map fst groups.
Proof.
  induction groups as [|g groups IH]; intros Hg Hh; [done|]. unfold flat_groups. cbn [map concat].
  destruct (Hg g ltac:(left)) as (Ha & Hr & _). destruct (Hh g ltac:(left)) as [Hout Hin].
  rewrite filter_by_app, filter_by_cons. unfold prefix at 1. rewrite Ha, orb_true_r.
  unfold mem_str at 1. rewrite (bool_decide_false _ Hout). cbn [andb negb]. rewrite <-app_comm_cons. f_equal.
  assert (∀ l, (∀ r, r ∈ l → r.(m_id) ∈ handed) → filter_by (λ m, prefix m && negb (mem_str m.(m_id) handed)) l = []) as Hnil.
  { induction l as [|r l IHl]; intros Hl; [done|]. rewrite filter_by_cons. unfold mem_str at 1.
    rewrite bool_decide_true by (apply Hl; left). rewrite andb_false_r. apply IHl. intros ??. apply Hl. by right. }
  rewrite (Hnil _ Hin). apply IH; intros ??; [apply Hg|apply Hh]; by right.
Qed.
Lemma filter_internal groups : turn_groups groups → filter_by internal_assistant (flat_groups groups) = map fst groups.
Proof.
  induction groups as [|g groups IH]; intros Hg; [done|]. unfold flat_groups. cbn [map concat].
  destruct (Hg g ltac:(left)) as (Ha & Hr & _). rewrite filter_by_app, filter_by_cons, Ha.
  assert (∀ l, (∀ r, r ∈ l → r.(m_role) = "tool") → filter_by internal_assistant l = []) as Hnil.
  { induction l as [|r l IHl]; intros Hl; [done|]. rewrite filter_by_cons. unfold internal_assistant at 1.
    rewrite (Hl r ltac:(left)). apply IHl. intros ??. apply Hl. by right. }
  rewrite (Hnil _ Hr). cbn [app]. f_equal. apply IH. intros ??. apply Hg. by right.
Qed.
Lemma results_of_groups groups : turn_groups groups →
  filter_by (λ m, String.eqb m.(m_role) "tool") (flat_groups groups) = concat (map snd groups).
Proof.
  induction groups as [|g groups IH]; intros Hg; [done|]. unfold flat_groups. cbn [map concat].
  destruct (Hg g ltac:(left)) as (Ha & Hr & _). rewrite filter_by_app, filter_by_cons.
  unfold internal_assistant in Ha. apply andb_true_iff in Ha as [Ha%String.eqb_eq _]. rewrite Ha. cbn [String.eqb Ascii.eqb].
  f_equal; [|apply IH; intros ??; apply Hg; by right].
  simpl. generalize dependent (g.2). induction l as [|r l IHl]; intros Hr; [done|].
  rewrite filter_by_cons, (Hr r ltac:(left)). cbn. f_equal. apply IHl. intros ??. apply Hr. by right.
Qed.

(** A run that was stored turn by turn keeps its order; the message its turn
    fills comes last. *)
Lemma order_turns anchor groups : turn_groups groups →
  NoDup (map m_id (anchor :: flat_groups groups)) → NoDup (concat (map (λ g : Group, call_ids g.1) groups)) →
  existsb (meta_true "canonicalProviderTurn") (anchor :: flat_groups groups) = false → anchor.(m_role) = "assistant" →
  meta_true "internal" anchor = false →
  order_run (anchor :: flat_groups groups) = flat_groups groups ++ [anchor].
Proof.
  intros Hg Hids Hcalls Hcanon Hrole Hvisible.
  assert (prefix anchor = false) as Hp by (unfold prefix, internal_assistant; by rewrite Hrole, Hvisible).
  assert (internal_assistant anchor = false) as Hi by (unfold internal_assistant; by rewrite Hvisible, andb_false_r).
  assert (filter_by internal_assistant (anchor :: flat_groups groups) = map fst groups) as Hassistants
    by (rewrite filter_by_cons, Hi; by apply filter_internal).
  assert (claim_results (map fst groups) (tool_groups (anchor :: flat_groups groups)) = map snd groups) as Hclaims.
  { apply claim_results_exact; [done..|]. intros g r id Hgin Hr Hid. unfold tool_groups.
    rewrite filter_by_cons, Hrole. cbn [String.eqb Ascii.eqb]. simpl. rewrite results_of_groups by done.
    apply add_tools_single; [| |done|apply lookup_empty].
    - assert (omap m_tool_call_id (concat (map snd groups)) = concat (map (λ g : Group, call_ids g.1) groups)) as ->; [|done].
      clear -Hg. induction groups as [|g groups IH]; [done|]. cbn [map concat]. rewrite omap_app, IH by (intros ??; apply Hg; by right).
      f_equal. destruct (Hg g ltac:(left)) as (_ & _ & E). by apply omap_map_Some in E.
    - apply list_elem_of_In, in_concat. exists g.2. split; [apply in_map; by apply list_elem_of_In|by apply list_elem_of_In]. }
  destruct (order_run_emit (anchor :: flat_groups groups) Hids Hcanon) as (G & -> & HG & _).
  rewrite Hassistants, Hclaims in HG.
  assert (∀ g, g ∈ groups → G !! g.1.(m_id) = Some g.2) as HGg.
  { clear -HG. induction groups as [|g groups IH]; intros g' Hg'; [by apply elem_of_nil in Hg'|].
    simpl in HG. injection HG as Hhead HG. apply elem_of_cons in Hg' as [->|]; [done|by apply IH]. }
  assert (handed_out (anchor :: flat_groups groups) = concat (map snd groups)) as Hhanded
    by (unfold handed_out; by rewrite Hassistants, Hclaims).
  simpl in Hids. apply NoDup_cons in Hids as [_ Hids].
  assert (∀ g r, g ∈ groups → g.1 ∈ flat_groups groups ∧ (r ∈ g.2 → r ∈ flat_groups groups)) as Hin
    by (intros g r ?; split; [|intros]; apply elem_of_flat; exists g; auto).
  assert (kept (anchor :: flat_groups groups) = map fst groups) as ->.
  { unfold kept. rewrite Hhanded, filter_by_cons, Hp. apply filter_calls; [done|]. intros g Hgin. split.
    - intros (r & E & Hr)%list_elem_of_fmap. apply list_elem_of_In, in_concat in Hr as (l & (g' & <- & Hg')%in_map_iff & Hr).
      apply list_elem_of_In in Hg', Hr. destruct (Hin g r Hgin) as [Hg1 _]. destruct (Hin g' r Hg') as [_ Hg2].
      pose proof (same_message_id _ _ _ Hids Hg1 (Hg2 Hr) E) as Er. destruct (Hg g Hgin) as (Ha & _).
      unfold internal_assistant in Ha. apply andb_true_iff in Ha as [Ha%String.eqb_eq _].
      destruct (Hg g' Hg') as (_ & Htool & _). specialize (Htool r Hr). rewrite <-Er in Htool. congruence.
    - intros r Hr. apply list_elem_of_fmap_2, list_elem_of_In, in_concat. exists g.2.
      split; [apply in_map; by apply list_elem_of_In|by apply list_elem_of_In]. }
  rewrite emit_groups; [|by eapply sublist_NoDup, group_ids_sublist|done].
  f_equal. rewrite filter_by_cons, Hp. cbn [negb]. f_equal.
  assert (∀ r, r ∈ flat_groups groups → prefix r = true) as Hall.
  { intros r (g & Hgin & [->|Hr])%elem_of_flat; destruct (Hg g Hgin) as (Ha & Ht & _); [by apply internal_prefix|].
    unfold prefix. by rewrite (Ht r Hr). }
  clear -Hall. induction (flat_groups groups) as [|r l IH]; [done|]. rewrite filter_by_cons, (Hall r ltac:(left)).
  apply IH. intros ??. apply Hall. by right.
Qed.

(** ** The order of a chat that ends in a run *)

Lemma run_slots_snoc l r : run_slots (l ++ [r])
  = match slot_run r with Some run => slot_push run (length l) (run_slots l) | None => run_slots l end.
Proof. unfold run_slots. rewrite imap_app, foldl_app. cbn. by rewrite Nat.add_0_r. Qed.
Lemma slot_push_elem run p slots own ps : (own, ps) ∈ slot_push run p slots →
  own = run ∧ (ps = [p] ∨ ∃ ps0, (run, ps0) ∈ slots ∧ ps = ps0 ++ [p]) ∨ (own, ps) ∈ slots.
Proof.
  induction slots as [|[r0 ps0] slots IH]; cbn [slot_push]; [intros [= -> ->]%list_elem_of_singleton; by left; auto|].
  destruct (String.eqb_spec r0 run) as [->|Hne]; [|destruct (String.ltb run r0)].
  - intros [[= -> ->]|H]%elem_of_cons; [|right; by right]. left. split; [done|]. right. exists ps0. split; [left|done].
  - intros [[= -> ->]|H]%elem_of_cons; [left; by auto|by right].
  - intros [[= -> ->]|H]%elem_of_cons; [right; left|]. destruct (IH H) as [[-> [->|(q & Hq & ->)]]|H']; [left; by auto| |right; by right].
    left. split; [done|]. right. exists q. split; [by right|done].
Qed.
(** The slots of a chat are those of its runs, inside it. *)
Lemma run_slots_inside l : ∀ run ps, (run, ps) ∈ run_slots l →
  (∃ r, r ∈ l ∧ slot_run r = Some run) ∧ Forall (λ p, p < length l)%nat ps.
Proof.
  induction l as [|r l IH] using rev_ind; intros run ps H; [by apply elem_of_nil in H|]. rewrite run_slots_snoc in H.
  assert (∀ run ps, (run, ps) ∈ run_slots l → (∃ r', r' ∈ l ++ [r] ∧ slot_run r' = Some run) ∧ Forall (λ p, p < length (l ++ [r]))%nat ps) as IH'.
  { intros run' ps' [(r' & ? & ?) Hp]%IH. split; [exists r'; split; [apply elem_of_app; by left|done]|].
    eapply Forall_impl; [exact Hp|]. intros q Hq. simpl in *. rewrite length_app. simpl. lia. }
  destruct (slot_run r) as [own|] eqn:E; [|by apply IH']. apply slot_push_elem in H as [[-> Hps]|H]; [|by apply IH'].
  split; [exists r; split; [apply elem_of_app; right; left|done]|]. rewrite length_app. simpl.
  destruct Hps as [->|(ps0 & H0 & ->)]; [repeat constructor; lia|]. apply Forall_app. split; [|repeat constructor; lia].
  destruct (IH' _ _ H0) as [_ Hp]. rewrite length_app in Hp. exact Hp.
Qed.

(** A run that is not among the slots gets one of its own. *)
Definition before_run (run : string) (s : string * list nat) : Prop := s.1 ≠ run ∧ String.ltb run s.1 = false.
Lemma slot_push_new run p slots : (∀ ps, (run, ps) ∉ slots) → ∃ s1 s2,
  slots = s1 ++ s2 ∧ slot_push run p slots = s1 ++ (run, [p]) :: s2 ∧ Forall (before_run run) s1.
Proof.
  induction slots as [|[r ps] slots IH]; intros Hnew; [by exists [], []|]. cbn [slot_push].
  destruct (String.eqb_spec r run) as [->|Hne]; [by destruct (Hnew ps); left|].
  destruct (String.ltb run r) eqn:El; [by exists [], ((r, ps) :: slots)|].
  destruct IH as (s1 & s2 & -> & -> & Hs); [intros ps' ?; by apply (Hnew ps'); right|].
  exists ((r, ps) :: s1), s2. split_and!; [done..|]. by constructor.
Qed.
Lemma slot_push_own run p s1 ps s2 : Forall (before_run run) s1 →
  slot_push run p (s1 ++ (run, ps) :: s2) = s1 ++ (run, ps ++ [p]) :: s2.
Proof.
  induction 1 as [|[r ps'] s1 [Hne Hl] _ IH]; cbn [app slot_push]; [by rewrite String.eqb_refl|].
  simpl in *. apply String.eqb_neq in Hne. by rewrite Hne, Hl, IH.
Qed.
Lemma run_slots_tail before l run : (∀ r, r ∈ before → slot_run r ≠ Some run) → (∀ r, r ∈ l → slot_run r = Some run) → l ≠ [] →
  ∃ s1 s2, run_slots before = s1 ++ s2 ∧ run_slots (before ++ l) = s1 ++ (run, seq (length before) (length l)) :: s2
    ∧ Forall (before_run run) s1.
Proof.
  intros Hb. induction l as [|r l IH] using rev_ind; intros Hl Hne; [done|].
  rewrite app_assoc, run_slots_snoc, (Hl r) by (apply elem_of_app; right; left).
  destruct l as [|r0 l].
  - rewrite app_nil_r. apply slot_push_new. intros ps [(r' & Hr' & E) _]%run_slots_inside. by apply (Hb r').
  - destruct IH as (s1 & s2 & E & -> & Hs); [intros ??; apply Hl, elem_of_app; by left|done|].
    exists s1, s2. split_and!; [done| |done]. rewrite slot_push_own by done.
    by rewrite (length_app (r0 :: l)), Nat.add_1_r, seq_S, length_app.
Qed.
Lemma write_slots_tail before : ∀ new old, length old = length new →
  write_slots (seq (length before) (length new)) new (before ++ old) = before ++ new.
Proof.
  intros new. revert before. induction new as [|r new IH]; intros before [|r' old] Hl; try done.
  cbn [length seq write_slots]. rewrite insert_app_r_alt, Nat.sub_diag by done. cbn [insert list_insert].
  specialize (IH (before ++ [r]) old ltac:(simpl in Hl; lia)). rewrite length_app, Nat.add_1_r, <-!app_assoc in IH. exact IH.
Qed.
Lemma lookup_tail {A} (before l : list A) : omap (λ p, (before ++ l) !! p) (seq (length before) (length l)) = l.
Proof.
  revert before. induction l as [|x l IH]; intros before; [done|]. cbn [length seq omap list_omap].
  rewrite list_lookup_middle by done. f_equal. specialize (IH (before ++ [x])).
  by rewrite length_app, Nat.add_1_r, <-app_assoc in IH.
Qed.
Lemma write_slots_front ps : ∀ rs l tail, Forall (λ p, p < length l)%nat ps → write_slots ps rs (l ++ tail) = write_slots ps rs l ++ tail.
Proof.
  induction ps as [|p ps IH]; intros [|r rs] l tail Hp; [done..|]. apply Forall_cons in Hp as [Hp Hps]. cbn [write_slots].
  rewrite insert_app_l by done. rewrite IH; [done|]. by rewrite length_insert.
Qed.
Lemma lookup_front {A} (l tail : list A) ps : Forall (λ p, p < length l)%nat ps → omap (λ p, (l ++ tail) !! p) ps = omap (λ p, l !! p) ps.
Proof. induction 1 as [|p ps Hp _ IH]; [done|]. cbn [omap list_omap]. by rewrite lookup_app_l, IH. Qed.

Lemma order_perm records : NoDup (map m_id records) → order_messages_for_provider records ≡ₚ records.
Proof. intros Hids. apply (provider_order_slots records Hids). Qed.

(** One slot written back. *)
Definition write_slot (records ordered : list MessageRecord) (s : string * list nat) : list MessageRecord :=
  write_slots s.2 (order_run (omap (λ p, records !! p) s.2)) ordered.
Lemma reorder_slots records : reorder records = foldl (write_slot records) records (run_slots records).
Proof.
  unfold reorder. generalize (run_slots records). intros slots. set (start := records) at 2 4. clearbody start.
  revert start. induction slots as [|[run ps] slots IH]; intros ordered; [done|]. cbn [foldl]. by rewrite IH.
Qed.
Lemma write_slots_before before l slots : Forall (λ s : string * list nat, Forall (λ p, p < length before)%nat s.2) slots → ∀ ordered tail,
  length ordered = length before →
  foldl (write_slot (before ++ l)) (ordered ++ tail) slots = foldl (write_slot before) ordered slots ++ tail.
Proof.
  induction 1 as [|s slots Hs _ IH]; intros ordered tail Hl; [done|]. cbn [foldl]. unfold write_slot at 2 4.
  rewrite lookup_front by done. rewrite write_slots_front by (by rewrite Hl). apply IH. by rewrite write_slots_length.
Qed.
Lemma write_slot_length records slots : ∀ ordered, length (foldl (write_slot records) ordered slots) = length ordered.
Proof. induction slots as [|s slots IH]; intros ordered; [done|]. cbn [foldl]. rewrite IH. apply write_slots_length. Qed.

(** A run at the end of a chat is ordered by itself, the chat before it too. *)
Lemma reorder_tail before l run : NoDup (map m_id l) →
  (∀ r, r ∈ before → slot_run r ≠ Some run) → (∀ r, r ∈ l → slot_run r = Some run) → l ≠ [] →
  reorder (before ++ l) = reorder before ++ order_run l.
Proof.
  intros Hids Hb Hl Hne. destruct (run_slots_tail before l run Hb Hl Hne) as (s1 & s2 & E & E' & _).
  assert (Forall (λ s : string * list nat, Forall (λ p, p < length before)%nat s.2) (run_slots before)) as Hin.
  { apply Forall_forall. intros [r ps] [_ ?]%run_slots_inside. done. }
  rewrite !reorder_slots, E, E', !foldl_app. rewrite E in Hin. apply Forall_app in Hin as [H1 H2].
  rewrite (write_slots_before before l s1) by done. cbn [foldl].
  set (o1 := foldl (write_slot before) before s1). assert (length o1 = length before) as Ho1 by apply write_slot_length.
  unfold write_slot at 2. cbn [snd]. rewrite lookup_tail.
  assert (length (order_run l) = length l) as Hlen by (by rewrite order_run_Perm).
  rewrite <-Ho1, <-Hlen, write_slots_tail by done. by rewrite write_slots_before.
Qed.
Lemma order_chat before anchor groups run :
  let records := before ++ anchor :: flat_groups groups in
  StronglySorted (λ a b, (a.(m_order_key) <=? b.(m_order_key)) = true) records → NoDup (map m_id records) →
  (∀ r, r ∈ before → slot_run r ≠ Some run) → (∀ r, r ∈ anchor :: flat_groups groups → slot_run r = Some run) →
  turn_groups groups → NoDup (concat (map (λ g : Group, call_ids g.1) groups)) →
  existsb (meta_true "canonicalProviderTurn") (anchor :: flat_groups groups) = false → anchor.(m_role) = "assistant" →
  meta_true "internal" anchor = false →
  order_messages_for_provider records = order_messages_for_provider before ++ flat_groups groups ++ [anchor].
Proof.
  intros records Hsort Hids Hbefore Hrun Hg Hcalls Hcanon Hrole Hvis. unfold order_messages_for_provider.
  assert (NoDup (map m_id (anchor :: flat_groups groups))) as Hids'
    by (unfold records in Hids; rewrite map_app in Hids; by apply NoDup_app in Hids as (_ & _ & ?)).
  rewrite (sort_by_id _ records) by done. rewrite (sort_by_id _ before) by (unfold records in Hsort; by eapply StronglySorted_app_1_l).
  unfold records. rewrite (reorder_tail _ _ run) by done. by rewrite order_turns.
Qed.

(** ** From messages to records and back *)

(** The record a projected message is appended as, or filled into. *)
Definition stored_as (input : MessageInput) r : Prop :=
  input.(mi_id) = Some r.(m_id) ∧ input.(mi_run_id) = r.(m_run_id) ∧ input.(mi_role) = r.(m_role)
  ∧ input.(mi_content) = r.(m_content) ∧ input.(mi_tool_call_id) = r.(m_tool_call_id)
  ∧ input.(mi_tool_calls) = r.(m_tool_calls) ∧ input.(mi_metadata) = r.(m_metadata).
Lemma new_message_stored_as ms input id chat_id parent_id parent created_at : input.(mi_id) = Some id →
  stored_as input (Conversations.new_message ms input id chat_id parent_id parent created_at).
Proof. done. Qed.

Record kept_as (run : string) (m : ChatMessage) r : Prop := {
  ka_shown : shown r = m;
  ka_ids : call_ids r = map tc_id m.(cm_tool_calls);
  ka_run : r.(m_run_id) = Some run;
  ka_internal : meta_true "internal" r = true;
  ka_eligible : meta_true "placeholder" r = false ∧ meta_true "canonicalProviderDisplay" r = false
    ∧ meta_true "canonicalProviderTurn" r = false ∧ vget r.(m_metadata) "correctionPass" = None
}.
(** A message of a run on its way: a call or a result. *)
Definition in_progress (m : ChatMessage) : Prop :=
  m.(cm_metadata) = None
  ∧ (m.(cm_role) = "assistant" ∧ m.(cm_tool_calls) ≠ [] ∨ m.(cm_role) = "tool" ∧ m.(cm_tool_calls) = []).

Lemma parse_calls_written calls : RunLoop.parse_calls (VArr (map RunLoop.call_value calls)) = calls.
Proof.
  unfold RunLoop.parse_calls. assert (mapM RunLoop.parse_call (map RunLoop.call_value calls) = Some calls) as ->; [|done].
  induction calls as [|call calls IH]; [done|]. cbn [map mapM]. rewrite IH. by destruct call.
Qed.
Lemma call_ids_written r calls : r.(m_tool_calls) = Some (VArr (map RunLoop.call_value calls)) → call_ids r = map tc_id calls.
Proof.
  unfold call_ids. intros ->. induction calls as [|call calls IH]; [done|]. cbn [map omap list_omap]. by rewrite IH.
Qed.
Lemma project_kept sink id m r input : sink.(dv_canonical) = false → in_progress m →
  persist_message sink id m = [input] → stored_as input r → kept_as sink.(dv_task_id) m r.
Proof.
  intros Hc [Hm Hrole] Hp (Hid & Hrun & Hr & Hcontent & Hcall & Hcalls & Hmeta).
  unfold persist_message in Hp. rewrite Hc, !andb_true_r, andb_false_r in Hp.
  assert (String.eqb (cm_role m) "assistant" && bool_decide (cm_tool_calls m = []) = false) as Hf.
  { destruct Hrole as [ [-> Hn]|[-> _] ]; [|done]. by rewrite bool_decide_false. }
  rewrite Hf in Hp. cbn [negb app] in Hp. injection Hp as <-. cbn in *.
  assert (m_metadata r = match cm_name m with
    | Some name => VObj [("internal", VBool true); ("toolName", VStr name)] | None => VObj [("internal", VBool true)] end) as Em.
  { rewrite <-Hmeta. by destruct (cm_name m). }
  assert (calls_of r = cm_tool_calls m ∧ call_ids r = map tc_id (cm_tool_calls m)) as [Ecalls Eids].
  { destruct (cm_tool_calls m) as [|call calls] eqn:E.
    - unfold calls_of, call_ids. by rewrite <-Hcalls.
    - split; [|by apply (call_ids_written r (call :: calls))]. unfold calls_of. rewrite <-Hcalls. apply (parse_calls_written (call :: calls)). }
  constructor; [|exact Eids|done| |].
  - unfold shown. rewrite <-Hr, <-Hcontent, <-Hcall, Ecalls, Em. destruct m as [role content name call calls meta]. cbn in *.
    by subst meta; destruct name.
  - unfold meta_true. rewrite Em. by destruct (cm_name m).
  - unfold meta_true. rewrite Em. by destruct (cm_name m).
Qed.

(** The groups of the records are those of the messages. *)
Lemma kept_groups run turns : ∀ rs, Forall2 (kept_as run) (flat_groups turns) rs →
  ∃ groups, rs = flat_groups groups
    ∧ Forall2 (λ (t : ChatMessage * list ChatMessage) (g : Group), kept_as run t.1 g.1 ∧ Forall2 (kept_as run) t.2 g.2) turns groups.
Proof.
  induction turns as [|t turns IH]; intros rs H; [apply Forall2_nil_inv_l in H as ->; by exists []|].
  unfold flat_groups in H. cbn [map concat] in H.
  apply Forall2_app_inv_l in H as (l & rest & Hl & Hrest & ->).
  apply Forall2_cons_inv_l in Hl as (a & results & Ha & Hresults & ->).
  destruct (IH rest Hrest) as (groups & -> & Hg). exists ((a, results) :: groups). split; [done|by constructor].
Qed.
Lemma kept_turn run t g : answered_turn t → kept_as run t.1 g.1 → Forall2 (kept_as run) t.2 g.2 →
  internal_assistant g.1 = true ∧ (∀ r, r ∈ g.2 → r.(m_role) = "tool") ∧ map m_tool_call_id g.2 = map Some (call_ids g.1).
Proof.
  intros (Hrole & Hres & Hids) [Es Ec _ Hi _] Hk. split_and!.
  - unfold internal_assistant. rewrite Hi, <-Es in *. cbn in *. by rewrite Hrole.
  - clear Hids. induction Hk as [|m r ms rs [Es' _ _ _ _] _ IH]; intros r' Hr'; [by apply elem_of_nil in Hr'|].
    apply Forall_cons in Hres as [Hm Hres]. apply elem_of_cons in Hr' as [->|]; [|by apply IH]. by rewrite <-Es' in Hm.
  - rewrite Ec, map_map, <-Hids. clear -Hk. induction Hk as [|m r ms rs [Es' _ _ _ _] _ IH]; [done|].
    cbn [map]. rewrite IH. f_equal. by rewrite <-Es'.
Qed.
Lemma kept_turns run turns groups : Forall answered_turn turns →
  Forall2 (λ (t : ChatMessage * list ChatMessage) (g : Group), kept_as run t.1 g.1 ∧ Forall2 (kept_as run) t.2 g.2) turns groups →
  turn_groups groups
  ∧ concat (map (λ g : Group, call_ids g.1) groups) = concat (map (λ t : ChatMessage * list ChatMessage, map tc_id t.1.(cm_tool_calls)) turns).
Proof.
  intros Ht Hf. induction Hf as [|t g turns groups [Ha Hr] Hf IH]; [split; [by intros g ?%elem_of_nil|done]|].
  apply Forall_cons in Ht as [Ht Hturns]. destruct (IH Hturns) as [Hg Hc]. split.
  - intros g' [->|?]%elem_of_cons; [by eapply kept_turn|by apply Hg].
  - cbn [map concat]. rewrite Hc. f_equal. apply Ha.
Qed.

(** ** The theorem *)

Definition shown_entry r : ChatMessage * option string := (shown r, Some r.(m_id)).
Lemma eligible_app l l' anchor run policy :
  eligible_records (l ++ l') anchor run policy = eligible_records l anchor run policy ++ eligible_records l' anchor run policy.
Proof. apply filter_by_app. Qed.
Lemma eligible_from l anchor run policy r : r ∈ eligible_records l anchor run policy → r ∈ l.
Proof. by intros [_ ?]%elem_of_filter_by. Qed.

Lemma eligible_kept m r anchor run policy l : in_progress m → kept_as run m r → r.(m_id) ≠ anchor →
  eligible_records (r :: l) anchor run policy = r :: eligible_records l anchor run policy.
Proof.
  intros Hm [Es _ Hrun Hi (Hp & Hd & _ & Hcor)] Hid. unfold eligible_records. rewrite filter_by_cons.
  unfold owned_by. rewrite Hrun, bool_decide_true by done. rewrite Hi, Hp, Hd, Hcor. apply String.eqb_neq in Hid. rewrite Hid.
  assert (String.eqb (m_role r) "system" = false) as ->.
  { apply String.eqb_neq. destruct Hm as [_ Hrole]. rewrite <-Es in Hrole. cbn in Hrole. destruct Hrole as [ [-> _]|[-> _] ]; done. }
  by rewrite !orb_true_r.
Qed.
Lemma reconcile_from_answered {host : Host} {digests : Digests} {text_digest : TextDigest} {results : ResultJson} {lower : LowerExp}
    stringify parse_json limits_of receipts messages : ∀ answered,
  (∀ (message : ChatMessage * option string * option string) c, message ∈ messages → c ∈ message.1.1.(cm_tool_calls) →
    (message.1.2, c.(tc_id)) ∈ answered) →
  reconcile_from stringify parse_json limits_of receipts messages answered = map (λ m : ChatMessage * option string * option string, (m.1.1, m.2)) messages.
Proof.
  induction messages as [|[ [m o] id] messages IH]; intros answered H; [done|]. cbn [reconcile_from map fst snd].
  assert (∀ calls, (∀ c, c ∈ calls → (o, c.(tc_id)) ∈ answered) →
    answer_calls stringify parse_json limits_of receipts o id calls answered = ([], answered)) as Hcalls.
  { induction calls as [|c calls IHc]; intros Hc; [done|]. cbn [answer_calls]. rewrite bool_decide_true by (apply Hc; left).
    apply IHc. intros ??. apply Hc. by right. }
  rewrite Hcalls by (intros c Hc; by apply (H (m, o, id) c ltac:(left))). cbn [app]. f_equal.
  apply IH. intros message c Hm. apply H. by right.
Qed.

Lemma persist_kept sink ms : sink.(dv_canonical) = false → Forall in_progress ms → ∀ ids rs,
  Forall2 stored_as (persist_messages sink ids ms) rs → Forall2 (kept_as sink.(dv_task_id)) ms rs.
Proof.
  intros Hc. induction ms as [|m ms IH]; intros Hms ids rs H; [by apply Forall2_nil_inv_l in H as ->|].
  apply Forall_cons in Hms as [Hm Hms]. unfold persist_messages in H. rewrite imap_cons in H. cbn [concat] in H.
  assert (∃ input, persist_message sink (ids 0%nat) m = [input]) as [input E].
  { unfold persist_message. rewrite Hc, andb_false_r. by eexists. }
  rewrite E in H. apply Forall2_cons_inv_l in H as (r & rest & Hr & Hrest & ->). constructor; [by eapply project_kept|].
  by apply (IH Hms (λ i, ids (S i))).
Qed.
Lemma calls_of_turns turns : Forall in_progress (flat_groups turns) → Forall answered_turn turns →
  concat (map (λ m, map tc_id m.(cm_tool_calls)) (flat_groups turns))
  = concat (map (λ t : ChatMessage * list ChatMessage, map tc_id t.1.(cm_tool_calls)) turns).
Proof.
  induction turns as [|t turns IH]; intros Hp Ht; [done|]. unfold flat_groups in *. cbn [map concat] in *.
  apply Forall_app in Hp as [Hhead Hp]. apply Forall_cons in Hhead as [_ Hresults].
  apply Forall_cons in Ht as [ (_ & Htool & _) Ht]. rewrite <-(IH Hp Ht), map_app, concat_app. cbn [map concat]. rewrite <-app_assoc. f_equal.
  assert (∀ l, Forall in_progress l → Forall is_result l → concat (map (λ m, map tc_id m.(cm_tool_calls)) l) = []) as Hnil; [|by rewrite Hnil].
  induction l as [|m l IHl]; intros Hl1 Hl2; [done|]. apply Forall_cons in Hl1 as [ [_ Hm] Hl1]. apply Forall_cons in Hl2 as [Hr Hl2].
  cbn [map concat]. rewrite IHl by done. destruct Hm as [ [Ha _]|[_ ->] ]; [|done]. unfold is_result in Hr. congruence.
Qed.

Lemma eligible_run anchor ms rs run policy : Forall in_progress ms → Forall2 (kept_as run) ms rs →
  (∀ r, r ∈ rs → r.(m_id) ≠ anchor.(m_id)) → eligible_records (rs ++ [anchor]) anchor.(m_id) run policy = rs.
Proof.
  intros Hms Hk. induction Hk as [|m r ms rs Hr Hk IH]; intros Hids.
  - cbn [app]. unfold eligible_records. rewrite filter_by_cons, String.eqb_refl. by rewrite andb_false_r.
  - apply Forall_cons in Hms as [Hm Hms]. cbn [app]. rewrite (eligible_kept m) by (try done; apply Hids; left).
    f_equal. apply IH; [done|]. intros r' Hr'. apply Hids. by right.
Qed.

(** ** What a run does not touch *)

(** Of other runs. *)
Definition of_others (run : string) (key : Key) : Prop := key.1 ≠ Some run.
Definition agree (run : string) (l l' : list Key) : Prop := ∀ key, of_others run key → key ∈ l ↔ key ∈ l'.
Lemma declared_app l l' : declared_calls (l ++ l') = declared_calls l ++ declared_calls l'.
Proof. unfold declared_calls. by rewrite filter_by_app, map_app, concat_app. Qed.
Lemma visible_others run r l l' : agree run l l' → r.(m_run_id) ≠ Some run → visible_message r l = visible_message r l'.
Proof.
  intros Hl Hr. unfold visible_message. assert (is_none_or (answered_key r) (λ key, negb (bool_decide (key ∈ l)))
    = is_none_or (answered_key r) (λ key, negb (bool_decide (key ∈ l')))) as ->; [|done].
  unfold answered_key. destruct (m_tool_call_id r) as [id|]; [|done]. cbn. f_equal. apply bool_decide_ext. by apply Hl.
Qed.

Section replay.
Context {host : Host} {digests : Digests} {text_digest : TextDigest} {results : ResultJson} {lower : LowerExp}.
Context (stringify : Value → string) (parse_json : string → option Value) (limits_of : Value → ToolLimits).

Notation answer_calls := (answer_calls stringify parse_json limits_of).
Notation reconcile_from := (reconcile_from stringify parse_json limits_of).
Notation reconcile := (reconcile stringify parse_json limits_of).

Lemma answer_calls_others run receipts owner id calls : owner ≠ Some run → ∀ l l', agree run l l' →
  (answer_calls receipts owner id calls l).1 = (answer_calls receipts owner id calls l').1
  ∧ agree run (answer_calls receipts owner id calls l).2 (answer_calls receipts owner id calls l').2.
Proof.
  intros Ho. induction calls as [|c calls IH]; intros l l' Hl; [done|]. cbn [ChatHistory.answer_calls].
  assert (bool_decide ((owner, tc_id c) ∈ l) = bool_decide ((owner, tc_id c) ∈ l')) as -> by by apply bool_decide_ext, Hl.
  case_bool_decide; [by apply IH|]. destruct (IH ((owner, tc_id c) :: l) ((owner, tc_id c) :: l')) as [E1 E2].
  { intros key Hkey. rewrite !elem_of_cons. by rewrite (Hl key Hkey). }
  destruct (answer_calls receipts owner id calls _), (answer_calls receipts owner id calls _). cbn in *. by rewrite E1.
Qed.
(** The answers made for others, and then those for the rest. *)
Lemma reconcile_from_others run receipts messages rest : (∀ m, m ∈ messages → (m : ChatMessage * option string * option string).1.2 ≠ Some run) →
  ∀ l l', agree run l l' → ∃ l2, (∀ key, key ∈ l → key ∈ l2)
    ∧ reconcile_from receipts (messages ++ rest) l = reconcile_from receipts messages l' ++ reconcile_from receipts rest l2.
Proof.
  induction messages as [|[ [m o] id] messages IH]; intros Hm l l' Hl; [by exists l|].
  destruct (answer_calls_others run receipts o id m.(cm_tool_calls) (Hm (m, o, id) ltac:(left)) l l' Hl) as [E1 E2].
  destruct (answer_calls_spec stringify parse_json limits_of receipts o id m.(cm_tool_calls) l) as (cs & _ & _ & Hset & _).
  cbn [app ChatHistory.reconcile_from]. destruct (answer_calls receipts o id _ l) as [made l1], (answer_calls receipts o id _ l') as [made' l1'].
  cbn [fst snd] in *. subst made'. destruct (IH (λ m Hin, Hm m (list_elem_of_further _ _ _ Hin)) l1 l1' E2) as (l2 & Hl2 & ->).
  exists l2. split; [intros key Hkey; by apply Hl2, Hset; left|]. by rewrite <-app_comm_cons, <-app_assoc.
Qed.

(** The entries of an answered run: all of it is shown and nothing is made up. *)
Lemma answered_run groups window : turn_groups groups → (∀ g, g ∈ groups → call_ids g.1 = map tc_id (calls_of g.1)) →
  (∀ g r, g ∈ groups → r ∈ g.2 → calls_of r = [] ∧ r.(m_run_id) = g.1.(m_run_id)) →
  (∀ r, r ∈ flat_groups groups → r ∈ window) →
  omap (λ r, visible_message r (declared_calls window)) (flat_groups groups) = map owned_message (flat_groups groups)
  ∧ ∀ r c, r ∈ flat_groups groups → c ∈ calls_of r → (r.(m_run_id), c.(tc_id)) ∈ omap result_key (flat_groups groups).
Proof.
  intros Hg Hcalls Hresults Hwindow.
  assert (∀ g r, g ∈ groups → r ∈ g.2 → ∃ c, c ∈ calls_of g.1 ∧ answered_key r = Some (call_key g.1 c)) as Hanswer.
  { intros g r Hgin Hr. destruct (Hg g Hgin) as (_ & _ & Hids). destruct (Hresults g r Hgin Hr) as [_ Hrun].
    assert (r.(m_tool_call_id) ∈ map Some (call_ids g.1)) as Hin by (rewrite <-Hids; by apply list_elem_of_fmap_2).
    apply list_elem_of_fmap in Hin as (id & Eid & Hin). rewrite (Hcalls g Hgin) in Hin.
    apply list_elem_of_fmap in Hin as (c & -> & Hc). exists c. split; [done|]. unfold answered_key. rewrite Eid. cbn. by rewrite Hrun. }
  split.
  - rewrite visible_window. f_equal. assert (∀ r, r ∈ flat_groups groups → is_some (visible_message r (declared_calls window)) = true) as Hvisible.
    { intros r Hr. unfold visible_message. apply elem_of_flat in Hr as (g & Hgin & [->|Hr]); destruct (Hg g Hgin) as (Ha & _);
        unfold internal_assistant in Ha; apply andb_true_iff in Ha as [Ha%String.eqb_eq _]; [by rewrite Ha|].
      destruct (Hanswer g r Hgin Hr) as (c & Hc & ->). cbn. rewrite bool_decide_true; [by rewrite andb_false_r|].
      apply elem_of_declared. exists g.1. split_and!; [|done|by apply list_elem_of_fmap_2]. apply Hwindow, elem_of_flat. exists g. auto. }
    clear -Hvisible. induction (flat_groups groups) as [|r l IH]; [done|]. rewrite filter_by_cons, (Hvisible r ltac:(left)). f_equal.
    apply IH. intros ??. apply Hvisible. by right.
  - intros r c Hr Hc. apply elem_of_flat in Hr as (g & Hgin & [->|Hr]).
    + destruct (Hg g Hgin) as (_ & Htool & Hids).
      assert (Some c.(tc_id) ∈ map m_tool_call_id g.2) as Hin.
      { rewrite Hids. apply list_elem_of_fmap_2. rewrite (Hcalls g Hgin). by apply list_elem_of_fmap_2. }
      apply list_elem_of_fmap in Hin as (r & Er & Hr). apply list_elem_of_omap. exists r. split; [apply elem_of_flat; exists g; auto|].
      unfold result_key, answered_key. rewrite (Htool r Hr), <-Er. cbn. by destruct (Hresults g r Hgin Hr) as [_ ->].
    + destruct (Hresults g r Hgin Hr) as [En _]. rewrite En in Hc. by apply elem_of_nil in Hc.
Qed.

(** An answered run at the end of a window leaves the rest as it is. *)
Lemma assemble_tail run before groups prompt receipts : (∀ r, r ∈ before → r.(m_run_id) ≠ Some run) →
  (∀ r, r ∈ flat_groups groups → r.(m_run_id) = Some run) →
  turn_groups groups → (∀ g, g ∈ groups → call_ids g.1 = map tc_id (calls_of g.1)) →
  (∀ g r, g ∈ groups → r ∈ g.2 → calls_of r = [] ∧ r.(m_run_id) = g.1.(m_run_id)) →
  let window := before ++ flat_groups groups in
  reconcile (match prompt with
     | Some prompt => if String.eqb prompt "" then [] else [(text_message "system" prompt, None, None)]
     | None => [] end ++ omap (λ record, visible_message record (declared_calls window)) window) receipts
  = prompt_entries prompt ++ reconcile (omap (λ record, visible_message record (declared_calls before)) before) receipts
      ++ map shown_entry (flat_groups groups).
Proof.
  intros Hb Hrun Hg Hcalls Hresults window.
  destruct (answered_run groups window Hg Hcalls Hresults) as [Hshown Hall]; [intros ??; apply elem_of_app; by right|].
  assert (omap (λ r, visible_message r (declared_calls window)) before = omap (λ r, visible_message r (declared_calls before)) before) as Evis.
  { assert (agree run (declared_calls window) (declared_calls before)) as Hag.
    { intros key Hkey. unfold window. rewrite declared_app, elem_of_app. split; [|auto]. intros [?|Hin]; [done|].
      apply elem_of_declared in Hin as (r & Hr & _ & (c & -> & _)%list_elem_of_fmap). by destruct Hkey; apply Hrun. }
    clearbody window. clear -Hb Hag. generalize dependent (declared_calls before). intros decl Hag.
    induction before as [|r l IH]; [done|]. cbn [omap list_omap]. rewrite (visible_others run r _ decl) by (done || apply Hb; left).
    by rewrite IH by (intros ??; apply Hb; by right). }
  rewrite visible_window, reconcile_prompt, <-visible_window. f_equal. unfold window at 2. rewrite omap_app, Evis, Hshown.
  rewrite visible_window. set (kept := filter_by _ before). unfold ChatHistory.reconcile. rewrite omap_app, !omap_answered.
  assert (∀ r, r ∈ kept → r.(m_run_id) ≠ Some run) as Hkept by (intros r [_ Hr]%elem_of_filter_by; by apply Hb).
  destruct (reconcile_from_others run receipts (map owned_message kept) (map owned_message (flat_groups groups)))
    with (l := omap result_key kept ++ omap result_key (flat_groups groups)) (l' := omap result_key kept) as (l2 & Hl2 & ->).
  { intros m (r & -> & Hr)%list_elem_of_fmap. by apply Hkept. }
  { intros key Hkey. rewrite elem_of_app. split; [|auto]. intros [?|(r & Hr & E)%list_elem_of_omap]; [done|].
    unfold result_key, answered_key in E. destruct (String.eqb _ _); [|done]. destruct (m_tool_call_id r); [|done]. injection E as <-.
    by destruct Hkey; apply Hrun. }
  f_equal. rewrite reconcile_from_answered; [by rewrite map_map|].
  intros message c (r & -> & Hr)%list_elem_of_fmap Hc. apply Hl2, elem_of_app. right. by apply Hall.
Qed.

End replay.

(** ** Where it does not *)

Definition ex_stored_record (id role : string) (call : option string) (calls : option Value) (metadata : Value) (key : Z) : MessageRecord :=
  mkMessage id "chat" (Some "t1") role (VStr id) None call calls None metadata key key 0 true false (Text "1970-01-01T00:00:00.000Z").
Definition ex_placeholder : MessageRecord := ex_stored_record "anchor" "assistant" None None (VObj [("placeholder", VBool true)]) 1.
Definition ex_internal : Value := VObj [("internal", VBool true)].
Definition ex_question : MessageRecord :=
  mkMessage "q" "chat" None "user" (VStr "q") None None None None (VObj []) 0 0 0 true false (Text "1970-01-01T00:00:00.000Z").
Definition ex_read (id : string) : ToolCall := mkToolCall id "read" "{}".
Definition ex_read_value (ids : list string) : option Value := Some (VArr (map (λ id, RunLoop.call_value (ex_read id)) ids)).

(** A user steered the run between its two calls.  The placeholder of the turn
    leaves its slot to the first call, every later record of the run moves up
    by one, and the steering message, which keeps its place, ends up between
    the second call and its result. *)
Definition ex_steered : list MessageRecord :=
  [ex_question; ex_placeholder; ex_stored_record "a1" "assistant" None (ex_read_value ["c1"]) ex_internal 2;
   ex_stored_record "r1" "tool" (Some "c1") None ex_internal 3;
   ex_stored_record "steer" "user" None None (VObj [("steering", VBool true)]) 4;
   ex_stored_record "a2" "assistant" None (ex_read_value ["c2"]) ex_internal 5; ex_stored_record "r2" "tool" (Some "c2") None ex_internal 6].
Lemma steering_splits_call :
  let host := example_host in let digests := ex_json_digest in let text_digest := ex_text_digest in
  let results := ex_stored in let lower := ex_exponent in
  ∃ out, assemble_with_ids (λ _, "done") (λ _, Some VNull) (λ _, mkToolLimits "read" 1000 None) ex_steered 100 "anchor" None [] "t1" Transcript
    = Some out
  ∧ map snd out = [Some "q"; Some "a1"; Some "r1"; Some "a2"; Some "steer"; Some "r2"] ∧ owed [] (map fst out) = None.
Proof. eexists. split; [vm_compute; reflexivity|]. split; vm_compute; reflexivity. Qed.

(** A provider that sends no ids has its calls named [call_0], [call_1], ... in
    every answer.  The results of all calls of one name go to the first. *)
Definition ex_reused : list MessageRecord :=
  [ex_question; ex_placeholder; ex_stored_record "a1" "assistant" None (ex_read_value ["call_0"]) ex_internal 2;
   ex_stored_record "r1" "tool" (Some "call_0") None ex_internal 3;
   ex_stored_record "a2" "assistant" None (ex_read_value ["call_0"]) ex_internal 4;
   ex_stored_record "r2" "tool" (Some "call_0") None ex_internal 5].
Lemma reused_id_misorders :
  map m_id (order_messages_for_provider ex_reused) = ["q"; "a1"; "r1"; "r2"; "a2"; "anchor"].
Proof. vm_compute. reflexivity. Qed.
(** And the second of two equal mutating calls of that name never runs: it is
    taken for a replay of the first, and answered with its result. *)
Lemma reused_id_replays {digests : Digests} {text_digest : TextDigest} {results : ResultJson} {lower : LowerExp}
    durable context contribution tool effect_context input receipts id last value stored :
  needs_receipt durable tool = true → context.(cx_tool_call_id) = Some id →
  rfind (λ receipt, String.eqb receipt.(er_tool_call_id) id) receipts = Some last → last.(er_status) = ReceiptCompleted →
  this_operation tool input last = true →
  last.(er_context_sha256) = execution_context_sha256 durable contribution tool effect_context →
  last.(er_result) = Some value → from_value value = Some stored →
  ∃ answer, before_guards durable context contribution tool effect_context input = PAsk (QListExecutions durable.(de_task_id)) answer
    ∧ answer (Ok receipts) = PRet (Ok (Replay stored)).
Proof.
  intros Hn Hid Hlast Hstatus Hop Hctx Hres Hval. unfold before_guards. rewrite Hn, Hid. cbn [negb]. eexists. split; [reflexivity|].
  cbn. rewrite Hlast. cbn. rewrite bool_decide_true by done. unfold replayed.
  by rewrite Hop, Hctx, String.eqb_refl, Hres, Hval.
Qed.

Definition ex_sink : DurableEvents := mkDurableEvents "chat" "t1" "anchor" false (VObj []).
Definition ex_run : list ChatMessage :=
  [assistant_message "" [ex_read "c1"; ex_read "c2"]; tool_message (ex_read "c1") "one"; tool_message (ex_read "c2") "two";
   assistant_message "more" [ex_read "c3"]; tool_message (ex_read "c3") "three"].
Definition ex_run_records : list MessageRecord :=
  imap (λ i input, mkMessage (default "" input.(mi_id)) "chat" input.(mi_run_id) input.(mi_role) input.(mi_content) None
      input.(mi_tool_call_id) input.(mi_tool_calls) input.(mi_model_result_json) input.(mi_metadata) (Z.of_nat i + 2) 0 0 true false
      (Text "1970-01-01T00:00:00.000Z"))
    (persist_messages ex_sink example_uuid ex_run).
(** A chat with an earlier run, whose one call, named like one of the new
    run's, was never answered. *)
Definition ex_earlier_record (id : string) (calls : option Value) (metadata : Value) : MessageRecord :=
  mkMessage id "chat" (Some "t0") "assistant" (VStr id) None None calls None metadata 0 0 0 true false (Text "1970-01-01T00:00:00.000Z").
Definition ex_earlier : list MessageRecord :=
  [ex_question; ex_earlier_record "a0" (ex_read_value ["c1"]) ex_internal; ex_earlier_record "done" None (VObj [])].
