(* ===== verification/ProposalLaws.v ===== *)
(** * Proposals refine the approval machine

    The tables of [proposals.rs], read as one status and operation id per
    proposal and one receipt per operation, move only as the abstract
    machine of [machine] does. *)

From stdpp Require Export gmap.
From S2P Require Export Walk.
From S2P Require Import TaskOps Proposals.
Local Open Scope Z_scope.

Implicit Types (p q : ProposalRecord) (outcome : ApplyOutcome) (row : ReceiptRow).

(** ** The abstract machine *)

Definition phase : Type := ProposalStatus * option string.
Record approval := mkApproval {
  phases : gmap string phase;
  outcomes : gmap string ReceiptRecord
}.
Implicit Types (m : gmap string phase) (o : gmap string ReceiptRecord).

Definition terminal_stamp (s : ProposalStatus) (r : option ReceiptRecord) : Prop :=
  match r with
  | Some r => s = stamp_of r.(rc_outcome)
  | None => s = PApplied ∨ s = PFailed
  end.

(** What can befall a proposal or an operation. *)
Inductive act :=
  | Asked (id : string)
  | Decided (id : string) (s : ProposalStatus)
  | Claimed (id op : string)
  | Settled (id op : string) (s : ProposalStatus)
  | Recorded (op : string).

(** A proposal is asked, decided once, claimed once under an operation id no
    other holds, and settled once, as its receipt says if there is one; an
    operation has one receipt. *)
Inductive advance_by : act → approval → approval → Prop :=
  | ask m o id : m !! id = None →
      advance_by (Asked id) (mkApproval m o) (mkApproval (<[id := (PPending, None)]> m) o)
  | decide_once m o id s : m !! id = Some (PPending, None) →
      s = PApproved ∨ s = PRejected ∨ s = PInvalidated →
      advance_by (Decided id s) (mkApproval m o) (mkApproval (<[id := (s, None)]> m) o)
  | claim_once m o id op : m !! id = Some (PApproved, None) → op ≠ "" →
      (∀ id' s, m !! id' ≠ Some (s, Some op)) →
      advance_by (Claimed id op) (mkApproval m o) (mkApproval (<[id := (PApplying, Some op)]> m) o)
  | settle_once m o id op s : m !! id = Some (PApplying, Some op) →
      terminal_stamp s (o !! op) →
      advance_by (Settled id op s) (mkApproval m o) (mkApproval (<[id := (s, Some op)]> m) o)
  | record_once m o op r : o !! op = None →
      advance_by (Recorded op) (mkApproval m o) (mkApproval m (<[op := r]> o)).
Definition advance (x y : approval) : Prop := ∃ a, advance_by a x y.
(** A step of one of the kinds [A]. *)
Definition does (A : act → Prop) (x y : approval) : Prop := ∃ a, A a ∧ advance_by a x y.

(** The deletion of a chat withdraws a proposal with its receipt, and does
    nothing else. *)
Inductive withdrawal : approval → approval → Prop :=
  | withdraw m o id :
      withdrawal (mkApproval m o) (mkApproval (delete id m) o)
  | withdraw_receipt m o id s op : m !! id = Some (s, Some op) →
      withdrawal (mkApproval m o) (mkApproval (delete id m) (delete op o)).
Inductive machine : approval → approval → Prop :=
  | advanced x y : advance x y → machine x y
  | withdrawn x y : withdrawal x y → machine x y.

(** The status a row is given says what befell it. *)
Definition row_act (id : string) (to : ProposalStatus) (a : act) : Prop :=
  match a with
  | Decided id' s => id' = id ∧ s = to
  | Claimed id' _ => id' = id ∧ to = PApplying
  | Settled id' _ s => id' = id ∧ s = to
  | Asked _ | Recorded _ => False
  end.
Definition completion_act (id op : string) (a : act) : Prop :=
  a = Recorded op ∨ ∃ s, a = Settled id op s.

(** What an operation may do: a deletion only withdraws, an operation of the
    proposals takes the steps its name says, of the proposal and the operation
    id it is given, and any other leaves them alone. *)
Definition keeps_proposals (op : Op) : bool :=
  match op with OpDeleteProposalsByChat _ | OpDeleteChat _ => false | _ => true end.
Definition permits (op : Op) (a : act) : Prop :=
  match op with
  | OpCreateProposal p => a = Asked p.(pr_id)
  | OpTransitionProposal id _ to _ _ => row_act id to a
  | OpCompleteProposal id operation _ _ => completion_act id operation a
  | OpFinalizeApply input => completion_act input.(fa_proposal_id) input.(fa_operation_id) a
  | OpRecordOutcome operation _ _ => a = Recorded operation
  | OpInvalidatePending _ _ => ∃ id, a = Decided id PInvalidated
  | _ => False
  end.
Definition permitted (op : Op) : approval → approval → Prop :=
  if keeps_proposals op then rtc (does (permits op)) else rtc withdrawal.

(** A withdrawal leaves the rest as it was. *)
Lemma withdrawal_subseteq x y : rtc withdrawal x y → phases y ⊆ phases x ∧ outcomes y ⊆ outcomes x.
Proof.
  induction 1 as [x|x y z Hxy _ [IH1 IH2] ]; [done|].
  assert (phases y ⊆ phases x ∧ outcomes y ⊆ outcomes x) as [? ?]; [|split; by etrans].
  destruct Hxy; simpl; split; try done; apply delete_subseteq.
Qed.

(** *** What the machine keeps *)

Definition edge_of (s s' : ProposalStatus) : Prop := allowed s s' = true.

(** A status moves along the legal edges and an operation id stays. *)
Definition phase_after (h h' : phase) : Prop :=
  rtc edge_of h.1 h'.1 ∧ (h.2 = None ∨ h'.2 = h.2).
#[local] Instance phase_after_preorder : PreOrder phase_after.
Proof.
  split; [intros h; split; [done|by right] |]. intros h1 h2 h3 [H1 E1] [H2 E2].
  split; [by etrans|]. destruct E1 as [?|E1]; [by left|]. rewrite <-E1. destruct E2; [left|right]; congruence.
Qed.

Lemma insert_after m id h h' id' k :
  m !! id = Some h → phase_after h h' → m !! id' = Some k →
  ∃ k', <[id := h']> m !! id' = Some k' ∧ phase_after k k'.
Proof.
  intros Hid Hh Hk. destruct (decide (id = id')) as [<-|Hne].
  - exists h'. rewrite lookup_insert_eq. split; [done|]. congruence.
  - exists k. by rewrite lookup_insert_ne.
Qed.

Lemma advance_phase x y id k :
  rtc advance x y → phases x !! id = Some k → ∃ k', phases y !! id = Some k' ∧ phase_after k k'.
Proof.
  intros H. revert k. induction H as [x|x y z Hxy _ IH]; intros k Hk; [by exists k|].
  assert (∃ k1, phases y !! id = Some k1 ∧ phase_after k k1) as (k1 & Hk1 & Ha).
  { destruct Hxy as [a Ha]; destruct Ha as [m o id' Hn|m o id' s Hid Hs|m o id' op Hid _ _|m o id' op s Hid Hs|]; simpl in *.
    - exists k. rewrite lookup_insert_ne by congruence. done.
    - eapply insert_after; [done| |done]. split; [|by left]. apply rtc_once.
      by destruct Hs as [ ->|[ ->| ->] ].
    - eapply insert_after; [done| |done]. split; [by apply rtc_once|by left].
    - eapply insert_after; [done| |done]. split; [|by right]. apply rtc_once. simpl.
      destruct (o !! op) as [r|]; simpl in Hs; [rewrite Hs; unfold stamp_of; by destruct String.eqb|].
      by destruct Hs as [ ->| ->].
    - by exists k. }
  destruct (IH k1 Hk1) as (k' & ? & ?). exists k'. split; [done|]. by trans k1.
Qed.

Lemma advance_outcome x y op r : rtc advance x y → outcomes x !! op = Some r → outcomes y !! op = Some r.
Proof.
  induction 1 as [x|x y z Hxy _ IH]; [done|]. intros Hr. apply IH.
  destruct Hxy as [a Ha]; destruct Ha as [| | | |m o op' r' Hn]; simpl in *; try done.
  rewrite lookup_insert_ne; congruence.
Qed.

(** ** The store as a state of the machine *)

Definition phase_of p : phase := (p.(pr_status), p.(pr_operation_id)).

Section laws.
Context {host : Host}.

Definition abs (d : Db) : approval := mkApproval
  (list_to_map (map (λ p, (p.(pr_id), phase_of p)) d.(db_proposals)))
  (list_to_map (map (λ r, (rr_operation r, r.(rr_record))) d.(db_receipts))).

Lemma rows_lookup {A B} `{!Table A} (f : A → B) (l : list A) key :
  (list_to_map (map (λ r, (row_key r, f r)) l) : gmap string B) !! key = f <$> find_row key l.
Proof.
  unfold find_row. induction l as [|r l IH]; simpl; [by rewrite lookup_empty|].
  destruct (String.eqb_spec (row_key r) key) as [->|Hne].
  - by rewrite lookup_insert_eq.
  - by rewrite lookup_insert_ne.
Qed.

Lemma phases_lookup d id : phases (abs d) !! id = phase_of <$> find_row id d.(db_proposals).
Proof. exact (rows_lookup phase_of d.(db_proposals) id). Qed.
Lemma outcomes_lookup d op : outcomes (abs d) !! op = rr_record <$> find_row op d.(db_receipts).
Proof. exact (rows_lookup rr_record d.(db_receipts) op). Qed.

Lemma abs_eq d m o :
  (∀ id, phase_of <$> find_row id d.(db_proposals) = m !! id) →
  (∀ op, rr_record <$> find_row op d.(db_receipts) = o !! op) → abs d = mkApproval m o.
Proof.
  intros Hm Ho. unfold abs. f_equal; apply map_eq; intros k.
  - by rewrite <-Hm, <-phases_lookup.
  - by rewrite <-Ho, <-outcomes_lookup.
Qed.

Lemma machine_abs (R : approval → approval → Prop) x d m o :
  (∀ id, phase_of <$> find_row id d.(db_proposals) = m !! id) →
  (∀ op, rr_record <$> find_row op d.(db_receipts) = o !! op) →
  R x (mkApproval m o) → R x (abs d).
Proof. intros Hm Ho. by rewrite (abs_eq d m o Hm Ho). Qed.

(** What a stored row keeps of the record it was written from. *)
Definition held p := (p.(pr_id), p.(pr_chat_id), p.(pr_scope_key), p.(pr_action_id),
  p.(pr_status), p.(pr_operation_id)).
Lemma json_held b p j : json_proposal b p = Ok j → held j = held p.
Proof. unfold json_proposal. intros H. inv_res. reflexivity. Qed.

Lemma json_row_held b row j : json_receipt_row b row = Ok j →
  rr_operation j = rr_operation row ∧ j.(rr_proposal) = row.(rr_proposal)
  ∧ stamp_of (rc_outcome (rr_record j)) = stamp_of (rc_outcome (rr_record row))
  ∧ rc_proposal_id (rr_record j) = rc_proposal_id (rr_record row).
Proof.
  unfold json_receipt_row. intros H. inv_res. unfold json_receipt in *. inv_res. done.
Qed.

(** ** The invariant *)

Definition unclaimed (s : ProposalStatus) : bool :=
  match s with PPending | PApproved | PRejected | PInvalidated => true | _ => false end.

Record proposals_ok (d : Db) : Prop := {
  po_ids : NoDup (map pr_id d.(db_proposals));
  po_phase p : p ∈ d.(db_proposals) →
    if unclaimed p.(pr_status) then p.(pr_operation_id) = None
    else ∃ op, p.(pr_operation_id) = Some op ∧ op ≠ "";
  po_clash p q : p ∈ d.(db_proposals) → q ∈ d.(db_proposals) → rows_clash p q = false;
  po_receipts : NoDup (map rr_operation d.(db_receipts));
  po_bound row id : row ∈ d.(db_receipts) → row.(rr_proposal) = Some id →
    ∃ p, p ∈ d.(db_proposals) ∧ p.(pr_id) = id
      ∧ p.(pr_operation_id) = Some (rr_operation row) ∧ rc_proposal_id (rr_record row) = id
}.

Lemma held_id p q : held p = held q → p.(pr_id) = q.(pr_id).
Proof. by injection 1. Qed.
Lemma held_phase p q : held p = held q → phase_of p = phase_of q.
Proof. unfold phase_of. injection 1. congruence. Qed.

Lemma rows_clash_sym p q : rows_clash p q = rows_clash q p.
Proof.
  unfold rows_clash, same_action, ostr_eqb. rewrite (String.eqb_sym (pr_id p)).
  rewrite (String.eqb_sym (pr_scope_key p)), (andb_comm (holds_action p)).
  rewrite (bool_decide_ext (pr_action_id p = pr_action_id q) (pr_action_id q = pr_action_id p)) by done.
  f_equal. f_equal. case_bool_decide as E.
  - by rewrite E, (bool_decide_true (pr_operation_id q = pr_operation_id q)).
  - rewrite (bool_decide_false (pr_operation_id q = pr_operation_id p)) by congruence.
    by rewrite !andb_false_r.
Qed.

Lemma rows_clash_held p q p' q' :
  held p = held p' → held q = held q' → rows_clash p q = rows_clash p' q'.
Proof.
  unfold held, rows_clash, holds_action, same_action. intros E E'. injection E as -> _ -> -> -> ->.
  by injection E' as -> _ -> -> -> ->.
Qed.

Lemma proposal_row d p :
  proposals_ok d → p ∈ d.(db_proposals) → find_row p.(pr_id) d.(db_proposals) = Some p.
Proof. intros Hok Hp. exact (find_row_elem (A := ProposalRecord) _ _ (po_ids _ Hok) Hp). Qed.

Lemma row_proposal d id p : find_row id d.(db_proposals) = Some p → p ∈ d.(db_proposals) ∧ p.(pr_id) = id.
Proof. intros H. exact (find_row_Some (A := ProposalRecord) _ _ _ H). Qed.

(** Distinct proposals hold distinct operations. *)
Lemma operation_owner d p q op :
  proposals_ok d → p ∈ d.(db_proposals) → q ∈ d.(db_proposals) →
  p.(pr_operation_id) = Some op → q.(pr_operation_id) = Some op → p = q.
Proof.
  intros Hok Hp Hq Ep Eq. destruct (decide (p.(pr_id) = q.(pr_id))) as [E|Hne].
  - apply (proposal_row d) in Hp, Hq; [|done..]. congruence.
  - pose proof (po_clash _ Hok p q Hp Hq) as C. unfold rows_clash in C.
    apply String.eqb_neq in Hne. rewrite Hne, Ep, Eq in C. unfold ostr_eqb in C.
    by rewrite bool_decide_true in C.
Qed.

(** ** The statements *)

(** The store moves as the machine [R] does, and its invariant is kept. *)
Definition moves (R : approval → approval → Prop) (d d' : Db) : Prop :=
  proposals_ok d → proposals_ok d' ∧ rtc R (abs d) (abs d').
#[export] Instance moves_preorder R : PreOrder (moves R).
Proof.
  split; [by intros d ?|]. intros d1 d2 d3 H1 H2 H. destruct (H1 H) as [K ?].
  destruct (H2 K). split; [done|by etrans].
Qed.
#[export] Instance same_moves R : Contains (same (λ d, (d.(db_proposals), d.(db_receipts)))) (moves R).
Proof.
  intros d d' E Hok. injection E as Ep Er. assert (abs d' = abs d) as -> by (unfold abs; congruence).
  split; [|done]. destruct Hok. split; rewrite ?Ep, ?Er; done.
Qed.

(** [save] as a change of the rows. *)
Lemma save_Ok p d u d' :
  Proposals.save p d = Ok (u, d') → is_Some (find_row p.(pr_id) d.(db_proposals)) →
  ∃ j, held j = held p ∧ (∀ q, q ∈ d.(db_proposals) → rows_clash p q = false)
    ∧ d' = d <| db_proposals := replace_row j d.(db_proposals) |>.
Proof.
  unfold Proposals.save, all. intros H [p0 Hp0]. inv_st.
  match goal with H : to_json _ _ = _ |- _ => apply to_json_Ok in H as [Hj ->] end. simpl in *.
  eexists. split; [by eapply json_held|]. split; [|done].
  match goal with H : negb _ = true |- _ => rename H into Hg end.
  apply row_proposal in Hp0 as [Hin Hid].
  assert (existsb (λ r, String.eqb r.(pr_id) p.(pr_id)) d.(db_proposals) = true) as Hex.
  { apply existsb_exists. exists p0. split; [by apply list_elem_of_In|]. by apply String.eqb_eq. }
  rewrite Hex in Hg. simpl in Hg. intros q Hq. destruct (rows_clash p q) eqn:E; [|done].
  assert (existsb (rows_clash p) d.(db_proposals) = true) as Hc; [|by rewrite Hc in Hg].
  apply existsb_exists. exists q. split; [by apply list_elem_of_In|done].
Qed.

(** A legal change of one row: its phase moves, and no other column. *)
Definition edge (d : Db) p0 p : Prop :=
  p.(pr_id) = p0.(pr_id) ∧ p.(pr_scope_key) = p0.(pr_scope_key) ∧ p.(pr_action_id) = p0.(pr_action_id)
  ∧ match p0.(pr_status), p0.(pr_operation_id) with
    | PPending, None => p.(pr_operation_id) = None
        ∧ (p.(pr_status) = PApproved ∨ p.(pr_status) = PRejected ∨ p.(pr_status) = PInvalidated)
    | PApproved, None => p.(pr_status) = PApplying ∧ ∃ op, p.(pr_operation_id) = Some op ∧ op ≠ ""
    | PApplying, Some op => p.(pr_operation_id) = Some op
        ∧ terminal_stamp p.(pr_status) (rr_record <$> find_row op d.(db_receipts))
    | _, _ => False
    end.

Lemma replaced_row j p q l :
  held j = held p → q ∈ replace_row (A := ProposalRecord) j l →
  held q = held p ∨ q ∈ l ∧ q.(pr_id) ≠ p.(pr_id).
Proof.
  intros E [ [-> _]|[Hq Hne] ]%elem_of_replace_row; [by left|]. right. split; [done|].
  simpl in Hne. by injection E as <- _.
Qed.

Lemma edge_phase d p0 p : edge d p0 p →
  if unclaimed p.(pr_status) then p.(pr_operation_id) = None
  else ∃ op, p.(pr_operation_id) = Some op ∧ (op ≠ "" ∨ p0.(pr_operation_id) = Some op).
Proof.
  intros (_ & _ & _ & H). destruct (pr_status p0), (pr_operation_id p0) as [op0|]; try done.
  - destruct H as [E [ ->|[ ->| ->] ] ]; exact E.
  - destruct H as (-> & op & E & ?). simpl. eauto.
  - destruct H as [E Ht]. assert (unclaimed (pr_status p) = false) as ->; [|by eauto].
    destruct (rr_record <$> find_row op0 d.(db_receipts)) as [r|]; simpl in Ht.
    + rewrite Ht. unfold stamp_of. by destruct String.eqb.
    + by destruct Ht as [ ->| ->].
Qed.
(** One row replaced along an edge. *)
Section replace.
Context (d : Db) (p0 p j : ProposalRecord).
Hypothesis (Hok : proposals_ok d) (Hf : find_row p.(pr_id) d.(db_proposals) = Some p0).
Hypothesis (He : edge d p0 p) (Hj : held j = held p).
Hypothesis Hc : ∀ q, q ∈ d.(db_proposals) → rows_clash p q = false.
Let d' := d <| db_proposals := replace_row j d.(db_proposals) |>.

Lemma replaced_id : j.(pr_id) = p.(pr_id).
Proof. by apply held_id. Qed.
Lemma replaced_phase : phase_of j = phase_of p.
Proof. by apply held_phase. Qed.

Lemma replaced_ok : proposals_ok d'.
Proof.
  pose proof replaced_id as Hjid. pose proof replaced_phase as Hjph.
  apply row_proposal in Hf as Hp0. destruct Hp0 as [Hp0 Hid0]. split; simpl.
  - pose proof (replace_row_keys (A := ProposalRecord) j d.(db_proposals)) as K. simpl in K.
    rewrite K. apply Hok.
  - intros q [E|[Hq _] ]%(replaced_row j p); [|by apply Hok|done].
    injection E as _ _ _ _ -> ->. pose proof (edge_phase _ _ _ He) as H.
    destruct (unclaimed (pr_status p)); [done|]. destruct H as (op & E & [Hne|E0]); [by eauto|].
    exists op. split; [done|]. pose proof (po_phase _ Hok p0 Hp0) as Hph.
    destruct (unclaimed (pr_status p0)); [congruence|]. destruct Hph as (? & ? & ?). congruence.
  - intros q1 q2 [E1|[H1 Hn1] ]%(replaced_row j p) [E2|[H2 Hn2] ]%(replaced_row j p); try done.
    + rewrite (rows_clash_held _ _ _ _ E1 E2). unfold rows_clash. by rewrite String.eqb_refl.
    + rewrite (rows_clash_held _ _ _ _ E1 eq_refl). by apply Hc.
    + rewrite rows_clash_sym, (rows_clash_held _ _ _ _ E2 eq_refl). by apply Hc.
    + by apply Hok.
  - apply Hok.
  - intros row id Hrow Hcol. destruct (po_bound _ Hok row id Hrow Hcol) as (q & Hq & Hqid & Hqop & ?).
    destruct (decide (q.(pr_id) = p.(pr_id))) as [E|Hne].
    + apply (proposal_row d) in Hq; [|done]. rewrite E, Hf in Hq. injection Hq as ->.
      exists j. assert (pr_operation_id p = pr_operation_id q) as Hop.
      { destruct He as (_ & _ & _ & He). rewrite Hqop in He |- *.
        by destruct (pr_status q); try done; destruct He. }
      split_and!; [|congruence| |done].
      * apply list_elem_of_fmap. exists q. simpl. rewrite Hjid, E, String.eqb_refl.
        split; [done|]. apply row_proposal in Hf as [? _]. done.
      * rewrite <-Hqop, <-Hop. by injection Hjph.
    + exists q. split_and!; try done. apply list_elem_of_fmap. exists q. simpl.
      rewrite Hjid. apply String.eqb_neq in Hne. by rewrite Hne.
Qed.

Lemma replaced_abs :
  abs d' = mkApproval (<[p.(pr_id) := phase_of p]> (phases (abs d))) (outcomes (abs d)).
Proof.
  apply abs_eq; intros k; [|by rewrite outcomes_lookup]. unfold d'.
  cbn [db_proposals upd upd_db_proposals].
  rewrite (find_row_replace (A := ProposalRecord)). cbn [row_key proposals_table].
  rewrite replaced_id. destruct (String.eqb_spec (pr_id p) k) as [<-|].
  - rewrite Hf, lookup_insert_eq. simpl. by rewrite replaced_phase.
  - by rewrite lookup_insert_ne, phases_lookup.
Qed.

(** What befell the row. *)
Definition row_label p0 p : act :=
  match p0.(pr_status) with
  | PPending => Decided p.(pr_id) p.(pr_status)
  | PApproved => Claimed p.(pr_id) (default ""%string p.(pr_operation_id))
  | _ => Settled p.(pr_id) (default ""%string p.(pr_operation_id)) p.(pr_status)
  end.
Lemma replaced_machine : advance_by (row_label p0 p) (abs d) (abs d').
Proof.
  rewrite replaced_abs.
  assert (phases (abs d) !! pr_id p = Some (phase_of p0)) as Hph by by rewrite phases_lookup, Hf.
  assert (∀ op, outcomes (abs d) !! op = rr_record <$> find_row op d.(db_receipts)) as Ho
    by apply outcomes_lookup.
  assert (∀ id s op, p0.(pr_operation_id) = None → p.(pr_operation_id) = Some op →
    phases (abs d) !! id ≠ Some (s, Some op)) as Hfresh.
  { intros id s op E0 Eop Hid. rewrite phases_lookup in Hid.
    destruct (find_row id _) as [q|] eqn:Eq; [|done]. apply row_proposal in Eq as [Hq _].
    injection Hid as _ Hqop. pose proof (Hc q Hq) as C. unfold rows_clash in C.
    assert (pr_id p ≠ pr_id q) as Hpq%String.eqb_neq.
    { intros E. apply (proposal_row d) in Hq; [|done]. rewrite <-E, Hf in Hq. congruence. }
    rewrite Hpq, Eop, Hqop in C. unfold ostr_eqb in C. by rewrite bool_decide_true in C. }
  destruct He as (_ & _ & _ & Hedge). unfold phase_of, row_label in *. destruct (abs d) as [m o].
  simpl in *. destruct (pr_status p0), (pr_operation_id p0) as [op0|]; try done.
  - destruct Hedge as [-> Hs]. by apply decide_once.
  - destruct Hedge as (-> & op & Eop & Hne). rewrite Eop. apply claim_once; [done..|]. eauto.
  - destruct Hedge as [-> Ht]. apply settle_once; [done|]. by rewrite Ho.
Qed.
End replace.

Lemma save_moves d p0 p u d' :
  proposals_ok d → find_row p.(pr_id) d.(db_proposals) = Some p0 → edge d p0 p →
  Proposals.save p d = Ok (u, d') → proposals_ok d' ∧ advance_by (row_label p0 p) (abs d) (abs d').
Proof.
  intros Hok Hf He Hs. apply save_Ok in Hs as (j & Hj & Hc & ->); [|by eauto].
  split; [by eapply replaced_ok|by eapply replaced_machine].
Qed.
(** *** Receipts *)

Lemma insert_receipt_Ok column r d u d' :
  insert_receipt column r d = Ok (u, d') →
  ∃ j, json_receipt_row d.(db_file) (mkReceiptRow column r) = Ok j
    ∧ find_row r.(rc_operation_id) d.(db_receipts) = None
    ∧ d' = d <| db_receipts := d.(db_receipts) ++ [j] |>.
Proof.
  unfold insert_receipt, all. intros H. inv_st.
  match goal with H : to_json _ _ = _ |- _ => apply to_json_Ok in H as [Hj ->] end. simpl in *.
  eexists. split; [exact Hj|]. split; [|done]. apply json_row_held in Hj as (Eop & _).
  match goal with H : negb (_ || _) = true |- _ => rename H into Hg end.
  apply negb_true_iff, orb_false_iff in Hg as [Hg _].
  apply (find_row_None (A := ReceiptRow)). intros row Hrow E.
  assert (existsb (λ r, String.eqb (rr_operation r) (rr_operation x)) d.(db_receipts) = true) as Hex;
    [|congruence].
  apply existsb_exists. exists row. split; [by apply list_elem_of_In|]. apply String.eqb_eq.
  rewrite Eop. exact E.
Qed.

Lemma insert_receipt_moves column r d u d' :
  proposals_ok d → insert_receipt column r d = Ok (u, d') →
  (∀ id, column = Some id → r.(rc_proposal_id) = id
    ∧ ∃ p, p ∈ d.(db_proposals) ∧ p.(pr_id) = id ∧ p.(pr_operation_id) = Some r.(rc_operation_id)) →
  proposals_ok d' ∧ advance_by (Recorded r.(rc_operation_id)) (abs d) (abs d') ∧ d'.(db_proposals) = d.(db_proposals)
  ∧ ∃ j, find_row r.(rc_operation_id) d'.(db_receipts) = Some j
      ∧ stamp_of (rc_outcome (rr_record j)) = stamp_of r.(rc_outcome).
Proof.
  intros Hok (j & Hj & Hf & ->)%insert_receipt_Ok Hcol.
  apply json_row_held in Hj as (Eop & Ecol & Est & Eid). simpl in *.
  change (rr_operation j = r.(rc_operation_id)) in Eop. split_and!; [split; simpl|..].
  - apply Hok.
  - apply Hok.
  - apply Hok.
  - pose proof (insert_row_NoDup (A := ReceiptRow) j d.(db_receipts)) as K. simpl in K.
    apply K; [apply Hok|]. by rewrite Eop.
  - intros row id [Hrow| ->%list_elem_of_singleton]%elem_of_app Hc; [by apply (po_bound _ Hok)|].
    rewrite Ecol in Hc. destruct (Hcol id Hc) as (Hid & p & Hp & Hpid & Hop). exists p.
    rewrite Eop, Eid. done.
  - apply (machine_abs _ _ _ (phases (abs d)) (<[r.(rc_operation_id) := rr_record j]> (outcomes (abs d)))).
    { by intros k; rewrite phases_lookup. }
    { intros k. cbn [db_receipts upd upd_db_receipts]. rewrite (find_row_app (A := ReceiptRow)). destruct (decide (r.(rc_operation_id) = k)) as [<-|Hne].
      - rewrite Hf, lookup_insert_eq. unfold find_row. simpl. by rewrite Eop, String.eqb_refl.
      - rewrite lookup_insert_ne, outcomes_lookup by done. unfold find_row at 2. simpl.
        rewrite Eop. simpl. apply String.eqb_neq in Hne. rewrite Hne.
        by destruct (find_row k _). }
    assert (outcomes (abs d) !! r.(rc_operation_id) = None) as Hn by by rewrite outcomes_lookup, Hf.
    destruct (abs d) as [m o]. by apply record_once.
  - done.
  - exists j. split; [|done]. cbn [db_receipts upd upd_db_receipts].
    rewrite (find_row_app (A := ReceiptRow)), Hf. unfold find_row. simpl. by rewrite Eop, String.eqb_refl.
Qed.

(** *** Deletion *)

(** The receipts that go with a proposal: the one of its operation. *)
Lemma cascade_rows id d :
  proposals_ok d →
  let rs := filter_by (λ r, negb (ostr_eqb r.(rr_proposal) (Some id))) d.(db_receipts) in
  rs = d.(db_receipts)
  ∨ ∃ p op, find_row id d.(db_proposals) = Some p ∧ p.(pr_operation_id) = Some op
      ∧ rs = remove_row op d.(db_receipts).
Proof.
  intros Hok rs.
  destruct (find_by (λ row, ostr_eqb row.(rr_proposal) (Some id)) d.(db_receipts)) as [row|] eqn:Ef.
  - right. apply find_by_Some in Ef as [Hrow Hcol]. apply bool_decide_eq_true in Hcol.
    destruct (po_bound _ Hok row id Hrow Hcol) as (p & Hp & Hid & Hop & _).
    exists p, (rr_operation row). split; [rewrite <-Hid; by apply proposal_row|]. split; [done|].
    apply filter_by_ext. intros r' Hr'. cbn [row_key receipts_table]. f_equal. unfold ostr_eqb.
    destruct (String.eqb_spec (rr_operation r') (rr_operation row)) as [E|Hne].
    + apply bool_decide_eq_true. assert (r' = row) as ->; [|done].
      pose proof (find_row_elem (A := ReceiptRow) _ _ (po_receipts _ Hok) Hr') as F.
      pose proof (find_row_elem (A := ReceiptRow) _ _ (po_receipts _ Hok) Hrow) as F'.
      simpl in F, F'. rewrite E in F. congruence.
    + apply bool_decide_eq_false. intros Hc.
      destruct (po_bound _ Hok r' id Hr' Hc) as (q & Hq & Hqid & Hqop & _).
      apply (proposal_row d) in Hp, Hq; [|done..]. congruence.
  - left. rewrite find_by_None in Ef. unfold rs.
    apply filter_by_id. intros r' Hr'. by rewrite (Ef r' Hr').
Qed.

Lemma delete_ok id d :
  proposals_ok d →
  proposals_ok (d <| db_proposals := remove_row id d.(db_proposals) |>
    <| db_receipts := filter_by (λ r, negb (ostr_eqb r.(rr_proposal) (Some id))) d.(db_receipts) |>).
Proof.
  intros Hok. split; simpl.
  - pose proof (remove_row_NoDup (A := ProposalRecord) id d.(db_proposals)) as K. simpl in K.
    apply K, Hok.
  - intros p [Hp _]%(elem_of_remove_row (A := ProposalRecord)). by apply Hok.
  - intros p q [Hp _]%(elem_of_remove_row (A := ProposalRecord))
      [Hq _]%(elem_of_remove_row (A := ProposalRecord)). by apply Hok.
  - apply NoDup_map_filter, Hok.
  - intros row id' [Hne Hrow]%elem_of_filter_by Hcol.
    destruct (po_bound _ Hok row id' Hrow Hcol) as (p & Hp & Hid & ?).
    exists p. split; [|done]. apply (elem_of_remove_row (A := ProposalRecord)). split; [done|].
    simpl. apply negb_true_iff, bool_decide_eq_false in Hne. congruence.
Qed.

Lemma delete_proposal_moves id : within (moves withdrawal) (delete_proposal id).
Proof.
  intros d u d' H Hok. unfold delete_proposal, delete_row in H. inv_st.
  split; [exact (delete_ok id d Hok)|]. cbn [tbl set_tbl proposals_table upd upd_db_proposals
    upd_db_receipts db_receipts db_proposals] in *.
  set (rs := filter_by _ d.(db_receipts)). apply rtc_once.
  assert (∀ k, phase_of <$> find_row k (remove_row id d.(db_proposals))
    = delete id (phases (abs d)) !! k) as Hph.
  { intros k. rewrite (find_row_remove (A := ProposalRecord)). destruct (String.eqb_spec id k) as [<-|].
    - by rewrite lookup_delete_eq.
    - by rewrite lookup_delete_ne, phases_lookup. }
  destruct (cascade_rows id d Hok) as [E|(p & op & Hp & Hop & E)].
  - apply (machine_abs _ _ _ (delete id (phases (abs d))) (outcomes (abs d))); [exact Hph|..].
    + intros k. rewrite outcomes_lookup. unfold rs. cbn [db_receipts]. by rewrite E.
    + destruct (abs d) as [m o]. apply withdraw.
  - apply (machine_abs _ _ _ (delete id (phases (abs d))) (delete op (outcomes (abs d)))); [exact Hph|..].
    + intros k. change (rr_record <$> find_row k rs = delete op (outcomes (abs d)) !! k).
      unfold rs. rewrite E, (find_row_remove (A := ReceiptRow)). cbn [row_key receipts_table].
      destruct (String.eqb_spec op k) as [<-|].
      * by rewrite lookup_delete_eq.
      * by rewrite lookup_delete_ne, outcomes_lookup.
    + assert (phases (abs d) !! id = Some (phase_of p)) as Hl by by rewrite phases_lookup, Hp.
      unfold phase_of in Hl. rewrite Hop in Hl. destruct (abs d) as [m o]. by eapply withdraw_receipt.
Qed.
(** ** The operations *)

Lemma clash_unclaimed p q :
  p.(pr_operation_id) = None →
  rows_clash q p = true → holds_action q && same_action q p = true ∧ is_Some p.(pr_action_id).
Proof.
  unfold rows_clash, ostr_eqb. intros -> [_ [ [Hs Ho]%andb_true_iff|H]%orb_true_iff ]%andb_true_iff.
  - apply bool_decide_eq_true in Ho. by rewrite Ho in Hs.
  - apply andb_true_iff in H as [ [Hq Hp]%andb_true_iff Hsame].
    rewrite Hq, Hsame. unfold holds_action in Hp. by destruct (pr_action_id p).
Qed.

Lemma create_clash p l q :
  (is_Some p.(pr_action_id) → find_by (λ r, holds_action r && same_action r p) l = None) →
  p.(pr_operation_id) = None → q ∈ l → rows_clash q p = false.
Proof.
  intros Hf Ho Hq. apply not_true_iff_false. intros [Hb Ha]%clash_unclaimed; [|done].
  specialize (Hf Ha). rewrite find_by_None in Hf. specialize (Hf q Hq). simpl in Hf. congruence.
Qed.

Lemma appended_row p j q l : held j = held p → q ∈ l ++ [j] → held q = held p ∨ q ∈ l.
Proof. intros E [?| ->%list_elem_of_singleton]%elem_of_app; auto. Qed.

(** A new row, pending. *)
Lemma appended_ok d p j :
  proposals_ok d → find_row p.(pr_id) d.(db_proposals) = None → held j = held p →
  p.(pr_status) = PPending → p.(pr_operation_id) = None →
  (∀ q, q ∈ d.(db_proposals) → rows_clash q p = false) →
  let d' := d <| db_proposals := d.(db_proposals) ++ [j] |> in
  proposals_ok d' ∧ advance_by (Asked p.(pr_id)) (abs d) (abs d').
Proof.
  intros Hok Hf Hj Hs Ho Hc d'.
  assert (pr_id j = pr_id p) as Hjid by by injection Hj.
  assert (phase_of j = (PPending, None)) as Hjph
    by (unfold phase_of; injection Hj as _ _ _ _ -> ->; congruence).
  split; [split; simpl|].
  - pose proof (insert_row_NoDup (A := ProposalRecord) j d.(db_proposals)) as K. simpl in K.
    apply K; [apply Hok|by rewrite Hjid].
  - intros q [E|Hq]%(appended_row p j); [|by apply Hok|done].
    injection E as _ _ _ _ -> ->. by rewrite Hs.
  - intros q1 q2 [E1|H1]%(appended_row p j) [E2|H2]%(appended_row p j); try done.
    + rewrite (rows_clash_held _ _ _ _ E1 E2). unfold rows_clash. by rewrite String.eqb_refl.
    + rewrite rows_clash_sym, (rows_clash_held _ _ _ _ eq_refl E1). by apply Hc.
    + rewrite (rows_clash_held _ _ _ _ eq_refl E2). by apply Hc.
    + by apply Hok.
  - apply Hok.
  - intros row id Hrow Hcol. destruct (po_bound _ Hok row id Hrow Hcol) as (q & Hq & ?).
    exists q. split; [|done]. apply elem_of_app. by left.
  - apply (machine_abs _ _ _ (<[p.(pr_id) := (PPending, None)]> (phases (abs d))) (outcomes (abs d))).
    + intros k. unfold d'. cbn [db_proposals upd upd_db_proposals].
      rewrite (find_row_app (A := ProposalRecord)).
      destruct (decide (pr_id p = k)) as [<-|Hne].
      * rewrite Hf, lookup_insert_eq. unfold find_row. simpl. by rewrite Hjid, String.eqb_refl, <-Hjph.
      * rewrite lookup_insert_ne, phases_lookup by done. unfold find_row at 2. simpl.
        rewrite Hjid. apply String.eqb_neq in Hne. rewrite Hne. by destruct (find_row k _).
    + intros k. by rewrite outcomes_lookup.
    + assert (phases (abs d) !! p.(pr_id) = None) as Hn by by rewrite phases_lookup, Hf.
      destruct (abs d) as [m o]. by apply ask.
Qed.

Lemma does_once (A : act → Prop) a x y : A a → advance_by a x y → rtc (does A) x y.
Proof. intros. apply rtc_once. by exists a. Qed.

Lemma create_moves p : within (moves (does (λ a, a = Asked p.(pr_id)))) (create_proposal p).
Proof.
  intros d r d' H Hok. unfold create_proposal, all in H. inv_st.
  match goal with H : insert_row _ _ = _ |- _ => apply insert_row_Ok in H as (j & Hj & Hf & ->) end.
  match goal with H : _ && _ = true |- _ => apply andb_true_iff in H as [Hs Ho] end.
  apply bool_decide_eq_true in Hs. destruct (pr_operation_id p) as [|] eqn:Eo; [done|].
  match goal with H : _ d = Ok (?u, ?d1) |- _ => destruct u; rename H into Hm;
    assert (d1 = d) as -> end.
  { repeat case_run Hm; by inv_st. }
  destruct (appended_ok d p j) as [? ?]; try done.
  - by apply (json_held d.(db_file)).
  - intros q Hq. apply (create_clash p d.(db_proposals)); [|done..]. intros [a Ha]. rewrite Ha in Hm.
    by destruct (find_by _ _).
  - split; [done|]. by eapply does_once.
Qed.

Lemma get_receipt_Ok op d r d' :
  get_receipt op d = Ok (r, d') ↔ r = rr_record <$> find_row op d.(db_receipts) ∧ d' = d.
Proof.
  unfold get_receipt, get. split; [intros H; by inv_st|intros [-> ->]; done].
Qed.

Lemma moved_fields to patch now p :
  (moved_proposal to patch now p).(pr_id) = p.(pr_id)
  ∧ (moved_proposal to patch now p).(pr_scope_key) = p.(pr_scope_key)
  ∧ (moved_proposal to patch now p).(pr_action_id) = p.(pr_action_id)
  ∧ (moved_proposal to patch now p).(pr_status) = to
  ∧ (moved_proposal to patch now p).(pr_operation_id) = opt_or patch.(pp_operation_id) p.(pr_operation_id).
Proof.
  unfold moved_proposal, patch_reason, patch_decision, opt_or.
  destruct (pp_operation_id patch), (pp_decision patch), (pp_reason patch), to; done.
Qed.

Lemma allowed_edges from to : allowed from to = true →
  from = PPending ∧ (to = PApproved ∨ to = PRejected ∨ to = PInvalidated)
  ∨ from = PApproved ∧ to = PApplying ∨ from = PApplying ∧ (to = PApplied ∨ to = PFailed).
Proof. destruct from, to; intros [=]; tauto. Qed.

Lemma claimed_Ok id op d p d' :
  claimed_proposal id op d = Ok (p, d') →
  find_row id d.(db_proposals) = Some p ∧ p.(pr_operation_id) = Some op ∧ d' = d.
Proof.
  unfold claimed_proposal. intros H. inv_st.
  match goal with H : required _ _ = _ |- _ => apply required_Ok in H as [Hf ->] end.
  by match goal with H : ostr_eqb _ _ = true |- _ => apply bool_decide_eq_true in H end.
Qed.
Lemma transition_edge d p0 to patch now :
  proposals_ok d → p0 ∈ d.(db_proposals) → allowed p0.(pr_status) to = true →
  (to = PApplied ∨ to = PFailed → ∀ op, p0.(pr_operation_id) = Some op →
    find_row op d.(db_receipts) = None) →
  (to = PApplying → is_none_or patch.(pp_operation_id) (λ s, String.eqb s "") = false) →
  (to ≠ PApplying → patch.(pp_operation_id) = None) →
  edge d p0 (moved_proposal to patch now p0).
Proof.
  intros Hok Hp0 Hal Hfree Hclaim Hnone. pose proof (po_phase _ Hok p0 Hp0) as Hph.
  destruct (moved_fields to patch now p0) as (E1 & E2 & E3 & E4 & E5).
  split_and!; [done..|]. rewrite E4, E5.
  apply allowed_edges in Hal as [ [Hs Ht]|[ [Hs Ht]|[Hs Ht] ] ]; rewrite Hs in Hph |- *; simpl in Hph.
  - rewrite Hph, Hnone by (by destruct Ht as [ ->|[ ->| ->] ]). done.
  - rewrite Hph, Ht. specialize (Hclaim Ht). split; [done|].
    destruct (pp_operation_id patch) as [op|]; [|done]. exists op. split; [done|].
    by apply String.eqb_neq.
  - destruct Hph as (op & Hop & _). rewrite Hop, Hnone by (by destruct Ht as [ ->| ->]).
    split; [done|]. by rewrite (Hfree Ht op Hop).
Qed.

Lemma transition_moves id from to patch now : within (moves (does (row_act id to))) (transition_proposal id from to patch now).
Proof.
  intros d r d' H Hok. unfold transition_proposal in H. inv_st.
  match goal with H : required _ _ = _ |- _ => apply required_Ok in H as [Hf ->] end.
  match goal with H : _ && allowed _ _ = true |- _ => apply andb_true_iff in H as [_ Hal] end.
  match goal with H : Proposals.save _ ?d1 = _ |- _ => rename H into Hs end.
  match type of Hs with _ ?d1 = _ =>
    match goal with H : _ d = Ok (?u, d1) |- _ => rename H into Hb;
      assert (d1 = d ∧ (to = PApplied ∨ to = PFailed → ∀ op, x.(pr_operation_id) = Some op →
        find_row op d.(db_receipts) = None)) as [-> Hfree] end end.
  { destruct to, (pr_operation_id x) as [op|];
      try (apply st_ret_Ok in Hb as [_ ->]; split; [done|by intros [?|?] ]).
    all: apply st_bind_Ok in Hb as (o & d2 & [-> ->]%get_receipt_Ok & Hg); inv_st; split; [done|].
    all: intros _ op' [= <-]. all: by destruct (find_row op _). }
  apply row_proposal in Hf as Hx. destruct Hx as [Hx Hid].
  destruct (moved_fields to patch now x) as (E1 & _ & _ & E4 & _).
  eapply save_moves in Hs as [? ?]; [split; [done|eapply does_once; [|done]]|done|by rewrite E1, Hid|].
  { unfold row_label. rewrite E1, E4, Hid. by destruct (pr_status x), to. }
  apply transition_edge; try done; intros Ht; reflect_bools.
  - subst to. by rewrite (bool_decide_true (PApplying = PApplying)) in * by done.
  - rewrite (bool_decide_false (to = PApplying)) in * by done. by destruct (pp_operation_id patch).
Qed.

(** The terminal stamp of a claimed proposal, by the receipt or without. *)
Lemma stamped_edge d p0 p outcome op :
  p0.(pr_status) = PApplying → p0.(pr_operation_id) = Some op →
  p.(pr_id) = p0.(pr_id) → p.(pr_scope_key) = p0.(pr_scope_key) →
  p.(pr_action_id) = p0.(pr_action_id) → p.(pr_operation_id) = p0.(pr_operation_id) →
  p.(pr_status) = stamp_of outcome →
  (∀ row, find_row op d.(db_receipts) = Some row →
    stamp_of (rc_outcome (rr_record row)) = stamp_of outcome) →
  edge d p0 p.
Proof.
  intros Hs Ho E1 E2 E3 E4 E5 Hr. split_and!; [done..|]. rewrite Hs, Ho, E4, E5. split; [done|].
  destruct (find_row op _) as [row|] eqn:E; simpl; [by rewrite (Hr row eq_refl)|].
  unfold stamp_of. destruct String.eqb; auto.
Qed.

Lemma stamp_fields patch now outcome p :
  let p' := patch_decision patch now (patch_reason patch (stamped outcome now p)) in
  p'.(pr_id) = p.(pr_id) ∧ p'.(pr_scope_key) = p.(pr_scope_key) ∧ p'.(pr_action_id) = p.(pr_action_id)
  ∧ p'.(pr_operation_id) = p.(pr_operation_id) ∧ p'.(pr_status) = stamp_of outcome.
Proof.
  unfold patch_decision, patch_reason. by destruct (is_some _), (is_some _).
Qed.

(** A claimed proposal [p0] and its stamped form [p]. *)
Record stamps (op : string) outcome p0 p : Prop := {
  sp_claimed : p0.(pr_status) = PApplying;
  sp_held : p0.(pr_operation_id) = Some op;
  sp_id : p.(pr_id) = p0.(pr_id);
  sp_scope : p.(pr_scope_key) = p0.(pr_scope_key);
  sp_action : p.(pr_action_id) = p0.(pr_action_id);
  sp_operation : p.(pr_operation_id) = p0.(pr_operation_id);
  sp_status : p.(pr_status) = stamp_of outcome
}.

(** The stamp under the receipt that is there. *)
Lemma stamp_moves d id p0 p op row u d' :
  proposals_ok d → find_row id d.(db_proposals) = Some p0 →
  find_row op d.(db_receipts) = Some row → stamps op (rc_outcome (rr_record row)) p0 p →
  Proposals.save p d = Ok (u, d') → proposals_ok d' ∧ rtc (does (completion_act id op)) (abs d) (abs d').
Proof.
  intros Hok Hf Hrow Hst Hsave. apply row_proposal in Hf as Hp. destruct Hp as [_ Hid].
  assert (pr_id p = id) as Hpid by (rewrite (sp_id _ _ _ _ Hst); exact Hid). destruct Hst.
  eapply save_moves in Hsave as [? ?]; [split; [done|eapply does_once; [|done]]|done|by rewrite Hpid|].
  { unfold row_label. rewrite sp_claimed0, sp_operation0, sp_held0, Hpid. right. by eexists. }
  eapply stamped_edge; try done. intros row'. by rewrite Hrow; intros [= <-].
Qed.

(** The receipt stored and the stamp, in one job. *)
Lemma receipt_and_stamp_moves d p0 p id op outcome now u d1 u' d' :
  proposals_ok d → find_row id d.(db_proposals) = Some p0 → stamps op outcome p0 p →
  insert_receipt (Some id) (mkReceipt id op outcome now) d = Ok (u, d1) →
  Proposals.save p d1 = Ok (u', d') → proposals_ok d' ∧ rtc (does (completion_act id op)) (abs d) (abs d').
Proof.
  intros Hok Hf Hst Hi Hs. apply row_proposal in Hf as Hp. destruct Hp as [Hp Hid].
  apply insert_receipt_moves in Hi as (Hok1 & Hm & Ep & row & Hrow & Est); [|done|].
  - eapply save_moves in Hs as [? ?]; [split; [done|]|done| |].
    + eapply rtc_l; [eexists; split; [|exact Hm]; by left|]. eapply does_once; [|done].
      unfold row_label. rewrite (sp_claimed _ _ _ _ Hst), (sp_operation _ _ _ _ Hst), (sp_held _ _ _ _ Hst), (sp_id _ _ _ _ Hst), Hid.
      right. by eexists.
    + rewrite Ep, (sp_id _ _ _ _ Hst), Hid. exact Hf.
    + destruct Hst. eapply stamped_edge; try done. intros row'. cbn [rc_operation_id] in Hrow.
      by rewrite Hrow; intros [= <-].
  - intros id' [= <-]. split; [done|]. exists p0. by destruct Hst.
Qed.

Lemma complete_moves id op outcome now : within (moves (does (completion_act id op))) (complete_proposal id op outcome now).
Proof.
  intros d r d' H Hok. unfold complete_proposal in H. inv_st.
  match goal with H : claimed_proposal _ _ _ = _ |- _ => apply claimed_Ok in H as (Hf & Ho & ->) end.
  match goal with H : get_receipt _ _ = _ |- _ => apply get_receipt_Ok in H as [-> ->] end.
  apply row_proposal in Hf as Hp. destruct Hp as [_ Hid].
  destruct (find_row op d.(db_receipts)) as [row|] eqn:Er; simpl in H; inv_st.
  - match goal with H : (if _ then _ else _) _ = _ |- _ => rename H into Hs end.
    case_bool_decide as Hst; [|by inv_st].
    by apply (stamp_moves d id x _ op row) in Hs.
  - match goal with H : bool_decide _ = true |- _ => apply bool_decide_eq_true in H end.
    eapply receipt_and_stamp_moves; try done. by split.
Qed.

Lemma finalize_moves input : within (moves (does (completion_act input.(fa_proposal_id) input.(fa_operation_id)))) (finalize_apply input).
Proof.
  intros d r d' H Hok. unfold finalize_apply in H. inv_st.
  match goal with H : claimed_proposal _ _ _ = _ |- _ => apply claimed_Ok in H as (Hf & Ho & ->) end.
  match goal with H : get_receipt _ _ = _ |- _ => apply get_receipt_Ok in H as [-> ->] end.
  apply row_proposal in Hf as Hp. destruct Hp as [_ Hid].
  match goal with H : _ && allowed _ _ = true |- _ => apply andb_true_iff in H as [_ Hal] end.
  match goal with H : bool_decide _ || bool_decide _ = true |- _ => rename H into Hto end.
  match type of Hal with allowed (pr_status ?x) _ = _ => assert (pr_status x = PApplying) as Hst end.
  { apply orb_true_iff in Hto as [Ht%bool_decide_eq_true|Ht%bool_decide_eq_true];
      rewrite Ht in Hal; by destruct (pr_status _). }
  assert (∀ outcome p0, p0.(pr_status) = PApplying → p0.(pr_operation_id) = Some input.(fa_operation_id) →
    stamps input.(fa_operation_id) outcome p0
      (patch_decision input.(fa_patch) input.(fa_now)
        (patch_reason input.(fa_patch) (stamped outcome input.(fa_now) p0)))) as Hstamps.
  { intros outcome p0 ? ?.
    destruct (stamp_fields input.(fa_patch) input.(fa_now) outcome p0) as (? & ? & ? & ? & ?). by split. }
  destruct (find_row (fa_operation_id input) d.(db_receipts)) as [row|] eqn:Er; simpl in H; inv_st.
  - match goal with H : Proposals.save _ _ = _ |- _ => eapply stamp_moves in H end; try done. by apply Hstamps.
  - eapply receipt_and_stamp_moves; try done. by apply Hstamps.
Qed.

Lemma record_moves op outcome now : within (moves (does (λ a, a = Recorded op))) (record_outcome op outcome now).
Proof.
  intros d r d' H Hok. unfold record_outcome, select in H. inv_st.
  match goal with H : get_receipt _ _ = _ |- _ => apply get_receipt_Ok in H as [-> ->] end.
  destruct (find_row op d.(db_receipts)) as [row|] eqn:Er; simpl in H; inv_st; [done|].
  match goal with H : insert_receipt _ _ _ = _ |- _ => apply insert_receipt_moves in H as (? & Hm & _) end;
    [split; [done|by eapply does_once]|done|].
  intros id. destruct (max_by_key pr_created_at _) as [p|] eqn:Em; simpl; [|done].
  apply max_by_key_elem, elem_of_filter_by in Em as [Hop%bool_decide_eq_true Hp].
  destruct (String.eqb _ _); [done|]. intros [= <-]. eauto.
Qed.

Lemma delete_by_chat_moves chat_id : within (moves withdrawal) (delete_proposals_by_chat chat_id).
Proof. unfold delete_proposals_by_chat. within_auto. apply delete_proposal_moves. Qed.

Lemma invalidate_loop l d u d' :
  proposals_ok d → NoDup (map pr_id l) →
  (∀ p, p ∈ l → p.(pr_status) = PPending ∧ find_row p.(pr_id) d.(db_proposals) = Some p) →
  for_each (λ p, Proposals.save (p <| pr_status := PInvalidated |>
    <| pr_reason := Some "revision_conflict" |>)) l d = Ok (u, d') →
  proposals_ok d' ∧ rtc (does (λ a, ∃ id, a = Decided id PInvalidated)) (abs d) (abs d').
Proof.
  revert d. induction l as [|p l IH]; intros d Hok Hnd Hl H; simpl in H; inv_st; [done|].
  apply NoDup_cons in Hnd as [Hp Hnd]. destruct (Hl p) as [Hs Hf]; [by left|].
  match goal with H : Proposals.save _ _ = _ |- _ => rename H into Hsave end.
  apply row_proposal in Hf as Hin. destruct Hin as [Hin _].
  pose proof (po_phase _ Hok p Hin) as Hph. rewrite Hs in Hph. simpl in Hph.
  apply save_Ok in Hsave as Hd; [|by eauto]. destruct Hd as (j & Hj & _ & Hd).
  eapply save_moves in Hsave as [Hok1 Hm]; [|done|done|].
  2: { split_and!; [done..|]. rewrite Hs, Hph. simpl. split; [done|by auto]. }
  destruct (IH _ Hok1 Hnd) with (2 := H) as [? ?].
  - intros q Hq. destruct (Hl q) as [? Hfq]; [by right|]. split; [done|]. rewrite Hd.
    cbn [db_proposals upd upd_db_proposals]. rewrite (find_row_replace (A := ProposalRecord)).
    assert (row_key j = p.(pr_id)) as -> by by injection Hj.
    destruct (String.eqb_spec (pr_id p) (pr_id q)) as [E|]; [|done].
    destruct Hp. rewrite E. by apply list_elem_of_fmap_2.
  - split; [done|]. eapply rtc_l; [|done]. eexists. split; [|exact Hm]. unfold row_label. rewrite Hs. by eexists.
Qed.

Lemma invalidate_moves scope revision : within (moves (does (λ a, ∃ id, a = Decided id PInvalidated))) (invalidate_pending scope revision).
Proof.
  intros d r d' H Hok. unfold invalidate_pending, select in H. inv_st.
  match goal with H : for_each _ _ _ = _ |- _ => apply invalidate_loop in H end; [done|done|..].
  - apply NoDup_map_filter, Hok.
  - intros p [Hst Hp]%elem_of_filter_by. unfold stale in Hst.
    split; [|by apply proposal_row]. by reflect_bools.
Qed.

#[local] Instance moves_steps R : StoreSteps (moves R).
Proof. split; [apply _|..]. all: by_same (λ d, (d.(db_proposals), d.(db_receipts))). Qed.

Lemma moves_mono (R R' : approval → approval → Prop) d d' : (∀ x y, R x y → R' x y) → moves R d d' → moves R' d d'.
Proof. intros HR H Hok. destruct (H Hok) as [? Hr]. split; [done|]. by eapply rtc_subrel. Qed.

Lemma does_moves A d d' : moves (does A) d d' → moves advance d d'.
Proof. apply moves_mono. intros x y (a & _ & Ha). by exists a. Qed.

(** Short of the deletion of a chat or of its proposals, nothing is
    withdrawn, and each operation keeps to its own steps. *)
Lemma exec_does op : keeps_proposals op = true → within (moves (does (permits op))) (exec op).
Proof.
  intros Hop. apply exec_within; [apply _|]. intros Hd.
  destruct op; try discriminate Hd; try discriminate Hop; simpl; unfold ignore;
    try by_same (λ d, (d.(db_proposals), d.(db_receipts)));
    (apply within_bind; [apply _| |intros; apply within_ret, _]).
  - apply create_moves.
  - apply transition_moves.
  - apply complete_moves.
  - apply finalize_moves.
  - apply record_moves.
  - apply invalidate_moves.
Qed.
Lemma exec_advance op : keeps_proposals op = true → within (moves advance) (exec op).
Proof. intros Hop d a d' H. by eapply does_moves, exec_does. Qed.
Lemma exec_withdraws op : keeps_proposals op = false → within (moves withdrawal) (exec op).
Proof.
  intros Hop. destruct op; try discriminate Hop; simpl; unfold ignore.
  - apply within_delete_chat; [apply _| |apply delete_proposal_moves|..];
      by_same (λ d, (d.(db_proposals), d.(db_receipts))).
  - apply within_bind; [apply _|by apply delete_by_chat_moves|]. intros. apply within_ret, _.
Qed.
Lemma exec_moves op : within (moves machine) (exec op).
Proof.
  intros d a d' H. destruct (keeps_proposals op) eqn:Hop.
  - by eapply moves_mono; [|apply (exec_advance op Hop d a)]; [apply advanced|].
  - by eapply moves_mono; [|apply (exec_withdraws op Hop d a)]; [apply withdrawn|].
Qed.

Lemma empty_proposals_ok file : proposals_ok (empty_db file).
Proof.
  split; simpl; try apply NoDup_nil_2; intros;
    match goal with H : _ ∈ [] |- _ => by apply elem_of_nil in H end.
Qed.

Lemma run_moves ops d : moves machine d (run ops d).
Proof. apply run_within; [apply _|]. intros op _. apply exec_moves. Qed.

Lemma run_advance ops d : forallb keeps_proposals ops = true → moves advance d (run ops d).
Proof.
  intros Hops. apply run_within; [apply _|]. intros op Hop. apply exec_advance.
  rewrite forallb_forall in Hops. by apply Hops, list_elem_of_In.
Qed.

Lemma proposals_run file ops : proposals_ok (run ops (empty_db file)).
Proof. by apply (run_moves ops (empty_db file)), empty_proposals_ok. Qed.
(** A receipt row stays as it is. *)
Definition receipts_kept (d d' : Db) : Prop := ∀ op row,
  find_row op d.(db_receipts) = Some row → find_row op d'.(db_receipts) = Some row.
#[local] Instance receipts_kept_preorder : PreOrder receipts_kept.
Proof. split; [by intros d ??|]. intros d1 d2 d3 H1 H2 op row ?. eauto. Qed.
#[local] Instance same_receipts_kept : Contains (same db_receipts) receipts_kept.
Proof. intros d d' E op row ?. by rewrite E. Qed.
#[local] Instance receipts_kept_steps : StoreSteps receipts_kept.
Proof. split; [apply _|..]. all: by_same db_receipts. Qed.

Lemma insert_receipt_kept column r : within receipts_kept (insert_receipt column r).
Proof.
  intros d u d' (j & _ & _ & ->)%insert_receipt_Ok op row Hrow. cbn [db_receipts upd upd_db_receipts].
  by rewrite (find_row_app (A := ReceiptRow)), Hrow.
Qed.

Lemma receipts_run ops d : forallb keeps_proposals ops = true → receipts_kept d (run ops d).
Proof.
  intros Hops. apply run_within; [apply _|]. intros op Hop.
  rewrite forallb_forall in Hops. specialize (Hops op). apply exec_within; [apply _|]. intros Hd.
  destruct op; try discriminate Hd; try (by specialize (Hops ltac:(by apply list_elem_of_In)));
    simpl; unfold ignore; try by_same db_receipts.
  all: unfold complete_proposal, finalize_apply, record_outcome, claimed_proposal, get_receipt.
  all: within_auto; try apply insert_receipt_kept; try by_same db_receipts.
Qed.


(** The first committed outcome of an operation wins.  Once an operation
    has a receipt, and whatever runs after it short of deleting the chat's
    proposals, every reading returns that receipt, recording another outcome
    answers with it and changes nothing, and a completion or a finalisation
    that is not refused returns it. *)
Theorem first_outcome_wins d op row ops :
  find_row op d.(db_receipts) = Some row → forallb keeps_proposals ops = true →
  let d' := run ops d in
  receipt op d' = Ok (Some row.(rr_record), d')
  ∧ (∀ outcome now, record_outcome op outcome now d' = Ok (row.(rr_record), d'))
  ∧ (∀ id outcome now r d2, complete_proposal id op outcome now d' = Ok (r, d2) → r = row.(rr_record))
  ∧ (∀ input r d2, input.(fa_operation_id) = op → finalize_apply input d' = Ok (r, d2) →
      r = row.(rr_record)).
Proof.
  intros Hrow Hops d'. apply (receipts_run ops d Hops) in Hrow. fold d' in Hrow.
  assert (get_receipt op d' = Ok (Some row.(rr_record), d')) as Hg.
  { apply get_receipt_Ok. by rewrite Hrow. }
  split_and!; [done|..].
  - intros outcome now. unfold record_outcome, mbind, st_bind. by rewrite Hg.
  - intros id outcome now r d2 H. unfold complete_proposal in H. inv_st.
    match goal with H : claimed_proposal _ _ _ = _ |- _ => apply claimed_Ok in H as (_ & _ & ->) end.
    rewrite Hg in *. by inv_st.
  - intros input r d2 Hop H. unfold finalize_apply in H. rewrite Hop in H. inv_st.
    match goal with H : claimed_proposal _ _ _ = _ |- _ => apply claimed_Ok in H as (_ & _ & ->) end.
    rewrite Hg in *. by inv_st.
Qed.

(** *** Claims *)

Lemma claim_transition_Ok id from patch now d r d' :
  transition_proposal id from PApplying patch now d = Ok (r, d') →
  ∃ p op j, find_row id d.(db_proposals) = Some p ∧ p.(pr_status) = PApproved
    ∧ patch.(pp_operation_id) = Some op
    ∧ find_row id d'.(db_proposals) = Some j ∧ phase_of j = (PApplying, Some op).
Proof.
  intros H. unfold transition_proposal in H. inv_st.
  match goal with H : required _ _ = _ |- _ => apply required_Ok in H as [Hf ->] end.
  match goal with H : _ && allowed _ _ = true |- _ => apply andb_true_iff in H as [_ Hal] end.
  match goal with H : negb (bool_decide _ && is_none_or _ _) = true |- _ => rename H into Hop end.
  rewrite (bool_decide_true (PApplying = PApplying)) in Hop by done. simpl in Hop.
  destruct (pp_operation_id patch) as [op|] eqn:Eop; [|done].
  destruct (moved_fields PApplying patch now x) as (Eid & _ & _ & Est & Eo).
  apply row_proposal in Hf as Hx. destruct Hx as [Hx Hid].
  match goal with H : Proposals.save _ _ = _ |- _ => apply save_Ok in H as (j & Hj & _ & ->) end;
    [|rewrite Eid, Hid; by eexists].
  exists x, op, j. split_and!; [done| |done| |].
  - by destruct (pr_status x).
  - cbn [db_proposals upd upd_db_proposals]. rewrite (find_row_replace (A := ProposalRecord)).
    assert (row_key j = id) as ->.
    { change (pr_id j = id). by rewrite (held_id _ _ Hj), Eid. }
    change (find_row id d.(db_proposals) = Some x) in Hf. by rewrite String.eqb_refl, Hf.
  - rewrite (held_phase _ _ Hj). unfold phase_of. by rewrite Est, Eo, Eop.
Qed.

Lemma claimed_status s : rtc edge_of PApplying s → s ≠ PApproved.
Proof.
  intros H. assert (unclaimed s = false) as Hu; [|by intros ->].
  assert (∀ s s', rtc edge_of s s' → unclaimed s = false → unclaimed s' = false) as K; [|by eapply K].
  clear. induction 1 as [|s s1 s' E _ IH]; [done|]. intros Hs. apply IH.
  unfold edge_of in E. by destruct s, s1.
Qed.

(** The phase of a proposal in a later state. *)
Lemma phase_run id p h ops d :
  proposals_ok d → forallb keeps_proposals ops = true →
  find_row id d.(db_proposals) = Some p → phase_of p = h →
  ∃ p', find_row id (run ops d).(db_proposals) = Some p' ∧ phase_after h (phase_of p').
Proof.
  intros Hok Hops Hf <-. destruct (run_advance ops d Hops Hok) as [_ Hr].
  destruct (advance_phase _ _ id (phase_of p) Hr) as (h' & Hh & Ha); [by rewrite phases_lookup, Hf|].
  rewrite phases_lookup in Hh.
  destruct (find_row id (run ops d).(db_proposals)) as [p'|] eqn:E; [|done].
  exists p'. split; [done|]. injection Hh as <-. exact Ha.
Qed.

(** An apply claim is granted once.  After a proposal was moved to
    applying under an operation id, and whatever runs next short of deleting
    the chat's proposals, it holds that operation id and is applying or
    settled; no second claim of it succeeds, and no claim of any proposal
    under the same operation id. *)
Theorem apply_claim_once file before id from patch now r d1 after :
  let d := run before (empty_db file) in
  transition_proposal id from PApplying patch now d = Ok (r, d1) →
  forallb keeps_proposals after = true →
  let d2 := run after d1 in
  (∃ p, find_row id d2.(db_proposals) = Some p ∧ p.(pr_operation_id) = patch.(pp_operation_id)
    ∧ rtc edge_of PApplying p.(pr_status))
  ∧ (∀ from' patch' now' r' d3, transition_proposal id from' PApplying patch' now' d2 ≠ Ok (r', d3))
  ∧ (∀ id' from' patch' now' r' d3, patch'.(pp_operation_id) = patch.(pp_operation_id) →
      transition_proposal id' from' PApplying patch' now' d2 ≠ Ok (r', d3)).
Proof.
  intros d H Hafter d2.
  destruct (transition_moves _ _ _ _ _ _ _ _ H (proposals_run file before)) as [Hok1 _].
  apply claim_transition_Ok in H as (p0 & op & j & _ & _ & Eop & Hj & Hjph).
  destruct (phase_run id j _ after d1 Hok1 Hafter Hj Hjph) as (p & Hp & [Hs Ho]).
  fold d2 in Hp. simpl in Hs, Ho. destruct Ho as [Ho|Ho]; [done|].
  assert (∀ from' patch' now' r' d3,
    transition_proposal id from' PApplying patch' now' d2 ≠ Ok (r', d3)) as Hself.
  { intros from' patch' now' r' d3 (q & _ & _ & Hq & Hqs & _)%claim_transition_Ok.
    rewrite Hp in Hq. injection Hq as <-. by apply claimed_status in Hs. }
  split_and!; [exists p; split_and!; [done|congruence|done]|done|].
  intros id' from' patch' now' r' d3 Epatch Hc.
  destruct (run_moves after d1 Hok1) as [Hok2 _]. fold d2 in Hok2.
  destruct (does_moves _ _ _ (transition_moves _ _ _ _ _ _ _ _ Hc) Hok2) as [Hok3 Hr].
  destruct (advance_phase _ _ id (phase_of p) Hr) as (h & Hh & [_ Hha]); [by rewrite phases_lookup, Hp|].
  rewrite phases_lookup in Hh. destruct (find_row id d3.(db_proposals)) as [p3|] eqn:Hp3; [|done].
  injection Hh as <-. simpl in Hha. destruct Hha as [?|Hha]; [congruence|].
  pose proof Hc as Hc'. apply claim_transition_Ok in Hc as (_ & op' & j' & _ & _ & Eop' & Hj' & Hph').
  apply row_proposal in Hp3 as [Hp3 Hid3]. apply row_proposal in Hj' as [Hj' Hidj].
  injection Hph' as _ Hph'. assert (p3 = j') as ->.
  { apply (operation_owner d3 _ _ op Hok3 Hp3 Hj'); congruence. }
  rewrite <-Hidj, Hid3 in Hc'. by apply Hself in Hc'.
Qed.

(** Proposals keep their keys and walk the legal edges.  In every
    reachable store no two proposals hold one action key or one operation
    id, and a receipt that names a proposal is the one of its operation;
    whatever runs next short of a deletion, a proposal is still there and its
    status has moved along [allowed], so a decision that ended it stands. *)
Theorem proposals_walk file before :
  let d := run before (empty_db file) in
  (∀ p q, p ∈ d.(db_proposals) → q ∈ d.(db_proposals) →
    holds_action p = true → holds_action q = true → same_action p q = true → p.(pr_id) = q.(pr_id))
  ∧ (∀ p q op, p ∈ d.(db_proposals) → q ∈ d.(db_proposals) →
      p.(pr_operation_id) = Some op → q.(pr_operation_id) = Some op → p = q)
  ∧ (∀ row id, row ∈ d.(db_receipts) → row.(rr_proposal) = Some id →
      ∃ p, find_row id d.(db_proposals) = Some p ∧ p.(pr_operation_id) = Some (rr_operation row))
  ∧ ∀ after id p, forallb keeps_proposals after = true → find_row id d.(db_proposals) = Some p →
      ∃ p', find_row id (run after d).(db_proposals) = Some p'
        ∧ rtc (λ s s', allowed s s' = true) p.(pr_status) p'.(pr_status).
Proof.
  intros d. pose proof (proposals_run file before) as Hok. fold d in Hok. split_and!.
  - intros p q Hp Hq H1 H2 H3. pose proof (po_clash _ Hok p q Hp Hq) as C.
    unfold rows_clash in C. rewrite H1, H2, H3, orb_true_r, andb_true_r in C.
    by apply negb_false_iff, String.eqb_eq in C.
  - intros p q op. by apply operation_owner.
  - intros row id Hrow Hc. destruct (po_bound _ Hok row id Hrow Hc) as (p & Hp & Hid & ? & _).
    exists p. split; [|done]. rewrite <-Hid. by apply proposal_row.
  - intros after id p Hafter Hp.
    destruct (phase_run id p _ after d Hok Hafter Hp eq_refl) as (p' & ? & [Hs _]). by exists p'.
Qed.

(** A receipt of somebody else wedges a claim.  Nothing refuses to claim a
    proposal under an operation id that already has a receipt; when that
    receipt does not name the proposal (an outcome recorded before the claim
    names none), no completion, no finalisation and no terminal transition of
    the proposal is accepted: it stays applying. *)
Theorem foreign_receipt_wedges d id p op row :
  find_row id d.(db_proposals) = Some p → phase_of p = (PApplying, Some op) →
  find_row op d.(db_receipts) = Some row → rc_proposal_id (rr_record row) ≠ id →
  (∀ op' outcome now r d', complete_proposal id op' outcome now d ≠ Ok (r, d'))
  ∧ (∀ input r d', input.(fa_proposal_id) = id → finalize_apply input d ≠ Ok (r, d'))
  ∧ (∀ from to patch now r d', transition_proposal id from to patch now d ≠ Ok (r, d')).
Proof.
  intros Hf Hph Hrow Hne. injection Hph as Hs Ho. apply String.eqb_neq in Hne.
  assert (get_receipt op d = Ok (Some row.(rr_record), d)) as Hg.
  { apply get_receipt_Ok. by rewrite Hrow. }
  split_and!.
  - intros op' outcome now r d' H. unfold complete_proposal in H. inv_st.
    match goal with H : claimed_proposal _ _ _ = _ |- _ => apply claimed_Ok in H as (Hf' & Ho' & ->) end.
    assert (op' = op) as -> by congruence. rewrite Hg in *. inv_st. congruence.
  - intros input r d' <- H. unfold finalize_apply in H. inv_st.
    match goal with H : claimed_proposal _ _ _ = _ |- _ => apply claimed_Ok in H as (Hf' & Ho' & ->) end.
    assert (fa_operation_id input = op) as Eop by congruence. rewrite Eop, Hg in *. inv_st. congruence.
  - intros from to patch now r d' H. unfold transition_proposal in H. inv_st.
    match goal with H : required _ _ = _ |- _ => apply required_Ok in H as [Hf' ->] end.
    change (find_row id d.(db_proposals) = Some x) in Hf'. rewrite Hf in Hf'. injection Hf' as <-.
    match goal with H : _ && allowed _ _ = true |- _ => apply andb_true_iff in H as [_ Hal] end.
    rewrite Hs in Hal. apply allowed_edges in Hal as [ [? _]|[ [? _]|[_ Ht] ] ]; [done..|].
    match goal with H : (match to with _ => _ end) _ = _ |- _ => rename H into Hb end.
    rewrite Ho in Hb. destruct Ht as [ ->| ->]; apply st_bind_Ok in Hb as (o & d2 & Hb & Hg');
      rewrite Hg in Hb; by inv_st.
Qed.
End laws.

(** ** Witnesses *)

Section witnesses.
#[local] Existing Instance example_host.

Definition ex_proposal (id action : string) : ProposalRecord :=
  mkProposal id "chat" None "scope" (Some action) "edit" "write" "low" PPending VNull
    [VStr "first"; VStr "second"] [] false None None None None 0 None None None.
Definition ex_patch (op : option string) : ProposalPatch := mkProposalPatch op None None.
Definition ex_outcome (status : string) (applied : Z) : ApplyOutcome :=
  mkOutcome status applied [] None None.
Definition ex_ask : list Op :=
  [OpCreateProposal (ex_proposal "p" "a"); OpCreateProposal (ex_proposal "q" "a");
   OpTransitionProposal "p" [PPending] PApproved (ex_patch None) 1].
Definition ex_applied : Db := run
  (ex_ask ++ [OpTransitionProposal "p" [PApproved] PApplying (ex_patch (Some "op")) 2;
    OpCompleteProposal "p" "op" (ex_outcome "applied" 2) 3]) (empty_db true).

(** The second proposal lost the action key; the first was applied. *)
Example ex_applied_rows :
  map phase_of ex_applied.(db_proposals) = [(PApplied, Some "op")]
  ∧ map rr_operation ex_applied.(db_receipts) = ["op"].
Proof. vm_compute. done. Qed.
End witnesses.


Lemma first_outcome_wins_witness :
  let host := example_host in
  ∃ row, find_row "op" ex_applied.(db_receipts) = Some row
  ∧ record_outcome "op" (ex_outcome "failed" 0) 9 (run [] ex_applied)
    = Ok (row.(rr_record), run [] ex_applied).
Proof.
  intros host. destruct (find_row "op" ex_applied.(db_receipts)) as [row|] eqn:E;
    [|vm_compute in E; discriminate E].
  exists row. split; [reflexivity|].
  destruct (first_outcome_wins ex_applied "op" row [] E eq_refl) as (_ & H & _). apply H.
Defined.

Lemma apply_claim_once_witness :
  let host := example_host in
  ∃ r d1, transition_proposal "p" [PApproved] PApplying (ex_patch (Some "op")) 2
      (run ex_ask (empty_db true)) = Ok (r, d1)
    ∧ ∀ r' d3, transition_proposal "p" [PApproved; PApplying] PApplying (ex_patch (Some "op2")) 3
        (run [OpInvalidatePending "scope" "r2"] d1) ≠ Ok (r', d3).
Proof.
  intros host. destruct (transition_proposal "p" [PApproved] PApplying (ex_patch (Some "op")) 2
    (run ex_ask (empty_db true))) as [ [r d1]|e] eqn:E; [|vm_compute in E; discriminate E].
  exists r, d1. split; [reflexivity|]. intros r' d3.
  destruct (apply_claim_once true ex_ask "p" [PApproved] (ex_patch (Some "op")) 2 r d1
    [OpInvalidatePending "scope" "r2"] E eq_refl) as (_ & H & _). apply H.
Defined.

Lemma proposals_walk_witness :
  let host := example_host in
  ∃ p', find_row "p" (run [] (run ex_ask (empty_db true))).(db_proposals) = Some p'
    ∧ rtc (λ s s', allowed s s' = true) PApproved p'.(pr_status).
Proof.
  intros host. destruct (find_row "p" (run ex_ask (empty_db true)).(db_proposals)) as [p|] eqn:E;
    [|vm_compute in E; discriminate E].
  destruct (proj2 (proj2 (proj2 (proposals_walk true ex_ask))) [] "p" p eq_refl E) as (p' & Hf & Hs).
  exists p'. split; [exact Hf|]. assert (p.(pr_status) = PApproved) as Hp.
  { vm_compute in E. by injection E as <-. }
  by rewrite <-Hp.
Defined.

Lemma foreign_receipt_wedges_witness :
  let host := example_host in
  let d := run (OpRecordOutcome "op" (ex_outcome "applied" 2) 0 :: ex_ask
    ++ [OpTransitionProposal "p" [PApproved] PApplying (ex_patch (Some "op")) 2]) (empty_db true) in
  (phase_of <$> find_row "p" d.(db_proposals)) = Some (PApplying, Some "op")
  ∧ ∀ r d', complete_proposal "p" "op" (ex_outcome "applied" 2) 3 d ≠ Ok (r, d').
Proof.
  intros host d. destruct (find_row "p" d.(db_proposals)) as [p|] eqn:E; [|vm_compute in E; discriminate E].
  destruct (find_row "op" d.(db_receipts)) as [row|] eqn:Er; [|vm_compute in Er; discriminate Er].
  assert (phase_of p = (PApplying, Some "op")) as Hp by (vm_compute in E; by injection E as <-).
  split; [simpl; by rewrite Hp|]. intros r d'.
  destruct (foreign_receipt_wedges d "p" p "op" row E Hp Er) as (H & _).
  - vm_compute in Er. injection Er as <-. vm_compute. discriminate.
  - apply H.
Defined.
